(* ===== verification/_CoqProject ===== *)
-Q . S2P
Prelude.v
Types.v
ChainConfig.v
Interfaces.v
MultiSig.v
Certificates.v
Concrete.v
ValidatorSet.v
SafetyModule.v
VoteState.v
NoEndorsementState.v
Epochs.v
Leader.v
Pacemaker.v
Messages.v
Validation.v
ValidationSpec.v
Agreement.v
BlockTree.v
BlockTreeProps.v
BlockTreeCorrect.v
Timestamp.v
ConsensusState.v
ToyNet.v
DriverLogic.v
NodeSafety.v
NodeCommit.v
NodeRounds.v
Protocol.v
NodeProtocol.v
ForgottenQc.v
BlockSync.v
BlockSyncProps.v
BlockSyncSteps.v
BlockSyncServe.v
BlockSyncCorrect.v
BlockSyncExamples.v
EthTypes.v
ToyEth.v
ReserveBalance.v
NonceUsage.v
StaticValidation.v
SystemCalls.v
EthBlockValidator.v
ReserveProps.v
BaseFee.v
EthBlockPolicy.v
SystemCallsProps.v
NonceProps.v
EthPolicyProps.v
BaseNonces.v
BaseBalances.v
Solvency.v
PolicyTotal.v
PolicyRun.v
EthExamples.v
RaptorSets.v
RaptorHeap.v
RaptorCode.v
RaptorRows.v
RaptorMatrix.v
RaptorDecoder.v
RaptorInv.v
RaptorPeel.v
RaptorReactivate.v
RaptorDecode.v
RaptorReceive.v
RaptorEncoder.v
RaptorManaged.v
RaptorTheorems.v
Merkle.v
ReplayFilter.v
HandshakeFilter.v
DynamicCap.v
LeanUdp.v
LeanUdpPool.v
LeanUdpPolicy.v
LeanUdpRoundtrip.v
Raptorcast.v
RaptorcastParse.v
