(* ===== verification/Prelude.v ===== *)
(** * Verification of the Monad BFT node

    The sources are the Rust workspace under src/: nodes agree on a chain of
    blocks by a pipelined BFT protocol (the monad-consensus crates), whose blocks carry
    Ethereum transactions that are executed a fixed number of blocks later
    (the monad-eth crates), and exchange their messages over UDP.

    ** The program and the files

    _Base._ [Prelude] (this file: machine integers, panics and errors, maps in
    key order, tactics), [Types] (monad-types: rounds, epochs, sequence
    numbers, stakes), [ChainConfig] (monad-chain-config), [Interfaces] (what
    the generic code is generic over: keys, signatures, collections),
    [Concrete], [ToyNet], [ToyEth] (concrete instances, at which the
    definitions evaluate and the hypotheses of the theorems hold).

    _Consensus._ [ValidatorSet], [Epochs], [Leader], [MultiSig]
    (monad-validator, monad-multi-sig); [Certificates]
    (monad-consensus-types); [SafetyModule], [VoteState],
    [NoEndorsementState], [Pacemaker], [Messages], [Validation]
    (monad-consensus); [BlockTree] (monad-blocktree); [Timestamp],
    [ConsensusState] (monad-consensus-state: every handler of the driver, over
    a node's state, with its commands in order). The driver calls the safety
    module, the pacemaker, the collections and the block tree, and reaches the
    execution layer through the classes [BlockPolicy] and [BlockValidator] of
    [ConsensusState].

    _Execution payloads._ [EthTypes] (monad-eth-types; the types of the alloy
    crates are a class), [StaticValidation], [ReserveBalance], [NonceUsage],
    [EthBlockPolicy] (monad-eth-block-policy), [SystemCalls]
    (monad-system-calls), [EthBlockValidator] (monad-eth-block-validator),
    [BaseFee] (monad-tfm). The block validator summarises a block by the
    nonces and fees of its accounts; the policy checks the next block against
    the executed state and the summaries of the blocks since.

    _Block sync._ [BlockSync] (monad-blocksync, with its dispatch in
    monad-state): fetches missing headers and payloads from the ledger and
    from peers, and serves those of the block tree and the ledger to peers.

    _Network._ [Merkle] (monad-merkle), [ReplayFilter], [HandshakeFilter]
    (monad-wireauth), [DynamicCap] (monad-dynamic-cap), [LeanUdp]
    (monad-leanudp), and the Raptor code
    (monad-raptor): [RaptorSets] (sorted vectors, binary search, sums over
    GF(2)), [RaptorCode] (tables, parameters, rows), [RaptorMatrix] (dense
    matrices and elimination), [RaptorHeap], [RaptorDecoder] (the decoder and
    its buffers), [RaptorEncoder]. The decoder reaches the data through a
    closure that adds two buffers; the class [RowStore] of [RaptorPeel] says
    what it relies on, and the buffer set of the managed decoder is an
    instance.

    Names are the source's; a prefix tells apart methods of the same name. A
    handler is a function from the old state to the new one, in a monad
    [outcome] when it can panic; [result] is the source's [Result]. A record
    stands for a struct, an inductive type for an enum, [gmap] for a map, in
    key order where the source's map is sorted; where a hash map's order could
    matter it is a parameter ([HashOrder], [SetOrder]). [u64], [u128] and
    [U256] are [N] with the overflow of each operation written out: the
    newtypes panic, plain operators wrap as in the release profile, the
    [saturating_] and [checked_] methods do what they say.

    ** What the theorems show

    - Agreement. [SafetyModule], [NodeSafety]: whatever messages a node is
      sent, it signs at most one vote, proposal or no-endorsement of a kind per
      round. [Agreement]: hence one certified block per round, and what one
      node certifies the others accept. [NodeCommit]: a node finalizes one
      growing chain. [Protocol]: the commits of all nodes lie on one chain, in
      executions where no node falls back to an older certificate;
      [NodeProtocol]: the driver's runs are runs of that protocol;
      [ForgottenQc]: without the restriction the code can commit conflicting
      blocks, by an execution that is run here.
    - Components of consensus. [ValidationSpec]: validation accepts exactly the
      valid messages and certificates. [BlockTreeCorrect]: the tree's
      operations against chains of blocks. [NodeRounds], [Pacemaker],
      [VoteState], [NoEndorsementState], [ValidatorSet], [Leader], [Timestamp]:
      what a node votes for, round changes, certificates, quorums, leaders.
    - Execution payloads. [ReserveProps], [NonceProps]: the summary of a block
      is what its transactions do one by one. [EthPolicyProps]: the cache of
      committed blocks is complete. [BaseNonces], [BaseBalances]: the nonces
      and balances of a new block are those of replaying the blocks since the
      executed one. [Solvency], [PolicyTotal], [PolicyRun]: from genesis on the
      policy never panics, and accepted transactions can pay for their gas
      from the executed state. [SystemCallsProps]: the system transactions of
      an accepted block are exactly the scheduled ones. [BaseFee]: base fees
      stay in their bounds. [EthExamples] runs the policy on three blocks.
    - Block sync. [BlockSyncProps], [BlockSyncSteps], [BlockSyncServe] (the
      invariant, handler by handler), [BlockSyncCorrect]:
      whatever peers send it does not panic, emits only what was asked for
      with the right blocks, loses no request, can always finish the ranges
      whose headers it has, and answers the requests of peers.
      [BlockSyncExamples] runs it.
    - Raptor code. [RaptorRows]: the parameters and rows of RFC 5053 exist for
      every number of source symbols. [RaptorInv], [RaptorPeel],
      [RaptorReactivate], [RaptorReceive]: the invariant of the decoder, which
      implies its own checks, step by step; [RaptorDecode]: decoding ends, and
      stops only when the received rows leave a symbol open. [RaptorManaged],
      [RaptorTheorems]: whatever an encoder sends and in whatever order, the
      decoder gives the source or says that it cannot yet, and gives it as soon
      as the symbols determine it.
    - Network. [Merkle]: proofs verify and bind. [ReplayFilter],
      [HandshakeFilter]: replays are dropped and handshakes stay in budget.
      [LeanUdpPool], [LeanUdpPolicy], [LeanUdpRoundtrip]: reassembly keeps its
      limits, and fragments in any order give back the message.

    ** Fuel

    Loops that are not structural have fuel. The walks over the block tree get
    one more than its size ([bt_fuel]), the loops that build certificates one
    more than the number of signers, the exponential of the base fee 256
    rounds (130 suffice), the loop that starts payload requests one more than
    their limit, the loops of the Raptor decoder a multiple of its symbols and
    buffers ([decode_fuel]), the search for the next half symbol all words of
    their number of bits, the walk to a symbol of a row the prime that bounds
    it; theorems show that these return. Rejection sampling of a
    leader or a peer has no bound in the source: its fuel is an argument, with
    the condition on the draws for which it is enough.

    ** Not modelled

    Cryptographic primitives, RLP encodings and hash functions, the alloy
    types, the execution database and the random generator are parameters,
    with what is relied on as named hypotheses. Metrics and log messages are
    left out. Storage, sockets, timers, the RPC and archive services, FFI to
    the execution client and the test harnesses are input and output around
    the modelled code. The
    transaction pool, the chunked broadcast around the erasure code, peer
    discovery and the BLS signature collection are not modelled yet. *)
From stdpp Require Export base gmap list sorting numbers decidable fin_maps.
From Stdlib Require Export Strings.Byte.

#[global] Set Default Goal Selector "!".
#[global] Open Scope N_scope.

#[global] Instance byte_eq_dec : EqDecision Byte.byte := Byte.byte_eq_dec.

(** ** Machine integers

    Unsigned integers of the source are natural numbers ([N]); each operation
    of the source that can overflow is written with the behaviour it has:
    checked (a panic or an option), saturating, or wrapping. *)

Definition u64_MAX : N := 18446744073709551615.
Definition u128_MAX : N := 340282366920938463463374607431768211455.
Definition U256_MOD : N := 115792089237316195423570985008687907853269984665640564039457584007913129639936.
Definition U256_MAX : N := U256_MOD - 1.

#[global] Arguments u64_MAX : simpl never.
#[global] Arguments u128_MAX : simpl never.
#[global] Arguments U256_MOD : simpl never.
#[global] Arguments U256_MAX : simpl never.

Definition checked_add (max a b : N) : option N :=
  if decide (a + b ≤ max) then Some (a + b) else None.
Definition checked_sub (a b : N) : option N :=
  if decide (b ≤ a) then Some (a - b) else None.
Definition saturating_add (max a b : N) : N := N.min (a + b) max.
Definition saturating_sub (a b : N) : N := a - b.
Definition checked_mul (max a b : N) : option N :=
  if decide (a * b ≤ max) then Some (a * b) else None.
Definition wrapping_mul256 (a b : N) : N := (a * b) `mod` U256_MOD.
Definition wrapping_add256 (a b : N) : N := (a + b) `mod` U256_MOD.
Definition wrapping_add64 (a b : N) : N := (a + b) `mod` (u64_MAX + 1).

Lemma wrapping_add64_small a b : a + b ≤ u64_MAX → wrapping_add64 a b = a + b.
Proof. intros. unfold wrapping_add64. apply N.mod_small. lia. Qed.

(** Closes an equation between closed terms by evaluation in the kernel's
    virtual machine, without normalising the types it mentions. *)
Ltac vm_refl := lazymatch goal with |- @eq ?A _ ?b => vm_cast_no_check (@eq_refl A b) end.

(** A case analysis on [P], also where it is decided in the goal. *)
Tactic Notation "decide_case" constr(P) ident(H) :=
  destruct (decide P) as [H|H];
  [rewrite ?(bool_decide_eq_true_2 P) by exact H|rewrite ?(bool_decide_eq_false_2 P) by exact H].

(** [lia] with quotients and remainders. *)
Ltac divlia := zify; Z.to_euclidean_division_equations; lia.

(** ** Panics and errors

    A Rust function that can panic returns an [outcome]; a loop whose bound is
    not structural runs with fuel and gives [OutOfFuel] when that is used up.
    [result] is Rust's [Result]. Both are monads in the sense of stdpp, so [x ← m; k] sequences
    them. *)

Inductive outcome (A : Type) : Type :=
| Ret (a : A)
| Panic
| OutOfFuel.
Arguments Ret {A} _.
Arguments Panic {A}.
Arguments OutOfFuel {A}.

Inductive result (E A : Type) : Type :=
| Ok (a : A)
| Err (e : E).
Arguments Ok {E A} _.
Arguments Err {E A} _.

#[global] Instance outcome_ret : MRet outcome := @Ret.
#[global] Instance outcome_bind : MBind outcome := λ A B f m,
  match m with Ret a => f a | Panic => Panic | OutOfFuel => OutOfFuel end.
#[global] Instance result_ret {E} : MRet (result E) := @Ok E.
#[global] Instance result_bind {E} : MBind (result E) := λ A B f m,
  match m with Ok a => f a | Err e => Err e end.

(** [Option::expect] / [Option::unwrap]. *)
Definition expect {A} (o : option A) : outcome A :=
  match o with Some a => Ret a | None => Panic end.

(** [assert!]. *)
Definition rust_assert (b : bool) : outcome unit := if b then Ret tt else Panic.

(** [Option::ok_or]. *)
Definition ok_or {E A} (o : option A) (e : E) : result E A :=
  match o with Some a => Ok a | None => Err e end.

Definition is_ret {A} (m : outcome A) : Prop := ∃ a, m = Ret a.

(** The returned value, to state what a concrete run returns. *)
Definition ret_or {A} (d : A) (m : outcome A) : A := match m with Ret a => a | _ => d end.
Definition returns {A} (m : outcome A) : bool := match m with Ret _ => true | _ => false end.

Lemma returns_ret {A} (d : A) (m : outcome A) : returns m = true → m = Ret (ret_or d m).
Proof. by destruct m. Qed.

Section outcome_lemmas.
Context {A B : Type}.
Implicit Types (m : outcome A) (f : A → outcome B).

Lemma bind_ret_inv m f b : m ≫= f = Ret b → ∃ a, m = Ret a ∧ f a = Ret b.
Proof. destruct m; [eauto|discriminate..]. Qed.

Lemma bind_panic_inv m f : m ≫= f = Panic → m = Panic ∨ ∃ a, m = Ret a ∧ f a = Panic.
Proof. destruct m; [eauto..|discriminate]. Qed.

Lemma expect_ret_inv (o : option A) a : expect o = Ret a → o = Some a.
Proof. destruct o; simpl; congruence. Qed.

Lemma ok_bind_inv {E} (m : result E A) (f : A → result E B) b :
  m ≫= f = Ok b → ∃ a, m = Ok a ∧ f a = Ok b.
Proof. destruct m; [eauto|discriminate]. Qed.

Lemma ok_or_ok_inv {E} (o : option A) (e : E) a : ok_or o e = Ok a → o = Some a.
Proof. destruct o; simpl; congruence. Qed.
End outcome_lemmas.

(** The operator [?] in a function that can also panic. *)
Definition try_bind {E A B} (m : outcome (result E A)) (k : A → outcome (result E B)) : outcome (result E B) :=
  r ← m; match r with Ok a => k a | Err e => Ret (Err e) end.
Notation "x ←? m ; k" := (try_bind m (λ x, k)) (at level 20, m at level 100, k at level 200, right associativity).
Notation "' x ←? m ; k" := (try_bind m (λ x : _, k))
  (at level 20, x pattern, m at level 100, k at level 200, only parsing).

Definition map_err {E F A} (f : E → F) (r : result E A) : result F A :=
  match r with Ok a => Ok a | Err e => Err (f e) end.

Lemma try_bind_ok_inv {E A B} (m : outcome (result E A)) (k : A → outcome (result E B)) b :
  try_bind m k = Ret (Ok b) → ∃ a, m = Ret (Ok a) ∧ k a = Ret (Ok b).
Proof. destruct m as [[a|e]| |]; simpl; intros H; [by exists a|congruence|discriminate..]. Qed.

Lemma try_bind_ret {E A B} (m : outcome (result E A)) (k : A → outcome (result E B)) :
  is_ret m → (∀ a, m = Ret (Ok a) → is_ret (k a)) → is_ret (try_bind m k).
Proof. intros [[a|e] ->] Hk; [by apply Hk|by eexists]. Qed.

(** A loop that goes through a list with early return. *)
Fixpoint try_fold {E A S} (f : S → A → outcome (result E S)) (s : S) (l : list A) : outcome (result E S) :=
  match l with [] => Ret (Ok s) | x :: l => s ←? f s x; try_fold f s l end.

Lemma try_fold_app {E A S} (f : S → A → outcome (result E S)) s l k :
  try_fold f s (l ++ k) = (s ←? try_fold f s l; try_fold f s k).
Proof.
  revert s. induction l as [|x l IH]; intros s; [done|]. simpl. unfold try_bind at 1 3.
  destruct (f s x) as [[s'|e]| |]; simpl; [apply IH|done..].
Qed.

Lemma rust_assert_ret_inv b u : rust_assert b = Ret u → b = true.
Proof. by destruct b. Qed.

(** Takes apart a hypothesis that says a monadic computation returned: every
    [bind], [expect] and [assert] on the way yields its own equation. *)
Ltac monad_inv_step H :=
  lazymatch type of H with
  | mbind _ _ = Ret _ =>
      let a := fresh "v" in let Ha := fresh "Hv" in
      apply bind_ret_inv in H as (a & Ha & H); try monad_inv_step Ha
  | try_bind _ _ = Ret (Ok _) =>
      let a := fresh "v" in let Ha := fresh "Hv" in
      apply try_bind_ok_inv in H as (a & Ha & H); try monad_inv_step Ha
  | mbind _ _ = Ok _ =>
      let a := fresh "v" in let Ha := fresh "Hv" in
      apply ok_bind_inv in H as (a & Ha & H)
  | expect _ = Ret _ => apply expect_ret_inv in H
  | rust_assert _ = Ret _ => apply rust_assert_ret_inv in H
  | ok_or _ _ = Ok _ => apply ok_or_ok_inv in H
  end.
Ltac monad_inv H := repeat monad_inv_step H.

(** Binding in a list twice. *)
Lemma list_bind_bind {A B C} (f : A → list B) (g : B → list C) (l : list A) :
  (l ≫= f) ≫= g = l ≫= (λ x, f x ≫= g).
Proof. induction l as [|x l IH]; [done|]. by rewrite !bind_cons, bind_app, IH. Qed.

(** ** Ordered and unordered maps

    [BTreeMap] and [HashMap] are both [gmap]; they differ in their iteration
    order. A [BTreeMap] iterates by increasing key; a [HashMap] in an order
    the standard library leaves unspecified, which is an argument of every
    definition that iterates one. *)

Class KeyOrder (K : Type) := {
  key_le : relation K;
  key_le_dec :: RelDecision key_le;
  key_le_total :: Total key_le;
  key_le_trans :: Transitive key_le;
  key_le_antisymm :: AntiSymm (=) key_le;
}.

#[global] Instance N_le_total : Total N.le.
Proof. intros ??. lia. Qed.
#[global] Instance N_le_antisymm : AntiSymm (=) N.le.
Proof. intros ??. lia. Qed.
#[global] Instance N_key_order : KeyOrder N := {| key_le := N.le |}.

Lemma find_app_Some {A} (f : A → bool) l x :
  List.find f l = Some x ↔ ∃ l1 l2, l = l1 ++ x :: l2 ∧ f x = true ∧ Forall (λ y, f y = false) l1.
Proof.
  induction l as [|y l IH]; simpl.
  { split; [done|]. by intros ([|??] & ? & ? & _). }
  destruct (f y) eqn:Hy.
  - split; [intros [= ->]; by exists [], l|].
    intros ([|z l1] & l2 & [= -> ->] & Hx & Hl1); [done|]. inversion Hl1; congruence.
  - rewrite IH. split.
    + intros (l1 & l2 & -> & Hx & Hl1). exists (y :: l1), l2. naive_solver.
    + intros ([|z l1] & l2 & [= -> ->] & Hx & Hl1); [congruence|]. inversion Hl1. eauto.
Qed.

Lemma strongly_sorted_split_le {A} (R : relation A) l1 x l2 y :
  StronglySorted R (l1 ++ x :: l2) → y ∈ l1 → R y x.
Proof.
  induction l1 as [|z l1 IH]; intros Hs Hy; [by apply elem_of_nil in Hy|].
  inversion Hs as [|?? Hs' Hf]; subst. apply elem_of_cons in Hy as [->|Hy]; [|auto].
  rewrite Forall_forall in Hf. apply Hf. set_solver.
Qed.

Section btree.
Context {K V : Type} `{Countable K} `{!KeyOrder K}.
Implicit Types m : gmap K V.

Definition pair_key_le : relation (K * V) := λ p q, key_le p.1 q.1.
#[global] Instance pair_key_le_dec : RelDecision pair_key_le := λ p q, decide (key_le p.1 q.1).
#[global] Instance pair_key_le_total : Total pair_key_le.
Proof. intros p q. apply key_le_total. Qed.
#[global] Instance pair_key_le_trans : Transitive pair_key_le.
Proof. intros p q s. apply key_le_trans. Qed.

Definition btree_iter (m : gmap K V) : list (K * V) := merge_sort pair_key_le (map_to_list m).
Definition btree_keys (m : gmap K V) : list K := (btree_iter m).*1.

Lemma btree_iter_perm m : btree_iter m ≡ₚ map_to_list m.
Proof. apply merge_sort_Permutation. Qed.

Lemma elem_of_btree_iter m k v : (k, v) ∈ btree_iter m ↔ m !! k = Some v.
Proof. by rewrite btree_iter_perm, elem_of_map_to_list. Qed.

Lemma btree_iter_sorted m : StronglySorted pair_key_le (btree_iter m).
Proof. apply StronglySorted_merge_sort; apply _. Qed.

Lemma btree_keys_nodup m : NoDup (btree_keys m).
Proof. unfold btree_keys. rewrite btree_iter_perm. apply NoDup_fst_map_to_list. Qed.

Lemma elem_of_btree_keys m k : k ∈ btree_keys m ↔ is_Some (m !! k).
Proof.
  unfold btree_keys. rewrite list_elem_of_fmap. split.
  - intros ([k' v] & -> & Hin). apply elem_of_btree_iter in Hin. simpl. eauto.
  - intros [v Hv]. exists (k, v). by rewrite elem_of_btree_iter.
Qed.

Lemma btree_iter_unique m l : StronglySorted pair_key_le l → l ≡ₚ map_to_list m → btree_iter m = l.
Proof.
  intros Hs Hp. apply (StronglySorted_unique_strong pair_key_le); [|apply btree_iter_sorted|done|by rewrite btree_iter_perm].
  intros [k v] [k' v'] H1%elem_of_btree_iter H2 Hle Hge. rewrite Hp, elem_of_map_to_list in H2.
  assert (k = k') as -> by (by apply (anti_symm key_le)). congruence.
Qed.

(** [iter().rfind(f)]: the entry with the greatest key that satisfies [f]. *)
Lemma btree_rfind_Some (f : K * V → bool) m k v :
  List.find f (reverse (btree_iter m)) = Some (k, v) →
  m !! k = Some v ∧ f (k, v) = true ∧
  ∀ k' v', m !! k' = Some v' → f (k', v') = true → key_le k' k.
Proof.
  intros (l1 & l2 & Hl & Hf & Hl1)%find_app_Some.
  assert (btree_iter m = reverse l2 ++ (k, v) :: reverse l1) as Hl'.
  { rewrite <- (reverse_involutive (btree_iter _)), Hl, reverse_app, reverse_cons.
    by rewrite <- (assoc_L (++)). }
  split; [apply elem_of_btree_iter; rewrite Hl'; set_solver|]. split; [done|].
  intros k' v' Hk' Hf'. apply elem_of_btree_iter in Hk'. rewrite Hl' in Hk'.
  apply elem_of_app in Hk' as [Hk'|Hk'].
  - pose proof (btree_iter_sorted m) as Hsort. rewrite Hl' in Hsort.
    by apply (strongly_sorted_split_le _ _ _ _ _ Hsort) in Hk'.
  - apply elem_of_cons in Hk' as [[= -> ->]|Hk']; [by destruct (key_le_total k k)|].
    rewrite elem_of_reverse in Hk'. rewrite Forall_forall in Hl1.
    apply Hl1 in Hk'. congruence.
Qed.
End btree.

(** [retain] that drops an entry makes the map smaller. *)
Lemma map_filter_drops {K V} `{Countable K} (Q : K * V → Prop) `{∀ x, Decision (Q x)}
    (m : gmap K V) k v : m !! k = Some v → ¬ Q (k, v) → (size (filter Q m) < size m)%nat.
Proof.
  intros Hk Hq. apply map_subset_size. split; [apply map_filter_subseteq|].
  intros Hsub. apply (lookup_weaken _ _ _ _ Hk) in Hsub.
  by apply map_lookup_filter_Some in Hsub as [_ ?].
Qed.

(** The iteration order of a [HashMap]: any function that lists the entries
    of the map, each once. *)
Class HashOrder (K V : Type) `{Countable K} := {
  hash_iter : gmap K V → list (K * V);
  hash_iter_perm : ∀ m, hash_iter m ≡ₚ map_to_list m;
}.

Definition map_to_list_order {K V} `{Countable K} : HashOrder K V :=
  {| hash_iter := map_to_list; hash_iter_perm := λ m, reflexivity (map_to_list m) |}.

(** ** Sums of naturals over lists *)

Definition sumN (l : list N) : N := foldr N.add 0 l.

#[global] Arguments sumN : simpl never.

Lemma sumN_cons x l : sumN (x :: l) = x + sumN l.
Proof. done. Qed.

(** [lia] after exposing the heads of mapped lists and their sums. *)
Ltac sumlia := rewrite ?fmap_cons in *; cbn beta in *; rewrite ?sumN_cons in *; lia.

Lemma sumN_app l k : sumN (l ++ k) = sumN l + sumN k.
Proof. induction l as [|x l IH]; [done|]. rewrite <- app_comm_cons, !sumN_cons. lia. Qed.

#[global] Instance sumN_perm : Proper ((≡ₚ) ==> (=)) sumN.
Proof. induction 1; simpl in *; unfold sumN in *; simpl; lia. Qed.

Lemma sumN_sublist l k : sublist l k → sumN l ≤ sumN k.
Proof. induction 1; rewrite ?sumN_cons; lia. Qed.

Lemma sumN_elem x l : x ∈ l → x ≤ sumN l.
Proof.
  induction 1 as [|x y l ? IH]; unfold sumN in *; simpl; [lia|].
  fold (sumN l) in *. lia.
Qed.
