(* ===== verification/Types.v ===== *)
(** * Rounds, epochs, sequence numbers and stakes (monad-types/src/lib.rs)

    The newtypes [Round], [Epoch], [SeqNum] (over [u64]) and [Stake] (over
    [U256]) with their operators, [RoundSpan], and the epoch arithmetic of
    [SeqNum]. [+] and [-] on the newtypes panic when they leave the width;
    plain [u64] operators inside the methods wrap, as the release profile of
    the workspace compiles them. *)
From S2P Require Import Prelude.

Notation Round := N (only parsing).
Notation Epoch := N (only parsing).
Notation SeqNum := N (only parsing).
Notation Stake := N (only parsing).
(** [BlockId(Hash)]: a 32-byte hash, read as a number. *)
Notation BlockId := N (only parsing).

Definition GENESIS_SEQ_NUM : SeqNum := 0.
Definition GENESIS_ROUND : Round := 0.
Definition GENESIS_BLOCK_ID : BlockId := 0.
Definition Round_MAX : Round := u64_MAX.

(** ** Round *)

Definition immediately_follows (self previous_round : Round) : bool :=
  match checked_add u64_MAX previous_round 1 with
  | Some next_round => bool_decide (next_round = self)
  | None => false
  end.

Definition round_add (a b : Round) : outcome Round := expect (checked_add u64_MAX a b).
Definition round_sub (a b : Round) : outcome Round := expect (checked_sub a b).

(** ** RoundSpan *)

Record RoundSpan := mkRoundSpan { span_start : Round; span_end : Round }.

Definition span_new (start end_ : Round) : option RoundSpan :=
  if bool_decide (end_ ≤ start) then None else Some (mkRoundSpan start end_).

Definition span_single (start : Round) : outcome (option RoundSpan) :=
  if bool_decide (Round_MAX ≤ start) then Ret None
  else e ← round_add start 1; Ret (Some (mkRoundSpan start e)).

Definition span_contains (s : RoundSpan) (round : Round) : bool :=
  bool_decide (span_start s ≤ round) && bool_decide (round < span_end s).

Definition span_overlaps (s other : RoundSpan) : bool :=
  bool_decide (span_start s < span_end other) && bool_decide (span_start other < span_end s).

(** ** Epoch *)

Definition epoch_add (a b : Epoch) : outcome Epoch := expect (checked_add u64_MAX a b).
Definition epoch_sub (a b : Epoch) : outcome Epoch := expect (checked_sub a b).
Definition epoch_checked_sub (e count : N) : option Epoch := checked_sub e count.

(** ** SeqNum *)

Definition seq_add (a b : SeqNum) : outcome SeqNum := expect (checked_add u64_MAX a b).
Definition seq_sub (a b : SeqNum) : outcome SeqNum := expect (checked_sub a b).
Definition seq_saturating_add (a b : SeqNum) : SeqNum := saturating_add u64_MAX a b.

(** Integer division and remainder by zero panic. *)
Definition seq_div (a b : SeqNum) : outcome SeqNum :=
  if bool_decide (b = 0) then Panic else Ret (a / b).
Definition seq_rem (a b : SeqNum) : outcome SeqNum :=
  if bool_decide (b = 0) then Panic else Ret (a `mod` b).

Definition to_epoch (n epoch_length : SeqNum) : outcome Epoch :=
  if bool_decide (epoch_length = 0) then Panic
  else Ret ((n / epoch_length + 1) `mod` (u64_MAX + 1)).

Definition is_boundary_block (n epoch_length : SeqNum) : outcome bool :=
  r ← seq_rem n epoch_length;
  last ← seq_sub epoch_length 1;
  Ret (bool_decide (r = last)).

Definition get_locked_epoch (n epoch_length : SeqNum) : outcome Epoch :=
  b ← is_boundary_block n epoch_length;
  _ ← rust_assert b;
  e ← to_epoch n epoch_length;
  epoch_add e 1.

(** ** Stake *)

Definition Stake_ZERO : Stake := 0.
Definition stake_add (a b : Stake) : outcome Stake := expect (checked_add U256_MAX a b).
Definition stake_sub (a b : Stake) : outcome Stake := expect (checked_sub a b).

(** [impl Sum for Stake]: a left fold of the checked addition. *)
Fixpoint stake_sum_from (acc : Stake) (l : list Stake) : outcome Stake :=
  match l with
  | [] => Ret acc
  | x :: l => a ← stake_add acc x; stake_sum_from a l
  end.
Definition stake_sum (l : list Stake) : outcome Stake := stake_sum_from Stake_ZERO l.

(** ** Lemmas *)

Lemma checked_add_Some m a b c : checked_add m a b = Some c ↔ c = a + b ∧ c ≤ m.
Proof. unfold checked_add. case_decide; naive_solver lia. Qed.

Lemma checked_sub_Some a b c : checked_sub a b = Some c ↔ b ≤ a ∧ c = a - b.
Proof. unfold checked_sub. case_decide; naive_solver lia. Qed.

Lemma round_add_ret a b c : round_add a b = Ret c ↔ c = a + b ∧ c ≤ u64_MAX.
Proof.
  unfold round_add. rewrite <- (checked_add_Some u64_MAX a b c).
  destruct (checked_add _ _ _); simpl; naive_solver.
Qed.

Lemma seq_add_ret a b c : seq_add a b = Ret c ↔ c = a + b ∧ c ≤ u64_MAX.
Proof. apply round_add_ret. Qed.

Lemma seq_sub_ret a b c : seq_sub a b = Ret c ↔ b ≤ a ∧ c = a - b.
Proof.
  unfold seq_sub. rewrite <- (checked_sub_Some a b c).
  destruct (checked_sub _ _); simpl; naive_solver.
Qed.

Lemma immediately_follows_true a b :
  immediately_follows a b = true ↔ a = b + 1 ∧ a ≤ u64_MAX.
Proof.
  unfold immediately_follows, checked_add.
  case_decide; [rewrite bool_decide_eq_true|]; split; intros; try done; lia.
Qed.

Lemma immediately_follows_false a b :
  a ≤ u64_MAX → immediately_follows a b = false ↔ a ≠ b + 1.
Proof.
  intros Ha. destruct (immediately_follows a b) eqn:E.
  - apply immediately_follows_true in E. naive_solver.
  - split; [|done]. intros _ ->. apply not_true_iff_false in E.
    rewrite immediately_follows_true in E. naive_solver.
Qed.

(** The sum either fits in 256 bits and is exact, or the fold panics. *)
Lemma stake_sum_from_spec acc l :
  acc ≤ U256_MAX →
  stake_sum_from acc l =
    if decide (acc + sumN l ≤ U256_MAX) then Ret (acc + sumN l) else Panic.
Proof.
  revert acc. induction l as [|x l IH]; intros acc Hacc; simpl.
  - change (sumN []) with 0. rewrite N.add_0_r. by rewrite decide_True.
  - rewrite sumN_cons. unfold stake_add, checked_add.
    case_decide as Hx; simpl.
    + rewrite IH by done. replace (acc + x + sumN l) with (acc + (x + sumN l)) by lia. done.
    + rewrite decide_False; [done|lia].
Qed.

Lemma stake_sum_spec l :
  stake_sum l = if decide (sumN l ≤ U256_MAX) then Ret (sumN l) else Panic.
Proof. unfold stake_sum. rewrite stake_sum_from_spec by (vm_compute; congruence). done. Qed.

Lemma stake_sum_ret l s : stake_sum l = Ret s ↔ s = sumN l ∧ sumN l ≤ U256_MAX.
Proof. rewrite stake_sum_spec. case_decide; naive_solver. Qed.

Lemma to_epoch_ret n len :
  len ≠ 0 → n < u64_MAX → to_epoch n len = Ret (n / len + 1).
Proof.
  intros Hlen Hn. unfold to_epoch. rewrite bool_decide_eq_false_2 by done.
  rewrite N.mod_small; [done|]. assert (n / len ≤ n) by (apply N.Div0.div_le_upper_bound; nia). lia.
Qed.

Lemma is_boundary_block_ret n len :
  len ≠ 0 → is_boundary_block n len = Ret (bool_decide (n `mod` len = len - 1)).
Proof.
  intros Hlen. unfold is_boundary_block, seq_rem, seq_sub, checked_sub.
  rewrite bool_decide_eq_false_2 by done. simpl.
  rewrite decide_True by lia. done.
Qed.

(** ** Properties *)

(** The boundary block of an epoch is its last block: for a positive epoch
    length, block [n] is a boundary block exactly when the next block belongs
    to another epoch; the epoch it locks is then the epoch after the one that
    starts at [n + 1] minus one, i.e. the next block's epoch. *)
Theorem boundary_block_is_last_of_epoch n len :
  0 < len → n + 1 < u64_MAX →
  ∃ b e e', is_boundary_block n len = Ret b ∧ to_epoch n len = Ret e ∧
    to_epoch (n + 1) len = Ret e' ∧
    (b = true ↔ e' = e + 1) ∧ (b = false ↔ e' = e) ∧
    get_locked_epoch n len = if b then Ret e' else Panic.
Proof.
  intros Hlen Hn.
  assert (Hdiv : n / len + 1 < u64_MAX).
  { assert (n / len ≤ n) by (apply N.Div0.div_le_upper_bound; nia). lia. }
  assert (Hstep : n `mod` len = len - 1 ∧ (n + 1) / len = n / len + 1 ∨
                  n `mod` len ≠ len - 1 ∧ (n + 1) / len = n / len).
  { pose proof (N.div_mod n len ltac:(lia)) as Hdm.
    pose proof (N.mod_lt n len ltac:(lia)).
    destruct (decide (n `mod` len = len - 1)); [left|right]; split; try done.
    - symmetry. apply N.div_unique with 0; nia.
    - symmetry. apply N.div_unique with (n `mod` len + 1); nia. }
  eexists _, _, _. rewrite is_boundary_block_ret, !to_epoch_ret by lia.
  do 3 (split; [done|]). unfold get_locked_epoch.
  rewrite is_boundary_block_ret, to_epoch_ret by lia.
  rewrite bool_decide_eq_true, bool_decide_eq_false.
  split; [|split]; [lia..|].
  case_bool_decide; simpl; [|done].
  destruct Hstep as [[_ ->]|[? _]]; [|done].
  unfold epoch_add, checked_add. rewrite decide_True by lia. done.
Qed.

Lemma boundary_block_is_last_of_epoch_witness :
  0 < 50000 ∧ 49999 + 1 < u64_MAX ∧ get_locked_epoch 49999 50000 = Ret 2.
Proof.
  split; [lia|]. split; [vm_compute; done|].
  destruct (boundary_block_is_last_of_epoch 49999 50000 ltac:(lia) ltac:(vm_compute; done))
    as (b & e & e' & Hb & He & He' & Hbt & _ & Hl).
  rewrite Hl. vm_compute in Hb, He'. simplify_eq. done.
Defined.

(** Two well-formed spans overlap exactly when some round lies in both. *)
Theorem span_overlaps_iff s t :
  span_start s < span_end s → span_start t < span_end t →
  span_overlaps s t = true ↔ ∃ r, span_contains s r = true ∧ span_contains t r = true.
Proof.
  intros Hs Ht. unfold span_overlaps, span_contains.
  setoid_rewrite andb_true_iff. rewrite !bool_decide_eq_true.
  setoid_rewrite bool_decide_eq_true. split.
  - intros [??]. exists (N.max (span_start s) (span_start t)). lia.
  - intros (r & ? & ?). lia.
Qed.

Lemma span_overlaps_iff_witness :
  ∃ r, span_contains (mkRoundSpan 3 7) r = true ∧ span_contains (mkRoundSpan 6 9) r = true.
Proof. apply (span_overlaps_iff (mkRoundSpan 3 7) (mkRoundSpan 6 9)); [simpl; lia..|reflexivity]. Defined.
