(* ===== verification/ChainConfig.v ===== *)
(** * Chain configuration (monad-chain-config)

    The parameters of the chain by round ([MonadChainRevision]) and of the
    execution client by block timestamp ([MonadExecutionRevision]), the
    staking schedule, and the built-in configurations of the three networks.
    [ChainRevision] and [ChainConfig] are the source's traits; the fixed
    configuration of the tests ([MockChainConfig]) is their second
    implementation. *)
From S2P Require Import Prelude Types.

(** ** revision.rs *)

(** [vote_pace] is in milliseconds. *)
Record ChainParams := mkChainParams {
  cp_tx_limit : N;
  cp_proposal_gas_limit : N;
  cp_proposal_byte_limit : N;
  cp_max_reserve_balance : N;
  cp_vote_pace : N;
}.

Definition MAX_TRANSACTIONS_PER_BLOCK : N := 10000.

Definition CHAIN_PARAMS_V_0_7_0 : ChainParams := {|
  cp_tx_limit := 10000; cp_proposal_gas_limit := 300000000; cp_proposal_byte_limit := 4000000;
  cp_max_reserve_balance := 10000000000000000000; cp_vote_pace := 1000 |}.
Definition CHAIN_PARAMS_V_0_8_0 : ChainParams := {|
  cp_tx_limit := 5000; cp_proposal_gas_limit := 150000000; cp_proposal_byte_limit := 2000000;
  cp_max_reserve_balance := 10000000000000000000; cp_vote_pace := 500 |}.
Definition CHAIN_PARAMS_V_0_10_0 : ChainParams := {|
  cp_tx_limit := 5000; cp_proposal_gas_limit := 150000000; cp_proposal_byte_limit := 2000000;
  cp_max_reserve_balance := 10000000000000000000; cp_vote_pace := 400 |}.
Definition CHAIN_PARAMS_V_0_11_0 : ChainParams := {|
  cp_tx_limit := 5000; cp_proposal_gas_limit := 200000000; cp_proposal_byte_limit := 2000000;
  cp_max_reserve_balance := 10000000000000000000; cp_vote_pace := 400 |}.
Definition CHAIN_PARAMS_LATEST : ChainParams := CHAIN_PARAMS_V_0_11_0.

Class ChainRevision (CR : Type) := { chain_params : CR → ChainParams }.

Inductive MonadChainRevision := V_0_7_0 | V_0_8_0 | V_0_10_0 | V_0_11_0.

#[global] Instance MonadChainRevision_eq_dec : EqDecision MonadChainRevision.
Proof. solve_decision. Defined.

Definition monad_chain_params (revision : MonadChainRevision) : ChainParams :=
  match revision with
  | V_0_7_0 => CHAIN_PARAMS_V_0_7_0
  | V_0_8_0 => CHAIN_PARAMS_V_0_8_0
  | V_0_10_0 => CHAIN_PARAMS_V_0_10_0
  | V_0_11_0 => CHAIN_PARAMS_V_0_11_0
  end.
#[global] Instance monad_revision : ChainRevision MonadChainRevision := {| chain_params := monad_chain_params |}.

(** The derived order of the revisions. *)
Definition revision_index (revision : MonadChainRevision) : N :=
  match revision with V_0_7_0 => 0 | V_0_8_0 => 1 | V_0_10_0 => 2 | V_0_11_0 => 3 end.

Record MockChainRevision := mkMockChainRevision { mr_chain_params : ChainParams }.
#[global] Instance mock_revision : ChainRevision MockChainRevision := {| chain_params := mr_chain_params |}.

(** ** execution_revision.rs *)

Record ExecutionChainParams := mkExecutionChainParams {
  ep_max_code_size : N;
  ep_prague_enabled : bool;
  ep_validate_system_txs : bool;
}.

Inductive MonadExecutionRevision := V_ZERO | V_ONE | V_TWO | V_FOUR.

Definition execution_chain_params (revision : MonadExecutionRevision) : ExecutionChainParams :=
  match revision with
  | V_ZERO => mkExecutionChainParams (24 * 1024) false false
  | V_ONE => mkExecutionChainParams (24 * 1024) false false
  | V_TWO => mkExecutionChainParams (128 * 1024) false false
  | V_FOUR => mkExecutionChainParams (128 * 1024) true true
  end.
Definition execution_revision_latest : MonadExecutionRevision := V_FOUR.

(** ** staking_config.rs *)

Record BlockRewardConfig := mkBlockRewardConfig {
  br_block_reward_activation : Epoch;
  br_block_reward_mon : N;
}.

Record MonadStakingConfig := mkStakingConfig {
  sk_staking_activation : Epoch;
  sk_block_reward_v_one : BlockRewardConfig;
}.

Definition staking_get_block_reward_mon (c : MonadStakingConfig) (epoch : Epoch) : N :=
  if bool_decide (br_block_reward_activation (sk_block_reward_v_one c) ≤ epoch)
  then br_block_reward_mon (sk_block_reward_v_one c) else 0.

Definition MONAD_DEVNET_STAKING_CONFIG : MonadStakingConfig := mkStakingConfig 2 (mkBlockRewardConfig 3 1).
Definition MONAD_TESTNET_STAKING_CONFIG : MonadStakingConfig := mkStakingConfig 2 (mkBlockRewardConfig 3 25).
Definition MONAD_MAINNET_STAKING_CONFIG : MonadStakingConfig := mkStakingConfig 675 (mkBlockRewardConfig 747 25).

(** ** lib.rs *)

Class ChainConfig (C CR : Type) := {
  cc_chain_id : C → N;
  cc_epoch_length : C → SeqNum;
  cc_epoch_start_delay : C → Round;
  cc_staking_activation : C → Epoch;
  cc_block_reward_mon : C → Epoch → N;
  cc_chain_revision : C → Round → CR;
  cc_execution_chain_revision : C → N → MonadExecutionRevision;
}.

Record MonadChainConfig := mkMonadChainConfig {
  mc_chain_id : N;
  mc_epoch_length : SeqNum;
  mc_epoch_start_delay : Round;
  mc_v_0_7_0_activation : Round;
  mc_v_0_8_0_activation : Round;
  mc_v_0_10_0_activation : Round;
  mc_v_0_11_0_activation : Round;
  mc_staking_config : MonadStakingConfig;
  mc_execution_v_one_activation : N;
  mc_execution_v_two_activation : N;
  mc_execution_v_four_activation : N;
}.

Definition ETHEREUM_MAINNET_CHAIN_ID : N := 1.
Definition MONAD_MAINNET_CHAIN_ID : N := 143.
Definition MONAD_TESTNET_CHAIN_ID : N := 10143.
Definition MONAD_DEVNET_CHAIN_ID : N := 20143.

Definition MONAD_DEVNET_CHAIN_CONFIG : MonadChainConfig := {|
  mc_chain_id := MONAD_DEVNET_CHAIN_ID; mc_epoch_length := 10000; mc_epoch_start_delay := 1000;
  mc_v_0_7_0_activation := 0; mc_v_0_8_0_activation := 0; mc_v_0_10_0_activation := 0; mc_v_0_11_0_activation := 0;
  mc_staking_config := MONAD_DEVNET_STAKING_CONFIG;
  mc_execution_v_one_activation := 0; mc_execution_v_two_activation := 0; mc_execution_v_four_activation := 0 |}.
Definition MONAD_TESTNET_CHAIN_CONFIG : MonadChainConfig := {|
  mc_chain_id := MONAD_TESTNET_CHAIN_ID; mc_epoch_length := 50000; mc_epoch_start_delay := 5000;
  mc_v_0_7_0_activation := 0; mc_v_0_8_0_activation := 0; mc_v_0_10_0_activation := 0; mc_v_0_11_0_activation := 0;
  mc_staking_config := MONAD_TESTNET_STAKING_CONFIG;
  mc_execution_v_one_activation := 0; mc_execution_v_two_activation := 0; mc_execution_v_four_activation := 0 |}.
Definition MONAD_MAINNET_CHAIN_CONFIG : MonadChainConfig := {|
  mc_chain_id := MONAD_MAINNET_CHAIN_ID; mc_epoch_length := 50000; mc_epoch_start_delay := 5000;
  mc_v_0_7_0_activation := 0; mc_v_0_8_0_activation := 0; mc_v_0_10_0_activation := 15643179;
  mc_v_0_11_0_activation := 33493399; mc_staking_config := MONAD_MAINNET_STAKING_CONFIG;
  mc_execution_v_one_activation := 0; mc_execution_v_two_activation := 0;
  mc_execution_v_four_activation := 1762266600 |}.

Inductive ChainConfigError := WrongOverrideChainId (id : N) | UnsupportedChainId (id : N).

(** [MonadChainConfig::new]. *)
Definition monad_chain_config_new (chain_id : N) (devnet_override : option MonadChainConfig)
    : result ChainConfigError MonadChainConfig :=
  if bool_decide (chain_id = MONAD_MAINNET_CHAIN_ID) then Ok MONAD_MAINNET_CHAIN_CONFIG
  else if bool_decide (chain_id = MONAD_TESTNET_CHAIN_ID) then Ok MONAD_TESTNET_CHAIN_CONFIG
  else if bool_decide (chain_id = MONAD_DEVNET_CHAIN_ID) then
    match devnet_override with
    | None => Ok MONAD_DEVNET_CHAIN_CONFIG
    | Some override_config =>
        if bool_decide (mc_chain_id override_config ≠ MONAD_DEVNET_CHAIN_ID)
        then Err (WrongOverrideChainId (mc_chain_id override_config))
        else Ok override_config
    end
  else Err (UnsupportedChainId chain_id).

Definition monad_get_chain_revision (c : MonadChainConfig) (round : Round) : MonadChainRevision :=
  if bool_decide (mc_v_0_11_0_activation c ≤ round) then V_0_11_0
  else if bool_decide (mc_v_0_10_0_activation c ≤ round) then V_0_10_0
  else if bool_decide (mc_v_0_8_0_activation c ≤ round) then V_0_8_0
  else if bool_decide (mc_v_0_7_0_activation c ≤ round) then V_0_7_0
  else V_0_7_0.

Definition monad_get_execution_chain_revision (c : MonadChainConfig) (execution_timestamp_s : N)
    : MonadExecutionRevision :=
  if bool_decide (mc_execution_v_four_activation c ≤ execution_timestamp_s) then V_FOUR
  else if bool_decide (mc_execution_v_two_activation c ≤ execution_timestamp_s) then V_TWO
  else if bool_decide (mc_execution_v_one_activation c ≤ execution_timestamp_s) then V_ONE
  else V_ZERO.

#[global] Instance monad_chain_config : ChainConfig MonadChainConfig MonadChainRevision := {|
  cc_chain_id := mc_chain_id;
  cc_epoch_length := mc_epoch_length;
  cc_epoch_start_delay := mc_epoch_start_delay;
  cc_staking_activation := λ c, sk_staking_activation (mc_staking_config c);
  cc_block_reward_mon := λ c, staking_get_block_reward_mon (mc_staking_config c);
  cc_chain_revision := monad_get_chain_revision;
  cc_execution_chain_revision := monad_get_execution_chain_revision;
|}.

Record MockChainConfig := mkMockChainConfig {
  mk_chain_params : ChainParams;
  mk_epoch_length : SeqNum;
  mk_epoch_start_delay : Round;
}.

Definition mock_chain_config_new (params : ChainParams) : MockChainConfig :=
  mkMockChainConfig params u64_MAX u64_MAX.

#[global] Instance mock_chain_config : ChainConfig MockChainConfig MockChainRevision := {|
  cc_chain_id := λ _, 1337;
  cc_epoch_length := mk_epoch_length;
  cc_epoch_start_delay := mk_epoch_start_delay;
  cc_staking_activation := λ _, u64_MAX;
  cc_block_reward_mon := λ _ _, 0;
  cc_chain_revision := λ c _, mkMockChainRevision (mk_chain_params c);
  cc_execution_chain_revision := λ _ _, execution_revision_latest;
|}.

(** ** What the built-in configurations satisfy *)

Lemma chain_revision_mono (c : MonadChainConfig) r1 r2 : r1 ≤ r2 →
  revision_index (monad_get_chain_revision c r1) ≤ revision_index (monad_get_chain_revision c r2).
Proof. intros H. unfold monad_get_chain_revision. repeat case_bool_decide; simpl; lia. Qed.

(** Every revision reserves the same amount, keeps the transaction limit
    below the block format's, and has a gas limit in the range for which base
    fees are bounded. *)
Lemma chain_params_ranges (r : MonadChainRevision) :
  cp_max_reserve_balance (chain_params r) = 10000000000000000000 ∧
  cp_tx_limit (chain_params r) ≤ MAX_TRANSACTIONS_PER_BLOCK ∧
  100000000 ≤ cp_proposal_gas_limit (chain_params r) ≤ 1000000000.
Proof. destruct r; vm_compute; repeat split; congruence. Qed.

(** An accepted configuration is for the chain id that was asked for, also
    when it is an override. *)
Lemma monad_chain_config_new_id id o c : monad_chain_config_new id o = Ok c → mc_chain_id c = id.
Proof.
  unfold monad_chain_config_new. repeat case_bool_decide; try destruct o as [d|]; try case_bool_decide;
    intros [= <-]; simpl; congruence.
Qed.
