(* ===== verification/Interfaces.v ===== *)
(** * What the generic code is generic over

    The consensus crates are generic in the node identity ([PubKey]), the
    signature collection ([SCT]), the proposer signature ([ST]) and the
    execution protocol ([EPT]). [Params] holds those types; the classes below
    hold the operations the code calls on them. Cryptographic primitives, the
    RLP encoder and the hash function are third-party code: they are fields
    of these classes, with no assumption beyond the types, and theorems that
    rely on one of their documented properties name it as a hypothesis. *)
From S2P Require Import Prelude Types.

Notation bytes := (list Byte.byte) (only parsing).


(** monad-crypto/src/signing_domain.rs *)
Inductive SigningDomain :=
| SdConsensusMessage | SdTip | SdVote | SdTimeout | SdNoEndorsement | SdRoundSignature
| SdNameRecord | SdRaptorcastAppMessage | SdRaptorcastChunk.

#[global] Instance SigningDomain_eq_dec : EqDecision SigningDomain.
Proof. solve_decision. Defined.

Class Params := {
  (** [NodeId<PT>]: a public key, with [Eq] and [Ord]. *)
  NodeId : Type;
  NodeId_eq_dec :: EqDecision NodeId;
  NodeId_countable :: Countable NodeId;
  NodeId_order :: KeyOrder NodeId;
  (** [SignatureCollectionPubKeyType<SCT>]. *)
  CertPubKey : Type;
  CertPubKey_eq_dec :: EqDecision CertPubKey;
  CertPubKey_countable :: Countable CertPubKey;
  (** [SCT::SignatureType]. *)
  Signature : Type;
  Signature_eq_dec :: EqDecision Signature;
  Signature_countable :: Countable Signature;
  (** [SignatureCollectionKeyPairType<SCT>] and [ST::KeyPairType]. *)
  CertKeyPair : Type;
  AuthorKeyPair : Type;
  (** [SCT]. *)
  SigCol : Type;
  SigCol_eq_dec :: EqDecision SigCol;
  (** [ST], the recoverable signature of proposers and message authors. *)
  AuthorSignature : Type;
  AuthorSignature_eq_dec :: EqDecision AuthorSignature;
  (** [EPT::FinalizedHeader], [EPT::ProposedHeader], [EPT::Body]. *)
  FinalizedHeader : Type;
  FinalizedHeader_eq_dec :: EqDecision FinalizedHeader;
  ProposedHeader : Type;
  ProposedHeader_eq_dec :: EqDecision ProposedHeader;
  ExecutionBody : Type;
  ExecutionBody_eq_dec :: EqDecision ExecutionBody;
}.

(** monad-validator/src/validator_mapping.rs: [ValidatorMapping { map }]. *)
Notation ValidatorMapping := (gmap NodeId CertPubKey) (only parsing).

Section interfaces.
Context `{P : Params}.

(** monad-validator/src/signature_collection.rs *)
Inductive SignatureCollectionError :=
| NodeIdNotInMapping (sigs : list (NodeId * Signature))
| ConflictingSignatures (n : NodeId) (s1 s2 : Signature)
| InvalidSignaturesCreate (sigs : list (NodeId * Signature))
| InvalidSignaturesVerify
| DeserializeError.

(** [CertificateSignature] and [CertificateKeyPair] of the certificate
    signatures ([SCT::SignatureType]). *)
Class CertSignature := {
  cert_sign : SigningDomain → bytes → CertKeyPair → Signature;
  cert_verify : Signature → SigningDomain → bytes → CertPubKey → bool;
  cert_validate : Signature → bool;
  cert_pubkey : CertKeyPair → CertPubKey;
}.

(** [CertificateSignatureRecoverable] of the author signatures ([ST]); a node
    is identified by the public key that is recovered. *)
Class AuthorSigning := {
  author_sign : SigningDomain → bytes → AuthorKeyPair → AuthorSignature;
  author_recover : AuthorSignature → SigningDomain → bytes → option NodeId;
  author_pubkey : AuthorKeyPair → NodeId;
}.

(** The operations of the trait [SignatureCollection]. *)
Class SignatureCollection := {
  sc_new : SigningDomain → list (NodeId * Signature) → ValidatorMapping → bytes →
           result SignatureCollectionError SigCol;
  sc_verify : SigCol → SigningDomain → ValidatorMapping → bytes →
           result SignatureCollectionError (list NodeId);
  sc_num_signatures : SigCol → N;
}.

(** What the consensus code relies on from a collection type [SC]: verifying
    names each signer once, all of them in the mapping; a collection built
    from signatures verifies, and names exactly their nodes; building fails on
    invalid signatures by naming some of those it was given, and has no other
    failure for distinct nodes of the mapping. *)
Record sc_laws {SC : Type}
    (new : SigningDomain → list (NodeId * Signature) → ValidatorMapping → bytes →
           result SignatureCollectionError SC)
    (verify : SC → SigningDomain → ValidatorMapping → bytes →
           result SignatureCollectionError (list NodeId)) : Prop := {
  sc_verify_nodup : ∀ sc d m msg nodes, verify sc d m msg = Ok nodes → NoDup nodes;
  sc_verify_members : ∀ sc d m msg nodes n,
    verify sc d m msg = Ok nodes → n ∈ nodes → is_Some (m !! n);
  sc_new_verify : ∀ d sigs m msg sc, (∀ n n' pk, m !! n = Some pk → m !! n' = Some pk → n = n') →
    new d sigs m msg = Ok sc →
    ∃ nodes, verify sc d m msg = Ok nodes ∧ ∀ n, n ∈ nodes ↔ n ∈ sigs.*1;
  sc_new_invalid : ∀ d sigs m msg inv,
    new d sigs m msg = Err (InvalidSignaturesCreate inv) → inv ≠ [] ∧ inv ⊆ sigs;
  sc_new_total : ∀ d sigs m msg, NoDup sigs.*1 → (∀ n, n ∈ sigs.*1 → is_Some (m !! n)) →
    (∃ sc, new d sigs m msg = Ok sc) ∨ ∃ inv, new d sigs m msg = Err (InvalidSignaturesCreate inv);
}.
End interfaces.

(** ** A concrete instance

    Small concrete types at which the generic definitions evaluate: keys are
    numbers, and a signature is the signing key together with the signed
    domain and bytes, so that exactly the holder of the key can produce it. *)
#[global] Instance byte_countable : Countable Byte.byte.
Proof.
  refine (inj_countable Byte.to_N Byte.of_N _). intros b. apply Byte.of_to_N.
Defined.

Definition domain_code (d : SigningDomain) : N :=
  match d with
  | SdConsensusMessage => 0 | SdTip => 1 | SdVote => 2 | SdTimeout => 3 | SdNoEndorsement => 4
  | SdRoundSignature => 5 | SdNameRecord => 6 | SdRaptorcastAppMessage => 7 | SdRaptorcastChunk => 8
  end.

Definition ToySig : Type := N * (N * list Byte.byte).

Definition toy_sign (key : N) (d : SigningDomain) (msg : bytes) : ToySig := (key, (domain_code d, msg)).

Definition toy_params : Params.
Proof.
  refine {| NodeId := N; CertPubKey := N; Signature := ToySig; CertKeyPair := N; AuthorKeyPair := N; SigCol := list ToySig;
            AuthorSignature := ToySig; FinalizedHeader := N; ProposedHeader := N; ExecutionBody := N |};
    unfold ToySig; apply _.
Defined.
