(* ===== verification/MultiSig.v ===== *)
(** * The multi-signature collection (monad-multi-sig/src/lib.rs)

    [MultiSig] keeps one signature per signer. Building it checks every
    signature against the signer's key; verifying it recovers the keys and
    keeps those of the validators. The theorem shows that it meets the
    contract the consensus code relies on ([sc_laws]). *)
From S2P Require Import Prelude Types Interfaces.

(** [CertificateSignatureRecoverable] of the certificate signatures. *)
Class CertRecover `{P : Params} := {
  cert_recover : Signature → SigningDomain → bytes → option CertPubKey;
}.

Section multisig.
Context `{P : Params} {CS : CertSignature} {CR : CertRecover}.

(** One iteration of the loop of [MultiSig::new]. *)
Inductive sig_class := SigExternal | SigInvalid | SigValid.

Definition classify_sig (d : SigningDomain) (m : ValidatorMapping) (msg : bytes)
    (node_id : NodeId) (sig : Signature) : sig_class :=
  match m !! node_id with
  | None => SigExternal
  | Some pubkey =>
      match cert_recover sig d msg with
      | None => SigInvalid
      | Some pubkey_recovered =>
          if bool_decide (pubkey_recovered ≠ pubkey) then SigInvalid
          else if cert_verify sig d msg pubkey then SigValid else SigInvalid
      end
  end.

Record multisig_acc := mkMultisigAcc {
  sig_map : gmap NodeId Signature;
  external_sigs : list (NodeId * Signature);
  invalid_sigs : list (NodeId * Signature);
}.

Fixpoint multisig_collect (d : SigningDomain) (m : ValidatorMapping) (msg : bytes)
    (sigs : list (NodeId * Signature)) (acc : multisig_acc)
    : result SignatureCollectionError multisig_acc :=
  match sigs with
  | [] => Ok acc
  | (node_id, sig) :: sigs =>
      match classify_sig d m msg node_id sig with
      | SigExternal => multisig_collect d m msg sigs
          {| acc with external_sigs := external_sigs acc ++ [(node_id, sig)] |}
      | SigInvalid => multisig_collect d m msg sigs
          {| acc with invalid_sigs := invalid_sigs acc ++ [(node_id, sig)] |}
      | SigValid =>
          match sig_map acc !! node_id with
          | Some sig_entry =>
              if bool_decide (sig_entry = sig) then multisig_collect d m msg sigs acc
              else Err (ConflictingSignatures node_id sig_entry sig)
          | None => multisig_collect d m msg sigs
              {| acc with sig_map := <[node_id := sig]> (sig_map acc) |}
          end
      end
  end.

Definition multisig_new (d : SigningDomain) (sigs : list (NodeId * Signature))
    (m : ValidatorMapping) (msg : bytes) : result SignatureCollectionError (list Signature) :=
  acc ← multisig_collect d m msg sigs (mkMultisigAcc ∅ [] []);
  if bool_decide (external_sigs acc ≠ []) then Err (NodeIdNotInMapping (external_sigs acc))
  else if bool_decide (invalid_sigs acc ≠ []) then Err (InvalidSignaturesCreate (invalid_sigs acc))
  else Ok (btree_iter (sig_map acc)).*2.

Definition multisig_num_signatures (sigs : list Signature) : N := N.of_nat (length sigs).

(** First loop of [MultiSig::verify]: the recovered keys, and whether some
    signature was invalid. *)
Fixpoint multisig_recover (d : SigningDomain) (msg : bytes) (sigs : list Signature)
    (verified : gmap CertPubKey Signature) (invalid : list Signature)
    : gmap CertPubKey Signature * list Signature :=
  match sigs with
  | [] => (verified, invalid)
  | sig :: sigs =>
      match cert_recover sig d msg with
      | Some pubkey =>
          if cert_verify sig d msg pubkey
          then multisig_recover d msg sigs (<[pubkey := sig]> verified) invalid
          else multisig_recover d msg sigs verified (invalid ++ [sig])
      | None => multisig_recover d msg sigs verified (invalid ++ [sig])
      end
  end.

(** Second loop: keep the keys of validators, in the order of the mapping. *)
Fixpoint multisig_match (l : list (NodeId * CertPubKey)) (verified : gmap CertPubKey Signature)
    (node_ids : list NodeId) : list NodeId * gmap CertPubKey Signature :=
  match l with
  | [] => (node_ids, verified)
  | (node_id, pk) :: l =>
      match verified !! pk with
      | Some _ => multisig_match l (delete pk verified) (node_ids ++ [node_id])
      | None => multisig_match l verified node_ids
      end
  end.

Definition multisig_verify (sigs : list Signature) (d : SigningDomain) (m : ValidatorMapping)
    (msg : bytes) : result SignatureCollectionError (list NodeId) :=
  let '(verified, invalid) := multisig_recover d msg sigs ∅ [] in
  let '(node_ids, rest) := multisig_match (btree_iter m) verified [] in
  if bool_decide (invalid ≠ []) || bool_decide (rest ≠ ∅) then Err InvalidSignaturesVerify
  else Ok node_ids.

(** ** Lemmas *)

Lemma multisig_collect_ok d m msg sigs acc acc' :
  multisig_collect d m msg sigs acc = Ok acc' → external_sigs acc' = [] → invalid_sigs acc' = [] →
  external_sigs acc = [] ∧ invalid_sigs acc = [] ∧
  (∀ n s, sig_map acc' !! n = Some s ↔
     sig_map acc !! n = Some s ∨ ((n, s) ∈ sigs ∧ classify_sig d m msg n s = SigValid)) ∧
  (∀ n s, (n, s) ∈ sigs → classify_sig d m msg n s = SigValid).
Proof.
  revert acc. induction sigs as [|[n s] sigs IH]; intros acc H He Hi; simpl in H.
  { injection H as <-. split_and!; [done..| |]; set_solver. }
  destruct (classify_sig d m msg n s) eqn:Hc.
  - apply IH in H as (Hx & _); [|done..]. by apply app_eq_nil in Hx as [_ ?].
  - apply IH in H as (_ & Hx & _); [|done..]. by apply app_eq_nil in Hx as [_ ?].
  - destruct (sig_map acc !! n) as [s0|] eqn:Hn.
    + case_bool_decide as Hs; [subst s0|done]. apply IH in H as (-> & -> & Hm & Ha); [|done..].
      split_and!; [done..| |].
      * intros n' s'. rewrite Hm, elem_of_cons. naive_solver.
      * intros n' s' [[= -> ->]|]%elem_of_cons; auto.
    + apply IH in H as (He' & Hi' & Hm & Ha); [|done..]. simpl in *.
      split_and!; [done..| |].
      * intros n' s'. rewrite Hm, lookup_insert_Some, elem_of_cons.
        destruct (decide (n = n')) as [->|]; naive_solver.
      * intros n' s' [[= -> ->]|]%elem_of_cons; auto.
Qed.

(** [pk] has a valid signature in the list. *)
Definition key_signed (d : SigningDomain) (msg : bytes) (sigs : list Signature) (pk : CertPubKey) :=
  Exists (λ s, cert_recover s d msg = Some pk ∧ cert_verify s d msg pk = true) sigs.

Definition sig_good (d : SigningDomain) (msg : bytes) (s : Signature) : Prop :=
  ∃ pk, cert_recover s d msg = Some pk ∧ cert_verify s d msg pk = true.

Lemma multisig_recover_dom d msg sigs v i v' i' :
  multisig_recover d msg sigs v i = (v', i') →
  (∀ pk, is_Some (v' !! pk) ↔ is_Some (v !! pk) ∨ key_signed d msg sigs pk) ∧
  (Forall (sig_good d msg) sigs → i' = i).
Proof.
  unfold key_signed. revert v i. induction sigs as [|s sigs IH]; intros v i H; simpl in H.
  { injection H as <- <-. split; [|done]. intros pk. rewrite Exists_nil. tauto. }
  setoid_rewrite Exists_cons. setoid_rewrite Forall_cons. unfold sig_good at 1.
  destruct (cert_recover s d msg) as [pk|] eqn:Hr; [destruct (cert_verify s d msg pk) eqn:Hv|];
    apply IH in H as [Hd Hi]; (split; [intros pk'; rewrite Hd|]).
  - rewrite lookup_insert_is_Some'. destruct (decide (pk = pk')) as [->|]; intuition congruence.
  - intros [_ ?]. auto.
  - intuition congruence.
  - intros [(pk' & [= <-] & ?) _]. congruence.
  - intuition congruence.
  - by intros [(pk' & ? & _) _].
Qed.

Lemma multisig_match_spec l v ids ids' rest :
  multisig_match l v ids = (ids', rest) →
  ∃ new, ids' = ids ++ new ∧ sublist new l.*1 ∧
    (∀ n, n ∈ new → ∃ pk, (n, pk) ∈ l ∧ is_Some (v !! pk)) ∧
    (∀ pk, rest !! pk = if decide (pk ∈ l.*2) then None else v !! pk) ∧
    (NoDup l.*2 → ∀ n pk, (n, pk) ∈ l → is_Some (v !! pk) → n ∈ new).
Proof.
  revert v ids. induction l as [|[n pk] l IH]; intros v ids H; simpl in H.
  { injection H as <- <-. exists []. rewrite app_nil_r. split_and!; try done; [set_solver|].
    intros _ n pk Hn. by apply elem_of_nil in Hn. }
  destruct (v !! pk) as [s|] eqn:Hpk; apply IH in H as (new & -> & Hsub & Hin & Hrest & Hall).
  - exists (n :: new). rewrite <- (assoc_L (++)). simpl. split_and!; [done|by constructor| | |].
    + intros n' [->|Hn']%elem_of_cons; [exists pk; split; [by left|eauto]|].
      destruct (Hin n' Hn') as (pk' & ? & Hs). exists pk'. split; [by right|].
      apply lookup_delete_is_Some in Hs. tauto.
    + intros pk'. rewrite Hrest. destruct (decide (pk' = pk)) as [->|].
      * rewrite lookup_delete_eq. repeat case_decide; set_solver.
      * rewrite lookup_delete_ne by done. repeat case_decide; set_solver.
    + intros [Hnd1 Hnd2]%NoDup_cons n' pk' [[= -> ->]|Hin']%elem_of_cons Hs; [set_solver|].
      apply elem_of_cons. right. apply (Hall Hnd2 n' pk' Hin').
      rewrite lookup_delete_ne; [done|]. intros ->. destruct Hnd1. apply list_elem_of_fmap.
      by exists (n', pk').
  - exists new. split_and!; [done|by constructor| | |].
    + intros n' Hn'. destruct (Hin n' Hn') as (pk' & ? & ?). exists pk'. split; [by right|done].
    + intros pk'. rewrite Hrest. destruct (decide (pk' = pk)) as [->|];
        repeat case_decide; set_solver.
    + intros [Hnd1 Hnd2]%NoDup_cons n' pk' [[= -> ->]|Hin']%elem_of_cons Hs; [|by eapply Hall].
      rewrite Hpk in Hs. by destruct Hs.
Qed.

Lemma classify_valid_inv d m msg n s : classify_sig d m msg n s = SigValid →
  ∃ pk, m !! n = Some pk ∧ cert_recover s d msg = Some pk ∧ cert_verify s d msg pk = true.
Proof.
  unfold classify_sig. destruct (m !! n) as [pk|]; [|done].
  destruct (cert_recover s d msg) as [pk'|]; [|done]. case_bool_decide as Hpk; [done|]. subst pk'.
  destruct (cert_verify s d msg pk) eqn:Hv; [eauto|done].
Qed.

Lemma multisig_verify_inv sigs d m msg nodes : multisig_verify sigs d m msg = Ok nodes →
  sublist nodes (btree_keys m) ∧
  ∀ n, n ∈ nodes → ∃ pk s, m !! n = Some pk ∧ s ∈ sigs ∧
    cert_recover s d msg = Some pk ∧ cert_verify s d msg pk = true.
Proof.
  unfold multisig_verify. destruct (multisig_recover _ _ _ _ _) as [v i] eqn:Hr.
  destruct (multisig_match _ _ _) as [ids rest] eqn:Hm.
  apply multisig_recover_dom in Hr as [Hd _].
  apply multisig_match_spec in Hm as (new & -> & Hsub & Hin & _).
  case_bool_decide; [done|]. case_bool_decide; [done|]. intros [= <-]. split; [done|].
  intros n Hn. destruct (Hin n Hn) as (pk & Hpk & Hs). apply elem_of_btree_iter in Hpk.
  apply Hd in Hs as [Hs|(s & ? & ? & ?)%Exists_exists]; [by apply lookup_empty_is_Some in Hs|].
  eauto 7.
Qed.

Lemma btree_values_nodup (m : ValidatorMapping) :
  (∀ n n' pk, m !! n = Some pk → m !! n' = Some pk → n = n') → NoDup (btree_iter m).*2.
Proof.
  intros Hinj. apply NoDup_fmap_2_strong.
  - intros [n pk] [n' pk'] Hn%elem_of_btree_iter Hn'%elem_of_btree_iter Heq. simpl in *. subst pk'.
    by rewrite (Hinj n n' pk).
  - rewrite btree_iter_perm. apply NoDup_map_to_list.
Qed.

(** A collection that was built holds exactly the given signatures, all of
    them good ones of validators. *)
Lemma multisig_new_inv d sigs m msg sc : multisig_new d sigs m msg = Ok sc →
  (∀ s, s ∈ sc ↔ ∃ n, (n, s) ∈ sigs) ∧
  (∀ n s, (n, s) ∈ sigs → ∃ pk, m !! n = Some pk ∧
     cert_recover s d msg = Some pk ∧ cert_verify s d msg pk = true).
Proof.
  intros (acc & Hacc & Hnew)%ok_bind_inv.
  case_bool_decide as He; [done|]. case_bool_decide as Hi; [done|]. injection Hnew as <-.
  apply multisig_collect_ok in Hacc as (_ & _ & Hmap & Hval); [|done..]. split.
  - intros s. rewrite list_elem_of_fmap. split.
    + intros ([n s'] & -> & Hn%elem_of_btree_iter). apply Hmap in Hn as [Hn|[Hn _]]; [|eauto].
      simpl in Hn. by apply lookup_empty_Some in Hn.
    + intros [n Hn]. exists (n, s). rewrite elem_of_btree_iter, Hmap. auto.
  - intros n s Hn. apply classify_valid_inv. by apply Hval.
Qed.

Lemma multisig_new_nonempty d sigs m msg sc : sigs ≠ [] → multisig_new d sigs m msg = Ok sc →
  multisig_num_signatures sc ≠ 0.
Proof.
  intros Hne [Hsigs _]%multisig_new_inv. destruct sigs as [|[n s] sigs]; [done|].
  assert (s ∈ sc) as Hs by (apply Hsigs; exists n; left).
  unfold multisig_num_signatures. destruct sc; [by apply elem_of_nil in Hs|done].
Qed.

Lemma multisig_new_verify d sigs m msg sc :
  (∀ n n' pk, m !! n = Some pk → m !! n' = Some pk → n = n') →
  multisig_new d sigs m msg = Ok sc →
  ∃ nodes, multisig_verify sc d m msg = Ok nodes ∧ ∀ n, n ∈ nodes ↔ n ∈ sigs.*1.
Proof.
  intros Hinj [Hsigs Hcl]%multisig_new_inv.
  unfold multisig_verify. destruct (multisig_recover _ _ _ _ _) as [v i] eqn:Hr.
  destruct (multisig_match _ _ _) as [ids rest] eqn:Hm.
  apply multisig_recover_dom in Hr as [Hd Hinv].
  apply multisig_match_spec in Hm as (new & -> & Hsub & Hin & Hrest & Hall).
  assert (∀ pk, is_Some (v !! pk) → ∃ n s, (n, s) ∈ sigs ∧ m !! n = Some pk) as Hv.
  { intros pk Hs. apply Hd in Hs.
    destruct Hs as [Hs|(s & [n Hn]%Hsigs & Hrec & _)%Exists_exists];
      [by apply lookup_empty_is_Some in Hs|].
    destruct (Hcl n s Hn) as (pk' & Hpk & Hrec' & _). simplify_eq. eauto. }
  rewrite Hinv.
  2:{ apply Forall_forall. intros s [n Hn]%Hsigs. destruct (Hcl n s Hn) as (pk & ? & ?). by exists pk. }
  rewrite bool_decide_eq_false_2 by auto. rewrite bool_decide_eq_false_2.
  2:{ intros (pk & s & Hs)%map_choose. rewrite Hrest in Hs. case_decide as Hin'; [done|].
      destruct (Hv pk ltac:(eauto)) as (n & s' & _ & Hpk). destruct Hin'. apply list_elem_of_fmap.
      exists (n, pk). by rewrite elem_of_btree_iter. }
  exists new. split; [done|]. intros n. rewrite list_elem_of_fmap. split.
  - intros Hn. destruct (Hin n Hn) as (pk & Hpk%elem_of_btree_iter & Hs).
    destruct (Hv pk Hs) as (n' & s' & Hn' & Hpk').
    rewrite (Hinj n n' pk) by done. by exists (n', s').
  - intros ([n' s] & -> & Hn). simpl. destruct (Hcl n' s Hn) as (pk & Hpk & Hrec & Hver).
    apply (Hall (btree_values_nodup m Hinj) n' pk); [by apply elem_of_btree_iter|].
    apply Hd. right. apply Exists_exists. exists s. rewrite Hsigs. eauto.
Qed.

Lemma multisig_collect_invalid d m msg sigs acc acc' :
  multisig_collect d m msg sigs acc = Ok acc' →
  ∃ inv, invalid_sigs acc' = invalid_sigs acc ++ inv ∧ inv ⊆ sigs.
Proof.
  revert acc. induction sigs as [|[n s] sigs IH]; intros acc H; simpl in H.
  { injection H as <-. exists []. by rewrite app_nil_r. }
  repeat case_match; try done; apply IH in H as (inv & -> & Hsub); simpl;
    try (exists inv; split; [done|set_solver]).
  exists ((n, s) :: inv). rewrite <- (assoc_L (++)). split; [done|set_solver].
Qed.

Lemma multisig_collect_total d m msg sigs acc :
  NoDup sigs.*1 → (∀ n, n ∈ sigs.*1 → is_Some (m !! n) ∧ sig_map acc !! n = None) →
  ∃ acc', multisig_collect d m msg sigs acc = Ok acc' ∧ external_sigs acc' = external_sigs acc.
Proof.
  revert acc. induction sigs as [|[n s] sigs IH]; intros acc Hnd Hn; simpl; [eauto|].
  apply NoDup_cons in Hnd as [Hnin Hnd]. destruct (Hn n) as [[pk Hpk] Hnone]; [by left|].
  assert (∀ n', n' ∈ sigs.*1 → is_Some (m !! n') ∧ sig_map acc !! n' = None) as Hn'.
  { intros n' Hin. apply Hn. by right. }
  destruct (classify_sig d m msg n s) eqn:Hc.
  - unfold classify_sig in Hc. rewrite Hpk in Hc. by repeat case_match.
  - by apply (IH {| acc with invalid_sigs := invalid_sigs acc ++ [(n, s)] |}).
  - rewrite Hnone. apply (IH {| acc with sig_map := <[n:=s]> (sig_map acc) |}); [done|].
    simpl. intros n' Hin. rewrite lookup_insert_ne; [auto|]. by intros ->.
Qed.

Lemma multisig_sc_laws : sc_laws multisig_new multisig_verify.
Proof.
  split.
  - intros sc d m msg nodes [Hsub _]%multisig_verify_inv.
    exact (sublist_NoDup _ _ (btree_keys_nodup m) Hsub).
  - intros sc d m msg nodes n [_ Hin]%multisig_verify_inv Hn.
    destruct (Hin n Hn) as (pk & s & ? & _). eauto.
  - apply multisig_new_verify.
  - unfold multisig_new. intros d sigs m msg inv H.
    destruct (multisig_collect _ _ _ _ _) as [acc|] eqn:Hc; simpl in H; [|].
    + case_bool_decide; [done|]. case_bool_decide as Hi; [|done]. injection H as <-. split; [done|].
      apply multisig_collect_invalid in Hc as (inv & -> & ?). done.
    + exfalso. injection H as ->. revert Hc. generalize (mkMultisigAcc ∅ [] []). clear.
      induction sigs as [|[n s] sigs IH]; intros acc Hc; simpl in Hc; [done|].
      repeat case_match; try done; by eapply IH.
  - intros d sigs m msg Hnd Hm.
    destruct (multisig_collect_total d m msg sigs (mkMultisigAcc ∅ [] []) Hnd) as (acc & Hacc & He).
    { intros n Hn. split; [by apply Hm|apply lookup_empty]. }
    unfold multisig_new. rewrite Hacc. simpl. rewrite He. simpl.
    case_bool_decide; [right|left]; eauto.
Qed.

(** ** Properties *)

(** The multi-signature collection meets the contract of
    [SignatureCollection] the consensus code relies on: verification names
    distinct validators, each with a signature of its own key in the
    collection; and if validators have distinct keys, a collection that was
    built from signatures verifies, naming exactly their nodes. *)
Theorem multisig_meets_contract :
  sc_laws multisig_new multisig_verify ∧
  ∀ sigs d m msg nodes n, multisig_verify sigs d m msg = Ok nodes → n ∈ nodes →
    ∃ pk s, m !! n = Some pk ∧ s ∈ sigs ∧
      cert_recover s d msg = Some pk ∧ cert_verify s d msg pk = true.
Proof.
  split; [apply multisig_sc_laws|].
  intros sigs d m msg nodes n [_ Hin]%multisig_verify_inv Hn. by apply Hin.
Qed.
End multisig.

(** ** The collection at the concrete instance *)

Definition toy_recover (sig : ToySig) (d : SigningDomain) (msg : bytes) : option N :=
  if bool_decide (sig.2 = (domain_code d, msg)) then Some sig.1 else None.

Definition toy_cert_signature : @CertSignature toy_params :=
  @Build_CertSignature toy_params (λ d msg (key : N), toy_sign key d msg)
    (λ (sig : ToySig) d msg (pk : N), bool_decide (sig = toy_sign pk d msg))
    (λ _, true) (λ key : N, key).

Definition toy_cert_recover : @CertRecover toy_params := @Build_CertRecover toy_params toy_recover.

Definition toy_author_signing : @AuthorSigning toy_params :=
  @Build_AuthorSigning toy_params (λ d msg (key : N), toy_sign key d msg) toy_recover (λ key : N, key).

Definition toy_signature_collection : @SignatureCollection toy_params :=
  @Build_SignatureCollection toy_params
    (@multisig_new toy_params toy_cert_signature toy_cert_recover)
    (@multisig_verify toy_params toy_cert_signature toy_cert_recover)
    (@multisig_num_signatures toy_params).

Lemma toy_sc_laws :
  @sc_laws toy_params _ (@sc_new toy_params toy_signature_collection)
    (@sc_verify toy_params toy_signature_collection).
Proof. exact (@multisig_sc_laws toy_params toy_cert_signature toy_cert_recover). Qed.
