(* ===== verification/Certificates.v ===== *)
(** * Votes, certificates, blocks and timeouts (monad-consensus-types/src)

    The data the consensus messages carry: votes and quorum certificates
    (voting.rs, quorum_certificate.rs), block headers (block.rs), tips and
    no-endorsement certificates (tip.rs, no_endorsement.rs), timeouts, timeout
    certificates and their ranking (timeout.rs), checkpoints (checkpoint.rs).
    RLP encoding and hashing are parameters ([Codec]). *)
From S2P Require Import Prelude Types Interfaces.

(** voting.rs *)
Record Vote := mkVote { vote_id : BlockId; vote_round : Round; vote_epoch : Epoch }.

#[global] Instance Vote_eq_dec : EqDecision Vote.
Proof. solve_decision. Defined.
#[global] Program Instance Vote_countable : Countable Vote :=
  inj_countable' (λ v, (vote_id v, vote_round v, vote_epoch v))
                 (λ '(i, r, e), mkVote i r e) _.
Next Obligation. by intros []. Qed.

(** no_endorsement.rs *)
Record NoEndorsement := mkNoEndorsement { ne_epoch : Epoch; ne_round : Round; ne_tip_qc_round : Round }.

#[global] Instance NoEndorsement_eq_dec : EqDecision NoEndorsement.
Proof. solve_decision. Defined.
#[global] Program Instance NoEndorsement_countable : Countable NoEndorsement :=
  inj_countable' (λ v, (ne_epoch v, ne_round v, ne_tip_qc_round v))
                 (λ '(e, r, t), mkNoEndorsement e r t) _.
Next Obligation. by intros []. Qed.

(** timeout.rs *)
Record TimeoutInfo := mkTimeoutInfo {
  ti_epoch : Epoch;
  ti_round : Round;
  ti_high_qc_round : Round;
  ti_high_tip_round : Round;
}.

#[global] Instance TimeoutInfo_eq_dec : EqDecision TimeoutInfo.
Proof. solve_decision. Defined.
#[global] Program Instance TimeoutInfo_countable : Countable TimeoutInfo :=
  inj_countable' (λ v, (ti_epoch v, ti_round v, ti_high_qc_round v, ti_high_tip_round v))
                 (λ '(e, r, q, t), mkTimeoutInfo e r q t) _.
Next Obligation. by intros []. Qed.

Inductive HighExtendRank :=
| RankTip (tip_round qc_round : Round)
| RankQc (qc_round : Round).

#[global] Instance HighExtendRank_eq_dec : EqDecision HighExtendRank.
Proof. solve_decision. Defined.

(** [impl Ord for HighExtendRank]. *)
Definition rank_cmp (a b : HighExtendRank) : comparison :=
  match a, b with
  | RankQc q1, RankQc q2 => q1 ?= q2
  | RankTip t1 q1, RankTip t2 q2 => if bool_decide (t1 ≠ t2) then t1 ?= t2 else q1 ?= q2
  | RankQc q1, RankTip t2 _ => if bool_decide (q1 = t2) then Gt else q1 ?= t2
  | RankTip t1 _, RankQc q2 => if bool_decide (t1 = q2) then Lt else t1 ?= q2
  end.

Definition rank_of_rounds (high_qc_round high_tip_round : Round) : HighExtendRank :=
  if bool_decide (high_tip_round = GENESIS_ROUND) then RankQc high_qc_round
  else RankTip high_tip_round high_qc_round.

(** [TimeoutInfo::rank]. *)
Definition timeout_info_rank (ti : TimeoutInfo) : HighExtendRank :=
  rank_of_rounds (ti_high_qc_round ti) (ti_high_tip_round ti).

Section certificates.
Context `{P : Params}.

(** quorum_certificate.rs *)
Record QuorumCertificate := mkQC { qc_info : Vote; qc_signatures : SigCol }.

Definition qc_get_round (qc : QuorumCertificate) : Round := vote_round (qc_info qc).
Definition qc_get_epoch (qc : QuorumCertificate) : Epoch := vote_epoch (qc_info qc).
Definition qc_get_block_id (qc : QuorumCertificate) : BlockId := vote_id (qc_info qc).

(** [Rank(Vote)]: certificates are ordered by round. *)
Definition vote_rank_cmp (a b : Vote) : comparison := vote_round a ?= vote_round b.

(** block.rs; [round_signature] is the wrapped certificate signature. *)
Record ConsensusBlockHeader := mkHeader {
  bh_block_round : Round;
  bh_epoch : Epoch;
  bh_qc : QuorumCertificate;
  bh_author : NodeId;
  bh_seq_num : SeqNum;
  bh_timestamp_ns : N;
  bh_round_signature : Signature;
  bh_delayed_execution_results : list FinalizedHeader;
  bh_execution_inputs : ProposedHeader;
  bh_block_body_id : N;
  bh_base_fee : N;
  bh_base_fee_trend : N;
  bh_base_fee_moment : N;
}.

Definition get_parent_id (h : ConsensusBlockHeader) : BlockId := qc_get_block_id (bh_qc h).

Record BlockRange := mkBlockRange { br_last_block_id : BlockId; br_num_blocks : SeqNum }.

(** no_endorsement.rs, timeout.rs *)
Record NoEndorsementCertificate := mkNEC { nec_msg : NoEndorsement; nec_signatures : SigCol }.

Record HighTipRoundSigColTuple := mkTipRounds {
  tr_high_qc_round : Round;
  tr_high_tip_round : Round;
  tr_sigs : SigCol;
}.

Definition tip_rounds_rank (t : HighTipRoundSigColTuple) : HighExtendRank :=
  rank_of_rounds (tr_high_qc_round t) (tr_high_tip_round t).

Record NoTipCertificate := mkNoTip {
  nt_epoch : Epoch;
  nt_round : Round;
  nt_tip_rounds : list HighTipRoundSigColTuple;
  nt_high_qc : QuorumCertificate;
}.

Inductive FreshProposalCertificate :=
| Nec (nec : NoEndorsementCertificate)
| NoTip (no_tip : NoTipCertificate).

(** tip.rs *)
Record ConsensusTip := mkTip {
  tip_block_header : ConsensusBlockHeader;
  tip_signature : AuthorSignature;
  tip_fresh_certificate : option FreshProposalCertificate;
}.

Inductive HighExtend :=
| HeTip (tip : ConsensusTip)
| HeQc (qc : QuorumCertificate).

Inductive HighExtendVote :=
| HevTip (tip : ConsensusTip) (vote : option Signature)
| HevQc (qc : QuorumCertificate).

Definition high_extend_rank (he : HighExtend) : HighExtendRank :=
  match he with
  | HeTip tip => RankTip (bh_block_round (tip_block_header tip)) (qc_get_round (bh_qc (tip_block_header tip)))
  | HeQc qc => RankQc (qc_get_round qc)
  end.
Definition high_extend_qc (he : HighExtend) : QuorumCertificate :=
  match he with HeTip tip => bh_qc (tip_block_header tip) | HeQc qc => qc end.

(** [From<HighExtendVote> for HighExtend]. *)
Definition high_extend_of_vote (hev : HighExtendVote) : HighExtend :=
  match hev with HevQc qc => HeQc qc | HevTip tip _ => HeTip tip end.
Definition high_extend_vote_rank (hev : HighExtendVote) : HighExtendRank :=
  match hev with
  | HevTip tip _ => RankTip (bh_block_round (tip_block_header tip)) (qc_get_round (bh_qc (tip_block_header tip)))
  | HevQc qc => RankQc (qc_get_round qc)
  end.
Definition high_extend_vote_qc (hev : HighExtendVote) : QuorumCertificate :=
  match hev with HevTip tip _ => bh_qc (tip_block_header tip) | HevQc qc => qc end.

Record TimeoutCertificate := mkTC {
  tc_epoch : Epoch;
  tc_round : Round;
  tc_tip_rounds : list HighTipRoundSigColTuple;
  tc_high_extend : HighExtend;
}.

(** lib.rs *)
Inductive RoundCertificate :=
| RcQc (qc : QuorumCertificate)
| RcTc (tc : TimeoutCertificate).

Definition round_certificate_round (c : RoundCertificate) : Round :=
  match c with RcQc qc => vote_round (qc_info qc) | RcTc tc => tc_round tc end.
Definition round_certificate_tc (c : RoundCertificate) : option TimeoutCertificate :=
  match c with RcQc _ => None | RcTc tc => Some tc end.
Definition round_certificate_qc (c : RoundCertificate) : QuorumCertificate :=
  match c with RcQc qc => qc | RcTc tc => high_extend_qc (tc_high_extend tc) end.

Record Timeout := mkTimeout {
  to_tminfo : TimeoutInfo;
  to_timeout_signature : Signature;
  to_high_extend : HighExtendVote;
  to_last_round_certificate : option RoundCertificate;
}.

(** payload.rs: [ConsensusBlockBodyInner { execution_body }]. *)
Record ConsensusBlockBody := mkBody { execution_body : ExecutionBody }.

(** checkpoint.rs *)
Record RootInfo := mkRootInfo {
  ri_round : Round;
  ri_seq_num : SeqNum;
  ri_epoch : Epoch;
  ri_block_id : BlockId;
  ri_timestamp_ns : N;
}.

Record LockedEpoch := mkLockedEpoch { le_epoch : Epoch; le_round : Round }.

Record Checkpoint := mkCheckpoint {
  cp_root : BlockId;
  cp_high_certificate : RoundCertificate;
  cp_validator_sets : list LockedEpoch;
}.

#[global] Instance QuorumCertificate_eq_dec : EqDecision QuorumCertificate.
Proof. solve_decision. Defined.
#[global] Instance ConsensusBlockHeader_eq_dec : EqDecision ConsensusBlockHeader.
Proof. solve_decision. Defined.
#[global] Instance NoEndorsementCertificate_eq_dec : EqDecision NoEndorsementCertificate.
Proof. solve_decision. Defined.
#[global] Instance HighTipRoundSigColTuple_eq_dec : EqDecision HighTipRoundSigColTuple.
Proof. solve_decision. Defined.
#[global] Instance NoTipCertificate_eq_dec : EqDecision NoTipCertificate.
Proof. solve_decision. Defined.
#[global] Instance FreshProposalCertificate_eq_dec : EqDecision FreshProposalCertificate.
Proof. solve_decision. Defined.
#[global] Instance ConsensusTip_eq_dec : EqDecision ConsensusTip.
Proof. solve_decision. Defined.
#[global] Instance HighExtend_eq_dec : EqDecision HighExtend.
Proof. solve_decision. Defined.
#[global] Instance HighExtendVote_eq_dec : EqDecision HighExtendVote.
Proof. solve_decision. Defined.
#[global] Instance TimeoutCertificate_eq_dec : EqDecision TimeoutCertificate.
Proof. solve_decision. Defined.
#[global] Instance RoundCertificate_eq_dec : EqDecision RoundCertificate.
Proof. solve_decision. Defined.
#[global] Instance Timeout_eq_dec : EqDecision Timeout.
Proof. solve_decision. Defined.
#[global] Instance ConsensusBlockBody_eq_dec : EqDecision ConsensusBlockBody.
Proof. solve_decision. Defined.

(** [PartialOrd for HighExtend]: incomparable when the ranks tie and the
    values differ. *)
Definition high_extend_partial_cmp (a b : HighExtend) : option comparison :=
  match rank_cmp (high_extend_rank a) (high_extend_rank b) with
  | Eq => if bool_decide (a ≠ b) then None else Some Eq
  | c => Some c
  end.
Definition high_extend_gt (a b : HighExtend) : bool :=
  match high_extend_partial_cmp a b with Some Gt => true | _ => false end.

(** The RLP encodings and the hash function the source calls. *)
Class Codec := {
  rlp_round : Round → bytes;
  rlp_vote : Vote → bytes;
  rlp_timeout_info : TimeoutInfo → bytes;
  rlp_no_endorsement : NoEndorsement → bytes;
  rlp_block_header : ConsensusBlockHeader → bytes;
  rlp_block_body : ConsensusBlockBody → bytes;
  rlp_qc : QuorumCertificate → bytes;
  rlp_tc : TimeoutCertificate → bytes;
  rlp_nec : NoEndorsementCertificate → bytes;
  hash : bytes → N;
}.
End certificates.

Section certificate_ops.
Context `{P : Params} {CD : Codec} {CS : CertSignature} {AS : AuthorSigning}
        {SC : SignatureCollection}.

(** [ConsensusBlockHeader::get_id], [ConsensusBlockBody::get_id]. *)
Definition get_id (h : ConsensusBlockHeader) : BlockId := hash (rlp_block_header h).
Definition body_get_id (b : ConsensusBlockBody) : N := hash (rlp_block_body b).

(** [QuorumCertificate::genesis_qc]. *)
Definition genesis_qc : outcome QuorumCertificate :=
  match sc_new SdVote [] ∅ [] with
  | Ok sigs => Ret (mkQC (mkVote GENESIS_BLOCK_ID GENESIS_ROUND 1) sigs)
  | Err _ => Panic
  end.

(** [QuorumCertificate::get_committable_id]: the commit rule. The block the
    certificate points to commits its parent when their certificates are of
    adjacent rounds. *)
Definition get_committable_id (qc : QuorumCertificate) (qc_parent_block : ConsensusBlockHeader)
    : outcome (option BlockId) :=
  _ ← rust_assert (bool_decide (vote_id (qc_info qc) = get_id qc_parent_block));
  next ← round_add (vote_round (qc_info (bh_qc qc_parent_block))) 1;
  if bool_decide (vote_round (qc_info qc) = next) then Ret (Some (get_parent_id qc_parent_block))
  else Ret None.

(** [RoundSignature]. *)
Definition round_signature_new (round : Round) (keypair : CertKeyPair) : Signature :=
  cert_sign SdRoundSignature (rlp_round round) keypair.
Definition round_signature_verify (sig : Signature) (round : Round) (pubkey : CertPubKey) : bool :=
  cert_verify sig SdRoundSignature (rlp_round round) pubkey.

(** [ConsensusTip::new], [ConsensusTip::signature_author]. *)
Definition tip_new (keypair : AuthorKeyPair) (block_header : ConsensusBlockHeader)
    (fresh_certificate : option FreshProposalCertificate) : ConsensusTip :=
  mkTip block_header (author_sign SdTip (rlp_block_header block_header) keypair) fresh_certificate.
Definition signature_author (tip : ConsensusTip) : option NodeId :=
  author_recover (tip_signature tip) SdTip (rlp_block_header (tip_block_header tip)).

(** [Timeout::new]: a tip is accompanied by a vote for it in the timed-out
    round when that is safe. *)
Definition timeout_new (cert_keypair : CertKeyPair) (timeout : TimeoutInfo) (high_extend : HighExtend)
    (safe_to_vote : bool) (last_round_certificate : option RoundCertificate) : Timeout :=
  let timeout_signature := cert_sign SdTimeout (rlp_timeout_info timeout) cert_keypair in
  let high_extend :=
    match high_extend with
    | HeQc qc => HevQc qc
    | HeTip tip =>
        let maybe_vote_signature :=
          if safe_to_vote then
            Some (cert_sign SdVote
              (rlp_vote (mkVote (get_id (tip_block_header tip)) (ti_round timeout) (ti_epoch timeout)))
              cert_keypair)
          else None in
        HevTip tip maybe_vote_signature
    end in
  mkTimeout timeout timeout_signature high_extend last_round_certificate.

(** First loop of [TimeoutCertificate::new]: signatures by timeout info, and
    the highest extension seen (the first one among incomparable ones). *)
Fixpoint tc_collect (l : list (NodeId * Timeout)) (highest_extend : HighExtend)
    (sigs : gmap TimeoutInfo (list (NodeId * Signature)))
    : HighExtend * gmap TimeoutInfo (list (NodeId * Signature)) :=
  match l with
  | [] => (highest_extend, sigs)
  | (node_id, timeout) :: l =>
      let entry := default [] (sigs !! to_tminfo timeout) in
      let sigs := <[to_tminfo timeout := entry ++ [(node_id, to_timeout_signature timeout)]]> sigs in
      let timeout_high_extend := high_extend_of_vote (to_high_extend timeout) in
      let highest_extend :=
        if high_extend_gt timeout_high_extend highest_extend then timeout_high_extend
        else highest_extend in
      tc_collect l highest_extend sigs
  end.

(** Second loop: one signature collection per timeout info. *)
Fixpoint tc_tip_rounds_of (validator_mapping : ValidatorMapping)
    (l : list (TimeoutInfo * list (NodeId * Signature)))
    : result SignatureCollectionError (list HighTipRoundSigColTuple) :=
  match l with
  | [] => Ok []
  | (timeout_info, sigs) :: l =>
      sct ← sc_new SdTimeout sigs validator_mapping (rlp_timeout_info timeout_info);
      rest ← tc_tip_rounds_of validator_mapping l;
      Ok (mkTipRounds (ti_high_qc_round timeout_info) (ti_high_tip_round timeout_info) sct :: rest)
  end.

(** [TimeoutCertificate::new]. *)
Definition tc_new {HO : HashOrder TimeoutInfo (list (NodeId * Signature))}
    (epoch : Epoch) (round : Round) (l : list (NodeId * Timeout)) (validator_mapping : ValidatorMapping)
    : outcome (result SignatureCollectionError TimeoutCertificate) :=
  genesis ← genesis_qc;
  let '(highest_extend, sigs) := tc_collect l (HeQc genesis) ∅ in
  Ret (tip_rounds ← tc_tip_rounds_of validator_mapping (hash_iter sigs);
       Ok (mkTC epoch round tip_rounds highest_extend)).
End certificate_ops.

(** ** The rank order *)

(** A rank as a pair of rounds, compared lexicographically: a certificate of
    round [r] ranks just above every tip of round [r], whatever the tip
    extends. *)
Definition rank_le (a b : HighExtendRank) : Prop := rank_cmp a b ≠ Gt.
Definition rank_lt (a b : HighExtendRank) : Prop := rank_cmp a b = Lt.

Lemma rank_cmp_spec a b : match rank_cmp a b with
  | Eq => a = b
  | Lt => match a, b with
          | RankQc q1, RankQc q2 => q1 < q2
          | RankTip t1 q1, RankTip t2 q2 => t1 < t2 ∨ t1 = t2 ∧ q1 < q2
          | RankQc q1, RankTip t2 _ => q1 < t2
          | RankTip t1 _, RankQc q2 => t1 ≤ q2
          end
  | Gt => match a, b with
          | RankQc q1, RankQc q2 => q2 < q1
          | RankTip t1 q1, RankTip t2 q2 => t2 < t1 ∨ t1 = t2 ∧ q2 < q1
          | RankQc q1, RankTip t2 _ => t2 ≤ q1
          | RankTip t1 _, RankQc q2 => q2 < t1
          end
  end.
Proof.
  destruct a as [t1 q1|q1], b as [t2 q2|q2]; simpl; repeat case_bool_decide;
    try case N.compare_spec; intros; simplify_eq; (done || lia || (f_equal; lia) || auto).
Qed.

Lemma rank_lt_cases a b : rank_cmp a b = Lt ↔
  match a, b with
  | RankQc q1, RankQc q2 => q1 < q2
  | RankTip t1 q1, RankTip t2 q2 => t1 < t2 ∨ t1 = t2 ∧ q1 < q2
  | RankQc q1, RankTip t2 _ => q1 < t2
  | RankTip t1 _, RankQc q2 => t1 ≤ q2
  end.
Proof.
  pose proof (rank_cmp_spec a b). destruct (rank_cmp a b); [subst b|tauto|].
  - destruct a; split; (done || lia).
  - destruct a, b; split; (done || lia).
Qed.

Lemma rank_eq_cases a b : rank_cmp a b = Eq ↔ a = b.
Proof.
  pose proof (rank_cmp_spec a b). destruct (rank_cmp a b); [tauto| |];
    (split; [done|intros ->]; destruct b; lia).
Qed.

Lemma rank_gt_cases a b : rank_cmp a b = Gt ↔ rank_cmp b a = Lt.
Proof.
  rewrite rank_lt_cases. pose proof (rank_cmp_spec a b).
  destruct (rank_cmp a b); [subst b| |]; destruct a; try destruct b; split; (done || lia).
Qed.

Lemma rank_lt_trans a b c : rank_cmp a b = Lt → rank_cmp b c = Lt → rank_cmp a c = Lt.
Proof. rewrite !rank_lt_cases. destruct a, b, c; lia. Qed.

Lemma rank_le_alt a b : rank_le a b ↔ rank_cmp a b = Lt ∨ a = b.
Proof.
  unfold rank_le. rewrite <- (rank_eq_cases a b). destruct (rank_cmp a b); naive_solver.
Qed.

#[global] Instance rank_le_preorder : PreOrder rank_le.
Proof.
  split.
  - intros a. apply rank_le_alt. by right.
  - intros a b c. rewrite !rank_le_alt. intros [H1| ->] [H2| ->]; eauto using rank_lt_trans.
Qed.

Lemma rank_le_gt a b : rank_le a b ∨ rank_cmp a b = Gt.
Proof. unfold rank_le. destruct (rank_cmp a b); naive_solver. Qed.

(** ** Collecting timeouts *)

(** The signatures of a grouping, each with its timeout info. *)
Definition flatten_groups {A} (l : list (TimeoutInfo * list A)) : list (TimeoutInfo * A) :=
  l ≫= λ g, pair g.1 <$> g.2.

#[global] Instance flatten_groups_perm {A} : Proper ((≡ₚ) ==> (≡ₚ)) (flatten_groups (A:=A)).
Proof. intros l k H. unfold flatten_groups. by rewrite H. Qed.

Lemma flatten_groups_insert {A} (m : gmap TimeoutInfo (list A)) k x :
  flatten_groups (map_to_list (<[k := default [] (m !! k) ++ [x]]> m)) ≡ₚ
    (k, x) :: flatten_groups (map_to_list m).
Proof.
  rewrite <- insert_delete_eq, map_to_list_insert by apply lookup_delete_eq.
  unfold flatten_groups at 1. rewrite bind_cons. simpl. fold (flatten_groups (map_to_list (delete k m))).
  rewrite fmap_app. destruct (m !! k) as [xs|] eqn:Hk; simpl.
  - rewrite <- (map_to_list_delete m k xs) by done.
    unfold flatten_groups at 2. rewrite bind_cons. simpl. fold (flatten_groups (map_to_list (delete k m))).
    by rewrite <- Permutation_middle, app_nil_r.
  - by rewrite delete_id.
Qed.

Section certificate_lemmas.
Context `{P : Params} {CD : Codec} {CS : CertSignature} {AS : AuthorSigning}
        {SC : SignatureCollection}.

Lemma high_extend_gt_true a b :
  high_extend_gt a b = true ↔ rank_cmp (high_extend_rank a) (high_extend_rank b) = Gt.
Proof.
  unfold high_extend_gt, high_extend_partial_cmp.
  destruct (rank_cmp _ _); try case_bool_decide; naive_solver.
Qed.

Lemma high_extend_vote_rank_of hev : high_extend_rank (high_extend_of_vote hev) = high_extend_vote_rank hev.
Proof. by destruct hev. Qed.

Lemma tc_collect_spec l he sigs he' sigs' : tc_collect l he sigs = (he', sigs') →
  rank_le (high_extend_rank he) (high_extend_rank he') ∧
  (∀ n t, (n, t) ∈ l → rank_le (high_extend_vote_rank (to_high_extend t)) (high_extend_rank he')) ∧
  (he' = he ∨ ∃ n t, (n, t) ∈ l ∧ he' = high_extend_of_vote (to_high_extend t)) ∧
  flatten_groups (map_to_list sigs') ≡ₚ
    flatten_groups (map_to_list sigs) ++
    ((λ nt, (to_tminfo nt.2, (nt.1, to_timeout_signature nt.2))) <$> l).
Proof.
  revert he sigs. induction l as [|[n t] l IH]; intros he sigs H; simpl in H.
  { injection H as <- <-. rewrite app_nil_r. split_and!; [done| |by left|done].
    intros n t Hn. by apply elem_of_nil in Hn. }
  apply IH in H as (Hmax & Hall & Hin & Hperm).
  set (cur := high_extend_of_vote (to_high_extend t)) in *.
  assert (rank_le (high_extend_rank he) (high_extend_rank he') ∧
          rank_le (high_extend_rank cur) (high_extend_rank he')) as [H1 H2].
  { destruct (high_extend_gt cur he) eqn:Hg.
    - split; [|done]. etrans; [|exact Hmax]. apply high_extend_gt_true, rank_gt_cases in Hg.
      apply rank_le_alt. auto.
    - split; [done|]. etrans; [|exact Hmax].
      destruct (rank_le_gt (high_extend_rank cur) (high_extend_rank he)) as [|Hgt]; [done|].
      apply high_extend_gt_true in Hgt. congruence. }
  split_and!; [done| | |].
  - intros n' t' [[= -> ->]|Hn]%elem_of_cons; [|eauto]. by rewrite <- high_extend_vote_rank_of.
  - destruct Hin as [->|(n' & t' & ? & ->)]; [|right; exists n', t'; split; [by right|done]].
    case_match; [right; exists n, t; split; [by left|done]|by left].
  - rewrite Hperm, flatten_groups_insert. simpl. by rewrite Permutation_middle.
Qed.

Lemma tc_tip_rounds_of_ok m l trs : tc_tip_rounds_of m l = Ok trs ↔
  Forall2 (λ g t, sc_new SdTimeout g.2 m (rlp_timeout_info g.1) = Ok (tr_sigs t) ∧
    tr_high_qc_round t = ti_high_qc_round g.1 ∧ tr_high_tip_round t = ti_high_tip_round g.1) l trs.
Proof.
  revert trs. induction l as [|[ti sigs] l IH]; intros trs; simpl.
  { split; [by intros [= <-]|by intros ->%Forall2_nil_inv_l]. }
  split.
  - intros (sct & Hs & (rest & Hr & [= <-])%ok_bind_inv)%ok_bind_inv.
    constructor; [done|by apply IH].
  - intros ([q tr sct] & rest & (Hs & Hq & Ht) & Hr%IH & ->)%Forall2_cons_inv_l. simpl in *.
    rewrite Hs. simpl. rewrite Hr. simpl. by subst.
Qed.

Lemma tc_new_inv {HO : HashOrder TimeoutInfo (list (NodeId * Signature))}
    epoch round (l : list (NodeId * Timeout)) m tc :
  tc_new epoch round l m = Ret (Ok tc) →
  tc_epoch tc = epoch ∧ tc_round tc = round ∧
  (∀ n t, (n, t) ∈ l →
     rank_le (high_extend_vote_rank (to_high_extend t)) (high_extend_rank (tc_high_extend tc))) ∧
  ((∃ g, genesis_qc = Ret g ∧ tc_high_extend tc = HeQc g) ∨
   (∃ n t, (n, t) ∈ l ∧ tc_high_extend tc = high_extend_of_vote (to_high_extend t))) ∧
  ∃ groups,
    Forall2 (λ g t, sc_new SdTimeout g.2 m (rlp_timeout_info g.1) = Ok (tr_sigs t) ∧
      tr_high_qc_round t = ti_high_qc_round g.1 ∧ tr_high_tip_round t = ti_high_tip_round g.1)
      groups (tc_tip_rounds tc) ∧
    flatten_groups groups ≡ₚ
      ((λ nt : NodeId * Timeout, (to_tminfo nt.2, (nt.1, to_timeout_signature nt.2))) <$> l).
Proof.
  intros (g & Hg & H)%bind_ret_inv. destruct (tc_collect l (HeQc g) ∅) as [he sigs] eqn:Hc.
  injection H as (trs & Htr & [= <-])%ok_bind_inv. simpl.
  apply tc_collect_spec in Hc as (_ & Hall & Hin & Hperm).
  split_and!; [done..|destruct Hin; eauto|].
  exists (hash_iter sigs). apply tc_tip_rounds_of_ok in Htr. split; [done|].
  by rewrite hash_iter_perm, Hperm, map_to_list_empty.
Qed.

(** The groups are those of distinct timeout infos, and none is empty. *)
Lemma tc_collect_groups l he sigs he' sigs' : tc_collect l he sigs = (he', sigs') →
  map_Forall (λ _ g, g ≠ []) sigs → map_Forall (λ _ g, g ≠ []) sigs'.
Proof.
  revert he sigs. induction l as [|[n t] l IH]; intros he sigs H Hne; simpl in H; [by simplify_eq|].
  eapply IH; [exact H|]. apply map_Forall_insert_2; [|done]. intros Hnil.
  by apply app_nil in Hnil as [_ ?].
Qed.

Lemma tc_new_groups {HO : HashOrder TimeoutInfo (list (NodeId * Signature))}
    epoch round (l : list (NodeId * Timeout)) m tc :
  tc_new epoch round l m = Ret (Ok tc) →
  ∃ groups,
    Forall2 (λ g t, sc_new SdTimeout g.2 m (rlp_timeout_info g.1) = Ok (tr_sigs t) ∧
      tr_high_qc_round t = ti_high_qc_round g.1 ∧ tr_high_tip_round t = ti_high_tip_round g.1)
      groups (tc_tip_rounds tc) ∧
    flatten_groups groups ≡ₚ
      ((λ nt : NodeId * Timeout, (to_tminfo nt.2, (nt.1, to_timeout_signature nt.2))) <$> l) ∧
    NoDup groups.*1 ∧ ∀ g, g ∈ groups → g.2 ≠ [].
Proof.
  intros (g & Hg & H)%bind_ret_inv. destruct (tc_collect l (HeQc g) ∅) as [he sigs] eqn:Hc.
  injection H as (trs & Htr & [= <-])%ok_bind_inv. simpl.
  pose proof (tc_collect_groups _ _ _ _ _ Hc (map_Forall_empty _)) as Hne.
  apply tc_collect_spec in Hc as (_ & Hall & Hin & Hperm).
  exists (hash_iter sigs). apply tc_tip_rounds_of_ok in Htr. split_and!; [done| | |].
  - by rewrite hash_iter_perm, Hperm, map_to_list_empty.
  - rewrite hash_iter_perm. apply NoDup_fst_map_to_list.
  - intros [ti g'] Hg'. rewrite hash_iter_perm, elem_of_map_to_list in Hg'. apply (Hne _ _ Hg').
Qed.

Lemma genesis_qc_ok : sc_laws sc_new sc_verify →
  ∃ g, genesis_qc = Ret g ∧ qc_get_round g = GENESIS_ROUND.
Proof.
  intros Hl. unfold genesis_qc.
  destruct (sc_new_total _ _ Hl SdVote [] ∅ []) as [[sc ->]|[inv Hinv]]; [constructor|set_solver|eauto|].
  destruct (sc_new_invalid _ _ Hl _ _ _ _ _ Hinv) as [Hne Hsub].
  destruct inv as [|x inv]; [done|]. exfalso. specialize (Hsub x). set_solver.
Qed.

Lemma flatten_groups_nodes (groups : list (TimeoutInfo * list (NodeId * Signature))) g :
  NoDup ((λ x : TimeoutInfo * (NodeId * Signature), x.2.1) <$> flatten_groups groups) → g ∈ groups →
  NoDup g.2.*1 ∧ ∀ x, x ∈ g.2 → (g.1, x) ∈ flatten_groups groups.
Proof.
  induction groups as [|g' groups IH]; intros Hnd Hg; [by apply elem_of_nil in Hg|].
  unfold flatten_groups in Hnd |- *. rewrite bind_cons in *. fold (flatten_groups groups) in *.
  rewrite fmap_app in Hnd. apply NoDup_app in Hnd as (Hnd1 & _ & Hnd2).
  apply elem_of_cons in Hg as [->|Hg].
  - split.
    + rewrite <- list_fmap_compose in Hnd1. exact Hnd1.
    + intros x Hx. apply elem_of_app. left. apply list_elem_of_fmap. eauto.
  - destruct (IH Hnd2 Hg) as [? Hin]. split; [done|]. intros x Hx. apply elem_of_app. right. by apply Hin.
Qed.

Lemma tc_tip_rounds_of_total m (groups : list (TimeoutInfo * list (NodeId * Signature))) :
  sc_laws sc_new sc_verify →
  (∀ g, g ∈ groups → NoDup g.2.*1 ∧ ∀ n, n ∈ g.2.*1 → is_Some (m !! n)) →
  (∃ trs, tc_tip_rounds_of m groups = Ok trs) ∨
  ∃ inv, tc_tip_rounds_of m groups = Err (InvalidSignaturesCreate inv) ∧ inv ≠ [] ∧
    ∃ g, g ∈ groups ∧ inv ⊆ g.2.
Proof.
  intros Hl. induction groups as [|[ti sigs] groups IH]; intros Hg; simpl; [eauto|].
  destruct (Hg (ti, sigs)) as [Hnd Hm]; [by left|]. simpl in *.
  destruct (sc_new_total _ _ Hl SdTimeout sigs m (rlp_timeout_info ti) Hnd Hm) as [[sc ->]|[inv Hinv]]; simpl.
  - destruct IH as [[trs ->]|(inv & -> & Hne & g & Hin & Hsub)]; simpl; [by intros; apply Hg; right|eauto|].
    right. exists inv. split; [done|]. split; [done|]. exists g. split; [by right|done].
  - right. rewrite Hinv. destruct (sc_new_invalid _ _ Hl _ _ _ _ _ Hinv) as [Hne Hsub]. simpl.
    exists inv. split; [done|]. split; [done|]. exists (ti, sigs). split; [by left|done].
Qed.

(** Building a timeout certificate from distinct nodes of the mapping either
    succeeds or names some of their signatures as invalid. *)
Lemma tc_new_total {HO : HashOrder TimeoutInfo (list (NodeId * Signature))}
    epoch round (l : list (NodeId * Timeout)) m :
  sc_laws sc_new sc_verify → NoDup l.*1 → (∀ n, n ∈ l.*1 → is_Some (m !! n)) →
  (∃ tc, tc_new epoch round l m = Ret (Ok tc)) ∨
  ∃ inv, tc_new epoch round l m = Ret (Err (InvalidSignaturesCreate inv)) ∧ inv ≠ [] ∧ inv.*1 ⊆ l.*1.
Proof.
  intros Hl Hnd Hm. unfold tc_new. destruct (genesis_qc_ok Hl) as (g & -> & _). simpl.
  destruct (tc_collect l (HeQc g) ∅) as [he sigs] eqn:Hc.
  apply tc_collect_spec in Hc as (_ & _ & _ & Hperm). rewrite map_to_list_empty in Hperm. simpl in Hperm.
  rewrite <- (hash_iter_perm sigs) in Hperm.
  assert (NoDup ((λ x : TimeoutInfo * (NodeId * Signature), x.2.1) <$> flatten_groups (hash_iter sigs))) as Hnd'.
  { rewrite Hperm, <- list_fmap_compose. exact Hnd. }
  assert (∀ gr n, gr ∈ hash_iter sigs → n ∈ gr.2.*1 → n ∈ l.*1) as Hnodes.
  { intros gr n Hgr (x & -> & Hx)%list_elem_of_fmap.
    destruct (flatten_groups_nodes _ _ Hnd' Hgr) as [_ Hin]. apply Hin in Hx. rewrite Hperm in Hx.
    apply list_elem_of_fmap in Hx as ([n t] & ? & Hx). simplify_eq. apply list_elem_of_fmap.
    by exists (n, t). }
  destruct (tc_tip_rounds_of_total m (hash_iter sigs) Hl) as [[trs ->]|(inv & -> & Hne & gr & Hgr & Hsub)];
    simpl; [|eauto|].
  - intros gr Hgr. destruct (flatten_groups_nodes _ _ Hnd' Hgr) as [? _]. split; [done|]. eauto.
  - right. exists inv. split; [done|]. split; [done|].
    intros n (x & -> & Hx)%list_elem_of_fmap. apply (Hnodes gr); [done|]. apply list_elem_of_fmap. eauto.
Qed.
End certificate_lemmas.

Section certificate_properties.
Context `{P : Params} {CD : Codec} {CS : CertSignature} {AS : AuthorSigning}
        {SC : SignatureCollection}.

(** The order on extension ranks is a strict total order: comparing is
    [Equal] only on identical ranks, swapping the arguments reverses the
    result, and [Less] is transitive; a certificate of round [r] ranks above
    every tip of round [r] and below every tip of a later round. *)
Theorem rank_cmp_total_order a b c :
  (rank_cmp a b = Eq ↔ a = b) ∧ rank_cmp b a = CompOpp (rank_cmp a b) ∧
  (rank_cmp a b = Lt → rank_cmp b c = Lt → rank_cmp a c = Lt) ∧
  (∀ r q q', rank_cmp (RankTip r q) (RankQc r) = Lt ∧ rank_cmp (RankQc r) (RankTip (r + 1) q') = Lt).
Proof.
  split_and!; [apply rank_eq_cases| |apply rank_lt_trans|].
  - destruct (rank_cmp a b) eqn:E; simpl.
    + apply rank_eq_cases in E as ->. by apply rank_eq_cases.
    + by apply rank_gt_cases.
    + by apply rank_gt_cases in E.
  - intros r q q'. rewrite !rank_lt_cases. lia.
Qed.

(** A timeout certificate carries the highest extension of the timeouts it
    is built from: no timeout ranks above it, and it is one of theirs or the
    genesis certificate. Every timeout signature enters exactly one of the
    signature collections, the one for its own timeout info. *)
Theorem tc_new_highest_extension {HO : HashOrder TimeoutInfo (list (NodeId * Signature))}
    epoch round (l : list (NodeId * Timeout)) m tc :
  tc_new epoch round l m = Ret (Ok tc) →
  tc_epoch tc = epoch ∧ tc_round tc = round ∧
  (∀ n t, (n, t) ∈ l →
     rank_le (high_extend_vote_rank (to_high_extend t)) (high_extend_rank (tc_high_extend tc))) ∧
  ((∃ g, genesis_qc = Ret g ∧ tc_high_extend tc = HeQc g) ∨
   (∃ n t, (n, t) ∈ l ∧ tc_high_extend tc = high_extend_of_vote (to_high_extend t))) ∧
  ∃ groups,
    Forall2 (λ g t, sc_new SdTimeout g.2 m (rlp_timeout_info g.1) = Ok (tr_sigs t) ∧
      tr_high_qc_round t = ti_high_qc_round g.1 ∧ tr_high_tip_round t = ti_high_tip_round g.1)
      groups (tc_tip_rounds tc) ∧
    flatten_groups groups ≡ₚ
      ((λ nt : NodeId * Timeout, (to_tminfo nt.2, (nt.1, to_timeout_signature nt.2))) <$> l).
Proof. apply tc_new_inv. Qed.
End certificate_properties.
