(* ===== verification/Concrete.v ===== *)
(** * A concrete instance of the parameters

    Keys are numbers, a signature is the signing key with what it signed, and
    encodings write numbers bit by bit. The generic definitions evaluate at
    this instance, and the hypotheses about encodings and signature
    collections hold for it; the other files use it for their examples. *)
From S2P Require Import Prelude Types Interfaces MultiSig Certificates.

(** ** A concrete encoding, to evaluate the definitions

    Numbers are written bit by bit with an end marker; the hash of a byte
    string is the string read as a number. *)
Fixpoint toy_pos_bits (p : positive) : bytes :=
  match p with xH => [Byte.x01] | xO p => Byte.x00 :: toy_pos_bits p | xI p => Byte.x01 :: toy_pos_bits p end.
Definition toy_enc (n : N) : bytes :=
  match n with N0 => [Byte.x02] | Npos p => toy_pos_bits p ++ [Byte.x02] end.
Definition toy_enc_list (l : list N) : bytes := l ≫= toy_enc.

(** Certificates are first laid out as trees of numbers, one node per
    constructor, so that distinct certificates get distinct encodings. *)
Definition leaf (n : N) : gen_tree N := GenLeaf n.
Definition tree_bytes (bs : bytes) : gen_tree N := GenNode 0 (leaf ∘ Byte.to_N <$> bs).
Definition tree_sig (s : ToySig) : gen_tree N := GenNode 1 [leaf s.1; leaf s.2.1; tree_bytes s.2.2].
Definition tree_sigs (l : list ToySig) : gen_tree N := GenNode 2 (tree_sig <$> l).
Definition tree_vote (v : Vote) : gen_tree N :=
  GenNode 3 [leaf (vote_id v); leaf (vote_round v); leaf (vote_epoch v)].
Definition tree_qc (q : @QuorumCertificate toy_params) : gen_tree N :=
  GenNode 4 [tree_vote (qc_info q); tree_sigs (qc_signatures q)].
Definition tree_ne (n : NoEndorsement) : gen_tree N :=
  GenNode 5 [leaf (ne_epoch n); leaf (ne_round n); leaf (ne_tip_qc_round n)].
Definition tree_nec (n : @NoEndorsementCertificate toy_params) : gen_tree N :=
  GenNode 6 [tree_ne (nec_msg n); tree_sigs (nec_signatures n)].
Definition tree_header (h : @ConsensusBlockHeader toy_params) : gen_tree N :=
  GenNode 7 [leaf (bh_block_round h); leaf (bh_epoch h); tree_qc (bh_qc h); leaf (bh_author h);
    leaf (bh_seq_num h); leaf (bh_timestamp_ns h); tree_sig (bh_round_signature h);
    GenNode 8 (leaf <$> (bh_delayed_execution_results h : list N)); leaf (bh_execution_inputs h);
    leaf (bh_block_body_id h); leaf (bh_base_fee h); leaf (bh_base_fee_trend h); leaf (bh_base_fee_moment h)].
Definition tree_tip_rounds (t : @HighTipRoundSigColTuple toy_params) : gen_tree N :=
  GenNode 9 [leaf (tr_high_qc_round t); leaf (tr_high_tip_round t); tree_sigs (tr_sigs t)].
Definition tree_fresh (f : option (@FreshProposalCertificate toy_params)) : gen_tree N :=
  match f with
  | None => GenNode 10 []
  | Some (Nec n) => GenNode 11 [tree_nec n]
  | Some (NoTip n) => GenNode 12 [leaf (nt_epoch n); leaf (nt_round n);
      GenNode 13 (tree_tip_rounds <$> nt_tip_rounds n); tree_qc (nt_high_qc n)]
  end.
Definition tree_extend (he : @HighExtend toy_params) : gen_tree N :=
  match he with
  | HeQc qc => GenNode 14 [tree_qc qc]
  | HeTip tip => GenNode 15 [tree_header (tip_block_header tip); tree_sig (tip_signature tip);
                             tree_fresh (tip_fresh_certificate tip)]
  end.
Definition tree_tc (t : @TimeoutCertificate toy_params) : gen_tree N :=
  GenNode 16 [leaf (tc_epoch t); leaf (tc_round t); GenNode 17 (tree_tip_rounds <$> tc_tip_rounds t);
              tree_extend (tc_high_extend t)].

Definition toy_enc_item (x : nat * nat + N) : bytes :=
  match x with
  | inl (a, b) => Byte.x03 :: toy_enc (N.of_nat a) ++ toy_enc (N.of_nat b)
  | inr n => Byte.x04 :: toy_enc n
  end.
Definition toy_enc_tree (t : gen_tree N) : bytes := gen_tree_to_list t ≫= toy_enc_item.

Definition toy_hash (bs : bytes) : N := foldr (λ b acc, 4 * acc + Byte.to_N b + 1) 0 bs.

Definition toy_enc_header (h : @ConsensusBlockHeader toy_params) : bytes :=
  toy_enc_list ([bh_block_round h; bh_epoch h; vote_id (qc_info (bh_qc h));
    vote_round (qc_info (bh_qc h)); vote_epoch (qc_info (bh_qc h)); bh_author h : N;
    bh_seq_num h; bh_timestamp_ns h; bh_execution_inputs h : N; bh_block_body_id h; bh_base_fee h;
    bh_base_fee_trend h; bh_base_fee_moment h] ++ (bh_delayed_execution_results h : list N)).

Definition toy_codec : @Codec toy_params :=
  @Build_Codec toy_params (λ r, toy_enc_list [r])
    (λ v, toy_enc_list [vote_id v; vote_round v; vote_epoch v])
    (λ t, toy_enc_list [ti_epoch t; ti_round t; ti_high_qc_round t; ti_high_tip_round t])
    (λ n, toy_enc_list [ne_epoch n; ne_round n; ne_tip_qc_round n])
    toy_enc_header
    (λ b, toy_enc_list [execution_body b : N])
    (λ q, toy_enc_tree (tree_qc q)) (λ t, toy_enc_tree (tree_tc t)) (λ n, toy_enc_tree (tree_nec n))
    toy_hash.

(** The encoding of a number is self-delimiting, so sequences and trees of
    numbers are encoded injectively. *)
Lemma toy_pos_bits_inj p q x y :
  toy_pos_bits p ++ Byte.x02 :: x = toy_pos_bits q ++ Byte.x02 :: y → p = q ∧ x = y.
Proof.
  revert q. induction p as [p IH|p IH|]; intros [q|q|] H; simpl in H; simplify_eq; try done.
  - by destruct (IH q H) as [-> ->].
  - by destruct p.
  - by destruct (IH q H) as [-> ->].
  - by destruct q.
Qed.

Lemma toy_enc_inj n m x y : toy_enc n ++ x = toy_enc m ++ y → n = m ∧ x = y.
Proof.
  destruct n as [|p], m as [|q]; simpl; intros H; simplify_eq; try done.
  - by destruct q.
  - by destruct p.
  - rewrite <- !(assoc_L (++)) in H. simpl in H. by apply toy_pos_bits_inj in H as [-> ->].
Qed.

Lemma toy_enc_item_inj a b x y : toy_enc_item a ++ x = toy_enc_item b ++ y → a = b ∧ x = y.
Proof.
  destruct a as [[a1 a2]|a], b as [[b1 b2]|b]; simpl; intros H; simplify_eq.
  - rewrite <- !(assoc_L (++)) in H. apply toy_enc_inj in H as [H1 H]. apply toy_enc_inj in H as [H2 ->].
    apply Nat2N.inj in H1, H2. by subst.
  - by apply toy_enc_inj in H as [-> ->].
Qed.

#[global] Instance toy_enc_tree_inj : Inj (=) (=) toy_enc_tree.
Proof.
  intros t u H. unfold toy_enc_tree in H.
  assert (gen_tree_to_list t = gen_tree_to_list u) as Hl.
  { revert H. generalize (gen_tree_to_list t) (gen_tree_to_list u). intros l.
    induction l as [|a l IH]; intros [|b k] H; rewrite ?bind_cons in H; try done.
    - by destruct b as [[]|].
    - by destruct a as [[]|].
    - apply toy_enc_item_inj in H as [-> ->%IH]. done. }
  pose proof (gen_tree_of_to_list [] [] t) as Ht. pose proof (gen_tree_of_to_list [] [] u) as Hu.
  rewrite !app_nil_r in Ht, Hu. rewrite Hl, Hu in Ht. simpl in Ht. congruence.
Qed.

Lemma tree_list_inj {A} (f : A → gen_tree N) `{!Inj (=) (=) f} (l k : list A) :
  f <$> l = f <$> k → l = k.
Proof. apply (inj (fmap f)). Qed.

#[global] Instance leaf_inj : Inj (=) (=) leaf.
Proof. by intros a b [=]. Qed.

#[global] Instance leaf_byte_inj : Inj (=) (=) (leaf ∘ Byte.to_N).
Proof. intros a b [= H]. apply Some_inj. by rewrite <- !Byte.of_to_N, H. Qed.

Lemma node_inj n (l k : list (gen_tree N)) : GenNode n l = GenNode n k → l = k.
Proof. by intros [= ->]. Qed.
Lemma cons_parts {A} (x y : A) l k : x :: l = y :: k → x = y ∧ l = k.
Proof. by intros [= -> ->]. Qed.

(** Takes an equation of two nodes apart into those of their parts. *)
Ltac node_parts H :=
  apply node_inj in H;
  repeat match type of H with
  | _ :: _ = _ :: _ => let H' := fresh in apply cons_parts in H as [H' H]
  end;
  repeat match goal with
  | E : GenNode _ _ = GenNode _ _ |- _ => apply node_inj in E
  | E : _ <$> _ = _ <$> _ |- _ => apply tree_list_inj in E; [|apply _]
  | E : ?f _ = ?f _ |- _ => apply (inj f) in E
  end.

#[global] Instance tree_bytes_inj : Inj (=) (=) tree_bytes.
Proof. intros l k H. unfold tree_bytes in H. apply node_inj in H. by apply (tree_list_inj (leaf ∘ Byte.to_N)). Qed.
#[global] Instance tree_sig_inj : Inj (=) (=) tree_sig.
Proof.
  intros [k [d m]] [k' [d' m']] H. unfold tree_sig in H. simpl fst in H. simpl snd in H.
  node_parts H. by subst.
Qed.
#[global] Instance tree_sigs_inj : Inj (=) (=) tree_sigs.
Proof. intros l k H. unfold tree_sigs in H. node_parts H. by subst. Qed.
(** Reduces the projections of explicit records. *)
Ltac record_fields H :=
  cbn [vote_id vote_round vote_epoch qc_info qc_signatures ne_epoch ne_round ne_tip_qc_round nec_msg
    nec_signatures bh_block_round bh_epoch bh_qc bh_author bh_seq_num bh_timestamp_ns bh_round_signature
    bh_delayed_execution_results bh_execution_inputs bh_block_body_id bh_base_fee bh_base_fee_trend
    bh_base_fee_moment tr_high_qc_round tr_high_tip_round tr_sigs nt_epoch nt_round nt_tip_rounds nt_high_qc
    tip_block_header tip_signature tip_fresh_certificate tc_epoch tc_round tc_tip_rounds tc_high_extend] in H.

#[global] Instance tree_vote_inj : Inj (=) (=) tree_vote.
Proof. intros [] [] H. unfold tree_vote in H. record_fields H. node_parts H. by subst. Qed.
#[global] Instance tree_qc_inj : Inj (=) (=) tree_qc.
Proof. intros [] [] H. unfold tree_qc in H. record_fields H. node_parts H. by subst. Qed.
#[global] Instance tree_ne_inj : Inj (=) (=) tree_ne.
Proof. intros [] [] H. unfold tree_ne in H. record_fields H. node_parts H. by subst. Qed.
#[global] Instance tree_nec_inj : Inj (=) (=) tree_nec.
Proof. intros [] [] H. unfold tree_nec in H. record_fields H. node_parts H. by subst. Qed.
#[global] Instance tree_header_inj : Inj (=) (=) tree_header.
Proof. intros [] [] H. unfold tree_header in H. record_fields H. node_parts H. by subst. Qed.
#[global] Instance tree_tip_rounds_inj : Inj (=) (=) tree_tip_rounds.
Proof. intros [] [] H. unfold tree_tip_rounds in H. record_fields H. node_parts H. by subst. Qed.
#[global] Instance tree_fresh_inj : Inj (=) (=) tree_fresh.
Proof.
  intros [[n|[]]|] [[n'|[]]|] H; unfold tree_fresh in H; record_fields H;
    try discriminate H; try reflexivity; node_parts H; by subst.
Qed.
#[global] Instance tree_extend_inj : Inj (=) (=) tree_extend.
Proof.
  intros [[]|] [[]|] H; unfold tree_extend in H; record_fields H;
    try discriminate H; node_parts H; by subst.
Qed.
#[global] Instance tree_tc_inj : Inj (=) (=) tree_tc.
Proof. intros [] [] H. unfold tree_tc in H. record_fields H. node_parts H. by subst. Qed.

Lemma toy_rlp_inj :
  Inj (=) (=) (@rlp_qc _ toy_codec) ∧ Inj (=) (=) (@rlp_tc _ toy_codec) ∧ Inj (=) (=) (@rlp_nec _ toy_codec).
Proof.
  split; [|split]; intros x y H.
  - by apply (inj toy_enc_tree (tree_qc x) (tree_qc y)), (inj tree_qc) in H.
  - by apply (inj toy_enc_tree (tree_tc x) (tree_tc y)), (inj tree_tc) in H.
  - by apply (inj toy_enc_tree (tree_nec x) (tree_nec y)), (inj tree_nec) in H.
Qed.

Module ToyInstances.
#[export] Existing Instance toy_params.
#[export] Existing Instance toy_cert_signature.
#[export] Existing Instance toy_cert_recover.
#[export] Existing Instance toy_author_signing.
#[export] Existing Instance toy_signature_collection.
#[export] Existing Instance toy_codec.
#[export] Instance toy_hash_order `{Countable K} {V} : HashOrder K V := map_to_list_order.
End ToyInstances.

Section certificate_witnesses.
Import ToyInstances.

(** Three nodes time out in round 5 after certificates of rounds 3 and 4. *)
Definition toy_keys : gmap (@NodeId toy_params) (@CertPubKey toy_params) :=
  list_to_map (M := gmap N N) [(1, 1); (2, 2); (3, 3)].
Definition toy_qc (id round : N) : QuorumCertificate :=
  mkQC (mkVote id round 1)
    (((λ k : N, toy_sign k SdVote (rlp_vote (mkVote id round 1))) <$> [1; 2; 3]) : @SigCol toy_params).
Definition toy_timeout (key qc_round : N) : Timeout :=
  timeout_new (key : @CertKeyPair toy_params) (mkTimeoutInfo 1 5 qc_round 0) (HeQc (toy_qc 77 qc_round)) false None.
Definition toy_timeouts : list (@NodeId toy_params * Timeout) :=
  [(1 : @NodeId toy_params, toy_timeout 1 3); (2 : @NodeId toy_params, toy_timeout 2 4);
   (3 : @NodeId toy_params, toy_timeout 3 4)].

Lemma tc_new_highest_extension_witness : ∃ tc, tc_new 1 5 toy_timeouts toy_keys = Ret (Ok tc) ∧
  length (tc_tip_rounds tc) = 2%nat ∧ tc_high_extend tc = HeQc (toy_qc 77 4) ∧
  rank_le (RankQc 3) (high_extend_rank (tc_high_extend tc)).
Proof.
  assert (∃ tc, tc_new 1 5 toy_timeouts toy_keys = Ret (Ok tc) ∧
    length (tc_tip_rounds tc) = 2%nat ∧ tc_high_extend tc = HeQc (toy_qc 77 4)) as (tc & H & H1 & H2).
  { eexists. split; [reflexivity|]. split; reflexivity. }
  exists tc. split; [exact H|]. split; [exact H1|]. split; [exact H2|].
  destruct (tc_new_highest_extension 1 5 toy_timeouts toy_keys tc H) as (_ & _ & Hall & _).
  apply (Hall (1 : @NodeId toy_params) (toy_timeout 1 3)). left.
Defined.
End certificate_witnesses.
