(* ===== verification/ValidatorSet.v ===== *)
(** * Validator sets and vote thresholds (monad-validator/src/validator_set.rs)

    A validator set is a map from nodes to positive stakes with the cached
    total. Vote thresholds are stakes: two thirds plus one for a quorum, one
    third plus one for "at least one honest vote". The theorems relate the two
    thresholds: two quorums share enough stake to contain an honest vote. *)
From S2P Require Import Prelude Types Interfaces.

Section validator_set.
Context `{P : Params}.

Inductive ValidatorSetCreationError :=
| EmptyValidatorSet
| ZeroStakeValidator (n : NodeId)
| DuplicateValidator (n : NodeId).

Inductive ValidatorSetError :=
| VoteDuplicateValidator (n : NodeId).

Record ValidatorSet := mkValidatorSet {
  validators : gmap NodeId Stake;
  total_stake : Stake;
}.

(** The loop of [ValidatorSetFactory::create] over the remaining entries. *)
Fixpoint create_loop (l : list (NodeId * Stake)) (vmap : gmap NodeId Stake) (total : Stake)
    : outcome (result ValidatorSetCreationError (gmap NodeId Stake * Stake)) :=
  match l with
  | [] => Ret (Ok (vmap, total))
  | (node_id, stake) :: l =>
      if bool_decide (stake = Stake_ZERO) then Ret (Err (ZeroStakeValidator node_id)) else
      match vmap !! node_id with
      | Some _ => Ret (Err (DuplicateValidator node_id))
      | None =>
          total' ← stake_add total stake;
          create_loop l (<[node_id := stake]> vmap) total'
      end
  end.

Definition create (l : list (NodeId * Stake))
    : outcome (result ValidatorSetCreationError ValidatorSet) :=
  r ← create_loop l ∅ Stake_ZERO;
  match r with
  | Err e => Ret (Err e)
  | Ok (vmap, total) =>
      if bool_decide (vmap = ∅) then Ret (Err EmptyValidatorSet)
      else Ret (Ok (mkValidatorSet vmap total))
  end.

(** [ValidatorSet::new_unchecked]. *)
Definition new_unchecked (vs : gmap NodeId Stake) : outcome ValidatorSet :=
  total ← stake_sum (btree_iter vs).*2;
  Ret (mkValidatorSet vs total).

Definition vs_len (vs : ValidatorSet) : nat := size (validators vs).
Definition vs_is_empty (vs : ValidatorSet) : bool := bool_decide (validators vs = ∅).
Definition is_member (vs : ValidatorSet) (addr : NodeId) : bool :=
  bool_decide (is_Some (validators vs !! addr)).

(** [Itertools::duplicates().next()]: the first element met a second time. *)
Fixpoint first_duplicate (seen : gset NodeId) (l : list NodeId) : option NodeId :=
  match l with
  | [] => None
  | x :: l => if decide (x ∈ seen) then Some x else first_duplicate ({[x]} ∪ seen) l
  end.

Definition calculate_current_stake (vs : ValidatorSet) (addrs : list NodeId)
    : outcome (result ValidatorSetError Stake) :=
  match first_duplicate ∅ addrs with
  | Some node => Ret (Err (VoteDuplicateValidator node))
  | None => s ← stake_sum (omap (λ a, validators vs !! a) addrs); Ret (Ok s)
  end.

Definition has_threshold_votes (vs : ValidatorSet) (addrs : list NodeId) (threshold : Stake)
    : outcome (result ValidatorSetError bool) :=
  r ← calculate_current_stake vs addrs;
  match r with
  | Err e => Ret (Err e)
  | Ok voter_stake => Ret (Ok (bool_decide (threshold ≤ voter_stake)))
  end.

(** [U256] operators wrap. *)
Definition super_majority_threshold (vs : ValidatorSet) : Stake :=
  wrapping_add256 (wrapping_mul256 (total_stake vs) 2 / 3) 1.
Definition honest_threshold (vs : ValidatorSet) : Stake :=
  wrapping_add256 (total_stake vs / 3) 1.

Definition has_super_majority_votes (vs : ValidatorSet) (addrs : list NodeId) :=
  has_threshold_votes vs addrs (super_majority_threshold vs).
Definition has_honest_vote (vs : ValidatorSet) (addrs : list NodeId) :=
  has_threshold_votes vs addrs (honest_threshold vs).

(** ** Well-formed sets *)

(** What [create] establishes (the invariances [ValidatorSetCreationError]
    lists), plus the meaning of the cached total. *)
Record vs_wf (vs : ValidatorSet) : Prop := {
  vs_wf_total : total_stake vs = sumN (map_to_list (validators vs)).*2;
  vs_wf_max : total_stake vs ≤ U256_MAX;
  vs_wf_pos : map_Forall (λ _ s, 0 < s) (validators vs);
  vs_wf_nonempty : validators vs ≠ ∅;
}.

(** The stake of a node, zero for a node outside the set. *)
Definition weight (vs : ValidatorSet) (n : NodeId) : Stake := default 0 (validators vs !! n).

Definition stake_of (vs : ValidatorSet) (addrs : list NodeId) : Stake := sumN (weight vs <$> addrs).

(** ** Lemmas *)

Lemma first_duplicate_None seen l :
  first_duplicate seen l = None ↔ NoDup l ∧ Forall (λ x, x ∉ seen) l.
Proof.
  revert seen. induction l as [|x l IH]; intros seen; simpl; [naive_solver constructor|].
  rewrite NoDup_cons, Forall_cons. case_decide as Hx; [naive_solver|].
  rewrite IH, !Forall_forall. set_solver.
Qed.

Lemma stake_omap vs addrs : sumN (omap (λ a, validators vs !! a) addrs) = stake_of vs addrs.
Proof.
  unfold stake_of. induction addrs as [|a l IH]; [done|].
  rewrite fmap_cons, sumN_cons, <- IH. cbn. unfold weight.
  by destruct (validators vs !! a).
Qed.

(** The weight of a duplicate-free list, counted over the members. *)
Lemma sum_weight_members (w : NodeId → N) (U A : list NodeId) :
  NoDup U → NoDup A → (∀ x, x ∉ U → w x = 0) →
  sumN (w <$> A) = sumN ((λ u, if decide (u ∈ A) then w u else 0) <$> U).
Proof.
  intros HU HA Hw.
  assert (∀ (Q : NodeId → Prop) (HQ : ∀ x, Decision (Q x)) l, (∀ x, ¬ Q x → w x = 0) →
    sumN (w <$> l) = sumN (w <$> filter Q l)) as Hfilter.
  { intros Q HQ l HQw. induction l as [|y l IH]; [done|]. rewrite filter_cons.
    case_decide; [sumlia|]. rewrite fmap_cons, sumN_cons, HQw by done. lia. }
  rewrite (Hfilter (.∈ U) _ A Hw).
  assert (filter (.∈ U) A ≡ₚ filter (.∈ A) U) as ->.
  { apply NoDup_Permutation; [by apply NoDup_filter..|].
    intros x. rewrite !list_elem_of_filter. naive_solver. }
  clear. induction U as [|u U IH]; [done|]. rewrite filter_cons, !fmap_cons, sumN_cons.
  case_decide; sumlia.
Qed.

Lemma total_weight vs : vs_wf vs →
  total_stake vs = sumN (weight vs <$> (map_to_list (validators vs)).*1).
Proof.
  intros Hwf. rewrite vs_wf_total by done. f_equal. rewrite <- list_fmap_compose.
  apply list_fmap_ext. intros i [n s] Hi. simpl. unfold weight.
  apply list_elem_of_lookup_2, elem_of_map_to_list in Hi. by rewrite Hi.
Qed.

Lemma weight_nonmember vs x : x ∉ (map_to_list (validators vs)).*1 → weight vs x = 0.
Proof.
  intros Hx. unfold weight. destruct (validators vs !! x) as [s|] eqn:E; [|done].
  destruct Hx. apply list_elem_of_fmap. exists (x, s). by rewrite elem_of_map_to_list.
Qed.

Lemma stake_of_members vs A : NoDup A →
  stake_of vs A = sumN ((λ u, if decide (u ∈ A) then weight vs u else 0)
                          <$> (map_to_list (validators vs)).*1).
Proof.
  intros HA. unfold stake_of. apply sum_weight_members;
    [apply NoDup_fst_map_to_list|done|apply weight_nonmember].
Qed.

(** Stake of a duplicate-free list is at most the total. *)
Lemma stake_of_le_total vs A : vs_wf vs → NoDup A → stake_of vs A ≤ total_stake vs.
Proof.
  intros Hwf HA. rewrite total_weight, stake_of_members by done.
  induction ((map_to_list (validators vs)).*1) as [|u U IH]; [done|].
  rewrite !fmap_cons, !sumN_cons. case_decide; lia.
Qed.

(** Inclusion-exclusion on the stake of two lists. *)
Lemma stake_of_inter vs A B : vs_wf vs → NoDup A → NoDup B →
  stake_of vs A + stake_of vs B ≤ total_stake vs + stake_of vs (list_intersection A B).
Proof.
  intros Hwf HA HB. assert (NoDup (list_intersection A B)) by by apply NoDup_list_intersection.
  rewrite total_weight, !stake_of_members by done.
  induction ((map_to_list (validators vs)).*1) as [|u U IH]; [done|].
  rewrite !fmap_cons, !sumN_cons.
  repeat case_decide; rewrite ?list_elem_of_intersection in *; lia || naive_solver.
Qed.

Lemma stake_of_mono vs A B : NoDup A → NoDup B → A ⊆ B → stake_of vs A ≤ stake_of vs B.
Proof.
  intros HA HB Hsub. rewrite !stake_of_members by done.
  induction ((map_to_list (validators vs)).*1) as [|u U IH]; [done|].
  rewrite !fmap_cons, !sumN_cons. repeat case_decide; try lia. set_solver.
Qed.

(** On a well-formed set the stake computation never panics. *)
Lemma calculate_current_stake_ok vs addrs : vs_wf vs → NoDup addrs →
  calculate_current_stake vs addrs = Ret (Ok (stake_of vs addrs)).
Proof.
  intros Hwf Hnd. unfold calculate_current_stake.
  rewrite (proj2 (first_duplicate_None ∅ addrs)).
  2:{ split; [done|]. apply Forall_forall. set_solver. }
  rewrite stake_sum_spec, stake_omap.
  rewrite decide_True; [done|]. etrans; [by apply stake_of_le_total|by apply vs_wf_max].
Qed.

Lemma has_threshold_votes_ok vs addrs t : vs_wf vs → NoDup addrs →
  has_threshold_votes vs addrs t = Ret (Ok (bool_decide (t ≤ stake_of vs addrs))).
Proof. intros. unfold has_threshold_votes. by rewrite calculate_current_stake_ok. Qed.

Lemma has_threshold_votes_true_inv vs addrs t :
  has_threshold_votes vs addrs t = Ret (Ok true) → NoDup addrs ∧ t ≤ stake_of vs addrs.
Proof.
  unfold has_threshold_votes, calculate_current_stake. intros H. monad_inv H.
  destruct (first_duplicate ∅ addrs) eqn:Hd.
  { by injection Hv as <-. }
  apply first_duplicate_None in Hd as [Hnd _]. apply bind_ret_inv in Hv as (s & Hs & [= <-]).
  apply stake_sum_ret in Hs as [-> _]. rewrite stake_omap in H.
  injection H as H. by apply bool_decide_eq_true in H.
Qed.
Lemma super_majority_perm vs A B : vs_wf vs → NoDup B → (∀ n, n ∈ A ↔ n ∈ B) →
  has_super_majority_votes vs A = Ret (Ok true) → has_super_majority_votes vs B = Ret (Ok true).
Proof.
  intros Hwf HB Hin HA. apply has_threshold_votes_true_inv in HA as [HA Hle].
  unfold has_super_majority_votes. rewrite has_threshold_votes_ok by done.
  rewrite bool_decide_eq_true_2; [done|]. etrans; [exact Hle|].
  apply stake_of_mono; [done..|]. intros n. by apply Hin.
Qed.

(** [create] succeeds exactly on the lists the factory documents, and returns
    the map of the list with the exact total. *)
Lemma create_loop_ok l m t m' t' : t ≤ U256_MAX →
  create_loop l m t = Ret (Ok (m', t')) ↔
    NoDup l.*1 ∧ Forall (λ p, p.2 ≠ 0 ∧ m !! p.1 = None) l ∧ t + sumN l.*2 ≤ U256_MAX ∧
    m' = list_to_map l ∪ m ∧ t' = t + sumN l.*2.
Proof.
  revert m t. induction l as [|[k s] l IH]; intros m t Ht.
  { simpl. rewrite map_empty_union. unfold sumN; simpl. rewrite N.add_0_r.
    split; [intros [= <- <-]; auto using NoDup_nil_2|naive_solver]. }
  rewrite !fmap_cons, NoDup_cons, Forall_cons, sumN_cons. cbn [create_loop fst snd].
  case_bool_decide as Hs; [naive_solver|]. destruct (m !! k) eqn:Hk; [naive_solver|].
  unfold stake_add, checked_add. case_decide as Hc; cbn; [|split; [done|lia]].
  rewrite IH by done. rewrite list_elem_of_fmap.
  assert (Forall (λ p : NodeId * Stake, p.2 ≠ 0 ∧ <[k:=s]> m !! p.1 = None) l ↔
          Forall (λ p : NodeId * Stake, p.2 ≠ 0 ∧ m !! p.1 = None) l ∧ ¬ (∃ y, k = y.1 ∧ y ∈ l)) as ->.
  { rewrite !Forall_forall. setoid_rewrite lookup_insert_None. naive_solver. }
  assert (¬ (∃ y, k = y.1 ∧ y ∈ l) →
    list_to_map l ∪ <[k:=s]> m = <[k:=s]> (list_to_map l ∪ m)) as Hu.
  { intros Hni. symmetry. apply insert_union_r, not_elem_of_list_to_map_1.
    rewrite list_elem_of_fmap. naive_solver. }
  rewrite <- insert_union_l. replace (t + s + sumN l.*2) with (t + (s + sumN l.*2)) by lia.
  naive_solver congruence.
Qed.

Lemma thresholds_exact vs : total_stake vs * 2 ≤ U256_MAX →
  super_majority_threshold vs = total_stake vs * 2 / 3 + 1 ∧
  honest_threshold vs = total_stake vs / 3 + 1.
Proof.
  intros Hw. unfold super_majority_threshold, honest_threshold, wrapping_add256, wrapping_mul256.
  assert (U256_MAX = U256_MOD - 1 ∧ 2 < U256_MOD) as [??] by (split; vm_compute; done).
  rewrite (N.mod_small (total_stake vs * 2)) by lia.
  split; apply N.mod_small; divlia.
Qed.

(** The threshold is positive, even when doubling the total wraps. *)
Lemma super_majority_nonempty vs A : has_super_majority_votes vs A = Ret (Ok true) → A ≠ [].
Proof.
  intros [_ Hle]%has_threshold_votes_true_inv ->. revert Hle.
  unfold super_majority_threshold, wrapping_add256, wrapping_mul256.
  assert (2 < U256_MOD) by (vm_compute; done).
  pose proof (N.mod_lt (total_stake vs * 2) U256_MOD ltac:(lia)).
  set (x := (total_stake vs * 2) `mod` U256_MOD) in *.
  rewrite N.mod_small by divlia. change (stake_of vs []) with 0. intros ?. divlia.
Qed.

Lemma two_thirds_overlap T a b c :
  T * 2 / 3 + 1 ≤ a → T * 2 / 3 + 1 ≤ b → a + b ≤ T + c → T / 3 + 1 ≤ c.
Proof. divlia. Qed.

Lemma super_majority_inter vs A B : vs_wf vs → total_stake vs * 2 ≤ U256_MAX →
  has_super_majority_votes vs A = Ret (Ok true) →
  has_super_majority_votes vs B = Ret (Ok true) →
  has_honest_vote vs (list_intersection A B) = Ret (Ok true).
Proof.
  intros Hwf Hw HA HB. apply has_threshold_votes_true_inv in HA as [HA1 HA2], HB as [HB1 HB2].
  destruct (thresholds_exact vs Hw) as [Hs Hh]. unfold has_honest_vote.
  rewrite has_threshold_votes_ok by (done || by apply NoDup_list_intersection).
  rewrite bool_decide_eq_true_2; [done|]. rewrite Hh, Hs in *.
  eapply two_thirds_overlap; [exact HA2|exact HB2|by apply stake_of_inter].
Qed.

(** A list that reaches the threshold has a voter outside one that does not. *)
Lemma honest_vote_outside vs A F :
  has_honest_vote vs A = Ret (Ok true) → has_honest_vote vs F = Ret (Ok false) →
  ∃ n, n ∈ A ∧ n ∉ F ∧ is_member vs n = true.
Proof.
  intros HA HF. apply has_threshold_votes_true_inv in HA as [HA1 HA2].
  unfold has_honest_vote, has_threshold_votes, calculate_current_stake in HF.
  destruct (first_duplicate ∅ F) eqn:Hd; [done|]. apply first_duplicate_None in Hd as [HF1 _].
  monad_inv HF. apply stake_sum_ret in Hv0 as [-> _]. injection Hv as <-.
  injection HF as HF2. rewrite stake_omap, bool_decide_eq_false in HF2.
  set (A' := filter (λ n, is_member vs n = true) A).
  assert (stake_of vs A ≤ stake_of vs A') as HA'.
  { unfold stake_of, A'. clear. induction A as [|a A IH]; [done|]. rewrite filter_cons.
    rewrite fmap_cons, sumN_cons. case_decide as Hm; [rewrite fmap_cons, sumN_cons; lia|].
    unfold is_member in Hm. rewrite bool_decide_eq_true in Hm. unfold weight at 1.
    destruct (validators vs !! a); simpl; [naive_solver|lia]. }
  destruct (decide (Exists (λ n, n ∉ F) A')) as [He|He].
  - apply Exists_exists in He as (n & Hn & Hnf). apply list_elem_of_filter in Hn. naive_solver.
  - assert (A' ⊆ F) as Hsub.
    { intros n Hn. destruct (decide (n ∈ F)); [done|]. destruct He. apply Exists_exists. eauto. }
    assert (NoDup A') by by apply NoDup_filter.
    pose proof (stake_of_mono vs A' F ltac:(done) HF1 Hsub). lia.
Qed.

(** ** Properties *)

(** A validator list is accepted exactly when it is non-empty, names each node
    once, gives every node a positive stake and its stakes fit in 256 bits;
    the set then holds exactly the list and the exact total. *)
Theorem create_accepts_iff l vs :
  create l = Ret (Ok vs) ↔
    l ≠ [] ∧ NoDup l.*1 ∧ Forall (λ p, 0 < p.2) l ∧ sumN l.*2 ≤ U256_MAX ∧
    vs = mkValidatorSet (list_to_map l) (sumN l.*2).
Proof.
  assert (∀ m t, create_loop l ∅ Stake_ZERO = Ret (Ok (m, t)) ↔
    NoDup l.*1 ∧ Forall (λ p, 0 < p.2) l ∧ sumN l.*2 ≤ U256_MAX ∧
    m = list_to_map l ∧ t = sumN l.*2) as Hloop.
  { intros m t. rewrite create_loop_ok by (vm_compute; done).
    rewrite map_union_empty. change Stake_ZERO with 0. rewrite N.add_0_l, !Forall_forall.
    assert (∀ p : NodeId * Stake, p.2 ≠ 0 ∧ (∅ : gmap NodeId Stake) !! p.1 = None ↔ 0 < p.2) as Hp.
    { intros p. rewrite lookup_empty. split; [intros []|]; [lia|split; [lia|done]]. }
    by setoid_rewrite Hp. }
  assert (list_to_map l =@{gmap NodeId Stake} ∅ ↔ l = []) as Hemp.
  { split; [|by intros ->]. destruct l as [|[k s] l']; [done|]. simpl.
    intros Hk. by apply insert_non_empty in Hk. }
  unfold create. destruct (create_loop l ∅ Stake_ZERO) as [[[m t]|e]| |] eqn:E; cbn.
  - destruct (proj1 (Hloop m t) eq_refl) as (? & ? & ? & -> & ->). case_bool_decide; naive_solver.
  - split; [done|]. intros (_ & ? & ? & ? & _).
    assert (Ret (Err e) = Ret (Ok (list_to_map l, sumN l.*2))) by (apply Hloop; naive_solver). done.
  - split; [done|]. intros (_ & ? & ? & ? & _).
    assert (Panic = Ret (Ok (list_to_map (M:=gmap NodeId Stake) l, sumN l.*2)))
      by (apply Hloop; naive_solver). done.
  - split; [done|]. intros (_ & ? & ? & ? & _).
    assert (OutOfFuel = Ret (Ok (list_to_map (M:=gmap NodeId Stake) l, sumN l.*2)))
      by (apply Hloop; naive_solver). done.
Qed.

(** Every set [create] returns is well formed: positive stakes, a non-empty
    membership and a total that is the exact sum of the stakes. *)
Lemma create_wf l vs : create l = Ret (Ok vs) → vs_wf vs.
Proof.
  unfold create. intros H. apply bind_ret_inv in H as ([[m t]|e] & Hl & H); [|done].
  apply create_loop_ok in Hl as (Hnd & Hf & Hmax & -> & ->); [|vm_compute; done].
  rewrite map_union_empty, N.add_0_l in *. case_bool_decide as He; [done|].
  injection H as <-. split; simpl; [|done| |done].
  - by rewrite map_to_list_to_map.
  - intros k s Hk. apply elem_of_list_to_map_2 in Hk.
    rewrite Forall_forall in Hf. apply Hf in Hk as [??]. simpl in *. lia.
Qed.

Lemma quorum_overlap_outside vs A B F : vs_wf vs → total_stake vs * 2 ≤ U256_MAX →
  has_super_majority_votes vs A = Ret (Ok true) →
  has_super_majority_votes vs B = Ret (Ok true) →
  has_honest_vote vs F = Ret (Ok false) →
  ∃ n, n ∈ A ∧ n ∈ B ∧ n ∉ F ∧ is_member vs n = true.
Proof.
  intros Hwf Hw HA HB HF. pose proof (super_majority_inter vs A B Hwf Hw HA HB) as HI.
  destruct (honest_vote_outside vs _ F HI HF) as (n & Hn & ? & ?).
  apply list_elem_of_intersection in Hn as [??]. eauto 6.
Qed.

(** The stake of the members outside [F] is the rest of the total. *)
Lemma stake_of_complement vs F : vs_wf vs → NoDup F →
  total_stake vs = stake_of vs F + stake_of vs (filter (λ n, n ∉ F) (btree_keys (validators vs))).
Proof.
  intros Hwf HF. rewrite total_weight, stake_of_members by done. unfold stake_of, btree_keys.
  rewrite btree_iter_perm. induction ((map_to_list (validators vs)).*1) as [|u U IH]; [done|].
  rewrite filter_cons, !fmap_cons, !sumN_cons.
  repeat case_decide; try done; rewrite ?fmap_cons, ?sumN_cons; lia.
Qed.

(** Quorum intersection: as long as doubling the total stake does not leave
    256 bits, two sets of voters that both pass [has_super_majority_votes]
    have a common part that passes [has_honest_vote]; so if the stake of a
    faulty list does not reach [has_honest_vote], some member outside it is
    in both quorums. *)
Theorem quorums_share_honest_vote vs A B : vs_wf vs → total_stake vs * 2 ≤ U256_MAX →
  has_super_majority_votes vs A = Ret (Ok true) →
  has_super_majority_votes vs B = Ret (Ok true) →
  has_honest_vote vs (list_intersection A B) = Ret (Ok true) ∧
  ∀ F, has_honest_vote vs F = Ret (Ok false) →
    ∃ n, n ∈ A ∧ n ∈ B ∧ n ∉ F ∧ is_member vs n = true.
Proof.
  intros Hwf Hw HA HB. split; [by apply super_majority_inter|].
  intros F HF. by apply (quorum_overlap_outside vs A B F).
Qed.

(** Quorum availability: if the faulty nodes hold less than a third of the
    stake, the remaining members pass [has_super_majority_votes], so no step
    that waits for a quorum waits for a faulty node. *)
Theorem honest_members_form_quorum vs F : vs_wf vs → total_stake vs * 2 ≤ U256_MAX → NoDup F →
  3 * stake_of vs F < total_stake vs →
  has_super_majority_votes vs (filter (λ n, n ∉ F) (btree_keys (validators vs))) = Ret (Ok true).
Proof.
  intros Hwf Hw HF Hless. unfold has_super_majority_votes.
  rewrite has_threshold_votes_ok by (done || apply NoDup_filter, btree_keys_nodup).
  rewrite bool_decide_eq_true_2; [done|]. destruct (thresholds_exact vs Hw) as [-> _].
  pose proof (stake_of_complement vs F Hwf HF). divlia.
Qed.

(** C39. The doubling in [has_super_majority_votes] wraps at 256 bits: for a total
    stake of exactly 2{^255}, which [create] accepts, each of two validators
    alone passes as a quorum. *)
Theorem doubling_wrap_breaks_quorums (a b : NodeId) : a ≠ b →
  ∃ vs, create [(a, 2 ^ 254); (b, 2 ^ 254)] = Ret (Ok vs) ∧
    has_super_majority_votes vs [a] = Ret (Ok true) ∧
    has_super_majority_votes vs [b] = Ret (Ok true).
Proof.
  intros Hab. set (l := [(a, 2 ^ 254); (b, 2 ^ 254)]).
  assert (create l = Ret (Ok (mkValidatorSet (list_to_map l) (2 ^ 255)))) as Hc.
  { unfold create.
    rewrite (proj2 (create_loop_ok l ∅ Stake_ZERO (list_to_map l) (2 ^ 255) ltac:(vm_compute; done))).
    - cbn -[N.pow]. by rewrite bool_decide_eq_false_2 by apply insert_non_empty.
    - rewrite map_union_empty. change l.*1 with [a; b].
      change l.*2 with [2 ^ 254; 2 ^ 254]. split_and!; try (vm_compute; done).
      + apply NoDup_cons. split; [set_solver|apply NoDup_singleton].
      + repeat constructor; vm_compute; done. }
  pose proof (create_wf _ _ Hc) as Hwf. eexists. split; [exact Hc|].
  unfold has_super_majority_votes.
  rewrite !has_threshold_votes_ok by (done || apply NoDup_singleton).
  assert (∀ x, x ∈ [a; b] → stake_of (mkValidatorSet (list_to_map l) (2 ^ 255)) [x] = 2 ^ 254) as Hst.
  { intros x Hx. unfold stake_of, weight. change (validators _) with (list_to_map l : gmap NodeId Stake).
    assert ((list_to_map l : gmap NodeId Stake) !! x = Some (2 ^ 254)) as Hl.
    { unfold l. simpl list_to_map. destruct (decide (x = a)) as [->|].
      - by rewrite lookup_insert_eq.
      - rewrite lookup_insert_ne by done. assert (x = b) as -> by set_solver.
        by rewrite lookup_insert_eq. }
    change (sumN [default 0 ((list_to_map l : gmap NodeId Stake) !! x)] = 2 ^ 254).
    rewrite Hl. vm_compute. done. }
  rewrite !Hst by set_solver.
  unfold super_majority_threshold. change (total_stake _) with (2 ^ 255).
  split; vm_compute; done.
Qed.
End validator_set.

(** ** The theorems at concrete sets *)

Definition toy_vs : @ValidatorSet toy_params :=
  @mkValidatorSet toy_params (list_to_map [(1, 10); (2, 20); (3, 30); (4, 40)]) 100.

(** Each of its nodes signs with the key of its own number. *)
Definition toy_mapping : gmap (@NodeId toy_params) (@CertPubKey toy_params) :=
  list_to_map (M := gmap N N) [(1, 1); (2, 2); (3, 3); (4, 4)].

Lemma toy_mapping_inj (n n' : @NodeId toy_params) (pk : @CertPubKey toy_params) :
  toy_mapping !! n = Some pk → toy_mapping !! n' = Some pk → n = n'.
Proof.
  assert (map_Forall (λ n pk : N, pk = n) toy_mapping) as H.
  { apply (bool_decide_unpack _). by vm_compute. }
  intros H1%H H2%H. simpl in *. congruence.
Qed.

Lemma toy_vs_wf : vs_wf toy_vs.
Proof.
  split; [by vm_compute|by vm_compute| |].
  - apply (bool_decide_unpack _). by vm_compute.
  - apply insert_non_empty.
Qed.

Lemma quorums_share_honest_vote_witness :
  ∃ n : @NodeId toy_params, n ∈ [2; 3; 4] ∧ n ∈ [4; 3] ∧ n ∉ [1; 2] ∧ is_member toy_vs n = true.
Proof.
  apply (quorums_share_honest_vote (P:=toy_params) toy_vs [2; 3; 4] [4; 3]).
  - exact toy_vs_wf.
  - vm_compute; discriminate.
  - reflexivity.
  - reflexivity.
  - reflexivity.
Defined.

Lemma honest_members_form_quorum_witness :
  has_super_majority_votes (P:=toy_params) toy_vs
    (filter (λ n, n ∉ [3]) (btree_keys (validators toy_vs))) = Ret (Ok true).
Proof.
  apply (honest_members_form_quorum (P:=toy_params) toy_vs [3]).
  - exact toy_vs_wf.
  - vm_compute; discriminate.
  - apply NoDup_singleton.
  - reflexivity.
Defined.

Lemma doubling_wrap_breaks_quorums_witness :
  ∃ vs, @create toy_params [(1, 2 ^ 254); (2, 2 ^ 254)] = Ret (Ok vs) ∧
    has_super_majority_votes vs [1] = Ret (Ok true) ∧
    has_super_majority_votes vs [2] = Ret (Ok true).
Proof. apply (doubling_wrap_breaks_quorums (P:=toy_params) 1 2). discriminate. Defined.
