(* ===== verification/SafetyModule.v ===== *)
(** * The safety module (monad-consensus/src/validation/safety.rs)

    The stateful checks that keep a node from voting, endorsing or proposing
    twice. The operations are modelled one by one; [safety_op] and
    [safety_run] execute a sequence of them and collect the votes,
    no-endorsements and proposals they license, so that the theorems speak of
    everything a node ever signs. *)
From S2P Require Import Prelude Types Interfaces MultiSig Certificates Concrete.

Definition HANDLED_PROPOSAL_CACHE_SIZE : nat := 100.

Record HighNoEndorse := mkHighNoEndorse { hne_round : Round; hne_tip : BlockId }.

(** [BTreeSet::pop_first]. *)
Definition set_sorted (s : gset Round) : list Round := merge_sort N.le (elements s).
Definition pop_first (s : gset Round) : gset Round :=
  match set_sorted s with [] => s | x :: _ => s ∖ {[x]} end.

(** [while handled_proposals.len() > HANDLED_PROPOSAL_CACHE_SIZE]. *)
Fixpoint shrink_handled (fuel : nat) (s : gset Round) : gset Round :=
  match fuel with
  | O => s
  | S fuel =>
      if decide (HANDLED_PROPOSAL_CACHE_SIZE < size s)%nat then shrink_handled fuel (pop_first s) else s
  end.

Section safety.
Context `{P : Params} {CD : Codec}.

Record Safety := mkSafety {
  maybe_high_tip : option ConsensusTip;
  high_certificate_qc_round : Round;
  highest_vote : Round;
  highest_no_endorse : HighNoEndorse;
  highest_propose : Round;
  highest_recovery_request : Round;
  handled_proposals : gset Round;
}.

Definition safety_default : Safety :=
  mkSafety None GENESIS_ROUND GENESIS_ROUND (mkHighNoEndorse GENESIS_ROUND GENESIS_BLOCK_ID)
    GENESIS_ROUND GENESIS_ROUND ∅.

Definition safety_new (high_certificate : RoundCertificate) (high_tip : option ConsensusTip)
    : outcome Safety :=
  current_round ← round_add (round_certificate_round high_certificate) 1;
  Ret (mkSafety high_tip (qc_get_round (round_certificate_qc high_certificate)) current_round
         (mkHighNoEndorse current_round GENESIS_BLOCK_ID) current_round current_round ∅).

Definition tip_block_round (tip : ConsensusTip) : Round := bh_block_round (tip_block_header tip).

Definition safety_process_certificate (s : Safety) (certificate : RoundCertificate) : Safety :=
  let r := qc_get_round (round_certificate_qc certificate) in
  let s := if bool_decide (high_certificate_qc_round s < r)
           then {| s with high_certificate_qc_round := r |} else s in
  match maybe_high_tip s with
  | Some tip =>
      if bool_decide (tip_block_round tip ≤ high_certificate_qc_round s)
      then {| s with maybe_high_tip := None |} else s
  | None => s
  end.

Definition is_safe_to_vote (s : Safety) (round : Round) (last_round_tc_tip : option BlockId) : bool :=
  if bool_decide (round = hne_round (highest_no_endorse s))
     && bool_decide (last_round_tc_tip ≠ Some (hne_tip (highest_no_endorse s)))
  then false
  else bool_decide (highest_vote s < round).

Definition safety_vote (s : Safety) (round : Round) (last_round_tc_tip : option BlockId)
    (tip : ConsensusTip) : outcome Safety :=
  _ ← rust_assert (is_safe_to_vote s round last_round_tc_tip);
  let s := {| s with highest_vote := round |} in
  if bool_decide (high_certificate_qc_round s < tip_block_round tip)
  then Ret {| s with maybe_high_tip := Some tip |}
  else Ret {| s with maybe_high_tip := None |}.

Definition is_safe_to_no_endorse (s : Safety) (round : Round) : bool :=
  bool_decide (N.max (hne_round (highest_no_endorse s)) (highest_vote s) < round).

Definition safety_no_endorse (s : Safety) (round : Round) (tip : BlockId) : outcome Safety :=
  _ ← rust_assert (is_safe_to_no_endorse s round);
  Ret {| s with highest_no_endorse := mkHighNoEndorse round tip |}.

(** The boolean is true if it is safe to include a vote for [high_tip]. *)
Definition safety_timeout (s : Safety) (round : Round) : outcome (Safety * bool) :=
  _ ← rust_assert (bool_decide (highest_vote s ≤ round));
  let s := {| s with highest_vote := round |} in
  Ret (s, bool_decide (hne_round (highest_no_endorse s) < round)
          || match maybe_high_tip s with
             | Some tip => bool_decide (tip_block_round tip = round)
             | None => false
             end).

Definition is_safe_to_propose (s : Safety) (round : Round) : bool :=
  bool_decide (N.max (highest_propose s) (highest_vote s) < round).

Definition safety_propose (s : Safety) (round : Round) : outcome Safety :=
  _ ← rust_assert (is_safe_to_propose s round);
  Ret {| s with highest_propose := round |}.

Definition is_safe_to_recovery_request (s : Safety) (round : Round) : bool :=
  bool_decide (highest_recovery_request s < round).

Definition safety_recovery_request (s : Safety) (round : Round) : outcome Safety :=
  _ ← rust_assert (is_safe_to_recovery_request s round);
  Ret {| s with highest_recovery_request := round |}.

Definition is_safe_to_handle_proposal (s : Safety) (round : Round) : bool :=
  bool_decide (round ∉ handled_proposals s).

Definition safety_handle_proposal (s : Safety) (round : Round) : outcome Safety :=
  _ ← rust_assert (is_safe_to_handle_proposal s round);
  let inserted := {[round]} ∪ handled_proposals s in
  Ret {| s with handled_proposals := shrink_handled (size inserted) inserted |}.

(** ** Sequences of operations *)

(** The calls a node makes on its safety module. *)
Inductive safety_op :=
| OpCertificate (c : RoundCertificate)
| OpVote (round : Round) (last_round_tc_tip : option BlockId) (tip : ConsensusTip)
| OpNoEndorse (round : Round) (tip : BlockId)
| OpTimeout (round : Round)
| OpPropose (round : Round)
| OpRecoveryRequest (round : Round)
| OpHandleProposal (round : Round).

(** What a call allows the node to sign. A timeout signs a vote for the high
    tip when the module says it may. *)
Inductive safety_event :=
| EvVote (round : Round) (last_round_tc_tip : option BlockId) (block : BlockId)
| EvTimeoutVote (round : Round) (block : BlockId)
| EvTimeout (round : Round)
| EvNoEndorse (round : Round) (tip : BlockId)
| EvPropose (round : Round)
| EvRecoveryRequest (round : Round).

Definition safety_exec (s : Safety) (op : safety_op) : outcome (Safety * list safety_event) :=
  match op with
  | OpCertificate c => Ret (safety_process_certificate s c, [])
  | OpVote r last tip => s' ← safety_vote s r last tip; Ret (s', [EvVote r last (get_id (tip_block_header tip))])
  | OpNoEndorse r tip => s' ← safety_no_endorse s r tip; Ret (s', [EvNoEndorse r tip])
  | OpTimeout r =>
      '(s', safe_to_vote) ← safety_timeout s r;
      Ret (s', EvTimeout r ::
        match maybe_high_tip s', safe_to_vote with
        | Some tip, true => [EvTimeoutVote r (get_id (tip_block_header tip))]
        | _, _ => []
        end)
  | OpPropose r => s' ← safety_propose s r; Ret (s', [EvPropose r])
  | OpRecoveryRequest r => s' ← safety_recovery_request s r; Ret (s', [EvRecoveryRequest r])
  | OpHandleProposal r => s' ← safety_handle_proposal s r; Ret (s', [])
  end.

Fixpoint safety_run (s : Safety) (ops : list safety_op) : outcome (Safety * list safety_event) :=
  match ops with
  | [] => Ret (s, [])
  | op :: ops =>
      '(s1, ev1) ← safety_exec s op;
      '(s2, ev2) ← safety_run s1 ops;
      Ret (s2, ev1 ++ ev2)
  end.

(** The vote of an event: round and block. *)
Definition event_vote (e : safety_event) : option (Round * BlockId) :=
  match e with
  | EvVote r _ id => Some (r, id)
  | EvTimeoutVote r id => Some (r, id)
  | _ => None
  end.

(** The round a vote, no-endorsement or timeout is made in. *)
Definition op_round (op : safety_op) : option Round :=
  match op with
  | OpVote r _ _ | OpNoEndorse r _ | OpTimeout r => Some r
  | _ => None
  end.

(** A vote is never for a block of a later round. *)
Definition op_tip_ok (op : safety_op) : Prop :=
  match op with OpVote r _ tip => tip_block_round tip ≤ r | _ => True end.

Definition event_propose (e : safety_event) : option Round :=
  match e with EvPropose r => Some r | _ => None end.
Definition event_no_endorse (e : safety_event) : option Round :=
  match e with EvNoEndorse r _ => Some r | _ => None end.

(** What is known of no-endorsements and votes after events [evs], for a run
    that started with [highest_vote = hv0]. *)
Record endorse_ok (hv0 : Round) (s : Safety) (evs : list safety_event) : Prop := {
  eo_start : hv0 ≤ highest_vote s;
  eo_ne : ∀ r T, EvNoEndorse r T ∈ evs →
    r ≤ hne_round (highest_no_endorse s) ∧ hv0 < r ∧
    (r = hne_round (highest_no_endorse s) → T = hne_tip (highest_no_endorse s));
  eo_vote : ∀ r last id, EvVote r last id ∈ evs → r ≤ highest_vote s;
  eo_tvote : ∀ r id, EvTimeoutVote r id ∈ evs → r ≤ highest_vote s;
  eo_tip : ∀ tip, maybe_high_tip s = Some tip → tip_block_round tip ≤ hv0 ∨
    ∃ r last, EvVote r last (get_id (tip_block_header tip)) ∈ evs ∧ tip_block_round tip ≤ r;
  eo_excl : ∀ r T last id, EvNoEndorse r T ∈ evs → EvVote r last id ∈ evs → last = Some T;
  eo_texcl : ∀ r T id, EvNoEndorse r T ∈ evs → EvTimeoutVote r id ∈ evs → EvVote r (Some T) id ∈ evs;
}.

(** The high tip is always above the certificate it would be replaced by;
    this is what makes timeouts carry [high_tip_round > high_qc_round]. *)
Definition safety_inv (s : Safety) : Prop :=
  ∀ tip, maybe_high_tip s = Some tip → high_certificate_qc_round s < tip_block_round tip.

(** The votes signed so far are at or below [highest_vote], and those in that
    round are for the high tip, if there is one. *)
Definition votes_ok (s : Safety) (votes : list (Round * BlockId)) : Prop :=
  (∀ r id, (r, id) ∈ votes → r ≤ highest_vote s) ∧
  (∀ id tip, (highest_vote s, id) ∈ votes → maybe_high_tip s = Some tip →
     id = get_id (tip_block_header tip)) ∧
  (∀ r id id', (r, id) ∈ votes → (r, id') ∈ votes → id = id').
End safety.

(** ** Lemmas *)

Lemma set_sorted_perm s : set_sorted s ≡ₚ elements s.
Proof. apply merge_sort_Permutation. Qed.

(** [pop_first] removes the least element. *)
Lemma pop_first_spec s : s ≠ ∅ → ∃ x, x ∈ s ∧ pop_first s = s ∖ {[x]} ∧ ∀ y, y ∈ s → x ≤ y.
Proof.
  intros Hne. unfold pop_first. pose proof (set_sorted_perm s) as Hp.
  assert (StronglySorted N.le (set_sorted s)) as Hs by (apply StronglySorted_merge_sort; apply _).
  destruct (set_sorted s) as [|x l].
  { symmetry in Hp. apply Permutation_nil_r, elements_empty_inv, leibniz_equiv in Hp. done. }
  assert (∀ y, y ∈ s ↔ y ∈ x :: l) as Hin by (intros y; by rewrite Hp, elem_of_elements).
  exists x. split; [apply Hin; by left|]. split; [done|].
  intros y Hy. apply Hin, elem_of_cons in Hy as [->|Hy]; [done|].
  apply StronglySorted_inv in Hs as [_ Hf]. rewrite Forall_forall in Hf. auto.
Qed.

Lemma shrink_handled_spec fuel s : (size s ≤ fuel)%nat →
  shrink_handled fuel s ⊆ s ∧
  (∀ x y, x ∈ s ∖ shrink_handled fuel s → y ∈ shrink_handled fuel s → x < y) ∧
  size (shrink_handled fuel s) = Nat.min (size s) HANDLED_PROPOSAL_CACHE_SIZE.
Proof.
  revert s. induction fuel as [|fuel IH]; intros s Hf; cbn [shrink_handled].
  { split_and!; [done|set_solver|lia]. }
  case_decide as Hs; [|split_and!; [done|set_solver|lia]].
  destruct (pop_first_spec s) as (x & Hx & Hpop & Hmin).
  { intros ->. rewrite size_empty in Hs. lia. }
  assert (size (s ∖ {[x]}) = size s - 1)%nat as Hsz.
  { rewrite size_difference by set_solver. by rewrite size_singleton. }
  rewrite Hpop. destruct (IH (s ∖ {[x]}) ltac:(lia)) as (H1 & H2 & H3).
  split_and!; [set_solver| |unfold HANDLED_PROPOSAL_CACHE_SIZE in *; lia].
  intros y z Hy Hz. destruct (decide (y = x)) as [->|]; [|apply H2; set_solver].
  assert (z ≠ x) by set_solver. assert (z ∈ s) as Hzs by set_solver. apply Hmin in Hzs. lia.
Qed.

Section safety_lemmas.
Context `{P : Params} {CD : Codec}.
Implicit Types (s : Safety).

(** Takes a successful operation apart into its cases. *)
Ltac exec_inv H :=
  unfold safety_exec, safety_vote, safety_no_endorse, safety_timeout, safety_propose,
    safety_recovery_request, safety_handle_proposal, safety_process_certificate,
    is_safe_to_vote, is_safe_to_no_endorse, is_safe_to_propose, is_safe_to_recovery_request,
    is_safe_to_handle_proposal in H;
  monad_inv H; repeat case_match; simplify_eq; simpl in *;
  rewrite ?andb_true_iff, ?andb_false_iff, ?orb_true_iff in *;
  rewrite ?bool_decide_eq_true, ?bool_decide_eq_false in *; simpl in *.

Ltac elem_cases := try setoid_rewrite elem_of_app; try setoid_rewrite list_elem_of_singleton.

Lemma safety_exec_inv s op s' ev : safety_exec s op = Ret (s', ev) → safety_inv s → safety_inv s'.
Proof.
  unfold safety_inv. destruct op; intros H Hinv; exec_inv H; simplify_eq;
    intros t Ht; simplify_eq/=; try specialize (Hinv _ ltac:(done)); lia || done.
Qed.

(** Votes only ever raise [highest_vote], and the high tip changes only to
    the tip just voted for or to nothing. *)
Lemma safety_exec_frame s op s' ev : safety_exec s op = Ret (s', ev) →
  highest_vote s ≤ highest_vote s' ∧ hne_round (highest_no_endorse s) ≤ hne_round (highest_no_endorse s') ∧
  highest_propose s ≤ highest_propose s' ∧
  (∀ tip, maybe_high_tip s' = Some tip → maybe_high_tip s = Some tip ∨
     ∃ r last, op = OpVote r last tip ∧ r = highest_vote s').
Proof.
  destruct op; intros H; exec_inv H; split_and!; try done; try lia;
    intros t Ht; simplify_eq/=; eauto.
Qed.

(** The votes an operation signs are in round [highest_vote]. *)
Lemma safety_exec_votes s op s' ev r id : safety_exec s op = Ret (s', ev) →
  (r, id) ∈ omap event_vote ev →
  r = highest_vote s' ∧
  ((∃ last tip, op = OpVote r last tip ∧ highest_vote s < r ∧ id = get_id (tip_block_header tip) ∧
      maybe_high_tip s' ∈ [None; Some tip]) ∨
   (∃ tip, op = OpTimeout r ∧ maybe_high_tip s = Some tip ∧ maybe_high_tip s' = Some tip ∧
      id = get_id (tip_block_header tip))).
Proof.
  destruct op; intros H Hin; exec_inv H; try (by apply elem_of_nil in Hin);
    apply list_elem_of_singleton in Hin; simplify_eq/=; split; try done.
  all: try (left; eexists _, _; split_and!; try done; set_solver).
  all: right; eauto.
Qed.

Lemma safety_exec_votes_ok s op s' ev votes : safety_exec s op = Ret (s', ev) →
  votes_ok s votes → votes_ok s' (votes ++ omap event_vote ev).
Proof.
  intros H (Hle & Htip & Huniq). pose proof (safety_exec_frame _ _ _ _ H) as (Hmono & _ & _ & Hframe).
  assert (∀ r id id', (r, id) ∈ omap event_vote ev → (r, id') ∈ votes → id = id') as Hnew.
  { intros r id id' Hr Hr'. destruct (safety_exec_votes _ _ _ _ _ _ H Hr)
      as [-> [(last & tip & _ & Hlt & _ & _)|(tip & -> & Ht & _ & ->)]].
    - apply Hle in Hr'. lia.
    - assert (highest_vote s' = highest_vote s) as Heq by (apply Hle in Hr'; lia).
      rewrite Heq in Hr'. symmetry. by apply Htip. }
  assert (∀ r id id', (r, id) ∈ omap event_vote ev → (r, id') ∈ omap event_vote ev → id = id') as Hself.
  { intros r id id' Hr Hr'.
    destruct (safety_exec_votes _ _ _ _ _ _ H Hr) as [_ [(?&?&->&_&->&_)|(?&->&?&_&->)]];
    destruct (safety_exec_votes _ _ _ _ _ _ H Hr') as [_ [(?&?&?&_&->&_)|(?&?&?&_&->)]];
    by simplify_eq. }
  split_and!.
  - intros r id [Hr|Hr]%elem_of_app; [apply Hle in Hr; lia|].
    destruct (safety_exec_votes _ _ _ _ _ _ H Hr) as [-> _]. done.
  - intros id tip [Hr|Hr]%elem_of_app Ht.
    + destruct (Hframe _ Ht) as [Ht'|(r & last & -> & ->)].
      * apply Hle in Hr as Hr'. assert (highest_vote s' = highest_vote s) as Heq by lia.
        rewrite Heq in Hr. by apply Htip.
      * exfalso. apply Hle in Hr. exec_inv H; lia.
    + destruct (safety_exec_votes _ _ _ _ _ _ H Hr) as [_ [(?&?&_&_&->&Hin)|(?&_&_&?&->)]].
      * rewrite Ht in Hin. set_solver.
      * by simplify_eq.
  - intros r id id' [Hr|Hr]%elem_of_app [Hr'|Hr']%elem_of_app; eauto. symmetry; eauto.
Qed.

Lemma endorse_ok_quiet hv0 s s' evs : endorse_ok hv0 s evs →
  highest_vote s' = highest_vote s → highest_no_endorse s' = highest_no_endorse s →
  (∀ tip, maybe_high_tip s' = Some tip → maybe_high_tip s = Some tip) → endorse_ok hv0 s' evs.
Proof. intros [] Hv Hn Ht. split; rewrite ?Hv, ?Hn; eauto. Qed.

Lemma endorse_ok_vote hv0 s evs r last tip s' ev : endorse_ok hv0 s evs →
  tip_block_round tip ≤ r → hne_round (highest_no_endorse s) ≤ r →
  safety_exec s (OpVote r last tip) = Ret (s', ev) → endorse_ok hv0 s' (evs ++ ev).
Proof.
  intros [Hst Hne Hv Htv Ht Hex Htex] Htip Hr H.
  assert (∀ T, EvNoEndorse r T ∈ evs → last = Some T) as Hlast.
  { intros T HT. destruct (Hne r T HT) as (Hle & _ & Heq).
    assert (r = hne_round (highest_no_endorse s)) as Hrr by lia. specialize (Heq Hrr). subst T.
    destruct (decide (last = Some (hne_tip (highest_no_endorse s)))); [done|]. exec_inv H; tauto. }
  assert (∀ id, EvTimeoutVote r id ∉ evs) as Hnot.
  { intros id Hid. apply Htv in Hid. exec_inv H; lia. }
  assert (highest_vote s' = r ∧ highest_no_endorse s' = highest_no_endorse s ∧
    ev = [EvVote r last (get_id (tip_block_header tip))] ∧ highest_vote s < r ∧
    (∀ t, maybe_high_tip s' = Some t → t = tip)) as (Hs1 & Hs2 & -> & Hlt & Ht').
  { exec_inv H; split_and!; try done; intros; simplify_eq/=; done. }
  split; rewrite ?Hs1, ?Hs2; elem_cases.
  - lia.
  - naive_solver.
  - intros r' l' id' [Hx|Hx]; [apply Hv in Hx; lia|naive_solver lia].
  - intros r' id' [Hx|Hx]; [apply Htv in Hx; lia|done].
  - intros t ->%Ht'. right. eauto.
  - naive_solver.
  - naive_solver.
Qed.

Lemma endorse_ok_no_endorse hv0 s evs r T s' ev : endorse_ok hv0 s evs →
  safety_exec s (OpNoEndorse r T) = Ret (s', ev) → endorse_ok hv0 s' (evs ++ ev).
Proof.
  intros [Hst Hne Hv Htv Ht Hex Htex] H. exec_inv H.
  split; simpl; elem_cases.
  - done.
  - intros r' T' [Hx|Hx]; [destruct (Hne _ _ Hx) as (? & ? & ?); split_and!; lia|].
    simplify_eq. split_and!; [lia..|done].
  - naive_solver.
  - naive_solver.
  - naive_solver.
  - intros r' T' last id [Hx|Hx] [Hy|Hy]; try done; [eauto|]. simplify_eq. apply Hv in Hy. lia.
  - intros r' T' id [Hx|Hx] [Hy|Hy]; try done; [eauto|]. simplify_eq. apply Htv in Hy. lia.
Qed.

Lemma endorse_ok_timeout hv0 s evs r s' ev : endorse_ok hv0 s evs →
  safety_exec s (OpTimeout r) = Ret (s', ev) → endorse_ok hv0 s' (evs ++ ev).
Proof.
  intros [Hst Hne Hv Htv Ht Hex Htex] H.
  assert (highest_vote s' = r ∧ highest_no_endorse s' = highest_no_endorse s ∧
    maybe_high_tip s' = maybe_high_tip s ∧ highest_vote s ≤ r ∧
    (∀ e, e ∈ ev → e = EvTimeout r ∨ ∃ tip, maybe_high_tip s = Some tip ∧
       e = EvTimeoutVote r (get_id (tip_block_header tip)) ∧
       (hne_round (highest_no_endorse s) < r ∨ tip_block_round tip = r)))
    as (Hs1 & Hs2 & Hs3 & Hle & Hev).
  { exec_inv H; split_and!; try done; set_solver. }
  assert (∀ T tip, EvNoEndorse r T ∈ evs → maybe_high_tip s = Some tip →
    EvTimeoutVote r (get_id (tip_block_header tip)) ∈ ev →
    EvVote r (Some T) (get_id (tip_block_header tip)) ∈ evs) as Hmain.
  { intros T tip HT Htip Hin. destruct (Hne _ _ HT) as (Hr & Hr0 & _).
    destruct (Hev _ Hin) as [?|(tip' & Htip' & _ & [?|Hbr])]; [done|lia|]. simplify_eq.
    destruct (Ht _ Htip) as [?|(r' & last & Hvin & Hr')]; [lia|].
    pose proof (Hv _ _ _ Hvin). assert (r' = highest_vote s') as -> by lia.
    by rewrite <- (Hex _ _ _ _ HT Hvin). }
  split; rewrite ?Hs1, ?Hs2, ?Hs3; elem_cases.
  - lia.
  - intros r' T [Hx|Hx]; [eauto|]. apply Hev in Hx. naive_solver.
  - intros r' last id [Hx|Hx]; [apply Hv in Hx; lia|]. apply Hev in Hx. naive_solver.
  - intros r' id [Hx|Hx]; [apply Htv in Hx; lia|]. apply Hev in Hx. naive_solver.
  - naive_solver.
  - intros r' T last id [Hx|Hx] [Hy|Hy]; try (apply Hev in Hx); try (apply Hev in Hy); naive_solver.
  - intros r' T id [Hx|Hx] [Hy|Hy]; try (apply Hev in Hx; naive_solver).
    + left. eauto.
    + left. destruct (Hev _ Hy) as [?|(tip & Htip & ? & _)]; [done|]. simplify_eq. by apply Hmain.
Qed.

Lemma endorse_ok_exec hv0 s evs op s' ev : endorse_ok hv0 s evs → op_tip_ok op →
  (∀ r, op_round op = Some r → hne_round (highest_no_endorse s) ≤ r) →
  safety_exec s op = Ret (s', ev) → endorse_ok hv0 s' (evs ++ ev).
Proof.
  intros Hok Htip Hr H. destruct op.
  2: eapply endorse_ok_vote; eauto.
  2: by eapply endorse_ok_no_endorse.
  2: by eapply endorse_ok_timeout.
  1: exec_inv H; rewrite app_nil_r; (eapply endorse_ok_quiet; [exact Hok|done..|]); simpl; congruence.
  3: exec_inv H; rewrite app_nil_r; (eapply endorse_ok_quiet; [exact Hok|done..]).
  all: exec_inv H; destruct Hok as [Hst Hne Hv Htv Ht Hex Htex];
    split; simpl; elem_cases; naive_solver.
Qed.

Lemma safety_run_cons s op ops s' evs : safety_run s (op :: ops) = Ret (s', evs) →
  ∃ s1 ev1 ev2, safety_exec s op = Ret (s1, ev1) ∧ safety_run s1 ops = Ret (s', ev2) ∧ evs = ev1 ++ ev2.
Proof.
  simpl. intros ([s1 ev1] & H1 & ([s2 ev2] & H2 & [= <- <-])%bind_ret_inv)%bind_ret_inv. eauto 6.
Qed.

(** Invariants of single operations hold along runs: [I] relates the state
    and the events so far. *)
Lemma safety_run_ind (I : Safety → list safety_event → Prop) (ok : safety_op → Prop) :
  (∀ s evs op s' ev, ok op → I s evs → safety_exec s op = Ret (s', ev) → I s' (evs ++ ev)) →
  ∀ ops s evs0 s' evs, Forall ok ops → I s evs0 → safety_run s ops = Ret (s', evs) → I s' (evs0 ++ evs).
Proof.
  intros Hstep. induction ops as [|op ops IH]; intros s evs0 s' evs Hok HI H.
  { injection H as <- <-. by rewrite app_nil_r. }
  apply Forall_cons in Hok as [Hop Hok].
  apply safety_run_cons in H as (s1 & ev1 & ev2 & H1 & H2 & ->).
  rewrite (assoc_L (++)). eapply IH; eauto.
Qed.

Lemma safety_exec_hne s op s' ev : safety_exec s op = Ret (s', ev) →
  highest_no_endorse s' = highest_no_endorse s ∨ op_round op = Some (hne_round (highest_no_endorse s')).
Proof. destruct op; intros H; exec_inv H; auto. Qed.

Lemma endorse_ok_run hv0 ops s evs0 s' evs : endorse_ok hv0 s evs0 → Forall op_tip_ok ops →
  StronglySorted N.le (omap op_round ops) →
  Forall (λ r, hne_round (highest_no_endorse s) ≤ r) (omap op_round ops) →
  safety_run s ops = Ret (s', evs) → endorse_ok hv0 s' (evs0 ++ evs).
Proof.
  revert s evs0 evs. induction ops as [|op ops IH]; intros s evs0 evs Hok Htip Hsort Hge H.
  { injection H as <- <-. by rewrite app_nil_r. }
  apply Forall_cons in Htip as [Hop Htip].
  apply safety_run_cons in H as (s1 & ev1 & ev2 & H1 & H2 & ->). rewrite (assoc_L (++)).
  assert (StronglySorted N.le (omap op_round ops) ∧
    (∀ r, op_round op = Some r → hne_round (highest_no_endorse s) ≤ r) ∧
    Forall (λ r, hne_round (highest_no_endorse s1) ≤ r) (omap op_round ops)) as (Hs1 & Hr & Hge1).
  { simpl in Hsort, Hge. destruct (op_round op) as [r|] eqn:Hr.
    - apply Forall_cons in Hge as [Hge0 Hge]. apply StronglySorted_inv in Hsort as [Hs Hf].
      split_and!; [done|naive_solver|].
      destruct (safety_exec_hne _ _ _ _ H1) as [->|Heq]; [done|].
      assert (r = hne_round (highest_no_endorse s1)) as <- by congruence. done.
    - split_and!; [done|done|]. destruct (safety_exec_hne _ _ _ _ H1) as [->|Heq]; [done|congruence]. }
  eapply IH; eauto. by eapply endorse_ok_exec.
Qed.

(** Operations that raise a mark strictly sign each round at most once. *)
Lemma safety_run_increasing (mark : Safety → Round) (sel : safety_event → option Round) :
  (∀ s op s' ev, safety_exec s op = Ret (s', ev) →
     (omap sel ev = [] ∧ mark s ≤ mark s') ∨ (omap sel ev = [mark s'] ∧ mark s < mark s')) →
  ∀ ops s s' evs, safety_run s ops = Ret (s', evs) →
    StronglySorted N.lt (omap sel evs) ∧ Forall (λ r, mark s < r) (omap sel evs) ∧ mark s ≤ mark s'.
Proof.
  intros Hstep. induction ops as [|op ops IH]; intros s s' evs H.
  { injection H as <- <-. split_and!; [constructor|constructor|done]. }
  apply safety_run_cons in H as (s1 & ev1 & ev2 & H1 & H2 & ->).
  apply IH in H2 as (Hs & Hf & Hm). rewrite omap_app.
  destruct (Hstep _ _ _ _ H1) as [[-> Hle]|[-> Hlt]]; simpl.
  - split_and!; [done| |lia]. eapply Forall_impl; [exact Hf|]. simpl. lia.
  - split_and!; [by constructor| |lia]. constructor; [done|].
    eapply Forall_impl; [exact Hf|]. simpl. lia.
Qed.

Lemma safety_exec_propose_mark s op s' ev : safety_exec s op = Ret (s', ev) →
  (omap event_propose ev = [] ∧ highest_propose s ≤ highest_propose s') ∨
  (omap event_propose ev = [highest_propose s'] ∧ highest_propose s < highest_propose s').
Proof. destruct op; intros H; exec_inv H; simpl; try (by left); right; split; [done|lia]. Qed.

Lemma safety_exec_ne_mark s op s' ev : safety_exec s op = Ret (s', ev) →
  (omap event_no_endorse ev = [] ∧
     hne_round (highest_no_endorse s) ≤ hne_round (highest_no_endorse s')) ∨
  (omap event_no_endorse ev = [hne_round (highest_no_endorse s')] ∧
     hne_round (highest_no_endorse s) < hne_round (highest_no_endorse s')).
Proof. destruct op; intros H; exec_inv H; simpl; try (by left); right; split; [done|lia]. Qed.

Lemma safety_run_inv ops s s' evs :
  safety_run s ops = Ret (s', evs) → safety_inv s → safety_inv s'.
Proof.
  intros H Hs. refine (safety_run_ind (λ s _, safety_inv s) (λ _, True) _ ops s [] s' evs _ Hs H).
  - intros s1 ev1 op s2 ev2 _ HI Hex. by eapply safety_exec_inv.
  - by apply Forall_true.
Qed.

Lemma safety_run_votes ops s s' evs : safety_run s ops = Ret (s', evs) → votes_ok s' (omap event_vote evs).
Proof.
  intros H.
  refine (safety_run_ind (λ s evs, votes_ok s (omap event_vote evs)) (λ _, True) _ ops s [] s' evs _ _ H);
    [|by apply Forall_true|].
  - intros s1 ev1 op s2 ev2 _ HI Hex. rewrite omap_app. by eapply safety_exec_votes_ok.
  - split_and!; intros; set_solver.
Qed.
End safety_lemmas.

Section safety_properties.
Context `{P : Params} {CD : Codec}.
Implicit Types (s : Safety).

(** No double vote: in any sequence of calls that does not panic, from any
    starting state, all votes a node signs for one round (its own votes and
    those inside its timeouts) are for the same block. *)
Theorem safety_no_double_vote s ops s' evs r id id' : safety_run s ops = Ret (s', evs) →
  (r, id) ∈ omap event_vote evs → (r, id') ∈ omap event_vote evs → id = id'.
Proof. intros (_ & _ & Huniq)%safety_run_votes. apply Huniq. Qed.

(** A vote and a no-endorsement of the same round do not contradict each
    other: when rounds only move forward, a node that signed a
    no-endorsement of round [r] for tip [T] votes in round [r] only for a
    proposal that carries the timeout certificate of [T]; a vote inside its
    timeout of round [r] repeats such a vote. So no quorum for another block
    and a no-endorsement certificate can both use its signature. *)
Theorem safety_no_endorse_excludes_votes s ops s' evs r T id :
  safety_run s ops = Ret (s', evs) → Forall op_tip_ok ops →
  StronglySorted N.le (omap op_round ops) →
  Forall (λ r, hne_round (highest_no_endorse s) ≤ r) (omap op_round ops) →
  (∀ tip, maybe_high_tip s = Some tip → tip_block_round tip ≤ highest_vote s) →
  EvNoEndorse r T ∈ evs → (r, id) ∈ omap event_vote evs → EvVote r (Some T) id ∈ evs.
Proof.
  intros H Hops Hsort Hge Htip HT Hv.
  assert (endorse_ok (highest_vote s) s []) as H0.
  { split; try (intros; set_solver). }
  destruct (endorse_ok_run _ _ _ _ _ _ H0 Hops Hsort Hge H) as [_ _ _ _ _ Hex Htex]. simpl in *.
  apply list_elem_of_omap in Hv as (e & He & Hr). destruct e; simplify_eq/=; [|by eapply Htex].
  by rewrite <- (Hex _ _ _ _ HT He).
Qed.

(** A node proposes at most once per round and signs at most one
    no-endorsement per round: the rounds of its proposals, and those of its
    no-endorsements, increase strictly. *)
Theorem safety_one_proposal_per_round s ops s' evs : safety_run s ops = Ret (s', evs) →
  StronglySorted N.lt (omap event_propose evs) ∧ StronglySorted N.lt (omap event_no_endorse evs).
Proof.
  intros H. split.
  - by eapply (safety_run_increasing highest_propose), H; apply safety_exec_propose_mark.
  - by eapply (safety_run_increasing (λ s, hne_round (highest_no_endorse s))), H;
      apply safety_exec_ne_mark.
Qed.

(** The high tip, which timeouts carry, always has a round above the highest
    certificate's; every operation keeps this. *)
Theorem safety_high_tip_above_certificate s ops s' evs tip :
  safety_inv s → safety_run s ops = Ret (s', evs) → maybe_high_tip s' = Some tip →
  high_certificate_qc_round s' < tip_block_round tip.
Proof. intros Hs H. apply (safety_run_inv _ _ _ _ H Hs). Qed.

(** The set of handled proposal rounds stays bounded: a proposal round is
    accepted once, at most [HANDLED_PROPOSAL_CACHE_SIZE] rounds are kept, and
    only rounds below all the kept ones are forgotten. *)
Theorem handle_proposal_bounded s round s' : safety_handle_proposal s round = Ret s' →
  round ∉ handled_proposals s ∧ (size (handled_proposals s') ≤ HANDLED_PROPOSAL_CACHE_SIZE)%nat ∧
  handled_proposals s' ⊆ {[round]} ∪ handled_proposals s ∧
  (∀ x y, x ∈ ({[round]} ∪ handled_proposals s) ∖ handled_proposals s' → y ∈ handled_proposals s' → x < y) ∧
  ((size (handled_proposals s) < HANDLED_PROPOSAL_CACHE_SIZE)%nat → round ∈ handled_proposals s').
Proof.
  intros ([] & Hr%rust_assert_ret_inv & [= <-])%bind_ret_inv. apply bool_decide_eq_true in Hr. simpl.
  set (S0 := {[round]} ∪ handled_proposals s).
  destruct (shrink_handled_spec (size S0) S0 ltac:(done)) as (H1 & H2 & H3).
  split_and!; [done|lia|done|done|]. intros Hlt.
  assert (size S0 = S (size (handled_proposals s))) as Hsz.
  { unfold S0. rewrite size_union by set_solver. by rewrite size_singleton. }
  assert (shrink_handled (size S0) S0 ≡ S0) as ->; [|set_solver].
  apply set_subseteq_size_equiv; [done|lia].
Qed.
End safety_properties.

Section safety_witnesses.
Import ToyInstances.

Definition toy_header (round seq : N) (qc : QuorumCertificate) : ConsensusBlockHeader :=
  mkHeader round 1 qc (1 : @NodeId toy_params) seq (1000 * seq)
    (toy_sign 1 SdRoundSignature (rlp_round round) : @Signature toy_params)
    ([] : list (@FinalizedHeader toy_params)) (0 : @ProposedHeader toy_params) 0 0 0 0.
Definition toy_tip (round seq : N) (qc : QuorumCertificate) : ConsensusTip :=
  tip_new (1 : @AuthorKeyPair toy_params) (toy_header round seq qc) None.

(** Round 5 endorses nothing but tip 99, votes for a block that carries its
    certificate, and times out with the same vote. *)
Definition toy_ops : list safety_op :=
  [OpCertificate (RcQc (toy_qc 77 3)); OpVote 4 None (toy_tip 4 4 (toy_qc 77 3)); OpPropose 5;
   OpNoEndorse 5 99; OpVote 5 (Some 99) (toy_tip 5 5 (toy_qc 77 3)); OpTimeout 5; OpHandleProposal 5].

Definition toy_run := ret_or (safety_default, []) (safety_run safety_default toy_ops).

Lemma toy_ops_run : safety_run safety_default toy_ops = Ret (toy_run.1, toy_run.2).
Proof. rewrite <- surjective_pairing. apply returns_ret. vm_refl. Qed.

Lemma toy_ops_events : toy_run.2 =
  [EvVote 4 None (get_id (toy_header 4 4 (toy_qc 77 3))); EvPropose 5; EvNoEndorse 5 99;
   EvVote 5 (Some 99) (get_id (toy_header 5 5 (toy_qc 77 3))); EvTimeout 5;
   EvTimeoutVote 5 (get_id (toy_header 5 5 (toy_qc 77 3)))].
Proof. vm_refl. Qed.

Lemma safety_no_double_vote_witness : ∃ s' evs, safety_run safety_default toy_ops = Ret (s', evs) ∧
  ∀ id, (5, id) ∈ omap event_vote evs → id = get_id (toy_header 5 5 (toy_qc 77 3)).
Proof.
  exists toy_run.1, toy_run.2. split; [exact toy_ops_run|].
  intros id Hid. apply (safety_no_double_vote safety_default toy_ops _ _ 5 id _ toy_ops_run Hid).
  rewrite toy_ops_events. right. left.
Defined.

Lemma safety_no_endorse_excludes_votes_witness :
  ∃ s' evs, safety_run safety_default toy_ops = Ret (s', evs) ∧
    EvVote 5 (Some 99) (get_id (toy_header 5 5 (toy_qc 77 3))) ∈ evs.
Proof.
  exists toy_run.1, toy_run.2. split; [exact toy_ops_run|].
  apply (safety_no_endorse_excludes_votes safety_default toy_ops _ _ 5 99
           (get_id (toy_header 5 5 (toy_qc 77 3))) toy_ops_run).
  - repeat (constructor; try discriminate).
  - repeat (constructor; try discriminate).
  - repeat (constructor; try discriminate).
  - intros tip. discriminate.
  - rewrite toy_ops_events. right. right. left.
  - rewrite toy_ops_events. right. left.
Defined.

Lemma safety_one_proposal_per_round_witness :
  ∃ s' evs, safety_run safety_default toy_ops = Ret (s', evs) ∧ StronglySorted N.lt (omap event_propose evs).
Proof.
  exists toy_run.1, toy_run.2. split; [exact toy_ops_run|].
  apply (safety_one_proposal_per_round safety_default toy_ops _ _ toy_ops_run).
Defined.

Lemma safety_high_tip_above_certificate_witness :
  high_certificate_qc_round toy_run.1 < tip_block_round (toy_tip 5 5 (toy_qc 77 3)).
Proof.
  apply (safety_high_tip_above_certificate safety_default toy_ops _ toy_run.2 (toy_tip 5 5 (toy_qc 77 3))).
  - intros t. discriminate.
  - exact toy_ops_run.
  - vm_refl.
Defined.

Lemma handle_proposal_bounded_witness : ∃ s',
  safety_handle_proposal safety_default 5 = Ret s' ∧ (size (handled_proposals s') ≤ 100)%nat.
Proof.
  exists (ret_or safety_default (safety_handle_proposal safety_default 5)).
  assert (safety_handle_proposal safety_default 5 =
    Ret (ret_or safety_default (safety_handle_proposal safety_default 5))) as H
    by (apply returns_ret; vm_refl).
  split; [exact H|]. apply (handle_proposal_bounded safety_default 5 _ H).
Defined.
End safety_witnesses.
