(* ===== verification/VoteState.v ===== *)
(** * Vote collection (monad-consensus/src/vote_state.rs)

    Votes are collected per round and per vote; when the voters of one vote
    hold a super-majority of the stake, a signature collection is built from
    them. Building it may reject some signatures: their senders are excluded
    for the round and the threshold is tested again. The list of evidence
    commands is always empty in the source (its type has no constructor) and
    is left out. *)
From S2P Require Import Prelude Types Interfaces MultiSig Certificates Concrete ValidatorSet.

Section vote_state.
Context `{P : Params} {CD : Codec} {SC : SignatureCollection}.

(** messages/message.rs *)
Record VoteMessage := mkVoteMessage { vm_vote : Vote; vm_sig : Signature }.

Record RoundVoteState := mkRoundVoteState {
  rvs_pending_votes : gmap Vote (gmap NodeId Signature);
  rvs_node_votes : gmap NodeId (gset Signature);
  rvs_invalid_voters : gset NodeId;
}.

Definition round_vote_state_default : RoundVoteState := mkRoundVoteState ∅ ∅ ∅.

Record VoteState := mkVoteState {
  vs_pending_votes : gmap Round RoundVoteState;
  vs_earliest_round : Round;
}.

Definition vote_state_new (round : Round) : VoteState := mkVoteState ∅ round.

(** [handle_invalid_vote]: exclude the senders and drop their pending votes. *)
Definition handle_invalid_vote (pending_entry : gmap NodeId Signature) (invalid_voters : gset NodeId)
    (invalid_votes : list (NodeId * Signature)) : gmap NodeId Signature * gset NodeId :=
  let invalid_voters := list_to_set invalid_votes.*1 ∪ invalid_voters in
  (filter (λ p, p.1 ∉ invalid_voters) pending_entry, invalid_voters).

(** The [while] loop of [process_vote]: the collection if one was built, and
    the pending votes and excluded voters it leaves. *)
Fixpoint certify_loop (fuel : nat) (d : SigningDomain) (msg : bytes) (earliest_round round : Round)
    (validators : ValidatorSet) (validator_mapping : ValidatorMapping)
    (pending : gmap NodeId Signature) (invalid_voters : gset NodeId)
    : outcome (option SigCol * gmap NodeId Signature * gset NodeId) :=
  match fuel with
  | O => OutOfFuel
  | S fuel =>
      super ← has_super_majority_votes validators (btree_keys pending);
      match super with
      | Err _ => Panic
      | Ok false => Ret (None, pending, invalid_voters)
      | Ok true =>
          _ ← rust_assert (bool_decide (earliest_round ≤ round));
          match sc_new d (btree_iter pending) validator_mapping msg with
          | Ok sigcol => Ret (Some sigcol, pending, invalid_voters)
          | Err (InvalidSignaturesCreate invalid_sigs) =>
              let '(pending, invalid_voters) := handle_invalid_vote pending invalid_voters invalid_sigs in
              certify_loop fuel d msg earliest_round round validators validator_mapping
                pending invalid_voters
          | Err _ => Panic
          end
      end
  end.

(** Enough iterations: every failed attempt drops a pending vote. *)
Definition certify_fuel (pending : gmap NodeId Signature) : nat := S (size pending).

Definition process_vote (s : VoteState) (author : NodeId) (vote_msg : VoteMessage)
    (validators : ValidatorSet) (validator_mapping : ValidatorMapping)
    : outcome (VoteState * option QuorumCertificate) :=
  let vote := vm_vote vote_msg in
  let round := vote_round vote in
  if bool_decide (round < vs_earliest_round s) then Ret (s, None) else
  let rs := default round_vote_state_default (vs_pending_votes s !! round) in
  let node_votes := default ∅ (rvs_node_votes rs !! author) in
  let rs := {| rs with rvs_node_votes := <[author := {[vm_sig vote_msg]} ∪ node_votes]> (rvs_node_votes rs) |} in
  let pending := default ∅ (rvs_pending_votes rs !! vote) in
  let store rs := {| s with vs_pending_votes := <[round := rs]> (vs_pending_votes s) |} in
  let set_pending p rs := {| rs with rvs_pending_votes := <[vote := p]> (rvs_pending_votes rs) |} in
  if bool_decide (author ∈ rvs_invalid_voters rs) then Ret (store (set_pending pending rs), None) else
  let pending := <[author := vm_sig vote_msg]> pending in
  '(sigcol, pending, invalid) ←
    certify_loop (certify_fuel pending) SdVote (rlp_vote vote) (vs_earliest_round s) round
      validators validator_mapping pending (rvs_invalid_voters rs);
  let rs := set_pending pending rs in
  let rs := {| rs with rvs_invalid_voters := invalid |} in
  let s' := store rs in
  match sigcol with
  | Some sigcol =>
      next ← round_add round 1;
      Ret ({| s' with vs_earliest_round := next |}, Some (mkQC vote sigcol))
  | None => Ret (s', None)
  end.

Definition vote_start_new_round (s : VoteState) (new_round : Round) : VoteState :=
  {| vs_earliest_round := new_round;
     vs_pending_votes := filter (λ p, new_round ≤ p.1) (vs_pending_votes s) |}.

(** The votes pending for one vote. *)
Definition pending_for (s : VoteState) (v : Vote) : gmap NodeId Signature :=
  default ∅ (rs ← vs_pending_votes s !! vote_round v; rvs_pending_votes rs !! v).

(** A sequence of vote messages and round changes, with the certificates it
    produces. *)
Inductive vote_op :=
| VoVote (author : NodeId) (m : VoteMessage) (validators : ValidatorSet) (mapping : ValidatorMapping)
| VoNewRound (round : Round).

Definition vote_exec (s : VoteState) (op : vote_op) : outcome (VoteState * option QuorumCertificate) :=
  match op with
  | VoVote a m vs vm => process_vote s a m vs vm
  | VoNewRound r => Ret (vote_start_new_round s r, None)
  end.

Fixpoint vote_run (s : VoteState) (ops : list vote_op) : outcome (VoteState * list QuorumCertificate) :=
  match ops with
  | [] => Ret (s, [])
  | op :: ops =>
      '(s1, q1) ← vote_exec s op;
      '(s2, q2) ← vote_run s1 ops;
      Ret (s2, option_list q1 ++ q2)
  end.

(** New rounds are never below the earliest round still accepted. *)
Fixpoint rounds_advance (s : VoteState) (ops : list vote_op) : bool :=
  match ops with
  | [] => true
  | op :: ops =>
      match op with VoNewRound r => bool_decide (vs_earliest_round s ≤ r) | _ => true end &&
      match vote_exec s op with Ret (s1, _) => rounds_advance s1 ops | _ => true end
  end.
End vote_state.

(** ** Lemmas *)

Section vote_lemmas.
Context `{P : Params} {CD : Codec} {SC : SignatureCollection}.

(** A certificate that was built comes from a super-majority of pending
    signatures. *)
Lemma certify_loop_some fuel d msg er r vs m pending inv sc pending' inv' :
  certify_loop fuel d msg er r vs m pending inv = Ret (Some sc, pending', inv') →
  pending' ⊆ pending ∧ has_super_majority_votes vs (btree_keys pending') = Ret (Ok true) ∧
  sc_new d (btree_iter pending') m msg = Ok sc.
Proof.
  revert pending inv. induction fuel as [|fuel IH]; intros pending inv H; [done|].
  cbn [certify_loop] in H.
  apply bind_ret_inv in H as ([[]|] & Hs & H); try done.
  apply bind_ret_inv in H as (_ & _ & H).
  destruct (sc_new d (btree_iter pending) m msg) as [sc'|[]] eqn:Hn; try done.
  - injection H as -> <- <-. done.
  - apply IH in H as (Hsub & ? & ?). split; [|done]. etrans; [exact Hsub|apply map_filter_subseteq].
Qed.

Lemma certify_loop_pending fuel d msg er r vs m pending inv sc pending' inv' :
  certify_loop fuel d msg er r vs m pending inv = Ret (sc, pending', inv') →
  pending' ⊆ pending ∧ inv ⊆ inv'.
Proof.
  revert pending inv. induction fuel as [|fuel IH]; intros pending inv H; [done|].
  cbn [certify_loop] in H.
  apply bind_ret_inv in H as ([[]|] & Hs & H); try done; [|by simplify_eq].
  apply bind_ret_inv in H as (_ & _ & H).
  destruct (sc_new d (btree_iter pending) m msg) as [sc'|[]] eqn:Hn; try done; [by simplify_eq|].
  apply IH in H as (Hsub & Hi). split; [|set_solver]. etrans; [exact Hsub|apply map_filter_subseteq].
Qed.

Lemma certify_loop_none fuel d msg er r vs m pending inv pending' inv' :
  certify_loop fuel d msg er r vs m pending inv = Ret (None, pending', inv') →
  has_super_majority_votes vs (btree_keys pending') = Ret (Ok false).
Proof.
  revert pending inv. induction fuel as [|fuel IH]; intros pending inv H; [done|].
  cbn [certify_loop] in H.
  apply bind_ret_inv in H as ([[]|] & Hs & H); try done; [|by simplify_eq].
  apply bind_ret_inv in H as (_ & _ & H).
  destruct (sc_new d (btree_iter pending) m msg) as [sc'|[]] eqn:Hn; try done. by apply IH in H.
Qed.

Lemma handle_invalid_vote_shrinks pending inv bad : bad ≠ [] → bad ⊆ btree_iter pending →
  (size (handle_invalid_vote pending inv bad).1 < size pending)%nat.
Proof.
  intros Hne Hsub. simpl. destruct bad as [|[n sg] bad]; [done|].
  apply map_filter_drops with n sg.
  - apply elem_of_btree_iter. apply Hsub. by left.
  - simpl. set_solver.
Qed.

Lemma certify_loop_returns fuel d msg er r vs m pending inv :
  sc_laws sc_new sc_verify → vs_wf vs → er ≤ r → (∀ n, is_Some (pending !! n) → is_Some (m !! n)) →
  (size pending < fuel)%nat →
  ∃ res, certify_loop fuel d msg er r vs m pending inv = Ret res.
Proof.
  intros Hlaws Hwf Her. revert pending inv.
  induction fuel as [|fuel IH]; intros pending inv Hm Hfuel; [lia|]. cbn [certify_loop].
  unfold has_super_majority_votes. rewrite has_threshold_votes_ok by (done || apply btree_keys_nodup).
  simpl. case_bool_decide; [|eauto]. rewrite bool_decide_eq_true_2 by done. simpl.
  destruct (sc_new_total _ _ Hlaws d (btree_iter pending) m msg) as [[sc ->]|[bad Hbad]]; [..|eauto|].
  - apply btree_keys_nodup.
  - intros n Hn. apply Hm. by apply elem_of_btree_keys.
  - rewrite Hbad. destruct (sc_new_invalid _ _ Hlaws _ _ _ _ _ Hbad) as [Hne Hsub].
    pose proof (handle_invalid_vote_shrinks pending inv bad Hne Hsub) as Hlt.
    unfold handle_invalid_vote in *. simpl in *. apply IH; [|lia]. intros n [sg Hn]. apply Hm. apply map_lookup_filter_Some in Hn as [Hn _]. eauto.
Qed.

#[local] Arguments certify_loop : simpl never.
#[local] Arguments certify_fuel : simpl never.

Lemma process_vote_some s a msg vs m s' qc : process_vote s a msg vs m = Ret (s', Some qc) →
  qc_info qc = vm_vote msg ∧ vs_earliest_round s ≤ vote_round (vm_vote msg) ∧
  vs_earliest_round s' = vote_round (vm_vote msg) + 1 ∧
  ∃ voters, voters ⊆ <[a := vm_sig msg]> (pending_for s (vm_vote msg)) ∧
    has_super_majority_votes vs (btree_keys voters) = Ret (Ok true) ∧
    sc_new SdVote (btree_iter voters) m (rlp_vote (vm_vote msg)) = Ok (qc_signatures qc).
Proof.
  unfold process_vote, pending_for. case_bool_decide as Her; [done|]. cbv zeta. simpl.
  case_bool_decide as Hinv; [done|].
  intros ([[[sc|] pending] inv] & Hl & H)%bind_ret_inv; [|done].
  apply bind_ret_inv in H as (next & [-> _]%round_add_ret & [= <- <-]). simpl.
  apply certify_loop_some in Hl as (Hsub & ? & ?). split_and!; [done|lia|done|].
  exists pending. split; [|done]. etrans; [exact Hsub|].
  by destruct (vs_pending_votes s !! vote_round (vm_vote msg)).
Qed.

Lemma process_vote_earliest s a msg vs m s' q : process_vote s a msg vs m = Ret (s', q) →
  match q with
  | Some qc => vs_earliest_round s ≤ qc_get_round qc ∧ vs_earliest_round s' = qc_get_round qc + 1
  | None => vs_earliest_round s' = vs_earliest_round s
  end.
Proof.
  destruct q as [qc|].
  - intros (Hq & ? & ? & _)%process_vote_some. unfold qc_get_round. by rewrite Hq.
  - unfold process_vote. case_bool_decide as He; [by intros [= <-]|]. cbv zeta.
    case_bool_decide as Hinv; [by intros [= <-]|].
    intros ([[[sc|] pending] inv] & _ & H)%bind_ret_inv; [|by injection H as <-].
    by apply bind_ret_inv in H as (? & _ & H).
Qed.

(** A vote that is not ignored leaves its bucket with what the loop left. *)
Lemma process_vote_accepted s a msg vs m :
  let v := vm_vote msg in
  let rs := default round_vote_state_default (vs_pending_votes s !! vote_round v) in
  vs_earliest_round s ≤ vote_round v → a ∉ rvs_invalid_voters rs → vote_round v < u64_MAX →
  let pending := <[a := vm_sig msg]> (pending_for s v) in
  ∀ sc pending' inv',
  certify_loop (certify_fuel pending) SdVote (rlp_vote v) (vs_earliest_round s) (vote_round v) vs m
    pending (rvs_invalid_voters rs) = Ret (sc, pending', inv') →
  ∃ s', process_vote s a msg vs m = Ret (s', mkQC v <$> sc) ∧ pending_for s' v = pending'.
Proof.
  intros v rs He Hinv Hmax pending sc pending' inv' Hl. unfold process_vote. fold v. fold rs.
  rewrite bool_decide_eq_false_2 by lia. cbv zeta. simpl. rewrite bool_decide_eq_false_2 by done.
  assert (default ∅ (rvs_pending_votes rs !! v) = pending_for s v) as ->.
  { unfold pending_for, rs. by destruct (vs_pending_votes s !! vote_round v). }
  fold pending. rewrite Hl. simpl. destruct sc as [sc|]; simpl.
  - rewrite (proj2 (round_add_ret (vote_round v) 1 (vote_round v + 1))) by (split; [done|lia]). simpl.
    eexists. split; [done|]. unfold pending_for. simpl. by rewrite lookup_insert_eq; simpl; rewrite lookup_insert_eq.
  - eexists. split; [done|]. unfold pending_for. simpl. by rewrite lookup_insert_eq; simpl; rewrite lookup_insert_eq.
Qed.
End vote_lemmas.

#[global] Arguments certify_loop : simpl never.
#[global] Arguments certify_fuel : simpl never.


Section vote_properties.
Context `{P : Params} {CD : Codec} {SC : SignatureCollection}.

(** Every certificate vote collection returns is a valid one: its signature
    collection verifies over the encoded vote, and the signers it names hold a
    super-majority of the stake and were all collected as voters. *)
Theorem process_vote_certificate_valid s a msg vs (m : ValidatorMapping) s' qc :
  sc_laws sc_new sc_verify → vs_wf vs →
  (∀ n n' pk, m !! n = Some pk → m !! n' = Some pk → n = n') →
  process_vote s a msg vs m = Ret (s', Some qc) →
  qc_info qc = vm_vote msg ∧
  ∃ signers, sc_verify (qc_signatures qc) SdVote m (rlp_vote (qc_info qc)) = Ok signers ∧
    has_super_majority_votes vs signers = Ret (Ok true) ∧
    ∀ n, n ∈ signers → n = a ∨ is_Some (pending_for s (vm_vote msg) !! n).
Proof.
  intros Hlaws Hwf Hinj (Hq & _ & _ & voters & Hsub & Hsup & Hsc)%process_vote_some.
  split; [done|]. rewrite Hq. destruct (sc_new_verify _ _ Hlaws _ _ _ _ _ Hinj Hsc) as (signers & Hv & Hin).
  exists signers. split; [done|]. change (btree_iter voters).*1 with (btree_keys voters) in Hin. split.
  - apply (super_majority_perm vs (btree_keys voters)); [done| |by intros n; rewrite Hin|done].
    by eapply (sc_verify_nodup _ _ Hlaws).
  - intros n Hn. apply Hin, elem_of_btree_keys in Hn as [sg Hn].
    apply (lookup_weaken _ _ _ _ Hn) in Hsub. apply lookup_insert_Some in Hsub. naive_solver.
Qed.

(** At most one certificate per round: along any sequence of votes and round
    changes in which the accepted rounds never move back, the rounds of the
    certificates returned increase strictly. *)
Theorem one_certificate_per_round s ops s' qcs :
  vote_run s ops = Ret (s', qcs) → rounds_advance s ops = true → StronglySorted N.lt (qc_get_round <$> qcs).
Proof.
  assert (vote_run s ops = Ret (s', qcs) → rounds_advance s ops = true →
    StronglySorted N.lt (qc_get_round <$> qcs) ∧
    Forall (λ r, vs_earliest_round s ≤ r) (qc_get_round <$> qcs)); [|naive_solver].
  revert s qcs. induction ops as [|op ops IH]; intros s qcs H Hadv.
  { injection H as <- <-. split; constructor. }
  simpl in H. apply bind_ret_inv in H as ([s1 q1] & H1 & H).
  apply bind_ret_inv in H as ([s2 q2] & H2 & [= <- <-]). simpl in Hadv. rewrite H1 in Hadv.
  apply andb_true_iff in Hadv as [Hop Hadv]. destruct (IH _ _ H2 Hadv) as [Hs Hf].
  assert (match q1 with
    | Some qc => vs_earliest_round s ≤ qc_get_round qc ∧ vs_earliest_round s1 = qc_get_round qc + 1
    | None => vs_earliest_round s ≤ vs_earliest_round s1 end) as Hq.
  { destruct op; simpl in H1; [|apply bool_decide_eq_true in Hop; by injection H1 as <- <-].
    apply process_vote_earliest in H1. destruct q1; [done|lia]. }
  destruct q1 as [qc|]; simpl.
  - destruct Hq as [Hle Heq]. rewrite Heq in Hf. split.
    + constructor; [done|]. eapply Forall_impl; [exact Hf|]. simpl. lia.
    + constructor; [done|]. eapply Forall_impl; [exact Hf|]. simpl. lia.
  - split; [done|]. eapply Forall_impl; [exact Hf|]. simpl. lia.
Qed.

(** Collecting a vote always returns: the loop that drops rejected signatures
    ends, and none of its panics is reachable when voters are in the mapping.
    If the vote is in time and its author is not excluded, either a
    certificate is returned or the votes still pending for it hold no
    super-majority. *)
Theorem process_vote_returns s a msg vs (m : ValidatorMapping) :
  let v := vm_vote msg in
  sc_laws sc_new sc_verify → vs_wf vs → vote_round v < u64_MAX → is_Some (m !! a) →
  (∀ n, is_Some (pending_for s v !! n) → is_Some (m !! n)) →
  ∃ s' q, process_vote s a msg vs m = Ret (s', q) ∧
    (vs_earliest_round s ≤ vote_round v →
     a ∉ rvs_invalid_voters (default round_vote_state_default (vs_pending_votes s !! vote_round v)) →
     is_Some q ∨ has_super_majority_votes vs (btree_keys (pending_for s' v)) = Ret (Ok false)).
Proof.
  intros v Hlaws Hwf Hmax Ha Hm.
  destruct (decide (vs_earliest_round s ≤ vote_round v)) as [He|He].
  2:{ exists s, None. unfold process_vote. fold v. rewrite bool_decide_eq_true_2 by lia. done. }
  set (rs := default round_vote_state_default (vs_pending_votes s !! vote_round v)).
  destruct (decide (a ∈ rvs_invalid_voters rs)) as [Hinv|Hinv].
  { eexists _, None. split; [|done]. unfold process_vote. fold v. fold rs.
    rewrite bool_decide_eq_false_2 by lia. cbv zeta. simpl. by rewrite bool_decide_eq_true_2. }
  set (pending := <[a := vm_sig msg]> (pending_for s v)).
  destruct (certify_loop_returns (certify_fuel pending) SdVote (rlp_vote v) (vs_earliest_round s)
    (vote_round v) vs m pending (rvs_invalid_voters rs)) as [[[sc pending'] inv'] Hl]; try done.
  - intros n [sg [[<- _]|[_ Hn]]%lookup_insert_Some]; [done|eauto].
  - unfold certify_fuel. lia.
  - destruct (process_vote_accepted s a msg vs m He Hinv Hmax sc pending' inv' Hl) as (s' & Hp & Hpf).
    exists s', (mkQC v <$> sc). split; [done|]. intros _ _. destruct sc; simpl; [left; eauto|right].
    fold v in Hpf. rewrite Hpf. by apply certify_loop_none in Hl.
Qed.
End vote_properties.

Section vote_witnesses.
Import ToyInstances.

Definition toy_vote_msg (key : N) (v : Vote) : VoteMessage :=
  mkVoteMessage v (toy_sign key SdVote (rlp_vote v) : @Signature toy_params).
Definition toy_vote : Vote := mkVote 77 5 1.

(** Node 3 has voted; the vote of node 4 completes the quorum. *)
Definition toy_vote_state : VoteState :=
  (ret_or (vote_state_new 5, None)
    (process_vote (vote_state_new 5) (3 : @NodeId toy_params) (toy_vote_msg 3 toy_vote) toy_vs toy_mapping)).1.
Definition toy_vote_result : VoteState * option QuorumCertificate :=
  ret_or (vote_state_new 5, None)
    (process_vote toy_vote_state (4 : @NodeId toy_params) (toy_vote_msg 4 toy_vote) toy_vs toy_mapping).
Definition toy_vote_qc : QuorumCertificate := default (toy_qc 0 0) toy_vote_result.2.

Lemma toy_vote_run :
  process_vote toy_vote_state (4 : @NodeId toy_params) (toy_vote_msg 4 toy_vote) toy_vs toy_mapping =
    Ret (toy_vote_result.1, Some toy_vote_qc).
Proof.
  transitivity (Ret toy_vote_result); [apply returns_ret; vm_refl|].
  assert (toy_vote_result.2 = Some toy_vote_qc) as <- by vm_refl. by destruct toy_vote_result.
Qed.

Lemma process_vote_certificate_valid_witness :
  ∃ signers, sc_verify (qc_signatures toy_vote_qc) SdVote toy_mapping (rlp_vote (qc_info toy_vote_qc)) = Ok signers ∧
    has_super_majority_votes toy_vs signers = Ret (Ok true).
Proof.
  destruct (process_vote_certificate_valid toy_vote_state (4 : @NodeId toy_params) (toy_vote_msg 4 toy_vote)
    toy_vs toy_mapping toy_vote_result.1 toy_vote_qc toy_sc_laws toy_vs_wf toy_mapping_inj toy_vote_run)
    as (_ & signers & H1 & H2 & _).
  exists signers. split; [exact H1|exact H2].
Defined.

Definition toy_vote_ops : list vote_op :=
  [VoVote (3 : @NodeId toy_params) (toy_vote_msg 3 toy_vote) toy_vs toy_mapping;
   VoVote (4 : @NodeId toy_params) (toy_vote_msg 4 toy_vote) toy_vs toy_mapping; VoNewRound 6;
   VoVote (3 : @NodeId toy_params) (toy_vote_msg 3 (mkVote 78 6 1)) toy_vs toy_mapping;
   VoVote (4 : @NodeId toy_params) (toy_vote_msg 4 (mkVote 78 6 1)) toy_vs toy_mapping].
Definition toy_vote_ops_result := ret_or (vote_state_new 5, []) (vote_run (vote_state_new 5) toy_vote_ops).

Lemma one_certificate_per_round_witness :
  length toy_vote_ops_result.2 = 2%nat ∧ StronglySorted N.lt (qc_get_round <$> toy_vote_ops_result.2).
Proof.
  split; [vm_refl|].
  apply (one_certificate_per_round (vote_state_new 5) toy_vote_ops toy_vote_ops_result.1).
  - transitivity (Ret toy_vote_ops_result); [apply returns_ret; vm_refl|].
    rewrite <- surjective_pairing. reflexivity.
  - vm_refl.
Defined.

Lemma process_vote_returns_witness : ∃ s' q,
  process_vote toy_vote_state (4 : @NodeId toy_params) (toy_vote_msg 4 toy_vote) toy_vs toy_mapping = Ret (s', q).
Proof.
  destruct (process_vote_returns toy_vote_state (4 : @NodeId toy_params) (toy_vote_msg 4 toy_vote)
    toy_vs toy_mapping) as (s' & q & H & _).
  - exact toy_sc_laws.
  - exact toy_vs_wf.
  - reflexivity.
  - exists 4. vm_refl.
  - assert (map_Forall (λ n _, is_Some (toy_mapping !! n)) (pending_for toy_vote_state toy_vote)) as Hall.
    { apply (bool_decide_unpack _).
      assert (bool_decide (map_Forall (λ n _, is_Some (toy_mapping !! n))
        (pending_for toy_vote_state toy_vote)) = true) as -> by vm_refl. exact I. }
    intros n [sg Hn]. exact (Hall n sg Hn).
  - exists s', q. exact H.
Defined.
End vote_witnesses.
