(* ===== verification/NoEndorsementState.v ===== *)
(** * No-endorsement collection (monad-consensus/src/no_endorsement_state.rs)

    Like votes, no-endorsements are collected per round (here by the round of
    the certificate the tip extends) until a super-majority gives a
    no-endorsement certificate, which is also kept with its round. The
    collecting loop is the one of vote collection ([certify_loop]) with the
    no-endorsement domain and encoding. *)
From S2P Require Import Prelude Types Interfaces MultiSig Certificates Concrete ValidatorSet VoteState.

Section no_endorsement_state.
Context `{P : Params} {CD : Codec} {SC : SignatureCollection}.

(** messages/message.rs *)
Record NoEndorsementMessage := mkNoEndorsementMessage { nem_msg : NoEndorsement; nem_signature : Signature }.

Record RoundNoEndorsementState := mkRoundNoEndorsementState {
  rnes_qc_round_no_endorsements : gmap Round (gmap NodeId Signature);
  rnes_node_no_endorsements : gmap NodeId (gset Signature);
  rnes_invalid_senders : gset NodeId;
  rnes_certificate : option NoEndorsementCertificate;
}.

Definition round_no_endorsement_default : RoundNoEndorsementState :=
  mkRoundNoEndorsementState ∅ ∅ ∅ None.

Record NoEndorsementState := mkNoEndorsementState {
  nes_pending : gmap Round RoundNoEndorsementState;
  nes_earliest_round : Round;
}.

Definition no_endorsement_state_new (round : Round) : NoEndorsementState := mkNoEndorsementState ∅ round.

Definition process_no_endorsement (s : NoEndorsementState) (author : NodeId) (m : NoEndorsementMessage)
    (validators : ValidatorSet) (validator_mapping : ValidatorMapping)
    : outcome (NoEndorsementState * option NoEndorsementCertificate) :=
  let ne := nem_msg m in
  let round := ne_round ne in
  if bool_decide (round < nes_earliest_round s) then Ret (s, None) else
  let rs := default round_no_endorsement_default (nes_pending s !! round) in
  let node_votes := default ∅ (rnes_node_no_endorsements rs !! author) in
  let rs := {| rs with rnes_node_no_endorsements :=
                 <[author := {[nem_signature m]} ∪ node_votes]> (rnes_node_no_endorsements rs) |} in
  let pending := default ∅ (rnes_qc_round_no_endorsements rs !! ne_tip_qc_round ne) in
  let store rs := {| s with nes_pending := <[round := rs]> (nes_pending s) |} in
  let set_pending p rs := {| rs with rnes_qc_round_no_endorsements :=
                               <[ne_tip_qc_round ne := p]> (rnes_qc_round_no_endorsements rs) |} in
  if bool_decide (author ∈ rnes_invalid_senders rs) then Ret (store (set_pending pending rs), None) else
  let pending := <[author := nem_signature m]> pending in
  '(sigcol, pending, invalid) ←
    certify_loop (certify_fuel pending) SdNoEndorsement (rlp_no_endorsement ne) (nes_earliest_round s) round
      validators validator_mapping pending (rnes_invalid_senders rs);
  let rs := set_pending pending rs in
  let rs := {| rs with rnes_invalid_senders := invalid |} in
  match sigcol with
  | Some sigcol =>
      let nec := mkNEC ne sigcol in
      next ← round_add round 1;
      _ ← rust_assert (bool_decide (rnes_certificate rs = None));
      let rs := {| rs with rnes_certificate := Some nec |} in
      let s' := store rs in
      Ret ({| s' with nes_earliest_round := next |}, Some nec)
  | None => Ret (store rs, None)
  end.

Definition no_endorsement_start_new_round (s : NoEndorsementState) (new_round : Round) : NoEndorsementState :=
  {| nes_earliest_round := new_round;
     nes_pending := filter (λ p, new_round ≤ p.1) (nes_pending s) |}.

Definition get_nec (s : NoEndorsementState) (round : Round) : option NoEndorsementCertificate :=
  rs ← nes_pending s !! round; rnes_certificate rs.

Definition ne_pending_for (s : NoEndorsementState) (ne : NoEndorsement) : gmap NodeId Signature :=
  default ∅ (rs ← nes_pending s !! ne_round ne; rnes_qc_round_no_endorsements rs !! ne_tip_qc_round ne).

(** Rounds that are still accepted have no certificate yet. *)
Definition ne_inv (s : NoEndorsementState) : Prop :=
  ∀ r, nes_earliest_round s ≤ r → get_nec s r = None.

(** ** Lemmas *)

Lemma ne_pending_default s ne :
  default ∅ (rnes_qc_round_no_endorsements (default round_no_endorsement_default (nes_pending s !! ne_round ne))
             !! ne_tip_qc_round ne) = ne_pending_for s ne.
Proof. unfold ne_pending_for. by destruct (nes_pending s !! ne_round ne). Qed.

Lemma get_nec_default s r :
  rnes_certificate (default round_no_endorsement_default (nes_pending s !! r)) = get_nec s r.
Proof. unfold get_nec. by destruct (nes_pending s !! r). Qed.

Lemma process_no_endorsement_some s a m vs vm s' nec :
  process_no_endorsement s a m vs vm = Ret (s', Some nec) →
  nec_msg nec = nem_msg m ∧ nes_earliest_round s ≤ ne_round (nem_msg m) ∧
  nes_earliest_round s' = ne_round (nem_msg m) + 1 ∧ get_nec s (ne_round (nem_msg m)) = None ∧
  get_nec s' (ne_round (nem_msg m)) = Some nec ∧
  (∀ r, r ≠ ne_round (nem_msg m) → get_nec s' r = get_nec s r) ∧
  ∃ voters, voters ⊆ <[a := nem_signature m]> (ne_pending_for s (nem_msg m)) ∧
    has_super_majority_votes vs (btree_keys voters) = Ret (Ok true) ∧
    sc_new SdNoEndorsement (btree_iter voters) vm (rlp_no_endorsement (nem_msg m)) = Ok (nec_signatures nec).
Proof.
  unfold process_no_endorsement. case_bool_decide as He; [done|]. cbv zeta. simpl.
  case_bool_decide as Hinv; [done|]. rewrite ne_pending_default.
  intros ([[[sc|] pending] inv] & Hl & H)%bind_ret_inv; [|done].
  apply bind_ret_inv in H as (next & [-> _]%round_add_ret & H).
  apply bind_ret_inv in H as ([] & Hc%rust_assert_ret_inv & [= <- <-]). simpl.
  apply bool_decide_eq_true in Hc. rewrite get_nec_default in Hc.
  apply certify_loop_some in Hl as (Hsub & ? & ?). split_and!; [done|lia|done|done| | |eauto].
  - unfold get_nec. simpl. by rewrite lookup_insert_eq.
  - intros r Hr. unfold get_nec. simpl. by rewrite lookup_insert_ne.
Qed.

Lemma process_no_endorsement_none s a m vs vm s' :
  process_no_endorsement s a m vs vm = Ret (s', None) →
  nes_earliest_round s' = nes_earliest_round s ∧ ∀ r, get_nec s' r = get_nec s r.
Proof.
  unfold process_no_endorsement. case_bool_decide as He; [by intros [= <-]|]. cbv zeta. simpl.
  assert (∀ rs' r, rnes_certificate rs' =
      rnes_certificate (default round_no_endorsement_default (nes_pending s !! ne_round (nem_msg m))) →
    (rs ← <[ne_round (nem_msg m) := rs']> (nes_pending s) !! r; rnes_certificate rs) = get_nec s r) as Hg.
  { intros rs' r Hr. destruct (decide (r = ne_round (nem_msg m))) as [->|].
    - rewrite lookup_insert_eq. simpl. by rewrite Hr, get_nec_default.
    - by rewrite lookup_insert_ne. }
  case_bool_decide as Hinv; [intros [= <-]; simpl; split; [done|]; intros r; by apply Hg|].
  intros ([[[sc|] pending] inv] & Hl & H)%bind_ret_inv.
  - apply bind_ret_inv in H as (? & _ & H). by apply bind_ret_inv in H as (? & _ & H).
  - injection H as <-. simpl. split; [done|]. intros r. by apply Hg.
Qed.

Lemma process_no_endorsement_inv s a m vs vm s' q :
  ne_inv s → process_no_endorsement s a m vs vm = Ret (s', q) → ne_inv s'.
Proof.
  intros Hinv H r Hr. destruct q as [nec|].
  - apply process_no_endorsement_some in H as (_ & ? & He & _ & _ & Hne & _).
    rewrite Hne by lia. apply Hinv. lia.
  - apply process_no_endorsement_none in H as [He ->]. apply Hinv. lia.
Qed.

Lemma start_new_round_inv s r :
  ne_inv s → nes_earliest_round s ≤ r → ne_inv (no_endorsement_start_new_round s r).
Proof.
  intros Hinv Hr r' Hr'. simpl in Hr'. unfold get_nec. simpl.
  specialize (Hinv r' ltac:(lia)). unfold get_nec in Hinv.
  destruct (filter _ _ !! r') as [rs|] eqn:E; [|done]. simpl.
  apply map_lookup_filter_Some in E as [E _]. by rewrite E in Hinv.
Qed.
End no_endorsement_state.

Section no_endorsement_properties.
Context `{P : Params} {CD : Codec} {SC : SignatureCollection}.

(** Every no-endorsement certificate returned verifies over the encoded
    no-endorsement, its signers hold a super-majority of the stake and were
    all collected, and it can be read back with [get_nec]. *)
Theorem process_no_endorsement_valid s a m vs (vm : ValidatorMapping) s' nec :
  sc_laws sc_new sc_verify → vs_wf vs →
  (∀ n n' pk, vm !! n = Some pk → vm !! n' = Some pk → n = n') →
  process_no_endorsement s a m vs vm = Ret (s', Some nec) →
  nec_msg nec = nem_msg m ∧ get_nec s' (ne_round (nem_msg m)) = Some nec ∧
  ∃ signers, sc_verify (nec_signatures nec) SdNoEndorsement vm (rlp_no_endorsement (nec_msg nec)) = Ok signers ∧
    has_super_majority_votes vs signers = Ret (Ok true) ∧
    ∀ n, n ∈ signers → n = a ∨ is_Some (ne_pending_for s (nem_msg m) !! n).
Proof.
  intros Hlaws Hwf Hinj (Hq & _ & _ & _ & Hg & _ & voters & Hsub & Hsup & Hsc)%process_no_endorsement_some.
  split_and!; [done..|]. rewrite Hq.
  destruct (sc_new_verify _ _ Hlaws _ _ _ _ _ Hinj Hsc) as (signers & Hv & Hin).
  exists signers. split; [done|]. change (btree_iter voters).*1 with (btree_keys voters) in Hin. split.
  - apply (super_majority_perm vs (btree_keys voters)); [done| |by intros n; rewrite Hin|done].
    by eapply (sc_verify_nodup _ _ Hlaws).
  - intros n Hn. apply Hin, elem_of_btree_keys in Hn as [sg Hn].
    apply (lookup_weaken _ _ _ _ Hn) in Hsub. apply lookup_insert_Some in Hsub. naive_solver.
Qed.

(** As long as rounds still accepted have no certificate ([ne_inv], which
    holds initially, is kept by every message and by every round change that
    does not move the earliest round back), collecting a no-endorsement
    returns: in particular the assertion that the round has no certificate
    holds. *)
Theorem process_no_endorsement_returns s a m vs (vm : ValidatorMapping) :
  sc_laws sc_new sc_verify → vs_wf vs → ne_round (nem_msg m) < u64_MAX → is_Some (vm !! a) →
  (∀ n, is_Some (ne_pending_for s (nem_msg m) !! n) → is_Some (vm !! n)) → ne_inv s →
  ∃ s' q, process_no_endorsement s a m vs vm = Ret (s', q) ∧ ne_inv s'.
Proof.
  intros Hlaws Hwf Hmax Ha Hm Hinv.
  assert (∃ s' q, process_no_endorsement s a m vs vm = Ret (s', q)) as (s' & q & Hp).
  2:{ exists s', q. split; [done|]. by eapply process_no_endorsement_inv. }
  unfold process_no_endorsement. case_bool_decide as He; [eauto|]. cbv zeta. simpl.
  case_bool_decide as Hin; [eauto|]. rewrite ne_pending_default.
  set (pending := <[a := nem_signature m]> (ne_pending_for s (nem_msg m))).
  set (rs := default round_no_endorsement_default _).
  destruct (certify_loop_returns (certify_fuel pending) SdNoEndorsement (rlp_no_endorsement (nem_msg m))
    (nes_earliest_round s) (ne_round (nem_msg m)) vs vm pending (rnes_invalid_senders rs))
    as [[[sc pending'] inv'] Hl]; try done.
  - lia.
  - intros n [sg [[<- _]|[_ Hn]]%lookup_insert_Some]; [done|eauto].
  - unfold certify_fuel. lia.
  - rewrite Hl. simpl. destruct sc as [sc|]; [|eauto].
    rewrite (proj2 (round_add_ret (ne_round (nem_msg m)) 1 (ne_round (nem_msg m) + 1))) by (split; [done|lia]).
    simpl. unfold rs. rewrite get_nec_default, Hinv by lia. rewrite bool_decide_eq_true_2 by done. simpl. eauto.
Qed.
End no_endorsement_properties.

Section no_endorsement_witnesses.
Import ToyInstances.

Definition toy_ne : NoEndorsement := mkNoEndorsement 1 10 7.
Definition toy_ne_msg (key : N) : NoEndorsementMessage :=
  mkNoEndorsementMessage toy_ne (toy_sign key SdNoEndorsement (rlp_no_endorsement toy_ne) : @Signature toy_params).
Definition toy_ne_step (s : NoEndorsementState) (key : N) :=
  process_no_endorsement s (key : @NodeId toy_params) (toy_ne_msg key) toy_vs toy_mapping.
Definition toy_ne_state : NoEndorsementState :=
  (ret_or (no_endorsement_state_new 9, None) (toy_ne_step (no_endorsement_state_new 9) 3)).1.
Definition toy_ne_result := ret_or (toy_ne_state, None) (toy_ne_step toy_ne_state 4).
Definition toy_nec : NoEndorsementCertificate :=
  default (mkNEC toy_ne ([] : @SigCol toy_params)) toy_ne_result.2.

Lemma toy_ne_run : toy_ne_step toy_ne_state 4 = Ret (toy_ne_result.1, Some toy_nec).
Proof.
  transitivity (Ret toy_ne_result); [apply returns_ret; vm_refl|].
  assert (toy_ne_result.2 = Some toy_nec) as <- by vm_refl. by destruct toy_ne_result.
Qed.

(** C38. [start_new_round] sets the earliest accepted round even when a
    certificate was already built for a later round: a node in round 9 that
    completed a no-endorsement certificate for round 10 and then enters round
    10 accepts no-endorsements for round 10 again, and the next one panics at
    the assertion that the round has no certificate. *)
Theorem reopened_round_panics : ∃ s nec,
  toy_ne_step toy_ne_state 4 = Ret (s, Some nec) ∧ nes_earliest_round s = 11 ∧
  toy_ne_step (no_endorsement_start_new_round s 10) 2 = Panic.
Proof.
  exists toy_ne_result.1, toy_nec. split; [exact toy_ne_run|]. split; vm_refl.
Qed.

Lemma process_no_endorsement_valid_witness :
  ∃ signers, sc_verify (nec_signatures toy_nec) SdNoEndorsement toy_mapping
      (rlp_no_endorsement (nec_msg toy_nec)) = Ok signers ∧
    has_super_majority_votes toy_vs signers = Ret (Ok true).
Proof.
  destruct (process_no_endorsement_valid toy_ne_state (4 : @NodeId toy_params) (toy_ne_msg 4)
    toy_vs toy_mapping toy_ne_result.1 toy_nec toy_sc_laws toy_vs_wf toy_mapping_inj toy_ne_run)
    as (_ & _ & signers & H1 & H2 & _).
  exists signers. split; [exact H1|exact H2].
Defined.

Lemma process_no_endorsement_returns_witness : ∃ s' q, toy_ne_step (no_endorsement_state_new 9) 3 = Ret (s', q).
Proof.
  destruct (process_no_endorsement_returns (no_endorsement_state_new 9) (3 : @NodeId toy_params) (toy_ne_msg 3)
    toy_vs toy_mapping) as (s' & q & H & _).
  - exact toy_sc_laws.
  - exact toy_vs_wf.
  - reflexivity.
  - exists 3. vm_refl.
  - intros n [sg Hn]. exfalso. revert Hn. exact (lookup_empty_Some n sg).
  - intros r _. reflexivity.
  - exists s', q. exact H.
Defined.
End no_endorsement_witnesses.
