(* ===== verification/Epochs.v ===== *)
(** * Epochs (monad-validator/src/epoch_manager.rs, validators_epoch_mapping.rs)

    [EpochManager] records the round at which each epoch starts;
    [ValidatorsEpochMapping] records the validator set and the certificate keys
    of each epoch. Both accept a second, identical insertion (a node that
    restarts commits the same boundary block again) and panic on a
    contradictory one. *)
From S2P Require Import Prelude Types Interfaces ValidatorSet.

Record EpochManager := mkEpochManager {
  epoch_length : SeqNum;
  epoch_start_delay : Round;
  epoch_starts : gmap Epoch Round;
}.

(** [Entry::Vacant] inserts, [Entry::Occupied] asserts equality. *)
Definition insert_epoch_start (em : EpochManager) (epoch : Epoch) (round : Round)
    : outcome EpochManager :=
  match epoch_starts em !! epoch with
  | None => Ret {| em with epoch_starts := <[epoch := round]> (epoch_starts em) |}
  | Some r => if bool_decide (r = round) then Ret em else Panic
  end.

Fixpoint insert_epoch_starts (em : EpochManager) (known : list (Epoch * Round))
    : outcome EpochManager :=
  match known with
  | [] => Ret em
  | (epoch, round) :: known => em' ← insert_epoch_start em epoch round; insert_epoch_starts em' known
  end.

(** [EpochManager::new]. *)
Definition epoch_manager_new (len : SeqNum) (delay : Round) (known : list (Epoch * Round))
    : outcome EpochManager :=
  insert_epoch_starts (mkEpochManager len delay ∅) known.

Definition schedule_epoch_start (em : EpochManager) (block_num : SeqNum) (block_round : Round)
    : outcome EpochManager :=
  boundary ← is_boundary_block block_num (epoch_length em);
  if boundary : bool then
    e ← to_epoch block_num (epoch_length em);
    next_epoch ← epoch_add e 1;
    epoch_start_round ← round_add block_round (epoch_start_delay em);
    insert_epoch_start em next_epoch epoch_start_round
  else Ret em.

(** [epoch_starts.iter().rfind(|k| k.1 <= round)]: from the last epoch down. *)
Definition get_epoch (em : EpochManager) (round : Round) : option Epoch :=
  fst <$> List.find (λ k, bool_decide (k.2 ≤ round)) (reverse (btree_iter (epoch_starts em))).

Section epoch_mapping.
Context `{P : Params}.

Record ValidatorsEpochMapping := mkValidatorsEpochMapping {
  validator_map : gmap Epoch (ValidatorSet * ValidatorMapping);
}.

Definition epoch_mapping_new : ValidatorsEpochMapping := mkValidatorsEpochMapping ∅.

Definition get_val_set (m : ValidatorsEpochMapping) (epoch : Epoch) : option ValidatorSet :=
  fst <$> validator_map m !! epoch.

Definition get_cert_pubkeys (m : ValidatorsEpochMapping) (epoch : Epoch) : option ValidatorMapping :=
  snd <$> validator_map m !! epoch.

(** [ValidatorsEpochMapping::insert]: [create(..).expect(..)], then insert or
    assert that members and keys are the recorded ones. *)
Definition epoch_mapping_insert (m : ValidatorsEpochMapping) (epoch : Epoch)
    (val_stakes : list (NodeId * Stake)) (val_cert_pubkeys : ValidatorMapping)
    : outcome ValidatorsEpochMapping :=
  r ← create val_stakes;
  match r with
  | Err _ => Panic
  | Ok vs =>
      match validator_map m !! epoch with
      | None => Ret (mkValidatorsEpochMapping (<[epoch := (vs, val_cert_pubkeys)]> (validator_map m)))
      | Some (vs0, keys0) =>
          _ ← rust_assert (bool_decide (validators vs0 = validators vs));
          _ ← rust_assert (bool_decide (keys0 = val_cert_pubkeys));
          Ret m
      end
  end.

(** Every recorded validator set is one [create] accepted. *)
Definition epoch_mapping_wf (m : ValidatorsEpochMapping) : Prop :=
  map_Forall (λ _ v, vs_wf v.1) (validator_map m).
End epoch_mapping.

(** ** Lemmas *)

(** [get_epoch] is the greatest recorded epoch that has started. *)
Lemma get_epoch_Some em r e :
  get_epoch em r = Some e ↔
    ∃ s, epoch_starts em !! e = Some s ∧ s ≤ r ∧
      ∀ e' s', epoch_starts em !! e' = Some s' → s' ≤ r → e' ≤ e.
Proof.
  unfold get_epoch. rewrite fmap_Some. split.
  - intros ([e0 s] & (Hs & Hle & Hmax)%btree_rfind_Some & ->).
    apply bool_decide_eq_true in Hle. exists s. split_and!; [done..|].
    intros e' s' He' Hs'. apply (Hmax e' s'); [done|by apply bool_decide_eq_true].
  - intros (s & Hs & Hle & Hmax). destruct (List.find _ _) as [[e0 s0]|] eqn:Hf.
    + exists (e0, s0). split; [done|]. apply btree_rfind_Some in Hf as (Hs0 & Hle0 & Hmax0).
      apply bool_decide_eq_true in Hle0. apply N.le_antisymm; [|by eapply Hmax].
      apply (Hmax0 e s); [done|by apply bool_decide_eq_true].
    + assert ((e, s) ∈ reverse (btree_iter (epoch_starts em))) as Hin
        by by rewrite elem_of_reverse, elem_of_btree_iter.
      apply list_elem_of_In in Hin. apply (List.find_none _ _ Hf) in Hin.
      by apply bool_decide_eq_false in Hin.
Qed.

Lemma get_epoch_None em r :
  get_epoch em r = None ↔ ∀ e s, epoch_starts em !! e = Some s → r < s.
Proof.
  unfold get_epoch. rewrite fmap_None. split.
  - intros Hf e s He. assert ((e, s) ∈ reverse (btree_iter (epoch_starts em))) as Hin
        by by rewrite elem_of_reverse, elem_of_btree_iter.
    apply list_elem_of_In in Hin. apply (List.find_none _ _ Hf) in Hin.
    apply bool_decide_eq_false in Hin. simpl in Hin. lia.
  - intros Hall. destruct (List.find _ _) as [[e s]|] eqn:Hf; [|done].
    apply btree_rfind_Some in Hf as (He & Hle & _). apply bool_decide_eq_true in Hle.
    specialize (Hall _ _ He). simpl in *. lia.
Qed.

Lemma get_epoch_later em r r' e :
  r ≤ r' → get_epoch em r = Some e → ∃ e', get_epoch em r' = Some e' ∧ e ≤ e'.
Proof.
  intros Hr (s & Hs & Hle & Hmax)%get_epoch_Some.
  destruct (get_epoch em r') as [e'|] eqn:He'.
  - exists e'. split; [done|]. apply get_epoch_Some in He' as (s' & _ & _ & Hmax').
    apply (Hmax' e s Hs). lia.
  - rewrite get_epoch_None in He'. specialize (He' _ _ Hs). lia.
Qed.

Lemma insert_epoch_start_ret em e r em' :
  insert_epoch_start em e r = Ret em' ↔
    (epoch_starts em !! e = None ∨ epoch_starts em !! e = Some r) ∧
    em' = {| em with epoch_starts := <[e := r]> (epoch_starts em) |}.
Proof.
  unfold insert_epoch_start. destruct (epoch_starts em !! e) as [r0|] eqn:He; [|naive_solver].
  case_bool_decide as Hr; [subst r0|naive_solver].
  assert (em = {| em with epoch_starts := <[e:=r]> (epoch_starts em) |}) as Hem.
  { rewrite insert_id by done. by destruct em. }
  rewrite <- Hem. naive_solver.
Qed.

Lemma schedule_epoch_start_boundary em n r :
  0 < epoch_length em → n + 1 < u64_MAX → n `mod` epoch_length em = epoch_length em - 1 →
  r + epoch_start_delay em ≤ u64_MAX →
  schedule_epoch_start em n r =
    insert_epoch_start em (n / epoch_length em + 2) (r + epoch_start_delay em).
Proof.
  intros Hlen Hn Hb Hr. unfold schedule_epoch_start.
  rewrite is_boundary_block_ret, to_epoch_ret by lia. cbn -[N.div N.modulo].
  rewrite bool_decide_eq_true_2 by done.
  assert (n / epoch_length em ≤ n) by (apply N.Div0.div_le_upper_bound; nia).
  unfold epoch_add, round_add, checked_add. cbn -[N.div N.modulo].
  rewrite decide_True by lia. cbn -[N.div N.modulo].
  rewrite decide_True by lia. cbn -[N.div N.modulo]. f_equal. lia.
Qed.

Section epoch_mapping_lemmas.
Context `{P : Params}.

Lemma epoch_mapping_insert_ret m e stakes keys m' :
  epoch_mapping_insert m e stakes keys = Ret m' →
  ∃ vs, create stakes = Ret (Ok vs) ∧
    ((validator_map m !! e = None ∧
      m' = mkValidatorsEpochMapping (<[e := (vs, keys)]> (validator_map m))) ∨
     (∃ vs0, validator_map m !! e = Some (vs0, keys) ∧ validators vs0 = validators vs ∧ m' = m)).
Proof.
  unfold epoch_mapping_insert. intros H. apply bind_ret_inv in H as ([vs|] & Hc & H); [|done].
  exists vs. split; [done|]. destruct (validator_map m !! e) as [[vs0 keys0]|] eqn:He.
  - monad_inv H. case_bool_decide; [|done]. case_bool_decide; [|done]. subst. simplify_eq. eauto.
  - injection H as <-. auto.
Qed.
End epoch_mapping_lemmas.

(** ** Properties *)

(** The epoch of a round never decreases as rounds increase, and once some
    epoch has started every later round has an epoch. *)
Theorem get_epoch_monotone em r r' e :
  r ≤ r' → get_epoch em r = Some e → ∃ e', get_epoch em r' = Some e' ∧ e ≤ e'.
Proof. apply get_epoch_later. Qed.

(** Committing a boundary block schedules the next epoch [epoch_start_delay]
    rounds later: if no later epoch is recorded, rounds from there on are in
    the next epoch and all earlier rounds keep their epoch. Committing the
    same block again (after a restart) changes nothing, and committing it with
    another round panics. *)
Theorem schedule_epoch_start_extends em n r :
  let next := n / epoch_length em + 2 in
  let start := r + epoch_start_delay em in
  0 < epoch_length em → n + 1 < u64_MAX → n `mod` epoch_length em = epoch_length em - 1 →
  start ≤ u64_MAX → map_Forall (λ e _, e < next) (epoch_starts em) →
  ∃ em', schedule_epoch_start em n r = Ret em' ∧
    (∀ x, get_epoch em' x = if decide (start ≤ x) then Some next else get_epoch em x) ∧
    schedule_epoch_start em' n r = Ret em' ∧
    ∀ r', r' ≠ r → r' + epoch_start_delay em ≤ u64_MAX → schedule_epoch_start em' n r' = Panic.
Proof.
  intros next start Hlen Hn Hb Hr Hlt.
  assert (epoch_starts em !! next = None) as Hnone.
  { destruct (epoch_starts em !! next) as [s|] eqn:E; [|done]. apply Hlt in E. lia. }
  set (em' := {| em with epoch_starts := <[next := start]> (epoch_starts em) |}).
  exists em'. split.
  { rewrite schedule_epoch_start_boundary by done. apply insert_epoch_start_ret. auto. }
  split; [|split].
  - intros x. case_decide as Hx.
    + apply get_epoch_Some. exists start. simpl. rewrite lookup_insert_eq.
      split_and!; [done..|]. intros e' s' [[-> _]|[_ He']]%lookup_insert_Some _; [done|].
      apply Hlt in He'. lia.
    + destruct (get_epoch em x) as [e|] eqn:He.
      * apply get_epoch_Some in He as (s & Hs & Hle & Hmax). apply get_epoch_Some. exists s. simpl.
        rewrite lookup_insert_ne by congruence. split_and!; [done..|].
        intros e' s' [[-> <-]|[_ He']]%lookup_insert_Some Hs'; [lia|eauto].
      * rewrite get_epoch_None in *. simpl.
        intros e' s' [[-> <-]|[_ He']]%lookup_insert_Some; [lia|eauto].
  - rewrite schedule_epoch_start_boundary by done. unfold insert_epoch_start. simpl.
    fold next start. rewrite lookup_insert_eq. by rewrite bool_decide_eq_true_2.
  - intros r' Hne Hr'. rewrite schedule_epoch_start_boundary by done. unfold insert_epoch_start.
    simpl. fold next. rewrite lookup_insert_eq. rewrite bool_decide_eq_false_2; [done|]. lia.
Qed.

Definition toy_epochs : EpochManager := mkEpochManager 100 10 {[1 := 0; 2 := 130]}.

Lemma get_epoch_monotone_witness : ∃ e', get_epoch toy_epochs 200 = Some e' ∧ 1 ≤ e'.
Proof. apply (get_epoch_monotone toy_epochs 5 200 1); [lia|reflexivity]. Defined.

Lemma schedule_epoch_start_extends_witness :
  ∃ em', schedule_epoch_start toy_epochs 199 230 = Ret em' ∧ get_epoch em' 240 = Some 3.
Proof.
  destruct (schedule_epoch_start_extends toy_epochs 199 230) as (em' & Hs & Hg & _).
  - reflexivity.
  - reflexivity.
  - reflexivity.
  - discriminate.
  - apply (bool_decide_unpack _). exact I.
  - exists em'. split; [exact Hs|]. rewrite Hg. reflexivity.
Defined.

Section epoch_mapping_properties.
Context `{P : Params}.

(** Recording the validator set of an epoch keeps every recorded set well
    formed, makes the epoch's set and keys readable, leaves the other epochs
    alone, and can be repeated without effect. *)
Theorem epoch_mapping_insert_lookup m e stakes keys m' :
  epoch_mapping_wf m → epoch_mapping_insert m e stakes keys = Ret m' →
  epoch_mapping_wf m' ∧
  (∃ vs vs0, create stakes = Ret (Ok vs) ∧ get_val_set m' e = Some vs0 ∧
    validators vs0 = validators vs ∧ total_stake vs0 = total_stake vs) ∧
  get_cert_pubkeys m' e = Some keys ∧
  (∀ e', e' ≠ e → validator_map m' !! e' = validator_map m !! e') ∧
  epoch_mapping_insert m' e stakes keys = Ret m'.
Proof.
  intros Hwf (vs & Hc & Hm)%epoch_mapping_insert_ret. pose proof (create_wf _ _ Hc) as Hvs.
  unfold get_val_set, get_cert_pubkeys, epoch_mapping_insert, epoch_mapping_wf. rewrite Hc.
  destruct Hm as [[Hnone ->]|(vs0 & He & Heq & ->)]; simpl.
  - rewrite lookup_insert_eq. simpl. rewrite !bool_decide_eq_true_2 by done.
    split_and!; [by apply map_Forall_insert_2|eauto 6|done| |done].
    intros e' Hne. by rewrite lookup_insert_ne.
  - rewrite He. simpl. rewrite !bool_decide_eq_true_2 by done.
    split_and!; [done| |done|done|done]. exists vs, vs0. split_and!; try done.
    apply Hwf in He. simpl in He. rewrite (vs_wf_total _ He), (vs_wf_total _ Hvs). by rewrite Heq.
Qed.
End epoch_mapping_properties.

Lemma epoch_mapping_insert_lookup_witness : ∃ m' : @ValidatorsEpochMapping toy_params,
  epoch_mapping_insert (P:=toy_params) epoch_mapping_new 1 [(1, 10); (2, 20)] {[1 := 1; 2 := 2]} = Ret m' ∧
  get_cert_pubkeys (P:=toy_params) m' 1 = Some {[1 := 1; 2 := 2]}.
Proof.
  eexists. split; [reflexivity|].
  apply (epoch_mapping_insert_lookup (P:=toy_params) epoch_mapping_new 1 [(1, 10); (2, 20)]
           {[1 := 1; 2 := 2]}); [apply map_Forall_empty|reflexivity].
Defined.
