(* ===== verification/Leader.v ===== *)
(** * Leader election (monad-validator/src/weighted_round_robin.rs,
      simple_round_robin.rs, leader_election.rs)

    The weighted schedule draws an index below the total stake from a
    generator seeded with the round, by rejection sampling, and finds the
    validator whose stake interval contains it by binary search over the
    prefix sums. The generator (ChaCha20) is third-party code: [draws round i]
    is the [i]-th 256-bit little-endian number it yields for that seed. The
    drawing loop has no bound in the source; here it has fuel. *)
From S2P Require Import Prelude Types Interfaces ValidatorSet.

(** [U256::MAX - (U256::MAX - m + 1) % m]: the largest accepted draw. *)
Definition randomize_max (m : N) : outcome N :=
  if bool_decide (m = 0) then Panic
  else Ret (U256_MAX - wrapping_add256 (U256_MAX - m) 1 `mod` m).

Fixpoint randomize_loop (fuel : nat) (draw : nat → N) (i : nat) (max m : N) : outcome N :=
  match fuel with
  | O => OutOfFuel
  | S fuel =>
      let r := draw i in
      if bool_decide (r ≤ max) then Ret (r `mod` m) else randomize_loop fuel draw (S i) max m
  end.

Definition randomize_256_with_rng (fuel : nat) (draw : nat → N) (m : N) : outcome N :=
  max ← randomize_max m;
  randomize_loop fuel draw 0 max m.

(** The loop of the standard library's [binary_search_by], for a comparator
    that answers [Greater] ([true]) or [Less] ([false]) and never [Equal]. *)
Fixpoint binary_search_loop (fuel : nat) (greater : nat → bool) (size base : nat) : nat :=
  match fuel with
  | O => base
  | S fuel =>
      if decide (size ≤ 1)%nat then base else
      let half := (size / 2)%nat in
      let mid := (base + half)%nat in
      binary_search_loop fuel greater (size - half) (if greater mid then base else mid)
  end.

(** [.binary_search_by(..).unwrap_err()]: the insertion point. *)
Definition binary_search_insertion {A} (l : list A) (greater : A → bool) : nat :=
  let g i := match l !! i with Some x => greater x | None => true end in
  if decide (length l = 0)%nat then 0%nat else
  let base := binary_search_loop (length l) g (length l) 0 in
  if g base then base else S base.

Section leader.
Context `{P : Params}.

(** The [filter_map] with its captured running total. *)
Fixpoint stake_bounds (l : list (NodeId * Stake)) (total : N) : list (NodeId * N) * N :=
  match l with
  | [] => ([], total)
  | (node_id, stake) :: l =>
      if bool_decide (0 < stake) then
        let total := wrapping_add256 total stake in
        let '(bounds, final) := stake_bounds l total in
        ((node_id, total) :: bounds, final)
      else stake_bounds l total
  end.

Definition pick_validator (bounds : list (NodeId * N)) (stake_index : N) : outcome NodeId :=
  let upper_bound := binary_search_insertion bounds (λ b, bool_decide (stake_index < b.2)) in
  expect (fst <$> bounds !! upper_bound).

Definition generate_random_validator_with_randomizer (l : list (NodeId * Stake))
    (randomize_from_total_stake : N → outcome N) : outcome NodeId :=
  let '(bounds, total) := stake_bounds l 0 in
  if bool_decide (bounds = []) then Panic else
  stake_index ← randomize_from_total_stake total;
  pick_validator bounds stake_index.

(** [WeightedRoundRobin::get_leader]. *)
Definition weighted_get_leader (draws : Round → nat → N) (fuel : nat) (round : Round)
    (vals : gmap NodeId Stake) : outcome NodeId :=
  generate_random_validator_with_randomizer (btree_iter vals)
    (randomize_256_with_rng fuel (draws round)).

(** [SimpleRoundRobin::get_leader]. *)
Definition simple_get_leader (round : Round) (vals : gmap NodeId Stake) : outcome NodeId :=
  let keys := btree_keys vals in
  if bool_decide (keys = []) then Panic
  else expect (keys !! (N.to_nat (round `mod` N.of_nat (length keys)))).

(** The trait [LeaderElection], and its two implementations. *)
Class LeaderElection := { get_leader : Round → gmap NodeId Stake → outcome NodeId }.

Definition weighted_round_robin (draws : Round → nat → N) (fuel : nat) : LeaderElection :=
  {| get_leader := weighted_get_leader draws fuel |}.
Definition simple_round_robin : LeaderElection := {| get_leader := simple_get_leader |}.
End leader.

(** ** Lemmas *)

Lemma binary_search_loop_spec g (k fuel size base : nat) :
  (∀ i, g i = false ↔ (i < k)%nat) → (size ≤ fuel)%nat → (1 ≤ size)%nat →
  (base = 0 ∨ base < k)%nat → (k ≤ base + size)%nat →
  let b := binary_search_loop fuel g size base in
  (b = 0 ∨ b < k)%nat ∧ (k ≤ b + 1)%nat.
Proof.
  intros Hg. revert size base. induction fuel as [|fuel IH]; intros size base Hf Hs Hb Hk;
    cbn -[Nat.div]; [lia|].
  case_decide; [lia|].
  assert (1 ≤ size / 2 ∧ size / 2 < size)%nat
    by (split; [apply Nat.div_str_pos|apply Nat.div_lt]; lia).
  pose proof (Nat.Div0.mul_div_le size 2).
  destruct (g (base + size / 2)%nat) eqn:Hm.
  - assert (¬ (base + size / 2 < k)%nat) by (rewrite <- Hg; congruence). apply IH; lia.
  - apply Hg in Hm. apply IH; lia.
Qed.

(** On a list split by a monotone predicate the insertion point is the length
    of the part below. *)
Lemma binary_search_insertion_spec {A} (f : A → bool) l1 l2 :
  Forall (λ x, f x = false) l1 → Forall (λ x, f x = true) l2 →
  binary_search_insertion (l1 ++ l2) f = length l1.
Proof.
  intros H1 H2. unfold binary_search_insertion. cbv zeta. rewrite length_app.
  set (g := λ i, match (l1 ++ l2) !! i with Some x => f x | None => true end).
  assert (∀ i, g i = false ↔ (i < length l1)%nat) as Hg.
  { intros i. unfold g. destruct (decide (i < length l1)%nat) as [Hi|Hi].
    - rewrite lookup_app_l by done. destruct (lookup_lt_is_Some_2 l1 i Hi) as [x Hx].
      rewrite Hx. rewrite Forall_lookup in H1. specialize (H1 _ _ Hx). tauto.
    - rewrite lookup_app_r by lia. rewrite Forall_lookup in H2.
      destruct (l2 !! (i - length l1)%nat) eqn:Hx; [rewrite (H2 _ _ Hx)|]; intuition (done || lia). }
  case_decide; [lia|].
  destruct (binary_search_loop_spec g (length l1) (length l1 + length l2) (length l1 + length l2) 0)
    as [Hb1 Hb2]; [done|lia..|].
  set (b := binary_search_loop _ g _ 0) in *.
  change ((if g b then b else S b) = length l1). destruct (g b) eqn:Hgb; [|apply Hg in Hgb; lia].
  assert (¬ (b < length l1)%nat) by (rewrite <- Hg; congruence). lia.
Qed.

Section leader_lemmas.
Context `{P : Params}.
Implicit Types l : list (NodeId * Stake).

Lemma stake_bounds_cons n s l t : 0 < s → t + s ≤ U256_MAX →
  stake_bounds ((n, s) :: l) t =
    ((n, t + s) :: (stake_bounds l (t + s)).1, (stake_bounds l (t + s)).2).
Proof.
  intros Hs Ht. cbn [stake_bounds]. rewrite bool_decide_eq_true_2 by done.
  assert (wrapping_add256 t s = t + s) as ->.
  { apply N.mod_small. unfold U256_MAX in Ht. assert (U256_MOD ≠ 0) by done. lia. }
  by destruct (stake_bounds l (t + s)).
Qed.

(** Without overflow the bounds are the prefix sums. *)
Lemma stake_bounds_spec l t : Forall (λ p, 0 < p.2) l → t + sumN l.*2 ≤ U256_MAX →
  (stake_bounds l t).2 = t + sumN l.*2 ∧
  (∀ b, b ∈ (stake_bounds l t).1 → t < b.2 ∧ b.2 ≤ t + sumN l.*2) ∧
  (stake_bounds l t).1.*1 = l.*1.
Proof.
  revert t. induction l as [|[n s] l IH]; intros t Hpos Hsum.
  { split_and!; [symmetry; apply N.add_0_r|set_solver|done]. }
  rewrite fmap_cons, sumN_cons in Hsum. apply Forall_cons in Hpos as [Hs Hpos]. simpl in Hs, Hsum.
  rewrite stake_bounds_cons by lia.
  destruct (IH (t + s) Hpos ltac:(lia)) as (H1 & H2 & H3).
  rewrite !fmap_cons, sumN_cons. simpl. split_and!; [lia| |by f_equal].
  intros b [->|Hb]%elem_of_cons; simpl; [lia|]. specialize (H2 _ Hb). lia.
Qed.

Lemma stake_bounds_app l1 l2 t :
  (stake_bounds (l1 ++ l2) t).1 =
    (stake_bounds l1 t).1 ++ (stake_bounds l2 (stake_bounds l1 t).2).1.
Proof.
  revert t. induction l1 as [|[n s] l1 IH]; intros t; simpl; [done|].
  case_bool_decide; [|done]. specialize (IH (wrapping_add256 t s)).
  destruct (stake_bounds (l1 ++ l2) _), (stake_bounds l1 _). simpl in *. by rewrite IH.
Qed.

(** The chosen validator is the one whose interval contains the index. *)
Lemma pick_validator_interval l1 n s l2 idx :
  let l := l1 ++ (n, s) :: l2 in
  Forall (λ p, 0 < p.2) l → sumN l.*2 ≤ U256_MAX →
  sumN l1.*2 ≤ idx → idx < sumN l1.*2 + s →
  pick_validator (stake_bounds l 0).1 idx = Ret n.
Proof.
  intros l Hpos Hsum Hlo Hhi. unfold l in *.
  rewrite fmap_app, sumN_app, fmap_cons, sumN_cons in Hsum. simpl in Hsum.
  apply Forall_app in Hpos as [Hp1 [Hs Hp2]%Forall_cons]. simpl in Hs.
  destruct (stake_bounds_spec l1 0 Hp1 ltac:(lia)) as (Ht1 & Hu1 & _).
  rewrite stake_bounds_app, Ht1, N.add_0_l, stake_bounds_cons by lia. simpl.
  destruct (stake_bounds_spec l2 (sumN l1.*2 + s) Hp2 ltac:(lia)) as (_ & Hl & _).
  unfold pick_validator. rewrite binary_search_insertion_spec.
  - by rewrite lookup_app_r, Nat.sub_diag by done.
  - apply Forall_forall. intros b Hb. apply bool_decide_eq_false. specialize (Hu1 b Hb). lia.
  - constructor; [by apply bool_decide_eq_true|]. apply Forall_forall. intros b Hb.
    apply bool_decide_eq_true. specialize (Hl b Hb). lia.
Qed.

Lemma randomize_max_spec m : 0 < m → m ≤ U256_MAX →
  ∃ max, randomize_max m = Ret max ∧ (max + 1) `mod` m = 0 ∧ U256_MAX < 2 * (max + 1) ∧ max ≤ U256_MAX.
Proof.
  intros Hm HM. unfold randomize_max, wrapping_add256. rewrite bool_decide_eq_false_2 by lia.
  eexists. split; [done|]. unfold U256_MAX in *. set (M := U256_MOD) in *.
  assert (M ≠ 0) by done. clearbody M. rewrite (N.mod_small (M - 1 - m + 1)) by lia.
  replace (M - 1 - m + 1) with (M - m) by lia.
  pose proof (N.div_mod (M - m) m ltac:(lia)) as Hd. pose proof (N.mod_lt (M - m) m ltac:(lia)).
  set (q := (M - m) / m) in *. set (r := (M - m) `mod` m) in *. clearbody q r.
  replace (M - 1 - r + 1) with ((q + 1) * m) by nia.
  split_and!; [apply N.Div0.mod_mul|nia|lia].
Qed.

Lemma randomize_loop_first fuel draw i max m k :
  (k < fuel)%nat → draw (i + k)%nat ≤ max → (∀ j, (j < k)%nat → max < draw (i + j)%nat) →
  randomize_loop fuel draw i max m = Ret (draw (i + k)%nat `mod` m).
Proof.
  revert i k. induction fuel as [|fuel IH]; intros i k Hk Hd Hrej; [lia|]. simpl.
  destruct k as [|k].
  - rewrite Nat.add_0_r in *. by rewrite bool_decide_eq_true_2.
  - rewrite bool_decide_eq_false_2.
    2:{ specialize (Hrej 0%nat ltac:(lia)). rewrite Nat.add_0_r in Hrej. lia. }
    replace (i + S k)%nat with (S i + k)%nat in * by lia. apply IH; [lia|done|].
    intros j Hj. specialize (Hrej (S j) ltac:(lia)). by replace (S i + j)%nat with (i + S j)%nat by lia.
Qed.
End leader_lemmas.

Section leader_properties.
Context `{P : Params}.

Lemma interval_exists (l : list (NodeId * Stake)) idx : idx < sumN l.*2 →
  ∃ l1 n s l2, l = l1 ++ (n, s) :: l2 ∧ sumN l1.*2 ≤ idx ∧ idx < sumN l1.*2 + s.
Proof.
  revert idx. induction l as [|[n s] l IH]; intros idx Hi.
  { change (sumN [].*2) with 0 in Hi. lia. }
  rewrite fmap_cons, sumN_cons in Hi. simpl in Hi. destruct (decide (idx < s)).
  - exists [], n, s, l. change (sumN [].*2) with 0. split; [done|lia].
  - destruct (IH (idx - s) ltac:(lia)) as (l1 & n' & s' & l2 & -> & ? & ?).
    exists ((n, s) :: l1), n', s', l2. rewrite fmap_cons, sumN_cons. simpl. split; [done|lia].
Qed.

Lemma vs_wf_btree vs : vs_wf vs →
  Forall (λ p, 0 < p.2) (btree_iter (validators vs)) ∧
  sumN (btree_iter (validators vs)).*2 = total_stake vs ∧ 0 < total_stake vs.
Proof.
  intros [Htot Hmax Hpos Hne]. rewrite btree_iter_perm, <- Htot. split_and!; [|done|].
  - apply Forall_forall. intros [n s] Hin%elem_of_map_to_list. by apply (Hpos n).
  - apply map_choose in Hne as (n & s & Hn). pose proof (Hpos n s Hn).
    assert (s ≤ total_stake vs); [|simpl in *; lia]. rewrite Htot. apply sumN_elem.
    apply list_elem_of_fmap. exists (n, s). by rewrite elem_of_map_to_list.
Qed.

(** Stake-proportional leader choice: for positive stakes whose sum fits in
    256 bits, the binary search over the prefix sums picks validator [n] for
    the index [idx] exactly when [idx] lies in [n]'s stake interval; so each
    validator is chosen for as many indices as it has stake. *)
Theorem pick_validator_proportional (l : list (NodeId * Stake)) idx n :
  Forall (λ p, 0 < p.2) l → sumN l.*2 ≤ U256_MAX → idx < sumN l.*2 →
  pick_validator (stake_bounds l 0).1 idx = Ret n ↔
    ∃ l1 s l2, l = l1 ++ (n, s) :: l2 ∧ sumN l1.*2 ≤ idx ∧ idx < sumN l1.*2 + s.
Proof.
  intros Hpos Hsum Hidx. split.
  - intros Hp. destruct (interval_exists l idx Hidx) as (l1 & n' & s & l2 & -> & Hlo & Hhi).
    rewrite (pick_validator_interval l1 n' s l2 idx) in Hp by done. injection Hp as ->. eauto 6.
  - intros (l1 & s & l2 & -> & Hlo & Hhi). by apply (pick_validator_interval l1 n s l2).
Qed.

(** The accepted draws split evenly over the residues: the number of accepted
    draws is a multiple of the modulus, and more than half of all 256-bit
    draws are accepted. *)
Theorem rejection_bound_is_uniform m : 0 < m → m ≤ U256_MAX →
  ∃ max, randomize_max m = Ret max ∧ (max + 1) `mod` m = 0 ∧
    U256_MAX < 2 * (max + 1) ∧ max ≤ U256_MAX.
Proof. apply randomize_max_spec. Qed.

Lemma weighted_leader_spec draws fuel round vs max k :
  vs_wf vs → randomize_max (total_stake vs) = Ret max → (k < fuel)%nat →
  draws round k ≤ max → (∀ j, (j < k)%nat → max < draws round j) →
  ∃ l1 n s l2, btree_iter (validators vs) = l1 ++ (n, s) :: l2 ∧
    weighted_get_leader draws fuel round (validators vs) = Ret n ∧
    validators vs !! n = Some s ∧ 0 < s ∧
    let idx := draws round k `mod` total_stake vs in
    sumN l1.*2 ≤ idx ∧ idx < sumN l1.*2 + s.
Proof.
  intros Hwf Hmax Hk Hd Hrej. destruct (vs_wf_btree vs Hwf) as (Hpos & Hsum & Htot).
  pose proof (vs_wf_max vs Hwf) as Hle. set (idx := draws round k `mod` total_stake vs).
  assert (idx < total_stake vs) as Hidx by (apply N.mod_lt; lia). rewrite <- Hsum in Hidx.
  destruct (interval_exists _ _ Hidx) as (l1 & n & s & l2 & Hl & Hlo & Hhi).
  assert ((n, s) ∈ btree_iter (validators vs)) as Hin by (rewrite Hl; set_solver).
  exists l1, n, s, l2. split; [done|]. split; [|split_and!; [| |done]].
  - unfold weighted_get_leader, generate_random_validator_with_randomizer.
    pose proof (stake_bounds_spec _ 0 Hpos ltac:(lia)) as (Ht & _ & Hn).
    pose proof (pick_validator_interval l1 n s l2 idx) as Hp. cbv zeta in Hp. rewrite <- Hl in Hp.
    specialize (Hp Hpos ltac:(lia) Hlo Hhi).
    destruct (stake_bounds _ 0) as [bounds total]. simpl in *. subst total.
    rewrite bool_decide_eq_false_2.
    2:{ intros ->. rewrite Hl, fmap_app in Hn. by destruct l1. }
    unfold randomize_256_with_rng. rewrite Hsum, N.add_0_l, Hmax. simpl.
    rewrite (randomize_loop_first _ _ _ _ _ k) by done. simpl. by rewrite <- Hp.
  - by apply elem_of_btree_iter.
  - rewrite Forall_forall in Hpos. by apply Hpos in Hin.
Qed.

(** On a well-formed validator set the election returns as soon as one draw
    is accepted: the leader is a member with positive stake, the one whose
    stake interval contains the first accepted draw modulo the total. *)
Theorem weighted_leader_elected draws fuel round vs max k :
  vs_wf vs → randomize_max (total_stake vs) = Ret max → (k < fuel)%nat →
  draws round k ≤ max → (∀ j, (j < k)%nat → max < draws round j) →
  ∃ l1 n s l2, btree_iter (validators vs) = l1 ++ (n, s) :: l2 ∧
    weighted_get_leader draws fuel round (validators vs) = Ret n ∧
    validators vs !! n = Some s ∧ 0 < s ∧
    let idx := draws round k `mod` total_stake vs in
    sumN l1.*2 ≤ idx ∧ idx < sumN l1.*2 + s.
Proof. apply weighted_leader_spec. Qed.

(** The simple schedule is fair: over any [n] consecutive rounds each of the
    [n] members leads exactly once. *)
Theorem simple_round_robin_fair (vals : gmap NodeId Stake) r0 n :
  is_Some (vals !! n) →
  ∃ r, (r0 ≤ r ∧ r < r0 + N.of_nat (size vals)) ∧ simple_get_leader r vals = Ret n ∧
    ∀ r', r0 ≤ r' → r' < r0 + N.of_nat (size vals) → simple_get_leader r' vals = Ret n → r' = r.
Proof.
  intros Hn. apply elem_of_btree_keys in Hn. pose proof (btree_keys_nodup vals) as Hnd.
  assert (length (btree_keys vals) = size vals) as Hlen.
  { unfold btree_keys. rewrite length_fmap. rewrite btree_iter_perm. by apply length_map_to_list. }
  unfold simple_get_leader. rewrite bool_decide_eq_false_2 by (intros Hk; rewrite Hk in Hn; set_solver).
  set (keys := btree_keys vals) in *. rewrite Hlen.
  set (L := N.of_nat (size vals)). apply list_elem_of_lookup in Hn as [i Hi].
  assert (N.of_nat i < L) as HiL.
  { apply lookup_lt_Some in Hi. unfold L. lia. }
  assert (∀ r, expect (keys !! N.to_nat (r `mod` L)) = Ret n ↔ r `mod` L = N.of_nat i) as Hiff.
  { intros r. split.
    - intros Hr%expect_ret_inv. pose proof (NoDup_lookup _ _ _ _ Hnd Hr Hi). lia.
    - intros ->. by rewrite Nat2N.id, Hi. }
  setoid_rewrite Hiff. clear -HiL. clearbody L. set (j := N.of_nat i) in *. clearbody j.
  pose proof (N.div_mod r0 L ltac:(lia)) as Hd0. pose proof (N.mod_lt r0 L ltac:(lia)) as Hm0.
  set (q := r0 / L) in *. set (m := r0 `mod` L) in *. clearbody q m.
  exists (if decide (m ≤ j) then L * q + j else L * (q + 1) + j). split; [case_decide; nia|]. split.
  - case_decide; symmetry; [apply (N.mod_unique _ _ q)|apply (N.mod_unique _ _ (q + 1))]; done.
  - intros r' Hlo Hhi Hr'. pose proof (N.div_mod r' L ltac:(lia)) as Hd. rewrite Hr' in Hd.
    set (q' := r' / L) in *. clearbody q'.
    case_decide.
    + assert (q' = q) as ->; [|lia]. destruct (N.lt_trichotomy q' q) as [?|[?|?]]; [|done|].
      * assert (L * (q' + 1) ≤ L * q) by (apply N.mul_le_mono_l; lia). lia.
      * assert (L * (q + 1) ≤ L * q') by (apply N.mul_le_mono_l; lia). lia.
    + assert (q' = q + 1) as ->; [|lia]. destruct (N.lt_trichotomy q' (q + 1)) as [?|[?|?]]; [|done|].
      * assert (L * q' ≤ L * q) by (apply N.mul_le_mono_l; lia). lia.
      * assert (L * (q + 2) ≤ L * q') by (apply N.mul_le_mono_l; lia). lia.
Qed.
End leader_properties.

Lemma pick_validator_proportional_witness :
  pick_validator (P:=toy_params) (stake_bounds (P:=toy_params) [(7, 10); (8, 20); (9, 5)] 0).1 29 = Ret 8.
Proof.
  apply (pick_validator_proportional (P:=toy_params) [(7, 10); (8, 20); (9, 5)] 29 8).
  - repeat constructor.
  - discriminate.
  - reflexivity.
  - exists [(7, 10)], 20, [(9, 5)]. repeat split; discriminate.
Defined.

Lemma rejection_bound_is_uniform_witness : ∃ max, randomize_max 100 = Ret max ∧ (max + 1) `mod` 100 = 0.
Proof.
  destruct (rejection_bound_is_uniform 100) as (max & H1 & H2 & _);
    [reflexivity|discriminate|exists max; split; assumption].
Defined.

Lemma weighted_leader_elected_witness :
  ∃ n, weighted_get_leader (P:=toy_params) (λ r i, r + N.of_nat i) 3 55 (validators toy_vs) = Ret n.
Proof.
  destruct (randomize_max_spec 100) as (max & Hmax & _ & Hhalf & _); [reflexivity|discriminate|].
  destruct (weighted_leader_elected (P:=toy_params) (λ r i, r + N.of_nat i) 3 55 toy_vs max 0)
    as (l1 & n & s & l2 & _ & Hl & _).
  - exact toy_vs_wf.
  - exact Hmax.
  - repeat constructor.
  - unfold U256_MAX, U256_MOD in Hhalf. simpl. lia.
  - intros j Hj. exfalso. inversion Hj.
  - exists n. exact Hl.
Defined.

Lemma simple_round_robin_fair_witness :
  ∃ r, (100 ≤ r ∧ r < 104) ∧ simple_get_leader (P:=toy_params) r (validators toy_vs) = Ret 3.
Proof.
  destruct (simple_round_robin_fair (P:=toy_params) (validators toy_vs) 100 3) as (r & Hr & Hl & _).
  - exists 30. reflexivity.
  - exists r. split; [exact Hr|exact Hl].
Defined.
