(* ===== verification/Pacemaker.v ===== *)
(** * The pacemaker (monad-consensus/src/pacemaker.rs)

    Rounds advance when a quorum or timeout certificate of the current round
    (or a later one) is processed. A local timeout prepares a timeout message;
    timeouts of other nodes are collected, make the node time out itself once
    one of them must be honest, and become a timeout certificate at a
    super-majority. The chain configuration enters only through the vote pace
    of a round ([pm_vote_pace]). Durations are nanoseconds. *)
From S2P Require Import Prelude Types Interfaces MultiSig Certificates Concrete ValidatorSet Epochs SafetyModule VoteState.

(** [Duration::MAX] in nanoseconds; [Duration] arithmetic panics above it. *)
Definition DURATION_MAX : N := 18446744073709551616 * 1000000000 - 1.
#[global] Arguments DURATION_MAX : simpl never.
Definition duration_add (a b : N) : outcome N := expect (checked_add DURATION_MAX a b).
Definition duration_mul (a b : N) : outcome N :=
  if bool_decide (a * b ≤ DURATION_MAX) then Ret (a * b) else Panic.

Inductive PhaseHonest := PhZero | PhOne.

#[global] Instance PhaseHonest_eq_dec : EqDecision PhaseHonest.
Proof. solve_decision. Defined.

Section pacemaker.
Context `{P : Params} {CD : Codec} {CS : CertSignature} {AS : AuthorSigning} {SC : SignatureCollection}
        {HO : HashOrder TimeoutInfo (list (NodeId * Signature))}.

(** A [TimeoutMessage] is a wrapped [Timeout]. *)
Record Pacemaker := mkPacemaker {
  pm_delta : N;
  pm_vote_pace : Round → N;
  pm_local_processing : N;
  pm_current_epoch : Epoch;
  pm_high_certificate : RoundCertificate;
  pm_pending_timeouts : gmap NodeId Timeout;
  pm_invalid_timeout_senders : gset NodeId;
  pm_phase : PhaseHonest;
}.

Inductive PacemakerCommand :=
| EnterRound (epoch : Epoch) (round : Round) (certificate : RoundCertificate)
| PrepareTimeout (tminfo : TimeoutInfo) (high_extend : HighExtend) (safe_to_vote : bool)
    (last_round_certificate : option RoundCertificate)
| Schedule (round : Round) (duration : N)
| ScheduleReset.

Definition pacemaker_new (delta : N) (vote_pace : Round → N) (local_processing : N) (em : EpochManager)
    (high_certificate : RoundCertificate) : outcome Pacemaker :=
  current_round ← round_add (round_certificate_round high_certificate) 1;
  current_epoch ← expect (get_epoch em current_round);
  Ret (mkPacemaker delta vote_pace local_processing current_epoch high_certificate ∅ ∅ PhZero).

Definition get_current_round (pm : Pacemaker) : outcome Round :=
  round_add (round_certificate_round (pm_high_certificate pm)) 1.

Definition get_round_timer (pm : Pacemaker) (round : Round) : outcome N :=
  d ← duration_mul (pm_delta pm) 3;
  d ← duration_add d (pm_vote_pace pm round);
  duration_add d (pm_local_processing pm).

(** [Pacemaker::process_certificate]. *)
Definition pacemaker_process_certificate (pm : Pacemaker) (em : EpochManager) (safety : Safety)
    (certificate : RoundCertificate) : outcome (Pacemaker * Safety * list PacemakerCommand) :=
  if bool_decide (round_certificate_round certificate ≤ round_certificate_round (pm_high_certificate pm))
  then Ret (pm, safety, [])
  else
    let safety := safety_process_certificate safety certificate in
    let pm := {| pm with pm_high_certificate := certificate |} in
    current_round ← get_current_round pm;
    current_epoch ← expect (get_epoch em current_round);
    let pm := {| pm with pm_current_epoch := current_epoch; pm_phase := PhZero;
                         pm_pending_timeouts := ∅; pm_invalid_timeout_senders := ∅ |} in
    timer ← get_round_timer pm current_round;
    Ret (pm, safety, [EnterRound current_epoch current_round certificate; Schedule current_round timer]).

Definition local_timeout_round (pm : Pacemaker) (safety : Safety) : outcome (Safety * list PacemakerCommand) :=
  current_round ← get_current_round pm;
  '(safety, safe_to_include_vote) ← safety_timeout safety current_round;
  let high_extend :=
    match maybe_high_tip safety with
    | None => HeQc (round_certificate_qc (pm_high_certificate pm))
    | Some tip => HeTip tip
    end in
  let '(high_tip_round, high_extend_qc_round) :=
    match high_extend with
    | HeTip tip => (bh_block_round (tip_block_header tip), qc_get_round (bh_qc (tip_block_header tip)))
    | HeQc qc => (GENESIS_ROUND, qc_get_round qc)
    end in
  let timeout := mkTimeoutInfo (pm_current_epoch pm) current_round high_extend_qc_round high_tip_round in
  next ← round_add high_extend_qc_round 1;
  let last_round_rc := if bool_decide (next = current_round) then None else Some (pm_high_certificate pm) in
  timer ← get_round_timer pm current_round;
  Ret (safety, [ScheduleReset; PrepareTimeout timeout high_extend safe_to_include_vote last_round_rc;
                Schedule current_round timer]).

Definition process_local_timeout (pm : Pacemaker) (safety : Safety)
    : outcome (Pacemaker * Safety * list PacemakerCommand) :=
  let pm := {| pm with pm_phase := PhOne |} in
  '(safety, cmds) ← local_timeout_round pm safety;
  Ret (pm, safety, cmds).

(** [handle_invalid_timeout]; the equality it checks is a debug assertion. *)
Fixpoint handle_invalid_timeout (pm : Pacemaker) (invalid_timeouts : list (NodeId * Signature)) : Pacemaker :=
  match invalid_timeouts with
  | [] => pm
  | (node_id, _) :: l =>
      handle_invalid_timeout
        {| pm with pm_invalid_timeout_senders := {[node_id]} ∪ pm_invalid_timeout_senders pm;
                   pm_pending_timeouts := delete node_id (pm_pending_timeouts pm) |} l
  end.

(** The [while] loop of [process_remote_timeout]. *)
Fixpoint timeout_certificate_loop (fuel : nat) (em : EpochManager) (validators : ValidatorSet)
    (validator_mapping : ValidatorMapping) (epoch : Epoch) (round : Round)
    (pm : Pacemaker) (safety : Safety) (timeouts : list NodeId)
    : outcome (Pacemaker * Safety * list PacemakerCommand) :=
  match fuel with
  | O => OutOfFuel
  | S fuel =>
      if bool_decide (pm_phase pm = PhOne) then
        super ← has_super_majority_votes validators timeouts;
        match super with
        | Err _ => Panic
        | Ok false => Ret (pm, safety, [])
        | Ok true =>
            r ← tc_new epoch round (btree_iter (pm_pending_timeouts pm)) validator_mapping;
            match r with
            | Ok tc =>
                '(pm, safety, cmds) ← pacemaker_process_certificate pm em safety (RcTc tc);
                _ ← rust_assert (bool_decide (pm_phase pm = PhZero));
                '(pm, safety, cmds') ←
                  timeout_certificate_loop fuel em validators validator_mapping epoch round pm safety timeouts;
                Ret (pm, safety, cmds ++ cmds')
            | Err (InvalidSignaturesCreate invalid_sigs) =>
                let pm := handle_invalid_timeout pm invalid_sigs in
                timeout_certificate_loop fuel em validators validator_mapping epoch round pm safety
                  (btree_keys (pm_pending_timeouts pm))
            | Err _ => Panic
            end
        end
      else Ret (pm, safety, [])
  end.

(** Enough iterations: a failed attempt drops a timeout, a success ends it. *)
Definition timeout_fuel (pm : Pacemaker) : nat := S (S (size (pm_pending_timeouts pm))).

(** Times out once one of the collected timeouts must be honest. *)
Definition maybe_local_timeout (pm : Pacemaker) (validators : ValidatorSet) (safety : Safety)
    (timeouts : list NodeId) : outcome (Pacemaker * Safety * list PacemakerCommand) :=
  if bool_decide (pm_phase pm = PhZero) then
    honest ← has_honest_vote validators timeouts;
    match honest with
    | Err _ => Panic
    | Ok false => Ret (pm, safety, [])
    | Ok true =>
        '(safety, cmds) ← local_timeout_round pm safety;
        Ret ({| pm with pm_phase := PhOne |}, safety, cmds)
    end
  else Ret (pm, safety, []).

Definition process_remote_timeout (pm : Pacemaker) (em : EpochManager) (validators : ValidatorSet)
    (validator_mapping : ValidatorMapping) (safety : Safety) (author : NodeId) (timeout_msg : Timeout)
    : outcome (Pacemaker * Safety * list PacemakerCommand) :=
  let tm_info := to_tminfo timeout_msg in
  current_round ← get_current_round pm;
  if bool_decide (ti_round tm_info < current_round) then Ret (pm, safety, []) else
  _ ← rust_assert (bool_decide (ti_round tm_info = current_round));
  if bool_decide (author ∈ pm_invalid_timeout_senders pm) then Ret (pm, safety, []) else
  let pm := {| pm with pm_pending_timeouts := <[author := timeout_msg]> (pm_pending_timeouts pm) |} in
  let timeouts := btree_keys (pm_pending_timeouts pm) in
  '(pm, safety, cmds) ← maybe_local_timeout pm validators safety timeouts;
  '(pm, safety, cmds') ←
    timeout_certificate_loop (timeout_fuel pm) em validators validator_mapping
      (ti_epoch tm_info) (ti_round tm_info) pm safety timeouts;
  Ret (pm, safety, cmds ++ cmds').

(** ** Invariants *)

(** Pending timeouts are of the current round and epoch and extend processed
    certificates; the epoch is the one of the current round; a certificate
    extends an older one; the safety module knows the same highest
    certificate, has not voted in a later round, and its high tip extends an
    older certificate. *)
Record pm_inv (pm : Pacemaker) (em : EpochManager) (safety : Safety) : Prop := {
  pi_round : round_certificate_round (pm_high_certificate pm) < u64_MAX;
  pi_epoch : get_epoch em (round_certificate_round (pm_high_certificate pm) + 1) = Some (pm_current_epoch pm);
  pi_pending : map_Forall (λ _ t, ti_round (to_tminfo t) = round_certificate_round (pm_high_certificate pm) + 1 ∧
    ti_epoch (to_tminfo t) = pm_current_epoch pm ∧
    qc_get_round (high_extend_vote_qc (to_high_extend t)) ≤ round_certificate_round (pm_high_certificate pm))
    (pm_pending_timeouts pm);
  pi_cert_qc : qc_get_round (round_certificate_qc (pm_high_certificate pm)) ≤
               round_certificate_round (pm_high_certificate pm);
  pi_qc : qc_get_round (round_certificate_qc (pm_high_certificate pm)) ≤ high_certificate_qc_round safety;
  pi_vote : highest_vote safety ≤ round_certificate_round (pm_high_certificate pm) + 1;
  pi_tip : ∀ tip, maybe_high_tip safety = Some tip →
    qc_get_round (bh_qc (tip_block_header tip)) < tip_block_round tip ∧
    tip_block_round tip ≤ round_certificate_round (pm_high_certificate pm) + 1;
  pi_safety : safety_inv safety;
}.

(** The round timer of every round fits in a [Duration]. *)
Definition timers_ok (pm : Pacemaker) : Prop :=
  ∀ r, pm_delta pm * 3 + pm_vote_pace pm r + pm_local_processing pm ≤ DURATION_MAX.

Definition timer_of (pm : Pacemaker) (r : Round) : N :=
  pm_delta pm * 3 + pm_vote_pace pm r + pm_local_processing pm.

(** ** Lemmas *)

Lemma get_round_timer_ok pm r : timers_ok pm → get_round_timer pm r = Ret (timer_of pm r).
Proof.
  intros Ht. specialize (Ht r). unfold get_round_timer, duration_mul, duration_add, checked_add.
  rewrite bool_decide_eq_true_2 by lia. simpl. rewrite decide_True by lia. simpl.
  rewrite decide_True by lia. done.
Qed.

Lemma get_current_round_ok pm : round_certificate_round (pm_high_certificate pm) < u64_MAX →
  get_current_round pm = Ret (round_certificate_round (pm_high_certificate pm) + 1).
Proof. intros H. apply round_add_ret. split; [done|lia]. Qed.

(** A certificate at or below the current one is ignored. *)
Lemma process_certificate_old pm em s c :
  round_certificate_round c ≤ round_certificate_round (pm_high_certificate pm) →
  pacemaker_process_certificate pm em s c = Ret (pm, s, []).
Proof. intros H. unfold pacemaker_process_certificate. by rewrite bool_decide_eq_true_2. Qed.

Definition entered (pm : Pacemaker) (e : Epoch) (c : RoundCertificate) : Pacemaker :=
  mkPacemaker (pm_delta pm) (pm_vote_pace pm) (pm_local_processing pm) e c ∅ ∅ PhZero.

Lemma process_certificate_new pm em s c : pm_inv pm em s → timers_ok pm →
  round_certificate_round (pm_high_certificate pm) < round_certificate_round c →
  round_certificate_round c < u64_MAX →
  ∃ e, get_epoch em (round_certificate_round c + 1) = Some e ∧ pm_current_epoch pm ≤ e ∧
    pacemaker_process_certificate pm em s c =
      Ret (entered pm e c, safety_process_certificate s c,
           [EnterRound e (round_certificate_round c + 1) c;
            Schedule (round_certificate_round c + 1) (timer_of pm (round_certificate_round c + 1))]).
Proof.
  intros Hinv Ht Hlt Hmax.
  destruct (get_epoch_later em (round_certificate_round (pm_high_certificate pm) + 1)
    (round_certificate_round c + 1) (pm_current_epoch pm)) as (e & He & Hle); [lia|apply Hinv|].
  exists e. split; [done|]. split; [done|]. unfold pacemaker_process_certificate.
  rewrite bool_decide_eq_false_2 by lia.
  rewrite get_current_round_ok by done. simpl. rewrite He. simpl.
  rewrite get_round_timer_ok by apply Ht. done.
Qed.

Lemma safety_process_certificate_qc s c :
  high_certificate_qc_round s ≤ high_certificate_qc_round (safety_process_certificate s c) ∧
  qc_get_round (round_certificate_qc c) ≤ high_certificate_qc_round (safety_process_certificate s c) ∧
  highest_vote (safety_process_certificate s c) = highest_vote s ∧
  (∀ tip, maybe_high_tip (safety_process_certificate s c) = Some tip → maybe_high_tip s = Some tip).
Proof.
  unfold safety_process_certificate. repeat case_bool_decide; repeat case_match; simpl in *;
    split_and!; lia || done || congruence.
Qed.

Lemma entered_inv pm em s c e : pm_inv pm em s → 
  round_certificate_round (pm_high_certificate pm) < round_certificate_round c →
  round_certificate_round c < u64_MAX → get_epoch em (round_certificate_round c + 1) = Some e →
  qc_get_round (round_certificate_qc c) ≤ round_certificate_round c →
  pm_inv (entered pm e c) em (safety_process_certificate s c).
Proof.
  intros [H1 H2 H3 H4 H5 H6 H7 H8] Hlt Hmax He Hqc.
  destruct (safety_process_certificate_qc s c) as (? & ? & ? & Htip).
  split; simpl; [done|done|apply map_Forall_empty|done|done|lia| |].
  - intros tip Ht%Htip%H7. lia.
  - by eapply (safety_exec_inv s (OpCertificate c)).
Qed.

(** What a local timeout announces. *)
Definition timeout_extend (pm : Pacemaker) (s : Safety) : HighExtend :=
  match maybe_high_tip s with
  | None => HeQc (round_certificate_qc (pm_high_certificate pm))
  | Some tip => HeTip tip
  end.
Definition timeout_info (pm : Pacemaker) (s : Safety) : TimeoutInfo :=
  mkTimeoutInfo (pm_current_epoch pm) (round_certificate_round (pm_high_certificate pm) + 1)
    (qc_get_round (high_extend_qc (timeout_extend pm s)))
    (match maybe_high_tip s with None => GENESIS_ROUND | Some tip => tip_block_round tip end).
Definition timeout_last_certificate (pm : Pacemaker) (s : Safety) : option RoundCertificate :=
  if bool_decide (qc_get_round (high_extend_qc (timeout_extend pm s)) + 1 =
                  round_certificate_round (pm_high_certificate pm) + 1)
  then None else Some (pm_high_certificate pm).

Definition timeout_safe_to_vote (pm : Pacemaker) (s : Safety) : bool :=
  let r := round_certificate_round (pm_high_certificate pm) + 1 in
  bool_decide (hne_round (highest_no_endorse s) < r)
  || match maybe_high_tip s with Some tip => bool_decide (tip_block_round tip = r) | None => false end.

Lemma safety_timeout_ok s r : highest_vote s ≤ r →
  safety_timeout s r =
    Ret ({| s with highest_vote := r |},
         bool_decide (hne_round (highest_no_endorse s) < r)
         || match maybe_high_tip s with Some tip => bool_decide (tip_block_round tip = r) | None => false end).
Proof. intros H. unfold safety_timeout. by rewrite (bool_decide_eq_true_2 (highest_vote s ≤ r)). Qed.

Lemma local_timeout_round_ok pm em s : pm_inv pm em s → timers_ok pm →
  local_timeout_round pm s =
    Ret ({| s with highest_vote := round_certificate_round (pm_high_certificate pm) + 1 |},
         [ScheduleReset;
          PrepareTimeout (timeout_info pm s) (timeout_extend pm s) (timeout_safe_to_vote pm s)
            (timeout_last_certificate pm s);
          Schedule (round_certificate_round (pm_high_certificate pm) + 1)
            (timer_of pm (round_certificate_round (pm_high_certificate pm) + 1))]).
Proof.
  intros [H1 H2 H3 H4 H5 H6 H7 H8] Ht. unfold local_timeout_round.
  rewrite get_current_round_ok by done. simpl. rewrite safety_timeout_ok by done. simpl.
  unfold timeout_info, timeout_last_certificate, timeout_safe_to_vote, timeout_extend.
  destruct (maybe_high_tip s) as [tip|] eqn:Htip; simpl.
  - destruct (H7 _ eq_refl) as [??].
    rewrite (proj2 (round_add_ret _ 1 (qc_get_round (bh_qc (tip_block_header tip)) + 1)))
      by (split; [done|lia]).
    simpl. rewrite get_round_timer_ok by done. done.
  - rewrite (proj2 (round_add_ret _ 1 (qc_get_round (round_certificate_qc (pm_high_certificate pm)) + 1)))
      by (split; [done|lia]).
    simpl. rewrite get_round_timer_ok by done. done.
Qed.

Lemma timeout_inv pm em s : pm_inv pm em s →
  pm_inv pm em {| s with highest_vote := round_certificate_round (pm_high_certificate pm) + 1 |}.
Proof. by intros []; split. Qed.

Lemma pm_inv_phase pm em s ph : pm_inv pm em s → pm_inv {| pm with pm_phase := ph |} em s.
Proof. by intros []; split. Qed.

Lemma handle_invalid_timeout_spec l pm :
  let pm' := handle_invalid_timeout pm l in
  pm_high_certificate pm' = pm_high_certificate pm ∧ pm_current_epoch pm' = pm_current_epoch pm ∧
  pm_phase pm' = pm_phase pm ∧ pm_delta pm' = pm_delta pm ∧ pm_vote_pace pm' = pm_vote_pace pm ∧
  pm_local_processing pm' = pm_local_processing pm ∧
  pm_pending_timeouts pm' ⊆ pm_pending_timeouts pm ∧
  (∀ n, n ∈ l.*1 → pm_pending_timeouts pm' !! n = None) ∧
  pm_invalid_timeout_senders pm' = list_to_set l.*1 ∪ pm_invalid_timeout_senders pm.
Proof.
  revert pm. induction l as [|[n sg] l IH]; intros pm; cbn [handle_invalid_timeout].
  { split_and!; try done; set_solver. }
  destruct (IH {| pm with pm_invalid_timeout_senders := {[n]} ∪ pm_invalid_timeout_senders pm;
                   pm_pending_timeouts := delete n (pm_pending_timeouts pm) |})
    as (-> & -> & -> & -> & -> & -> & Hsub & Hdel & ->). simpl in *.
  split_and!; try done.
  - etrans; [exact Hsub|apply delete_subseteq].
  - intros n' [->|Hn]%elem_of_cons; [|by apply Hdel].
    eapply lookup_weaken_None; [|exact Hsub]. apply lookup_delete_eq.
  - set_solver.
Qed.

Lemma handle_invalid_timeout_inv l pm em s : pm_inv pm em s → pm_inv (handle_invalid_timeout pm l) em s.
Proof.
  intros [H1 H2 H3 H4 H5 H6 H7 H8].
  destruct (handle_invalid_timeout_spec l pm) as (Hc & He & _ & _ & _ & _ & Hsub & _).
  split; rewrite ?Hc, ?He; try done. intros n t Hn. apply (H3 n t). by eapply lookup_weaken.
Qed.

Lemma high_extend_of_vote_qc hev : high_extend_qc (high_extend_of_vote hev) = high_extend_vote_qc hev.
Proof. by destruct hev. Qed.

(** A timeout certificate of pending timeouts extends a processed one. *)
Lemma tc_new_qc_round pm em s epoch round pending m tc : pm_inv pm em s → sc_laws sc_new sc_verify →
  pending ⊆ pm_pending_timeouts pm → tc_new epoch round (btree_iter pending) m = Ret (Ok tc) →
  qc_get_round (high_extend_qc (tc_high_extend tc)) ≤ round_certificate_round (pm_high_certificate pm).
Proof.
  intros Hinv Hl Hsub (_ & _ & _ & [(g & Hg & ->)|(n & t & Hin & ->)] & _)%tc_new_inv.
  - destruct (genesis_qc_ok Hl) as (g' & Hg' & Hr). rewrite Hg in Hg'. simplify_eq. simpl.
    rewrite Hr. apply N.le_0_l.
  - rewrite high_extend_of_vote_qc. apply elem_of_btree_iter in Hin.
    apply (lookup_weaken _ _ _ _ Hin) in Hsub. apply (pi_pending _ _ _ Hinv) in Hsub. by destruct Hsub as (_ & _ & ?).
Qed.

(** The result of the collecting loop: nothing happened, or a certificate of a
    super-majority of the pending timeouts was built and its round entered. *)
Definition timeout_result (em : EpochManager) (vs : ValidatorSet) (m : ValidatorMapping) (epoch : Epoch)
    (round : Round) (pm : Pacemaker) (s : Safety) (pm' : Pacemaker) (s' : Safety)
    (cmds : list PacemakerCommand) : Prop :=
  (cmds = [] ∧ s' = s ∧ pm_high_certificate pm' = pm_high_certificate pm ∧
   pm_current_epoch pm' = pm_current_epoch pm ∧ pm_phase pm' = pm_phase pm ∧
   pm_pending_timeouts pm' ⊆ pm_pending_timeouts pm ∧
   (pm_phase pm = PhZero ∨
    has_super_majority_votes vs (btree_keys (pm_pending_timeouts pm')) = Ret (Ok false))) ∨
  (∃ pending tc e, pending ⊆ pm_pending_timeouts pm ∧
   has_super_majority_votes vs (btree_keys pending) = Ret (Ok true) ∧
   tc_new epoch round (btree_iter pending) m = Ret (Ok tc) ∧
   get_epoch em (round + 1) = Some e ∧ s' = safety_process_certificate s (RcTc tc) ∧
   pm_high_certificate pm' = RcTc tc ∧ pm_current_epoch pm' = e ∧ pm_phase pm' = PhZero ∧
   cmds = [EnterRound e (round + 1) (RcTc tc); Schedule (round + 1) (timer_of pm (round + 1))]).

Lemma timeout_certificate_loop_returns fuel em vs (m : ValidatorMapping) epoch round pm s :
  sc_laws sc_new sc_verify → vs_wf vs → pm_inv pm em s → timers_ok pm →
  round = round_certificate_round (pm_high_certificate pm) + 1 → round < u64_MAX →
  (∀ n, is_Some (pm_pending_timeouts pm !! n) → is_Some (m !! n)) →
  (S (size (pm_pending_timeouts pm)) < fuel)%nat →
  ∃ pm' s' cmds,
    timeout_certificate_loop fuel em vs m epoch round pm s (btree_keys (pm_pending_timeouts pm)) =
      Ret (pm', s', cmds) ∧ pm_inv pm' em s' ∧ timeout_result em vs m epoch round pm s pm' s' cmds.
Proof.
  intros Hl Hwf. revert pm. induction fuel as [|fuel IH]; intros pm Hinv Ht Hr Hmax Hm Hf; [lia|].
  cbn [timeout_certificate_loop]. case_bool_decide as Hph.
  2:{ exists pm, s, []. split; [done|]. split; [done|]. left. split_and!; try done.
      left. by destruct (pm_phase pm). }
  unfold has_super_majority_votes at 1. rewrite has_threshold_votes_ok by (done || apply btree_keys_nodup).
  destruct (bool_decide _) eqn:Hsup; cbn -[tc_new].
  2:{ exists pm, s, []. split; [done|]. split; [done|]. left. split_and!; try done. right.
      unfold has_super_majority_votes. rewrite has_threshold_votes_ok by (done || apply btree_keys_nodup).
      by rewrite Hsup. }
  assert (has_super_majority_votes vs (btree_keys (pm_pending_timeouts pm)) = Ret (Ok true)) as Hsup'.
  { unfold has_super_majority_votes. rewrite has_threshold_votes_ok by (done || apply btree_keys_nodup).
    by rewrite Hsup. }
  destruct (tc_new_total epoch round (btree_iter (pm_pending_timeouts pm)) m Hl)
    as [[tc Htc]|(inv & Hbad & Hne & Hsub)]; [apply btree_keys_nodup| | |].
  { intros n Hn. apply Hm. by apply elem_of_btree_keys. }
  - rewrite Htc. cbn -[tc_new]. pose proof (tc_new_inv _ _ _ _ _ Htc) as (_ & Hround & _).
    pose proof (tc_new_qc_round _ _ _ _ _ _ _ _ Hinv Hl (reflexivity _) Htc) as Hqc.
    destruct (process_certificate_new pm em s (RcTc tc) Hinv Ht) as (e & He & _ & ->);
      [simpl; lia|simpl; lia|]. simpl in He |- *. rewrite Hround in *. destruct fuel as [|fuel]; [lia|].
    cbn -[tc_new]. eexists _, _, _. split; [done|]. split.
    + apply entered_inv; simpl; rewrite ?Hround; try done; lia.
    + right. exists (pm_pending_timeouts pm), tc, e. split_and!; done.
  - rewrite Hbad. cbn -[tc_new handle_invalid_timeout].
    destruct (handle_invalid_timeout_spec inv pm) as (Hc & He & Hp & Hd & Hv & Hlp & Hs & Hdel & _).
    set (pm1 := handle_invalid_timeout pm inv) in *.
    assert (size (pm_pending_timeouts pm1) < size (pm_pending_timeouts pm))%nat as Hlt.
    { destruct inv as [|[n sg] inv]; [done|]. apply map_subset_size. split; [done|]. intros Hs'.
      assert (n ∈ btree_keys (pm_pending_timeouts pm)) as [t Hn]%elem_of_btree_keys by (apply Hsub; by left).
      apply (lookup_weaken _ _ _ _ Hn) in Hs'. rewrite Hdel in Hs'; [done|by left]. }
    destruct (IH pm1) as (pm' & s' & cmds & Hloop & Hinv' & Hres).
    + by apply handle_invalid_timeout_inv.
    + unfold timers_ok. by rewrite Hd, Hv, Hlp.
    + by rewrite Hc.
    + done.
    + intros n [t Hn]. apply Hm. apply (lookup_weaken _ _ _ _ Hn) in Hs. eauto.
    + lia.
    + exists pm', s', cmds. split; [done|]. split; [done|]. unfold timeout_result in Hres |- *.
      rewrite Hc, He, Hp in Hres.
      destruct Hres as [(-> & -> & ? & ? & ? & Hs1 & ?)|(pd & tc & e & Hs1 & Hres)].
      * left. split_and!; try done. by etrans.
      * right. exists pd, tc, e. split; [by etrans|]. unfold timer_of in *. by rewrite Hd, Hv, Hlp in Hres.
Qed.

(** The self-timeout part of [process_remote_timeout]. *)
Lemma local_timeout_step pm em s vs : vs_wf vs → pm_inv pm em s → timers_ok pm →
  ∃ pm' s' cmds,
    maybe_local_timeout pm vs s (btree_keys (pm_pending_timeouts pm)) = Ret (pm', s', cmds) ∧ pm_inv pm' em s' ∧
    (pm_phase pm' = PhZero → pm' = pm) ∧
    (pm_high_certificate pm' = pm_high_certificate pm ∧ pm_current_epoch pm' = pm_current_epoch pm ∧
     pm_delta pm' = pm_delta pm ∧ pm_vote_pace pm' = pm_vote_pace pm ∧
     pm_local_processing pm' = pm_local_processing pm ∧
     pm_pending_timeouts pm' = pm_pending_timeouts pm ∧
     pm_invalid_timeout_senders pm' = pm_invalid_timeout_senders pm) ∧
    (pm_phase pm = PhZero → has_honest_vote vs (btree_keys (pm_pending_timeouts pm)) = Ret (Ok true) →
       ∃ ti he safe last, PrepareTimeout ti he safe last ∈ cmds).
Proof.
  intros Hwf Hinv Ht. unfold maybe_local_timeout. case_bool_decide as Hph.
  2:{ exists pm, s, []. split; [done|]. split; [done|]. split; [done|]. split; [done|]. done. }
  unfold has_honest_vote. rewrite has_threshold_votes_ok by (done || apply btree_keys_nodup).
  case_bool_decide as Hh; cbn -[local_timeout_round].
  - rewrite (local_timeout_round_ok _ _ _ Hinv Ht). cbn. eexists _, _, _. split; [done|].
    split; [by apply pm_inv_phase, timeout_inv|]. split; [done|]. split; [done|].
    intros _ _. eexists _, _, _, _. right. left.
  - exists pm, s, []. split; [done|]. split; [done|]. split; [done|]. split; [done|]. done.
Qed.
End pacemaker.

Section pacemaker_properties.
Context `{P : Params} {CD : Codec} {CS : CertSignature} {AS : AuthorSigning} {SC : SignatureCollection}
        {HO : HashOrder TimeoutInfo (list (NodeId * Signature))}.

(** Processing a certificate never moves the round back: the current round
    becomes the larger of the old one and the certificate's successor. An old
    certificate changes nothing; a newer one enters its round with the epoch
    of that round, an empty set of timeouts and a fresh timer. The invariant
    is kept. *)
Theorem certificate_advances_round pm em s c :
  pm_inv pm em s → timers_ok pm → round_certificate_round c < u64_MAX →
  qc_get_round (round_certificate_qc c) ≤ round_certificate_round c →
  ∃ pm' s' cmds, pacemaker_process_certificate pm em s c = Ret (pm', s', cmds) ∧ pm_inv pm' em s' ∧
    round_certificate_round (pm_high_certificate pm') =
      N.max (round_certificate_round (pm_high_certificate pm)) (round_certificate_round c) ∧
    (round_certificate_round c ≤ round_certificate_round (pm_high_certificate pm) →
       pm' = pm ∧ s' = s ∧ cmds = []) ∧
    (round_certificate_round (pm_high_certificate pm) < round_certificate_round c →
       pm_high_certificate pm' = c ∧ pm_pending_timeouts pm' = ∅ ∧ pm_phase pm' = PhZero ∧
       pm_current_epoch pm ≤ pm_current_epoch pm' ∧
       cmds = [EnterRound (pm_current_epoch pm') (round_certificate_round c + 1) c;
               Schedule (round_certificate_round c + 1) (timer_of pm (round_certificate_round c + 1))]).
Proof.
  intros Hinv Ht Hmax Hqc.
  destruct (decide (round_certificate_round c ≤ round_certificate_round (pm_high_certificate pm))) as [Hle|Hgt].
  - exists pm, s, []. rewrite process_certificate_old by done. split_and!; (done || lia).
  - destruct (process_certificate_new pm em s c Hinv Ht ltac:(lia) Hmax) as (e & He & Hee & ->).
    eexists _, _, _. split; [done|]. split; [apply entered_inv; done || lia|].
    simpl. split_and!; (done || lia).
Qed.

(** A local timeout announces what the receivers expect: the ranks of the
    announced rounds and of the extension agree, a tip's round is above its
    certificate's, and the certificate of the previous round is attached
    exactly when the extension's certificate is not of the previous round.
    The node itself never votes in this round again. *)
Theorem local_timeout_announces pm em s : pm_inv pm em s → timers_ok pm →
  ∃ pm' s' ti he safe last timer,
    process_local_timeout pm s =
      Ret (pm', s', [ScheduleReset; PrepareTimeout ti he safe last; Schedule (ti_round ti) timer]) ∧
    pm_inv pm' em s' ∧ highest_vote s' = ti_round ti ∧
    ti_round ti = round_certificate_round (pm_high_certificate pm) + 1 ∧
    get_epoch em (ti_round ti) = Some (ti_epoch ti) ∧
    timeout_info_rank ti = high_extend_rank he ∧ ti_high_qc_round ti = qc_get_round (high_extend_qc he) ∧
    ti_high_qc_round ti < ti_round ti ∧
    (ti_high_tip_round ti ≠ GENESIS_ROUND → ti_high_qc_round ti < ti_high_tip_round ti) ∧
    match last with
    | None => ti_high_qc_round ti + 1 = ti_round ti
    | Some c => c = pm_high_certificate pm ∧ round_certificate_round c + 1 = ti_round ti ∧
                ti_high_qc_round ti + 1 ≠ ti_round ti
    end.
Proof.
  intros Hinv Ht. unfold process_local_timeout.
  pose proof (pm_inv_phase _ _ _ PhOne Hinv) as Hinv1.
  rewrite (local_timeout_round_ok _ em s Hinv1) by done. cbn -[timeout_info timeout_extend].
  eexists _, _, (timeout_info pm s), (timeout_extend pm s), (timeout_safe_to_vote pm s),
    (timeout_last_certificate pm s), _.
  split; [reflexivity|]. split; [exact (timeout_inv _ em s Hinv1)|].
  destruct Hinv as [H1 H2 H3 H4 H5 H6 H7 H8].
  split; [done|]. split; [done|]. split; [done|].
  unfold timeout_info_rank, timeout_info, timeout_last_certificate, timeout_extend, rank_of_rounds. simpl.
  destruct (maybe_high_tip s) as [tip|] eqn:Htip; simpl.
  - destruct (H7 _ eq_refl) as [Hq Hb]. rewrite bool_decide_eq_false_2 by (unfold GENESIS_ROUND; lia).
    split_and!; try done; [lia|]. case_bool_decide; [done|split_and!; done].
  - split_and!; try done; [lia|]. case_bool_decide; [done|split_and!; done].
Qed.

End pacemaker_properties.

Section pacemaker_witnesses.
Import ToyInstances.

(** Round 5 of epoch 1, entered with a certificate of round 4. *)
Definition toy_pm : Pacemaker :=
  mkPacemaker 100 (λ _, 400) 100 1 (RcQc (toy_qc 77 4)) ∅ ∅ PhZero.
Definition toy_safety : Safety := ret_or safety_default (safety_new (RcQc (toy_qc 77 4)) None).

Lemma toy_pm_created : pacemaker_new 100 (λ _, 400) 100 toy_epochs (RcQc (toy_qc 77 4)) = Ret toy_pm.
Proof. reflexivity. Qed.

Lemma toy_pm_inv : pm_inv toy_pm toy_epochs toy_safety.
Proof.
  split.
  - reflexivity.
  - reflexivity.
  - apply map_Forall_empty.
  - discriminate.
  - discriminate.
  - discriminate.
  - intros tip. discriminate.
  - intros tip. discriminate.
Qed.

Lemma toy_timers_ok : timers_ok toy_pm.
Proof. intros r. discriminate. Qed.

Lemma certificate_advances_round_witness : ∃ pm' s' cmds,
  pacemaker_process_certificate toy_pm toy_epochs toy_safety (RcQc (toy_qc 78 9)) = Ret (pm', s', cmds) ∧
  round_certificate_round (pm_high_certificate pm') = 9.
Proof.
  destruct (certificate_advances_round toy_pm toy_epochs toy_safety (RcQc (toy_qc 78 9)))
    as (pm' & s' & cmds & H & _ & Hr & _).
  - exact toy_pm_inv.
  - exact toy_timers_ok.
  - reflexivity.
  - discriminate.
  - exists pm', s', cmds. split; [exact H|exact Hr].
Defined.

Lemma local_timeout_announces_witness : ∃ pm' s' cmds, process_local_timeout toy_pm toy_safety = Ret (pm', s', cmds) ∧
  pm_inv pm' toy_epochs s'.
Proof.
  destruct (local_timeout_announces toy_pm toy_epochs toy_safety toy_pm_inv toy_timers_ok)
    as (pm' & s' & ti & he & safe & last & timer & H & Hinv & _).
  eexists pm', s', _. split; [exact H|exact Hinv].
Defined.

End pacemaker_witnesses.
