(* ===== verification/Messages.v ===== *)
(** * Consensus messages (monad-consensus/src/messages, validation/signing.rs)

    The messages nodes exchange, the filter that drops outdated ones before
    any signature is checked, and the outer author signature: [sign] and
    [verify]. A message on the wire is [Unverified]; [verify] recovers its
    author and checks that the author belongs to the validator set of the
    message's epoch. The wrapper types [Validated] and [Unvalidated] only
    record at the type level what was checked and are identified here. *)
From S2P Require Import Prelude Types Interfaces MultiSig Certificates Concrete ValidatorSet Epochs VoteState NoEndorsementState.

(** monad-consensus-types/src/validation.rs *)
Inductive Error :=
| InvalidAuthor | NotWellFormed | InvalidSignature | InvalidTcRound | DuplicateTcTipRound
| EmptySignersTcTipRound | TooManyTcTipRound | InsufficientStake | ValidatorSetDataUnavailable
| SignaturesDuplicateNode | InvalidVote | InvalidVersion | InvalidEpoch.

(** messages/consensus_message.rs *)
Inductive PrefilterError :=
| OutdatedProposal | OutdatedVote | OutdatedTimeout | OutdatedRoundRecovery | OutdatedNoEndorsement
| OutdatedAdvanceRoundQc | OutdatedAdvanceRoundTc.

Section messages.
Context `{P : Params}.

(** messages/message.rs *)
Record ProposalMessage := mkProposalMessage {
  pr_proposal_round : Round;
  pr_proposal_epoch : Epoch;
  pr_tip : ConsensusTip;
  pr_block_body : ConsensusBlockBody;
  pr_last_round_tc : option TimeoutCertificate;
}.

Record AdvanceRoundMessage := mkAdvanceRoundMessage { ar_last_round_certificate : RoundCertificate }.

Record RoundRecoveryMessage := mkRoundRecoveryMessage {
  rr_round : Round;
  rr_epoch : Epoch;
  rr_tc : TimeoutCertificate;
}.

Inductive ProtocolMessage :=
| PmProposal (m : ProposalMessage)
| PmVote (m : VoteMessage)
| PmTimeout (m : Timeout)
| PmRoundRecovery (m : RoundRecoveryMessage)
| PmNoEndorsement (m : NoEndorsementMessage)
| PmAdvanceRound (m : AdvanceRoundMessage).

Record ConsensusMessage := mkConsensusMessage { cm_version : N; cm_message : ProtocolMessage }.

(** [ProtocolMessage::get_round]. *)
Definition message_get_round (m : ProtocolMessage) : Round :=
  match m with
  | PmProposal p => pr_proposal_round p
  | PmVote v => vote_round (vm_vote v)
  | PmTimeout t => ti_round (to_tminfo t)
  | PmRoundRecovery r => rr_round r
  | PmNoEndorsement n => ne_round (nem_msg n)
  | PmAdvanceRound n => round_certificate_round (ar_last_round_certificate n)
  end.

(** [ProtocolMessage::prefilter]. *)
Definition prefilter (m : ProtocolMessage) (root_info : option RootInfo) (current_round : Round)
    : result PrefilterError unit :=
  match m with
  | PmProposal p =>
      match root_info with
      | Some root_info =>
          if bool_decide (pr_proposal_round p ≤ ri_round root_info) then Err OutdatedProposal else Ok tt
      | None => Ok tt
      end
  | PmVote v => if bool_decide (vote_round (vm_vote v) < current_round) then Err OutdatedVote else Ok tt
  | PmTimeout t => if bool_decide (ti_round (to_tminfo t) < current_round) then Err OutdatedTimeout else Ok tt
  | PmRoundRecovery r => if bool_decide (rr_round r < current_round) then Err OutdatedRoundRecovery else Ok tt
  | PmNoEndorsement n =>
      if bool_decide (ne_round (nem_msg n) < current_round) then Err OutdatedNoEndorsement else Ok tt
  | PmAdvanceRound msg =>
      if bool_decide (round_certificate_round (ar_last_round_certificate msg) < current_round) then
        match ar_last_round_certificate msg with
        | RcQc _ => Err OutdatedAdvanceRoundQc
        | RcTc _ => Err OutdatedAdvanceRoundTc
        end
      else Ok tt
  end.

(** The RLP encoding of whole messages, which the author signs. *)
Class MessageCodec := { rlp_consensus_message : ConsensusMessage → bytes }.

(** [Unverified<ST, Unvalidated<ConsensusMessage>>]. *)
Record Unverified := mkUnverified { uv_obj : ConsensusMessage; uv_author_signature : AuthorSignature }.
(** [Verified<ST, _>]. *)
Record Verified := mkVerified { vf_author : NodeId; vf_message : Unverified }.
End messages.

Section message_ops.
Context `{P : Params} {CD : Codec} {MC : MessageCodec} {CS : CertSignature} {AS : AuthorSigning}.

(** [VoteMessage::new], [NoEndorsementMessage::new]. *)
Definition vote_message_new (vote : Vote) (key : CertKeyPair) : VoteMessage :=
  mkVoteMessage vote (cert_sign SdVote (rlp_vote vote) key).
Definition no_endorsement_message_new (ne : NoEndorsement) (key : CertKeyPair) : NoEndorsementMessage :=
  mkNoEndorsementMessage ne (cert_sign SdNoEndorsement (rlp_no_endorsement ne) key).

(** [Verified::new], and [ConsensusMessage::sign]. *)
Definition verified_new (msg : ConsensusMessage) (keypair : AuthorKeyPair) : Verified :=
  let signature := author_sign SdConsensusMessage (rlp_consensus_message msg) keypair in
  mkVerified (author_pubkey keypair) (mkUnverified msg signature).
Definition consensus_message_sign (m : ConsensusMessage) (keypair : AuthorKeyPair) : Verified :=
  verified_new m keypair.

(** [valid_pubkey]: the node is in the validator set; its stake is asserted
    to be positive. *)
Definition valid_pubkey (node : NodeId) (vals : gmap NodeId Stake) : outcome (result Error NodeId) :=
  match vals !! node with
  | Some stake => _ ← rust_assert (bool_decide (Stake_ZERO < stake)); Ret (Ok node)
  | None => Ret (Err InvalidAuthor)
  end.

(** [Unverified::verify]. *)
Definition verify (self : Unverified) (em : EpochManager) (vem : ValidatorsEpochMapping)
    : outcome (result Error Verified) :=
  match get_epoch em (message_get_round (cm_message (uv_obj self))) with
  | None => Ret (Err InvalidEpoch)
  | Some epoch =>
      match get_val_set vem epoch with
      | None => Ret (Err ValidatorSetDataUnavailable)
      | Some validator_set =>
          let msg := rlp_consensus_message (uv_obj self) in
          match author_recover (uv_author_signature self) SdConsensusMessage msg with
          | None => Ret (Err InvalidSignature)
          | Some author =>
              r ← valid_pubkey author (validators validator_set);
              match r with
              | Err e => Ret (Err e)
              | Ok author => Ret (Ok (mkVerified author self))
              end
          end
      end
  end.
End message_ops.

(** ** Properties *)

Section message_properties.
Context `{P : Params} {CD : Codec} {MC : MessageCodec} {CS : CertSignature} {AS : AuthorSigning}.

Lemma valid_pubkey_member node vs : vs_wf vs →
  valid_pubkey node (validators vs) =
    Ret (if decide (is_Some (validators vs !! node)) then Ok node else Err InvalidAuthor).
Proof.
  intros Hwf. unfold valid_pubkey. destruct (validators vs !! node) as [s|] eqn:Hn.
  - rewrite decide_True by eauto. pose proof (vs_wf_pos vs Hwf node s Hn) as Hpos. simpl in Hpos.
    by rewrite bool_decide_eq_true_2 by done.
  - by rewrite decide_False by (by intros [? ?]).
Qed.

(** The filter uses the round the epoch lookup uses: it drops a message of
    any kind but a proposal exactly when [get_round] is behind the current
    round, and a proposal exactly when [get_round] is not past the root. *)
Theorem prefilter_matches_get_round (m : ProtocolMessage) root current_round :
  prefilter m root current_round = Ok tt ↔
    match m with
    | PmProposal _ => ∀ r, root = Some r → ri_round r < message_get_round m
    | _ => current_round ≤ message_get_round m
    end.
Proof.
  destruct m as [m|m|m|m|m|m]; simpl; repeat case_bool_decide;
    try (split; [done|lia]); try (split; [intros _; lia|done]).
  - destruct root as [r|]; [|naive_solver]. case_bool_decide.
    + split; [done|]. intros Hr. specialize (Hr r eq_refl). lia.
    + split; [|done]. intros _ r' [= <-]. lia.
  - destruct (ar_last_round_certificate m); (split; [done|lia]).
Qed.

(** A message its author signed verifies, with that author, whenever the
    author belongs to the validator set of the message's round. *)
Theorem sign_verify_roundtrip (m : ConsensusMessage) key em vem epoch vs :
  (∀ d msg k, author_recover (author_sign d msg k) d msg = Some (author_pubkey k)) →
  get_epoch em (message_get_round (cm_message m)) = Some epoch →
  get_val_set vem epoch = Some vs → vs_wf vs →
  is_Some (validators vs !! author_pubkey key) →
  verify (vf_message (consensus_message_sign m key)) em vem =
    Ret (Ok (consensus_message_sign m key)).
Proof.
  intros Hrec He Hvs Hwf Hmem. unfold verify. simpl. rewrite He, Hvs, Hrec.
  rewrite valid_pubkey_member by done. by rewrite decide_True by done.
Qed.
End message_properties.

(** Node 2 signs a vote of round 5 in epoch 1. *)
Section message_witnesses.
Import ToyInstances.

Definition toy_message_codec : @MessageCodec toy_params := {| rlp_consensus_message := λ m, toy_enc (cm_version m) |}.
Definition toy_vem : @ValidatorsEpochMapping toy_params :=
  mkValidatorsEpochMapping {[1 := (toy_vs, toy_mapping)]}.
Definition toy_vote_message : @ConsensusMessage toy_params :=
  mkConsensusMessage 1 (PmVote (vote_message_new (mkVote 7 5 1) (2 : @CertKeyPair toy_params))).

Lemma sign_verify_roundtrip_witness :
  verify (MC := toy_message_codec)
    (vf_message (consensus_message_sign (MC := toy_message_codec) toy_vote_message (2 : @AuthorKeyPair toy_params)))
    toy_epochs toy_vem =
  Ret (Ok (consensus_message_sign (MC := toy_message_codec) toy_vote_message (2 : @AuthorKeyPair toy_params))).
Proof.
  apply (sign_verify_roundtrip (MC := toy_message_codec) toy_vote_message _ toy_epochs toy_vem 1 toy_vs).
  - intros d msg k. unfold author_recover, author_sign. simpl.
    unfold toy_recover, toy_sign. simpl. rewrite !bool_decide_eq_true_2 by done. reflexivity.
  - reflexivity.
  - reflexivity.
  - apply toy_vs_wf.
  - eexists. reflexivity.
Defined.
End message_witnesses.
