(* ===== verification/Validation.v ===== *)
(** * Validation of messages and certificates
      (monad-consensus/src/validation/signing.rs, certificate_cache.rs)

    A message is accepted when it is well formed, its epoch is the local one
    for its round, and the certificates it carries verify: signatures of a
    super-majority of the epoch's stake, tips signed by the leader of their
    round. Certificates that verified are remembered in LRU caches keyed by
    their encoding, so the verification functions thread a cache; [check] is
    the corresponding monad (cache, panics and [Error]). The LRU cache is
    third-party code: [Lru] holds the operations called, [lru_laws] what is
    relied on. *)
From S2P Require Import Prelude Types Interfaces MultiSig Certificates Concrete ValidatorSet Epochs Leader VoteState NoEndorsementState Messages.

(** The operations of the crate [lru] that are used, on keys of bytes. *)
Class Lru := {
  LruCache : Type;
  lru_new : N → LruCache;
  lru_put : LruCache → bytes → LruCache;
  lru_contains : LruCache → bytes → bool;
}.

(** A cache contains nothing but what was put into it (it may forget). *)
Record lru_laws (L : Lru) : Prop := {
  lru_new_empty : ∀ cap k, lru_contains (lru_new cap) k = false;
  lru_put_contains : ∀ c k k', lru_contains (lru_put c k) k' = true → k' = k ∨ lru_contains c k' = true;
}.

(** ** certificate_cache.rs *)
Section certificate_cache.
Context `{P : Params} {CD : Codec} {L : Lru}.

Record CertificateCache := mkCertificateCache {
  qc_lru : LruCache;
  tc_lru : LruCache;
  nec_lru : LruCache;
}.

Definition QC_CACHE_CAPACITY : N := 1000.
Definition TC_CACHE_CAPACITY : N := 1000.
Definition NEC_CACHE_CAPACITY : N := 1000.

Definition certificate_cache_default : CertificateCache :=
  mkCertificateCache (lru_new QC_CACHE_CAPACITY) (lru_new TC_CACHE_CAPACITY) (lru_new NEC_CACHE_CAPACITY).

Definition cache_validated_qc (c : CertificateCache) (qc : QuorumCertificate) : CertificateCache :=
  {| c with qc_lru := lru_put (qc_lru c) (rlp_qc qc) |}.
Definition qc_is_cached_validated (c : CertificateCache) (qc : QuorumCertificate) : bool :=
  lru_contains (qc_lru c) (rlp_qc qc).
Definition cache_validated_tc (c : CertificateCache) (tc : TimeoutCertificate) : CertificateCache :=
  {| c with tc_lru := lru_put (tc_lru c) (rlp_tc tc) |}.
Definition tc_is_cached_validated (c : CertificateCache) (tc : TimeoutCertificate) : bool :=
  lru_contains (tc_lru c) (rlp_tc tc).
Definition cache_validated_nec (c : CertificateCache) (nec : NoEndorsementCertificate) : CertificateCache :=
  {| c with nec_lru := lru_put (nec_lru c) (rlp_nec nec) |}.
Definition nec_is_cached_validated (c : CertificateCache) (nec : NoEndorsementCertificate) : bool :=
  lru_contains (nec_lru c) (rlp_nec nec).
End certificate_cache.

(** ** The monad of the verification functions *)
Section check.
Context `{P : Params} {L : Lru}.

Definition check (A : Type) : Type := CertificateCache → outcome (CertificateCache * result Error A).

#[global] Instance check_ret : MRet check := λ A a c, Ret (c, Ok a).
#[global] Instance check_bind : MBind check := λ A B f m c,
  match m c with
  | Ret (c, Ok a) => f a c
  | Ret (c, Err e) => Ret (c, Err e)
  | Panic => Panic
  | OutOfFuel => OutOfFuel
  end.

Definition throw {A} (e : Error) : check A := λ c, Ret (c, Err e).
(** A computation that does not touch the cache. *)
Definition lift {A} (m : outcome (result Error A)) : check A := λ c,
  match m with
  | Ret r => Ret (c, r)
  | Panic => Panic
  | OutOfFuel => OutOfFuel
  end.
(** [.map_err(|_| e)?] *)
Definition map_err {E A} (r : result E A) (e : Error) : result Error A :=
  match r with Ok a => Ok a | Err _ => Err e end.
(** [if !b { return Err(e) }] *)
Definition ensure (b : bool) (e : Error) : check unit := if b then mret tt else throw e.
(** [if cached { return Ok(()) }; m] *)
Definition unless_cached (cached : CertificateCache → bool) (m : check unit) : check unit := λ c,
  if cached c then Ret (c, Ok tt) else m c.
Definition update_cache (f : CertificateCache → CertificateCache) : check unit := λ c, Ret (f c, Ok tt).
End check.

(** ** signing.rs: certificates *)

(** The validators of an epoch, their certificate keys, and the leader of the
    round, as [epoch_to_validators] finds them. *)
Notation epoch_validators :=
  (Epoch → Round → outcome (result Error (ValidatorSet * ValidatorMapping * NodeId))) (only parsing).

Section verify_certificates.
Context `{P : Params} {CD : Codec} {AS : AuthorSigning} {SC : SignatureCollection} {LE : LeaderElection} {L : Lru}.

Definition epoch_to_validators (em : EpochManager) (vem : ValidatorsEpochMapping)
    (epoch : Epoch) (round : Round) : outcome (result Error (ValidatorSet * ValidatorMapping * NodeId)) :=
  match get_epoch em round with
  | None => Ret (Err InvalidEpoch)
  | Some local_epoch =>
      if bool_decide (epoch ≠ local_epoch) then Ret (Err InvalidEpoch) else
      match get_val_set vem epoch with
      | None => Ret (Err ValidatorSetDataUnavailable)
      | Some validator_set =>
          match get_cert_pubkeys vem epoch with
          | None => Ret (Err ValidatorSetDataUnavailable)
          | Some validator_cert_pubkeys =>
              leader ← get_leader round (validators validator_set);
              Ret (Ok (validator_set, validator_cert_pubkeys, leader))
          end
      end
  end.

(** [match validators.has_super_majority_votes(..) { .. }?] *)
Definition check_super_majority (vs : ValidatorSet) (node_ids : list NodeId) : check unit :=
  lift (r ← has_super_majority_votes vs node_ids;
        Ret match r with
            | Err _ => Err SignaturesDuplicateNode
            | Ok false => Err InsufficientStake
            | Ok true => Ok tt
            end).

Section with_validators.
Context (e2v : epoch_validators).

Definition verify_qc (qc : QuorumCertificate) : check unit :=
  unless_cached (λ c, qc_is_cached_validated c qc)
  ('(vs, validator_mapping, _) ← lift (e2v (qc_get_epoch qc) (qc_get_round qc));
   if bool_decide (qc_get_round qc = GENESIS_ROUND) then
     genesis ← lift (g ← genesis_qc; Ret (Ok g));
     ensure (bool_decide (qc = genesis)) InvalidSignature
   else
     node_ids ← lift (Ret (map_err
       (sc_verify (qc_signatures qc) SdVote validator_mapping (rlp_vote (qc_info qc))) InvalidSignature));
     _ ← check_super_majority vs node_ids;
     update_cache (λ c, cache_validated_qc c qc)).

Definition verify_nec (nec : NoEndorsementCertificate) : check unit :=
  unless_cached (λ c, nec_is_cached_validated c nec)
  ('(vs, validator_mapping, _) ← lift (e2v (ne_epoch (nec_msg nec)) (ne_round (nec_msg nec)));
   node_ids ← lift (Ret (map_err
     (sc_verify (nec_signatures nec) SdNoEndorsement validator_mapping (rlp_no_endorsement (nec_msg nec)))
     InvalidSignature));
   _ ← check_super_majority vs node_ids;
   update_cache (λ c, cache_validated_nec c nec)).

(** [for signer in &signers]: insert each into the set, stop at the first
    that is already in it. *)
Fixpoint insert_signers (seen : gset NodeId) (signers : list NodeId) : option (gset NodeId) :=
  match signers with
  | [] => Some seen
  | signer :: signers =>
      if bool_decide (signer ∈ seen) then None else insert_signers ({[signer]} ∪ seen) signers
  end.

(** The loop over [tc.tip_rounds]. *)
Fixpoint verify_tip_rounds (epoch : Epoch) (round : Round) (validator_mapping : ValidatorMapping)
    (tip_rounds : list HighTipRoundSigColTuple) (node_ids : list NodeId) (highest_rank : HighExtendRank)
    (seen_tip_rounds : gset (Round * Round)) (seen_node_ids : gset NodeId)
    : result Error (list NodeId * HighExtendRank) :=
  match tip_rounds with
  | [] => Ok (node_ids, highest_rank)
  | t :: tip_rounds =>
      if bool_decide (round ≤ tr_high_qc_round t) then Err InvalidTcRound else
      if bool_decide ((tr_high_qc_round t, tr_high_tip_round t) ∈ seen_tip_rounds)
      then Err DuplicateTcTipRound else
      let seen_tip_rounds := {[(tr_high_qc_round t, tr_high_tip_round t)]} ∪ seen_tip_rounds in
      if bool_decide (sc_num_signatures (tr_sigs t) = 0) then Err EmptySignersTcTipRound else
      let highest_rank :=
        match rank_cmp (tip_rounds_rank t) highest_rank with Gt => tip_rounds_rank t | _ => highest_rank end in
      let td := mkTimeoutInfo epoch round (tr_high_qc_round t) (tr_high_tip_round t) in
      signers ← map_err (sc_verify (tr_sigs t) SdTimeout validator_mapping (rlp_timeout_info td))
                        InvalidSignature;
      seen_node_ids ← ok_or (insert_signers seen_node_ids signers) SignaturesDuplicateNode;
      verify_tip_rounds epoch round validator_mapping tip_rounds (node_ids ++ signers) highest_rank
        seen_tip_rounds seen_node_ids
  end.

(** [verify_tc], with the call to [verify_high_extend] abstracted. *)
Definition verify_tc_body (verify_high_extend : HighExtend → check unit) (tc : TimeoutCertificate)
    : check unit :=
  unless_cached (λ c, tc_is_cached_validated c tc)
  ('(vs, validator_mapping, _) ← lift (e2v (tc_epoch tc) (tc_round tc));
   _ ← ensure (bool_decide (length (tc_tip_rounds tc) ≤ size (validators vs))%nat) TooManyTcTipRound;
   '(node_ids, highest_rank) ← lift (Ret (verify_tip_rounds (tc_epoch tc) (tc_round tc) validator_mapping
     (tc_tip_rounds tc) [] (RankQc GENESIS_ROUND) ∅ ∅));
   _ ← check_super_majority vs node_ids;
   _ ← verify_high_extend (tc_high_extend tc);
   _ ← ensure (bool_decide (high_extend_rank (tc_high_extend tc) = highest_rank)) NotWellFormed;
   update_cache (λ c, cache_validated_tc c tc)).

(** The checks of [verify_tip] on the fresh-proposal certificate. *)
Definition fresh_certificate_fits (tip : ConsensusTip) : bool :=
  let header := tip_block_header tip in
  if immediately_follows (bh_block_round header) (qc_get_round (bh_qc header)) then
    match tip_fresh_certificate tip with None => true | Some _ => false end
  else
    match tip_fresh_certificate tip with
    | None => false
    | Some (Nec nec) =>
        bool_decide (ne_round (nec_msg nec) = bh_block_round header) &&
        bool_decide (ne_tip_qc_round (nec_msg nec) = qc_get_round (bh_qc header))
    | Some (NoTip no_tip) =>
        immediately_follows (bh_block_round header) (nt_round no_tip) &&
        bool_decide (qc_get_round (nt_high_qc no_tip) = qc_get_round (bh_qc header))
    end.

Definition no_tip_tc (no_tip : NoTipCertificate) : TimeoutCertificate :=
  mkTC (nt_epoch no_tip) (nt_round no_tip) (nt_tip_rounds no_tip) (HeQc (nt_high_qc no_tip)).

(** [verify_tip], with the call to [verify_tc] abstracted. *)
Definition verify_tip_body (verify_tc : TimeoutCertificate → check unit) (tip : ConsensusTip) : check unit :=
  let header := tip_block_header tip in
  '(_, _, leader) ← lift (e2v (bh_epoch header) (bh_block_round header));
  tip_author ← lift (Ret (ok_or (signature_author tip) InvalidSignature));
  _ ← ensure (bool_decide (tip_author = leader) && bool_decide (tip_author = bh_author header)) InvalidAuthor;
  _ ← ensure (fresh_certificate_fits tip) NotWellFormed;
  _ ← verify_qc (bh_qc header);
  match tip_fresh_certificate tip with
  | Some (Nec nec) => verify_nec nec
  | Some (NoTip no_tip) => verify_tc (no_tip_tc no_tip)
  | None => mret tt
  end.

Definition verify_high_extend_body (verify_tip : ConsensusTip → check unit) (he : HighExtend) : check unit :=
  match he with
  | HeQc qc => verify_qc qc
  | HeTip tip => verify_tip tip
  end.

(** The mutual recursion of [verify_tc], [verify_high_extend] and
    [verify_tip]: the timeout certificate of a tip extends a certificate, not
    a tip, so two levels are enough. *)
Fixpoint verify_tc_fuel (fuel : nat) (tc : TimeoutCertificate) : check unit :=
  match fuel with
  | O => λ _, OutOfFuel
  | S fuel => verify_tc_body (verify_high_extend_body (verify_tip_body (verify_tc_fuel fuel))) tc
  end.

Definition verify_tc : TimeoutCertificate → check unit := verify_tc_fuel 2.
Definition verify_tip : ConsensusTip → check unit := verify_tip_body verify_tc.
Definition verify_high_extend : HighExtend → check unit := verify_high_extend_body verify_tip.
End with_validators.
End verify_certificates.

(** ** signing.rs: messages *)
Section validate_messages.
Context `{P : Params} {CD : Codec} {CS : CertSignature} {AS : AuthorSigning} {SC : SignatureCollection}
        {LE : LeaderElection} {L : Lru}.
Context (em : EpochManager) (vem : ValidatorsEpochMapping).

(** The [verify_epoch] of each message: its epoch is the local record for its
    round. *)
Definition verify_epoch (round : Round) (epoch : Epoch) : check unit :=
  match get_epoch em round with
  | Some local_epoch => ensure (bool_decide (epoch = local_epoch)) InvalidEpoch
  | None => throw InvalidEpoch
  end.

Definition well_formed_proposal (m : ProposalMessage) : check unit :=
  let header := tip_block_header (pr_tip m) in
  if bool_decide (bh_block_body_id header ≠ body_get_id (pr_block_body m)) then throw NotWellFormed else
  if immediately_follows (pr_proposal_round m) (qc_get_round (bh_qc header)) then
    ensure (match pr_last_round_tc m with None => true | Some _ => false end) NotWellFormed
  else
    match pr_last_round_tc m with
    | None => throw NotWellFormed
    | Some tc =>
        if negb (immediately_follows (pr_proposal_round m) (tc_round tc)) then throw NotWellFormed else
        match tc_high_extend tc with
        | HeQc tc_qc => ensure (bool_decide (qc_get_round tc_qc = qc_get_round (bh_qc header))) NotWellFormed
        | HeTip tc_tip =>
            if bool_decide (tc_tip = pr_tip m) then mret tt else
            if bool_decide (pr_proposal_round m ≠ bh_block_round header) then throw NotWellFormed else
            ensure (bool_decide (qc_get_round (bh_qc (tip_block_header tc_tip)) = qc_get_round (bh_qc header)))
                   NotWellFormed
        end
    end.

(** [ProposalMessage::validate]. *)
Definition proposal_validate (m : ProposalMessage) : check unit :=
  _ ← well_formed_proposal m;
  _ ← verify_epoch (pr_proposal_round m) (pr_proposal_epoch m);
  _ ← verify_tip (epoch_to_validators em vem) (pr_tip m);
  match pr_last_round_tc m with
  | Some tc => verify_tc (epoch_to_validators em vem) tc
  | None => mret tt
  end.

(** [VoteMessage::validate]. *)
Definition vote_validate (m : VoteMessage) : check unit :=
  _ ← ensure (cert_validate (vm_sig m)) InvalidSignature;
  verify_epoch (vote_round (vm_vote m)) (vote_epoch (vm_vote m)).

Definition well_formed_timeout (t : Timeout) : check unit :=
  if bool_decide (high_extend_vote_rank (to_high_extend t) ≠ timeout_info_rank (to_tminfo t))
  then throw NotWellFormed else
  if immediately_follows (ti_round (to_tminfo t)) (qc_get_round (high_extend_vote_qc (to_high_extend t))) then
    ensure (match to_last_round_certificate t with None => true | Some _ => false end) NotWellFormed
  else
    match to_last_round_certificate t with
    | None => throw NotWellFormed
    | Some round_certificate =>
        ensure (immediately_follows (ti_round (to_tminfo t)) (round_certificate_round round_certificate))
               NotWellFormed
    end.

(** The match of [TimeoutMessage::validate] and [AdvanceRoundMessage::validate]
    on a round certificate. *)
Definition verify_round_certificate (c : RoundCertificate) : check unit :=
  match c with
  | RcTc tc => verify_tc (epoch_to_validators em vem) tc
  | RcQc qc => verify_qc (epoch_to_validators em vem) qc
  end.

(** [TimeoutMessage::validate]. *)
Definition timeout_validate (t : Timeout) : check unit :=
  _ ← ensure (cert_validate (to_timeout_signature t)) InvalidSignature;
  _ ← well_formed_timeout t;
  _ ← verify_epoch (ti_round (to_tminfo t)) (ti_epoch (to_tminfo t));
  _ ← match to_last_round_certificate t with
      | Some c => verify_round_certificate c
      | None => mret tt
      end;
  verify_high_extend (epoch_to_validators em vem) (high_extend_of_vote (to_high_extend t)).

Definition well_formed_round_recovery (m : RoundRecoveryMessage) : check unit :=
  if negb (immediately_follows (rr_round m) (tc_round (rr_tc m))) then throw InvalidTcRound else
  match tc_high_extend (rr_tc m) with
  | HeQc _ => throw NotWellFormed
  | HeTip _ => mret tt
  end.

(** [RoundRecoveryMessage::validate]. *)
Definition round_recovery_validate (m : RoundRecoveryMessage) : check unit :=
  _ ← well_formed_round_recovery m;
  _ ← verify_epoch (rr_round m) (rr_epoch m);
  verify_tc (epoch_to_validators em vem) (rr_tc m).

(** [NoEndorsementMessage::validate]. *)
Definition no_endorsement_validate (m : NoEndorsementMessage) : check unit :=
  _ ← ensure (cert_validate (nem_signature m)) InvalidSignature;
  verify_epoch (ne_round (nem_msg m)) (ne_epoch (nem_msg m)).

(** [AdvanceRoundMessage::validate]. *)
Definition advance_round_validate (m : AdvanceRoundMessage) : check unit :=
  verify_round_certificate (ar_last_round_certificate m).

(** [Verified::validate]: the message is returned unchanged when it is valid. *)
Definition validate (self : Verified) (client_version : N) : check Verified :=
  let msg := uv_obj (vf_message self) in
  if bool_decide (cm_version msg ≠ client_version) then throw InvalidVersion else
  _ ← match cm_message msg with
      | PmProposal m => proposal_validate m
      | PmVote m => vote_validate m
      | PmTimeout m => timeout_validate m
      | PmRoundRecovery m => round_recovery_validate m
      | PmNoEndorsement m => no_endorsement_validate m
      | PmAdvanceRound m => advance_round_validate m
      end;
  mret self.
End validate_messages.
