(* ===== verification/ValidationSpec.v ===== *)
(** * What validation decides

    For every certificate and message, a declarative condition ([qc_valid],
    [tc_valid], [tip_valid], [message_valid], ...) that does not mention the
    caches, and proofs that the functions of Validation.v return, and accept
    exactly when the condition holds, from every cache that holds valid
    certificates only; such caches stay such. *)
From S2P Require Import Prelude Types Interfaces MultiSig Certificates Concrete ValidatorSet Epochs Leader VoteState NoEndorsementState Messages Validation.

(** [r] is the greatest of [l] and of the rank of the genesis certificate. *)
Definition highest_rank_of (l : list HighExtendRank) (r : HighExtendRank) : Prop :=
  r ∈ RankQc GENESIS_ROUND :: l ∧ ∀ r', r' ∈ RankQc GENESIS_ROUND :: l → rank_le r' r.

Section valid.
Context `{P : Params} {CD : Codec} {AS : AuthorSigning} {SC : SignatureCollection}.
Context (e2v : epoch_validators).

(** A quorum certificate is valid when it is the genesis certificate, or its
    signatures are those of a super-majority of its epoch on its vote. *)
Definition qc_valid (qc : QuorumCertificate) : Prop :=
  ∃ vs m leader, e2v (qc_get_epoch qc) (qc_get_round qc) = Ret (Ok (vs, m, leader)) ∧
    if decide (qc_get_round qc = GENESIS_ROUND) then genesis_qc = Ret qc
    else ∃ nodes, sc_verify (qc_signatures qc) SdVote m (rlp_vote (qc_info qc)) = Ok nodes ∧
                  has_super_majority_votes vs nodes = Ret (Ok true).

Definition nec_valid (nec : NoEndorsementCertificate) : Prop :=
  ∃ vs m leader nodes, e2v (ne_epoch (nec_msg nec)) (ne_round (nec_msg nec)) = Ret (Ok (vs, m, leader)) ∧
    sc_verify (nec_signatures nec) SdNoEndorsement m (rlp_no_endorsement (nec_msg nec)) = Ok nodes ∧
    has_super_majority_votes vs nodes = Ret (Ok true).

(** One group of a timeout certificate: [signers] signed this pair of rounds
    in a timeout of round [round]. *)
Definition tip_rounds_signed (epoch : Epoch) (round : Round) (m : ValidatorMapping)
    (t : HighTipRoundSigColTuple) (signers : list NodeId) : Prop :=
  tr_high_qc_round t < round ∧ sc_num_signatures (tr_sigs t) ≠ 0 ∧
  sc_verify (tr_sigs t) SdTimeout m
    (rlp_timeout_info (mkTimeoutInfo epoch round (tr_high_qc_round t) (tr_high_tip_round t))) = Ok signers.

Definition tip_rounds_pair (t : HighTipRoundSigColTuple) : Round * Round :=
  (tr_high_qc_round t, tr_high_tip_round t).

(** A timeout certificate is valid when its groups are of distinct pairs of
    rounds, their signers together are a super-majority, each counted once,
    and what it extends is valid and ranks as the highest of the groups. *)
Definition tc_valid_with (extend_valid : HighExtend → Prop) (tc : TimeoutCertificate) : Prop :=
  ∃ vs m leader signers, e2v (tc_epoch tc) (tc_round tc) = Ret (Ok (vs, m, leader)) ∧
    (length (tc_tip_rounds tc) ≤ size (validators vs))%nat ∧
    Forall2 (tip_rounds_signed (tc_epoch tc) (tc_round tc) m) (tc_tip_rounds tc) signers ∧
    NoDup (tip_rounds_pair <$> tc_tip_rounds tc) ∧
    has_super_majority_votes vs (concat signers) = Ret (Ok true) ∧
    extend_valid (tc_high_extend tc) ∧
    highest_rank_of (tip_rounds_rank <$> tc_tip_rounds tc) (high_extend_rank (tc_high_extend tc)).

Definition no_tip_valid (no_tip : NoTipCertificate) : Prop :=
  tc_valid_with (λ he, match he with HeQc qc => qc_valid qc | HeTip _ => False end) (no_tip_tc no_tip).

(** A tip is valid when the leader of its round signed it and is its author,
    the certificate it extends is valid, and, unless that certificate is of
    the preceding round, a valid certificate justifies proposing afresh. *)
Definition tip_valid (tip : ConsensusTip) : Prop :=
  let header := tip_block_header tip in
  ∃ vs m leader, e2v (bh_epoch header) (bh_block_round header) = Ret (Ok (vs, m, leader)) ∧
    signature_author tip = Some leader ∧ bh_author header = leader ∧
    fresh_certificate_fits tip = true ∧ qc_valid (bh_qc header) ∧
    match tip_fresh_certificate tip with
    | None => True
    | Some (Nec nec) => nec_valid nec
    | Some (NoTip no_tip) => no_tip_valid no_tip
    end.

Definition high_extend_valid (he : HighExtend) : Prop :=
  match he with HeQc qc => qc_valid qc | HeTip tip => tip_valid tip end.

Definition tc_valid : TimeoutCertificate → Prop := tc_valid_with high_extend_valid.

(** Everything the caches hold is valid. *)
Definition cache_valid {L : Lru} (c : CertificateCache) : Prop :=
  (∀ qc, qc_is_cached_validated c qc = true → qc_valid qc) ∧
  (∀ tc, tc_is_cached_validated c tc = true → tc_valid tc) ∧
  (∀ nec, nec_is_cached_validated c nec = true → nec_valid nec).
End valid.

(** ** Exact computations *)
Section computes.
Context `{P : Params} {L : Lru}.
Context (I : CertificateCache → Prop).

(** From every cache that satisfies [I], [m] returns, [I] holds again, and
    the values it can return are those that satisfy [Φ]: no other error or
    panic is possible when one exists. *)
Definition computes {A} (m : check A) (Φ : A → Prop) : Prop :=
  ∀ c, I c → ∃ c' r, m c = Ret (c', r) ∧ I c' ∧ ∀ a, r = Ok a ↔ Φ a.

Lemma computes_iff {A} (m : check A) Φ Ψ : computes m Φ → (∀ a, Φ a ↔ Ψ a) → computes m Ψ.
Proof. intros Hm HΦ c Hc. destruct (Hm c Hc) as (c' & r & ? & ? & Hr). exists c', r. naive_solver. Qed.

Lemma computes_ret {A} (a : A) : computes (mret a) (λ b, b = a).
Proof. intros c Hc. exists c, (Ok a). naive_solver. Qed.

Lemma computes_throw {A} e : computes (A:=A) (throw e) (λ _, False).
Proof. intros c Hc. exists c, (Err e). naive_solver. Qed.

Lemma computes_ensure b e : computes (ensure b e) (λ _, b = true).
Proof. destruct b; intros c Hc; [exists c, (Ok tt)|exists c, (Err e)]; split_and!; try done; by intros []. Qed.

Lemma computes_lift {A} (m : outcome (result Error A)) : is_ret m → computes (lift m) (λ a, m = Ret (Ok a)).
Proof. intros [r ->] c Hc. exists c, r. split_and!; [done..|]. intros a. split; [by intros ->|by intros [= ->]]. Qed.

Lemma computes_bind {A B} (m : check A) (f : A → check B) Φ Ψ :
  computes m Φ → (∀ a, Φ a → computes (f a) (Ψ a)) → computes (m ≫= f) (λ b, ∃ a, Φ a ∧ Ψ a b).
Proof.
  intros Hm Hf c Hc. destruct (Hm c Hc) as (c1 & r1 & Hm1 & Hc1 & Hr1).
  unfold mbind, check_bind. rewrite Hm1. destruct r1 as [a|e].
  - assert (Φ a) as Ha by by apply Hr1. destruct (Hf a Ha c1 Hc1) as (c2 & r2 & Hm2 & Hc2 & Hr2).
    exists c2, r2. split_and!; [done..|]. intros b. rewrite Hr2. split; [eauto|].
    intros (a' & Ha' & Hb). apply Hr1 in Ha'. by simplify_eq.
  - exists c1, (Err e). split_and!; [done..|]. intros b. split; [done|].
    intros (a' & Ha' & _). by apply Hr1 in Ha'.
Qed.

(** The case of an intermediate unit value. *)
Lemma computes_seq {B} (m : check unit) (k : check B) (Q : Prop) Ψ :
  computes m (λ _, Q) → (Q → computes k Ψ) → computes (_ ← m; k) (λ b, Q ∧ Ψ b).
Proof.
  intros Hm Hk. eapply computes_iff; [apply (computes_bind _ _ _ (λ _, Ψ) Hm); auto|].
  intros b. split; [intros ([] & ? & ?); eauto|intros [? ?]; by exists tt].
Qed.

Lemma computes_update f : (∀ c, I c → I (f c)) → computes (update_cache f) (λ _, True).
Proof. intros Hf c Hc. exists (f c), (Ok tt). split_and!; [done|auto|]. by intros []. Qed.

Lemma computes_cached cached m Φ :
  (∀ c, I c → cached c = true → Φ tt) → computes m Φ → computes (unless_cached cached m) Φ.
Proof.
  intros Hcached Hm c Hc. unfold unless_cached. destruct (cached c) eqn:E; [|by apply Hm].
  exists c, (Ok tt). split_and!; [done..|]. intros []. split; [|done]. intros _. by eapply Hcached.
Qed.
End computes.

(** ** The loop over the groups of a timeout certificate *)

Definition rank_max (a b : HighExtendRank) : HighExtendRank :=
  match rank_cmp b a with Gt => b | _ => a end.

Lemma rank_max_cases a b :
  (rank_max a b = a ∧ rank_le b a) ∨ (rank_max a b = b ∧ rank_le a b).
Proof.
  unfold rank_max. destruct (rank_cmp b a) eqn:E; [left|left|right].
  1-2: split; [done|]; unfold rank_le; by rewrite E.
  split; [done|]. apply rank_gt_cases in E. unfold rank_le. by rewrite E.
Qed.

Lemma rank_le_antisymm a b : rank_le a b → rank_le b a → a = b.
Proof.
  rewrite !rank_le_alt. intros [H1|?] [H2|?]; [|done..].
  pose proof (rank_lt_trans _ _ _ H1 H2) as H. by rewrite (proj2 (rank_eq_cases a a) eq_refl) in H.
Qed.

Lemma foldl_rank_max a l r :
  foldl rank_max a l = r ↔ r ∈ a :: l ∧ ∀ r', r' ∈ a :: l → rank_le r' r.
Proof.
  assert (foldl rank_max a l ∈ a :: l ∧ ∀ r', r' ∈ a :: l → rank_le r' (foldl rank_max a l)) as [Hin Hle].
  { revert a. induction l as [|b l IH]; intros a; simpl.
    { split; [left|]. intros r' ->%list_elem_of_singleton. reflexivity. }
    destruct (IH (rank_max a b)) as [Hin Hle].
    assert (rank_le a (rank_max a b) ∧ rank_le b (rank_max a b) ∧ rank_max a b ∈ [a; b]) as (Ha & Hb & Hab).
    { destruct (rank_max_cases a b) as [[-> ?]|[-> ?]]; (split; [done||reflexivity|]; split; [done||reflexivity|]; set_solver). }
    assert (rank_le (rank_max a b) (foldl rank_max (rank_max a b) l)) as Hm by (apply Hle; left).
    split.
    { apply elem_of_cons in Hin as [->|Hin]; [|by do 2 right].
      apply elem_of_cons in Hab as [->|Hab]; [left|]. apply list_elem_of_singleton in Hab as ->. right. left. }
    intros r' [->|[->|Hr']%elem_of_cons]%elem_of_cons.
    - by etrans.
    - by etrans.
    - apply Hle. by right. }
  split; [by intros <-|]. intros [Hin' Hle']. apply rank_le_antisymm; auto.
Qed.

Section tip_rounds.
Context `{P : Params} {CD : Codec} {SC : SignatureCollection}.

Lemma insert_signers_Some seen l s :
  insert_signers seen l = Some s ↔ NoDup l ∧ Forall (.∉ seen) l ∧ s = list_to_set l ∪ seen.
Proof.
  revert seen. induction l as [|x l IH]; intros seen; simpl.
  { rewrite (left_id_L ∅ (∪)). split; [intros [= ->]; split_and!; by constructor|].
    by intros (_ & _ & ->). }
  rewrite NoDup_cons, Forall_cons. case_bool_decide as Hx; [naive_solver|].
  rewrite IH, !Forall_forall. split.
  - intros (Hnd & Hl & ->). split_and!; [|done|done| |set_solver]; set_solver.
  - intros ((Hxl & Hnd) & (_ & Hl) & ->). split_and!; [done| |set_solver]. set_solver.
Qed.

Lemma map_err_ok {E A} (r : result E A) e a : map_err r e = Ok a ↔ r = Ok a.
Proof. destruct r; simpl; split; congruence. Qed.

Lemma ok_or_ok {E A} (o : option A) (e : E) a : ok_or o e = Ok a ↔ o = Some a.
Proof. destruct o; simpl; split; congruence. Qed.

Lemma bind_ok {E A B} (m : result E A) (f : A → result E B) b :
  m ≫= f = Ok b ↔ ∃ a, m = Ok a ∧ f a = Ok b.
Proof. split; [apply ok_bind_inv|]. by intros (a & -> & ?). Qed.

Lemma verify_tip_rounds_ok e r m l nodes rank seen seen_ids res :
  verify_tip_rounds e r m l nodes rank seen seen_ids = Ok res ↔
    ∃ signers, Forall2 (tip_rounds_signed e r m) l signers ∧
      (NoDup (tip_rounds_pair <$> l) ∧ Forall (.∉ seen) (tip_rounds_pair <$> l)) ∧
      (NoDup (concat signers) ∧ Forall (.∉ seen_ids) (concat signers)) ∧
      res = (nodes ++ concat signers, foldl rank_max rank (tip_rounds_rank <$> l)).
Proof.
  revert nodes rank seen seen_ids. induction l as [|t l IH]; intros nodes rank seen seen_ids.
  { simpl. split.
    - intros [= <-]. exists []. simpl. rewrite app_nil_r. split_and!; try constructor; done.
    - intros (signers & ->%Forall2_nil_inv_l & _ & _ & ->). simpl. by rewrite app_nil_r. }
  cbn [verify_tip_rounds]. fold (rank_max rank (tip_rounds_rank t)).
  fold (tip_rounds_pair t).
  case_bool_decide as Hr.
  { split; [done|]. intros (signers & (s & k & (Hlt & _) & _)%Forall2_cons_inv_l & _). lia. }
  rewrite fmap_cons. case_bool_decide as Hseen.
  { split; [done|]. intros (signers & _ & (_ & Hf) & _). by apply Forall_cons in Hf as [? _]. }
  case_bool_decide as Hn.
  { split; [done|]. by intros (signers & (s & k & (_ & ? & _) & _)%Forall2_cons_inv_l & _). }
  rewrite bind_ok. setoid_rewrite map_err_ok. split.
  - intros (s & Hs & Hrec). apply bind_ok in Hrec as (ids & Hids & Hrec).
    apply ok_or_ok, insert_signers_Some in Hids as (Hnd & Hfresh & ->).
    apply IH in Hrec as (signers & H2 & (Hp1 & Hp2) & (Hc1 & Hc2) & ->).
    exists (s :: signers). rewrite !Forall_forall in *. simpl. split_and!.
    + constructor; [|done]. split_and!; [lia|done|done].
    + constructor; [|done]. intros Hin%Hp2. set_solver.
    + set_solver.
    + apply NoDup_app. split_and!; [done| |done]. intros x Hx Hx'%Hc2. set_solver.
    + set_solver.
    + by rewrite <- (assoc_L (++)).
  - intros (signers & (s & k & (_ & _ & Hs) & H2 & ->)%Forall2_cons_inv_l & (Hp1 & Hp2) & (Hc1 & Hc2) & ->).
    exists s. split; [done|]. apply bind_ok. simpl in Hc1, Hc2.
    apply NoDup_app in Hc1 as (Hnd & Hdisj & Hnd'). apply Forall_app in Hc2 as [Hf1 Hf2].
    apply NoDup_cons in Hp1 as [Hp1 Hp1']. apply Forall_cons in Hp2 as [_ Hp2].
    exists (list_to_set s ∪ seen_ids). rewrite ok_or_ok, insert_signers_Some. split; [done|].
    apply IH. exists k. rewrite !Forall_forall in *. simpl. split_and!; try done.
    + intros x Hx. rewrite elem_of_union, elem_of_singleton. intros [->|?]; [done|by apply (Hp2 x)].
    + intros x Hx. rewrite elem_of_union, elem_of_list_to_set. intros [?|?]; [by apply (Hdisj x)|by apply (Hf2 x)].
    + by rewrite <- (assoc_L (++)).
Qed.
End tip_rounds.

(** ** Exactness *)

(** What verification relies on: the laws of the LRU cache and of the
    signature collection, injective encodings (the cache keys), and a total
    lookup of well-formed validator sets. *)
Record verify_env `{P : Params} {CD : Codec} {SC : SignatureCollection} {L : Lru} (e2v : epoch_validators)
    : Prop := {
  ve_lru : lru_laws L;
  ve_sc : sc_laws sc_new sc_verify;
  ve_qc_inj : Inj (=) (=) rlp_qc;
  ve_tc_inj : Inj (=) (=) rlp_tc;
  ve_nec_inj : Inj (=) (=) rlp_nec;
  ve_total : ∀ e r, is_ret (e2v e r);
  ve_wf : ∀ e r vs m leader, e2v e r = Ret (Ok (vs, m, leader)) → vs_wf vs;
}.

Lemma has_super_majority_votes_ret `{P : Params} vs nodes : vs_wf vs →
  is_ret (has_super_majority_votes vs nodes).
Proof.
  intros Hwf. destruct (decide (NoDup nodes)) as [Hnd|Hnd].
  - unfold has_super_majority_votes. rewrite has_threshold_votes_ok by done. by eexists.
  - unfold has_super_majority_votes, has_threshold_votes, calculate_current_stake.
    destruct (first_duplicate ∅ nodes) eqn:Hd; [by eexists|].
    by apply first_duplicate_None in Hd as [? _].
Qed.

Section exact.
Context `{P : Params} {CD : Codec} {AS : AuthorSigning} {SC : SignatureCollection} {L : Lru}.
Context (e2v : epoch_validators) (Henv : verify_env e2v).

Lemma cache_qc_valid c qc : cache_valid e2v c → qc_valid e2v qc → cache_valid e2v (cache_validated_qc c qc).
Proof using Henv.
  intros (Hq & Ht & Hn) Hv. split; [|done]. intros qc' Hc.
  apply (lru_put_contains _ (ve_lru _ Henv)) in Hc as [Heq|Hc]; [|by apply Hq].
  by apply (ve_qc_inj _ Henv) in Heq as ->.
Qed.
Lemma cache_tc_valid c tc : cache_valid e2v c → tc_valid e2v tc → cache_valid e2v (cache_validated_tc c tc).
Proof using Henv.
  intros (Hq & Ht & Hn) Hv. split; [done|]. split; [|done]. intros tc' Hc.
  apply (lru_put_contains _ (ve_lru _ Henv)) in Hc as [Heq|Hc]; [|by apply Ht].
  by apply (ve_tc_inj _ Henv) in Heq as ->.
Qed.
Lemma cache_nec_valid c nec : cache_valid e2v c → nec_valid e2v nec → cache_valid e2v (cache_validated_nec c nec).
Proof using Henv.
  intros (Hq & Ht & Hn) Hv. split; [done|]. split; [done|]. intros nec' Hc.
  apply (lru_put_contains _ (ve_lru _ Henv)) in Hc as [Heq|Hc]; [|by apply Hn].
  by apply (ve_nec_inj _ Henv) in Heq as ->.
Qed.

Lemma cache_default_valid : cache_valid e2v certificate_cache_default.
Proof using Henv.
  split; [|split]; intros x H; unfold qc_is_cached_validated, tc_is_cached_validated, nec_is_cached_validated in H;
    simpl in H; by rewrite (lru_new_empty _ (ve_lru _ Henv)) in H.
Qed.

Notation computes := (computes (cache_valid e2v)).

Lemma computes_super_majority vs nodes : vs_wf vs →
  computes (check_super_majority vs nodes) (λ _, has_super_majority_votes vs nodes = Ret (Ok true)).
Proof.
  intros Hwf. destruct (has_super_majority_votes_ret vs nodes Hwf) as [r Hr].
  unfold check_super_majority. rewrite Hr. simpl.
  eapply computes_iff; [apply computes_lift; by eexists|].
  intros []. destruct r as [[]|]; split; congruence.
Qed.

(** A collection signed by a super-majority. *)
Definition quorum_signed (vs : ValidatorSet) (m : ValidatorMapping) (d : SigningDomain) (sc : SigCol)
    (msg : bytes) : Prop :=
  ∃ nodes, sc_verify sc d m msg = Ok nodes ∧ has_super_majority_votes vs nodes = Ret (Ok true).

Lemma computes_quorum vs m d sc msg f : vs_wf vs →
  (quorum_signed vs m d sc msg → ∀ c, cache_valid e2v c → cache_valid e2v (f c)) →
  computes (node_ids ← lift (Ret (map_err (sc_verify sc d m msg) InvalidSignature));
            _ ← check_super_majority vs node_ids; update_cache f)
           (λ _, quorum_signed vs m d sc msg).
Proof.
  intros Hwf Hf. eapply computes_iff.
  - eapply (computes_bind _ _ _ _ (λ nodes _, has_super_majority_votes vs nodes = Ret (Ok true) ∧ True));
      [apply computes_lift; by eexists|].
    intros nodes Hnodes. apply computes_seq; [by apply computes_super_majority|].
    intros Hsup. apply computes_update, Hf. exists nodes.
    split; [|done]. injection Hnodes as Hnodes. by apply map_err_ok in Hnodes.
  - intros []. split.
    + intros (nodes & [= Hn] & Hs & _). apply map_err_ok in Hn. by exists nodes.
    + intros (nodes & Hn & Hs). exists nodes. by rewrite Hn.
Qed.

(** The lookup of the validators, as the first step. *)
Lemma computes_lookup {B} e r (k : ValidatorSet * ValidatorMapping * NodeId → check B) Ψ :
  (∀ vs m leader, e2v e r = Ret (Ok (vs, m, leader)) → computes (k (vs, m, leader)) (Ψ vs m leader)) →
  computes (v ← lift (e2v e r); k v)
    (λ b, ∃ vs m leader, e2v e r = Ret (Ok (vs, m, leader)) ∧ Ψ vs m leader b).
Proof using Henv.
  intros Hk. eapply computes_iff.
  - eapply (computes_bind _ _ _ _ (λ '(vs, m, leader), Ψ vs m leader));
      [apply computes_lift, (ve_total _ Henv)|]. intros [[vs m] leader]. apply Hk.
  - intros b. split; [intros ([[vs m] leader] & ? & ?); by exists vs, m, leader|].
    intros (vs & m & leader & ? & ?). by exists (vs, m, leader).
Qed.

Lemma verify_qc_computes qc : computes (verify_qc e2v qc) (λ _, qc_valid e2v qc).
Proof using Henv.
  apply computes_cached; [by intros c (Hq & _) ?; apply Hq|].
  apply computes_lookup. intros vs m leader He. simpl. case_bool_decide as Hr.
  - rewrite decide_True by done. destruct (genesis_qc_ok (ve_sc _ Henv)) as (g & Hg & _). rewrite Hg. simpl.
    eapply computes_iff.
    + eapply (computes_bind _ _ _ _ (λ g _, bool_decide (qc = g) = true)); [apply computes_lift; by eexists|].
      intros. apply computes_ensure.
    + intros []. setoid_rewrite bool_decide_eq_true. naive_solver.
  - rewrite decide_False by done. apply computes_quorum; [by eapply (ve_wf _ Henv)|].
    intros Hsig c Hc. apply cache_qc_valid; [done|]. exists vs, m, leader. split; [done|].
    by rewrite decide_False by done.
Qed.

Lemma verify_nec_computes nec : computes (verify_nec e2v nec) (λ _, nec_valid e2v nec).
Proof using Henv.
  apply computes_cached; [by intros c (_ & _ & Hn) ?; apply Hn|].
  eapply computes_iff.
  - apply (computes_lookup _ _ _ (λ vs m _ _, quorum_signed vs m SdNoEndorsement (nec_signatures nec)
      (rlp_no_endorsement (nec_msg nec)))).
    intros vs m leader He. apply computes_quorum; [by eapply (ve_wf _ Henv)|].
    intros (nodes & ? & ?) c Hc. apply cache_nec_valid; [done|]. by exists vs, m, leader, nodes.
  - intros []. unfold nec_valid, quorum_signed. naive_solver.
Qed.

(** What [verify_tc] tests, in the order it tests it. *)
Definition tc_tests (V : HighExtend → Prop) (tc : TimeoutCertificate) (vs : ValidatorSet) (m : ValidatorMapping)
    : Prop :=
  bool_decide (length (tc_tip_rounds tc) ≤ size (validators vs))%nat = true ∧
  ∃ res : list NodeId * HighExtendRank,
    Ret (verify_tip_rounds (tc_epoch tc) (tc_round tc) m (tc_tip_rounds tc) [] (RankQc GENESIS_ROUND) ∅ ∅)
      = Ret (Ok res) ∧
    has_super_majority_votes vs res.1 = Ret (Ok true) ∧ V (tc_high_extend tc) ∧
    bool_decide (high_extend_rank (tc_high_extend tc) = res.2) = true ∧ True.

Lemma tc_tests_valid V tc :
  (∃ vs m leader, e2v (tc_epoch tc) (tc_round tc) = Ret (Ok (vs, m, leader)) ∧ tc_tests V tc vs m) ↔
  tc_valid_with e2v V tc.
Proof.
  unfold tc_valid_with, tc_tests. split.
  - intros (vs & m & leader & He & Hlen & [nodes rank] & Hres & Hsup & HV & Hrank & _).
    apply bool_decide_eq_true in Hlen, Hrank. injection Hres as Hres.
    apply verify_tip_rounds_ok in Hres as (signers & H2 & (Hnd & _) & _ & [= -> ->]). simpl in *.
    exists vs, m, leader, signers. split_and!; [done..|]. symmetry in Hrank. by apply foldl_rank_max in Hrank.
  - intros (vs & m & leader & signers & He & Hlen & H2 & Hnd & Hsup & HV & Hrank).
    exists vs, m, leader. rewrite !bool_decide_eq_true. split_and!; [done..|].
    apply foldl_rank_max in Hrank. eexists (_, _). rewrite bool_decide_eq_true. split; [|simpl; eauto].
    f_equal. apply verify_tip_rounds_ok. exists signers.
    apply has_threshold_votes_true_inv in Hsup as [Hnd' _].
    split_and!; try done; [apply Forall_forall; set_solver..|]. by rewrite Hrank.
Qed.

Lemma verify_tc_body_computes vhe (V : HighExtend → Prop) tc :
  (∀ c, cache_valid e2v c → tc_is_cached_validated c tc = true → tc_valid_with e2v V tc) →
  (tc_valid_with e2v V tc → tc_valid e2v tc) →
  computes (vhe (tc_high_extend tc)) (λ _, V (tc_high_extend tc)) →
  computes (verify_tc_body e2v vhe tc) (λ _, tc_valid_with e2v V tc).
Proof using Henv.
  intros Hcached Hv Hvhe. apply computes_cached; [done|].
  eapply computes_iff; [|intros u; exact (tc_tests_valid V tc)].
  apply (computes_lookup _ _ _ (λ vs m _ _, tc_tests V tc vs m)).
  intros vs m leader He. apply computes_seq; [apply computes_ensure|]. intros Hlen.
  eapply (computes_bind _ _ _ _ (λ (res : list NodeId * HighExtendRank) _,
    has_super_majority_votes vs res.1 = Ret (Ok true) ∧ V (tc_high_extend tc) ∧
    bool_decide (high_extend_rank (tc_high_extend tc) = res.2) = true ∧ True));
    [apply computes_lift; by eexists|].
  intros [nodes rank] Hres. simpl.
  apply computes_seq; [apply computes_super_majority; by eapply (ve_wf _ Henv)|]. intros Hsup.
  apply computes_seq; [done|]. intros HV. apply computes_seq; [apply computes_ensure|]. intros Hrank.
  apply computes_update. intros c Hc. apply cache_tc_valid; [done|]. apply Hv, tc_tests_valid.
  exists vs, m, leader. split; [done|]. split; [done|]. by exists (nodes, rank).
Qed.

(** A certificate that extends a certificate is valid in both senses. *)
Lemma no_tip_tc_valid no_tip : no_tip_valid e2v no_tip ↔ tc_valid e2v (no_tip_tc no_tip).
Proof. done. Qed.

Lemma verify_tip_body_computes vtc tip :
  (∀ no_tip, computes (vtc (no_tip_tc no_tip)) (λ _, no_tip_valid e2v no_tip)) →
  computes (verify_tip_body e2v vtc tip) (λ _, tip_valid e2v tip).
Proof using Henv.
  intros Hvtc. unfold verify_tip_body, tip_valid. set (header := tip_block_header tip).
  apply computes_lookup. intros vs m leader He. eapply computes_iff.
  - eapply (computes_bind _ _ _ _ (λ author _, bool_decide (author = leader) && bool_decide (author = bh_author header) = true ∧
      fresh_certificate_fits tip = true ∧ qc_valid e2v (bh_qc header) ∧
      match tip_fresh_certificate tip with
      | None => True
      | Some (Nec nec) => nec_valid e2v nec
      | Some (NoTip no_tip) => no_tip_valid e2v no_tip
      end)); [apply computes_lift; by eexists|].
    intros author _. apply computes_seq; [apply computes_ensure|]. intros _.
    apply computes_seq; [apply computes_ensure|]. intros _.
    apply computes_seq; [apply verify_qc_computes|]. intros _.
    destruct (tip_fresh_certificate tip) as [[nec|no_tip]|].
    + apply verify_nec_computes.
    + apply Hvtc.
    + eapply computes_iff; [apply computes_ret|]. by intros [].
  - intros []. setoid_rewrite andb_true_iff. setoid_rewrite bool_decide_eq_true. split.
    + intros (author & [= Ha] & (-> & <-) & ? & ? & ?). apply ok_or_ok in Ha. done.
    + intros (Ha & Hb & ? & ? & ?). exists leader. by rewrite Ha.
Qed.

Lemma verify_high_extend_body_computes vt he :
  (∀ tip, computes (vt tip) (λ _, tip_valid e2v tip)) →
  computes (verify_high_extend_body e2v vt he) (λ _, high_extend_valid e2v he).
Proof using Henv. intros Hvt. destruct he as [tip|qc]; [apply Hvt|apply verify_qc_computes]. Qed.

Lemma verify_no_tip_computes fuel no_tip :
  computes (verify_tc_fuel e2v (S fuel) (no_tip_tc no_tip)) (λ _, no_tip_valid e2v no_tip).
Proof using Henv.
  apply verify_tc_body_computes; [|done|apply verify_qc_computes].
  intros c (_ & Ht & _) Hc. by apply no_tip_tc_valid, Ht.
Qed.

Lemma verify_tc_computes tc : computes (verify_tc e2v tc) (λ _, tc_valid e2v tc).
Proof using Henv.
  apply verify_tc_body_computes; [by intros c (_ & Ht & _) ?; apply Ht|done|].
  apply verify_high_extend_body_computes. intros tip. apply verify_tip_body_computes.
  intros no_tip. apply (verify_no_tip_computes 0).
Qed.

Lemma verify_tip_computes tip : computes (verify_tip e2v tip) (λ _, tip_valid e2v tip).
Proof using Henv. apply verify_tip_body_computes. intros no_tip. apply (verify_no_tip_computes 1). Qed.

Lemma verify_high_extend_computes he : computes (verify_high_extend e2v he) (λ _, high_extend_valid e2v he).
Proof using Henv. apply verify_high_extend_body_computes. apply verify_tip_computes. Qed.
End exact.

(** ** Messages *)
Section message_valid.
Context `{P : Params} {CD : Codec} {CS : CertSignature} {AS : AuthorSigning} {SC : SignatureCollection}
        {LE : LeaderElection}.
Context (em : EpochManager) (vem : ValidatorsEpochMapping).
Notation e2v := (epoch_to_validators em vem).

(** A proposal follows the certificate its block extends, or a timeout
    certificate of the preceding round with the same extension: the tip of
    that certificate itself, or a fresh block on the same certificate. *)
Definition proposal_well_formed (m : ProposalMessage) : Prop :=
  let header := tip_block_header (pr_tip m) in
  bh_block_body_id header = body_get_id (pr_block_body m) ∧
  match pr_last_round_tc m with
  | None => immediately_follows (pr_proposal_round m) (qc_get_round (bh_qc header)) = true
  | Some tc =>
      immediately_follows (pr_proposal_round m) (qc_get_round (bh_qc header)) = false ∧
      immediately_follows (pr_proposal_round m) (tc_round tc) = true ∧
      (tc_high_extend tc = HeTip (pr_tip m) ∨
       qc_get_round (high_extend_qc (tc_high_extend tc)) = qc_get_round (bh_qc header) ∧
       ∀ tip, tc_high_extend tc = HeTip tip → pr_proposal_round m = bh_block_round header)
  end.

(** A timeout carries what its signed rounds say, and proves that its round
    was entered: by the certificate it extends, or by the certificate of the
    preceding round. *)
Definition timeout_well_formed (t : Timeout) : Prop :=
  high_extend_vote_rank (to_high_extend t) = timeout_info_rank (to_tminfo t) ∧
  match to_last_round_certificate t with
  | None => immediately_follows (ti_round (to_tminfo t)) (qc_get_round (high_extend_vote_qc (to_high_extend t))) = true
  | Some rc =>
      immediately_follows (ti_round (to_tminfo t)) (qc_get_round (high_extend_vote_qc (to_high_extend t))) = false ∧
      immediately_follows (ti_round (to_tminfo t)) (round_certificate_round rc) = true
  end.

Definition round_certificate_valid (rc : RoundCertificate) : Prop :=
  match rc with RcQc qc => qc_valid e2v qc | RcTc tc => tc_valid e2v tc end.

Definition message_valid (m : ProtocolMessage) : Prop :=
  match m with
  | PmProposal m =>
      proposal_well_formed m ∧ get_epoch em (pr_proposal_round m) = Some (pr_proposal_epoch m) ∧
      tip_valid e2v (pr_tip m) ∧ from_option (tc_valid e2v) True (pr_last_round_tc m)
  | PmVote m =>
      cert_validate (vm_sig m) = true ∧
      get_epoch em (vote_round (vm_vote m)) = Some (vote_epoch (vm_vote m))
  | PmTimeout t =>
      cert_validate (to_timeout_signature t) = true ∧ timeout_well_formed t ∧
      get_epoch em (ti_round (to_tminfo t)) = Some (ti_epoch (to_tminfo t)) ∧
      from_option round_certificate_valid True (to_last_round_certificate t) ∧
      high_extend_valid e2v (high_extend_of_vote (to_high_extend t))
  | PmRoundRecovery m =>
      (immediately_follows (rr_round m) (tc_round (rr_tc m)) = true ∧
       ∃ tip, tc_high_extend (rr_tc m) = HeTip tip) ∧
      get_epoch em (rr_round m) = Some (rr_epoch m) ∧ tc_valid e2v (rr_tc m)
  | PmNoEndorsement m =>
      cert_validate (nem_signature m) = true ∧
      get_epoch em (ne_round (nem_msg m)) = Some (ne_epoch (nem_msg m))
  | PmAdvanceRound m => round_certificate_valid (ar_last_round_certificate m)
  end.
End message_valid.

Section exact_messages.
Context `{P : Params} {CD : Codec} {CS : CertSignature} {AS : AuthorSigning} {SC : SignatureCollection}
        {LE : LeaderElection} {L : Lru}.
Context (em : EpochManager) (vem : ValidatorsEpochMapping).

(** The lookup is total on recorded validator sets when the election is. *)
Lemma epoch_to_validators_env :
  lru_laws L → sc_laws sc_new sc_verify →
  Inj (=) (=) rlp_qc → Inj (=) (=) rlp_tc → Inj (=) (=) rlp_nec → epoch_mapping_wf vem →
  (∀ r vs, vs_wf vs → is_ret (get_leader r (validators vs))) →
  verify_env (epoch_to_validators em vem).
Proof.
  intros HL HSC Hqc Htc Hnec Hvem Hlead. split; try done.
  - intros e r. unfold epoch_to_validators. destruct (get_epoch em r) as [le|]; [|by eexists].
    case_bool_decide; [by eexists|]. unfold get_val_set, get_cert_pubkeys.
    destruct (validator_map vem !! e) as [[vs m]|] eqn:He; simpl; [|by eexists].
    destruct (Hlead r vs) as [l ->]; [apply (Hvem e (vs, m) He)|by eexists].
  - intros e r vs m leader. unfold epoch_to_validators. destruct (get_epoch em r) as [le|]; [|done].
    case_bool_decide; [done|]. unfold get_val_set, get_cert_pubkeys.
    destruct (validator_map vem !! e) as [[vs' m']|] eqn:He; simpl; [|done].
    destruct (get_leader r (validators vs')); simpl; [|done..]. intros [= <- <- <-].
    apply (Hvem e (vs', m') He).
Qed.

Context (Henv : verify_env (epoch_to_validators em vem)).
Notation computes := (computes (cache_valid (epoch_to_validators em vem))).

Lemma verify_epoch_computes round epoch :
  computes (verify_epoch em round epoch) (λ _, get_epoch em round = Some epoch).
Proof.
  unfold verify_epoch. destruct (get_epoch em round) as [e|].
  - eapply computes_iff; [apply computes_ensure|]. intros []. rewrite bool_decide_eq_true. naive_solver.
  - eapply computes_iff; [apply computes_throw|]. naive_solver.
Qed.

Lemma well_formed_proposal_computes m :
  computes (well_formed_proposal m) (λ _, proposal_well_formed m).
Proof.
  unfold well_formed_proposal, proposal_well_formed. case_bool_decide as Hid.
  { eapply computes_iff; [apply computes_throw|]. naive_solver. }
  destruct (immediately_follows _ (qc_get_round _)) eqn:Hf.
  { eapply computes_iff; [apply computes_ensure|]. intros []. destruct (pr_last_round_tc m); naive_solver. }
  destruct (pr_last_round_tc m) as [tc|]; [|eapply computes_iff; [apply computes_throw|]; naive_solver].
  destruct (immediately_follows _ (tc_round tc)); simpl; [|eapply computes_iff; [apply computes_throw|]; naive_solver].
  destruct (tc_high_extend tc) as [tip|qc]; simpl.
  2:{ eapply computes_iff; [apply computes_ensure|]. intros []. rewrite bool_decide_eq_true. naive_solver. }
  case_bool_decide as Ht; [subst tip; eapply computes_iff; [apply computes_ret|]; intros []; naive_solver|].
  case_bool_decide as Hr; [eapply computes_iff; [apply computes_throw|]; naive_solver|].
  eapply computes_iff; [apply computes_ensure|]. intros [].
  rewrite bool_decide_eq_true. naive_solver.
Qed.

Lemma well_formed_timeout_computes t :
  computes (well_formed_timeout t) (λ _, timeout_well_formed t).
Proof.
  unfold well_formed_timeout, timeout_well_formed. case_bool_decide as Hid.
  { eapply computes_iff; [apply computes_throw|]. naive_solver. }
  destruct (immediately_follows _ (qc_get_round _)) eqn:Hf.
  { eapply computes_iff; [apply computes_ensure|]. intros []. destruct (to_last_round_certificate t); naive_solver. }
  destruct (to_last_round_certificate t) as [rc|]; [|eapply computes_iff; [apply computes_throw|]; naive_solver].
  eapply computes_iff; [apply computes_ensure|]. naive_solver.
Qed.

Lemma verify_round_certificate_computes rc :
  computes (verify_round_certificate em vem rc) (λ _, round_certificate_valid em vem rc).
Proof using Henv.
  destruct rc; [by apply verify_qc_computes|by apply verify_tc_computes].
Qed.

Lemma round_recovery_well_formed_computes m :
  computes (well_formed_round_recovery m)
    (λ _, immediately_follows (rr_round m) (tc_round (rr_tc m)) = true ∧
          ∃ tip, tc_high_extend (rr_tc m) = HeTip tip).
Proof.
  unfold well_formed_round_recovery. destruct (immediately_follows _ _); simpl.
  2:{ eapply computes_iff; [apply computes_throw|]. naive_solver. }
  destruct (tc_high_extend (rr_tc m)).
  - eapply computes_iff; [apply computes_ret|]. intros []. naive_solver.
  - eapply computes_iff; [apply computes_throw|]. naive_solver.
Qed.
End exact_messages.

(** ** Properties *)
Section validation_properties.
Context `{P : Params} {CD : Codec} {CS : CertSignature} {AS : AuthorSigning} {SC : SignatureCollection}
        {LE : LeaderElection} {L : Lru}.

(** [verify_qc] always returns, and accepts exactly the valid quorum
    certificates, whatever the caches have remembered or forgotten; what it
    caches is valid. *)
Theorem verify_qc_exact e2v c qc : verify_env e2v → cache_valid e2v c →
  ∃ c' r, verify_qc e2v qc c = Ret (c', r) ∧ cache_valid e2v c' ∧ (r = Ok tt ↔ qc_valid e2v qc).
Proof.
  intros Henv Hc. destruct (verify_qc_computes e2v Henv qc c Hc) as (c' & r & ? & ? & Hr). eauto.
Qed.

(** C29. [verify_tc] always returns, and accepts exactly the valid timeout
    certificates: distinct groups, each signer counted once, a super-majority
    of the stake, and a valid extension (a certificate, or a tip signed by its
    leader) of the highest rank that was signed. *)
Theorem verify_tc_exact e2v c tc : verify_env e2v → cache_valid e2v c →
  ∃ c' r, verify_tc e2v tc c = Ret (c', r) ∧ cache_valid e2v c' ∧ (r = Ok tt ↔ tc_valid e2v tc).
Proof.
  intros Henv Hc. destruct (verify_tc_computes e2v Henv tc c Hc) as (c' & r & ? & ? & Hr). eauto.
Qed.

Lemma validate_spec em vem c (self : Verified) version :
  verify_env (epoch_to_validators em vem) → cache_valid (epoch_to_validators em vem) c →
  ∃ c' r, validate em vem self version c = Ret (c', r) ∧ cache_valid (epoch_to_validators em vem) c' ∧
    ∀ self', r = Ok self' ↔ self' = self ∧ cm_version (uv_obj (vf_message self)) = version ∧
                            message_valid em vem (cm_message (uv_obj (vf_message self))).
Proof.
  intros Henv. revert c. unfold validate. case_bool_decide as Hver.
  { apply (computes_iff _ _ _ _ (computes_throw _ InvalidVersion)). naive_solver. }
  eapply (computes_iff _ _ (λ self', message_valid em vem (cm_message (uv_obj (vf_message self))) ∧ self' = self));
    [|naive_solver].
  apply computes_seq; [|intros _; apply computes_ret].
  destruct (cm_message _) as [m|m|m|m|m|m].
  - apply computes_seq; [apply well_formed_proposal_computes|intros _].
    apply computes_seq; [apply verify_epoch_computes|intros _].
    apply computes_seq; [by apply verify_tip_computes|intros _].
    destruct (pr_last_round_tc m); [by apply verify_tc_computes|].
    eapply computes_iff; [apply computes_ret|]. by intros [].
  - apply computes_seq; [apply computes_ensure|intros _]. apply verify_epoch_computes.
  - apply computes_seq; [apply computes_ensure|intros _].
    apply computes_seq; [apply well_formed_timeout_computes|intros _].
    apply computes_seq; [apply verify_epoch_computes|intros _].
    apply computes_seq; [|intros _; by apply verify_high_extend_computes].
    destruct (to_last_round_certificate m); [by apply verify_round_certificate_computes|].
    eapply computes_iff; [apply computes_ret|]. by intros [].
  - apply computes_seq; [apply round_recovery_well_formed_computes|intros _].
    apply computes_seq; [apply verify_epoch_computes|intros _]. by apply verify_tc_computes.
  - apply computes_seq; [apply computes_ensure|intros _]. apply verify_epoch_computes.
  - by apply verify_round_certificate_computes.
Qed.

(** C27. [validate] always returns; it accepts exactly the messages of the right
    version that are well formed, of the local epoch of their round, and
    carry valid certificates; it hands an accepted message on unchanged. *)
Theorem validate_exact em vem c (self : Verified) version :
  verify_env (epoch_to_validators em vem) → cache_valid (epoch_to_validators em vem) c →
  ∃ c' r, validate em vem self version c = Ret (c', r) ∧ cache_valid (epoch_to_validators em vem) c' ∧
    ∀ self', r = Ok self' ↔ self' = self ∧ cm_version (uv_obj (vf_message self)) = version ∧
                            message_valid em vem (cm_message (uv_obj (vf_message self))).
Proof. apply validate_spec. Qed.
End validation_properties.

(** ** The theorems at a concrete network

    Four validators, keys 1 to 4 with stakes 10 to 40, in epoch 1; the leader
    is elected round robin. The cache is a list of at most [cap] keys, the
    most recent first. *)
Definition toy_lru : Lru := {|
  LruCache := N * list (list Byte.byte);
  lru_new := λ cap, (cap, []);
  lru_put := λ c k, (c.1, take (N.to_nat c.1) (k :: filter (λ k', k' ≠ k) c.2));
  lru_contains := λ c k, bool_decide (k ∈ c.2);
|}.

Lemma toy_lru_laws : lru_laws toy_lru.
Proof.
  split.
  - intros cap k. apply bool_decide_eq_false_2. apply not_elem_of_nil.
  - intros c k k' H. apply bool_decide_eq_true in H. simpl in H.
    apply (subseteq_take _ _ k') in H. apply elem_of_cons in H as [->|H]; [by left|right].
    apply list_elem_of_filter in H as [_ H]. by apply bool_decide_eq_true.
Qed.

Section validation_witnesses.
Import ToyInstances.
#[local] Existing Instance toy_lru.
#[local] Existing Instance toy_message_codec.
#[local] Instance toy_election : LeaderElection := simple_round_robin.

Lemma simple_get_leader_ret r (vs : @ValidatorSet toy_params) : vs_wf vs → is_ret (get_leader r (validators vs)).
Proof.
  intros Hwf. cbn [get_leader toy_election simple_round_robin]. unfold simple_get_leader.
  assert (btree_keys (validators vs) ≠ []) as Hne.
  { intros Hnil. apply (vs_wf_nonempty vs Hwf). apply map_eq. intros n. rewrite lookup_empty.
    apply eq_None_not_Some. rewrite <- elem_of_btree_keys, Hnil. apply not_elem_of_nil. }
  rewrite bool_decide_eq_false_2 by done.
  destruct (lookup_lt_is_Some_2 (btree_keys (validators vs))
    (N.to_nat (r `mod` N.of_nat (length (btree_keys (validators vs)))))) as [l ->]; [|by eexists].
  destruct (btree_keys (validators vs)) as [|k ks]; [done|]. simpl length. divlia.
Qed.

Lemma toy_env : verify_env (epoch_to_validators toy_epochs toy_vem).
Proof.
  destruct toy_rlp_inj as (? & ? & ?). apply epoch_to_validators_env; try done.
  - apply toy_lru_laws.
  - apply toy_sc_laws.
  - intros e v. unfold toy_vem. simpl. intros [<- <-]%lookup_singleton_Some. apply toy_vs_wf.
  - apply simple_get_leader_ret.
Qed.

(** The votes of validators 2, 3 and 4 in round 4. *)
Definition toy_quorum_qc : QuorumCertificate :=
  mkQC (mkVote 77 4 1)
    (((λ k : N, toy_sign k SdVote (rlp_vote (mkVote 77 4 1))) <$> [2; 3; 4]) : @SigCol toy_params).

(** They time out in round 6 after that certificate. *)
Definition toy_quorum_tc : TimeoutCertificate :=
  mkTC 1 6 [mkTipRounds 4 0 (((λ k : N, toy_sign k SdTimeout (rlp_timeout_info (mkTimeoutInfo 1 6 4 0))) <$> [2; 3; 4])
      : @SigCol toy_params)] (HeQc toy_quorum_qc).

Definition toy_verdict {A} (m : check A) : option (result Error A) :=
  match m certificate_cache_default with Ret (_, r) => Some r | _ => None end.

Lemma toy_verdict_ret {A} (m : check A) c' r :
  m certificate_cache_default = Ret (c', r) → toy_verdict m = Some r.
Proof. intros H. unfold toy_verdict. by rewrite H. Qed.

(** A certificate accepted by evaluation is valid. *)
Lemma toy_accepts (m : check unit) (Q : Prop) :
  computes (cache_valid (epoch_to_validators toy_epochs toy_vem)) m (λ _, Q) →
  toy_verdict m = Some (Ok tt) → Q.
Proof.
  intros Hm Hv. destruct (Hm _ (cache_default_valid _ toy_env)) as (c' & r & Hr & _ & HQ).
  apply toy_verdict_ret in Hr. rewrite Hv in Hr. apply (HQ tt). by injection Hr.
Qed.

Lemma toy_quorum_qc_valid : qc_valid (epoch_to_validators toy_epochs toy_vem) toy_quorum_qc.
Proof. eapply toy_accepts; [apply verify_qc_computes, toy_env|vm_refl]. Qed.

Lemma verify_qc_exact_witness : qc_valid (epoch_to_validators toy_epochs toy_vem) toy_quorum_qc.
Proof.
  destruct (verify_qc_exact (epoch_to_validators toy_epochs toy_vem) certificate_cache_default toy_quorum_qc toy_env
    (cache_default_valid _ toy_env)) as (c' & r & Hv & _ & Hr).
  apply Hr. apply toy_verdict_ret in Hv.
  assert (toy_verdict (verify_qc (epoch_to_validators toy_epochs toy_vem) toy_quorum_qc) = Some (Ok tt)) as Hok
    by vm_refl.
  rewrite Hok in Hv. by injection Hv.
Defined.

Lemma verify_tc_exact_witness : tc_valid (epoch_to_validators toy_epochs toy_vem) toy_quorum_tc.
Proof.
  destruct (verify_tc_exact (epoch_to_validators toy_epochs toy_vem) certificate_cache_default toy_quorum_tc toy_env
    (cache_default_valid _ toy_env)) as (c' & r & Hv & _ & Hr).
  apply Hr. apply toy_verdict_ret in Hv.
  assert (toy_verdict (verify_tc (epoch_to_validators toy_epochs toy_vem) toy_quorum_tc) = Some (Ok tt)) as Hok
    by vm_refl.
  rewrite Hok in Hv. by injection Hv.
Defined.

(** Validator 2 advertises the timeout certificate. *)
Definition toy_advance : Verified :=
  consensus_message_sign (mkConsensusMessage 1 (PmAdvanceRound (mkAdvanceRoundMessage (RcTc toy_quorum_tc))))
    (2 : @AuthorKeyPair toy_params).

Lemma validate_exact_witness :
  message_valid toy_epochs toy_vem (cm_message (uv_obj (vf_message toy_advance))).
Proof.
  destruct (validate_exact toy_epochs toy_vem certificate_cache_default toy_advance 1 toy_env
    (cache_default_valid _ toy_env)) as (c' & r & Hv & _ & Hr).
  apply (Hr toy_advance). apply toy_verdict_ret in Hv.
  assert (toy_verdict (validate toy_epochs toy_vem toy_advance 1) = Some (Ok toy_advance)) as Hok by vm_refl.
  rewrite Hok in Hv. by injection Hv.
Defined.
End validation_witnesses.
