(* ===== verification/Agreement.v ===== *)
(** * Certificates across nodes

    Components put together: the certificates a node builds from votes and
    timeouts are accepted by the validation of every other node, and the
    safety rules of honest voters leave room for one certified block per
    round. *)
From S2P Require Import Prelude Types Interfaces MultiSig Certificates Concrete ValidatorSet SafetyModule VoteState NoEndorsementState Epochs Leader Pacemaker Messages Validation ValidationSpec.

Section local_certificates.
Context `{P : Params} {CD : Codec} {CS : CertSignature} {AS : AuthorSigning} {SC : SignatureCollection}
        {HO : HashOrder TimeoutInfo (list (NodeId * Signature))}.

(** The nodes of the signatures in a list of groups. *)
Definition group_nodes (groups : list (TimeoutInfo * list (NodeId * Signature))) : list NodeId :=
  (λ x : TimeoutInfo * (NodeId * Signature), x.2.1) <$> flatten_groups groups.

Lemma group_nodes_cons g groups : group_nodes (g :: groups) = g.2.*1 ++ group_nodes groups.
Proof.
  unfold group_nodes, flatten_groups. rewrite bind_cons, fmap_app, <- !list_fmap_compose. done.
Qed.

Lemma group_signers (groups : list (TimeoutInfo * list (NodeId * Signature))) signers :
  Forall2 (λ g s, NoDup s ∧ ∀ n, n ∈ s ↔ n ∈ g.2.*1) groups signers →
  NoDup (group_nodes groups) →
  NoDup (concat signers) ∧ ∀ n, n ∈ concat signers ↔ n ∈ group_nodes groups.
Proof.
  induction 1 as [|g s groups signers [Hs Hin] _ IH]; [done|].
  rewrite group_nodes_cons. simpl. rewrite !NoDup_app. intros (Hg & Hdisj & Hrest).
  destruct (IH Hrest) as [Hnd Hin']. split.
  - split_and!; [done| |done]. intros n Hn. rewrite Hin'. apply Hdisj. by apply Hin.
  - intros n. by rewrite !elem_of_app, Hin, Hin'.
Qed.

Lemma groups_length (groups : list (TimeoutInfo * list (NodeId * Signature))) :
  (∀ g, g ∈ groups → g.2 ≠ []) → (length groups ≤ length (group_nodes groups))%nat.
Proof.
  induction groups as [|g groups IH]; intros Hne; simpl; [lia|].
  rewrite group_nodes_cons, length_app. pose proof (Hne g ltac:(left)) as Hg.
  destruct g as [ti [|x g]]; [done|]. simpl.
  enough (length groups ≤ length (group_nodes groups))%nat by lia. apply IH. intros g' Hg'. apply Hne. by right.
Qed.

Lemma members_length (vs : ValidatorSet) (l : list NodeId) :
  NoDup l → (∀ n, n ∈ l → is_Some (validators vs !! n)) → (length l ≤ size (validators vs))%nat.
Proof.
  intros Hnd Hl. rewrite <- (size_list_to_set (C := gset NodeId) l Hnd), <- (size_dom (D := gset NodeId)).
  apply subseteq_size. intros n Hn%elem_of_list_to_set. apply elem_of_dom. auto.
Qed.

(** What a collected timeout satisfies once its message was validated: see
    [message_valid]. *)
Definition timeout_ok (e2v : epoch_validators) (epoch : Epoch) (round : Round) (t : Timeout) : Prop :=
  ti_round (to_tminfo t) = round ∧ ti_epoch (to_tminfo t) = epoch ∧
  qc_get_round (high_extend_vote_qc (to_high_extend t)) < round ∧
  high_extend_vote_rank (to_high_extend t) = timeout_info_rank (to_tminfo t) ∧
  high_extend_valid e2v (high_extend_of_vote (to_high_extend t)).

Lemma timeout_ok_qc_round e2v epoch round t : timeout_ok e2v epoch round t →
  ti_high_qc_round (to_tminfo t) < round.
Proof.
  intros (_ & _ & Hlt & Hrank & _). unfold timeout_info_rank, rank_of_rounds in Hrank.
  destruct (to_high_extend t); simpl in *; case_bool_decide; simplify_eq; lia.
Qed.

Lemma genesis_rank_le q t : rank_le (RankQc GENESIS_ROUND) (rank_of_rounds q t).
Proof.
  apply rank_le_alt. unfold rank_of_rounds. change GENESIS_ROUND with 0. case_bool_decide.
  - destruct (decide (q = 0)) as [->|]; [by right|]. left. apply rank_lt_cases. lia.
  - left. apply rank_lt_cases. lia.
Qed.

(** The groups of a timeout certificate and the timeouts it was built from. *)
Lemma group_timeout (groups : list (TimeoutInfo * list (NodeId * Signature))) (l : list (NodeId * Timeout)) :
  flatten_groups groups ≡ₚ
    ((λ nt : NodeId * Timeout, (to_tminfo nt.2, (nt.1, to_timeout_signature nt.2))) <$> l) →
  (∀ g, g ∈ groups → g.2 ≠ []) →
  (∀ g, g ∈ groups → ∃ n t, (n, t) ∈ l ∧ to_tminfo t = g.1) ∧
  (∀ n t, (n, t) ∈ l → ∃ g, g ∈ groups ∧ g.1 = to_tminfo t).
Proof.
  intros Hperm Hne. split.
  - intros [ti g] Hg. destruct g as [|x g]; [by apply Hne in Hg|].
    assert ((ti, x) ∈ flatten_groups groups) as Hin.
    { unfold flatten_groups. apply list_elem_of_bind. exists (ti, x :: g). split; [left|done]. }
    rewrite Hperm in Hin. apply list_elem_of_fmap in Hin as ([n t] & [= -> ->] & Hin). eauto.
  - intros n t Hin.
    assert ((to_tminfo t, (n, to_timeout_signature t)) ∈ flatten_groups groups) as Hf.
    { rewrite Hperm. apply list_elem_of_fmap. by exists (n, t). }
    unfold flatten_groups in Hf. apply list_elem_of_bind in Hf as ([ti g] & Hg & ?).
    apply list_elem_of_fmap in Hg as (x & [= <- _] & _). by exists (to_tminfo t, g).
Qed.

(** [t] is the tuple [TimeoutCertificate::new] makes of the group [g]. *)
Notation group_of m := (λ (g : TimeoutInfo * list (NodeId * Signature)) (t : HighTipRoundSigColTuple),
  sc_new SdTimeout g.2 m (rlp_timeout_info g.1) = Ok (tr_sigs t) ∧
  tr_high_qc_round t = ti_high_qc_round g.1 ∧ tr_high_tip_round t = ti_high_tip_round g.1).

Section groups.
Context (epoch : Epoch) (round : Round) (m : ValidatorMapping).
Context (groups : list (TimeoutInfo * list (NodeId * Signature))) (trs : list HighTipRoundSigColTuple).
Context (Hgroups : Forall2 (group_of m) groups trs).
Context (Hinfo : Forall (λ g, ti_epoch g.1 = epoch ∧ ti_round g.1 = round ∧ ti_high_qc_round g.1 < round) groups).

Lemma tc_groups_signed : sc_laws sc_new sc_verify →
  (∀ d sigs m msg sc, sigs ≠ [] → sc_new d sigs m msg = Ok sc → sc_num_signatures sc ≠ 0) →
  (∀ n n' pk, m !! n = Some pk → m !! n' = Some pk → n = n') → (∀ g, g ∈ groups → g.2 ≠ []) →
  ∃ signers, Forall2 (tip_rounds_signed epoch round m) trs signers ∧
    Forall2 (λ g s, NoDup s ∧ ∀ n, n ∈ s ↔ n ∈ g.2.*1) groups signers.
Proof using Hgroups Hinfo.
  intros Hl Hnum Hinj. revert Hinfo.
  induction Hgroups as [|[[e r q tr] g] t groups' trs' (Hs & Hq & Ht) Hrest IH]; intros Hi Hne.
  { exists []. by split. }
  apply Forall_cons in Hi as [(He & Hr & Hlt) Hi]. simpl in *. subst e r.
  destruct IH as (signers & Hsig & Hsame); [done..|by intros g' Hg'; apply Hne; right|].
  destruct (sc_new_verify _ _ Hl _ _ _ _ _ Hinj Hs) as (nodes & Hv & Hin).
  exists (nodes :: signers). split; constructor; try done.
  - split_and!; [by rewrite Hq| |by rewrite Hq, Ht]. eapply Hnum; [|exact Hs].
    apply (Hne ({| ti_epoch := epoch; ti_round := round; ti_high_qc_round := q; ti_high_tip_round := tr |}, g)). left.
  - split; [by eapply (sc_verify_nodup _ _ Hl)|done].
Qed.

Lemma tc_pairs_nodup : NoDup groups.*1 → NoDup (tip_rounds_pair <$> trs).
Proof using Hgroups Hinfo.
  intros Hnd.
  assert (tip_rounds_pair <$> trs = (λ ti, (ti_high_qc_round ti, ti_high_tip_round ti)) <$> groups.*1) as ->.
  { clear Hnd Hinfo. induction Hgroups as [|g t ?? (_ & Hq & Ht) Hrest IH]; [done|].
    rewrite !fmap_cons. unfold tip_rounds_pair at 1. rewrite Hq, Ht. f_equal. auto. }
  apply NoDup_fmap_2_strong; [|done].
  intros ti1 ti2 (g1 & -> & H1)%list_elem_of_fmap (g2 & -> & H2)%list_elem_of_fmap [= Hq Ht].
  rewrite Forall_forall in Hinfo. apply Hinfo in H1 as (He1 & Hr1 & _), H2 as (He2 & Hr2 & _).
  destruct (g1.1), (g2.1). simpl in *. congruence.
Qed.

Lemma tc_groups_ranks : tip_rounds_rank <$> trs = (λ g, timeout_info_rank g.1) <$> groups.
Proof using Hgroups.
  clear Hinfo. induction Hgroups as [|g t ?? (_ & Hq & Ht) Hrest IH]; [done|].
  rewrite !fmap_cons. unfold tip_rounds_rank at 1. rewrite Hq, Ht. f_equal. auto.
Qed.
End groups.

(** What the certificate extends is valid and ranks as the highest group. *)
Lemma tc_new_extension (e2v : epoch_validators) epoch round (l : list (NodeId * Timeout)) m tc
    (groups : list (TimeoutInfo * list (NodeId * Signature))) :
  l ≠ [] → (∀ n t, (n, t) ∈ l → timeout_ok e2v epoch round t) →
  (∀ g, g ∈ groups → ∃ n t, (n, t) ∈ l ∧ to_tminfo t = g.1) →
  (∀ n t, (n, t) ∈ l → ∃ g, g ∈ groups ∧ g.1 = to_tminfo t) →
  tc_new epoch round l m = Ret (Ok tc) →
  high_extend_valid e2v (tc_high_extend tc) ∧
  highest_rank_of ((λ g, timeout_info_rank g.1) <$> groups) (high_extend_rank (tc_high_extend tc)).
Proof.
  intros Hne Hok Hgt Htg Htc. destruct (tc_new_inv _ _ _ _ _ Htc) as (_ & _ & Hmax & Hext & _).
  assert (∀ n t, (n, t) ∈ l → rank_le (timeout_info_rank (to_tminfo t)) (high_extend_rank (tc_high_extend tc)))
    as Hmax'.
  { intros n t Hin. destruct (Hok n t Hin) as (_ & _ & _ & <- & _). eauto. }
  assert (∀ r, r ∈ RankQc GENESIS_ROUND :: ((λ g, timeout_info_rank g.1) <$> groups) →
    rank_le r (high_extend_rank (tc_high_extend tc))) as Hle.
  { destruct l as [|[n0 t0] l']; [done|].
    intros r [->|(g & -> & (n & t & Hin & <-)%Hgt)%list_elem_of_fmap]%elem_of_cons; [|by eapply Hmax'].
    etrans; [|apply (Hmax' n0 t0); left]. apply genesis_rank_le. }
  destruct Hext as [(g & Hg & Hhe)|(n & t & Hin & Hhe)].
  - rewrite Hhe in *. simpl in *. pose proof Hg as Hg'. unfold genesis_qc in Hg'.
    case_match; [|done]. injection Hg' as <-. cbn [qc_get_round qc_info vote_round] in *.
    destruct l as [|[n0 t0] l']; [done|]. destruct (Hok n0 t0) as (_ & _ & _ & Hrank & Hvalid); [left|].
    assert (high_extend_rank (high_extend_of_vote (to_high_extend t0)) = RankQc GENESIS_ROUND) as Hr0.
    { apply rank_le_antisymm; [rewrite high_extend_vote_rank_of; apply (Hmax n0 t0); left|].
      rewrite high_extend_vote_rank_of, Hrank. apply genesis_rank_le. }
    split; [|split; [left|done]]. destruct (high_extend_of_vote (to_high_extend t0)) as [tip|qc]; [done|].
    simpl in Hvalid, Hr0. injection Hr0 as Hr0. destruct Hvalid as (vs & m' & leader & Hvs & Hq).
    rewrite decide_True in Hq by done. rewrite Hg in Hq. injection Hq as Hq. exists vs, m', leader.
    rewrite Hq. rewrite decide_True by done. split; [done|]. by rewrite Hg, Hq.
  - destruct (Hok n t Hin) as (_ & _ & _ & Hrank & Hvalid). rewrite Hhe in *. split; [done|].
    split; [|done]. right. apply list_elem_of_fmap. destruct (Htg n t Hin) as (g & Hgin & Hg1).
    exists g. by rewrite high_extend_vote_rank_of, Hrank, Hg1.
Qed.

(** A certificate built from valid timeouts of a super-majority is valid. *)
Lemma tc_new_valid (e2v : epoch_validators) epoch round (l : list (NodeId * Timeout)) vs m leader tc :
  sc_laws sc_new sc_verify →
  (∀ d sigs m msg sc, sigs ≠ [] → sc_new d sigs m msg = Ok sc → sc_num_signatures sc ≠ 0) →
  vs_wf vs → (∀ n n' pk, m !! n = Some pk → m !! n' = Some pk → n = n') →
  e2v epoch round = Ret (Ok (vs, m, leader)) →
  NoDup l.*1 → (∀ n, n ∈ l.*1 → is_Some (validators vs !! n)) → l ≠ [] →
  has_super_majority_votes vs l.*1 = Ret (Ok true) →
  (∀ n t, (n, t) ∈ l → timeout_ok e2v epoch round t) →
  tc_new epoch round l m = Ret (Ok tc) → tc_valid e2v tc.
Proof.
  intros Hl Hnum Hwf Hinj He Hnd Hmem Hne0 Hsup Hok Htc.
  destruct (tc_new_groups _ _ _ _ _ Htc) as (groups & H2 & Hperm & Hkeys & Hne).
  destruct (tc_new_inv _ _ _ _ _ Htc) as (Hep & Hr & _).
  destruct (group_timeout groups l Hperm Hne) as [Hgt Htg].
  destruct (tc_new_extension e2v epoch round l m tc groups) as [Hvalid Hrank]; [done..|].
  assert (group_nodes groups ≡ₚ l.*1) as Hnodes.
  { unfold group_nodes. rewrite Hperm, <- list_fmap_compose. done. }
  assert (Forall (λ g, ti_epoch g.1 = epoch ∧ ti_round g.1 = round ∧ ti_high_qc_round g.1 < round) groups) as Hinfo.
  { apply Forall_forall. intros g (n & t & Hin & <-)%Hgt. specialize (Hok n t Hin).
    split_and!; [apply Hok..|]. by eapply timeout_ok_qc_round. }
  destruct (tc_groups_signed epoch round m groups (tc_tip_rounds tc)) as (signers & Hsig & Hsame); [done..|].
  destruct (group_signers groups signers) as [Hnd' Hin']; [done|by rewrite Hnodes|].
  exists vs, m, leader, signers. rewrite Hep, Hr. split_and!; [done| |done| | |done|].
  - rewrite <- (Forall2_length _ _ _ H2). etrans; [by apply groups_length|]. rewrite Hnodes. by apply members_length.
  - by eapply tc_pairs_nodup.
  - eapply super_majority_perm; [done|done| |exact Hsup]. intros n. by rewrite Hin', Hnodes.
  - by rewrite (tc_groups_ranks m groups _ H2).
Qed.

(** The loop of the pacemaker leaves its high certificate as it was or
    replaces it by a valid timeout certificate. *)
Lemma timeout_loop_certificate (e2v : epoch_validators) fuel em vs m leader epoch round pm s pm' s' cmds :
  sc_laws sc_new sc_verify →
  (∀ d sigs m msg sc, sigs ≠ [] → sc_new d sigs m msg = Ok sc → sc_num_signatures sc ≠ 0) →
  vs_wf vs → (∀ n n' pk, m !! n = Some pk → m !! n' = Some pk → n = n') →
  e2v epoch round = Ret (Ok (vs, m, leader)) →
  map_Forall (λ n t, is_Some (validators vs !! n) ∧ timeout_ok e2v epoch round t) (pm_pending_timeouts pm) →
  timeout_certificate_loop fuel em vs m epoch round pm s (btree_keys (pm_pending_timeouts pm)) = Ret (pm', s', cmds) →
  pm_high_certificate pm' = pm_high_certificate pm ∨
  ∃ tc, pm_high_certificate pm' = RcTc tc ∧ tc_round tc = round ∧ tc_valid e2v tc.
Proof.
  intros Hl Hnum Hwf Hinj He. revert pm s cmds. induction fuel as [|fuel IH]; intros pm s cmds Hpend H; [done|].
  cbn [timeout_certificate_loop] in H. case_bool_decide; [|by simplify_eq; left].
  apply bind_ret_inv in H as ([[]|] & Hsup & H); [|by simplify_eq; left|done].
  apply bind_ret_inv in H as ([tc|[]] & Htc & H); try done.
  - apply bind_ret_inv in H as ([[pm1 s1] cmds1] & Hpc & H).
    apply bind_ret_inv in H as ([] & Hph%rust_assert_ret_inv%bool_decide_eq_true & H).
    apply bind_ret_inv in H as ([[pm2 s2] cmds2] & Hloop & H). simplify_eq.
    assert (pm' = pm1) as ->.
    { destruct fuel; [done|]. cbn [timeout_certificate_loop] in Hloop.
      rewrite bool_decide_eq_false_2 in Hloop by (by rewrite Hph). by simplify_eq. }
    unfold pacemaker_process_certificate in Hpc. case_bool_decide; [by simplify_eq; left|].
    apply bind_ret_inv in Hpc as (cr & _ & Hpc). apply bind_ret_inv in Hpc as (ce & _ & Hpc).
    apply bind_ret_inv in Hpc as (tm & _ & Hpc). simplify_eq. right. exists tc. simpl. split; [done|].
    split; [by eapply tc_new_inv|].
    eapply (tc_new_valid e2v epoch round (btree_iter (pm_pending_timeouts pm))); try done.
    + apply btree_keys_nodup.
    + intros n [t Hn]%elem_of_btree_keys. by apply (Hpend n t).
    + intros Hnil. apply super_majority_nonempty in Hsup. unfold btree_keys in Hsup. by rewrite Hnil in Hsup.
    + intros n t Hin%elem_of_btree_iter. by apply (Hpend n t).
  - destruct (handle_invalid_timeout_spec sigs pm) as (Hc & _ & _ & _ & _ & _ & Hsub & _).
    apply IH in H; [by rewrite Hc in H|]. intros n t Hn. apply (Hpend n t). by eapply lookup_weaken.
Qed.

Lemma process_remote_timeout_certificate (e2v : epoch_validators) em vs m leader pm s a t pm' s' cmds :
  sc_laws sc_new sc_verify →
  (∀ d sigs m msg sc, sigs ≠ [] → sc_new d sigs m msg = Ok sc → sc_num_signatures sc ≠ 0) →
  vs_wf vs → (∀ n n' pk, m !! n = Some pk → m !! n' = Some pk → n = n') →
  e2v (ti_epoch (to_tminfo t)) (ti_round (to_tminfo t)) = Ret (Ok (vs, m, leader)) →
  map_Forall (λ n t', is_Some (validators vs !! n) ∧
    timeout_ok e2v (ti_epoch (to_tminfo t)) (ti_round (to_tminfo t)) t') (<[a := t]> (pm_pending_timeouts pm)) →
  process_remote_timeout pm em vs m s a t = Ret (pm', s', cmds) →
  pm_high_certificate pm' = pm_high_certificate pm ∨
  ∃ tc, pm_high_certificate pm' = RcTc tc ∧ tc_round tc = ti_round (to_tminfo t) ∧ tc_valid e2v tc.
Proof.
  intros Hl Hnum Hwf Hinj He Hpend H. unfold process_remote_timeout in H.
  apply bind_ret_inv in H as (cr & _ & H). case_bool_decide; [by simplify_eq; left|].
  apply bind_ret_inv in H as ([] & _ & H). case_bool_decide; [by simplify_eq; left|].
  apply bind_ret_inv in H as ([[pm1 s1] cmds1] & Hlocal & H).
  apply bind_ret_inv in H as ([[pm2 s2] cmds2] & Hloop & H). simplify_eq.
  assert (pm_pending_timeouts pm1 = <[a := t]> (pm_pending_timeouts pm) ∧
          pm_high_certificate pm1 = pm_high_certificate pm) as [Hp Hc].
  { unfold maybe_local_timeout in Hlocal. case_bool_decide; [|by simplify_eq].
    apply bind_ret_inv in Hlocal as ([[]|] & _ & Hlocal); [|by simplify_eq|done].
    apply bind_ret_inv in Hlocal as ([s3 cmds3] & _ & Hlocal). by simplify_eq. }
  rewrite <- Hc. eapply timeout_loop_certificate; try done; [by rewrite Hp|].
  rewrite Hp. exact Hloop.
Qed.
End local_certificates.

(** ** Properties *)
Section agreement_properties.
Context `{P : Params} {CD : Codec} {CS : CertSignature} {AS : AuthorSigning} {SC : SignatureCollection}
        {HO : HashOrder TimeoutInfo (list (NodeId * Signature))} {LE : LeaderElection}.

(** The quorum certificate a node builds from votes is valid for every node
    that knows the epoch. *)
Theorem own_qc_accepted (e2v : epoch_validators) s a msg vs m leader s' qc :
  sc_laws sc_new sc_verify → vs_wf vs → (∀ n n' pk, m !! n = Some pk → m !! n' = Some pk → n = n') →
  e2v (vote_epoch (vm_vote msg)) (vote_round (vm_vote msg)) = Ret (Ok (vs, m, leader)) →
  vote_round (vm_vote msg) ≠ GENESIS_ROUND →
  process_vote s a msg vs m = Ret (s', Some qc) → qc_valid e2v qc.
Proof.
  intros Hl Hwf Hinj He Hr (Hq & _ & _ & voters & _ & Hsup & Hsc)%process_vote_some.
  unfold qc_valid, qc_get_epoch, qc_get_round. rewrite Hq. exists vs, m, leader. split; [done|].
  rewrite decide_False by done. destruct (sc_new_verify _ _ Hl _ _ _ _ _ Hinj Hsc) as (signers & Hv & Hin).
  exists signers. split; [done|]. apply (super_majority_perm vs (btree_keys voters)); [done| | |done].
  - by eapply (sc_verify_nodup _ _ Hl).
  - intros n. by rewrite Hin.
Qed.

(** C32. The timeout certificate a node builds from validated timeouts is valid
    for every node that knows the epoch. *)
Theorem own_tc_accepted (e2v : epoch_validators) em vs m leader pm s a t pm' s' cmds :
  sc_laws sc_new sc_verify →
  (∀ d sigs m msg sc, sigs ≠ [] → sc_new d sigs m msg = Ok sc → sc_num_signatures sc ≠ 0) →
  vs_wf vs → (∀ n n' pk, m !! n = Some pk → m !! n' = Some pk → n = n') →
  e2v (ti_epoch (to_tminfo t)) (ti_round (to_tminfo t)) = Ret (Ok (vs, m, leader)) →
  map_Forall (λ n t', is_Some (validators vs !! n) ∧
    timeout_ok e2v (ti_epoch (to_tminfo t)) (ti_round (to_tminfo t)) t') (<[a := t]> (pm_pending_timeouts pm)) →
  process_remote_timeout pm em vs m s a t = Ret (pm', s', cmds) →
  pm_high_certificate pm' = pm_high_certificate pm ∨
  ∃ tc, pm_high_certificate pm' = RcTc tc ∧ tc_round tc = ti_round (to_tminfo t) ∧ tc_valid e2v tc.
Proof. apply process_remote_timeout_certificate. Qed.

Lemma round_certificate_qc_valid em vem rc : round_certificate_valid em vem rc →
  qc_valid (epoch_to_validators em vem) (round_certificate_qc rc).
Proof.
  destruct rc as [qc|tc]; [done|]. intros (vs & m & leader & signers & _ & _ & _ & _ & _ & Hext & _). simpl.
  destruct (tc_high_extend tc) as [tip|qc]; [|done].
  by destruct Hext as (? & ? & ? & _ & _ & _ & _ & Hqc & _).
Qed.

Lemma timeout_new_extend key ti he safe last :
  high_extend_of_vote (to_high_extend (timeout_new key ti he safe last)) = he.
Proof. by destruct he. Qed.

Lemma timeout_extend_ok em vem pm s : pm_inv pm em s →
  round_certificate_valid em vem (pm_high_certificate pm) →
  (∀ tip, maybe_high_tip s = Some tip → tip_valid (epoch_to_validators em vem) tip) →
  high_extend_rank (timeout_extend pm s) = timeout_info_rank (timeout_info pm s) ∧
  high_extend_valid (epoch_to_validators em vem) (timeout_extend pm s).
Proof.
  intros Hinv Hcert Htip. unfold timeout_info, timeout_info_rank, timeout_extend, rank_of_rounds.
  destruct (maybe_high_tip s) as [tip|] eqn:Ht; simpl.
  - split; [|by apply Htip]. destruct (pi_tip _ _ _ Hinv tip Ht) as [Hlt _]. change GENESIS_ROUND with 0.
    unfold tip_block_round in *. rewrite bool_decide_eq_false_2 by lia. done.
  - split; [done|]. by apply round_certificate_qc_valid.
Qed.

(** The timeout a node announces, signed with its key, is valid for every
    node with the same epoch data, provided the certificates and the tip the
    node itself has accepted are. *)
Theorem own_timeout_accepted em vem pm s pm' s' cmds key ti he safe last :
  (∀ d msg k, cert_validate (cert_sign d msg k) = true) →
  pm_inv pm em s → timers_ok pm →
  round_certificate_valid em vem (pm_high_certificate pm) →
  (∀ tip, maybe_high_tip s = Some tip → tip_valid (epoch_to_validators em vem) tip) →
  process_local_timeout pm s = Ret (pm', s', cmds) → PrepareTimeout ti he safe last ∈ cmds →
  message_valid em vem (PmTimeout (timeout_new key ti he safe last)).
Proof.
  intros Hval Hinv Ht Hcert Htip H Hin. unfold process_local_timeout in H.
  rewrite (local_timeout_round_ok _ em) in H; [|by apply pm_inv_phase|done].
  simpl in H. injection H as <- <- <-.
  apply elem_of_cons in Hin as [?|[[= -> -> -> ->]|?%list_elem_of_singleton]%elem_of_cons]; [done| |done].
  destruct (timeout_extend_ok em vem pm s Hinv Hcert Htip) as [Hrank Hvalid].
  change (timeout_info {| pm with pm_phase := PhOne |} s) with (timeout_info pm s).
  change (timeout_extend {| pm with pm_phase := PhOne |} s) with (timeout_extend pm s).
  change (timeout_last_certificate {| pm with pm_phase := PhOne |} s) with (timeout_last_certificate pm s).
  set (cr := round_certificate_round (pm_high_certificate pm)) in *.
  assert (∀ q, immediately_follows (cr + 1) q = bool_decide (q + 1 = cr + 1)) as Hfollows.
  { pose proof (pi_round _ _ _ Hinv). fold cr in H. intros q. case_bool_decide; [apply immediately_follows_true; lia|].
    apply immediately_follows_false; lia. }
  unfold message_valid, timeout_well_formed.
  rewrite <- high_extend_of_vote_qc, <- high_extend_vote_rank_of, timeout_new_extend. simpl to_tminfo.
  simpl to_last_round_certificate. cbn [ti_round ti_epoch timeout_info]. fold cr. rewrite !Hfollows.
  split; [apply Hval|]. split; [|split; [apply (pi_epoch _ _ _ Hinv)|split; [|done]]].
  - split; [done|]. unfold timeout_last_certificate. fold cr.
    case_bool_decide; [done|]. rewrite Hfollows. by rewrite bool_decide_eq_true_2.
  - unfold timeout_last_certificate. case_bool_decide; [done|]. exact Hcert.
Qed.

Lemma epoch_to_validators_ok em vem e r vs m leader :
  epoch_to_validators em vem e r = Ret (Ok (vs, m, leader)) →
  get_epoch em r = Some e ∧ get_val_set vem e = Some vs ∧ get_cert_pubkeys vem e = Some m.
Proof.
  unfold epoch_to_validators. destruct (get_epoch em r) as [le|]; [|done]. case_bool_decide as He; [done|].
  destruct (get_val_set vem e) as [vs'|]; [|done]. destruct (get_cert_pubkeys vem e) as [m'|]; [|done].
  intros (l & _ & [= -> -> ->])%bind_ret_inv. split_and!; [by f_equal|done..].
Qed.

(** C6. Agreement in a round: when the faulty nodes of every epoch hold less than
    a third of its stake and the others sign only the votes their safety
    module allows, two valid quorum certificates of one round are for the same
    vote, hence the same block. *)
Theorem one_certified_block_per_round em vem faulty (signed : NodeId → list safety_event) qc qc' :
  (∀ epoch vs, get_val_set vem epoch = Some vs →
     vs_wf vs ∧ total_stake vs * 2 ≤ U256_MAX ∧ has_honest_vote vs faulty = Ret (Ok false)) →
  (∀ n, n ∉ faulty → ∃ s ops s', safety_run s ops = Ret (s', signed n)) →
  (∀ q epoch m nodes n, q ∈ [qc; qc'] → get_cert_pubkeys vem epoch = Some m →
     sc_verify (qc_signatures q) SdVote m (rlp_vote (qc_info q)) = Ok nodes → n ∈ nodes → n ∉ faulty →
     (qc_get_round q, qc_get_block_id q) ∈ omap event_vote (signed n)) →
  qc_valid (epoch_to_validators em vem) qc → qc_valid (epoch_to_validators em vem) qc' →
  qc_get_round qc = qc_get_round qc' → qc_info qc = qc_info qc'.
Proof.
  intros Hvem Hrun Hsign (vs & m & ld & He & Hq) (vs' & m' & ld' & He' & Hq') Hround.
  apply epoch_to_validators_ok in He as (He & Hvs & Hm), He' as (He' & Hvs' & Hm').
  rewrite <- Hround in Hq', He'. rewrite He in He'. injection He' as Hep.
  rewrite <- Hep, Hvs in Hvs'. injection Hvs' as <-.
  case_decide as Hg.
  { rewrite Hq in Hq'. by injection Hq' as <-. }
  destruct Hq as (nodes & Hv & Hsup), Hq' as (nodes' & Hv' & Hsup').
  destruct (Hvem _ _ Hvs) as (Hwf & Hmax & Hfaulty).
  destruct (quorum_overlap_outside vs nodes nodes' faulty) as (n & Hn & Hn' & Hnf & _); [done..|].
  pose proof (Hsign qc _ _ _ n ltac:(left) Hm Hv Hn Hnf) as H1.
  pose proof (Hsign qc' _ _ _ n ltac:(right; left) Hm' Hv' Hn' Hnf) as H2.
  destruct (Hrun n Hnf) as (s & ops & s' & Hr). apply safety_run_votes in Hr as (_ & _ & Huniq).
  unfold qc_get_round, qc_get_epoch, qc_get_block_id in *. destruct (qc_info qc), (qc_info qc'). simpl in *. subst.
  f_equal. by eapply Huniq.
Qed.
End agreement_properties.

Section agreement_witnesses.
Import ToyInstances.
#[local] Existing Instance toy_lru.
#[local] Existing Instance toy_election.
Notation toy_e2v := (epoch_to_validators toy_epochs toy_vem).

Lemma own_qc_accepted_witness : qc_valid toy_e2v toy_vote_qc.
Proof.
  destruct (toy_e2v 1 5) as [[[[vs m] leader]|]| |] eqn:He; try (exfalso; discriminate He).
  assert (vs = toy_vs ∧ m = toy_mapping) as [-> ->].
  { apply epoch_to_validators_ok in He as (_ & Hvs & Hm). injection Hvs as <-. by injection Hm as <-. }
  apply (own_qc_accepted toy_e2v toy_vote_state (4 : @NodeId toy_params) (toy_vote_msg 4 toy_vote) toy_vs toy_mapping
    leader toy_vote_result.1 toy_vote_qc toy_sc_laws toy_vs_wf toy_mapping_inj He).
  - discriminate.
  - exact toy_vote_run.
Defined.

Lemma toy_num_signatures d (sigs : list (NodeId * Signature)) m msg sc :
  sigs ≠ [] → sc_new d sigs m msg = Ok sc → sc_num_signatures sc ≠ 0.
Proof. apply (@multisig_new_nonempty toy_params toy_cert_signature toy_cert_recover). Qed.

(** Round 5 after [toy_quorum_qc]: nodes 2 and 3 have timed out, node 4 does. *)
Definition toy_timeout5 (key : N) : Timeout :=
  timeout_new (key : @CertKeyPair toy_params) (mkTimeoutInfo 1 5 4 0) (HeQc toy_quorum_qc) false None.
Definition toy_pending : gmap (@NodeId toy_params) Timeout :=
  <[(2 : @NodeId toy_params) := toy_timeout5 2]> {[ (3 : @NodeId toy_params) := toy_timeout5 3 ]}.
Definition toy_pm5 : Pacemaker := mkPacemaker 100 (λ _, 400) 100 1 (RcQc toy_quorum_qc) toy_pending ∅ PhOne.
Definition toy_safety5 : Safety := ret_or safety_default (safety_new (RcQc toy_quorum_qc) None).
Definition toy_pm5_result : Pacemaker * Safety * list PacemakerCommand :=
  ret_or (toy_pm5, toy_safety5, [])
    (process_remote_timeout toy_pm5 toy_epochs toy_vs toy_mapping toy_safety5 (4 : @NodeId toy_params) (toy_timeout5 4)).

Lemma toy_timeout5_ok key : timeout_ok toy_e2v 1 5 (toy_timeout5 key).
Proof. split_and!; try reflexivity. exact toy_quorum_qc_valid. Qed.

Lemma own_tc_accepted_witness :
  ∃ tc, pm_high_certificate toy_pm5_result.1.1 = RcTc tc ∧ tc_round tc = 5 ∧ tc_valid toy_e2v tc.
Proof.
  destruct (toy_e2v 1 5) as [[[[vs m] leader]|]| |] eqn:He; try (exfalso; discriminate He).
  assert (vs = toy_vs ∧ m = toy_mapping) as [-> ->].
  { apply epoch_to_validators_ok in He as (_ & Hvs & Hm). injection Hvs as <-. by injection Hm as <-. }
  destruct (own_tc_accepted toy_e2v toy_epochs toy_vs toy_mapping leader toy_pm5 toy_safety5 (4 : @NodeId toy_params)
    (toy_timeout5 4) toy_pm5_result.1.1 toy_pm5_result.1.2 toy_pm5_result.2 toy_sc_laws toy_num_signatures toy_vs_wf
    toy_mapping_inj He) as [Hsame|Htc]; [| |exfalso|exact Htc].
  - change (pm_pending_timeouts toy_pm5) with toy_pending. unfold toy_pending.
    intros n t [[<- <-]|[_ [[<- <-]|[_ [<- <-]%lookup_singleton_Some]]%lookup_insert_Some]]%lookup_insert_Some;
      (split; [eexists; reflexivity|apply toy_timeout5_ok]).
  - transitivity (Ret toy_pm5_result); [apply returns_ret; vm_refl|]. by destruct toy_pm5_result as [[??]?].
  - assert (round_certificate_round (pm_high_certificate toy_pm5_result.1.1) = 5) as H5 by vm_refl.
    rewrite Hsame in H5. discriminate H5.
Defined.

Lemma toy_pm5_inv : pm_inv toy_pm5 toy_epochs toy_safety5.
Proof.
  split; try reflexivity; try discriminate; try (intros tip; discriminate).
  change (pm_pending_timeouts toy_pm5) with toy_pending. unfold toy_pending.
  intros n t [[<- <-]|[_ [<- <-]%lookup_singleton_Some]]%lookup_insert_Some; (split_and!; [done..|discriminate]).
Qed.

Definition toy_own_timeout : Timeout := timeout_new (2 : @CertKeyPair toy_params) (timeout_info toy_pm5 toy_safety5)
  (timeout_extend toy_pm5 toy_safety5) (timeout_safe_to_vote toy_pm5 toy_safety5)
  (timeout_last_certificate toy_pm5 toy_safety5).

Lemma own_timeout_accepted_witness : message_valid toy_epochs toy_vem (PmTimeout toy_own_timeout).
Proof.
  eapply (own_timeout_accepted toy_epochs toy_vem toy_pm5 toy_safety5).
  - reflexivity.
  - exact toy_pm5_inv.
  - intros r. discriminate.
  - exact toy_quorum_qc_valid.
  - intros tip. discriminate.
  - reflexivity.
  - right. left.
Defined.

(** Nodes 2, 3 and 4 follow the protocol and vote in round 4; node 1 is
    faulty. Two nodes assemble certificates from different votes. *)
Definition toy_vote4 : Vote := mkVote (get_id (toy_header 4 4 (toy_qc 77 3))) 4 1.
Definition toy_qc4 (signers : list N) : QuorumCertificate :=
  mkQC toy_vote4 (((λ k : N, toy_sign k SdVote (rlp_vote toy_vote4)) <$> signers) : @SigCol toy_params).

Lemma one_certified_block_per_round_witness : qc_info (toy_qc4 [2; 3; 4]) = qc_info (toy_qc4 [1; 3; 4]).
Proof.
  apply (one_certified_block_per_round toy_epochs toy_vem [(1 : @NodeId toy_params)] (λ _, toy_run.2)).
  - intros epoch vs (v & Hv & ->)%fmap_Some. unfold toy_vem in Hv. simpl in Hv.
    apply lookup_singleton_Some in Hv as [_ <-]. simpl.
    split_and!; [apply toy_vs_wf|discriminate|reflexivity].
  - intros n _. exists safety_default, toy_ops, toy_run.1. exact toy_ops_run.
  - intros q epoch m nodes n Hq _ _ _ _. rewrite toy_ops_events.
    apply elem_of_cons in Hq as [->|Hq]; [left|]. apply list_elem_of_singleton in Hq as ->. left.
  - eapply toy_accepts; [apply verify_qc_computes, toy_env|vm_refl].
  - eapply toy_accepts; [apply verify_qc_computes, toy_env|vm_refl].
  - reflexivity.
Defined.
End agreement_witnesses.
