(* ===== verification/BlockTree.v ===== *)
(** * The block tree (monad-blocktree/src/blocktree.rs, tree.rs)

    Uncommitted blocks, indexed by block id, with the list of the children of
    each and the set of blocks that share a body. The root is the last
    committed block. A block is coherent when the block policy accepted it as
    an extension of coherent blocks up to the root; only coherent blocks are
    committed. [ValidatedBlock] is taken as the full block it dereferences to;
    [check_coherency] of the block policy, with the state backend and chain
    configuration it consults, is a parameter. The [while] loops follow parent
    links or a queue of block ids; they have fuel here and are proved to
    return. *)
From S2P Require Import Prelude Types Interfaces MultiSig Certificates Concrete.

Section block_tree.
Context `{P : Params} {CD : Codec}.

(** monad-consensus-types/src/block.rs *)
Record ConsensusFullBlock := mkFullBlock { fb_header : ConsensusBlockHeader; fb_body : ConsensusBlockBody }.

(** [ConsensusFullBlock::new]. *)
Definition full_block_new (header : ConsensusBlockHeader) (body : ConsensusBlockBody) : option ConsensusFullBlock :=
  if bool_decide (body_get_id body ≠ bh_block_body_id header) then None else Some (mkFullBlock header body).

Definition fb_get_id (b : ConsensusFullBlock) : BlockId := get_id (fb_header b).
Definition fb_get_parent_id (b : ConsensusFullBlock) : BlockId := get_parent_id (fb_header b).
Definition fb_get_body_id (b : ConsensusFullBlock) : N := bh_block_body_id (fb_header b).
Definition fb_get_block_round (b : ConsensusFullBlock) : Round := bh_block_round (fb_header b).
Definition fb_get_parent_round (b : ConsensusFullBlock) : Round := qc_get_round (bh_qc (fb_header b)).
Definition fb_get_qc (b : ConsensusFullBlock) : QuorumCertificate := bh_qc (fb_header b).
Definition fb_get_seq_num (b : ConsensusFullBlock) : SeqNum := bh_seq_num (fb_header b).

(** ** tree.rs *)
Record BlockTreeEntry := mkEntry {
  be_validated_block : ConsensusFullBlock;
  be_is_coherent : bool;
  be_children_blocks : list BlockId;
}.

Record BlockBodyIndex := mkBodyIndex { bi_body : ConsensusBlockBody; bi_active_blocks : gset BlockId }.

Record Tree := mkTree {
  tr_tree : gmap BlockId BlockTreeEntry;
  tr_payloads : gmap N BlockBodyIndex;
}.

Definition tree_default : Tree := mkTree ∅ ∅.

Definition tree_get (t : Tree) (id : BlockId) : option BlockTreeEntry := tr_tree t !! id.

(** [Tree::set_coherent]. *)
Definition set_coherent (t : Tree) (id : BlockId) (coherent : bool) : option Tree :=
  match tr_tree t !! id with
  | None => None
  | Some e => Some {| t with tr_tree := <[id := {| e with be_is_coherent := coherent |}]> (tr_tree t) |}
  end.

(** [Tree::remove]. *)
Definition tree_remove (t : Tree) (id : BlockId) : outcome (Tree * option BlockTreeEntry) :=
  match tr_tree t !! id with
  | None => Ret (t, None)
  | Some removed =>
      let payload_id := fb_get_body_id (be_validated_block removed) in
      payload_index ← expect (tr_payloads t !! payload_id);
      _ ← rust_assert (bool_decide (id ∈ bi_active_blocks payload_index));
      let active := bi_active_blocks payload_index ∖ {[id]} in
      let payloads :=
        if bool_decide (active = ∅) then delete payload_id (tr_payloads t)
        else <[payload_id := mkBodyIndex (bi_body payload_index) active]> (tr_payloads t) in
      Ret (mkTree (delete id (tr_tree t)) payloads, Some removed)
  end.

(** [Tree::insert]: collects the children that are already in the tree (in
    the iteration order of the hash map) and adds the block to its parent's
    children. *)
Definition tree_insert {HO : HashOrder BlockId BlockTreeEntry} (t : Tree) (block : ConsensusFullBlock)
    : outcome Tree :=
  let new_block_id := fb_get_id block in
  let parent_id := fb_get_parent_id block in
  let body_id := fb_get_body_id block in
  let children_blocks :=
    (filter (λ p, fb_get_parent_id (be_validated_block p.2) = new_block_id) (hash_iter (tr_tree t))).*1 in
  _ ← rust_assert (bool_decide (tr_tree t !! new_block_id = None));
  let tree := <[new_block_id := mkEntry block false children_blocks]> (tr_tree t) in
  let tree := alter (λ e, {| e with be_children_blocks := be_children_blocks e ++ [new_block_id] |}) parent_id tree in
  let index := default (mkBodyIndex (fb_body block) ∅) (tr_payloads t !! body_id) in
  _ ← rust_assert (bool_decide (new_block_id ∉ bi_active_blocks index));
  Ret (mkTree tree (<[body_id := mkBodyIndex (bi_body index) ({[new_block_id]} ∪ bi_active_blocks index)]>
                      (tr_payloads t))).

Definition get_payload (t : Tree) (body_id : N) : option ConsensusBlockBody :=
  bi_body <$> tr_payloads t !! body_id.

(** ** blocktree.rs *)
Record Root := mkRoot { root_info : RootInfo; root_children_blocks : list BlockId }.

Record BlockTree := mkBlockTree { bt_root : Root; bt_tree : Tree }.

Definition block_tree_new (root : RootInfo) : BlockTree := mkBlockTree (mkRoot root []) tree_default.

Definition root_id (bt : BlockTree) : BlockId := ri_block_id (root_info (bt_root bt)).

Definition is_coherent (bt : BlockTree) (b : BlockId) : bool :=
  if bool_decide (b = root_id bt) then true else
  match tree_get (bt_tree bt) b with
  | Some e => be_is_coherent e
  | None => false
  end.

Definition is_valid_to_insert (bt : BlockTree) (b : ConsensusBlockHeader) : bool :=
  bool_decide (tree_get (bt_tree bt) (get_id b) = None) &&
  bool_decide (ri_round (root_info (bt_root bt)) < bh_block_round b).

(** [BlockTree::add]. *)
Definition bt_add {HO : HashOrder BlockId BlockTreeEntry} (bt : BlockTree) (block : ConsensusFullBlock)
    : outcome BlockTree :=
  if negb (is_valid_to_insert bt (fb_header block)) then Ret bt else
  let new_block_id := fb_get_id block in
  let parent_id := fb_get_parent_id block in
  tree ← tree_insert (bt_tree bt) block;
  let root := bt_root bt in
  let root := if bool_decide (parent_id = root_id bt)
              then {| root with root_children_blocks := root_children_blocks root ++ [new_block_id] |}
              else root in
  Ret (mkBlockTree root tree).

(** Enough fuel for a walk up the tree or a traversal of it. *)
Definition bt_fuel (bt : BlockTree) : nat := S (size (tr_tree (bt_tree bt))).

(** The [loop] of [prune]: removes the entries from [entry_to_commit] up to
    the root, collecting their blocks. *)
Fixpoint prune_loop (fuel : nat) (root : BlockId) (t : Tree) (entry_to_commit : BlockTreeEntry)
    (commit : list ConsensusFullBlock) : outcome (Tree * list ConsensusFullBlock) :=
  match fuel with
  | O => OutOfFuel
  | S fuel =>
      _ ← rust_assert (be_is_coherent entry_to_commit);
      let validated_block := be_validated_block entry_to_commit in
      let parent_id := fb_get_parent_id validated_block in
      let commit := commit ++ [validated_block] in
      if bool_decide (parent_id = root) then Ret (t, commit) else
      '(t, parent) ← tree_remove t parent_id;
      parent ← expect parent;
      prune_loop fuel root t parent commit
  end.

Fixpoint remove_all (t : Tree) (ids : list BlockId) : outcome Tree :=
  match ids with
  | [] => Ret t
  | id :: ids => '(t, _) ← tree_remove t id; remove_all t ids
  end.

(** [BlockTree::prune]. *)
Definition prune {HO : HashOrder BlockId BlockTreeEntry} (bt : BlockTree) (new_root : BlockId)
    : outcome (BlockTree * list ConsensusFullBlock) :=
  _ ← rust_assert (is_coherent bt new_root);
  if bool_decide (new_root = root_id bt) then Ret (bt, []) else
  '(t, new_root_entry) ← tree_remove (bt_tree bt) new_root;
  new_root_entry ← expect new_root_entry;
  '(t, commit) ← prune_loop (bt_fuel bt) (root_id bt) t new_root_entry [];
  let new_block := be_validated_block new_root_entry in
  let blocks_to_delete :=
    (filter (λ p, fb_get_parent_round (be_validated_block p.2) < fb_get_block_round new_block)
       (hash_iter (tr_tree t))).*1 in
  t ← remove_all t blocks_to_delete;
  let h := fb_header new_block in
  let info := mkRootInfo (bh_block_round h) (bh_seq_num h) (bh_epoch h) (get_id h) (bh_timestamp_ns h) in
  Ret (mkBlockTree (mkRoot info (be_children_blocks new_root_entry)) t, reverse commit).

(** The [while let] of [get_blocks_on_path_from_root], before the reversal. *)
Fixpoint path_loop (fuel : nat) (bt : BlockTree) (visit : BlockId) (blocks : list ConsensusFullBlock)
    : outcome (option (list ConsensusFullBlock)) :=
  match fuel with
  | O => OutOfFuel
  | S fuel =>
      match tree_get (bt_tree bt) visit with
      | None => Ret None
      | Some e =>
          let btb := be_validated_block e in
          let blocks := blocks ++ [btb] in
          if bool_decide (fb_get_parent_id btb = root_id bt) then Ret (Some (reverse blocks))
          else path_loop fuel bt (fb_get_parent_id btb) blocks
      end
  end.

Definition get_blocks_on_path_from_root (bt : BlockTree) (b : BlockId)
    : outcome (option (list ConsensusFullBlock)) :=
  if bool_decide (b = root_id bt) then Ret (Some []) else path_loop (bt_fuel bt) bt b [].

Definition get_highest_coherent_block_on_path_from_root (bt : BlockTree) (b : BlockId)
    : outcome (option ConsensusFullBlock) :=
  path ← get_blocks_on_path_from_root bt b;
  Ret (path ← path; List.find (λ block, is_coherent bt (fb_get_id block)) (reverse path)).

(** [while let Some(x) = queue.pop_front() { .. queue.extend(..) }]: [step]
    handles one id and gives the ids to append. *)
Fixpoint queue_loop {S : Type} (fuel : nat) (step : BlockId → S → outcome (S * list BlockId)) (s : S)
    (queue : list BlockId) : outcome S :=
  match fuel with
  | O => OutOfFuel
  | Datatypes.S fuel =>
      match queue with
      | [] => Ret s
      | x :: queue => '(s, new) ← step x s; queue_loop fuel step s (queue ++ new)
      end
  end.

(** block.rs: the errors of [check_coherency]; all are handled alike up to
    metrics. *)
Inductive StateBackendError := NotAvailableYet | NeverAvailable.
Inductive BlockPolicyBlockValidatorError := AccountBalanceMissing | InsufficientBalance | InsufficientReserveBalance.
Inductive BlockPolicyError :=
| BlockNotCoherent
| PolicyStateBackendError (e : StateBackendError)
| TimestampError
| ExecutionResultMismatch
| BaseFeeError
| PolicyBlockValidatorError (e : BlockPolicyBlockValidatorError)
| Eip7702Error
| SystemTransactionError.

(** The [find] of [try_update_coherency]. *)
Fixpoint find_incoherent (bt : BlockTree) (path : list ConsensusFullBlock) : outcome (option ConsensusFullBlock) :=
  match path with
  | [] => Ret None
  | block :: path =>
      e ← expect (tree_get (bt_tree bt) (fb_get_id block));
      if be_is_coherent e then find_incoherent bt path else Ret (Some block)
  end.

(** One iteration of its [while] loop. *)
Definition coherency_step
    (check_coherency : ConsensusFullBlock → list ConsensusFullBlock → RootInfo → result BlockPolicyError unit)
    (next_block_id : BlockId) (st : BlockTree * list ConsensusFullBlock)
    : outcome ((BlockTree * list ConsensusFullBlock) * list BlockId) :=
  let '(bt, retval) := st in
  path ← get_blocks_on_path_from_root bt next_block_id;
  extending_blocks ← expect path;
  next_block ← expect (last extending_blocks);
  let extending_blocks := take (length extending_blocks - 1) extending_blocks in
  match check_coherency next_block extending_blocks (root_info (bt_root bt)) with
  | Ok _ =>
      tree ← expect (set_coherent (bt_tree bt) next_block_id true);
      let bt := {| bt with bt_tree := tree |} in
      e ← expect (tree_get tree next_block_id);
      Ret ((bt, retval ++ [next_block]), be_children_blocks e)
  | Err _ => Ret ((bt, retval), [])
  end.

Definition try_update_coherency
    (check_coherency : ConsensusFullBlock → list ConsensusFullBlock → RootInfo → result BlockPolicyError unit)
    (bt : BlockTree) (block_id : BlockId) : outcome (BlockTree * list ConsensusFullBlock) :=
  path ← get_blocks_on_path_from_root bt block_id;
  match path with
  | None => Ret (bt, [])
  | Some path_from_root =>
      incoherent ← find_incoherent bt path_from_root;
      match incoherent with
      | None => Ret (bt, [])
      | Some b => queue_loop (S (bt_fuel bt)) (coherency_step check_coherency) (bt, []) [fb_get_id b]
      end
  end.

(** One iteration of the loop of [get_high_committable_qc]. *)
Definition high_commit_step (bt : BlockTree) (bid : BlockId) (high_commit_qc : option QuorumCertificate)
    : outcome (option QuorumCertificate * list BlockId) :=
  block ← expect (tree_get (bt_tree bt) bid);
  let children := be_children_blocks block in
  let qc := fb_get_qc (be_validated_block block) in
  let observed := match high_commit_qc with
                  | Some high => bool_decide (qc_get_round qc ≤ qc_get_round high)
                  | None => false
                  end in
  if observed then Ret (high_commit_qc, children) else
  match tree_get (bt_tree bt) (qc_get_block_id qc) with
  | None => Ret (high_commit_qc, children)
  | Some qc_parent_block =>
      committable ← get_committable_id qc (fb_header (be_validated_block qc_parent_block));
      match committable with
      | None => Ret (high_commit_qc, children)
      | Some committable_block_id =>
          if bool_decide (committable_block_id = root_id bt) then Ret (high_commit_qc, children) else
          if negb (is_coherent bt committable_block_id) then Ret (high_commit_qc, children) else
          Ret (Some qc, children)
      end
  end.

Definition get_high_committable_qc (bt : BlockTree) : outcome (option QuorumCertificate) :=
  queue_loop (S (bt_fuel bt)) (high_commit_step bt) None (root_children_blocks (bt_root bt)).

(** The [while let] of [maybe_fill_path_to_root]; sequence numbers are
    subtracted with a check. *)
Fixpoint fill_loop (fuel : nat) (bt : BlockTree) (maybe_unknown_bid : BlockId) (num_blocks : SeqNum)
    : outcome (option BlockRange) :=
  match fuel with
  | O => OutOfFuel
  | S fuel =>
      match tree_get (bt_tree bt) maybe_unknown_bid with
      | None => Ret (Some (mkBlockRange maybe_unknown_bid num_blocks))
      | Some known =>
          let block := be_validated_block known in
          if bool_decide (fb_get_parent_id block = root_id bt) then Ret None else
          d ← seq_sub (fb_get_seq_num block) (ri_seq_num (root_info (bt_root bt)));
          n ← seq_sub (N.max d 2) 1;
          fill_loop fuel bt (fb_get_parent_id block) n
      end
  end.

Definition maybe_fill_path_to_root (bt : BlockTree) (qc : QuorumCertificate) : outcome (option BlockRange) :=
  if bool_decide (qc_get_round qc ≤ ri_round (root_info (bt_root bt)))
     || bool_decide (root_id bt = qc_get_block_id qc)
  then Ret None
  else fill_loop (bt_fuel bt) bt (qc_get_block_id qc) 1.

(** [get_seq_num_of_qc], [get_timestamp_of_qc], [get_block_round_of_qc]. *)
Definition of_qc {A} (of_root : RootInfo → A) (of_block : ConsensusBlockHeader → A)
    (bt : BlockTree) (qc : QuorumCertificate) : option A :=
  let block_id := qc_get_block_id qc in
  if bool_decide (root_id bt = block_id) then Some (of_root (root_info (bt_root bt)))
  else (λ e, of_block (fb_header (be_validated_block e))) <$> tree_get (bt_tree bt) block_id.
Definition get_seq_num_of_qc : BlockTree → QuorumCertificate → option SeqNum := of_qc ri_seq_num bh_seq_num.
Definition get_timestamp_of_qc : BlockTree → QuorumCertificate → option N := of_qc ri_timestamp_ns bh_timestamp_ns.
Definition get_block_round_of_qc : BlockTree → QuorumCertificate → option Round := of_qc ri_round bh_block_round.

Definition get_block (bt : BlockTree) (id : BlockId) : option ConsensusFullBlock :=
  be_validated_block <$> tree_get (bt_tree bt) id.

(** [get_parent_block_chain]. *)
Fixpoint chain_loop (fuel : nat) (bt : BlockTree) (block : ConsensusFullBlock) (chain : list ConsensusFullBlock)
    : outcome (list ConsensusFullBlock) :=
  match fuel with
  | O => OutOfFuel
  | S fuel =>
      match tree_get (bt_tree bt) (fb_get_parent_id block) with
      | None => Ret (reverse chain)
      | Some parent => chain_loop fuel bt (be_validated_block parent) (chain ++ [be_validated_block parent])
      end
  end.
Definition get_parent_block_chain (bt : BlockTree) (block_id : BlockId) : outcome (list ConsensusFullBlock) :=
  match tree_get (bt_tree bt) block_id with
  | None => Ret []
  | Some base => chain_loop (bt_fuel bt) bt (be_validated_block base) [be_validated_block base]
  end.

(** [for child_id in children.iter().filter(coherent)]: the best descendant
    so far, and the children to visit. *)
Fixpoint best_children (bt : BlockTree) (children : list BlockId) (best : BlockId * Round)
    : (BlockId * Round) * list BlockId :=
  match children with
  | [] => (best, [])
  | child :: children =>
      if negb (is_coherent bt child) then best_children bt children best else
      match tree_get (bt_tree bt) child with
      | None => best_children bt children best
      | Some e =>
          let child_round := fb_get_block_round (be_validated_block e) in
          let best := if bool_decide (best.2 < child_round) then (child, child_round) else best in
          let '(best, visit) := best_children bt children best in
          (best, child :: visit)
      end
  end.

Definition descendant_step (bt : BlockTree) (current : BlockId) (best : BlockId * Round)
    : outcome ((BlockId * Round) * list BlockId) :=
  if bool_decide (current = root_id bt) then Ret (best_children bt (root_children_blocks (bt_root bt)) best) else
  match tree_get (bt_tree bt) current with
  | Some e => Ret (best_children bt (be_children_blocks e) best)
  | None => Ret (best, [])
  end.

Definition highest_round_coherent_descendant (bt : BlockTree) (block_id : BlockId) : outcome BlockId :=
  let start :=
    if bool_decide (block_id = root_id bt) then Some (ri_round (root_info (bt_root bt)))
    else (λ e, fb_get_block_round (be_validated_block e)) <$> tree_get (bt_tree bt) block_id in
  match start with
  | None => Ret block_id
  | Some best_round =>
      best ← queue_loop (S (bt_fuel bt)) (descendant_step bt) (block_id, best_round) [block_id];
      Ret best.1
  end.

Definition get_canonical_coherent_tip (bt : BlockTree) (high_cert_qc : QuorumCertificate) : outcome BlockId :=
  path ← get_blocks_on_path_from_root bt (qc_get_block_id high_cert_qc);
  match path with
  | None => highest_round_coherent_descendant bt (root_id bt)
  | Some path =>
      match List.find (λ block, is_coherent bt (fb_get_id block)) (reverse path) with
      | None => Ret (root_id bt)
      | Some block =>
          let coherent_tip := fb_get_id block in
          if bool_decide (coherent_tip = qc_get_block_id high_cert_qc)
          then highest_round_coherent_descendant bt coherent_tip
          else Ret coherent_tip
      end
  end.
End block_tree.

