(* ===== verification/BlockTreeProps.v ===== *)
(** * Correctness of the block tree

    The invariant of the tree ([bt_wf]) and what its operations do. A chain
    from the root to a block is the list of the blocks in between, each the
    child of the one before. The invariant speaks of a set [valid] of block
    headers: those the node accepted, whose quorum certificates are for
    earlier rounds than the block and not earlier than the block they certify,
    and on which the block id has no collision ([valid_headers]). *)
From S2P Require Import Prelude Types Interfaces MultiSig Certificates Concrete BlockTree.

Record valid_headers `{P : Params} {CD : Codec} (valid : ConsensusBlockHeader → Prop) : Prop := {
  vh_inj : ∀ h h', valid h → valid h' → get_id h = get_id h' → h = h';
  vh_round : ∀ h, valid h → qc_get_round (bh_qc h) < bh_block_round h ∧ bh_block_round h ≤ u64_MAX;
  vh_parent : ∀ h h', valid h → valid h' → get_parent_id h' = get_id h →
    bh_block_round h ≤ qc_get_round (bh_qc h');
}.

Section chains.
Context `{P : Params} {CD : Codec}.

(** The blocks from the root (excluded) to a block (included). *)
Inductive chain (m : gmap BlockId BlockTreeEntry) (root : BlockId) : BlockId → list ConsensusFullBlock → Prop :=
| chain_root : chain m root root []
| chain_step id e l : id ≠ root → m !! id = Some e →
    chain m root (fb_get_parent_id (be_validated_block e)) l → chain m root id (l ++ [be_validated_block e]).

(** Each body is indexed by the blocks in the tree that carry it. *)
Definition payload_wf (t : Tree) : Prop :=
  (∀ body id, (∃ idx, tr_payloads t !! body = Some idx ∧ id ∈ bi_active_blocks idx) ↔
     ∃ e, tr_tree t !! id = Some e ∧ fb_get_body_id (be_validated_block e) = body) ∧
  (∀ body idx, tr_payloads t !! body = Some idx → bi_active_blocks idx ≠ ∅).

Context (valid : ConsensusBlockHeader → Prop).

(** No block with this id can have a path to the root any more: it extends a
    certificate from before the root, or is itself not after the root. *)
Definition dead_id (bt : BlockTree) (id : BlockId) : Prop :=
  ∀ h, valid h → get_id h = id →
    qc_get_round (bh_qc h) < ri_round (root_info (bt_root bt)) ∨ bh_block_round h ≤ ri_round (root_info (bt_root bt)).

Record bt_wf (bt : BlockTree) : Prop := {
  (** entries are filed under their id, are valid and after the root *)
  bw_entry : ∀ id e, tr_tree (bt_tree bt) !! id = Some e →
    fb_get_id (be_validated_block e) = id ∧ valid (fb_header (be_validated_block e)) ∧
    ri_round (root_info (bt_root bt)) < fb_get_block_round (be_validated_block e);
  (** the lists of children are exact *)
  bw_children : ∀ id e, tr_tree (bt_tree bt) !! id = Some e → NoDup (be_children_blocks e) ∧
    ∀ c, c ∈ be_children_blocks e ↔
      ∃ ce, tr_tree (bt_tree bt) !! c = Some ce ∧ fb_get_parent_id (be_validated_block ce) = id;
  bw_root_children : NoDup (root_children_blocks (bt_root bt)) ∧
    ∀ c, c ∈ root_children_blocks (bt_root bt) ↔
      ∃ ce, tr_tree (bt_tree bt) !! c = Some ce ∧ fb_get_parent_id (be_validated_block ce) = root_id bt;
  (** the recorded root round is that of the root block *)
  bw_root : ∀ h, valid h → get_id h = root_id bt → bh_block_round h ≤ ri_round (root_info (bt_root bt));
  bw_root_parent : ∀ h, valid h → get_parent_id h = root_id bt →
    ri_round (root_info (bt_root bt)) ≤ qc_get_round (bh_qc h);
  bw_payload : payload_wf (bt_tree bt);
  (** a coherent block extends the root or a coherent block, or can never be
      reached from the root again *)
  bw_coherent : ∀ id e, tr_tree (bt_tree bt) !! id = Some e → be_is_coherent e = true →
    is_coherent bt (fb_get_parent_id (be_validated_block e)) = true ∨
    dead_id bt (fb_get_parent_id (be_validated_block e));
}.

Context (Hvalid : valid_headers valid).
Implicit Types (bt : BlockTree) (m : gmap BlockId BlockTreeEntry).

Lemma bt_root_not_in bt : bt_wf bt → tr_tree (bt_tree bt) !! root_id bt = None.
Proof.
  intros Hwf. apply eq_None_not_Some. intros [e He]. destruct (bw_entry _ Hwf _ _ He) as (Hid & Hv & Hr).
  pose proof (bw_root _ Hwf _ Hv Hid). unfold fb_get_block_round in Hr. lia.
Qed.

(** Rounds strictly increase from parent to child. *)
Lemma bt_parent_round bt id e pe : bt_wf bt → tr_tree (bt_tree bt) !! id = Some e →
  tr_tree (bt_tree bt) !! fb_get_parent_id (be_validated_block e) = Some pe →
  fb_get_block_round (be_validated_block pe) ≤ fb_get_parent_round (be_validated_block e).
Proof using Hvalid.
  intros Hwf He Hpe. destruct (bw_entry _ Hwf _ _ He) as (_ & Hv & _).
  destruct (bw_entry _ Hwf _ _ Hpe) as (Hid & Hvp & _).
  apply (vh_parent _ Hvalid); [done..|]. by symmetry.
Qed.

Lemma bt_round_pos bt id e : bt_wf bt → tr_tree (bt_tree bt) !! id = Some e →
  fb_get_parent_round (be_validated_block e) < fb_get_block_round (be_validated_block e).
Proof using Hvalid.
  intros Hwf He. destruct (bw_entry _ Hwf _ _ He) as (_ & Hv & _). by apply (vh_round _ Hvalid).
Qed.

Lemma chain_det m root id l l' : chain m root id l → chain m root id l' → l = l'.
Proof.
  intros H. revert l'. induction H as [|id e l Hne He _ IH]; intros l' H'.
  - by inversion H' as [|? e' l'' Hne' He']; subst.
  - inversion H' as [|? e' l'' Hne' He' Hc]; subst; [done|]. rewrite He in He'. injection He' as <-.
    by rewrite (IH _ Hc).
Qed.

(** All blocks of a chain to [id] are in the tree, with rounds up to that of
    [id], and parent rounds below it. *)
Lemma chain_in_tree bt id l : bt_wf bt → chain (tr_tree (bt_tree bt)) (root_id bt) id l →
  ∀ b, b ∈ l → ∃ e, tr_tree (bt_tree bt) !! fb_get_id b = Some e ∧ be_validated_block e = b ∧
    ∀ ei, tr_tree (bt_tree bt) !! id = Some ei →
      fb_get_block_round b ≤ fb_get_block_round (be_validated_block ei).
Proof using Hvalid.
  intros Hwf. induction 1 as [|id e l Hne He Hc IH]; intros b Hb; [by apply elem_of_nil in Hb|].
  apply elem_of_app in Hb as [Hb| ->%list_elem_of_singleton].
  - destruct (IH b Hb) as (e' & He' & Hb' & Hle). exists e'. split_and!; [done..|].
    intros ei Hei. rewrite He in Hei. injection Hei as <-.
    destruct (tr_tree (bt_tree bt) !! fb_get_parent_id (be_validated_block e)) as [pe|] eqn:Hpe.
    + specialize (Hle pe eq_refl). pose proof (bt_parent_round _ _ _ _ Hwf He Hpe).
      pose proof (bt_round_pos _ _ _ Hwf He). lia.
    + inversion Hc; subst; [by apply elem_of_nil in Hb|congruence].
  - destruct (bw_entry _ Hwf _ _ He) as (Hid & _). exists e. rewrite Hid. split_and!; [done..|].
    intros ei Hei. rewrite He in Hei. by injection Hei as <-.
Qed.

Lemma chain_sorted bt id l : bt_wf bt → chain (tr_tree (bt_tree bt)) (root_id bt) id l →
  StronglySorted (λ b b', fb_get_block_round b < fb_get_block_round b') l.
Proof using Hvalid.
  intros Hwf. induction 1 as [|id e l Hne He Hc IH]; [constructor|].
  apply StronglySorted_app. split_and!; [|done|repeat constructor]. intros b b' Hb ->%list_elem_of_singleton.
  destruct (chain_in_tree _ _ _ Hwf Hc b Hb) as (_ & _ & _ & Hle).
  destruct (tr_tree (bt_tree bt) !! fb_get_parent_id (be_validated_block e)) as [pe|] eqn:Hpe.
  - specialize (Hle pe eq_refl). pose proof (bt_parent_round _ _ _ _ Hwf He Hpe).
    pose proof (bt_round_pos _ _ _ Hwf He). lia.
  - inversion Hc; subst; [by apply elem_of_nil in Hb|congruence].
Qed.

Lemma sorted_ids_nodup bt l :
  StronglySorted (λ b b', fb_get_block_round b < fb_get_block_round b') l →
  (∀ b, b ∈ l → valid (fb_header b)) → NoDup (fb_get_id <$> l).
Proof using Hvalid.
  induction 1 as [|b l _ IH Hlt]; intros Hv; [constructor|]. rewrite fmap_cons. constructor.
  - intros (b' & Hid & Hb')%list_elem_of_fmap. rewrite Forall_forall in Hlt. specialize (Hlt b' Hb').
    unfold fb_get_block_round in Hlt. rewrite (vh_inj _ Hvalid (fb_header b) (fb_header b')) in Hlt; [lia| | |done];
      apply Hv; set_solver.
  - apply IH. intros b' Hb'. apply Hv. by right.
Qed.

Lemma chain_nodup bt id l : bt_wf bt → chain (tr_tree (bt_tree bt)) (root_id bt) id l → NoDup (fb_get_id <$> l).
Proof using Hvalid.
  intros Hwf Hc. apply (sorted_ids_nodup bt); [by eapply chain_sorted|]. intros b Hb.
  destruct (chain_in_tree _ _ _ Hwf Hc b Hb) as (e & He & <- & _). by destruct (bw_entry _ Hwf _ _ He) as (_ & ? & _).
Qed.

Lemma chain_length bt id l : bt_wf bt → chain (tr_tree (bt_tree bt)) (root_id bt) id l →
  (length l ≤ size (tr_tree (bt_tree bt)))%nat.
Proof using Hvalid.
  intros Hwf Hc. rewrite <- (length_fmap fb_get_id l).
  rewrite <- (size_list_to_set (C := gset BlockId) (fb_get_id <$> l)) by by eapply chain_nodup.
  rewrite <- (size_dom (D := gset BlockId)). apply subseteq_size.
  intros id' (b & -> & Hb)%elem_of_list_to_set%list_elem_of_fmap.
  destruct (chain_in_tree _ _ _ Hwf Hc b Hb) as (e & He & _). by apply elem_of_dom.
Qed.

(** The number of blocks up to a round: it decreases along parent links. *)
Definition blocks_upto (bt : BlockTree) (r : Round) : nat :=
  size (filter (λ p, fb_get_block_round (be_validated_block p.2) ≤ r) (tr_tree (bt_tree bt))).

Lemma blocks_upto_size bt r : (blocks_upto bt r ≤ size (tr_tree (bt_tree bt)))%nat.
Proof. apply map_subseteq_size, map_filter_subseteq. Qed.

Lemma blocks_upto_parent bt id e r : bt_wf bt → tr_tree (bt_tree bt) !! id = Some e →
  fb_get_block_round (be_validated_block e) ≤ r →
  (blocks_upto bt (fb_get_parent_round (be_validated_block e)) < blocks_upto bt r)%nat.
Proof using Hvalid.
  intros Hwf He Hr. pose proof (bt_round_pos _ _ _ Hwf He). unfold blocks_upto.
  apply map_subset_size. split.
  - apply map_filter_subseteq_ext. intros i x Hx. simpl. intros. lia.
  - intros Hsub. assert (filter (λ p, fb_get_block_round (be_validated_block p.2) ≤ r) (tr_tree (bt_tree bt)) !! id = Some e)
      as Hin by (apply map_lookup_filter_Some; done).
    apply (lookup_weaken _ _ _ _ Hin), map_lookup_filter_Some in Hsub as [_ Hle]. simpl in Hle. lia.
Qed.

(** The walk to the root returns, and finds the chain exactly if there is
    one. *)
Lemma path_loop_spec bt fuel id r blocks : bt_wf bt → id ≠ root_id bt →
  (∀ e, tr_tree (bt_tree bt) !! id = Some e → fb_get_block_round (be_validated_block e) ≤ r) →
  (blocks_upto bt r < fuel)%nat →
  ∃ res, path_loop fuel bt id blocks = Ret res ∧
    ∀ l', res = Some l' ↔ ∃ l, chain (tr_tree (bt_tree bt)) (root_id bt) id l ∧ l' = l ++ reverse blocks.
Proof using Hvalid.
  intros Hwf. revert id r blocks. induction fuel as [|fuel IH]; intros id r blocks Hid Hr Hfuel; [lia|].
  cbn [path_loop]. unfold tree_get. destruct (tr_tree (bt_tree bt) !! id) as [e|] eqn:He.
  2:{ exists None. split; [done|]. intros l'. split; [done|]. intros (l & Hc & _).
      inversion Hc; subst; congruence. }
  case_bool_decide as Hp.
  - eexists. split; [done|]. intros l'. split.
    + intros [= <-]. exists ([] ++ [be_validated_block e]). split.
      * econstructor; [done..|]. rewrite Hp. constructor.
      * rewrite reverse_app. done.
    + intros (l & Hc & ->). inversion Hc as [|? e' l0 Hne He' Hc0]; subst; [done|].
      rewrite He in He'. injection He' as <-. rewrite Hp in Hc0.
      assert (l0 = []) as -> by (eapply chain_det; [exact Hc0|constructor]).
      rewrite reverse_app. done.
  - destruct (IH (fb_get_parent_id (be_validated_block e)) (fb_get_parent_round (be_validated_block e))
      (blocks ++ [be_validated_block e])) as (res & Hres & Hl); [done| | |].
    + intros pe Hpe. by eapply bt_parent_round.
    + pose proof (blocks_upto_parent bt id e r Hwf He (Hr e eq_refl)). lia.
    + exists res. split; [done|]. intros l'. rewrite Hl. split.
      * intros (l & Hc & ->). exists (l ++ [be_validated_block e]). split; [by econstructor|].
        rewrite reverse_app, <- (assoc_L (++)). done.
      * intros (l & Hc & ->). inversion Hc as [|? e' l0 Hne He' Hc0]; subst; [done|].
        rewrite He in He'. injection He' as <-. exists l0. split; [done|].
        rewrite reverse_app, <- (assoc_L (++)). done.
Qed.

Lemma path_spec bt id : bt_wf bt →
  ∃ res, get_blocks_on_path_from_root bt id = Ret res ∧
    ∀ l, res = Some l ↔ chain (tr_tree (bt_tree bt)) (root_id bt) id l.
Proof using Hvalid.
  intros Hwf. unfold get_blocks_on_path_from_root. case_bool_decide as Hid.
  - exists (Some []). split; [done|]. intros l. split; [intros [= <-]; subst; constructor|].
    intros Hc. f_equal. subst. eapply chain_det; [constructor|exact Hc].
  - set (r := match tr_tree (bt_tree bt) !! id with Some e => fb_get_block_round (be_validated_block e) | None => 0 end).
    destruct (path_loop_spec bt (bt_fuel bt) id r [] Hwf Hid) as (res & Hres & Hl).
    + intros e He. unfold r. by rewrite He.
    + pose proof (blocks_upto_size bt r). unfold bt_fuel. lia.
    + exists res. split; [done|]. intros l. rewrite Hl. split.
      * intros (l0 & Hc & ->). by rewrite app_nil_r.
      * intros Hc. exists l. by rewrite app_nil_r.
Qed.

(** ** Removing blocks *)

Lemma tree_remove_spec t id : payload_wf t →
  ∃ t', tree_remove t id = Ret (t', tr_tree t !! id) ∧ tr_tree t' = delete id (tr_tree t) ∧ payload_wf t'.
Proof.
  intros [Hpay Hne]. unfold tree_remove. destruct (tr_tree t !! id) as [e|] eqn:He.
  2:{ exists t. split; [done|]. split; [symmetry; by apply delete_id|by split]. }
  destruct (proj2 (Hpay (fb_get_body_id (be_validated_block e)) id)) as (idx & Hidx & Hin); [by eauto|].
  rewrite Hidx. simpl. rewrite (bool_decide_eq_true_2 (id ∈ _)) by done. simpl. eexists. split; [done|]. simpl.
  split; [done|]. set (body := fb_get_body_id (be_validated_block e)) in *.
  set (active := bi_active_blocks idx ∖ {[id]}).
  assert (∀ body' idx', (if bool_decide (active = ∅) then delete body (tr_payloads t)
      else <[body := mkBodyIndex (bi_body idx) active]> (tr_payloads t)) !! body' = Some idx' ↔
    (body' ≠ body ∧ tr_payloads t !! body' = Some idx') ∨
    (body' = body ∧ active ≠ ∅ ∧ idx' = mkBodyIndex (bi_body idx) active)) as Hlook.
  { intros body' idx'. case_bool_decide as Ha.
    - rewrite lookup_delete_Some. naive_solver.
    - rewrite lookup_insert_Some. naive_solver. }
  split.
  - intros body' id'. simpl. setoid_rewrite Hlook. setoid_rewrite lookup_delete_Some. split.
    + intros (idx' & [[Hb Hidx']|(-> & _ & ->)] & Hin').
      * destruct (proj1 (Hpay body' id')) as (e' & He' & Hbody); [by eauto|]. exists e'.
        split; [|done]. split; [|done]. intros <-. rewrite He in He'. by injection He' as <-.
      * simpl in Hin'. apply elem_of_difference in Hin' as [Hin' Hne']. rewrite elem_of_singleton in Hne'.
        destruct (proj1 (Hpay body id')) as (e' & He' & Hbody); [by eauto|]. exists e'. by split.
    + intros (e' & [Hid He'] & Hbody). destruct (proj2 (Hpay body' id')) as (idx' & Hidx' & Hin'); [by eauto|].
      destruct (decide (body' = body)) as [->|Hb]; [|by eauto 7].
      rewrite Hidx in Hidx'. injection Hidx' as <-.
      assert (id' ∈ active) as Hact by (unfold active; set_solver).
      exists (mkBodyIndex (bi_body idx) active). split; [|done]. right. split_and!; [done| |done].
      intros Ha. rewrite Ha in Hact. by apply elem_of_empty in Hact.
  - intros body' idx'. simpl. rewrite Hlook. intros [[_ H]|(_ & H & ->)]; [by apply (Hne body')|done].
Qed.

Lemma remove_all_spec t ids : payload_wf t →
  ∃ t', remove_all t ids = Ret t' ∧ payload_wf t' ∧
    ∀ id, tr_tree t' !! id = if decide (id ∈ ids) then None else tr_tree t !! id.
Proof.
  revert t. induction ids as [|id ids IH]; intros t Hp; cbn [remove_all].
  { exists t. split_and!; [done..|]. intros id. by rewrite decide_False by apply not_elem_of_nil. }
  destruct (tree_remove_spec t id Hp) as (t1 & -> & Ht1 & Hp1). simpl.
  destruct (IH t1 Hp1) as (t2 & -> & Hp2 & Ht2). exists t2. split_and!; [done..|].
  intros id'. rewrite Ht2, Ht1. destruct (decide (id' = id)) as [->|Hne].
  - rewrite lookup_delete_eq. rewrite (decide_True (P := id ∈ id :: ids)) by left. by case_decide.
  - rewrite lookup_delete_ne by done. destruct (decide (id' ∈ ids)).
    + by rewrite decide_True by (by right).
    + rewrite decide_False; [done|]. by intros [?|?]%elem_of_cons.
Qed.

(** A chain does not depend on blocks that are not on it. *)
Lemma chain_delete m root id l x :
  chain m root id l → x ∉ fb_get_id <$> l → (∀ id e, m !! id = Some e → fb_get_id (be_validated_block e) = id) →
  chain (delete x m) root id l.
Proof.
  intros Hc Hx Hkeys. induction Hc as [|id e l Hne He Hc IH]; [constructor|].
  rewrite fmap_app in Hx. econstructor; [done| |apply IH; set_solver].
  rewrite lookup_delete_ne; [done|]. intros ->. apply Hx. apply elem_of_app. right.
  simpl. rewrite (Hkeys _ _ He). left.
Qed.

(** The committing loop removes the chain above an entry and collects it. *)
Lemma prune_loop_spec fuel root t e l commit :
  payload_wf t → (∀ id e, tr_tree t !! id = Some e → fb_get_id (be_validated_block e) = id) →
  chain (tr_tree t) root (fb_get_parent_id (be_validated_block e)) l → NoDup (fb_get_id <$> l) →
  be_is_coherent e = true →
  (∀ b eb, b ∈ l → tr_tree t !! fb_get_id b = Some eb → be_is_coherent eb = true) →
  (length l < fuel)%nat →
  ∃ t', prune_loop fuel root t e commit = Ret (t', commit ++ [be_validated_block e] ++ reverse l) ∧
    payload_wf t' ∧ ∀ id, tr_tree t' !! id = if decide (id ∈ fb_get_id <$> l) then None else tr_tree t !! id.
Proof.
  revert t e l commit. induction fuel as [|fuel IH]; intros t e l commit Hp Hkeys Hc Hnd He Hcoh Hfuel; [lia|].
  cbn [prune_loop]. rewrite He. simpl. inversion Hc as [Hr|id e' l' Hne He' Hc' Hid Hl]; subst.
  - rewrite bool_decide_eq_true_2 by done. exists t. split_and!; [done..|].
    intros id. by rewrite decide_False by apply not_elem_of_nil.
  - rewrite bool_decide_eq_false_2 by done. set (pid := fb_get_parent_id (be_validated_block e)) in *.
    destruct (tree_remove_spec t pid Hp) as (t1 & -> & Ht1 & Hp1). rewrite He'. simpl.
    pose proof (Hkeys _ _ He') as Hpid. rewrite fmap_app in Hnd. simpl in Hnd. rewrite Hpid in Hnd.
    apply NoDup_app in Hnd as (Hnd & Hdisj & _).
    assert (pid ∉ fb_get_id <$> l') as Hnin by (intros Hin; apply (Hdisj pid Hin); left).
    destruct (IH t1 e' l' (commit ++ [be_validated_block e])) as (t2 & -> & Hp2 & Ht2); [done| | |done| | | |].
    + intros id e0. rewrite Ht1. intros [_ ?]%lookup_delete_Some. by apply Hkeys.
    + rewrite Ht1. by apply chain_delete.
    + apply (Hcoh (be_validated_block e')); [set_solver|]. by rewrite Hpid.
    + intros b eb Hb. rewrite Ht1. intros [_ ?]%lookup_delete_Some. apply (Hcoh b); [set_solver|done].
    + rewrite length_app in Hfuel. simpl in Hfuel. lia.
    + exists t2. split_and!; [|done|].
      * f_equal. f_equal. rewrite reverse_app. simpl. by rewrite <- (assoc_L (++)).
      * intros id. rewrite Ht2, Ht1, fmap_app. simpl. rewrite Hpid.
        destruct (decide (id ∈ fb_get_id <$> l')).
        -- by rewrite decide_True by set_solver.
        -- destruct (decide (id = pid)) as [->|Hne']; [by rewrite lookup_delete_eq, decide_True by set_solver|].
           rewrite lookup_delete_ne by done. by rewrite decide_False by set_solver.
Qed.

(** ** Committing *)

(** A block with a path to the root extends a certificate from the root on. *)
Lemma chain_parent_round bt id l e : bt_wf bt → chain (tr_tree (bt_tree bt)) (root_id bt) id l →
  tr_tree (bt_tree bt) !! id = Some e →
  ri_round (root_info (bt_root bt)) ≤ fb_get_parent_round (be_validated_block e).
Proof using Hvalid.
  intros Hwf Hc He. destruct (bw_entry _ Hwf _ _ He) as (_ & Hv & _).
  inversion Hc as [|? e' l' Hne He' Hc' ]; subst; [by rewrite bt_root_not_in in He|].
  rewrite He in He'. injection He' as <-.
  inversion Hc' as [Hr|? pe l'' Hne' Hpe]; subst; [by apply (bw_root_parent _ Hwf)|].
  pose proof (bt_parent_round _ _ _ _ Hwf He Hpe). destruct (bw_entry _ Hwf _ _ Hpe) as (_ & _ & Hlt). lia.
Qed.

Lemma is_coherent_entry bt id e : id ≠ root_id bt → tr_tree (bt_tree bt) !! id = Some e →
  is_coherent bt id = be_is_coherent e.
Proof. intros Hne He. unfold is_coherent, tree_get. by rewrite bool_decide_eq_false_2, He. Qed.

Lemma chain_coherent bt id l : bt_wf bt → chain (tr_tree (bt_tree bt)) (root_id bt) id l →
  is_coherent bt id = true → ∀ b e, b ∈ l → tr_tree (bt_tree bt) !! fb_get_id b = Some e → be_is_coherent e = true.
Proof using Hvalid.
  intros Hwf Hc. induction Hc as [|id e l Hne He Hc IH]; intros Hcoh b eb Hb Heb; [by apply elem_of_nil in Hb|].
  unfold is_coherent, tree_get in Hcoh. rewrite bool_decide_eq_false_2, He in Hcoh by done.
  destruct (bw_entry _ Hwf _ _ He) as (Hid & Hv & _).
  apply elem_of_app in Hb as [Hb| ->%list_elem_of_singleton].
  2:{ rewrite Hid, He in Heb. by injection Heb as <-. }
  destruct (bw_coherent _ Hwf _ _ He Hcoh) as [Hp|Hdead]; [by eapply IH|].
  inversion Hc as [Hr|? pe l' Hne' Hpe Hc']; subst; [by apply elem_of_nil in Hb|].
  destruct (bw_entry _ Hwf _ _ Hpe) as (Hpid & Hpv & Hlt).
  pose proof (chain_parent_round _ _ _ _ Hwf Hc Hpe) as Hle.
  destruct (Hdead _ Hpv Hpid); unfold fb_get_parent_round, fb_get_block_round in *; lia.
Qed.

(** The blocks of a chain extend certificates from before its last block. *)
Lemma chain_parent_rounds_below bt id l e : bt_wf bt → chain (tr_tree (bt_tree bt)) (root_id bt) id l →
  tr_tree (bt_tree bt) !! id = Some e →
  ∀ b, b ∈ l → fb_get_parent_round b < fb_get_block_round (be_validated_block e).
Proof using Hvalid.
  intros Hwf Hc He b Hb. destruct (chain_in_tree _ _ _ Hwf Hc b Hb) as (eb & Heb & <- & Hle).
  specialize (Hle e He). pose proof (bt_round_pos _ _ _ Hwf Heb). lia.
Qed.

Lemma prune_spec {HO : HashOrder BlockId BlockTreeEntry} bt new_root l e : bt_wf bt →
  is_coherent bt new_root = true → chain (tr_tree (bt_tree bt)) (root_id bt) new_root l →
  tr_tree (bt_tree bt) !! new_root = Some e →
  let b := be_validated_block e in
  ∃ t', prune bt new_root = Ret (mkBlockTree (mkRoot (mkRootInfo (bh_block_round (fb_header b)) (bh_seq_num (fb_header b))
      (bh_epoch (fb_header b)) new_root (bh_timestamp_ns (fb_header b))) (be_children_blocks e)) t', l) ∧
    payload_wf t' ∧
    tr_tree t' = filter (λ p, fb_get_block_round b ≤ fb_get_parent_round (be_validated_block p.2)) (tr_tree (bt_tree bt)).
Proof using Hvalid.
  intros Hwf Hcoh Hc He b. pose proof (bt_root_not_in _ Hwf) as Hroot.
  assert (new_root ≠ root_id bt) as Hne by congruence.
  destruct (bw_entry _ Hwf _ _ He) as (Hid & Hv & Hlt). fold b in Hid, Hv, Hlt.
  unfold prune. rewrite Hcoh. cbn -[prune_loop]. rewrite bool_decide_eq_false_2 by done.
  destruct (tree_remove_spec (bt_tree bt) new_root (bw_payload _ Hwf)) as (t1 & -> & Ht1 & Hp1).
  rewrite He. cbn -[prune_loop]. pose proof Hc as Hc0.
  inversion Hc0 as [|id0 e' l' _ He' Hc' Hid0 Hl0]; [congruence|]. clear Hc0. subst id0.
  rewrite He in He'. injection He' as <-. fold b in Hl0. subst l.
  pose proof (chain_nodup _ _ _ Hwf Hc) as Hnd. rewrite fmap_app in Hnd. fold b in Hnd. simpl in Hnd.
  apply NoDup_app in Hnd as (Hnd & Hdisj & _).
  assert (new_root ∉ fb_get_id <$> l') as Hnin by (rewrite <- Hid; intros Hin; apply (Hdisj _ Hin); left).
  destruct (prune_loop_spec (bt_fuel bt) (root_id bt) t1 e l' []) as (t2 & Hloop & Hp2 & Ht2); [done| | |done| | | |].
  { intros id0 e0. rewrite Ht1. intros [_ ?]%lookup_delete_Some. by apply (bw_entry _ Hwf). }
  { rewrite Ht1. apply chain_delete; [done..|]. intros id0 e0 ?. by apply (bw_entry _ Hwf). }
  { unfold is_coherent, tree_get in Hcoh. by rewrite bool_decide_eq_false_2, He in Hcoh. }
  { intros b0 eb Hb0. rewrite Ht1. intros [_ ?]%lookup_delete_Some.
    eapply (chain_coherent _ _ _ Hwf Hc Hcoh b0); [set_solver|done]. }
  { pose proof (chain_length _ _ _ Hwf Hc) as Hlen. rewrite length_app in Hlen. simpl in Hlen. unfold bt_fuel. lia. }
  rewrite Hloop. simpl. fold b.
  match goal with |- context [remove_all t2 ?ids] => set (ids0 := ids) end.
  destruct (remove_all_spec t2 ids0 Hp2) as (t3 & -> & Hp3 & Ht3). simpl. exists t3.
  split; [|split; [done|]].
  { fold (fb_get_id b). rewrite Hid. do 2 f_equal. rewrite reverse_cons, reverse_involutive. done. }
  assert (∀ id, id ∈ ids0 ↔ ∃ x, tr_tree t2 !! id = Some x ∧
    fb_get_parent_round (be_validated_block x) < fb_get_block_round b) as Hids.
  { intros id. unfold ids0. rewrite list_elem_of_fmap. setoid_rewrite list_elem_of_filter.
    setoid_rewrite hash_iter_perm. split.
    - intros ([i0 x0] & -> & Hlt0 & Hin%elem_of_map_to_list). by exists x0.
    - intros (x & Hin & Hlt0). exists (id, x). by rewrite elem_of_map_to_list. }
  assert (∀ id x, tr_tree (bt_tree bt) !! id = Some x → id ∈ fb_get_id <$> l' ++ [b] →
    fb_get_parent_round (be_validated_block x) < fb_get_block_round b) as Hon.
  { intros id x Hx (b0 & -> & Hb0)%list_elem_of_fmap.
    destruct (chain_in_tree _ _ _ Hwf Hc b0 Hb0) as (e0 & He0 & <- & _).
    rewrite Hx in He0. injection He0 as <-. exact (chain_parent_rounds_below _ _ _ _ Hwf Hc He _ Hb0). }
  assert (∀ id, tr_tree t2 !! id = if decide (id ∈ fb_get_id <$> l' ++ [b]) then None else tr_tree (bt_tree bt) !! id)
    as Ht2'.
  { intros id. rewrite Ht2, Ht1, fmap_app. simpl. rewrite Hid. destruct (decide (id ∈ fb_get_id <$> l')).
    - by rewrite decide_True by set_solver.
    - destruct (decide (id = new_root)) as [->|]; [by rewrite lookup_delete_eq, decide_True by set_solver|].
      by rewrite lookup_delete_ne, decide_False by set_solver. }
  apply map_eq. intros id. apply option_eq. intros x. rewrite map_lookup_filter_Some, Ht3. simpl. split.
  - case_decide as Hin; [done|]. intros Hx. split.
    + rewrite Ht2' in Hx. by case_decide.
    + apply N.nlt_ge. intros Hlt0. apply Hin, Hids. eauto.
  - intros [Hx Hle]. assert (tr_tree t2 !! id = Some x) as Hx2.
    { rewrite Ht2'. case_decide as Hin; [|done]. specialize (Hon id x Hx Hin). lia. }
    rewrite decide_False; [done|]. intros (x' & Hx' & Hlt')%Hids. rewrite Hx2 in Hx'. injection Hx' as <-. lia.
Qed.

(** What remains after a commit is again a well-formed tree, of the new root. *)
Lemma pruned_wf bt new_root l e t' : bt_wf bt →
  is_coherent bt new_root = true → chain (tr_tree (bt_tree bt)) (root_id bt) new_root l →
  tr_tree (bt_tree bt) !! new_root = Some e →
  let b := be_validated_block e in
  payload_wf t' →
  tr_tree t' = filter (λ p, fb_get_block_round b ≤ fb_get_parent_round (be_validated_block p.2)) (tr_tree (bt_tree bt)) →
  bt_wf (mkBlockTree (mkRoot (mkRootInfo (bh_block_round (fb_header b)) (bh_seq_num (fb_header b))
      (bh_epoch (fb_header b)) new_root (bh_timestamp_ns (fb_header b))) (be_children_blocks e)) t').
Proof using Hvalid.
  intros Hwf Hcoh Hc He b Hp Ht. destruct (bw_entry _ Hwf _ _ He) as (Hid & Hv & Hlt). fold b in Hid, Hv, Hlt.
  assert (∀ id x, tr_tree t' !! id = Some x ↔
    tr_tree (bt_tree bt) !! id = Some x ∧ fb_get_block_round b ≤ fb_get_parent_round (be_validated_block x)) as Hin.
  { intros id x. by rewrite Ht, map_lookup_filter_Some. }
  assert (∀ pid pe c ce, tr_tree (bt_tree bt) !! pid = Some pe → tr_tree (bt_tree bt) !! c = Some ce →
    fb_get_parent_id (be_validated_block ce) = pid → fb_get_block_round b ≤ fb_get_block_round (be_validated_block pe) →
    tr_tree t' !! c = Some ce) as Hchild.
  { intros pid pe c ce Hpe Hce Hpar Hle. apply Hin. split; [done|]. subst pid.
    pose proof (bt_parent_round _ _ _ _ Hwf Hce Hpe). lia. }
  split; simpl; [| | | | |done|].
  - intros id x [Hx Hle]%Hin. destruct (bw_entry _ Hwf _ _ Hx) as (? & ? & _). split_and!; [done..|].
    pose proof (bt_round_pos _ _ _ Hwf Hx). unfold fb_get_block_round in *. lia.
  - intros id x [Hx Hle]%Hin. destruct (bw_children _ Hwf _ _ Hx) as [Hnd Hch]. split; [done|].
    intros c. rewrite Hch. split.
    + intros (ce & Hce & Hpar). exists ce. split; [|done]. eapply Hchild; [exact Hx|done..|].
      pose proof (bt_round_pos _ _ _ Hwf Hx). lia.
    + intros (ce & [Hce _]%Hin & Hpar). eauto.
  - destruct (bw_children _ Hwf _ _ He) as [Hnd Hch]. split; [done|]. intros c. rewrite Hch. split.
    + intros (ce & Hce & Hpar). exists ce. split; [|done]. apply (Hchild new_root e); [done..|reflexivity].
    + intros (ce & [Hce _]%Hin & Hpar). eauto.
  - intros h Hh Hidh. rewrite <- Hid in Hidh. rewrite (vh_inj _ Hvalid h (fb_header b)) by done. done.
  - intros h Hh Hpar. apply (vh_parent _ Hvalid); [done..|]. unfold root_id in Hpar. simpl in Hpar.
    by rewrite Hpar, <- Hid.
  - intros id x [Hx Hle]%Hin Hxc. unfold dead_id. simpl.
    set (pid := fb_get_parent_id (be_validated_block x)).
    destruct (bw_coherent _ Hwf _ _ Hx Hxc) as [Hpc|Hdead].
    + unfold is_coherent in Hpc |- *. unfold root_id. simpl. fold pid in Hpc.
      destruct (decide (pid = new_root)) as [Hpn|Hpn]; [left; by rewrite bool_decide_eq_true_2|].
      rewrite (bool_decide_eq_false_2 (pid = new_root)) by done. unfold tree_get in *.
      destruct (decide (pid = root_id bt)) as [Hpr|Hpr].
      * right. intros h Hh Hidh. right. fold pid in Hidh. rewrite Hpr in Hidh. pose proof (bw_root _ Hwf h Hh Hidh).
        unfold fb_get_block_round in Hlt. lia.
      * rewrite (bool_decide_eq_false_2 (pid = root_id bt)) in Hpc by done.
        destruct (tr_tree (bt_tree bt) !! pid) as [pe|] eqn:Hpe; [|done].
        destruct (decide (fb_get_block_round b ≤ fb_get_parent_round (be_validated_block pe))) as [Hge|Hge].
        -- left. simpl. by rewrite (proj2 (Hin pid pe)).
        -- right. intros h Hh Hidh. left. destruct (bw_entry _ Hwf _ _ Hpe) as (Hpid & Hpv & _).
           fold pid in Hidh. rewrite <- Hpid in Hidh. rewrite (vh_inj _ Hvalid h _ Hh Hpv Hidh).
           unfold fb_get_block_round, fb_get_parent_round in *. lia.
    + right. intros h Hh Hidh. destruct (Hdead h Hh Hidh); unfold fb_get_block_round in Hlt; [left|right]; lia.
Qed.

(** ** Adding blocks *)

(** The entry [x] after [id] became a child of the entry under [pid]. *)
Definition with_child (pid id : BlockId) (i : BlockId) (x : BlockTreeEntry) : BlockTreeEntry :=
  if bool_decide (i = pid) then {| x with be_children_blocks := be_children_blocks x ++ [id] |} else x.

Lemma with_child_same pid id i x :
  be_validated_block (with_child pid id i x) = be_validated_block x ∧
  be_is_coherent (with_child pid id i x) = be_is_coherent x ∧
  be_children_blocks (with_child pid id i x) = be_children_blocks x ++ (if bool_decide (i = pid) then [id] else []).
Proof. unfold with_child. case_bool_decide; split_and!; try done. by rewrite app_nil_r. Qed.

Lemma tree_insert_spec {HO : HashOrder BlockId BlockTreeEntry} t b :
  payload_wf t → tr_tree t !! fb_get_id b = None → fb_get_parent_id b ≠ fb_get_id b →
  ∃ t' children, tree_insert t b = Ret t' ∧ payload_wf t' ∧ NoDup children ∧
    (∀ c, c ∈ children ↔ ∃ ce, tr_tree t !! c = Some ce ∧ fb_get_parent_id (be_validated_block ce) = fb_get_id b) ∧
    ∀ i, tr_tree t' !! i = if decide (i = fb_get_id b) then Some (mkEntry b false children)
                           else with_child (fb_get_parent_id b) (fb_get_id b) i <$> tr_tree t !! i.
Proof.
  intros [Hpay Hne] Hnew Hself. unfold tree_insert. rewrite (bool_decide_eq_true_2 (_ = None)) by done. simpl.
  set (id := fb_get_id b) in *. set (pid := fb_get_parent_id b) in *. set (body := fb_get_body_id b).
  set (index := default (mkBodyIndex (fb_body b) ∅) (tr_payloads t !! body)).
  assert (∀ id', id' ∈ bi_active_blocks index ↔
    ∃ e, tr_tree t !! id' = Some e ∧ fb_get_body_id (be_validated_block e) = body) as Hidx.
  { intros id'. rewrite <- Hpay. unfold index. destruct (tr_payloads t !! body) as [idx|]; simpl; [naive_solver|].
    split; [by intros ?%elem_of_empty|]. by intros (? & ? & _). }
  rewrite (bool_decide_eq_true_2 (id ∉ bi_active_blocks index)).
  2:{ rewrite Hidx. intros (e & He & _). congruence. }
  simpl. match goal with |- context [mkEntry b false ?ch] => set (children := ch) end.
  eexists _, children. split; [done|].
  assert (∀ i, alter (λ e, {| e with be_children_blocks := be_children_blocks e ++ [id] |}) pid
    (<[id := mkEntry b false children]> (tr_tree t)) !! i =
    if decide (i = id) then Some (mkEntry b false children) else with_child pid id i <$> tr_tree t !! i) as Hlook.
  { intros i. unfold with_child. destruct (decide (i = pid)) as [->|Hip].
    - rewrite lookup_alter_eq, lookup_insert_ne by congruence. rewrite decide_False by done.
      by rewrite bool_decide_eq_true_2.
    - rewrite lookup_alter_ne by done. rewrite (bool_decide_eq_false_2 (i = pid)) by done.
      destruct (decide (i = id)) as [->|]; [by rewrite lookup_insert_eq|]. rewrite lookup_insert_ne by done.
      by destruct (tr_tree t !! i). }
  split; [|split; [|split; [|exact Hlook]]].
  - assert (∀ id' body', (∃ e, alter (λ e, {| e with be_children_blocks := be_children_blocks e ++ [id] |}) pid
      (<[id := mkEntry b false children]> (tr_tree t)) !! id' = Some e ∧ fb_get_body_id (be_validated_block e) = body') ↔
      (id' = id ∧ body' = body) ∨ ∃ e, tr_tree t !! id' = Some e ∧ fb_get_body_id (be_validated_block e) = body') as Hold.
    { intros id' body'. setoid_rewrite Hlook. destruct (decide (id' = id)) as [->|Hid].
      - rewrite Hnew. naive_solver.
      - setoid_rewrite fmap_Some. split.
        + intros (e & (x & Hx & ->) & <-). right. exists x. by destruct (with_child_same pid id id' x) as (-> & _).
        + intros [[? _]|(x & Hx & <-)]; [done|]. eexists. split; [eauto|].
          by destruct (with_child_same pid id id' x) as (-> & _). }
    split; simpl.
    + intros body' id'. rewrite Hold. setoid_rewrite lookup_insert_Some. split.
      * intros (idx & [[<- <-]|[Hb Hi]] & Hin); simpl in *; [|right; apply Hpay; eauto].
        apply elem_of_union in Hin as [->%elem_of_singleton|Hin%Hidx]; [by left|by right].
      * intros [[-> ->]|Hin].
        -- eexists. split; [by left|]. simpl. set_solver.
        -- destruct (decide (body' = body)) as [->|Hb].
           ++ eexists. split; [by left|]. simpl. apply elem_of_union. right. by apply Hidx.
           ++ apply Hpay in Hin as (idx & ? & ?). exists idx. split; [|done]. right. done.
    + intros body' idx. rewrite lookup_insert_Some. intros [[<- <-]|[_ ?]]; [simpl; set_solver|by eapply Hne].
  - unfold children. eapply (sublist_NoDup _ (hash_iter (tr_tree t)).*1).
    + rewrite hash_iter_perm. apply NoDup_fst_map_to_list.
    + apply fmap_sublist, sublist_filter.
  - intros c. unfold children. rewrite list_elem_of_fmap. setoid_rewrite list_elem_of_filter.
    setoid_rewrite hash_iter_perm. split.
    + intros ([c' ce] & -> & Hp & Hin%elem_of_map_to_list). eauto.
    + intros (ce & Hin & Hp). exists (c, ce). by rewrite elem_of_map_to_list.
Qed.

Lemma snoc_if (l : list BlockId) id (b : bool) (Q : BlockId → Prop) :
  NoDup l → (∀ c, c ∈ l ↔ Q c) → ¬ Q id →
  NoDup (l ++ (if b then [id] else [])) ∧ ∀ c, c ∈ l ++ (if b then [id] else []) ↔ (c = id ∧ b = true) ∨ Q c.
Proof.
  intros Hnd Hl Hid. destruct b.
  - split.
    + apply NoDup_app. split_and!; [done| |apply NoDup_singleton].
      intros c Hc ->%list_elem_of_singleton. by apply Hl in Hc.
    + intros c. rewrite elem_of_app, Hl, list_elem_of_singleton. naive_solver.
  - rewrite app_nil_r. split; [done|]. naive_solver.
Qed.

Lemma bt_add_spec {HO : HashOrder BlockId BlockTreeEntry} bt b : bt_wf bt → valid (fb_header b) →
  ∃ bt', bt_add bt b = Ret bt' ∧ bt_wf bt' ∧ root_info (bt_root bt') = root_info (bt_root bt) ∧
    ∀ id, get_block bt' id = if decide (is_valid_to_insert bt (fb_header b) = true ∧ id = fb_get_id b) then Some b
                             else get_block bt id.
Proof using Hvalid.
  intros Hwf Hv. unfold bt_add. destruct (is_valid_to_insert bt (fb_header b)) eqn:Hins; cbn [negb].
  2:{ exists bt. split_and!; [done..|]. intros id. by rewrite decide_False by naive_solver. }
  apply andb_prop in Hins as [Hnew Hround]. apply bool_decide_eq_true in Hnew, Hround.
  unfold tree_get in Hnew. fold (fb_get_id b) in Hnew.
  assert (fb_get_parent_id b ≠ fb_get_id b) as Hself.
  { intros Hp. pose proof (vh_parent _ Hvalid _ _ Hv Hv Hp). pose proof (vh_round _ Hvalid _ Hv). lia. }
  assert (fb_get_id b ≠ root_id bt) as Hnr.
  { intros Hr. pose proof (bw_root _ Hwf _ Hv Hr). lia. }
  destruct (tree_insert_spec (bt_tree bt) b (bw_payload _ Hwf) Hnew Hself)
    as (t' & children & -> & Hp & Hnd & Hch & Hlook). cbn [mbind outcome_bind].
  set (id := fb_get_id b) in *. set (pid := fb_get_parent_id b) in *.
  assert (∀ i x, tr_tree t' !! i = Some x ↔ (i = id ∧ x = mkEntry b false children) ∨
    (i ≠ id ∧ ∃ x0, tr_tree (bt_tree bt) !! i = Some x0 ∧ x = with_child pid id i x0)) as Hin.
  { intros i x. rewrite Hlook. destruct (decide (i = id)); [naive_solver|]. rewrite fmap_Some. naive_solver. }
  assert (∀ c p, (∃ ce, tr_tree t' !! c = Some ce ∧ fb_get_parent_id (be_validated_block ce) = p) ↔
    (c = id ∧ pid = p) ∨ ∃ ce, tr_tree (bt_tree bt) !! c = Some ce ∧ fb_get_parent_id (be_validated_block ce) = p) as Hpar.
  { intros c p. setoid_rewrite Hin. split.
    - intros (ce & [[-> ->]|(Hc & x0 & Hx0 & ->)] & Hcp); [by left|].
      right. exists x0. by destruct (with_child_same pid id c x0) as (<- & _).
    - intros [[-> <-]|(ce & Hce & Hcp)]; [eexists; split; [by left|done]|].
      exists (with_child pid id c ce). split; [|by destruct (with_child_same pid id c ce) as (-> & _)].
      right. split; [|eauto]. intros ->. congruence. }
  eexists. split; [done|]. split; [|split].
  - set (root' := if bool_decide (pid = root_id bt) then _ else _).
    assert (root_info root' = root_info (bt_root bt)) as Hri by (unfold root'; by case_bool_decide).
    assert (root_children_blocks root' =
      root_children_blocks (bt_root bt) ++ (if bool_decide (pid = root_id bt) then [id] else [])) as Hrc.
    { unfold root'. case_bool_decide; [done|]. by rewrite app_nil_r. }
    clearbody root'. split; unfold dead_id, is_coherent, root_id; simpl; rewrite ?Hri; fold (root_id bt).
    + intros i x [[-> ->]|(Hi & x0 & Hx0 & ->)]%Hin; [done|].
      destruct (with_child_same pid id i x0) as (-> & _). by apply (bw_entry _ Hwf).
    + intros i x [[-> ->]|(Hi & x0 & Hx0 & ->)]%Hin; simpl.
      * split; [done|]. intros c. rewrite Hpar, Hch. naive_solver.
      * destruct (bw_children _ Hwf _ _ Hx0) as [Hnd0 Hch0].
        destruct (with_child_same pid id i x0) as (_ & _ & ->).
        destruct (snoc_if _ id (bool_decide (i = pid)) _ Hnd0 Hch0) as [Hnd1 Hch1].
        { intros (ce & ? & _). congruence. }
        split; [done|]. intros c. rewrite Hch1, Hpar, bool_decide_eq_true. naive_solver.
    + destruct (bw_root_children _ Hwf) as [Hnd0 Hch0]. rewrite Hrc.
      destruct (snoc_if _ id (bool_decide (pid = root_id bt)) _ Hnd0 Hch0) as [Hnd1 Hch1].
      { intros (ce & ? & _). congruence. }
      split; [done|]. intros c. by rewrite Hch1, Hpar, bool_decide_eq_true.
    + apply (bw_root _ Hwf).
    + apply (bw_root_parent _ Hwf).
    + done.
    + intros i x [[-> ->]|(Hi & x0 & Hx0 & ->)]%Hin; simpl; [done|].
      destruct (with_child_same pid id i x0) as (-> & -> & _). intros Hc.
      destruct (bw_coherent _ Hwf _ _ Hx0 Hc) as [Hpc|]; [left|by right].
      unfold is_coherent, tree_get in Hpc. case_bool_decide; [done|]. unfold tree_get. simpl. rewrite Hlook.
      destruct (decide (fb_get_parent_id (be_validated_block x0) = id)) as [Hpi|]; [by rewrite Hpi, Hnew in Hpc|].
      destruct (tr_tree (bt_tree bt) !! fb_get_parent_id (be_validated_block x0)) as [pe|]; [|done]. simpl.
      match goal with |- be_is_coherent (with_child ?a ?c ?d ?f) = _ =>
        by destruct (with_child_same a c d f) as (_ & -> & _) end.
  - by case_bool_decide.
  - intros i. unfold get_block, tree_get. simpl. rewrite Hlook. destruct (decide (i = id)) as [->|Hi].
    + by rewrite decide_True.
    + rewrite decide_False by naive_solver. destruct (tr_tree (bt_tree bt) !! i) as [x|]; [|done]. simpl.
      by destruct (with_child_same pid id i x) as (-> & _).
Qed.

(** ** Traversals *)

(** A queue loop whose step keeps an invariant on the state, the handled ids
    and the queue, and never handles an id twice, returns. *)
Lemma queue_loop_spec {S} (step : BlockId → S → outcome (S * list BlockId)) (U : gset BlockId)
    (I : S → gset BlockId → list BlockId → Prop) :
  (∀ s P x q, I s P (x :: q) → x ∈ U ∧ x ∉ P ∧
     ∃ s' new, step x s = Ret (s', new) ∧ I s' ({[x]} ∪ P) (q ++ new)) →
  ∀ fuel s P q, I s P q → P ⊆ U → (size U - size P < fuel)%nat →
  ∃ s' P', queue_loop fuel step s q = Ret s' ∧ I s' P' [].
Proof.
  intros Hstep fuel. induction fuel as [|fuel IH]; intros s P0 q HI HP Hfuel; [lia|].
  cbn [queue_loop]. destruct q as [|x q]; [by eauto|].
  destruct (Hstep _ _ _ _ HI) as (HxU & HxP & s' & new & -> & HI'). simpl.
  assert ({[x]} ∪ P0 ⊆ U) as HP' by set_solver. apply (IH s' _ _ HI' HP').
  pose proof (subseteq_size _ _ HP') as Hle. rewrite size_union, size_singleton in * by set_solver. lia.
Qed.

(** Where a traversal that starts from [start] and follows children has got
    to: [seen] are handled, [q] are queued, no block twice; [r0] bounds their
    rounds from below. *)
Record walk (bt : BlockTree) (start : list BlockId) (r0 : Round) (seen : gset BlockId) (q : list BlockId) : Prop := {
  wk_nodup : NoDup q;
  wk_disj : ∀ x, x ∈ q → x ∉ seen;
  wk_in : ∀ x, x ∈ q ∨ x ∈ seen → ∃ e, tr_tree (bt_tree bt) !! x = Some e ∧
    r0 ≤ fb_get_block_round (be_validated_block e) ∧
    (x ∈ start ∨ fb_get_parent_id (be_validated_block e) ∈ seen);
}.

Lemma walk_start bt start r0 : NoDup start →
  (∀ x, x ∈ start → ∃ e, tr_tree (bt_tree bt) !! x = Some e ∧ r0 ≤ fb_get_block_round (be_validated_block e)) →
  walk bt start r0 ∅ start.
Proof.
  intros Hnd Hin. split; [done|set_solver|]. intros x [Hx|?%elem_of_empty]; [|done].
  destruct (Hin x Hx) as (e & ? & ?). eauto.
Qed.

Lemma walk_step bt start r0 seen x q new : bt_wf bt →
  (∀ c ce e y, c ∈ start → tr_tree (bt_tree bt) !! c = Some ce → tr_tree (bt_tree bt) !! y = Some e →
     r0 ≤ fb_get_block_round (be_validated_block e) → fb_get_parent_id (be_validated_block ce) ≠ y) →
  walk bt start r0 seen (x :: q) → NoDup new →
  (∀ c, c ∈ new → ∃ ce, tr_tree (bt_tree bt) !! c = Some ce ∧ fb_get_parent_id (be_validated_block ce) = x) →
  walk bt start r0 ({[x]} ∪ seen) (q ++ new).
Proof using Hvalid.
  intros Hwf Hstart [Hnd Hdisj Hin] Hnew Hch. apply NoDup_cons in Hnd as [Hxq Hnd].
  assert (x ∉ seen) as Hxs by (apply Hdisj; left).
  destruct (Hin x) as (e & He & Hr & _); [left; left|].
  assert (∀ c, c ∈ new → c ∉ start) as Hns.
  { intros c Hc Hcs. destruct (Hch c Hc) as (ce & Hce & Hp). by apply (Hstart c ce e x). }
  assert (∀ c, c ∈ new → c ∉ q ∧ c ∉ seen ∧ c ≠ x) as Hfresh.
  { intros c Hc. destruct (Hch c Hc) as (ce & Hce & Hp). split_and!.
    - intros Hcq. destruct (Hin c) as (ce' & Hce' & _ & [?|?]); [left; by right|by apply (Hns c)|]. congruence.
    - intros Hcs. destruct (Hin c) as (ce' & Hce' & _ & [?|?]); [by right|by apply (Hns c)|]. congruence.
    - intros ->. rewrite He in Hce. injection Hce as <-.
      assert (tr_tree (bt_tree bt) !! fb_get_parent_id (be_validated_block e) = Some e) as Hpe by congruence.
      pose proof (bt_parent_round _ _ _ _ Hwf He Hpe). pose proof (bt_round_pos _ _ _ Hwf He). lia. }
  split.
  - apply NoDup_app. split_and!; [done| |done]. intros y Hy Hy'. by destruct (Hfresh y Hy') as (? & _).
  - intros y Hy. rewrite not_elem_of_union, not_elem_of_singleton. apply elem_of_app in Hy as [Hy|Hy].
    + split; [by intros ->|]. apply Hdisj. by right.
    + by destruct (Hfresh y Hy) as (_ & ? & ?).
  - intros y Hy. assert (y ∈ new ∨ y ∈ x :: q ∨ y ∈ seen) as [Hyn|Hyo] by set_solver.
    + destruct (Hch y Hyn) as (ye & Hye & Hp). exists ye. split; [done|].
      assert (tr_tree (bt_tree bt) !! fb_get_parent_id (be_validated_block ye) = Some e) as Hpe by congruence.
      pose proof (bt_parent_round _ _ _ _ Hwf Hye Hpe). pose proof (bt_round_pos _ _ _ Hwf Hye).
      split; [lia|]. right. rewrite Hp. set_solver.
    + destruct (Hin y Hyo) as (ye & Hye & ? & Hor). exists ye. split_and!; [done..|]. set_solver.
Qed.

(** The certificate of the block [e] commits a coherent block below it, by the
    commit rule, which is not the root itself. *)
Definition commits (bt : BlockTree) (e : BlockTreeEntry) : Prop :=
  ∃ p cid, tr_tree (bt_tree bt) !! qc_get_block_id (fb_get_qc (be_validated_block e)) = Some p ∧
    get_committable_id (fb_get_qc (be_validated_block e)) (fb_header (be_validated_block p)) = Ret (Some cid) ∧
    cid ≠ root_id bt ∧ is_coherent bt cid = true.

Lemma get_committable_id_ret bt e p : bt_wf bt →
  tr_tree (bt_tree bt) !! qc_get_block_id (fb_get_qc (be_validated_block e)) = Some p →
  is_ret (get_committable_id (fb_get_qc (be_validated_block e)) (fb_header (be_validated_block p))).
Proof using Hvalid.
  intros Hwf Hp. destruct (bw_entry _ Hwf _ _ Hp) as (Hid & Hv & _). unfold get_committable_id.
  rewrite (bool_decide_eq_true_2 (vote_id _ = _)) by (by symmetry). simpl.
  destruct (vh_round _ Hvalid _ Hv) as [Hlt Hmax].
  unfold qc_get_round in Hlt. set (r := vote_round (qc_info (bh_qc (fb_header (be_validated_block p))))) in *.
  rewrite (proj2 (round_add_ret r 1 (r + 1))) by (split; [done|lia]). simpl. case_bool_decide; by eexists.
Qed.

(** One step of the search: the children are queued, and the highest
    committing certificate is kept. *)
Lemma high_commit_step_spec bt x e h : bt_wf bt → tr_tree (bt_tree bt) !! x = Some e →
  ∃ h', high_commit_step bt x h = Ret (h', be_children_blocks e) ∧
    (h' = h ∨ h' = Some (fb_get_qc (be_validated_block e)) ∧ commits bt e) ∧
    (∀ q, h = Some q → ∃ q', h' = Some q' ∧ qc_get_round q ≤ qc_get_round q') ∧
    (commits bt e → ∃ q', h' = Some q' ∧ fb_get_parent_round (be_validated_block e) ≤ qc_get_round q').
Proof using Hvalid.
  intros Hwf He. unfold high_commit_step, tree_get. rewrite He. simpl.
  set (qc := fb_get_qc (be_validated_block e)).
  set (observed := match h with Some high => bool_decide (qc_get_round qc ≤ qc_get_round high) | None => false end).
  assert (∀ q : QuorumCertificate, h = Some q → ∃ q', h = Some q' ∧ qc_get_round q ≤ qc_get_round q') as Hkeep by eauto using N.le_refl.
  destruct observed eqn:Hobs.
  { exists h. split_and!; [done|by left|done|]. intros _. unfold observed in Hobs. destruct h as [q|]; [|done].
    apply bool_decide_eq_true in Hobs. eauto. }
  assert (¬ commits bt e → ∃ h', Ret (h, be_children_blocks e) = Ret (h', be_children_blocks e) ∧
    (h' = h ∨ h' = Some qc ∧ commits bt e) ∧
    (∀ q, h = Some q → ∃ q', h' = Some q' ∧ qc_get_round q ≤ qc_get_round q') ∧
    (commits bt e → ∃ q', h' = Some q' ∧ fb_get_parent_round (be_validated_block e) ≤ qc_get_round q')) as Hskip.
  { intros Hno. exists h. split_and!; [done|by left|done|done]. }
  destruct (tr_tree (bt_tree bt) !! qc_get_block_id qc) as [p|] eqn:Hp.
  2:{ apply Hskip. intros (p & cid & Hp' & _). fold qc in Hp'. congruence. }
  destruct (get_committable_id_ret bt e p Hwf Hp) as [r Hr]. fold qc in Hr. rewrite Hr. simpl.
  destruct r as [cid|].
  2:{ apply Hskip. intros (p' & cid & Hp' & Hc & _). fold qc in Hp', Hc. congruence. }
  case_bool_decide as Hroot.
  { apply Hskip. intros (p' & cid' & Hp' & Hc & Hne & _). fold qc in Hp', Hc. congruence. }
  destruct (is_coherent bt cid) eqn:Hcoh; simpl.
  2:{ apply Hskip. intros (p' & cid' & Hp' & Hc & _ & Hcoh'). fold qc in Hp', Hc. congruence. }
  exists (Some qc). split_and!; [done|right; split; [done|by exists p, cid]| |].
  - intros q ->. exists qc. split; [done|]. unfold observed in Hobs. apply bool_decide_eq_false in Hobs. lia.
  - intros _. exists qc. split; [done|]. unfold fb_get_parent_round, qc, fb_get_qc. lia.
Qed.

(** The blocks with a path to the root are those a traversal from the root's
    children reaches. *)
Lemma reached_all bt (seen : gset BlockId) : bt_wf bt →
  (∀ c, c ∈ root_children_blocks (bt_root bt) → c ∈ seen) →
  (∀ x e c, x ∈ seen → tr_tree (bt_tree bt) !! x = Some e → c ∈ be_children_blocks e → c ∈ seen) →
  ∀ id l, chain (tr_tree (bt_tree bt)) (root_id bt) id l → id ≠ root_id bt → id ∈ seen.
Proof.
  intros Hwf Hroot Hclosed id l. induction 1 as [|id e l Hne He Hc IH]; intros Hid; [done|].
  destruct (decide (fb_get_parent_id (be_validated_block e) = root_id bt)) as [Hp|Hp].
  - apply Hroot, (bw_root_children _ Hwf). eauto.
  - inversion Hc as [Hr|? pe l' _ Hpe _]; subst; [done|].
    eapply Hclosed; [by apply IH|exact Hpe|]. apply (bw_children _ Hwf _ _ Hpe). eauto.
Qed.

Lemma child_chain bt x e l c : bt_wf bt → tr_tree (bt_tree bt) !! x = Some e →
  chain (tr_tree (bt_tree bt)) (root_id bt) x l → c ∈ be_children_blocks e →
  ∃ lc, chain (tr_tree (bt_tree bt)) (root_id bt) c lc.
Proof.
  intros Hwf He Hc Hin. apply (bw_children _ Hwf _ _ He) in Hin as (ce & Hce & Hp).
  eexists. econstructor; [|exact Hce|by rewrite Hp].
  intros ->. by rewrite bt_root_not_in in Hce.
Qed.

Lemma get_high_committable_qc_spec bt : bt_wf bt →
  ∃ r, get_high_committable_qc bt = Ret r ∧
    (∀ qc, r = Some qc → ∃ id l e, chain (tr_tree (bt_tree bt)) (root_id bt) id l ∧
       tr_tree (bt_tree bt) !! id = Some e ∧ qc = fb_get_qc (be_validated_block e) ∧ commits bt e) ∧
    (∀ id l e, chain (tr_tree (bt_tree bt)) (root_id bt) id l → tr_tree (bt_tree bt) !! id = Some e → commits bt e →
       ∃ qc, r = Some qc ∧ fb_get_parent_round (be_validated_block e) ≤ qc_get_round qc).
Proof using Hvalid.
  intros Hwf. destruct (bw_root_children _ Hwf) as [Hnd Hch]. set (start := root_children_blocks (bt_root bt)) in *.
  pose proof (bt_root_not_in _ Hwf) as Hroot.
  set (I := λ (h : option QuorumCertificate) (seen : gset BlockId) (q : list BlockId),
    walk bt start 0 seen q ∧
    (∀ x, x ∈ q ∨ x ∈ seen → ∃ l, chain (tr_tree (bt_tree bt)) (root_id bt) x l) ∧
    (∀ c, c ∈ start → c ∈ q ∨ c ∈ seen) ∧
    (∀ x e c, x ∈ seen → tr_tree (bt_tree bt) !! x = Some e → c ∈ be_children_blocks e → c ∈ q ∨ c ∈ seen) ∧
    (∀ qc, h = Some qc → ∃ id l e, chain (tr_tree (bt_tree bt)) (root_id bt) id l ∧
       tr_tree (bt_tree bt) !! id = Some e ∧ qc = fb_get_qc (be_validated_block e) ∧ commits bt e) ∧
    (∀ x e, x ∈ seen → tr_tree (bt_tree bt) !! x = Some e → commits bt e →
       ∃ qc, h = Some qc ∧ fb_get_parent_round (be_validated_block e) ≤ qc_get_round qc)).
  destruct (queue_loop_spec (high_commit_step bt) (dom (tr_tree (bt_tree bt))) I) with
    (fuel := S (bt_fuel bt)) (s := @None QuorumCertificate) (P := ∅ : gset BlockId) (q := start)
    as (r & seen & Hloop & _ & _ & Hst & Hcl & Hs & Hm).
  - intros h seen x q (Hw & Hr & Hst & Hcl & Hs & Hm).
    destruct (wk_in _ _ _ _ _ Hw x) as (e & He & _ & _); [left; left|].
    split; [by apply elem_of_dom|]. split; [apply (wk_disj _ _ _ _ _ Hw); left|].
    destruct (high_commit_step_spec bt x e h Hwf He) as (h' & Hstep & Hor & Hup & Hcom).
    destruct (bw_children _ Hwf _ _ He) as [Hcnd Hcch]. destruct (Hr x) as [lx Hlx]; [left; left|].
    exists h', (be_children_blocks e). split; [done|]. unfold I. split_and!.
    + apply walk_step; [done| |done|done|by intros c ?%Hcch].
      intros c ce ey y Hc Hce Hey _ Hp. apply Hch in Hc as (ce' & Hce' & Hp'). congruence.
    + intros y Hy. assert (y ∈ be_children_blocks e ∨ y ∈ x :: q ∨ y ∈ seen) as [Hyc|Hyo] by set_solver.
      * by eapply child_chain.
      * by apply Hr.
    + intros c Hc. specialize (Hst c Hc). set_solver.
    + intros y ey c Hy Hey Hc. apply elem_of_union in Hy as [->%elem_of_singleton|Hy].
      * rewrite He in Hey. injection Hey as <-. set_solver.
      * specialize (Hcl y ey c Hy Hey Hc). set_solver.
    + intros qc ->. destruct Hor as [Heq|[[= ->] Hco]]; [by apply Hs|]. by exists x, lx, e.
    + intros y ey Hy Hey Hco. apply elem_of_union in Hy as [->%elem_of_singleton|Hy].
      * rewrite He in Hey. injection Hey as <-. by apply Hcom.
      * destruct (Hm y ey Hy Hey Hco) as (qc & Hqc & Hle). destruct (Hup qc Hqc) as (q' & -> & Hle').
        exists q'. split; [done|lia].
  - unfold I. split_and!; try set_solver.
    + apply walk_start; [done|]. intros x Hx. apply Hch in Hx as (e & He & _). exists e. split; [done|lia].
    + intros x [Hx|?%elem_of_empty]; [|done]. apply Hch in Hx as (e & He & Hp).
      eexists. econstructor; [|exact He|rewrite Hp; constructor]. congruence.
  - set_solver.
  - rewrite size_empty, size_dom. unfold bt_fuel. lia.
  - exists r. split; [done|]. split; [done|]. intros id l e Hc He Hcom. apply (Hm id); [|done..].
    eapply (reached_all bt); [done| | |done|congruence].
    + intros c Hc'. destruct (Hst c Hc') as [?%elem_of_nil|?]; done.
    + intros x ex c Hx Hex Hc'. destruct (Hcl x ex c Hx Hex Hc') as [?%elem_of_nil|?]; done.
Qed.

(** ** Coherency *)

(** The tree with the blocks [ids] marked coherent as well. *)
Definition mark (bt : BlockTree) (ids : list BlockId) : BlockTree :=
  mkBlockTree (bt_root bt) (mkTree
    (map_imap (λ i e, Some {| e with be_is_coherent := be_is_coherent e || bool_decide (i ∈ ids) |}) (tr_tree (bt_tree bt)))
    (tr_payloads (bt_tree bt))).

Lemma mark_lookup bt ids i : tr_tree (bt_tree (mark bt ids)) !! i =
  (λ e, {| e with be_is_coherent := be_is_coherent e || bool_decide (i ∈ ids) |}) <$> tr_tree (bt_tree bt) !! i.
Proof. simpl. rewrite map_lookup_imap. by destruct (tr_tree (bt_tree bt) !! i). Qed.

Lemma mark_lookup_Some bt ids i x : tr_tree (bt_tree (mark bt ids)) !! i = Some x →
  ∃ e, tr_tree (bt_tree bt) !! i = Some e ∧ be_validated_block x = be_validated_block e ∧
    be_children_blocks x = be_children_blocks e ∧ be_is_coherent x = be_is_coherent e || bool_decide (i ∈ ids).
Proof. rewrite mark_lookup. intros (e & He & ->)%fmap_Some. by exists e. Qed.

Lemma mark_nil bt : mark bt [] = bt.
Proof.
  destruct bt as [root [tree payloads]]. unfold mark. f_equal. simpl. f_equal. apply map_eq. intros i.
  rewrite map_lookup_imap. destruct (tree !! i) as [[b c ch]|]; [|done]. simpl. by rewrite orb_false_r.
Qed.

Lemma mark_snoc bt ids x : is_Some (tr_tree (bt_tree bt) !! x) →
  set_coherent (bt_tree (mark bt ids)) x true = Some (bt_tree (mark bt (ids ++ [x]))).
Proof.
  intros [e He]. unfold set_coherent. rewrite mark_lookup, He. simpl. do 2 f_equal. apply map_eq. intros i.
  rewrite map_lookup_imap. destruct (decide (i = x)) as [->|Hi].
  - rewrite lookup_insert_eq, He. simpl. f_equal. f_equal. rewrite (bool_decide_eq_true_2 (x ∈ ids ++ [x])) by set_solver.
    by rewrite orb_true_r.
  - rewrite lookup_insert_ne, map_lookup_imap by done. destruct (tr_tree (bt_tree bt) !! i); [|done]. simpl.
    do 2 f_equal. f_equal. apply bool_decide_ext. set_solver.
Qed.

Lemma mark_coherent bt ids x : is_coherent (mark bt ids) x =
  is_coherent bt x || (bool_decide (x ∈ ids) && bool_decide (is_Some (tr_tree (bt_tree bt) !! x))).
Proof.
  unfold is_coherent, tree_get. change (root_id (mark bt ids)) with (root_id bt). case_bool_decide; [done|].
  rewrite mark_lookup. destruct (tr_tree (bt_tree bt) !! x) as [e|]; simpl; [by rewrite andb_true_r|].
  by rewrite andb_false_r.
Qed.

Lemma mark_chain bt ids root id l :
  chain (tr_tree (bt_tree (mark bt ids))) root id l ↔ chain (tr_tree (bt_tree bt)) root id l.
Proof.
  split; (induction 1 as [|id e l Hne He Hc IH]; [constructor|]).
  - destruct (mark_lookup_Some _ _ _ _ He) as (e' & He' & Hb & _). rewrite Hb in *. by econstructor.
  - apply (chain_step _ _ id {| e with be_is_coherent := be_is_coherent e || bool_decide (id ∈ ids) |}); [done| |done].
    by rewrite mark_lookup, He.
Qed.

Lemma mark_wf bt ids : bt_wf bt →
  (∀ i e, i ∈ ids → tr_tree (bt_tree bt) !! i = Some e →
     is_coherent (mark bt ids) (fb_get_parent_id (be_validated_block e)) = true) →
  bt_wf (mark bt ids).
Proof.
  intros Hwf Hids.
  assert (∀ c p, (∃ ce, tr_tree (bt_tree (mark bt ids)) !! c = Some ce ∧ fb_get_parent_id (be_validated_block ce) = p) ↔
    ∃ ce, tr_tree (bt_tree bt) !! c = Some ce ∧ fb_get_parent_id (be_validated_block ce) = p) as Hpar.
  { intros c p. rewrite mark_lookup. destruct (tr_tree (bt_tree bt) !! c); simpl; naive_solver. }
  split.
  - intros i x (e & He & -> & _)%mark_lookup_Some. by apply (bw_entry _ Hwf).
  - intros i x (e & He & Hb & -> & _)%mark_lookup_Some. destruct (bw_children _ Hwf _ _ He) as [? Hch].
    split; [done|]. intros c. by rewrite Hch, Hpar.
  - destruct (bw_root_children _ Hwf) as [? Hch]. split; [done|]. intros c. by rewrite Hch, Hpar.
  - apply (bw_root _ Hwf).
  - apply (bw_root_parent _ Hwf).
  - destruct (bw_payload _ Hwf) as [Hpay Hne]. split; [|exact Hne]. intros body id. simpl tr_payloads. rewrite Hpay.
    rewrite mark_lookup. destruct (tr_tree (bt_tree bt) !! id); simpl; naive_solver.
  - intros i x Hx Hc. destruct (mark_lookup_Some _ _ _ _ Hx) as (e & He & Hb & _ & Hxc). rewrite Hb.
    rewrite Hxc in Hc. apply orb_prop in Hc as [Hc|Hc].
    + destruct (bw_coherent _ Hwf _ _ He Hc) as [Hp|]; [left|by right]. by rewrite mark_coherent, Hp.
    + left. apply bool_decide_eq_true in Hc. by eapply Hids.
Qed.

(** The last block of a chain of coherent blocks is coherent. *)
Lemma chain_end_coherent bt id l : chain (tr_tree (bt_tree bt)) (root_id bt) id l → bt_wf bt →
  (∀ b e, b ∈ l → tr_tree (bt_tree bt) !! fb_get_id b = Some e → be_is_coherent e = true) →
  is_coherent bt id = true.
Proof.
  intros Hc Hwf Hl. unfold is_coherent, tree_get. case_bool_decide; [done|].
  inversion Hc as [|? e l' _ He Hc']; subst; [done|]. rewrite He.
  destruct (bw_entry _ Hwf _ _ He) as (Hid & _). apply (Hl (be_validated_block e)); [set_solver|]. by rewrite Hid.
Qed.

Lemma find_incoherent_spec bt path :
  (∀ b, b ∈ path → is_Some (tr_tree (bt_tree bt) !! fb_get_id b)) →
  ∃ r, find_incoherent bt path = Ret r ∧
    match r with
    | None => ∀ b e, b ∈ path → tr_tree (bt_tree bt) !! fb_get_id b = Some e → be_is_coherent e = true
    | Some b => ∃ l1 l2, path = l1 ++ b :: l2 ∧
        (∀ b e, b ∈ l1 → tr_tree (bt_tree bt) !! fb_get_id b = Some e → be_is_coherent e = true) ∧
        ∀ e, tr_tree (bt_tree bt) !! fb_get_id b = Some e → be_is_coherent e = false
    end.
Proof.
  induction path as [|b path IH]; intros Hin; cbn [find_incoherent].
  { exists None. split; [done|]. by intros b e ?%elem_of_nil. }
  destruct (Hin b) as [e He]; [left|]. unfold tree_get. rewrite He. cbn [expect mbind outcome_bind].
  destruct (be_is_coherent e) eqn:Hc.
  - destruct IH as (r & -> & Hr); [intros; apply Hin; by right|]. exists r. split; [done|]. destruct r as [b'|].
    + destruct Hr as (l1 & l2 & -> & Hl1 & Hb'). exists (b :: l1), l2. split_and!; [done| |done].
      intros b0 e0 [->|Hb0]%elem_of_cons; [congruence|eauto].
    + intros b0 e0 [->|Hb0]%elem_of_cons; [congruence|eauto].
  - exists (Some b). split; [done|]. exists [], path. split_and!; [done|by intros b0 e0 ?%elem_of_nil|].
    intros e' He'. congruence.
Qed.

(** A chain passes through chains. *)
Lemma chain_prefix bt id l1 b l2 : chain (tr_tree (bt_tree bt)) (root_id bt) id (l1 ++ b :: l2) → bt_wf bt →
  chain (tr_tree (bt_tree bt)) (root_id bt) (fb_get_id b) (l1 ++ [b]).
Proof.
  intros Hc Hwf. revert id Hc. induction l2 as [|b' l2 IH] using rev_ind; intros id Hc.
  - inversion Hc as [Hr Hl|? e l Hne He Hc' Hid Hl]; [by destruct l1|].
    apply app_inj_tail in Hl as [-> <-]. destruct (bw_entry _ Hwf _ _ He) as (-> & _). by econstructor.
  - rewrite app_comm_cons, (assoc_L (++)) in Hc. inversion Hc as [Hr Hl|? e l Hne He Hc' Hid Hl]; [by destruct l1|].
    apply app_inj_tail in Hl as [-> _]. by eapply IH.
Qed.

Lemma chain_coherent_prefix bt id l1 b l2 : bt_wf bt →
  chain (tr_tree (bt_tree bt)) (root_id bt) id (l1 ++ b :: l2) → is_coherent bt id = true →
  is_coherent bt (fb_get_id b) = true.
Proof using Hvalid.
  intros Hwf Hc Hid. destruct (chain_in_tree _ _ _ Hwf Hc b) as (e & He & _); [set_solver|].
  rewrite (is_coherent_entry _ _ e); [|intros Hr; by rewrite Hr, bt_root_not_in in He|done].
  apply (chain_coherent _ _ _ Hwf Hc Hid b); [set_solver|done].
Qed.

Context (check : ConsensusFullBlock → list ConsensusFullBlock → RootInfo → result BlockPolicyError unit).

(** The coherency check accepts a block after the blocks before it. *)
Definition accepts (bt : BlockTree) (l : list ConsensusFullBlock) (b : ConsensusFullBlock) : Prop :=
  check b l (root_info (bt_root bt)) = Ok tt.

Lemma coherency_step_spec bt ids ret x e l : bt_wf (mark bt ids) → ids = fb_get_id <$> ret →
  tr_tree (bt_tree bt) !! x = Some e → fb_get_id (be_validated_block e) = x →
  chain (tr_tree (bt_tree bt)) (root_id bt) x (l ++ [be_validated_block e]) →
  (accepts bt l (be_validated_block e) ∧
   coherency_step check x (mark bt ids, ret) =
     Ret ((mark bt (fb_get_id <$> ret ++ [be_validated_block e]), ret ++ [be_validated_block e]), be_children_blocks e)) ∨
  (¬ accepts bt l (be_validated_block e) ∧ coherency_step check x (mark bt ids, ret) = Ret ((mark bt ids, ret), [])).
Proof using Hvalid.
  intros Hwf -> He Hid Hc. unfold coherency_step.
  destruct (path_spec _ x Hwf) as (res & -> & Hres).
  assert (res = Some (l ++ [be_validated_block e])) as -> by (apply Hres, mark_chain, Hc).
  cbn [mbind outcome_bind expect]. rewrite last_snoc. cbn [expect mbind outcome_bind].
  rewrite length_app. cbn [length]. rewrite (take_app_length' l) by lia. unfold accepts.
  change (root_info (bt_root (mark bt (fb_get_id <$> ret)))) with (root_info (bt_root bt)).
  destruct (check (be_validated_block e) l (root_info (bt_root bt))) as [[]|err] eqn:Hch; [left|by right].
  split; [done|]. rewrite mark_snoc by done. cbn [expect mbind outcome_bind].
  unfold tree_get. rewrite mark_lookup, He, fmap_app, fmap_cons, Hid. done.
Qed.

(** Where the loop of [try_update_coherency] has got to: [ret] are the blocks
    made coherent. *)
Record recoherence (bt : BlockTree) (b0 : BlockId) (r0 : Round) (st : BlockTree * list ConsensusFullBlock)
    (seen : gset BlockId) (q : list BlockId) : Prop := {
  rc_state : st.1 = mark bt (fb_get_id <$> st.2);
  rc_walk : walk bt [b0] r0 seen q;
  rc_start : b0 ∈ q ∨ b0 ∈ seen;
  rc_queued : ∀ x e, x ∈ q → tr_tree (bt_tree bt) !! x = Some e →
    (∃ l, chain (tr_tree (bt_tree bt)) (root_id bt) x (l ++ [be_validated_block e])) ∧
    is_coherent st.1 (fb_get_parent_id (be_validated_block e)) = true;
  rc_fresh : ∀ x, x ∈ q ∨ x ∈ seen → is_coherent bt x = false;
  rc_ret : ∀ b, b ∈ st.2 → fb_get_id b ∈ seen ∧ is_coherent st.1 (fb_get_parent_id b) = true ∧
    tr_tree (bt_tree bt) !! fb_get_id b ≫= (λ e, Some (be_validated_block e)) = Some b ∧
    ∃ l, chain (tr_tree (bt_tree bt)) (root_id bt) (fb_get_id b) (l ++ [b]) ∧ accepts bt l b;
  rc_seen : ∀ x e l, x ∈ seen → tr_tree (bt_tree bt) !! x = Some e →
    chain (tr_tree (bt_tree bt)) (root_id bt) x (l ++ [be_validated_block e]) → accepts bt l (be_validated_block e) →
    be_validated_block e ∈ st.2 ∧ ∀ c, c ∈ be_children_blocks e → c ∈ q ∨ c ∈ seen;
}.

Lemma recoherence_wf bt b0 r0 st seen q : bt_wf bt → recoherence bt b0 r0 st seen q → bt_wf st.1.
Proof.
  intros Hwf [Hst _ _ _ _ Hret _]. rewrite Hst in Hret |- *. apply mark_wf; [done|].
  intros i e (b & -> & Hb)%list_elem_of_fmap He. destruct (Hret b Hb) as (_ & Hcoh & Hlook & _).
  rewrite He in Hlook. by injection Hlook as ->.
Qed.

Lemma recoherence_step bt b0 e0 st seen x q : bt_wf bt → tr_tree (bt_tree bt) !! b0 = Some e0 →
  let r0 := fb_get_block_round (be_validated_block e0) in
  recoherence bt b0 r0 st seen (x :: q) →
  x ∈ dom (tr_tree (bt_tree bt)) ∧ x ∉ seen ∧
  ∃ st' new, coherency_step check x st = Ret (st', new) ∧ recoherence bt b0 r0 st' ({[x]} ∪ seen) (q ++ new).
Proof using Hvalid.
  intros Hwf He0 r0 HI. pose proof (recoherence_wf _ _ _ _ _ _ Hwf HI) as Hwf'.
  destruct HI as [Hst Hw Hstart Hq Hfresh Hret Hseen]. destruct st as [bt' ret]. cbn [fst snd] in *. subst bt'.
  destruct (wk_in _ _ _ _ _ Hw x) as (e & He & _ & _); [left; left|].
  split; [by apply elem_of_dom|]. split; [apply (wk_disj _ _ _ _ _ Hw); left|].
  destruct (bw_entry _ Hwf _ _ He) as (Hid & _). destruct (bw_children _ Hwf _ _ He) as [Hcnd Hcch].
  destruct (Hq x e) as [[l Hl] Hpar]; [left|done|].
  assert (∀ new, NoDup new → (∀ c, c ∈ new → c ∈ be_children_blocks e) → walk bt [b0] r0 ({[x]} ∪ seen) (q ++ new)) as Hwalk.
  { intros new Hnd Hnew. apply walk_step; [done| |done|done|intros c Hc; by apply Hcch, Hnew].
    intros c ce ey y ->%list_elem_of_singleton Hce Hey Hr Hp. rewrite He0 in Hce. injection Hce as <-. subst y.
    pose proof (bt_parent_round _ _ _ _ Hwf He0 Hey). pose proof (bt_round_pos _ _ _ Hwf He0). unfold r0 in Hr. lia. }
  assert (∀ ids, is_coherent (mark bt (fb_get_id <$> ret)) ids = true →
    is_coherent (mark bt (fb_get_id <$> ret ++ [be_validated_block e])) ids = true) as Hmono.
  { intros i. rewrite !mark_coherent, !orb_true_iff, !andb_true_iff, !bool_decide_eq_true, fmap_app.
    intros [?|[??]]; [by left|right]. split; [|done]. apply elem_of_app. by left. }
  destruct (coherency_step_spec bt _ ret x e l Hwf' eq_refl He Hid Hl) as [[Hacc ->]|[Hrej ->]].
  - eexists _, _. split; [done|]. split; simpl; [done|by apply Hwalk|set_solver| | | |].
    + intros y ey Hy Hey. apply elem_of_app in Hy as [Hy|Hy].
      * destruct (Hq y ey) as [? ?]; [by right|done|]. auto.
      * destruct (Hcch y) as [Hc _]. destruct (Hc Hy) as (ce & Hce & Hp). rewrite Hey in Hce. injection Hce as <-.
        split.
        -- eexists. econstructor; [|done|rewrite Hp; exact Hl]. intros ->. by rewrite bt_root_not_in in Hey.
        -- rewrite Hp, mark_coherent, orb_true_iff. right.
           rewrite andb_true_iff, !bool_decide_eq_true. split; [|done].
           apply list_elem_of_fmap. exists (be_validated_block e). set_solver.
    + intros y Hy. assert (y ∈ be_children_blocks e ∨ y ∈ x :: q ∨ y ∈ seen) as [Hyc|Hyo] by set_solver; [|auto].
      apply Hcch in Hyc as (ce & Hce & Hp). apply not_true_is_false. intros Hcoh.
      assert (y ≠ root_id bt) as Hne by (intros ->; by rewrite bt_root_not_in in Hce).
      assert (chain (tr_tree (bt_tree bt)) (root_id bt) y ((l ++ [be_validated_block e]) ++ [be_validated_block ce])) as Hy'
        by (econstructor; [done..|by rewrite Hp]).
      assert (is_coherent bt x = true) as Hx; [|rewrite Hfresh in Hx; [done|left; left]].
      rewrite (is_coherent_entry _ _ e); [|intros ->; by rewrite bt_root_not_in in He|done].
      apply (chain_coherent _ _ _ Hwf Hy' Hcoh (be_validated_block e)); [set_solver|by rewrite Hid].
    + intros b [Hb| ->%list_elem_of_singleton]%elem_of_app.
      * destruct (Hret b Hb) as (? & ? & ? & ?). split_and!; [set_solver|auto|done..].
      * rewrite Hid, He. split_and!; [set_solver|auto|done|]. by exists l.
    + intros y ey ly Hy Hey Hly Hay. apply elem_of_union in Hy as [->%elem_of_singleton|Hy].
      * rewrite He in Hey. injection Hey as <-. set_solver.
      * destruct (Hseen y ey ly Hy Hey Hly Hay) as [? Hc]. split; [set_solver|].
        intros c Hin. specialize (Hc c Hin). set_solver.
  - eexists _, _. split; [done|]. split; simpl; [done|apply Hwalk; [constructor|set_solver]|set_solver| |intros y Hy; apply Hfresh; set_solver| |].
    + intros y ey Hy Hey. apply Hq; [set_solver|done].
    + intros b Hb. destruct (Hret b Hb) as (? & ? & ? & ?). split_and!; [set_solver|done..].
    + intros y ey ly Hy Hey Hly Hay. apply elem_of_union in Hy as [->%elem_of_singleton|Hy].
      * rewrite He in Hey. injection Hey as <-. apply (chain_det _ _ _ _ _ Hl) in Hly.
        apply app_inj_tail in Hly as [-> _]. done.
      * destruct (Hseen y ey ly Hy Hey Hly Hay) as [? Hc]. split; [done|].
        intros c Hin. specialize (Hc c Hin). set_solver.
Qed.

(** When the loop is done, an accepted path from the root through the start
    block is coherent. *)
Lemma recoherence_complete bt b r0 st seen l1 l2 : bt_wf bt → recoherence bt (fb_get_id b) r0 st seen [] →
  ∀ id, chain (tr_tree (bt_tree bt)) (root_id bt) id (l1 ++ b :: l2) →
  (∀ l1' b' l2', l1 ++ b :: l2 = l1' ++ b' :: l2' → is_coherent bt (fb_get_id b') = true ∨ accepts bt l1' b') →
  ∃ e, tr_tree (bt_tree bt) !! id = Some e ∧ be_validated_block e ∈ st.2 ∧
    ∀ c, c ∈ be_children_blocks e → c ∈ seen.
Proof using Hvalid.
  intros Hwf [Hst Hw Hstart _ Hfresh Hret Hseen].
  assert (∀ id e l, tr_tree (bt_tree bt) !! id = Some e → id ∈ seen →
    chain (tr_tree (bt_tree bt)) (root_id bt) id (l ++ [be_validated_block e]) →
    is_coherent bt (fb_get_id (be_validated_block e)) = true ∨ accepts bt l (be_validated_block e) →
    be_validated_block e ∈ st.2 ∧ ∀ c, c ∈ be_children_blocks e → c ∈ seen) as Hdone.
  { intros id e l He Hin Hc [Hcoh|Hacc].
    - destruct (bw_entry _ Hwf _ _ He) as (Hid & _). rewrite Hid, Hfresh in Hcoh; [done|by right].
    - destruct (Hseen id e l) as [? Hch]; [done..|]. split; [done|]. intros c Hcc.
      by destruct (Hch c Hcc) as [?%elem_of_nil|]. }
  induction l2 as [|b' l2 IH] using rev_ind; intros id Hc Hall.
  - inversion Hc as [Hr Hl|? e l Hne He Hc' Hid Hl]; [by destruct l1|]. subst id0.
    apply app_inj_tail in Hl as [-> <-]. exists e. split; [done|]. destruct (bw_entry _ Hwf _ _ He) as (Hid & _).
    rewrite Hid in Hstart. eapply Hdone; [done| |done|by eapply Hall].
    by destruct Hstart as [?%elem_of_nil|].
  - rewrite app_comm_cons, (assoc_L (++)) in Hc. inversion Hc as [Hr Hl|? e l Hne He Hc' Hid Hl]; [by destruct l1|].
    subst id0. apply app_inj_tail in Hl as [-> <-].
    destruct (IH _ Hc') as (pe & Hpe & _ & Hch).
    { intros l1' b' l2' Heq. apply (Hall l1' b' (l2' ++ [be_validated_block e])).
      by rewrite app_comm_cons, (assoc_L (++)), Heq, <- (assoc_L (++)). }
    exists e. split; [done|]. eapply Hdone; [done| |done|].
    + apply Hch. apply (bw_children _ Hwf _ _ Hpe). eauto.
    + eapply Hall. by rewrite app_comm_cons, (assoc_L (++)).
Qed.

(** After the update, the blocks that have become coherent are those
    returned, all accepted by the check after the blocks before them; a block
    on the path to [id] is coherent exactly if it and the blocks before it
    were or are accepted. *)
Lemma try_update_coherency_spec bt id : bt_wf bt →
  ∃ bt' ret, try_update_coherency check bt id = Ret (bt', ret) ∧ bt_wf bt' ∧ bt' = mark bt (fb_get_id <$> ret) ∧
    (∀ b, b ∈ ret → is_coherent bt (fb_get_id b) = false ∧
       ∃ l, chain (tr_tree (bt_tree bt)) (root_id bt) (fb_get_id b) (l ++ [b]) ∧ accepts bt l b) ∧
    (∀ l, chain (tr_tree (bt_tree bt)) (root_id bt) id l →
       (∀ l1 b l2, l = l1 ++ b :: l2 → is_coherent bt (fb_get_id b) = true ∨ accepts bt l1 b) →
       is_coherent bt' id = true).
Proof using Hvalid.
  intros Hwf. unfold try_update_coherency. destruct (path_spec _ id Hwf) as (res & -> & Hres). cbn [mbind outcome_bind].
  assert (∀ bt ret, ret = [] → bt = mark bt (fb_get_id <$> ret)) as Hnil by (intros ? ? ->; by rewrite mark_nil).
  destruct res as [path|].
  2:{ exists bt, []. split_and!; [done..|by apply Hnil|set_solver|]. intros l Hl%Hres. done. }
  pose proof (proj1 (Hres path) eq_refl) as Hpath.
  destruct (find_incoherent_spec bt path) as (r & -> & Hr).
  { intros b Hb. destruct (chain_in_tree _ _ _ Hwf Hpath b Hb) as (e & ? & _). eauto. }
  cbn [mbind outcome_bind]. destruct r as [b0|].
  2:{ exists bt, []. split_and!; [done..|by apply Hnil|set_solver|]. intros _ _ _. by eapply chain_end_coherent. }
  destruct Hr as (l1 & l2 & -> & Hl1 & Hb0).
  destruct (chain_in_tree _ _ _ Hwf Hpath b0) as (e0 & He0 & Hbe0 & _); [set_solver|].
  pose proof (chain_prefix _ _ _ _ _ Hpath Hwf) as Hpre.
  assert (fb_get_id b0 ≠ root_id bt) as Hne by (intros Heq; by rewrite Heq, bt_root_not_in in He0).
  destruct (queue_loop_spec (coherency_step check) (dom (tr_tree (bt_tree bt)))
      (recoherence bt (fb_get_id b0) (fb_get_block_round (be_validated_block e0)))) with
    (fuel := S (bt_fuel bt)) (s := (bt, @nil ConsensusFullBlock)) (P := ∅ : gset BlockId) (q := [fb_get_id b0])
    as ([bt' ret] & seen & Hloop & HI).
  - intros st seen x q. by apply recoherence_step.
  - split; cbn [fst snd]; [by apply Hnil| |by do 2 left| | |set_solver|set_solver].
    + apply walk_start; [repeat constructor; set_solver|]. intros x ->%list_elem_of_singleton. eauto.
    + intros x e ->%list_elem_of_singleton He. rewrite He0 in He. injection He as <-. split; [rewrite Hbe0; by exists l1|].
      inversion Hpre as [Hr Hl|? e l _ He Hc' Hid Hl]; [by destruct l1|]. subst id0. rewrite He0 in He.
      injection He as <-. apply app_inj_tail in Hl as [-> _]. by eapply chain_end_coherent.
    + intros x [->%list_elem_of_singleton|?%elem_of_empty]; [|done].
      rewrite (is_coherent_entry _ _ e0) by done. by apply Hb0.
  - set_solver.
  - rewrite size_empty, size_dom. unfold bt_fuel. lia.
  - pose proof (recoherence_wf _ _ _ _ _ _ Hwf HI) as Hwf'. exists bt', ret.
    split_and!; [done|done|apply (rc_state _ _ _ _ _ _ HI)| |].
    + intros b Hb. destruct (rc_ret _ _ _ _ _ _ HI b Hb) as (? & _ & _ & ?). split; [|done].
      apply (rc_fresh _ _ _ _ _ _ HI). by right.
    + intros l Hl Hall. rewrite (chain_det _ _ _ _ _ Hl Hpath) in Hall.
      destruct (recoherence_complete _ _ _ _ _ _ _ Hwf HI id Hpath Hall) as (e & He & Hin & _).
      pose proof (rc_state _ _ _ _ _ _ HI) as Heq. cbn [fst snd] in Heq. rewrite Heq, mark_coherent, orb_true_iff. right.
      rewrite andb_true_iff, !bool_decide_eq_true. split; [|done]. destruct (bw_entry _ Hwf _ _ He) as (Hid & _).
      apply list_elem_of_fmap. by exists (be_validated_block e).
Qed.
End chains.
