(* ===== verification/BlockTreeCorrect.v ===== *)
(** * What the block tree promises

    The theorems of the block tree ([monad-blocktree]), from the lemmas of
    BlockTreeProps.v: adding, committing, coherency and the search for a
    committing certificate. The witnesses run on a chain of three blocks. *)
From S2P Require Import Prelude Types Interfaces MultiSig Certificates Concrete BlockTree BlockTreeProps.

Section block_tree.
Context `{P : Params} {CD : Codec} {HO : HashOrder BlockId BlockTreeEntry}.

(** The path from the root to a block. *)
Definition on_path (bt : BlockTree) (id : BlockId) (l : list ConsensusFullBlock) : Prop :=
  chain (tr_tree (bt_tree bt)) (root_id bt) id l.

Lemma block_tree_new_wf (valid : ConsensusBlockHeader → Prop) root :
  (∀ h, valid h → get_id h = ri_block_id root → bh_block_round h ≤ ri_round root) →
  (∀ h, valid h → get_parent_id h = ri_block_id root → ri_round root ≤ qc_get_round (bh_qc h)) →
  bt_wf valid (block_tree_new root).
Proof.
  intros Hr Hp. split; simpl; try (intros ?? H; by rewrite lookup_empty in H); try done.
  - split; [constructor|]. intros c. rewrite lookup_empty. set_solver.
  - split; intros body id; simpl; [|by rewrite lookup_empty]. rewrite !lookup_empty. naive_solver.
Qed.

(** Adding blocks one after the other. *)
Definition add_all (bt : BlockTree) (bs : list ConsensusFullBlock) : BlockTree :=
  foldl (λ bt b, ret_or bt (bt_add bt b)) bt bs.

Lemma add_all_wf valid bs : valid_headers valid → Forall (λ b, valid (fb_header b)) bs →
  ∀ bt, bt_wf valid bt → bt_wf valid (add_all bt bs).
Proof.
  intros Hv. induction 1 as [|b bs Hb _ IH]; intros bt Hwf; [done|]. cbn [add_all foldl]. apply IH.
  destruct (bt_add_spec valid Hv bt b Hwf Hb) as (bt' & -> & ? & _). done.
Qed.

Lemma chain_of_path valid bt id l : valid_headers valid → bt_wf valid bt →
  get_blocks_on_path_from_root bt id = Ret (Some l) → on_path bt id l.
Proof. intros Hv Hwf H. destruct (path_spec valid Hv bt id Hwf) as (res & Hr & Hl). apply Hl. congruence. Qed.

(** Three headers that form a chain are acceptable together. *)
Lemma chain_valid_headers root h1 h2 h3 : NoDup [root; get_id h1; get_id h2; get_id h3] →
  get_parent_id h1 = root → get_parent_id h2 = get_id h1 → get_parent_id h3 = get_id h2 →
  qc_get_round (bh_qc h1) < bh_block_round h1 ≤ u64_MAX →
  bh_block_round h1 ≤ qc_get_round (bh_qc h2) < bh_block_round h2 →
  bh_block_round h2 ≤ qc_get_round (bh_qc h3) < bh_block_round h3 → bh_block_round h2 ≤ u64_MAX →
  bh_block_round h3 ≤ u64_MAX → valid_headers (λ h, h ∈ [h1; h2; h3]).
Proof.
  rewrite !NoDup_cons, !elem_of_cons, !elem_of_nil. intros Hids <- Hp2 Hp3 H1 H2 H3 H4 H5. split.
  - intros h h'. rewrite !elem_of_cons, !elem_of_nil. intros [->|[->|[->|[]]]] [->|[->|[->|[]]]] Hid; intuition congruence.
  - intros h. rewrite !elem_of_cons, !elem_of_nil. intros [->|[->|[->|[]]]]; naive_solver.
  - intros h h'. rewrite !elem_of_cons, !elem_of_nil. intros [->|[->|[->|[]]]] [->|[->|[->|[]]]] Hid; try lia;
      exfalso; intuition congruence.
Qed.

Lemma chain_ids_not_root root h1 h2 h3 h : NoDup [root; get_id h1; get_id h2; get_id h3] →
  h ∈ [h1; h2; h3] → get_id h ≠ root.
Proof.
  rewrite !NoDup_cons, !elem_of_cons, !elem_of_nil. intros Hids [->|[->|[->|[]]]] Hid; intuition congruence.
Qed.

(** The blocks of the tree after a commit. *)
Lemma pruned_lookup bt bt' b :
  tr_tree (bt_tree bt') = filter (λ p, fb_get_block_round b ≤ fb_get_parent_round (be_validated_block p.2)) (tr_tree (bt_tree bt)) →
  ∀ id b', get_block bt' id = Some b' ↔
    get_block bt id = Some b' ∧ fb_get_block_round b ≤ fb_get_parent_round b'.
Proof.
  intros Ht id b'. unfold get_block, tree_get. rewrite Ht, !fmap_Some. split.
  - intros (e & He & ->). apply map_lookup_filter_Some in He as [He Hr]. eauto.
  - intros [(e & He & ->) Hr]. exists e. split; [|done]. by apply map_lookup_filter_Some.
Qed.

(** The paths of the tree after a commit are the continuations of the
    committed path. *)
Lemma pruned_paths valid bt bt' new_root e l : valid_headers valid → bt_wf valid bt →
  on_path bt new_root l → tr_tree (bt_tree bt) !! new_root = Some e →
  tr_tree (bt_tree bt') =
    filter (λ p, fb_get_block_round (be_validated_block e) ≤ fb_get_parent_round (be_validated_block p.2)) (tr_tree (bt_tree bt)) →
  root_id bt' = new_root → ∀ id l2, on_path bt' id l2 ↔ on_path bt id (l ++ l2).
Proof.
  intros Hv Hwf Hl He Ht Hroot id l2. unfold on_path in *. rewrite Hroot.
  assert (∃ l1, l = l1 ++ [be_validated_block e]) as [l1 Hl1].
  { inversion Hl as [Hr|? e1 l1 _ He1 _]; [|exists l1; congruence]. by rewrite <- Hr, (bt_root_not_in valid) in He. }
  split.
  - induction 1 as [|id e' l' Hne He' Hc IH]; [by rewrite app_nil_r|].
    rewrite Ht in He'. apply map_lookup_filter_Some in He' as [He' _]. rewrite (assoc_L (++)).
    econstructor; [|done..]. intros ->. by rewrite (bt_root_not_in valid) in He'.
  - revert id. induction l2 as [|b l2 IH] using rev_ind; intros id Hc.
    + rewrite app_nil_r, Hl1 in Hc. inversion Hc as [Hr Hnil|? e2 l2' _ He2 _ Hid Heq]; [by destruct l1|].
      apply app_inj_tail in Heq as [_ Hb]. destruct (bw_entry _ _ Hwf _ _ He) as (Hid1 & _).
      destruct (bw_entry _ _ Hwf _ _ He2) as (Hid2 & _). rewrite Hb, Hid1 in Hid2. rewrite Hid2. constructor.
    + rewrite (assoc_L (++)) in Hc. inversion Hc as [Hr Hnil|? e2 l2' Hne He2 Hc2 Hid Heq]; [by destruct l, l2|].
      apply app_inj_tail in Heq as [-> <-]. subst id0. specialize (IH _ Hc2).
      assert (fb_get_block_round (be_validated_block e) ≤ fb_get_parent_round (be_validated_block e2)) as Hle.
      { destruct (chain_in_tree valid Hv _ _ _ Hwf Hc2 (be_validated_block e)) as (ee & _ & _ & Hle); [set_solver|].
        inversion Hc2 as [Hr Hnil|? pe ? _ Hpe]; [by destruct l, l1|].
        specialize (Hle pe Hpe). pose proof (bt_parent_round valid Hv _ _ _ _ Hwf He2 Hpe). lia. }
      econstructor; [|rewrite Ht; by apply map_lookup_filter_Some|done].
      intros ->. rewrite He in He2. injection He2 as <-. pose proof (bt_round_pos valid Hv _ _ _ Hwf He). lia.
Qed.

(** C28. Committing a coherent block hands out exactly the path from the root to
    it, in order, makes it the root, and keeps of the other blocks those that
    extend a certificate from its round on. The invariant is kept, and the
    paths from the new root are the continuations of the committed path: no
    descendant of the committed block is lost or loses its path. *)
Theorem prune_commits_path valid bt new_root l b : valid_headers valid → bt_wf valid bt →
  is_coherent bt new_root = true → on_path bt new_root l → get_block bt new_root = Some b →
  ∃ bt', prune bt new_root = Ret (bt', l) ∧ bt_wf valid bt' ∧
    root_info (bt_root bt') = mkRootInfo (bh_block_round (fb_header b)) (bh_seq_num (fb_header b))
      (bh_epoch (fb_header b)) new_root (bh_timestamp_ns (fb_header b)) ∧
    (∀ id b', get_block bt' id = Some b' ↔
       get_block bt id = Some b' ∧ fb_get_block_round b ≤ fb_get_parent_round b') ∧
    (∀ id l2, on_path bt' id l2 ↔ on_path bt id (l ++ l2)).
Proof.
  intros Hv Hwf Hcoh Hl Hb. unfold get_block, tree_get in Hb. apply fmap_Some in Hb as (e & He & ->).
  destruct (prune_spec valid Hv bt new_root l e Hwf Hcoh Hl He) as (t' & Hp & Hpw & Ht).
  eexists. split; [exact Hp|]. split; [by eapply pruned_wf|]. split; [done|]. split.
  - by apply pruned_lookup.
  - by eapply pruned_paths.
Qed.

(** Adding a block whose header is acceptable never fails and keeps the
    invariant; the block is stored if its round is after the root's and its
    id is new, whether or not its parent is known, and no other block
    changes. *)
Theorem add_keeps_invariant valid bt b : valid_headers valid → bt_wf valid bt → valid (fb_header b) →
  ∃ bt', bt_add bt b = Ret bt' ∧ bt_wf valid bt' ∧ root_info (bt_root bt') = root_info (bt_root bt) ∧
    ∀ id, get_block bt' id = if decide (is_valid_to_insert bt (fb_header b) = true ∧ id = fb_get_id b) then Some b
                             else get_block bt id.
Proof. intros Hv Hwf Hb. by apply bt_add_spec. Qed.

(** C30. Updating coherency never fails and keeps the invariant, the root and the
    blocks. It returns the blocks that have become coherent, and only those;
    each is on a path from the root and accepted by the execution policy's
    check after the blocks before it. The updated block is coherent if and
    only if each block of its path already was or is accepted. *)
Theorem update_coherency_exact valid check bt id : valid_headers valid → bt_wf valid bt →
  ∃ bt' ret, try_update_coherency check bt id = Ret (bt', ret) ∧ bt_wf valid bt' ∧ root_id bt' = root_id bt ∧
    (∀ x, get_block bt' x = get_block bt x) ∧
    (∀ x, is_coherent bt' x = true ↔ is_coherent bt x = true ∨ x ∈ fb_get_id <$> ret) ∧
    (∀ b, b ∈ ret → is_coherent bt (fb_get_id b) = false ∧
       ∃ l, on_path bt (fb_get_id b) (l ++ [b]) ∧ accepts check bt l b) ∧
    (∀ l, on_path bt id l → is_coherent bt' id = true ↔
       ∀ l1 b l2, l = l1 ++ b :: l2 → is_coherent bt (fb_get_id b) = true ∨ accepts check bt l1 b).
Proof.
  intros Hv Hwf. destruct (try_update_coherency_spec valid Hv check bt id Hwf) as (bt' & ret & Hr & Hwf' & Hm & Hret & Hl).
  assert (∀ x, is_coherent bt' x = true ↔ is_coherent bt x = true ∨ x ∈ fb_get_id <$> ret) as Hcoh.
  { intros x. rewrite Hm, mark_coherent, orb_true_iff, andb_true_iff, !bool_decide_eq_true.
    split; [naive_solver|]. intros [?|Hx]; [by left|right]. split; [done|].
    apply list_elem_of_fmap in Hx as (b & -> & Hb). destruct (Hret b Hb) as (_ & l & Hc & _).
    destruct (chain_in_tree valid Hv _ _ _ Hwf Hc b) as (e & ? & _); [set_solver|eauto]. }
  exists bt', ret. split_and!; [done|done|by rewrite Hm| |done|done|].
  - intros x. unfold get_block, tree_get. rewrite Hm, mark_lookup. by destruct (tr_tree (bt_tree bt) !! x).
  - intros l Hc. split; [|by apply Hl]. intros Hid l1 b l2 ->.
    pose proof (chain_prefix valid _ _ _ _ _ Hc Hwf) as Hpre.
    assert (is_coherent bt' (fb_get_id b) = true) as Hb.
    { apply (chain_coherent_prefix valid Hv bt' id l1 b l2 Hwf'); [rewrite Hm; by apply mark_chain|done]. }
    apply Hcoh in Hb as [?|Hx]; [by left|right]. apply list_elem_of_fmap in Hx as (b' & Hid' & Hb').
    destruct (Hret b' Hb') as (_ & l' & Hc' & Hacc). rewrite <- Hid' in Hc'.
    pose proof (chain_det _ _ _ _ _ Hpre Hc') as Heq. by apply app_inj_tail in Heq as [-> ->].
Qed.

(** The search for a certificate to commit with never fails. It finds a
    certificate of a block reachable from the root, which by the commit rule
    commits a coherent block other than the root; and it finds one of the
    highest round among all those. *)
Theorem high_committable_qc_exact valid bt : valid_headers valid → bt_wf valid bt →
  ∃ r, get_high_committable_qc bt = Ret r ∧
    (∀ qc, r = Some qc → ∃ id l e, on_path bt id l ∧
       tr_tree (bt_tree bt) !! id = Some e ∧ qc = fb_get_qc (be_validated_block e) ∧ commits bt e) ∧
    (∀ id l e, on_path bt id l → tr_tree (bt_tree bt) !! id = Some e → commits bt e →
       ∃ qc, r = Some qc ∧ fb_get_parent_round (be_validated_block e) ≤ qc_get_round qc).
Proof. intros Hv Hwf. by apply (get_high_committable_qc_spec valid). Qed.
End block_tree.

Section block_tree_witnesses.
Import ToyInstances.

(** A chain of three blocks in consecutive rounds on a root of round 0. *)
Definition toy_tree_header (round parent : N) : ConsensusBlockHeader :=
  @mkHeader toy_params round 1 (toy_qc parent (round - 1)) (1 : @NodeId toy_params) round round
    (toy_sign 1 SdRoundSignature []) [] (0 : @ProposedHeader toy_params) (body_get_id (mkBody (0 : @ExecutionBody toy_params))) 0 0 0.
Definition toy_block (h : ConsensusBlockHeader) : ConsensusFullBlock := mkFullBlock h (mkBody (0 : @ExecutionBody toy_params)).
Definition toy_h1 := toy_tree_header 1 7.
Definition toy_h2 := toy_tree_header 2 (get_id toy_h1).
Definition toy_h3 := toy_tree_header 3 (get_id toy_h2).
Definition toy_valid (h : ConsensusBlockHeader) : Prop := h ∈ [toy_h1; toy_h2; toy_h3].
Definition toy_root : RootInfo := mkRootInfo 0 0 1 7 0.
Definition toy_tree : BlockTree := add_all (block_tree_new toy_root) [toy_block toy_h1; toy_block toy_h3; toy_block toy_h2].
Definition toy_check (b : ConsensusFullBlock) (l : list ConsensusFullBlock) (root : RootInfo) : result BlockPolicyError unit :=
  if bool_decide (fb_get_seq_num b = ri_seq_num root + N.of_nat (length l) + 1) then Ok tt else Err BlockNotCoherent.
Definition toy_coherent_tree : BlockTree * list ConsensusFullBlock :=
  ret_or (toy_tree, []) (try_update_coherency toy_check toy_tree (get_id toy_h1)).

(** The ids of the three blocks. *)
Lemma toy_ids : NoDup [7; get_id toy_h1; get_id toy_h2; get_id toy_h3].
Proof. apply (bool_decide_unpack _). vm_cast_no_check I. Qed.

Lemma toy_valid_headers : valid_headers toy_valid.
Proof. apply (chain_valid_headers 7); try reflexivity; [exact toy_ids|..]; try split; (reflexivity || discriminate). Qed.

Lemma toy_tree_new_wf : bt_wf toy_valid (block_tree_new toy_root).
Proof.
  apply block_tree_new_wf; [|intros; apply N.le_0_l]. intros h Hh Hid. exfalso.
  eapply (chain_ids_not_root 7); [exact toy_ids|exact Hh|exact Hid].
Qed.

Lemma toy_tree_wf : bt_wf toy_valid toy_tree.
Proof.
  apply add_all_wf; [apply toy_valid_headers|..].
  - repeat constructor; unfold toy_valid; set_solver.
  - apply toy_tree_new_wf.
Qed.

Lemma toy_coherent_tree_wf : bt_wf toy_valid toy_coherent_tree.1.
Proof.
  unfold toy_coherent_tree.
  destruct (try_update_coherency_spec toy_valid toy_valid_headers toy_check toy_tree (get_id toy_h1) toy_tree_wf)
    as (bt' & ret & -> & ? & _). done.
Qed.

(** The first block is committed, the two others stay. *)
Lemma prune_commits_path_witness : ∃ bt',
  prune toy_coherent_tree.1 (get_id toy_h1) = Ret (bt', [toy_block toy_h1]) ∧
  root_id bt' = get_id toy_h1 ∧ get_block bt' (get_id toy_h3) = Some (toy_block toy_h3) ∧
  on_path bt' (get_id toy_h3) [toy_block toy_h2; toy_block toy_h3].
Proof.
  assert (∀ id l, get_blocks_on_path_from_root toy_coherent_tree.1 id = Ret (Some l) → on_path toy_coherent_tree.1 id l) as Hpath
    by (intros id l; exact (chain_of_path toy_valid _ _ _ toy_valid_headers toy_coherent_tree_wf)).
  destruct (prune_commits_path toy_valid toy_coherent_tree.1 (get_id toy_h1) [toy_block toy_h1] (toy_block toy_h1)
    toy_valid_headers toy_coherent_tree_wf) as (bt' & Hp & _ & Hr & Hb & Hc).
  - vm_refl.
  - apply Hpath. vm_refl.
  - vm_refl.
  - exists bt'. split; [exact Hp|]. split; [unfold root_id; rewrite Hr; reflexivity|]. split.
    + apply Hb. split; [vm_refl|]. vm_compute. discriminate.
    + apply Hc, Hpath. vm_refl.
Defined.

(** The third block arrives before the second. *)
Lemma add_keeps_invariant_witness : ∃ bt',
  bt_add (block_tree_new toy_root) (toy_block toy_h3) = Ret bt' ∧ bt_wf toy_valid bt' ∧
  get_block bt' (get_id toy_h3) = Some (toy_block toy_h3).
Proof.
  destruct (add_keeps_invariant toy_valid (block_tree_new toy_root) (toy_block toy_h3) toy_valid_headers)
    as (bt' & Ha & Hwf & _ & Hb).
  - exact toy_tree_new_wf.
  - right. right. left.
  - exists bt'. split; [exact Ha|]. split; [exact Hwf|]. rewrite Hb. vm_refl.
Defined.

(** All three blocks become coherent when the first is updated. *)
Lemma update_coherency_exact_witness : ∃ bt' ret,
  try_update_coherency toy_check toy_tree (get_id toy_h1) = Ret (bt', ret) ∧
  ret = [toy_block toy_h1; toy_block toy_h2; toy_block toy_h3] ∧
  is_coherent bt' (get_id toy_h3) = true ∧ is_coherent toy_tree (get_id toy_h3) = false.
Proof.
  destruct (update_coherency_exact toy_valid toy_check toy_tree (get_id toy_h1) toy_valid_headers toy_tree_wf)
    as (bt' & ret & Hr & _ & _ & _ & Hcoh & Hret & _).
  assert (ret = [toy_block toy_h1; toy_block toy_h2; toy_block toy_h3]) as Heq.
  { change ret with (bt', ret).2. change (bt', ret) with (ret_or (bt', ret) (Ret (bt', ret))). rewrite <- Hr. vm_refl. }
  exists bt', ret. split; [exact Hr|]. split; [exact Heq|]. split.
  - apply Hcoh. right. rewrite Heq. right. right. left.
  - apply (Hret (toy_block toy_h3)). rewrite Heq. right. right. left.
Defined.

(** The certificate of round 2 in the third block commits the first. *)
Lemma high_committable_qc_exact_witness :
  ∃ qc, get_high_committable_qc toy_coherent_tree.1 = Ret (Some qc) ∧ 2 ≤ qc_get_round qc.
Proof.
  destruct (high_committable_qc_exact toy_valid toy_coherent_tree.1 toy_valid_headers toy_coherent_tree_wf)
    as (r & Hr & _ & Hmax).
  destruct (Hmax (get_id toy_h3) [toy_block toy_h1; toy_block toy_h2; toy_block toy_h3]
    (mkEntry (toy_block toy_h3) true [])) as (qc & -> & Hle).
  - apply (chain_of_path toy_valid _ _ _ toy_valid_headers toy_coherent_tree_wf). vm_refl.
  - vm_refl.
  - exists (mkEntry (toy_block toy_h2) true [get_id toy_h3]), (get_id toy_h1).
    split; [vm_refl|]. split; [vm_refl|]. split; [vm_compute; discriminate|vm_refl].
  - exists qc. split; [exact Hr|exact Hle].
Defined.
End block_tree_witnesses.
