(* ===== verification/Timestamp.v ===== *)
(** * Block timestamps (monad-consensus-state/src/timestamp.rs)

    The clock of a node, the timestamp it proposes and the timestamps it
    accepts. Timestamps are [u128] nanoseconds: the sums of the source
    saturate, except the increment of [get_valid_block_timestamp], which wraps
    in a release build. *)
From S2P Require Import Prelude Types.

Record BlockTimestamp := mkBlockTimestamp {
  local_time_ns : N;
  max_delta_ns : N;
  latency_estimate_ns : N;
}.

(** quorum_certificate.rs *)
Inductive TimestampAdjustmentDirection := TsForward | TsBackward.
Record TimestampAdjustment := mkTimestampAdjustment { ta_delta : N; ta_direction : TimestampAdjustmentDirection }.

Definition block_timestamp_new (max_delta latency_estimate : N) : outcome BlockTimestamp :=
  _ ← rust_assert (bool_decide (0 < latency_estimate));
  Ret (mkBlockTimestamp 0 max_delta latency_estimate).

Definition update_time (b : BlockTimestamp) (time : N) : BlockTimestamp := {| b with local_time_ns := time |}.

Definition get_current_time (b : BlockTimestamp) : N := local_time_ns b.

Definition get_valid_block_timestamp (b : BlockTimestamp) (prev_block_ts : N) : N :=
  if bool_decide (local_time_ns b ≤ prev_block_ts) then (prev_block_ts + 1) `mod` (u128_MAX + 1)
  else local_time_ns b.

Definition valid_bounds (b : BlockTimestamp) (timestamp vote_delay_ns : N) : bool :=
  let max_delta := saturating_add u128_MAX (max_delta_ns b) vote_delay_ns in
  let lower_bound := local_time_ns b - max_delta in
  let upper_bound := saturating_add u128_MAX (local_time_ns b) max_delta in
  bool_decide (lower_bound ≤ timestamp) && bool_decide (timestamp ≤ upper_bound).

Definition abs_diff (a b : N) : N := N.max a b - N.min a b.

Definition valid_block_timestamp (b : BlockTimestamp) (prev_block_ts curr_block_ts vote_delay_ns : N)
    (is_reproposal : bool) : option TimestampAdjustment :=
  if is_reproposal then
    if bool_decide (prev_block_ts < curr_block_ts) && bool_decide (curr_block_ts < local_time_ns b)
    then Some (mkTimestampAdjustment 0 TsForward) else None
  else
    if bool_decide (curr_block_ts < prev_block_ts) then None
    else if bool_decide (curr_block_ts - prev_block_ts = 0) then None
    else if negb (valid_bounds b curr_block_ts vote_delay_ns) then None
    else
      let adjustment := abs_diff (local_time_ns b) curr_block_ts - latency_estimate_ns b in
      if bool_decide (local_time_ns b < curr_block_ts)
      then Some (mkTimestampAdjustment adjustment TsForward)
      else Some (mkTimestampAdjustment adjustment TsBackward).

Lemma valid_bounds_iff b ts d : ts ≤ u128_MAX → local_time_ns b ≤ u128_MAX →
  valid_bounds b ts d = true ↔ abs_diff (local_time_ns b) ts ≤ max_delta_ns b + d.
Proof.
  intros Hts Hl. unfold valid_bounds, abs_diff, saturating_add.
  rewrite andb_true_iff, !bool_decide_eq_true. lia.
Qed.

(** A fresh proposal's timestamp is accepted exactly if it is after its
    parent's and within the allowed distance of the local clock; the clock
    adjustment it suggests is that distance, less the latency estimate. *)
Lemma fresh_timestamp_iff b prev ts d adj : ts ≤ u128_MAX → local_time_ns b ≤ u128_MAX →
  valid_block_timestamp b prev ts d false = Some adj ↔
    prev < ts ∧ abs_diff (local_time_ns b) ts ≤ max_delta_ns b + d ∧
    adj = mkTimestampAdjustment (abs_diff (local_time_ns b) ts - latency_estimate_ns b)
            (if bool_decide (local_time_ns b < ts) then TsForward else TsBackward).
Proof.
  intros Hts Hl. pose proof (valid_bounds_iff b ts d Hts Hl) as Hb. unfold valid_block_timestamp.
  case_bool_decide; [split; [done|lia]|]. case_bool_decide; [split; [done|lia]|].
  destruct (valid_bounds b ts d); simpl.
  - assert (abs_diff (local_time_ns b) ts ≤ max_delta_ns b + d) by (by apply Hb).
    case_bool_decide; (split; [intros [= <-]; split_and!; [lia|done|done]|by intros (_ & _ & ->)]).
  - split; [done|]. intros (_ & Hd & _). by apply Hb in Hd.
Qed.

(** Timestamps that a proposer makes are accepted: a validator whose clock is
    within the allowed distance of the proposed timestamp accepts it, and any
    validator whose clock has passed it accepts it when it is reproposed. The
    timestamp is after the parent's unless that is the last one of [u128]. *)
Theorem proposed_timestamp_accepted proposer validator prev d :
  local_time_ns proposer ≤ u128_MAX → local_time_ns validator ≤ u128_MAX → prev < u128_MAX →
  let ts := get_valid_block_timestamp proposer prev in
  prev < ts ∧ local_time_ns proposer ≤ ts ∧
  (is_Some (valid_block_timestamp validator prev ts d false) ↔
     abs_diff (local_time_ns validator) ts ≤ max_delta_ns validator + d) ∧
  (is_Some (valid_block_timestamp validator prev ts d true) ↔ ts < local_time_ns validator).
Proof.
  intros Hp Hv Hprev ts.
  assert (ts = N.max (local_time_ns proposer) (prev + 1)) as Hts.
  { unfold ts, get_valid_block_timestamp. case_bool_decide; [rewrite N.mod_small|]; lia. }
  split; [lia|]. split; [lia|]. split.
  - split.
    + intros [adj Hadj]. apply fresh_timestamp_iff in Hadj as (_ & ? & _); [done|lia|done].
    + intros Hd. eexists. apply fresh_timestamp_iff; [lia|done|]. split_and!; [lia|done|done].
  - unfold valid_block_timestamp. rewrite (bool_decide_eq_true_2 (prev < ts)) by lia. simpl.
    case_bool_decide; split; intros H'; try done; try (by destruct H'); eauto.
Qed.

(** Clocks 2ns apart, 1ns tolerance plus 1ns vote delay. *)
Lemma proposed_timestamp_accepted_witness :
  get_valid_block_timestamp (mkBlockTimestamp 10 1 1) 7 = 10 ∧
  is_Some (valid_block_timestamp (mkBlockTimestamp 12 1 1) 7 10 1 false) ∧
  is_Some (valid_block_timestamp (mkBlockTimestamp 12 1 1) 7 10 1 true).
Proof.
  destruct (proposed_timestamp_accepted (mkBlockTimestamp 10 1 1) (mkBlockTimestamp 12 1 1) 7 1)
    as (_ & _ & Hf & Hr); [vm_compute; discriminate..|vm_compute; reflexivity|].
  split; [reflexivity|]. split; [apply Hf; vm_compute; discriminate|apply Hr; vm_compute; reflexivity].
Defined.
