(* ===== verification/ConsensusState.v ===== *)
(** * The consensus driver (monad-consensus-state/src/lib.rs, command.rs)

    [ConsensusState] ties the components together: each handler takes a
    message or timer event, updates the block tree, vote collection, safety
    module and pacemaker, and returns commands. A handler is a computation in
    the monad [cs]: it reads and writes the [Node] (the consensus state, the
    epoch manager and the block policy, the parts [ConsensusStateWrapper]
    borrows mutably), appends commands in the order the source does, and may
    panic. What the wrapper only reads is the record [Wrapper].

    The execution layer enters through two classes, the traits [BlockPolicy]
    (with the state backend it reads) and [BlockValidator]. Metrics and log
    messages are left out; the arguments of a log message are evaluated only
    when its level is enabled. *)
From S2P Require Import Prelude Types ChainConfig Interfaces MultiSig Certificates Concrete ValidatorSet SafetyModule VoteState NoEndorsementState Epochs Leader Pacemaker Messages BlockTree Timestamp.

(** ** The interfaces to the execution layer *)

(** [BlockPolicy] of monad-consensus-types/src/block.rs, without [reset],
    which only the node program calls; the error of
    [get_expected_execution_results] is dropped by its caller here. *)
Class BlockPolicy `{P : Params} := {
  PolicyState : Type;
  StateBackend : Type;
  check_coherency : PolicyState → StateBackend → ConsensusFullBlock → list ConsensusFullBlock → RootInfo →
    result BlockPolicyError unit;
  get_expected_execution_results : PolicyState → StateBackend → SeqNum → list ConsensusFullBlock →
    option (list FinalizedHeader);
  update_committed_block : PolicyState → ConsensusFullBlock → outcome PolicyState;
}.

(** [BlockValidator::validate]; its error is only logged. *)
Class BlockValidator `{P : Params} := {
  block_validate : ConsensusBlockHeader → ConsensusBlockBody → option CertPubKey → option ConsensusFullBlock;
}.

(** The validated block is the given header with the given body. *)
Class BlockValidatorLaws `{P : Params} (BV : BlockValidator) : Prop := {
  block_validate_same : ∀ header body key b, block_validate header body key = Some b → b = mkFullBlock header body;
}.

(** [chain_config.get_chain_revision(round).chain_params()] is [cfg_chain_params]. *)
Record ConsensusConfig := mkConsensusConfig {
  cfg_execution_delay : SeqNum;
  cfg_delta : N;
  cfg_chain_params : Round → ChainParams;
  cfg_live_to_statesync_threshold : SeqNum;
  cfg_statesync_to_live_threshold : SeqNum;
  cfg_start_execution_threshold : SeqNum;
  cfg_timestamp_latency_estimate_ns : N;
}.

Definition FUTURE_VOTE_BOUND : Round := 10.

Record VoteDelayTimerStart := mkVoteDelayTimerStart { vd_round : Round; vd_started_at_ms : N }.

(** vote_delay_metrics.rs *)
Definition ns_to_ms (timestamp_ns : N) : N := N.min (timestamp_ns / 1000000) u64_MAX.

Section consensus_state.
Context `{P : Params} {CD : Codec} {MC : MessageCodec} {CS : CertSignature} {AS : AuthorSigning}
        {SC : SignatureCollection} {LE : LeaderElection} {BP : BlockPolicy} {BV : BlockValidator}
        {HO : HashOrder TimeoutInfo (list (NodeId * Signature))} {HB : HashOrder BlockId BlockTreeEntry}.

(** ** Commands *)

(** monad-types/src/lib.rs; the direct and TCP targets are not used here. *)
Inductive RouterTarget :=
| Broadcast (epoch : Epoch)
| Raptorcast (epoch : Epoch)
| PointToPoint (to : NodeId).

Inductive OptimisticPolicyCommit :=
| Proposed (block : ConsensusFullBlock) (is_canonical : bool)
| Voted (block : ConsensusFullBlock)
| Finalized (block : ConsensusFullBlock).

Record CreateProposal := mkCreateProposal {
  cr_node_id : NodeId;
  cr_epoch : Epoch;
  cr_round : Round;
  cr_seq_num : SeqNum;
  cr_high_qc : QuorumCertificate;
  cr_round_signature : Signature;
  cr_last_round_tc : option TimeoutCertificate;
  cr_fresh_proposal_certificate : option FreshProposalCertificate;
  cr_tx_limit : N;
  cr_proposal_gas_limit : N;
  cr_proposal_byte_limit : N;
  cr_beneficiary : bytes;
  cr_timestamp_ns : N;
  cr_extending_blocks : list ConsensusFullBlock;
  cr_delayed_execution_results : list FinalizedHeader;
}.

Inductive ConsensusCommand :=
| CcEnterRound (epoch : Epoch) (round : Round)
| CcPublish (target : RouterTarget) (message : Verified)
| CcPublishToFullNodes (epoch : Epoch) (round : Round) (message : Verified)
| CcSchedule (round : Round) (duration : N)
| CcScheduleReset
| CcCreateProposal (c : CreateProposal)
| CcCommitBlocks (c : OptimisticPolicyCommit)
| CcRequestSync (range : BlockRange)
| CcCancelSync (range : BlockRange)
| CcRequestStateSync (root : ConsensusBlockHeader) (high_qc : QuorumCertificate)
| CcTimestampUpdate (a : TimestampAdjustment)
| CcScheduleVote (duration : N) (round : Round).

Definition from_pacemaker_command (keypair : AuthorKeyPair) (cert_keypair : CertKeyPair) (version : N)
    (cmd : PacemakerCommand) : list ConsensusCommand :=
  match cmd with
  | EnterRound epoch round high_certificate =>
      [CcEnterRound epoch round;
       CcPublishToFullNodes epoch (round_certificate_round high_certificate)
         (consensus_message_sign
            (mkConsensusMessage version (PmAdvanceRound (mkAdvanceRoundMessage high_certificate))) keypair)]
  | PrepareTimeout timeout high_extend safe_to_vote last_round_certificate =>
      [CcPublish (Broadcast (ti_epoch timeout))
         (consensus_message_sign
            (mkConsensusMessage version
               (PmTimeout (timeout_new cert_keypair timeout high_extend safe_to_vote last_round_certificate))) keypair)]
  | Schedule round duration => [CcSchedule round duration]
  | ScheduleReset => [CcScheduleReset]
  end.

(** ** State *)

Record BlockSyncRequestStatus := mkBlockSyncRequestStatus { bs_range : BlockRange; bs_cancel_round : Round }.

Inductive OutgoingVoteStatus := TimerFired | VoteReady (v : Vote).

Record ConsensusState := mkConsensusState {
  pending_block_tree : BlockTree;
  vote_state : VoteState;
  no_endorsement_state : NoEndorsementState;
  scheduled_vote : option OutgoingVoteStatus;
  safety : Safety;
  pacemaker : Pacemaker;
  block_sync_requests : gmap BlockId BlockSyncRequestStatus;
  canonical_proposed_tip : option BlockId;
  vote_delay_timer_start : option VoteDelayTimerStart;
}.

(** What [ConsensusStateWrapper] borrows mutably, and what it only reads. *)
Record Node := mkNode { consensus : ConsensusState; epoch_manager : EpochManager; block_policy : PolicyState }.

Record Wrapper := mkWrapper {
  w_state_backend : StateBackend;
  w_val_epoch_map : ValidatorsEpochMapping;
  w_version : N;
  w_block_timestamp : BlockTimestamp;
  w_beneficiary : bytes;
  w_nodeid : NodeId;
  w_config : ConsensusConfig;
  w_keypair : AuthorKeyPair;
  w_cert_keypair : CertKeyPair;
}.

(** [ConsensusState::new]. *)
Definition consensus_state_new (em : EpochManager) (config : ConsensusConfig) (root : RootInfo)
    (high_certificate : RoundCertificate) : outcome ConsensusState :=
  pm ← pacemaker_new (cfg_delta config) (λ r, cp_vote_pace (cfg_chain_params config r)) (cfg_delta config) em
         high_certificate;
  current_round ← get_current_round pm;
  s ← safety_new high_certificate None;
  Ret (mkConsensusState (block_tree_new root) (vote_state_new current_round)
         (no_endorsement_state_new current_round) None s pm ∅ None None).

(** ** The monad of the handlers *)

Definition cs (A : Type) : Type := Node → outcome (Node * list ConsensusCommand * A).

#[global] Instance cs_ret : MRet cs := λ A a n, Ret (n, [], a).
#[global] Instance cs_bind : MBind cs := λ A B f m n,
  match m n with
  | Ret (n1, c1, a) =>
      match f a n1 with
      | Ret (n2, c2, b) => Ret (n2, c1 ++ c2, b)
      | Panic => Panic
      | OutOfFuel => OutOfFuel
      end
  | Panic => Panic
  | OutOfFuel => OutOfFuel
  end.

Definition gets {A} (f : Node → A) : cs A := λ n, Ret (n, [], f n).
Definition modify (f : ConsensusState → ConsensusState) : cs unit := λ n,
  Ret ({| n with consensus := f (consensus n) |}, [], tt).
Definition put_epoch_manager (em : EpochManager) : cs unit := λ n, Ret ({| n with epoch_manager := em |}, [], tt).
Definition put_block_policy (bp : PolicyState) : cs unit := λ n, Ret ({| n with block_policy := bp |}, [], tt).
Definition emit (cmds : list ConsensusCommand) : cs unit := λ n, Ret (n, cmds, tt).
Definition lifto {A} (m : outcome A) : cs A := λ n,
  match m with
  | Ret a => Ret (n, [], a)
  | Panic => Panic
  | OutOfFuel => OutOfFuel
  end.

Definition get_tree : cs BlockTree := gets (λ n, pending_block_tree (consensus n)).
Definition get_pacemaker : cs Pacemaker := gets (λ n, pacemaker (consensus n)).
Definition get_safety : cs Safety := gets (λ n, safety (consensus n)).
Definition get_epoch_manager : cs EpochManager := gets epoch_manager.
Definition set_tree (bt : BlockTree) : cs unit := modify (λ c, {| c with pending_block_tree := bt |}).
Definition set_safety (s : Safety) : cs unit := modify (λ c, {| c with safety := s |}).

(** [self.consensus.pacemaker.get_current_round()]. *)
Definition current_round : cs Round := pm ← get_pacemaker; lifto (get_current_round pm).

(** Runs a pacemaker operation, which also updates the safety module, and
    converts its commands. *)
Definition run_pacemaker (w : Wrapper)
    (op : Pacemaker → EpochManager → Safety → outcome (Pacemaker * Safety * list PacemakerCommand)) : cs unit :=
  pm ← get_pacemaker;
  em ← get_epoch_manager;
  s ← get_safety;
  '(pm, s, cmds) ← lifto (op pm em s);
  _ ← modify (λ c, {| c with pacemaker := pm; safety := s |});
  emit (cmds ≫= from_pacemaker_command (w_keypair w) (w_cert_keypair w) (w_version w)).

(** The epoch, validators and certificate keys of a round that was verified;
    [expect] otherwise. *)
Definition epoch_of (round : Round) : cs Epoch := em ← get_epoch_manager; lifto (expect (get_epoch em round)).
Definition validators_of (w : Wrapper) (epoch : Epoch) : cs ValidatorSet :=
  lifto (expect (get_val_set (w_val_epoch_map w) epoch)).
Definition cert_pubkeys_of (w : Wrapper) (epoch : Epoch) : cs (gmap NodeId CertPubKey) :=
  lifto (expect (get_cert_pubkeys (w_val_epoch_map w) epoch)).
Definition leader_of (round : Round) (vs : ValidatorSet) : cs NodeId := lifto (get_leader round (validators vs)).
(** The closure [get_leader] of several handlers. *)
Definition round_leader (w : Wrapper) (round : Round) : cs NodeId :=
  epoch ← epoch_of round;
  vs ← validators_of w epoch;
  leader_of round vs.

Definition sign_message (w : Wrapper) (m : ProtocolMessage) : Verified :=
  consensus_message_sign (mkConsensusMessage (w_version w) m) (w_keypair w).

(** ** ConsensusState *)

Definition request_sync (range : BlockRange) (cancel_round : Round) : cs unit :=
  _ ← modify (λ c, {| c with block_sync_requests :=
        <[br_last_block_id range := mkBlockSyncRequestStatus range cancel_round]> (block_sync_requests c) |});
  emit [CcRequestSync range].

Definition request_blocks_if_missing_ancestor : cs unit :=
  pm ← get_pacemaker;
  let high_qc := round_certificate_qc (pm_high_certificate pm) in
  bt ← get_tree;
  maybe_range ← lifto (maybe_fill_path_to_root bt high_qc);
  match maybe_range with
  | None => mret tt
  | Some range =>
      _ ← lifto (rust_assert (bool_decide (br_num_blocks range ≠ 0)));
      requests ← gets (λ n, block_sync_requests (consensus n));
      if bool_decide (is_Some (requests !! br_last_block_id range)) then mret tt
      else request_sync range (qc_get_round high_qc)
  end.

Definition request_tip_if_missing : cs unit :=
  pm ← get_pacemaker;
  match pm_high_certificate pm with
  | RcQc _ => mret tt
  | RcTc tc =>
      match tc_high_extend tc with
      | HeQc _ => mret tt
      | HeTip tip =>
          let tip_id := get_id (tip_block_header tip) in
          bt ← get_tree;
          if bool_decide (is_Some (get_block bt tip_id)) then mret tt else
          requests ← gets (λ n, block_sync_requests (consensus n));
          if bool_decide (is_Some (requests !! tip_id)) then mret tt
          else request_sync (mkBlockRange tip_id 1) (bh_block_round (tip_block_header tip))
      end
  end.

(** ** ConsensusStateWrapper: parts of the handlers *)

(** The loop of [try_commit] over the committed blocks. *)
Fixpoint commit_loop (blocks : list ConsensusFullBlock) : cs unit :=
  match blocks with
  | [] => mret tt
  | block :: blocks =>
      bp ← gets block_policy;
      bp ← lifto (update_committed_block bp block);
      _ ← put_block_policy bp;
      em ← get_epoch_manager;
      em ← lifto (schedule_epoch_start em (bh_seq_num (fb_header block)) (fb_get_block_round block));
      _ ← put_epoch_manager em;
      _ ← emit [CcCommitBlocks (Finalized block)];
      commit_loop blocks
  end.

Definition try_commit (qc : QuorumCertificate) : cs unit :=
  bt ← get_tree;
  match get_block bt (qc_get_block_id qc) with
  | None => mret tt
  | Some qc_parent =>
      committable ← lifto (get_committable_id qc (fb_header qc_parent));
      match committable with
      | None => mret tt
      | Some committable_block_id =>
          if negb (is_coherent bt committable_block_id) then mret tt else
          '(bt, blocks_to_commit) ← lifto (prune bt committable_block_id);
          _ ← set_tree bt;
          commit_loop blocks_to_commit
      end
  end.

Definition update_proposed_head : cs unit :=
  pm ← get_pacemaker;
  bt ← get_tree;
  canonical_tip_id ← lifto (get_canonical_coherent_tip bt (round_certificate_qc (pm_high_certificate pm)));
  tip ← gets (λ n, canonical_proposed_tip (consensus n));
  if bool_decide (tip = Some canonical_tip_id) then mret tt else
  match get_block bt canonical_tip_id with
  | None => mret tt
  | Some block =>
      _ ← modify (λ c, {| c with canonical_proposed_tip := Some canonical_tip_id |});
      emit [CcCommitBlocks (Proposed block true)]
  end.

(** [try_update_coherency] of the driver. *)
Definition update_coherency (w : Wrapper) (updated_block_id : BlockId) : cs unit :=
  bt ← get_tree;
  bp ← gets block_policy;
  '(bt, newly_coherent) ← lifto (try_update_coherency (check_coherency bp (w_state_backend w)) bt updated_block_id);
  _ ← set_tree bt;
  _ ← emit ((λ b, CcCommitBlocks (Proposed b false)) <$> newly_coherent);
  _ ← update_proposed_head;
  bt ← get_tree;
  high_commit_qc ← lifto (get_high_committable_qc bt);
  match high_commit_qc with
  | Some qc => try_commit qc
  | None => mret tt
  end.

Definition maybe_statesync (w : Wrapper) : cs unit :=
  pm ← get_pacemaker;
  bt ← get_tree;
  match get_seq_num_of_qc bt (round_certificate_qc (pm_high_certificate pm)) with
  | None => mret tt
  | Some high_qc_seq_num =>
      limit ← lifto (seq_add (ri_seq_num (root_info (bt_root bt))) (cfg_live_to_statesync_threshold (w_config w)));
      if bool_decide (high_qc_seq_num < limit) then mret tt else lifto Panic
  end.

(** ** Voting *)

(** Only the addition of [maybe_record_vote_delay_metrics] can be observed. *)
Definition maybe_record_vote_delay_metrics (proposal_round parent_block_round : Round) : cs unit :=
  timer_start ← gets (λ n, vote_delay_timer_start (consensus n));
  match timer_start with
  | None => mret tt
  | Some t =>
      if bool_decide (vd_round t ≠ proposal_round) then mret tt else
      _ ← lifto (round_add parent_block_round 1);
      mret tt
  end.

Definition send_vote_and_reset_timer (w : Wrapper) (vote : Vote) : cs unit :=
  let round := vote_round vote in
  let message := sign_message w (PmVote (vote_message_new vote (w_cert_keypair w))) in
  next_round ← lifto (round_add round 1);
  next_leader ← round_leader w next_round;
  _ ← emit [CcPublish (PointToPoint next_leader) message];
  current_leader ← round_leader w round;
  _ ← emit (if bool_decide (current_leader ≠ next_leader)
            then [CcPublish (PointToPoint current_leader) message] else []);
  _ ← emit [CcScheduleVote (cp_vote_pace (cfg_chain_params (w_config w) next_round)) next_round];
  modify (λ c, {| c with
    vote_delay_timer_start :=
      Some (mkVoteDelayTimerStart next_round (ns_to_ms (get_current_time (w_block_timestamp w))));
    scheduled_vote := None |}).

Definition tc_tip_id (tc : TimeoutCertificate) : option BlockId :=
  match tc_high_extend tc with
  | HeQc _ => None
  | HeTip tip => Some (get_id (tip_block_header tip))
  end.

Definition try_vote (w : Wrapper) (last_round_tc : option TimeoutCertificate) (tip : ConsensusTip) : cs unit :=
  let header := tip_block_header tip in
  proposal_round ← current_round;
  bt ← get_tree;
  match get_timestamp_of_qc bt (bh_qc header), get_block_round_of_qc bt (bh_qc header) with
  | Some parent_timestamp, Some parent_block_round =>
      let is_reproposal := bool_decide (proposal_round ≠ bh_block_round header) in
      if bool_decide (valid_block_timestamp (w_block_timestamp w) parent_timestamp (bh_timestamp_ns header)
                        (cp_vote_pace (cfg_chain_params (w_config w) proposal_round)) is_reproposal = None)
      then mret tt else
      if negb (is_coherent bt (get_id header)) then mret tt else
      let last_round_tc_tip := last_round_tc ≫= tc_tip_id in
      s ← get_safety;
      if negb (is_safe_to_vote s proposal_round last_round_tc_tip) then mret tt else
      s ← lifto (safety_vote s proposal_round last_round_tc_tip tip);
      _ ← set_safety s;
      pm ← get_pacemaker;
      let v := mkVote (get_id header) proposal_round (pm_current_epoch pm) in
      _ ← maybe_record_vote_delay_metrics proposal_round parent_block_round;
      scheduled ← gets (λ n, scheduled_vote (consensus n));
      let send_or_schedule :=
        next ← lifto (round_add parent_block_round 1);
        if bool_decide (next ≠ proposal_round) then send_vote_and_reset_timer w v
        else modify (λ c, {| c with scheduled_vote := Some (VoteReady v) |}) in
      match scheduled with
      | Some TimerFired => send_vote_and_reset_timer w v
      | Some (VoteReady r) => if bool_decide (vote_round v ≤ vote_round r) then lifto Panic else send_or_schedule
      | None => send_or_schedule
      end
  | _, _ => mret tt
  end.

(** ** Proposing *)

(** What the leader extends: the tip or certificate, the certificate of a
    fresh proposal, and the timeout certificate of the last round. *)
Definition proposal_extend (high_certificate : RoundCertificate) (nec : option NoEndorsementCertificate)
    : HighExtend * option FreshProposalCertificate * option TimeoutCertificate :=
  match high_certificate with
  | RcTc tc =>
      match nec with
      | Some nec => (HeQc (high_extend_qc (tc_high_extend tc)), Some (Nec nec), Some tc)
      | None =>
          match tc_high_extend tc with
          | HeTip tip => (HeTip tip, None, Some tc)
          | HeQc qc => (HeQc qc, Some (NoTip (mkNoTip (tc_epoch tc) (tc_round tc) (tc_tip_rounds tc) qc)), Some tc)
          end
      end
  | RcQc qc => (HeQc qc, None, None)
  end.

(** The two branches of [try_propose]: repropose the tip, or ask for a fresh
    block on a certificate. *)
Definition propose_tip (w : Wrapper) (round : Round) (tip : ConsensusTip) (last_round_tc : option TimeoutCertificate)
    : cs unit :=
  let tip_id := get_id (tip_block_header tip) in
  _ ← update_coherency w tip_id;
  bt ← get_tree;
  let is_votable_ts := bool_decide (bh_timestamp_ns (tip_block_header tip) < get_current_time (w_block_timestamp w)) in
  s ← get_safety;
  pm ← get_pacemaker;
  if negb (is_coherent bt tip_id) || negb is_votable_ts then
    if negb (is_safe_to_recovery_request s round) then mret tt else
    s ← lifto (safety_recovery_request s round);
    _ ← set_safety s;
    tc ← lifto (expect last_round_tc);
    r ← current_round;
    emit [CcPublish (Broadcast (pm_current_epoch pm))
            (sign_message w (PmRoundRecovery (mkRoundRecoveryMessage r (pm_current_epoch pm) tc)))]
  else
    s ← lifto (safety_propose s round);
    _ ← set_safety s;
    block ← lifto (expect (get_block bt tip_id));
    r ← current_round;
    emit [CcPublish (Raptorcast (pm_current_epoch pm))
            (sign_message w (PmProposal (mkProposalMessage r (pm_current_epoch pm) tip (fb_body block) last_round_tc)))].

Definition propose_fresh (w : Wrapper) (epoch : Epoch) (round : Round) (qc : QuorumCertificate)
    (fresh : option FreshProposalCertificate) (last_round_tc : option TimeoutCertificate) : cs unit :=
  _ ← update_coherency w (qc_get_block_id qc);
  bt ← get_tree;
  if negb (is_coherent bt (qc_get_block_id qc)) then mret tt else
  let round_signature := round_signature_new round (w_cert_keypair w) in
  path ← lifto (get_blocks_on_path_from_root bt (qc_get_block_id qc));
  pending_blocktree_blocks ← lifto (expect path);
  let '(parent_seq_num, parent_ts) :=
    match last pending_blocktree_blocks with
    | Some extending_block => (fb_get_seq_num extending_block, bh_timestamp_ns (fb_header extending_block))
    | None => (ri_seq_num (root_info (bt_root bt)), ri_timestamp_ns (root_info (bt_root bt)))
    end in
  try_propose_seq_num ← lifto (seq_add parent_seq_num 1);
  let timestamp_ns := get_valid_block_timestamp (w_block_timestamp w) parent_ts in
  bp ← gets block_policy;
  match get_expected_execution_results bp (w_state_backend w) try_propose_seq_num pending_blocktree_blocks with
  | None => mret tt
  | Some delayed_execution_results =>
      s ← get_safety;
      s ← lifto (safety_propose s round);
      _ ← set_safety s;
      let cp := cfg_chain_params (w_config w) round in
      emit [CcCreateProposal (mkCreateProposal (w_nodeid w) epoch round try_propose_seq_num qc round_signature
              last_round_tc fresh (cp_tx_limit cp) (cp_proposal_gas_limit cp) (cp_proposal_byte_limit cp)
              (w_beneficiary w) timestamp_ns pending_blocktree_blocks delayed_execution_results)]
  end.

Definition try_propose (w : Wrapper) : cs unit :=
  round ← current_round;
  epoch ← epoch_of round;
  validator_set ← validators_of w epoch;
  leader ← leader_of round validator_set;
  if bool_decide (w_nodeid w ≠ leader) then mret tt else
  _ ← request_tip_if_missing;
  s ← get_safety;
  if negb (is_safe_to_propose s round) then mret tt else
  pm ← get_pacemaker;
  nes ← gets (λ n, no_endorsement_state (consensus n));
  let '(high_extend, fresh, last_round_tc) := proposal_extend (pm_high_certificate pm) (get_nec nes round) in
  match high_extend with
  | HeTip tip => propose_tip w round tip last_round_tc
  | HeQc qc => propose_fresh w epoch round qc fresh last_round_tc
  end.

(** ** Certificates and blocks *)

(** [BTreeMap::remove(..).unwrap()] for each obsolete request. *)
Fixpoint cancel_loop (to_cancel : list BlockId) : cs unit :=
  match to_cancel with
  | [] => mret tt
  | block_id :: to_cancel =>
      requests ← gets (λ n, block_sync_requests (consensus n));
      canceled_request ← lifto (expect (requests !! block_id));
      _ ← modify (λ c, {| c with block_sync_requests := delete block_id (block_sync_requests c) |});
      _ ← emit [CcCancelSync (bs_range canceled_request)];
      cancel_loop to_cancel
  end.

Definition cancel_obsolete_requests : cs unit :=
  bt ← get_tree;
  requests ← gets (λ n, block_sync_requests (consensus n));
  cancel_loop (filter (λ p, bs_cancel_round p.2 ≤ ri_round (root_info (bt_root bt))) (btree_iter requests)).*1.

(** [lookup_leader], called only for a log message, still elects a leader. *)
Definition lookup_leader (w : Wrapper) (round : Round) : cs (option NodeId) :=
  em ← get_epoch_manager;
  match get_epoch em round with
  | None => mret None
  | Some epoch =>
      match get_val_set (w_val_epoch_map w) epoch with
      | None => mret None
      | Some validator_set => leader ← leader_of round validator_set; mret (Some leader)
      end
  end.

Definition process_qc (w : Wrapper) (qc : QuorumCertificate) : cs unit :=
  r ← current_round;
  if bool_decide (vote_round (qc_info qc) < r) then mret tt else
  bt ← get_tree;
  voted_block ← lifto (get_highest_coherent_block_on_path_from_root bt (qc_get_block_id qc));
  _ ← emit (match voted_block with Some b => [CcCommitBlocks (Voted b)] | None => [] end);
  _ ← try_commit qc;
  _ ← cancel_obsolete_requests;
  _ ← maybe_statesync w;
  _ ← run_pacemaker w (λ pm em s, pacemaker_process_certificate pm em s (RcQc qc));
  _ ← update_proposed_head;
  _ ← request_blocks_if_missing_ancestor;
  round ← current_round;
  _ ← modify (λ c, {| c with
        vote_state := vote_start_new_round (vote_state c) round;
        no_endorsement_state := no_endorsement_start_new_round (no_endorsement_state c) round |});
  _ ← lookup_leader w round;
  try_propose w.

Definition process_tc (w : Wrapper) (tc : TimeoutCertificate) : cs unit :=
  r ← current_round;
  if bool_decide (tc_round tc < r) then mret tt else
  _ ← run_pacemaker w (λ pm em s, pacemaker_process_certificate pm em s (RcTc tc));
  round ← current_round;
  _ ← lookup_leader w round;
  try_propose w.

(** The vote of [try_add_and_commit_blocktree], for a proposal of the current
    round. *)
Definition vote_if_current (w : Wrapper) (block : ConsensusFullBlock) (proposal_round : Round)
    (last_round_tc : option TimeoutCertificate) (tip : ConsensusTip) : cs unit :=
  r ← current_round;
  if bool_decide (proposal_round = r) then
    _ ← lifto (rust_assert (bool_decide (get_id (tip_block_header tip) = fb_get_id block)));
    try_vote w last_round_tc tip
  else mret tt.

(** [try_add_and_commit_blocktree]. *)
Definition try_add_and_commit_blocktree (w : Wrapper) (block : ConsensusFullBlock)
    (vote : option (Round * option TimeoutCertificate * ConsensusTip)) : cs unit :=
  bt ← get_tree;
  bt ← lifto (bt_add bt block);
  _ ← set_tree bt;
  _ ← update_coherency w (fb_get_id block);
  _ ← match vote with
      | None => mret tt
      | Some (proposal_round, last_round_tc, tip) => vote_if_current w block proposal_round last_round_tc tip
      end;
  _ ← try_propose w;
  _ ← maybe_statesync w;
  request_blocks_if_missing_ancestor.

Definition validate_block (w : Wrapper) (header : ConsensusBlockHeader) (body : ConsensusBlockBody)
    : cs (option ConsensusFullBlock) :=
  bt ← get_tree;
  match get_block bt (get_id header) with
  | Some validated => mret (if bool_decide (fb_get_body_id validated ≠ body_get_id body) then None else Some validated)
  | None =>
      epoch ← epoch_of (bh_block_round header);
      validator_set ← validators_of w epoch;
      block_round_leader ← leader_of (bh_block_round header) validator_set;
      if bool_decide (bh_author header ≠ block_round_leader) then mret None else
      keys ← cert_pubkeys_of w (bh_epoch header);
      author_pubkey ← lifto (expect (keys !! bh_author header));
      mret (block_validate header body (Some author_pubkey))
  end.

(** ** Handlers *)

Definition handle_timeout_expiry (w : Wrapper) (timeout_round : Round) : cs unit :=
  r ← current_round;
  if bool_decide (timeout_round < r) then mret tt else
  run_pacemaker w (λ pm _ s, process_local_timeout pm s).

(** [handle_proposal_message] after the checks of author and round. *)
Definition accept_proposal (w : Wrapper) (p : ProposalMessage) : cs unit :=
  s ← get_safety;
  if negb (is_safe_to_handle_proposal s (pr_proposal_round p)) then mret tt else
  s ← lifto (safety_handle_proposal s (pr_proposal_round p));
  _ ← set_safety s;
  block ← validate_block w (tip_block_header (pr_tip p)) (pr_block_body p);
  match block with
  | None => mret tt
  | Some block =>
      try_add_and_commit_blocktree w block (Some (pr_proposal_round p, pr_last_round_tc p, pr_tip p))
  end.

Definition handle_proposal_message (w : Wrapper) (author : NodeId) (p : ProposalMessage) : cs unit :=
  let header := tip_block_header (pr_tip p) in
  bt ← get_tree;
  if bool_decide (pr_proposal_round p ≤ ri_round (root_info (bt_root bt))) then mret tt else
  epoch ← epoch_of (pr_proposal_round p);
  validator_set ← validators_of w epoch;
  _original_round ← current_round;
  _ ← process_qc w (bh_qc header);
  _ ← match pr_last_round_tc p with Some last_round_tc => process_tc w last_round_tc | None => mret tt end;
  pacemaker_round ← current_round;
  let proposal_round := pr_proposal_round p in
  expected_leader ← leader_of proposal_round validator_set;
  if bool_decide (pacemaker_round < proposal_round) || bool_decide (author ≠ expected_leader) then mret tt
  else accept_proposal w p.

Definition advance_round_message (w : Wrapper) (c : RoundCertificate) : Verified :=
  sign_message w (PmAdvanceRound (mkAdvanceRoundMessage c)).

Definition handle_vote_message (w : Wrapper) (author : NodeId) (vote_msg : VoteMessage) : cs unit :=
  let vote_round := vote_round (vm_vote vote_msg) in
  r ← current_round;
  if bool_decide (vote_round < r) then mret tt else
  limit ← lifto (round_add r FUTURE_VOTE_BOUND);
  if bool_decide (limit < vote_round) then mret tt else
  epoch ← epoch_of vote_round;
  validator_set ← validators_of w epoch;
  validator_mapping ← cert_pubkeys_of w epoch;
  votes ← gets (λ n, vote_state (consensus n));
  '(votes, maybe_qc) ← lifto (process_vote votes author vote_msg validator_set validator_mapping);
  _ ← modify (λ c, {| c with vote_state := votes |});
  match maybe_qc with
  | None => mret tt
  | Some qc =>
      _ ← process_qc w qc;
      _ ← try_propose w;
      vote_round_leader ← leader_of vote_round validator_set;
      if bool_decide (w_nodeid w = vote_round_leader) then
        pm ← get_pacemaker;
        emit [CcPublish (Broadcast (pm_current_epoch pm)) (advance_round_message w (RcQc qc))]
      else mret tt
  end.

Definition broadcast_advance_round_message (w : Wrapper) (c : RoundCertificate) : cs unit :=
  em ← get_epoch_manager;
  match get_epoch em (round_certificate_round c) with
  | None => _ ← current_round; mret tt
  | Some epoch => emit [CcPublish (Broadcast epoch) (advance_round_message w c)]
  end.

(** The part of [handle_timeout_message] that processes what the timeout
    carries: its certificates, and the vote inside it. *)
Definition timeout_catch_up (w : Wrapper) (author : NodeId) (timeout : Timeout) : cs unit :=
  let tminfo := to_tminfo timeout in
  _ ← process_qc w (high_extend_vote_qc (to_high_extend timeout));
  _ ← match to_high_extend timeout with
      | HevTip tip (Some vote_signature) =>
          handle_vote_message w author
            (mkVoteMessage (mkVote (get_id (tip_block_header tip)) (ti_round tminfo) (ti_epoch tminfo)) vote_signature)
      | _ => mret tt
      end;
  current ← current_round;
  match to_last_round_certificate timeout with
  | Some (RcTc tc) =>
      if bool_decide (tc_round tc = current) then
        _ ← handle_timeout_expiry w (tc_round tc);
        process_tc w tc
      else if bool_decide (current < tc_round tc) then
        _ ← broadcast_advance_round_message w (RcTc tc);
        process_tc w tc
      else mret tt
  | Some (RcQc qc) => process_qc w qc
  | None => mret tt
  end.

Definition handle_timeout_message (w : Wrapper) (author : NodeId) (timeout : Timeout) : cs unit :=
  r ← current_round;
  if bool_decide (ti_round (to_tminfo timeout) < r) then mret tt else
  epoch ← epoch_of (ti_round (to_tminfo timeout));
  validator_set ← validators_of w epoch;
  validator_mapping ← cert_pubkeys_of w epoch;
  _ ← timeout_catch_up w author timeout;
  _ ← run_pacemaker w (λ pm em s, process_remote_timeout pm em validator_set validator_mapping s author timeout);
  try_propose w.

(** [handle_round_recovery_message] for a tip that is not endorsed. *)
Definition no_endorse (w : Wrapper) (author : NodeId) (epoch : Epoch) (round : Round) (header : ConsensusBlockHeader)
    : cs unit :=
  s ← get_safety;
  if negb (is_safe_to_no_endorse s round) then mret tt else
  s ← lifto (safety_no_endorse s round (get_id header));
  _ ← set_safety s;
  emit [CcPublish (PointToPoint author)
          (sign_message w (PmNoEndorsement
             (no_endorsement_message_new (mkNoEndorsement epoch round (qc_get_round (bh_qc header)))
                (w_cert_keypair w))))].

Definition handle_round_recovery_message (w : Wrapper) (author : NodeId) (m : RoundRecoveryMessage) : cs unit :=
  epoch ← epoch_of (rr_round m);
  validator_set ← validators_of w epoch;
  _original_round ← current_round;
  _ ← process_tc w (rr_tc m);
  pacemaker_round ← current_round;
  let round := rr_round m in
  expected_leader ← leader_of pacemaker_round validator_set;
  if bool_decide (round ≠ pacemaker_round) || bool_decide (author ≠ expected_leader) then mret tt else
  match tc_high_extend (rr_tc m) with
  | HeQc _ => mret tt
  | HeTip tip =>
      let header := tip_block_header tip in
      bt ← get_tree;
      if is_coherent bt (get_id header)
         && bool_decide (bh_timestamp_ns header < get_current_time (w_block_timestamp w))
      then mret tt
      else no_endorse w author epoch round header
  end.

Definition handle_no_endorsement_message (w : Wrapper) (author : NodeId) (m : NoEndorsementMessage) : cs unit :=
  let round := ne_round (nem_msg m) in
  r ← current_round;
  if bool_decide (round < r) then mret tt else
  limit ← lifto (round_add r FUTURE_VOTE_BOUND);
  if bool_decide (limit < round) then mret tt else
  epoch ← epoch_of round;
  validator_set ← validators_of w epoch;
  validator_mapping ← cert_pubkeys_of w epoch;
  nes ← gets (λ n, no_endorsement_state (consensus n));
  '(nes, maybe_nec) ← lifto (process_no_endorsement nes author m validator_set validator_mapping);
  _ ← modify (λ c, {| c with no_endorsement_state := nes |});
  match maybe_nec with
  | None => mret tt
  | Some _ => try_propose w
  end.

Definition handle_advance_round_message (w : Wrapper) (author : NodeId) (m : AdvanceRoundMessage) : cs unit :=
  match ar_last_round_certificate m with
  | RcTc tc => process_tc w tc
  | RcQc qc =>
      r ← current_round;
      if bool_decide (vote_round (qc_info qc) < r) then mret tt else
      _ ← process_qc w qc;
      r ← current_round;
      leader ← round_leader w r;
      emit [CcPublish (PointToPoint leader) (advance_round_message w (RcQc qc))]
  end.

(** The loop of [handle_block_sync]: known or outdated blocks are skipped, an
    invalid one ends it. *)
Fixpoint sync_loop (w : Wrapper) (full_blocks : list ConsensusFullBlock) : cs unit :=
  match full_blocks with
  | [] => mret tt
  | full_block :: full_blocks =>
      bt ← get_tree;
      if negb (is_valid_to_insert bt (fb_header full_block)) then sync_loop w full_blocks else
      block ← validate_block w (fb_header full_block) (fb_body full_block);
      match block with
      | None => mret tt
      | Some block =>
          _ ← try_add_and_commit_blocktree w block None;
          sync_loop w full_blocks
      end
  end.

Definition handle_block_sync (w : Wrapper) (block_range : BlockRange) (full_blocks : list ConsensusFullBlock) : cs unit :=
  requests ← gets (λ n, block_sync_requests (consensus n));
  match requests !! br_last_block_id block_range with
  | None => mret tt
  | Some _ =>
      _ ← sync_loop w full_blocks;
      modify (λ c, {| c with block_sync_requests := delete (br_last_block_id block_range) (block_sync_requests c) |})
  end.

Definition handle_vote_timer (w : Wrapper) (vote_timer_round : Round) : cs unit :=
  scheduled ← gets (λ n, scheduled_vote (consensus n));
  match scheduled with
  | Some (VoteReady v) => send_vote_and_reset_timer w v
  | _ => modify (λ c, {| c with scheduled_vote := Some TimerFired |})
  end.

Definition checkpoint (w : Wrapper) (n : Node) : outcome Checkpoint :=
  let bt := pending_block_tree (consensus n) in
  let get_locked_epoch epoch :=
    _ ← get_val_set (w_val_epoch_map w) epoch;
    round ← epoch_starts (epoch_manager n) !! epoch;
    Some (mkLockedEpoch epoch round) in
  let base_epoch := ri_epoch (root_info (bt_root bt)) in
  base ← expect (get_locked_epoch base_epoch);
  next_epoch ← epoch_add base_epoch 1;
  Ret (mkCheckpoint (root_id bt) (pm_high_certificate (pacemaker (consensus n)))
         (base :: option_list (get_locked_epoch next_epoch))).

(** ** Sequences of events *)

(** What reaches the driver: verified messages with their author, block sync
    responses and timers. *)
Inductive node_event :=
| EvProposal (author : NodeId) (p : ProposalMessage)
| EvVoteMsg (author : NodeId) (m : VoteMessage)
| EvTimeoutMsg (author : NodeId) (t : Timeout)
| EvRoundRecovery (author : NodeId) (m : RoundRecoveryMessage)
| EvNoEndorsementMsg (author : NodeId) (m : NoEndorsementMessage)
| EvAdvanceRound (author : NodeId) (m : AdvanceRoundMessage)
| EvBlockSync (range : BlockRange) (blocks : list ConsensusFullBlock)
| EvTimeoutExpiry (round : Round)
| EvVoteTimer (round : Round).

Definition handle_event (w : Wrapper) (e : node_event) : cs unit :=
  match e with
  | EvProposal author p => handle_proposal_message w author p
  | EvVoteMsg author m => handle_vote_message w author m
  | EvTimeoutMsg author t => handle_timeout_message w author t
  | EvRoundRecovery author m => handle_round_recovery_message w author m
  | EvNoEndorsementMsg author m => handle_no_endorsement_message w author m
  | EvAdvanceRound author m => handle_advance_round_message w author m
  | EvBlockSync range blocks => handle_block_sync w range blocks
  | EvTimeoutExpiry round => handle_timeout_expiry w round
  | EvVoteTimer round => handle_vote_timer w round
  end.

(** The wrapper (clock, validator sets, state backend) may differ from event
    to event. *)
Fixpoint node_run (events : list (Wrapper * node_event)) : cs unit :=
  match events with
  | [] => mret tt
  | (w, e) :: events => _ ← handle_event w e; node_run events
  end.
End consensus_state.
