(* ===== verification/ToyNet.v ===== *)
(** * A concrete node

    Instances of every interface of the driver and a short run of one node,
    for the witnesses of the theorems about nodes: validator 1 of the four
    validators of the other concrete instances, with simple round-robin
    leaders, a block policy that checks sequence numbers and a block validator
    that accepts every block. *)
From S2P Require Import Prelude Types ChainConfig Interfaces MultiSig Certificates Concrete ValidatorSet SafetyModule VoteState NoEndorsementState Epochs Leader Pacemaker Messages Validation ValidationSpec BlockTree BlockTreeCorrect Timestamp ConsensusState.

Definition toy_policy : @BlockPolicy toy_params :=
  @Build_BlockPolicy toy_params (list N) unit
    (λ _ _ b l root, if bool_decide (fb_get_seq_num b = ri_seq_num root + N.of_nat (length l) + 1)
                     then Ok tt else Err BlockNotCoherent)
    (λ _ _ _ _, Some []) (λ l b, Ret (fb_get_seq_num b :: l)).

Definition toy_validator : @BlockValidator toy_params :=
  @Build_BlockValidator toy_params (λ h b _, Some (mkFullBlock h b)).

Module ToyNode.
Export ToyInstances.
#[export] Existing Instance toy_message_codec.
#[export] Existing Instance toy_policy.
#[export] Existing Instance toy_validator.
#[export] Instance toy_round_robin : LeaderElection := simple_round_robin.
End ToyNode.

Section toy_node.
Import ToyNode.

Definition toy_config : ConsensusConfig := mkConsensusConfig 3 100 (λ _, mkChainParams 10 1000 1000 0 400) 100 50 50 1.
Definition toy_wrapper (time : N) : Wrapper :=
  mkWrapper (tt : StateBackend) toy_vem 1 (mkBlockTimestamp time 1000 1) [] (1 : @NodeId toy_params) toy_config
    (1 : @AuthorKeyPair toy_params) (1 : @CertKeyPair toy_params).

Definition toy_node_root : RootInfo := mkRootInfo 0 0 1 7 0.
Definition toy_node : Node :=
  mkNode (ret_or (mkConsensusState (block_tree_new toy_node_root) (vote_state_new 0) (no_endorsement_state_new 0) None
                   safety_default toy_pm ∅ None None)
            (consensus_state_new toy_epochs toy_config toy_node_root (RcQc (toy_qc 7 0))))
    toy_epochs ([] : PolicyState).

Definition toy_leader (r : Round) : @NodeId toy_params := ret_or (1 : @NodeId toy_params) (get_leader r (validators toy_vs)).
Definition toy_body : ConsensusBlockBody := mkBody (0 : @ExecutionBody toy_params).
(** A block of [round] on the certificate [qc], whose sequence number and
    timestamp are its round. *)
Definition toy_chain_header (round : N) (qc : QuorumCertificate) : ConsensusBlockHeader :=
  @mkHeader toy_params round 1 qc (toy_leader round) round round
    (round_signature_new round (toy_leader round : @CertKeyPair toy_params)) [] (0 : @ProposedHeader toy_params)
    (body_get_id toy_body) 0 0 0.
Definition toy_proposal (h : ConsensusBlockHeader) : @node_event toy_params :=
  EvProposal (bh_author h)
    (mkProposalMessage (bh_block_round h) 1 (tip_new (bh_author h : @AuthorKeyPair toy_params) h None) toy_body None).

Definition toy_b1 := toy_chain_header 1 (toy_qc 7 0).
Definition toy_b2 := toy_chain_header 2 (toy_qc (get_id toy_b1) 1).
Definition toy_b3 := toy_chain_header 3 (toy_qc (get_id toy_b2) 2).

(** Three proposals with certificates of the one before; the vote timer of
    round 1 fires early, round 3 times out after its vote was scheduled. *)
Definition toy_events : list (Wrapper * node_event) :=
  [(toy_wrapper 5, toy_proposal toy_b1); (toy_wrapper 6, EvVoteTimer 1); (toy_wrapper 7, toy_proposal toy_b2);
   (toy_wrapper 8, toy_proposal toy_b3); (toy_wrapper 9, EvTimeoutExpiry 3); (toy_wrapper 9, EvVoteTimer 3)].
Definition toy_run_result : Node * list ConsensusCommand * unit := ret_or (toy_node, [], tt) (node_run toy_events toy_node).

Lemma toy_run_returns : node_run toy_events toy_node = Ret (toy_run_result.1, tt).
Proof.
  rewrite (returns_ret (toy_node, [], tt) (node_run toy_events toy_node)) by (vm_refl). unfold toy_run_result.
  by destruct (ret_or _ _) as [[? ?] []].
Qed.
End toy_node.

(** * A network of four nodes

    Validators 1 to 4, each with one unit of stake, in one epoch; the leader of
    every round is node 1, which is faulty. Blocks, certificates and messages
    of such a network, for executions. *)

Module ToyNetwork.
Export ToyInstances.
#[export] Existing Instance toy_message_codec.
#[export] Existing Instance toy_policy.
#[export] Existing Instance toy_validator.
#[export] Instance net_leader : @LeaderElection toy_params := weighted_round_robin (λ _ _, 0) 1.
End ToyNetwork.

Section network.
Import ToyNetwork.

Definition net_epochs : EpochManager := mkEpochManager 100 10 {[1 := 0]}.
Definition net_vs : @ValidatorSet toy_params :=
  @mkValidatorSet toy_params (list_to_map [(1, 1); (2, 1); (3, 1); (4, 1)]) 4.
Definition net_vem : @ValidatorsEpochMapping toy_params := mkValidatorsEpochMapping {[1 := (net_vs, toy_mapping)]}.
Definition net_qc0 : QuorumCertificate := ret_or (toy_qc 7 0) genesis_qc.
Definition net_header (round seq_num : N) (qc : QuorumCertificate) : ConsensusBlockHeader :=
  @mkHeader toy_params round 1 qc (1 : @NodeId toy_params) seq_num round
    (round_signature_new round (1 : @CertKeyPair toy_params)) [] (0 : @ProposedHeader toy_params)
    (body_get_id toy_body) 0 0 0.
Definition net_tip (h : ConsensusBlockHeader) (fresh : option FreshProposalCertificate) : ConsensusTip :=
  tip_new (1 : @AuthorKeyPair toy_params) h fresh.
Definition net_vote (h : ConsensusBlockHeader) (round : N) : Vote := mkVote (get_id h) round 1.
Definition net_qc (signers : list N) (h : ConsensusBlockHeader) (round : N) : QuorumCertificate :=
  mkQC (net_vote h round)
    (((λ k : N, toy_sign k SdVote (rlp_vote (net_vote h round))) <$> signers) : @SigCol toy_params).
(** A group of a timeout certificate: the signers of a timeout of [round]
    with these rounds. *)
Definition net_group (round : N) (g : list N * N * N) : HighTipRoundSigColTuple :=
  let '(signers, qc_round, tip_round) := g in
  mkTipRounds qc_round tip_round
    (((λ k : N, toy_sign k SdTimeout (rlp_timeout_info (mkTimeoutInfo 1 round qc_round tip_round))) <$> signers)
     : @SigCol toy_params).
Definition net_tc (round : N) (groups : list (list N * N * N)) (he : HighExtend) : TimeoutCertificate :=
  mkTC 1 round (net_group round <$> groups) he.
Definition net_no_tip (round : N) (groups : list (list N * N * N)) (qc : QuorumCertificate) : FreshProposalCertificate :=
  NoTip (mkNoTip 1 round (net_group round <$> groups) qc).

Definition message_accepted (m : ProtocolMessage) : bool :=
  let self := consensus_message_sign (mkConsensusMessage 1 m) (1 : @AuthorKeyPair toy_params) in
  match validate (L := toy_lru) net_epochs net_vem self 1 certificate_cache_default with
  | Ret (_, Ok _) => true
  | _ => false
  end.

Lemma net_leader_ret r (vs : @ValidatorSet toy_params) : vs_wf vs → is_ret (get_leader r (validators vs)).
Proof.
  intros Hwf. destruct (vs_wf_btree vs Hwf) as (_ & _ & Htot).
  destruct (weighted_leader_spec (λ _ _, 0) 1 r vs (U256_MAX - wrapping_add256 (U256_MAX - total_stake vs) 1 `mod` total_stake vs) 0)
    as (l1 & n & s & l2 & _ & Hl & _); [done| |lia|lia|lia|by exists n].
  unfold randomize_max. by rewrite bool_decide_eq_false_2 by lia.
Qed.

#[local] Existing Instance toy_lru.

Lemma net_vem_wf : epoch_mapping_wf net_vem.
Proof.
  intros e v. unfold net_vem. simpl. intros [<- <-]%lookup_singleton_Some.
  split; [by vm_compute|by vm_compute| |apply insert_non_empty].
  apply (bool_decide_unpack _). by vm_compute.
Qed.

Lemma net_env : verify_env (epoch_to_validators net_epochs net_vem).
Proof.
  destruct toy_rlp_inj as (? & ? & ?). apply epoch_to_validators_env; try done.
  - apply toy_lru_laws.
  - apply toy_sc_laws.
  - apply net_vem_wf.
  - apply net_leader_ret.
Qed.

Lemma message_accepted_valid m : message_accepted m = true → message_valid net_epochs net_vem m.
Proof.
  unfold message_accepted. set (self := consensus_message_sign _ _).
  destruct (validate_spec net_epochs net_vem certificate_cache_default self 1 net_env (cache_default_valid _ net_env))
    as (c' & r & -> & _ & Hr). destruct r as [self'|]; [|done]. intros _. by apply (Hr self').
Qed.

(** The faulty node has a quarter of the stake. *)
Lemma net_faulty_below_third : has_honest_vote net_vs [1 : @NodeId toy_params] = Ret (Ok false).
Proof. by vm_compute. Qed.


(** All rounds are of epoch 1. *)
Lemma net_one_epoch r e : get_epoch net_epochs r = Some e → e = 1.
Proof.
  unfold get_epoch. assert (btree_iter (epoch_starts net_epochs) = [(1, 0)]) as -> by vm_refl.
  simpl. case_bool_decide; simpl; congruence.
Qed.

Lemma net_stake e vs : get_val_set net_vem e = Some vs →
  vs_wf vs ∧ total_stake vs * 2 ≤ U256_MAX ∧ has_honest_vote vs [1 : @NodeId toy_params] = Ret (Ok false).
Proof.
  unfold get_val_set, net_vem. simpl. intros ([vs' m] & H & ->)%fmap_Some. pose proof (net_vem_wf _ _ H) as Hwf.
  apply lookup_singleton_Some in H as [_ [= <- <-]]. split_and!; [done|by vm_compute|apply net_faulty_below_third].
Qed.

(** The identifier of a block determines the vote of its certificate. *)
Lemma toy_hash_cons b l : toy_hash (b :: l) = 4 * toy_hash l + Byte.to_N b + 1.
Proof. done. Qed.
Lemma toy_hash_inj (l k : bytes) : Forall (λ b, Byte.to_N b < 3) l → Forall (λ b, Byte.to_N b < 3) k →
  toy_hash l = toy_hash k → l = k.
Proof.
  intros Hl. revert k. induction Hl as [|b l Hb Hl IH]; intros k Hk H; destruct Hk as [|c k Hc Hk];
    rewrite ?toy_hash_cons in H; [done|cbn in H; lia|cbn in H; lia|].
  assert (Byte.to_N b = Byte.to_N c) as Hbc by lia. f_equal.
  - apply Some_inj. by rewrite <- !Byte.of_to_N, Hbc.
  - apply IH; [done|]. lia.
Qed.

Lemma toy_enc_small n : Forall (λ b, Byte.to_N b < 3) (toy_enc n).
Proof.
  destruct n as [|p]; simpl; [by repeat constructor|]. apply Forall_app. split; [|by repeat constructor].
  induction p; simpl; repeat constructor; done.
Qed.

Lemma net_id (h h' : @ConsensusBlockHeader toy_params) : get_id h = get_id h' → qc_info (bh_qc h) = qc_info (bh_qc h').
Proof.
  intros H. apply toy_hash_inj in H; [|apply Forall_bind, Forall_true; intros; apply toy_enc_small..].
  change (toy_enc_header h = toy_enc_header h') in H. unfold toy_enc_header, toy_enc_list in H.
  rewrite <- !app_comm_cons, !bind_cons in H. do 5 apply toy_enc_inj in H as [? H].
  destruct (qc_info (bh_qc h)), (qc_info (bh_qc h')). simpl in *. congruence.
Qed.
End network.
