(* ===== verification/DriverLogic.v ===== *)
(** * Reasoning about the handlers of the driver

    [wp tot m n Q]: running [m] from the node [n] ends in a node, commands and
    result that satisfy [Q]; a panic is excluded if [tot] is true. What a
    handler does to a node and which commands it gives is described by a
    relation on nodes and commands that is closed under composition
    ([CmdPreorder]); [respects R m] says that every run of [m] is in [R], and
    the hint database [driver] proves it from the parts of [m]. *)
From S2P Require Import Prelude Types ChainConfig Interfaces MultiSig Certificates Concrete ValidatorSet SafetyModule VoteState NoEndorsementState Epochs Leader Pacemaker Messages BlockTree Timestamp ConsensusState.

Create HintDb driver.

Section logic.
Context `{P : Params} {CD : Codec} {MC : MessageCodec} {CS : CertSignature} {AS : AuthorSigning}
        {SC : SignatureCollection} {LE : LeaderElection} {BP : BlockPolicy} {BV : BlockValidator}
        {HO : HashOrder TimeoutInfo (list (NodeId * Signature))} {HB : HashOrder BlockId BlockTreeEntry}.

Definition wp {A} (tot : bool) (m : cs A) (n : Node) (Q : Node → list ConsensusCommand → A → Prop) : Prop :=
  match m n with
  | Ret (n', cmds, a) => Q n' cmds a
  | _ => tot = false
  end.

Lemma wp_mono {A} tot (m : cs A) n (Q Q' : Node → list ConsensusCommand → A → Prop) :
  wp tot m n Q → (∀ n' c a, Q n' c a → Q' n' c a) → wp tot m n Q'.
Proof. unfold wp. intros H HQ. destruct (m n) as [[[n' c] a]| |]; auto. Qed.

Lemma wp_bind {A B} tot (m : cs A) (f : A → cs B) n Q :
  wp tot m n (λ n1 c1 a, wp tot (f a) n1 (λ n2 c2 b, Q n2 (c1 ++ c2) b)) → wp tot (m ≫= f) n Q.
Proof.
  unfold wp, mbind, cs_bind. destruct (m n) as [[[n1 c1] a]| |]; [|done..].
  by destruct (f a n1) as [[[n2 c2] b]| |].
Qed.

Lemma wp_ret {A} tot (a : A) n Q : Q n [] a → wp tot (mret a) n Q.
Proof. done. Qed.
Lemma wp_gets {A} tot (f : Node → A) n Q : Q n [] (f n) → wp tot (gets f) n Q.
Proof. done. Qed.
Lemma wp_modify tot f n Q : Q {| n with consensus := f (consensus n) |} [] tt → wp tot (modify f) n Q.
Proof. done. Qed.
Lemma wp_emit tot cmds n Q : Q n cmds tt → wp tot (emit cmds) n Q.
Proof. done. Qed.
Lemma wp_lifto {A} tot (o : outcome A) n Q :
  match o with Ret a => Q n [] a | _ => tot = false end → wp tot (lifto o) n Q.
Proof. unfold wp, lifto. by destruct o. Qed.

(** A postcondition under a condition on the start. *)
Lemma wp_intro {A} (Pre : Prop) (m : cs A) n Q : (Pre → wp false m n Q) → wp false m n (λ n' c a, Pre → Q n' c a).
Proof. unfold wp. intros H. destruct (m n) as [[[n' c] a]| |]; [exact H|done..]. Qed.

(** The result of a run. *)
Lemma wp_run {A} (m : cs A) n n' cmds a Q : wp false m n Q → m n = Ret (n', cmds, a) → Q n' cmds a.
Proof. unfold wp. intros H Hm. by rewrite Hm in H. Qed.

(** ** Relations closed under composition *)

Class CmdPreorder (R : Node → Node → list ConsensusCommand → Prop) : Prop := {
  cp_refl n : R n n [];
  cp_trans n1 n2 n3 c1 c2 : R n1 n2 c1 → R n2 n3 c2 → R n1 n3 (c1 ++ c2);
}.

Definition respects (R : Node → Node → list ConsensusCommand → Prop) {A} (m : cs A) : Prop :=
  ∀ n, wp false m n (λ n' cmds _, R n n' cmds).

Section respects.
Context (R : Node → Node → list ConsensusCommand → Prop) `{HR : !CmdPreorder R}.

Lemma respects_ret {A} (a : A) : respects R (mret a).
Proof. intros n. apply cp_refl. Qed.

Lemma respects_gets {A} (f : Node → A) : respects R (gets f).
Proof. intros n. apply cp_refl. Qed.

Lemma respects_lifto {A} (o : outcome A) : respects R (lifto o).
Proof. intros n. apply wp_lifto. destruct o; [apply cp_refl|done..]. Qed.

Lemma respects_bind {A B} (m : cs A) (f : A → cs B) :
  respects R m → (∀ a, respects R (f a)) → respects R (m ≫= f).
Proof.
  intros Hm Hf n. apply wp_bind. eapply wp_mono; [apply Hm|]. intros n1 c1 a H1.
  eapply wp_mono; [apply Hf|]. intros n2 c2 b H2. exact (cp_trans n n1 n2 c1 c2 H1 H2).
Qed.

(** The value of a computation outside the driver. *)
Lemma respects_lifto_bind {A B} (o : outcome A) (f : A → cs B) :
  (∀ a, o = Ret a → respects R (f a)) → respects R (lifto o ≫= f).
Proof.
  intros H n. apply wp_bind, wp_lifto. destruct o as [a| |]; [|done..].
  eapply wp_mono; [by apply H|]. done.
Qed.

(** A computation that first reads the node. *)
Lemma respects_read {A B} (f : Node → A) (k : A → cs B) :
  (∀ n, wp false (k (f n)) n (λ n' cmds _, R n n' cmds)) → respects R (gets f ≫= k).
Proof. intros H n. apply wp_bind, wp_gets. simpl. apply H. Qed.

Lemma respects_run {A} (m : cs A) n n' cmds a : respects R m → m n = Ret (n', cmds, a) → R n n' cmds.
Proof. intros H. apply (wp_run m n n' cmds a (λ n' cmds _, R n n' cmds)), H. Qed.
End respects.

Lemma respects_weaken (R R' : Node → Node → list ConsensusCommand → Prop) {A} (m : cs A) :
  (∀ n n' c, R n n' c → R' n n' c) → respects R m → respects R' m.
Proof. intros H Hm n. eapply wp_mono; [apply Hm|]. intros n' c a. apply H. Qed.
End logic.

#[export] Hint Resolve respects_ret respects_gets respects_lifto : driver.

(** Splits a handler into its parts, down to those the database knows. *)
Ltac respects_step :=
  lazymatch goal with
  | |- respects _ (mbind _ _) => apply respects_bind; [apply _|..]
  | |- ∀ _, _ => intros ?
  | |- respects _ (if ?b then _ else _) => destruct b
  | |- respects _ (match ?x with _ => _ end) => destruct x
  | |- respects _ (let '_ := ?x in _) => destruct x
  | |- respects _ (emit (match ?x with _ => _ end)) => destruct x
  end.
Ltac driver := solve [eauto with driver typeclass_instances].
Ltac respects := repeat (first [driver | respects_step]).

(** Turns a goal about a run of [m] into one about every run of [m]. *)
Ltac wp_respects R Hm :=
  lazymatch goal with |- wp _ ?m _ _ => assert (respects R m) as Hm end.
