(* ===== verification/NodeSafety.v ===== *)
(** * What a node signs

    The handlers of the driver use the safety module correctly: every run of
    the driver is a run of the safety module (SafetyModule.v) whose events
    account for every vote, no-endorsement and proposal in the commands the
    driver gives. With the theorems of the safety module, this bounds what a
    node ever signs, whatever messages it is sent. *)
From S2P Require Import Prelude Types ChainConfig Interfaces MultiSig Certificates Concrete ValidatorSet SafetyModule VoteState NoEndorsementState Epochs Leader Pacemaker Messages BlockTree Timestamp ConsensusState ToyNet DriverLogic.

Section node_safety.
Context `{P : Params} {CD : Codec} {MC : MessageCodec} {CS : CertSignature} {AS : AuthorSigning}
        {SC : SignatureCollection} {LE : LeaderElection} {BP : BlockPolicy} {BV : BlockValidator}
        {HO : HashOrder TimeoutInfo (list (NodeId * Signature))} {HB : HashOrder BlockId BlockTreeEntry}.

(** ** The signatures in commands *)

(** The votes a message of the node itself signs. *)
Definition message_votes (m : ProtocolMessage) : list Vote :=
  match m with
  | PmVote m => [vm_vote m]
  | PmTimeout t =>
      match to_high_extend t with
      | HevTip tip (Some _) => [mkVote (get_id (tip_block_header tip)) (ti_round (to_tminfo t)) (ti_epoch (to_tminfo t))]
      | _ => []
      end
  | _ => []
  end.
Definition message_no_endorsements (m : ProtocolMessage) : list NoEndorsement :=
  match m with PmNoEndorsement m => [nem_msg m] | _ => [] end.
Definition message_proposals (m : ProtocolMessage) : list Round :=
  match m with PmProposal p => [pr_proposal_round p] | _ => [] end.

Definition message_timeouts (m : ProtocolMessage) : list TimeoutInfo :=
  match m with PmTimeout t => [to_tminfo t] | _ => [] end.

Definition in_message {A} (f : ProtocolMessage → list A) (c : ConsensusCommand) : list A :=
  match c with
  | CcPublish _ m | CcPublishToFullNodes _ _ m => f (cm_message (uv_obj (vf_message m)))
  | _ => []
  end.
Definition command_votes : ConsensusCommand → list Vote := in_message message_votes.
Definition command_no_endorsements : ConsensusCommand → list NoEndorsement := in_message message_no_endorsements.
Definition command_timeouts : ConsensusCommand → list TimeoutInfo := in_message message_timeouts.
(** A proposal is published, or its block is ordered from the transaction pool. *)
Definition command_proposals (c : ConsensusCommand) : list Round :=
  match c with CcCreateProposal p => [cr_round p] | _ => in_message message_proposals c end.

(** The round the node is in. *)
Definition round_after (c : RoundCertificate) : Round := round_certificate_round c + 1.
Definition node_round (n : Node) : Round := round_after (pm_high_certificate (pacemaker (consensus n))).
Definition vote_scheduled (n : Node) (v : Vote) : Prop := scheduled_vote (consensus n) = Some (VoteReady v).

(** ** Runs of the safety module between two rounds *)

Record safety_trace (lo hi : Round) (s s' : Safety) (ops : list safety_op) (evs : list safety_event) : Prop := {
  st_run : safety_run s ops = Ret (s', evs);
  st_le : lo ≤ hi;
  st_sorted : StronglySorted N.le (omap op_round ops);
  st_range : Forall (λ r, lo ≤ r ≤ hi) (omap op_round ops);
}.

Lemma safety_run_app s ops1 s1 evs1 ops2 s2 evs2 : safety_run s ops1 = Ret (s1, evs1) →
  safety_run s1 ops2 = Ret (s2, evs2) → safety_run s (ops1 ++ ops2) = Ret (s2, evs1 ++ evs2).
Proof.
  revert s evs1. induction ops1 as [|op ops1 IH]; intros s evs1.
  - by intros [= -> <-].
  - intros (s' & ev & evs & He & Hr & ->)%safety_run_cons H2. cbn [app safety_run]. rewrite He.
    cbn [mbind outcome_bind]. rewrite (IH _ _ Hr H2). cbn [mbind outcome_bind]. by rewrite (assoc_L (++)).
Qed.

Lemma safety_trace_nil lo s : safety_trace lo lo s s [] [].
Proof. split; [done|done|constructor..]. Qed.

Lemma safety_trace_app lo mid hi s s1 s2 ops1 evs1 ops2 evs2 :
  safety_trace lo mid s s1 ops1 evs1 → safety_trace mid hi s1 s2 ops2 evs2 →
  safety_trace lo hi s s2 (ops1 ++ ops2) (evs1 ++ evs2).
Proof.
  intros [H1 L1 S1 R1] [H2 L2 S2 R2]. split.
  - by eapply safety_run_app.
  - lia.
  - rewrite omap_app. apply StronglySorted_app. split_and!; [|done..].
    intros x y Hx Hy. rewrite Forall_forall in R1, R2. specialize (R1 x Hx). specialize (R2 y Hy). lia.
  - rewrite omap_app. apply Forall_app. split; eapply Forall_impl; [exact R1| |exact R2|]; simpl; lia.
Qed.

Lemma safety_trace_op r s s' op evs : safety_exec s op = Ret (s', evs) →
  (∀ r', op_round op = Some r' → r' = r) → safety_trace r r s s' [op] evs.
Proof.
  intros He Hr. split; [|done|..].
  - cbn [safety_run]. rewrite He. cbn. by rewrite app_nil_r.
  - simpl. destruct (op_round op); repeat constructor.
  - simpl. destruct (op_round op) as [r'|]; [|constructor]. rewrite (Hr r' eq_refl). repeat constructor; lia.
Qed.

(** A certificate may move the round forward. *)
Lemma safety_trace_certificate lo hi s c : lo ≤ hi →
  safety_trace lo hi s (safety_process_certificate s c) [OpCertificate c] [].
Proof. intros H. split; [done|done|constructor..]. Qed.

(** ** The pacemaker *)

Definition pacemaker_command_votes (c : PacemakerCommand) : list (Round * BlockId) :=
  match c with
  | PrepareTimeout ti (HeTip tip) true _ => [(ti_round ti, get_id (tip_block_header tip))]
  | _ => []
  end.

Definition pacemaker_traced (pm pm' : Pacemaker) (s s' : Safety) (cmds : list PacemakerCommand) : Prop :=
  ∃ ops evs, safety_trace (round_after (pm_high_certificate pm)) (round_after (pm_high_certificate pm')) s s' ops evs ∧
    omap event_propose evs = [] ∧ omap event_no_endorse evs = [] ∧
    ∀ v, v ∈ cmds ≫= pacemaker_command_votes → v ∈ omap event_vote evs.

Lemma pacemaker_traced_nil pm pm' s : pm_high_certificate pm' = pm_high_certificate pm →
  pacemaker_traced pm pm' s s [].
Proof. intros H. exists [], []. rewrite H. split_and!; [apply safety_trace_nil|done|done|set_solver]. Qed.

Lemma pacemaker_traced_app pm pm1 pm2 s s1 s2 c1 c2 :
  pacemaker_traced pm pm1 s s1 c1 → pacemaker_traced pm1 pm2 s1 s2 c2 → pacemaker_traced pm pm2 s s2 (c1 ++ c2).
Proof.
  intros (o1 & e1 & H1 & P1 & N1 & V1) (o2 & e2 & H2 & P2 & N2 & V2). exists (o1 ++ o2), (e1 ++ e2).
  split_and!; [by eapply safety_trace_app|by rewrite omap_app, P1, P2|by rewrite omap_app, N1, N2|].
  intros v. rewrite bind_app, omap_app, !elem_of_app. naive_solver.
Qed.

Lemma get_current_round_inv pm r : get_current_round pm = Ret r → r = round_after (pm_high_certificate pm).
Proof. by intros [-> _]%round_add_ret. Qed.

Lemma process_certificate_traced pm em s c pm' s' cmds :
  pacemaker_process_certificate pm em s c = Ret (pm', s', cmds) → pacemaker_traced pm pm' s s' cmds.
Proof.
  unfold pacemaker_process_certificate. case_bool_decide as Hle.
  { intros [= <- <- <-]. by apply pacemaker_traced_nil. }
  intros H. monad_inv H. simplify_eq. exists [OpCertificate c], []. split_and!; [|done|done|].
  - apply safety_trace_certificate. unfold round_after. simpl. lia.
  - simpl. intros x. by rewrite elem_of_nil.
Qed.

Lemma local_timeout_traced pm pm' s s' cmds : pm_high_certificate pm' = pm_high_certificate pm →
  local_timeout_round pm s = Ret (s', cmds) → pacemaker_traced pm pm' s s' cmds.
Proof.
  intros Hpm H. unfold local_timeout_round in H. monad_inv H.
  destruct v0 as [s1 safe]. apply get_current_round_inv in Hv. subst v.
  set (r := round_after (pm_high_certificate pm)) in *. simpl in H.
  assert (∃ evs, safety_exec s (OpTimeout r) = Ret (s1, evs) ∧ omap event_propose evs = [] ∧ omap event_no_endorse evs = [] ∧
    ∀ tip, maybe_high_tip s1 = Some tip → safe = true → (r, get_id (tip_block_header tip)) ∈ omap event_vote evs)
    as (evs & He & Hp & Hne & Hvote).
  { cbn [safety_exec]. rewrite Hv0. eexists. split; [reflexivity|]. do 2 (split; [by repeat case_match|]).
    intros tip -> ->. simpl. left. }
  assert (s' = s1) as -> by (destruct (maybe_high_tip s1); simpl in H; monad_inv H; by simplify_eq).
  exists [OpTimeout r], evs. split_and!; [|done|done|].
  - rewrite Hpm. apply safety_trace_op; [done|]. by intros r' [= <-].
  - intros x. destruct (maybe_high_tip s1) as [tip|] eqn:Htip; simpl in H; monad_inv H; simplify_eq; simpl;
      [destruct safe; simpl|]; rewrite ?elem_of_nil; try done.
    rewrite list_elem_of_singleton. intros ->. by apply Hvote.
Qed.

Lemma maybe_local_timeout_traced pm vs s ids pm' s' cmds :
  maybe_local_timeout pm vs s ids = Ret (pm', s', cmds) → pacemaker_traced pm pm' s s' cmds.
Proof.
  unfold maybe_local_timeout. case_bool_decide as Hph; [|intros [= <- <- <-]; by apply pacemaker_traced_nil].
  intros H. monad_inv H. destruct v as [[]|]; [|simplify_eq; by apply pacemaker_traced_nil|done].
  monad_inv H. destruct v as [s1 c1]. simplify_eq. by eapply local_timeout_traced.
Qed.

Lemma handle_invalid_timeout_certificate l pm : pm_high_certificate (handle_invalid_timeout pm l) = pm_high_certificate pm.
Proof. revert pm. induction l as [|[id sig] l IH]; intros pm; [done|]. simpl. by rewrite IH. Qed.

Lemma timeout_loop_traced fuel em vs m e r pm s ids pm' s' cmds :
  timeout_certificate_loop fuel em vs m e r pm s ids = Ret (pm', s', cmds) → pacemaker_traced pm pm' s s' cmds.
Proof.
  revert pm s ids cmds. induction fuel as [|fuel IH]; intros pm s ids cmds; [done|]. cbn [timeout_certificate_loop].
  case_bool_decide as Hph; [|intros [= <- <- <-]; by apply pacemaker_traced_nil].
  intros H. monad_inv H. destruct v as [[]|]; [|simplify_eq; by apply pacemaker_traced_nil|done].
  monad_inv H. destruct v as [tc|[]]; try done.
  - monad_inv H. destruct v as [[pm1 s1] c1]. monad_inv H. destruct v0 as [[pm2 s2] c2]. simplify_eq.
    eapply pacemaker_traced_app; [by eapply process_certificate_traced|by eapply IH].
  - apply IH in H. destruct H as (ops & evs & H & ?). exists ops, evs.
    by rewrite handle_invalid_timeout_certificate in H.
Qed.

Lemma process_remote_timeout_traced pm em vs m s author t pm' s' cmds :
  process_remote_timeout pm em vs m s author t = Ret (pm', s', cmds) → pacemaker_traced pm pm' s s' cmds.
Proof.
  unfold process_remote_timeout. intros H. monad_inv H.
  case_bool_decide; [simplify_eq; by apply pacemaker_traced_nil|]. monad_inv H.
  case_bool_decide; [simplify_eq; by apply pacemaker_traced_nil|]. monad_inv H.
  destruct v1 as [[pm1 s1] c1]. monad_inv H. destruct v1 as [[pm2 s2] c2]. simplify_eq.
  apply (pacemaker_traced_app _ pm1 _ _ s1); [|by eapply timeout_loop_traced].
  by apply maybe_local_timeout_traced in Hv1.
Qed.

Lemma process_local_timeout_traced pm s pm' s' cmds :
  process_local_timeout pm s = Ret (pm', s', cmds) → pacemaker_traced pm pm' s s' cmds.
Proof.
  unfold process_local_timeout. intros H. monad_inv H. destruct v as [s1 c1]. simplify_eq.
  by apply (local_timeout_traced _ {| pm with pm_phase := PhOne |}) in Hv.
Qed.

(** The votes in the driver's commands are those of the pacemaker's. *)
Lemma from_pacemaker_votes key ckey ver c v : v ∈ from_pacemaker_command key ckey ver c ≫= command_votes →
  (vote_round v, vote_id v) ∈ pacemaker_command_votes c.
Proof.
  destruct c as [| ti [tip|qc] safe last| |]; simpl; rewrite ?elem_of_nil; try done.
  destruct safe; simpl; rewrite ?elem_of_nil; [|done]. by intros ->%list_elem_of_singleton; left.
Qed.

Lemma from_pacemaker_rest key ckey ver c :
  from_pacemaker_command key ckey ver c ≫= command_no_endorsements = [] ∧
  from_pacemaker_command key ckey ver c ≫= command_proposals = [].
Proof. by destruct c as [| ti [tip|qc] safe last| |]. Qed.

(** ** Parts of the handlers that sign nothing, except perhaps [vs] *)

Record quiet_but (vs : list Vote) (n n' : Node) (cmds : list ConsensusCommand) : Prop := {
  qb_pacemaker : pacemaker (consensus n') = pacemaker (consensus n);
  qb_safety : safety (consensus n') = safety (consensus n);
  qb_votes : ∀ v, v ∈ cmds ≫= command_votes → v ∈ vs;
  qb_scheduled : ∀ v, vote_scheduled n' v → v ∈ vs ∨ vote_scheduled n v;
  qb_no_endorsements : cmds ≫= command_no_endorsements = [];
  qb_proposals : cmds ≫= command_proposals = [];
  qb_timeouts : cmds ≫= command_timeouts = [];
}.

#[global] Instance quiet_but_preorder vs : CmdPreorder (quiet_but vs).
Proof.
  split.
  - intros n. split; try done; [intros v ?%elem_of_nil; done|by right].
  - intros n1 n2 n3 c1 c2 [] []. split; rewrite ?bind_app; try congruence.
    + intros v. rewrite elem_of_app. naive_solver.
    + naive_solver.
    + by rewrite qb_no_endorsements0, qb_no_endorsements1.
    + by rewrite qb_proposals0, qb_proposals1.
    + by rewrite qb_timeouts0, qb_timeouts1.
Qed.

Notation quiet := (quiet_but []).

Lemma quiet_emit vs cmds : (∀ v, v ∈ cmds ≫= command_votes → v ∈ vs) →
  cmds ≫= command_no_endorsements = [] → cmds ≫= command_proposals = [] → cmds ≫= command_timeouts = [] →
  respects (quiet_but vs) (emit cmds).
Proof. intros H1 H2 H3 H4 n. apply wp_emit. split; try done. by right. Qed.

Lemma quiet_modify vs f : (∀ c, pacemaker (f c) = pacemaker c) → (∀ c, safety (f c) = safety c) →
  (∀ c v, scheduled_vote (f c) = Some (VoteReady v) → v ∈ vs ∨ scheduled_vote c = Some (VoteReady v)) →
  respects (quiet_but vs) (modify f).
Proof.
  intros H1 H2 H3 n. apply wp_modify. split; simpl; try done; [intros v ?%elem_of_nil; done|].
  intros v. apply H3.
Qed.

Lemma quiet_put_epoch_manager vs em : respects (quiet_but vs) (put_epoch_manager em).
Proof. intros n. split; try done; [intros v ?%elem_of_nil; done|by right]. Qed.
Lemma quiet_put_block_policy vs bp : respects (quiet_but vs) (put_block_policy bp).
Proof. intros n. split; try done; [intros v ?%elem_of_nil; done|by right]. Qed.
End node_safety.

Notation quiet := (quiet_but []).

#[export] Hint Resolve quiet_put_epoch_manager quiet_put_block_policy quiet_but_preorder : driver.
#[export] Hint Extern 1 (respects (quiet_but _) (modify _)) =>
  apply quiet_modify; intros; first [reflexivity | discriminate | right; assumption] : driver.
#[export] Hint Extern 1 (respects (quiet_but _) (set_tree _)) =>
  apply quiet_modify; intros; first [reflexivity | discriminate | right; assumption] : driver.
#[export] Hint Extern 1 (respects (quiet_but _) (emit _)) =>
  apply quiet_emit; [by intros ? ?%elem_of_nil|done|done|done] : driver.

Section quiet_parts.
Context `{P : Params} {CD : Codec} {MC : MessageCodec} {CS : CertSignature} {AS : AuthorSigning}
        {SC : SignatureCollection} {LE : LeaderElection} {BP : BlockPolicy} {BV : BlockValidator}
        {HO : HashOrder TimeoutInfo (list (NodeId * Signature))} {HB : HashOrder BlockId BlockTreeEntry}.
Implicit Types (w : Wrapper).

Lemma quiet_current_round vs : respects (quiet_but vs) current_round.
Proof. unfold current_round. respects. Qed.
Lemma quiet_epoch_of vs r : respects (quiet_but vs) (epoch_of r).
Proof. unfold epoch_of. respects. Qed.
Lemma quiet_round_leader vs w r : respects (quiet_but vs) (round_leader w r).
Proof. unfold round_leader, validators_of, leader_of. pose proof quiet_epoch_of. respects. Qed.
Lemma quiet_request_sync vs range r : respects (quiet_but vs) (request_sync range r).
Proof. unfold request_sync. respects. Qed.
Lemma quiet_request_blocks vs : respects (quiet_but vs) request_blocks_if_missing_ancestor.
Proof. unfold request_blocks_if_missing_ancestor. pose proof quiet_request_sync. respects. Qed.
Lemma quiet_request_tip vs : respects (quiet_but vs) request_tip_if_missing.
Proof. unfold request_tip_if_missing. pose proof quiet_request_sync. respects. Qed.
Lemma quiet_commit_loop vs l : respects (quiet_but vs) (commit_loop l).
Proof. induction l as [|b l IH]; cbn [commit_loop]; respects. Qed.
Lemma quiet_try_commit vs qc : respects (quiet_but vs) (try_commit qc).
Proof. unfold try_commit. pose proof quiet_commit_loop. respects. Qed.
Lemma quiet_update_proposed_head vs : respects (quiet_but vs) update_proposed_head.
Proof. unfold update_proposed_head. respects. Qed.

Lemma bind_commit_blocks {A} (f : ConsensusCommand → list A) (g : ConsensusFullBlock → ConsensusCommand) l :
  (∀ b, f (g b) = []) → (g <$> l) ≫= f = [].
Proof. intros H. induction l as [|b l IH]; [done|]. by rewrite fmap_cons, bind_cons, H. Qed.

Lemma quiet_emit_commits vs (c : ConsensusFullBlock → OptimisticPolicyCommit) l :
  respects (quiet_but vs) (emit ((λ b, CcCommitBlocks (c b)) <$> l)).
Proof.
  apply quiet_emit; [intros v; rewrite (bind_commit_blocks command_votes)|rewrite bind_commit_blocks..]; try done.
  by intros ?%elem_of_nil.
Qed.

Lemma quiet_update_coherency vs w id : respects (quiet_but vs) (update_coherency w id).
Proof.
  unfold update_coherency. pose proof quiet_try_commit. pose proof quiet_update_proposed_head.
  respects. apply (quiet_emit_commits _ (λ b, Proposed b false)).
Qed.
Lemma quiet_maybe_statesync vs w : respects (quiet_but vs) (maybe_statesync w).
Proof. unfold maybe_statesync. respects. Qed.
Lemma quiet_cancel_loop vs l : respects (quiet_but vs) (cancel_loop l).
Proof. induction l as [|b l IH]; cbn [cancel_loop]; respects. Qed.
Lemma quiet_cancel vs : respects (quiet_but vs) cancel_obsolete_requests.
Proof. unfold cancel_obsolete_requests. pose proof quiet_cancel_loop. respects. Qed.
Lemma quiet_lookup_leader vs w r : respects (quiet_but vs) (lookup_leader w r).
Proof. unfold lookup_leader, leader_of. respects. Qed.
Lemma quiet_validate_block vs w h b : respects (quiet_but vs) (validate_block w h b).
Proof. unfold validate_block, validators_of, leader_of, cert_pubkeys_of. pose proof quiet_epoch_of. respects. Qed.
Lemma quiet_broadcast_advance_round vs w c : respects (quiet_but vs) (broadcast_advance_round_message w c).
Proof. unfold broadcast_advance_round_message. pose proof quiet_current_round. respects. Qed.
Lemma quiet_record_metrics vs r r' : respects (quiet_but vs) (maybe_record_vote_delay_metrics r r').
Proof. unfold maybe_record_vote_delay_metrics. respects. Qed.

(** Sending a vote signs that vote, and none stays scheduled. *)
Lemma send_vote_signs w v : respects (quiet_but [v]) (send_vote_and_reset_timer w v).
Proof.
  unfold send_vote_and_reset_timer. pose proof quiet_round_leader. respects;
    (apply quiet_emit; [|done|done|done]); by intros v' [->|?%elem_of_nil]%elem_of_cons; [left|].
Qed.
End quiet_parts.

#[export] Hint Resolve quiet_current_round quiet_epoch_of quiet_round_leader quiet_request_blocks quiet_request_tip
  quiet_commit_loop quiet_try_commit quiet_update_proposed_head quiet_update_coherency quiet_maybe_statesync
  quiet_cancel quiet_lookup_leader quiet_validate_block quiet_broadcast_advance_round quiet_record_metrics
  send_vote_signs : driver.

Section node_traced.
Context `{P : Params} {CD : Codec} {MC : MessageCodec} {CS : CertSignature} {AS : AuthorSigning}
        {SC : SignatureCollection} {LE : LeaderElection} {BP : BlockPolicy} {BV : BlockValidator}
        {HO : HashOrder TimeoutInfo (list (NodeId * Signature))} {HB : HashOrder BlockId BlockTreeEntry}.
Implicit Types (w : Wrapper) (n : Node).

(** The step from [n] to [n'] with [cmds] is a run of the safety module; the
    votes it signs or schedules are votes of that run or were scheduled
    before, its no-endorsements and its proposals are those of the run. *)
Definition node_traced (n n' : Node) (cmds : list ConsensusCommand) : Prop :=
  ∃ ops evs,
    safety_trace (node_round n) (node_round n') (safety (consensus n)) (safety (consensus n')) ops evs ∧
    (∀ v, v ∈ cmds ≫= command_votes ∨ vote_scheduled n' v →
       (vote_round v, vote_id v) ∈ omap event_vote evs ∨ vote_scheduled n v) ∧
    (∀ ne, ne ∈ cmds ≫= command_no_endorsements →
       ∃ h, EvNoEndorse (ne_round ne) (get_id h) ∈ evs ∧ ne_tip_qc_round ne = qc_get_round (bh_qc h)) ∧
    cmds ≫= command_proposals = omap event_propose evs ∧
    ne_round <$> (cmds ≫= command_no_endorsements) = omap event_no_endorse evs.

#[global] Instance node_traced_preorder : CmdPreorder node_traced.
Proof.
  split.
  - intros n. exists [], []. split_and!; [apply safety_trace_nil| | |done|done].
    + intros v [?%elem_of_nil|?]; [done|by right].
    + by intros ne ?%elem_of_nil.
  - intros n1 n2 n3 c1 c2 (o1 & e1 & T1 & V1 & N1 & P1 & M1) (o2 & e2 & T2 & V2 & N2 & P2 & M2).
    exists (o1 ++ o2), (e1 ++ e2). rewrite !bind_app, !omap_app, fmap_app.
    split_and!; [by eapply safety_trace_app| | |by rewrite P1, P2|by rewrite M1, M2].
    + intros v. rewrite !elem_of_app. specialize (V1 v). specialize (V2 v). naive_solver.
    + intros ne. rewrite elem_of_app. intros [(h & ? & ?)%N1|(h & ? & ?)%N2]; exists h; set_solver.
Qed.

(** One operation of the safety module in the current round. *)
Lemma node_traced_op n n' cmds op evs : safety_exec (safety (consensus n)) op = Ret (safety (consensus n'), evs) →
  (∀ r, op_round op = Some r → r = node_round n) → pacemaker (consensus n') = pacemaker (consensus n) →
  (∀ v, v ∈ cmds ≫= command_votes ∨ vote_scheduled n' v →
     (vote_round v, vote_id v) ∈ omap event_vote evs ∨ vote_scheduled n v) →
  (∀ ne, ne ∈ cmds ≫= command_no_endorsements →
     ∃ h, EvNoEndorse (ne_round ne) (get_id h) ∈ evs ∧ ne_tip_qc_round ne = qc_get_round (bh_qc h)) →
  cmds ≫= command_proposals = omap event_propose evs →
  ne_round <$> (cmds ≫= command_no_endorsements) = omap event_no_endorse evs → node_traced n n' cmds.
Proof.
  intros He Hr Hpm HV HN HP HM. exists [op], evs. split_and!; [|done..].
  unfold node_round in *. rewrite Hpm. by apply safety_trace_op.
Qed.

Lemma quiet_traced n n' cmds : quiet n n' cmds → node_traced n n' cmds.
Proof.
  intros [Hpm Hs Hv Hsch Hne Hp _]. exists [], []. unfold node_round. rewrite Hpm, Hs, Hne, Hp.
  split_and!; [apply safety_trace_nil| | |done|done].
  - intros v [?%Hv%elem_of_nil|[?%elem_of_nil|?]%Hsch]; try done. by right.
  - by intros ne ?%elem_of_nil.
Qed.

Lemma traced_quiet {A} (m : cs A) : respects quiet m → respects node_traced m.
Proof. apply respects_weaken, quiet_traced. Qed.

Lemma wp_current_round n Q : Q n [] (node_round n) → wp false current_round n Q.
Proof.
  intros HQ. apply wp_bind, wp_gets, wp_lifto. destruct (get_current_round _) eqn:H; [|done..].
  apply get_current_round_inv in H. by subst.
Qed.

Lemma traced_run_pacemaker w op :
  (∀ pm em s pm' s' c, op pm em s = Ret (pm', s', c) → pacemaker_traced pm pm' s s' c) →
  respects node_traced (run_pacemaker w op).
Proof.
  intros Hop n. unfold run_pacemaker. do 3 apply wp_bind, wp_gets. apply wp_bind, wp_lifto.
  destruct (op _ _ _) as [[[pm s] c]| |] eqn:H; [|done..]. apply Hop in H as (ops & evs & Htr & Hp & Hm & Hv).
  apply wp_bind, wp_modify, wp_emit. simpl. exists ops, evs.
  assert ((c ≫= from_pacemaker_command (w_keypair w) (w_cert_keypair w) (w_version w))
            ≫= command_no_endorsements = []) as Hne.
  { rewrite list_bind_bind. clear. induction c as [|x c IH]; [done|]. rewrite bind_cons, IH.
    by rewrite (proj1 (from_pacemaker_rest _ _ _ x)). }
  split_and!; [done| | | |by rewrite Hne, Hm].
  - intros v [Hin|Hs]; [left|by right]. apply Hv. rewrite list_bind_bind in Hin.
    apply list_elem_of_bind in Hin as (x & Hin & Hx). apply list_elem_of_bind. exists x. split; [|done].
    by apply from_pacemaker_votes in Hin.
  - rewrite Hne. by intros ne ?%elem_of_nil.
  - rewrite list_bind_bind, Hp. clear. induction c as [|x c IH]; [done|]. rewrite bind_cons, IH.
    by rewrite (proj2 (from_pacemaker_rest _ _ _ x)).
Qed.

(** A computation run after a first one. *)
Lemma wp_after {A B} (R : Node → Node → list ConsensusCommand → Prop) (m : cs A) (f : A → cs B) n
    (Q : Node → list ConsensusCommand → B → Prop) :
  respects R m → (∀ n1 c1 a, R n n1 c1 → wp false (f a) n1 (λ n2 c2 b, Q n2 (c1 ++ c2) b)) →
  wp false (m ≫= f) n Q.
Proof. intros Hm Hf. apply wp_bind. eapply wp_mono; [apply Hm|]. intros n1 c1 a. apply Hf. Qed.

Lemma traced_then {A} n n1 c1 (m : cs A) : node_traced n n1 c1 → wp false m n1 (λ n2 c2 _, node_traced n1 n2 c2) →
  wp false m n1 (λ n2 c2 _, node_traced n n2 (c1 ++ c2)).
Proof. intros H1 Hm. eapply wp_mono; [exact Hm|]. intros n2 c2 a H2. exact (cp_trans n n1 n2 c1 c2 H1 H2). Qed.

Lemma traced_refl n : node_traced n n [].
Proof. exact (cp_refl n). Qed.

Definition with_safety (n : Node) (s : Safety) : Node :=
  let c := consensus n in {| n with consensus := {| c with safety := s |} |}.

(** After the vote was registered, sending or scheduling it. *)
Lemma traced_vote n s' r last tip n' cmds v : r = node_round n →
  safety_vote (safety (consensus n)) r last tip = Ret s' → v = mkVote (get_id (tip_block_header tip)) r (vote_epoch v) →
  quiet_but [v] (with_safety n s') n' cmds → node_traced n n' cmds.
Proof.
  intros Hr Hs Hv [Qpm Qs Qv Qsch Qne Qp _]. simpl in *.
  apply (node_traced_op n n' cmds (OpVote r last tip) [EvVote r last (get_id (tip_block_header tip))]).
  - cbn [safety_exec]. by rewrite Hs, Qs.
  - intros r' [= <-]. done.
  - done.
  - assert (∀ v', v' ∈ [v] → (vote_round v', vote_id v') ∈ omap event_vote [EvVote r last (get_id (tip_block_header tip))]).
    { intros v' ->%list_elem_of_singleton. rewrite Hv. left. }
    intros v' [?%Qv|[?|?]%Qsch]; [left; auto..|by right].
  - rewrite Qne. by intros ne ?%elem_of_nil.
  - by rewrite Qp.
  - by rewrite Qne.
Qed.

(** [try_vote] does nothing, or registers the vote and sends or schedules it. *)
Lemma try_vote_cases w tc tip n : let last := tc ≫= tc_tip_id in let s := safety (consensus n) in
  wp false (try_vote w tc tip) n (λ n' cmds _, n' = n ∧ cmds = [] ∨
    ∃ s', is_ret (get_current_round (pacemaker (consensus n))) ∧ is_safe_to_vote s (node_round n) last = true ∧
      safety_vote s (node_round n) last tip = Ret s' ∧
      quiet_but [mkVote (get_id (tip_block_header tip)) (node_round n) (pm_current_epoch (pacemaker (consensus n)))]
        (with_safety n s') n' cmds).
Proof.
  intros last s. unfold try_vote. apply wp_bind. unfold current_round. apply wp_bind, wp_gets, wp_lifto.
  destruct (get_current_round _) as [r| |] eqn:Hcur; [|done..]. apply get_current_round_inv in Hcur as Hr.
  change (r = node_round n) in Hr. simpl. apply wp_bind, wp_gets. simpl.
  destruct (get_timestamp_of_qc _ _) as [ts|]; [|by left].
  destruct (get_block_round_of_qc _ _) as [pr|]; [|by left].
  case_bool_decide; [by left|]. destruct (negb _); [by left|].
  apply wp_bind, wp_gets. simpl. fold last s. subst r. destruct (is_safe_to_vote _ _ _) eqn:Hsafe; [|by left]. simpl.
  apply wp_bind, wp_lifto. destruct (safety_vote _ _ _ _) as [s'| |] eqn:Hs; [|done..].
  apply wp_bind, wp_modify, wp_bind, wp_gets. simpl.
  set (v := mkVote _ _ _). set (n1 := mkNode _ _ _).
  apply (wp_mono _ _ _ (λ n' cmds _, quiet_but [v] n1 n' cmds)).
  2:{ intros n' c _ Hq. right. exists s'. split_and!; [by eexists|done|done|exact Hq]. }
  enough (respects (quiet_but [v]) (maybe_record_vote_delay_metrics (node_round n) pr ≫= λ _,
    scheduled ← gets (λ n, scheduled_vote (consensus n));
    match scheduled with
    | Some TimerFired => send_vote_and_reset_timer w v
    | Some (VoteReady r) =>
        if bool_decide (vote_round v ≤ vote_round r) then lifto Panic else
        next ← lifto (round_add pr 1);
        if bool_decide (next ≠ node_round n) then send_vote_and_reset_timer w v
        else modify (λ c, {| c with scheduled_vote := Some (VoteReady v) |})
    | None =>
        next ← lifto (round_add pr 1);
        if bool_decide (next ≠ node_round n) then send_vote_and_reset_timer w v
        else modify (λ c, {| c with scheduled_vote := Some (VoteReady v) |})
    end)) as Hq by apply Hq.
  respects; (apply quiet_modify; [done..|]); intros c v'; simpl; intros [= <-]; left; left.
Qed.

Lemma traced_try_vote w tc tip : respects node_traced (try_vote w tc tip).
Proof.
  intros n. eapply wp_mono; [apply try_vote_cases|]. intros n' c _ [[-> ->]|(s' & _ & _ & Hs & Hq)]; [apply traced_refl|].
  by eapply (traced_vote n s' (node_round n) _ tip); [|exact Hs| |exact Hq].
Qed.

(** Proposing: the commands carry the round that was registered. *)
Lemma traced_proposal n s' r n' cmds : safety_propose (safety (consensus n)) r = Ret s' →
  pacemaker (consensus n') = pacemaker (consensus n) → safety (consensus n') = s' →
  scheduled_vote (consensus n') = scheduled_vote (consensus n) →
  cmds ≫= command_votes = [] → cmds ≫= command_no_endorsements = [] → cmds ≫= command_proposals = [r] →
  node_traced n n' cmds.
Proof.
  intros Hs Hpm Hs' Hsch Hv Hne Hp. apply (node_traced_op n n' cmds (OpPropose r) [EvPropose r]); try done.
  - cbn [safety_exec]. by rewrite Hs, Hs'.
  - rewrite Hv. intros v [?%elem_of_nil|Hsv]; [done|right]. unfold vote_scheduled in *. congruence.
  - rewrite Hne. by intros ne ?%elem_of_nil.
  - by rewrite Hne.
Qed.

Lemma traced_recovery n s' r n' cmds : safety_recovery_request (safety (consensus n)) r = Ret s' →
  pacemaker (consensus n') = pacemaker (consensus n) → safety (consensus n') = s' →
  scheduled_vote (consensus n') = scheduled_vote (consensus n) →
  cmds ≫= command_votes = [] → cmds ≫= command_no_endorsements = [] → cmds ≫= command_proposals = [] →
  node_traced n n' cmds.
Proof.
  intros Hs Hpm Hs' Hsch Hv Hne Hp. apply (node_traced_op n n' cmds (OpRecoveryRequest r) [EvRecoveryRequest r]); try done.
  - cbn [safety_exec]. by rewrite Hs, Hs'.
  - rewrite Hv. intros v [?%elem_of_nil|Hsv]; [done|right]. unfold vote_scheduled in *. congruence.
  - rewrite Hne. by intros ne ?%elem_of_nil.
  - by rewrite Hne.
Qed.

Lemma traced_propose_tip w r tip tc n : r = node_round n →
  wp false (propose_tip w r tip tc) n (λ n' cmds _, node_traced n n' cmds).
Proof.
  intros Hr. unfold propose_tip. apply (wp_after quiet); [auto with driver|]. intros n1 c1 _ Hq.
  assert (node_round n1 = r) as Hr1 by (unfold node_round; by rewrite (qb_pacemaker _ _ _ _ Hq)).
  apply traced_then; [by apply quiet_traced|]. do 3 apply wp_bind, wp_gets. simpl.
  destruct (_ || _).
  - destruct (negb _); [apply traced_refl|]. apply wp_bind, wp_lifto.
    destruct (safety_recovery_request _ _) as [s'| |] eqn:Hs; [|done..]. apply wp_bind, wp_modify, wp_bind, wp_lifto.
    destruct tc as [tc|]; [|done]. simpl. apply wp_bind, wp_current_round, wp_emit. by eapply traced_recovery.
  - apply wp_bind, wp_lifto. destruct (safety_propose _ _) as [s'| |] eqn:Hs; [|done..].
    apply wp_bind, wp_modify, wp_bind, wp_lifto. destruct (get_block _ _) as [b|]; [|done]. simpl.
    apply wp_bind, wp_current_round, wp_emit. eapply traced_proposal; try done. simpl. by rewrite <- Hr1.
Qed.

Lemma traced_propose_fresh w e r qc fresh tc : respects node_traced (propose_fresh w e r qc fresh tc).
Proof.
  intros n. unfold propose_fresh. apply (wp_after quiet); [auto with driver|]. intros n1 c1 _ Hq.
  apply traced_then; [by apply quiet_traced|]. apply wp_bind, wp_gets. simpl. destruct (negb _); [apply traced_refl|].
  apply wp_bind, wp_lifto. destruct (get_blocks_on_path_from_root _ _) as [path| |]; [|done..].
  apply wp_bind, wp_lifto. destruct path as [path|]; [|done]. simpl.
  destruct (match last path with Some _ => _ | None => _ end) as [sn ts].
  apply wp_bind, wp_lifto. destruct (seq_add _ _) as [sn'| |]; [|done..]. apply wp_bind, wp_gets. simpl.
  destruct (get_expected_execution_results _ _ _ _); [|apply traced_refl]. apply wp_bind, wp_gets, wp_bind, wp_lifto.
  destruct (safety_propose _ _) as [s'| |] eqn:Hs; [|done..]. apply wp_bind, wp_modify, wp_emit.
  by eapply traced_proposal.
Qed.

Lemma traced_try_propose w : respects node_traced (try_propose w).
Proof.
  intros n. unfold try_propose. apply wp_bind, wp_current_round. simpl.
  apply (wp_after quiet); [auto with driver|]. intros n1 c1 epoch Hq1. apply traced_then; [by apply quiet_traced|].
  apply wp_bind, wp_lifto. destruct (expect _) as [vs| |]; [|done..]. apply wp_bind, wp_lifto.
  destruct (get_leader _ _) as [leader| |]; [|done..]. simpl. case_bool_decide; [apply traced_refl|].
  apply (wp_after quiet); [auto with driver|]. intros n2 c2 _ Hq2. apply traced_then; [by apply quiet_traced|].
  apply wp_bind, wp_gets. simpl. destruct (negb _); [apply traced_refl|]. do 2 apply wp_bind, wp_gets. simpl.
  destruct (proposal_extend _ _) as [[[tip|qc] fresh] tc].
  - apply traced_propose_tip. unfold node_round.
    by rewrite (qb_pacemaker _ _ _ _ Hq2), (qb_pacemaker _ _ _ _ Hq1).
  - apply traced_propose_fresh.
Qed.

Lemma traced_modify f : (∀ c, pacemaker (f c) = pacemaker c) → (∀ c, safety (f c) = safety c) →
  (∀ c v, scheduled_vote (f c) = Some (VoteReady v) → scheduled_vote c = Some (VoteReady v)) →
  respects node_traced (modify f).
Proof. intros H1 H2 H3. apply traced_quiet, quiet_modify; auto. Qed.
End node_traced.

#[export] Hint Resolve traced_try_propose process_certificate_traced process_remote_timeout_traced
  process_local_timeout_traced node_traced_preorder : driver.
#[export] Hint Extern 5 (respects node_traced _) => apply traced_quiet; solve [eauto 3 with driver] : driver.
#[export] Hint Extern 1 (respects node_traced (modify _)) =>
  apply traced_modify; intros; first [reflexivity | discriminate | assumption] : driver.
#[export] Hint Extern 1 (respects node_traced (run_pacemaker _ _)) =>
  apply traced_run_pacemaker; intros; solve [eauto with driver] : driver.

Section node_handlers.
Context `{P : Params} {CD : Codec} {MC : MessageCodec} {CS : CertSignature} {AS : AuthorSigning}
        {SC : SignatureCollection} {LE : LeaderElection} {BP : BlockPolicy} {BV : BlockValidator}
        {HO : HashOrder TimeoutInfo (list (NodeId * Signature))} {HB : HashOrder BlockId BlockTreeEntry}.
Implicit Types (w : Wrapper) (n : Node).

Lemma traced_process_qc w qc : respects node_traced (process_qc w qc).
Proof. unfold process_qc. respects. Qed.
Lemma traced_process_tc w tc : respects node_traced (process_tc w tc).
Proof. unfold process_tc. respects. Qed.
Lemma traced_timeout_expiry w r : respects node_traced (handle_timeout_expiry w r).
Proof. unfold handle_timeout_expiry. respects. Qed.
End node_handlers.

#[export] Hint Resolve traced_process_qc traced_process_tc traced_timeout_expiry : driver.

Section node_events.
Context `{P : Params} {CD : Codec} {MC : MessageCodec} {CS : CertSignature} {AS : AuthorSigning}
        {SC : SignatureCollection} {LE : LeaderElection} {BP : BlockPolicy} {BV : BlockValidator}
        {HO : HashOrder TimeoutInfo (list (NodeId * Signature))} {HB : HashOrder BlockId BlockTreeEntry}.
Implicit Types (w : Wrapper) (n : Node).

Lemma traced_vote_message w author m : respects node_traced (handle_vote_message w author m).
Proof. unfold handle_vote_message, validators_of, cert_pubkeys_of, leader_of. respects. Qed.

Lemma traced_vote_if_current w b r tc tip : respects node_traced (vote_if_current w b r tc tip).
Proof. unfold vote_if_current. pose proof traced_try_vote. respects. Qed.

Lemma traced_add_block w b vote : respects node_traced (try_add_and_commit_blocktree w b vote).
Proof.
  unfold try_add_and_commit_blocktree. destruct vote as [[[r tc] tip]|]; [|respects].
  pose proof (traced_vote_if_current w b r tc tip). respects.
Qed.

Lemma traced_safety_update s s' op : safety_exec s op = Ret (s', []) → op_round op = None →
  ∀ n, safety (consensus n) = s → node_traced n (with_safety n s') [].
Proof.
  intros He Hr n <-. apply (node_traced_op n (with_safety n s') [] op []); try done.
  - intros r. by rewrite Hr.
  - intros v [?%elem_of_nil|?]; [done|by right].
  - by intros ne ?%elem_of_nil.
Qed.

Lemma traced_accept_proposal w p : respects node_traced (accept_proposal w p).
Proof.
  intros n. apply wp_bind, wp_gets. simpl. destruct (negb _); [apply traced_refl|].
  apply wp_bind, wp_lifto. destruct (safety_handle_proposal _ _) as [s'| |] eqn:Hs; [|done..].
  apply wp_bind, wp_modify. simpl. apply (traced_then n (with_safety n s') []).
  { apply (traced_safety_update (safety (consensus n)) s' (OpHandleProposal (pr_proposal_round p))); try done.
    cbn [safety_exec]. by rewrite Hs. }
  apply (wp_after quiet); [auto with driver|]. intros n2 c2 block Hq. apply traced_then; [by apply quiet_traced|].
  destruct block as [block|]; [|apply traced_refl]. apply traced_add_block.
Qed.

Lemma traced_proposal_message w author p : respects node_traced (handle_proposal_message w author p).
Proof.
  pose proof traced_accept_proposal. unfold handle_proposal_message, validators_of, leader_of. respects.
Qed.

Lemma traced_timeout_message w author t : respects node_traced (handle_timeout_message w author t).
Proof.
  unfold handle_timeout_message, timeout_catch_up, validators_of, cert_pubkeys_of.
  pose proof traced_vote_message. respects.
Qed.

Lemma traced_no_endorse w author e r h n : r = node_round n →
  wp false (no_endorse w author e r h) n (λ n' cmds _, node_traced n n' cmds).
Proof.
  intros Hr. apply wp_bind, wp_gets. simpl. destruct (negb _); [apply traced_refl|]. apply wp_bind, wp_lifto.
  destruct (safety_no_endorse _ _ _) as [s'| |] eqn:Hs; [|done..]. apply wp_bind, wp_modify, wp_emit.
  apply (node_traced_op _ _ _ (OpNoEndorse r (get_id h)) [EvNoEndorse r (get_id h)]); try done.
  - cbn [safety_exec]. by rewrite Hs.
  - by intros r' [= <-].
  - intros v [?%elem_of_nil|?]; [done|by right].
  - simpl. intros ne ->%list_elem_of_singleton. exists h. split; [left|done].
Qed.

Lemma traced_round_recovery w author m : respects node_traced (handle_round_recovery_message w author m).
Proof.
  intros n. unfold handle_round_recovery_message.
  apply (wp_after node_traced); [auto with driver|]. intros n1 c1 e H1. apply traced_then; [done|].
  apply wp_bind, wp_lifto. destruct (expect _) as [vs| |]; [|done..]. simpl. apply wp_bind, wp_current_round. simpl.
  apply (wp_after node_traced); [auto with driver|]. intros n2 c2 _ H2. apply traced_then; [done|].
  apply wp_bind, wp_current_round, wp_bind, wp_lifto. destruct (get_leader _ _) as [l| |]; [|done..]. simpl.
  destruct (bool_decide (rr_round m ≠ node_round n2)) eqn:Hr; [apply traced_refl|].
  apply bool_decide_eq_false, dec_stable in Hr. simpl. case_bool_decide; [apply traced_refl|].
  destruct (tc_high_extend _) as [tip|qc]; [|apply traced_refl]. apply wp_bind, wp_gets. simpl.
  destruct (_ && _); [apply traced_refl|]. by apply traced_no_endorse.
Qed.

Lemma traced_no_endorsement_message w author m : respects node_traced (handle_no_endorsement_message w author m).
Proof. unfold handle_no_endorsement_message, validators_of, cert_pubkeys_of. respects. Qed.

Lemma traced_advance_round w author m : respects node_traced (handle_advance_round_message w author m).
Proof. unfold handle_advance_round_message. respects. Qed.

Lemma traced_sync_loop w l : respects node_traced (sync_loop w l).
Proof.
  induction l as [|b l IH]; cbn [sync_loop]; [auto with driver|].
  pose proof (λ b, traced_add_block w b None). respects.
Qed.

Lemma traced_block_sync w range l : respects node_traced (handle_block_sync w range l).
Proof. unfold handle_block_sync. pose proof traced_sync_loop. respects. Qed.

Lemma traced_vote_timer w r : respects node_traced (handle_vote_timer w r).
Proof.
  intros n. apply wp_bind, wp_gets. simpl.
  destruct (scheduled_vote (consensus n)) as [[|v]|] eqn:Hs.
  1,3: apply wp_modify; apply quiet_traced; split; try done; by intros v ?%elem_of_nil.
  eapply wp_mono; [apply send_vote_signs|]. intros n' c _ [Qpm Qs Qv Qsch Qne Qp _].
  exists [], []. unfold node_round. rewrite Qpm, Qs, Qne, Qp. split_and!; [apply safety_trace_nil| | |done|done].
  - intros v' Hv'. right. assert (v' = v ∨ vote_scheduled n v') as [->|?]; [|done..].
    destruct Hv' as [?%Qv%list_elem_of_singleton|[?%list_elem_of_singleton|?]%Qsch]; auto.
  - by intros ne ?%elem_of_nil.
Qed.

Lemma traced_event w e : respects node_traced (handle_event w e).
Proof.
  pose proof traced_proposal_message. pose proof traced_vote_message. pose proof traced_timeout_message.
  pose proof traced_round_recovery. pose proof traced_no_endorsement_message. pose proof traced_advance_round.
  pose proof traced_block_sync. pose proof traced_vote_timer. destruct e; cbn [handle_event]; auto with driver.
Qed.

Lemma traced_node_run events : respects node_traced (node_run events).
Proof.
  induction events as [|[w e] events IH]; cbn [node_run]; [auto with driver|].
  apply respects_bind; [apply _|apply traced_event|done].
Qed.

(** ** The properties *)

(** Every run of the driver is a run of the safety module: the votes the node
    signs, in vote messages and inside timeouts, are among the votes of that
    run, and its proposals and no-endorsements are exactly those of the run,
    in order. The operations are made in non-decreasing rounds between the
    node's first and last round. *)
Theorem node_run_refines_safety events n n' cmds :
  (∀ v, ¬ vote_scheduled n v) → node_run events n = Ret (n', cmds, tt) →
  ∃ ops evs,
    safety_trace (node_round n) (node_round n') (safety (consensus n)) (safety (consensus n')) ops evs ∧
    (∀ v, v ∈ cmds ≫= command_votes → (vote_round v, vote_id v) ∈ omap event_vote evs) ∧
    cmds ≫= command_proposals = omap event_propose evs ∧
    ne_round <$> (cmds ≫= command_no_endorsements) = omap event_no_endorse evs.
Proof.
  intros Hsch Hrun. apply (respects_run node_traced) in Hrun as (ops & evs & Ht & Hv & _ & Hp & Hm);
    [|apply traced_node_run].
  exists ops, evs. split_and!; [done| |done|done]. intros v Hin. destruct (Hv v) as [?|Hs]; [by left|done|].
  by apply Hsch in Hs.
Qed.

(** C3. A node never equivocates, whatever it is sent: all votes it signs for a
    round are for the same block, it makes at most one proposal and at most
    one no-endorsement per round, and it makes them in increasing rounds. *)
Theorem node_never_equivocates events n n' cmds :
  (∀ v, ¬ vote_scheduled n v) → node_run events n = Ret (n', cmds, tt) →
  (∀ v v', v ∈ cmds ≫= command_votes → v' ∈ cmds ≫= command_votes → vote_round v = vote_round v' →
     vote_id v = vote_id v') ∧
  StronglySorted N.lt (cmds ≫= command_proposals) ∧
  StronglySorted N.lt (ne_round <$> (cmds ≫= command_no_endorsements)).
Proof.
  intros Hsch Hrun. apply (respects_run node_traced) in Hrun as (ops & evs & Ht & Hv & _ & Hp & Hm);
    [|apply traced_node_run].
  pose proof (st_run _ _ _ _ _ _ Ht) as Hs. split_and!.
  - intros v v' Hin Hin' Hr. destruct (safety_run_votes _ _ _ _ Hs) as (_ & _ & Huniq).
    apply (Huniq (vote_round v)); [|rewrite Hr].
    + destruct (Hv v) as [?|[]%Hsch]; [by left|done].
    + destruct (Hv v') as [?|[]%Hsch]; [by left|done].
  - rewrite Hp. by eapply (safety_run_increasing highest_propose), Hs; apply safety_exec_propose_mark.
  - rewrite Hm. by eapply (safety_run_increasing (λ s, hne_round (highest_no_endorse s))), Hs;
      apply safety_exec_ne_mark.
Qed.
End node_events.

Section node_safety_witnesses.
Import ToyNode.

Lemma toy_node_unscheduled v : ¬ vote_scheduled toy_node v.
Proof. unfold vote_scheduled. vm_compute. discriminate. Qed.

Lemma toy_run_commands : node_run toy_events toy_node = Ret (toy_run_result.1.1, toy_run_result.1.2, tt).
Proof. rewrite toy_run_returns. by destruct (toy_run_result.1). Qed.

(** The node votes in rounds 2 and 3, in round 3 with its timeout and again
    when the vote timer fires. *)
Lemma toy_run_votes : vote_round <$> (toy_run_result.1.2 ≫= command_votes) = [2; 2; 3; 3; 3].
Proof. vm_refl. Qed.

Lemma node_run_refines_safety_witness : ∃ ops evs,
  safety_run (safety (consensus toy_node)) ops = Ret (safety (consensus toy_run_result.1.1), evs) ∧
  ∀ v, v ∈ toy_run_result.1.2 ≫= command_votes → (vote_round v, vote_id v) ∈ omap event_vote evs.
Proof.
  destruct (node_run_refines_safety toy_events toy_node toy_run_result.1.1 toy_run_result.1.2
    toy_node_unscheduled toy_run_commands) as (ops & evs & Ht & Hv & _).
  exists ops, evs. split; [exact (st_run _ _ _ _ _ _ Ht)|exact Hv].
Defined.

Lemma node_never_equivocates_witness :
  vote_round <$> (toy_run_result.1.2 ≫= command_votes) = [2; 2; 3; 3; 3] ∧
  ∀ v v', v ∈ toy_run_result.1.2 ≫= command_votes → v' ∈ toy_run_result.1.2 ≫= command_votes →
    vote_round v = vote_round v' → vote_id v = vote_id v'.
Proof.
  split; [exact toy_run_votes|].
  apply (node_never_equivocates toy_events toy_node toy_run_result.1.1 toy_run_result.1.2
    toy_node_unscheduled toy_run_commands).
Defined.
End node_safety_witnesses.
