(* ===== verification/NodeCommit.v ===== *)
(** * What a node commits

    The blocks a node finalizes form one chain: every run of the driver keeps
    the invariant of the block tree (BlockTreeProps.v) and finalizes blocks
    that extend each other from the old root to the new one. *)
From S2P Require Import Prelude Types ChainConfig Interfaces MultiSig Certificates Concrete ValidatorSet SafetyModule VoteState NoEndorsementState Epochs Leader Pacemaker Messages BlockTree BlockTreeProps BlockTreeCorrect Timestamp ConsensusState ToyNet DriverLogic.

Section node_commit.
Context `{P : Params} {CD : Codec} {MC : MessageCodec} {CS : CertSignature} {AS : AuthorSigning}
        {SC : SignatureCollection} {LE : LeaderElection} {BP : BlockPolicy} {BV : BlockValidator}
        {HO : HashOrder TimeoutInfo (list (NodeId * Signature))} {HB : HashOrder BlockId BlockTreeEntry}.
Implicit Types (w : Wrapper) (n : Node).

(** Each block is the child of the one before, from [a] to [b]. *)
Fixpoint links (a : BlockId) (l : list ConsensusFullBlock) (b : BlockId) : Prop :=
  match l with
  | [] => a = b
  | x :: l => fb_get_parent_id x = a ∧ links (fb_get_id x) l b
  end.

Lemma links_app a l1 b l2 c : links a l1 b → links b l2 c → links a (l1 ++ l2) c.
Proof. revert a. induction l1 as [|x l1 IH]; intros a; simpl; [by intros ->|]. intros [? ?] ?. eauto. Qed.

Lemma chain_links m root id l : (∀ i e, m !! i = Some e → fb_get_id (be_validated_block e) = i) →
  chain m root id l → links root l id.
Proof.
  intros Hkeys. induction 1 as [|id e l Hne He Hc IH]; [done|]. eapply links_app; [exact IH|].
  simpl. split; [done|]. by apply Hkeys.
Qed.

(** If the committing loop returns, its blocks had a path from the root. *)
Lemma prune_loop_chain fuel root t e commit t' c' m : prune_loop fuel root t e commit = Ret (t', c') →
  tr_tree t ⊆ m → ∃ l, chain m root (fb_get_parent_id (be_validated_block e)) l.
Proof.
  revert t e commit. induction fuel as [|fuel IH]; intros t e commit; [done|]. cbn [prune_loop].
  intros H Hsub. monad_inv H. case_bool_decide as Hroot; [rewrite Hroot; eexists; constructor|]. monad_inv H.
  destruct v0 as [t1 parent]. monad_inv H. subst parent. unfold tree_remove in Hv0.
  destruct (tr_tree t !! _) as [p|] eqn:Hp; [|by simplify_eq]. monad_inv Hv0. simplify_eq.
  destruct (IH _ _ _ H) as [l Hl]; [simpl; etrans; [apply delete_subseteq|done]|].
  exists (l ++ [be_validated_block v0]). econstructor; [done| |done]. by eapply lookup_weaken.
Qed.

Lemma prune_returns_chain bt new_root bt' l : prune bt new_root = Ret (bt', l) → new_root ≠ root_id bt →
  ∃ e l', tr_tree (bt_tree bt) !! new_root = Some e ∧ chain (tr_tree (bt_tree bt)) (root_id bt) new_root l'.
Proof.
  unfold prune. intros H Hne. monad_inv H. rewrite bool_decide_eq_false_2 in H by done. monad_inv H.
  destruct v0 as [t1 entry]. monad_inv H. subst entry. destruct v1 as [t2 c]. unfold tree_remove in Hv0.
  destruct (tr_tree (bt_tree bt) !! new_root) as [e|] eqn:He; [|by simplify_eq]. monad_inv Hv0. simplify_eq.
  destruct (prune_loop_chain _ _ _ _ _ _ _ (tr_tree (bt_tree bt)) Hv2) as [l' Hl']; [apply delete_subseteq|].
  exists v0, (l' ++ [be_validated_block v0]). split; [done|]. by econstructor.
Qed.

Context (valid : ConsensusBlockHeader → Prop) (Hvalid : valid_headers valid).

(** A commit hands out the path to the new root and keeps the invariant. *)
Lemma prune_links bt new_root bt' l : bt_wf valid bt → prune bt new_root = Ret (bt', l) →
  bt_wf valid bt' ∧ links (root_id bt) l (root_id bt') ∧ Forall (λ b, valid (fb_header b)) l.
Proof using Hvalid.
  intros Hwf H. destruct (decide (new_root = root_id bt)) as [->|Hne].
  { unfold prune in H. monad_inv H. rewrite bool_decide_eq_true_2 in H by done. by simplify_eq. }
  destruct (prune_returns_chain _ _ _ _ H Hne) as (e & l' & He & Hc).
  assert (is_coherent bt new_root = true) as Hcoh by (unfold prune in H; by monad_inv H).
  destruct (prune_spec valid Hvalid bt new_root l' e Hwf Hcoh Hc He) as (t' & Hp & Hpw & Ht).
  rewrite Hp in H. simplify_eq. split_and!; [by eapply (pruned_wf valid)| |].
  - eapply chain_links; [|exact Hc]. intros i x Hx. by apply (bw_entry _ _ Hwf _ _ Hx).
  - apply Forall_forall. intros b Hb. destruct (chain_in_tree valid Hvalid _ _ _ Hwf Hc b Hb) as (x & Hx & <- & _).
    by apply (bw_entry _ _ Hwf _ _ Hx).
Qed.

Definition finalized (c : ConsensusCommand) : list ConsensusFullBlock :=
  match c with CcCommitBlocks (Finalized b) => [b] | _ => [] end.

Definition node_tree (n : Node) : BlockTree := pending_block_tree (consensus n).

(** Between [n] and [n'] the invariant of the tree is kept and the finalized
    blocks lead from the old root to the new one. *)
Definition node_commits (n n' : Node) (cmds : list ConsensusCommand) : Prop :=
  bt_wf valid (node_tree n) →
  bt_wf valid (node_tree n') ∧ links (root_id (node_tree n)) (cmds ≫= finalized) (root_id (node_tree n')) ∧
  Forall (λ b, valid (fb_header b)) (cmds ≫= finalized).

#[global] Instance node_commits_preorder : CmdPreorder node_commits.
Proof.
  split.
  - by intros n.
  - intros n1 n2 n3 c1 c2 H1 H2 Hwf. destruct (H1 Hwf) as (Hwf2 & L1 & F1). destruct (H2 Hwf2) as (Hwf3 & L2 & F2).
    split; [done|]. rewrite bind_app. split; [by eapply links_app|by apply Forall_app].
Qed.

(** The tree is not changed and nothing is finalized. *)
Lemma commits_same n n' cmds : node_tree n' = node_tree n → cmds ≫= finalized = [] → node_commits n n' cmds.
Proof. intros H1 H2 Hwf. by rewrite H1, H2. Qed.

Lemma commits_emit cmds : cmds ≫= finalized = [] → respects node_commits (emit cmds).
Proof. intros H n. apply wp_emit. by apply commits_same. Qed.
Lemma commits_modify f : (∀ c, pending_block_tree (f c) = pending_block_tree c) → respects node_commits (modify f).
Proof. intros H n. apply wp_modify. apply commits_same; [apply H|done]. Qed.
Lemma commits_put_epoch_manager em : respects node_commits (put_epoch_manager em).
Proof. intros n. by apply commits_same. Qed.
Lemma commits_put_block_policy bp : respects node_commits (put_block_policy bp).
Proof. intros n. by apply commits_same. Qed.
End node_commit.

#[export] Hint Resolve node_commits_preorder commits_put_epoch_manager commits_put_block_policy : driver.
#[export] Hint Extern 1 (respects (node_commits _) (modify _)) => apply commits_modify; intros; reflexivity : driver.
#[export] Hint Extern 1 (respects (node_commits _) (set_safety _)) => apply commits_modify; intros; reflexivity : driver.
#[export] Hint Extern 1 (respects (node_commits _) (emit _)) => apply commits_emit; reflexivity : driver.

Section node_commit_handlers.
Context `{P : Params} {CD : Codec} {MC : MessageCodec} {CS : CertSignature} {AS : AuthorSigning}
        {SC : SignatureCollection} {LE : LeaderElection} {BP : BlockPolicy} {BV : BlockValidator}
        {HO : HashOrder TimeoutInfo (list (NodeId * Signature))} {HB : HashOrder BlockId BlockTreeEntry}.
Context (valid : ConsensusBlockHeader → Prop) (Hvalid : valid_headers valid).
Implicit Types (w : Wrapper) (n : Node).
Notation commits := (node_commits valid).

Lemma from_pacemaker_finalized key ckey ver c :
  (c ≫= from_pacemaker_command key ckey ver) ≫= finalized = [].
Proof.
  rewrite list_bind_bind. induction c as [|x c IH]; [done|]. rewrite bind_cons, IH. by destruct x.
Qed.

Lemma commits_run_pacemaker w op : respects commits (run_pacemaker w op).
Proof. unfold run_pacemaker. respects. apply commits_emit, from_pacemaker_finalized. Qed.

(** The loop over committed blocks finalizes them all. *)
Lemma commit_loop_finalizes l n :
  wp false (commit_loop l) n (λ n' cmds _, node_tree n' = node_tree n ∧ cmds ≫= finalized = l).
Proof.
  revert n. induction l as [|b l IH]; intros n; cbn [commit_loop]; [done|].
  apply wp_bind, wp_gets, wp_bind, wp_lifto. destruct (update_committed_block _ _) as [bp| |]; [|done..].
  apply wp_bind. simpl. unfold wp at 1. simpl. apply wp_bind, wp_gets, wp_bind, wp_lifto.
  destruct (schedule_epoch_start _ _ _) as [em| |]; [|done..].
  apply wp_bind. unfold wp at 1. simpl. apply wp_bind, wp_emit. eapply wp_mono; [apply IH|].
  intros n' c _ [Ht Hf]. split; [exact Ht|]. simpl. f_equal. exact Hf.
Qed.

Lemma commits_try_commit qc : respects commits (try_commit qc).
Proof using Hvalid.
  intros n. unfold try_commit. apply wp_bind, wp_gets. simpl.
  destruct (get_block _ _) as [b|]; [|by apply commits_same]. apply wp_bind, wp_lifto.
  destruct (get_committable_id _ _) as [[id|]| |]; [|by apply commits_same|done..]. simpl.
  destruct (negb _); [by apply commits_same|]. apply wp_bind, wp_lifto.
  destruct (prune _ _) as [[bt' l]| |] eqn:Hp; [|done..]. apply wp_bind, wp_modify.
  eapply wp_mono; [apply commit_loop_finalizes|]. intros n' c _ [Ht Hf] Hwf. simpl in *. rewrite Ht, Hf.
  by apply (prune_links valid Hvalid _ _ _ _ Hwf Hp).
Qed.

Lemma commits_update_proposed_head : respects commits update_proposed_head.
Proof. unfold update_proposed_head. respects. Qed.

Lemma commits_update_coherency w id : respects commits (update_coherency w id).
Proof using Hvalid.
  intros n. unfold update_coherency. do 2 apply wp_bind, wp_gets. apply wp_bind, wp_lifto.
  destruct (try_update_coherency _ _ _) as [[bt' ret]| |] eqn:Hu; [|done..]. apply wp_bind, wp_modify. simpl.
  wp_respects (node_commits valid) Hm.
  { pose proof commits_try_commit. pose proof commits_update_proposed_head. respects.
    apply commits_emit. clear. by induction ret. }
  eapply wp_mono; [apply Hm|]. intros n' c u Hc Hwf.
  destruct (try_update_coherency_spec valid Hvalid (check_coherency (block_policy n) (w_state_backend w))
    (node_tree n) id Hwf) as (bt1 & ret1 & Heq & Hwf1 & Hmark & _).
  unfold node_tree in Heq. rewrite Hu in Heq. injection Heq as -> ->.
  destruct (Hc Hwf1) as (Hwf' & L & F). split_and!; [done| |done]. by rewrite Hmark in L.
Qed.

(** The blocks an event brings have acceptable headers. *)
Definition event_headers_ok (e : node_event) : Prop :=
  match e with
  | EvProposal _ p => valid (tip_block_header (pr_tip p))
  | EvBlockSync _ blocks => Forall (λ b, valid (fb_header b)) blocks
  | _ => True
  end.

#[local] Hint Resolve commits_run_pacemaker commits_try_commit commits_update_proposed_head commits_update_coherency : driver.

Lemma commits_current_round : respects commits current_round.
Proof. unfold current_round. respects. Qed.
Lemma commits_epoch_of r : respects commits (epoch_of r).
Proof. unfold epoch_of. respects. Qed.
#[local] Hint Resolve commits_current_round commits_epoch_of : driver.
Lemma commits_round_leader w r : respects commits (round_leader w r).
Proof. unfold round_leader, validators_of, leader_of. respects. Qed.
Lemma commits_request_blocks : respects commits request_blocks_if_missing_ancestor.
Proof. unfold request_blocks_if_missing_ancestor, request_sync. respects. Qed.
Lemma commits_request_tip : respects commits request_tip_if_missing.
Proof. unfold request_tip_if_missing, request_sync. respects. Qed.
Lemma commits_maybe_statesync w : respects commits (maybe_statesync w).
Proof. unfold maybe_statesync. respects. Qed.
Lemma commits_cancel_loop l : respects commits (cancel_loop l).
Proof. induction l as [|b l IH]; cbn [cancel_loop]; respects. Qed.
Lemma commits_cancel : respects commits cancel_obsolete_requests.
Proof. unfold cancel_obsolete_requests. pose proof commits_cancel_loop. respects. Qed.
Lemma commits_lookup_leader w r : respects commits (lookup_leader w r).
Proof. unfold lookup_leader, leader_of. respects. Qed.
#[local] Hint Resolve commits_round_leader commits_request_blocks commits_request_tip commits_maybe_statesync
  commits_cancel commits_lookup_leader : driver.

Lemma commits_send_vote w v : respects commits (send_vote_and_reset_timer w v).
Proof. unfold send_vote_and_reset_timer. respects. Qed.
#[local] Hint Resolve commits_send_vote : driver.
Lemma commits_try_vote w tc tip : respects commits (try_vote w tc tip).
Proof. unfold try_vote, maybe_record_vote_delay_metrics. respects. Qed.
Lemma commits_try_propose w : respects commits (try_propose w).
Proof using Hvalid. unfold try_propose, validators_of, leader_of, propose_tip, propose_fresh. respects. Qed.
#[local] Hint Resolve commits_try_vote commits_try_propose : driver.
Lemma commits_process_qc w qc : respects commits (process_qc w qc).
Proof using Hvalid. unfold process_qc. respects. Qed.
Lemma commits_process_tc w tc : respects commits (process_tc w tc).
Proof using Hvalid. unfold process_tc. respects. Qed.
Lemma commits_timeout_expiry w r : respects commits (handle_timeout_expiry w r).
Proof. unfold handle_timeout_expiry. respects. Qed.
#[local] Hint Resolve commits_process_qc commits_process_tc commits_timeout_expiry : driver.
Lemma commits_vote_message w author m : respects commits (handle_vote_message w author m).
Proof using Hvalid. unfold handle_vote_message, validators_of, cert_pubkeys_of, leader_of. respects. Qed.
#[local] Hint Resolve commits_vote_message : driver.
Lemma commits_timeout_message w author t : respects commits (handle_timeout_message w author t).
Proof using Hvalid.
  unfold handle_timeout_message, timeout_catch_up, validators_of, cert_pubkeys_of, broadcast_advance_round_message.
  respects.
Qed.
Lemma commits_round_recovery w author m : respects commits (handle_round_recovery_message w author m).
Proof using Hvalid. unfold handle_round_recovery_message, validators_of, leader_of, no_endorse. respects. Qed.
Lemma commits_no_endorsement_message w author m : respects commits (handle_no_endorsement_message w author m).
Proof using Hvalid. unfold handle_no_endorsement_message, validators_of, cert_pubkeys_of. respects. Qed.
Lemma commits_advance_round w author m : respects commits (handle_advance_round_message w author m).
Proof using Hvalid. unfold handle_advance_round_message. respects. Qed.
Lemma commits_vote_timer w r : respects commits (handle_vote_timer w r).
Proof. unfold handle_vote_timer. respects. Qed.

(** Adding a block with an acceptable header. *)
Lemma commits_add_block w b vote n : (bt_wf valid (node_tree n) → valid (fb_header b)) →
  wp false (try_add_and_commit_blocktree w b vote) n (λ n' cmds _, commits n n' cmds).
Proof using Hvalid.
  intros Hb. unfold try_add_and_commit_blocktree. apply wp_bind, wp_gets, wp_bind, wp_lifto.
  destruct (bt_add _ _) as [bt'| |] eqn:Ha; [|done..]. apply wp_bind, wp_modify. simpl.
  wp_respects (node_commits valid) Hm; [unfold vote_if_current; respects|].
  eapply wp_mono; [apply Hm|]. intros n' c u Hc Hwf.
  destruct (bt_add_spec valid Hvalid (node_tree n) b Hwf (Hb Hwf)) as (bt1 & Heq & Hwf1 & Hroot & _).
  unfold node_tree in Heq. rewrite Ha in Heq. injection Heq as ->.
  destruct (Hc Hwf1) as (Hwf' & L & F). split_and!; [done| |done].
  replace (root_id (node_tree n)) with (root_id bt1) by (unfold root_id; by rewrite Hroot). exact L.
Qed.

Context {BVL : BlockValidatorLaws BV}.

(** A validated block has the given header, or is already in the tree. *)
Lemma validate_block_header w h body n : valid h →
  wp false (validate_block w h body) n (λ n' cmds b, n' = n ∧ cmds = [] ∧
    ∀ b', b = Some b' → bt_wf valid (node_tree n) → valid (fb_header b')).
Proof using BVL.
  intros Hh. unfold validate_block. apply wp_bind, wp_gets. simpl.
  destruct (get_block _ _) as [b|] eqn:Hb.
  - split_and!; [done..|]. intros b' Hb' Hwf. case_bool_decide; simplify_eq.
    apply fmap_Some in Hb as (e & He & ->). by apply (bw_entry _ _ Hwf _ _ He).
  - apply wp_bind. unfold epoch_of. apply wp_bind, wp_gets, wp_lifto. destruct (expect _); [|done..]. simpl.
    apply wp_bind, wp_lifto. destruct (expect _); [|done..]. simpl. apply wp_bind, wp_lifto.
    destruct (get_leader _ _); [|done..]. simpl. case_bool_decide; [by split_and!|].
    apply wp_bind, wp_lifto. destruct (expect _); [|done..]. simpl. apply wp_bind, wp_lifto.
    destruct (expect _); [|done..]. simpl. split_and!; [done..|].
    intros b' Hb' _. apply block_validate_same in Hb'. by subst.
Qed.

Lemma commits_validate_add w h body vote n : valid h →
  wp false (b ← validate_block w h body;
    match b with None => mret tt | Some b => try_add_and_commit_blocktree w b vote end) n
    (λ n' cmds _, commits n n' cmds).
Proof using BVL Hvalid.
  intros Hh. apply wp_bind. eapply wp_mono; [by apply validate_block_header|].
  intros n' c b (-> & -> & Hb). destruct b as [b|]; [|by apply commits_same].
  apply commits_add_block. by apply Hb.
Qed.

Lemma commits_accept_proposal w p : valid (tip_block_header (pr_tip p)) → respects commits (accept_proposal w p).
Proof using BVL Hvalid.
  intros Hp. unfold accept_proposal. apply respects_bind; [apply _|driver|]. intros s.
  destruct (negb _); [driver|]. do 2 (apply respects_bind; [apply _|driver|intros ?]).
  intros n. by apply commits_validate_add.
Qed.

Lemma commits_proposal_message w author p : valid (tip_block_header (pr_tip p)) →
  respects commits (handle_proposal_message w author p).
Proof using BVL Hvalid.
  intros Hp%(commits_accept_proposal w). unfold handle_proposal_message, validators_of, leader_of. respects.
Qed.

Lemma commits_sync_loop w l : Forall (λ b, valid (fb_header b)) l → respects commits (sync_loop w l).
Proof using BVL Hvalid.
  induction 1 as [|b l Hb _ IH]; cbn [sync_loop]; [driver|].
  apply respects_bind; [apply _|driver|]. intros bt. destruct (negb _); [done|].
  intros n. apply wp_bind. eapply wp_mono; [by apply validate_block_header|].
  intros n' c vb (-> & -> & Hvb). destruct vb as [vb|]; [|by apply commits_same].
  apply wp_bind. eapply wp_mono; [apply commits_add_block; by apply Hvb|]. intros n1 c1 u H1.
  eapply wp_mono; [apply IH|]. intros n2 c2 u' H2. exact (cp_trans n n1 n2 c1 c2 H1 H2).
Qed.

Lemma commits_event w e : event_headers_ok e → respects commits (handle_event w e).
Proof using BVL Hvalid.
  pose proof commits_proposal_message. pose proof commits_timeout_message. pose proof commits_round_recovery.
  pose proof commits_no_endorsement_message. pose proof commits_advance_round. pose proof commits_vote_timer.
  intros He. destruct e; cbn [handle_event]; try driver. unfold handle_block_sync.
  pose proof (commits_sync_loop w _ He). respects.
Qed.

Lemma commits_node_run events : Forall (λ we, event_headers_ok we.2) events → respects commits (node_run events).
Proof using BVL Hvalid.
  induction 1 as [|[w e] events He _ IH]; cbn [node_run]; [driver|].
  apply respects_bind; [apply _|by apply commits_event|done].
Qed.

Lemma links_sorted a l b : links a l b → Forall (λ b, valid (fb_header b)) l →
  StronglySorted (λ b b', fb_get_block_round b < fb_get_block_round b') l.
Proof using Hvalid.
  intros Hl Hv. apply Sorted_StronglySorted; [intros x y z; lia|]. revert a Hl.
  induction Hv as [|x l Hx Hv IH]; intros a; [constructor|]. intros [_ Hl]. constructor; [by eapply IH|].
  destruct l as [|y l]; constructor. destruct Hl as [Hp _]. apply Forall_cons in Hv as [Hy _].
  pose proof (vh_parent _ Hvalid _ _ Hx Hy Hp). pose proof (vh_round _ Hvalid _ Hy).
  unfold fb_get_block_round. lia.
Qed.

End node_commit_handlers.

Section node_commit_witnesses.
Import ToyNode.

Definition toy_chain_valid (h : ConsensusBlockHeader) : Prop := h ∈ [toy_b1; toy_b2; toy_b3].

Lemma toy_chain_ids : NoDup [7; get_id toy_b1; get_id toy_b2; get_id toy_b3].
Proof. apply (bool_decide_unpack _). vm_cast_no_check I. Qed.

Lemma toy_chain_valid_headers : valid_headers toy_chain_valid.
Proof. apply (chain_valid_headers 7); try reflexivity; [exact toy_chain_ids|..]; try split; (reflexivity || discriminate). Qed.

Lemma toy_node_tree_wf : bt_wf toy_chain_valid (node_tree toy_node).
Proof.
  change (node_tree toy_node) with (block_tree_new toy_node_root).
  apply block_tree_new_wf; [|intros; apply N.le_0_l]. intros h Hh Hid. exfalso.
  eapply (chain_ids_not_root 7); [exact toy_chain_ids|exact Hh|exact Hid].
Qed.

Lemma toy_events_headers_ok : Forall (λ we, event_headers_ok toy_chain_valid we.2) toy_events.
Proof. repeat constructor. Qed.

#[local] Instance toy_validator_laws : BlockValidatorLaws toy_validator.
Proof. split. by intros header body key b [= <-]. Qed.

End node_commit_witnesses.
