(* ===== verification/NodeRounds.v ===== *)
(** * How a node follows the network

    Two properties of single handlers of the driver (ConsensusState.v): which
    proposals a node votes for, and that a well-formed timeout brings the node
    to the round of the timeout before it is counted. *)
From S2P Require Import Prelude Types ChainConfig Interfaces MultiSig Certificates Concrete ValidatorSet SafetyModule VoteState NoEndorsementState Epochs Leader Pacemaker Messages Validation ValidationSpec BlockTree Timestamp ConsensusState ToyNet DriverLogic NodeSafety.

Section node_rounds.
Context `{P : Params} {CD : Codec} {MC : MessageCodec} {CS : CertSignature} {AS : AuthorSigning}
        {SC : SignatureCollection} {LE : LeaderElection} {BP : BlockPolicy} {BV : BlockValidator}
        {HO : HashOrder TimeoutInfo (list (NodeId * Signature))} {HB : HashOrder BlockId BlockTreeEntry}.
Implicit Types (w : Wrapper) (n : Node).

(** ** Voting *)

(** The node knows the parent of the block and its timestamp, accepts the
    timestamp, has the block and its ancestors coherent, and its safety module
    allows a vote in the current round. *)
Record votable w (last_round_tc : option TimeoutCertificate) (tip : ConsensusTip) n : Prop := {
  vo_parent : is_Some (get_block_round_of_qc (pending_block_tree (consensus n)) (bh_qc (tip_block_header tip)));
  vo_timestamp : ∃ parent_ts,
    get_timestamp_of_qc (pending_block_tree (consensus n)) (bh_qc (tip_block_header tip)) = Some parent_ts ∧
    is_Some (valid_block_timestamp (w_block_timestamp w) parent_ts (bh_timestamp_ns (tip_block_header tip))
      (cp_vote_pace (cfg_chain_params (w_config w) (node_round n)))
      (bool_decide (node_round n ≠ tip_block_round tip)));
  vo_coherent : is_coherent (pending_block_tree (consensus n)) (get_id (tip_block_header tip)) = true;
  vo_safe : is_safe_to_vote (safety (consensus n)) (node_round n) (last_round_tc ≫= tc_tip_id) = true;
}.

Definition vote_of (tip : ConsensusTip) n : Vote :=
  mkVote (get_id (tip_block_header tip)) (node_round n) (pm_current_epoch (pacemaker (consensus n))).

(** The vote is in the commands or scheduled, and the safety module, updated to
    [s'], is kept. *)
Definition votes_for (v : Vote) (s' : Safety) (n' : Node) (cmds : list ConsensusCommand) : Prop :=
  safety (consensus n') = s' ∧ (v ∈ cmds ≫= command_votes ∨ vote_scheduled n' v) ∧
  ∀ v', v' ∈ cmds ≫= command_votes → v' = v.

Lemma send_vote_votes w v n :
  wp false (send_vote_and_reset_timer w v) n (λ n' cmds _, votes_for v (safety (consensus n)) n' cmds).
Proof.
  unfold send_vote_and_reset_timer. apply wp_bind, wp_lifto. destruct (round_add _ _) as [nr| |]; [|done..]. simpl.
  apply (wp_after quiet); [driver|]. intros n1 c1 next [Qpm Qs Qv Qsch Qne Qp]. apply wp_bind, wp_emit.
  apply (wp_after quiet); [driver|]. intros n2 c2 cur [Qpm' Qs' Qv' Qsch' Qne' Qp'].
  apply wp_bind, wp_emit, wp_bind, wp_emit, wp_modify. simpl.
  assert (∀ c, (∀ v', v' ∈ c ≫= command_votes → v' ∈ ([] : list Vote)) → c ≫= command_votes = []) as Hnil.
  { intros c Hc. destruct (c ≫= command_votes) as [|v' l]; [done|].
    by destruct (proj1 (elem_of_nil v') (Hc v' (list_elem_of_here _ _))). }
  split_and!.
  - by rewrite Qs', Qs.
  - left. rewrite !bind_app, (Hnil c1 Qv). simpl. left.
  - case_bool_decide; simpl; rewrite !bind_app, (Hnil c1 Qv); simpl; rewrite !bind_app, (Hnil c2 Qv'); simpl; set_solver.
Qed.

Lemma record_metrics_same r pr n : wp false (maybe_record_vote_delay_metrics r pr) n (λ n' c _, n' = n ∧ c = []).
Proof.
  apply wp_bind, wp_gets. destruct (vote_delay_timer_start _); [|done]. case_bool_decide; [done|].
  apply wp_bind, wp_lifto. by destruct (round_add _ _).
Qed.

(** The vote that was registered is sent now or scheduled. *)
Lemma try_vote_votes w tc tip n :
  wp false (try_vote w tc tip) n (λ n' cmds _,
    (votable w tc tip n ∧
     ∃ s', safety_vote (safety (consensus n)) (node_round n) (tc ≫= tc_tip_id) tip = Ret s' ∧
       votes_for (vote_of tip n) s' n' cmds) ∨
    (¬ votable w tc tip n ∧ n' = n ∧ cmds = [])).
Proof.
  unfold try_vote. apply wp_bind, wp_current_round, wp_bind, wp_gets. simpl.
  destruct (get_timestamp_of_qc _ _) as [ts|] eqn:Hts.
  2:{ right. split_and!; [|done..]. intros [_ (ts & [=] & _)]; congruence. }
  destruct (get_block_round_of_qc _ _) as [pr|] eqn:Hpr.
  2:{ right. split_and!; [|done..]. intros [[? [=]]]; congruence. }
  case_bool_decide as Hv.
  { right. split_and!; [|done..]. intros [_ (ts' & ? & [a Ha])]. simplify_eq. unfold tip_block_round in Ha. congruence. }
  destruct (is_coherent _ _) eqn:Hc; cbn [negb]; [|right; split_and!; [|done..]; intros []; congruence].
  apply wp_bind, wp_gets. simpl.
  destruct (is_safe_to_vote _ _ _) eqn:Hsafe; cbn [negb]; [|right; split_and!; [|done..]; intros []; congruence].
  assert (votable w tc tip n) as Hvo.
  { split; [by eexists|exists ts; split; [done|]|done|done]. by apply not_eq_None_Some. }
  apply wp_bind, wp_lifto. destruct (safety_vote _ _ _ _) as [s'| |] eqn:Hs; [|done..].
  apply wp_bind, wp_modify, wp_bind, wp_gets. simpl.
  apply (wp_mono _ _ _ (λ n' cmds _, votes_for (vote_of tip n) s' n' cmds)); [|naive_solver].
  apply wp_bind. eapply wp_mono; [apply record_metrics_same|]. intros n1 c1 _ [-> ->].
  apply wp_bind, wp_gets. simpl.
  assert (∀ n1, safety (consensus n1) = s' → wp false
    (next ← lifto (round_add pr 1);
     if bool_decide (next ≠ node_round n) then send_vote_and_reset_timer w (vote_of tip n)
     else modify (λ c, {| c with scheduled_vote := Some (VoteReady (vote_of tip n)) |})) n1
    (λ n' cmds _, votes_for (vote_of tip n) s' n' cmds)) as Hsend.
  { intros n1 <-. apply wp_bind, wp_lifto. destruct (round_add pr 1) as [nx| |]; [|done..].
    destruct (bool_decide (nx ≠ node_round n)).
    - apply send_vote_votes.
    - apply wp_modify. split_and!; [done|by right|]. simpl. by intros v' ?%elem_of_nil. }
  destruct (scheduled_vote (consensus n)) as [[|r]|].
  - apply send_vote_votes.
  - destruct (bool_decide (node_round n ≤ _)); [done|]. by apply Hsend.
  - by apply Hsend.
Qed.

(** ** Reaching the round of a certificate *)

Lemma traced_rounds n n' cmds : node_traced n n' cmds → node_round n ≤ node_round n'.
Proof. intros (ops & evs & Ht & _). apply Ht. Qed.

Lemma traced_reaches {A} r n (m : cs A) : r ≤ node_round n → respects node_traced m →
  wp false m n (λ n' _ _, r ≤ node_round n').
Proof.
  intros Hr Hm. eapply wp_mono; [apply Hm|]. intros n' c _ H%traced_rounds. lia.
Qed.

Lemma wp_and {A} (m : cs A) n Q1 Q2 : wp false m n Q1 → wp false m n Q2 →
  wp false m n (λ n' c a, Q1 n' c a ∧ Q2 n' c a).
Proof. unfold wp. by destruct (m n) as [[[n1 c1] a]| |]. Qed.

(** A first computation whose effect does not matter. *)
Lemma wp_skip {A B} (m : cs A) (f : A → cs B) n Q :
  (∀ n1 c1 a, wp false (f a) n1 (λ n2 c2 b, Q n2 (c1 ++ c2) b)) → wp false (m ≫= f) n Q.
Proof. intros H. apply wp_bind. unfold wp at 1. destruct (m n) as [[[n1 c1] a]| |]; [apply H|done..]. Qed.

Lemma certificate_reaches w c n :
  wp false (run_pacemaker w (λ pm em s, pacemaker_process_certificate pm em s c)) n
    (λ n' _ _, round_certificate_round c + 1 ≤ node_round n').
Proof.
  unfold run_pacemaker. do 3 apply wp_bind, wp_gets. apply wp_bind, wp_lifto.
  destruct (pacemaker_process_certificate _ _ _ _) as [[[pm s] cmds]| |] eqn:H; [|done..].
  apply wp_bind, wp_modify, wp_emit. unfold node_round, round_after. simpl.
  revert H. unfold pacemaker_process_certificate. case_bool_decide; intros H'; [monad_inv H'; simplify_eq; lia|].
  monad_inv H'. simplify_eq. simpl. lia.
Qed.

Lemma process_qc_reaches w qc n :
  wp false (process_qc w qc) n (λ n' _ _, vote_round (qc_info qc) + 1 ≤ node_round n').
Proof.
  unfold process_qc. apply wp_bind, wp_current_round. case_bool_decide as Hr; [apply wp_ret; lia|].
  apply wp_bind, wp_gets, wp_bind, wp_lifto. destruct (get_highest_coherent_block_on_path_from_root _ _); [|done..].
  apply wp_bind, wp_emit.
  do 3 (apply wp_skip; intros ? ? ?).
  apply wp_bind. eapply wp_mono; [apply certificate_reaches|]. intros n5 c5 [] Hge. apply traced_reaches; [done|].
  respects.
Qed.

Lemma process_tc_reaches w tc n : wp false (process_tc w tc) n (λ n' _ _, tc_round tc + 1 ≤ node_round n').
Proof.
  unfold process_tc. apply wp_bind, wp_current_round. case_bool_decide as Hr; [apply wp_ret; lia|].
  apply wp_bind. eapply wp_mono; [apply certificate_reaches|]. intros n5 c5 [] Hge. apply traced_reaches; [done|].
  respects.
Qed.

Lemma catch_up_reaches w author t n : timeout_well_formed t →
  wp false (timeout_catch_up w author t) n (λ n' _ _,
    ti_round (to_tminfo t) ≤ node_round n' ∧
    qc_get_round (high_extend_vote_qc (to_high_extend t)) < node_round n').
Proof.
  intros [_ Hwf]. unfold timeout_catch_up. unfold qc_get_round in *.
  apply wp_bind. eapply wp_mono; [apply process_qc_reaches|]. intros n1 c1 [] Hqc. unfold qc_get_round in *.
  set (r := vote_round (qc_info (high_extend_vote_qc (to_high_extend t))) + 1) in *.
  apply (wp_after node_traced); [pose proof traced_vote_message; respects|]. intros n2 c2 _ H2%traced_rounds.
  apply wp_bind, wp_current_round.
  destruct (to_last_round_certificate t) as [rc|].
  2:{ apply immediately_follows_true in Hwf. apply wp_ret. lia. }
  destruct Hwf as [_ Hrc%immediately_follows_true].
  destruct rc as [qc|tc]; simpl in Hrc.
  { eapply wp_mono; [apply (wp_and _ _ _ _ (process_qc_reaches w qc n2) (traced_process_qc w qc n2))|].
    intros n' c' [] [? ?%traced_rounds]. unfold qc_get_round in *. lia. }
  assert (∀ n3, r ≤ node_round n3 → wp false (process_tc w tc) n3 (λ n' _ _,
    ti_round (to_tminfo t) ≤ node_round n' ∧ r ≤ node_round n')) as Htc.
  { intros n3 H3. eapply wp_mono; [apply (wp_and _ _ _ _ (process_tc_reaches w tc n3) (traced_process_tc w tc n3))|].
    intros n' c' [] [? ?%traced_rounds]. lia. }
  case_bool_decide as Heq; [|case_bool_decide as Hlt]; [| |apply wp_ret; lia].
  all: apply (wp_after node_traced); [first [driver|apply traced_quiet; driver]|]; intros n3 c3 _ H3%traced_rounds.
  all: eapply wp_mono; [apply Htc; lia|]; intros n' c' [] [? ?]; lia.
Qed.
End node_rounds.

Section node_round_properties.
Context `{P : Params} {CD : Codec} {MC : MessageCodec} {CS : CertSignature} {AS : AuthorSigning}
        {SC : SignatureCollection} {LE : LeaderElection} {BP : BlockPolicy} {BV : BlockValidator}
        {HO : HashOrder TimeoutInfo (list (NodeId * Signature))} {HB : HashOrder BlockId BlockTreeEntry}.

(** C24. A node votes for a proposal of its round exactly if it knows the parent,
    accepts the timestamp, the block is coherent with the chain it extends and
    the safety module allows the vote. It then registers that vote and sends
    or schedules it, and signs no other; otherwise nothing changes. *)
Theorem try_vote_exact w tc tip n n' cmds : try_vote w tc tip n = Ret (n', cmds, tt) →
  (votable w tc tip n ∧
   ∃ s', safety_vote (safety (consensus n)) (node_round n) (tc ≫= tc_tip_id) tip = Ret s' ∧
     votes_for (vote_of tip n) s' n' cmds) ∨
  (¬ votable w tc tip n ∧ n' = n ∧ cmds = []).
Proof. apply (wp_run _ _ _ _ _ _ (try_vote_votes w tc tip n)). Qed.

(** C25. Processing what a well-formed timeout carries brings the node at least to
    the round of the timeout and past the certificate it extends, so that the
    pacemaker's assertion that it is not from a later round holds. *)
Theorem timeout_reaches_round w author t n n' cmds : timeout_well_formed t →
  timeout_catch_up w author t n = Ret (n', cmds, tt) →
  ti_round (to_tminfo t) ≤ node_round n' ∧ qc_get_round (high_extend_vote_qc (to_high_extend t)) < node_round n'.
Proof. intros Hwf. apply (wp_run _ _ _ _ _ _ (catch_up_reaches w author t n Hwf)). Qed.
End node_round_properties.

Section node_round_witnesses.
Import ToyNode.

(** The node with the block of round 2, which it has not voted for. *)
Definition toy_before_vote : Node :=
  (ret_or (toy_node, [], tt)
     ((_ ← node_run [(toy_wrapper 5, toy_proposal toy_b1)];
       _ ← process_qc (toy_wrapper 7) (bh_qc toy_b2);
       try_add_and_commit_blocktree (toy_wrapper 7) (mkFullBlock toy_b2 toy_body) None) toy_node)).1.1.
Definition toy_tip2 : ConsensusTip := tip_new (bh_author toy_b2 : @AuthorKeyPair toy_params) toy_b2 None.
Definition toy_after_vote : Node * list ConsensusCommand * unit :=
  ret_or (toy_before_vote, [], tt) (try_vote (toy_wrapper 7) None toy_tip2 toy_before_vote).

Lemma try_vote_exact_witness :
  try_vote (toy_wrapper 7) None toy_tip2 toy_before_vote = Ret (toy_after_vote.1.1, toy_after_vote.1.2, tt) ∧
  toy_after_vote.1.1 ≠ toy_before_vote ∧ votable (toy_wrapper 7) None toy_tip2 toy_before_vote.
Proof.
  assert (try_vote (toy_wrapper 7) None toy_tip2 toy_before_vote = Ret (toy_after_vote.1.1, toy_after_vote.1.2, tt)) as H.
  { rewrite (returns_ret (toy_before_vote, [], tt) (try_vote (toy_wrapper 7) None toy_tip2 toy_before_vote)) by vm_refl.
    fold toy_after_vote. by destruct toy_after_vote as [[? ?] []]. }
  assert (highest_vote (safety (consensus toy_after_vote.1.1)) ≠ highest_vote (safety (consensus toy_before_vote))) as Hv.
  { vm_compute. discriminate. }
  split; [exact H|]. split; [intros Heq; apply Hv; by rewrite Heq|].
  destruct (try_vote_exact (toy_wrapper 7) None toy_tip2 toy_before_vote toy_after_vote.1.1 toy_after_vote.1.2 H)
    as [[? _]|(_ & Heq & _)]; [done|]. destruct Hv. by rewrite Heq.
Defined.

(** A timeout of round 3 that carries the certificate of round 2. *)
Definition toy_late_timeout : Timeout :=
  timeout_new (2 : @CertKeyPair toy_params) (mkTimeoutInfo 1 3 2 0) (HeQc (toy_qc (get_id toy_b2) 2)) false None.
Definition toy_caught_up : Node * list ConsensusCommand * unit :=
  ret_or (toy_node, [], tt) (timeout_catch_up (toy_wrapper 9) (2 : @NodeId toy_params) toy_late_timeout toy_node).

Lemma timeout_reaches_round_witness : node_round toy_node = 1 ∧ 3 ≤ node_round toy_caught_up.1.1.
Proof.
  split; [vm_refl|].
  apply (timeout_reaches_round (toy_wrapper 9) (2 : @NodeId toy_params) toy_late_timeout toy_node toy_caught_up.1.1 toy_caught_up.1.2).
  - split; [vm_refl|]. cbn [to_last_round_certificate toy_late_timeout timeout_new]. vm_refl.
  - rewrite (returns_ret (toy_node, [], tt) (timeout_catch_up (toy_wrapper 9) (2 : @NodeId toy_params) toy_late_timeout toy_node)) by vm_refl.
    fold toy_caught_up. by destruct toy_caught_up as [[? ?] []].
Defined.
End node_round_witnesses.
