(* ===== verification/Protocol.v ===== *)
(** * Agreement between nodes

    A network of nodes that run the pacemaker and the safety module: a node
    processes round certificates, votes for the valid proposals of its round,
    times out and refuses endorsements, and the certificates it acts on are
    made of statements that nodes which follow the protocol made before. The
    faulty nodes are not modelled: they say anything, at any time.

    The commit rule of quorum_certificate.rs is safe in the executions in
    which no node enters a round by a timeout certificate that extends an
    older quorum certificate than the one the node already has; ForgottenQc.v
    has an execution without this restriction that commits two conflicting
    blocks. *)
From S2P Require Import Prelude Types ChainConfig Interfaces MultiSig Certificates Concrete ValidatorSet SafetyModule VoteState NoEndorsementState Epochs Leader Pacemaker Messages Validation ValidationSpec Agreement BlockTree Timestamp ConsensusState ToyNet.

Section protocol.
Context `{P : Params} {CD : Codec} {CS : CertSignature} {AS : AuthorSigning} {SC : SignatureCollection}
        {LE : LeaderElection}.
Context (em : EpochManager) (vem : ValidatorsEpochMapping) (faulty : list NodeId).
Notation e2v := (epoch_to_validators em vem).

(** What a node signs. *)
Inductive statement :=
| StVote (v : Vote)
| StTimeout (ti : TimeoutInfo)
| StNoEndorse (ne : NoEndorsement).
#[global] Instance statement_eq_dec : EqDecision statement.
Proof. solve_decision. Defined.
Notation log := (list (NodeId * statement)).

(** ** Certificates made of earlier statements

    A certificate claims, of each of its signature collections, that its
    signers made a statement. A claim is known when those of them that are
    not faulty did. *)
Definition claim : Type := SigCol * SigningDomain * bytes * statement.
Definition qc_claims (qc : QuorumCertificate) : list claim :=
  [(qc_signatures qc, SdVote, rlp_vote (qc_info qc), StVote (qc_info qc))].
Definition nec_claims (nec : NoEndorsementCertificate) : list claim :=
  [(nec_signatures nec, SdNoEndorsement, rlp_no_endorsement (nec_msg nec), StNoEndorse (nec_msg nec))].
Definition tip_rounds_claims (epoch : Epoch) (round : Round) (l : list HighTipRoundSigColTuple) : list claim :=
  (λ t, let ti := mkTimeoutInfo epoch round (tr_high_qc_round t) (tr_high_tip_round t) in
        (tr_sigs t, SdTimeout, rlp_timeout_info ti, StTimeout ti)) <$> l.
Definition tip_claims (tip : ConsensusTip) : list claim :=
  qc_claims (bh_qc (tip_block_header tip)) ++
  match tip_fresh_certificate tip with
  | None => []
  | Some (Nec nec) => nec_claims nec
  | Some (NoTip nt) => tip_rounds_claims (nt_epoch nt) (nt_round nt) (nt_tip_rounds nt) ++ qc_claims (nt_high_qc nt)
  end.
Definition high_extend_claims (he : HighExtend) : list claim :=
  match he with HeQc qc => qc_claims qc | HeTip tip => tip_claims tip end.
Definition tc_claims (tc : TimeoutCertificate) : list claim :=
  tip_rounds_claims (tc_epoch tc) (tc_round tc) (tc_tip_rounds tc) ++ high_extend_claims (tc_high_extend tc).
Definition certificate_claims (c : RoundCertificate) : list claim :=
  match c with RcQc qc => qc_claims qc | RcTc tc => tc_claims tc end.

Definition claim_known (S : log) (c : claim) : Prop :=
  let '(sigs, d, msg, st) := c in
  ∀ epoch m nodes n, get_cert_pubkeys vem epoch = Some m → sc_verify sigs d m msg = Ok nodes →
    n ∈ nodes → n ∉ faulty → (n, st) ∈ S.
Definition known (S : log) (l : list claim) : Prop := ∀ c, c ∈ l → claim_known S c.

(** ** Nodes *)
Record Peer := mkPeer { pe_pacemaker : Pacemaker; pe_safety : Safety }.

(** What a node does: accept a certificate, consider a proposal, time out,
    consider a request for its endorsement, update the timeouts it has
    collected and its phase, or one of the operations of the safety module
    that sign none of the statements above. *)
Inductive action :=
| ActCertificate (c : RoundCertificate)
| ActProposal (p : ProposalMessage)
| ActTimeout
| ActRecovery (m : RoundRecoveryMessage)
| ActPending (pm : Pacemaker)
| ActOther (op : safety_op).

(** The statements in a timeout message the pacemaker asks for. *)
Definition timeout_statements (cmd : PacemakerCommand) : list statement :=
  match cmd with
  | PrepareTimeout ti he safe _ =>
      StTimeout ti ::
      match he with
      | HeTip tip => if safe then [StVote (mkVote (get_id (tip_block_header tip)) (ti_round ti) (ti_epoch ti))] else []
      | HeQc _ => []
      end
  | _ => []
  end.

(** [em] is the epoch manager at the time. *)
Definition peer_act (em : EpochManager) (p : Peer) (a : action) : outcome (Peer * list statement) :=
  let pm := pe_pacemaker p in
  let s := pe_safety p in
  match a with
  | ActCertificate c =>
      '(pm, s, _) ← pacemaker_process_certificate pm em s c;
      Ret (mkPeer pm s, [])
  | ActProposal m =>
      round ← get_current_round pm;
      let last := pr_last_round_tc m ≫= tc_tip_id in
      if negb (bool_decide (pr_proposal_round m = round) && is_safe_to_vote s round last) then Ret (p, []) else
      s ← safety_vote s round last (pr_tip m);
      Ret (mkPeer pm s, [StVote (mkVote (get_id (tip_block_header (pr_tip m))) round (pm_current_epoch pm))])
  | ActTimeout =>
      '(pm, s, cmds) ← process_local_timeout pm s;
      Ret (mkPeer pm s, cmds ≫= timeout_statements)
  | ActRecovery m =>
      round ← get_current_round pm;
      match tc_high_extend (rr_tc m) with
      | HeQc _ => Ret (p, [])
      | HeTip tip =>
          if negb (bool_decide (rr_round m = round) && is_safe_to_no_endorse s round) then Ret (p, []) else
          epoch ← expect (get_epoch em (rr_round m));
          s ← safety_no_endorse s round (get_id (tip_block_header tip));
          Ret (mkPeer pm s,
               [StNoEndorse (mkNoEndorsement epoch round (qc_get_round (bh_qc (tip_block_header tip))))])
      end
  | ActPending pm' =>
      if bool_decide (pm_high_certificate pm' = pm_high_certificate pm) then Ret (mkPeer pm' s, []) else Ret (p, [])
  | ActOther op =>
      match op with
      | OpPropose _ | OpRecoveryRequest _ | OpHandleProposal _ =>
          '(s, _) ← safety_exec s op;
          Ret (mkPeer pm s, [])
      | _ => Ret (p, [])
      end
  end.

(** A node acts on what is valid and made of statements already made. *)
Definition action_claims (a : action) : list claim :=
  match a with
  | ActCertificate c => certificate_claims c
  | ActProposal p => tip_claims (pr_tip p) ++ from_option tc_claims [] (pr_last_round_tc p)
  | ActRecovery m => tc_claims (rr_tc m)
  | ActTimeout | ActPending _ | ActOther _ => []
  end.
Definition action_valid (a : action) : Prop :=
  match a with
  | ActCertificate c => round_certificate_valid em vem c
  | ActProposal p => message_valid em vem (PmProposal p)
  | ActRecovery m => message_valid em vem (PmRoundRecovery m)
  | ActTimeout | ActPending _ | ActOther _ => True
  end.
Definition action_ok (S : log) (a : action) : Prop := action_valid a ∧ known S (action_claims a).

(** The certificate extends a certificate at least as recent as the one the
    node has, unless it is of an earlier round and ignored. *)
Definition keeps_certificate (p : Peer) (a : action) : Prop :=
  match a with
  | ActCertificate c =>
      round_certificate_round c ≤ round_certificate_round (pm_high_certificate (pe_pacemaker p)) ∨
      high_certificate_qc_round (pe_safety p) ≤ qc_get_round (round_certificate_qc c)
  | _ => True
  end.

(** ** The network *)
Record Network := mkNetwork { peers : gmap NodeId Peer; said : log }.

Inductive network_step (N : Network) : Network → Prop :=
| network_act em' n p a p' says :
    peers N !! n = Some p → action_ok (said N) a → keeps_certificate p a →
    peer_act em' p a = Ret (p', says) →
    network_step N (mkNetwork (<[n := p']> (peers N)) (((n,.) <$> says) ++ said N)).

(** A node that starts from the genesis certificate. *)
Definition peer_initial (p : Peer) : Prop :=
  ∃ g, genesis_qc = Ret g ∧ pm_high_certificate (pe_pacemaker p) = RcQc g ∧
       safety_new (RcQc g) None = Ret (pe_safety p).
Definition network_initial (N : Network) : Prop :=
  said N = [] ∧ ∀ n p, peers N !! n = Some p → peer_initial p.

(** [b'] is [b] or a descendant of it. *)
Inductive descends (b : BlockId) : BlockId → Prop :=
| descends_refl : descends b b
| descends_child h : descends b (get_parent_id h) → descends b (get_id h).

(** ** What certificates say of the log *)

Definition quorum (Q : list NodeId) : Prop :=
  ∃ round epoch vs, get_epoch em round = Some epoch ∧ get_val_set vem epoch = Some vs ∧
    has_super_majority_votes vs Q = Ret (Ok true).
(** Every member of a quorum that is not faulty satisfies [Φ]. *)
Definition by_quorum (Φ : NodeId → Prop) : Prop := ∃ Q, quorum Q ∧ ∀ n, n ∈ Q → n ∉ faulty → Φ n.

Definition voted (S : log) (n : NodeId) (r : Round) (id : BlockId) : Prop := ∃ e, (n, StVote (mkVote id r e)) ∈ S.
Definition certified (S : log) (r : Round) (id : BlockId) : Prop :=
  r = GENESIS_ROUND ∧ id = GENESIS_BLOCK_ID ∨ by_quorum (λ n, voted S n r id).
Definition timed_out (S : log) (r : Round) (rank : HighExtendRank) : Prop :=
  by_quorum (λ n, ∃ ti, (n, StTimeout ti) ∈ S ∧ ti_round ti = r ∧ rank_le (timeout_info_rank ti) rank).
Definition refused (S : log) (r q : Round) : Prop :=
  by_quorum (λ n, ∃ ne, (n, StNoEndorse ne) ∈ S ∧ ne_round ne = r ∧ ne_tip_qc_round ne = q).

Definition qc_round (h : ConsensusBlockHeader) : Round := qc_get_round (bh_qc h).
(** The block extends a certified one, and was proposed in the next round or
    after the round before it timed out. *)
Definition justified (S : log) (h : ConsensusBlockHeader) : Prop :=
  certified S (qc_round h) (get_parent_id h) ∧
  (bh_block_round h = qc_round h + 1 ∨ refused S (bh_block_round h) (qc_round h) ∨
   ∃ u, bh_block_round h = u + 1 ∧ qc_round h ≤ u ∧ timed_out S u (RankQc (qc_round h))).
Definition extend_justified (S : log) (he : HighExtend) : Prop :=
  match he with
  | HeQc qc => certified S (qc_get_round qc) (qc_get_block_id qc)
  | HeTip tip => justified S (tip_block_header tip)
  end.
(** The reason to vote for block [h] in round [r]. *)
Definition votable (S : log) (r : Round) (h : ConsensusBlockHeader) : Prop :=
  justified S h ∧
  (r = qc_round h + 1 ∨
   ∃ u he, r = u + 1 ∧ qc_round h ≤ u ∧ qc_get_round (high_extend_qc he) = qc_round h ∧
     extend_justified S he ∧ timed_out S u (high_extend_rank he)).

(** ** Lemmas *)

Lemma by_quorum_mono Φ Ψ : (∀ n, Φ n → Ψ n) → by_quorum Φ → by_quorum Ψ.
Proof. intros H (Q & HQ & Hall). exists Q. eauto. Qed.

Lemma voted_mono S S' n r id : S ⊆ S' → voted S n r id → voted S' n r id.
Proof. intros HS [e He]. exists e. auto. Qed.
Lemma certified_mono S S' r id : S ⊆ S' → certified S r id → certified S' r id.
Proof.
  intros HS [?|H]; [by left|right]. revert H. apply by_quorum_mono. intros n. by apply voted_mono.
Qed.
Lemma justified_mono S S' h : S ⊆ S' → justified S h → justified S' h.
Proof.
  intros HS [Hc Hf]. split; [by eapply certified_mono|].
  destruct Hf as [?|[Hf|(u & ? & ? & Hf)]]; [by left|right; left|right; right; exists u; split_and!; [done..|]];
    revert Hf; apply by_quorum_mono; naive_solver.
Qed.

Lemma known_app S l k : known S (l ++ k) ↔ known S l ∧ known S k.
Proof. unfold known. setoid_rewrite elem_of_app. naive_solver. Qed.
Lemma known_one S sigs d msg st epoch m nodes n : known S [(sigs, d, msg, st)] →
  get_cert_pubkeys vem epoch = Some m → sc_verify sigs d m msg = Ok nodes → n ∈ nodes → n ∉ faulty → (n, st) ∈ S.
Proof. intros Hk. apply (Hk (sigs, d, msg, st) ltac:(left)). Qed.

Lemma follows_true r q : immediately_follows r q = true → r = q + 1.
Proof. intros ?%immediately_follows_true. lia. Qed.

Section facts.
Context (S : log).

Lemma qc_certified qc : qc_valid e2v qc → known S (qc_claims qc) → certified S (qc_get_round qc) (qc_get_block_id qc).
Proof.
  intros (vs & m & ld & He & Hq) Hk. apply epoch_to_validators_ok in He as (He & Hvs & Hm).
  case_decide as Hg.
  - left. split; [done|]. unfold genesis_qc in Hq. case_match; simplify_eq. done.
  - destruct Hq as (nodes & Hv & Hsup). right. exists nodes. split; [by eexists _, _, _|].
    intros n Hn Hnf. exists (qc_get_epoch qc). pose proof (known_one _ _ _ _ _ _ _ _ _ Hk Hm Hv Hn Hnf) as Hin.
    unfold qc_get_round, qc_get_block_id, qc_get_epoch. by destruct (qc_info qc).
Qed.

Lemma nec_refused nec : nec_valid e2v nec → known S (nec_claims nec) →
  refused S (ne_round (nec_msg nec)) (ne_tip_qc_round (nec_msg nec)).
Proof.
  intros (vs & m & ld & nodes & He & Hv & Hsup) Hk. apply epoch_to_validators_ok in He as (He & Hvs & Hm).
  exists nodes. split; [by eexists _, _, _|]. intros n Hn Hnf. exists (nec_msg nec).
  split; [by eapply known_one|done].
Qed.

Lemma tc_timed_out V tc : tc_valid_with e2v V tc →
  known S (tip_rounds_claims (tc_epoch tc) (tc_round tc) (tc_tip_rounds tc)) →
  timed_out S (tc_round tc) (high_extend_rank (tc_high_extend tc)) ∧ V (tc_high_extend tc) ∧
  (qc_get_round (high_extend_qc (tc_high_extend tc)) ≤ tc_round tc).
Proof.
  intros (vs & m & ld & signers & He & _ & Hsig & _ & Hsup & HV & Hin & Hmax) Hk.
  apply epoch_to_validators_ok in He as (He & Hvs & Hm). split_and!; [|done|].
  - exists (concat signers). split; [by eexists _, _, _|].
    intros n Hn Hnf. apply list_elem_of_In, in_concat in Hn as (l & Hl%list_elem_of_In & Hn%list_elem_of_In).
    apply list_elem_of_lookup in Hl as [i Hi].
    destruct (Forall2_lookup_r _ _ _ _ _ Hsig Hi) as (t & Ht & _ & _ & Hv).
    apply list_elem_of_lookup_2 in Ht.
    eexists. split; [eapply (Hk (_, _, _, _)); [apply list_elem_of_fmap; by exists t|done..]|]. split; [done|].
    apply Hmax. right. apply list_elem_of_fmap. by exists t.
  - apply elem_of_cons in Hin as [Hin|Hin].
    + unfold GENESIS_ROUND in Hin. destruct (tc_high_extend tc) as [tip|qc]; simpl in *; [done|].
      injection Hin. lia.
    + apply list_elem_of_fmap in Hin as (t & Hin & Ht).
      apply list_elem_of_lookup in Ht as [i Hi].
      destruct (Forall2_lookup_l _ _ _ _ _ Hsig Hi) as (nodes & _ & Hlt & _ & _).
      unfold tip_rounds_rank, timeout_info_rank, rank_of_rounds in Hin. 
      destruct (tc_high_extend tc); simpl in *; case_bool_decide; simplify_eq/=; lia.
Qed.

Lemma tip_justified tip : tip_valid e2v tip → known S (tip_claims tip) → justified S (tip_block_header tip).
Proof.
  intros (vs & m & ld & _ & _ & _ & Hfit & Hqc & Hfresh) [Hk Hkf]%known_app.
  split; [by apply qc_certified|]. unfold fresh_certificate_fits in Hfit. unfold qc_round.
  destruct (immediately_follows _ _) eqn:Hf; [left; by apply follows_true|right].
  destruct (tip_fresh_certificate tip) as [[nec|nt]|]; [| |done].
  - left. apply andb_true_iff in Hfit as [<-%bool_decide_eq_true <-%bool_decide_eq_true].
    by apply nec_refused.
  - right. apply andb_true_iff in Hfit as [Hw%follows_true Hq%bool_decide_eq_true].
    destruct (tc_timed_out _ (no_tip_tc nt) Hfresh) as (Ht & _ & Hle); [by apply known_app in Hkf as [? _]|].
    simpl in *. rewrite Hq in *. eauto.
Qed.

Lemma tc_extend_justified tc : tc_valid e2v tc → known S (tc_claims tc) →
  timed_out S (tc_round tc) (high_extend_rank (tc_high_extend tc)) ∧
  extend_justified S (tc_high_extend tc) ∧ qc_get_round (high_extend_qc (tc_high_extend tc)) ≤ tc_round tc.
Proof.
  intros Hv [Hk Hke]%known_app. destruct (tc_timed_out _ tc Hv Hk) as (Ht & Hhe & Hle). split_and!; [done| |done].
  destruct (tc_high_extend tc); [by apply tip_justified|by apply qc_certified].
Qed.

Lemma proposal_votable m : action_ok S (ActProposal m) → votable S (pr_proposal_round m) (tip_block_header (pr_tip m)).
Proof.
  intros [([_ Hwf] & _ & Htip & Htc) [Hk Hktc]%known_app]. split; [by apply tip_justified|].
  destruct (pr_last_round_tc m) as [tc|]; [|left; by apply follows_true].
  destruct Hwf as (_ & Hu%follows_true & Hext). right.
  destruct (tc_extend_justified tc Htc Hktc) as (Ht & Hj & Hle).
  assert (qc_get_round (high_extend_qc (tc_high_extend tc)) = qc_round (tip_block_header (pr_tip m))) as Hq.
  { destruct Hext as [->|[Hq _]]; done. }
  exists (tc_round tc), (tc_high_extend tc). rewrite <- Hq. done.
Qed.
End facts.

(** ** The effect of an action *)
Definition pe_round (p : Peer) : Round := round_certificate_round (pm_high_certificate (pe_pacemaker p)) + 1.
Definition pe_extends (p : Peer) : Round := qc_get_round (round_certificate_qc (pm_high_certificate (pe_pacemaker p))).

(** The round, the certificate extended, and the fields of the safety module
    that matter. *)
Record peer_view := mkView {
  pv_round : Round; pv_extends : Round; pv_tip : option ConsensusTip;
  pv_certificate : Round; pv_vote : Round; pv_no_endorse : Round;
}.
Definition view (p : Peer) : peer_view :=
  let s := pe_safety p in
  mkView (pe_round p) (pe_extends p) (maybe_high_tip s) (high_certificate_qc_round s) (highest_vote s)
    (hne_round (highest_no_endorse s)).

Definition drop_tip (tip : option ConsensusTip) (q : Round) : option ConsensusTip :=
  tip ≫= λ t, if bool_decide (q < tip_block_round t) then Some t else None.

(** The vote of a timeout, when it has one. *)
Definition tip_votes (p : peer_view) (safe : bool) (e : Epoch) : list statement :=
  match pv_tip p with
  | Some t => if safe then [StVote (mkVote (get_id (tip_block_header t)) (pv_round p) e)] else []
  | None => []
  end.

Inductive effect (S : log) (p : peer_view) : peer_view → list statement → Prop :=
| effect_none : effect S p p []
| effect_certificate r q :
    pv_round p < r → pv_certificate p ≤ q →
    effect S p (mkView r q (drop_tip (pv_tip p) q) q (pv_vote p) (pv_no_endorse p)) []
| effect_vote tip e :
    let h := tip_block_header tip in
    votable S (pv_round p) h → pv_vote p < pv_round p →
    effect S p (mkView (pv_round p) (pv_extends p) (drop_tip (Some tip) (pv_certificate p)) (pv_certificate p)
                  (pv_round p) (pv_no_endorse p))
      [StVote (mkVote (get_id h) (pv_round p) e)]
| effect_timeout ti safe e :
    pv_vote p ≤ pv_round p → ti_round ti = pv_round p →
    timeout_info_rank ti = match pv_tip p with
                           | Some t => rank_of_rounds (qc_round (tip_block_header t)) (tip_block_round t)
                           | None => RankQc (pv_extends p)
                           end →
    effect S p (mkView (pv_round p) (pv_extends p) (pv_tip p) (pv_certificate p) (pv_round p) (pv_no_endorse p))
      (StTimeout ti :: tip_votes p safe e)
| effect_no_endorse tip u ne :
    let h := tip_block_header tip in
    pv_round p = u + 1 → qc_round h ≤ u → justified S h → timed_out S u (high_extend_rank (HeTip tip)) →
    ne_round ne = pv_round p → ne_tip_qc_round ne = qc_round h → pv_no_endorse p < pv_round p →
    effect S p (mkView (pv_round p) (pv_extends p) (pv_tip p) (pv_certificate p) (pv_vote p) (pv_round p))
      [StNoEndorse ne].

Lemma current_round_pe p r : get_current_round (pe_pacemaker p) = Ret r → r = pe_round p.
Proof. unfold get_current_round, pe_round. intros H%round_add_ret. lia. Qed.

Lemma process_certificate_view pm s c :
  high_certificate_qc_round s ≤ qc_get_round (round_certificate_qc c) →
  view (mkPeer {| pm with pm_high_certificate := c |} (safety_process_certificate s c)) =
  let q := qc_get_round (round_certificate_qc c) in
  mkView (round_certificate_round c + 1) q (drop_tip (maybe_high_tip s) q) q (highest_vote s)
    (hne_round (highest_no_endorse s)).
Proof.
  intros Hle. unfold view, safety_process_certificate, pe_round, pe_extends, drop_tip. simpl.
  set (q := qc_get_round _) in *. clearbody q.
  destruct (decide (high_certificate_qc_round s < q)) as [Hlt|Hlt];
    [rewrite (bool_decide_eq_true_2 (_ < q)) by done|rewrite (bool_decide_eq_false_2 (high_certificate_qc_round s < q)) by done];
    try (replace (high_certificate_qc_round s) with q by lia);
    destruct (maybe_high_tip s) as [t|] eqn:Ht; simpl; rewrite ?Ht; simpl; try done;
    repeat case_bool_decide; simpl; rewrite ?Ht; try lia; try done; f_equal; lia.
Qed.

Lemma certificate_effect S em' p pm s c cmds : keeps_certificate p (ActCertificate c) →
  pacemaker_process_certificate (pe_pacemaker p) em' (pe_safety p) c = Ret (pm, s, cmds) →
  effect S (view p) (view (mkPeer pm s)) [].
Proof.
  intros Hkeep Hc. unfold pacemaker_process_certificate in Hc. case_bool_decide as Hr.
  { injection Hc as <- <- _. destruct p. constructor. }
  destruct Hkeep as [?|Hkeep]; [lia|]. monad_inv Hc. injection Hc as <- <- _.
  match goal with |- effect _ _ ?v _ =>
    change v with (view (mkPeer {| (pe_pacemaker p) with pm_high_certificate := c |}
                           (safety_process_certificate (pe_safety p) c))) end.
  rewrite process_certificate_view by done. apply effect_certificate; [unfold view, pe_round; simpl; lia|done].
Qed.

Lemma safe_to_vote_above s r last : is_safe_to_vote s r last = true → highest_vote s < r.
Proof. unfold is_safe_to_vote. destruct (_ && _); [done|]. apply bool_decide_eq_true. Qed.

Lemma proposal_effect S p m s r : action_ok S (ActProposal m) →
  pr_proposal_round m = pe_round p → r = pe_round p →
  safety_vote (pe_safety p) r (pr_last_round_tc m ≫= tc_tip_id) (pr_tip m) = Ret s →
  effect S (view p) (view (mkPeer (pe_pacemaker p) s))
    [StVote (mkVote (get_id (tip_block_header (pr_tip m))) r (pm_current_epoch (pe_pacemaker p)))].
Proof.
  intros Hok%proposal_votable Hr -> Hv. rewrite Hr in Hok. unfold safety_vote in Hv. monad_inv Hv.
  apply safe_to_vote_above in Hv0.
  assert (view (mkPeer (pe_pacemaker p) s) =
    mkView (pe_round p) (pe_extends p) (drop_tip (Some (pr_tip m)) (high_certificate_qc_round (pe_safety p)))
      (high_certificate_qc_round (pe_safety p)) (pe_round p) (hne_round (highest_no_endorse (pe_safety p)))) as ->.
  { unfold drop_tip. simpl in *. case_bool_decide; injection Hv as <-; done. }
  by apply effect_vote.
Qed.

(** [effect_timeout] up to the tip. *)
Lemma effect_timeout_of S p p' ti he safe e :
  pv_vote (view p) ≤ pe_round p → ti_round ti = pe_round p → ti_epoch ti = e →
  view p' = mkView (pe_round p) (pe_extends p) (maybe_high_tip (pe_safety p)) (high_certificate_qc_round (pe_safety p))
              (pe_round p) (hne_round (highest_no_endorse (pe_safety p))) →
  timeout_info_rank ti = match maybe_high_tip (pe_safety p) with
                         | Some t => rank_of_rounds (qc_round (tip_block_header t)) (tip_block_round t)
                         | None => RankQc (pe_extends p)
                         end →
  he = match maybe_high_tip (pe_safety p) with
       | Some t => HeTip t
       | None => HeQc (round_certificate_qc (pm_high_certificate (pe_pacemaker p)))
       end →
  effect S (view p) (view p') (timeout_statements (PrepareTimeout ti he safe None)).
Proof.
  intros Hv Hr He -> Hrank ->.
  pose proof (effect_timeout S (view p) ti safe e Hv Hr Hrank) as H. unfold tip_votes in H. simpl in *.
  destruct (maybe_high_tip (pe_safety p)); [|exact H]. rewrite Hr, He. exact H.
Qed.

Lemma timeout_effect S p pm s cmds : process_local_timeout (pe_pacemaker p) (pe_safety p) = Ret (pm, s, cmds) →
  effect S (view p) (view (mkPeer pm s)) (cmds ≫= timeout_statements).
Proof.
  intros H. unfold process_local_timeout, local_timeout_round in H. apply bind_ret_inv in H as ([s1 c1] & H & [= <- <- <-]).
  apply bind_ret_inv in H as (r & Hr & H). apply (current_round_pe p) in Hr as ->.
  apply bind_ret_inv in H as ([s2 safe] & Hs & H). unfold safety_timeout in Hs. apply bind_ret_inv in Hs as (? & Hle%rust_assert_ret_inv & [= <- _]).
  apply bool_decide_eq_true in Hle. cbn [maybe_high_tip] in H.
  set (he := match maybe_high_tip (pe_safety p) with Some t => HeTip t | None => _ end) in H.
  set (rounds := match he with HeTip t => _ | HeQc qc => _ end) in H.
  destruct rounds as [tr qr] eqn:Hrounds. monad_inv H. injection H as <- <-.
  change (effect S (view p) (view (mkPeer {| (pe_pacemaker p) with pm_phase := PhOne |}
    {| (pe_safety p) with highest_vote := pe_round p |}))
    (timeout_statements (PrepareTimeout (mkTimeoutInfo (pm_current_epoch (pe_pacemaker p)) (pe_round p) qr tr) he safe None) ++ [])).
  rewrite app_nil_r. eapply effect_timeout_of; try done.
  subst rounds he. unfold timeout_info_rank. simpl. destruct (maybe_high_tip (pe_safety p)); by simplify_eq/=.
Qed.

Lemma recovery_effect S p m tip s r e : action_ok S (ActRecovery m) → tc_high_extend (rr_tc m) = HeTip tip →
  rr_round m = r → r = pe_round p →
  safety_no_endorse (pe_safety p) r (get_id (tip_block_header tip)) = Ret s →
  effect S (view p) (view (mkPeer (pe_pacemaker p) s))
    [StNoEndorse (mkNoEndorsement e r (qc_get_round (bh_qc (tip_block_header tip))))].
Proof.
  intros (((Hu%follows_true & _) & _ & Hv) & Hk) He Hr -> Hs. unfold safety_no_endorse in Hs. monad_inv Hs.
  injection Hs as <-. apply bool_decide_eq_true in Hv0.
  destruct (tc_extend_justified S _ Hv Hk) as (Ht & Hj & Hle). rewrite He in *. simpl in Hj, Hle.
  apply (effect_no_endorse S (view p) tip (tc_round (rr_tc m))); try done; simpl; lia.
Qed.

Lemma other_effect p op s evs : op_round op = None → (∀ c, op ≠ OpCertificate c) →
  safety_exec (pe_safety p) op = Ret (s, evs) → view (mkPeer (pe_pacemaker p) s) = view p.
Proof.
  intros Hr Hc H. destruct op; try done; [by destruct (Hc c)| | |]; simpl in H; apply bind_ret_inv in H as (s1 & H & [= <- _]);
    [unfold safety_propose in H|unfold safety_recovery_request in H|unfold safety_handle_proposal in H];
    apply bind_ret_inv in H as (? & _ & [= <-]); done.
Qed.

Lemma peer_act_effect S em' p a p' says : action_ok S a → keeps_certificate p a →
  peer_act em' p a = Ret (p', says) → effect S (view p) (view p') says.
Proof.
  intros Hok Hkeep H. destruct a as [c|m| |m|pm'|op]; cbn [peer_act] in H.
  - apply bind_ret_inv in H as ([[pm s] cmds] & Hc & [= <- <-]). by eapply certificate_effect.
  - apply bind_ret_inv in H as (r & Hr & H). apply (current_round_pe p) in Hr as ->.
    destruct (_ && _) eqn:Hb in H; simpl in H; [|injection H as <- <-; constructor].
    apply bind_ret_inv in H as (s & Hs & [= <- <-]).
    apply andb_true_iff in Hb as [Hb%bool_decide_eq_true _]. by apply proposal_effect.
  - apply bind_ret_inv in H as ([[pm s] cmds] & Hc & [= <- <-]). by apply timeout_effect.
  - apply bind_ret_inv in H as (r & Hr & H). apply (current_round_pe p) in Hr as ->.
    destruct (tc_high_extend (rr_tc m)) as [tip|] eqn:Hhe; [|injection H as <- <-; constructor].
    destruct (_ && _) eqn:Hb in H; simpl in H; [|injection H as <- <-; constructor].
    apply bind_ret_inv in H as (e & _ & H). apply bind_ret_inv in H as (s & Hs & [= <- <-]).
    apply andb_true_iff in Hb as [Hb%bool_decide_eq_true _]. by apply (recovery_effect _ _ m).
  - case_bool_decide as Hpm; injection H as <- <-; [|constructor].
    assert (view (mkPeer pm' (pe_safety p)) = view p) as -> by (unfold view, pe_round, pe_extends; simpl; by rewrite Hpm).
    constructor.
  - destruct op; try (injection H as <- <-; constructor);
      apply bind_ret_inv in H as ([s evs] & Hs & [= <- <-]); apply other_effect in Hs; try done; rewrite Hs; constructor.
Qed.

(** ** Invariant of a node *)
Implicit Types (S : log) (n m : NodeId).
Record node_inv (S : log) (n : NodeId) (v : peer_view) : Prop := {
  nv_round : pv_vote v ≤ pv_round v;
  nv_extends : pv_certificate v = pv_extends v;
  nv_tip : ∀ t, pv_tip v = Some t →
    ∃ r, voted S n r (get_id (tip_block_header t)) ∧ qc_round (tip_block_header t) < r;
  nv_votes : ∀ r id, voted S n r id → r ≤ pv_vote v;
  nv_top : ∀ id t, voted S n (pv_vote v) id → pv_tip v = Some t → id = get_id (tip_block_header t);
  nv_unique : ∀ r id id', voted S n r id → voted S n r id' → id = id';
  nv_timeouts : ∀ ti, (n, StTimeout ti) ∈ S → ti_round ti ≤ pv_vote v;
}.

Lemma voted_app S n m says r id : voted (((m,.) <$> says) ++ S) n r id ↔
  n = m ∧ (∃ e, StVote (mkVote id r e) ∈ says) ∨ voted S n r id.
Proof.
  unfold voted. setoid_rewrite elem_of_app. setoid_rewrite list_elem_of_fmap. naive_solver.
Qed.
Lemma said_app S n m says st : (n, st) ∈ ((m,.) <$> says) ++ S ↔ n = m ∧ st ∈ says ∨ (n, st) ∈ S.
Proof. rewrite elem_of_app, list_elem_of_fmap. naive_solver. Qed.
Lemma voted_one h r e id r' : (∃ e', StVote (mkVote id r' e') ∈ [StVote (mkVote h r e)]) ↔ id = h ∧ r' = r.
Proof. setoid_rewrite list_elem_of_singleton. naive_solver. Qed.

Lemma drop_tip_Some tip q t : drop_tip tip q = Some t ↔ tip = Some t ∧ q < tip_block_round t.
Proof.
  unfold drop_tip. destruct tip as [t'|]; simpl; [|naive_solver]. case_bool_decide; naive_solver.
Qed.

Lemma votable_lt S r h : votable S r h → qc_round h < r.
Proof. intros [_ [->|(u & he & -> & ? & _)]]; lia. Qed.

Lemma node_inv_other S n m says v : n ≠ m → node_inv S n v → node_inv (((m,.) <$> says) ++ S) n v.
Proof.
  intros Hne [H1 H2 H3 H4 H5 H6 H7].
  assert (∀ r id, voted (((m,.) <$> says) ++ S) n r id ↔ voted S n r id) as Hv by (intros; rewrite voted_app; naive_solver).
  split; try done; repeat setoid_rewrite Hv; try done. setoid_rewrite said_app. naive_solver.
Qed.

(** A node that signs a vote for [id], in a later round than all before, or
    again for its tip. *)
Lemma node_inv_vote S n v h r e tip : node_inv S n v → pv_vote v ≤ r →
  (pv_vote v < r ∨ ∃ t, pv_tip v = Some t ∧ h = get_id (tip_block_header t)) →
  (∀ t, tip = Some t → h = get_id (tip_block_header t) ∧ ∃ r', qc_round (tip_block_header t) < r' ∧
     (r' = r ∨ voted S n r' h)) →
  r ≤ pv_round v →
  node_inv (((n,.) <$> [StVote (mkVote h r e)]) ++ S) n
    (mkView (pv_round v) (pv_extends v) tip (pv_certificate v) r (pv_no_endorse v)).
Proof.
  intros [H1 H2 H3 H4 H5 H6 H7] Hle Hnew Htip Hr.
  assert (∀ id, voted S n r id → id = h) as Hold.
  { intros id Hid. destruct Hnew as [Hlt|(t & Ht & ->)]; [apply H4 in Hid; lia|].
    apply H4 in Hid as Hr'. replace r with (pv_vote v) in Hid by lia. by eapply H5. }
  assert (∀ r' id, voted (((n,.) <$> [StVote (mkVote h r e)]) ++ S) n r' id ↔ (id = h ∧ r' = r) ∨ voted S n r' id) as Hv.
  { intros r' id. rewrite voted_app, voted_one. naive_solver. }
  split; repeat setoid_rewrite Hv; cbn [pv_round pv_extends pv_tip pv_certificate pv_vote]; try done.
  - intros t Ht. destruct (Htip t Ht) as (-> & r' & Hlt & [->|Hr']); [exists r|exists r']; eauto.
  - intros r' id [(_ & ->)|Hid]; [done|]. apply H4 in Hid. lia.
  - intros id t Hid Ht. destruct (Htip t Ht) as [<- _]. destruct Hid as [[-> _]|Hid]; eauto.
  - intros r' id id' [[-> ->]|Hid] [[-> Hr']|Hid']; subst; eauto. symmetry. eauto.
  - intros ti [(_ & Hin%list_elem_of_singleton)|Hti]%said_app; [done|]. apply H7 in Hti. lia.
Qed.

Lemma node_inv_statement S n v st : node_inv S n v →
  match st with StVote _ => False | StTimeout ti => ti_round ti ≤ pv_vote v | StNoEndorse _ => True end →
  node_inv ((n, st) :: S) n v.
Proof.
  intros [H1 H2 H3 H4 H5 H6 H7] Hst.
  assert (∀ r id, voted ((n, st) :: S) n r id ↔ voted S n r id) as Hv.
  { intros r id. unfold voted. setoid_rewrite elem_of_cons. destruct st; naive_solver. }
  split; repeat setoid_rewrite Hv; try done.
  intros ti [[= <-]|Hti]%elem_of_cons; auto.
Qed.

Lemma node_inv_timeout S n v safe e : node_inv S n v →
  node_inv (((n,.) <$> tip_votes v safe e) ++ S) n
    (mkView (pv_round v) (pv_extends v) (pv_tip v) (pv_certificate v) (pv_round v) (pv_no_endorse v)).
Proof.
  intros Hinv. pose proof Hinv as [H1 H2 H3 H4 H5 H6 H7].
  assert (node_inv S n (mkView (pv_round v) (pv_extends v) (pv_tip v) (pv_certificate v) (pv_round v) (pv_no_endorse v)))
    as Hquiet.
  { split; simpl; try done.
    - intros r id Hv%H4. lia.
    - intros id t Hv Ht. apply H4 in Hv as Hv'. replace (pv_round v) with (pv_vote v) in Hv by lia. eauto.
    - intros ti' Hti'%H7. lia. }
  unfold tip_votes. destruct (pv_tip v) as [t|] eqn:Ht; [|done]. destruct safe; [|done].
  apply node_inv_vote; try done; [right; by exists t|].
  intros t' [= <-]. split; [done|]. destruct (H3 t eq_refl) as (r & Hv & Hlt). exists r. auto.
Qed.

Lemma node_inv_effect S n v v' says : node_inv S n v → effect S v v' says →
  node_inv (((n,.) <$> says) ++ S) n v'.
Proof.
  intros Hinv He. pose proof Hinv as [H1 H2 H3 H4 H5 H6 H7].
  destruct He as [|r q Hr Hq|tip e h Hvote Hlt|ti safe e Hle Hti Hrank|tip u ne h Hu Hq Hj Ht Hr Hqr Hlt].
  - done.
  - split; simpl; try done; [lia| |]; intros *; [intros [Ht _]%drop_tip_Some; eauto|].
    intros Hv [Ht _]%drop_tip_Some. eauto.
  - apply node_inv_vote; try done; [by left|]. intros t [[= <-] _]%drop_tip_Some.
    split; [done|]. exists (pv_round v). split; [by eapply votable_lt|by left].
  - rewrite fmap_cons, <- app_comm_cons. apply node_inv_statement; [by apply node_inv_timeout|simpl; lia].
  - rewrite fmap_cons, <- app_comm_cons. apply node_inv_statement; [by destruct Hinv|done].
Qed.

(** ** Invariant of the network *)
Record network_inv (N : Network) : Prop := {
  nn_nodes : ∀ n p, peers N !! n = Some p → node_inv (said N) n (view p);
  nn_dom : ∀ n st, (n, st) ∈ said N → is_Some (peers N !! n);
  nn_votes : ∀ n r id, voted (said N) n r id → ∃ h, get_id h = id ∧ justified (said N) h ∧ qc_round h < r;
  nn_refusals : ∀ n ne, (n, StNoEndorse ne) ∈ said N → ne_tip_qc_round ne < ne_round ne;
}.

(** A step, with the action replaced by its effect. *)
Inductive view_step (N : Network) : Network → Prop :=
| view_act n p p' says : peers N !! n = Some p → effect (said N) (view p) (view p') says →
    view_step N (mkNetwork (<[n := p']> (peers N)) (((n,.) <$> says) ++ said N)).

Lemma network_view_step N N' : network_step N N' → view_step N N'.
Proof. intros [em' n p a p' says Hp Hok Hkeep Hact]. econstructor; [done|]. by eapply peer_act_effect. Qed.

Lemma view_step_said N N' : view_step N N' → said N ⊆ said N'.
Proof. intros [n p p' says _ _]. simpl. set_solver. Qed.
Lemma view_steps_said N N' : rtc view_step N N' → said N ⊆ said N'.
Proof. induction 1 as [|N1 N2 N3 H _ IH]; [done|]. by rewrite (view_step_said _ _ H). Qed.

(** The statements of an effect. *)
Lemma effect_says S n v v' says st : node_inv S n v → effect S v v' says → st ∈ says →
  match st with
  | StVote w => vote_round w = pv_round v ∧
      ((∃ h, vote_id w = get_id h ∧ votable S (pv_round v) h ∧ pv_vote v < pv_round v) ∨
       ∃ t, pv_tip v = Some t ∧ vote_id w = get_id (tip_block_header t))
  | StTimeout ti => ti_round ti = pv_round v ∧
      timeout_info_rank ti = match pv_tip v with
                             | Some t => rank_of_rounds (qc_round (tip_block_header t)) (tip_block_round t)
                             | None => RankQc (pv_certificate v)
                             end
  | StNoEndorse ne => ∃ tip u, let h := tip_block_header tip in
      ne_round ne = u + 1 ∧ ne_tip_qc_round ne = qc_round h ∧ qc_round h ≤ u ∧ justified S h ∧
      timed_out S u (high_extend_rank (HeTip tip))
  end.
Proof.
  intros Hinv He Hst. rewrite (nv_extends _ _ _ Hinv). destruct He as [|r q|tip e h Hvote Hlt|ti safe e Hle Hti Hrank|tip u ne h Hu Hq Hj Ht Hr Hqr Hlt].
  - by apply elem_of_nil in Hst.
  - by apply elem_of_nil in Hst.
  - apply list_elem_of_singleton in Hst as ->. simpl. eauto 6.
  - apply elem_of_cons in Hst as [->|Hst]; [done|]. unfold tip_votes in Hst.
    destruct (pv_tip v) as [t|]; [|by apply elem_of_nil in Hst]. destruct safe; [|by apply elem_of_nil in Hst].
    apply list_elem_of_singleton in Hst as ->. simpl. eauto.
  - apply list_elem_of_singleton in Hst as ->. exists tip, u. simpl. split_and!; congruence || done.
Qed.

Lemma network_inv_step N N' : view_step N N' → network_inv N → network_inv N'.
Proof.
  intros Hstep Hinv. pose proof (view_step_said _ _ Hstep) as Hsub.
  destruct Hstep as [n p p' says Hp He]. destruct Hinv as [H1 H2 H3 H4]. pose proof (H1 _ _ Hp) as Hn.
  split; simpl in *.
  - intros m q. destruct (decide (m = n)) as [->|Hne].
    + rewrite lookup_insert_eq. intros [= <-]. by apply node_inv_effect with (view p).
    + rewrite lookup_insert_ne by done. intros Hq. apply node_inv_other; auto.
  - intros m st [[-> _]|Hm%H2]%said_app; [rewrite lookup_insert_eq; eauto|].
    destruct (decide (m = n)) as [->|]; [rewrite lookup_insert_eq; eauto|by rewrite lookup_insert_ne].
  - intros m r id [(-> & e & Hst)|Hv]%voted_app.
    + destruct (effect_says _ _ _ _ _ _ Hn He Hst) as [Hr [(h & Hid & Hv & _)|(t & Ht & Hid)]]; simpl in *; subst.
      * exists h. split; [done|]. split; [|by eapply votable_lt]. apply justified_mono with (said N); [done|apply Hv].
      * destruct (nv_tip _ _ _ Hn _ Ht) as (r & Hv & Hlt). destruct (H3 _ _ _ Hv) as (h & Hid & Hj & Hq).
        exists h. split; [done|]. split; [by eapply justified_mono|].
        apply (nv_votes _ _ _ Hn) in Hv. pose proof (nv_round _ _ _ Hn). simpl in *. lia.
    + destruct (H3 _ _ _ Hv) as (h & Hid & Hj & Hq). exists h. split_and!; [done| |done]. by eapply justified_mono.
  - intros m ne [[-> Hst]|Hm%H4]%said_app; [|done].
    destruct (effect_says _ _ _ _ _ _ Hn He Hst) as (tip & u & -> & -> & Hle & _). lia.
Qed.

Lemma network_inv_steps N N' : rtc view_step N N' → network_inv N → network_inv N'.
Proof. induction 1; eauto using network_inv_step. Qed.

Lemma network_inv_initial N : network_initial N → network_inv N.
Proof.
  intros [Hs Hp]. split; rewrite ?Hs; try (intros * H; by apply elem_of_nil in H || (destruct H as [? H]; by apply elem_of_nil in H)).
  intros n p Hn. destruct (Hp _ _ Hn) as (g & Hg & Hpm & Hnew). unfold safety_new in Hnew.
  apply bind_ret_inv in Hnew as (r & Hr%round_add_ret & [= Hnew]).
  assert (view p = mkView (round_certificate_round (RcQc g) + 1) (qc_get_round g) None (qc_get_round g) r r) as ->.
  { unfold view, pe_round, pe_extends. rewrite Hpm, <- Hnew. done. }
  assert (∀ m r id, ¬ voted [] m r id) as Hno by (intros m r' id [? H]; by apply elem_of_nil in H).
  split; simpl in *; try naive_solver. intros ti H. by apply elem_of_nil in H.
Qed.

(** ** Agreement

    The rounds belong to one epoch, and the faulty nodes hold less than a
    third of its stake. *)
Section agreement.
Context (Hstake : ∀ epoch vs, get_val_set vem epoch = Some vs →
           vs_wf vs ∧ total_stake vs * 2 ≤ U256_MAX ∧ has_honest_vote vs faulty = Ret (Ok false)).
Context (Hepoch : ∀ r r' e e', get_epoch em r = Some e → get_epoch em r' = Some e' → e = e').
Context (Hid : ∀ h h', get_id h = get_id h' → qc_info (bh_qc h) = qc_info (bh_qc h')).

Lemma same_id h h' : get_id h = get_id h' → qc_round h = qc_round h' ∧ get_parent_id h = get_parent_id h'.
Proof. intros H%Hid. unfold qc_round, qc_get_round, get_parent_id, qc_get_block_id. by rewrite H. Qed.

Lemma by_quorum_overlap Φ Ψ : by_quorum Φ → by_quorum Ψ → ∃ n, n ∉ faulty ∧ Φ n ∧ Ψ n.
Proof.
  intros (Q & (r & e & vs & He & Hvs & HQ) & HΦ) (Q' & (r' & e' & vs' & He' & Hvs' & HQ') & HΨ).
  rewrite (Hepoch _ _ _ _ He' He), Hvs in Hvs'. injection Hvs' as <-.
  destruct (Hstake _ _ Hvs) as (Hwf & Hmax & Hf).
  destruct (quorum_overlap_outside vs Q Q' faulty) as (n & Hn & Hn' & Hnf & _); [done..|]. exists n. auto.
Qed.

Lemma certified_unique N r id id' : network_inv N →
  certified (said N) r id → certified (said N) r id' → id = id'.
Proof.
  intros Hinv. assert (∀ i, by_quorum (λ n, voted (said N) n GENESIS_ROUND i) → False) as H0.
  { intros i Hi. destruct (by_quorum_overlap _ _ Hi Hi) as (n & _ & Hv & _).
    destruct (nn_votes _ Hinv _ _ _ Hv) as (h & _ & _ & Hlt). unfold GENESIS_ROUND in Hlt. lia. }
  intros [[Hr ->]|Hq] [[Hr' ->]|Hq']; [done|subst; by apply H0 in Hq'|subst; by apply H0 in Hq|].
  destruct (by_quorum_overlap _ _ Hq Hq') as (n & _ & [e Hv] & Hv').
  destruct (nn_dom _ Hinv _ _ Hv) as [p Hp]. eapply (nv_unique _ _ _ (nn_nodes _ Hinv _ _ Hp)); [|done]. by exists e.
Qed.

Lemma justified_lt N h : network_inv N → justified (said N) h → qc_round h < bh_block_round h.
Proof.
  intros Hinv [_ [?|[Hr|(u & ? & ? & _)]]]; [lia| |lia].
  destruct (by_quorum_overlap _ _ Hr Hr) as (n & _ & (ne & Hne & <- & <-) & _). by eapply nn_refusals.
Qed.

(** The certificate of [h1] in the round after that of the block [h1]
    extends, in the final network [Nf], commits that block. *)
Section committed.
Context (Nf : Network) (HNf : network_inv Nf).
Context (h1 : ConsensusBlockHeader).
Notation v := (qc_round h1).
Notation b := (get_parent_id h1).
Context (Hcert : by_quorum (λ n, voted (said Nf) n (v + 1) (get_id h1))).

Definition voter (n : NodeId) : Prop := voted (said Nf) n (v + 1) (get_id h1).
(** The rank of a tip at or above that of [h1]. *)
Definition late (w q : Round) : Prop := v + 1 < w ∨ w = v + 1 ∧ v ≤ q.

Lemma late_rank_tip w q : rank_le (RankTip (v + 1) v) (RankTip w q) ↔ late w q.
Proof.
  unfold rank_le, late. simpl. case_bool_decide as Hw; rewrite N.compare_gt_iff; lia.
Qed.
Lemma late_rank_qc q : rank_le (RankTip (v + 1) v) (RankQc q) ↔ v + 1 ≤ q.
Proof.
  unfold rank_le. simpl. case_bool_decide as Hw; [split; [lia|done]|]. rewrite N.compare_gt_iff. lia.
Qed.
Lemma late_rank_rounds w q : late w q → rank_le (RankTip (v + 1) v) (rank_of_rounds q w).
Proof.
  intros Hl. unfold rank_of_rounds. rewrite bool_decide_eq_false_2; [by apply late_rank_tip|].
  unfold late, GENESIS_ROUND in *. lia.
Qed.
Lemma late_of w q : v ≤ q → q < w → late w q.
Proof. unfold late. lia. Qed.

Lemma parent_certified : certified (said Nf) v b.
Proof.
  destruct (by_quorum_overlap _ _ Hcert Hcert) as (n & _ & Hv & _).
  destruct (nn_votes _ HNf _ _ _ Hv) as (h & [<- <-]%same_id & [Hc _] & _). done.
Qed.

Definition locked (p : peer_view) : Prop :=
  match pv_tip p with
  | Some t => let h := tip_block_header t in late (bh_block_round h) (qc_round h) ∧ descends b (get_id h)
  | None => v + 1 ≤ pv_certificate p
  end.

(** What the voters for [h1] say from its round on, and that they stay
    locked once they have voted for it. *)
Record lock_inv (N : Network) : Prop := {
  lk_state : ∀ n p, voter n → peers N !! n = Some p → voted (said N) n (v + 1) (get_id h1) → locked (view p);
  lk_timeouts : ∀ n ti, voter n → (n, StTimeout ti) ∈ said N → v + 1 ≤ ti_round ti →
    rank_le (RankTip (v + 1) v) (timeout_info_rank ti);
  lk_refusals : ∀ n ne, voter n → (n, StNoEndorse ne) ∈ said N → v + 2 ≤ ne_round ne → v ≤ ne_tip_qc_round ne;
  lk_votes : ∀ n r id, voter n → voted (said N) n r id → v + 1 ≤ r → descends b id;
}.

Section before.
Context (N : Network) (HN : network_inv N) (Hlock : lock_inv N) (Hsub : said N ⊆ said Nf).

Lemma lock_certified q id : certified (said N) q id → v ≤ q → descends b id.
Proof.
  intros Hc Hq. destruct (decide (q = v)) as [->|Hne].
  { rewrite (certified_unique Nf v id b HNf); [constructor|by eapply certified_mono|apply parent_certified]. }
  destruct Hc as [[-> _]|Hc]; [unfold GENESIS_ROUND in *; lia|].
  destruct (by_quorum_overlap _ _ Hcert Hc) as (n & _ & Hn & Hv). eapply lk_votes; [done..|lia].
Qed.

Lemma lock_timed_out u rank : timed_out (said N) u rank → v + 1 ≤ u → rank_le (RankTip (v + 1) v) rank.
Proof.
  intros Ht Hu. destruct (by_quorum_overlap _ _ Hcert Ht) as (n & _ & Hn & (ti & Hti & <- & Hrank)).
  transitivity (timeout_info_rank ti); [|done]. by eapply lk_timeouts.
Qed.

Lemma lock_justified h : justified (said N) h → late (bh_block_round h) (qc_round h) → v ≤ qc_round h.
Proof.
  intros [_ [Hw|[Hr|(u & Hw & Hle & Ht)]]] Hl; unfold late in Hl; [lia| |].
  - destruct (decide (bh_block_round h = v + 1)) as [Hw1|Hw1]; [lia|].
    destruct (by_quorum_overlap _ _ Hcert Hr) as (n & _ & Hn & (ne & Hne & Hr1 & <-)).
    eapply lk_refusals; [done..|lia].
  - destruct (decide (bh_block_round h = v + 1)) as [Hw1|Hw1]; [lia|].
    apply lock_timed_out in Ht; [|lia]. apply late_rank_qc in Ht. lia.
Qed.

Lemma lock_votable r h : votable (said N) r h → v + 1 < r → v ≤ qc_round h.
Proof.
  intros [_ [->|(u & he & -> & _ & Hq & Hj & Ht)]] Hr; [lia|].
  apply lock_timed_out in Ht; [|lia]. rewrite <- Hq. destruct he as [tip|qc]; simpl in *.
  - apply late_rank_tip in Ht. by apply lock_justified.
  - apply late_rank_qc in Ht. lia.
Qed.
End before.

(** A vote for the high tip [h1] in its round repeats an earlier one. *)
Lemma tip_vote_again S n p t : node_inv S n p → pv_tip p = Some t → get_id (tip_block_header t) = get_id h1 →
  pv_round p = v + 1 → voted S n (v + 1) (get_id h1).
Proof.
  intros Hn Ht Heq Hr. destruct (nv_tip _ _ _ Hn _ Ht) as (r & Hv & Hlt).
  pose proof (nv_votes _ _ _ Hn _ _ Hv). pose proof (nv_round _ _ _ Hn).
  apply same_id in Heq as Hq. rewrite Heq in Hv. by replace (v + 1) with r by lia.
Qed.

Lemma effect_vote_mono S p p' says : effect S p p' says → pv_vote p ≤ pv_round p → pv_vote p ≤ pv_vote p'.
Proof. destruct 1; simpl; lia. Qed.

(** A node that will vote for [h1] has not gone past its round yet. *)
Lemma votes_to_come N n p : rtc view_step N Nf → network_inv N → voter n → peers N !! n = Some p →
  pv_vote (view p) ≤ v ∨ voted (said N) n (v + 1) (get_id h1).
Proof.
  intros Hsteps. revert p.
  refine (rtc_ind_l (λ N, ∀ p, network_inv N → voter n → peers N !! n = Some p →
    pv_vote (view p) ≤ v ∨ voted (said N) n (v + 1) (get_id h1)) Nf _ _ N Hsteps); [by right|].
  clear N Hsteps. intros N N' Hstep _ IH p HN Hn Hp. pose proof (network_inv_step _ _ Hstep HN) as HN'.
  destruct Hstep as [m q q' says Hq He]. pose proof (nn_nodes _ HN _ _ Hq) as Hm.
  destruct (decide (m = n)) as [->|Hne]; cbn [peers said] in *.
  - rewrite Hp in Hq. injection Hq as <-.
    destruct (IH q' HN' Hn ltac:(apply lookup_insert_eq)) as [Hle|Hv].
    { left. pose proof (effect_vote_mono _ _ _ _ He (nv_round _ _ _ Hm)). lia. }
    apply voted_app in Hv as [(_ & e & Hst)|Hv]; [|by right].
    destruct (effect_says _ _ _ _ _ _ Hm He Hst) as [Hr [(h & _ & _ & Hlt)|(t & Ht & Heq)]];
      cbn [vote_round vote_id] in *.
    + left. lia.
    + right. by eapply tip_vote_again.
  - destruct (IH p HN' Hn ltac:(by rewrite lookup_insert_ne)) as [Hle|Hv]; [by left|right].
    apply voted_app in Hv as [[-> _]|Hv]; done.
Qed.

Section step.
Context (N : Network) (n : NodeId) (p p' : Peer) (says : list statement).
Notation S' := (((n,.) <$> says) ++ said N).
Notation N' := (mkNetwork (<[n := p']> (peers N)) S').
Context (HN : network_inv N) (Hlock : lock_inv N) (Hsub : said N ⊆ said Nf) (Hsub' : S' ⊆ said Nf).
Context (Hp : peers N !! n = Some p) (He : effect (said N) (view p) (view p') says) (Hn : voter n).
Let Hinv : node_inv (said N) n (view p) := nn_nodes _ HN _ _ Hp.

(** A block the node votes for from the round of [h1] on. *)
Lemma lock_vote_block h e : votable (said N) (pe_round p) h → StVote (mkVote (get_id h) (pe_round p) e) ∈ says →
  v + 1 ≤ pe_round p → v ≤ qc_round h ∧ qc_round h < bh_block_round h ∧ descends b (get_id h).
Proof.
  intros Hv Hst Hr. assert (v ≤ qc_round h) as Hq.
  { destruct (decide (pe_round p = v + 1)) as [Heq|Hne]; [|eapply lock_votable; [done..|lia]].
    destruct (nn_dom _ HNf n _ (Hsub' _ (proj2 (said_app _ _ _ _ _) (or_introl (conj eq_refl Hst))))) as [pf Hpf].
    assert (get_id h = get_id h1) as [-> _]%same_id; [|done].
    eapply (nv_unique _ _ _ (nn_nodes _ HNf _ _ Hpf)); [|exact Hn].
    exists e. rewrite <- Heq. apply Hsub', said_app. auto. }
  split_and!; [done|eapply justified_lt; [exact HN|apply Hv]|]. apply descends_child.
  eapply lock_certified; [done..|apply Hv|done].
Qed.

(** From its round on, the node is locked when it times out. *)
Lemma lock_timeout : rtc view_step N' Nf → network_inv N' → v + 1 ≤ pv_vote (view p') →
  (∀ st, st ∈ says → match st with StVote w => ∃ t, pv_tip (view p) = Some t ∧ vote_id w = get_id (tip_block_header t) ∧
     vote_round w = pe_round p | _ => True end) →
  locked (view p).
Proof.
  intros Hsteps HN' Hr Hsays. eapply (lk_state _ Hlock); [done..|].
  destruct (votes_to_come N' n p' Hsteps HN' Hn ltac:(apply lookup_insert_eq)) as [?|Hv]; [lia|].
  apply voted_app in Hv as [(_ & e & Hst)|Hv]; [|done].
  destruct (Hsays _ Hst) as (t & Ht & Heq & Hround). by eapply tip_vote_again.
Qed.
End step.

Lemma locked_certificate vp r q : pv_certificate vp ≤ q → locked vp →
  locked (mkView r q (drop_tip (pv_tip vp) q) q (pv_vote vp) (pv_no_endorse vp)).
Proof.
  unfold locked, drop_tip. destruct (pv_tip vp) as [t|]; simpl; [|lia]. intros Hq [Hl Hd].
  case_bool_decide as Hw; [done|]. unfold late, tip_block_round in *. lia.
Qed.

Lemma locked_vote tip r x q nv ne : let h := tip_block_header tip in
  v ≤ qc_round h → qc_round h < bh_block_round h → descends b (get_id h) →
  locked (mkView r x (drop_tip (Some tip) q) q nv ne).
Proof.
  intros h Hq Hlt Hd. subst h. unfold locked, drop_tip. simpl.
  case_bool_decide as Hw; [split; [by apply late_of|done]|]. simpl. unfold tip_block_round in Hw. lia.
Qed.

Lemma effect_timeout_says S vp vp' says ti : effect S vp vp' says → StTimeout ti ∈ says →
  pv_vote vp' = pv_round vp ∧
  ∀ st, st ∈ says → match st with StVote w => ∃ t, pv_tip vp = Some t ∧
    vote_id w = get_id (tip_block_header t) ∧ vote_round w = pv_round vp | _ => True end.
Proof.
  destruct 1 as [| | |ti' safe e _ _ _|]; try set_solver. intros _. split; [done|].
  intros st [->|Hst]%elem_of_cons; [done|]. unfold tip_votes in Hst.
  destruct (pv_tip vp) as [t|]; [|set_solver]. destruct safe; [|set_solver].
  apply list_elem_of_singleton in Hst as ->. simpl. eauto.
Qed.

(** A vote is part of a timeout, or for a block that may be voted for. *)
Lemma effect_vote_says S vp vp' says w : effect S vp vp' says → StVote w ∈ says →
  (∃ ti, StTimeout ti ∈ says) ∨ ∃ h, vote_id w = get_id h ∧ votable S (pv_round vp) h.
Proof.
  destruct 1; intros Hin; set_solver.
Qed.

Lemma locked_effect S n vp vp' says : effect S vp vp' says → node_inv S n vp →
  (voted S n (v + 1) (get_id h1) → locked vp) →
  (∀ h e, votable S (pv_round vp) h → StVote (mkVote (get_id h) (pv_round vp) e) ∈ says → v + 1 ≤ pv_round vp →
     v ≤ qc_round h ∧ qc_round h < bh_block_round h ∧ descends b (get_id h)) →
  voted (((n,.) <$> says) ++ S) n (v + 1) (get_id h1) → locked vp'.
Proof.
  intros He Hinv Hold Hblock Hvoted. apply voted_app in Hvoted as Hcase.
  destruct He as [|r q Hr Hq|tip e h Hvote Hlt|ti safe e Hle Hti Hrank|tip u ne h Hu Hq Hj Ht Hr Hqr Hlt].
  - auto.
  - apply locked_certificate; auto.
  - assert (v + 1 ≤ pv_round vp) as Hge.
    { destruct Hcase as [(_ & e' & [= _ <- _]%list_elem_of_singleton)|Hv]; [done|].
      apply (nv_votes _ _ _ Hinv) in Hv. lia. }
    destruct (Hblock h e Hvote ltac:(left) Hge) as (? & ? & ?). by apply locked_vote.
  - apply Hold. destruct Hcase as [(_ & e' & Hin)|Hv]; [|done].
    destruct (effect_timeout_says _ _ _ _ ti (effect_timeout S vp ti safe e Hle Hti Hrank)) as [_ Hsays]; [left|].
    destruct (Hsays _ Hin) as (t & Ht & Heq & Hr). by eapply tip_vote_again.
  - apply Hold. destruct Hcase as [(_ & e' & Hin)|Hv]; [|done]. by apply list_elem_of_singleton in Hin.
Qed.

(** The four parts of [lock_inv], for the node that takes the step. *)
Section lock_step.
Context (N : Network) (HN : network_inv N) (Hlock : lock_inv N).
Context (n : NodeId) (p p' : Peer) (says : list statement).
Notation N' := (mkNetwork (<[n := p']> (peers N)) (((n,.) <$> says) ++ said N)).
Context (HN' : network_inv N') (Hsteps : rtc view_step N' Nf).
Context (Hp : peers N !! n = Some p) (He : effect (said N) (view p) (view p') says) (Hn : voter n).

Lemma lock_step_sub : said N ⊆ said Nf.
Proof. pose proof (view_steps_said _ _ Hsteps). simpl in *. set_solver. Qed.

(** A timeout, from the round of [h1] on, is made in a locked state. *)
Lemma lock_step_timeout ti : StTimeout ti ∈ says → v + 1 ≤ pe_round p → locked (view p).
Proof.
  intros Hin Hr. destruct (effect_timeout_says _ _ _ _ _ He Hin) as [Hv Hsays].
  apply (lock_timeout N n p p' says); try done. by rewrite Hv.
Qed.

Lemma lock_step_state : voted (((n,.) <$> says) ++ said N) n (v + 1) (get_id h1) → locked (view p').
Proof.
  apply (locked_effect (said N) n (view p) (view p') says); [done|by apply nn_nodes| |].
  - intros Hv. by eapply lk_state.
  - intros h e Hv Hst Hr. eapply (lock_vote_block N n p says); try done; [apply lock_step_sub|by apply view_steps_said in Hsteps].
Qed.

Lemma lock_step_rank ti : StTimeout ti ∈ says → v + 1 ≤ ti_round ti → rank_le (RankTip (v + 1) v) (timeout_info_rank ti).
Proof.
  intros Hin Hr. pose proof (nn_nodes _ HN _ _ Hp) as Hinv.
  destruct (effect_says _ _ _ _ _ _ Hinv He Hin) as [Hround ->]. rewrite Hround in Hr.
  pose proof (lock_step_timeout ti Hin Hr) as Hl. unfold locked in Hl.
  destruct (pv_tip (view p)) as [t|]; [apply late_rank_rounds, Hl|by apply late_rank_qc].
Qed.

Lemma lock_step_refusal ne : StNoEndorse ne ∈ says → v + 2 ≤ ne_round ne → v ≤ ne_tip_qc_round ne.
Proof.
  intros Hin Hr. pose proof (nn_nodes _ HN _ _ Hp) as Hinv.
  destruct (effect_says _ _ _ _ _ _ Hinv He Hin) as (tip & u & Hu & -> & Hle & Hj & Ht).
  eapply lock_justified; [done..|]. apply late_rank_tip. eapply lock_timed_out; [done..|lia].
Qed.

Lemma lock_step_vote r id e : StVote (mkVote id r e) ∈ says → v + 1 ≤ r → descends b id.
Proof.
  intros Hin Hr. pose proof (nn_nodes _ HN _ _ Hp) as Hinv.
  destruct (effect_says _ _ _ _ _ _ Hinv He Hin) as [Hround _]. cbn [vote_round] in Hround. subst r.
  destruct (effect_vote_says _ _ _ _ _ He Hin) as [[ti Hti]|(h & Hh & Hv)].
  - destruct (effect_timeout_says _ _ _ _ _ He Hti) as [_ Hsays]. destruct (Hsays _ Hin) as (t & Ht & Hh & _).
    pose proof (lock_step_timeout ti Hti Hr) as Hl. unfold locked in Hl. rewrite Ht in Hl.
    cbn [vote_id] in Hh. rewrite Hh. apply Hl.
  - cbn [vote_id] in Hh. rewrite Hh in *.
    eapply (lock_vote_block N n p says); try done; [apply lock_step_sub|by apply view_steps_said in Hsteps].
Qed.
End lock_step.

Lemma lock_inv_step N N' : network_inv N → lock_inv N → view_step N N' → rtc view_step N' Nf → lock_inv N'.
Proof.
  intros HN Hlock Hstep Hsteps. pose proof (network_inv_step _ _ Hstep HN) as HN'.
  pose proof (view_step_said _ _ Hstep) as Hsub. pose proof (view_steps_said _ _ Hsteps) as Hsub'.
  destruct Hstep as [n p p' says Hp He]. pose proof (nn_nodes _ HN _ _ Hp) as Hinv. cbn [said peers] in *.
  split; cbn [said peers].
  - intros m q Hm Hq Hv. destruct (decide (m = n)) as [->|Hne].
    + rewrite lookup_insert_eq in Hq. injection Hq as <-. by apply (lock_step_state N HN Hlock n p p' says).
    + rewrite lookup_insert_ne in Hq by done. apply voted_app in Hv as [[-> _]|Hv]; [done|]. by eapply lk_state.
  - intros m ti Hm [[-> Hin]|Hin]%said_app Hr; [by apply (lock_step_rank N HN Hlock n p p' says)|by eapply lk_timeouts].
  - intros m ne Hm [[-> Hin]|Hin]%said_app Hr; [by apply (lock_step_refusal N HN Hlock n p p' says)|by eapply lk_refusals].
  - intros m r id Hm [(-> & e & Hin)|Hin]%voted_app Hr; [by apply (lock_step_vote N HN Hlock n p p' says) with r e|by eapply lk_votes].
Qed.

Lemma lock_inv_steps N : network_inv N → said N = [] → rtc view_step N Nf → lock_inv Nf.
Proof.
  intros HN Hs Hsteps. assert (lock_inv N) as Hlock.
  { split; rewrite Hs; intros *; intros H1 H2; try (by apply elem_of_nil in H2 || (destruct H2 as [? H2]; by apply elem_of_nil in H2)).
    intros [? H3]. by apply elem_of_nil in H3. }
  clear Hs. revert HN Hlock. 
  refine (rtc_ind_l (λ N, network_inv N → lock_inv N → lock_inv Nf) Nf _ _ N Hsteps); [done|].
  intros N1 N2 Hstep Hsteps' IH HN Hlock. apply IH; [by eapply network_inv_step|by eapply lock_inv_step].
Qed.
End committed.

Lemma commit_rule qc h id : get_committable_id qc h = Ret (Some id) →
  qc_get_round qc = qc_round h + 1 ∧ qc_get_block_id qc = get_id h ∧ id = get_parent_id h.
Proof.
  intros H. unfold get_committable_id in H. monad_inv H. apply bool_decide_eq_true in Hv. apply round_add_ret in Hv0.
  case_bool_decide; [|done]. injection H as <-. unfold qc_round, qc_get_round, qc_get_block_id in *. split_and!; [lia|done..].
Qed.

Lemma commits_chain N0 N h h' : network_initial N0 → rtc network_step N0 N →
  by_quorum (λ n, voted (said N) n (qc_round h + 1) (get_id h)) →
  by_quorum (λ n, voted (said N) n (qc_round h' + 1) (get_id h')) →
  qc_round h ≤ qc_round h' → descends (get_parent_id h) (get_parent_id h').
Proof.
  intros Hinit Hsteps Hq Hq' Hle. pose proof (network_inv_initial _ Hinit) as HN0.
  apply (rtc_subrel _ view_step _ _ network_view_step) in Hsteps. pose proof (network_inv_steps _ _ Hsteps HN0) as HN.
  apply (lock_certified N HN h Hq N) with (qc_round h'); [|done| |done].
  - apply (lock_inv_steps N HN h Hq N0); [done|apply Hinit|done].
  - by apply parent_certified.
Qed.
End agreement.
End protocol.

Section agreement_properties.
Context `{P : Params} {CD : Codec} {CS : CertSignature} {AS : AuthorSigning} {SC : SignatureCollection}
        {LE : LeaderElection}.

(** C1. Committed blocks lie on one chain. Within an epoch, when the faulty nodes
    hold less than a third of the stake, the identifier of a block determines
    the vote of the certificate it extends, and no node enters a round by a
    certificate that extends an older quorum certificate than its own: of any
    two blocks that quorum certificates commit, one descends from the
    other. *)
Theorem committed_blocks_on_one_chain em vem faulty N0 N qc qc' h h' b b' :
  (∀ epoch vs, get_val_set vem epoch = Some vs →
     vs_wf vs ∧ total_stake vs * 2 ≤ U256_MAX ∧ has_honest_vote vs faulty = Ret (Ok false)) →
  (∀ r r' e e', get_epoch em r = Some e → get_epoch em r' = Some e' → e = e') →
  (∀ h h', get_id h = get_id h' → qc_info (bh_qc h) = qc_info (bh_qc h')) →
  network_initial N0 → rtc (network_step em vem faulty) N0 N →
  qc_valid (epoch_to_validators em vem) qc → known vem faulty (said N) (qc_claims qc) →
  qc_valid (epoch_to_validators em vem) qc' → known vem faulty (said N) (qc_claims qc') →
  get_committable_id qc h = Ret (Some b) → get_committable_id qc' h' = Ret (Some b') →
  descends b b' ∨ descends b' b.
Proof.
  intros Hstake Hepoch Hid Hinit Hsteps Hv Hk Hv' Hk' Hc Hc'.
  apply commit_rule in Hc as (Hr & Hi & ->), Hc' as (Hr' & Hi' & ->).
  apply (qc_certified em vem faulty) in Hk as [[H0 _]|Hk]; [rewrite Hr in H0; unfold GENESIS_ROUND in H0; lia| |done].
  apply (qc_certified em vem faulty) in Hk' as [[H0 _]|Hk']; [rewrite Hr' in H0; unfold GENESIS_ROUND in H0; lia| |done].
  rewrite Hr, Hi in Hk. rewrite Hr', Hi' in Hk'.
  destruct (N.le_ge_cases (qc_round h) (qc_round h')); [left|right]; by eapply commits_chain.
Qed.
End agreement_properties.

(** ** An execution

    Nodes 2, 3 and 4 of the network of four: round 1 times out, then blocks
    [x], [y] and [z] are certified in rounds 2, 3 and 4, which commits [x] and
    [y]. *)
Section agreement_witness.
Import ToyNetwork.
#[local] Existing Instance toy_lru.

Definition run_tc1 : TimeoutCertificate := net_tc 1 [([2; 3; 4], 0, 0)] (HeQc net_qc0).
Definition run_x : ConsensusBlockHeader := net_header 2 1 net_qc0.
Definition run_qc2 : QuorumCertificate := net_qc [2; 3; 4] run_x 2.
Definition run_y : ConsensusBlockHeader := net_header 3 2 run_qc2.
Definition run_qc3 : QuorumCertificate := net_qc [2; 3; 4] run_y 3.
Definition run_z : ConsensusBlockHeader := net_header 4 3 run_qc3.
Definition run_qc4 : QuorumCertificate := net_qc [1; 2; 3] run_z 4.

Definition run_peer : Peer :=
  mkPeer (ret_or toy_pm (pacemaker_new 100 (λ _, 400) 100 net_epochs (RcQc net_qc0)))
    (ret_or safety_default (safety_new (RcQc net_qc0) None)).
Definition run_start : Network := mkNetwork (list_to_map ((λ n : @NodeId toy_params, (n, run_peer)) <$> [2; 3; 4])) [].
Definition run_proposal (round : N) (h : ConsensusBlockHeader) (fresh : option FreshProposalCertificate)
    (tc : option TimeoutCertificate) : action :=
  ActProposal (mkProposalMessage round 1 (net_tip h fresh) toy_body tc).
Definition run_actions : list (N * action) :=
  let all a := (λ n, (n, a)) <$> [2; 3; 4] in
  all ActTimeout ++ all (ActCertificate (RcTc run_tc1)) ++
  all (run_proposal 2 run_x (Some (net_no_tip 1 [([2; 3; 4], 0, 0)] net_qc0)) (Some run_tc1)) ++
  all (ActCertificate (RcQc run_qc2)) ++ all (run_proposal 3 run_y None None) ++
  all (ActCertificate (RcQc run_qc3)) ++ all (run_proposal 4 run_z None None).

(** The checks of a step, executable. *)
Definition claim_check (S : list (@NodeId toy_params * statement)) (c : claim) : bool :=
  let '(sigs, d, msg, st) := c in
  match sc_verify sigs d toy_mapping msg with
  | Ok nodes => forallb (λ n, bool_decide (n = (1 : @NodeId toy_params)) || bool_decide ((n, st) ∈ S)) nodes
  | Err _ => true
  end.
Definition action_check (a : action) : bool :=
  match a with
  | ActCertificate c => message_accepted (PmAdvanceRound (mkAdvanceRoundMessage c))
  | ActProposal p => message_accepted (PmProposal p)
  | ActRecovery m => message_accepted (PmRoundRecovery m)
  | _ => true
  end.
Definition keeps_check (p : Peer) (a : action) : bool :=
  match a with
  | ActCertificate c =>
      bool_decide (round_certificate_round c ≤ round_certificate_round (pm_high_certificate (pe_pacemaker p))) ||
      bool_decide (high_certificate_qc_round (pe_safety p) ≤ qc_get_round (round_certificate_qc c))
  | _ => true
  end.
Definition network_exec_step (net : Network) (n : @NodeId toy_params) (a : action) : option Network :=
  p ← peers net !! n;
  if negb (action_check a && keeps_check p a && forallb (claim_check (said net)) (action_claims a)) then None else
  match peer_act net_epochs p a with
  | Ret (p', says) => Some (mkNetwork (<[n := p']> (peers net)) (((n,.) <$> says) ++ said net))
  | _ => None
  end.
Fixpoint network_exec (net : Network) (l : list (N * action)) : option Network :=
  match l with
  | [] => Some net
  | (n, a) :: l => net ← network_exec_step net n a; network_exec net l
  end.

Lemma claim_check_known S c : claim_check S c = true → claim_known net_vem [1 : @NodeId toy_params] S c.
Proof.
  destruct c as [[[sigs d] msg] st]. cbn [claim_check claim_known]. intros H epoch m nodes n Hm Hv Hn Hnf.
  apply fmap_Some in Hm as (x & Hm & ->). unfold net_vem in Hm. simpl in Hm. apply lookup_singleton_Some in Hm as [_ <-].
  change (sc_verify sigs d toy_mapping msg = Ok nodes) in Hv. rewrite Hv in H.
  rewrite forallb_forall in H. specialize (H n ltac:(by apply list_elem_of_In)).
  apply orb_true_iff in H as [->%bool_decide_eq_true|H%bool_decide_eq_true]; [set_solver|done].
Qed.

Lemma network_exec_step_sound net n a net' : network_exec_step net n a = Some net' →
  network_step net_epochs net_vem [1 : @NodeId toy_params] net net'.
Proof.
  unfold network_exec_step. intros (p & Hp & H)%bind_Some.
  destruct (_ && _) eqn:Hok in H; [|done]. destruct (peer_act _ _ _) as [[p' says]| |] eqn:Hact; [|done..].
  injection H as <-. apply andb_true_iff in Hok as [[Hv Hkeep]%andb_true_iff Hk].
  apply (network_act _ _ _ _ net_epochs _ p a); [done| | |done].
  - split.
    + destruct a; simpl in Hv; try done; by apply message_accepted_valid in Hv.
    + intros c Hc. apply claim_check_known. rewrite forallb_forall in Hk. by apply Hk, list_elem_of_In.
  - destruct a; try done. simpl in *. by rewrite orb_true_iff, !bool_decide_eq_true in Hkeep.
Qed.

Lemma network_exec_sound net l net' : network_exec net l = Some net' →
  rtc (network_step net_epochs net_vem [1 : @NodeId toy_params]) net net'.
Proof.
  revert net. induction l as [|[n a] l IH]; intros net; simpl; [by intros [= ->]|].
  intros (net1 & H1%network_exec_step_sound & H2)%bind_Some. eapply rtc_l; eauto.
Qed.

Definition run_end : Network := default run_start (network_exec run_start run_actions).

Lemma run_checks : (if network_exec run_start run_actions then true else false) = true ∧
  forallb (claim_check (said run_end)) (qc_claims run_qc3 ++ qc_claims run_qc4) = true ∧
  message_accepted (PmAdvanceRound (mkAdvanceRoundMessage (RcQc run_qc3))) = true ∧
  message_accepted (PmAdvanceRound (mkAdvanceRoundMessage (RcQc run_qc4))) = true.
Proof. split_and!; vm_refl. Qed.

Lemma run_steps : rtc (network_step net_epochs net_vem [1 : @NodeId toy_params]) run_start run_end.
Proof.
  apply network_exec_sound with run_actions. unfold run_end. destruct run_checks as [H _].
  by destruct (network_exec run_start run_actions).
Qed.

Lemma run_known qc : qc ∈ [run_qc3; run_qc4] →
  qc_valid (epoch_to_validators net_epochs net_vem) qc ∧
  known net_vem [1 : @NodeId toy_params] (said run_end) (qc_claims qc).
Proof.
  destruct run_checks as (_ & Hk & H3 & H4). rewrite forallb_forall in Hk. intros Hqc. split.
  - apply message_accepted_valid in H3, H4. apply elem_of_cons in Hqc as [->|Hqc%list_elem_of_singleton]; [|subst qc]; done.
  - intros c Hc. apply claim_check_known, Hk, list_elem_of_In, elem_of_app.
    apply elem_of_cons in Hqc as [->|Hqc%list_elem_of_singleton]; [|subst qc]; auto.
Qed.

Lemma run_initial : network_initial run_start.
Proof.
  split; [done|]. intros n p Hp. apply elem_of_list_to_map_2, list_elem_of_fmap in Hp as (k & [= _ ->] & _).
  exists net_qc0. split_and!; vm_refl.
Qed.

Lemma committed_blocks_on_one_chain_witness :
  descends (get_id run_x) (get_id run_y) ∨ descends (get_id run_y) (get_id run_x).
Proof.
  destruct (run_known run_qc3 ltac:(left)) as [Hv3 Hk3]. destruct (run_known run_qc4 ltac:(right; left)) as [Hv4 Hk4].
  apply (committed_blocks_on_one_chain net_epochs net_vem [1 : @NodeId toy_params] run_start run_end run_qc3 run_qc4
           run_y run_z (get_id run_x) (get_id run_y)); [exact net_stake| |exact net_id|exact run_initial|exact run_steps|
    exact Hv3|exact Hk3|exact Hv4|exact Hk4|vm_refl|vm_refl].
  intros r r' e e' He%net_one_epoch He'%net_one_epoch. congruence.
Defined.
End agreement_witness.
