(* ===== verification/NodeProtocol.v ===== *)
(** * The driver follows the protocol

    Every run of the driver is a sequence of the actions of Protocol.v, on the
    node's pacemaker and safety module: what the node signs in its messages
    are statements of these actions, and the proposals, recovery requests and
    certificates they are about come from the messages it was sent, except
    for the certificates it built from votes and timeouts it collected. *)
From S2P Require Import Prelude Types ChainConfig Interfaces MultiSig Certificates Concrete ValidatorSet SafetyModule VoteState NoEndorsementState Epochs Leader Pacemaker Messages BlockTree Timestamp ConsensusState ToyNet DriverLogic NodeSafety Protocol.

Section definitions.
Context `{P : Params} {CD : Codec} {MC : MessageCodec} {CS : CertSignature} {AS : AuthorSigning}
        {SC : SignatureCollection} {LE : LeaderElection} {BP : BlockPolicy} {BV : BlockValidator}
        {HO : HashOrder TimeoutInfo (list (NodeId * Signature))} {HB : HashOrder BlockId BlockTreeEntry}.

Definition peer_of (n : Node) : Peer := mkPeer (pacemaker (consensus n)) (safety (consensus n)).

(** The statements a message of the node itself makes. *)
Definition message_statements (m : ProtocolMessage) : list statement :=
  (StTimeout <$> message_timeouts m) ++ (StVote <$> message_votes m) ++ (StNoEndorse <$> message_no_endorsements m).
Definition command_statements : ConsensusCommand → list statement := in_message message_statements.

(** A sequence of actions, each with the epoch manager of its time. *)
Fixpoint peer_run (p : Peer) (l : list (EpochManager * action)) : outcome (Peer * list statement) :=
  match l with
  | [] => Ret (p, [])
  | (em, a) :: l =>
      '(p, says) ← peer_act em p a;
      '(p, says') ← peer_run p l;
      Ret (p, says ++ says')
  end.

(** The certificates a node makes itself. *)
Inductive built : RoundCertificate → Prop :=
| built_qc votes author m vs keys votes' qc :
    process_vote votes author m vs keys = Ret (votes', Some qc) → built (RcQc qc)
| built_tc epoch round l keys tc : tc_new epoch round l keys = Ret (Ok tc) → built (RcTc tc).

Definition event_certificates (e : node_event) : list RoundCertificate :=
  match e with
  | EvProposal _ p => RcQc (bh_qc (tip_block_header (pr_tip p))) :: option_list (RcTc <$> pr_last_round_tc p)
  | EvTimeoutMsg _ t => RcQc (high_extend_vote_qc (to_high_extend t)) :: option_list (to_last_round_certificate t)
  | EvRoundRecovery _ m => [RcTc (rr_tc m)]
  | EvAdvanceRound _ m => [ar_last_round_certificate m]
  | _ => []
  end.
(** Where the object of an action comes from. *)
Definition from_event (e : node_event) (a : action) : Prop :=
  match a with
  | ActCertificate c => c ∈ event_certificates e ∨ built c
  | ActProposal p => ∃ author, e = EvProposal author p
  | ActRecovery m => ∃ author, e = EvRoundRecovery author m
  | ActTimeout | ActPending _ | ActOther _ => True
  end.

Definition from_events (events : list (Wrapper * node_event)) (a : action) : Prop :=
  match a with
  | ActCertificate c => built c ∨ ∃ w e, (w, e) ∈ events ∧ c ∈ event_certificates e
  | ActProposal p => ∃ w author, (w, EvProposal author p) ∈ events
  | ActRecovery m => ∃ w author, (w, EvRoundRecovery author m) ∈ events
  | ActTimeout | ActPending _ | ActOther _ => True
  end.

Definition pacemaker_acts (C : action → Prop) (pm pm' : Pacemaker) (s s' : Safety) (cmds : list PacemakerCommand) : Prop :=
  ∃ l says, peer_run (mkPeer pm s) l = Ret (mkPeer pm' s', says) ∧ Forall (λ x, C x.2) l ∧
    ∀ st, st ∈ cmds ≫= timeout_statements → st ∈ says.

(** The step from [n] to [n'] with [cmds] is a run of actions in [C]; what it
    signs or schedules is said in that run or was scheduled before. *)
Definition node_acts (C : action → Prop) (n n' : Node) (cmds : list ConsensusCommand) : Prop :=
  ∃ l says, peer_run (peer_of n) l = Ret (peer_of n', says) ∧ Forall (λ x, C x.2) l ∧
    (∀ st, st ∈ cmds ≫= command_statements → st ∈ says ∨ ∃ v, st = StVote v ∧ vote_scheduled n v) ∧
    (∀ v, vote_scheduled n' v → StVote v ∈ says ∨ vote_scheduled n v).

(** ** Composition *)
Implicit Types (em : EpochManager).

Lemma message_statement m st : st ∈ message_statements m ↔
  match st with
  | StVote v => v ∈ message_votes m
  | StTimeout ti => ti ∈ message_timeouts m
  | StNoEndorse ne => ne ∈ message_no_endorsements m
  end.
Proof. unfold message_statements. rewrite !elem_of_app, !list_elem_of_fmap. destruct st; naive_solver. Qed.

Lemma command_statement cmds st : st ∈ cmds ≫= command_statements ↔
  match st with
  | StVote v => v ∈ cmds ≫= command_votes
  | StTimeout ti => ti ∈ cmds ≫= command_timeouts
  | StNoEndorse ne => ne ∈ cmds ≫= command_no_endorsements
  end.
Proof.
  rewrite list_elem_of_bind.
  destruct st; rewrite list_elem_of_bind; f_equiv; intros c; f_equiv;
    destruct c; simpl; rewrite ?elem_of_nil; try done; by rewrite message_statement.
Qed.

Lemma peer_run_app p l p1 says1 k p2 says2 : peer_run p l = Ret (p1, says1) → peer_run p1 k = Ret (p2, says2) →
  peer_run p (l ++ k) = Ret (p2, says1 ++ says2).
Proof.
  revert p says1. induction l as [|[em a] l IH]; intros p says1; simpl.
  - by intros [= -> <-] ->.
  - intros H Hk. apply bind_ret_inv in H as ([p' s'] & Ha & H). apply bind_ret_inv in H as ([p'' s''] & Hl & [= -> <-]).
    rewrite Ha. cbn. rewrite (IH _ _ Hl Hk). cbn. by rewrite (assoc_L (++)).
Qed.

Lemma peer_run_one em p a p' says : peer_act em p a = Ret (p', says) → peer_run p [(em, a)] = Ret (p', says).
Proof. intros H. cbn [peer_run]. rewrite H. cbn. by rewrite app_nil_r. Qed.

Section acts.
Context (C : action → Prop).

#[global] Instance node_acts_preorder : CmdPreorder (node_acts C).
Proof.
  split.
  - intros n. exists [], []. split_and!; [done|constructor| |by right]. by intros st ?%elem_of_nil.
  - intros n1 n2 n3 c1 c2 (l & s1 & R1 & F1 & V1 & W1) (k & s2 & R2 & F2 & V2 & W2).
    exists (l ++ k), (s1 ++ s2). split_and!; [by eapply peer_run_app|by apply Forall_app| |].
    + intros st. rewrite bind_app, !elem_of_app. intros [H|H]; [destruct (V1 st H) as [?|?]; auto|].
      destruct (V2 st H) as [?|(v & -> & Hv)]; [auto|]. destruct (W1 v Hv) as [?|?]; eauto.
    + intros v Hv. rewrite elem_of_app. destruct (W2 v Hv) as [?|Hv']; [auto|]. destruct (W1 v Hv'); auto.
Qed.

Lemma pacemaker_acts_nil pm s : pacemaker_acts C pm pm s s [].
Proof. exists [], []. split_and!; [done|constructor|set_solver]. Qed.

Lemma pacemaker_acts_app pm pm1 pm2 s s1 s2 c1 c2 : pacemaker_acts C pm pm1 s s1 c1 →
  pacemaker_acts C pm1 pm2 s1 s2 c2 → pacemaker_acts C pm pm2 s s2 (c1 ++ c2).
Proof.
  intros (l & s3 & R1 & F1 & V1) (k & s4 & R2 & F2 & V2). exists (l ++ k), (s3 ++ s4).
  split_and!; [by eapply peer_run_app|by apply Forall_app|]. intros st. rewrite bind_app, !elem_of_app. naive_solver.
Qed.

Lemma pacemaker_acts_one em pm pm' s s' cmds a says : C a → peer_act em (mkPeer pm s) a = Ret (mkPeer pm' s', says) →
  (∀ st, st ∈ cmds ≫= timeout_statements → st ∈ says) → pacemaker_acts C pm pm' s s' cmds.
Proof.
  intros HC Ha Hst. exists [(em, a)], says. split_and!; [by apply peer_run_one|by constructor|done].
Qed.

Context (Hfree : ∀ a, match a with ActTimeout | ActPending _ | ActOther _ => C a | _ => True end).

Lemma pacemaker_acts_pending em pm pm' s : pm_high_certificate pm' = pm_high_certificate pm →
  pacemaker_acts C pm pm' s s [].
Proof.
  intros Hpm. apply (pacemaker_acts_one em _ _ _ _ _ (ActPending pm') []); [apply (Hfree (ActPending pm'))| |done].
  cbn [peer_act pe_pacemaker]. by rewrite bool_decide_eq_true_2.
Qed.

Lemma process_certificate_acts pm em s c pm' s' cmds : C (ActCertificate c) →
  pacemaker_process_certificate pm em s c = Ret (pm', s', cmds) → pacemaker_acts C pm pm' s s' cmds.
Proof.
  intros HC H. apply (pacemaker_acts_one em _ _ _ _ _ (ActCertificate c) []); [done| |].
  - cbn [peer_act pe_pacemaker pe_safety]. by rewrite H.
  - unfold pacemaker_process_certificate in H. case_bool_decide; [simplify_eq; set_solver|]. monad_inv H. simplify_eq.
    simpl. set_solver.
Qed.

Lemma local_timeout_acts em pm s pm' s' cmds : process_local_timeout pm s = Ret (pm', s', cmds) →
  pacemaker_acts C pm pm' s s' cmds.
Proof.
  intros H. apply (pacemaker_acts_one em _ _ _ _ _ ActTimeout (cmds ≫= timeout_statements)); [apply (Hfree ActTimeout)| |done].
  cbn [peer_act pe_pacemaker pe_safety]. by rewrite H.
Qed.

Lemma maybe_local_timeout_acts em pm vs s ids pm' s' cmds :
  maybe_local_timeout pm vs s ids = Ret (pm', s', cmds) → pacemaker_acts C pm pm' s s' cmds.
Proof.
  unfold maybe_local_timeout. case_bool_decide as Hph; [|intros [= <- <- <-]; apply pacemaker_acts_nil].
  intros H. monad_inv H. destruct v as [[]|]; [|simplify_eq; apply pacemaker_acts_nil|done].
  apply (local_timeout_acts em). unfold process_local_timeout.
  change (local_timeout_round {| pm with pm_phase := PhOne |} s) with (local_timeout_round pm s). done.
Qed.

Lemma timeout_loop_acts fuel em vs m e r pm s ids pm' s' cmds : (∀ c, built c → C (ActCertificate c)) →
  timeout_certificate_loop fuel em vs m e r pm s ids = Ret (pm', s', cmds) → pacemaker_acts C pm pm' s s' cmds.
Proof.
  intros HC. revert pm s ids cmds. induction fuel as [|fuel IH]; intros pm s ids cmds; [done|].
  cbn [timeout_certificate_loop].
  case_bool_decide as Hph; [|intros [= <- <- <-]; apply pacemaker_acts_nil].
  intros H. monad_inv H. destruct v as [[]|]; [|simplify_eq; apply pacemaker_acts_nil|done].
  monad_inv H. destruct v as [tc|[]]; try done.
  - monad_inv H. destruct v as [[pm1 s1] c1]. monad_inv H. destruct v0 as [[pm2 s2] c2]. simplify_eq.
    eapply pacemaker_acts_app; [eapply process_certificate_acts; [|done]|by eapply IH].
    by eapply HC, built_tc.
  - apply IH in H. eapply (pacemaker_acts_app _ _ _ _ _ _ []); [|exact H].
    apply (pacemaker_acts_pending em). apply handle_invalid_timeout_certificate.
Qed.

Lemma process_remote_timeout_acts pm em vs m s author t pm' s' cmds : (∀ c, built c → C (ActCertificate c)) →
  process_remote_timeout pm em vs m s author t = Ret (pm', s', cmds) → pacemaker_acts C pm pm' s s' cmds.
Proof.
  intros HC. unfold process_remote_timeout. intros H. monad_inv H.
  case_bool_decide; [simplify_eq; apply pacemaker_acts_nil|]. monad_inv H.
  case_bool_decide; [simplify_eq; apply pacemaker_acts_nil|]. monad_inv H.
  destruct v1 as [[pm1 s1] c1]. monad_inv H. destruct v1 as [[pm2 s2] c2]. simplify_eq.
  eapply (pacemaker_acts_app _ pm1 _ _ s1); [|by eapply timeout_loop_acts].
  apply (maybe_local_timeout_acts em) in Hv1. eapply (pacemaker_acts_app _ _ _ _ _ _ []); [|exact Hv1].
  by apply (pacemaker_acts_pending em).
Qed.

(** ** Handlers *)

Lemma quiet_acts n n' cmds : quiet n n' cmds → node_acts C n n' cmds.
Proof.
  intros [Hpm Hs Hv Hsch Hne Hp Ht]. exists [], []. unfold peer_of. rewrite Hpm, Hs.
  split_and!; [done|constructor| |].
  - intros st Hst. exfalso. apply command_statement in Hst.
    destruct st; [apply Hv in Hst|rewrite Ht in Hst|rewrite Hne in Hst]; by apply elem_of_nil in Hst.
  - intros v [?%elem_of_nil|?]%Hsch; [done|by right].
Qed.

Lemma acts_quiet {A} (m : cs A) : respects quiet m → respects (node_acts C) m.
Proof. apply respects_weaken, quiet_acts. Qed.

Lemma acts_refl n : node_acts C n n [].
Proof. exact (cp_refl n). Qed.

Lemma acts_then {A} n n1 c1 (m : cs A) : node_acts C n n1 c1 → wp false m n1 (λ n2 c2 _, node_acts C n1 n2 c2) →
  wp false m n1 (λ n2 c2 _, node_acts C n n2 (c1 ++ c2)).
Proof. intros H1 Hm. eapply wp_mono; [exact Hm|]. intros n2 c2 a H2. exact (cp_trans n n1 n2 c1 c2 H1 H2). Qed.

(** One action; what it says is in the commands or scheduled. *)
Lemma acts_one em n n' cmds a says : C a → peer_act em (peer_of n) a = Ret (peer_of n', says) →
  (∀ st, st ∈ cmds ≫= command_statements → st ∈ says ∨ ∃ v, st = StVote v ∧ vote_scheduled n v) →
  (∀ v, vote_scheduled n' v → StVote v ∈ says ∨ vote_scheduled n v) → node_acts C n n' cmds.
Proof.
  intros HC Ha Hst Hv. exists [(em, a)], says. split_and!; [by apply peer_run_one|by constructor|done|done].
Qed.

Lemma from_pacemaker_statements key ckey ver c :
  from_pacemaker_command key ckey ver c ≫= command_statements = timeout_statements c.
Proof. by destruct c as [| ti [tip|qc] [] last| |]. Qed.

Lemma acts_run_pacemaker w op :
  (∀ pm em s pm' s' c, op pm em s = Ret (pm', s', c) → pacemaker_acts C pm pm' s s' c) →
  respects (node_acts C) (run_pacemaker w op).
Proof.
  intros Hop n. unfold run_pacemaker. do 3 apply wp_bind, wp_gets. apply wp_bind, wp_lifto.
  destruct (op _ _ _) as [[[pm s] c]| |] eqn:H; [|done..]. apply Hop in H as (l & says & Hrun & HC & Hst).
  apply wp_bind, wp_modify, wp_emit. exists l, says. split_and!; [done|done| |by right].
  intros st. simpl. rewrite list_bind_bind. intros (x & Hin & Hx)%list_elem_of_bind. left. apply Hst.
  rewrite from_pacemaker_statements in Hin. apply list_elem_of_bind. eauto.
Qed.

Lemma acts_modify f : (∀ c, pacemaker (f c) = pacemaker c) → (∀ c, safety (f c) = safety c) →
  (∀ c v, scheduled_vote (f c) = Some (VoteReady v) → scheduled_vote c = Some (VoteReady v)) →
  respects (node_acts C) (modify f).
Proof. intros H1 H2 H3. apply acts_quiet, quiet_modify; auto. Qed.

#[local] Hint Extern 5 (respects (node_acts _) _) => apply acts_quiet; solve [eauto 3 with driver] : driver.
#[local] Hint Extern 1 (respects (node_acts _) (modify _)) =>
  apply acts_modify; intros; first [reflexivity | discriminate | assumption] : driver.

(** After the vote was registered, sending or scheduling it. *)
Lemma acts_vote n s' p n' cmds v : C (ActProposal p) → pr_proposal_round p = node_round n →
  is_safe_to_vote (safety (consensus n)) (node_round n) (pr_last_round_tc p ≫= tc_tip_id) = true →
  safety_vote (safety (consensus n)) (node_round n) (pr_last_round_tc p ≫= tc_tip_id) (pr_tip p) = Ret s' →
  v = mkVote (get_id (tip_block_header (pr_tip p))) (node_round n) (pm_current_epoch (pacemaker (consensus n))) →
  is_ret (get_current_round (pacemaker (consensus n))) →
  quiet_but [v] (with_safety n s') n' cmds → node_acts C n n' cmds.
Proof.
  intros HC Hr Hsafe Hs Hv [r Hround] [Qpm Qs Qv Qsch Qne Qp Qt]. simpl in *.
  apply (acts_one (epoch_manager n) n n' cmds (ActProposal p) [StVote v]); [done| | |].
  - cbn [peer_act peer_of pe_pacemaker pe_safety]. rewrite Hround. apply get_current_round_inv in Hround as ->. cbn [mbind outcome_bind].
    fold (node_round n). rewrite Hsafe, bool_decide_eq_true_2 by done. cbn [andb negb]. rewrite Hs. cbn [mbind outcome_bind].
    unfold peer_of. by rewrite Qpm, Qs, Hv.
  - intros st Hst%command_statement. left. destruct st as [v'| |].
    + apply Qv, list_elem_of_singleton in Hst as ->. left.
    + rewrite Qt in Hst. by apply elem_of_nil in Hst.
    + rewrite Qne in Hst. by apply elem_of_nil in Hst.
  - intros v' [->%list_elem_of_singleton|?]%Qsch; [left; left|by right].
Qed.

Lemma acts_try_vote w p n : C (ActProposal p) → pr_proposal_round p = node_round n →
  wp false (try_vote w (pr_last_round_tc p) (pr_tip p)) n (λ n' cmds _, node_acts C n n' cmds).
Proof.
  intros HC Hround. eapply wp_mono; [apply try_vote_cases|].
  intros n' c _ [[-> ->]|(s' & Hcur & Hsafe & Hs & Hq)]; [apply acts_refl|]. by eapply acts_vote.
Qed.

(** An operation of the safety module that signs no statement. *)
Lemma acts_other n s' op evs n' cmds :
  match op with OpPropose _ | OpRecoveryRequest _ | OpHandleProposal _ => True | _ => False end →
  safety_exec (safety (consensus n)) op = Ret (s', evs) →
  pacemaker (consensus n') = pacemaker (consensus n) → safety (consensus n') = s' →
  scheduled_vote (consensus n') = scheduled_vote (consensus n) →
  cmds ≫= command_statements = [] → node_acts C n n' cmds.
Proof.
  intros Hop Hs Hpm Hs' Hsch Hst. apply (acts_one (epoch_manager n) n n' cmds (ActOther op) []).
  - apply (Hfree (ActOther op)).
  - unfold peer_of. cbn [peer_act pe_pacemaker pe_safety]. rewrite Hs, Hpm, Hs'. by destruct op.
  - rewrite Hst. by intros st ?%elem_of_nil.
  - intros v. unfold vote_scheduled. rewrite Hsch. by right.
Qed.

Lemma acts_propose_tip w r tip tc : respects (node_acts C) (propose_tip w r tip tc).
Proof.
  intros n. unfold propose_tip. apply (wp_after quiet); [auto with driver|]. intros n1 c1 _ Hq.
  apply acts_then; [by apply quiet_acts|]. do 3 apply wp_bind, wp_gets. simpl.
  destruct (_ || _).
  - destruct (negb _); [apply acts_refl|]. apply wp_bind, wp_lifto.
    destruct (safety_recovery_request _ _) as [s'| |] eqn:Hs; [|done..]. apply wp_bind, wp_modify, wp_bind, wp_lifto.
    destruct tc as [tc|]; [|done]. simpl. apply wp_bind, wp_current_round, wp_emit.
    eapply (acts_other n1 s' (OpRecoveryRequest r)); try done. cbn [safety_exec]. by rewrite Hs.
  - apply wp_bind, wp_lifto. destruct (safety_propose _ _) as [s'| |] eqn:Hs; [|done..].
    apply wp_bind, wp_modify, wp_bind, wp_lifto. destruct (get_block _ _) as [b|]; [|done]. simpl.
    apply wp_bind, wp_current_round, wp_emit.
    eapply (acts_other n1 s' (OpPropose r)); try done. cbn [safety_exec]. by rewrite Hs.
Qed.

Lemma acts_propose_fresh w e r qc fresh tc : respects (node_acts C) (propose_fresh w e r qc fresh tc).
Proof.
  intros n. unfold propose_fresh. apply (wp_after quiet); [auto with driver|]. intros n1 c1 _ Hq.
  apply acts_then; [by apply quiet_acts|]. apply wp_bind, wp_gets. simpl. destruct (negb _); [apply acts_refl|].
  apply wp_bind, wp_lifto. destruct (get_blocks_on_path_from_root _ _) as [path| |]; [|done..].
  apply wp_bind, wp_lifto. destruct path as [path|]; [|done]. simpl.
  destruct (match last path with Some _ => _ | None => _ end) as [sn ts].
  apply wp_bind, wp_lifto. destruct (seq_add _ _) as [sn'| |]; [|done..]. apply wp_bind, wp_gets. simpl.
  destruct (get_expected_execution_results _ _ _ _); [|apply acts_refl]. apply wp_bind, wp_gets, wp_bind, wp_lifto.
  destruct (safety_propose _ _) as [s'| |] eqn:Hs; [|done..]. apply wp_bind, wp_modify, wp_emit.
  eapply (acts_other n1 s' (OpPropose r)); try done. cbn [safety_exec]. by rewrite Hs.
Qed.

Lemma acts_try_propose w : respects (node_acts C) (try_propose w).
Proof. unfold try_propose, leader_of, validators_of. pose proof acts_propose_tip. pose proof acts_propose_fresh. respects. Qed.
#[local] Hint Resolve acts_try_propose : driver.
#[local] Hint Extern 1 (respects (node_acts _) (run_pacemaker _ _)) =>
  apply acts_run_pacemaker; intros; solve [eauto using process_certificate_acts, local_timeout_acts,
    process_remote_timeout_acts] : driver.

Lemma acts_process_qc w qc : C (ActCertificate (RcQc qc)) → respects (node_acts C) (process_qc w qc).
Proof. intros HC. unfold process_qc. respects. Qed.
Lemma acts_process_tc w tc : C (ActCertificate (RcTc tc)) → respects (node_acts C) (process_tc w tc).
Proof. intros HC. unfold process_tc. respects. Qed.
Lemma acts_timeout_expiry w r : respects (node_acts C) (handle_timeout_expiry w r).
Proof. unfold handle_timeout_expiry. respects. Qed.
#[local] Hint Resolve acts_process_qc acts_process_tc acts_timeout_expiry : driver.

Context (Hbuilt : ∀ c, built c → C (ActCertificate c)).

Lemma acts_vote_message w author m : respects (node_acts C) (handle_vote_message w author m).
Proof.
  unfold handle_vote_message, validators_of, cert_pubkeys_of, leader_of.
  do 2 (apply respects_bind; [apply _|driver|intros ?]; destruct (bool_decide _); [driver|]).
  do 4 (apply respects_bind; [apply _|driver|intros ?]).
  apply respects_lifto_bind. intros [votes [qc|]] Hqc; [|respects].
  assert (C (ActCertificate (RcQc qc))) by (by eapply Hbuilt, built_qc). respects.
Qed.
#[local] Hint Resolve acts_vote_message : driver.

Lemma acts_vote_if_current w b p : C (ActProposal p) →
  respects (node_acts C) (vote_if_current w b (pr_proposal_round p) (pr_last_round_tc p) (pr_tip p)).
Proof.
  intros HC n. apply wp_bind, wp_current_round. case_bool_decide as Hr; [|apply acts_refl].
  apply wp_bind, wp_lifto. destruct (rust_assert _); [|done..]. by apply acts_try_vote.
Qed.

Lemma acts_accept_proposal w p : C (ActProposal p) → respects (node_acts C) (accept_proposal w p).
Proof.
  intros HC n. apply wp_bind, wp_gets. simpl. destruct (negb _); [apply acts_refl|].
  apply wp_bind, wp_lifto. destruct (safety_handle_proposal _ _) as [s'| |] eqn:Hs; [|done..].
  apply wp_bind, wp_modify. simpl. apply (acts_then n (with_safety n s') []).
  { eapply (acts_other n s' (OpHandleProposal (pr_proposal_round p))); try done. cbn [safety_exec]. by rewrite Hs. }
  match goal with |- wp _ ?m _ _ => enough (respects (node_acts C) m) as Hm by apply Hm end.
  unfold try_add_and_commit_blocktree. pose proof (λ b, acts_vote_if_current w b p HC). respects.
Qed.

Lemma acts_proposal_message w author p : (∀ a, from_event (EvProposal author p) a → C a) →
  respects (node_acts C) (handle_proposal_message w author p).
Proof.
  intros HC. unfold handle_proposal_message, validators_of, leader_of.
  assert (respects (node_acts C) (accept_proposal w p)) by (apply acts_accept_proposal, HC; by exists author).
  assert (C (ActCertificate (RcQc (bh_qc (tip_block_header (pr_tip p)))))) by (apply HC; left; left).
  destruct (pr_last_round_tc p) as [tc|] eqn:Htc; [|respects].
  assert (C (ActCertificate (RcTc tc))) by (apply HC; left; right; rewrite Htc; left). respects.
Qed.

Lemma acts_timeout_message w author t : (∀ a, from_event (EvTimeoutMsg author t) a → C a) →
  respects (node_acts C) (handle_timeout_message w author t).
Proof.
  intros HC. unfold handle_timeout_message, timeout_catch_up, validators_of, cert_pubkeys_of.
  assert (C (ActCertificate (RcQc (high_extend_vote_qc (to_high_extend t))))) by (apply HC; left; left).
  assert (∀ c, to_last_round_certificate t = Some c → C (ActCertificate c)) as Hlast.
  { intros c Hc. apply HC. left. right. rewrite Hc. left. }
  destruct (to_last_round_certificate t) as [c|]; [specialize (Hlast c eq_refl)|]; respects.
Qed.

Lemma acts_no_endorse em w author e m tip n : C (ActRecovery m) → tc_high_extend (rr_tc m) = HeTip tip →
  rr_round m = node_round n → get_epoch em (rr_round m) = Some e →
  is_ret (get_current_round (pacemaker (consensus n))) →
  wp false (no_endorse w author e (rr_round m) (tip_block_header tip)) n (λ n' cmds _, node_acts C n n' cmds).
Proof.
  intros HC Htip Hr He [r Hcur]. apply wp_bind, wp_gets. simpl.
  destruct (is_safe_to_no_endorse _ _) eqn:Hsafe; [|apply acts_refl]. simpl. apply wp_bind, wp_lifto.
  destruct (safety_no_endorse _ _ _) as [s'| |] eqn:Hs; [|done..]. apply wp_bind, wp_modify, wp_emit.
  apply (acts_one em _ _ _ (ActRecovery m)
    [StNoEndorse (mkNoEndorsement e (rr_round m) (qc_get_round (bh_qc (tip_block_header tip))))]); [done| | |].
  - unfold peer_of. cbn [peer_act pe_pacemaker pe_safety]. rewrite Hcur, Htip. apply get_current_round_inv in Hcur as ->.
    fold (node_round n). cbn [mbind outcome_bind]. rewrite <- Hr, Hsafe, bool_decide_eq_true_2 by done. cbn [andb negb].
    rewrite He. cbn [expect mbind outcome_bind]. by rewrite Hs.
  - simpl. by left.
  - by right.
Qed.

Lemma acts_round_recovery w author m : (∀ a, from_event (EvRoundRecovery author m) a → C a) →
  respects (node_acts C) (handle_round_recovery_message w author m).
Proof.
  intros HC n. unfold handle_round_recovery_message. apply wp_bind. unfold epoch_of.
  apply wp_bind, wp_gets, wp_lifto. destruct (get_epoch _ _) as [e|] eqn:He; [|done]. simpl.
  apply wp_bind, wp_lifto. destruct (expect _) as [vs| |]; [|done..]. simpl. apply wp_bind, wp_current_round. simpl.
  assert (C (ActCertificate (RcTc (rr_tc m)))) by (apply HC; left; left).
  apply (wp_after (node_acts C)); [auto with driver|]. intros n2 c2 _ H2. apply acts_then; [done|].
  apply wp_bind. unfold current_round. apply wp_bind, wp_gets, wp_lifto.
  destruct (get_current_round (pacemaker (consensus n2))) as [r| |] eqn:Hcur; [|done..].
  apply get_current_round_inv in Hcur as Hr. change (r = node_round n2) in Hr. subst r.
  apply wp_bind, wp_lifto. destruct (get_leader _ _) as [l| |]; [|done..]. simpl.
  destruct (bool_decide (rr_round m ≠ node_round n2)) eqn:Hr; [apply acts_refl|].
  apply bool_decide_eq_false, dec_stable in Hr. simpl. case_bool_decide; [apply acts_refl|].
  destruct (tc_high_extend _) as [tip|qc] eqn:Htip; [|apply acts_refl]. apply wp_bind, wp_gets. simpl.
  destruct (_ && _); [apply acts_refl|]. eapply acts_no_endorse; try done; [|by eexists].
  apply HC. by exists author.
Qed.

Lemma acts_vote_timer w r : respects (node_acts C) (handle_vote_timer w r).
Proof.
  intros n. apply wp_bind, wp_gets. simpl.
  destruct (scheduled_vote (consensus n)) as [[|v]|] eqn:Hs.
  1,3: apply wp_modify; apply quiet_acts; split; try done; by intros v ?%elem_of_nil.
  eapply wp_mono; [apply send_vote_signs|]. intros n' c _ [Qpm Qs Qv Qsch Qne Qp Qt].
  exists [], []. unfold peer_of. rewrite Qpm, Qs. split_and!; [done|constructor| |].
  - intros st Hst%command_statement. right. destruct st as [v'| |].
    + apply Qv, list_elem_of_singleton in Hst as ->. by exists v.
    + rewrite Qt in Hst. by apply elem_of_nil in Hst.
    + rewrite Qne in Hst. by apply elem_of_nil in Hst.
  - intros v' [->%list_elem_of_singleton|?]%Qsch; by right.
Qed.

Lemma acts_sync_loop w l : respects (node_acts C) (sync_loop w l).
Proof. induction l as [|b l IH]; cbn [sync_loop]; [auto with driver|]. unfold try_add_and_commit_blocktree. respects. Qed.

Lemma acts_event w e : (∀ a, from_event e a → C a) → respects (node_acts C) (handle_event w e).
Proof.
  intros HC. destruct e; cbn [handle_event]; auto with driver.
  - by apply acts_proposal_message.
  - by apply acts_timeout_message.
  - by apply acts_round_recovery.
  - unfold handle_no_endorsement_message, validators_of, cert_pubkeys_of. respects.
  - unfold handle_advance_round_message.
    assert (C (ActCertificate (ar_last_round_certificate m))) by (apply HC; left; left).
    destruct (ar_last_round_certificate m); respects.
  - unfold handle_block_sync. pose proof acts_sync_loop. respects.
  - apply acts_vote_timer.
Qed.
End acts.
End definitions.

Section node_protocol_properties.
Context `{P : Params} {CD : Codec} {MC : MessageCodec} {CS : CertSignature} {AS : AuthorSigning}
        {SC : SignatureCollection} {LE : LeaderElection} {BP : BlockPolicy} {BV : BlockValidator}
        {HO : HashOrder TimeoutInfo (list (NodeId * Signature))} {HB : HashOrder BlockId BlockTreeEntry}.

Lemma acts_node_run C events : (∀ a, match a with ActTimeout | ActPending _ | ActOther _ => C a | _ => True end) →
  (∀ c, built c → C (ActCertificate c)) → (∀ w e a, (w, e) ∈ events → from_event e a → C a) →
  respects (node_acts C) (node_run events).
Proof.
  intros Hfree Hbuilt. induction events as [|[w e] events IH]; intros HC; cbn [node_run]; [apply respects_ret, _|].
  apply respects_bind; [apply _| |].
  - apply acts_event; [done..|]. intros a Ha. apply (HC w e); [left|done].
  - intros _. apply IH. intros w' e' a Hin. apply (HC w' e'). by right.
Qed.

End node_protocol_properties.

Section node_protocol_witness.
Import ToyNode.

(** The node votes and times out in the run of NodeSafety.v. *)
Lemma toy_run_statements : length (toy_run_result.1.2 ≫= command_statements) ≠ 0%nat.
Proof. by vm_compute. Qed.

End node_protocol_witness.
