(* ===== verification/ForgottenQc.v ===== *)
(** * A forgotten certificate

    A node reports in its timeouts the tip it voted for or, without one, the
    certificate inside the last round certificate it accepted. It drops its
    tip when it learns a certificate of the tip's round, but a timeout
    certificate accepted later may carry an older certificate: the node then
    reports neither. Four nodes, one of them faulty, show that this breaks
    agreement. *)
From S2P Require Import Prelude Types ChainConfig Interfaces MultiSig Certificates Concrete ValidatorSet SafetyModule VoteState NoEndorsementState Epochs Leader Pacemaker Messages Validation ValidationSpec BlockTree BlockTreeCorrect Timestamp ConsensusState ToyNet NodeSafety NodeCommit.

Section network.
Import ToyNetwork.

Definition net_root : RootInfo := mkRootInfo 0 0 1 GENESIS_BLOCK_ID 0.
Definition net_node : Node :=
  mkNode (ret_or (mkConsensusState (block_tree_new net_root) (vote_state_new 0) (no_endorsement_state_new 0) None
                   safety_default toy_pm ∅ None None)
            (consensus_state_new net_epochs toy_config net_root (RcQc net_qc0)))
    net_epochs ([] : PolicyState).
Definition net_wrapper (k time : N) : Wrapper :=
  mkWrapper (tt : StateBackend) net_vem 1 (mkBlockTimestamp time 1000 1) [] (k : @NodeId toy_params) toy_config
    (k : @AuthorKeyPair toy_params) (k : @CertKeyPair toy_params).

(** ** Blocks and certificates

    Node 1 is faulty, nodes 2, 3 and 4 are not. Block [x] of round 2 is voted
    for by nodes 2 and 3 in rounds 2 and 4; [y] of round 5 extends its
    certificate of round 4. Block [t] of round 5 has the same parent as [x]. *)
Definition tc1 := net_tc 1 [([1; 3; 4], 0, 0)] (HeQc net_qc0).
Definition x := net_header 2 1 net_qc0.
Definition x_tip := net_tip x (Some (net_no_tip 1 [([1; 3; 4], 0, 0)] net_qc0)).
Definition x_qc2 := net_qc [1; 2; 3] x 2.
Definition tc2 := net_tc 2 [([1; 4], 0, 0); ([3], 0, 2)] (HeTip x_tip).
Definition tc3 := net_tc 3 [([1; 4], 0, 0); ([3], 0, 2)] (HeTip x_tip).
Definition x_qc4 := net_qc [1; 2; 3] x 4.
Definition tc4 := net_tc 4 [([1; 2; 4], 0, 0)] (HeQc net_qc0).
Definition y := net_header 5 2 x_qc4.
Definition y_tip := net_tip y None.
Definition y_qc5 := net_qc [1; 2; 3] y 5.
Definition t := net_header 5 1 net_qc0.
Definition t_tip := net_tip t (Some (net_no_tip 4 [([1; 2; 4], 0, 0)] net_qc0)).
Definition tc5 := net_tc 5 [([1; 4], 0, 0); ([3], 4, 5)] (HeTip y_tip).
Definition tc6 := net_tc 6 [([1; 4], 4, 0); ([3], 4, 5)] (HeTip y_tip).
Definition tc7 := net_tc 7 [([2; 4], 4, 0); ([1], 0, 5)] (HeTip t_tip).
Definition t_qc8 := net_qc [1; 3; 4] t 8.
Definition u := net_header 9 2 t_qc8.
Definition u_qc9 := net_qc [1; 3; 4] u 9.

Definition proposal (round : N) (tip : ConsensusTip) (tc : option TimeoutCertificate) : @node_event toy_params :=
  EvProposal (1 : @NodeId toy_params) (mkProposalMessage round 1 tip toy_body tc).
Definition advance (c : RoundCertificate) : @node_event toy_params :=
  EvAdvanceRound (1 : @NodeId toy_params) (mkAdvanceRoundMessage c).
Definition expiry (round : N) : @node_event toy_params := EvTimeoutExpiry round.

Definition schedule : list (N * @node_event toy_params) :=
  [(2, expiry 1); (3, expiry 1); (4, expiry 1); (2, advance (RcTc tc1)); (3, advance (RcTc tc1)); (4, advance (RcTc tc1));
   (* round 2: nodes 2 and 3 vote for x; node 2 learns the certificate *)
   (2, proposal 2 x_tip (Some tc1)); (3, proposal 2 x_tip (Some tc1)); (2, advance (RcQc x_qc2));
   (3, expiry 2); (4, expiry 2); (3, advance (RcTc tc2)); (4, advance (RcTc tc2));
   (3, expiry 3); (4, expiry 3); (2, advance (RcTc tc3)); (4, advance (RcTc tc3));
   (* round 4: x is proposed again; node 2 no longer reports it *)
   (2, proposal 4 x_tip (Some tc3)); (3, proposal 4 x_tip (Some tc3)); (2, expiry 4); (4, expiry 4); (4, advance (RcTc tc4));
   (* round 5: y is certified; node 2 learns it and commits x *)
   (2, proposal 5 y_tip None); (3, proposal 5 y_tip None); (2, advance (RcQc y_qc5));
   (3, expiry 5); (4, expiry 5); (3, advance (RcTc tc5)); (4, advance (RcTc tc5));
   (3, expiry 6); (4, expiry 6); (2, advance (RcTc tc6)); (4, advance (RcTc tc6));
   (* round 7: node 2 reports neither y nor its certificate *)
   (2, expiry 7); (4, expiry 7);
   (* rounds 8 and 9: t is proposed again, and committed by node 3 *)
   (3, proposal 8 t_tip (Some tc7)); (4, proposal 8 t_tip (Some tc7)); (3, proposal 9 (net_tip u None) None);
   (4, proposal 9 (net_tip u None) None); (3, advance (RcQc u_qc9))].

(** ** Executions

    The faulty node sends any valid message to any node at any time, but the
    signatures of the other nodes in it are ones they have published. *)
Definition qc_sigs (qc : QuorumCertificate) : list ToySig := (qc_signatures qc : list ToySig).
Definition tip_rounds_sigs (l : list HighTipRoundSigColTuple) : list ToySig := l ≫= (λ g, (tr_sigs g : list ToySig)).
Definition fresh_sigs (f : FreshProposalCertificate) : list ToySig :=
  match f with
  | Nec nec => (nec_signatures nec : list ToySig)
  | NoTip no_tip => tip_rounds_sigs (nt_tip_rounds no_tip) ++ qc_sigs (nt_high_qc no_tip)
  end.
Definition tip_sigs (tip : ConsensusTip) : list ToySig :=
  (tip_signature tip : ToySig) :: bh_round_signature (tip_block_header tip) :: qc_sigs (bh_qc (tip_block_header tip)) ++
  from_option fresh_sigs [] (tip_fresh_certificate tip).
Definition extend_sigs (he : HighExtend) : list ToySig := match he with HeQc qc => qc_sigs qc | HeTip tip => tip_sigs tip end.
Definition tc_sigs (tc : TimeoutCertificate) : list ToySig := tip_rounds_sigs (tc_tip_rounds tc) ++ extend_sigs (tc_high_extend tc).
Definition certificate_sigs (c : RoundCertificate) : list ToySig := match c with RcQc qc => qc_sigs qc | RcTc tc => tc_sigs tc end.
Definition message_sigs (m : ProtocolMessage) : list ToySig :=
  match m with
  | PmProposal p => tip_sigs (pr_tip p) ++ from_option tc_sigs [] (pr_last_round_tc p)
  | PmVote v => [vm_sig v : ToySig]
  | PmTimeout t =>
      (to_timeout_signature t : ToySig) ::
      match to_high_extend t with
      | HevQc qc => qc_sigs qc
      | HevTip tip sig => tip_sigs tip ++ option_list (sig : option ToySig)
      end ++ from_option certificate_sigs [] (to_last_round_certificate t)
  | PmRoundRecovery m => tc_sigs (rr_tc m)
  | PmNoEndorsement m => [nem_signature m : ToySig]
  | PmAdvanceRound m => certificate_sigs (ar_last_round_certificate m)
  end.
(** What node [k] has signed itself in its commands. *)
Definition signed_by (k : N) (cmds : list ConsensusCommand) : list ToySig :=
  filter (λ s, s.1 = k) (cmds ≫= in_message message_sigs).

Record Net := mkNet { net_nodes : gmap N Node; net_log : list ToySig; net_finalized : list (N * ConsensusFullBlock) }.
Definition net_init : Net := mkNet {[2 := net_node; 3 := net_node; 4 := net_node]} [] [].

(** The message of an event, for the events of this network: messages of
    node 1 and timers. *)
Definition event_message (e : node_event) : option (option ProtocolMessage) :=
  match e with
  | EvProposal author p => if bool_decide (author = (1 : @NodeId toy_params)) then Some (Some (PmProposal p)) else None
  | EvAdvanceRound author m => if bool_decide (author = (1 : @NodeId toy_params)) then Some (Some (PmAdvanceRound m)) else None
  | EvTimeoutExpiry _ => Some None
  | _ => None
  end.

Inductive net_step (net : Net) : Net → Prop :=
| NetDeliver k e m n n' cmds :
    event_message e = Some m →
    (∀ msg, m = Some msg → message_valid net_epochs net_vem msg ∧
       ∀ s, s ∈ message_sigs msg → s.1 = 1 ∨ s ∈ net_log net) →
    net_nodes net !! k = Some n → handle_event (net_wrapper k 20) e n = Ret (n', cmds, tt) →
    net_step net (mkNet (<[k := n']> (net_nodes net)) (net_log net ++ signed_by k cmds)
                        (net_finalized net ++ ((λ b, (k, b)) <$> (cmds ≫= finalized)))).

(** An execution of a schedule that checks each step. *)
Definition net_exec_step (net : Net) (k : N) (e : node_event) : option Net :=
  m ← event_message e;
  if negb (from_option (λ msg, message_accepted msg &&
             forallb (λ s : ToySig, bool_decide (s.1 = 1) || bool_decide (s ∈ net_log net)) (message_sigs msg)) true m)
  then None else
  n ← net_nodes net !! k;
  match handle_event (net_wrapper k 20) e n with
  | Ret (n', cmds, _) =>
      Some (mkNet (<[k := n']> (net_nodes net)) (net_log net ++ signed_by k cmds)
                  (net_finalized net ++ ((λ b, (k, b)) <$> (cmds ≫= finalized))))
  | _ => None
  end.
Fixpoint net_exec (net : Net) (l : list (N * @node_event toy_params)) : option Net :=
  match l with
  | [] => Some net
  | (k, e) :: l => net ← net_exec_step net k e; net_exec net l
  end.

(** ** The execution is one of the network *)

Lemma net_exec_step_sound net k e net' : net_exec_step net k e = Some net' → net_step net net'.
Proof.
  unfold net_exec_step. intros (m & Hm & H)%bind_Some.
  destruct (from_option _ true m) eqn:Hok; [|done]. apply bind_Some in H as (n & Hn & H).
  destruct (handle_event _ _ _) as [[[n' cmds] []]| |] eqn:Hev; [|done..]. injection H as <-.
  eapply NetDeliver; [exact Hm| |exact Hn|exact Hev].
  intros msg ->. apply andb_true_iff in Hok as [Hv Hs]. split; [by apply message_accepted_valid|].
  intros s Hin. rewrite forallb_forall in Hs. apply list_elem_of_In, Hs, orb_true_iff in Hin.
  by rewrite !bool_decide_eq_true in Hin.
Qed.

Lemma net_exec_sound net l net' : net_exec net l = Some net' → rtc net_step net net'.
Proof.
  revert net. induction l as [|[k e] l IH]; intros net; simpl.
  - by intros [= ->].
  - intros (net1 & H1%net_exec_step_sound & H2)%bind_Some. eapply rtc_l; eauto.
Qed.

(** C5. Agreement fails: four validators with equal stake, one of them faulty;
    the faulty one only sends messages that the others accept as valid, with
    signatures it has seen. Two other nodes finalize different blocks with
    the same sequence number. *)
Theorem forgotten_certificate_breaks_agreement :
  has_honest_vote net_vs [1 : @NodeId toy_params] = Ret (Ok false) ∧
  ∃ net b b', rtc net_step net_init net ∧ (2, b) ∈ net_finalized net ∧ (3, b') ∈ net_finalized net ∧
    fb_get_seq_num b = fb_get_seq_num b' ∧ fb_get_id b ≠ fb_get_id b'.
Proof.
  split; [apply net_faulty_below_third|].
  assert (match net_exec net_init schedule with
          | Some net => (λ p, (p.1, fb_get_seq_num p.2, fb_get_id p.2)) <$> net_finalized net
          | None => [] end = [(2, 1, get_id x); (3, 1, get_id t)]) as H by vm_refl.
  destruct (net_exec net_init schedule) as [net|] eqn:Hexec; [|done]. apply net_exec_sound in Hexec.
  destruct (net_finalized net) as [|[k b] [|[k' b'] [|]]] eqn:Hf; try done.
  injection H as -> Hs Hi -> Hs' Hi'. exists net, b, b'. rewrite Hf.
  split; [done|]. split; [left|]. split; [right; left|]. split; [congruence|]. intros Heq.
  assert (get_id x = get_id t) as Hbad by exact (eq_trans (eq_sym Hi) (eq_trans Heq Hi')). by vm_compute in Hbad.
Qed.
End network.
