(* ===== verification/BlockSync.v ===== *)
(** * Block sync (monad-blocksync/src)

    Requests for ranges of headers and for payloads, those of the node itself
    and those of its peers. A request of the node goes to its ledger first and
    then to one peer after the other; the headers of a range are checked
    against each other and the payloads against the headers, so a peer can
    delay an answer but not forge it. When all payloads of a range are there
    the range is emitted to consensus or state sync, whichever asked for it.

    The ledger, the network and the timers are reached by commands. The
    generator of random numbers is a parameter ([SyncRng]). Metrics and log
    messages are left out. *)
From S2P Require Import Prelude Types Interfaces MultiSig Certificates Concrete ValidatorSet Epochs Leader BlockTree.
#[local] Open Scope N_scope.

Definition BLOCKSYNC_MAX_PAYLOAD_REQUESTS : N := 10.

(** [ChaCha8Rng]: [SliceRandom::choose] on a slice of a given positive length
    gives an index, [fill_bytes] a 256-bit number. The drawing loop of
    [randomize_256_with_rng] has no bound in the source, here [rng_fuel]. *)
Class SyncRng := {
  Rng : Type;
  rng_choose : nat → Rng → nat * Rng;
  rng_draw : Rng → N * Rng;
  rng_fuel : nat;
}.

#[global] Instance BlockRange_eq_dec : EqDecision BlockRange.
Proof. solve_decision. Defined.
#[global] Program Instance BlockRange_countable : Countable BlockRange :=
  inj_countable' (λ r, (br_last_block_id r, br_num_blocks r)) (λ p, mkBlockRange p.1 p.2) _.
Next Obligation. by intros []. Qed.

(** ** messages/message.rs *)

Inductive BlockSyncRequestMessage :=
| BsHeaders (range : BlockRange)
| BsPayload (id : N).

(** ** blocksync.rs *)

Inductive BlockSyncSelfRequester := BsConsensus | BsStateSync.
#[global] Instance BlockSyncSelfRequester_eq_dec : EqDecision BlockSyncSelfRequester.
Proof. solve_decision. Defined.

Section block_sync.
Context `{P : Params} {CD : Codec}.

Inductive BlockSyncHeadersResponse :=
| HrFound (range : BlockRange) (headers : list ConsensusBlockHeader)
| HrNotAvailable (range : BlockRange).

Definition get_block_range (r : BlockSyncHeadersResponse) : BlockRange :=
  match r with HrFound range _ => range | HrNotAvailable range => range end.

Inductive BlockSyncBodyResponse :=
| BrFound (body : ConsensusBlockBody)
| BrNotAvailable (id : N).

Definition get_payload_id (r : BlockSyncBodyResponse) : N :=
  match r with BrFound payload => body_get_id payload | BrNotAvailable payload_id => payload_id end.

Inductive BlockSyncResponseMessage :=
| HeadersResponse (r : BlockSyncHeadersResponse)
| PayloadResponse (r : BlockSyncBodyResponse).

Inductive BlockSyncCommand :=
| BcSendRequest (to : NodeId) (request : BlockSyncRequestMessage)
| BcScheduleTimeout (request : BlockSyncRequestMessage)
| BcResetTimeout (request : BlockSyncRequestMessage)
| BcSendResponse (to : NodeId) (response : BlockSyncResponseMessage)
| BcFetchHeaders (range : BlockRange)
| BcFetchPayload (id : N)
| BcEmit (requester : BlockSyncSelfRequester) (range : BlockRange) (blocks : list ConsensusFullBlock).

Record SelfRequest := mkSelfRequest {
  sr_requester : BlockSyncSelfRequester;
  sr_to : option NodeId;
}.

Record SelfCompletedHeader := mkSelfCompletedHeader {
  ch_requester : BlockSyncSelfRequester;
  ch_blocks : list (ConsensusBlockHeader * option ConsensusBlockBody);
  ch_payload_cache : gmap N ConsensusBlockBody;
}.

Context {SR : SyncRng} {HH : HashOrder BlockRange SelfCompletedHeader} {HP : HashOrder N (option SelfRequest)}.

(** The [BTreeSet] of requesters of a payload is a map to [unit]. *)
Record BlockSync := mkBlockSync {
  headers_requests : gmap BlockRange (gmap NodeId (list ConsensusBlockHeader));
  payload_requests : gmap N (gmap NodeId unit);
  self_headers_requests : gmap BlockRange SelfRequest;
  self_payload_requests : gmap N (option SelfRequest);
  self_payload_requests_in_flight : N;
  self_completed_headers_requests : gmap BlockRange SelfCompletedHeader;
  self_request_mode : BlockSyncSelfRequester;
  override_peers : list NodeId;
  self_node_id : NodeId;
  bs_rng : Rng;
}.

Definition set_override_peers (s : BlockSync) (override_peers_inc_self : list NodeId) : BlockSync :=
  {| s with override_peers := filter (λ peer, peer ≠ self_node_id s) override_peers_inc_self |}.

Definition block_sync_new (override_peers_inc_self : list NodeId) (self_node_id : NodeId) (rng : Rng) : BlockSync :=
  set_override_peers (mkBlockSync ∅ ∅ ∅ ∅ 0 ∅ BsStateSync [] self_node_id rng) override_peers_inc_self.

Definition clear_self_requests (s : BlockSync) : BlockSync :=
  {| s with self_headers_requests := ∅; self_payload_requests := ∅; self_payload_requests_in_flight := 0;
            self_completed_headers_requests := ∅ |}.

Definition self_request_exists (s : BlockSync) (block_range : BlockRange) : bool :=
  bool_decide (is_Some (self_headers_requests s !! block_range))
  || bool_decide (is_Some (self_completed_headers_requests s !! block_range)).

Inductive BlockCache :=
| CacheBlockTree (blocktree : BlockTree)
| CacheBlockBuffer (full_blocks : gmap N ConsensusBlockBody).

(** What [BlockSyncWrapper] only reads. *)
Record BlockSyncWrapper := mkBlockSyncWrapper {
  bw_block_cache : BlockCache;
  bw_nodeid : NodeId;
  bw_current_epoch : Epoch;
  bw_val_epoch_map : ValidatorsEpochMapping;
  bw_secondary_raptorcast_peers : gmap NodeId Round;
}.

(** *** Requests of the node *)

Definition handle_self_request (s : BlockSync) (requester : BlockSyncSelfRequester) (block_range : BlockRange)
    : BlockSync * list BlockSyncCommand :=
  if bool_decide (br_num_blocks block_range = 0) then (s, []) else
  let s := if bool_decide (requester ≠ self_request_mode s)
           then let s := clear_self_requests s in {| s with self_request_mode := requester |} else s in
  if self_request_exists s block_range then (s, []) else
  ({| s with self_headers_requests := <[block_range := mkSelfRequest requester None]> (self_headers_requests s) |},
   [BcFetchHeaders block_range]).

(** Removes an entry if it is the requester's. *)
Definition cancel_entry {V} (requester_of : V → BlockSyncSelfRequester) (requester : BlockSyncSelfRequester)
    (block_range : BlockRange) (m : gmap BlockRange V) : gmap BlockRange V :=
  match m !! block_range with
  | Some e => if bool_decide (requester_of e = requester) then delete block_range m else m
  | None => m
  end.

Definition handle_self_cancel_request (s : BlockSync) (requester : BlockSyncSelfRequester) (block_range : BlockRange)
    : BlockSync :=
  {| s with
       self_headers_requests := cancel_entry sr_requester requester block_range (self_headers_requests s);
       self_completed_headers_requests :=
         cancel_entry ch_requester requester block_range (self_completed_headers_requests s) |}.

(** *** Peers *)

(** [slice.choose(rng).copied()]. *)
Definition choose_peer (l : list NodeId) (rng : Rng) : option NodeId * Rng :=
  if bool_decide (l = []) then (None, rng) else
  let '(i, rng) := rng_choose (length l) rng in (l !! i, rng).

(** [randomize_256_with_rng] of the leader schedule, on a generator. *)
Fixpoint rng_randomize_loop (fuel : nat) (rng : Rng) (max m : N) : outcome (N * Rng) :=
  match fuel with
  | O => OutOfFuel
  | S fuel =>
      let '(r, rng) := rng_draw rng in
      if bool_decide (r ≤ max) then Ret (r `mod` m, rng) else rng_randomize_loop fuel rng max m
  end.

(** [generate_random_validator_with_randomizer] with that randomizer. *)
Definition choose_weighted (validators : list (NodeId * Stake)) (rng : Rng) : outcome (NodeId * Rng) :=
  let '(bounds, total) := stake_bounds validators 0 in
  if bool_decide (bounds = []) then Panic else
  max ← randomize_max total;
  '(stake_index, rng) ← rng_randomize_loop rng_fuel rng max total;
  node ← pick_validator bounds stake_index;
  Ret (node, rng).

Definition pick_peer (self_node_id : NodeId) (current_epoch : Epoch) (val_epoch_map : ValidatorsEpochMapping)
    (override_peers secondary_raptorcast_peers : list NodeId) (rng : Rng) : outcome (option NodeId * Rng) :=
  if negb (bool_decide (override_peers = [])) then Ret (choose_peer override_peers rng) else
  val_set ← expect (get_val_set val_epoch_map current_epoch);
  let members := validators val_set in
  if bool_decide (members !! self_node_id = None) then Ret (choose_peer secondary_raptorcast_peers rng)
  else
    let members := filter (λ e, e.1 ≠ self_node_id) (btree_iter members) in
    _ ← rust_assert (negb (bool_decide (members = [])));
    '(node, rng) ← choose_weighted members rng;
    Ret (Some node, rng).

(** [pick_peer] with the arguments of every call, for a request. *)
Definition request_peer (w : BlockSyncWrapper) (s : BlockSync) (request : BlockSyncRequestMessage)
    : outcome (option NodeId * Rng * list BlockSyncCommand) :=
  '(maybe_to, rng) ← pick_peer (bw_nodeid w) (bw_current_epoch w) (bw_val_epoch_map w) (override_peers s)
                       (btree_keys (bw_secondary_raptorcast_peers w)) (bs_rng s);
  Ret (maybe_to, rng,
       match maybe_to with Some to => [BcSendRequest to request] | None => [] end ++ [BcScheduleTimeout request]).

(** *** Checks *)

(** Each header is the parent of the next one. *)
Fixpoint headers_linked (headers : list ConsensusBlockHeader) : bool :=
  match headers with
  | parent :: ((header :: _) as rest) => bool_decide (get_id parent = get_parent_id header) && headers_linked rest
  | _ => true
  end.

Definition verify_block_headers (block_range : BlockRange) (block_headers : list ConsensusBlockHeader) : outcome bool :=
  if bool_decide (N.of_nat (length block_headers) ≠ br_num_blocks block_range) then Ret false else
  last_header ← expect (last block_headers);
  if bool_decide (br_last_block_id block_range ≠ get_id last_header) then Ret false
  else Ret (headers_linked block_headers).

Definition get_cached_payload (w : BlockSyncWrapper) (s : BlockSync) (payload_id : N) : option ConsensusBlockBody :=
  let cached := match bw_block_cache w with
                | CacheBlockBuffer full_blocks => full_blocks !! payload_id
                | CacheBlockTree blocktree => get_payload (bt_tree blocktree) payload_id
                end in
  match cached with
  | Some payload => Some payload
  | None => head (omap (λ e : BlockRange * SelfCompletedHeader, ch_payload_cache e.2 !! payload_id)
                    (hash_iter (self_completed_headers_requests s)))
  end.

(** *** Payloads *)

Definition needs_payload (payload_id : N) (e : ConsensusBlockHeader * option ConsensusBlockBody) : bool :=
  bool_decide (bh_block_body_id e.1 = payload_id) && bool_decide (e.2 = None).

(** Stores a payload with every header that misses it. *)
Definition fill_header (payload_id : N) (payload : ConsensusBlockBody) (completed_header : SelfCompletedHeader)
    : SelfCompletedHeader :=
  {| completed_header with
       ch_blocks := (λ e, if needs_payload payload_id e then (e.1, Some payload) else e) <$> ch_blocks completed_header;
       ch_payload_cache :=
         if existsb (needs_payload payload_id) (ch_blocks completed_header)
         then <[payload_id := payload]> (ch_payload_cache completed_header) else ch_payload_cache completed_header |}.

Definition fill_payload (s : BlockSync) (payload_id : N) (payload : ConsensusBlockBody) : BlockSync :=
  {| s with self_completed_headers_requests := fill_header payload_id payload <$> self_completed_headers_requests s |}.

(** [self_payload_requests_in_flight -= 1]. *)
Definition decrement_in_flight (s : BlockSync) : BlockSync :=
  {| s with self_payload_requests_in_flight := (self_payload_requests_in_flight s + u64_MAX) `mod` (u64_MAX + 1) |}.

(** The loop over the requested payloads that are cached by now. *)
Definition serve_from_cache (w : BlockSyncWrapper) (st : BlockSync * list BlockSyncCommand) (payload_id : N)
    : outcome (BlockSync * list BlockSyncCommand) :=
  let '(s, cmds) := st in
  match get_cached_payload w s payload_id with
  | None => Ret (s, cmds)
  | Some payload =>
      maybe_request ← expect (self_payload_requests s !! payload_id);
      let s := {| s with self_payload_requests := delete payload_id (self_payload_requests s) |} in
      let '(s, cmds) :=
        match maybe_request with
        | Some request =>
            (decrement_in_flight s,
             cmds ++ (if bool_decide (is_Some (sr_to request)) then [BcResetTimeout (BsPayload payload_id)] else []))
        | None => (s, cmds)
        end in
      Ret (fill_payload s payload_id payload, cmds)
  end.

Fixpoint serve_all_from_cache (w : BlockSyncWrapper) (st : BlockSync * list BlockSyncCommand) (payload_ids : list N)
    : outcome (BlockSync * list BlockSyncCommand) :=
  match payload_ids with
  | [] => Ret st
  | payload_id :: payload_ids => st ← serve_from_cache w st payload_id; serve_all_from_cache w st payload_ids
  end.

(** The [while] loop that starts requests. *)
Fixpoint initiate_loop (fuel : nat) (s : BlockSync) (cmds : list BlockSyncCommand)
    : outcome (BlockSync * list BlockSyncCommand) :=
  match fuel with
  | O => OutOfFuel
  | S fuel =>
      if bool_decide (self_payload_requests_in_flight s < BLOCKSYNC_MAX_PAYLOAD_REQUESTS) then
        match List.find (λ e, bool_decide (e.2 = None)) (hash_iter (self_payload_requests s)) with
        | Some (payload_id, _) =>
            initiate_loop fuel
              {| s with
                   self_payload_requests :=
                     <[payload_id := Some (mkSelfRequest (self_request_mode s) None)]> (self_payload_requests s);
                   self_payload_requests_in_flight := wrapping_add64 (self_payload_requests_in_flight s) 1 |}
              (cmds ++ [BcFetchPayload payload_id])
        | None => Ret (s, cmds)
        end
      else Ret (s, cmds)
  end.

(** *** Completed ranges *)

Definition is_complete (e : BlockRange * SelfCompletedHeader) : bool :=
  forallb (λ b, bool_decide (is_Some b.2)) (ch_blocks e.2).

Fixpoint full_blocks_of (blocks : list (ConsensusBlockHeader * option ConsensusBlockBody))
    : outcome (list ConsensusFullBlock) :=
  match blocks with
  | [] => Ret []
  | (block, payload) :: blocks =>
      payload ← expect payload;
      full_block ← expect (full_block_new block payload);
      full_blocks ← full_blocks_of blocks;
      Ret (full_block :: full_blocks)
  end.

Fixpoint emit_ranges (s : BlockSync) (ranges : list BlockRange) : outcome (BlockSync * list BlockSyncCommand) :=
  match ranges with
  | [] => Ret (s, [])
  | completed_range :: ranges =>
      completed_header ← expect (self_completed_headers_requests s !! completed_range);
      let s := {| s with self_completed_headers_requests := delete completed_range (self_completed_headers_requests s) |} in
      full_blocks ← full_blocks_of (ch_blocks completed_header);
      '(s, cmds) ← emit_ranges s ranges;
      Ret (s, BcEmit (ch_requester completed_header) completed_range full_blocks :: cmds)
  end.

Definition handle_completed_ranges (s : BlockSync) : outcome (BlockSync * list BlockSyncCommand) :=
  emit_ranges s (filter is_complete (hash_iter (self_completed_headers_requests s))).*1.

Definition try_initiate_payload_requests_for_self (w : BlockSyncWrapper) (s : BlockSync)
    : outcome (BlockSync * list BlockSyncCommand) :=
  let payload_ids_to_request := (hash_iter (self_payload_requests s)).*1 in
  '(s, cmds) ← serve_all_from_cache w (s, []) payload_ids_to_request;
  '(s, cmds) ← initiate_loop (S (N.to_nat BLOCKSYNC_MAX_PAYLOAD_REQUESTS)) s cmds;
  '(s, completed) ← handle_completed_ranges s;
  Ret (s, cmds ++ completed).

(** *** Responses to the node *)

Definition add_payload_request (m : gmap N (option SelfRequest)) (header : ConsensusBlockHeader)
    : gmap N (option SelfRequest) :=
  match m !! bh_block_body_id header with None => <[bh_block_body_id header := None]> m | Some _ => m end.

(** The branch of [handle_headers_response_for_self] for headers that verify. *)
Definition complete_headers (s : BlockSync) (block_range : BlockRange) (block_headers : list ConsensusBlockHeader)
    : BlockSync :=
  {| s with
       self_headers_requests := delete block_range (self_headers_requests s);
       self_payload_requests := foldl add_payload_request (self_payload_requests s) block_headers;
       self_completed_headers_requests :=
         <[block_range := mkSelfCompletedHeader (self_request_mode s) ((λ block, (block, None)) <$> block_headers) ∅]>
           (self_completed_headers_requests s) |}.

(** [sender] is [None] for a response of the ledger. *)
Definition handle_headers_response_for_self (w : BlockSyncWrapper) (s : BlockSync) (sender : option NodeId)
    (headers_response : BlockSyncHeadersResponse) : outcome (BlockSync * list BlockSyncCommand) :=
  match self_headers_requests s !! get_block_range headers_response with
  | None => Ret (s, [])
  | Some self_request =>
      '(s, cmds) ←
        match headers_response with
        | HrFound block_range block_headers =>
            _ ← rust_assert (bool_decide (sr_requester self_request = self_request_mode s));
            verified ← verify_block_headers block_range block_headers;
            if verified : bool then
              Ret (complete_headers s block_range block_headers,
                   if bool_decide (is_Some sender) then [BcResetTimeout (BsHeaders block_range)] else [])
            else
              _ ← rust_assert (bool_decide (is_Some sender));
              Ret (s, [])
        | HrNotAvailable block_range =>
            if bool_decide (is_Some sender) then Ret (s, [])
            else if bool_decide (sr_to self_request = None) then
              '(maybe_to, rng, cmds) ← request_peer w s (BsHeaders block_range);
              Ret ({| s with
                        self_headers_requests :=
                          <[block_range := mkSelfRequest (sr_requester self_request) maybe_to]> (self_headers_requests s);
                        bs_rng := rng |}, cmds)
            else Ret (s, [])
        end;
      '(s, more) ← try_initiate_payload_requests_for_self w s;
      Ret (s, cmds ++ more)
  end.

Definition handle_payload_response_for_self (w : BlockSyncWrapper) (s : BlockSync) (sender : option NodeId)
    (payload_response : BlockSyncBodyResponse) : outcome (BlockSync * list BlockSyncCommand) :=
  let payload_id := get_payload_id payload_response in
  match self_payload_requests s !! payload_id with
  | None => Ret (s, [])
  | Some None => Ret (s, [])
  | Some (Some self_request) =>
      '(s, cmds) ←
        match payload_response with
        | BrFound payload =>
            _ ← rust_assert (bool_decide (sr_requester self_request = self_request_mode s));
            let s := decrement_in_flight s in
            let cmds := if bool_decide (is_Some sender) then [BcResetTimeout (BsPayload payload_id)] else [] in
            let s := {| s with self_payload_requests := delete payload_id (self_payload_requests s) |} in
            Ret (fill_payload s payload_id payload, cmds)
        | BrNotAvailable payload_id =>
            if bool_decide (is_Some sender) then Ret (s, [])
            else if bool_decide (sr_to self_request = None) then
              '(maybe_to, rng, cmds) ← request_peer w s (BsPayload payload_id);
              Ret ({| s with
                        self_payload_requests :=
                          <[payload_id := Some (mkSelfRequest (sr_requester self_request) maybe_to)]> (self_payload_requests s);
                        bs_rng := rng |}, cmds)
            else Ret (s, [])
        end;
      '(s, completed) ← handle_completed_ranges s;
      '(s, more) ← try_initiate_payload_requests_for_self w s;
      Ret (s, cmds ++ completed ++ more)
  end.

(** *** Requests of peers *)

Definition handle_peer_request (w : BlockSyncWrapper) (s : BlockSync) (sender : NodeId)
    (request : BlockSyncRequestMessage) : outcome (BlockSync * list BlockSyncCommand) :=
  match request with
  | BsHeaders block_range =>
      if bool_decide (br_num_blocks block_range = 0) then Ret (s, []) else
      cached_blocks ←
        match bw_block_cache w with
        | CacheBlockTree blocktree =>
            chain ← get_parent_block_chain blocktree (br_last_block_id block_range);
            Ret (reverse (take (N.to_nat (br_num_blocks block_range)) (reverse (fb_header <$> chain))))
        | CacheBlockBuffer _ => Ret []
        end;
      if bool_decide (N.of_nat (length cached_blocks) = br_num_blocks block_range) then
        _ ← rust_assert (bool_decide (Some (br_last_block_id block_range) = get_id <$> last cached_blocks));
        Ret (s, [BcSendResponse sender (HeadersResponse (HrFound block_range cached_blocks))])
      else
        let last_block_id_to_fetch := default (br_last_block_id block_range) (get_parent_id <$> head cached_blocks) in
        num_blocks ← seq_sub (br_num_blocks block_range) (N.of_nat (length cached_blocks));
        let ledger_fetch_range := mkBlockRange last_block_id_to_fetch num_blocks in
        let entry := default ∅ (headers_requests s !! ledger_fetch_range) in
        Ret ({| s with headers_requests :=
                  <[ledger_fetch_range := <[sender := cached_blocks]> entry]> (headers_requests s) |},
             [BcFetchHeaders ledger_fetch_range])
  | BsPayload payload_id =>
      match get_cached_payload w s payload_id with
      | Some cached_payload => Ret (s, [BcSendResponse sender (PayloadResponse (BrFound cached_payload))])
      | None =>
          let entry := default ∅ (payload_requests s !! payload_id) in
          Ret ({| s with payload_requests := <[payload_id := <[sender := tt]> entry]> (payload_requests s) |},
               [BcFetchPayload payload_id])
      end
  end.

(** The answer of the ledger for one peer: the headers it had, extended by
    those that were cached. *)
Definition reply_headers (headers_response : BlockSyncHeadersResponse) (e : NodeId * list ConsensusBlockHeader)
    : outcome BlockSyncCommand :=
  let '(requester, cached_blocks) := e in
  let block_range := get_block_range headers_response in
  num_blocks ← seq_add (br_num_blocks block_range) (N.of_nat (length cached_blocks));
  let requested_block_range :=
    mkBlockRange (default (br_last_block_id block_range) (get_id <$> last cached_blocks)) num_blocks in
  match headers_response with
  | HrFound _ requested_blocks =>
      let requested_blocks := requested_blocks ++ cached_blocks in
      _ ← rust_assert (headers_linked requested_blocks);
      Ret (BcSendResponse requester (HeadersResponse (HrFound requested_block_range requested_blocks)))
  | HrNotAvailable _ => Ret (BcSendResponse requester (HeadersResponse (HrNotAvailable requested_block_range)))
  end.

Fixpoint reply_all_headers (headers_response : BlockSyncHeadersResponse)
    (requesters : list (NodeId * list ConsensusBlockHeader)) : outcome (list BlockSyncCommand) :=
  match requesters with
  | [] => Ret []
  | e :: requesters =>
      cmd ← reply_headers headers_response e;
      cmds ← reply_all_headers headers_response requesters;
      Ret (cmd :: cmds)
  end.

Definition handle_ledger_response (w : BlockSyncWrapper) (s : BlockSync) (response : BlockSyncResponseMessage)
    : outcome (BlockSync * list BlockSyncCommand) :=
  match response with
  | HeadersResponse headers_response =>
      let block_range := get_block_range headers_response in
      let requesters := default ∅ (headers_requests s !! block_range) in
      let s := {| s with headers_requests := delete block_range (headers_requests s) |} in
      replies ← reply_all_headers headers_response (btree_iter requesters);
      '(s, cmds) ← handle_headers_response_for_self w s None headers_response;
      Ret (s, replies ++ cmds)
  | PayloadResponse payload_response =>
      let payload_id := get_payload_id payload_response in
      let requesters := default ∅ (payload_requests s !! payload_id) in
      let s := {| s with payload_requests := delete payload_id (payload_requests s) |} in
      let replies := (λ requester, BcSendResponse requester (PayloadResponse payload_response)) <$> btree_keys requesters in
      '(s, cmds) ← handle_payload_response_for_self w s None payload_response;
      Ret (s, replies ++ cmds)
  end.

Definition handle_peer_response (w : BlockSyncWrapper) (s : BlockSync) (sender : NodeId)
    (response : BlockSyncResponseMessage) : outcome (BlockSync * list BlockSyncCommand) :=
  match response with
  | HeadersResponse headers_response => handle_headers_response_for_self w s (Some sender) headers_response
  | PayloadResponse payload_response => handle_payload_response_for_self w s (Some sender) payload_response
  end.

Definition handle_timeout (w : BlockSyncWrapper) (s : BlockSync) (request : BlockSyncRequestMessage)
    : outcome (BlockSync * list BlockSyncCommand) :=
  match request with
  | BsHeaders block_range =>
      match self_headers_requests s !! block_range with
      | None => Ret (s, [])
      | Some self_request =>
          '(maybe_to, rng, cmds) ← request_peer w s request;
          Ret ({| s with
                    self_headers_requests :=
                      <[block_range := mkSelfRequest (sr_requester self_request) maybe_to]> (self_headers_requests s);
                    bs_rng := rng |}, cmds)
      end
  | BsPayload payload_id =>
      match self_payload_requests s !! payload_id with
      | Some (Some self_request) =>
          '(maybe_to, rng, cmds) ← request_peer w s request;
          Ret ({| s with
                    self_payload_requests :=
                      <[payload_id := Some (mkSelfRequest (sr_requester self_request) maybe_to)]> (self_payload_requests s);
                    bs_rng := rng |}, cmds)
      | _ => Ret (s, [])
      end
  end.

(** *** Events, in the order they come *)

Inductive BlockSyncEvent :=
| BeSelfRequest (requester : BlockSyncSelfRequester) (block_range : BlockRange)
| BeSelfCancelRequest (requester : BlockSyncSelfRequester) (block_range : BlockRange)
| BePeerRequest (sender : NodeId) (request : BlockSyncRequestMessage)
| BeLedgerResponse (response : BlockSyncResponseMessage)
| BePeerResponse (sender : NodeId) (response : BlockSyncResponseMessage)
| BeTimeout (request : BlockSyncRequestMessage).

Definition block_sync_step (w : BlockSyncWrapper) (s : BlockSync) (e : BlockSyncEvent)
    : outcome (BlockSync * list BlockSyncCommand) :=
  match e with
  | BeSelfRequest requester block_range => Ret (handle_self_request s requester block_range)
  | BeSelfCancelRequest requester block_range => Ret (handle_self_cancel_request s requester block_range, [])
  | BePeerRequest sender request => handle_peer_request w s sender request
  | BeLedgerResponse response => handle_ledger_response w s response
  | BePeerResponse sender response => handle_peer_response w s sender response
  | BeTimeout request => handle_timeout w s request
  end.

(** Each event meets the node's other state ([w]) as it is then. *)
Fixpoint block_sync_run (s : BlockSync) (events : list (BlockSyncWrapper * BlockSyncEvent))
    : outcome (BlockSync * list BlockSyncCommand) :=
  match events with
  | [] => Ret (s, [])
  | (w, e) :: events =>
      '(s, cmds) ← block_sync_step w s e;
      '(s, more) ← block_sync_run s events;
      Ret (s, cmds ++ more)
  end.
End block_sync.
