(* ===== verification/BlockSyncProps.v ===== *)
(** * What block sync promises

    An invariant of the requests ([bs_inv]) that every handler keeps, whatever
    peers send: requests belong to the current requester, completed headers
    are a chain that ends in the requested block, and every payload that is
    missing is requested. From it: block sync does not panic, emits only
    ranges that were asked for, with the blocks of that range, and loses no
    request. *)
From S2P Require Import Prelude Types Interfaces MultiSig Certificates Concrete ValidatorSet Epochs Leader BlockTree BlockTreeProps BlockSync.
#[local] Open Scope N_scope.

Section ranges.
Context `{P : Params} {CD : Codec}.
Implicit Types (range : BlockRange) (headers hs : list ConsensusBlockHeader) (blocks : list ConsensusFullBlock).

(** The headers of a range: as many as asked for, a chain, the last one with
    the id asked for. *)
Record headers_for range headers : Prop := {
  hf_length : N.of_nat (length headers) = br_num_blocks range;
  hf_last : get_id <$> last headers = Some (br_last_block_id range);
  hf_linked : headers_linked headers = true;
}.

Definition blocks_for range blocks : Prop :=
  headers_for range (fb_header <$> blocks) ∧
  Forall (λ b, body_get_id (fb_body b) = bh_block_body_id (fb_header b)) blocks.

Lemma verify_block_headers_spec range headers : br_num_blocks range ≠ 0 →
  ∃ b, verify_block_headers range headers = Ret b ∧ (b = true ↔ headers_for range headers).
Proof.
  intros Hn. unfold verify_block_headers. case_bool_decide as Hl.
  { exists false. split; [done|]. split; [done|]. by intros []. }
  destruct (last headers) as [h|] eqn:Hlast.
  2:{ apply last_None in Hlast as ->. simpl in Hl. lia. }
  simpl. case_bool_decide as Hid.
  - exists false. split; [done|]. split; [done|]. intros [_ Hf _]. rewrite Hlast in Hf. simpl in Hf. congruence.
  - eexists. split; [done|]. split; [|by intros []]. intros Hlk. split; [lia|rewrite Hlast; simpl; congruence|done].
Qed.

Lemma headers_for_nonempty range headers : headers_for range headers → br_num_blocks range ≠ 0.
Proof. intros [Hl Hlast _]. destruct headers; [done|]. simpl in Hl. lia. Qed.

Lemma headers_for_verify range headers : headers_for range headers → verify_block_headers range headers = Ret true.
Proof.
  intros H. destruct (verify_block_headers_spec range headers) as (b & -> & Hb); [by eapply headers_for_nonempty|].
  f_equal. by apply Hb.
Qed.

Lemma headers_linked_cons h h' hs :
  headers_linked (h :: h' :: hs) = bool_decide (get_id h = get_parent_id h') && headers_linked (h' :: hs).
Proof. done. Qed.

(** The suffix of a chain is a chain, and chains can be joined. *)
Lemma headers_linked_app hs1 hs2 :
  headers_linked (hs1 ++ hs2) = headers_linked hs1 && headers_linked hs2 &&
    match last hs1, head hs2 with Some a, Some b => bool_decide (get_id a = get_parent_id b) | _, _ => true end.
Proof.
  induction hs1 as [|h [|h' hs1] IH]; [simpl; by rewrite andb_true_r|..].
  - destruct hs2; simpl; [done|]. by rewrite andb_comm.
  - change ((h :: h' :: hs1) ++ hs2) with (h :: h' :: (hs1 ++ hs2)). rewrite !headers_linked_cons.
    change (h' :: hs1 ++ hs2) with ((h' :: hs1) ++ hs2). rewrite IH, last_cons_cons, !andb_assoc. done.
Qed.

Lemma headers_linked_drop n hs : headers_linked hs = true → headers_linked (drop n hs) = true.
Proof.
  rewrite <- (take_drop n hs) at 1. rewrite headers_linked_app, !andb_true_iff. tauto.
Qed.
End ranges.

(** ** Choosing a peer *)

Class SyncRngLaws (SR : SyncRng) : Prop := {
  rng_choose_lt : ∀ n rng, (0 < n)%nat → (fst (rng_choose n rng) < n)%nat;
  (** of the draws that the fuel allows one is in the lower half *)
  rng_draw_low : ∀ rng, ∃ k, (k < rng_fuel)%nat ∧ 2 * (rng_draw (Nat.iter k (λ r, snd (rng_draw r)) rng)).1 ≤ U256_MAX;
}.

Section peers.
Context `{P : Params} {CD : Codec} {SR : SyncRng} {SL : SyncRngLaws SR}.
Implicit Types (l : list NodeId) (rng : Rng).

Lemma choose_peer_elem l rng node : (choose_peer l rng).1 = Some node → node ∈ l.
Proof.
  unfold choose_peer. case_bool_decide; [done|]. destruct (rng_choose _ _) as [i r]. simpl. apply list_elem_of_lookup_2.
Qed.

Lemma choose_peer_some l rng : l ≠ [] → is_Some (choose_peer l rng).1.
Proof.
  intros Hl. unfold choose_peer. rewrite bool_decide_eq_false_2 by done.
  pose proof (rng_choose_lt (length l) rng) as Hlt. destruct (rng_choose (length l) rng) as [i r]. simpl in *.
  apply lookup_lt_is_Some_2, Hlt. destruct l; [done|]. simpl. lia.
Qed.

Lemma rng_randomize_loop_ret fuel rng max m k : (k < fuel)%nat → m ≠ 0 →
  (rng_draw (Nat.iter k (λ r, snd (rng_draw r)) rng)).1 ≤ max →
  ∃ idx rng', rng_randomize_loop fuel rng max m = Ret (idx, rng') ∧ idx < m.
Proof.
  revert rng k. induction fuel as [|fuel IH]; intros rng k Hk Hm Hd; [lia|]. simpl.
  destruct (rng_draw rng) as [r rng1] eqn:Hr. case_bool_decide as Hle.
  - eexists _, _. split; [done|]. by apply N.mod_lt.
  - destruct k as [|k]; [simpl in Hd; rewrite Hr in Hd; simpl in Hd; lia|].
    apply (IH rng1 k); [lia|done|]. rewrite Nat.iter_succ_r, Hr in Hd. done.
Qed.

Lemma choose_weighted_elem members rng : Forall (λ p : NodeId * Stake, 0 < p.2) members → members ≠ [] →
  sumN members.*2 ≤ U256_MAX → ∃ node rng', choose_weighted members rng = Ret (node, rng') ∧ node ∈ members.*1.
Proof.
  intros Hpos Hne Hsum. unfold choose_weighted.
  pose proof (stake_bounds_spec members 0 Hpos ltac:(lia)) as (Ht & _ & Hn).
  assert (0 < sumN members.*2) as Htot.
  { destruct members as [|[n s] members]; [done|]. apply Forall_cons in Hpos as [Hs _]. simpl in Hs.
    rewrite fmap_cons, sumN_cons. simpl. lia. }
  destruct (randomize_max_spec (sumN members.*2) Htot Hsum) as (max & Hmax & _ & Hhalf & _).
  destruct (rng_draw_low rng) as (k & Hk & Hd).
  destruct (rng_randomize_loop_ret rng_fuel rng max (sumN members.*2) k) as (idx & rng' & Hloop & Hidx); [done|lia|lia|].
  destruct (interval_exists _ _ Hidx) as (l1 & n & s & l2 & -> & Hlo & Hhi).
  pose proof (pick_validator_interval l1 n s l2 idx Hpos Hsum Hlo Hhi) as Hp.
  destruct (stake_bounds _ 0) as [bounds total]. simpl in *. rewrite N.add_0_l in Ht. subst total.
  rewrite bool_decide_eq_false_2.
  2:{ intros ->. rewrite fmap_app in Hn. by destruct l1. }
  rewrite Hmax. cbn [mbind outcome_bind]. rewrite Hloop. cbn [mbind outcome_bind]. rewrite Hp. cbn [mbind outcome_bind].
  exists n, rng'. split; [done|]. rewrite fmap_app. set_solver.
Qed.

(** A full node that has no peers to ask asks nobody; it does not fall back to
    the validators. *)
Lemma full_node_without_peers w rng vs : get_val_set (bw_val_epoch_map w) (bw_current_epoch w) = Some vs →
  validators vs !! bw_nodeid w = None → bw_secondary_raptorcast_peers w = ∅ →
  pick_peer (bw_nodeid w) (bw_current_epoch w) (bw_val_epoch_map w) []
    (btree_keys (bw_secondary_raptorcast_peers w)) rng = Ret (None, rng).
Proof. intros Hvs Hself ->. unfold pick_peer. simpl. rewrite Hvs. simpl. by rewrite bool_decide_eq_true_2. Qed.

(** There is a validator set for the epoch, with a member other than the
    node; the override peers are none of them the node itself. *)
Definition peers_ok (w : BlockSyncWrapper) : Prop :=
  ∃ vs, get_val_set (bw_val_epoch_map w) (bw_current_epoch w) = Some vs ∧ vs_wf vs ∧
    ∃ n, n ≠ bw_nodeid w ∧ is_Some (validators vs !! n).

Lemma pick_peer_ret w overrides rng : peers_ok w → bw_nodeid w ∉ overrides →
  ∃ maybe_to rng', pick_peer (bw_nodeid w) (bw_current_epoch w) (bw_val_epoch_map w) overrides
      (btree_keys (bw_secondary_raptorcast_peers w)) rng = Ret (maybe_to, rng') ∧
    (bw_secondary_raptorcast_peers w !! bw_nodeid w = None → maybe_to ≠ Some (bw_nodeid w)).
Proof.
  intros (vs & Hvs & Hwf & n & Hne & [st Hn]) Hov. unfold pick_peer. case_bool_decide as Ho; simpl.
  2:{ destruct (choose_peer overrides rng) as [o r] eqn:Hc. exists o, r. split; [done|]. intros _ ->. apply Hov.
      apply (choose_peer_elem _ rng). by rewrite Hc. }
  rewrite Hvs. cbn [expect mbind outcome_bind]. case_bool_decide as Hself.
  { destruct (choose_peer _ rng) as [o r] eqn:Hc. exists o, r. split; [done|]. intros Hsec ->.
    assert (bw_nodeid w ∈ btree_keys (bw_secondary_raptorcast_peers w)) as [x Hx]%elem_of_btree_keys; [|congruence].
    apply (choose_peer_elem _ rng). by rewrite Hc. }
  destruct (vs_wf_btree vs Hwf) as (Hpos & Hsum & _).
  set (members := filter (λ e : NodeId * Stake, e.1 ≠ bw_nodeid w) (btree_iter (validators vs))).
  assert (members ≠ []) as Hm.
  { assert ((n, st) ∈ members) as Hin by (apply list_elem_of_filter; split; [done|by apply elem_of_btree_iter]).
    intros Hnil. rewrite Hnil in Hin. by apply elem_of_nil in Hin. }
  rewrite bool_decide_eq_false_2 by done. cbn [negb rust_assert mbind outcome_bind].
  destruct (choose_weighted_elem members rng) as (node & rng' & -> & Hin).
  - apply Forall_forall. intros e [_ He]%list_elem_of_filter. rewrite Forall_forall in Hpos. by apply Hpos.
  - done.
  - etransitivity; [|apply (vs_wf_max vs Hwf)]. rewrite <- Hsum. apply sumN_sublist, fmap_sublist, sublist_filter.
  - exists (Some node), rng'. split; [done|]. intros _ [= ->].
    apply list_elem_of_fmap in Hin as (e & Heq & [He _]%list_elem_of_filter). congruence.
Qed.
End peers.

(** ** The invariant *)

Section invariant.
Context `{P : Params} {CD : Codec} {SR : SyncRng} {HH : HashOrder BlockRange SelfCompletedHeader}
        {HP : HashOrder N (option SelfRequest)}.
Implicit Types (s : BlockSync) (range : BlockRange) (ch : SelfCompletedHeader) (cmds : list BlockSyncCommand).

(** The requests that are under way. *)
Definition initiated (m : gmap N (option SelfRequest)) : gmap N (option SelfRequest) := filter (λ e, e.2 ≠ None) m.

Record completed_ok (mode : BlockSyncSelfRequester) range ch : Prop := {
  co_requester : ch_requester ch = mode;
  co_headers : headers_for range (ch_blocks ch).*1;
  co_bodies : Forall (λ e : ConsensusBlockHeader * option ConsensusBlockBody,
    ∀ body, e.2 = Some body → body_get_id body = bh_block_body_id e.1) (ch_blocks ch);
  co_cache : map_Forall (λ id body, body_get_id body = id) (ch_payload_cache ch);
}.

(** A request of a peer that waits for the ledger: [cached] continues the
    range asked of the ledger. *)
Record peer_ok range (cached : list ConsensusBlockHeader) : Prop := {
  pk_num : br_num_blocks range ≠ 0;
  pk_fits : br_num_blocks range + N.of_nat (length cached) ≤ u64_MAX;
  pk_linked : headers_linked cached = true;
  pk_parent : ∀ h, head cached = Some h → get_parent_id h = br_last_block_id range;
}.

Record bs_inv s : Prop := {
  bi_headers : map_Forall (λ range r, sr_requester r = self_request_mode s ∧ br_num_blocks range ≠ 0) (self_headers_requests s);
  bi_payloads : map_Forall (λ _ o, ∀ r, o = Some r → sr_requester r = self_request_mode s) (self_payload_requests s);
  bi_in_flight : self_payload_requests_in_flight s = N.of_nat (size (initiated (self_payload_requests s)));
  bi_limit : self_payload_requests_in_flight s ≤ BLOCKSYNC_MAX_PAYLOAD_REQUESTS;
  bi_completed : map_Forall (completed_ok (self_request_mode s)) (self_completed_headers_requests s);
  bi_missing : ∀ range ch h, self_completed_headers_requests s !! range = Some ch → (h, None) ∈ ch_blocks ch →
    is_Some (self_payload_requests s !! bh_block_body_id h);
  bi_disjoint : dom (self_headers_requests s) ## dom (self_completed_headers_requests s);
  bi_peers : map_Forall (λ range, map_Forall (λ _, peer_ok range)) (headers_requests s);
  bi_overrides : self_node_id s ∉ override_peers s;
}.

(** Between two events no completed range waits to be emitted, and no payload
    waits to be requested unless the limit is reached. *)
Record bs_quiet s : Prop := {
  bq_emitted : map_Forall (λ range ch, is_complete (range, ch) = false) (self_completed_headers_requests s);
  bq_initiated : self_payload_requests_in_flight s = BLOCKSYNC_MAX_PAYLOAD_REQUESTS ∨
    map_Forall (λ _ o, o ≠ None) (self_payload_requests s);
}.

(** What a command promises to whom it is for. *)
Definition cmd_ok (mode : BlockSyncSelfRequester) (c : BlockSyncCommand) : Prop :=
  match c with
  | BcEmit requester range blocks => requester = mode ∧ blocks_for range blocks
  | BcSendResponse _ (HeadersResponse (HrFound range headers)) => headers_for range headers
  | BcFetchHeaders range => br_num_blocks range ≠ 0
  | _ => True
  end.

(** The ranges the node waits for, and those a list of commands emits. *)
Definition outstanding s : gset BlockRange :=
  dom (self_headers_requests s) ∪ dom (self_completed_headers_requests s).
Definition emitted cmds : list BlockRange := omap (λ c, match c with BcEmit _ range _ => Some range | _ => None end) cmds.

(** The requests of peers that wait for the ledger, as the peers made them,
    and those that a list of commands answers. *)
Definition asked_range range (cached : list ConsensusBlockHeader) : BlockRange :=
  mkBlockRange (default (br_last_block_id range) (get_id <$> last cached))
    (br_num_blocks range + N.of_nat (length cached)).
Definition waiting s (node : NodeId) (request : BlockSyncRequestMessage) : Prop :=
  match request with
  | BsHeaders asked => ∃ range m cached, headers_requests s !! range = Some m ∧ m !! node = Some cached ∧
      asked = asked_range range cached
  | BsPayload id => ∃ m, payload_requests s !! id = Some m ∧ is_Some (m !! node)
  end.
Definition request_of (r : BlockSyncResponseMessage) : BlockSyncRequestMessage :=
  match r with
  | HeadersResponse r => BsHeaders (get_block_range r)
  | PayloadResponse r => BsPayload (get_payload_id r)
  end.
Definition answered cmds : list (NodeId * BlockSyncRequestMessage) :=
  omap (λ c, match c with BcSendResponse to r => Some (to, request_of r) | _ => None end) cmds.
Definition silent cmds : Prop := emitted cmds = [] ∧ answered cmds = [].

(** What a step of block sync other than a request or cancellation does: it
    keeps the requester, what was waited for is still waited for or emitted
    and nothing else is, and only requests that wait are answered. *)
Record keeps s s' cmds : Prop := {
  kp_mode : self_request_mode s' = self_request_mode s;
  kp_node : self_node_id s' = self_node_id s;
  kp_headers : dom (self_headers_requests s') ⊆ dom (self_headers_requests s);
  kp_ranges : outstanding s = outstanding s' ∪ list_to_set (emitted cmds);
  kp_cmds : Forall (cmd_ok (self_request_mode s)) cmds;
  kp_waiting : ∀ node request, waiting s' node request → waiting s node request;
  kp_answered : ∀ node request, (node, request) ∈ answered cmds → waiting s node request;
}.

Lemma keeps_refl s : keeps s s [].
Proof. split; [done..|simpl; set_solver|constructor|done|simpl; set_solver]. Qed.

Lemma emitted_app c1 c2 : emitted (c1 ++ c2) = emitted c1 ++ emitted c2.
Proof. apply omap_app. Qed.

Lemma answered_app c1 c2 : answered (c1 ++ c2) = answered c1 ++ answered c2.
Proof. apply omap_app. Qed.

Lemma keeps_trans s1 s2 s3 c1 c2 : keeps s1 s2 c1 → keeps s2 s3 c2 → keeps s1 s3 (c1 ++ c2).
Proof.
  intros [H1 H2 Hh H3 H4 H5 H6] [H1' H2' Hh' H3' H4' H5' H6']. split; [congruence..|set_solver| | |auto|].
  - rewrite H3, H3', emitted_app, list_to_set_app_L. set_solver.
  - apply Forall_app. split; [done|]. by rewrite <- H1.
  - intros node request. rewrite answered_app, elem_of_app. intros [H|H]; [by apply H6|by apply H5, H6'].
Qed.

(** A step that changes neither the ranges nor the requester. *)
Lemma keeps_same s s' cmds : self_request_mode s' = self_request_mode s → self_node_id s' = self_node_id s →
  dom (self_headers_requests s') = dom (self_headers_requests s) →
  dom (self_completed_headers_requests s') = dom (self_completed_headers_requests s) →
  headers_requests s' = headers_requests s → payload_requests s' = payload_requests s →
  silent cmds → Forall (cmd_ok (self_request_mode s)) cmds → keeps s s' cmds.
Proof.
  intros H1 H2 H3 H3' Hh Hp [H4 Ha] H5. split; [done..|by rewrite H3| |done| |].
  - unfold outstanding. rewrite H3, H3', H4. simpl. set_solver.
  - intros node [range|id]; simpl; by rewrite ?Hh, ?Hp.
  - rewrite Ha. set_solver.
Qed.

(** ** Requests under way *)

Lemma initiated_insert_new (m : gmap N (option SelfRequest)) id r : m !! id = Some None →
  size (initiated (<[id := Some r]> m)) = S (size (initiated m)).
Proof.
  intros Hm. unfold initiated. rewrite map_filter_insert_True by done. rewrite map_size_insert_None; [done|].
  apply map_lookup_filter_None. right. intros o. rewrite Hm. by intros [= <-] [].
Qed.

Lemma initiated_insert_old (m : gmap N (option SelfRequest)) id r r' : m !! id = Some (Some r) →
  size (initiated (<[id := Some r']> m)) = size (initiated m).
Proof.
  intros Hm. unfold initiated. rewrite map_filter_insert_True by done. rewrite map_size_insert_Some; [done|].
  exists (Some r). by apply map_lookup_filter_Some.
Qed.

Lemma initiated_delete (m : gmap N (option SelfRequest)) id o : m !! id = Some o →
  size (initiated m) = (size (initiated (delete id m)) + if bool_decide (is_Some o) then 1 else 0)%nat.
Proof.
  intros Hm. unfold initiated. rewrite map_filter_delete. destruct o as [r|].
  - rewrite bool_decide_eq_true_2 by by eexists.
    rewrite map_size_delete_Some by (exists (Some r); by apply map_lookup_filter_Some).
    assert (size (filter (λ e : N * option SelfRequest, e.2 ≠ None) m) ≠ 0%nat); [|lia].
    intros H0%map_size_empty_iff. assert (filter (λ e : N * option SelfRequest, e.2 ≠ None) m !! id = Some (Some r)) as Hf
      by (by apply map_lookup_filter_Some). by rewrite H0, lookup_empty in Hf.
  - rewrite bool_decide_eq_false_2 by apply is_Some_None. rewrite delete_id; [lia|].
    apply map_lookup_filter_None. right. intros o. rewrite Hm. by intros [= <-] [].
Qed.

Lemma initiated_all (m : gmap N (option SelfRequest)) : map_Forall (λ _ o, o ≠ None) m → initiated m = m.
Proof. intros H. apply map_filter_id. intros id o Ho. by apply (H id). Qed.

(** ** Filling in a payload *)

Lemma fill_header_fst id body ch : (ch_blocks (fill_header id body ch)).*1 = (ch_blocks ch).*1.
Proof. simpl. rewrite <- list_fmap_compose. apply list_fmap_ext. intros _ e _. simpl. by destruct (needs_payload id e). Qed.

Lemma needs_payload_true id (e : ConsensusBlockHeader * option ConsensusBlockBody) :
  needs_payload id e = true ↔ bh_block_body_id e.1 = id ∧ e.2 = None.
Proof. unfold needs_payload. by rewrite andb_true_iff, !bool_decide_eq_true. Qed.

Lemma fill_header_missing id body ch h : (h, None) ∈ ch_blocks (fill_header id body ch) →
  (h, None) ∈ ch_blocks ch ∧ bh_block_body_id h ≠ id.
Proof.
  intros (e & Heq & He)%list_elem_of_fmap. destruct (needs_payload id e) eqn:Hn; [done|]. subst e.
  split; [done|]. intros Hid. enough (needs_payload id (h, @None ConsensusBlockBody) = true) by congruence.
  by apply needs_payload_true.
Qed.

Lemma fill_header_ok mode range id body ch : body_get_id body = id → completed_ok mode range ch →
  completed_ok mode range (fill_header id body ch).
Proof.
  intros Hid [Hr Hh Hb Hc]. split; [done|by rewrite fill_header_fst|..].
  - apply Forall_fmap, Forall_forall. intros e He. simpl. rewrite Forall_forall in Hb.
    destruct (needs_payload id e) eqn:Hn; [|by apply Hb]. apply needs_payload_true in Hn as [Hn _].
    intros b [= <-]. simpl. congruence.
  - simpl. destruct (existsb _ _); [|done]. by apply map_Forall_insert_2.
Qed.

(** A payload has come for a request: the request is over. *)
Definition resolve s (id : N) (o : option SelfRequest) (body : ConsensusBlockBody) : BlockSync :=
  let s1 := {| s with self_payload_requests := delete id (self_payload_requests s) |} in
  fill_payload (match o with Some _ => decrement_in_flight s1 | None => s1 end) id body.

Lemma resolve_fields s id o body :
  self_request_mode (resolve s id o body) = self_request_mode s ∧ self_node_id (resolve s id o body) = self_node_id s ∧
  self_headers_requests (resolve s id o body) = self_headers_requests s ∧
  headers_requests (resolve s id o body) = headers_requests s ∧ override_peers (resolve s id o body) = override_peers s ∧
  self_payload_requests (resolve s id o body) = delete id (self_payload_requests s) ∧
  self_completed_headers_requests (resolve s id o body) = fill_header id body <$> self_completed_headers_requests s ∧
  payload_requests (resolve s id o body) = payload_requests s.
Proof. by destruct o. Qed.

Lemma resolve_in_flight s id o body : bs_inv s → self_payload_requests s !! id = Some o →
  self_payload_requests_in_flight s =
    self_payload_requests_in_flight (resolve s id o body) + if bool_decide (is_Some o) then 1 else 0.
Proof.
  intros Hinv Hid. pose proof (initiated_delete _ _ _ Hid) as Hsz. pose proof (bi_in_flight s Hinv) as Hf.
  pose proof (bi_limit s Hinv) as Hlim. unfold BLOCKSYNC_MAX_PAYLOAD_REQUESTS in Hlim. destruct o as [r|].
  - rewrite bool_decide_eq_true_2 in * by by eexists. simpl.
    set (n := self_payload_requests_in_flight s) in *. replace (n + u64_MAX) with (n - 1 + 1 * (u64_MAX + 1)) by lia.
    rewrite N.Div0.mod_add, N.mod_small by (unfold u64_MAX; lia). lia.
  - rewrite bool_decide_eq_false_2 by apply is_Some_None. simpl. lia.
Qed.

Lemma resolve_inv s id o body : bs_inv s → self_payload_requests s !! id = Some o → body_get_id body = id →
  bs_inv (resolve s id o body).
Proof.
  intros Hinv Hid Hbody. pose proof (resolve_in_flight s id o body Hinv Hid) as Hfl.
  pose proof (initiated_delete _ _ _ Hid) as Hsz.
  destruct (resolve_fields s id o body) as (E1 & E2 & E3 & E4 & E5 & E6 & E7 & _).
  destruct Hinv as [H1 H2 H3 H4 H5 H6 Hd H7 H8]. split; rewrite ?E1, ?E2, ?E3, ?E4, ?E5, ?E6, ?E7; try done.
  - intros x r [_ Hx]%lookup_delete_Some. by apply (H2 x).
  - rewrite H3 in Hfl. destruct (bool_decide (is_Some o)); lia.
  - destruct (bool_decide (is_Some o)); lia.
  - intros range ch (ch0 & <- & Hch)%lookup_fmap_Some. apply fill_header_ok; [done|]. by apply H5.
  - intros range ch h (ch0 & <- & Hch)%lookup_fmap_Some [Hin Hne]%fill_header_missing.
    rewrite lookup_delete_ne by done. by eapply H6.
  - by rewrite dom_fmap_L.
Qed.

Lemma resolve_keeps s id o body cmds : silent cmds → Forall (cmd_ok (self_request_mode s)) cmds →
  keeps s (resolve s id o body) cmds.
Proof.
  intros He Hc. destruct (resolve_fields s id o body) as (E1 & E2 & E3 & E4 & _ & _ & E7 & E8). apply keeps_same; try done.
  - by rewrite E3.
  - by rewrite E7, dom_fmap_L.
Qed.
End invariant.
