(* ===== verification/BlockSyncSteps.v ===== *)
(** * The handlers of block sync keep its invariant

    For each part of a handler: it returns, keeps the invariant of
    BlockSyncProps.v, and what the node waits for is still waited for or
    emitted. *)
From S2P Require Import Prelude Types Interfaces MultiSig Certificates Concrete ValidatorSet Epochs Leader BlockTree BlockTreeProps BlockSync BlockSyncProps.
#[local] Open Scope N_scope.

Section steps.
Context `{P : Params} {CD : Codec} {SR : SyncRng} {SL : SyncRngLaws SR} {HH : HashOrder BlockRange SelfCompletedHeader}
        {HP : HashOrder N (option SelfRequest)}.
Implicit Types (s : BlockSync) (range : BlockRange) (ch : SelfCompletedHeader) (cmds : list BlockSyncCommand)
  (w : BlockSyncWrapper).

(** A computation that returns, keeps the invariant, and [Q]. *)
Definition step_ok s (m : outcome (BlockSync * list BlockSyncCommand)) (Q : BlockSync → Prop) : Prop :=
  ∃ s' cmds, m = Ret (s', cmds) ∧ bs_inv s' ∧ keeps s s' cmds ∧ Q s'.

Lemma step_ok_bind s m (k : BlockSync → list BlockSyncCommand → outcome (BlockSync * list BlockSyncCommand)) Q R :
  step_ok s m Q →
  (∀ s1 cmds, bs_inv s1 → keeps s s1 cmds → Q s1 →
     ∃ s' more, k s1 cmds = Ret (s', cmds ++ more) ∧ bs_inv s' ∧ keeps s1 s' more ∧ R s') →
  step_ok s ('(s1, cmds) ← m; k s1 cmds) R.
Proof.
  intros (s1 & cmds & -> & Hi & Hk & HQ) H. destruct (H s1 cmds Hi Hk HQ) as (s' & more & Hr & Hi' & Hk' & HR).
  exists s', (cmds ++ more). split; [exact Hr|]. split_and!; [done|by eapply keeps_trans|done].
Qed.

(** ** The cache *)

(** Cached payloads have the id they are filed under, and the chain of a
    block ends in it. *)
Definition cache_ok (c : BlockCache) : Prop :=
  match c with
  | CacheBlockBuffer m => map_Forall (λ id body, body_get_id body = id) m
  | CacheBlockTree bt =>
      (∀ id body, get_payload (bt_tree bt) id = Some body → body_get_id body = id) ∧
      ∀ id, ∃ chain, get_parent_block_chain bt id = Ret chain ∧ headers_linked (fb_header <$> chain) = true ∧
        ∀ b, last chain = Some b → fb_get_id b = id
  end.

Lemma get_cached_payload_id w s id body : cache_ok (bw_block_cache w) → bs_inv s →
  get_cached_payload w s id = Some body → body_get_id body = id.
Proof.
  intros Hc Hinv. unfold get_cached_payload.
  assert (∀ o : option ConsensusBlockBody, (∀ b, o = Some b → body_get_id b = id) →
    match o with Some payload => Some payload | None => head (omap (λ e : BlockRange * SelfCompletedHeader,
      ch_payload_cache e.2 !! id) (hash_iter (self_completed_headers_requests s))) end = Some body → body_get_id body = id) as H.
  { intros [b|] Hb; [intros [= <-]; by apply Hb|]. intros Hh. apply head_Some_elem_of in Hh.
    apply list_elem_of_omap in Hh as ([range ch] & Hin & Hl). rewrite hash_iter_perm in Hin. apply elem_of_map_to_list in Hin.
    by apply (co_cache _ _ _ (bi_completed s Hinv range ch Hin)). }
  apply H. intros b Hb. destruct (bw_block_cache w) as [bt|m]; [by apply Hc|by apply (Hc id)].
Qed.

Lemma serve_from_cache_ok w s cmds id : cache_ok (bw_block_cache w) → bs_inv s → is_Some (self_payload_requests s !! id) →
  ∃ s' more, serve_from_cache w (s, cmds) id = Ret (s', cmds ++ more) ∧ bs_inv s' ∧ keeps s s' more ∧
    (∀ x, x ≠ id → self_payload_requests s' !! x = self_payload_requests s !! x) ∧
    dom (self_payload_requests s') ⊆ dom (self_payload_requests s).
Proof.
  intros Hc Hinv [o Ho]. unfold serve_from_cache. destruct (get_cached_payload w s id) as [body|] eqn:Hb.
  2:{ exists s, []. rewrite app_nil_r. split_and!; try done. apply keeps_refl. }
  apply get_cached_payload_id in Hb; [|done..]. rewrite Ho. cbn [expect mbind outcome_bind].
  exists (resolve s id o body), (match o with Some r => if bool_decide (is_Some (sr_to r)) then [BcResetTimeout (BsPayload id)] else []
                          | None => [] end).
  split; [destruct o; [done|by rewrite app_nil_r]|]. split; [by apply resolve_inv|].
  destruct (resolve_fields s id o body) as (_ & _ & _ & _ & _ & E6 & _ & _). rewrite E6. split_and!.
  - apply resolve_keeps; (destruct o as [r|]; [|done]; destruct (bool_decide (is_Some (sr_to r))); [|done]); [done|by repeat constructor].
  - intros x Hx. by rewrite lookup_delete_ne.
  - rewrite dom_delete_L. set_solver.
Qed.

Lemma serve_all_ok w ids s cmds : cache_ok (bw_block_cache w) → bs_inv s → NoDup ids →
  (∀ id, id ∈ ids → is_Some (self_payload_requests s !! id)) →
  ∃ s' more, serve_all_from_cache w (s, cmds) ids = Ret (s', cmds ++ more) ∧ bs_inv s' ∧ keeps s s' more ∧
    dom (self_payload_requests s') ⊆ dom (self_payload_requests s).
Proof.
  intros Hc. revert s cmds. induction ids as [|id ids IH]; intros s cmds Hinv Hnd Hids.
  { exists s, []. rewrite app_nil_r. split_and!; try done. apply keeps_refl. }
  apply NoDup_cons in Hnd as [Hnin Hnd].
  destruct (serve_from_cache_ok w s cmds id Hc Hinv) as (s1 & m1 & H1 & Hi1 & Hk1 & Hx & Hsz); [apply Hids; set_solver|].
  cbn [serve_all_from_cache]. rewrite H1. cbn [mbind outcome_bind].
  destruct (IH s1 (cmds ++ m1) Hi1 Hnd) as (s2 & m2 & H2 & Hi2 & Hk2 & Hsz2).
  { intros x Hin. rewrite Hx by set_solver. apply Hids. set_solver. }
  exists s2, (m1 ++ m2). rewrite (assoc_L (++)). split_and!; [done|done|by eapply keeps_trans|set_solver].
Qed.

(** ** Starting requests *)

Lemma initiate_loop_ok fuel s cmds : bs_inv s →
  BLOCKSYNC_MAX_PAYLOAD_REQUESTS < self_payload_requests_in_flight s + N.of_nat fuel →
  ∃ s' more, initiate_loop fuel s cmds = Ret (s', cmds ++ more) ∧ bs_inv s' ∧ keeps s s' more ∧
    self_completed_headers_requests s' = self_completed_headers_requests s ∧
    dom (self_payload_requests s') = dom (self_payload_requests s) ∧
    (self_payload_requests_in_flight s' = BLOCKSYNC_MAX_PAYLOAD_REQUESTS ∨ map_Forall (λ _ o, o ≠ None) (self_payload_requests s')).
Proof.
  revert s cmds. induction fuel as [|fuel IH]; intros s cmds Hinv Hf.
  { pose proof (bi_limit s Hinv). lia. }
  cbn [initiate_loop]. decide_case (self_payload_requests_in_flight s < BLOCKSYNC_MAX_PAYLOAD_REQUESTS) Hlt.
  2:{ exists s, []. rewrite app_nil_r. pose proof (bi_limit s Hinv). split_and!; try done; [apply keeps_refl|left; lia]. }
  destruct (List.find _ _) as [[id o]|] eqn:Hfind.
  2:{ exists s, []. rewrite app_nil_r. split_and!; try done; [apply keeps_refl|right].
      intros id o Ho ->. apply List.find_none with (x := (id, None)) in Hfind; [by rewrite bool_decide_eq_true_2 in Hfind|].
      apply list_elem_of_In. rewrite hash_iter_perm. by apply elem_of_map_to_list. }
  apply List.find_some in Hfind as [Hin Ho]. apply bool_decide_eq_true in Ho. simpl in Ho. subst o.
  apply list_elem_of_In in Hin. rewrite hash_iter_perm in Hin. apply elem_of_map_to_list in Hin.
  set (s1 := {| s with self_payload_requests := <[id := Some (mkSelfRequest (self_request_mode s) None)]> (self_payload_requests s);
    self_payload_requests_in_flight := wrapping_add64 (self_payload_requests_in_flight s) 1 |}).
  assert (self_payload_requests_in_flight s1 = self_payload_requests_in_flight s + 1) as Hfl.
  { simpl. apply wrapping_add64_small. unfold BLOCKSYNC_MAX_PAYLOAD_REQUESTS in Hlt. unfold u64_MAX. lia. }
  assert (bs_inv s1) as Hinv1.
  { pose proof (initiated_insert_new (self_payload_requests s) id (mkSelfRequest (self_request_mode s) None) Hin) as Hsz.
    destruct Hinv as [H1 H2 H3 H4 H5 H6 Hd H7 H8]. split; try done.
    - apply map_Forall_insert_2; [by intros r [= <-]|done].
    - rewrite Hfl, H3. simpl. lia.
    - lia.
    - intros range ch h Hch Hh. simpl. apply lookup_insert_is_Some'. right. by eapply H6. }
  destruct (IH s1 (cmds ++ [BcFetchPayload id]) Hinv1) as (s2 & m2 & H2 & Hi2 & Hk2 & Hc2 & Hd2 & Hq2); [lia|].
  exists s2, (BcFetchPayload id :: m2). rewrite (cons_middle (BcFetchPayload id) cmds m2), (assoc_L (++)).
  split_and!; try done; [|rewrite Hd2; simpl; apply elem_of_dom_2 in Hin; set_solver].
  change (BcFetchPayload id :: m2) with ([BcFetchPayload id] ++ m2). eapply keeps_trans; [|exact Hk2].
  apply keeps_same; try done. by repeat constructor.
Qed.

(** ** Emitting completed ranges *)

Lemma full_blocks_of_ok range ch mode : completed_ok mode range ch → is_complete (range, ch) = true →
  ∃ blocks, full_blocks_of (ch_blocks ch) = Ret blocks ∧ blocks_for range blocks.
Proof.
  intros [_ Hh Hb _] Hc. unfold is_complete in Hc. simpl in Hc.
  assert (∃ blocks, full_blocks_of (ch_blocks ch) = Ret blocks ∧ fb_header <$> blocks = (ch_blocks ch).*1 ∧
    Forall (λ b, body_get_id (fb_body b) = bh_block_body_id (fb_header b)) blocks) as (blocks & H1 & H2 & H3).
  { clear Hh. induction (ch_blocks ch) as [|[h o] l IH]; [by exists []|].
    apply Forall_cons in Hb as [Ho Hb]. simpl in Hc. apply andb_true_iff in Hc as [Hs Hc].
    apply bool_decide_eq_true in Hs as [body ->]. destruct (IH Hb Hc) as (blocks & Hr & Hf & Hids).
    specialize (Ho body eq_refl). simpl in Ho. exists (mkFullBlock h body :: blocks). cbn [full_blocks_of expect mbind outcome_bind].
    unfold full_block_new. rewrite bool_decide_eq_false_2 by (intros Hn; by apply Hn). cbn [expect mbind outcome_bind].
    rewrite Hr. split; [done|]. split; [by rewrite fmap_cons, Hf|by constructor]. }
  exists blocks. split; [done|]. split; [by rewrite H2|done].
Qed.

Lemma emit_ranges_ok ranges s : bs_inv s → NoDup ranges →
  (∀ range, range ∈ ranges → ∃ ch, self_completed_headers_requests s !! range = Some ch ∧ is_complete (range, ch) = true) →
  ∃ cmds, emit_ranges s ranges =
      Ret ({| s with self_completed_headers_requests :=
                filter (λ e, e.1 ∉ ranges) (self_completed_headers_requests s) |}, cmds) ∧
    emitted cmds = ranges ∧ answered cmds = [] ∧ Forall (cmd_ok (self_request_mode s)) cmds.
Proof.
  revert s. induction ranges as [|range ranges IH]; intros s Hinv Hnd Hr.
  { exists []. simpl. rewrite map_filter_id by (intros; set_solver). by destruct s. }
  apply NoDup_cons in Hnd as [Hnin Hnd]. destruct (Hr range) as (ch & Hch & Hcomp); [set_solver|].
  cbn [emit_ranges]. rewrite Hch. cbn [expect mbind outcome_bind].
  destruct (full_blocks_of_ok range ch (self_request_mode s)) as (blocks & -> & Hblocks); [by apply (bi_completed s Hinv)|done|].
  cbn [mbind outcome_bind].
  set (s1 := {| s with self_completed_headers_requests := delete range (self_completed_headers_requests s) |}).
  destruct (IH s1) as (cmds & -> & He & Ha & Hc); [| done | |].
  { destruct Hinv as [H1 H2 H3 H4 H5 H6 Hd H7 H8]. split; try done; simpl.
    - by apply map_Forall_delete.
    - intros r c h [_ Hl]%lookup_delete_Some. by eapply H6.
    - rewrite dom_delete_L. set_solver. }
  { intros r Hin. destruct (Hr r) as (c & Hl & Hcc); [set_solver|]. exists c. simpl.
    rewrite lookup_delete_ne by set_solver. done. }
  cbn [mbind outcome_bind]. eexists. split; [f_equal; f_equal; unfold s1; simpl; f_equal|].
  - apply map_eq. intros r. rewrite !map_lookup_filter. destruct (decide (r = range)) as [->|Hne].
    + rewrite lookup_delete_eq. simpl. destruct (self_completed_headers_requests s !! range); [|done]. simpl.
      by rewrite option_guard_False by set_solver.
    + rewrite lookup_delete_ne by done. destruct (self_completed_headers_requests s !! r); [|done]. simpl.
      destruct (decide (r ∈ ranges)); [rewrite !option_guard_False by set_solver|rewrite !option_guard_True by set_solver]; done.
  - split; [simpl; by rewrite He|]. split; [done|]. constructor; [|done]. split; [|done]. apply (bi_completed s Hinv _ _ Hch).
Qed.

Lemma handle_completed_ranges_ok s : bs_inv s →
  ∃ s' cmds, handle_completed_ranges s = Ret (s', cmds) ∧ bs_inv s' ∧ keeps s s' cmds ∧
    map_Forall (λ range ch, is_complete (range, ch) = false) (self_completed_headers_requests s') ∧
    self_payload_requests s' = self_payload_requests s ∧
    self_payload_requests_in_flight s' = self_payload_requests_in_flight s.
Proof.
  intros Hinv. unfold handle_completed_ranges. set (completed := self_completed_headers_requests s).
  set (ranges := (filter is_complete (hash_iter completed)).*1).
  assert (NoDup ranges) as Hnd.
  { eapply sublist_NoDup; [|apply fmap_sublist, sublist_filter]. rewrite hash_iter_perm. apply NoDup_fst_map_to_list. }
  assert (∀ range, range ∈ ranges ↔ ∃ ch, completed !! range = Some ch ∧ is_complete (range, ch) = true) as Hr.
  { intros range. unfold ranges. rewrite list_elem_of_fmap. setoid_rewrite list_elem_of_filter.
    setoid_rewrite hash_iter_perm. split.
    - intros ([r ch] & -> & Hc & Hin%elem_of_map_to_list). exists ch. split; [done|]. by apply Is_true_true.
    - intros (ch & Hl & Hc). exists (range, ch). split; [done|]. split; [by rewrite Hc|by apply elem_of_map_to_list]. }
  destruct (emit_ranges_ok ranges s Hinv Hnd) as (cmds & Hem & He & Ha & Hc); [intros range Hin; by apply Hr|].
  eexists _, cmds. split; [exact Hem|]. split_and!; try done.
  - destruct Hinv as [H1 H2 H3 H4 H5 H6 Hd H7 H8]. split; try done; simpl.
    + intros r c [Hl _]%map_lookup_filter_Some. by apply H5.
    + intros r c h [Hl _]%map_lookup_filter_Some. by eapply H6.
    + pose proof (dom_filter_subseteq (D := gset BlockRange) (λ e : BlockRange * SelfCompletedHeader, e.1 ∉ ranges)
        (self_completed_headers_requests s)). set_solver.
  - split; try done; [|rewrite Ha; set_solver]. unfold outstanding. simpl. rewrite He. apply set_eq. intros r.
    rewrite !elem_of_union, elem_of_list_to_set, !elem_of_dom. fold completed.
    destruct (decide (r ∈ ranges)) as [Hin|Hnin].
    + apply Hr in Hin as Hin'. destruct Hin' as (ch & Hl & _). split; [tauto|]. intros _. right. rewrite Hl. by eexists.
    + assert (filter (λ e : BlockRange * SelfCompletedHeader, e.1 ∉ ranges) completed !! r = completed !! r) as ->; [|tauto].
      rewrite map_lookup_filter. destruct (completed !! r); [|done]. simpl. by rewrite option_guard_True.
  - intros range ch [Hl Hnin]%map_lookup_filter_Some. simpl in Hnin. apply not_true_iff_false. intros Hcomp. apply Hnin, Hr. by exists ch.
Qed.

(** ** The end of both response handlers *)

Lemma try_initiate_ok w s : cache_ok (bw_block_cache w) → bs_inv s →
  ∃ s' cmds, try_initiate_payload_requests_for_self w s = Ret (s', cmds) ∧ bs_inv s' ∧ keeps s s' cmds ∧ bs_quiet s' ∧
    dom (self_payload_requests s') ⊆ dom (self_payload_requests s).
Proof.
  intros Hc Hinv. unfold try_initiate_payload_requests_for_self.
  destruct (serve_all_ok w (hash_iter (self_payload_requests s)).*1 s [] Hc Hinv) as (s1 & c1 & -> & Hi1 & Hk1 & Hs1).
  { rewrite hash_iter_perm. apply NoDup_fst_map_to_list. }
  { intros id ([x o] & -> & Hin)%list_elem_of_fmap. rewrite hash_iter_perm in Hin. apply elem_of_map_to_list in Hin. by eexists. }
  cbn [mbind outcome_bind app].
  destruct (initiate_loop_ok (S (N.to_nat BLOCKSYNC_MAX_PAYLOAD_REQUESTS)) s1 c1 Hi1) as (s2 & c2 & -> & Hi2 & Hk2 & _ & Hd2 & Hq2); [lia|].
  cbn [mbind outcome_bind].
  destruct (handle_completed_ranges_ok s2 Hi2) as (s3 & c3 & -> & Hi3 & Hk3 & Hem & Hp3 & Hf3). cbn [mbind outcome_bind].
  exists s3, ((c1 ++ c2) ++ c3). split; [done|]. split; [done|]. split; [by eapply keeps_trans; [eapply keeps_trans|]|].
  split; [split; [done|by rewrite Hf3, Hp3]|].
  by rewrite Hp3, Hd2.
Qed.

Lemma request_peer_ok w s request : peers_ok w → self_node_id s = bw_nodeid w → bs_inv s →
  ∃ maybe_to rng cmds, request_peer w s request = Ret (maybe_to, rng, cmds) ∧ silent cmds ∧
    Forall (cmd_ok (self_request_mode s)) cmds.
Proof.
  intros Hp Hn Hinv. unfold request_peer.
  destruct (pick_peer_ret w (override_peers s) (bs_rng s) Hp) as (maybe_to & rng & -> & _).
  { rewrite <- Hn. apply (bi_overrides s Hinv). }
  cbn [mbind outcome_bind]. eexists _, _, _. split; [done|]. destruct maybe_to; split; try done; by repeat constructor.
Qed.
End steps.

(** * Every handler of block sync keeps its invariant

    On top of BlockSyncSteps.v: the responses of the ledger and of peers, the
    requests of peers, the timeouts, and the requests of the node. *)

Section handlers.
Context `{P : Params} {CD : Codec} {SR : SyncRng} {SL : SyncRngLaws SR} {HH : HashOrder BlockRange SelfCompletedHeader}
        {HP : HashOrder N (option SelfRequest)}.
Implicit Types (s : BlockSync) (range : BlockRange) (ch : SelfCompletedHeader) (cmds : list BlockSyncCommand)
  (w : BlockSyncWrapper) (hs headers : list ConsensusBlockHeader).

(** ** Headers that verify *)

Lemma add_payload_requests_spec hs (m : gmap N (option SelfRequest)) :
  (∀ id, is_Some (foldl add_payload_request m hs !! id) ↔ is_Some (m !! id) ∨ id ∈ bh_block_body_id <$> hs) ∧
  (∀ id o, foldl add_payload_request m hs !! id = Some o → m !! id = Some o ∨ o = None) ∧
  initiated (foldl add_payload_request m hs) = initiated m.
Proof.
  revert m. induction hs as [|h hs IH]; intros m.
  { simpl. split_and!; [set_solver|tauto|done]. }
  simpl. destruct (IH (add_payload_request m h)) as (H1 & H2 & H3). rewrite H3. setoid_rewrite H1.
  unfold add_payload_request in *. destruct (m !! bh_block_body_id h) as [o|] eqn:Hm.
  - split_and!; [|done|done]. intros id. rewrite elem_of_cons. split; [tauto|]. intros [Hs|[->|Hs]]; [tauto| |tauto].
    left. by eexists.
  - split_and!.
    + intros id. rewrite lookup_insert_is_Some', elem_of_cons. naive_solver.
    + intros id o [Hl|Hl]%H2; [|by right]. rewrite lookup_insert_Some in Hl. naive_solver.
    + unfold initiated. rewrite map_filter_insert_False by (simpl; tauto). by rewrite delete_id.
Qed.

Lemma complete_headers_ok s range hs r : bs_inv s → self_headers_requests s !! range = Some r → headers_for range hs →
  bs_inv (complete_headers s range hs) ∧ outstanding (complete_headers s range hs) = outstanding s.
Proof.
  intros [H1 H2 H3 H4 H5 H6 Hd H7 H8] Hr Hhs.
  destruct (add_payload_requests_spec hs (self_payload_requests s)) as (A1 & A2 & A3). split.
  - split; try done; simpl.
    + by apply map_Forall_delete.
    + intros id o [Hl| ->]%A2; [by apply (H2 id)|done].
    + by rewrite A3.
    + apply map_Forall_insert_2; [|done]. split; simpl; [done|by rewrite <- list_fmap_compose, list_fmap_id| |done].
      apply Forall_fmap, Forall_forall. done.
    + intros range' ch h Hl Hin. apply A1. apply lookup_insert_Some in Hl as [[<- <-]|[_ Hl]].
      * right. simpl in Hin. apply list_elem_of_fmap in Hin as (h' & [= ->] & Hin). by apply list_elem_of_fmap_2.
      * left. by eapply H6.
    + rewrite dom_delete_L, dom_insert_L. set_solver.
  - unfold outstanding. simpl. rewrite dom_delete_L, dom_insert_L. apply elem_of_dom_2 in Hr.
    apply set_eq. intros x. destruct (decide (x = range)); set_solver.
Qed.

(** ** A request moves on to a peer *)

Lemma set_header_peer_ok s range r to rng : bs_inv s → self_headers_requests s !! range = Some r →
  let s' := {| s with self_headers_requests := <[range := mkSelfRequest (sr_requester r) to]> (self_headers_requests s);
                      bs_rng := rng |} in
  bs_inv s' ∧ dom (self_headers_requests s') = dom (self_headers_requests s).
Proof.
  intros [H1 H2 H3 H4 H5 H6 Hd H7 H8] Hr s'.
  assert (dom (self_headers_requests s') = dom (self_headers_requests s)) as Hdom.
  { simpl. rewrite dom_insert_L. apply elem_of_dom_2 in Hr. set_solver. }
  split; [|done]. split; try done; [|by rewrite Hdom]. simpl. apply map_Forall_insert_2; [|done].
  exact (H1 range r Hr).
Qed.

Lemma set_payload_peer_ok s id r to rng : bs_inv s → self_payload_requests s !! id = Some (Some r) →
  let s' := {| s with self_payload_requests := <[id := Some (mkSelfRequest (sr_requester r) to)]> (self_payload_requests s);
                      bs_rng := rng |} in
  bs_inv s' ∧ dom (self_payload_requests s') = dom (self_payload_requests s) ∧ (bs_quiet s → bs_quiet s').
Proof.
  intros [H1 H2 H3 H4 H5 H6 Hd H7 H8] Hr s'. split_and!.
  - split; try done; simpl.
    + apply map_Forall_insert_2; [|done]. intros r' [= <-]. exact (H2 id (Some r) Hr r eq_refl).
    + rewrite (initiated_insert_old _ _ r) by done. done.
    + intros range ch h Hch Hh. apply lookup_insert_is_Some'. right. by eapply H6.
  - simpl. rewrite dom_insert_L. apply elem_of_dom_2 in Hr. set_solver.
  - intros [Q1 [Q2|Q2]]; (split; [done|]); [by left|right]. simpl. by apply map_Forall_insert_2.
Qed.

(** ** Responses *)

(** What the node relies on when an event comes: its own id, its cache, a
    validator set to pick a peer from; the headers of its own ledger. *)
Definition response_ok (sender : option NodeId) (r : BlockSyncHeadersResponse) : Prop :=
  match sender, r with None, HrFound range hs => headers_for range hs | _, _ => True end.

Record node_ok w s : Prop := {
  no_node : self_node_id s = bw_nodeid w;
  no_cache : cache_ok (bw_block_cache w);
  no_peers : peers_ok w;
}.

Lemma reset_ok mode b request : silent (if b : bool then [BcResetTimeout request] else []) ∧
  Forall (cmd_ok mode) (if b then [BcResetTimeout request] else []).
Proof. destruct b; split; try done. by repeat constructor. Qed.

Lemma handle_headers_response_ok w s sender r : node_ok w s → bs_inv s → bs_quiet s → response_ok sender r →
  step_ok s (handle_headers_response_for_self w s sender r) bs_quiet.
Proof.
  intros [Hn Hc Hp] Hinv Hq Hr. unfold handle_headers_response_for_self.
  destruct (self_headers_requests s !! get_block_range r) as [req|] eqn:Hreq.
  2:{ exists s, []. split_and!; try done. apply keeps_refl. }
  apply step_ok_bind with (Q := λ _, True).
  2:{ intros s1 c1 Hi1 Hk1 _. destruct (try_initiate_ok w s1 Hc Hi1) as (s2 & c2 & -> & Hi2 & Hk2 & Hq2 & _). by exists s2, c2. }
  destruct (bi_headers s Hinv _ _ Hreq) as [Hmode Hnum]. destruct r as [range hs|range]; simpl in Hreq, Hnum.
  - rewrite (bool_decide_eq_true_2 (sr_requester req = self_request_mode s)) by done. cbn [rust_assert mbind outcome_bind].
    destruct (verify_block_headers_spec range hs Hnum) as (b & -> & Hb). cbn [mbind outcome_bind]. destruct b.
    + destruct (complete_headers_ok s range hs req Hinv Hreq) as [Hi Ho]; [by apply Hb|].
      destruct (reset_ok (self_request_mode s) (bool_decide (is_Some sender)) (BsHeaders range)) as [[He Ha] Hcmd].
      eexists _, _. split; [done|]. split_and!; [done| |done].
      split; try done; [simpl; rewrite dom_delete_L; set_solver| |rewrite Ha; set_solver].
      rewrite Ho, He. simpl. set_solver.
    + destruct sender as [n|]; [|exfalso; enough (false = true) by done; by apply Hb].
      exists s, []. split_and!; try done. apply keeps_refl.
  - destruct sender as [n|]; [exists s, []; split_and!; try done; apply keeps_refl|]. simpl.
    case_bool_decide as Hto; [|exists s, []; split_and!; try done; apply keeps_refl].
    destruct (request_peer_ok w s (BsHeaders range) Hp Hn Hinv) as (to & rng & cmds & -> & He & Hcmd). cbn [mbind outcome_bind].
    destruct (set_header_peer_ok s range req to rng Hinv Hreq) as [Hi Hd].
    eexists _, _. split; [done|]. split_and!; try done. by apply keeps_same.
Qed.

Lemma handle_payload_response_ok w s sender r : node_ok w s → bs_inv s → bs_quiet s →
  step_ok s (handle_payload_response_for_self w s sender r) (λ s', bs_quiet s' ∧
    dom (self_payload_requests s') ⊆ dom (self_payload_requests s) ∧
    ∀ body req, r = BrFound body → self_payload_requests s !! body_get_id body = Some (Some req) →
      body_get_id body ∉ dom (self_payload_requests s')).
Proof.
  intros [Hn Hc Hp] Hinv Hq. unfold handle_payload_response_for_self.
  destruct (self_payload_requests s !! get_payload_id r) as [[req|]|] eqn:Hreq.
  2,3: exists s, []; split_and!; try done; [apply keeps_refl|]; intros body ? ->; simpl in Hreq; congruence.
  apply step_ok_bind with (Q := λ s1, dom (self_payload_requests s1) ⊆ dom (self_payload_requests s) ∧
    ∀ body, r = BrFound body → body_get_id body ∉ dom (self_payload_requests s1)).
  2:{ intros s1 c1 Hi1 Hk1 [Hs1 Hsz]. destruct (handle_completed_ranges_ok s1 Hi1) as (s2 & c2 & -> & Hi2 & Hk2 & _ & Hp2 & _).
      cbn [mbind outcome_bind]. destruct (try_initiate_ok w s2 Hc Hi2) as (s3 & c3 & -> & Hi3 & Hk3 & Hq3 & Hs3).
      exists s3, (c2 ++ c3). split_and!; try done; [by eapply keeps_trans|rewrite Hp2 in Hs3; set_solver|].
      intros body _ Hb _. specialize (Hsz body Hb). rewrite Hp2 in Hs3. set_solver. }
  destruct r as [body|id]; simpl in Hreq.
  - rewrite (bool_decide_eq_true_2 (sr_requester req = self_request_mode s)) by by eapply (bi_payloads s Hinv). cbn [rust_assert mbind outcome_bind get_payload_id].
    destruct (reset_ok (self_request_mode s) (bool_decide (is_Some sender)) (BsPayload (body_get_id body))) as [He Hcmd].
    exists (resolve s (body_get_id body) (Some req) body).
    eexists. split; [reflexivity|]. split; [by apply resolve_inv|]. split; [by apply resolve_keeps|].
    destruct (resolve_fields s (body_get_id body) (Some req) body) as (_ & _ & _ & _ & _ & -> & _ & _).
    rewrite dom_delete_L. split; [set_solver|]. intros ? [= <-]. set_solver.
  - destruct sender as [n|]; [exists s, []; split_and!; try done; apply keeps_refl|]. simpl.
    case_bool_decide as Hto; [|exists s, []; split_and!; try done; apply keeps_refl].
    destruct (request_peer_ok w s (BsPayload id) Hp Hn Hinv) as (to & rng & cmds & -> & He & Hcmd). cbn [mbind outcome_bind].
    destruct (set_payload_peer_ok s id req to rng Hinv Hreq) as (Hi & Hd & _).
    eexists _, _. split; [done|]. split_and!; try done; [by apply keeps_same|by rewrite Hd].
Qed.

Lemma handle_timeout_ok w s request : node_ok w s → bs_inv s → bs_quiet s →
  step_ok s (handle_timeout w s request) bs_quiet.
Proof.
  intros [Hn Hc Hp] Hinv Hq. unfold handle_timeout.
  assert (step_ok s (Ret (s, [])) bs_quiet) as Hsame by (exists s, []; split_and!; try done; apply keeps_refl).
  destruct (request_peer_ok w s request Hp Hn Hinv) as (to & rng & cmds & -> & He & Hcmd).
  destruct request as [range|id]; cbn [mbind outcome_bind].
  - destruct (self_headers_requests s !! range) as [req|] eqn:Hreq; [|done].
    destruct (set_header_peer_ok s range req to rng Hinv Hreq) as [Hi Hd].
    eexists _, _. split; [done|]. split_and!; [done|by apply keeps_same|by destruct Hq].
  - destruct (self_payload_requests s !! id) as [[req|]|] eqn:Hreq; [|done..].
    destruct (set_payload_peer_ok s id req to rng Hinv Hreq) as (Hi & Hd & Hq').
    eexists _, _. split; [done|]. split_and!; [done|by apply keeps_same|by apply Hq'].
Qed.
End handlers.
