(* ===== verification/BlockSyncServe.v ===== *)
(** * Block sync as a server

    The requests of peers, answered from the block tree, from the payloads at
    hand or by the ledger. *)
From S2P Require Import Prelude Types Interfaces MultiSig Certificates Concrete ValidatorSet Epochs Leader BlockTree BlockTreeProps BlockSync BlockSyncProps BlockSyncSteps.
#[local] Open Scope N_scope.

(** ** The block tree as a cache *)

Section tree.
Context `{P : Params} {CD : Codec} (valid : ConsensusBlockHeader → Prop) (Hvalid : valid_headers valid).
Implicit Types (bt : BlockTree).

Lemma chain_loop_ok bt fuel id e acc : bt_wf valid bt → tr_tree (bt_tree bt) !! id = Some e →
  (blocks_upto bt (fb_get_parent_round (be_validated_block e)) < fuel)%nat →
  last acc = Some (be_validated_block e) → headers_linked (fb_header <$> reverse acc) = true →
  ∃ l, chain_loop fuel bt (be_validated_block e) acc = Ret l ∧ headers_linked (fb_header <$> l) = true ∧ last l = head acc.
Proof using Hvalid.
  intros Hwf. revert id e acc. induction fuel as [|fuel IH]; intros id e acc He Hf Hlast Hlk; [lia|].
  cbn [chain_loop]. unfold tree_get.
  destruct (tr_tree (bt_tree bt) !! fb_get_parent_id (be_validated_block e)) as [pe|] eqn:Hpe.
  2:{ exists (reverse acc). split_and!; [done|done|apply last_reverse]. }
  pose proof (bt_parent_round _ Hvalid _ _ _ _ Hwf He Hpe) as Hr.
  destruct (IH _ pe (acc ++ [be_validated_block pe]) Hpe) as (l & Hl & Hlk' & Hlast').
  - pose proof (blocks_upto_parent _ Hvalid bt _ pe _ Hwf Hpe Hr). lia.
  - by rewrite last_snoc.
  - rewrite reverse_snoc, fmap_cons. change (fb_header (be_validated_block pe) :: ?l) with ([fb_header (be_validated_block pe)] ++ l).
    rewrite headers_linked_app, Hlk. simpl. rewrite fmap_reverse, head_reverse, fmap_last, Hlast. simpl. apply bool_decide_eq_true.
    apply (bw_entry _ _ Hwf _ _ Hpe).
  - exists l. split_and!; [done|done|]. rewrite Hlast'. by destruct acc.
Qed.

Lemma tree_cache_ok bt : bt_wf valid bt → (∀ id body, get_payload (bt_tree bt) id = Some body → body_get_id body = id) →
  cache_ok (CacheBlockTree bt).
Proof using Hvalid.
  intros Hwf Hb. split; [done|]. intros id. unfold get_parent_block_chain, tree_get.
  destruct (tr_tree (bt_tree bt) !! id) as [e|] eqn:He; [|by exists []].
  destruct (chain_loop_ok bt (bt_fuel bt) id e [be_validated_block e] Hwf He) as (l & Hl & Hlk & Hlast); try done.
  { pose proof (blocks_upto_size bt (fb_get_parent_round (be_validated_block e))). unfold bt_fuel. lia. }
  exists l. split_and!; [done|done|]. rewrite Hlast. intros b [= <-]. apply (bw_entry _ _ Hwf _ _ He).
Qed.
End tree.

Section serve.
Context `{P : Params} {CD : Codec} {SR : SyncRng} {SL : SyncRngLaws SR} {HH : HashOrder BlockRange SelfCompletedHeader}
        {HP : HashOrder N (option SelfRequest)}.
Implicit Types (s : BlockSync) (range : BlockRange) (ch : SelfCompletedHeader) (cmds : list BlockSyncCommand)
  (w : BlockSyncWrapper) (hs headers : list ConsensusBlockHeader).

Lemma last_drop {A} n (l : list A) : (n < length l)%nat → last (drop n l) = last l.
Proof.
  intros Hn. rewrite <- (take_drop n l) at 2. rewrite last_app.
  destruct (last (drop n l)) eqn:Hl; [done|]. apply last_None in Hl. apply (f_equal length) in Hl.
  rewrite length_drop in Hl. simpl in Hl. lia.
Qed.

(** The headers that the cache has for a range: a suffix of them. *)
Lemma cached_suffix_ok bt range : cache_ok (CacheBlockTree bt) → br_num_blocks range ≠ 0 →
  ∃ chain, get_parent_block_chain bt (br_last_block_id range) = Ret chain ∧
    let cached := reverse (take (N.to_nat (br_num_blocks range)) (reverse (fb_header <$> chain))) in
    N.of_nat (length cached) ≤ br_num_blocks range ∧ headers_linked cached = true ∧
    (cached = [] ∨ get_id <$> last cached = Some (br_last_block_id range)).
Proof.
  intros [_ Hc] Hn. destruct (Hc (br_last_block_id range)) as (chain & -> & Hlk & Hlast). exists chain. split; [done|].
  rewrite take_reverse, reverse_involutive. cbn zeta. split_and!.
  - rewrite length_drop. lia.
  - by apply headers_linked_drop.
  - destruct (last chain) as [b|] eqn:Hl; [|apply last_None in Hl as ->; by left]. right.
    rewrite last_drop, fmap_last, Hl; [simpl; f_equal; by apply Hlast|].
    destruct chain; [done|]. simpl. lia.
Qed.
(** [s'] differs from [s] only in the requests of peers. *)
Definition peers_only s s' : Prop :=
  s' = {| s with headers_requests := headers_requests s'; payload_requests := payload_requests s' |}.

Lemma peers_only_inv s s' : peers_only s s' → map_Forall (λ range, map_Forall (λ _, peer_ok range)) (headers_requests s') →
  bs_inv s → bs_inv s'.
Proof. intros -> Hp [H1 H2 H3 H4 H5 H6 Hd H7 H8]. by split. Qed.

Lemma peers_only_quiet s s' : peers_only s s' → bs_quiet s → bs_quiet s'.
Proof. intros -> [H1 H2]. by split. Qed.

(** ** Requests of peers *)

(** What an answer to a peer's request does: only that request is new among
    those that wait or are answered, and it is one of them. *)
Record serves s s' cmds (sender : NodeId) (request : BlockSyncRequestMessage) : Prop := {
  sv_self : peers_only s s';
  sv_inv : bs_inv s';
  sv_emitted : emitted cmds = [];
  sv_cmds : Forall (cmd_ok (self_request_mode s)) cmds;
  sv_waiting : ∀ node r, waiting s' node r ∨ (node, r) ∈ answered cmds → waiting s node r ∨ (node = sender ∧ r = request);
}.

Definition sized_request (request : BlockSyncRequestMessage) : Prop :=
  match request with BsHeaders range => br_num_blocks range ≤ u64_MAX | BsPayload _ => True end.

Definition empty_request (request : BlockSyncRequestMessage) : Prop :=
  match request with BsHeaders range => br_num_blocks range = 0 | BsPayload _ => False end.

Lemma serves_nothing s sender request : bs_inv s → serves s s [] sender request.
Proof. intros H. split; try done; [by destruct s|]. intros node r. simpl. set_solver. Qed.

Lemma serve_headers_now_ok s sender range hs : bs_inv s → headers_for range hs →
  serves s s [BcSendResponse sender (HeadersResponse (HrFound range hs))] sender (BsHeaders range).
Proof.
  intros Hi Hh. split; try done; [by destruct s|by apply Forall_singleton|]. intros node r.
  simpl. intros [H|[= -> ->]%list_elem_of_singleton]; [by left|by right].
Qed.

Lemma serve_headers_later_ok s sender fetch cached : bs_inv s → peer_ok fetch cached →
  serves s {| s with headers_requests :=
      <[fetch := <[sender := cached]> (default ∅ (headers_requests s !! fetch))]> (headers_requests s) |}
    [BcFetchHeaders fetch] sender (BsHeaders (asked_range fetch cached)).
Proof.
  intros Hi Hp. split; try done.
  - eapply peers_only_inv; [done| |exact Hi]. simpl. apply map_Forall_insert_2; [|by apply bi_peers].
    apply map_Forall_insert_2; [done|]. destruct (headers_requests s !! fetch) as [m|] eqn:Hm; [|apply map_Forall_empty].
    by apply (bi_peers s Hi fetch).
  - apply Forall_singleton. by apply (pk_num fetch cached).
  - intros node r [H|H]; [|by apply elem_of_nil in H]. destruct r as [range|id]; simpl in H; [|by left].
    destruct H as (fetch' & m & c & Hm & Hc & ->). apply lookup_insert_Some in Hm as [[<- <-]|[_ Hm]].
    2:{ left. by exists fetch', m, c. }
    apply lookup_insert_Some in Hc as [[<- <-]|[_ Hc]]; [by right|]. left.
    destruct (headers_requests s !! fetch) as [m|] eqn:Hm; [|done]. by exists fetch, m, c.
Qed.

Lemma serve_payload_now_ok s sender id body : bs_inv s → body_get_id body = id →
  serves s s [BcSendResponse sender (PayloadResponse (BrFound body))] sender (BsPayload id).
Proof.
  intros Hi <-. split; try done; [by destruct s|by apply Forall_singleton|]. intros node r.
  simpl. intros [H|[= -> ->]%list_elem_of_singleton]; [by left|by right].
Qed.

Lemma serve_payload_later_ok s sender id : bs_inv s →
  serves s {| s with payload_requests :=
      <[id := <[sender := tt]> (default ∅ (payload_requests s !! id))]> (payload_requests s) |}
    [BcFetchPayload id] sender (BsPayload id).
Proof.
  intros Hi. split; try done.
  - eapply peers_only_inv; [done| |exact Hi]. exact (bi_peers s Hi).
  - by apply Forall_singleton.
  - intros node r [H|H]; [|by apply elem_of_nil in H]. destruct r as [range|id']; simpl in H; [by left|].
    destruct H as (m & Hm & Hn). apply lookup_insert_Some in Hm as [[<- <-]|[_ Hm]]; [|left; by exists m].
    apply lookup_insert_is_Some' in Hn as [<-|Hn]; [by right|]. left.
    destruct (payload_requests s !! id) as [m|] eqn:Hm; [by exists m|]. simpl in Hn. rewrite lookup_empty in Hn. by destruct Hn.
Qed.

(** The requests of peers that a response of the ledger is for. *)
Definition waits_for s (r : BlockSyncResponseMessage) (node : NodeId) (request : BlockSyncRequestMessage) : Prop :=
  match r with
  | HeadersResponse r => ∃ m cached, headers_requests s !! get_block_range r = Some m ∧ m !! node = Some cached ∧
      request = BsHeaders (asked_range (get_block_range r) cached)
  | PayloadResponse r => ∃ m, payload_requests s !! get_payload_id r = Some m ∧ is_Some (m !! node) ∧
      request = BsPayload (get_payload_id r)
  end.

Definition fetch_command (request : BlockSyncRequestMessage) : BlockSyncCommand :=
  match request with BsHeaders range => BcFetchHeaders range | BsPayload id => BcFetchPayload id end.

(** A request is answered, or waits for a response of the ledger that is
    asked for. *)
Lemma handle_peer_request_ok w s sender request : cache_ok (bw_block_cache w) → sized_request request → bs_inv s →
  ∃ s' cmds, handle_peer_request w s sender request = Ret (s', cmds) ∧ serves s s' cmds sender request ∧
    (¬ empty_request request → (sender, request) ∈ answered cmds ∨
       ∃ fetch, fetch_command fetch ∈ cmds ∧ ∀ response, request_of response = fetch → waits_for s' response sender request).
Proof.
  intros Hc Hsz Hi. destruct request as [range|id]; simpl.
  2:{ destruct (get_cached_payload w s id) as [body|] eqn:Hb.
      - apply get_cached_payload_id in Hb as Hid; [|done..]. eexists _, _. split; [done|].
        split; [by apply serve_payload_now_ok|]. intros _. left. simpl. rewrite Hid. set_solver.
      - eexists _, _. split; [done|]. split; [by apply serve_payload_later_ok|]. intros _. right.
        exists (BsPayload id). split; [set_solver|]. intros [hr|pr] [= <-]. simpl. eexists. rewrite lookup_insert_eq.
        split; [done|]. rewrite lookup_insert_eq. split; [by eexists|done]. }
  case_bool_decide as Hn.
  { exists s, []. split; [done|]. split; [by apply serves_nothing|]. by intros []. }
  assert (∃ cached, match bw_block_cache w with
      | CacheBlockTree blocktree =>
          chain ← get_parent_block_chain blocktree (br_last_block_id range);
          Ret (reverse (take (N.to_nat (br_num_blocks range)) (reverse (fb_header <$> chain))))
      | CacheBlockBuffer _ => Ret []
      end = Ret cached ∧ N.of_nat (length cached) ≤ br_num_blocks range ∧ headers_linked cached = true ∧
    (cached = [] ∨ get_id <$> last cached = Some (br_last_block_id range))) as (cached & -> & Hlen & Hlk & Hlast).
  { destruct (bw_block_cache w) as [bt|m]; [|exists []; split_and!; [done|simpl; lia|done|by left]].
    destruct (cached_suffix_ok bt range Hc Hn) as (chain & -> & H). eexists. by split. }
  cbn [mbind outcome_bind].
  decide_case (N.of_nat (length cached) = br_num_blocks range) Hfull.
  - assert (get_id <$> last cached = Some (br_last_block_id range)) as Hl.
    { destruct Hlast as [->|]; [simpl in Hfull; lia|done]. }
    rewrite bool_decide_eq_true_2 by done. cbn [rust_assert mbind outcome_bind]. eexists _, _. split; [done|].
    split; [by apply serve_headers_now_ok|]. intros _. left. simpl. set_solver.
  - rewrite (proj2 (seq_sub_ret _ _ (br_num_blocks range - N.of_nat (length cached)))) by done. cbn [mbind outcome_bind].
    set (fetch := mkBlockRange (default (br_last_block_id range) (get_parent_id <$> head cached))
      (br_num_blocks range - N.of_nat (length cached))).
    assert (asked_range fetch cached = range) as Hask.
    { unfold asked_range. destruct range as [rid rn]. simpl in *. f_equal; [|lia].
      destruct Hlast as [->|Hl]; [done|]. by rewrite Hl. }
    eexists _, _. split; [done|]. rewrite <- Hask at 1. split.
    + apply serve_headers_later_ok; [done|]. simpl in Hsz. split; simpl; [lia|lia|done|]. intros h ->. done.
    + intros _. right. exists (BsHeaders fetch). split; [set_solver|]. intros [hr|pr] [= Heq]. simpl. rewrite Heq.
      eexists _, cached. rewrite lookup_insert_eq. split; [done|]. by rewrite lookup_insert_eq, Hask.
Qed.
(** ** Responses of the ledger *)

Lemma reply_headers_ok mode hr node cached : peer_ok (get_block_range hr) cached → response_ok None hr →
  ∃ r, reply_headers hr (node, cached) = Ret (BcSendResponse node (HeadersResponse r)) ∧
    get_block_range r = asked_range (get_block_range hr) cached ∧ cmd_ok mode (BcSendResponse node (HeadersResponse r)).
Proof.
  intros [Hn Hf Hlk Hp] Hr. unfold reply_headers.
  rewrite (proj2 (seq_add_ret _ _ (br_num_blocks (get_block_range hr) + N.of_nat (length cached)))) by done.
  cbn [mbind outcome_bind]. destruct hr as [range hs|range]; simpl in *; [|by eexists].
  destruct Hr as [Hl Hlast Hh].
  assert (headers_linked (hs ++ cached) = true) as Hlinked.
  { rewrite headers_linked_app, Hh, Hlk. simpl. destruct (last hs) as [a|]; [|done].
    destruct (head cached) as [b|]; [|done]. apply bool_decide_eq_true. simpl in Hlast. rewrite (Hp b eq_refl). congruence. }
  rewrite Hlinked. cbn [rust_assert mbind outcome_bind]. eexists. split; [done|]. split; [done|]. split; [|simpl|done].
  - rewrite length_app. simpl. lia.
  - rewrite last_app. by destruct (last cached).
Qed.

Lemma reply_all_headers_ok mode hr l : Forall (λ e : NodeId * list ConsensusBlockHeader, peer_ok (get_block_range hr) e.2) l →
  response_ok None hr →
  ∃ cmds, reply_all_headers hr l = Ret cmds ∧ emitted cmds = [] ∧ Forall (cmd_ok mode) cmds ∧
    answered cmds = (λ e : NodeId * list ConsensusBlockHeader, (e.1, BsHeaders (asked_range (get_block_range hr) e.2))) <$> l.
Proof.
  intros Hl Hr. induction Hl as [|[node cached] l He Hl IH]; [by exists []|].
  destruct (reply_headers_ok mode hr node cached He Hr) as (r & H1 & Hrange & Hc).
  destruct IH as (cmds & H2 & Hem & Hcs & Ha). cbn [reply_all_headers]. rewrite H1. cbn [mbind outcome_bind]. rewrite H2.
  cbn [mbind outcome_bind]. eexists. split; [done|]. split; [done|]. split; [by constructor|].
  simpl. by rewrite Ha, Hrange.
Qed.

(** The replies, before the node's own request is looked at. *)
Lemma answer_headers_keeps s range cmds : bs_inv s → emitted cmds = [] → Forall (cmd_ok (self_request_mode s)) cmds →
  answered cmds = (λ e : NodeId * list ConsensusBlockHeader, (e.1, BsHeaders (asked_range range e.2))) <$>
    btree_iter (default ∅ (headers_requests s !! range)) →
  let s' := {| s with headers_requests := delete range (headers_requests s) |} in bs_inv s' ∧ keeps s s' cmds.
Proof.
  intros Hi He Hc Ha s'. split.
  - eapply peers_only_inv; [done| |exact Hi]. apply map_Forall_delete. exact (bi_peers s Hi).
  - split; try done.
    + rewrite He. unfold outstanding. simpl. set_solver.
    + intros node [asked|id]; [|done]. simpl. intros (r & m & c & [_ Hm]%lookup_delete_Some & H). by exists r, m, c.
    + intros node request. rewrite Ha. intros ([n c] & [= -> ->] & Hin%elem_of_btree_iter)%list_elem_of_fmap. simpl.
      destruct (headers_requests s !! range) as [m|] eqn:Hm; [by exists range, m, c|done].
Qed.

Lemma answer_payload_keeps s r : bs_inv s →
  let s' := {| s with payload_requests := delete (get_payload_id r) (payload_requests s) |} in
  let cmds := (λ requester, BcSendResponse requester (PayloadResponse r)) <$>
    btree_keys (default ∅ (payload_requests s !! get_payload_id r)) in
  bs_inv s' ∧ keeps s s' cmds ∧ answered cmds = (λ requester, (requester, BsPayload (get_payload_id r))) <$>
    btree_keys (default ∅ (payload_requests s !! get_payload_id r)).
Proof.
  intros Hi s' cmds.
  assert (∀ l : list NodeId, let cs := (λ requester, BcSendResponse requester (PayloadResponse r)) <$> l in
    emitted cs = [] ∧ answered cs = (λ requester, (requester, BsPayload (get_payload_id r))) <$> l) as Hl.
  { induction l as [|n l [IH1 IH2]]; [done|]. split; [exact IH1|]. exact (f_equal (cons (n, BsPayload (get_payload_id r))) IH2). }
  destruct (Hl (btree_keys (default ∅ (payload_requests s !! get_payload_id r)))) as [He Ha]. fold cmds in He, Ha.
  split; [eapply peers_only_inv; [done| |exact Hi]; exact (bi_peers s Hi)|]. split; [|exact Ha]. split; try done.
  - rewrite He. unfold outstanding. simpl. set_solver.
  - apply Forall_fmap, Forall_forall. done.
  - intros node [asked|id]; [done|]. simpl. intros (m & [_ Hm]%lookup_delete_Some & H). by exists m.
  - intros node request. rewrite Ha. intros (n & [= -> ->] & Hin%elem_of_btree_keys)%list_elem_of_fmap. simpl.
    destruct (payload_requests s !! get_payload_id r) as [m|] eqn:Hm; [by exists m|].
    simpl in Hin. rewrite lookup_empty in Hin. by destruct Hin.
Qed.

Definition ledger_ok (r : BlockSyncResponseMessage) : Prop :=
  match r with HeadersResponse r => response_ok None r | PayloadResponse _ => True end.

Lemma handle_ledger_response_ok w s r : node_ok w s → bs_inv s → bs_quiet s → ledger_ok r →
  ∃ s' cmds, handle_ledger_response w s r = Ret (s', cmds) ∧ bs_inv s' ∧ keeps s s' cmds ∧ bs_quiet s' ∧
    ∀ node request, waits_for s r node request → (node, request) ∈ answered cmds.
Proof.
  intros Hno Hi Hq Hr. destruct r as [hr|pr]; simpl.
  - destruct (reply_all_headers_ok (self_request_mode s) hr
      (btree_iter (default ∅ (headers_requests s !! get_block_range hr)))) as (c1 & -> & He & Hc & Ha); [|done|].
    { apply Forall_forall. intros [node cached] Hin%elem_of_btree_iter. simpl.
      destruct (headers_requests s !! get_block_range hr) as [m|] eqn:Hm; [|done]. by apply (bi_peers s Hi _ _ Hm node). }
    cbn [mbind outcome_bind]. destruct (answer_headers_keeps s (get_block_range hr) c1 Hi He Hc Ha) as [Hi1 Hk1].
    destruct (handle_headers_response_ok w {| s with headers_requests := delete (get_block_range hr) (headers_requests s) |}
      None hr) as (s2 & c2 & -> & Hi2 & Hk2 & Hq2); [by destruct Hno|done|by destruct Hq|done|].
    cbn [mbind outcome_bind]. eexists _, _. split; [done|]. split_and!; [done|by eapply keeps_trans|done|].
    intros node request (m & cached & Hm & Hn & ->). rewrite answered_app, Ha, Hm. apply elem_of_app. left.
    apply list_elem_of_fmap. exists (node, cached). split; [done|]. by apply elem_of_btree_iter.
  - destruct (answer_payload_keeps s pr Hi) as (Hi1 & Hk1 & Ha).
    destruct (handle_payload_response_ok w {| s with payload_requests := delete (get_payload_id pr) (payload_requests s) |}
      None pr) as (s2 & c2 & -> & Hi2 & Hk2 & Hq2 & _); [by destruct Hno|done|by destruct Hq|].
    cbn [mbind outcome_bind]. eexists _, _. split; [done|]. split_and!; [done|by eapply keeps_trans|done|].
    intros node request (m & Hm & Hn & ->). rewrite answered_app, Ha, Hm. apply elem_of_app. left.
    apply list_elem_of_fmap. exists node. split; [done|]. by apply elem_of_btree_keys.
Qed.
End serve.
