(* ===== verification/BlockSyncCorrect.v ===== *)
(** * Block sync is correct

    For a run of any length from the start: requests and cancellations of
    consensus and state sync, requests, responses and forgeries of peers,
    responses of the node's own ledger, timeouts. *)
From S2P Require Import Prelude Types Interfaces MultiSig Certificates Concrete ValidatorSet Epochs Leader BlockTree BlockTreeProps BlockSync BlockSyncProps BlockSyncSteps BlockSyncServe.
#[local] Open Scope N_scope.

Section correct.
Context `{P : Params} {CD : Codec} {SR : SyncRng} {SL : SyncRngLaws SR} {HH : HashOrder BlockRange SelfCompletedHeader}
        {HP : HashOrder N (option SelfRequest)}.
Implicit Types (s : BlockSync) (range : BlockRange) (ch : SelfCompletedHeader) (cmds : list BlockSyncCommand)
  (w : BlockSyncWrapper) (past : list BlockSyncEvent) (e : BlockSyncEvent).

(** What the node guarantees of its own parts when an event comes. Of peers
    nothing is assumed but the width of the number in their requests. *)
Record event_ok (self : NodeId) (we : BlockSyncWrapper * BlockSyncEvent) : Prop := {
  ev_node : bw_nodeid we.1 = self;
  ev_cache : cache_ok (bw_block_cache we.1);
  ev_peers : peers_ok we.1;
  ev_event : match we.2 with
             | BePeerRequest _ request => sized_request request
             | BeLedgerResponse response => ledger_ok response
             | _ => True
             end;
}.

(** What is waited for was asked for. *)
Record run_inv (self : NodeId) past s : Prop := {
  ru_node : self_node_id s = self;
  ru_inv : bs_inv s;
  ru_quiet : bs_quiet s;
  ru_self : ∀ range, range ∈ outstanding s → BeSelfRequest (self_request_mode s) range ∈ past;
  ru_peers : ∀ node request, waiting s node request → BePeerRequest node request ∈ past;
}.

(** A range is emitted with its blocks to the one who asked for it; a response
    goes to a peer who asked for it, and its headers are those of the range. *)
Definition justified past (c : BlockSyncCommand) : Prop :=
  match c with
  | BcEmit requester range blocks => BeSelfRequest requester range ∈ past ∧ blocks_for range blocks
  | BcSendResponse to response =>
      BePeerRequest to (request_of response) ∈ past ∧
      match response with HeadersResponse (HrFound range headers) => headers_for range headers | _ => True end
  | _ => True
  end.

Lemma elem_of_emitted cmds requester range blocks : BcEmit requester range blocks ∈ cmds → range ∈ emitted cmds.
Proof. intros H. apply list_elem_of_omap. by exists (BcEmit requester range blocks). Qed.

Lemma elem_of_answered cmds to r : BcSendResponse to r ∈ cmds → (to, request_of r) ∈ answered cmds.
Proof. intros H. apply list_elem_of_omap. by exists (BcSendResponse to r). Qed.

Lemma justified_all past mode cmds : Forall (cmd_ok mode) cmds →
  (∀ range, range ∈ emitted cmds → BeSelfRequest mode range ∈ past) →
  (∀ node request, (node, request) ∈ answered cmds → BePeerRequest node request ∈ past) → Forall (justified past) cmds.
Proof.
  intros Hc He Ha. apply Forall_forall. intros c Hin. rewrite Forall_forall in Hc. specialize (Hc c Hin).
  destruct c as [| | |to r| | |requester range blocks]; try done.
  - split; [by apply Ha, elem_of_answered|]. destruct r as [[]|]; done.
  - destruct Hc as [-> Hb]. split; [|done]. by eapply He, elem_of_emitted.
Qed.

Lemma run_inv_keeps self past s s' cmds : run_inv self past s → bs_inv s' → bs_quiet s' → keeps s s' cmds →
  run_inv self past s' ∧ Forall (justified past) cmds.
Proof.
  intros [H1 H2 H3 H4 H5] Hi Hq [K1 K2 K3 K4 K5 K6 K7]. split.
  - split; try done; [congruence| |auto]. intros range Hr. rewrite K1. apply H4. rewrite K4. set_solver.
  - eapply justified_all; [done| |auto]. intros range Hr. apply H4. rewrite K4. set_solver.
Qed.

Lemma run_inv_more self past e s : run_inv self past s → run_inv self (past ++ [e]) s.
Proof. intros [H1 H2 H3 H4 H5]. split; try done; intros; apply elem_of_app; left; auto. Qed.

Lemma justified_more past past' cmds : Forall (justified past) cmds → Forall (justified (past ++ past')) cmds.
Proof.
  intros H. eapply Forall_impl; [exact H|]. intros [| | |to r| | |q range blocks]; try done; simpl; rewrite elem_of_app; tauto.
Qed.

(** ** The node's requests *)

Lemma clear_self_requests_ok s mode : bs_inv s →
  let s' := clear_self_requests s in
  let s' := {| s' with self_request_mode := mode |} in bs_inv s' ∧ bs_quiet s' ∧ outstanding s' = ∅.
Proof.
  intros [H1 H2 H3 H4 H5 H6 Hd H7 H8] s1 s'. split_and!; [split| |unfold outstanding; simpl; set_solver]; simpl; try done.
  - split; simpl; [done|by right].
Qed.

Lemma self_request_exists_true s range : self_request_exists s range = true ↔ range ∈ outstanding s.
Proof. unfold self_request_exists, outstanding. rewrite orb_true_iff, !bool_decide_eq_true, elem_of_union, !elem_of_dom. done. Qed.

Lemma handle_self_request_ok self past s requester range : run_inv self past s →
  run_inv self (past ++ [BeSelfRequest requester range]) (handle_self_request s requester range).1 ∧
  Forall (justified (past ++ [BeSelfRequest requester range])) (handle_self_request s requester range).2 ∧
  (br_num_blocks range ≠ 0 → range ∈ outstanding (handle_self_request s requester range).1 ∧
     self_request_mode (handle_self_request s requester range).1 = requester).
Proof.
  intros Hrun. unfold handle_self_request. case_bool_decide as Hn.
  { simpl. split_and!; [by apply run_inv_more|constructor|done]. }
  set (s1 := if bool_decide (requester ≠ self_request_mode s) then _ else s).
  assert (run_inv self past s1 ∧ self_request_mode s1 = requester) as [Hrun1 Hmode].
  { unfold s1. case_bool_decide as Hm; [|split; [done|]; destruct (decide (self_request_mode s = requester)); [done|by destruct Hm]].
    destruct Hrun as [H1 H2 H3 H4 H5]. destruct (clear_self_requests_ok s requester H2) as (Hi & Hq & Ho).
    split; [|done]. split; [done|done|done|rewrite Ho; set_solver|done]. }
  clearbody s1. destruct (self_request_exists s1 range) eqn:Hex; simpl.
  { apply self_request_exists_true in Hex. split_and!; [by apply run_inv_more|constructor|done]. }
  assert (range ∉ outstanding s1) as Hnin by (rewrite <- self_request_exists_true; congruence).
  pose proof (run_inv_more _ _ (BeSelfRequest requester range) _ Hrun1) as [H1 [I1 I2 I3 I4 I5 I6 Id I7 I8] [Q1 Q2] H4 H5].
  split_and!; [|apply Forall_singleton; done|].
  - split; try done; [split; try done; simpl|].
    + apply map_Forall_insert_2; [by split|done].
    + rewrite dom_insert_L. unfold outstanding in Hnin. set_solver.
    + intros r Hr. unfold outstanding in Hr. simpl in Hr. rewrite dom_insert_L in Hr.
      destruct (decide (r = range)) as [->|Hne]; [simpl; rewrite Hmode; set_solver|]. apply H4. unfold outstanding. set_solver.
  - intros _. split; [|done]. unfold outstanding. simpl. rewrite dom_insert_L. set_solver.
Qed.

Lemma cancel_entry_lookup {V} (f : V → BlockSyncSelfRequester) q range (m : gmap BlockRange V) r v :
  cancel_entry f q range m !! r = Some v → m !! r = Some v.
Proof.
  unfold cancel_entry. destruct (m !! range); [|done]. case_bool_decide; [|done]. by intros [_ ?]%lookup_delete_Some.
Qed.

Lemma cancel_entry_dom {V} (f : V → BlockSyncSelfRequester) q range (m : gmap BlockRange V) :
  dom (cancel_entry f q range m) ⊆ dom m.
Proof. intros r [v Hv]%elem_of_dom. apply elem_of_dom. exists v. by eapply cancel_entry_lookup. Qed.

Lemma handle_self_cancel_request_ok self past s requester range : run_inv self past s →
  run_inv self past (handle_self_cancel_request s requester range).
Proof.
  intros [H1 [I1 I2 I3 I4 I5 I6 Id I7 I8] [Q1 Q2] H4 H5].
  pose proof (cancel_entry_dom sr_requester requester range (self_headers_requests s)).
  pose proof (cancel_entry_dom ch_requester requester range (self_completed_headers_requests s)).
  split; try done; [split; try done; simpl|split; [|done]; simpl|].
  - intros r v Hv%cancel_entry_lookup. by apply I1.
  - intros r v Hv%cancel_entry_lookup. by apply I5.
  - intros r v h Hv%cancel_entry_lookup. by apply (I6 r).
  - set_solver.
  - intros r v Hv%cancel_entry_lookup. by apply Q1.
  - intros r Hr. apply H4. unfold outstanding in *. simpl in Hr. set_solver.
Qed.

(** The events after which a range that was asked for may be given up. *)
Definition withdraws (requester : BlockSyncSelfRequester) range e : Prop :=
  match e with
  | BeSelfCancelRequest q r => q = requester ∧ r = range
  | BeSelfRequest q r => q ≠ requester
  | _ => False
  end.

(** It is not given up: still waited for, or emitted. *)
Definition retained s s' cmds range : Prop :=
  (range ∈ outstanding s' ∧ self_request_mode s' = self_request_mode s) ∨
  ∃ blocks, BcEmit (self_request_mode s) range blocks ∈ cmds.

Lemma keeps_retained s s' cmds range : keeps s s' cmds → range ∈ outstanding s → retained s s' cmds range.
Proof.
  intros [K1 K2 K3 K4 K5 K6 K7] Hr. rewrite K4, elem_of_union, elem_of_list_to_set in Hr.
  destruct Hr as [Hr|Hr]; [by left|right]. apply list_elem_of_omap in Hr as (c & Hin & Hc).
  rewrite Forall_forall in K5. specialize (K5 c Hin). destruct c as [| | | | | |q r blocks]; try done.
  destruct K5 as [-> _]. injection Hc as ->. by exists blocks.
Qed.

Lemma handle_self_request_retained s requester r range : range ∈ outstanding s → requester = self_request_mode s →
  retained s (handle_self_request s requester r).1 (handle_self_request s requester r).2 range.
Proof.
  intros Hr ->. unfold handle_self_request. case_bool_decide; [by left|].
  rewrite bool_decide_eq_false_2 by tauto. destruct (self_request_exists s r); [by left|].
  left. split; [|done]. unfold outstanding in *. simpl. rewrite dom_insert_L. set_solver.
Qed.

Lemma cancel_entry_other {V} (f : V → BlockSyncSelfRequester) mode q r (m : gmap BlockRange V) range :
  map_Forall (λ _ v, f v = mode) m → ¬ (q = mode ∧ r = range) → range ∈ dom m → range ∈ dom (cancel_entry f q r m).
Proof.
  intros Hm Hne Hr. unfold cancel_entry. destruct (m !! r) as [v|] eqn:Hv; [|done].
  case_bool_decide as Hq; [|done]. specialize (Hm _ _ Hv). simpl in Hm. rewrite dom_delete_L.
  destruct (decide (r = range)) as [->|]; [exfalso; apply Hne; split; congruence|set_solver].
Qed.

Lemma handle_self_cancel_retained s q r range : bs_inv s → ¬ (q = self_request_mode s ∧ r = range) → range ∈ outstanding s →
  retained s (handle_self_cancel_request s q r) [] range.
Proof.
  intros Hi Hne. unfold retained, outstanding. rewrite !elem_of_union. intros Hr. left. split; [|done]. simpl.
  destruct Hr as [Hr|Hr]; [left|right]; (eapply cancel_entry_other; [|exact Hne|exact Hr]).
  - intros x v Hv. apply (bi_headers s Hi x v Hv).
  - intros x v Hv. apply (bi_completed s Hi x v Hv).
Qed.

(** ** Runs *)

Lemma block_sync_step_ok self past s w e : run_inv self past s → event_ok self (w, e) →
  ∃ s' cmds, block_sync_step w s e = Ret (s', cmds) ∧ run_inv self (past ++ [e]) s' ∧ Forall (justified (past ++ [e])) cmds ∧
    ∀ range, range ∈ outstanding s → ¬ withdraws (self_request_mode s) range e → retained s s' cmds range.
Proof.
  intros Hrun [E1 E2 E3 E4]. simpl in E1, E2, E3, E4. pose proof (run_inv_more _ _ e _ Hrun) as Hmore.
  pose proof Hrun as [H1 H2 H3 H4 H5]. assert (node_ok w s) as Hno by (split; [congruence|done|done]).
  assert (∀ m, step_ok s m bs_quiet → ∃ s' cmds, m = Ret (s', cmds) ∧ run_inv self (past ++ [e]) s' ∧
    Forall (justified (past ++ [e])) cmds ∧
    ∀ range, range ∈ outstanding s → ¬ withdraws (self_request_mode s) range e → retained s s' cmds range) as Hstep.
  { intros m (s' & cmds & -> & Hi & Hk & Hq). exists s', cmds. split; [done|].
    destruct (run_inv_keeps _ _ _ _ _ Hmore Hi Hq Hk). split_and!; [done|done|]. intros range Hr _. by apply keeps_retained. }
  destruct e as [requester range|requester range|sender request|response|sender [hr|pr]|request]; simpl.
  - destruct (handle_self_request s requester range) as [s' cmds] eqn:Hh. exists s', cmds. split; [done|].
    pose proof (handle_self_request_ok self past s requester range Hrun) as (Ha & Hb & _). rewrite Hh in Ha, Hb. split_and!; [done|done|].
    intros r Hr Hw. simpl in Hw. pose proof (handle_self_request_retained s requester range r Hr) as Hret. rewrite Hh in Hret.
    apply Hret. destruct (decide (requester = self_request_mode s)); [done|by destruct Hw].
  - eexists _, _. split; [done|]. split_and!; [by apply handle_self_cancel_request_ok|constructor|].
    intros r Hr Hw. by apply handle_self_cancel_retained.
  - destruct (handle_peer_request_ok w s sender request E2 E4 H2) as (s' & cmds & -> & [S1 S2 S3 S4 S5] & _).
    exists s', cmds. split; [done|]. split_and!.
    + pose proof (peers_only_quiet s s' S1 H3) as Hq. rewrite S1 in *. split; try done; [by apply Hmore|].
      intros node r Hw. apply elem_of_app. destruct (S5 node r (or_introl Hw)) as [Hw'|[-> ->]]; [left; auto|right; set_solver].
    + eapply justified_all; [exact S4|rewrite S3; set_solver|]. intros node r Ha. apply elem_of_app.
      destruct (S5 node r (or_intror Ha)) as [Hw'|[-> ->]]; [left; auto|right; set_solver].
    + intros r Hr _. rewrite S1. by left.
  - apply Hstep. destruct (handle_ledger_response_ok w s response Hno H2 H3 E4) as (s' & cmds & -> & Hi & Hk & Hq & _).
    by exists s', cmds.
  - apply Hstep. by apply handle_headers_response_ok.
  - apply Hstep. destruct (handle_payload_response_ok w s (Some sender) pr Hno H2 H3) as (s' & cmds & -> & Hi & Hk & Hq & _).
    by exists s', cmds.
  - apply Hstep. by apply handle_timeout_ok.
Qed.
Lemma block_sync_new_ok overrides self rng : run_inv self [] (block_sync_new overrides self rng).
Proof.
  split; [done| | | |].
  - split; try done; simpl. by intros [Hne _]%list_elem_of_filter.
  - split; [done|by right].
  - intros range. unfold outstanding. simpl. set_solver.
  - intros node [range|id]; simpl; [intros (r & m & c & Hm & _)|intros (m & Hm & _)]; by rewrite lookup_empty in Hm.
Qed.

Lemma block_sync_run_ok self past s events : run_inv self past s → Forall (event_ok self) events →
  ∃ s' cmds, block_sync_run s events = Ret (s', cmds) ∧ run_inv self (past ++ events.*2) s' ∧
    Forall (justified (past ++ events.*2)) cmds ∧
    ∀ range, range ∈ outstanding s → Forall (λ we, ¬ withdraws (self_request_mode s) range we.2) events →
      retained s s' cmds range.
Proof.
  intros Hrun He. revert past s Hrun. induction He as [|[w e] events He _ IH]; intros past s Hrun.
  { exists s, []. rewrite app_nil_r. split_and!; try done. intros range Hr _. by left. }
  destruct (block_sync_step_ok self past s w e Hrun He) as (s1 & c1 & H1 & Hrun1 & Hj1 & Hk1).
  destruct (IH _ _ Hrun1) as (s2 & c2 & H2 & Hrun2 & Hj2 & Hk2).
  cbn [block_sync_run]. rewrite H1. cbn [mbind outcome_bind]. rewrite H2. cbn [mbind outcome_bind].
  exists s2, (c1 ++ c2). rewrite fmap_cons, (cons_middle _ past), (assoc_L (++)). split_and!; [done|done| |].
  - apply Forall_app. split; [by apply justified_more|done].
  - intros range Hr [Hw Hws]%Forall_cons. destruct (Hk1 range Hr Hw) as [[Ho Hm]|(blocks & Hb)].
    + rewrite <- Hm in Hws. unfold retained. rewrite <- Hm. destruct (Hk2 range Ho Hws) as [|(blocks & Hb)]; [by left|].
      right. exists blocks. set_solver.
    + right. exists blocks. set_solver.
Qed.
Lemma block_sync_run_app s l1 l2 : block_sync_run s (l1 ++ l2) =
  '(s1, c1) ← block_sync_run s l1; '(s2, c2) ← block_sync_run s1 l2; Ret (s2, c1 ++ c2).
Proof.
  revert s. induction l1 as [|[w e] l1 IH]; intros s; cbn [app block_sync_run mbind outcome_bind].
  { by destruct (block_sync_run s l2) as [[s2 c2]| |]. }
  destruct (block_sync_step w s e) as [[s1 c1]| |]; [|done..]. cbn [mbind outcome_bind]. rewrite IH.
  destruct (block_sync_run s1 l1) as [[s2 c2]| |]; [|done..]. cbn [mbind outcome_bind].
  destruct (block_sync_run s2 l2) as [[s3 c3]| |]; [|done..]. cbn [mbind outcome_bind]. by rewrite (assoc_L (++)).
Qed.

(** ** The payloads come *)

Lemma some_initiated s : bs_inv s → bs_quiet s → self_payload_requests s ≠ ∅ →
  ∃ id r, self_payload_requests s !! id = Some (Some r).
Proof.
  intros Hi [_ Hq] Hne. assert (initiated (self_payload_requests s) ≠ ∅) as (id & o & Ho)%map_choose.
  { destruct Hq as [Hq|Hq]; [|by rewrite initiated_all]. rewrite (bi_in_flight s Hi) in Hq.
    intros H0. rewrite H0, map_size_empty in Hq. done. }
  apply map_lookup_filter_Some in Ho as [Ho Hs]. destruct o as [r|]; [by exists id, r|done].
Qed.

Lemma nothing_missing s : bs_inv s → bs_quiet s → self_payload_requests s = ∅ → self_completed_headers_requests s = ∅.
Proof.
  intros Hi [Hq _] H0. apply map_eq. intros range. rewrite lookup_empty. apply eq_None_not_Some. intros [ch Hch].
  specialize (Hq range ch Hch). simpl in Hq. apply not_true_iff_false in Hq. apply Hq. apply forallb_forall.
  intros [h o] Hin%list_elem_of_In. apply bool_decide_eq_true. destruct o as [body|]; [by eexists|].
  destruct (bi_missing s Hi range ch h Hch Hin) as [r Hr]. by rewrite H0, lookup_empty in Hr.
Qed.

Lemma drain_ok w sender (bodies : N → ConsensusBlockBody) n s : (size (self_payload_requests s) ≤ n)%nat →
  node_ok w s → bs_inv s → bs_quiet s → (∀ id, id ∈ dom (self_payload_requests s) → body_get_id (bodies id) = id) →
  ∃ ids s' cmds, block_sync_run s ((λ id, (w, BePeerResponse sender (PayloadResponse (BrFound (bodies id))))) <$> ids) =
      Ret (s', cmds) ∧ (length ids ≤ n)%nat ∧ keeps s s' cmds ∧ self_payload_requests s' = ∅ ∧
    self_completed_headers_requests s' = ∅.
Proof.
  revert s. induction n as [|n IH]; intros s Hn Hno Hi Hq Hb.
  { exists [], s, []. assert (self_payload_requests s = ∅) as H0 by (apply map_size_empty_iff; lia).
    split_and!; [done|done|apply keeps_refl|done|by apply nothing_missing]. }
  destruct (decide (self_payload_requests s = ∅)) as [H0|Hne].
  { exists [], s, []. split_and!; [done|simpl; lia|apply keeps_refl|done|by apply nothing_missing]. }
  destruct (some_initiated s Hi Hq Hne) as (id & r & Hid). assert (body_get_id (bodies id) = id) as Hbid.
  { apply Hb. by eapply elem_of_dom_2. }
  destruct (handle_payload_response_ok w s (Some sender) (BrFound (bodies id)) Hno Hi Hq)
    as (s1 & c1 & H1 & Hi1 & Hk1 & Hq1 & Hd1 & Hx1).
  specialize (Hx1 _ r eq_refl). rewrite Hbid in Hx1. specialize (Hx1 Hid).
  destruct (IH s1) as (ids & s2 & c2 & H2 & Hl2 & Hk2 & He & Hc); [|destruct Hno; split; [|done..]; by rewrite (kp_node _ _ _ Hk1)|done|done| |].
  { assert (dom (self_payload_requests s1) ⊂ dom (self_payload_requests s)) as Hlt%subset_size.
    { apply elem_of_dom_2 in Hid. set_solver. }
    rewrite !size_dom in Hlt. lia. }
  { intros id' Hid'. apply Hb. set_solver. }
  exists (id :: ids), s2, (c1 ++ c2). rewrite fmap_cons. cbn [block_sync_run block_sync_step handle_peer_response].
  rewrite H1. cbn [mbind outcome_bind]. rewrite H2. split_and!; [done|simpl; lia|by eapply keeps_trans|done|done].
Qed.

(** C11. Whatever peers send, block sync does not panic; every range it emits was
    asked for by the one it is emitted to, is a chain of as many blocks as
    asked for that ends in the block asked for, and the bodies are those of
    the headers. Every response to a peer answers a request of that peer, and
    headers in it are those of the range. *)
Theorem block_sync_sound overrides self rng events : Forall (event_ok self) events →
  ∃ s cmds, block_sync_run (block_sync_new overrides self rng) events = Ret (s, cmds) ∧
    (∀ requester range blocks, BcEmit requester range blocks ∈ cmds →
       BeSelfRequest requester range ∈ events.*2 ∧ headers_for range (fb_header <$> blocks) ∧
       ∀ b, b ∈ blocks → body_get_id (fb_body b) = bh_block_body_id (fb_header b)) ∧
    (∀ to response, BcSendResponse to response ∈ cmds → BePeerRequest to (request_of response) ∈ events.*2) ∧
    (∀ to range headers, BcSendResponse to (HeadersResponse (HrFound range headers)) ∈ cmds →
       verify_block_headers range headers = Ret true).
Proof.
  intros He. destruct (block_sync_run_ok self [] _ events (block_sync_new_ok overrides self rng) He)
    as (s & cmds & Hrun & _ & Hj & _). exists s, cmds. rewrite Forall_forall in Hj. split_and!; [done|..].
  - intros requester range blocks Hin. destruct (Hj _ Hin) as [Hreq [Hh Hb]]. rewrite Forall_forall in Hb. done.
  - intros to response Hin. apply (Hj _ Hin).
  - intros to range headers Hin. apply headers_for_verify. apply (Hj _ Hin).
Qed.

(** C26. A range that consensus or state sync asks for is waited for or has been
    emitted, until the requester cancels it or the other one takes over. *)
Theorem requests_are_not_lost overrides self rng before w requester range after :
  Forall (event_ok self) (before ++ (w, BeSelfRequest requester range) :: after) → br_num_blocks range ≠ 0 →
  Forall (λ we, ¬ withdraws requester range we.2) after →
  ∃ s cmds, block_sync_run (block_sync_new overrides self rng) (before ++ (w, BeSelfRequest requester range) :: after) =
      Ret (s, cmds) ∧
    (is_Some (self_headers_requests s !! range) ∨ is_Some (self_completed_headers_requests s !! range) ∨
     ∃ blocks, BcEmit requester range blocks ∈ cmds).
Proof.
  intros [He1 [Hw He2]%Forall_cons]%Forall_app Hn Hwd. rewrite block_sync_run_app.
  destruct (block_sync_run_ok self [] _ before (block_sync_new_ok overrides self rng) He1) as (s1 & c1 & -> & Hrun1 & _ & _).
  cbn [block_sync_run block_sync_step mbind outcome_bind].
  destruct (handle_self_request_ok self _ s1 requester range Hrun1) as (Hrun2 & _ & Ho). destruct (Ho Hn) as [Hout Hmode].
  destruct (handle_self_request s1 requester range) as [s2 c2]. simpl in Hrun2, Hout, Hmode.
  destruct (block_sync_run_ok self _ s2 after Hrun2 He2) as (s3 & c3 & -> & _ & _ & Hret). cbn [mbind outcome_bind].
  eexists _, _. split; [done|]. rewrite <- Hmode in Hwd. destruct (Hret range Hout Hwd) as [[Hr _]|(blocks & Hb)].
  - unfold outstanding in Hr. rewrite elem_of_union, !elem_of_dom in Hr. tauto.
  - right. right. exists blocks. rewrite Hmode in Hb. set_solver.
Qed.

(** C12. The payloads of the ranges whose headers are there can be fetched in
    turn: in every state that is reached, if a peer answers the payload
    requests that are under way, at most one answer for each payload requested
    is needed, no payload request is left, and all these ranges are emitted
    with their blocks. *)
Theorem payload_requests_drain overrides self rng events s cmds w sender bodies :
  Forall (event_ok self) events → block_sync_run (block_sync_new overrides self rng) events = Ret (s, cmds) →
  event_ok self (w, BeTimeout (BsPayload 0)) →
  (∀ id, id ∈ dom (self_payload_requests s) → body_get_id (bodies id) = id) →
  ∃ ids s' cmds', block_sync_run s ((λ id, (w, BePeerResponse sender (PayloadResponse (BrFound (bodies id))))) <$> ids) =
      Ret (s', cmds') ∧ (length ids ≤ size (self_payload_requests s))%nat ∧
    self_payload_requests s' = ∅ ∧ self_completed_headers_requests s' = ∅ ∧
    ∀ range, is_Some (self_completed_headers_requests s !! range) →
      ∃ blocks, BcEmit (self_request_mode s) range blocks ∈ cmds' ∧ blocks_for range blocks.
Proof.
  intros He Hrun [W1 W2 W3 _] Hb.
  destruct (block_sync_run_ok self [] _ events (block_sync_new_ok overrides self rng) He) as (s0 & c0 & Hrun0 & [R1 R2 R3 _ _] & _ & _).
  rewrite Hrun in Hrun0. injection Hrun0 as <- <-.
  destruct (drain_ok w sender bodies (size (self_payload_requests s)) s) as (ids & s' & cmds' & H1 & H2 & Hk & H3 & H4);
    [done|split; [by rewrite R1|done|done]|done|done|done|].
  exists ids, s', cmds'. split_and!; [done|done|done|done|]. intros range Hr%elem_of_dom.
  assert (range ∈ outstanding s) as Ho by (unfold outstanding; set_solver).
  destruct (keeps_retained s s' cmds' range Hk Ho) as [[Hin _]|(blocks & Hin)].
  - exfalso. unfold outstanding in Hin. rewrite H4, dom_empty_L in Hin. pose proof (kp_headers _ _ _ Hk).
    pose proof (bi_disjoint s R2). set_solver.
  - exists blocks. split; [done|]. pose proof (kp_cmds _ _ _ Hk) as Hc. rewrite Forall_forall in Hc. apply (Hc _ Hin).
Qed.

(** A request of a peer for a range that is not empty, or for a payload, is
    answered at once, or by the next response of the ledger to the fetch that
    the request starts. *)
Theorem peer_requests_are_served overrides self rng events s cmds w sender request :
  Forall (event_ok self) events → block_sync_run (block_sync_new overrides self rng) events = Ret (s, cmds) →
  event_ok self (w, BePeerRequest sender request) → ¬ empty_request request →
  ∃ s' cmds', block_sync_step w s (BePeerRequest sender request) = Ret (s', cmds') ∧
    ((sender, request) ∈ answered cmds' ∨
     ∃ fetch, fetch_command fetch ∈ cmds' ∧ ∀ w' response, event_ok self (w', BeLedgerResponse response) →
       request_of response = fetch →
       ∃ s'' cmds'', block_sync_step w' s' (BeLedgerResponse response) = Ret (s'', cmds'') ∧ (sender, request) ∈ answered cmds'').
Proof.
  intros He Hrun Hw Hne.
  destruct (block_sync_run_ok self [] _ events (block_sync_new_ok overrides self rng) He) as (s0 & c0 & Hrun0 & Hr & _ & _).
  rewrite Hrun in Hrun0. injection Hrun0 as <- <-.
  destruct (block_sync_step_ok self _ s w _ Hr Hw) as (s' & cmds' & Hs & Hr' & _ & _). pose proof Hw as [W1 W2 W3 W4].
  destruct (handle_peer_request_ok w s sender request W2 W4 (ru_inv _ _ _ Hr)) as (s1 & c1 & Hs1 & _ & Hor).
  simpl in Hs. rewrite Hs in Hs1. injection Hs1 as <- <-. exists s', cmds'. split; [done|].
  destruct (Hor Hne) as [Ha|(fetch & Hf & Hwait)]; [by left|right]. exists fetch. split; [done|].
  intros w' response [V1 V2 V3 V4] Hreq. destruct Hr' as [R1 R2 R3 _ _].
  destruct (handle_ledger_response_ok w' s' response) as (s2 & c2 & Hs2 & _ & _ & _ & Hans);
    [split; [by rewrite R1|done|done]|done|done|done|].
  exists s2, c2. split; [done|]. by apply Hans, Hwait.
Qed.
End correct.
