(* ===== verification/BlockSyncExamples.v ===== *)
(** * Block sync: examples

    A node fetches a range of three blocks from a peer, after the ledger had
    no answer and a forged one was refused, and serves peers from its block
    tree. *)
From S2P Require Import Prelude Types Interfaces MultiSig Certificates Concrete ValidatorSet Epochs Leader Messages BlockTree BlockTreeProps BlockTreeCorrect BlockSync BlockSyncProps BlockSyncSteps BlockSyncServe BlockSyncCorrect.
#[local] Open Scope N_scope.

Module BlockSyncExample.
Import ToyInstances.
#[export] Instance toy_sync_rng : SyncRng := {| Rng := N; rng_choose := λ _ r, (0%nat, r); rng_draw := λ r, (0, r); rng_fuel := 1 |}.
#[export] Instance toy_sync_rng_laws : SyncRngLaws toy_sync_rng.
Proof. split; [done|]. intros rng. exists 0%nat. split; [simpl; lia|]. by vm_compute. Qed.

Definition toy_self : @NodeId toy_params := 1.
Definition toy_peer : @NodeId toy_params := 2.
Definition toy_sync_wrapper (cache : BlockCache) : BlockSyncWrapper := mkBlockSyncWrapper cache toy_self 1 toy_vem ∅.
Definition toy_buffer : BlockSyncWrapper := toy_sync_wrapper (CacheBlockBuffer ∅).
Definition toy_tree_cache : BlockSyncWrapper := toy_sync_wrapper (CacheBlockTree toy_tree).

Definition toy_range : BlockRange := mkBlockRange (get_id toy_h3) 3.
Definition toy_payload : ConsensusBlockBody := mkBody (0 : @ExecutionBody toy_params).
Definition toy_payload_id : N := body_get_id toy_payload.

Definition toy_requests : list (BlockSyncWrapper * BlockSyncEvent) :=
  [(toy_buffer, BeSelfRequest BsConsensus toy_range);
   (toy_buffer, BeLedgerResponse (HeadersResponse (HrNotAvailable toy_range)));
   (toy_buffer, BePeerResponse toy_peer (HeadersResponse (HrFound toy_range [toy_h1; toy_h3; toy_h2])));
   (toy_buffer, BeTimeout (BsHeaders toy_range));
   (toy_buffer, BePeerResponse toy_peer (HeadersResponse (HrFound toy_range [toy_h1; toy_h2; toy_h3])));
   (toy_buffer, BeLedgerResponse (PayloadResponse (BrNotAvailable toy_payload_id)))].
Definition toy_sync_events : list (BlockSyncWrapper * BlockSyncEvent) :=
  toy_requests ++
  [(toy_buffer, BePeerResponse toy_peer (PayloadResponse (BrFound toy_payload)));
   (toy_tree_cache, BePeerRequest toy_peer (BsHeaders (mkBlockRange (get_id toy_h3) 2)));
   (toy_tree_cache, BePeerRequest toy_peer (BsPayload toy_payload_id));
   (toy_tree_cache, BeSelfCancelRequest BsStateSync toy_range)].

Definition toy_sync : BlockSync := block_sync_new [] toy_self (0 : @Rng toy_sync_rng).

Lemma toy_tree_cache_ok : cache_ok (CacheBlockTree toy_tree).
Proof.
  apply (tree_cache_ok toy_valid toy_valid_headers); [exact toy_tree_wf|]. intros id body.
  assert (bi_body <$> tr_payloads (bt_tree toy_tree) = {[toy_payload_id := toy_payload]}) as H by vm_refl.
  unfold get_payload. rewrite <- lookup_fmap, H. by intros [<- <-]%lookup_singleton_Some.
Qed.

Lemma toy_peers_ok cache : peers_ok (toy_sync_wrapper cache).
Proof.
  exists toy_vs. split; [vm_refl|]. split; [exact toy_vs_wf|]. exists toy_peer. split; [discriminate|].
  apply (bool_decide_unpack _). by vm_compute.
Qed.

Lemma toy_event_ok cache e : cache_ok cache →
  match e with BePeerRequest _ request => sized_request request | BeLedgerResponse response => ledger_ok response | _ => True end →
  event_ok toy_self (toy_sync_wrapper cache, e).
Proof. intros Hc He. split; [done|done|apply toy_peers_ok|done]. Qed.

Lemma toy_events_ok : Forall (event_ok toy_self) toy_sync_events.
Proof.
  unfold toy_sync_events, toy_requests. cbn [app]. repeat (apply Forall_cons; split); [..|apply Forall_nil_2];
    (apply toy_event_ok; [exact toy_tree_cache_ok || done|done || by vm_compute]).
Qed.

Lemma toy_requests_ok : Forall (event_ok toy_self) toy_requests.
Proof. exact (proj1 (proj1 (Forall_app _ _ _) toy_events_ok)). Qed.

Definition toy_sync_result : BlockSync * list BlockSyncCommand := ret_or (toy_sync, []) (block_sync_run toy_sync toy_sync_events).
Definition toy_pending : BlockSync * list BlockSyncCommand := ret_or (toy_sync, []) (block_sync_run toy_sync toy_requests).

(** The range is emitted to consensus; its headers verify. *)
Lemma block_sync_sound_witness :
  BeSelfRequest BsConsensus toy_range ∈ toy_sync_events.*2 ∧
  headers_for toy_range (fb_header <$> [toy_block toy_h1; toy_block toy_h2; toy_block toy_h3]) ∧
  BePeerRequest toy_peer (BsHeaders (mkBlockRange (get_id toy_h3) 2)) ∈ toy_sync_events.*2.
Proof.
  destruct (block_sync_sound [] toy_self (0 : @Rng toy_sync_rng) toy_sync_events toy_events_ok) as (s & cmds & Hrun & Hemit & Hresp & _).
  assert (cmds = toy_sync_result.2) as Hc.
  { unfold toy_sync_result, toy_sync. by rewrite Hrun. }
  destruct (Hemit BsConsensus toy_range [toy_block toy_h1; toy_block toy_h2; toy_block toy_h3]) as (H1 & H2 & _).
  { rewrite Hc. apply (list_elem_of_lookup_2 _ 10). vm_refl. }
  split; [exact H1|]. split; [exact H2|].
  apply (Hresp toy_peer (HeadersResponse (HrFound (mkBlockRange (get_id toy_h3) 2) [toy_h2; toy_h3]))).
  rewrite Hc. apply (list_elem_of_lookup_2 _ 11). vm_refl.
Defined.

(** The range that consensus asked for has been emitted at the end. *)
Lemma requests_are_not_lost_witness : ∃ s cmds, block_sync_run toy_sync toy_sync_events = Ret (s, cmds) ∧
  (is_Some (self_headers_requests s !! toy_range) ∨ is_Some (self_completed_headers_requests s !! toy_range) ∨
   ∃ blocks, BcEmit BsConsensus toy_range blocks ∈ cmds).
Proof.
  apply (requests_are_not_lost [] toy_self (0 : @Rng toy_sync_rng) [] toy_buffer BsConsensus toy_range (tail toy_sync_events)).
  - exact toy_events_ok.
  - discriminate.
  - unfold toy_sync_events, toy_requests. cbn [app tail]. repeat (apply Forall_cons; split); [..|apply Forall_nil_2];
      simpl; (tauto || by intros [? _]).
Defined.

(** One answer is left to come. *)
Lemma payload_requests_drain_witness : ∃ ids s' cmds',
  block_sync_run toy_pending.1 ((λ id : N, (toy_buffer, BePeerResponse toy_peer (PayloadResponse (BrFound toy_payload)))) <$> ids) =
    Ret (s', cmds') ∧ (length ids ≤ 1)%nat ∧
  ∃ blocks, BcEmit BsConsensus toy_range blocks ∈ cmds' ∧ blocks_for toy_range blocks.
Proof.
  destruct (payload_requests_drain [] toy_self (0 : @Rng toy_sync_rng) toy_requests toy_pending.1 toy_pending.2 toy_buffer toy_peer
    (λ _, toy_payload)) as (ids & s' & cmds' & Hrun & Hlen & _ & _ & Hemit).
  - exact toy_requests_ok.
  - rewrite (returns_ret (toy_sync, []) (block_sync_run _ toy_requests)) by vm_refl. by rewrite <- surjective_pairing.
  - by apply toy_event_ok.
  - intros id Hid. assert (dom (self_payload_requests toy_pending.1) = {[toy_payload_id]}) as Hd by vm_refl.
    rewrite Hd in Hid. symmetry. exact (proj1 (elem_of_singleton id toy_payload_id) Hid).
  - exists ids, s', cmds'. split; [exact Hrun|]. split; [exact Hlen|]. apply Hemit. apply (bool_decide_unpack _). by vm_compute.
Defined.

(** A peer asks for one block more than the tree has. *)
Lemma peer_requests_are_served_witness : ∃ s' cmds',
  block_sync_step toy_tree_cache toy_sync (BePeerRequest toy_peer (BsHeaders (mkBlockRange (get_id toy_h3) 4))) = Ret (s', cmds') ∧
  ((toy_peer, BsHeaders (mkBlockRange (get_id toy_h3) 4)) ∈ answered cmds' ∨ ∃ fetch, fetch_command fetch ∈ cmds').
Proof.
  destruct (peer_requests_are_served [] toy_self (0 : @Rng toy_sync_rng) [] toy_sync [] toy_tree_cache toy_peer
    (BsHeaders (mkBlockRange (get_id toy_h3) 4))) as (s' & cmds' & Hs & Hor).
  - apply Forall_nil_2.
  - reflexivity.
  - apply toy_event_ok; [exact toy_tree_cache_ok|by vm_compute].
  - by vm_compute.
  - exists s', cmds'. split; [exact Hs|]. destruct Hor as [Ha|(fetch & Hf & _)]; [by left|right; by exists fetch].
Defined.
End BlockSyncExample.
