(* ===== verification/EthTypes.v ===== *)
(** * Ethereum payloads (monad-eth-types, and the alloy crates)

    Transactions, headers and authorizations are types of the third-party
    alloy crates: [Alloy] holds the transaction type with the accessors the
    source calls, the recovery of signers, the trie root and the signing of
    system transactions. [EthProtocol] fixes the execution protocol of the
    consensus types to Ethereum ([EthExecutionProtocol]): proposed headers,
    block bodies and finalized headers are the ones below. *)
From S2P Require Import Prelude Types Interfaces MultiSig Certificates Concrete BlockTree.

(** [Address], 160 bits; [U256]; [B256]. *)
Notation Address := N (only parsing).
Notation Balance := N (only parsing).
Notation Nonce := N (only parsing).
Notation B256 := N (only parsing).

(** The variants of [TxEnvelope]. *)
Inductive TxType := TtLegacy | TtEip2930 | TtEip1559 | TtEip4844 | TtEip7702.
#[global] Instance TxType_eq_dec : EqDecision TxType.
Proof. solve_decision. Defined.

Inductive TxKind := Create | Call (a : Address).
Definition is_create (k : TxKind) : bool := match k with Create => true | Call _ => false end.

(** The fields of [TxLegacy]. *)
Record TxLegacy := mkTxLegacy {
  tl_chain_id : option N;
  tl_nonce : Nonce;
  tl_gas_price : N;
  tl_gas_limit : N;
  tl_to : TxKind;
  tl_value : N;
  tl_input : bytes;
}.

(** EIP-7702: [Authorization]. *)
Record Authorization := mkAuthorization { au_chain_id : N; au_address : Address; au_nonce : Nonce }.

Class Alloy := {
  TxEnvelope : Type;
  TxEnvelope_eq_dec :: EqDecision TxEnvelope;
  tx_type : TxEnvelope → TxType;
  tx_chain_id : TxEnvelope → option N;
  tx_nonce : TxEnvelope → Nonce;
  tx_gas_limit : TxEnvelope → N;
  tx_gas_price : TxEnvelope → option N;
  tx_max_fee_per_gas : TxEnvelope → N;
  tx_max_priority_fee_per_gas : TxEnvelope → option N;
  tx_kind : TxEnvelope → TxKind;
  tx_value : TxEnvelope → N;
  tx_input : TxEnvelope → bytes;
  (** Each item of the list is an address with its storage keys. *)
  tx_access_list : TxEnvelope → option (list (Address * list B256));
  (** [signature().normalize_s().is_some()]: [s] is in the upper half. *)
  tx_high_s : TxEnvelope → bool;
  (** [Encodable::length]. *)
  tx_length : TxEnvelope → N;
  (** [RecoverableAddress::secp256k1_recover]. *)
  tx_recover : TxEnvelope → option Address;
  (** The list of [as_eip7702().tx()], also [authorization_list()]. *)
  SignedAuthorization : Type;
  tx_authorization_list : TxEnvelope → option (list SignedAuthorization);
  sa_inner : SignedAuthorization → Authorization;
  sa_recover_authority : SignedAuthorization → option Address;
  (** [into_signed] with a signature by [SYSTEM_SENDER_PRIV_KEY]. *)
  sign_legacy : TxLegacy → TxEnvelope;
  (** [SolValue::abi_encode] of an address and of a [u64]. *)
  abi_encode_address : Address → bytes;
  abi_encode_u64 : N → bytes;
  calculate_transaction_root : list TxEnvelope → B256;
  EMPTY_OMMER_ROOT_HASH : B256;
  EMPTY_WITHDRAWALS : B256;
  (** [Header], of which consensus compares whole values. *)
  EthHeader : Type;
  EthHeader_eq_dec :: EqDecision EthHeader;
}.

(** [Transaction::to]. *)
Definition tx_to `{Alloy} (tx : TxEnvelope) : option Address :=
  match tx_kind tx with Create => None | Call a => Some a end.

(** The widths of the integer types the accessors return. *)
Class AlloyWidths (A : Alloy) : Prop := {
  tx_nonce_u64 : ∀ tx, tx_nonce tx ≤ u64_MAX;
  tx_gas_limit_u64 : ∀ tx, tx_gas_limit tx ≤ u64_MAX;
  tx_max_fee_u128 : ∀ tx, tx_max_fee_per_gas tx ≤ u128_MAX;
  tx_value_u256 : ∀ tx, tx_value tx ≤ U256_MAX;
}.

(** [RecoveredAuthorization]: the tuple with the address that signed it. *)
Record RecoveredAuthorization := mkRecoveredAuthorization {
  ra_inner : Authorization;
  ra_authority : option Address;
}.

(** ** monad-eth-types/src/lib.rs *)

Record EthAccount := mkEthAccount {
  ac_nonce : Nonce;
  ac_balance : Balance;
  ac_code_hash : option B256;
  ac_is_delegated : bool;
}.

Record ProposedEthHeader := mkProposedEthHeader {
  ph_ommers_hash : B256;
  ph_beneficiary : Address;
  ph_transactions_root : B256;
  ph_difficulty : N;
  ph_number : N;
  ph_gas_limit : N;
  ph_timestamp : N;
  ph_extra_data : B256;
  ph_mix_hash : B256;
  ph_nonce : N;
  ph_base_fee_per_gas : N;
  ph_withdrawals_root : B256;
  ph_blob_gas_used : N;
  ph_excess_blob_gas : N;
  ph_parent_beacon_block_root : B256;
  ph_requests_hash : option B256;
}.
#[global] Instance ProposedEthHeader_eq_dec : EqDecision ProposedEthHeader.
Proof. solve_decision. Defined.

Section eth_types.
Context {A : Alloy}.

(** [Ommer] and [Withdrawal] are empty structs. *)
Record EthBlockBody := mkEthBlockBody {
  eb_transactions : list TxEnvelope;
  eb_ommers : list unit;
  eb_withdrawals : list unit;
}.
#[global] Instance EthBlockBody_eq_dec : EqDecision EthBlockBody.
Proof. solve_decision. Defined.

(** [Recovered<TxEnvelope>]. *)
Record RecoveredTx := mkRecoveredTx { rt_inner : TxEnvelope; rt_signer : Address }.

Record ValidatedTx := mkValidatedTx {
  vt_tx : RecoveredTx;
  vt_authorizations_7702 : list RecoveredAuthorization;
}.

(** The accessors of the transaction a validated one dereferences to. *)
Definition vt_env (t : ValidatedTx) : TxEnvelope := rt_inner (vt_tx t).
Definition vt_signer (t : ValidatedTx) : Address := rt_signer (vt_tx t).
Definition vt_nonce (t : ValidatedTx) : Nonce := tx_nonce (vt_env t).
Definition vt_authorities (t : ValidatedTx) : list Address := omap ra_authority (vt_authorizations_7702 t).
End eth_types.

(** [EthExecutionProtocol]: the generic parameters of consensus with the
    execution protocol fixed, and [ExtractEthAddress] of the node keys. *)
Class EthProtocol := {
  eth_alloy :: Alloy;
  eth_generic : Params;
  get_eth_address : @NodeId eth_generic → Address;
}.

#[global] Instance EthParams `{E : EthProtocol} : Params := {|
  NodeId := @NodeId eth_generic;
  NodeId_order := @NodeId_order eth_generic;
  CertPubKey := @CertPubKey eth_generic;
  Signature := @Signature eth_generic;
  CertKeyPair := @CertKeyPair eth_generic;
  AuthorKeyPair := @AuthorKeyPair eth_generic;
  SigCol := @SigCol eth_generic;
  SigCol_eq_dec := @SigCol_eq_dec eth_generic;
  AuthorSignature := @AuthorSignature eth_generic;
  AuthorSignature_eq_dec := @AuthorSignature_eq_dec eth_generic;
  FinalizedHeader := EthHeader;
  ProposedHeader := ProposedEthHeader;
  ExecutionBody := EthBlockBody;
|}.

(** ** monad-state-backend/src/lib.rs: the operations the policy calls *)
Class EthStateBackend `{A : Alloy} (SB : Type) := {
  sb_get_account_statuses : SB → BlockId → SeqNum → bool → list Address →
    result StateBackendError (list (option EthAccount));
  sb_get_execution_result : SB → BlockId → SeqNum → bool → result StateBackendError EthHeader;
}.
