(* ===== verification/ToyEth.v ===== *)
(** * A concrete instance of the Ethereum types

    A transaction is a record of what its accessors return, signed by the
    address it names; headers are numbers. The definitions of the block
    validator and the block policy evaluate at this instance. *)
From S2P Require Import Prelude Types ChainConfig Interfaces MultiSig Certificates Concrete BlockTree EthTypes.

#[global] Instance TxKind_eq_dec : EqDecision TxKind.
Proof. solve_decision. Defined.
#[global] Instance Authorization_eq_dec : EqDecision Authorization.
Proof. solve_decision. Defined.

Record ToyTx := mkToyTx {
  tt_type : TxType;
  tt_legacy : TxLegacy;
  tt_max_fee : N;
  tt_auths : list (Authorization * Address);
  tt_signer : option Address;
}.

#[global] Instance TxLegacy_eq_dec : EqDecision TxLegacy.
Proof. solve_decision. Defined.
#[global] Instance ToyTx_eq_dec : EqDecision ToyTx.
Proof. solve_decision. Defined.

Definition toy_alloy : Alloy := {|
  TxEnvelope := ToyTx;
  tx_type := tt_type;
  tx_chain_id := λ t, tl_chain_id (tt_legacy t);
  tx_nonce := λ t, N.min (tl_nonce (tt_legacy t)) u64_MAX;
  tx_gas_limit := λ t, N.min (tl_gas_limit (tt_legacy t)) u64_MAX;
  tx_gas_price := λ t, match tt_type t with TtLegacy | TtEip2930 => Some (tl_gas_price (tt_legacy t)) | _ => None end;
  tx_max_fee_per_gas := λ t, N.min (tt_max_fee t) u128_MAX;
  tx_max_priority_fee_per_gas := λ t,
    match tt_type t with TtLegacy | TtEip2930 => None | _ => Some (tl_gas_price (tt_legacy t)) end;
  tx_kind := λ t, tl_to (tt_legacy t);
  tx_value := λ t, N.min (tl_value (tt_legacy t)) U256_MAX;
  tx_input := λ t, tl_input (tt_legacy t);
  tx_access_list := λ _, None;
  tx_high_s := λ _, false;
  tx_length := λ t, 100 + N.of_nat (length (tl_input (tt_legacy t)));
  tx_recover := tt_signer;
  SignedAuthorization := Authorization * N;
  tx_authorization_list := λ t, match tt_type t with TtEip7702 => Some (tt_auths t) | _ => None end;
  sa_inner := fst;
  sa_recover_authority := λ a, Some a.2;
  sign_legacy := λ l, mkToyTx TtLegacy l (tl_gas_price l) [] (Some 0x6f49a8F621353f12378d0046E7d7e4b9B249DC9e);
  abi_encode_address := λ a, toy_enc a;
  abi_encode_u64 := λ n, toy_enc n;
  calculate_transaction_root := λ l, N.of_nat (length l);
  EMPTY_OMMER_ROOT_HASH := 1;
  EMPTY_WITHDRAWALS := 2;
  EthHeader := N;
|}.

Lemma toy_widths : AlloyWidths toy_alloy.
Proof. split; intros t; simpl; lia. Qed.

(** A transfer with a plain fee, and one with authorizations. *)
Definition toy_transfer (from to nonce value gas price : N) : ToyTx :=
  mkToyTx TtLegacy (mkTxLegacy (Some 20143) nonce price gas (Call to) value []) price [] (Some from).
Definition toy_set_code (from to nonce value gas price : N) (auths : list (N * N)) : ToyTx :=
  mkToyTx TtEip7702 (mkTxLegacy (Some 20143) nonce 0 gas (Call to) value []) price
    ((λ p, (mkAuthorization 20143 7 p.2, p.1)) <$> auths) (Some from).

#[local] Existing Instance toy_alloy.

Definition toy_eth : EthProtocol := {|
  eth_alloy := toy_alloy;
  eth_generic := toy_params;
  get_eth_address := λ n : N, n;
|}.

(** Headers are told apart by round, parent, sequence number and body. *)
Definition toy_eth_codec : @Codec (@EthParams toy_eth) :=
  @Build_Codec (@EthParams toy_eth) (λ r, toy_enc_list [r])
    (λ v, toy_enc_list [vote_id v; vote_round v; vote_epoch v])
    (λ t, toy_enc_list [ti_epoch t; ti_round t; ti_high_qc_round t; ti_high_tip_round t])
    (λ n, toy_enc_list [ne_epoch n; ne_round n; ne_tip_qc_round n])
    (λ h, toy_enc_list [bh_block_round h; bh_epoch h; vote_id (qc_info (bh_qc h)); bh_seq_num h; bh_timestamp_ns h;
                        bh_block_body_id h; bh_base_fee h; bh_base_fee_trend h; bh_base_fee_moment h])
    (λ b, toy_enc_list ((λ t : ToyTx, tl_nonce (tt_legacy t)) <$> eb_transactions (execution_body b)))
    (λ q, toy_enc_list [vote_id (qc_info q); vote_round (qc_info q)])
    (λ t, toy_enc_list [tc_epoch t; tc_round t])
    (λ n, toy_enc_list [ne_epoch (nec_msg n); ne_round (nec_msg n)])
    toy_hash.
