(* ===== verification/ReserveBalance.v ===== *)
(** * Reserve balances (monad-eth-block-policy/src/lib.rs, monad-consensus-types/src/block.rs)

    Consensus runs ahead of execution by [execution_delay] blocks, so it
    bounds what an account can be charged from its balance in an older block.
    A transaction that has no other of its account in the last
    [execution_delay] blocks, of an account that is not delegated, is
    "emptying": it may spend the whole balance. Every other one pays its gas
    from the reserve, at most [max_reserve_balance].

    [try_add_transaction] charges the transactions of a new block one by one;
    [try_apply_block_fees] charges the transactions of an earlier block at
    once, from the summary [TxnFee] that the block validator made of them. *)
From S2P Require Import Prelude Types ChainConfig Interfaces MultiSig Certificates Concrete BlockTree EthTypes.

(** ** monad-consensus-types/src/block.rs *)

Record AccountBalanceState := mkAccountBalanceState {
  ab_balance : Balance;
  ab_remaining_reserve_balance : Balance;
  ab_max_reserve_balance : Balance;
  ab_block_seqnum_of_latest_txn : SeqNum;
  ab_is_delegated : bool;
}.

Definition account_balance_state_new (max_reserve_balance : Balance) : AccountBalanceState :=
  mkAccountBalanceState 0 0 max_reserve_balance GENESIS_SEQ_NUM false.

Record TxnFee := mkTxnFee {
  tf_first_txn_value : Balance;
  tf_first_txn_gas : Balance;
  tf_max_gas_cost : Balance;
  tf_is_delegated : bool;
  tf_delegation_before_first_txn : bool;
}.

Notation AccountBalanceStates := (gmap N AccountBalanceState) (only parsing).
Notation TxnFees := (gmap N TxnFee) (only parsing).

(** ** monad-eth-block-policy/src/lib.rs *)

(** The receiver of the block validator's methods. *)
Record EthBlockPolicyBlockValidator (CR : Type) := mkBlockValidator {
  bv_block_seq_num : SeqNum;
  bv_execution_delay : SeqNum;
  bv_base_fee : N;
  bv_chain_revision : CR;
}.
Arguments mkBlockValidator {CR} _ _ _ _.
Arguments bv_block_seq_num {CR} _.
Arguments bv_execution_delay {CR} _.
Arguments bv_base_fee {CR} _.
Arguments bv_chain_revision {CR} _.

Definition is_possibly_emptying_transaction (block_seq_num_of_curr_txn : SeqNum) (balance_state : AccountBalanceState)
    (execution_delay : SeqNum) : outcome bool :=
  let blocks_since_latest_txn := saturating_sub block_seq_num_of_curr_txn (ab_block_seqnum_of_latest_txn balance_state) in
  if ab_is_delegated balance_state then Ret false else
  last ← seq_sub execution_delay 1;
  Ret (bool_decide (last < blocks_since_latest_txn)).

Section reserve_balance.
Context {A : Alloy} {CR : Type} {CRV : ChainRevision CR}.
Implicit Types (v : EthBlockPolicyBlockValidator CR) (tx : TxEnvelope) (txn : ValidatedTx).

Definition compute_txn_max_gas_cost (tx : TxEnvelope) (base_fee : N) : outcome N :=
  if bool_decide (tx_type tx = TtLegacy) || bool_decide (tx_type tx = TtEip2930)
  then expect (checked_mul U256_MAX (tx_gas_limit tx) (tx_max_fee_per_gas tx))
  else
    let priority_fee := default 0 (tx_max_priority_fee_per_gas tx) in
    let gas_bid := N.min (tx_max_fee_per_gas tx) (saturating_add U256_MAX base_fee priority_fee) in
    expect (checked_mul U256_MAX (tx_gas_limit tx) gas_bid).

Definition compute_txn_max_value (tx : TxEnvelope) (base_fee : N) : outcome N :=
  gas_cost ← compute_txn_max_gas_cost tx base_fee;
  Ret (saturating_add U256_MAX (tx_value tx) gas_cost).

(** [EthBlockPolicyBlockValidator::try_apply_block_fees]. On an error the
    account's state is not used again. *)
Definition try_apply_block_fees (v : EthBlockPolicyBlockValidator CR) (account_balance : AccountBalanceState)
    (block_txn_fees : TxnFee) : outcome (result BlockPolicyError AccountBalanceState) :=
  let max_reserve_balance := cp_max_reserve_balance (chain_params (bv_chain_revision v)) in
  possibly ← is_possibly_emptying_transaction (bv_block_seq_num v) account_balance (bv_execution_delay v);
  let has_emptying_transaction := possibly && negb (tf_delegation_before_first_txn block_txn_fees) in
  '(account_balance, block_gas_cost) ←?
    (if has_emptying_transaction : bool then
       if bool_decide (ab_balance account_balance < tf_first_txn_gas block_txn_fees)
       then Ret (Err (PolicyBlockValidatorError InsufficientBalance))
       else
         let first_txn_cost := saturating_add U256_MAX (tf_first_txn_value block_txn_fees) (tf_first_txn_gas block_txn_fees) in
         let estimated_balance := saturating_sub (ab_balance account_balance) first_txn_cost in
         Ret (Ok ({| account_balance with
                       ab_remaining_reserve_balance := N.min estimated_balance max_reserve_balance;
                       ab_balance := estimated_balance |},
                  tf_max_gas_cost block_txn_fees))
     else Ret (Ok (account_balance,
                   saturating_add U256_MAX (tf_max_gas_cost block_txn_fees) (tf_first_txn_gas block_txn_fees))));
  if bool_decide (ab_remaining_reserve_balance account_balance < block_gas_cost)
  then Ret (Err (PolicyBlockValidatorError InsufficientReserveBalance))
  else
    Ret (Ok {| account_balance with
                 ab_remaining_reserve_balance :=
                   saturating_sub (ab_remaining_reserve_balance account_balance) block_gas_cost;
                 ab_block_seqnum_of_latest_txn := bv_block_seq_num v;
                 ab_is_delegated := ab_is_delegated account_balance || tf_is_delegated block_txn_fees |}).

Definition contains_self_authorization (txn : ValidatedTx) : bool :=
  existsb (λ auth, bool_decide (ra_authority auth = Some (vt_signer txn))) (vt_authorizations_7702 txn).

(** The part of [try_add_transaction] that charges the sender. *)
Definition charge_transaction v (account_balance : AccountBalanceState) (txn : ValidatedTx)
    : outcome (result BlockPolicyError AccountBalanceState) :=
  possibly ← is_possibly_emptying_transaction (bv_block_seq_num v) account_balance (bv_execution_delay v);
  let is_emptying_transaction := possibly && negb (contains_self_authorization txn) in
  if is_emptying_transaction : bool then
    txn_max_gas ← compute_txn_max_gas_cost (vt_env txn) (bv_base_fee v);
    if bool_decide (ab_balance account_balance < txn_max_gas)
    then Ret (Err (PolicyBlockValidatorError InsufficientBalance))
    else
      txn_max_cost ← compute_txn_max_value (vt_env txn) (bv_base_fee v);
      let estimated_balance := saturating_sub (ab_balance account_balance) txn_max_cost in
      let reserve_balance := N.min (ab_max_reserve_balance account_balance) estimated_balance in
      Ret (Ok {| account_balance with
                   ab_balance := estimated_balance;
                   ab_remaining_reserve_balance := reserve_balance;
                   ab_block_seqnum_of_latest_txn := bv_block_seq_num v |})
  else
    txn_max_gas ← compute_txn_max_gas_cost (vt_env txn) (bv_base_fee v);
    if bool_decide (ab_remaining_reserve_balance account_balance < txn_max_gas)
    then Ret (Err (PolicyBlockValidatorError InsufficientReserveBalance))
    else
      Ret (Ok {| account_balance with
                   ab_remaining_reserve_balance :=
                     saturating_sub (ab_remaining_reserve_balance account_balance) txn_max_gas;
                   ab_block_seqnum_of_latest_txn := bv_block_seq_num v |}).

Definition set_delegated (s : AccountBalanceState) : AccountBalanceState := {| s with ab_is_delegated := true |}.

(** Its last loop: the authorities that have an entry become delegated. *)
Definition delegate_authority (account_balances : AccountBalanceStates) (auth : RecoveredAuthorization)
    : AccountBalanceStates :=
  match ra_authority auth with
  | Some auth_address => alter set_delegated auth_address account_balances
  | None => account_balances
  end.

(** [EthBlockPolicyBlockValidator::try_add_transaction]. *)
Definition try_add_transaction (v : EthBlockPolicyBlockValidator CR) (account_balances : AccountBalanceStates)
    (txn : ValidatedTx) : outcome (result BlockPolicyError AccountBalanceStates) :=
  match account_balances !! vt_signer txn with
  | None => Ret (Err (PolicyBlockValidatorError AccountBalanceMissing))
  | Some account_balance =>
      account_balance ←? charge_transaction v account_balance txn;
      Ret (Ok (foldl delegate_authority (<[vt_signer txn := account_balance]> account_balances)
                 (vt_authorizations_7702 txn)))
  end.
End reserve_balance.
