(* ===== verification/NonceUsage.v ===== *)
(** * Nonces used by a block (monad-eth-block-policy/src/nonce_usage.rs)

    A block determines the nonce of an account after it when the account sent
    a transaction ([Known]); an account that only signed authorizations may or
    may not have used their nonces ([Possible], in the order of the block).
    The usages of consecutive blocks are merged from the newest block back. *)
From S2P Require Import Prelude Types ChainConfig Interfaces MultiSig Certificates Concrete BlockTree EthTypes.

Inductive NonceUsage :=
| Known (nonce : Nonce)
| Possible (possible_nonces : list Nonce).

#[global] Instance NonceUsage_eq_dec : EqDecision NonceUsage.
Proof. solve_decision. Defined.

(** The loop of [merge_with_previous] on a known nonce. *)
Fixpoint advance_known (nonce : Nonce) (possible_nonces : list Nonce) : Nonce :=
  match possible_nonces with
  | [] => nonce
  | possible_nonce :: possible_nonces =>
      let nonce := if bool_decide (wrapping_add64 nonce 1 = possible_nonce) then wrapping_add64 nonce 1 else nonce in
      advance_known nonce possible_nonces
  end.

Definition merge_with_previous (self previous_nonce_usage : NonceUsage) : NonceUsage :=
  match self with
  | Known nonce => Known nonce
  | Possible possible_nonces =>
      match previous_nonce_usage with
      | Known previous_nonce => Known (advance_known previous_nonce possible_nonces)
      | Possible previous_possible_nonces =>
          Possible (foldl (λ l n, n :: l) possible_nonces (reverse previous_possible_nonces))
      end
  end.

Fixpoint apply_possible_nonces_to_account_nonce (account_nonce : Nonce) (possible_nonces : list Nonce) : Nonce :=
  match possible_nonces with
  | [] => account_nonce
  | possible_nonce :: possible_nonces =>
      let account_nonce := if bool_decide (possible_nonce = account_nonce) then wrapping_add64 account_nonce 1 else account_nonce in
      apply_possible_nonces_to_account_nonce account_nonce possible_nonces
  end.

Definition apply_to_account_nonce (self : NonceUsage) (account_nonce : Nonce) : Nonce :=
  match self with
  | Known nonce => wrapping_add64 nonce 1
  | Possible possible_nonces => apply_possible_nonces_to_account_nonce account_nonce possible_nonces
  end.

Notation NonceUsageMap := (gmap N NonceUsage) (only parsing).

(** [NonceUsageMap::add_known] returns the usage it replaces. *)
Definition add_known (m : NonceUsageMap) (signer : Address) (nonce : Nonce) : NonceUsageMap * option NonceUsage :=
  (<[signer := Known nonce]> m, m !! signer).

(** One entry of [merge_with_previous_block]. *)
Definition merge_entry (m : NonceUsageMap) (e : Address * NonceUsage) : NonceUsageMap :=
  let '(address, previous_nonce_usage) := e in
  match m !! address with
  | None => <[address := previous_nonce_usage]> m
  | Some usage => <[address := merge_with_previous usage previous_nonce_usage]> m
  end.

Definition merge_with_previous_block (m : NonceUsageMap) (previous_block_nonce_usages : list (Address * NonceUsage))
    : NonceUsageMap :=
  foldl merge_entry m previous_block_nonce_usages.

(** [NonceUsageRetrievable] for a list of blocks, each given by its usages. *)
Definition get_nonce_usages (blocks : list NonceUsageMap) : NonceUsageMap :=
  match reverse blocks with
  | [] => ∅
  | newest :: blocks => foldl (λ m block, merge_with_previous_block m (btree_iter block)) newest blocks
  end.

(** ** Merging is replaying

    The nonce an account has after a list of blocks is what the merged usage
    gives from the nonce before them: [apply_usage] takes one block at a
    time. *)

Definition apply_usage (u : option NonceUsage) (nonce : Nonce) : Nonce :=
  match u with None => nonce | Some u => apply_to_account_nonce u nonce end.

(** Merged usage of an account, from its usages in two blocks. *)
Definition merge_usage (newer older : option NonceUsage) : option NonceUsage :=
  match newer, older with
  | None, o => o
  | n, None => n
  | Some n, Some o => Some (merge_with_previous n o)
  end.

Lemma push_front_rev (l k : list Nonce) : foldl (λ l n, n :: l) l (reverse k) = k ++ l.
Proof.
  revert l. induction k as [|x k IH] using rev_ind; intros l; [done|].
  rewrite reverse_snoc. simpl. rewrite IH. by rewrite <- (assoc_L (++)).
Qed.

Lemma apply_possible_app nonce l k :
  apply_possible_nonces_to_account_nonce nonce (l ++ k) =
  apply_possible_nonces_to_account_nonce (apply_possible_nonces_to_account_nonce nonce l) k.
Proof. revert nonce. induction l as [|x l IH]; intros nonce; [done|]. simpl. apply IH. Qed.

(** Advancing the last used nonce is advancing the next one. *)
Lemma advance_known_apply nonce l :
  wrapping_add64 (advance_known nonce l) 1 = apply_possible_nonces_to_account_nonce (wrapping_add64 nonce 1) l.
Proof.
  revert nonce. induction l as [|x l IH]; intros nonce; [done|]. cbn -[wrapping_add64].
  decide_case (wrapping_add64 nonce 1 = x) Hx.
  - rewrite bool_decide_eq_true_2 by done. apply IH.
  - rewrite bool_decide_eq_false_2 by done. apply IH.
Qed.

Lemma merge_with_previous_apply newer older nonce :
  apply_to_account_nonce (merge_with_previous newer older) nonce =
  apply_to_account_nonce newer (apply_to_account_nonce older nonce).
Proof.
  destruct newer as [n|l], older as [m|k]; simpl; try done.
  - apply advance_known_apply.
  - rewrite push_front_rev. apply apply_possible_app.
Qed.

Lemma merge_usage_apply newer older nonce :
  apply_usage (merge_usage newer older) nonce = apply_usage newer (apply_usage older nonce).
Proof. destruct newer, older; simpl; try done. apply merge_with_previous_apply. Qed.


Lemma merge_entries_miss m l a : a ∉ l.*1 → merge_with_previous_block m l !! a = m !! a.
Proof.
  revert m. induction l as [|[b u] l IH]; intros m Ha; [done|]. simpl in *. apply not_elem_of_cons in Ha as [Hab Ha].
  rewrite IH by done. destruct (m !! b); by rewrite lookup_insert_ne.
Qed.

Lemma merge_entries_hit m l a u : NoDup l.*1 → (a, u) ∈ l →
  merge_with_previous_block m l !! a = merge_usage (m !! a) (Some u).
Proof.
  revert m. induction l as [|[b w] l IH]; intros m Hnd Hin; [by apply elem_of_nil in Hin|]. simpl in *.
  apply NoDup_cons in Hnd as [Hb Hnd]. apply elem_of_cons in Hin as [[= <- <-]|Hin].
  - rewrite merge_entries_miss by done. destruct (m !! a); by rewrite lookup_insert_eq.
  - assert (a ≠ b). { intros ->. apply Hb. apply list_elem_of_fmap. by exists (b, u). }
    rewrite IH by done. f_equal. destruct (m !! b); by rewrite lookup_insert_ne.
Qed.

Lemma merge_block_lookup (m prev : NonceUsageMap) a :
  merge_with_previous_block m (btree_iter prev) !! a = merge_usage (m !! a) (prev !! a).
Proof.
  destruct (prev !! a) as [u|] eqn:Hu.
  - apply merge_entries_hit; [apply btree_keys_nodup|by apply elem_of_btree_iter].
  - rewrite merge_entries_miss.
    + by destruct (m !! a).
    + intros Hin. apply elem_of_btree_keys in Hin as [u Hu']. congruence.
Qed.

(** The usages of an account block by block, oldest first. *)
Definition replay_usages (us : list (option NonceUsage)) (nonce : Nonce) : Nonce :=
  foldl (λ n u, apply_usage u n) nonce us.

Lemma fold_merge_apply (blocks : list NonceUsageMap) (newest : NonceUsageMap) a nonce :
  apply_usage (foldl (λ m block, merge_with_previous_block m (btree_iter block)) newest blocks !! a) nonce =
  apply_usage (newest !! a) (replay_usages (reverse ((λ b : NonceUsageMap, b !! a) <$> blocks)) nonce).
Proof.
  revert newest. induction blocks as [|b blocks IH]; intros newest; [done|]. simpl.
  rewrite IH, merge_block_lookup, merge_usage_apply. f_equal.
  unfold replay_usages. by rewrite reverse_cons, foldl_app.
Qed.
