(* ===== verification/StaticValidation.v ===== *)
(** * Stateless transaction checks (monad-eth-block-policy/src/validation.rs)

    The rules of the Ethereum forks that a transaction is checked against on
    its own, with the error each gives. Gas is counted in [u64]: its plain
    operators wrap. *)
From S2P Require Import Prelude Types ChainConfig Interfaces MultiSig Certificates Concrete BlockTree EthTypes.

Inductive StaticValidationError :=
| InvalidChainId (tx_chain_id : N)
| MaxPriorityOverMaxFee (tx_max_priority_fee tx_max_fee_per_gas : N)
| InitCodeLimitExceeded (tx_input_len max_init_code_size : N)
| EncodedLengthLimitExceeded
| GasLimitUnderFloorDataGas (tx_gas_limit floor_data_gas : N)
| GasLimitUnderIntrinsicGas (tx_gas_limit intrinsic_gas : N)
| GasLimitOverTFMGasLimit (tx_gas_limit tfm_max_gas_limit : N)
| GasLimitOverProposalGasLimit (tx_gas_limit proposal_gas_limit : N)
| InvalidSignature
| UnsupportedTransactionType
| AuthorizationListEmpty
| AuthorizationListLengthLimitExceeded.

Definition TFM_MAX_GAS_LIMIT : N := 30000000.
Definition EIP_7702_PER_EMPTY_ACCOUNT_COST : N := 25000.

Definition wrapping_mul64 (a b : N) : N := (a * b) `mod` (u64_MAX + 1).
Definition saturating_mul64 (a b : N) : N := N.min (a * b) u64_MAX.

(** Rust's [u64_div_ceil]. *)
Definition u64_div_ceil (a b : N) : N := (a + b - 1) / b.

Section static_validation.
Context {A : Alloy}.

Definition zero_data_len (tx : TxEnvelope) : N := N.of_nat (length (filter (λ b, b = Byte.x00) (tx_input tx))).
Definition data_len (tx : TxEnvelope) : N := N.of_nat (length (tx_input tx)).

Definition compute_intrinsic_gas (tx : TxEnvelope) : N :=
  let intrinsic_gas := 21000 in
  let zero_data_len := zero_data_len tx in
  let non_zero_data_len := data_len tx - zero_data_len in
  let intrinsic_gas := wrapping_add64 intrinsic_gas (wrapping_mul64 zero_data_len 4) in
  let intrinsic_gas := wrapping_add64 intrinsic_gas (wrapping_mul64 non_zero_data_len 16) in
  let intrinsic_gas :=
    if is_create (tx_kind tx) then
      wrapping_add64 (wrapping_add64 intrinsic_gas 32000) (wrapping_mul64 (u64_div_ceil (data_len tx) 32) 2)
    else intrinsic_gas in
  let access_list := default [] (tx_access_list tx) in
  let accessed_slots := N.of_nat (sum_list ((λ item, length item.2) <$> access_list)) in
  let intrinsic_gas := wrapping_add64 intrinsic_gas (wrapping_mul64 (N.of_nat (length access_list)) 2400) in
  let intrinsic_gas := wrapping_add64 intrinsic_gas (wrapping_mul64 accessed_slots 1900) in
  if bool_decide (tx_type tx = TtEip7702) then
    match tx_authorization_list tx with
    | Some auth_list =>
        saturating_add u64_MAX intrinsic_gas
          (saturating_mul64 EIP_7702_PER_EMPTY_ACCOUNT_COST (N.of_nat (length auth_list)))
    | None => intrinsic_gas
    end
  else intrinsic_gas.

Definition compute_floor_data_gas (tx : TxEnvelope) : N :=
  let zero_data_len := zero_data_len tx in
  let non_zero_data_len := data_len tx - zero_data_len in
  wrapping_add64 21000 (wrapping_add64 (wrapping_mul64 zero_data_len 10) (wrapping_mul64 non_zero_data_len 40)).

(** [TfmValidator::validate]. *)
Definition tfm_validate (tx : TxEnvelope) (chain_params : ChainParams) : result StaticValidationError unit :=
  if bool_decide (TFM_MAX_GAS_LIMIT < tx_gas_limit tx)
  then Err (GasLimitOverTFMGasLimit (tx_gas_limit tx) TFM_MAX_GAS_LIMIT)
  else if bool_decide (cp_proposal_gas_limit chain_params < tx_gas_limit tx)
  then Err (GasLimitOverProposalGasLimit (tx_gas_limit tx) (cp_proposal_gas_limit chain_params))
  else Ok tt.

(** [YellowPaperValidation]. *)
Definition intrinsic_gas_validation (tx : TxEnvelope) : result StaticValidationError unit :=
  let intrinsic_gas := compute_intrinsic_gas tx in
  if bool_decide (tx_gas_limit tx < intrinsic_gas)
  then Err (GasLimitUnderIntrinsicGas (tx_gas_limit tx) intrinsic_gas) else Ok tt.

(** [EthHomesteadForkValidation]. *)
Definition eip_2 (tx : TxEnvelope) : result StaticValidationError unit :=
  if tx_high_s tx then Err InvalidSignature else Ok tt.
Definition eip_155 (tx : TxEnvelope) (chain_id : N) : result StaticValidationError unit :=
  match tx_chain_id tx with
  | Some tx_chain_id => if bool_decide (tx_chain_id ≠ chain_id) then Err (InvalidChainId tx_chain_id) else Ok tt
  | None => Ok tt
  end.
Definition homestead_validate (tx : TxEnvelope) (chain_id : N) : result StaticValidationError unit :=
  _ ← eip_2 tx; eip_155 tx chain_id.

(** [EthLondonForkValidation]. *)
Definition eip_1559 (tx : TxEnvelope) : result StaticValidationError unit :=
  match tx_max_priority_fee_per_gas tx with
  | Some tx_max_priority_fee =>
      if bool_decide (tx_max_fee_per_gas tx < tx_max_priority_fee)
      then Err (MaxPriorityOverMaxFee tx_max_priority_fee (tx_max_fee_per_gas tx)) else Ok tt
  | None => Ok tt
  end.

(** [EthShanghaiForkValidation]. *)
Definition eip_3860 (tx : TxEnvelope) (params : ExecutionChainParams) : result StaticValidationError unit :=
  let max_init_code_size := 2 * ep_max_code_size params in
  if is_create (tx_kind tx) && bool_decide (max_init_code_size < data_len tx)
  then Err (InitCodeLimitExceeded (data_len tx) max_init_code_size) else Ok tt.

(** [EthPragueForkValidation]. *)
Definition eip_7623 (tx : TxEnvelope) : result StaticValidationError unit :=
  let floor_data_gas := compute_floor_data_gas tx in
  if bool_decide (tx_gas_limit tx < floor_data_gas)
  then Err (GasLimitUnderFloorDataGas (tx_gas_limit tx) floor_data_gas) else Ok tt.
Definition eip_7702 (tx : TxEnvelope) (params : ExecutionChainParams) : result StaticValidationError unit :=
  if negb (bool_decide (tx_type tx = TtEip7702)) then Ok tt
  else if negb (ep_prague_enabled params) then Err UnsupportedTransactionType
  else match tx_authorization_list tx with
       | Some [] => Err AuthorizationListEmpty
       | Some _ => Ok tt
       | None => Err AuthorizationListEmpty
       end.
Definition prague_validate (tx : TxEnvelope) (params : ExecutionChainParams) : result StaticValidationError unit :=
  _ ← (if ep_prague_enabled params then eip_7623 tx else Ok tt);
  _ ← eip_7702 tx params;
  Ok tt.

Definition static_validate_transaction (tx : TxEnvelope) (chain_id : N) (chain_params : ChainParams)
    (execution_chain_params : ExecutionChainParams) : result StaticValidationError unit :=
  if bool_decide (tx_type tx = TtEip4844) then Err UnsupportedTransactionType else
  _ ← tfm_validate tx chain_params;
  _ ← homestead_validate tx chain_id;
  _ ← eip_1559 tx;
  _ ← eip_3860 tx execution_chain_params;
  _ ← intrinsic_gas_validation tx;
  _ ← prague_validate tx execution_chain_params;
  Ok tt.

(** ** The gas formulas

    The intrinsic gas of the yellow paper and its amendments, as exact sums. *)

Definition intrinsic_gas_formula (tx : TxEnvelope) : N :=
  21000 + 4 * zero_data_len tx + 16 * (data_len tx - zero_data_len tx)
  + (if is_create (tx_kind tx) then 32000 + 2 * u64_div_ceil (data_len tx) 32 else 0)
  + 2400 * N.of_nat (length (default [] (tx_access_list tx)))
  + 1900 * N.of_nat (sum_list ((λ item, length item.2) <$> default [] (tx_access_list tx)))
  + (if bool_decide (tx_type tx = TtEip7702)
     then 25000 * N.of_nat (length (default [] (tx_authorization_list tx))) else 0).

Definition floor_gas_formula (tx : TxEnvelope) : N :=
  21000 + 10 * zero_data_len tx + 40 * (data_len tx - zero_data_len tx).

Lemma wrapping_mul64_small a b : a * b ≤ u64_MAX → wrapping_mul64 a b = a * b.
Proof. intros. unfold wrapping_mul64. apply N.mod_small. lia. Qed.

(** Sums without wrap-around, from the innermost out. *)
Ltac add64_exact :=
  repeat match goal with
  | |- context [wrapping_add64 ?a ?b] =>
      lazymatch constr:((a, b)) with context [wrapping_add64 _ _] => fail | _ => rewrite (wrapping_add64_small a b) by lia end
  end.

Lemma zero_data_len_le tx : zero_data_len tx ≤ data_len tx.
Proof. unfold zero_data_len, data_len. pose proof (length_filter (λ b, b = Byte.x00) (tx_input tx)). lia. Qed.

(** No sum wraps when the formula fits in 64 bits. *)
Lemma compute_intrinsic_gas_exact tx : intrinsic_gas_formula tx ≤ u64_MAX →
  compute_intrinsic_gas tx = intrinsic_gas_formula tx.
Proof.
  unfold intrinsic_gas_formula, compute_intrinsic_gas.
  pose proof (zero_data_len_le tx) as Hz. intros H.
  set (access := default [] (tx_access_list tx)) in *.
  destruct (is_create (tx_kind tx)); rewrite !wrapping_mul64_small by lia; add64_exact.
  all: case_bool_decide; [|lia]; destruct (tx_authorization_list tx); cbn [default] in *;
    unfold saturating_add, saturating_mul64, EIP_7702_PER_EMPTY_ACCOUNT_COST; simpl in *; lia.
Qed.

Lemma compute_floor_data_gas_exact tx : floor_gas_formula tx ≤ u64_MAX →
  compute_floor_data_gas tx = floor_gas_formula tx.
Proof.
  unfold floor_gas_formula, compute_floor_data_gas. pose proof (zero_data_len_le tx) as Hz. intros H.
  rewrite !wrapping_mul64_small by lia. add64_exact. lia.
Qed.
End static_validation.
