(* ===== verification/SystemCalls.v ===== *)
(** * System transactions (monad-system-calls)

    The staking calls that every block carries by protocol: their schedule
    ([generate_system_calls]), the transactions a leader makes of them, and
    the checks of a validator: the system transactions are the first of a
    block, signed by the system sender, and are exactly the expected calls; no
    user transaction comes from that sender or makes such a call. *)
From S2P Require Import Prelude Types ChainConfig Interfaces MultiSig Certificates Concrete BlockTree EthTypes.

Definition SYSTEM_SENDER_ETH_ADDRESS : Address := 0x6f49a8F621353f12378d0046E7d7e4b9B249DC9e.

(** ** staking_contract.rs *)

Inductive StakingContractCall :=
| Reward (block_author_address : Address) (block_reward : N)
| Snapshot
| EpochChange (new_epoch : Epoch).

Definition STAKING_CONTRACT_ADDRESS : Address := 0x0000000000000000000000000000000000001000.
Definition REWARD_FUNCTION_SELECTOR : bytes := [Byte.x79; Byte.x1b; Byte.xdc; Byte.xf3].
Definition SNAPSHOT_FUNCTION_SELECTOR : bytes := [Byte.x15; Byte.x7e; Byte.xeb; Byte.x21].
Definition EPOCH_CHANGE_FUNCTION_SELECTOR : bytes := [Byte.x1d; Byte.x4e; Byte.x9f; Byte.x02].
Definition MON : N := 1000000000000000000.

Inductive SystemTransactionError :=
| UnexpectedSenderAddress
| InvalidTxType
| SysInvalidChainId
| InvalidTxSignature
| NonZeroGasPrice
| NonZeroGasLimit
| InvalidTxKind
| UnexpectedDestAddress (expected : Address) (actual : option Address)
| UnexpectedInput (expected_input actual_input : bytes)
| UnexpectedValue (expected_value actual_value : N).

Inductive SystemTransactionValidationError :=
| MissingSystemTransaction
| UnexpectedSystemTransaction
| SystemTxError (e : SystemTransactionError).

(** [slice::starts_with]. *)
Definition starts_with (l prefix : bytes) : bool := bool_decide (take (length prefix) l = prefix).

(** [timestamp_ns_to_secs] of the block policy; the validator of system
    transactions computes the same with [try_into().unwrap_or(u64::MAX)]. *)
Definition timestamp_ns_to_secs (timestamp_ns : N) : N := N.min (timestamp_ns / 1000000000) u64_MAX.

Section system_calls.
Context {A : Alloy}.

Definition is_restricted_staking_contract_call (txn : RecoveredTx) : bool :=
  if bool_decide (tx_to (rt_inner txn) = Some STAKING_CONTRACT_ADDRESS) then
    let input := tx_input (rt_inner txn) in
    starts_with input REWARD_FUNCTION_SELECTOR
    || starts_with input SNAPSHOT_FUNCTION_SELECTOR
    || starts_with input EPOCH_CHANGE_FUNCTION_SELECTOR
  else false.

Definition get_transaction_value (self : StakingContractCall) : N :=
  match self with
  | Reward _ block_reward => block_reward
  | Snapshot => 0
  | EpochChange _ => 0
  end.

Definition get_transaction_input (self : StakingContractCall) : bytes :=
  match self with
  | Reward block_author_address _ => REWARD_FUNCTION_SELECTOR ++ abi_encode_address block_author_address
  | Snapshot => SNAPSHOT_FUNCTION_SELECTOR
  | EpochChange new_epoch => EPOCH_CHANGE_FUNCTION_SELECTOR ++ abi_encode_u64 new_epoch
  end.

Definition as_legacy_transaction (self : StakingContractCall) (chain_id nonce : N) : TxLegacy := {|
  tl_chain_id := Some chain_id;
  tl_nonce := nonce;
  tl_gas_price := 0;
  tl_gas_limit := 0;
  tl_to := Call STAKING_CONTRACT_ADDRESS;
  tl_value := get_transaction_value self;
  tl_input := get_transaction_input self;
|}.

Inductive StakingContractTransaction :=
| StxReward (txn : RecoveredTx)
| StxSnapshot (txn : RecoveredTx)
| StxEpochChange (txn : RecoveredTx).

Definition staking_inner (t : StakingContractTransaction) : RecoveredTx :=
  match t with StxReward txn => txn | StxSnapshot txn => txn | StxEpochChange txn => txn end.

(** [sign_with_system_sender]. *)
Definition sign_with_system_sender (transaction : TxLegacy) : RecoveredTx :=
  mkRecoveredTx (sign_legacy transaction) SYSTEM_SENDER_ETH_ADDRESS.

Definition staking_into_signed_transaction (self : StakingContractCall) (chain_id nonce : N)
    : StakingContractTransaction :=
  match self with
  | Reward _ _ => StxReward (sign_with_system_sender (as_legacy_transaction self chain_id nonce))
  | Snapshot => StxSnapshot (sign_with_system_sender (as_legacy_transaction self chain_id nonce))
  | EpochChange _ => StxEpochChange (sign_with_system_sender (as_legacy_transaction self chain_id nonce))
  end.

Definition staking_validate_input (self : StakingContractCall) (system_txn : ValidatedTx)
    : result SystemTransactionError unit :=
  let to := tx_to (vt_env system_txn) in
  if bool_decide (to ≠ Some STAKING_CONTRACT_ADDRESS)
  then Err (UnexpectedDestAddress STAKING_CONTRACT_ADDRESS to) else
  let input := tx_input (vt_env system_txn) in
  let value := tx_value (vt_env system_txn) in
  let expected_input := get_transaction_input self in
  let expected_value := match self with Reward _ block_reward => block_reward | _ => 0 end in
  if bool_decide (input ≠ expected_input) then Err (UnexpectedInput expected_input input)
  else if bool_decide (value ≠ expected_value) then Err (UnexpectedValue expected_value value)
  else Ok tt.

(** ** lib.rs *)

Inductive SystemCall := ScStakingContractCall (c : StakingContractCall).

Definition is_restricted_system_call (txn : RecoveredTx) : bool := is_restricted_staking_contract_call txn.

Definition validate_system_transaction_input (self : SystemCall) (sys_txn : ValidatedTx)
    : result SystemTransactionError unit :=
  match self with ScStakingContractCall c => staking_validate_input c sys_txn end.

Inductive SystemTransaction := StStakingContractTransaction (t : StakingContractTransaction).

Definition into_signed_transaction (self : SystemCall) (chain_id nonce : N) : SystemTransaction :=
  match self with
  | ScStakingContractCall c => StStakingContractTransaction (staking_into_signed_transaction c chain_id nonce)
  end.

(** [From<SystemTransaction> for Recovered<TxEnvelope>]. *)
Definition system_transaction_into (t : SystemTransaction) : RecoveredTx :=
  match t with StStakingContractTransaction t => staking_inner t end.

Definition system_transaction_signer (t : SystemTransaction) : outcome Address :=
  let signer := rt_signer (system_transaction_into t) in
  _ ← rust_assert (bool_decide (signer = SYSTEM_SENDER_ETH_ADDRESS));
  Ret signer.
Definition system_transaction_nonce (t : SystemTransaction) : Nonce := tx_nonce (rt_inner (system_transaction_into t)).
Definition system_transaction_length (t : SystemTransaction) : N := tx_length (rt_inner (system_transaction_into t)).

Section with_config.
Context {C CR : Type} {CC : ChainConfig C CR} (chain_config : C).

Definition generate_system_calls (proposed_seq_num : SeqNum) (proposed_epoch parent_block_epoch : Epoch)
    (block_author_address : Address) : outcome (list SystemCall) :=
  let epoch_length := cc_epoch_length chain_config in
  let staking_activation := cc_staking_activation chain_config in
  boundary ← is_boundary_block proposed_seq_num epoch_length;
  generate_snapshot_txn ←
    (if boundary : bool then
       locked ← get_locked_epoch proposed_seq_num epoch_length; Ret (bool_decide (staking_activation ≤ locked))
     else Ret false);
  is_first_epoch_block ←
    (if bool_decide (parent_block_epoch ≠ proposed_epoch) then
       first ← epoch_sub staking_activation 1; Ret (bool_decide (first ≤ proposed_epoch))
     else Ret false);
  first_seq_num ← seq_add GENESIS_SEQ_NUM 1;
  let is_genesis_block := bool_decide (proposed_seq_num = first_seq_num) && bool_decide (staking_activation = 2) in
  let generate_epoch_change_txn := is_first_epoch_block || is_genesis_block in
  let generate_reward_txn := bool_decide (staking_activation ≤ proposed_epoch) in
  let block_reward := wrapping_mul256 MON (cc_block_reward_mon chain_config proposed_epoch) in
  Ret (ScStakingContractCall <$>
         (if generate_snapshot_txn : bool then [Snapshot] else [])
         ++ (if generate_epoch_change_txn : bool then [EpochChange proposed_epoch] else [])
         ++ (if generate_reward_txn : bool then [Reward block_author_address block_reward] else [])).

(** The [map] of [generate_system_transactions], with its running nonce. *)
Fixpoint sign_system_calls (calls : list SystemCall) (next_system_txn_nonce : Nonce) : list SystemTransaction :=
  match calls with
  | [] => []
  | sys_call :: calls =>
      into_signed_transaction sys_call (cc_chain_id chain_config) next_system_txn_nonce
      :: sign_system_calls calls (wrapping_add64 next_system_txn_nonce 1)
  end.

(** [SystemTransactionGenerator::generate_system_transactions]. *)
Definition generate_system_transactions (proposed_seq_num : SeqNum) (proposed_epoch parent_block_epoch : Epoch)
    (block_author : Address) (next_system_txn_nonce : Nonce) : outcome (list SystemTransaction) :=
  system_calls ← generate_system_calls proposed_seq_num proposed_epoch parent_block_epoch block_author;
  Ret (sign_system_calls system_calls next_system_txn_nonce).

(** ** validator.rs *)

Definition is_system_sender (address : Address) : bool := bool_decide (address = SYSTEM_SENDER_ETH_ADDRESS).

Definition static_validate_system_transaction (txn : RecoveredTx) : result SystemTransactionError unit :=
  if negb (is_system_sender (rt_signer txn)) then Err UnexpectedSenderAddress
  else if negb (bool_decide (tx_type (rt_inner txn) = TtLegacy)) then Err InvalidTxType
  else if bool_decide (tx_chain_id (rt_inner txn) ≠ Some (cc_chain_id chain_config)) then Err SysInvalidChainId
  else if tx_high_s (rt_inner txn) then Err InvalidTxSignature
  else if bool_decide (tx_gas_price (rt_inner txn) ≠ Some 0) then Err NonZeroGasPrice
  else if bool_decide (tx_gas_limit (rt_inner txn) ≠ 0) then Err NonZeroGasLimit
  else if is_create (tx_kind (rt_inner txn)) then Err InvalidTxKind
  else Ok tt.

(** The [while] loop of [extract_system_transactions]. *)
Fixpoint take_system_txns (sys_txns : list ValidatedTx) (recovered_txns : list RecoveredTx)
    : result SystemTransactionValidationError (list ValidatedTx * list RecoveredTx) :=
  match recovered_txns with
  | [] => Ok (sys_txns, [])
  | txn :: rest =>
      if negb (is_system_sender (rt_signer txn)) then Ok (sys_txns, recovered_txns)
      else match static_validate_system_transaction txn with
           | Err sys_txn_err => Err (SystemTxError sys_txn_err)
           | Ok _ => take_system_txns (sys_txns ++ [mkValidatedTx txn []]) rest
           end
  end.

(** Its loop over the user transactions. *)
Fixpoint check_user_txns (user_txns : list RecoveredTx) : result SystemTransactionValidationError unit :=
  match user_txns with
  | [] => Ok tt
  | user_txn :: user_txns =>
      if is_system_sender (rt_signer user_txn) then Err UnexpectedSystemTransaction
      else if is_restricted_system_call user_txn then Err UnexpectedSystemTransaction
      else check_user_txns user_txns
  end.
End with_config.
End system_calls.

Section eth_system_calls.
Context {E : EthProtocol} {C CR : Type} {CC : ChainConfig C CR} (chain_config : C).

Definition validates_system_txs (block_header : ConsensusBlockHeader) : bool :=
  ep_validate_system_txs (execution_chain_params
    (cc_execution_chain_revision chain_config (timestamp_ns_to_secs (bh_timestamp_ns block_header)))).

Definition extract_system_transactions (block_header : ConsensusBlockHeader) (recovered_txns : list RecoveredTx)
    : result SystemTransactionValidationError (list ValidatedTx * list RecoveredTx) :=
  if negb (validates_system_txs block_header) then Ok ([], recovered_txns) else
  '(sys_txns, user_txns) ← take_system_txns chain_config [] recovered_txns;
  _ ← check_user_txns user_txns;
  Ok (sys_txns, user_txns).

(** The loop of [validate_system_transactions_input] over the zipped lists. *)
Fixpoint validate_inputs (l : list (SystemCall * ValidatedTx)) : result SystemTransactionValidationError unit :=
  match l with
  | [] => Ok tt
  | (expected_sys_call, sys_txn) :: l =>
      match validate_system_transaction_input expected_sys_call sys_txn with
      | Err e => Err (SystemTxError e)
      | Ok _ => validate_inputs l
      end
  end.

Definition validate_system_transactions_input (block_header : ConsensusBlockHeader) (parent_block_epoch : Epoch)
    (sys_txns : list ValidatedTx) : outcome (result SystemTransactionValidationError unit) :=
  if negb (validates_system_txs block_header) then
    _ ← rust_assert (bool_decide (length sys_txns = 0%nat));
    Ret (Ok tt)
  else
    expected_sys_calls ← generate_system_calls chain_config (bh_seq_num block_header) (bh_epoch block_header)
                           parent_block_epoch (get_eth_address (bh_author block_header));
    if bool_decide (length expected_sys_calls ≠ length sys_txns)
    then Ret (Err UnexpectedSystemTransaction)
    else Ret (validate_inputs (zip expected_sys_calls sys_txns)).
End eth_system_calls.
