(* ===== verification/EthBlockValidator.v ===== *)
(** * Validation of Ethereum blocks (monad-eth-block-validator)

    [eth_validate] checks a block on its own: the header against the body and the
    chain parameters, the limits on the body, the signature and the static
    rules of every transaction, and that the nonces of an account have no gap
    within the block. It returns the block with its transactions recovered,
    the nonces they use and the fees they can be charged per account; checks
    against the state of accounts are the block policy's.

    The parallel iterators of the source compute the same values in the order
    of the list; which of several signature errors is reported is not
    modelled. Metrics are left out. *)
From S2P Require Import Prelude Types ChainConfig Interfaces MultiSig Certificates Concrete BlockTree EthTypes ReserveBalance NonceUsage StaticValidation SystemCalls.

(** ** error.rs *)

Inductive HeaderError :=
| HeaderPayloadMismatch (expected_body_id actual : N)
| RandaoError
| NonEmptyOmmersHash (h : B256)
| InvalidTransactionsRoot (expected actual : B256)
| NonEmptyWithdrawalsRoot (h : B256)
| NonZeroDifficulty (n : N)
| InvalidHeaderNumber (expected actual : N)
| InvalidGasLimit (expected actual : N)
| InvalidTimestamp (consensus_header_timestamp eth_header_timestamp : N)
| InvalidRoundSignatureHash (expected actual : B256)
| InvalidBaseFee (consensus_header_base_fee eth_header_base_fee : N)
| NonEmptyHeaderNonce (n : N)
| NonEmptyExtraData (h : B256)
| NonZeroBlockGasUsed (n : N)
| NonZeroExcessBlobGas (n : N)
| NonEmptyParentBeaconRoot (h : B256)
| InvalidRequestsHash (expected actual : option B256).

Inductive PayloadError :=
| NonEmptyOmmers (l : list unit)
| NonEmptyWithdrawals (l : list unit)
| ExceededNumTxnLimit (num_txs : N)
| ExceededBlockGasLimit (total_gas : N)
| ExceededBlockSizeLimit (txs_size : N).

Inductive TxnError :=
| SignerRecoveryError
| StaticError (e : StaticValidationError)
| MaxFeeLessThanBaseFee
| InvalidSystemAccountAuthorization
| NonceOverflow
| InvalidNonce.

Inductive EthBlockValidationError :=
| EbHeaderError (e : HeaderError)
| EbPayloadError (e : PayloadError)
| EbSystemTxnError (e : SystemTransactionValidationError)
| EbTxnError (e : TxnError).

(** The encoding [RoundSignature::get_hash] hashes. *)
Class EthCodec `{E : EthProtocol} := { rlp_round_signature : Signature → bytes }.

Section nonces_and_fees.
Context {A : Alloy}.

(** The fees an authorization and a transaction add to the summary of an
    account. *)
Definition authority_fee (txn_fees : TxnFees) (authority : Address) : TxnFees :=
  match txn_fees !! authority with
  | Some e => <[authority := {| e with tf_is_delegated := true |}]> txn_fees
  | None => <[authority := mkTxnFee 0 0 0 true true]> txn_fees
  end.

Definition signer_fee (txn_fees : TxnFees) (signer : Address) (value gas : Balance) : TxnFees :=
  match txn_fees !! signer with
  | Some e => <[signer := {| e with tf_max_gas_cost := saturating_add U256_MAX (tf_max_gas_cost e) gas |}]> txn_fees
  | None => <[signer := mkTxnFee value gas 0 false false]> txn_fees
  end.

(** [nonce_usages.entry(authority)]. *)
Definition authority_nonce (nonce_usages : NonceUsageMap) (authority : Address) (auth_nonce : Nonce)
    : result TxnError NonceUsageMap :=
  match nonce_usages !! authority with
  | Some (Known nonce) =>
      match checked_add u64_MAX nonce 1 with
      | Some next =>
          Ok (if bool_decide (next = auth_nonce) then <[authority := Known next]> nonce_usages else nonce_usages)
      | None => Err NonceOverflow
      end
  | Some (Possible possible_nonces) => Ok (<[authority := Possible (possible_nonces ++ [auth_nonce])]> nonce_usages)
  | None => Ok (<[authority := Possible [auth_nonce]]> nonce_usages)
  end.

(** An authorization for another chain changes no nonce. *)
Definition other_chain (chain_id : N) (auth : RecoveredAuthorization) : bool :=
  negb (bool_decide (au_chain_id (ra_inner auth) = 0)) && negb (bool_decide (au_chain_id (ra_inner auth) = chain_id)).

(** The body of the loop over the authorizations of a transaction. *)
Definition process_authorization (chain_id : N) (st : NonceUsageMap * TxnFees) (recovered_auth : RecoveredAuthorization)
    : result TxnError (NonceUsageMap * TxnFees) :=
  let '(nonce_usages, txn_fees) := st in
  match ra_authority recovered_auth with
  | None => Ok (nonce_usages, txn_fees)
  | Some authority =>
      if bool_decide (authority = SYSTEM_SENDER_ETH_ADDRESS) then Err InvalidSystemAccountAuthorization else
      let txn_fees := authority_fee txn_fees authority in
      if other_chain chain_id recovered_auth then Ok (nonce_usages, txn_fees) else
      nonce_usages ← authority_nonce nonce_usages authority (au_nonce (ra_inner recovered_auth));
      Ok (nonce_usages, txn_fees)
  end.

Fixpoint process_authorizations (chain_id : N) (st : NonceUsageMap * TxnFees) (l : list RecoveredAuthorization)
    : result TxnError (NonceUsageMap * TxnFees) :=
  match l with
  | [] => Ok st
  | auth :: l => st ← process_authorization chain_id st auth; process_authorizations chain_id st l
  end.

(** The nonce checks of a system and of a user transaction after
    [add_known]. *)
Definition check_known_nonce (old_nonce nonce : Nonce) : result TxnError unit :=
  match checked_add u64_MAX old_nonce 1 with
  | None => Err NonceOverflow
  | Some expected_nonce => if bool_decide (expected_nonce ≠ nonce) then Err InvalidNonce else Ok tt
  end.

Definition process_system_txn (nonce_usages : NonceUsageMap) (sys_txn : ValidatedTx) : result TxnError NonceUsageMap :=
  let '(nonce_usages, maybe_old_nonce_usage) := add_known nonce_usages (vt_signer sys_txn) (vt_nonce sys_txn) in
  match maybe_old_nonce_usage with
  | Some (Possible _) => Err InvalidNonce
  | Some (Known old_nonce) => _ ← check_known_nonce old_nonce (vt_nonce sys_txn); Ok nonce_usages
  | None => Ok nonce_usages
  end.

Fixpoint process_system_txns (nonce_usages : NonceUsageMap) (l : list ValidatedTx) : result TxnError NonceUsageMap :=
  match l with
  | [] => Ok nonce_usages
  | sys_txn :: l => nonce_usages ← process_system_txn nonce_usages sys_txn; process_system_txns nonce_usages l
  end.

(** The body of the loop over the validated transactions. *)
Definition process_txn (block_base_fee chain_id : N) (st : NonceUsageMap * TxnFees) (eth_txn : ValidatedTx)
    : outcome (result TxnError (NonceUsageMap * TxnFees)) :=
  let '(nonce_usages, txn_fees) := st in
  if bool_decide (tx_max_fee_per_gas (vt_env eth_txn) < block_base_fee) then Ret (Err MaxFeeLessThanBaseFee) else
  let '(nonce_usages, maybe_old_nonce_usage) := add_known nonce_usages (vt_signer eth_txn) (vt_nonce eth_txn) in
  _ ←? Ret match maybe_old_nonce_usage with
           | Some (Known old_nonce) => check_known_nonce old_nonce (vt_nonce eth_txn)
           | Some (Possible _) => Ok tt
           | None => Ok tt
           end;
  '(nonce_usages, txn_fees) ←?
    Ret (if bool_decide (tx_type (vt_env eth_txn) = TtEip7702)
         then process_authorizations chain_id (nonce_usages, txn_fees) (vt_authorizations_7702 eth_txn)
         else Ok (nonce_usages, txn_fees));
  gas ← compute_txn_max_gas_cost (vt_env eth_txn) block_base_fee;
  Ret (Ok (nonce_usages, signer_fee txn_fees (vt_signer eth_txn) (tx_value (vt_env eth_txn)) gas)).

(** [try_fold] of the checked addition. *)
Fixpoint checked_gas_sum (acc : N) (transactions : list TxEnvelope) : option N :=
  match transactions with
  | [] => Some acc
  | tx :: transactions => a ← checked_add u64_MAX acc (tx_gas_limit tx); checked_gas_sum a transactions
  end.

(** The sum of the encoded lengths, in [usize]. *)
Definition encoded_size (l : list TxEnvelope) : N := foldl (λ acc tx, wrapping_add64 acc (tx_length tx)) 0 l.

Definition recover_txn (tx : TxEnvelope) : option RecoveredTx :=
  signer ← tx_recover tx; Some (mkRecoveredTx tx signer).

(** Recovery of the authorities of an EIP-7702 transaction. *)
Definition recover_authorization (signed_auth : SignedAuthorization) : option RecoveredAuthorization :=
  authority ← sa_recover_authority signed_auth;
  Some (mkRecoveredAuthorization (sa_inner signed_auth) (Some authority)).

Definition recover_validated (eth_txn : RecoveredTx) : ValidatedTx :=
  mkValidatedTx eth_txn
    (if bool_decide (tx_type (rt_inner eth_txn) = TtEip7702)
     then omap recover_authorization (default [] (tx_authorization_list (rt_inner eth_txn))) else []).

Fixpoint static_validate_all (chain_id : N) (params : ChainParams) (execution_params : ExecutionChainParams)
    (eth_txns : list RecoveredTx) : result TxnError unit :=
  match eth_txns with
  | [] => Ok tt
  | eth_txn :: eth_txns =>
      _ ← map_err StaticError (static_validate_transaction (rt_inner eth_txn) chain_id params execution_params);
      static_validate_all chain_id params execution_params eth_txns
  end.
End nonces_and_fees.

Section block_validator.
Context {E : EthProtocol} {EC : EthCodec} {CD : Codec} {CS : CertSignature}
        {C CR : Type} {CRV : ChainRevision CR} {CC : ChainConfig C CR} (chain_config : C).

(** payload.rs: [RoundSignature::get_hash]. *)
Definition round_signature_get_hash (sig : Signature) : N := hash (rlp_round_signature sig).

(** monad-eth-block-policy/src/lib.rs *)
Record EthValidatedBlock := mkEthValidatedBlock {
  ev_block : ConsensusFullBlock;
  ev_system_txns : list ValidatedTx;
  ev_validated_txns : list ValidatedTx;
  ev_nonce_usages : NonceUsageMap;
  ev_txn_fees : TxnFees;
}.

Definition header_check (b : bool) (e : HeaderError) : result HeaderError unit := if b then Err e else Ok tt.

(** The checks of the execution header, in order. *)
Definition validate_execution_inputs (header : ConsensusBlockHeader) (body : ConsensusBlockBody)
    (params : ChainParams) (execution_params : ExecutionChainParams) : result HeaderError unit :=
  let h := bh_execution_inputs header in
  _ ← header_check (bool_decide (ph_ommers_hash h ≠ EMPTY_OMMER_ROOT_HASH)) (NonEmptyOmmersHash (ph_ommers_hash h));
  let expected_transactions_root := calculate_transaction_root (eb_transactions (execution_body body)) in
  _ ← header_check (bool_decide (ph_transactions_root h ≠ expected_transactions_root))
        (InvalidTransactionsRoot expected_transactions_root (ph_transactions_root h));
  _ ← header_check (bool_decide (ph_withdrawals_root h ≠ EMPTY_WITHDRAWALS)) (NonEmptyWithdrawalsRoot (ph_withdrawals_root h));
  _ ← header_check (bool_decide (ph_difficulty h ≠ 0)) (NonZeroDifficulty (ph_difficulty h));
  _ ← header_check (bool_decide (ph_number h ≠ bh_seq_num header)) (InvalidHeaderNumber (bh_seq_num header) (ph_number h));
  _ ← header_check (bool_decide (ph_gas_limit h ≠ cp_proposal_gas_limit params))
        (InvalidGasLimit (cp_proposal_gas_limit params) (ph_gas_limit h));
  _ ← header_check (bool_decide (ph_timestamp h ≠ bh_timestamp_ns header / 1000000000))
        (InvalidTimestamp (bh_timestamp_ns header / 1000000000) (ph_timestamp h));
  let signature_hash := round_signature_get_hash (bh_round_signature header) in
  _ ← header_check (bool_decide (ph_mix_hash h ≠ signature_hash)) (InvalidRoundSignatureHash signature_hash (ph_mix_hash h));
  _ ← header_check (bool_decide (ph_nonce h ≠ 0)) (NonEmptyHeaderNonce (ph_nonce h));
  _ ← header_check (bool_decide (ph_extra_data h ≠ 0)) (NonEmptyExtraData (ph_extra_data h));
  _ ← header_check (bool_decide (ph_blob_gas_used h ≠ 0)) (NonZeroBlockGasUsed (ph_blob_gas_used h));
  _ ← header_check (bool_decide (ph_excess_blob_gas h ≠ 0)) (NonZeroExcessBlobGas (ph_excess_blob_gas h));
  _ ← header_check (bool_decide (ph_parent_beacon_block_root h ≠ 0)) (NonEmptyParentBeaconRoot (ph_parent_beacon_block_root h));
  _ ← header_check (bool_decide (bh_base_fee header ≠ ph_base_fee_per_gas h))
        (InvalidBaseFee (bh_base_fee header) (ph_base_fee_per_gas h));
  let expected_requests_hash := if ep_prague_enabled execution_params then Some 0 else None in
  header_check (bool_decide (ph_requests_hash h ≠ expected_requests_hash))
    (InvalidRequestsHash expected_requests_hash (ph_requests_hash h)).

Definition validate_block_header (header : ConsensusBlockHeader) (body : ConsensusBlockBody)
    (author_pubkey : option CertPubKey) (params : ChainParams) (execution_params : ExecutionChainParams)
    : result HeaderError unit :=
  _ ← header_check (bool_decide (bh_block_body_id header ≠ body_get_id body))
        (HeaderPayloadMismatch (body_get_id body) (bh_block_body_id header));
  _ ← match author_pubkey with
      | Some author_pubkey =>
          header_check (negb (round_signature_verify (bh_round_signature header) (bh_block_round header) author_pubkey))
            RandaoError
      | None => Ok tt
      end;
  validate_execution_inputs header body params execution_params.

Definition header_chain_params (header : ConsensusBlockHeader) : ChainParams :=
  chain_params (cc_chain_revision chain_config (bh_block_round header)).
Definition header_execution_params (header : ConsensusBlockHeader) : ExecutionChainParams :=
  execution_chain_params
    (cc_execution_chain_revision chain_config (timestamp_ns_to_secs (bh_timestamp_ns header))).

(** The limits that are checked before any transaction is. *)
Definition check_body_limits (params : ChainParams) (body : EthBlockBody) : result PayloadError unit :=
  if bool_decide (eb_ommers body ≠ []) then Err (NonEmptyOmmers (eb_ommers body))
  else if bool_decide (eb_withdrawals body ≠ []) then Err (NonEmptyWithdrawals (eb_withdrawals body))
  else
    let num_txs := N.of_nat (length (eb_transactions body)) in
    if bool_decide (cp_tx_limit params < num_txs) then Err (ExceededNumTxnLimit num_txs) else
    total_gas ← ok_or (checked_gas_sum 0 (eb_transactions body)) (ExceededBlockGasLimit u64_MAX);
    if bool_decide (cp_proposal_gas_limit params < total_gas) then Err (ExceededBlockGasLimit total_gas) else Ok tt.

Definition validate_block_body (header : ConsensusBlockHeader) (body : ConsensusBlockBody)
    : outcome (result EthBlockValidationError (list ValidatedTx * list ValidatedTx * NonceUsageMap * TxnFees)) :=
  let params := header_chain_params header in
  let chain_id := cc_chain_id chain_config in
  let execution_params := header_execution_params header in
  _ ←? Ret (map_err EbPayloadError (check_body_limits params (execution_body body)));
  recovered_txns ←? Ret (ok_or (mapM recover_txn (eb_transactions (execution_body body))) (EbTxnError SignerRecoveryError));
  '(system_txns, eth_txns) ←?
    Ret (map_err EbSystemTxnError (extract_system_transactions chain_config header recovered_txns));
  let system_txns_size := encoded_size (vt_env <$> system_txns) in
  let user_txns_size := encoded_size (rt_inner <$> eth_txns) in
  let proposal_size := wrapping_add64 system_txns_size user_txns_size in
  _ ←? Ret (if bool_decide (cp_proposal_byte_limit params < proposal_size)
            then Err (EbPayloadError (ExceededBlockSizeLimit proposal_size)) else Ok tt);
  nonce_usages ←? Ret (map_err EbTxnError (process_system_txns ∅ system_txns));
  _ ←? Ret (map_err EbTxnError (static_validate_all chain_id params execution_params eth_txns));
  let validated_txns := recover_validated <$> eth_txns in
  r ← try_fold (process_txn (bh_base_fee header) chain_id) (nonce_usages, ∅) validated_txns;
  match r with
  | Err e => Ret (Err (EbTxnError e))
  | Ok (nonce_usages, txn_fees) => Ret (Ok (system_txns, validated_txns, nonce_usages, txn_fees))
  end.

(** [EthBlockValidator::validate]. *)
Definition eth_validate (header : ConsensusBlockHeader) (body : ConsensusBlockBody) (author_pubkey : option CertPubKey)
    : outcome (result EthBlockValidationError EthValidatedBlock) :=
  match validate_block_header header body author_pubkey (header_chain_params header) (header_execution_params header) with
  | Err header_error => Ret (Err (EbHeaderError header_error))
  | Ok _ =>
      '(system_txns, validated_txns, nonce_usages, txn_fees) ←? validate_block_body header body;
      block ← expect (full_block_new header body);
      Ret (Ok (mkEthValidatedBlock block system_txns validated_txns nonce_usages txn_fees))
  end.
End block_validator.
