(* ===== verification/ReserveProps.v ===== *)
(** * Charging a block at once or one transaction at a time

    The summary of fees the block validator collects for an account carries
    all that [try_apply_block_fees] needs: applying it succeeds exactly when
    charging the account's transactions one by one with [try_add_transaction]
    does, and leaves the account in the same state. States are compared by
    [≡]: the block of the latest transaction does not matter for an account
    that is delegated, whose transactions are never emptying. *)
From S2P Require Import Prelude Types ChainConfig Interfaces MultiSig Certificates Concrete BlockTree EthTypes ToyEth ReserveBalance NonceUsage StaticValidation SystemCalls EthBlockValidator.

(** What a computation returned, without its errors. *)
Definition ok_of {E A} (m : outcome (result E A)) : option A :=
  match m with Ret (Ok a) => Some a | _ => None end.

Lemma ok_of_Some {E A} (m : outcome (result E A)) a : ok_of m = Some a ↔ m = Ret (Ok a).
Proof. destruct m as [[?|?]| |]; simpl; naive_solver. Qed.

Lemma ok_of_bind {E A B} (m : outcome (result E A)) (k : A → outcome (result E B)) :
  ok_of (try_bind m k) = ok_of m ≫= λ a, ok_of (k a).
Proof. by destruct m as [[?|?]| |]. Qed.

(** ** States of accounts up to what later charges depend on *)

#[global] Instance account_equiv : Equiv AccountBalanceState := λ s t,
  ab_balance s = ab_balance t ∧ ab_remaining_reserve_balance s = ab_remaining_reserve_balance t ∧
  ab_max_reserve_balance s = ab_max_reserve_balance t ∧ ab_is_delegated s = ab_is_delegated t ∧
  (ab_is_delegated s = false → ab_block_seqnum_of_latest_txn s = ab_block_seqnum_of_latest_txn t).

#[global] Instance account_equivalence : Equivalence (≡@{AccountBalanceState}).
Proof.
  split.
  - by intros s.
  - intros s t (? & ? & ? & Hd & Hl). split_and!; try congruence. intros. symmetry. apply Hl. congruence.
  - intros s t u (? & ? & ? & Hd & Hl) (? & ? & ? & Hd' & Hl'). split_and!; try congruence.
    intros. etrans; [by apply Hl|apply Hl'; congruence].
Qed.

#[global] Instance set_delegated_proper : Proper ((≡) ==> (≡)) set_delegated.
Proof. intros s t (? & ? & ? & ? & ?). by split_and!. Qed.

#[global] Instance possibly_emptying_proper cur : Proper ((≡) ==> (=) ==> (=)) (is_possibly_emptying_transaction cur).
Proof.
  intros s t (_ & _ & _ & Hd & Hl) k ? <-. unfold is_possibly_emptying_transaction. rewrite <- Hd.
  destruct (ab_is_delegated s); [done|]. by rewrite Hl.
Qed.

(** With a delay of at least one block, the check for an emptying transaction
    is a predicate. *)
Definition possibly_emptying (cur : SeqNum) (s : AccountBalanceState) (delay : SeqNum) : bool :=
  negb (ab_is_delegated s) && bool_decide (delay ≤ cur - ab_block_seqnum_of_latest_txn s).

Lemma is_possibly_emptying_ret cur s delay : 1 ≤ delay →
  is_possibly_emptying_transaction cur s delay = Ret (possibly_emptying cur s delay).
Proof.
  intros Hd. unfold is_possibly_emptying_transaction, possibly_emptying, saturating_sub.
  destruct (ab_is_delegated s); [done|]. simpl. unfold seq_sub, checked_sub. rewrite decide_True by done. simpl.
  f_equal. apply bool_decide_ext. lia.
Qed.

Section reserve_props.
Context {A : Alloy} {AW : AlloyWidths A} {CR : Type} {CRV : ChainRevision CR}.
Implicit Types (v : EthBlockPolicyBlockValidator CR) (s t : AccountBalanceState) (f : TxnFee).

(** ** Gas costs *)

Definition GAS_COST_MAX : N := u64_MAX * u128_MAX.

(** The gas cost of a transaction: its limit at the price it bids. *)
Definition txn_gas (tx : TxEnvelope) (base_fee : N) : N :=
  tx_gas_limit tx *
  (if bool_decide (tx_type tx = TtLegacy) || bool_decide (tx_type tx = TtEip2930) then tx_max_fee_per_gas tx
   else N.min (tx_max_fee_per_gas tx) (saturating_add U256_MAX base_fee (default 0 (tx_max_priority_fee_per_gas tx)))).

Lemma txn_gas_bound tx base_fee : txn_gas tx base_fee ≤ GAS_COST_MAX.
Proof.
  unfold txn_gas, GAS_COST_MAX. apply N.mul_le_mono; [apply tx_gas_limit_u64|].
  pose proof (tx_max_fee_u128 tx). destruct (_ || _); lia.
Qed.

Lemma GAS_COST_MAX_256 : GAS_COST_MAX * u64_MAX ≤ U256_MAX.
Proof. by vm_compute. Qed.

Lemma compute_txn_max_gas_cost_ret tx base_fee : compute_txn_max_gas_cost tx base_fee = Ret (txn_gas tx base_fee).
Proof.
  pose proof (txn_gas_bound tx base_fee) as Hb. pose proof GAS_COST_MAX_256 as Hm.
  assert (GAS_COST_MAX ≤ U256_MAX) by (vm_compute; congruence).
  unfold compute_txn_max_gas_cost, txn_gas, checked_mul in *.
  destruct (_ || _); rewrite decide_True by lia; done.
Qed.

(** ** One account's view of a block *)

(** What [try_add_transaction] does to the entry of account [a]. *)
Definition account_step v (a : Address) (s : AccountBalanceState) (txn : ValidatedTx) : option AccountBalanceState :=
  s ← (if bool_decide (vt_signer txn = a) then ok_of (charge_transaction v s txn) else Some s);
  Some (if bool_decide (a ∈ vt_authorities txn) then set_delegated s else s).

Definition account_run v (a : Address) (s : AccountBalanceState) (txns : list ValidatedTx) : option AccountBalanceState :=
  foldl (λ o txn, o ≫= λ s, account_step v a s txn) (Some s) txns.

(** What the block validator does to the fees of account [a]. *)
Definition fee_step (base_fee : N) (a : Address) (o : option TxnFee) (txn : ValidatedTx) : option TxnFee :=
  let o := if bool_decide (a ∈ vt_authorities txn)
           then Some (match o with Some f => {| f with tf_is_delegated := true |} | None => mkTxnFee 0 0 0 true true end)
           else o in
  if bool_decide (vt_signer txn = a) then
    let gas := txn_gas (vt_env txn) base_fee in
    Some (match o with
          | Some f => {| f with tf_max_gas_cost := saturating_add U256_MAX (tf_max_gas_cost f) gas |}
          | None => mkTxnFee (tx_value (vt_env txn)) gas 0 false false
          end)
  else o.

Definition account_fees (base_fee : N) (a : Address) (txns : list ValidatedTx) : option TxnFee :=
  foldl (fee_step base_fee a) None txns.

(** The gas of the transactions that account [a] sends. *)
Definition sent_gas (base_fee : N) (a : Address) (txns : list ValidatedTx) : N :=
  sumN ((λ txn, if bool_decide (vt_signer txn = a) then txn_gas (vt_env txn) base_fee else 0) <$> txns).

Lemma sent_gas_bound base_fee a txns : sent_gas base_fee a txns ≤ GAS_COST_MAX * N.of_nat (length txns).
Proof.
  unfold sent_gas. induction txns as [|txn txns IH]; [done|]. rewrite fmap_cons, sumN_cons. simpl length.
  pose proof (txn_gas_bound (vt_env txn) base_fee). case_bool_decide; lia.
Qed.

Lemma contains_self_authorization_spec txn :
  contains_self_authorization txn = bool_decide (vt_signer txn ∈ vt_authorities txn).
Proof.
  unfold contains_self_authorization, vt_authorities.
  induction (vt_authorizations_7702 txn) as [|x l IH]; [done|]. simpl.
  destruct (ra_authority x) as [b|].
  - rewrite IH. apply eq_bool_prop_intro. rewrite orb_True, !bool_decide_spec. set_solver.
  - rewrite bool_decide_eq_false_2 by done. exact IH.
Qed.

(** ** The closed form of [try_apply_block_fees] *)

Definition apply_emptying v s f : bool :=
  possibly_emptying (bv_block_seq_num v) s (bv_execution_delay v) && negb (tf_delegation_before_first_txn f).

(** Balance and reserve the block's remaining gas is charged to, and that gas. *)
Definition apply_base v s f : option (Balance * Balance) :=
  if apply_emptying v s f then
    if bool_decide (ab_balance s < tf_first_txn_gas f) then None else
    let est := ab_balance s - saturating_add U256_MAX (tf_first_txn_value f) (tf_first_txn_gas f) in
    Some (est, N.min est (cp_max_reserve_balance (chain_params (bv_chain_revision v))))
  else Some (ab_balance s, ab_remaining_reserve_balance s).

Definition apply_cost v s f : Balance :=
  tf_max_gas_cost f + (if apply_emptying v s f then 0 else tf_first_txn_gas f).

Definition apply_spec v s f : option AccountBalanceState :=
  '(balance, reserve) ← apply_base v s f;
  if bool_decide (reserve < apply_cost v s f) then None else
  Some (mkAccountBalanceState balance (reserve - apply_cost v s f) (ab_max_reserve_balance s) (bv_block_seq_num v)
          (ab_is_delegated s || tf_is_delegated f)).

Lemma try_apply_block_fees_spec v s f : 1 ≤ bv_execution_delay v → tf_max_gas_cost f + tf_first_txn_gas f ≤ U256_MAX →
  is_ret (try_apply_block_fees v s f) ∧ ok_of (try_apply_block_fees v s f) = apply_spec v s f.
Proof.
  intros Hk Hs. unfold try_apply_block_fees, apply_spec, apply_base, apply_cost, apply_emptying.
  rewrite is_possibly_emptying_ret by done. cbn [mbind outcome_bind].
  destruct (possibly_emptying _ _ _ && _); simpl.
  - case_bool_decide as Hb; simpl; [by split; [eexists|]|]. rewrite N.add_0_r.
    unfold saturating_sub. case_bool_decide; simpl; split; try done; by eexists.
  - unfold saturating_sub. replace (saturating_add U256_MAX _ _) with (tf_max_gas_cost f + tf_first_txn_gas f)
      by (unfold saturating_add; lia).
    case_bool_decide; simpl; split; try done; by eexists.
Qed.

#[global] Instance apply_spec_proper v : Proper ((≡) ==> (=) ==> (≡)) (apply_spec v).
Proof.
  intros s t Hst f ? <-.
  assert (possibly_emptying (bv_block_seq_num v) s (bv_execution_delay v) =
          possibly_emptying (bv_block_seq_num v) t (bv_execution_delay v)) as Hp.
  { destruct Hst as (_ & _ & _ & Hd & Hl). unfold possibly_emptying. rewrite <- Hd.
    destruct (ab_is_delegated s); [done|]. by rewrite Hl. }
  destruct Hst as (Hb & Hr & Hm & Hd & Hl). unfold apply_spec, apply_base, apply_cost, apply_emptying.
  rewrite Hp, Hb, Hr, Hd, Hm. reflexivity.
Qed.

Lemma apply_spec_reserve v s f t :
  apply_spec v s f = Some t → ab_max_reserve_balance t = ab_max_reserve_balance s.
Proof.
  unfold apply_spec. destruct (apply_base v s f) as [[??]|]; [|done]. simpl. case_bool_decide; [done|]. by intros [= <-].
Qed.

(** One more transaction, or an authorization, after the summary has begun. *)
Lemma apply_spec_add_gas v s f gas :
  apply_spec v s {| f with tf_max_gas_cost := tf_max_gas_cost f + gas |} =
  (t ← apply_spec v s f; if bool_decide (ab_remaining_reserve_balance t < gas) then None else
   Some {| t with ab_remaining_reserve_balance := ab_remaining_reserve_balance t - gas |}).
Proof.
  unfold apply_spec. change (apply_base v s {| f with tf_max_gas_cost := _ |}) with (apply_base v s f).
  destruct (apply_base v s f) as [[balance reserve]|]; [|done]. cbn [mbind option_bind].
  assert (apply_cost v s {| f with tf_max_gas_cost := tf_max_gas_cost f + gas |} = apply_cost v s f + gas) as ->.
  { unfold apply_cost. change (apply_emptying v s {| f with tf_max_gas_cost := _ |}) with (apply_emptying v s f). simpl. lia. }
  case_bool_decide as H1; case_bool_decide as H2; simpl; try done.
  - rewrite bool_decide_eq_true_2 by lia. done.
  - lia.
  - rewrite bool_decide_eq_false_2 by lia. do 2 f_equal. lia.
Qed.

Lemma apply_spec_delegate v s f :
  apply_spec v s {| f with tf_is_delegated := true |} = set_delegated <$> apply_spec v s f.
Proof.
  unfold apply_spec. change (apply_base v s {| f with tf_is_delegated := true |}) with (apply_base v s f).
  destruct (apply_base v s f) as [[balance reserve]|]; [|done]. cbn [mbind option_bind].
  change (apply_cost v s {| f with tf_is_delegated := true |}) with (apply_cost v s f).
  case_bool_decide; simpl; [done|]. unfold set_delegated. simpl. by rewrite orb_true_r.
Qed.

(** A charge on an account that has a transaction in the block, or is
    delegated, is against the reserve. *)
Lemma charge_later v s txn : 1 ≤ bv_execution_delay v →
  possibly_emptying (bv_block_seq_num v) s (bv_execution_delay v) = false ∨ vt_signer txn ∈ vt_authorities txn →
  let gas := txn_gas (vt_env txn) (bv_base_fee v) in
  ok_of (charge_transaction v s txn) =
    if bool_decide (ab_remaining_reserve_balance s < gas) then None else
    Some {| s with ab_remaining_reserve_balance := ab_remaining_reserve_balance s - gas;
                   ab_block_seqnum_of_latest_txn := bv_block_seq_num v |}.
Proof.
  intros Hk Hp gas. unfold charge_transaction. rewrite is_possibly_emptying_ret by done. cbn [mbind outcome_bind].
  replace (_ && negb (contains_self_authorization txn)) with false.
  2:{ rewrite contains_self_authorization_spec. destruct Hp as [->|Hp]; [done|].
      rewrite bool_decide_eq_true_2 by done. by rewrite andb_false_r. }
  rewrite compute_txn_max_gas_cost_ret. cbn [mbind outcome_bind]. unfold saturating_sub.
  subst gas. by destruct (bool_decide _).
Qed.

Lemma apply_spec_latest v s f t : apply_spec v s f = Some t → ab_block_seqnum_of_latest_txn t = bv_block_seq_num v.
Proof.
  unfold apply_spec. destruct (apply_base v s f) as [[balance reserve]|]; [|done]. simpl. case_bool_decide; [done|].
  by intros [= <-].
Qed.

Lemma apply_spec_not_emptying v s f t : 1 ≤ bv_execution_delay v → apply_spec v s f = Some t → ∀ u, u ≡ t →
  possibly_emptying (bv_block_seq_num v) u (bv_execution_delay v) = false.
Proof.
  intros Hk Ht u (_ & _ & _ & Hd & Hl). unfold possibly_emptying. destruct (ab_is_delegated u); [done|].
  rewrite Hl, (apply_spec_latest v s f t Ht) by done. simpl. apply bool_decide_eq_false. lia.
Qed.
(** ** The summary carries the run *)

#[local] Instance charge_step_proper gas seq :
  Proper ((≡) ==> (≡)) (λ s, if bool_decide (ab_remaining_reserve_balance s < gas) then None else
    Some {| s with ab_remaining_reserve_balance := ab_remaining_reserve_balance s - gas;
                   ab_block_seqnum_of_latest_txn := seq |}).
Proof.
  intros s t (Hb & Hr & Hm & Hd & Hl). rewrite Hr. case_bool_decide; [done|]. constructor. by split_and!.
Qed.

(** The last transaction of a block, when the account already has a summary. *)
Lemma account_step_later v a s t txn f s0 : 1 ≤ bv_execution_delay v → apply_spec v s0 f = Some t → s ≡ t →
  tf_max_gas_cost f + txn_gas (vt_env txn) (bv_base_fee v) ≤ U256_MAX →
  ∃ f', fee_step (bv_base_fee v) a (Some f) txn = Some f' ∧ account_step v a s txn ≡ apply_spec v s0 f' ∧
    tf_first_txn_gas f' = tf_first_txn_gas f ∧
    tf_max_gas_cost f' = tf_max_gas_cost f +
      (if bool_decide (vt_signer txn = a) then txn_gas (vt_env txn) (bv_base_fee v) else 0).
Proof.
  intros Hk Ht Hst Hsat. pose proof (apply_spec_not_emptying v s0 f t Hk Ht s Hst) as Hp.
  unfold fee_step, account_step. cbv beta iota zeta. set (gas := txn_gas _ _) in *.
  set (f1 := if bool_decide (a ∈ vt_authorities txn) then {| f with tf_is_delegated := true |} else f).
  assert (apply_spec v s0 f1 = Some (if bool_decide (a ∈ vt_authorities txn) then set_delegated t else t)) as Hf1.
  { unfold f1. case_bool_decide; [|done]. by rewrite apply_spec_delegate, Ht. }
  assert (tf_max_gas_cost f1 = tf_max_gas_cost f ∧ tf_first_txn_gas f1 = tf_first_txn_gas f) as [Hm1 Hg1]
    by (unfold f1; by case_bool_decide).
  replace (if bool_decide (a ∈ vt_authorities txn) then Some {| f with tf_is_delegated := true |} else Some f)
    with (Some f1) by (unfold f1; by case_bool_decide).
  decide_case (vt_signer txn = a) Ha.
  - eexists. split; [done|]. split.
    + replace (saturating_add U256_MAX (tf_max_gas_cost f1) gas) with (tf_max_gas_cost f1 + gas)
        by (unfold saturating_add; lia).
      rewrite apply_spec_add_gas, Hf1, charge_later by auto. fold gas. cbn [mbind option_bind].
      replace (ab_remaining_reserve_balance (if bool_decide (a ∈ vt_authorities txn) then set_delegated t else t))
        with (ab_remaining_reserve_balance s) by (destruct Hst as (_ & -> & _); by case_bool_decide).
      decide_case (ab_remaining_reserve_balance s < gas) Hr; [done|]. cbn [mbind option_bind]. constructor.
      assert (ab_block_seqnum_of_latest_txn t = bv_block_seq_num v) as Hlt.
      { by apply apply_spec_latest in Ht. }
      destruct Hst as (? & ? & ? & ? & ?). case_bool_decide; split_and!; simpl; try done; congruence.
    + simpl. rewrite Hm1. unfold saturating_add. split; [done|]. lia.
  - exists f1. rewrite Hf1. split_and!; [done| |done|lia]. cbn [mbind option_bind]. constructor.
    case_bool_decide; [by f_equiv|done].
Qed.

(** A summary that cannot be applied stays so. *)
Lemma apply_spec_failed v a txn f s0 : apply_spec v s0 f = None →
  tf_max_gas_cost f + txn_gas (vt_env txn) (bv_base_fee v) ≤ U256_MAX →
  ∃ f', fee_step (bv_base_fee v) a (Some f) txn = Some f' ∧ apply_spec v s0 f' = None ∧
    tf_first_txn_gas f' = tf_first_txn_gas f ∧
    tf_max_gas_cost f' = tf_max_gas_cost f +
      (if bool_decide (vt_signer txn = a) then txn_gas (vt_env txn) (bv_base_fee v) else 0).
Proof.
  intros Hf Hsat. unfold fee_step. set (gas := txn_gas _ _) in *.
  assert (saturating_add U256_MAX (tf_max_gas_cost f) gas = tf_max_gas_cost f + gas) as Hs
    by (unfold saturating_add; lia).
  assert (apply_spec v s0 {| f with tf_is_delegated := true |} = None) as Hd by (by rewrite apply_spec_delegate, Hf).
  decide_case (a ∈ vt_authorities txn) Hau; decide_case (vt_signer txn = a) Ha; eexists; (split; [reflexivity|]); cbn [tf_max_gas_cost tf_first_txn_gas];
    rewrite ?Hs; (split; [|split; [done|lia]]); rewrite ?Hf; try done.
  - pose proof (apply_spec_add_gas v s0 {| f with tf_is_delegated := true |} gas) as Ho. rewrite Hd in Ho. exact Ho.
  - by rewrite apply_spec_add_gas, Hf.
Qed.

(** The first transaction or authorization of an account in a block. *)
Lemma account_step_first v a s0 txn : 1 ≤ bv_execution_delay v →
  ab_max_reserve_balance s0 = cp_max_reserve_balance (chain_params (bv_chain_revision v)) →
  match fee_step (bv_base_fee v) a None txn with
  | None => account_step v a s0 txn = Some s0 ∧ vt_signer txn ≠ a ∧ a ∉ vt_authorities txn
  | Some f => account_step v a s0 txn ≡ apply_spec v s0 f ∧
      tf_max_gas_cost f + tf_first_txn_gas f =
        if bool_decide (vt_signer txn = a) then txn_gas (vt_env txn) (bv_base_fee v) else 0
  end.
Proof.
  intros Hk Hmax. unfold fee_step, account_step.
  pose proof (txn_gas_bound (vt_env txn) (bv_base_fee v)) as Hg.
  assert (GAS_COST_MAX ≤ U256_MAX) by (vm_compute; congruence).
  set (gas := txn_gas _ _) in *.
  decide_case (a ∈ vt_authorities txn) Hau; decide_case (vt_signer txn = a) Ha; cbn [mbind option_bind].
  - (* an own transaction with an own authorization *)
    subst a. split; [|simpl; unfold saturating_add; lia].
    rewrite charge_later by auto. fold gas. unfold apply_spec, apply_base, apply_cost, apply_emptying. simpl.
    rewrite andb_false_r. replace (saturating_add U256_MAX 0 gas + 0) with gas by (unfold saturating_add; lia).
    cbn [mbind option_bind]. decide_case (ab_remaining_reserve_balance s0 < gas) Hr; [done|]. simpl. constructor.
    split_and!; simpl; try done. by rewrite orb_true_r.
  - (* an authorization only *)
    split; [|done]. unfold apply_spec, apply_base, apply_cost, apply_emptying. simpl. rewrite andb_false_r.
    cbn [mbind option_bind]. rewrite bool_decide_eq_false_2 by lia. constructor.
    split_and!; simpl; try done; [lia|by rewrite orb_true_r].
  - (* an own transaction *)
    subst a. split; [|simpl; lia].
    destruct (possibly_emptying (bv_block_seq_num v) s0 (bv_execution_delay v)) eqn:Hp.
    + unfold charge_transaction. rewrite is_possibly_emptying_ret by done. cbn [mbind outcome_bind].
      rewrite contains_self_authorization_spec, Hp, bool_decide_eq_false_2 by done. cbn [negb andb].
      unfold compute_txn_max_value. rewrite compute_txn_max_gas_cost_ret. fold gas. cbn [mbind outcome_bind].
      unfold apply_spec, apply_base, apply_cost, apply_emptying. rewrite Hp. simpl.
      decide_case (ab_balance s0 < gas) Hb; [done|]. simpl. rewrite bool_decide_eq_false_2 by lia. constructor.
      split_and!; simpl; try done; [unfold saturating_sub; lia|by rewrite orb_false_r].
    + rewrite charge_later by auto. fold gas. unfold apply_spec, apply_base, apply_cost, apply_emptying. rewrite Hp. simpl.
      cbn [mbind option_bind]. decide_case (ab_remaining_reserve_balance s0 < gas) Hr; [done|]. simpl. constructor.
    split_and!; simpl; try done. by rewrite orb_false_r.
  - done.
Qed.

Lemma account_run_snoc v a s txns txn :
  account_run v a s (txns ++ [txn]) = account_run v a s txns ≫= λ s, account_step v a s txn.
Proof. unfold account_run. by rewrite foldl_app. Qed.

Lemma sent_gas_snoc base_fee a txns txn :
  sent_gas base_fee a (txns ++ [txn]) =
  sent_gas base_fee a txns + (if bool_decide (vt_signer txn = a) then txn_gas (vt_env txn) base_fee else 0).
Proof. unfold sent_gas. rewrite fmap_app, sumN_app. simpl. rewrite sumN_cons. change (sumN []) with 0. lia. Qed.

(** An account without a summary is not touched by the block; with one, the
    run is the application of the summary. *)
Lemma account_run_fees v a s0 txns : 1 ≤ bv_execution_delay v →
  ab_max_reserve_balance s0 = cp_max_reserve_balance (chain_params (bv_chain_revision v)) →
  N.of_nat (length txns) ≤ u64_MAX →
  match account_fees (bv_base_fee v) a txns with
  | None => account_run v a s0 txns = Some s0 ∧ sent_gas (bv_base_fee v) a txns = 0
  | Some f => account_run v a s0 txns ≡ apply_spec v s0 f ∧
      tf_max_gas_cost f + tf_first_txn_gas f = sent_gas (bv_base_fee v) a txns
  end.
Proof.
  intros Hk Hmax. pose proof GAS_COST_MAX_256 as H256.
  induction txns as [|txn txns IH] using rev_ind; intros Hlen; [done|].
  rewrite length_app in Hlen. simpl in Hlen.
  pose proof (sent_gas_bound (bv_base_fee v) a txns) as Hb. pose proof (txn_gas_bound (vt_env txn) (bv_base_fee v)) as Hg.
  rewrite account_run_snoc, sent_gas_snoc. unfold account_fees in *. rewrite foldl_app. simpl.
  specialize (IH ltac:(lia)). destruct (foldl _ None txns) as [f|].
  - destruct IH as [IH Hf].
    destruct (apply_spec v s0 f) as [t|] eqn:Ht.
    + apply Some_equiv_eq in IH as (s & Hs & Hst). rewrite Hs. simpl.
      assert (tf_max_gas_cost f + txn_gas (vt_env txn) (bv_base_fee v) ≤ U256_MAX) as Hsat by nia.
      destruct (account_step_later v a s t txn f s0 Hk Ht Hst Hsat) as (f' & -> & Hstep & Hg' & Hm'). split; [done|lia].
    + apply None_equiv_eq in IH. rewrite IH. simpl.
      assert (tf_max_gas_cost f + txn_gas (vt_env txn) (bv_base_fee v) ≤ U256_MAX) as Hsat by nia.
      destruct (apply_spec_failed v a txn f s0 Ht Hsat) as (f' & -> & -> & Hg' & Hm'). split; [done|lia].
  - destruct IH as [IH Hz]. rewrite IH. simpl. pose proof (account_step_first v a s0 txn Hk Hmax) as Hfirst.
    rewrite Hz, N.add_0_l. destruct (fee_step _ a None txn); [done|].
    destruct Hfirst as (-> & Hne & _). by rewrite bool_decide_eq_false_2.
Qed.
(** ** From one account to the map of accounts *)

Lemma authority_cons x l a : a ∈ omap ra_authority (x :: l) ↔ ra_authority x = Some a ∨ a ∈ omap ra_authority l.
Proof. simpl. destruct (ra_authority x); set_solver. Qed.

Lemma delegate_authorities_lookup (m : AccountBalanceStates) l a :
  foldl delegate_authority m l !! a =
  (if bool_decide (a ∈ omap ra_authority l) then set_delegated else id) <$> m !! a.
Proof.
  revert m. induction l as [|x l IH]; intros m; [simpl; by rewrite option_fmap_id|]. cbn [foldl].
  rewrite IH, (bool_decide_ext _ _ (authority_cons x l a)). unfold delegate_authority.
  destruct (decide (ra_authority x = Some a)) as [Hx|Hx].
  - rewrite Hx, lookup_alter_eq, (bool_decide_eq_true_2 (_ ∨ _)) by auto.
    destruct (m !! a); simpl; [|done]. by case_bool_decide.
  - rewrite (bool_decide_ext (_ ∨ _) (a ∈ omap ra_authority l)) by naive_solver.
    destruct (ra_authority x); [|done]. rewrite lookup_alter_ne by congruence. done.
Qed.

(** A transaction succeeds if the charge of its sender does, and acts on
    every entry as [account_step]. *)
Lemma try_add_transaction_ok v (m : AccountBalanceStates) txn s : m !! vt_signer txn = Some s →
  match account_step v (vt_signer txn) s txn with
  | None => ok_of (try_add_transaction v m txn) = None
  | Some _ => ∃ m', ok_of (try_add_transaction v m txn) = Some m' ∧
      ∀ a, m' !! a = m !! a ≫= λ s, account_step v a s txn
  end.
Proof.
  intros Hs. unfold account_step at 1, try_add_transaction. rewrite Hs.
  rewrite (bool_decide_eq_true_2 (vt_signer txn = vt_signer txn)), ok_of_bind by done. destruct (ok_of (charge_transaction v s txn)) as [s'|] eqn:Hc; [|done]. simpl.
  eexists. split; [done|]. intros a. rewrite delegate_authorities_lookup. unfold account_step.
  fold (vt_authorities txn). decide_case (vt_signer txn = a) Ha.
  - subst a. rewrite lookup_insert_eq, Hs. simpl. rewrite Hc. simpl. by case_bool_decide.
  - rewrite lookup_insert_ne by done. destruct (m !! a); simpl; [|done]. by case_bool_decide.
Qed.

(** Every transaction of the block is from an account with an entry. *)
Definition populated (m : AccountBalanceStates) (txns : list ValidatedTx) : Prop :=
  Forall (λ txn, is_Some (m !! vt_signer txn)) txns.

(** The transactions of a block are accepted if and only if the run of every
    account succeeds, and then leave every account as its run does. *)
Lemma try_add_transactions_ok v txns (m : AccountBalanceStates) : populated m txns →
  match ok_of (try_fold (try_add_transaction v) m txns) with
  | Some m' => ∀ a, m' !! a = m !! a ≫= (λ s, account_run v a s txns) ∧ (is_Some (m !! a) → is_Some (m' !! a))
  | None => ∃ a s, m !! a = Some s ∧ account_run v a s txns = None
  end.
Proof.
  revert m. induction txns as [|txn txns IH]; intros m Hpop.
  { simpl. intros a. by destruct (m !! a). }
  apply Forall_cons in Hpop as [[s Hs] Hpop]. simpl. rewrite ok_of_bind.
  assert (∀ a s, account_run v a s (txn :: txns) = account_step v a s txn ≫= λ s, account_run v a s txns) as Hrun.
  { intros a s1. unfold account_run at 1. simpl. destruct (account_step v a s1 txn); simpl; [done|].
    clear. by induction txns. }
  pose proof (try_add_transaction_ok v m txn s Hs) as Hadd.
  destruct (account_step v (vt_signer txn) s txn) as [s1|] eqn:Hstep.
  2:{ rewrite Hadd. simpl. exists (vt_signer txn), s. by rewrite Hrun, Hstep. }
  destruct Hadd as (m1 & -> & Hm1). simpl.
  assert (∀ a, is_Some (m !! a) → is_Some (m1 !! a)) as Hdom.
  { intros a [sa Hsa]. rewrite Hm1, Hsa. simpl. destruct (decide (vt_signer txn = a)) as [<-|Ha].
    - rewrite Hsa in Hs. injection Hs as ->. by rewrite Hstep.
    - unfold account_step. rewrite (bool_decide_eq_false_2 (vt_signer txn = a)) by done. by eexists. }
  specialize (IH m1). destruct (ok_of (try_fold _ m1 txns)) as [m'|].
  - intros a. destruct IH with a as [IHa IHd].
    { eapply Forall_impl; [exact Hpop|]. intros t Ht. by apply Hdom. }
    split; [|eauto]. rewrite IHa, Hm1. destruct (m !! a) as [sa|]; simpl; [by rewrite Hrun|done].
  - destruct IH as (a & s2 & Hs2 & Hfail).
    { eapply Forall_impl; [exact Hpop|]. intros t Ht. by apply Hdom. }
    rewrite Hm1 in Hs2. destruct (m !! a) as [sa|] eqn:Hsa; [|done]. simpl in Hs2.
    exists a, sa. split; [done|]. by rewrite Hrun, Hs2.
Qed.

(** ** The summary is the one the block validator collects *)

(** Only EIP-7702 transactions carry authorizations. *)
Definition txn_wf (txn : ValidatedTx) : Prop :=
  tx_type (vt_env txn) ≠ TtEip7702 → vt_authorizations_7702 txn = [].

Lemma recover_validated_wf (l : list RecoveredTx) : Forall txn_wf (recover_validated <$> l).
Proof.
  apply Forall_fmap, Forall_forall. intros t _ Ht. unfold recover_validated, vt_env in *. simpl in *.
  by rewrite bool_decide_eq_false_2.
Qed.

Lemma process_authorizations_fees chain_id l nu fees nu' fees' a :
  process_authorizations chain_id (nu, fees) l = Ok (nu', fees') →
  fees' !! a = if bool_decide (a ∈ omap ra_authority l)
               then Some (match fees !! a with Some f => {| f with tf_is_delegated := true |} | None => mkTxnFee 0 0 0 true true end)
               else fees !! a.
Proof.
  revert nu fees. induction l as [|x l IH]; intros nu fees H; simpl in H; [by injection H as <- <-|].
  monad_inv H. destruct v as [nu1 fees1]. apply IH in H. rewrite H. clear H IH.
  rewrite (bool_decide_ext _ _ (authority_cons x l a)). unfold process_authorization in Hv.
  destruct (decide (ra_authority x = Some a)) as [Hx|Hx].
  - rewrite Hx in *. case_bool_decide; [done|]. rewrite (bool_decide_eq_true_2 (_ ∨ _)) by auto.
    assert (fees1 = authority_fee fees a) as ->.
    { destruct (other_chain _ _); [congruence|]. by monad_inv Hv; injection Hv. }
    unfold authority_fee. destruct (fees !! a); rewrite !lookup_insert_eq; by case_bool_decide.
  - rewrite (bool_decide_ext (_ ∨ _) (a ∈ omap ra_authority l)) by naive_solver.
    assert (fees1 !! a = fees !! a) as ->; [|done].
    destruct (ra_authority x) as [b|]; [|congruence]. case_bool_decide; [done|].
    assert (fees1 = authority_fee fees b) as ->.
    { destruct (other_chain _ _); [congruence|]. by monad_inv Hv; injection Hv. }
    unfold authority_fee. destruct (fees !! b); by rewrite lookup_insert_ne by congruence.
Qed.

Lemma process_txn_fees base_fee chain_id nu fees txn nu' fees' a : txn_wf txn →
  process_txn base_fee chain_id (nu, fees) txn = Ret (Ok (nu', fees')) →
  fees' !! a = fee_step base_fee a (fees !! a) txn.
Proof.
  intros Hwf H. unfold process_txn in H. case_bool_decide; [done|]. unfold add_known in H.
  apply try_bind_ok_inv in H as (u & _ & H). apply try_bind_ok_inv in H as ([nu1 fees1] & Hauth & H).
  rewrite compute_txn_max_gas_cost_ret in H. simpl in H. injection H as <- <-.
  unfold fee_step, signer_fee.
  assert (fees1 !! a = if bool_decide (a ∈ vt_authorities txn)
     then Some (match fees !! a with Some f => {| f with tf_is_delegated := true |} | None => mkTxnFee 0 0 0 true true end)
     else fees !! a) as Hf1.
  { case_bool_decide as Ht.
    - injection Hauth as Hauth. by apply process_authorizations_fees with (a := a) in Hauth.
    - unfold vt_authorities. rewrite Hwf by done. simpl. by injection Hauth as _ <-. }
  rewrite <- Hf1. decide_case (vt_signer txn = a) Ha.
  - subst a. destruct (fees1 !! vt_signer txn); by rewrite lookup_insert_eq.
  - destruct (fees1 !! vt_signer txn); by rewrite lookup_insert_ne.
Qed.

Lemma process_txns_fees base_fee chain_id txns nu fees nu' fees' a : Forall txn_wf txns →
  try_fold (process_txn base_fee chain_id) (nu, fees) txns = Ret (Ok (nu', fees')) →
  fees' !! a = foldl (fee_step base_fee a) (fees !! a) txns.
Proof.
  revert nu fees. induction txns as [|txn txns IH]; intros nu fees Hwf H; simpl in *; [by injection H as <- <-|].
  apply Forall_cons in Hwf as [Ht Hwf]. apply try_bind_ok_inv in H as ([nu1 fees1] & H1 & H).
  apply IH in H; [|done]. rewrite H. by rewrite (process_txn_fees _ _ _ _ _ _ _ a Ht H1).
Qed.
(** ** A block at once *)

Lemma fee_step_is_Some base_fee a o txn : is_Some o → is_Some (fee_step base_fee a o txn).
Proof. intros [f ->]. unfold fee_step. repeat case_bool_decide; by eexists. Qed.

Lemma fee_steps_is_Some base_fee a txns o : is_Some o → is_Some (foldl (fee_step base_fee a) o txns).
Proof. revert o. induction txns as [|txn txns IH]; intros o Ho; [done|]. simpl. by apply IH, fee_step_is_Some. Qed.

Lemma account_fees_signer base_fee txns o : Forall (λ txn, is_Some (foldl (fee_step base_fee (vt_signer txn)) (o (vt_signer txn)) txns)) txns.
Proof.
  revert o. induction txns as [|txn txns IH]; intros o; [done|]. constructor.
  - simpl. apply fee_steps_is_Some. unfold fee_step at 1. rewrite (bool_decide_eq_true_2 (vt_signer txn = _)) by done. by eexists.
  - eapply Forall_impl; [apply (IH (λ a, fee_step base_fee a (o a) txn))|]. done.
Qed.

Definition reserve_ok v (s : AccountBalanceState) : Prop :=
  ab_max_reserve_balance s = cp_max_reserve_balance (chain_params (bv_chain_revision v)).

#[global] Instance reserve_ok_dec v s : Decision (reserve_ok v s).
Proof. unfold reserve_ok. apply _. Defined.

(** Applying the summary an account has, if it has one. *)
Definition apply_fees v s (o : option TxnFee) : option AccountBalanceState :=
  match o with None => Some s | Some f => ok_of (try_apply_block_fees v s f) end.

Lemma account_run_apply v a s txns : 1 ≤ bv_execution_delay v → reserve_ok v s → N.of_nat (length txns) ≤ u64_MAX →
  account_run v a s txns ≡ apply_fees v s (account_fees (bv_base_fee v) a txns) ∧
  ∀ f, account_fees (bv_base_fee v) a txns = Some f → is_ret (try_apply_block_fees v s f).
Proof.
  intros Hk Hr Hlen. pose proof (account_run_fees v a s txns Hk Hr Hlen) as H.
  destruct (account_fees _ a txns) as [f|]; [|by destruct H as [-> _]]. destruct H as [H Hg].
  pose proof (sent_gas_bound (bv_base_fee v) a txns) as Hb. pose proof GAS_COST_MAX_256.
  destruct (try_apply_block_fees_spec v s f Hk) as [Hret Hok]; [nia|]. simpl. rewrite Hok. split; [done|].
  by intros ? [= <-].
Qed.

Lemma charge_transaction_is_ret v s txn : 1 ≤ bv_execution_delay v → is_ret (charge_transaction v s txn).
Proof.
  intros Hk. unfold charge_transaction, compute_txn_max_value.
  rewrite is_possibly_emptying_ret, !compute_txn_max_gas_cost_ret by done. cbn [mbind outcome_bind].
  repeat case_match; by eexists.
Qed.

Lemma try_add_transactions_is_ret v txns m : 1 ≤ bv_execution_delay v → is_ret (try_fold (try_add_transaction v) m txns).
Proof.
  intros Hk. revert m. induction txns as [|txn txns IH]; intros m; simpl; [by eexists|].
  apply try_bind_ret; [|auto]. unfold try_add_transaction. destruct (m !! vt_signer txn); [|by eexists].
  apply try_bind_ret; [by apply charge_transaction_is_ret|by eexists].
Qed.

Lemma ok_of_None {B} (o : outcome (result BlockPolicyError B)) : is_ret o → ok_of o = None → ∃ e, o = Ret (Err e).
Proof. intros [[?|e] ->]; [done|]. by exists e. Qed.

(** C15. The transactions of a validated block, charged one by one, are accepted
    if and only if the summary of fees of every account can be applied; each
    account is then left in the state that applying its summary gives, and an
    account without a summary is left alone. *)
Theorem block_fees_match_transactions v chain_id txns nu nu' fees (m : AccountBalanceStates) :
  1 ≤ bv_execution_delay v → N.of_nat (length txns) ≤ u64_MAX → Forall txn_wf txns →
  try_fold (process_txn (bv_base_fee v) chain_id) (nu, ∅) txns = Ret (Ok (nu', fees)) →
  (∀ a s, m !! a = Some s → reserve_ok v s) → dom fees ⊆ dom m →
  (∃ m', try_fold (try_add_transaction v) m txns = Ret (Ok m') ∧
     ∀ a s, m !! a = Some s → ∃ s', m' !! a = Some s' ∧
       match fees !! a with
       | None => s' = s
       | Some f => ∃ t, try_apply_block_fees v s f = Ret (Ok t) ∧ s' ≡ t
       end)
  ∨ (∃ e, try_fold (try_add_transaction v) m txns = Ret (Err e)) ∧
    ∃ a s f e, m !! a = Some s ∧ fees !! a = Some f ∧ try_apply_block_fees v s f = Ret (Err e).
Proof.
  intros Hk Hlen Hwf Hfees Hr Hdom.
  assert (∀ a, fees !! a = account_fees (bv_base_fee v) a txns) as Hf.
  { intros a. apply (process_txns_fees _ _ _ _ _ _ _ a) in Hfees; [|done]. by rewrite Hfees, lookup_empty. }
  assert (populated m txns) as Hpop.
  { eapply Forall_impl; [apply (account_fees_signer (bv_base_fee v) txns (λ _, None))|]. intros txn Hs. simpl in Hs.
    apply elem_of_dom, Hdom, elem_of_dom. rewrite Hf. exact Hs. }
  pose proof (try_add_transactions_ok v txns m Hpop) as H.
  destruct (ok_of (try_fold _ m txns)) as [m'|] eqn:Hm'.
  - left. exists m'. split; [by apply ok_of_Some|]. intros a s Hs. destruct (H a) as [Ha Hsome].
    destruct Hsome as [s' Hs']; [by eexists|]. exists s'. split; [done|]. rewrite Hs', Hs in Ha. simpl in Ha.
    pose proof (account_run_fees v a s txns Hk (Hr a s Hs) Hlen) as Hone. rewrite Hf.
    destruct (account_run_apply v a s txns Hk (Hr a s Hs) Hlen) as [Hrun _]. rewrite <- Ha in Hrun.
    destruct (account_fees _ a txns) as [f|]; simpl in Hrun.
    + symmetry in Hrun. apply Some_equiv_eq in Hrun as (t & Ht & Hst). exists t. by rewrite <- ok_of_Some.
    + destruct Hone as [Hone _]. congruence.
  - right. split; [by apply ok_of_None; [apply try_add_transactions_is_ret|]|].
    destruct H as (a & s & Hs & Hfail). exists a, s.
    destruct (account_run_apply v a s txns Hk (Hr a s Hs) Hlen) as [Hrun Hret]. rewrite Hf, Hfail in *.
    symmetry in Hrun. apply None_equiv_eq in Hrun. destruct (account_fees _ a txns) as [f|]; [|done]. simpl in Hrun.
    destruct (ok_of_None _ (Hret f eq_refl) Hrun) as [e He]. by exists f, e.
Qed.
End reserve_props.

(** ** An example

    Account 1 sends an emptying transfer and a second one; account 2 signs an
    authorization in a transaction of account 3 and then sends one itself. *)
Module ReserveExample.
#[export] Existing Instance toy_alloy.
#[export] Existing Instance toy_widths.

Definition example_validator : EthBlockPolicyBlockValidator MonadChainRevision := mkBlockValidator 10 3 1 V_0_11_0.
Definition example_txns : list ValidatedTx :=
  (λ t : ToyTx, recover_validated (mkRecoveredTx t (default 0 (tt_signer t)))) <$>
  [toy_transfer 1 9 0 500 10 2; toy_transfer 1 9 1 5 10 2; toy_set_code 3 9 4 0 20 2 [(2, 0)]; toy_transfer 2 9 1 5 10 3].
Definition example_account (balance latest : N) : AccountBalanceState :=
  mkAccountBalanceState balance balance (cp_max_reserve_balance CHAIN_PARAMS_V_0_11_0) latest false.
Definition example_accounts : AccountBalanceStates :=
  list_to_map [(1, example_account 1000 2); (2, example_account 100 2); (3, example_account 100 9)].
Definition example_summary : NonceUsageMap * TxnFees :=
  match ok_of (try_fold (process_txn 1 20143) (∅, ∅) example_txns) with Some p => p | None => (∅, ∅) end.

Lemma block_fees_match_transactions_witness :
  ∃ m', try_fold (try_add_transaction example_validator) example_accounts example_txns = Ret (Ok m') ∧
    ∀ a s, example_accounts !! a = Some s → ∃ s', m' !! a = Some s' ∧
       match example_summary.2 !! a with
       | None => s' = s
       | Some f => ∃ t, try_apply_block_fees example_validator s f = Ret (Ok t) ∧ s' ≡ t
       end.
Proof.
  destruct (block_fees_match_transactions example_validator 20143 example_txns ∅ example_summary.1
    example_summary.2 example_accounts) as [H|[[e He] _]]; try exact H.
  - by vm_compute.
  - by vm_compute.
  - apply Forall_fmap, Forall_forall. intros t _ Ht. unfold recover_validated. simpl. by rewrite bool_decide_eq_false_2.
  - vm_refl.
  - intros a s Hs. assert (map_Forall (λ _ s, reserve_ok example_validator s) example_accounts) as Hall.
    { by apply (bool_decide_unpack _); vm_compute. }
    exact (Hall a s Hs).
  - by apply (bool_decide_unpack _); vm_compute.
  - exfalso. assert (returns (try_fold (try_add_transaction example_validator) example_accounts example_txns ≫= λ r,
      match r with Ok _ => Ret tt | Err _ => Panic end) = true) as Hr by vm_refl. by rewrite He in Hr.
Defined.
End ReserveExample.
