(* ===== verification/BaseFee.v ===== *)
(** * The base fee market (monad-tfm/src/base_fee.rs, arithmetic.rs)

    The base fee of a block follows from the gas the parent block used, by an
    exponential step whose size depends on the trend and moment of past usage.
    Integers are [Z] with the ranges of their Rust types: [CheckedU64] and
    [CheckedI64] panic on overflow, the 256-bit integers of the exponential
    wrap. *)
From Stdlib Require Import ZArith.
From S2P Require Import Prelude.
#[local] Open Scope Z_scope.

Definition u64_max : Z := 18446744073709551615.
Definition i64_max : Z := 9223372036854775807.
Definition i64_min : Z := -9223372036854775808.
Definition u128_max : Z := 340282366920938463463374607431768211455.
Definition i128_max : Z := 170141183460469231731687303715884105727.

(** ** arithmetic.rs *)

Definition checked (lo hi x : Z) : outcome Z := if bool_decide (lo ≤ x ≤ hi) then Ret x else Panic.
Definition cu64 : Z → outcome Z := checked 0 u64_max.
Definition ci64 : Z → outcome Z := checked i64_min i64_max.

Definition cu64_add (a b : Z) : outcome Z := cu64 (a + b).
Definition cu64_sub (a b : Z) : outcome Z := cu64 (a - b).
Definition cu64_mul (a b : Z) : outcome Z := cu64 (a * b).
Definition cu64_div (a b : Z) : outcome Z := if bool_decide (b = 0) then Panic else cu64 (a ÷ b).
Definition to_checked_i64 (a : Z) : outcome Z := ci64 a.
Definition ci64_neg (a : Z) : outcome Z := ci64 (- a).
Definition ci64_add (a b : Z) : outcome Z := ci64 (a + b).
Definition ci64_sub (a b : Z) : outcome Z := ci64 (a - b).
Definition ci64_mul (a b : Z) : outcome Z := ci64 (a * b).
Definition ci64_div (a b : Z) : outcome Z := if bool_decide (b = 0) then Panic else ci64 (a ÷ b).
Definition saturating_to_checked_u64 (a : Z) : Z := Z.max a 0.
Definition isqrt (a : Z) : Z := Z.sqrt a.

(** ** base_fee.rs *)

Definition GENESIS_BASE_FEE : Z := 0.
Definition GENESIS_BASE_FEE_TREND : Z := 0.
Definition GENESIS_BASE_FEE_MOMENT : Z := 0.
Definition MIN_BASE_FEE : Z := 100000000000.
Definition MAX_BASE_FEE : Z := 100000000000000000.

(** [u64::cast_signed] and back. *)
Definition cast_signed (x : Z) : Z := if bool_decide (x ≤ i64_max) then x else x - (u64_max + 1).
Definition cast_unsigned (x : Z) : Z := x `mod` (u64_max + 1).

(** The operators of [U256] and [I256] wrap. *)
Definition u256_wrap (x : Z) : Z := x `mod` 2 ^ 256.
Definition i256_wrap (x : Z) : Z := (x + 2 ^ 255) `mod` 2 ^ 256 - 2 ^ 255.
Definition i256_try_from (x : Z) : outcome Z := if bool_decide (x < 2 ^ 255) then Ret x else Panic.
(** [I256::checked_div(..).expect(..)]. *)
Definition i256_div (a b : Z) : outcome Z :=
  if bool_decide (b = 0) then Panic else
  if bool_decide (a = - 2 ^ 255 ∧ b = -1) then Panic else Ret (a ÷ b).

(** The loop of [fake_exponential]. The accumulator at least halves in every
    round, and it is a 256-bit integer. *)
Fixpoint exponential_loop (fuel : nat) (numerator denominator i numerator_accum output : Z) : outcome Z :=
  match fuel with
  | O => OutOfFuel
  | S fuel =>
      if bool_decide (numerator_accum = 0) then Ret output else
      let output := i256_wrap (output + numerator_accum) in
      d ← i256_try_from (u256_wrap (denominator * i));
      numerator_accum ← i256_div (i256_wrap (numerator_accum * numerator)) d;
      exponential_loop fuel numerator denominator (u256_wrap (i + 1)) numerator_accum output
  end.
Definition EXPONENTIAL_FUEL : nat := 256.

Definition fake_exponential (factor numerator denominator : Z) : outcome Z :=
  _ ← rust_assert (bool_decide (denominator ≠ 0));
  _ ← rust_assert (bool_decide (Z.abs numerator ≤ denominator));
  _ ← rust_assert (bool_decide (factor ≤ MAX_BASE_FEE));
  numerator_accum ← i256_try_from (u256_wrap (factor * denominator));
  output ← exponential_loop EXPONENTIAL_FUEL numerator denominator 1 numerator_accum 0;
  d ← i256_try_from denominator;
  output ← i256_div output d;
  Ret (output `mod` (u64_max + 1)).

Definition MAX_STEP_SIZE_DENOM : Z := 28.
Definition BETA : Z := 96.
Definition clamp (x lo hi : Z) : Z := if bool_decide (x < lo) then lo else if bool_decide (hi < x) then hi else x.

Definition compute_base_fee_math (block_gas_limit parent_gas_usage parent_base_fee parent_trend parent_moment : Z)
    : outcome (Z * Z * Z) :=
  block_gas_target ← cu64_mul block_gas_limit 8;
  block_gas_target ← cu64_div block_gas_target 10;
  usage_i64 ← to_checked_i64 parent_gas_usage;
  target_i64 ← to_checked_i64 block_gas_target;
  parent_delta ← ci64_sub usage_i64 target_i64;
  numerator ← ci64_mul target_i64 parent_delta;
  moment_i64 ← to_checked_i64 parent_moment;
  trend_sqr ← ci64_mul parent_trend parent_trend;
  sqrt_inner ← ci64_sub moment_i64 trend_sqr;
  let sqrt_term := isqrt (saturating_to_checked_u64 sqrt_inner) in
  spread ← cu64_add block_gas_target sqrt_term;
  denominator ← cu64_mul MAX_STEP_SIZE_DENOM spread;
  headroom ← cu64_sub block_gas_limit block_gas_target;
  denominator ← cu64_mul denominator headroom;
  base_fee ← fake_exponential parent_base_fee numerator denominator;
  let base_fee := clamp base_fee MIN_BASE_FEE MAX_BASE_FEE in
  beta_i64 ← to_checked_i64 BETA;
  old ← ci64_mul beta_i64 parent_trend;
  rest ← ci64_sub 100 beta_i64;
  minus_delta ← ci64_neg parent_delta;
  new ← ci64_mul rest minus_delta;
  sum ← ci64_add old new;
  trend ← ci64_div sum 100;
  moment_decay ← checked 0 u128_max (BETA * parent_moment);
  delta_sqr ← checked 0 i128_max (parent_delta * parent_delta);
  current_contrib ← checked 0 u128_max ((100 - BETA) * delta_sqr);
  total ← checked 0 u128_max (moment_decay + current_contrib);
  moment ← cu64 (total ÷ 100);
  Ret (base_fee, trend, moment).

Definition compute_base_fee (parent_block_gas_limit parent_gas_usage parent_base_fee parent_trend parent_moment : Z)
    : outcome (Z * Z * Z) :=
  _ ← rust_assert (bool_decide (parent_gas_usage ≤ parent_block_gas_limit));
  '(base_fee, trend, moment) ←
    compute_base_fee_math parent_block_gas_limit parent_gas_usage parent_base_fee (cast_signed parent_trend) parent_moment;
  Ret (base_fee, cast_unsigned trend, moment).

(** ** The exponential *)

Lemma checked_ok lo hi x : lo ≤ x ≤ hi → checked lo hi x = Ret x.
Proof. intros H. unfold checked. by rewrite bool_decide_eq_true_2. Qed.

Lemma i256_wrap_id x : - 2 ^ 255 ≤ x < 2 ^ 255 → i256_wrap x = x.
Proof. intros H. unfold i256_wrap. rewrite Z.mod_small by lia. lia. Qed.

Lemma u256_wrap_id x : 0 ≤ x < 2 ^ 256 → u256_wrap x = x.
Proof. intros H. unfold u256_wrap. by rewrite Z.mod_small. Qed.

Lemma quot_abs a b : 0 < b → Z.abs (a ÷ b) * b ≤ Z.abs a.
Proof.
  intros Hb. rewrite Z.mul_comm, <- (Z.abs_eq b) at 1 by lia. rewrite <- Z.abs_mul.
  destruct (Z.le_gt_cases 0 a) as [Ha|Ha].
  - pose proof (Z.mul_quot_le a b Ha). assert (0 ≤ a ÷ b) by (by apply Z.quot_pos). nia.
  - pose proof (Z.mul_quot_ge a b). assert (0 ≤ (- a) ÷ b) by (apply Z.quot_pos; lia).
    rewrite Z.quot_opp_l in * by lia. nia.
Qed.

Lemma quot_sign a b : 0 < b → (0 ≤ a → 0 ≤ a ÷ b) ∧ (a ≤ 0 → a ÷ b ≤ 0).
Proof.
  intros Hb. split; intros Ha; [by apply Z.quot_pos|].
  assert (0 ≤ (- a) ÷ b) by (apply Z.quot_pos; lia). rewrite Z.quot_opp_l in * by lia. lia.
Qed.

(** The sum the loop adds for an accumulator, when the ratio of numerator and
    denominator is at most [1/q]. *)
Lemma exponential_loop_spec q num den n : 2 ≤ q → q * Z.abs num ≤ den → 0 < den ≤ u64_max →
  ∀ fuel i acc out, (n < fuel)%nat → Z.abs acc < 2 ^ Z.of_nat n → 1 ≤ i → i + Z.of_nat n ≤ 1000 →
  Z.abs out + 2 * Z.abs acc ≤ 2 ^ 180 →
  ∃ t, exponential_loop fuel num den i acc out = Ret (out + t) ∧ (q - 1) * Z.abs t ≤ q * Z.abs acc ∧
    (0 ≤ num → 0 ≤ acc → acc ≤ t) ∧
    (num ≤ 0 → (0 ≤ acc → 0 ≤ t ≤ acc ∧ (q - 1) * acc ≤ q * t) ∧ (acc ≤ 0 → acc ≤ t ≤ 0)).
Proof.
  intros Hq Hnum Hden. induction n as [|n IH]; intros fuel i acc out Hf Hacc Hi Hin Hout.
  all: destruct fuel as [|fuel]; [lia|]; cbn [exponential_loop].
  { assert (acc = 0) as -> by (simpl in Hacc; lia). rewrite bool_decide_eq_true_2 by done.
    exists 0. split; [by rewrite Z.add_0_r|]. lia. }
  decide_case (acc = 0) Hz.
  { exists 0. split; [by rewrite Z.add_0_r|]. lia. }
  assert (2 ^ 180 < 2 ^ 190 ∧ 2 ^ 190 < 2 ^ 255) as [Hp1 Hp2] by (split; by apply Z.pow_lt_mono_r).
  rewrite i256_wrap_id by lia. unfold u64_max in Hden.
  assert (0 < den * i < 2 ^ 100) as Hdi by (change (2 ^ 100) with 1267650600228229401496703205376; nia).
  rewrite (u256_wrap_id (den * i)) by (assert (2 ^ 100 < 2 ^ 256) by (by apply Z.pow_lt_mono_r); lia).
  unfold i256_try_from. rewrite bool_decide_eq_true_2 by (assert (2 ^ 100 < 2 ^ 255) by (by apply Z.pow_lt_mono_r); lia).
  cbn [mbind outcome_bind].
  assert (Z.abs (acc * num) < 2 ^ 255) as Hprod.
  { rewrite Z.abs_mul. assert (2 ^ 255 = 2 ^ 180 * 2 ^ 75) as -> by (by rewrite <- Z.pow_add_r).
    assert (Z.abs num < 2 ^ 75) by (change (2 ^ 75) with 37778931862957161709568; nia). nia. }
  rewrite i256_wrap_id by lia. unfold i256_div.
  rewrite (bool_decide_eq_false_2 (den * i = 0)) by lia. rewrite (bool_decide_eq_false_2 (_ ∧ _)) by lia.
  cbn [mbind outcome_bind]. rewrite (u256_wrap_id (i + 1)) by (assert (1001 < 2 ^ 256) by done; lia).
  set (acc' := (acc * num) ÷ (den * i)).
  assert (q * Z.abs acc' ≤ Z.abs acc) as Hdec.
  { pose proof (quot_abs (acc * num) (den * i)) as H. fold acc' in H. rewrite Z.abs_mul in H.
    assert (Z.abs acc' * (den * i) ≤ Z.abs acc * Z.abs num) by (apply H; lia).
    assert (Z.abs acc' * den ≤ Z.abs acc * Z.abs num) by nia.
    assert (q * Z.abs acc' * den ≤ Z.abs acc * den) by nia. nia. }
  destruct (quot_sign (acc * num) (den * i)) as [Hpos Hneg]; [lia|]. fold acc' in Hpos, Hneg.
  assert (2 * Z.abs acc' ≤ Z.abs acc) by nia.
  destruct (IH fuel (i + 1) acc' (out + acc)) as (t & Ht & Hbound & Hup & Hdown); [lia| |lia|lia|lia|].
  { rewrite Nat2Z.inj_succ, Z.pow_succ_r in Hacc by lia. nia. }
  exists (acc + t). split; [rewrite Ht; f_equal; lia|]. split; [nia|]. split.
  - intros Hn Ha. assert (0 ≤ acc') by (apply Hpos; nia). specialize (Hup Hn ltac:(done)). lia.
  - intros Hn. destruct (Hdown Hn) as [Hd1 Hd2]. split; intros Ha.
    + assert (acc' ≤ 0) by (apply Hneg; nia). specialize (Hd2 ltac:(done)). nia.
    + assert (0 ≤ acc') by (apply Hpos; nia). specialize (Hd1 ltac:(done)). nia.
Qed.

(** The exponential returns; it is at least the factor for a non-negative
    exponent and at most the factor for one that is not positive, and differs
    from it by at most the ratio [1/q] (rounding down). *)
Lemma fake_exponential_spec q factor num den : 2 ≤ q → q * Z.abs num ≤ den → 0 < den ≤ u64_max →
  0 ≤ factor ≤ MAX_BASE_FEE →
  ∃ r, fake_exponential factor num den = Ret r ∧ 0 ≤ r ∧
    (0 ≤ num → factor ≤ r ∧ (q - 1) * r ≤ q * factor) ∧
    (num ≤ 0 → r ≤ factor ∧ (q - 1) * factor < q * (r + 1)).
Proof.
  intros Hq Hnum Hden Hfac. unfold fake_exponential.
  rewrite (bool_decide_eq_true_2 (den ≠ 0)) by lia. rewrite (bool_decide_eq_true_2 (Z.abs num ≤ den)) by nia.
  rewrite (bool_decide_eq_true_2 (factor ≤ MAX_BASE_FEE)) by lia. cbn [rust_assert mbind outcome_bind].
  unfold MAX_BASE_FEE in Hfac.
  assert (2 ^ 130 < 2 ^ 179 ∧ 2 ^ 179 < 2 ^ 255 ∧ 2 ^ 180 = 2 * 2 ^ 179) as (Hp1 & Hp2 & Hp3)
    by (split_and!; [by apply Z.pow_lt_mono_r..|done]).
  assert (0 ≤ factor * den < 2 ^ 130) as Hprod.
  { unfold u64_max in *. change (2 ^ 130) with 1361129467683753853853498429727072845824. nia. }
  rewrite u256_wrap_id by (assert (2 ^ 255 < 2 ^ 256) by done; lia). unfold i256_try_from.
  rewrite (bool_decide_eq_true_2 (factor * den < 2 ^ 255)) by lia. cbn [mbind outcome_bind].
  destruct (exponential_loop_spec q num den 130 Hq Hnum Hden EXPONENTIAL_FUEL 1 (factor * den) 0)
    as (t & -> & Hbound & Hup & Hdown); [unfold EXPONENTIAL_FUEL; lia|lia|lia|lia|lia|].
  cbn [mbind outcome_bind]. rewrite Z.add_0_l. rewrite (bool_decide_eq_true_2 (den < 2 ^ 255)).
  2:{ unfold u64_max in Hden. assert (18446744073709551615 < 2 ^ 255) by done. lia. }
  cbn [mbind outcome_bind]. unfold i256_div. rewrite (bool_decide_eq_false_2 (den = 0)) by lia.
  rewrite (bool_decide_eq_false_2 (_ ∧ _)) by lia. cbn [mbind outcome_bind].
  rewrite (Z.abs_eq (factor * den)) in Hbound by lia.
  assert (0 ≤ t) as Ht by (destruct (Z.le_ge_cases 0 num) as [H|H]; [specialize (Hup H); lia|destruct (Hdown H); lia]).
  rewrite Z.abs_eq in Hbound by lia.
  assert (0 ≤ t ÷ den ∧ t ÷ den * den ≤ t < (t ÷ den + 1) * den) as [Hr0 Hr].
  { rewrite Z.quot_div_nonneg by lia. split; [apply Z.div_pos; lia|]. pose proof (Z.mul_div_le t den).
    pose proof (Z.mul_succ_div_gt t den). lia. }
  set (r := t ÷ den) in *.
  assert (t ≤ 2 * (factor * den)) as Ht2 by nia.
  assert (r ≤ 2 * factor) by nia.
  rewrite Z.mod_small by (unfold u64_max; lia). exists r. split; [done|]. split; [done|]. split.
  - intros Hn. specialize (Hup Hn). split; [nia|]. assert ((q - 1) * r * den ≤ q * factor * den) by nia. nia.
  - intros Hn. destruct (Hdown Hn) as [Hd _]. specialize (Hd ltac:(lia)) as [Hd1 Hd2]. split; [nia|].
    assert ((q - 1) * factor * den < q * (r + 1) * den) by nia. nia.
Qed.

(** ** The base fee over a chain *)

(** The documented ranges: gas limits of 100M to 1000M and, for varying
    limits, trend and moment bounded by the greatest target. *)
Definition block_gas_ok (limit usage : Z) : Prop := 100000000 ≤ limit ≤ 1000000000 ∧ 0 ≤ usage ≤ limit.
Definition gas_target (limit : Z) : Z := limit * 8 ÷ 10.
Record fee_state_ok (fee trend moment : Z) : Prop := {
  fs_fee : fee = GENESIS_BASE_FEE ∨ MIN_BASE_FEE ≤ fee ≤ MAX_BASE_FEE;
  fs_trend : -200000000 ≤ trend ≤ 800000000;
  fs_moment : 0 ≤ moment ≤ 800000000 * 800000000;
}.

Lemma clamp_spec x lo hi : lo ≤ hi →
  lo ≤ clamp x lo hi ≤ hi ∧ (∀ y, y ≤ hi → y ≤ x → y ≤ clamp x lo hi) ∧ (clamp x lo hi = lo ∨ clamp x lo hi ≤ x).
Proof. intros H. unfold clamp. repeat case_bool_decide; split_and!; try lia; intros; lia. Qed.

Lemma gas_target_spec limit : 100000000 ≤ limit ≤ 1000000000 →
  80000000 ≤ gas_target limit ≤ 800000000 ∧ 0 < limit - gas_target limit ≤ 200000000 ∧
  gas_target limit ≤ 4 * (limit - gas_target limit).
Proof. unfold gas_target. intros H. Z.to_euclidean_division_equations. lia. Qed.

Lemma sqrt_term_spec moment trend : 0 ≤ moment ≤ 800000000 * 800000000 →
  0 ≤ isqrt (saturating_to_checked_u64 (moment - trend * trend)) ≤ 800000000.
Proof.
  intros H. unfold isqrt, saturating_to_checked_u64. split; [apply Z.sqrt_nonneg|].
  rewrite <- (Z.sqrt_square 800000000) by lia. apply Z.sqrt_le_mono. nia.
Qed.

(** The step of the exponent, for the usage of a block. *)
Lemma step_bounds limit usage s : block_gas_ok limit usage → 0 ≤ s ≤ 800000000 →
  let target := gas_target limit in
  let num := target * (usage - target) in
  let den := 28 * (target + s) * (limit - target) in
  0 < den ≤ u64_max ∧ i64_min ≤ num ≤ i64_max ∧ (target ≤ usage → 28 * Z.abs num ≤ den) ∧ (usage ≤ target → 7 * Z.abs num ≤ den).
Proof.
  intros [Hl Hu] Hs target num den. destruct (gas_target_spec limit Hl) as (Ht & Hh & H4). fold target in Ht, Hh, H4.
  assert (Z.abs num = target * Z.abs (usage - target)) as Hnum by (unfold num; rewrite Z.abs_mul; lia).
  assert (28 * (target * (limit - target)) ≤ den) by (unfold den; nia).
  assert ((target + s) * (limit - target) ≤ 1600000000 * 200000000) by (apply Z.mul_le_mono_nonneg; lia).
  assert (den ≤ 28 * 1600000000 * 200000000) by (unfold den; lia).
  assert (target * target ≤ target * (4 * (limit - target))) by (apply Z.mul_le_mono_nonneg_l; lia).
  assert (0 < target * (limit - target)) by (apply Z.mul_pos_pos; lia).
  split; [unfold u64_max; lia|]. split; [|split; intros Hc; rewrite Hnum].
  - assert (target * Z.abs (usage - target) ≤ 800000000 * 1000000000) by (apply Z.mul_le_mono_nonneg; lia). unfold i64_min, i64_max. lia.
  - assert (target * Z.abs (usage - target) ≤ target * (limit - target)) by (apply Z.mul_le_mono_nonneg_l; lia). lia.
  - assert (target * Z.abs (usage - target) ≤ target * target) by (apply Z.mul_le_mono_nonneg_l; lia). lia.
Qed.

Lemma fee_range fee trend moment : fee_state_ok fee trend moment → 0 ≤ fee ≤ MAX_BASE_FEE.
Proof. intros [[->|Hf] _ _]; [done|]. unfold MIN_BASE_FEE in Hf. lia. Qed.

(** The clamped exponential. *)
Lemma next_fee_spec limit usage fee s : block_gas_ok limit usage → 0 ≤ s ≤ 800000000 → 0 ≤ fee ≤ MAX_BASE_FEE →
  let target := gas_target limit in
  ∃ r, fake_exponential fee (target * (usage - target)) (28 * (target + s) * (limit - target)) = Ret r ∧
    let fee' := clamp r MIN_BASE_FEE MAX_BASE_FEE in
    MIN_BASE_FEE ≤ fee' ≤ MAX_BASE_FEE ∧
    (target ≤ usage → fee ≤ fee' ∧ (fee' = MIN_BASE_FEE ∨ 27 * fee' ≤ 28 * fee)) ∧
    (usage ≤ target → (fee' = MIN_BASE_FEE ∨ fee' ≤ fee) ∧ 6 * fee < 7 * (fee' + 1)).
Proof.
  intros Hb Hs Hf target. destruct (step_bounds limit usage s Hb Hs) as (Hden & _ & H28 & H7).
  fold target in Hden, H28, H7. cbv zeta.
  set (num := target * (usage - target)) in *. set (den := 28 * (target + s) * (limit - target)) in *.
  assert (0 ≤ target) as Ht by (destruct Hb as [Hl _]; pose proof (gas_target_spec limit Hl); lia).
  assert (∃ q, 2 ≤ q ∧ q * Z.abs num ≤ den ∧ (target ≤ usage → q = 28 ∧ 0 ≤ num) ∧
    (usage ≤ target → 7 ≤ q ∧ num ≤ 0)) as (q & Hq & Hqd & Hq1 & Hq2).
  { destruct (Z.le_gt_cases target usage) as [H|H].
    - exists 28. specialize (H28 H). split_and!; [lia|lia| |]; unfold num; intros; split; nia || lia.
    - exists 7. specialize (H7 ltac:(lia)). split_and!; [lia|lia|lia|]. unfold num. intros; split; nia || lia. }
  destruct (fake_exponential_spec q fee num den Hq Hqd Hden Hf) as (r & Hr & Hr0 & Hup & Hdown).
  exists r. split; [done|]. destruct (clamp_spec r MIN_BASE_FEE MAX_BASE_FEE) as (Hc & Hc1 & Hc2); [done|].
  split; [done|]. split; intros Hu.
  - destruct (Hq1 Hu) as [-> Hn]. destruct (Hup Hn) as [H1 H2]. specialize (Hc1 fee). lia.
  - destruct (Hq2 Hu) as [H7q Hn]. destruct (Hdown Hn) as [H1 H2].
    assert (6 * fee < 7 * (r + 1)) by nia. specialize (Hc1 r). lia.
Qed.

Lemma moving_average_bounds lo hi x d : lo ≤ 0 ≤ hi → lo ≤ x ≤ hi → lo ≤ d ≤ hi → lo ≤ (96 * x + 4 * d) ÷ 100 ≤ hi.
Proof. intros. Z.to_euclidean_division_equations. lia. Qed.

Lemma square_bound x b : - b ≤ x ≤ b → 0 ≤ x * x ≤ b * b.
Proof. nia. Qed.

Lemma bind_checked {A} lo hi x (k : Z → outcome A) : lo ≤ x ≤ hi → checked lo hi x ≫= k = k x.
Proof. intros H. by rewrite checked_ok. Qed.

(** A checked operation within its range. *)
Ltac check_step :=
  rewrite bind_checked by (unfold u64_max, i64_min, i64_max, u128_max, i128_max in *; lia).

(** One step, on the signed trend. *)
Lemma base_fee_math_spec limit usage fee trend moment : block_gas_ok limit usage → fee_state_ok fee trend moment →
  ∃ fee' trend' moment', compute_base_fee_math limit usage fee trend moment = Ret (fee', trend', moment') ∧
    fee_state_ok fee' trend' moment' ∧ MIN_BASE_FEE ≤ fee' ≤ MAX_BASE_FEE ∧
    (gas_target limit ≤ usage → fee ≤ fee' ∧ (fee' = MIN_BASE_FEE ∨ 27 * fee' ≤ 28 * fee)) ∧
    (usage ≤ gas_target limit → (fee' = MIN_BASE_FEE ∨ fee' ≤ fee) ∧ 6 * fee < 7 * (fee' + 1)).
Proof.
  intros Hb Hst. pose proof (fee_range _ _ _ Hst) as Hfee. destruct Hst as [_ Htr Hm]. pose proof Hb as [Hl Hu].
  pose proof (gas_target_spec limit Hl) as (Ht & Hh & H4).
  pose proof (sqrt_term_spec moment trend Hm) as Hs.
  destruct (step_bounds limit usage _ Hb Hs) as (Hden & Hnum & _).
  destruct (next_fee_spec limit usage fee _ Hb Hs Hfee) as (r & Hr & Hfee' & Hmono).
  pose proof (square_bound trend 800000000 ltac:(lia)) as Hsq.
  pose proof (square_bound (usage - gas_target limit) 800000000 ltac:(lia)) as Hdsq.
  unfold compute_base_fee_math, cu64_mul, cu64_div, cu64_add, cu64_sub, to_checked_i64, ci64_sub, ci64_mul, ci64_add,
    ci64_neg, ci64_div, cu64, ci64, MAX_STEP_SIZE_DENOM, BETA.
  rewrite !(bool_decide_eq_false_2 (_ = 0)) by done. check_step. change (limit * 8 ÷ 10) with (gas_target limit).
  do 12 check_step. rewrite Hr. cbn [mbind outcome_bind]. do 6 check_step.
  pose proof (moving_average_bounds (-200000000) 800000000 trend (- (usage - gas_target limit))
    ltac:(lia) Htr ltac:(lia)) as Hav.
  change (100 - 96) with 4. check_step. do 4 check_step.
  pose proof (moving_average_bounds 0 (800000000 * 800000000) moment _ ltac:(lia) Hm Hdsq) as Hmv.
  check_step. eexists _, _, _. split; [done|]. split; [|split; [exact Hfee'|exact Hmono]].
  split; [by right|exact Hav|exact Hmv].
Qed.

Lemma cast_roundtrip t : i64_min ≤ t ≤ i64_max → cast_signed (cast_unsigned t) = t.
Proof.
  intros H. unfold cast_signed, cast_unsigned, u64_max, i64_min, i64_max in *.
  destruct (Z.le_gt_cases 0 t).
  - rewrite Z.mod_small by lia. rewrite bool_decide_eq_true_2 by lia. done.
  - rewrite <- (Z.mod_unique t _ (-1) (t + 18446744073709551616)) by lia.
    rewrite bool_decide_eq_false_2 by lia. lia.
Qed.

(** The base fees of the blocks of a chain, from the gas limit and usage of
    each; trend and moment are passed on as the headers have them. *)
Fixpoint fee_run (st : Z * Z * Z) (blocks : list (Z * Z)) : outcome (list Z) :=
  match blocks with
  | [] => Ret []
  | (limit, usage) :: blocks =>
      let '(fee, trend, moment) := st in
      st ← compute_base_fee limit usage fee trend moment;
      fees ← fee_run st blocks;
      Ret (st.1.1 :: fees)
  end.

(** [fee'] may follow [fee] after a block of the given gas limit and usage: more
    usage than the target does not lower the fee and raises it by at most
    1/27, less does not raise it and lowers it by at most 1/7; [MIN_BASE_FEE]
    is always possible. *)
Definition fee_step_ok (limit usage fee fee' : Z) : Prop :=
  MIN_BASE_FEE ≤ fee' ≤ MAX_BASE_FEE ∧
  (gas_target limit ≤ usage → fee ≤ fee' ∧ (fee' = MIN_BASE_FEE ∨ 27 * fee' ≤ 28 * fee)) ∧
  (usage ≤ gas_target limit → (fee' = MIN_BASE_FEE ∨ fee' ≤ fee) ∧ 6 * fee < 7 * (fee' + 1)).

Lemma base_fee_spec limit usage fee trend moment : block_gas_ok limit usage → fee_state_ok fee trend moment →
  ∃ fee' trend' moment', compute_base_fee limit usage fee (cast_unsigned trend) moment
      = Ret (fee', cast_unsigned trend', moment') ∧ fee_state_ok fee' trend' moment' ∧ fee_step_ok limit usage fee fee'.
Proof.
  intros Hb Hst. unfold compute_base_fee. rewrite cast_roundtrip.
  2:{ destruct Hst as [_ H _]. unfold i64_min, i64_max. lia. }
  rewrite bool_decide_eq_true_2 by apply Hb. cbn [rust_assert mbind outcome_bind].
  destruct (base_fee_math_spec limit usage fee trend moment Hb Hst) as (f & t & m & -> & Hst' & Hstep).
  cbn [mbind outcome_bind]. by exists f, t, m.
Qed.

(** ** Properties *)

(** C35. The base fee update never panics within the documented gas limits: along
    every chain from genesis each fee lies between the minimum and maximum,
    and it moves with the gas usage, by bounded steps. *)
Theorem base_fees_bounded blocks : Forall (λ b, block_gas_ok b.1 b.2) blocks →
  ∃ fees, fee_run (GENESIS_BASE_FEE, GENESIS_BASE_FEE_TREND, GENESIS_BASE_FEE_MOMENT) blocks = Ret fees ∧
    length fees = length blocks ∧
    ∀ i limit usage fee fee', blocks !! i = Some (limit, usage) → (GENESIS_BASE_FEE :: fees) !! i = Some fee →
      fees !! i = Some fee' → fee_step_ok limit usage fee fee'.
Proof.
  intros Hb. change GENESIS_BASE_FEE_TREND with (cast_unsigned 0).
  assert (fee_state_ok GENESIS_BASE_FEE 0 GENESIS_BASE_FEE_MOMENT) as Hst.
  { split; [by left|lia|unfold GENESIS_BASE_FEE_MOMENT; lia]. }
  revert Hst. generalize GENESIS_BASE_FEE 0 GENESIS_BASE_FEE_MOMENT.
  induction Hb as [|[limit usage] blocks Hb _ IH]; intros fee trend moment Hst.
  { exists []. split_and!; [done|done|]. intros [|i] ? ? ? ? [=]. }
  destruct (base_fee_spec limit usage fee trend moment Hb Hst) as (fee1 & trend1 & moment1 & Hrun & Hst1 & Hstep).
  destruct (IH fee1 trend1 moment1 Hst1) as (fees & Hfees & Hlen & Hsteps). exists (fee1 :: fees).
  cbn [fee_run]. rewrite Hrun. cbn [mbind outcome_bind]. rewrite Hfees. split_and!; [done|simpl; lia|].
  intros [|i] l u f f' Hi Hf Hf'; simpl in *; simplify_eq; [done|]. by eapply (Hsteps i).
Qed.

(** Two full blocks, an empty one. *)
Lemma base_fees_bounded_witness : ∃ f1 f2 f3,
  fee_run (GENESIS_BASE_FEE, GENESIS_BASE_FEE_TREND, GENESIS_BASE_FEE_MOMENT)
    [(200000000, 200000000); (200000000, 200000000); (200000000, 0)] = Ret [f1; f2; f3] ∧
  fee_step_ok 200000000 200000000 f1 f2 ∧ fee_step_ok 200000000 0 f2 f3 ∧ f1 < f2 ∧ f3 < f2.
Proof.
  destruct (base_fees_bounded [(200000000, 200000000); (200000000, 200000000); (200000000, 0)])
    as (fees & Hrun & Hlen & Hsteps).
  { repeat constructor; simpl; lia. }
  assert (fee_run (GENESIS_BASE_FEE, GENESIS_BASE_FEE_TREND, GENESIS_BASE_FEE_MOMENT)
    [(200000000, 200000000); (200000000, 200000000); (200000000, 0)] = Ret [100000000000; 103463257272; 100000000000]) as H
    by (vm_compute; reflexivity).
  rewrite H in Hrun. injection Hrun as <-. eexists _, _, _. split; [exact H|].
  split; [eapply (Hsteps 1%nat); reflexivity|]. split; [eapply (Hsteps 2%nat); reflexivity|]. lia.
Defined.
