(* ===== verification/EthBlockPolicy.v ===== *)
(** * The execution block policy (monad-eth-block-policy/src/lib.rs)

    [EthBlockPolicy] decides whether a validated block is coherent with the
    blocks it extends: sequence number and timestamp, the delayed execution
    result, the base fee, the system transactions, and for every transaction
    the nonce and the reserve balance of its accounts. The state of an account
    is read from the execution database [execution_delay] blocks back, and
    brought forward through the committed blocks it caches and the coherent
    blocks that are not committed.

    The execution database is a parameter ([EthStateBackend]); so are the
    iteration orders of hash sets. [reset] and [update_committed_block] change
    the policy, the other methods read it. *)
From S2P Require Import Prelude Types ChainConfig Interfaces MultiSig Certificates Concrete BlockTree BaseFee EthTypes ReserveBalance NonceUsage StaticValidation SystemCalls EthBlockValidator.
#[local] Open Scope N_scope.

(** The iteration order of a [HashSet]. *)
Class SetOrder (K : Type) `{Countable K} := {
  set_iter : gset K → list K;
  set_iter_perm : ∀ X, set_iter X ≡ₚ elements X;
}.

(** [Itertools::unique]. *)
Definition unique (l : list N) : list N :=
  foldl (λ acc x, if bool_decide (x ∈ acc) then acc else acc ++ [x]) [] l.

Definition try_map_err {E F A} (f : E → F) (m : outcome (result E A)) : outcome (result F A) :=
  r ← m; Ret (map_err f r).

(** [range(lo..hi)] and [range(lo..)] of a sorted map. *)
Definition btree_range {V} (m : gmap N V) (lo hi : N) : list (N * V) := filter (λ e, lo ≤ e.1 < hi) (btree_iter m).
Definition btree_range_from {V} (m : gmap N V) (lo : N) : list (N * V) := filter (λ e, lo ≤ e.1) (btree_iter m).

(** ** Checks on the transactions of one block *)
Section transactions.
Context {A : Alloy} {CR : Type} {CRV : ChainRevision CR}.

(** Plain [u64] addition. *)
Definition total_gas (txns : list ValidatedTx) : N :=
  foldl (λ acc tx, wrapping_add64 acc (tx_gas_limit (vt_env tx))) 0 txns.

(** One transaction of [system_transaction_nonce_check] and of
    [nonce_check_and_update]: the same check. *)
Definition nonce_check_and_update (account_nonces : gmap N Nonce) (txn : ValidatedTx)
    : outcome (result BlockPolicyError (gmap N Nonce)) :=
  expected_nonce ← expect (account_nonces !! vt_signer txn);
  if bool_decide (vt_nonce txn ≠ expected_nonce) then Ret (Err BlockNotCoherent)
  else Ret (Ok (<[vt_signer txn := wrapping_add64 expected_nonce 1]> account_nonces)).

Definition system_transaction_nonce_check (system_txns : list ValidatedTx) (account_nonces : gmap N Nonce)
    : outcome (result BlockPolicyError (gmap N Nonce)) :=
  try_fold nonce_check_and_update account_nonces system_txns.

(** One authorization of [eip_7702_valid_nonce_update]. *)
Definition auth_nonce_update (chain_id : N) (account_nonces : gmap N Nonce) (auth : RecoveredAuthorization)
    : outcome (gmap N Nonce) :=
  match ra_authority auth with
  | None => Ret account_nonces
  | Some authority =>
      if other_chain chain_id auth then Ret account_nonces else
      expected_nonce ← expect (account_nonces !! authority);
      if bool_decide (expected_nonce ≠ au_nonce (ra_inner auth)) then Ret account_nonces
      else Ret (<[authority := wrapping_add64 expected_nonce 1]> account_nonces)
  end.

Fixpoint eip_7702_valid_nonce_update (chain_id : N) (auth_list : list RecoveredAuthorization)
    (account_nonces : gmap N Nonce) : outcome (gmap N Nonce) :=
  match auth_list with
  | [] => Ret account_nonces
  | auth :: auth_list =>
      account_nonces ← auth_nonce_update chain_id account_nonces auth;
      eip_7702_valid_nonce_update chain_id auth_list account_nonces
  end.

Definition extract_signers (validated_txns system_txns : list ValidatedTx) : gset Address :=
  list_to_set (vt_signer <$> validated_txns)
  ∪ list_to_set (validated_txns ≫= vt_authorities)
  ∪ list_to_set (vt_signer <$> system_txns).

(** The body of the loop over the transactions in [check_coherency]. *)
Definition check_transaction (v : EthBlockPolicyBlockValidator CR) (chain_id : N)
    (st : gmap N Nonce * AccountBalanceStates) (txn : ValidatedTx)
    : outcome (result BlockPolicyError (gmap N Nonce * AccountBalanceStates)) :=
  let '(account_nonces, account_balances) := st in
  account_nonces ←? nonce_check_and_update account_nonces txn;
  account_balances ←? try_add_transaction v account_balances txn;
  account_nonces ←
    (if bool_decide (tx_type (vt_env txn) = TtEip7702)
     then eip_7702_valid_nonce_update chain_id (vt_authorizations_7702 txn) account_nonces
     else Ret account_nonces);
  Ret (Ok (account_nonces, account_balances)).

End transactions.

Section block_policy.
Context {E : EthProtocol} {EC : EthCodec} {CD : Codec} {CS : CertSignature} {SO : SetOrder N}
        {C CR : Type} {CRV : ChainRevision CR} {CC : ChainConfig C CR}
        {SB : Type} {SBE : EthStateBackend SB}.

Definition ev_header (b : EthValidatedBlock) : ConsensusBlockHeader := fb_header (ev_block b).
Definition ev_seq_num (b : EthValidatedBlock) : SeqNum := bh_seq_num (ev_header b).
Definition ev_id (b : EthValidatedBlock) : BlockId := fb_get_id (ev_block b).

(** [EthValidatedBlock::get_total_gas]. *)
Definition get_total_gas (b : EthValidatedBlock) : N := total_gas (ev_validated_txns b).

(** ** Committed blocks *)

Record CommittedBlock := mkCommittedBlock {
  cb_block_id : BlockId;
  cb_round : Round;
  cb_epoch : Epoch;
  cb_seq_num : SeqNum;
  cb_nonce_usages : NonceUsageMap;
  cb_timestamp_ns : N;
  cb_fees : TxnFees;
  cb_base_fee : N;
  cb_base_fee_trend : N;
  cb_base_fee_moment : N;
  cb_block_gas_usage : N;
}.

(** [SortedVectorMap] iterates by increasing sequence number. *)
Record CommittedBlkBuffer := mkCommittedBlkBuffer {
  bb_blocks : gmap N CommittedBlock;
  bb_min_buffer_size : N;
}.

Definition buffer_new (min_buffer_size : N) : CommittedBlkBuffer := mkCommittedBlkBuffer ∅ min_buffer_size.

Definition buffer_get_epoch (buf : CommittedBlkBuffer) (seq_num : SeqNum) : option Epoch :=
  cb_epoch <$> bb_blocks buf !! seq_num.

(** The two loops of [update_account_balance], on the account and the next
    sequence number expected. *)
Definition emptying_check (eth_address : Address) (st : AccountBalanceState * SeqNum) (e : SeqNum * CommittedBlock)
    : outcome (result BlockPolicyError (AccountBalanceState * SeqNum)) :=
  let '(account_balance, next_validate) := st in
  let '(seq_num, block) := e in
  _ ← rust_assert (bool_decide (seq_num = next_validate));
  let account_balance :=
    if bool_decide (is_Some (cb_fees block !! eth_address))
       && bool_decide (ab_block_seqnum_of_latest_txn account_balance < cb_seq_num block)
    then {| account_balance with ab_block_seqnum_of_latest_txn := cb_seq_num block |} else account_balance in
  next_validate ← seq_add next_validate 1;
  Ret (Ok (account_balance, next_validate)).

Definition reserve_check (eth_address : Address) (execution_delay : SeqNum) (chain_config : C)
    (st : AccountBalanceState * SeqNum) (e : SeqNum * CommittedBlock)
    : outcome (result BlockPolicyError (AccountBalanceState * SeqNum)) :=
  let '(account_balance, next_validate) := st in
  let '(seq_num, block) := e in
  _ ← rust_assert (bool_decide (seq_num = next_validate));
  account_balance ←?
    match cb_fees block !! eth_address with
    | Some block_txn_fees =>
        try_apply_block_fees
          (mkBlockValidator (cb_seq_num block) execution_delay (cb_base_fee block)
             (cc_chain_revision chain_config (cb_round block)))
          account_balance block_txn_fees
    | None => Ret (Ok account_balance)
    end;
  next_validate ← seq_add next_validate 1;
  Ret (Ok (account_balance, next_validate)).

Definition update_account_balance (buf : CommittedBlkBuffer) (account_balance : AccountBalanceState)
    (eth_address : Address) (execution_delay : SeqNum) (emptying_start emptying_end reserve_start : SeqNum)
    (chain_config : C) : outcome (result BlockPolicyError (AccountBalanceState * SeqNum)) :=
  st ←? try_fold (emptying_check eth_address) (account_balance, emptying_start)
          (btree_range (bb_blocks buf) emptying_start emptying_end);
  try_fold (reserve_check eth_address execution_delay chain_config) st
    (btree_range_from (bb_blocks buf) reserve_start).

Definition committed_of (block : EthValidatedBlock) : CommittedBlock := {|
  cb_block_id := ev_id block;
  cb_round := bh_block_round (ev_header block);
  cb_epoch := bh_epoch (ev_header block);
  cb_seq_num := ev_seq_num block;
  cb_nonce_usages := ev_nonce_usages block;
  cb_timestamp_ns := bh_timestamp_ns (ev_header block);
  cb_fees := ev_txn_fees block;
  cb_base_fee := bh_base_fee (ev_header block);
  cb_base_fee_trend := bh_base_fee_trend (ev_header block);
  cb_base_fee_moment := bh_base_fee_moment (ev_header block);
  cb_block_gas_usage := get_total_gas block;
|}.

(** The part of [CommittedBlkBuffer::update_committed_block] that drops the
    oldest blocks when there are enough of them. *)
Definition make_room (buf : CommittedBlkBuffer) (block_number : SeqNum) : outcome (gmap N CommittedBlock) :=
  let current_size := N.of_nat (size (bb_blocks buf)) in
  if bool_decide (N.min (bb_min_buffer_size buf * 2) u64_MAX ≤ current_size) then
    '(first_block_num, _) ← expect (head (btree_iter (bb_blocks buf)));
    divider ← seq_add first_block_num (current_size - bb_min_buffer_size buf);
    let blocks := filter (λ e, divider ≤ e.1) (bb_blocks buf) in
    '(last_block_num, _) ← expect (last (btree_iter blocks));
    next ← seq_add last_block_num 1;
    _ ← rust_assert (bool_decide (next = block_number));
    _ ← rust_assert (bool_decide (bb_min_buffer_size buf ≤ N.of_nat (size blocks)));
    Ret blocks
  else Ret (bb_blocks buf).

Definition buffer_update (buf : CommittedBlkBuffer) (block : EthValidatedBlock) : outcome CommittedBlkBuffer :=
  let block_number := ev_seq_num block in
  _ ← match last (btree_iter (bb_blocks buf)) with
      | Some (last_block_num, _) =>
          next ← seq_add last_block_num 1; rust_assert (bool_decide (next = block_number))
      | None => Ret tt
      end;
  blocks ← make_room buf block_number;
  _ ← rust_assert (bool_decide (blocks !! block_number = None));
  Ret {| buf with bb_blocks := <[block_number := committed_of block]> blocks |}.

(** ** The policy *)

Record EthBlockPolicy := mkEthBlockPolicy {
  bp_last_commit : SeqNum;
  bp_committed_cache : CommittedBlkBuffer;
  bp_execution_delay : SeqNum;
}.

Definition eth_policy_new (last_commit : SeqNum) (execution_delay : N) : EthBlockPolicy :=
  mkEthBlockPolicy last_commit (buffer_new (N.min (execution_delay * 2) u64_MAX)) execution_delay.

Definition base_seq_num (policy : EthBlockPolicy) (consensus_block_seq_num : SeqNum) : outcome SeqNum :=
  seq_sub (N.max consensus_block_seq_num (bp_execution_delay policy)) (bp_execution_delay policy).

Record BlockLookupIndex := mkBlockLookupIndex {
  li_block_id : BlockId;
  li_seq_num : SeqNum;
  li_round : Round;
  li_is_finalized : bool;
}.

Definition get_block_index (policy : EthBlockPolicy) (extending_blocks : option (list EthValidatedBlock))
    (base_seq_num : SeqNum) : outcome (result StateBackendError BlockLookupIndex) :=
  if bool_decide (base_seq_num ≤ bp_last_commit policy) then
    if bool_decide (base_seq_num = GENESIS_SEQ_NUM)
    then Ret (Ok (mkBlockLookupIndex GENESIS_BLOCK_ID GENESIS_SEQ_NUM GENESIS_ROUND true))
    else
      committed_block ← expect (bb_blocks (bp_committed_cache policy) !! base_seq_num);
      Ret (Ok (mkBlockLookupIndex (cb_block_id committed_block) base_seq_num (cb_round committed_block) true))
  else match extending_blocks with
       | Some extending_blocks =>
           proposed_block ← expect (List.find (λ block, bool_decide (ev_seq_num block = base_seq_num)) extending_blocks);
           Ret (Ok (mkBlockLookupIndex (ev_id proposed_block) base_seq_num
                      (bh_block_round (ev_header proposed_block)) false))
       | None => Ret (Err NotAvailableYet)
       end.

Definition get_account_statuses (policy : EthBlockPolicy) (state_backend : SB)
    (extending_blocks : option (list EthValidatedBlock)) (addresses : list Address) (base_seq_num : SeqNum)
    : outcome (result StateBackendError (list (option EthAccount))) :=
  block_index ←? get_block_index policy extending_blocks base_seq_num;
  Ret (sb_get_account_statuses state_backend (li_block_id block_index) base_seq_num
         (li_is_finalized block_index) addresses).

(** *** Nonces *)

(** The usages of the blocks after [base_seq_num], committed ones first. *)
Definition recent_nonce_usages (policy : EthBlockPolicy) (extending_blocks : list EthValidatedBlock)
    (base_seq_num : SeqNum) : list (SeqNum * NonceUsageMap) :=
  filter (λ e, base_seq_num < e.1)
    (((λ e, (e.1, cb_nonce_usages e.2)) <$> btree_iter (bb_blocks (bp_committed_cache policy)))
     ++ ((λ block, (ev_seq_num block, ev_nonce_usages block)) <$> extending_blocks)).

Definition cached_usages (policy : EthBlockPolicy) (extending_blocks : list EthValidatedBlock)
    (base_seq_num : SeqNum) (addresses : gset Address) : NonceUsageMap :=
  foldl (λ m e, merge_with_previous_block m (filter (λ u, u.1 ∈ addresses) (btree_iter e.2)))
    ∅ (reverse (recent_nonce_usages policy extending_blocks base_seq_num)).

(** The loop that splits the addresses into known nonces and cache misses. *)
Definition split_known (cached_nonce_usages : NonceUsageMap)
    (st : gmap N Nonce * list (Address * option (list Nonce))) (address : Address)
    : gmap N Nonce * list (Address * option (list Nonce)) :=
  let '(account_nonces, cache_misses) := st in
  match cached_nonce_usages !! address with
  | Some (Known nonce) => (<[address := wrapping_add64 nonce 1]> account_nonces, cache_misses)
  | Some (Possible possible) => (account_nonces, cache_misses ++ [(address, Some possible)])
  | None => (account_nonces, cache_misses ++ [(address, None)])
  end.

Definition miss_nonce (e : (Address * option (list Nonce)) * option EthAccount) : Address * Nonce :=
  let '((address, possible_nonces), status) := e in
  let nonce := match status with Some status => ac_nonce status | None => 0 end in
  (address, match possible_nonces with
            | Some possible_nonces => apply_possible_nonces_to_account_nonce nonce possible_nonces
            | None => nonce
            end).

Definition get_account_base_nonces (policy : EthBlockPolicy) (consensus_block_seq_num : SeqNum) (state_backend : SB)
    (extending_blocks : list EthValidatedBlock) (addresses : list Address)
    : outcome (result StateBackendError (gmap N Nonce)) :=
  let addresses : gset Address := list_to_set addresses in
  base_seq_num ← base_seq_num policy consensus_block_seq_num;
  let cached_nonce_usages := cached_usages policy extending_blocks base_seq_num addresses in
  let '(account_nonces, cache_misses) := foldl (split_known cached_nonce_usages) (∅, []) (set_iter addresses) in
  cache_miss_statuses ←?
    get_account_statuses policy state_backend (Some extending_blocks) cache_misses.*1 base_seq_num;
  _ ← rust_assert (bool_decide (length cache_misses = length cache_miss_statuses));
  Ret (Ok (foldl (λ m e, <[e.1 := e.2]> m) account_nonces (miss_nonce <$> zip cache_misses cache_miss_statuses))).

(** *** Balances *)

(** The loop over the extending blocks for one account. *)
Definition extending_check (policy : EthBlockPolicy) (address : Address) (chain_config : C)
    (reserve_balance_check_start : SeqNum) (st : AccountBalanceState * SeqNum) (extending_block : EthValidatedBlock)
    : outcome (result BlockPolicyError (AccountBalanceState * SeqNum)) :=
  let '(balance_state, next_validate) := st in
  _ ← rust_assert (bool_decide (next_validate = ev_seq_num extending_block));
  balance_state ←?
    match ev_txn_fees extending_block !! address with
    | Some txn_fee =>
        if bool_decide (next_validate < reserve_balance_check_start) then
          Ret (Ok (if bool_decide (ab_block_seqnum_of_latest_txn balance_state < next_validate)
                   then {| balance_state with ab_block_seqnum_of_latest_txn := ev_seq_num extending_block |}
                   else balance_state))
        else
          try_apply_block_fees
            (mkBlockValidator (ev_seq_num extending_block) (bp_execution_delay policy)
               (bh_base_fee (ev_header extending_block))
               (cc_chain_revision chain_config (bh_block_round (ev_header extending_block))))
            balance_state txn_fee
    | None => Ret (Ok balance_state)
    end;
  next_validate ← seq_add next_validate 1;
  Ret (Ok (balance_state, next_validate)).

(** [Iterator::skip_while]. *)
Fixpoint skip_while {T} (p : T → bool) (l : list T) : list T :=
  match l with [] => [] | x :: l' => if p x then skip_while p l' else l end.

(** The closure that brings the state of one account forward. *)
Definition account_base_balance (policy : EthBlockPolicy) (chain_config : C)
    (extending_blocks : option (list EthValidatedBlock)) (base_seq_num : SeqNum)
    (address : Address) (balance_state : AccountBalanceState)
    : outcome (result BlockPolicyError AccountBalanceState) :=
  reserve_balance_check_start ← seq_add base_seq_num 1;
  after ← seq_add reserve_balance_check_start 1;
  emptying_txn_check_start ← seq_sub (N.max after (bp_execution_delay policy)) (bp_execution_delay policy);
  emptying_txn_check_start ←
    (if bool_decide (emptying_txn_check_start = GENESIS_SEQ_NUM) then seq_add emptying_txn_check_start 1
     else Ret emptying_txn_check_start);
  balance_state ←
    (if bool_decide (GENESIS_SEQ_NUM < emptying_txn_check_start) then
       latest ← seq_sub emptying_txn_check_start 1;
       Ret {| balance_state with ab_block_seqnum_of_latest_txn := latest |}
     else Ret balance_state);
  '(balance_state, next_validate) ←?
    update_account_balance (bp_committed_cache policy) balance_state address (bp_execution_delay policy)
      emptying_txn_check_start reserve_balance_check_start reserve_balance_check_start chain_config;
  match extending_blocks with
  | Some blocks =>
      let next_blocks := skip_while (λ block, bool_decide (ev_seq_num block < next_validate)) blocks in
      st ←? try_fold (extending_check policy address chain_config reserve_balance_check_start)
              (balance_state, next_validate) next_blocks;
      Ret (Ok st.1)
  | None => Ret (Ok balance_state)
  end.

Definition initial_balance_state (base_max_reserve_balance : Balance) (base_seq_num : SeqNum)
    (maybe_status : option EthAccount) : AccountBalanceState :=
  match maybe_status with
  | None => account_balance_state_new base_max_reserve_balance
  | Some status => {|
      ab_balance := ac_balance status;
      ab_remaining_reserve_balance := N.min (ac_balance status) base_max_reserve_balance;
      ab_max_reserve_balance := base_max_reserve_balance;
      ab_block_seqnum_of_latest_txn := base_seq_num;
      ab_is_delegated := ac_is_delegated status |}
  end.

Definition compute_account_base_balances (policy : EthBlockPolicy) (consensus_block_seq_num : SeqNum)
    (state_backend : SB) (chain_config : C) (extending_blocks : option (list EthValidatedBlock))
    (addresses : list Address) : outcome (result BlockPolicyError AccountBalanceStates) :=
  base_seq_num ← base_seq_num policy consensus_block_seq_num;
  block_index ←? try_map_err PolicyStateBackendError (get_block_index policy extending_blocks base_seq_num);
  let base_max_reserve_balance :=
    cp_max_reserve_balance (chain_params (cc_chain_revision chain_config (li_round block_index))) in
  let addresses := unique addresses in
  statuses ←? try_map_err PolicyStateBackendError
    (get_account_statuses policy state_backend extending_blocks addresses base_seq_num);
  let account_balances := initial_balance_state base_max_reserve_balance base_seq_num <$> statuses in
  _ ← rust_assert (bool_decide (length addresses = length account_balances));
  try_fold (λ m e, balance_state ←? account_base_balance policy chain_config extending_blocks base_seq_num e.1 e.2;
                   Ret (Ok (<[e.1 := balance_state]> m)))
    ∅ (zip addresses account_balances).

(** *** Base fee *)

Definition get_parent_base_fee_fields (policy : EthBlockPolicy) (extending_blocks : list EthValidatedBlock)
    : outcome (Round * N * N * N * N) :=
  match last extending_blocks with
  | Some parent_block =>
      Ret (bh_block_round (ev_header parent_block), bh_base_fee (ev_header parent_block),
           bh_base_fee_trend (ev_header parent_block), bh_base_fee_moment (ev_header parent_block),
           total_gas (ev_validated_txns parent_block))
  | None =>
      if bool_decide (bp_last_commit policy = GENESIS_SEQ_NUM)
      then Ret (GENESIS_ROUND, Z.to_N GENESIS_BASE_FEE, Z.to_N GENESIS_BASE_FEE_TREND, Z.to_N GENESIS_BASE_FEE_MOMENT, 0)
      else
        parent_block ← expect (bb_blocks (bp_committed_cache policy) !! bp_last_commit policy);
        Ret (cb_round parent_block, cb_base_fee parent_block, cb_base_fee_trend parent_block,
             cb_base_fee_moment parent_block, cb_block_gas_usage parent_block)
  end.

(** [EthBlockPolicy::compute_base_fee]. *)
Definition policy_compute_base_fee (policy : EthBlockPolicy) (extending_blocks : list EthValidatedBlock)
    (chain_config : C) : outcome (N * N * N) :=
  '(parent_block_round, parent_base_fee, parent_trend, parent_moment, parent_gas_usage) ←
    get_parent_base_fee_fields policy extending_blocks;
  let parent_block_gas_limit :=
    cp_proposal_gas_limit (chain_params (cc_chain_revision chain_config parent_block_round)) in
  '(fee, trend, moment) ←
    compute_base_fee (Z.of_N parent_block_gas_limit) (Z.of_N parent_gas_usage) (Z.of_N parent_base_fee)
      (Z.of_N parent_trend) (Z.of_N parent_moment);
  Ret (Z.to_N fee, Z.to_N trend, Z.to_N moment).

(** *** System transactions *)

Definition get_last_commit_epoch (policy : EthBlockPolicy) : outcome Epoch :=
  if bool_decide (bp_last_commit policy = GENESIS_SEQ_NUM) then Ret 1
  else expect (buffer_get_epoch (bp_committed_cache policy) (bp_last_commit policy)).

Definition policy_validate_system_transactions_input (policy : EthBlockPolicy) (block : EthValidatedBlock)
    (extending_blocks : list EthValidatedBlock) (chain_config : C)
    : outcome (result SystemTransactionValidationError unit) :=
  parent_block_epoch ←
    match last extending_blocks with
    | Some extending_block => Ret (bh_epoch (ev_header extending_block))
    | None =>
        next ← seq_add (bp_last_commit policy) 1;
        _ ← rust_assert (bool_decide (ev_seq_num block = next));
        get_last_commit_epoch policy
    end;
  validate_system_transactions_input chain_config (ev_header block) parent_block_epoch (ev_system_txns block).

(** ** The trait [BlockPolicy] *)

Definition policy_get_expected_execution_results (policy : EthBlockPolicy) (block_seq_num : SeqNum)
    (extending_blocks : list EthValidatedBlock) (state_backend : SB)
    : outcome (result StateBackendError (list EthHeader)) :=
  if bool_decide (block_seq_num < bp_execution_delay policy) then Ret (Ok []) else
  base_seq_num ← seq_sub block_seq_num (bp_execution_delay policy);
  block_index ←? get_block_index policy (Some extending_blocks) base_seq_num;
  expected_execution_result ←?
    Ret (sb_get_execution_result state_backend (li_block_id block_index) (li_seq_num block_index)
           (li_is_finalized block_index));
  Ret (Ok [expected_execution_result]).

(** The checks of [check_coherency] before the transactions. *)
Definition check_block_fields (policy : EthBlockPolicy) (block : EthValidatedBlock)
    (extending_blocks : list EthValidatedBlock) (blocktree_root : RootInfo) (state_backend : SB) (chain_config : C)
    : outcome (result BlockPolicyError unit) :=
  let '(extending_seq_num, extending_timestamp) :=
    match last extending_blocks with
    | Some extended_block => (ev_seq_num extended_block, bh_timestamp_ns (ev_header extended_block))
    | None => (ri_seq_num blocktree_root, 0)
    end in
  next ← seq_add extending_seq_num 1;
  if bool_decide (ev_seq_num block ≠ next) then Ret (Err BlockNotCoherent)
  else if bool_decide (bh_timestamp_ns (ev_header block) ≤ extending_timestamp) then Ret (Err TimestampError)
  else
    expected_execution_results ←? try_map_err PolicyStateBackendError
      (policy_get_expected_execution_results policy (ev_seq_num block) extending_blocks state_backend);
    if bool_decide (bh_delayed_execution_results (ev_header block) ≠ expected_execution_results)
    then Ret (Err ExecutionResultMismatch)
    else
      '(base_fee, base_fee_trend, base_fee_moment) ← policy_compute_base_fee policy extending_blocks chain_config;
      if bool_decide (base_fee ≠ bh_base_fee (ev_header block))
         || bool_decide (base_fee_trend ≠ bh_base_fee_trend (ev_header block))
         || bool_decide (base_fee_moment ≠ bh_base_fee_moment (ev_header block))
      then Ret (Err BaseFeeError)
      else Ret (Ok tt).

Definition block_validator_of (policy : EthBlockPolicy) (block : EthValidatedBlock) (chain_config : C)
    : EthBlockPolicyBlockValidator CR :=
  mkBlockValidator (ev_seq_num block) (bp_execution_delay policy) (bh_base_fee (ev_header block))
    (cc_chain_revision chain_config (bh_block_round (ev_header block))).

(** [EthBlockPolicy::check_coherency]. *)
Definition policy_check_coherency (policy : EthBlockPolicy) (block : EthValidatedBlock)
    (extending_blocks : list EthValidatedBlock) (blocktree_root : RootInfo) (state_backend : SB) (chain_config : C)
    : outcome (result BlockPolicyError unit) :=
  let chain_id := cc_chain_id chain_config in
  _ ←? check_block_fields policy block extending_blocks blocktree_root state_backend chain_config;
  let tx_signers := extract_signers (ev_validated_txns block) (ev_system_txns block) in
  account_nonces ←? try_map_err PolicyStateBackendError
    (get_account_base_nonces policy (ev_seq_num block) state_backend extending_blocks (set_iter tx_signers));
  account_balances ←?
    compute_account_base_balances policy (ev_seq_num block) state_backend chain_config (Some extending_blocks)
      (set_iter tx_signers);
  let validator := block_validator_of policy block chain_config in
  _ ←? try_map_err (λ _, BlockTree.SystemTransactionError)
         (policy_validate_system_transactions_input policy block extending_blocks chain_config);
  account_nonces ←? system_transaction_nonce_check (ev_system_txns block) account_nonces;
  _ ←? try_fold (check_transaction validator chain_id) (account_nonces, account_balances) (ev_validated_txns block);
  Ret (Ok tt).

(** [EthBlockPolicy::update_committed_block]. *)
Definition policy_update_committed_block (policy : EthBlockPolicy) (block : EthValidatedBlock) : outcome EthBlockPolicy :=
  next ← seq_add (bp_last_commit policy) 1;
  _ ← rust_assert (bool_decide (ev_seq_num block = next));
  cache ← buffer_update (bp_committed_cache policy) block;
  Ret {| policy with bp_last_commit := ev_seq_num block; bp_committed_cache := cache |}.

(** [EthBlockPolicy::reset]. *)
Fixpoint reset_blocks (policy : EthBlockPolicy) (blocks : list EthValidatedBlock) : outcome EthBlockPolicy :=
  match blocks with
  | [] => Ret policy
  | block :: blocks =>
      cache ← buffer_update (bp_committed_cache policy) block;
      reset_blocks {| policy with bp_last_commit := ev_seq_num block; bp_committed_cache := cache |} blocks
  end.
Definition reset (policy : EthBlockPolicy) (last_delay_committed_blocks : list EthValidatedBlock) : outcome EthBlockPolicy :=
  reset_blocks {| policy with bp_committed_cache := buffer_new (bb_min_buffer_size (bp_committed_cache policy)) |}
    last_delay_committed_blocks.
End block_policy.
