(* ===== verification/SystemCallsProps.v ===== *)
(** * What the system transactions of a block are

    The validator leaves a proposer no choice: a block passes the two checks
    on system transactions exactly when it starts with one transaction for
    every expected call, and no other transaction of it is by the system
    sender or makes a restricted call. What an honest leader generates passes. *)
From S2P Require Import Prelude Types ChainConfig Interfaces MultiSig Certificates Concrete BlockTree BaseFee EthTypes ToyEth ReserveBalance NonceUsage StaticValidation SystemCalls EthBlockValidator EthBlockPolicy.
#[local] Open Scope N_scope.

(** Signing a legacy transaction keeps its fields, as far as their types hold
    them; the signature is normalized and by the system sender. *)
Class AlloySigning (A : Alloy) : Prop := {
  sign_type : ∀ l, tx_type (sign_legacy l) = TtLegacy;
  sign_chain_id : ∀ l, tx_chain_id (sign_legacy l) = tl_chain_id l;
  sign_nonce : ∀ l, tl_nonce l ≤ u64_MAX → tx_nonce (sign_legacy l) = tl_nonce l;
  sign_low_s : ∀ l, tx_high_s (sign_legacy l) = false;
  sign_gas_price : ∀ l, tx_gas_price (sign_legacy l) = Some (tl_gas_price l);
  sign_gas_limit : ∀ l, tl_gas_limit l ≤ u64_MAX → tx_gas_limit (sign_legacy l) = tl_gas_limit l;
  sign_kind : ∀ l, tx_kind (sign_legacy l) = tl_to l;
  sign_value : ∀ l, tl_value l ≤ U256_MAX → tx_value (sign_legacy l) = tl_value l;
  sign_input : ∀ l, tx_input (sign_legacy l) = tl_input l;
  sign_recover : ∀ l, tx_recover (sign_legacy l) = Some SYSTEM_SENDER_ETH_ADDRESS;
}.

Lemma toy_signing : AlloySigning toy_alloy.
Proof. split; intros l; simpl; try done; lia. Qed.

Section system_props.
Context {E : EthProtocol} {C CR : Type} {CC : ChainConfig C CR} (chain_config : C).
Implicit Types (txn : RecoveredTx) (h : ConsensusBlockHeader).

(** The call of a system call. *)
Definition staking_call (c : SystemCall) : StakingContractCall := match c with ScStakingContractCall c => c end.

(** The transaction [txn] makes the system call [c]. *)
Record makes_call (c : SystemCall) txn : Prop := {
  mc_signer : rt_signer txn = SYSTEM_SENDER_ETH_ADDRESS;
  mc_type : tx_type (rt_inner txn) = TtLegacy;
  mc_chain_id : tx_chain_id (rt_inner txn) = Some (cc_chain_id chain_config);
  mc_low_s : tx_high_s (rt_inner txn) = false;
  mc_gas_price : tx_gas_price (rt_inner txn) = Some 0;
  mc_gas_limit : tx_gas_limit (rt_inner txn) = 0;
  mc_kind : tx_kind (rt_inner txn) = Call STAKING_CONTRACT_ADDRESS;
  mc_input : tx_input (rt_inner txn) = get_transaction_input (staking_call c);
  mc_value : tx_value (rt_inner txn) = get_transaction_value (staking_call c);
}.

Definition user_txn txn : Prop := rt_signer txn ≠ SYSTEM_SENDER_ETH_ADDRESS ∧ is_restricted_system_call txn = false.

Definition as_validated txn : ValidatedTx := mkValidatedTx txn [].

(** ** The checks of one transaction *)

Lemma system_transaction_checks c txn :
  static_validate_system_transaction chain_config txn = Ok tt ∧
  validate_system_transaction_input c (as_validated txn) = Ok tt ↔ makes_call c txn.
Proof.
  unfold static_validate_system_transaction, is_system_sender. destruct c as [c]. simpl. unfold staking_validate_input, tx_to.
  change (vt_env (as_validated txn)) with (rt_inner txn).
  replace (match c with Reward _ block_reward => block_reward | _ => 0 end) with (get_transaction_value c) by (by destruct c).
  split.
  - intros [H1 H2]. destruct (bool_decide (rt_signer txn = _)) eqn:Hs; [|done]. destruct (bool_decide (tx_type _ = _)) eqn:Ht; [|done].
    destruct (bool_decide (tx_chain_id _ ≠ _)) eqn:Hc; [done|]. destruct (tx_high_s (rt_inner txn)) eqn:Hh; [done|].
    destruct (bool_decide (tx_gas_price _ ≠ _)) eqn:Hg; [done|]. destruct (bool_decide (tx_gas_limit _ ≠ _)) eqn:Hl; [done|].
    destruct (tx_kind (rt_inner txn)) as [|to] eqn:Hk; [done|]. destruct (bool_decide (Some to ≠ _)) eqn:Hto; [done|].
    destruct (bool_decide (tx_input _ ≠ _)) eqn:Hi; [done|]. destruct (bool_decide (tx_value _ ≠ _)) eqn:Hv; [done|].
    apply bool_decide_eq_true in Hs, Ht. apply bool_decide_eq_false in Hc, Hg, Hl, Hto, Hi, Hv.
    apply dec_stable in Hc, Hg, Hl, Hto, Hi, Hv. split; try done. congruence.
  - intros [Hs Ht Hc Hh Hg Hl Hk Hi Hv]. rewrite Hs, Ht, Hc, Hh, Hg, Hl, Hk, Hi, Hv.
    split; repeat case_bool_decide; done.
Qed.

Lemma check_user_txns_ok users : check_user_txns users = Ok tt ↔ Forall user_txn users.
Proof.
  induction users as [|u users IH]; simpl; [by split|]. unfold is_system_sender. rewrite Forall_cons, <- IH. unfold user_txn.
  case_bool_decide; [naive_solver|]. destruct (is_restricted_system_call u); naive_solver.
Qed.

(** ** The lists *)

Lemma take_system_txns_prefix acc p users :
  Forall (λ t, static_validate_system_transaction chain_config t = Ok tt) p →
  (∀ u, head users = Some u → rt_signer u ≠ SYSTEM_SENDER_ETH_ADDRESS) →
  take_system_txns chain_config acc (p ++ users) = Ok (acc ++ (as_validated <$> p), users).
Proof.
  intros Hp Hu. revert acc. induction p as [|t p IH]; intros acc; simpl.
  - rewrite app_nil_r. destruct users as [|u users]; [done|]. simpl. unfold is_system_sender.
    by rewrite bool_decide_eq_false_2 by (by apply Hu).
  - apply Forall_cons in Hp as [Ht Hp]. rewrite Ht. unfold static_validate_system_transaction in Ht.
    destruct (is_system_sender (rt_signer t)); [|done]. simpl. rewrite IH by done. by rewrite <- (assoc_L (++)).
Qed.

Lemma take_system_txns_inv acc l sys users : take_system_txns chain_config acc l = Ok (sys, users) →
  ∃ p, l = p ++ users ∧ sys = acc ++ (as_validated <$> p) ∧
    Forall (λ t, static_validate_system_transaction chain_config t = Ok tt) p.
Proof.
  revert acc. induction l as [|t l IH]; intros acc H; simpl in H.
  { injection H as <- <-. exists []. simpl. rewrite app_nil_r. by split_and!; [..|constructor]. }
  destruct (is_system_sender _); simpl in H; [|injection H as <- <-; exists []; simpl; rewrite app_nil_r; by split_and!; [..|constructor]].
  destruct (static_validate_system_transaction _ _) as [[]|] eqn:Ht; [|done]. apply IH in H as (p & -> & -> & Hp).
  exists (t :: p). rewrite fmap_cons, <- (assoc_L (++)). split_and!; [done|done|by constructor].
Qed.

Lemma validate_inputs_ok calls p : length calls = length p →
  validate_inputs (zip calls (as_validated <$> p)) = Ok tt ↔
  Forall2 (λ c t, validate_system_transaction_input c (as_validated t) = Ok tt) calls p.
Proof.
  revert p. induction calls as [|c calls IH]; intros [|t p] H; try done.
  rewrite fmap_cons, Forall2_cons. cbn [zip zip_with validate_inputs]. rewrite <- IH by (simpl in H; lia).
  destruct (validate_system_transaction_input c _) as [[]|]; naive_solver.
Qed.

Lemma Forall2_both {X Y} (Q : Y → Prop) (R S : X → Y → Prop) l k : (∀ x y, Q y ∧ R x y ↔ S x y) →
  Forall Q k ∧ Forall2 R l k ↔ Forall2 S l k.
Proof.
  intros H. split.
  - intros [Hq Hr]. induction Hr as [|x y l k Hxy _ IH]; constructor.
    + apply Forall_cons in Hq as [? _]. by apply H.
    + apply Forall_cons in Hq as [_ ?]. auto.
  - induction 1 as [|x y l k Hxy _ [IHq IHr]]; [by split; constructor|]. apply H in Hxy as [? ?]. split; by constructor.
Qed.

Lemma system_checks_exact h parent_epoch txns sys users : validates_system_txs chain_config h = true →
  extract_system_transactions chain_config h txns = Ok (sys, users) ∧
  validate_system_transactions_input chain_config h parent_epoch sys = Ret (Ok tt) ↔
  ∃ calls p, generate_system_calls chain_config (bh_seq_num h) (bh_epoch h) parent_epoch (get_eth_address (bh_author h)) = Ret calls ∧
    txns = p ++ users ∧ sys = as_validated <$> p ∧ Forall2 makes_call calls p ∧ Forall user_txn users.
Proof.
  intros Hv. unfold extract_system_transactions, validate_system_transactions_input. rewrite Hv. simpl. split.
  - intros [H1 H2]. monad_inv H1. destruct v as [sys' users']. monad_inv H1. injection H1 as -> ->.
    apply take_system_txns_inv in Hv0 as (p & -> & -> & Hp). destruct v. apply check_user_txns_ok in Hv1.
    monad_inv H2. case_bool_decide as Hlen; [done|]. injection H2 as H2. simpl in *.
    rewrite length_fmap in Hlen. apply validate_inputs_ok in H2; [|done].
    exists v, p. split_and!; try done. by eapply (Forall2_both _ _ _ _ _ system_transaction_checks).
  - intros (calls & p & -> & -> & -> & Hc & Hu). pose proof (Forall2_length _ _ _ Hc) as Hlen.
    eapply (Forall2_both _ _ _ _ _ system_transaction_checks) in Hc as [Hp Hc].
    rewrite take_system_txns_prefix; [|done|].
    2:{ intros u Hhd. destruct users as [|u' users]; [done|]. injection Hhd as ->. by apply Forall_cons in Hu as [[] _]. }
    apply check_user_txns_ok in Hu. cbn. rewrite Hu. split; [done|].
    rewrite bool_decide_eq_false_2 by (rewrite length_fmap; auto). f_equal. by apply validate_inputs_ok.
Qed.

(** C18. A block with the transactions [txns] passes both checks on its system
    transactions, with [users] left, exactly when it starts with one
    transaction per expected call that makes this call, and [users] are the
    rest, none of them by the system sender or to a restricted function. *)
Theorem system_transactions_exact h parent_epoch txns sys users : validates_system_txs chain_config h = true →
  extract_system_transactions chain_config h txns = Ok (sys, users) ∧
  validate_system_transactions_input chain_config h parent_epoch sys = Ret (Ok tt) ↔
  ∃ calls p, generate_system_calls chain_config (bh_seq_num h) (bh_epoch h) parent_epoch (get_eth_address (bh_author h)) = Ret calls ∧
    txns = p ++ users ∧ sys = as_validated <$> p ∧ Forall2 makes_call calls p ∧ Forall user_txn users.
Proof. apply system_checks_exact. Qed.

(** ** What a leader generates *)
Context {AS : AlloySigning eth_alloy}.

(** The recovered transactions of the generated ones. *)
Definition generated (calls : list SystemCall) (nonce : Nonce) : list RecoveredTx :=
  system_transaction_into <$> sign_system_calls chain_config calls nonce.

Definition call_fits (c : SystemCall) : Prop := get_transaction_value (staking_call c) ≤ U256_MAX.

Lemma signed_inner c chain_id nonce :
  system_transaction_into (into_signed_transaction c chain_id nonce) =
  sign_with_system_sender (as_legacy_transaction (staking_call c) chain_id nonce).
Proof. by destruct c as [[]]. Qed.

Lemma signed_makes_call c nonce : call_fits c →
  makes_call c (system_transaction_into (into_signed_transaction c (cc_chain_id chain_config) nonce)).
Proof.
  intros Hc. rewrite signed_inner. split; simpl; try done; [apply sign_type|apply sign_chain_id|apply sign_low_s|
    apply sign_gas_price|by rewrite sign_gas_limit|apply sign_kind|apply sign_input|by rewrite sign_value].
Qed.

Lemma generated_makes_calls calls nonce : Forall call_fits calls → Forall2 makes_call calls (generated calls nonce).
Proof.
  unfold generated. intros H. revert nonce. induction H as [|c calls Hc _ IH]; intros nonce; simpl; [constructor|].
  constructor; [by apply signed_makes_call|apply IH].
Qed.

Lemma generate_system_calls_fit n epoch parent author calls :
  generate_system_calls chain_config n epoch parent author = Ret calls → Forall call_fits calls.
Proof.
  unfold generate_system_calls. intros H. monad_inv H. injection H as <-.
  apply Forall_fmap. rewrite !Forall_app. unfold compose, call_fits. simpl.
  assert (∀ (b : bool) (c : StakingContractCall), get_transaction_value c ≤ U256_MAX →
    Forall (λ c, get_transaction_value c ≤ U256_MAX) (if b then [c] else [])) as Hone.
  { intros [] c Hc; [by apply Forall_singleton|constructor]. }
  split_and!; apply Hone; simpl; [apply N.le_0_l..|].
  unfold wrapping_mul256. pose proof (N.mod_lt (MON * cc_block_reward_mon chain_config epoch) U256_MOD ltac:(done)).
  change U256_MOD with (U256_MAX + 1) in *. lia.
Qed.

Lemma generated_recover calls nonce : mapM recover_txn (rt_inner <$> generated calls nonce) = Some (generated calls nonce).
Proof.
  unfold generated. revert nonce. induction calls as [|c calls IH]; intros nonce; [done|]. cbn [sign_system_calls].
  rewrite !fmap_cons. cbn [mapM]. rewrite signed_inner, IH. unfold recover_txn. simpl. by rewrite sign_recover.
Qed.

Lemma generated_signer calls nonce t : t ∈ generated calls nonce → rt_signer t = SYSTEM_SENDER_ETH_ADDRESS.
Proof.
  unfold generated. revert nonce. induction calls as [|c calls IH]; intros nonce Ht; simpl in Ht; [by apply elem_of_nil in Ht|].
  apply elem_of_cons in Ht as [->|Ht]; [by rewrite signed_inner|by eapply IH].
Qed.

(** The nonces count up from the leader's. *)
Lemma generated_nonces calls nonce (nonces : gmap N Nonce) : nonce + N.of_nat (length calls) ≤ u64_MAX →
  nonces !! SYSTEM_SENDER_ETH_ADDRESS = Some nonce →
  ∃ nonces', system_transaction_nonce_check (as_validated <$> generated calls nonce) nonces = Ret (Ok nonces') ∧
    nonces' !! SYSTEM_SENDER_ETH_ADDRESS = Some (nonce + N.of_nat (length calls)).
Proof.
  unfold generated, system_transaction_nonce_check. revert nonce nonces.
  induction calls as [|c calls IH]; intros nonce nonces Hmax Hn; [exists nonces; rewrite N.add_0_r; done|].
  cbn [length] in Hmax. cbn [sign_system_calls]. rewrite !fmap_cons. cbn [try_fold].
  unfold nonce_check_and_update at 1. rewrite signed_inner. unfold vt_signer, vt_nonce, vt_env. simpl.
  rewrite Hn. cbn [expect mbind outcome_bind]. rewrite sign_nonce by (simpl; lia). simpl.
  rewrite bool_decide_eq_false_2 by auto. rewrite wrapping_add64_small by lia.
  change (try_bind (Ret (Ok ?x)) ?k) with (k x). cbv beta.
  destruct (IH (nonce + 1) (<[SYSTEM_SENDER_ETH_ADDRESS := nonce + 1]> nonces)) as (n' & -> & Hn'); [lia|by rewrite lookup_insert_eq|].
  exists n'. split; [done|]. rewrite Hn'. f_equal. cbn [length]. lia.
Qed.

(** C19. The transactions a leader generates for its block, followed by any user
    transactions, come through the validator: the signers are recovered, they
    are split off the user transactions, they are the calls expected of the
    block, and their nonces follow the system account's. *)
Theorem generated_transactions_pass h parent_epoch nonce nonces txns users :
  validates_system_txs chain_config h = true →
  generate_system_transactions chain_config (bh_seq_num h) (bh_epoch h) parent_epoch (get_eth_address (bh_author h)) nonce = Ret txns →
  nonce + N.of_nat (length txns) ≤ u64_MAX → nonces !! SYSTEM_SENDER_ETH_ADDRESS = Some nonce → Forall user_txn users →
  let sys := system_transaction_into <$> txns in
  mapM recover_txn (rt_inner <$> sys) = Some sys ∧
  extract_system_transactions chain_config h (sys ++ users) = Ok (as_validated <$> sys, users) ∧
  validate_system_transactions_input chain_config h parent_epoch (as_validated <$> sys) = Ret (Ok tt) ∧
  ∃ nonces', system_transaction_nonce_check (as_validated <$> sys) nonces = Ret (Ok nonces') ∧
    nonces' !! SYSTEM_SENDER_ETH_ADDRESS = Some (nonce + N.of_nat (length txns)).
Proof.
  intros Hv Hgen Hmax Hn Hu sys. unfold generate_system_transactions in Hgen. monad_inv Hgen. injection Hgen as <-.
  rename v into calls, Hv0 into Hcalls. fold (generated calls nonce) in sys.
  assert (length (sign_system_calls chain_config calls nonce) = length calls) as Hlen.
  { clear. revert nonce. induction calls as [|c calls IH]; intros nonce; simpl; [done|]. by rewrite IH. }
  rewrite Hlen in *. split; [apply generated_recover|]. rewrite (assoc and). split; [|by apply generated_nonces].
  apply (system_checks_exact h parent_epoch (sys ++ users) (as_validated <$> sys) users Hv).
  exists calls, sys. split_and!; try done. apply generated_makes_calls. by eapply generate_system_calls_fit.
Qed.
End system_props.
