(* ===== verification/NonceProps.v ===== *)
(** * Nonces: the usage a block records is what its transactions do

    The block validator reduces a block to a usage per account; the policy
    checks the nonces of a block one transaction at a time. When that check
    passes, the usage takes the nonce an account had before the block to the
    one it has after. *)
From S2P Require Import Prelude Types ChainConfig Interfaces MultiSig Certificates Concrete BlockTree BaseFee EthTypes ToyEth ReserveBalance NonceUsage StaticValidation SystemCalls EthBlockValidator EthBlockPolicy ReserveProps.
#[local] Open Scope N_scope.

Section nonce_props.
Context {A : Alloy} {AW : AlloyWidths A}.
Implicit Types (nonces : gmap N Nonce) (nu : NonceUsageMap) (txn : ValidatedTx).

(** The nonce part of [check_transaction]. *)
Definition nonce_step (chain_id : N) nonces txn : outcome (result BlockPolicyError (gmap N Nonce)) :=
  nonces ←? nonce_check_and_update nonces txn;
  nonces ← (if bool_decide (tx_type (vt_env txn) = TtEip7702)
            then eip_7702_valid_nonce_update chain_id (vt_authorizations_7702 txn) nonces else Ret nonces);
  Ret (Ok nonces).

(** The nonces [n0] before a block, advanced by the usages [nu], are [nonces]. *)
Definition tracks (n0 : gmap N Nonce) nu nonces : Prop :=
  ∀ a n, n0 !! a = Some n → nonces !! a = Some (apply_usage (nu !! a) n).

Lemma tracks_none n0 : tracks n0 ∅ n0.
Proof. intros a n Hn. by rewrite lookup_empty. Qed.

Lemma checked_add_wrapping n m : checked_add u64_MAX n 1 = Some m → wrapping_add64 n 1 = m.
Proof. intros [-> Hm]%checked_add_Some. unfold wrapping_add64. apply N.mod_small. lia. Qed.

(** A transaction makes the nonce of its sender known. *)
Lemma tracks_known n0 nu nonces txn nonces' : tracks n0 nu nonces →
  nonce_check_and_update nonces txn = Ret (Ok nonces') →
  tracks n0 (<[vt_signer txn := Known (vt_nonce txn)]> nu) nonces'.
Proof.
  intros Ht H. unfold nonce_check_and_update in H. monad_inv H. case_bool_decide as Hn; [done|].
  injection H as <-. intros a n Ha. destruct (decide (a = vt_signer txn)) as [->|Hne].
  - rewrite !lookup_insert_eq. simpl. by rewrite Hn.
  - rewrite !lookup_insert_ne by done. by apply Ht.
Qed.

Lemma tracks_auth n0 nu nonces chain_id auth nonces' fees nu' fees' : tracks n0 nu nonces →
  auth_nonce_update chain_id nonces auth = Ret nonces' →
  process_authorization chain_id (nu, fees) auth = Ok (nu', fees') → tracks n0 nu' nonces'.
Proof.
  intros Ht Hn Hu. unfold auth_nonce_update, process_authorization in *.
  destruct (ra_authority auth) as [b|]; [|naive_solver]. case_bool_decide; [done|].
  destruct (other_chain chain_id auth); [naive_solver|].
  monad_inv Hn. monad_inv Hu. injection Hu as -> <-. clear fees.
  set (x := au_nonce (ra_inner auth)) in *. intros a n Ha. specialize (Ht a n Ha).
  destruct (decide (a = b)) as [->|Hne].
  - rewrite Hv in Ht. injection Ht as Ht. unfold authority_nonce in Hv0.
    assert (nonces' !! b = Some (if bool_decide (x = v) then wrapping_add64 v 1 else v)) as ->.
    { destruct (decide (x = v)) as [Hx|Hx].
      - rewrite bool_decide_eq_false_2 in Hn by congruence. injection Hn as <-.
        by rewrite lookup_insert_eq, bool_decide_eq_true_2.
      - rewrite bool_decide_eq_true_2 in Hn by congruence. injection Hn as <-. by rewrite bool_decide_eq_false_2. }
    clear Hn. destruct (nu !! b) as [[k|l]|] eqn:Hb; simpl in Ht.
    + destruct (checked_add u64_MAX k 1) as [next|] eqn:Hk; [|done]. apply checked_add_wrapping in Hk.
      injection Hv0 as <-. rewrite Hk in Ht. subst v.
      rewrite (bool_decide_ext (next = x) (x = next)) by done. case_bool_decide; [by rewrite lookup_insert_eq|].
      rewrite Hb. simpl. by rewrite Hk.
    + injection Hv0 as <-. rewrite lookup_insert_eq. simpl. rewrite apply_possible_app. simpl. by subst v.
    + injection Hv0 as <-. rewrite lookup_insert_eq. simpl. by subst v.
  - assert (nonces' !! a = nonces !! a) as ->.
    { destruct (bool_decide _); injection Hn as <-; [done|]. by rewrite lookup_insert_ne. }
    assert (nu' !! a = nu !! a) as ->; [|done]. unfold authority_nonce in Hv0.
    destruct (nu !! b) as [[k|l]|]; [|injection Hv0 as <-; by rewrite lookup_insert_ne..].
    destruct (checked_add u64_MAX k 1); [|done]. injection Hv0 as <-.
    destruct (bool_decide (_ = x)); [|done]. by rewrite lookup_insert_ne.
Qed.

Lemma tracks_auths chain_id l n0 nu nonces nonces' fees nu' fees' : tracks n0 nu nonces →
  eip_7702_valid_nonce_update chain_id l nonces = Ret nonces' →
  process_authorizations chain_id (nu, fees) l = Ok (nu', fees') → tracks n0 nu' nonces'.
Proof.
  revert nu nonces fees. induction l as [|auth l IH]; intros nu nonces fees Ht Hn Hu; simpl in *; [naive_solver|].
  monad_inv Hn. monad_inv Hu. destruct v0 as [nu1 fees1]. eapply IH; [|done..]. by eapply tracks_auth.
Qed.

(** A transaction accepted by both sides. *)
Lemma tracks_txn base_fee chain_id n0 nu nonces txn nonces' fees nu' fees' : tracks n0 nu nonces →
  nonce_step chain_id nonces txn = Ret (Ok nonces') →
  process_txn base_fee chain_id (nu, fees) txn = Ret (Ok (nu', fees')) → tracks n0 nu' nonces'.
Proof.
  intros Ht Hn Hu. unfold nonce_step in Hn. apply try_bind_ok_inv in Hn as (nonces1 & Hn1 & Hn).
  apply (tracks_known _ _ _ _ _ Ht) in Hn1. clear Ht nonces.
  unfold process_txn, add_known in Hu. case_bool_decide; [done|].
  apply try_bind_ok_inv in Hu as (u & _ & Hu). apply try_bind_ok_inv in Hu as ([nu1 fees1] & Hauth & Hu).
  rewrite compute_txn_max_gas_cost_ret in Hu. simpl in Hu. injection Hu as -> <-.
  monad_inv Hn. injection Hn as ->. destruct (bool_decide (tx_type _ = TtEip7702)).
  - injection Hauth as Hauth. by eapply tracks_auths.
  - injection Hv as ->. by injection Hauth as <- _.
Qed.

Lemma tracks_txns base_fee chain_id txns n0 nu nonces nonces' fees nu' fees' : tracks n0 nu nonces →
  try_fold (nonce_step chain_id) nonces txns = Ret (Ok nonces') →
  try_fold (process_txn base_fee chain_id) (nu, fees) txns = Ret (Ok (nu', fees')) → tracks n0 nu' nonces'.
Proof.
  revert nu nonces fees. induction txns as [|txn txns IH]; intros nu nonces fees Ht Hn Hu; [simpl in *; naive_solver|].
  cbn [try_fold] in *. apply try_bind_ok_inv in Hn as (nonces1 & Hn1 & Hn). apply try_bind_ok_inv in Hu as ([nu1 fees1] & Hu1 & Hu).
  eapply IH; [|done..]. by eapply tracks_txn.
Qed.

Lemma tracks_system txns n0 nu nonces nonces' nu' : tracks n0 nu nonces →
  system_transaction_nonce_check txns nonces = Ret (Ok nonces') →
  process_system_txns nu txns = Ok nu' → tracks n0 nu' nonces'.
Proof.
  revert nu nonces. induction txns as [|txn txns IH]; intros nu nonces Ht Hn Hu.
  { injection Hn as <-. by injection Hu as <-. }
  cbn [process_system_txns] in Hu. unfold system_transaction_nonce_check in Hn. cbn [try_fold] in Hn.
  apply try_bind_ok_inv in Hn as (nonces1 & Hn1 & Hn). monad_inv Hu. eapply IH; [|done..].
  assert (v = <[vt_signer txn := Known (vt_nonce txn)]> nu) as ->.
  { unfold process_system_txn, add_known in Hv. destruct (nu !! vt_signer txn) as [[k|l]|]; [|done|by injection Hv].
    monad_inv Hv. by injection Hv. }
  by eapply tracks_known.
Qed.
End nonce_props.
