(* ===== verification/EthPolicyProps.v ===== *)
(** * What the cache of committed blocks holds

    The committed blocks the policy keeps are consecutive, end at the last
    commit, and reach back at least two execution delays (or to the first
    block): all that the nonces and balances of the next block depend on. The
    invariant holds from genesis on, and committing a block never panics. *)
From S2P Require Import Prelude Types ChainConfig Interfaces MultiSig Certificates Concrete BlockTree BaseFee EthTypes ToyEth ReserveBalance NonceUsage StaticValidation SystemCalls EthBlockValidator EthBlockPolicy ReserveProps NonceProps.
#[local] Open Scope N_scope.

Section policy_cache.
Context {E : EthProtocol} {EC : EthCodec} {CD : Codec}.
Implicit Types (b : EthValidatedBlock) (bs cbs ebs : list EthValidatedBlock) (policy : EthBlockPolicy).

(** Blocks with the sequence numbers [lo], [lo + 1], ... *)
Fixpoint consecutive (lo : N) bs : Prop :=
  match bs with [] => True | b :: bs => ev_seq_num b = lo ∧ consecutive (lo + 1) bs end.

Lemma consecutive_app lo bs1 bs2 :
  consecutive lo (bs1 ++ bs2) ↔ consecutive lo bs1 ∧ consecutive (lo + N.of_nat (length bs1)) bs2.
Proof.
  revert lo. induction bs1 as [|b bs1 IH]; intros lo; simpl; [rewrite N.add_0_r; naive_solver|].
  rewrite IH. replace (lo + 1 + N.of_nat (length bs1)) with (lo + N.of_nat (S (length bs1))) by lia. naive_solver.
Qed.

Lemma consecutive_elem lo bs b : consecutive lo bs → b ∈ bs → lo ≤ ev_seq_num b < lo + N.of_nat (length bs).
Proof.
  revert lo. induction bs as [|c bs IH]; intros lo Hc Hb; [by apply elem_of_nil in Hb|]. destruct Hc as [Hc Hbs].
  apply elem_of_cons in Hb as [->|Hb]; simpl; [lia|]. specialize (IH _ Hbs Hb). lia.
Qed.

Lemma consecutive_lookup lo bs i b : consecutive lo bs → bs !! i = Some b → ev_seq_num b = lo + N.of_nat i.
Proof.
  revert lo i. induction bs as [|c bs IH]; intros lo i Hc Hb; [done|]. destruct Hc as [Hc Hbs].
  destruct i as [|i]; simpl in Hb; [injection Hb as ->; lia|]. rewrite (IH _ _ Hbs Hb). lia.
Qed.

Lemma consecutive_drop lo bs n : consecutive lo bs → consecutive (lo + N.of_nat n) (drop n bs).
Proof.
  revert lo bs. induction n as [|n IH]; intros lo bs H; [by rewrite drop_0, N.add_0_r|].
  destruct bs as [|b bs]; [done|]. destruct H as [_ H]. simpl. specialize (IH _ _ H).
  by replace (lo + N.of_nat (S n)) with (lo + 1 + N.of_nat n) by lia.
Qed.

(** The entries of the cache that holds [bs]. *)
Definition entries bs : list (N * CommittedBlock) := (λ b, (ev_seq_num b, committed_of b)) <$> bs.

Lemma entries_fst_nodup lo bs : consecutive lo bs → NoDup (entries bs).*1.
Proof.
  unfold entries. rewrite <- list_fmap_compose. revert lo. induction bs as [|b bs IH]; intros lo Hc; simpl; [constructor|].
  destruct Hc as [Hc Hbs]. constructor; [|by eapply IH]. intros (c & Heq & Hin)%list_elem_of_fmap.
  pose proof (consecutive_elem _ _ _ Hbs Hin). simpl in Heq. lia.
Qed.

Lemma entries_sorted lo bs : consecutive lo bs → StronglySorted pair_key_le (entries bs).
Proof.
  revert lo. induction bs as [|b bs IH]; intros lo Hc; simpl; [constructor|]. destruct Hc as [Hc Hbs].
  constructor; [by eapply IH|]. apply Forall_fmap, Forall_forall. intros c Hin.
  pose proof (consecutive_elem _ _ _ Hbs Hin). unfold pair_key_le, key_le. simpl. lia.
Qed.

Lemma entries_iter lo bs : consecutive lo bs → btree_iter (list_to_map (entries bs) : gmap N CommittedBlock) = entries bs.
Proof.
  intros Hc. apply btree_iter_unique; [by eapply entries_sorted|].
  symmetry. apply map_to_list_to_map. by eapply entries_fst_nodup.
Qed.

Lemma entries_lookup lo bs n : consecutive lo bs →
  (list_to_map (entries bs) : gmap N CommittedBlock) !! n =
    if bool_decide (lo ≤ n) then committed_of <$> bs !! N.to_nat (n - lo) else None.
Proof.
  intros Hc. case_bool_decide as Hn.
  - destruct (bs !! N.to_nat (n - lo)) as [b|] eqn:Hb; simpl.
    + apply elem_of_list_to_map; [by eapply entries_fst_nodup|]. apply list_elem_of_fmap. exists b.
      pose proof (consecutive_lookup _ _ _ _ Hc Hb). split; [f_equal; lia|]. by apply list_elem_of_lookup_2 in Hb.
    + apply not_elem_of_list_to_map. intros (e & -> & (b & -> & Hin)%list_elem_of_fmap)%list_elem_of_fmap. simpl in *.
      apply lookup_ge_None in Hb. pose proof (consecutive_elem _ _ _ Hc Hin). lia.
  - apply not_elem_of_list_to_map. intros (e & -> & (b & -> & Hin)%list_elem_of_fmap)%list_elem_of_fmap. simpl in *.
    pose proof (consecutive_elem _ _ _ Hc Hin). lia.
Qed.

Lemma entries_size lo bs : consecutive lo bs → size (list_to_map (entries bs) : gmap N CommittedBlock) = length bs.
Proof.
  intros Hc. rewrite <- length_map_to_list, map_to_list_to_map by (by eapply entries_fst_nodup).
  unfold entries. by rewrite length_fmap.
Qed.

(** [split_off] at the [n]-th entry. *)
Lemma entries_filter lo bs n : consecutive lo bs → (n ≤ length bs)%nat →
  filter (λ e, lo + N.of_nat n ≤ e.1) (list_to_map (entries bs) : gmap N CommittedBlock) =
  list_to_map (entries (drop n bs)).
Proof.
  intros Hc Hn. apply map_eq. intros x. rewrite (entries_lookup (lo + N.of_nat n)) by (by apply consecutive_drop).
  rewrite map_lookup_filter, (entries_lookup lo) by done. case_bool_decide as H1; case_bool_decide as H2; simpl; try lia.
  - rewrite lookup_drop. replace (n + N.to_nat (x - (lo + N.of_nat n)))%nat with (N.to_nat (x - lo)) by lia.
    destruct (bs !! N.to_nat (x - lo)); simpl; [|done]. by rewrite option_guard_True.
  - destruct (bs !! N.to_nat (x - lo)); simpl; [|done]. by rewrite option_guard_False.
  - done.
Qed.

Lemma entries_snoc bs b : (∀ c, c ∈ bs → ev_seq_num c ≠ ev_seq_num b) →
  (list_to_map (entries (bs ++ [b])) : gmap N CommittedBlock) = <[ev_seq_num b := committed_of b]> (list_to_map (entries bs)).
Proof.
  intros Hb. unfold entries. rewrite fmap_app. simpl. apply list_to_map_snoc.
  intros (e & Heq & (c & -> & Hc)%list_elem_of_fmap)%list_elem_of_fmap. simpl in Heq. by eapply Hb.
Qed.

(** ** The invariant *)

Record policy_ok policy (lo : N) cbs : Prop := {
  po_blocks : bb_blocks (bp_committed_cache policy) = list_to_map (entries cbs);
  po_consecutive : consecutive lo cbs;
  po_last : bp_last_commit policy + 1 = lo + N.of_nat (length cbs);
  po_delay : 1 ≤ bp_execution_delay policy ≤ 1000000;
  po_size : bb_min_buffer_size (bp_committed_cache policy) = 2 * bp_execution_delay policy;
  po_lo : 1 ≤ lo;
  po_covers : lo = 1 ∨ 2 * bp_execution_delay policy ≤ N.of_nat (length cbs);
  po_bounded : N.of_nat (length cbs) ≤ 4 * bp_execution_delay policy;
}.

Lemma eth_policy_new_ok delay : 1 ≤ delay ≤ 1000000 → policy_ok (eth_policy_new GENESIS_SEQ_NUM delay) 1 [].
Proof.
  intros Hd. split; simpl; try done; try lia; auto.
  unfold u64_MAX. lia.
Qed.

Lemma seq_add_ok n m : n + m ≤ u64_MAX → seq_add n m = Ret (n + m).
Proof. intros H. by apply seq_add_ret. Qed.

Lemma entries_last bs : last (entries bs) = (λ b, (ev_seq_num b, committed_of b)) <$> last bs.
Proof. unfold entries. apply fmap_last. Qed.

(** The cache after the entries before the [n]-th are dropped and [b] is
    added. *)
Lemma cache_snoc lo cbs b n : consecutive lo (cbs ++ [b]) → (n ≤ length cbs)%nat →
  (list_to_map (entries (drop n cbs)) : gmap N CommittedBlock) !! ev_seq_num b = None ∧
  <[ev_seq_num b := committed_of b]> (list_to_map (entries (drop n cbs))) =
    (list_to_map (entries (drop n (cbs ++ [b]))) : gmap N CommittedBlock).
Proof.
  intros [Hc [Hb _]]%consecutive_app Hn.
  assert (∀ c, c ∈ drop n cbs → ev_seq_num c ≠ ev_seq_num b) as Hne.
  { intros c Hin'. assert (c ∈ cbs) as Hin by (rewrite <- (take_drop n cbs); set_solver).
    pose proof (consecutive_elem _ _ _ Hc Hin). lia. }
  split.
  - apply not_elem_of_list_to_map. intros (e & Heq & (c & -> & Hin)%list_elem_of_fmap)%list_elem_of_fmap. by apply (Hne c).
  - rewrite drop_app_le by done. symmetry. by apply entries_snoc.
Qed.

(** What is dropped of a cache of [len] blocks. *)
Definition dropped (len min : nat) : nat := if decide (2 * min ≤ len)%nat then (len - min)%nat else 0%nat.

Lemma make_room_ok buf lo cbs k n next : bb_blocks buf = list_to_map (entries cbs) → consecutive lo cbs →
  bb_min_buffer_size buf = 2 * k → 1 ≤ k ≤ 1000000 → n = dropped (length cbs) (N.to_nat (2 * k)) →
  next = lo + N.of_nat (length cbs) → next < u64_MAX →
  make_room buf next = Ret (list_to_map (entries (drop n cbs))).
Proof.
  intros Hbl Hc Hs Hk Hn Hnext Hmax. unfold make_room. rewrite Hbl, (entries_size lo), (entries_iter lo), Hs by done.
  replace (N.min (2 * k * 2) u64_MAX) with (4 * k) by (unfold u64_MAX; lia).
  unfold dropped in Hn. case_bool_decide as Hfull.
  2:{ rewrite decide_False in Hn by lia. by rewrite Hn, drop_0. }
  rewrite decide_True in Hn by lia. destruct cbs as [|c0 cbs0]; [simpl in Hfull; lia|].
  assert (head (entries (c0 :: cbs0)) = Some (lo, committed_of c0)) as -> by (by destruct Hc as [<- _]).
  set (cbs := c0 :: cbs0) in *. cbn [expect mbind outcome_bind]. rewrite seq_add_ok by lia. cbn [mbind outcome_bind].
  replace (lo + (N.of_nat (length cbs) - 2 * k)) with (lo + N.of_nat n) by lia.
  rewrite (entries_filter lo cbs n), (entries_iter (lo + N.of_nat n)), entries_last, (entries_size (lo + N.of_nat n))
    by (lia || done || by apply consecutive_drop).
  rewrite last_lookup, lookup_drop, length_drop. replace (n + pred (length cbs - n))%nat with (pred (length cbs)) by lia.
  destruct (cbs !! pred (length cbs)) as [c|] eqn:Hlast.
  2:{ apply lookup_ge_None in Hlast. simpl in Hlast. lia. }
  apply (consecutive_lookup lo) in Hlast; [|done]. simpl fmap. cbn [expect mbind outcome_bind].
  rewrite seq_add_ok by lia. cbn [mbind outcome_bind].
  rewrite !bool_decide_eq_true_2 by lia. done.
Qed.

(** Committing the next block. *)
Lemma update_committed_ok policy lo cbs b : policy_ok policy lo cbs →
  ev_seq_num b = bp_last_commit policy + 1 → bp_last_commit policy + 1 < u64_MAX →
  ∃ policy' n, policy_update_committed_block policy b = Ret policy' ∧
    policy_ok policy' (lo + N.of_nat n) (drop n (cbs ++ [b])) ∧ (n ≤ length cbs)%nat ∧
    bp_last_commit policy' = ev_seq_num b ∧ bp_execution_delay policy' = bp_execution_delay policy.
Proof.
  intros [Hbl Hc Hl Hd Hs Hlo Hcov Hbd] Hb Hmax. unfold policy_update_committed_block.
  rewrite seq_add_ok by lia. simpl. rewrite bool_decide_eq_true_2 by done. cbn [rust_assert mbind outcome_bind].
  assert (consecutive lo (cbs ++ [b])) as Hcb by (apply consecutive_app; split; [done|]; split; [lia|done]).
  set (k := bp_execution_delay policy) in *. set (n := dropped (length cbs) (N.to_nat (2 * k))).
  assert (n ≤ length cbs)%nat as Hn by (unfold n, dropped; case_decide; lia).
  destruct (cache_snoc lo cbs b n Hcb Hn) as [Hnone Hins].
  exists (mkEthBlockPolicy (ev_seq_num b)
    (mkCommittedBlkBuffer (list_to_map (entries (drop n (cbs ++ [b])))) (bb_min_buffer_size (bp_committed_cache policy))) k), n.
  split; [|split; [|done]].
  - unfold buffer_update. rewrite Hbl at 1. rewrite (entries_iter lo), entries_last by done.
    rewrite (make_room_ok _ lo cbs k n) by (done || lia).
    destruct (last cbs) as [c|] eqn:Hlast; cbn [fmap option_fmap option_map].
    + rewrite last_lookup in Hlast. apply (consecutive_lookup lo) in Hlast as Hlc; [|done].
      assert (length cbs ≠ 0%nat) by (by destruct cbs). rewrite seq_add_ok by lia. cbn [mbind outcome_bind].
      rewrite !bool_decide_eq_true_2 by (done || lia). cbn [rust_assert mbind outcome_bind]. by rewrite Hins.
    + cbn [mbind outcome_bind]. rewrite bool_decide_eq_true_2 by done. cbn [rust_assert mbind outcome_bind]. by rewrite Hins.
  - split; simpl; try done.
    + by apply consecutive_drop.
    + rewrite length_drop, length_app. simpl. lia.
    + lia.
    + rewrite length_drop, length_app. simpl. fold k. unfold n, dropped in *. case_decide; lia.
    + rewrite length_drop, length_app. simpl. fold k. unfold n, dropped in *. case_decide; lia.
Qed.
(** ** The block under check

    It follows [ebs], coherent blocks after the last commit. *)
Definition next_seq policy ebs : N := bp_last_commit policy + 1 + N.of_nat (length ebs).

Lemma base_seq_num_ret policy n : base_seq_num policy n = Ret (n - bp_execution_delay policy).
Proof. unfold base_seq_num. apply seq_sub_ret. lia. Qed.

Lemma consecutive_find lo bs n : consecutive lo bs → lo ≤ n < lo + N.of_nat (length bs) →
  ∃ b, List.find (λ b, bool_decide (ev_seq_num b = n)) bs = Some b ∧ b ∈ bs ∧ ev_seq_num b = n.
Proof.
  revert lo. induction bs as [|c bs IH]; intros lo Hc Hn; simpl in Hn; [lia|]. destruct Hc as [Hc Hbs]. simpl.
  case_bool_decide as Hcn.
  - exists c. split_and!; [done|set_solver|done].
  - destruct (IH (lo + 1) Hbs) as (b & Hb & Hin & Hs); [lia|]. exists b. split_and!; [done|set_solver|done].
Qed.

(** The block whose state is read is genesis, cached, or an extending one. *)
Lemma get_block_index_ret policy lo cbs ebs base : policy_ok policy lo cbs →
  consecutive (bp_last_commit policy + 1) ebs → base = next_seq policy ebs - bp_execution_delay policy →
  ∃ idx, get_block_index policy (Some ebs) base = Ret (Ok idx) ∧ li_seq_num idx = base.
Proof.
  intros [Hbl Hc Hl Hd Hs Hlo Hcov Hbd] He Hbase. unfold get_block_index, next_seq in *.
  case_bool_decide as H1; [case_bool_decide as H2|].
  - eexists. split; [done|]. by rewrite H2.
  - rewrite Hbl, (entries_lookup lo) by done.
    assert (lo ≤ base) as Hlb by (unfold GENESIS_SEQ_NUM in *; lia). rewrite bool_decide_eq_true_2 by done.
    destruct (lookup_lt_is_Some_2 cbs (N.to_nat (base - lo))) as [b ->]; [lia|]. simpl. by eexists.
  - destruct (consecutive_find (bp_last_commit policy + 1) ebs base He) as (b & -> & _ & _); [lia|]. simpl. by eexists.
Qed.

(** Commits one after the other. *)
Fixpoint commit_blocks policy bs : outcome EthBlockPolicy :=
  match bs with [] => Ret policy | b :: bs => policy ← policy_update_committed_block policy b; commit_blocks policy bs end.

Lemma commit_blocks_ok bs policy lo cbs : policy_ok policy lo cbs → consecutive (bp_last_commit policy + 1) bs →
  bp_last_commit policy + N.of_nat (length bs) < u64_MAX →
  ∃ policy' n, commit_blocks policy bs = Ret policy' ∧ policy_ok policy' (lo + N.of_nat n) (drop n (cbs ++ bs)) ∧
    bp_last_commit policy' = bp_last_commit policy + N.of_nat (length bs) ∧
    bp_execution_delay policy' = bp_execution_delay policy.
Proof.
  revert policy lo cbs. induction bs as [|b bs IH]; intros policy lo cbs Hok Hc Hmax.
  { exists policy, 0%nat. rewrite drop_0, app_nil_r. split_and!; try done; [by rewrite N.add_0_r|simpl; lia]. }
  destruct Hc as [Hb Hbs]. simpl length in Hmax.
  destruct (update_committed_ok policy lo cbs b Hok Hb ltac:(lia)) as (p1 & n & Hp1 & Hok1 & Hn & Hl1 & Hd1).
  destruct (IH p1 _ _ Hok1) as (p2 & m & Hp2 & Hok2 & Hl2 & Hd2).
  { rewrite Hl1, Hb. exact Hbs. }
  { lia. }
  exists p2, (n + m)%nat. simpl. rewrite Hp1. split; [done|]. split; [|split; [lia|congruence]].
  replace (lo + N.of_nat (n + m)) with (lo + N.of_nat n + N.of_nat m) by lia.
  replace (drop (n + m) (cbs ++ b :: bs)) with (drop m (drop n (cbs ++ [b]) ++ bs)); [done|].
  rewrite <- drop_app_le by (rewrite length_app; simpl; lia). rewrite <- (assoc_L (++)), drop_drop. simpl. done.
Qed.

(** From genesis on, commits of consecutive blocks never panic, and the cache
    holds the most recent blocks in order: all of them, or at least two and
    at most four execution delays. *)
Theorem committed_cache_complete delay bs : 1 ≤ delay ≤ 1000000 → consecutive 1 bs → N.of_nat (length bs) < u64_MAX →
  ∃ policy n, commit_blocks (eth_policy_new GENESIS_SEQ_NUM delay) bs = Ret policy ∧
    bp_last_commit policy = N.of_nat (length bs) ∧
    btree_iter (bb_blocks (bp_committed_cache policy)) = entries (drop n bs) ∧
    (n = 0%nat ∨ 2 * delay ≤ N.of_nat (length (drop n bs))) ∧ N.of_nat (length (drop n bs)) ≤ 4 * delay.
Proof.
  intros Hd Hc Hmax. destruct (commit_blocks_ok bs _ 1 [] (eth_policy_new_ok delay Hd)) as (policy & n & Hp & Hok & Hl & Hd').
  { exact Hc. }
  { simpl. unfold GENESIS_SEQ_NUM. lia. }
  exists policy, n. unfold GENESIS_SEQ_NUM in *. simpl in *. destruct Hok as [Hbl Hcd _ _ _ _ Hcov Hbd]. rewrite Hbl, (entries_iter (1 + N.of_nat n)) by done.
  split_and!; try done; [|lia]. destruct Hcov; [left|right]; lia.
Qed.
End policy_cache.
