(* ===== verification/BaseNonces.v ===== *)
(** * The nonces a block is checked against

    [get_account_base_nonces] reads an account [execution_delay] blocks back
    and applies the merged usages of the blocks since. The result is the nonce
    that replaying those blocks gives, transaction by transaction, with the
    checks of the policy. *)
From S2P Require Import Prelude Types ChainConfig Interfaces MultiSig Certificates Concrete BlockTree BaseFee EthTypes ToyEth ReserveBalance NonceUsage StaticValidation SystemCalls EthBlockValidator EthBlockPolicy ReserveProps NonceProps EthPolicyProps.
#[local] Open Scope N_scope.

Section base_nonces.
Context {E : EthProtocol} {EC : EthCodec} {CD : Codec} {CS : CertSignature} {SO : SetOrder N}
        {C CR : Type} {CRV : ChainRevision CR} {CC : ChainConfig C CR}
        {SB : Type} {SBE : EthStateBackend SB} {AW : AlloyWidths eth_alloy}.
Implicit Types (b : EthValidatedBlock) (bs cbs ebs : list EthValidatedBlock) (policy : EthBlockPolicy) (chain_config : C).

(** A block whose nonce usages and fees are those the validator computes. *)
Record validated chain_config b : Prop := {
  vb_process : ∃ nu, process_system_txns ∅ (ev_system_txns b) = Ok nu ∧
    try_fold (process_txn (bh_base_fee (ev_header b)) (cc_chain_id chain_config)) (nu, ∅) (ev_validated_txns b)
    = Ret (Ok (ev_nonce_usages b, ev_txn_fees b));
  vb_wf : Forall txn_wf (ev_validated_txns b);
  vb_length : N.of_nat (length (ev_validated_txns b)) ≤ u64_MAX;
  vb_gas : total_gas (ev_validated_txns b) ≤ cp_proposal_gas_limit (header_chain_params chain_config (ev_header b));
  vb_system : validates_system_txs chain_config (ev_header b) = false → ev_system_txns b = [];
}.

(** [eth_validate] gives such blocks. *)
Lemma mapM_length {X Y} (f : X → option Y) l k : mapM f l = Some k → length k = length l.
Proof. intros H. apply mapM_Some in H. by apply Forall2_length in H. Qed.

Lemma take_system_txns_split chain_config acc l sys users :
  take_system_txns chain_config acc l = Ok (sys, users) →
  ∃ p, l = p ++ users ∧ sys = acc ++ ((λ t, mkValidatedTx t []) <$> p).
Proof.
  revert acc. induction l as [|t l IH]; intros acc H; simpl in H.
  { injection H as <- <-. exists []. split; [done|]. simpl. by rewrite app_nil_r. }
  destruct (is_system_sender _); simpl in H; [|injection H as <- <-; exists []; split; [done|]; simpl; by rewrite app_nil_r].
  destruct (static_validate_system_transaction _ _); [|done]. apply IH in H as (p & -> & ->). exists (t :: p).
  rewrite fmap_cons. by rewrite <- (assoc_L (++)).
Qed.

(** The user transactions are the rest of the block after the system ones. *)
Lemma extract_system_transactions_split chain_config h l sys users :
  extract_system_transactions chain_config h l = Ok (sys, users) →
  ∃ p, l = p ++ users ∧ sys = (λ t, mkValidatedTx t []) <$> p ∧ (validates_system_txs chain_config h = false → p = []).
Proof.
  unfold extract_system_transactions. destruct (validates_system_txs _ _); simpl; [|intros [= <- <-]; by exists []].
  intros H. monad_inv H. destruct v as [s u]. monad_inv H. injection H as <- <-.
  apply take_system_txns_split in Hv as (p & -> & ->). by exists p.
Qed.

Lemma checked_gas_sum_spec acc l total : checked_gas_sum acc l = Some total →
  total = acc + sumN (tx_gas_limit <$> l) ∧ (l = [] ∨ total ≤ u64_MAX).
Proof.
  revert acc. induction l as [|t l IH]; intros acc H; simpl in H.
  { injection H as <-. change (sumN (tx_gas_limit <$> [])) with 0. split; [lia|by left]. }
  destruct (checked_add u64_MAX acc (tx_gas_limit t)) as [a|] eqn:Ha; [|done]. simpl in H.
  apply checked_add_Some in Ha as [-> Hle]. apply IH in H as [-> Hl]. rewrite fmap_cons, sumN_cons.
  split; [lia|right]. destruct Hl as [->|Hl]; [change (sumN (tx_gas_limit <$> [])) with 0|]; lia.
Qed.

Lemma total_gas_sum (l : list ValidatedTx) acc : acc + sumN ((tx_gas_limit ∘ vt_env) <$> l) ≤ u64_MAX →
  foldl (λ acc tx, wrapping_add64 acc (tx_gas_limit (vt_env tx))) acc l = acc + sumN ((tx_gas_limit ∘ vt_env) <$> l).
Proof.
  revert acc. induction l as [|t l IH]; intros acc H.
  { change (sumN ((tx_gas_limit ∘ vt_env) <$> [])) with 0. simpl. lia. }
  rewrite fmap_cons, sumN_cons in *. change ((tx_gas_limit ∘ vt_env) t) with (tx_gas_limit (vt_env t)) in *.
  cbn [foldl]. rewrite wrapping_add64_small by lia. rewrite IH by lia. lia.
Qed.

Lemma recover_txns_inner l k : mapM recover_txn l = Some k → rt_inner <$> k = l.
Proof.
  intros H. apply mapM_Some in H. induction H as [|t r l k Hr _ IH]; [done|]. rewrite fmap_cons, IH.
  unfold recover_txn in Hr. destruct (tx_recover t); simpl in Hr; [|done]. by injection Hr as <-.
Qed.

Lemma validated_txns_limits params body (p users : list RecoveredTx) :
  check_body_limits params body = Ok tt → mapM recover_txn (eb_transactions body) = Some (p ++ users) →
  N.of_nat (length users) ≤ cp_tx_limit params ∧ total_gas (recover_validated <$> users) ≤ cp_proposal_gas_limit params.
Proof.
  intros H Hrec. apply recover_txns_inner in Hrec as Hin.
  unfold check_body_limits in H. do 3 (case_bool_decide; [done|]). monad_inv H. case_bool_decide; [done|].
  apply ok_or_ok_inv, checked_gas_sum_spec in Hv as [-> Hle]. rewrite <- Hin in *. rewrite length_fmap, length_app in *.
  split; [lia|]. rewrite fmap_app, fmap_app, sumN_app in *.
  assert (((tx_gas_limit ∘ vt_env) <$> (recover_validated <$> users)) = (tx_gas_limit <$> (rt_inner <$> users))) as Heq
    by (rewrite <- !list_fmap_compose; done).
  unfold total_gas. rewrite total_gas_sum; rewrite Heq; [lia|].
  destruct Hle as [Hnil|Hle]; [|lia]. apply app_eq_nil in Hnil as [_ ->]. change (sumN (tx_gas_limit <$> [])) with 0. lia.
Qed.

Lemma validate_validated chain_config header body key b :
  cp_tx_limit (header_chain_params chain_config header) ≤ u64_MAX →
  eth_validate chain_config header body key = Ret (Ok b) →
  validated chain_config b ∧ ev_block b = mkFullBlock header body.
Proof.
  intros Hlim H. unfold eth_validate in H. destruct (validate_block_header _ _ _ _ _); [|done].
  apply try_bind_ok_inv in H as ([[[sys txns] nu] fees] & Hb & H). monad_inv H. injection H as <-.
  unfold full_block_new in Hv. case_bool_decide; [done|]. injection Hv as <-. split; [|done].
  unfold validate_block_body in Hb.
  apply try_bind_ok_inv in Hb as ([] & Hlimits & Hb). apply try_bind_ok_inv in Hb as (rec & Hrec & Hb).
  apply try_bind_ok_inv in Hb as ([sys' users] & Hsys & Hb). apply try_bind_ok_inv in Hb as (u2 & _ & Hb).
  apply try_bind_ok_inv in Hb as (nu0 & Hnu0 & Hb). apply try_bind_ok_inv in Hb as (u3 & _ & Hb).
  monad_inv Hb. destruct v as [[nu1 fees1]|e]; [|done]. injection Hb as <- <- <- <-.
  injection Hlimits as Hlimits. injection Hrec as Hrec. injection Hsys as Hsys. injection Hnu0 as Hnu0.
  apply ok_or_ok_inv in Hrec.
  destruct (extract_system_transactions _ _ _) as [[s u]|] eqn:Hex; simpl in Hsys; [|done]. injection Hsys as -> ->.
  apply extract_system_transactions_split in Hex as (p & -> & -> & Hp).
  destruct (check_body_limits _ _) as [[]|] eqn:Hcheck; simpl in Hlimits; [|done].
  destruct (validated_txns_limits _ _ _ _ Hcheck Hrec) as [Hlen Hgas].
  split; simpl.
  - exists nu0. split; [|done]. destruct (process_system_txns ∅ _); simpl in Hnu0; congruence.
  - apply recover_validated_wf.
  - rewrite length_fmap. lia.
  - exact Hgas.
  - intros Hf. by rewrite Hp.
Qed.

(** ** Replaying nonces *)

Definition block_nonces chain_config (nonces : gmap N Nonce) b : outcome (result BlockPolicyError (gmap N Nonce)) :=
  nonces ←? system_transaction_nonce_check (ev_system_txns b) nonces;
  try_fold (nonce_step (cc_chain_id chain_config)) nonces (ev_validated_txns b).

Definition replay_nonces chain_config (nonces : gmap N Nonce) bs : outcome (result BlockPolicyError (gmap N Nonce)) :=
  try_fold (block_nonces chain_config) nonces bs.

Lemma block_nonces_tracks chain_config b nonces nonces' : validated chain_config b →
  block_nonces chain_config nonces b = Ret (Ok nonces') → tracks nonces (ev_nonce_usages b) nonces'.
Proof.
  intros [(nu & Hsys & Htx) _ _ _ _] H. apply try_bind_ok_inv in H as (n1 & H1 & H2).
  eapply tracks_txns; [|exact H2|exact Htx]. eapply tracks_system; [apply tracks_none|exact H1|exact Hsys].
Qed.

Definition usages_of (a : Address) bs : list (option NonceUsage) := (λ b, ev_nonce_usages b !! a) <$> bs.

Lemma replay_nonces_usages chain_config bs nonces nonces' a n : Forall (validated chain_config) bs →
  replay_nonces chain_config nonces bs = Ret (Ok nonces') → nonces !! a = Some n →
  nonces' !! a = Some (replay_usages (usages_of a bs) n).
Proof.
  revert nonces n. induction bs as [|b bs IH]; intros nonces n Hv H Hn; [by injection H as <-|].
  apply Forall_cons in Hv as [Hb Hv]. cbn [replay_nonces try_fold] in H.
  apply try_bind_ok_inv in H as (n1 & H1 & H). apply (block_nonces_tracks _ _ _ _ Hb) in H1.
  exact (IH _ _ Hv H (H1 a n Hn)).
Qed.

(** ** Merging the cache *)

Lemma merge_filtered_lookup (m prev : NonceUsageMap) (X : gset Address) a : a ∈ X →
  merge_with_previous_block m (filter (λ u, u.1 ∈ X) (btree_iter prev)) !! a = merge_usage (m !! a) (prev !! a).
Proof.
  intros Ha. destruct (prev !! a) as [u|] eqn:Hu.
  - apply merge_entries_hit.
    + eapply sublist_NoDup; [apply (btree_keys_nodup prev)|]. apply fmap_sublist, sublist_filter.
    + apply list_elem_of_filter. split; [done|]. by apply elem_of_btree_iter.
  - rewrite merge_entries_miss; [by destruct (m !! a)|].
    intros ([a' u] & -> & [_ Hin]%list_elem_of_filter)%list_elem_of_fmap. apply elem_of_btree_iter in Hin. simpl in *. congruence.
Qed.

Lemma cached_fold_apply (l : list (SeqNum * NonceUsageMap)) (m : NonceUsageMap) (X : gset Address) a n : a ∈ X →
  apply_usage (foldl (λ m e, merge_with_previous_block m (filter (λ u, u.1 ∈ X) (btree_iter e.2))) m l !! a) n =
  apply_usage (m !! a) (replay_usages (reverse ((λ e : SeqNum * NonceUsageMap, e.2 !! a) <$> l)) n).
Proof.
  intros Ha. revert m. induction l as [|e l IH]; intros m; [done|]. simpl.
  rewrite IH, merge_filtered_lookup, merge_usage_apply by done. f_equal.
  unfold replay_usages. by rewrite reverse_cons, foldl_app.
Qed.

(** The blocks after [base] that the policy knows. *)
Definition after (base : N) bs : list EthValidatedBlock := filter (λ b, base < ev_seq_num b) bs.

Lemma Forall_after (Q : EthValidatedBlock → Prop) base bs : Forall Q bs → Forall Q (after base bs).
Proof. rewrite !Forall_forall. intros H b [_ Hb]%list_elem_of_filter. auto. Qed.

Lemma recent_nonce_usages_after policy lo cbs ebs base : policy_ok policy lo cbs →
  recent_nonce_usages policy ebs base = (λ b, (ev_seq_num b, ev_nonce_usages b)) <$> after base (cbs ++ ebs).
Proof.
  intros [Hbl Hc _ _ _ _ _ _]. unfold recent_nonce_usages, after. rewrite Hbl, (entries_iter lo) by done.
  unfold entries. rewrite <- list_fmap_compose.
  assert (((λ e, (e.1, cb_nonce_usages e.2)) ∘ (λ b, (ev_seq_num b, committed_of b))) <$> cbs =
          (λ b, (ev_seq_num b, ev_nonce_usages b)) <$> cbs) as -> by done.
  rewrite <- fmap_app. generalize (cbs ++ ebs). clear. intros bs. induction bs as [|b bs IH]; [done|].
  rewrite fmap_cons, !filter_cons, IH. simpl. case_decide; [by rewrite fmap_cons|done].
Qed.

Lemma cached_usages_apply policy lo cbs ebs base X a n : policy_ok policy lo cbs → a ∈ X →
  apply_usage (cached_usages policy ebs base X !! a) n = replay_usages (usages_of a (after base (cbs ++ ebs))) n.
Proof.
  intros Hok Ha. unfold cached_usages. rewrite cached_fold_apply, lookup_empty by done. simpl.
  rewrite (recent_nonce_usages_after _ lo cbs) by done. f_equal. rewrite fmap_reverse, reverse_involutive.
  unfold usages_of. by rewrite <- list_fmap_compose.
Qed.

(** ** Known nonces and cache misses *)

Section split.
Context (cached : NonceUsageMap) (status : Address → option EthAccount).

Definition status_nonce (o : option EthAccount) : Nonce := match o with Some s => ac_nonce s | None => 0 end.
Definition base_nonce (a : Address) : Nonce := apply_usage (cached !! a) (status_nonce (status a)).

Record split_ok (st : gmap N Nonce * list (Address * option (list Nonce))) (done : list Address) : Prop := {
  so_known : ∀ a n, st.1 !! a = Some n → n = base_nonce a;
  so_misses : ∀ e, e ∈ st.2 → miss_nonce (e, status e.1) = (e.1, base_nonce e.1);
  so_done : ∀ a, a ∈ done → is_Some (st.1 !! a) ∨ a ∈ st.2.*1;
}.

Lemma split_known_ok st l a : split_ok st l → split_ok (split_known cached st a) (l ++ [a]).
Proof.
  destruct st as [known misses]. intros [Hk Hm Hd]. simpl in *. unfold split_known.
  destruct (cached !! a) as [[n|poss]|] eqn:Ha; split; simpl.
  - intros b m. destruct (decide (b = a)) as [->|Hb].
    + rewrite lookup_insert_eq. intros [= <-]. unfold base_nonce. by rewrite Ha.
    + rewrite lookup_insert_ne by done. apply Hk.
  - done.
  - intros b [Hb|Hb%list_elem_of_singleton]%elem_of_app.
    + destruct (Hd b Hb) as [Hs|Hs]; [left|by right]. destruct (decide (b = a)) as [->|Hne];
        [rewrite lookup_insert_eq; by eexists|by rewrite lookup_insert_ne].
    + subst b. left. rewrite lookup_insert_eq. by eexists.
  - done.
  - intros e [He| ->%list_elem_of_singleton]%elem_of_app; [by apply Hm|]. simpl. unfold base_nonce. rewrite Ha. done.
  - intros b [Hb|Hb%list_elem_of_singleton]%elem_of_app.
    + destruct (Hd b Hb); [by left|right]. rewrite fmap_app. set_solver.
    + right. rewrite fmap_app. set_solver.
  - done.
  - intros e [He| ->%list_elem_of_singleton]%elem_of_app; [by apply Hm|]. simpl. unfold base_nonce. rewrite Ha. done.
  - intros b [Hb|Hb%list_elem_of_singleton]%elem_of_app.
    + destruct (Hd b Hb); [by left|right]. rewrite fmap_app. set_solver.
    + right. rewrite fmap_app. set_solver.
Qed.

Lemma split_all_ok l st d : split_ok st d → split_ok (foldl (split_known cached) st l) (d ++ l).
Proof.
  revert st d. induction l as [|a l IH]; intros st d H; [by rewrite app_nil_r|]. simpl.
  rewrite (cons_middle a d l), (assoc_L (++)). by apply IH, split_known_ok.
Qed.

(** Adding the misses to the known nonces. *)
Lemma extend_ok (l : list (Address * Nonce)) (m : gmap N Nonce) :
  (∀ a n, m !! a = Some n → n = base_nonce a) → (∀ e, e ∈ l → e.2 = base_nonce e.1) →
  ∀ a, is_Some (m !! a) ∨ a ∈ l.*1 → foldl (λ m e, <[e.1 := e.2]> m) m l !! a = Some (base_nonce a).
Proof.
  revert m. induction l as [|[a' n'] l IH]; intros m Hm Hl a Ha; simpl.
  { destruct Ha as [[n Hn]|Ha]; [|by apply elem_of_nil in Ha]. by rewrite Hn, (Hm _ _ Hn). }
  apply IH.
  - intros b n. destruct (decide (b = a')) as [->|Hb]; [rewrite lookup_insert_eq|rewrite lookup_insert_ne by done; apply Hm].
    intros [= <-]. apply (Hl (a', n')). set_solver.
  - intros e He. apply Hl. set_solver.
  - simpl in Ha. destruct (decide (a = a')) as [->|Hne]; [left; rewrite lookup_insert_eq; by eexists|].
    rewrite lookup_insert_ne by done. set_solver.
Qed.

Lemma zip_statuses (misses : list (Address * option (list Nonce))) :
  zip misses (status <$> misses.*1) = (λ e, (e, status e.1)) <$> misses.
Proof. induction misses as [|e l IH]; [done|]. rewrite !fmap_cons. simpl. by rewrite IH. Qed.

Lemma base_nonces_of_split l :
  let '(known, misses) := foldl (split_known cached) (∅, []) l in
  ∀ a, a ∈ l →
    foldl (λ m e, <[e.1 := e.2]> m) known (miss_nonce <$> zip misses (status <$> misses.*1)) !! a = Some (base_nonce a).
Proof.
  pose proof (split_all_ok l (∅, []) []) as H. destruct (foldl _ _ l) as [known misses]. simpl in H.
  destruct H as [Hk Hm Hd].
  { split; simpl; [intros a n; by rewrite lookup_empty|intros e He; by apply elem_of_nil in He|
                   intros a Ha; by apply elem_of_nil in Ha]. }
  cbn [fst snd] in *. intros a Ha. rewrite zip_statuses. apply extend_ok; [done| |].
  - intros e (e' & -> & (x & -> & Hx)%list_elem_of_fmap)%list_elem_of_fmap. by rewrite Hm.
  - destruct (Hd a Ha) as [Hs|Hs]; [by left|right]. apply list_elem_of_fmap in Hs as (x & -> & Hx).
    apply list_elem_of_fmap. exists (miss_nonce (x, status x.1)). split; [by rewrite Hm|].
    apply list_elem_of_fmap. exists (x, status x.1). split; [done|]. apply list_elem_of_fmap. by exists x.
Qed.
End split.

(** ** The result *)

(** The database holds the state [status] of the block with number [base]. *)
Definition executed (sb : SB) policy ebs (base : N) (status : Address → option EthAccount) : Prop :=
  ∀ idx addresses, get_block_index policy (Some ebs) base = Ret (Ok idx) →
    sb_get_account_statuses sb (li_block_id idx) base (li_is_finalized idx) addresses = Ok (status <$> addresses).

(** C14. For a block that extends [ebs], the nonces computed from the cached
    usages and the state [execution_delay] blocks back are the nonces after
    replaying every block since, one transaction at a time. *)
Theorem base_nonces_replay policy lo cbs ebs chain_config sb status addresses nonces nonces' :
  policy_ok policy lo cbs → consecutive (bp_last_commit policy + 1) ebs →
  Forall (validated chain_config) (cbs ++ ebs) →
  let n := next_seq policy ebs in
  let base := n - bp_execution_delay policy in
  executed sb policy ebs base status →
  (∀ a, a ∈ addresses → nonces !! a = Some (status_nonce (status a))) →
  replay_nonces chain_config nonces (after base (cbs ++ ebs)) = Ret (Ok nonces') →
  ∃ res, get_account_base_nonces policy n sb ebs addresses = Ret (Ok res) ∧
    ∀ a, a ∈ addresses → res !! a = nonces' !! a.
Proof.
  intros Hok Hc Hval n base Hex Hn Hrep. unfold get_account_base_nonces. rewrite base_seq_num_ret.
  fold base. cbn [mbind outcome_bind]. set (X := list_to_set addresses : gset N).
  set (cached := cached_usages policy ebs base X).
  pose proof (base_nonces_of_split cached status (set_iter X)) as Hsplit.
  destruct (foldl (split_known cached) (∅, []) (set_iter X)) as [known misses].
  destruct (get_block_index_ret policy lo cbs ebs base Hok Hc eq_refl) as (idx & Hidx & _).
  unfold get_account_statuses. rewrite Hidx. cbn [try_bind mbind outcome_bind].
  rewrite (Hex idx _ Hidx). cbn [try_bind mbind outcome_bind].
  rewrite bool_decide_eq_true_2 by (by rewrite !length_fmap). cbn [rust_assert mbind outcome_bind].
  eexists. split; [done|]. intros a Ha. assert (a ∈ X) as HaX by (by apply elem_of_list_to_set).
  rewrite Hsplit by (rewrite set_iter_perm; by apply elem_of_elements).
  rewrite (replay_nonces_usages chain_config (after base (cbs ++ ebs)) nonces nonces' a (status_nonce (status a)))
    by (auto; by apply Forall_after).
  unfold base_nonce. f_equal. unfold cached. by apply (cached_usages_apply policy lo).
Qed.
End base_nonces.
