(* ===== verification/BaseBalances.v ===== *)
(** * The balances a block is checked against

    [compute_account_base_balances] walks the committed cache and the
    extending blocks in three loops. For an account it is one pass over the
    blocks of the last two execution delays: the older half only tells when
    the account last sent a transaction, the newer half is charged. The result
    is the state that charging every transaction since the executed block one
    by one gives. *)
From S2P Require Import Prelude Types ChainConfig Interfaces MultiSig Certificates Concrete BlockTree BaseFee EthTypes ToyEth ReserveBalance NonceUsage StaticValidation SystemCalls EthBlockValidator EthBlockPolicy ReserveProps NonceProps EthPolicyProps BaseNonces.
#[local] Open Scope N_scope.

Section base_balances.
Context {E : EthProtocol} {EC : EthCodec} {CD : Codec} {CS : CertSignature} {SO : SetOrder N}
        {C CR : Type} {CRV : ChainRevision CR} {CC : ChainConfig C CR}
        {SB : Type} {SBE : EthStateBackend SB} {AW : AlloyWidths eth_alloy}.
Implicit Types (b : EthValidatedBlock) (bs cbs ebs : list EthValidatedBlock) (policy : EthBlockPolicy)
  (chain_config : C) (s t : AccountBalanceState).

(** ** Parts of a list of consecutive blocks *)

Definition from (n : N) bs : list EthValidatedBlock := filter (λ b, n ≤ ev_seq_num b) bs.
Definition upto (n : N) bs : list EthValidatedBlock := filter (λ b, ev_seq_num b < n) bs.

Lemma from_all lo n bs : consecutive lo bs → n ≤ lo → from n bs = bs.
Proof.
  revert lo. induction bs as [|b bs IH]; intros lo Hc Hn; [done|]. destruct Hc as [Hb Hbs]. unfold from in *.
  rewrite filter_cons_True by lia. f_equal. eapply IH; [done|lia].
Qed.

Lemma from_consecutive lo n bs : consecutive lo bs → lo ≤ n → consecutive n (from n bs).
Proof.
  revert lo. induction bs as [|b bs IH]; intros lo Hc Hn; [done|]. destruct Hc as [Hb Hbs]. unfold from in *.
  destruct (decide (lo = n)) as [<-|Hne].
  - rewrite filter_cons_True by lia. split; [done|]. fold (from lo bs). by rewrite (from_all (lo + 1)) by (done || lia).
  - rewrite filter_cons_False by lia. apply (IH (lo + 1)); [done|lia].
Qed.

Lemma from_length lo n bs : consecutive lo bs → lo ≤ n → n ≤ lo + N.of_nat (length bs) →
  N.of_nat (length (from n bs)) = lo + N.of_nat (length bs) - n.
Proof.
  revert lo. induction bs as [|b bs IH]; intros lo Hc Hn Hm; [simpl in *; lia|]. destruct Hc as [Hb Hbs]. unfold from in *.
  simpl length in Hm. destruct (decide (lo = n)) as [<-|Hne].
  - rewrite filter_cons_True by lia. fold (from lo bs). rewrite (from_all (lo + 1)) by (done || lia). simpl. lia.
  - rewrite filter_cons_False by lia. rewrite (IH (lo + 1)) by (done || lia). simpl. lia.
Qed.

Lemma upto_none lo n bs : consecutive lo bs → n ≤ lo → upto n bs = [].
Proof.
  revert lo. induction bs as [|b bs IH]; intros lo Hc Hn; [done|]. destruct Hc as [Hb Hbs]. unfold upto.
  rewrite filter_cons_False by lia. apply (IH (lo + 1)); [done|lia].
Qed.

Lemma upto_length lo n bs : consecutive lo bs → lo ≤ n → lo + N.of_nat (length (upto n bs)) ≤ n.
Proof.
  revert lo. induction bs as [|b bs IH]; intros lo Hc Hn; [simpl; lia|]. destruct Hc as [Hb Hbs].
  destruct (decide (lo = n)) as [<-|Hne].
  - rewrite (upto_none lo) by done. simpl. lia.
  - unfold upto. rewrite filter_cons_True by lia. simpl. specialize (IH (lo + 1) Hbs ltac:(lia)). unfold upto in IH. lia.
Qed.

Lemma from_none lo n bs : consecutive lo bs → lo + N.of_nat (length bs) ≤ n → from n bs = [].
Proof.
  revert lo. induction bs as [|b bs IH]; intros lo Hc Hn; [done|]. destruct Hc as [Hb Hbs]. simpl length in Hn.
  unfold from. rewrite filter_cons_False by lia. apply (IH (lo + 1)); [done|lia].
Qed.

Lemma upto_from lo n bs : consecutive lo bs → bs = upto n bs ++ from n bs.
Proof.
  revert lo. induction bs as [|b bs IH]; intros lo Hc; [done|]. destruct Hc as [Hb Hbs]. unfold upto, from.
  destruct (decide (lo < n)) as [Hlt|Hge].
  - rewrite filter_cons_True, filter_cons_False by lia. simpl. f_equal. by eapply IH.
  - rewrite filter_cons_False, filter_cons_True by lia. fold (upto n bs) (from n bs).
    rewrite (from_all (lo + 1)) by (done || lia).
    by rewrite (upto_none (lo + 1)) by (done || lia).
Qed.

Lemma skip_while_from lo n bs : consecutive lo bs → skip_while (λ b, bool_decide (ev_seq_num b < n)) bs = from n bs.
Proof.
  revert lo. induction bs as [|b bs IH]; intros lo Hc; [done|]. pose proof Hc as [Hb Hbs]. simpl. unfold from.
  case_bool_decide.
  - rewrite filter_cons_False by lia. by eapply IH.
  - symmetry. apply (from_all lo n (b :: bs)); [done|lia].
Qed.

Lemma entries_range bs n m : filter (λ e, n ≤ e.1 < m) (entries bs) = entries (upto m (from n bs)).
Proof.
  unfold entries, upto, from. induction bs as [|b bs IH]; [done|]. rewrite fmap_cons, !filter_cons. simpl.
  rewrite IH. destruct (decide (n ≤ ev_seq_num b)); [rewrite filter_cons|];
    repeat case_decide; try lia; done.
Qed.

Lemma entries_range_from bs n : filter (λ e, n ≤ e.1) (entries bs) = entries (from n bs).
Proof.
  unfold entries, from. induction bs as [|b bs IH]; [done|]. rewrite fmap_cons, !filter_cons, IH. simpl.
  by case_decide.
Qed.

(** ** One pass over the blocks *)

(** What a block does to account [a]: up to [base] it may be the latest one
    with a transaction of the account, after it its fees are charged. *)
Definition window_step policy chain_config (a : Address) (base : N) s b : outcome (result BlockPolicyError AccountBalanceState) :=
  match ev_txn_fees b !! a with
  | None => Ret (Ok s)
  | Some f =>
      if bool_decide (ev_seq_num b ≤ base) then
        Ret (Ok (if bool_decide (ab_block_seqnum_of_latest_txn s < ev_seq_num b)
                 then {| s with ab_block_seqnum_of_latest_txn := ev_seq_num b |} else s))
      else try_apply_block_fees (block_validator_of policy b chain_config) s f
  end.

(** A loop that also counts, over consecutive blocks. *)
Lemma counted_fold {X} (f : AccountBalanceState * SeqNum → X → outcome (result BlockPolicyError (AccountBalanceState * SeqNum)))
    (g : AccountBalanceState → EthValidatedBlock → outcome (result BlockPolicyError AccountBalanceState)) (x : EthValidatedBlock → X) bs lo s :
  (∀ s b, b ∈ bs → f (s, ev_seq_num b) (x b) = (s ←? g s b; Ret (Ok (s, ev_seq_num b + 1)))) →
  consecutive lo bs →
  try_fold f (s, lo) (x <$> bs) = (s ←? try_fold g s bs; Ret (Ok (s, lo + N.of_nat (length bs)))).
Proof.
  revert lo s. induction bs as [|b bs IH]; intros lo s Hf Hc; simpl; [by rewrite N.add_0_r|]. destruct Hc as [Hb Hbs].
  rewrite <- Hb, Hf by set_solver. unfold try_bind. destruct (g s b) as [[s'|e]| |]; cbn [mbind outcome_bind]; try done.
  rewrite Hb. fold (@try_bind BlockPolicyError). rewrite (IH (lo + 1)) by (done || set_solver).
  unfold try_bind. replace (lo + 1 + N.of_nat (length bs)) with (lo + N.of_nat (S (length bs))) by lia. done.
Qed.

(** Binding is associative. *)
Lemma try_bind_assoc {X Y Z} (m : outcome (result BlockPolicyError X)) (f : X → outcome (result BlockPolicyError Y))
    (g : Y → outcome (result BlockPolicyError Z)) :
  try_bind (try_bind m f) g = try_bind m (λ x, try_bind (f x) g).
Proof. by destruct m as [[?|?]| |]. Qed.

Lemma try_bind_ext {X Y} (m : outcome (result BlockPolicyError X)) (f g : X → outcome (result BlockPolicyError Y)) :
  (∀ x, f x = g x) → try_bind m f = try_bind m g.
Proof. intros H. unfold try_bind. destruct m as [[?|?]| |]; simpl; auto. Qed.

Lemma emptying_loop policy chain_config a base s lo bs : consecutive lo bs →
  lo + N.of_nat (length bs) ≤ base + 1 → base < u64_MAX →
  try_fold (emptying_check a) (s, lo) (entries bs) =
  (s ←? try_fold (window_step policy chain_config a base) s bs; Ret (Ok (s, lo + N.of_nat (length bs)))).
Proof.
  intros Hc Hlen Hmax. apply counted_fold; [|done]. intros s1 b Hb. pose proof (consecutive_elem _ _ _ Hc Hb).
  unfold emptying_check, window_step. simpl. rewrite (bool_decide_eq_true_2 (ev_seq_num b = ev_seq_num b)) by done. simpl.
  rewrite seq_add_ok by lia. destruct (ev_txn_fees b !! a) as [f|].
  - rewrite (bool_decide_eq_true_2 (is_Some (Some f))) by by eexists.
    by rewrite (bool_decide_eq_true_2 (ev_seq_num b ≤ base)) by lia.
  - by rewrite (bool_decide_eq_false_2 (is_Some None)) by apply is_Some_None.
Qed.

Lemma reserve_loop policy chain_config a base s lo bs : consecutive lo bs → base < lo →
  lo + N.of_nat (length bs) ≤ u64_MAX →
  try_fold (reserve_check a (bp_execution_delay policy) chain_config) (s, lo) (entries bs) =
  (s ←? try_fold (window_step policy chain_config a base) s bs; Ret (Ok (s, lo + N.of_nat (length bs)))).
Proof.
  intros Hc Hlo Hmax. apply counted_fold; [|done]. intros s1 b Hb. pose proof (consecutive_elem _ _ _ Hc Hb).
  unfold reserve_check, window_step. simpl. rewrite (bool_decide_eq_true_2 (ev_seq_num b = ev_seq_num b)) by done. simpl.
  destruct (ev_txn_fees b !! a) as [f|]; simpl.
  - rewrite (bool_decide_eq_false_2 (ev_seq_num b ≤ base)) by lia. unfold block_validator_of.
    apply try_bind_ext. intros s2. by rewrite seq_add_ok by lia.
  - by rewrite seq_add_ok by lia.
Qed.

Lemma extending_loop policy chain_config a base s lo bs : consecutive lo bs → lo + N.of_nat (length bs) ≤ u64_MAX →
  try_fold (extending_check policy a chain_config (base + 1)) (s, lo) bs =
  (s ←? try_fold (window_step policy chain_config a base) s bs; Ret (Ok (s, lo + N.of_nat (length bs)))).
Proof.
  intros Hc Hmax. rewrite <- (list_fmap_id bs) at 1. apply (counted_fold _ _ id); [|done]. intros s1 b Hb.
  pose proof (consecutive_elem _ _ _ Hc Hb). unfold extending_check, window_step. simpl.
  rewrite (bool_decide_eq_true_2 (ev_seq_num b = ev_seq_num b)) by done. simpl.
  destruct (ev_txn_fees b !! a) as [f|]; simpl.
  - rewrite (bool_decide_ext (ev_seq_num b < base + 1) (ev_seq_num b ≤ base)) by lia.
    destruct (bool_decide (ev_seq_num b ≤ base)); simpl.
    + by rewrite seq_add_ok by lia.
    + apply try_bind_ext. intros s2. by rewrite seq_add_ok by lia.
  - by rewrite seq_add_ok by lia.
Qed.

(** The first block that can make a transaction after [base] non-emptying. *)
Definition window_start policy (base : N) : N := N.max 1 (base + 2 - bp_execution_delay policy).

Definition with_latest (n : N) s : AccountBalanceState := {| s with ab_block_seqnum_of_latest_txn := n |}.

(** The three loops are one pass over the window. *)
Lemma account_base_balance_window policy lo cbs ebs chain_config a s :
  policy_ok policy lo cbs → consecutive (bp_last_commit policy + 1) ebs →
  next_seq policy ebs < u64_MAX →
  let base := next_seq policy ebs - bp_execution_delay policy in
  let start := window_start policy base in
  account_base_balance policy chain_config (Some ebs) base a s =
  try_fold (window_step policy chain_config a base) (with_latest (start - 1) s) (from start (cbs ++ ebs)).
Proof.
  intros Hok He Hmax base start. pose proof Hok as [Hbl Hc Hl Hd Hs Hlo Hcov Hbd].
  assert (lo ≤ start ∧ start ≤ base + 1 ∧ base + 1 ≤ next_seq policy ebs) as (H1 & H2 & H3).
  { unfold start, window_start, base, next_seq in *. lia. }
  unfold account_base_balance. rewrite seq_add_ok by lia. cbn [mbind outcome_bind].
  rewrite seq_add_ok by lia. cbn [mbind outcome_bind].
  replace (seq_sub (N.max (base + 1 + 1) (bp_execution_delay policy)) (bp_execution_delay policy))
    with (Ret (base + 2 - bp_execution_delay policy)) by (symmetry; apply seq_sub_ret; lia).
  cbn [mbind outcome_bind].
  assert ((if bool_decide (base + 2 - bp_execution_delay policy = GENESIS_SEQ_NUM)
           then seq_add (base + 2 - bp_execution_delay policy) 1 else Ret (base + 2 - bp_execution_delay policy)) = Ret start) as ->.
  { unfold start, window_start, GENESIS_SEQ_NUM. case_bool_decide; [rewrite seq_add_ok by lia|]; f_equal; lia. }
  cbn [mbind outcome_bind]. rewrite bool_decide_eq_true_2 by (unfold GENESIS_SEQ_NUM, start, window_start; lia).
  replace (seq_sub start 1) with (Ret (start - 1)) by (symmetry; apply seq_sub_ret; unfold start, window_start; lia).
  cbn [mbind outcome_bind]. fold (with_latest (start - 1) s). generalize (with_latest (start - 1) s). clear s. intros s.
  unfold update_account_balance, btree_range, btree_range_from. rewrite Hbl, (entries_iter lo), entries_range, entries_range_from by done.
  set (cs := from start cbs). pose proof (from_consecutive lo start cbs Hc H1) as Hcs. fold cs in Hcs.
  assert (from (base + 1) cbs = from (base + 1) cs) as Hfrom.
  { unfold cs, from. symmetry. apply list_filter_filter_l. intros; lia. }
  rewrite Hfrom. pose proof (upto_from start (base + 1) cs Hcs) as Hsplit.
  assert (consecutive start (upto (base + 1) cs) ∧
          consecutive (start + N.of_nat (length (upto (base + 1) cs))) (from (base + 1) cs)) as [Hc1 Hc2]
    by (apply consecutive_app; by rewrite <- Hsplit).
  assert (N.of_nat (length cs) = N.of_nat (length (upto (base + 1) cs)) + N.of_nat (length (from (base + 1) cs))) as Hlen
    by (rewrite Hsplit at 1; rewrite length_app; lia).
  assert (start + N.of_nat (length cs) = N.max start (bp_last_commit policy + 1)) as Hend.
  { destruct (N.le_gt_cases start (bp_last_commit policy + 1)).
    - unfold cs. rewrite (from_length lo) by (done || lia). lia.
    - unfold cs. rewrite (from_none lo) by (done || lia). simpl. lia. }
  assert (from start ebs = from (start + N.of_nat (length cs)) ebs) as Hebs.
  { destruct (N.le_gt_cases start (bp_last_commit policy + 1)).
    - rewrite !(from_all (bp_last_commit policy + 1)) by (done || lia). done.
    - f_equal. lia. }
  pose proof (upto_length start (base + 1) cs Hcs H2) as Hup.
  rewrite (emptying_loop policy chain_config a base) by (done || lia).
  unfold from at 2. rewrite filter_app. fold (from start cbs) (from start ebs) cs. rewrite try_fold_app.
  rewrite Hsplit at 2. rewrite try_fold_app, !try_bind_assoc. apply try_bind_ext. intros s1.
  change (try_bind (Ret (Ok ?x)) ?k) with (k x). cbv beta.
  assert (try_fold (reserve_check a (bp_execution_delay policy) chain_config)
            (s1, start + N.of_nat (length (upto (base + 1) cs))) (entries (from (base + 1) cs)) =
          (s ←? try_fold (window_step policy chain_config a base) s1 (from (base + 1) cs);
           Ret (Ok (s, start + N.of_nat (length cs))))) as Hres.
  { destruct (from (base + 1) cs) as [|b bs] eqn:Hf; [simpl; rewrite Hlen; simpl; do 3 f_equal; lia|].
    assert (base + 1 ≤ ev_seq_num b) by (assert (b ∈ from (base + 1) cs) as [? _]%list_elem_of_filter by (rewrite Hf; set_solver); done).
    rewrite (reserve_loop policy chain_config a base); [|done|destruct Hc2; lia|unfold next_seq in *; lia].
    apply try_bind_ext. intros s2. by rewrite Hlen, N.add_assoc. }
  rewrite Hres, try_bind_assoc. apply try_bind_ext. intros s2. change (try_bind (Ret (Ok ?x)) ?k) with (k x). cbv beta iota.
  rewrite (skip_while_from (bp_last_commit policy + 1)) by done. rewrite <- Hebs.
  assert (consecutive (start + N.of_nat (length cs)) (from start ebs)) as Hce.
  { rewrite Hebs. apply (from_consecutive (bp_last_commit policy + 1)); [done|lia]. }
  assert (start + N.of_nat (length cs) + N.of_nat (length (from start ebs)) ≤ u64_MAX) as Hfit.
  { rewrite Hebs, (from_length (bp_last_commit policy + 1)) by (done || unfold next_seq in *; lia). unfold next_seq in *. lia. }
  rewrite (extending_loop policy chain_config a base) by done. rewrite try_bind_assoc.
  unfold try_bind. destruct (try_fold _ s2 _) as [[?|?]| |]; done.
Qed.

(** ** Replaying balances *)

(** One account through the transactions of some blocks. *)
Definition run_blocks policy chain_config (a : Address) s bs : option AccountBalanceState :=
  foldl (λ o b, o ≫= λ s, account_run (block_validator_of policy b chain_config) a s (ev_validated_txns b)) (Some s) bs.

Lemma run_blocks_cons policy chain_config a s b bs :
  run_blocks policy chain_config a s (b :: bs) =
  account_run (block_validator_of policy b chain_config) a s (ev_validated_txns b) ≫= λ s, run_blocks policy chain_config a s bs.
Proof.
  unfold run_blocks. simpl. destruct (account_run _ a s _); simpl; [done|]. clear. by induction bs.
Qed.

Lemma run_blocks_snoc policy chain_config a s bs b :
  run_blocks policy chain_config a s (bs ++ [b]) =
  run_blocks policy chain_config a s bs ≫= λ s, account_run (block_validator_of policy b chain_config) a s (ev_validated_txns b).
Proof. unfold run_blocks. by rewrite foldl_app. Qed.

Lemma validated_fees chain_config b a : validated chain_config b →
  ev_txn_fees b !! a = account_fees (bh_base_fee (ev_header b)) a (ev_validated_txns b).
Proof.
  intros [(nu & _ & H) Hwf _ _ _]. apply (process_txns_fees _ _ _ _ _ _ _ a) in H; [|done]. by rewrite H, lookup_empty.
Qed.

(** All revisions reserve the same amount. *)
Definition same_reserve chain_config (reserve : Balance) : Prop :=
  ∀ round, cp_max_reserve_balance (chain_params (cc_chain_revision chain_config round)) = reserve.

(** A block after [base]: applying the fees is running the transactions. *)
Lemma window_step_run policy chain_config reserve a base s t b : 1 ≤ bp_execution_delay policy →
  same_reserve chain_config reserve → validated chain_config b → base < ev_seq_num b → s ≡ t → ab_max_reserve_balance s = reserve →
  is_ret (window_step policy chain_config a base s b) ∧
  ok_of (window_step policy chain_config a base s b)
    ≡ account_run (block_validator_of policy b chain_config) a t (ev_validated_txns b) ∧
  ∀ s', ok_of (window_step policy chain_config a base s b) = Some s' → ab_max_reserve_balance s' = reserve.
Proof.
  intros Hk Hres Hv Hb Hst Hs. set (v := block_validator_of policy b chain_config).
  assert (ab_max_reserve_balance t = reserve) as Ht by (by destruct Hst as (_ & _ & <- & _)).
  assert (reserve_ok v t) as Hrt by (unfold reserve_ok; simpl; by rewrite Hres).
  pose proof (account_run_fees v a t (ev_validated_txns b) Hk Hrt (vb_length _ _ Hv)) as Hrun.
  unfold window_step. rewrite (validated_fees chain_config) by done. fold (bv_base_fee v).
  change (bh_base_fee (ev_header b)) with (bv_base_fee v).
  destruct (account_fees (bv_base_fee v) a (ev_validated_txns b)) as [f|].
  - rewrite bool_decide_eq_false_2 by lia. destruct Hrun as [Hrun Hg]. fold v.
    pose proof (sent_gas_bound (bv_base_fee v) a (ev_validated_txns b)) as Hgb. pose proof GAS_COST_MAX_256.
    pose proof (vb_length _ _ Hv).
    destruct (try_apply_block_fees_spec v s f Hk) as [Hret Hok]; [nia|]. rewrite Hok. split_and!; [done| |].
    + by rewrite Hrun, Hst.
    + intros s' Hs'. by rewrite (apply_spec_reserve _ _ _ _ Hs').
  - destruct Hrun as [-> _]. split_and!; [by eexists|simpl; by constructor|]. by intros s' [= <-].
Qed.

Lemma window_run policy chain_config reserve a base bs s t : 1 ≤ bp_execution_delay policy →
  same_reserve chain_config reserve → Forall (validated chain_config) bs → Forall (λ b, base < ev_seq_num b) bs →
  s ≡ t → ab_max_reserve_balance s = reserve →
  is_ret (try_fold (window_step policy chain_config a base) s bs) ∧
  ok_of (try_fold (window_step policy chain_config a base) s bs) ≡ run_blocks policy chain_config a t bs.
Proof.
  intros Hk Hres. revert s t. induction bs as [|b bs IH]; intros s t Hv Hb Hst Hs.
  { split; [by eexists|]. simpl. by constructor. }
  apply Forall_cons in Hv as [Hvb Hv]. apply Forall_cons in Hb as [Hbb Hb].
  destruct (window_step_run policy chain_config reserve a base s t b Hk Hres Hvb Hbb Hst Hs) as (Hret & Hok & Hmax).
  rewrite run_blocks_cons. cbn [try_fold]. rewrite ok_of_bind. split.
  - apply try_bind_ret; [done|]. intros s1 Hs1. apply ok_of_Some in Hs1. eapply IH; [done..| |by apply Hmax]. reflexivity.
  - destruct (ok_of (window_step _ _ _ _ s b)) as [s1|] eqn:Hs1.
    + symmetry in Hok. apply Some_equiv_eq in Hok as (t1 & -> & Ht1). simpl. apply IH; auto.
    + symmetry in Hok. apply None_equiv_eq in Hok. by rewrite Hok.
Qed.

(** The older half of the window only moves the latest transaction. *)
Definition latest_before (a : Address) (n : N) bs : N :=
  foldl (λ n b, if bool_decide (is_Some (ev_txn_fees b !! a)) then N.max n (ev_seq_num b) else n) n bs.

Lemma window_latest policy chain_config a base bs s : Forall (λ b, ev_seq_num b ≤ base) bs →
  try_fold (window_step policy chain_config a base) s bs =
  Ret (Ok (with_latest (latest_before a (ab_block_seqnum_of_latest_txn s) bs) s)).
Proof.
  revert s. induction bs as [|b bs IH]; intros s Hb; [by destruct s|].
  apply Forall_cons in Hb as [Hbb Hb]. cbn [try_fold]. unfold window_step at 1.
  set (n := if bool_decide (is_Some (ev_txn_fees b !! a))
            then N.max (ab_block_seqnum_of_latest_txn s) (ev_seq_num b) else ab_block_seqnum_of_latest_txn s).
  assert (match ev_txn_fees b !! a with
          | None => Ret (Ok s)
          | Some f => if bool_decide (ev_seq_num b ≤ base) then
              Ret (Ok (if bool_decide (ab_block_seqnum_of_latest_txn s < ev_seq_num b)
                 then {| s with ab_block_seqnum_of_latest_txn := ev_seq_num b |} else s))
              else try_apply_block_fees (block_validator_of policy b chain_config) s f end = Ret (Ok (with_latest n s))) as ->.
  { unfold n, with_latest. destruct (ev_txn_fees b !! a) as [f|].
    - rewrite (bool_decide_eq_true_2 (ev_seq_num b ≤ base)), (bool_decide_eq_true_2 (is_Some (Some f))) by (done || by eexists).
      case_bool_decide; do 3 f_equal; [lia|]. destruct s; simpl in *. f_equal. lia.
    - rewrite (bool_decide_eq_false_2 (is_Some None)) by apply is_Some_None. by destruct s. }
  change (try_bind (Ret (Ok ?x)) ?k) with (k x). cbv beta. by rewrite IH.
Qed.

(** Charging whole blocks, with the code that checks a new block. *)
Definition replay_balances policy chain_config (m : AccountBalanceStates) bs
    : outcome (result BlockPolicyError AccountBalanceStates) :=
  try_fold (λ m b, try_fold (try_add_transaction (block_validator_of policy b chain_config)) m (ev_validated_txns b)) m bs.

Lemma replay_balances_run policy chain_config bs m m' :
  Forall (λ b, populated m (ev_validated_txns b)) bs → replay_balances policy chain_config m bs = Ret (Ok m') →
  ∀ a, m' !! a = m !! a ≫= (λ s, run_blocks policy chain_config a s bs) ∧ (is_Some (m !! a) → is_Some (m' !! a)).
Proof.
  revert m. induction bs as [|b bs IH]; intros m Hpop H a.
  { injection H as <-. by destruct (m !! a). }
  apply Forall_cons in Hpop as [Hb Hpop]. unfold replay_balances in H. cbn [try_fold] in H.
  apply try_bind_ok_inv in H as (m1 & H1 & H).
  pose proof (try_add_transactions_ok (block_validator_of policy b chain_config) (ev_validated_txns b) m Hb) as Hadd.
  apply ok_of_Some in H1. rewrite H1 in Hadd.
  destruct (IH m1) with a as [Ha Hsome]; [|exact H|].
  2:{ split; [|intros Hs; by apply Hsome, Hadd]. rewrite Ha, (proj1 (Hadd a)). destruct (m !! a) as [s|]; simpl; [|done].
      by rewrite run_blocks_cons. }
  eapply Forall_impl; [exact Hpop|]. intros c Hc. eapply Forall_impl; [exact Hc|]. intros txn Htxn. by apply Hadd.
Qed.

(** ** The result *)

(** The state of an account at the executed block: its balance, and the block
    of its latest transaction in the older half of the window. *)
Definition start_state policy (reserve : Balance) (base : N) (status : Address → option EthAccount) bs (a : Address)
    : AccountBalanceState :=
  with_latest (latest_before a (window_start policy base - 1) (upto (base + 1) (from (window_start policy base) bs)))
    (initial_balance_state reserve base (status a)).

Lemma after_from base bs : after base bs = from (base + 1) bs.
Proof. unfold after, from. apply list_filter_iff. intros b. lia. Qed.

Lemma initial_reserve reserve base o : ab_max_reserve_balance (initial_balance_state reserve base o) = reserve.
Proof. by destruct o. Qed.

(** For one account. *)
Lemma account_base_balance_run policy lo cbs ebs chain_config reserve status a :
  policy_ok policy lo cbs → consecutive (bp_last_commit policy + 1) ebs → next_seq policy ebs < u64_MAX →
  Forall (validated chain_config) (cbs ++ ebs) → same_reserve chain_config reserve →
  let base := next_seq policy ebs - bp_execution_delay policy in
  is_ret (account_base_balance policy chain_config (Some ebs) base a (initial_balance_state reserve base (status a))) ∧
  ok_of (account_base_balance policy chain_config (Some ebs) base a (initial_balance_state reserve base (status a)))
    ≡ run_blocks policy chain_config a (start_state policy reserve base status (cbs ++ ebs) a) (after base (cbs ++ ebs)).
Proof.
  intros Hok He Hmax Hval Hres base. pose proof Hok as [Hbl Hc Hl Hd Hs Hlo Hcov Hbd].
  rewrite (account_base_balance_window policy lo cbs ebs) by done. fold base. set (start := window_start policy base).
  assert (lo ≤ start ∧ start ≤ base + 1) as [H1 H2] by (unfold start, window_start, base, next_seq in *; lia).
  assert (consecutive lo (cbs ++ ebs)) as Hcc.
  { apply consecutive_app. split; [done|]. by replace (lo + N.of_nat (length cbs)) with (bp_last_commit policy + 1) by lia. }
  pose proof (from_consecutive lo start _ Hcc H1) as Hw.
  rewrite (upto_from start (base + 1) (from start (cbs ++ ebs)) Hw), try_fold_app, window_latest.
  2:{ apply Forall_forall. intros b [Hb _]%list_elem_of_filter. lia. }
  change (try_bind (Ret (Ok ?x)) ?k) with (k x). cbv beta.
  replace (from (base + 1) (from start (cbs ++ ebs))) with (after base (cbs ++ ebs)).
  2:{ rewrite after_from. unfold from. symmetry. apply list_filter_filter_l. intros; lia. }
  eapply (window_run policy chain_config reserve); [lia|done|by apply Forall_after| |reflexivity|].
  - apply Forall_forall. by intros b [Hb _]%list_elem_of_filter.
  - simpl. apply initial_reserve.
Qed.

Lemma elem_of_unique l a : a ∈ unique l ↔ a ∈ l.
Proof.
  unfold unique. enough (∀ acc, a ∈ foldl (λ acc x, if bool_decide (x ∈ acc) then acc else acc ++ [x]) acc l ↔ a ∈ acc ∨ a ∈ l) as H
    by (rewrite H; set_solver).
  induction l as [|x l IH]; intros acc; simpl; [set_solver|]. rewrite IH. case_bool_decide; set_solver.
Qed.

(** The loop over the accounts. *)
Lemma accounts_fold (f : Address → AccountBalanceState → outcome (result BlockPolicyError AccountBalanceState))
    (init : Address → AccountBalanceState) l (m : AccountBalanceStates) :
  (∀ a, a ∈ l → is_Some (ok_of (f a (init a)))) →
  ∃ res, try_fold (λ m e, s ←? f e.1 e.2; Ret (Ok (<[e.1 := s]> m))) m (zip l (init <$> l)) = Ret (Ok res) ∧
    ∀ a, res !! a = if bool_decide (a ∈ l) then ok_of (f a (init a)) else m !! a.
Proof.
  revert m. induction l as [|x l IH]; intros m Hl.
  { exists m. split; [done|]. intros a. by rewrite bool_decide_eq_false_2 by apply not_elem_of_nil. }
  destruct (Hl x) as [s Hs]; [set_solver|]. destruct (IH (<[x := s]> m)) as (res & Hres & Hlook); [set_solver|].
  exists res. rewrite fmap_cons. cbn [zip zip_with try_fold fst snd]. apply ok_of_Some in Hs as Hs'. rewrite Hs'.
  split; [exact Hres|]. intros a. rewrite Hlook. decide_case (a ∈ l) Hal.
  - by rewrite bool_decide_eq_true_2 by set_solver.
  - destruct (decide (a = x)) as [->|Hne].
    + by rewrite lookup_insert_eq, bool_decide_eq_true_2 by set_solver.
    + by rewrite lookup_insert_ne, bool_decide_eq_false_2 by set_solver.
Qed.

(** The reads of the database done, only that loop is left. *)
Lemma compute_base_balances_fold policy lo cbs ebs chain_config reserve sb status addresses :
  policy_ok policy lo cbs → consecutive (bp_last_commit policy + 1) ebs → same_reserve chain_config reserve →
  let n := next_seq policy ebs in
  let base := n - bp_execution_delay policy in
  executed sb policy ebs base status →
  compute_account_base_balances policy n sb chain_config (Some ebs) addresses =
  try_fold (λ m e, s ←? account_base_balance policy chain_config (Some ebs) base e.1 e.2; Ret (Ok (<[e.1 := s]> m)))
    ∅ (zip (unique addresses) ((initial_balance_state reserve base ∘ status) <$> unique addresses)).
Proof.
  intros Hok He Hres n base Hex. unfold compute_account_base_balances. rewrite base_seq_num_ret. fold n base.
  cbn [mbind outcome_bind]. destruct (get_block_index_ret policy lo cbs ebs base Hok He eq_refl) as (idx & Hidx & _).
  unfold get_account_statuses. rewrite Hidx. cbn [try_map_err try_bind map_err mbind outcome_bind].
  rewrite (Hex idx _ Hidx). cbn [try_map_err try_bind map_err mbind outcome_bind]. rewrite Hres.
  rewrite bool_decide_eq_true_2 by (by rewrite !length_fmap). cbn [rust_assert mbind outcome_bind].
  by rewrite <- list_fmap_compose.
Qed.

(** C13. For a block that extends [ebs], the balances computed from the cached
    fees and the state [execution_delay] blocks back are those after charging
    every transaction of the blocks since, one at a time, to the accounts as
    they were at the executed block. *)
Theorem base_balances_replay policy lo cbs ebs chain_config reserve sb status addresses m m' :
  policy_ok policy lo cbs → consecutive (bp_last_commit policy + 1) ebs → next_seq policy ebs < u64_MAX →
  Forall (validated chain_config) (cbs ++ ebs) → same_reserve chain_config reserve →
  let n := next_seq policy ebs in
  let base := n - bp_execution_delay policy in
  executed sb policy ebs base status →
  (∀ a, a ∈ addresses → m !! a = Some (start_state policy reserve base status (cbs ++ ebs) a)) →
  Forall (λ b, populated m (ev_validated_txns b)) (after base (cbs ++ ebs)) →
  replay_balances policy chain_config m (after base (cbs ++ ebs)) = Ret (Ok m') →
  ∃ res, compute_account_base_balances policy n sb chain_config (Some ebs) addresses = Ret (Ok res) ∧
    ∀ a, a ∈ addresses → res !! a ≡ m' !! a.
Proof.
  intros Hok He Hmax Hval Hres n base Hex Hm Hpop Hrep.
  assert (∀ a, a ∈ addresses → m' !! a =
    run_blocks policy chain_config a (start_state policy reserve base status (cbs ++ ebs) a) (after base (cbs ++ ebs))) as Hm'.
  { intros a Ha. destruct (replay_balances_run _ _ _ _ _ Hpop Hrep a) as [-> _]. by rewrite Hm by done. }
  unfold n at 1. rewrite (compute_base_balances_fold policy lo cbs ebs chain_config reserve sb status) by done. fold n base.
  destruct (accounts_fold (account_base_balance policy chain_config (Some ebs) base)
              (initial_balance_state reserve base ∘ status) (unique addresses) ∅) as (res & Hr & Hlook).
  - intros a Ha. rewrite elem_of_unique in Ha.
    destruct (account_base_balance_run policy lo cbs ebs chain_config reserve status a Hok He Hmax Hval Hres) as [_ Hrun].
    fold n base in Hrun. rewrite <- (Hm' a Ha) in Hrun.
    assert (is_Some (m' !! a)) as [s Hs].
    { apply (replay_balances_run _ _ _ _ _ Hpop Hrep a). rewrite Hm by done. by eexists. }
    rewrite Hs in Hrun. apply Some_equiv_eq in Hrun as (t & Ht & _). exists t. exact Ht.
  - exists res. split; [exact Hr|]. intros a Ha. rewrite Hlook, bool_decide_eq_true_2 by (by apply elem_of_unique).
    destruct (account_base_balance_run policy lo cbs ebs chain_config reserve status a Hok He Hmax Hval Hres) as [_ Hrun].
    rewrite Hm' by done. exact Hrun.
Qed.
End base_balances.
