(* ===== verification/Solvency.v ===== *)
(** * Accepted transactions can pay for their gas

    Execution is [execution_delay] blocks behind consensus. A block that
    passes [check_coherency] leaves every account that sends in it with gas
    that its balance covers: all the gas its transactions can cost in the
    blocks since the last executed one, the new block included, is at most
    its balance in that executed state. *)
From S2P Require Import Prelude Types ChainConfig Interfaces MultiSig Certificates Concrete BlockTree BaseFee EthTypes ToyEth ReserveBalance NonceUsage StaticValidation SystemCalls EthBlockValidator EthBlockPolicy ReserveProps NonceProps EthPolicyProps BaseNonces BaseBalances.
#[local] Open Scope N_scope.

Section charges.
Context {A : Alloy} {AW : AlloyWidths A} {CR : Type} {CRV : ChainRevision CR}.
Implicit Types (v : EthBlockPolicyBlockValidator CR) (s : AccountBalanceState).

(** After gas [g] has been charged to an account whose balance was [B]: the
    reserve is within what is left, and the whole balance can be spent only
    as long as nothing was charged since block [first]. *)
Record covered (first B g : N) s : Prop := {
  co_reserve : g + ab_remaining_reserve_balance s ≤ B;
  co_latest : g = 0 ∧ ab_balance s = B ∨ ab_is_delegated s = true ∨ first ≤ ab_block_seqnum_of_latest_txn s;
}.

Lemma charge_covered v first B g s txn s' : 1 ≤ bv_execution_delay v →
  first ≤ bv_block_seq_num v < first + bv_execution_delay v → covered first B g s →
  ok_of (charge_transaction v s txn) = Some s' →
  covered first B (g + txn_gas (vt_env txn) (bv_base_fee v)) s'.
Proof.
  intros Hk Hseq [Hr Hl] H.
  destruct (possibly_emptying (bv_block_seq_num v) s (bv_execution_delay v) && negb (contains_self_authorization txn)) eqn:He.
  - apply andb_true_iff in He as [Hp Hs]. pose proof Hp as Hp'. unfold possibly_emptying in Hp'.
    apply andb_true_iff in Hp' as [Hd Hl']. apply bool_decide_eq_true in Hl'. apply negb_true_iff in Hd.
    destruct Hl as [[-> Hb]|[Hd'|Hl]]; [|congruence|lia].
    unfold charge_transaction in H. rewrite is_possibly_emptying_ret, Hp, Hs in H by done.
    unfold compute_txn_max_value in H. rewrite compute_txn_max_gas_cost_ret in H. simpl in H.
    case_bool_decide as Hbal; [done|]. simpl in H. injection H as <-. split; simpl; [|right; right; lia].
    unfold saturating_sub, saturating_add in *. pose proof (txn_gas_bound (vt_env txn) (bv_base_fee v)).
    assert (GAS_COST_MAX ≤ U256_MAX) by (vm_compute; congruence). lia.
  - rewrite charge_later in H; [|done|].
    + case_bool_decide; [done|]. injection H as <-. split; simpl; [lia|right; right; lia].
    + apply andb_false_iff in He as [He|He]; [by left|right]. apply negb_false_iff in He.
      rewrite contains_self_authorization_spec in He. by apply bool_decide_eq_true in He.
Qed.

Lemma delegated_covered first B g s : covered first B g s → covered first B g (set_delegated s).
Proof. intros [Hr Hl]. split; [done|]. right. by left. Qed.

Lemma account_step_covered v first B g a s txn s' : 1 ≤ bv_execution_delay v →
  first ≤ bv_block_seq_num v < first + bv_execution_delay v → covered first B g s →
  account_step v a s txn = Some s' →
  covered first B (g + (if bool_decide (vt_signer txn = a) then txn_gas (vt_env txn) (bv_base_fee v) else 0)) s'.
Proof.
  intros Hk Hseq Hc H. unfold account_step in H.
  destruct (if bool_decide (vt_signer txn = a) then ok_of (charge_transaction v s txn) else Some s) as [s1|] eqn:H1; [|done].
  simpl in H. injection H as <-.
  assert (covered first B (g + (if bool_decide (vt_signer txn = a) then txn_gas (vt_env txn) (bv_base_fee v) else 0)) s1).
  { destruct (bool_decide (vt_signer txn = a)); [by eapply charge_covered|]. injection H1 as <-. by rewrite N.add_0_r. }
  destruct (bool_decide (a ∈ _)); [by apply delegated_covered|done].
Qed.

Lemma account_run_covered v first B a txns g s s' : 1 ≤ bv_execution_delay v →
  first ≤ bv_block_seq_num v < first + bv_execution_delay v → covered first B g s →
  account_run v a s txns = Some s' → covered first B (g + sent_gas (bv_base_fee v) a txns) s'.
Proof.
  intros Hk Hseq Hc. revert s'. induction txns as [|txn txns IH] using rev_ind; intros s' H.
  { injection H as <-. unfold sent_gas. simpl. change (sumN []) with 0. by rewrite N.add_0_r. }
  rewrite account_run_snoc in H. destruct (account_run v a s txns) as [s1|]; [|done]. simpl in H.
  rewrite sent_gas_snoc, N.add_assoc. eapply account_step_covered; eauto.
Qed.

(** Running a validated block respects equivalence of states. *)
Lemma account_run_equiv v a s t txns s' : 1 ≤ bv_execution_delay v → reserve_ok v s → N.of_nat (length txns) ≤ u64_MAX →
  s ≡ t → account_run v a s txns = Some s' → ∃ t', account_run v a t txns = Some t' ∧ t' ≡ s'.
Proof.
  intros Hk Hs Hlen Hst H. assert (reserve_ok v t) as Ht by (unfold reserve_ok in *; by destruct Hst as (_ & _ & <- & _)).
  pose proof (account_run_fees v a s txns Hk Hs Hlen) as H1. pose proof (account_run_fees v a t txns Hk Ht Hlen) as H2.
  destruct (account_fees (bv_base_fee v) a txns) as [f|].
  - destruct H1 as [H1 _], H2 as [H2 _]. rewrite H in H1. rewrite Hst, <- H2 in H1. symmetry in H1.
    apply Some_equiv_eq in H1 as (t' & Ht' & He). by exists t'.
  - destruct H1 as [H1 _], H2 as [H2 _]. exists t. split; [done|]. rewrite H in H1. injection H1 as ->. by symmetry.
Qed.
End charges.

Section solvency.
Context {E : EthProtocol} {EC : EthCodec} {CD : Codec} {CS : CertSignature} {SO : SetOrder N}
        {C CR : Type} {CRV : ChainRevision CR} {CC : ChainConfig C CR}
        {SB : Type} {SBE : EthStateBackend SB} {AW : AlloyWidths eth_alloy}.
Implicit Types (b : EthValidatedBlock) (bs cbs ebs : list EthValidatedBlock) (policy : EthBlockPolicy)
  (chain_config : C) (s t : AccountBalanceState).

(** The gas that the transactions of account [a] can cost in blocks [bs]. *)
Definition blocks_gas (a : Address) bs : N :=
  sumN ((λ b, sent_gas (bh_base_fee (ev_header b)) a (ev_validated_txns b)) <$> bs).

Lemma run_blocks_covered policy chain_config first B a bs lo g s s' : 1 ≤ bp_execution_delay policy →
  first ≤ lo → lo + N.of_nat (length bs) ≤ first + bp_execution_delay policy → consecutive lo bs → covered first B g s →
  run_blocks policy chain_config a s bs = Some s' → covered first B (g + blocks_gas a bs) s'.
Proof.
  intros Hk. revert lo g s. induction bs as [|b bs IH]; intros lo g s Hlo Hlen Hc Hs H.
  { injection H as <-. unfold blocks_gas. simpl. change (sumN []) with 0. by rewrite N.add_0_r. }
  destruct Hc as [Hb Hbs]. simpl length in Hlen. rewrite run_blocks_cons in H.
  destruct (account_run _ a s _) as [s1|] eqn:H1; [|done]. simpl in H.
  unfold blocks_gas. rewrite fmap_cons, sumN_cons, N.add_assoc. eapply (IH (lo + 1)); [lia|lia|done| |exact H].
  change (bh_base_fee (ev_header b)) with (bv_base_fee (block_validator_of policy b chain_config)).
  eapply account_run_covered; [done| |exact Hs|exact H1]. simpl. lia.
Qed.

(** ** What an accepted block has passed *)

Lemma check_transactions_balances (v : EthBlockPolicyBlockValidator CR) chain_id txns nonces m nonces' m' :
  try_fold (check_transaction v chain_id) (nonces, m) txns = Ret (Ok (nonces', m')) →
  try_fold (try_add_transaction v) m txns = Ret (Ok m') ∧ try_fold (nonce_step chain_id) nonces txns = Ret (Ok nonces').
Proof.
  revert nonces m. induction txns as [|txn txns IH]; intros nonces m H; [by injection H as <- <-|].
  cbn [try_fold] in *. apply try_bind_ok_inv in H as ([n1 m1] & H1 & H). apply IH in H as [Hm Hn].
  unfold check_transaction in H1. apply try_bind_ok_inv in H1 as (n2 & Hn2 & H1).
  apply try_bind_ok_inv in H1 as (m2 & Hm2 & H1). monad_inv H1. injection H1 as -> ->.
  rewrite Hm2. split; [exact Hm|]. unfold nonce_step at 1. rewrite Hn2. cbn [try_bind mbind outcome_bind]. by rewrite Hv.
Qed.

(** The accounts an accepted block was checked with. *)
Lemma check_coherency_accounts policy b ebs root sb chain_config :
  policy_check_coherency policy b ebs root sb chain_config = Ret (Ok tt) →
  ∃ nonces nonces1 balances nonces' balances',
    get_account_base_nonces policy (ev_seq_num b) sb ebs (set_iter (extract_signers (ev_validated_txns b) (ev_system_txns b)))
      = Ret (Ok nonces) ∧
    compute_account_base_balances policy (ev_seq_num b) sb chain_config (Some ebs)
      (set_iter (extract_signers (ev_validated_txns b) (ev_system_txns b))) = Ret (Ok balances) ∧
    system_transaction_nonce_check (ev_system_txns b) nonces = Ret (Ok nonces1) ∧
    try_fold (nonce_step (cc_chain_id chain_config)) nonces1 (ev_validated_txns b) = Ret (Ok nonces') ∧
    try_fold (try_add_transaction (block_validator_of policy b chain_config)) balances (ev_validated_txns b) = Ret (Ok balances').
Proof.
  intros H. unfold policy_check_coherency in H. apply try_bind_ok_inv in H as ([] & _ & H).
  apply try_bind_ok_inv in H as (nonces & Hn & H). apply try_bind_ok_inv in H as (balances & Hb & H).
  apply try_bind_ok_inv in H as ([] & _ & H). apply try_bind_ok_inv in H as (nonces1 & Hn1 & H).
  apply try_bind_ok_inv in H as ([nonces' balances'] & Hf & _). apply check_transactions_balances in Hf as [Hf1 Hf2].
  unfold try_map_err in Hn. monad_inv Hn. destruct v as [nn|]; [|done]. injection Hn as ->.
  by exists nonces, nonces1, balances, nonces', balances'.
Qed.

(** Computed balances come from successful runs of the accounts. *)
Lemma accounts_fold_inv (f : Address → AccountBalanceState → outcome (result BlockPolicyError AccountBalanceState))
    (init : Address → AccountBalanceState) l (m res : AccountBalanceStates) :
  try_fold (λ m e, s ←? f e.1 e.2; Ret (Ok (<[e.1 := s]> m))) m (zip l (init <$> l)) = Ret (Ok res) →
  ∀ a, a ∈ l → is_Some (ok_of (f a (init a))).
Proof.
  revert m. induction l as [|x l IH]; intros m H a Ha; [by apply elem_of_nil in Ha|]. rewrite fmap_cons in H.
  cbn [zip zip_with try_fold fst snd] in H. apply try_bind_ok_inv in H as (m1 & H1 & H).
  apply try_bind_ok_inv in H1 as (s & Hs & _). apply elem_of_cons in Ha as [->|Ha]; [|by eapply IH].
  exists s. by apply ok_of_Some.
Qed.

Lemma charge_reserve (v : EthBlockPolicyBlockValidator CR) s txn s' :
  ok_of (charge_transaction v s txn) = Some s' → ab_max_reserve_balance s' = ab_max_reserve_balance s.
Proof.
  intros H. apply ok_of_Some in H. unfold charge_transaction, compute_txn_max_value in H.
  rewrite compute_txn_max_gas_cost_ret in H. monad_inv H.
  destruct (_ && _); simpl in H; case_bool_decide; try done; by injection H as <-.
Qed.

Lemma account_run_reserve (v : EthBlockPolicyBlockValidator CR) a txns s s' :
  account_run v a s txns = Some s' → ab_max_reserve_balance s' = ab_max_reserve_balance s.
Proof.
  revert s'. induction txns as [|txn txns IH] using rev_ind; intros s' H; [by injection H as <-|].
  rewrite account_run_snoc in H. destruct (account_run v a s txns) as [s1|]; [|done]. simpl in H. rewrite <- (IH s1) by done.
  unfold account_step in H. destruct (bool_decide (vt_signer txn = a)).
  - destruct (ok_of (charge_transaction v s1 txn)) as [s2|] eqn:Hc; [|done]. apply charge_reserve in Hc. rewrite <- Hc.
    simpl in H. injection H as <-. by case_bool_decide.
  - simpl in H. injection H as <-. by case_bool_decide.
Qed.

Lemma run_blocks_reserve policy chain_config a bs s s' :
  run_blocks policy chain_config a s bs = Some s' → ab_max_reserve_balance s' = ab_max_reserve_balance s.
Proof.
  revert s. induction bs as [|b bs IH]; intros s H; [by injection H as <-|]. rewrite run_blocks_cons in H.
  destruct (account_run _ a s _) as [s1|] eqn:H1; [|done]. simpl in H. apply IH in H. apply account_run_reserve in H1. congruence.
Qed.

Lemma base_balances_runs policy lo cbs ebs chain_config reserve sb status addresses res :
  policy_ok policy lo cbs → consecutive (bp_last_commit policy + 1) ebs → next_seq policy ebs < u64_MAX →
  Forall (validated chain_config) (cbs ++ ebs) → same_reserve chain_config reserve →
  let base := next_seq policy ebs - bp_execution_delay policy in
  executed sb policy ebs base status →
  compute_account_base_balances policy (next_seq policy ebs) sb chain_config (Some ebs) addresses = Ret (Ok res) →
  ∀ a, a ∈ addresses → ∃ s s', res !! a = Some s ∧ s ≡ s' ∧ ab_max_reserve_balance s = reserve ∧
    run_blocks policy chain_config a (start_state policy reserve base status (cbs ++ ebs) a) (after base (cbs ++ ebs)) = Some s'.
Proof.
  intros Hok He Hmax Hval Hres base Hex H a Ha.
  rewrite (compute_base_balances_fold policy lo cbs ebs chain_config reserve sb status) in H by done. fold base in H.
  pose proof (accounts_fold_inv _ _ _ _ _ H) as Hinv. cbv beta in Hinv.
  destruct (accounts_fold (account_base_balance policy chain_config (Some ebs) base)
              (initial_balance_state reserve base ∘ status) (unique addresses) ∅ Hinv) as (res' & Hr & Hlook).
  rewrite Hr in H. injection H as ->. specialize (Hlook a). rewrite bool_decide_eq_true_2 in Hlook by (by apply elem_of_unique).
  destruct (Hinv a) as [s Hs]; [by apply elem_of_unique|]. rewrite Hs in Hlook.
  destruct (account_base_balance_run policy lo cbs ebs chain_config reserve status a Hok He Hmax Hval Hres) as [_ Hrun].
  fold base in Hrun. unfold compose in Hs. rewrite Hs in Hrun. symmetry in Hrun.
  apply Some_equiv_eq in Hrun as (s' & Hs' & Heq). exists s, s'. split_and!; [done|by symmetry| |done].
  apply run_blocks_reserve in Hs'. destruct Heq as (_ & _ & <- & _). rewrite Hs'. apply initial_reserve.
Qed.

Lemma start_state_covered policy reserve base status bs a :
  covered (base + 1) (match status a with Some ac => ac_balance ac | None => 0 end) 0
    (start_state policy reserve base status bs a).
Proof. unfold start_state. split; simpl; destruct (status a); simpl; try lia; left; done. Qed.

Lemma after_consecutive lo base bs : consecutive lo bs → lo ≤ base + 1 → consecutive (base + 1) (after base bs).
Proof. intros Hc Hlo. rewrite after_from. by apply (from_consecutive lo). Qed.

(** When a block passes [check_coherency], the gas of every account that
    takes part in it, over the blocks after the executed one and the block
    itself, is at most the balance the account has in the executed state. *)
Lemma accepted_gas_is_covered policy lo cbs ebs b root chain_config reserve sb status :
  policy_ok policy lo cbs → consecutive (bp_last_commit policy + 1) (ebs ++ [b]) → next_seq policy ebs < u64_MAX →
  Forall (validated chain_config) (cbs ++ ebs ++ [b]) → same_reserve chain_config reserve →
  let base := next_seq policy ebs - bp_execution_delay policy in
  executed sb policy ebs base status →
  policy_check_coherency policy b ebs root sb chain_config = Ret (Ok tt) →
  ∀ a, a ∈ extract_signers (ev_validated_txns b) (ev_system_txns b) →
    blocks_gas a (after base (cbs ++ ebs) ++ [b]) ≤ match status a with Some ac => ac_balance ac | None => 0 end.
Proof.
  intros Hok Hc Hmax Hval Hres base Hex H a Ha. apply consecutive_app in Hc as [He [Hb _]].
  rewrite (assoc_L (++)) in Hval. apply Forall_app in Hval as [Hval [Hvb _]%Forall_cons].
  assert (ev_seq_num b = next_seq policy ebs) as Hseq by (unfold next_seq; lia).
  apply check_coherency_accounts in H as (nonces & nonces1 & balances & nonces' & balances' & _ & Hbal & _ & _ & Hrun).
  rewrite Hseq in Hbal.
  assert (a ∈ set_iter (extract_signers (ev_validated_txns b) (ev_system_txns b))) as Ha'
    by (rewrite set_iter_perm; by apply elem_of_elements).
  pose proof (base_balances_runs policy lo cbs ebs chain_config reserve sb status _ _ Hok He Hmax Hval Hres Hex Hbal) as Hacc.
  destruct (Hacc a Ha') as (s & s1 & Hs & Hss1 & Hsr & Hs1). fold base in Hs1.
  set (v := block_validator_of policy b chain_config) in *.
  assert (1 ≤ bp_execution_delay policy) as Hk by (destruct Hok; lia).
  assert (populated balances (ev_validated_txns b)) as Hpop.
  { apply Forall_forall. intros txn Htxn. destruct (Hacc (vt_signer txn)) as (s2 & _ & -> & _); [|by eexists].
    rewrite set_iter_perm. apply elem_of_elements. unfold extract_signers.
    apply elem_of_union_l, elem_of_union_l, elem_of_list_to_set, list_elem_of_fmap_2; done. }
  pose proof (try_add_transactions_ok v (ev_validated_txns b) balances Hpop) as Hadd.
  apply ok_of_Some in Hrun. rewrite Hrun in Hadd. destruct (Hadd a) as [Hba Hsome]. rewrite Hs in Hba, Hsome. simpl in Hba.
  destruct Hsome as [s2 Hs2]; [by eexists|]. rewrite Hs2 in Hba. symmetry in Hba.
  destruct (account_run_equiv v a s s1 (ev_validated_txns b) s2 Hk) as (t & Ht & _); [|apply Hvb|done|done|].
  { unfold reserve_ok. rewrite Hsr. symmetry. apply Hres. }
  assert (lo ≤ base + 1) as Hlo by (destruct Hok; unfold base, next_seq in *; lia).
  assert (consecutive lo (cbs ++ ebs)) as Hcc.
  { apply consecutive_app. destruct Hok. split; [done|]. by replace (lo + N.of_nat (length cbs)) with (bp_last_commit policy + 1) by lia. }
  pose proof (after_consecutive lo base _ Hcc Hlo) as Hca.
  assert (base + 1 + N.of_nat (length (after base (cbs ++ ebs))) = next_seq policy ebs) as Hlen.
  { rewrite after_from, (from_length lo); [|done|done|]; rewrite length_app; destruct Hok; unfold base, next_seq in *; lia. }
  assert (covered (base + 1) (match status a with Some ac => ac_balance ac | None => 0 end)
            (0 + blocks_gas a (after base (cbs ++ ebs) ++ [b])) t) as [Hcov _]; [|lia].
  eapply (run_blocks_covered policy chain_config); [done|reflexivity| | |apply (start_state_covered policy reserve base status (cbs ++ ebs) a)|].
  - rewrite length_app. simpl. unfold base, next_seq in *. lia.
  - apply consecutive_app. split; [done|]. split; [lia|done].
  - by rewrite run_blocks_snoc, Hs1.
Qed.
End solvency.
