(* ===== verification/PolicyTotal.v ===== *)
(** * The block policy never panics

    [check_coherency] asserts that its cache is contiguous, expects blocks
    and accounts to be present, and does checked arithmetic. For any validated
    block offered as the next one after the coherent blocks [ebs], whatever
    the database answers, it returns; and when it accepts the block, the block
    satisfies what the next check relies on. *)
From S2P Require Import Prelude Types ChainConfig Interfaces MultiSig Certificates Concrete BlockTree BaseFee EthTypes ToyEth ReserveBalance NonceUsage StaticValidation SystemCalls EthBlockValidator EthBlockPolicy ReserveProps NonceProps EthPolicyProps BaseNonces BaseBalances Solvency.
#[local] Open Scope N_scope.

Section policy_total.
Context {E : EthProtocol} {EC : EthCodec} {CD : Codec} {CS : CertSignature} {SO : SetOrder N}
        {C CR : Type} {CRV : ChainRevision CR} {CC : ChainConfig C CR}
        {SB : Type} {SBE : EthStateBackend SB} {AW : AlloyWidths eth_alloy}.
Implicit Types (b : EthValidatedBlock) (bs cbs ebs : list EthValidatedBlock) (policy : EthBlockPolicy)
  (chain_config : C).

(** What the built-in configurations satisfy. *)
Record chain_config_ok chain_config : Prop := {
  cco_epoch : cc_epoch_length chain_config ≠ 0;
  cco_staking : 1 ≤ cc_staking_activation chain_config;
  cco_gas : ∀ round, 100000000 ≤ cp_proposal_gas_limit (chain_params (cc_chain_revision chain_config round)) ≤ 1000000000;
}.

(** The database answers for every address it is asked about, or fails. *)
Definition backend_ok (sb : SB) : Prop := ∀ id n fin addresses l,
  sb_get_account_statuses sb id n fin addresses = Ok l → length l = length addresses.

(** The base fee fields of a block are in the range that base fees stay in. *)
Definition fee_fields_ok b : Prop :=
  ∃ trend : Z, bh_base_fee_trend (ev_header b) = Z.to_N (cast_unsigned trend) ∧
    fee_state_ok (Z.of_N (bh_base_fee (ev_header b))) trend (Z.of_N (bh_base_fee_moment (ev_header b))).

(** ** Fields *)

Lemma cast_unsigned_nonneg t : (0 ≤ cast_unsigned t)%Z.
Proof. unfold cast_unsigned. apply Z.mod_pos_bound. done. Qed.

(** The parent of the block under check: an extending block, the last commit,
    or genesis. *)
Lemma parent_fee_fields policy lo cbs ebs chain_config : policy_ok policy lo cbs → chain_config_ok chain_config →
  Forall (validated chain_config) (cbs ++ ebs) → Forall fee_fields_ok (cbs ++ ebs) →
  ∃ round fee trend moment usage,
    get_parent_base_fee_fields policy ebs = Ret (round, Z.to_N fee, Z.to_N (cast_unsigned trend), Z.to_N moment, usage) ∧
    fee_state_ok fee trend moment ∧ (0 ≤ fee)%Z ∧ (0 ≤ moment)%Z ∧
    usage ≤ cp_proposal_gas_limit (chain_params (cc_chain_revision chain_config round)).
Proof.
  intros [Hbl Hc Hl Hd Hs Hlo Hcov Hbd] Hcc Hval Hfee. unfold get_parent_base_fee_fields.
  assert (∀ b, b ∈ cbs ++ ebs → ∃ trend, bh_base_fee_trend (ev_header b) = Z.to_N (cast_unsigned trend) ∧
    fee_state_ok (Z.of_N (bh_base_fee (ev_header b))) trend (Z.of_N (bh_base_fee_moment (ev_header b))) ∧
    total_gas (ev_validated_txns b) ≤ cp_proposal_gas_limit (header_chain_params chain_config (ev_header b))) as Hb.
  { intros b Hb. rewrite Forall_forall in Hval, Hfee. destruct (Hfee b Hb) as (trend & H1 & H2). exists trend.
    by destruct (Hval b Hb). }
  destruct (last ebs) as [b|] eqn:Hlast.
  - destruct (Hb b) as (trend & Ht & Hst & Hg); [apply last_Some_elem_of in Hlast; set_solver|].
    eexists _, (Z.of_N _), trend, (Z.of_N _), _. rewrite !N2Z.id, <- Ht. split; [done|]. split_and!; [done|lia..|exact Hg].
  - case_bool_decide as Hg.
    + eexists _, GENESIS_BASE_FEE, 0%Z, GENESIS_BASE_FEE_MOMENT, 0. split; [done|]. split; [|split_and!; try done].
      * split; [by left|done|done].
      * destruct (cco_gas _ Hcc GENESIS_ROUND). lia.
    + rewrite Hbl, (entries_lookup lo) by done. rewrite bool_decide_eq_true_2 by (unfold GENESIS_SEQ_NUM in *; lia).
      destruct (lookup_lt_is_Some_2 cbs (N.to_nat (bp_last_commit policy - lo))) as [b Hbi]; [unfold GENESIS_SEQ_NUM in *; lia|].
      rewrite Hbi. simpl. destruct (Hb b) as (trend & Ht & Hst & Hgas); [apply list_elem_of_lookup_2 in Hbi; set_solver|].
      eexists _, (Z.of_N _), trend, (Z.of_N _), _. rewrite !N2Z.id, <- Ht. split; [done|]. split_and!; [done|lia..|exact Hgas].
Qed.

Lemma policy_compute_base_fee_ok policy lo cbs ebs chain_config : policy_ok policy lo cbs → chain_config_ok chain_config →
  Forall (validated chain_config) (cbs ++ ebs) → Forall fee_fields_ok (cbs ++ ebs) →
  ∃ fee trend moment, policy_compute_base_fee policy ebs chain_config
      = Ret (Z.to_N fee, Z.to_N (cast_unsigned trend), Z.to_N moment) ∧
    fee_state_ok fee trend moment ∧ (0 ≤ fee)%Z ∧ (0 ≤ moment)%Z.
Proof.
  intros Hok Hcc Hval Hfee.
  destruct (parent_fee_fields policy lo cbs ebs chain_config Hok Hcc Hval Hfee)
    as (round & fee & trend & moment & usage & Hp & Hst & Hf & Hm & Hu).
  unfold policy_compute_base_fee. rewrite Hp. cbn [mbind outcome_bind]. rewrite !Z2N.id by (done || apply cast_unsigned_nonneg).
  pose proof (cco_gas _ Hcc round) as Hg.
  destruct (base_fee_spec (Z.of_N (cp_proposal_gas_limit (chain_params (cc_chain_revision chain_config round)))) (Z.of_N usage)
              fee trend moment) as (f' & t' & m' & -> & Hst' & _); [split; lia|done|].
  exists f', t', m'. split; [done|]. split; [done|]. pose proof (fee_range _ _ _ Hst') as [Hf' _].
  destruct Hst' as [_ _ Hm']. split; [done|lia].
Qed.

(** The block under check follows [ebs] and the root is the last commit. *)
Lemma check_block_fields_total policy lo cbs ebs b root sb chain_config : policy_ok policy lo cbs →
  chain_config_ok chain_config → consecutive (bp_last_commit policy + 1) ebs →
  ri_seq_num root = bp_last_commit policy → next_seq policy ebs < u64_MAX →
  Forall (validated chain_config) (cbs ++ ebs) → Forall fee_fields_ok (cbs ++ ebs) →
  is_ret (check_block_fields policy b ebs root sb chain_config) ∧
  (check_block_fields policy b ebs root sb chain_config = Ret (Ok tt) → ev_seq_num b = next_seq policy ebs ∧ fee_fields_ok b).
Proof.
  intros Hok Hcc He Hroot Hmax Hval Hfee. unfold check_block_fields.
  set (p := match last ebs with Some x => (ev_seq_num x, bh_timestamp_ns (ev_header x)) | None => (ri_seq_num root, 0) end).
  assert (p.1 + 1 = next_seq policy ebs) as Hp.
  { unfold p, next_seq. destruct (last ebs) as [x|] eqn:Hlast.
    - rewrite last_lookup in Hlast. apply (consecutive_lookup (bp_last_commit policy + 1)) in Hlast as Hx; [|done].
      assert (length ebs ≠ 0%nat) by (by destruct ebs). simpl. lia.
    - apply last_None in Hlast as ->. simpl. lia. }
  destruct p as [seq ts]. simpl in Hp. rewrite seq_add_ok by lia. cbn [mbind outcome_bind]. rewrite Hp.
  case_bool_decide as Hs; [split; [by eexists|done]|]. case_bool_decide; [split; [by eexists|done]|].
  assert (is_ret (policy_get_expected_execution_results policy (ev_seq_num b) ebs sb)) as [r Hr].
  { unfold policy_get_expected_execution_results. case_bool_decide as Hk; [by eexists|]. rewrite Hs.
    replace (seq_sub (next_seq policy ebs) (bp_execution_delay policy)) with (Ret (next_seq policy ebs - bp_execution_delay policy))
      by (symmetry; apply seq_sub_ret; lia).
    destruct (get_block_index_ret policy lo cbs ebs _ Hok He eq_refl) as (idx & Hidx & _). cbn [mbind outcome_bind].
    rewrite Hidx. cbn [try_bind mbind outcome_bind]. destruct (sb_get_execution_result _ _ _ _); by eexists. }
  rewrite Hr. cbn [try_map_err mbind outcome_bind]. destruct r as [r|e]; simpl; [|split; [by eexists|done]].
  case_bool_decide; [split; [by eexists|done]|].
  destruct (policy_compute_base_fee_ok policy lo cbs ebs chain_config Hok Hcc Hval Hfee) as (fee & trend & moment & -> & Hst & Hf & Hm).
  cbn [mbind outcome_bind]. case_bool_decide as H1; [split; [by eexists|done]|]. case_bool_decide as H2; [split; [by eexists|done]|].
  case_bool_decide as H3; [split; [by eexists|done]|]. split; [by eexists|]. intros _. split; [done|].
  exists trend. rewrite <- H1, <- H2, <- H3. split; [done|]. by rewrite !Z2N.id.
Qed.

(** ** Nonces *)

Lemma fold_insert_some (l : list (Address * Nonce)) (m : gmap N Nonce) a :
  is_Some (m !! a) ∨ a ∈ l.*1 → is_Some (foldl (λ m e, <[e.1 := e.2]> m) m l !! a).
Proof.
  revert m. induction l as [|[x n] l IH]; intros m Ha; simpl; [destruct Ha as [Ha|Ha]; [done|by apply elem_of_nil in Ha]|].
  apply IH. destruct (decide (a = x)) as [->|Hne]; [left; rewrite lookup_insert_eq; by eexists|].
  rewrite lookup_insert_ne by done. simpl in Ha. set_solver.
Qed.

Lemma miss_nonce_fst l (statuses : list (option EthAccount)) : length l = length statuses →
  (miss_nonce <$> zip l statuses).*1 = l.*1.
Proof.
  revert statuses. induction l as [|[a p] l IH]; intros [|o statuses] H; try done. simpl. f_equal. apply IH. simpl in H. lia.
Qed.

(** The nonces are those of all the addresses asked for. *)
Lemma base_nonces_total policy lo cbs ebs sb addresses : policy_ok policy lo cbs →
  consecutive (bp_last_commit policy + 1) ebs → backend_ok sb →
  is_ret (get_account_base_nonces policy (next_seq policy ebs) sb ebs addresses) ∧
  ∀ res, get_account_base_nonces policy (next_seq policy ebs) sb ebs addresses = Ret (Ok res) →
    ∀ a, a ∈ addresses → is_Some (res !! a).
Proof.
  intros Hok He Hsb. unfold get_account_base_nonces. rewrite base_seq_num_ret. cbn [mbind outcome_bind].
  set (X := list_to_set addresses : gset N). set (base := next_seq policy ebs - bp_execution_delay policy).
  set (cached := cached_usages policy ebs base X).
  pose proof (split_all_ok cached (λ _, None) (set_iter X) (∅, []) []) as Hsplit.
  destruct (foldl (split_known cached) (∅, []) (set_iter X)) as [known misses].
  destruct (get_block_index_ret policy lo cbs ebs base Hok He eq_refl) as (idx & Hidx & _).
  unfold get_account_statuses. rewrite Hidx. cbn [try_bind mbind outcome_bind].
  destruct (sb_get_account_statuses _ _ _ _ _) as [l|e] eqn:Hl; cbn [try_bind mbind outcome_bind]; [|split; [by eexists|done]].
  apply Hsb in Hl. rewrite length_fmap in Hl. rewrite bool_decide_eq_true_2 by done. cbn [rust_assert mbind outcome_bind].
  split; [by eexists|]. intros res [= <-] a Ha. apply fold_insert_some. rewrite miss_nonce_fst by done.
  apply Hsplit; [|simpl; rewrite set_iter_perm; by apply elem_of_elements, elem_of_list_to_set].
  split; simpl; [intros ? ?; by rewrite lookup_empty|intros ? ?%elem_of_nil; done|intros ? ?%elem_of_nil; done].
Qed.

(** ** Balances *)

Lemma base_balances_total policy lo cbs ebs sb chain_config reserve addresses : policy_ok policy lo cbs →
  consecutive (bp_last_commit policy + 1) ebs → next_seq policy ebs < u64_MAX → backend_ok sb →
  Forall (validated chain_config) (cbs ++ ebs) → same_reserve chain_config reserve →
  is_ret (compute_account_base_balances policy (next_seq policy ebs) sb chain_config (Some ebs) addresses).
Proof.
  intros Hok He Hmax Hsb Hval Hres. unfold compute_account_base_balances. rewrite base_seq_num_ret. cbn [mbind outcome_bind].
  set (base := next_seq policy ebs - bp_execution_delay policy).
  destruct (get_block_index_ret policy lo cbs ebs base Hok He eq_refl) as (idx & Hidx & _).
  unfold get_account_statuses. rewrite Hidx. cbn [try_map_err try_bind map_err mbind outcome_bind].
  destruct (sb_get_account_statuses _ _ _ _ _) as [l|e] eqn:Hl; cbn [try_map_err try_bind map_err mbind outcome_bind]; [|by eexists].
  apply Hsb in Hl. rewrite bool_decide_eq_true_2 by (by rewrite length_fmap). cbn [rust_assert mbind outcome_bind].
  rewrite Hres. generalize (∅ : AccountBalanceStates). revert l Hl. induction (unique addresses) as [|a as' IH]; intros [|o l] Hl m;
    try done; [by eexists|]. rewrite fmap_cons. cbn [zip zip_with try_fold fst snd]. apply try_bind_ret.
  - apply try_bind_ret; [|by eexists].
    apply (account_base_balance_run policy lo cbs ebs chain_config reserve (λ _, o) a Hok He Hmax Hval Hres).
  - intros m' _. apply IH. simpl in Hl. lia.
Qed.

(** ** System transactions *)

Lemma generate_system_calls_total chain_config n epoch parent author : chain_config_ok chain_config → n + 1 < u64_MAX →
  is_ret (generate_system_calls chain_config n epoch parent author).
Proof.
  intros [Hlen Hst _] Hn. unfold generate_system_calls. rewrite is_boundary_block_ret by done. cbn [mbind outcome_bind].
  assert (is_ret (if bool_decide (n `mod` cc_epoch_length chain_config = cc_epoch_length chain_config - 1)
    then locked ← get_locked_epoch n (cc_epoch_length chain_config); Ret (bool_decide (cc_staking_activation chain_config ≤ locked))
    else Ret false)) as [x ->].
  { case_bool_decide as Hb; [|by eexists]. unfold get_locked_epoch. rewrite is_boundary_block_ret, to_epoch_ret by (done || lia).
    cbn [mbind outcome_bind]. rewrite bool_decide_eq_true_2 by done. cbn [rust_assert mbind outcome_bind].
    assert (n `div` cc_epoch_length chain_config ≤ n) by (by apply N.Div0.div_le_upper_bound; nia).
    unfold epoch_add, checked_add. rewrite decide_True by lia. by eexists. }
  cbn [mbind outcome_bind]. unfold epoch_sub, checked_sub. rewrite decide_True by done.
  destruct (bool_decide (parent ≠ epoch)); cbn [expect mbind outcome_bind];
    rewrite seq_add_ok by (unfold GENESIS_SEQ_NUM, u64_MAX; lia); by eexists.
Qed.

Lemma system_inputs_total policy lo cbs ebs b chain_config : policy_ok policy lo cbs → chain_config_ok chain_config →
  ev_seq_num b = next_seq policy ebs → next_seq policy ebs + 1 < u64_MAX → validated chain_config b →
  is_ret (policy_validate_system_transactions_input policy b ebs chain_config).
Proof.
  intros [Hbl Hc Hl Hd Hs Hlo Hcov Hbd] Hcc Hb Hmax Hval. unfold policy_validate_system_transactions_input.
  assert (is_ret (match last ebs with
    | Some x => Ret (bh_epoch (ev_header x))
    | None => next ← seq_add (bp_last_commit policy) 1; _ ← rust_assert (bool_decide (ev_seq_num b = next)); get_last_commit_epoch policy
    end)) as [epoch ->].
  { destruct (last ebs) as [x|] eqn:Hlast; [by eexists|]. apply last_None in Hlast as ->. unfold next_seq in *. simpl in *.
    rewrite seq_add_ok by lia. cbn [mbind outcome_bind]. rewrite bool_decide_eq_true_2 by lia. cbn [rust_assert mbind outcome_bind].
    unfold get_last_commit_epoch, buffer_get_epoch. case_bool_decide as Hg; [by eexists|].
    rewrite Hbl, (entries_lookup lo) by done. rewrite bool_decide_eq_true_2 by (unfold GENESIS_SEQ_NUM in *; lia).
    destruct (lookup_lt_is_Some_2 cbs (N.to_nat (bp_last_commit policy - lo))) as [x ->]; [unfold GENESIS_SEQ_NUM in *; lia|].
    by eexists. }
  cbn [mbind outcome_bind]. unfold validate_system_transactions_input.
  destruct (validates_system_txs chain_config (ev_header b)) eqn:Hv; simpl.
  - destruct (generate_system_calls_total chain_config (bh_seq_num (ev_header b)) (bh_epoch (ev_header b)) epoch
      (get_eth_address (bh_author (ev_header b))) Hcc) as [calls ->]; [fold (ev_seq_num b); lia|].
    cbn [mbind outcome_bind]. case_bool_decide; by eexists.
  - rewrite (vb_system _ _ Hval Hv). by eexists.
Qed.

(** ** The transactions *)

Definition nonces_known (nonces : gmap N Nonce) (txn : ValidatedTx) : Prop :=
  is_Some (nonces !! vt_signer txn) ∧ ∀ a, a ∈ vt_authorities txn → is_Some (nonces !! a).

Lemma nonce_check_total nonces txn : is_Some (nonces !! vt_signer txn) →
  is_ret (nonce_check_and_update nonces txn) ∧
  ∀ n', nonce_check_and_update nonces txn = Ret (Ok n') → dom nonces ⊆ dom n'.
Proof.
  intros [n Hn]. unfold nonce_check_and_update. rewrite Hn. cbn [expect mbind outcome_bind].
  case_bool_decide; (split; [by eexists|]); [done|]. intros n' [= <-]. set_solver.
Qed.

Lemma auth_updates_total chain_id auths nonces : (∀ a, a ∈ omap ra_authority auths → is_Some (nonces !! a)) →
  ∃ n', eip_7702_valid_nonce_update chain_id auths nonces = Ret n' ∧ dom nonces ⊆ dom n'.
Proof.
  revert nonces. induction auths as [|x auths IH]; intros nonces H; [by exists nonces|].
  cbn [eip_7702_valid_nonce_update].
  assert (∃ n1, auth_nonce_update chain_id nonces x = Ret n1 ∧ dom nonces ⊆ dom n1) as (n1 & -> & Hn1).
  { unfold auth_nonce_update. destruct (ra_authority x) as [a|] eqn:Ha; [|by eexists]. destruct (other_chain _ _); [by eexists|].
    destruct (H a) as [n ->]; [cbn; rewrite Ha; set_solver|]. cbn [expect mbind outcome_bind].
    case_bool_decide; eexists; (split; [done|]); set_solver. }
  cbn [mbind outcome_bind]. destruct (IH n1) as (n2 & -> & Hn2); [|exists n2; split; [done|set_solver]].
  intros a Ha. apply elem_of_dom, Hn1, elem_of_dom, H. cbn. destruct (ra_authority x); set_solver.
Qed.

Lemma nonces_known_mono (n n' : gmap N Nonce) txn : dom n ⊆ dom n' → nonces_known n txn → nonces_known n' txn.
Proof. intros Hd [Hs Ha]. split; [|intros a Hin]; apply elem_of_dom, Hd, elem_of_dom; auto. Qed.

Lemma check_transactions_total (v : EthBlockPolicyBlockValidator CR) chain_id txns nonces m : 1 ≤ bv_execution_delay v →
  Forall (nonces_known nonces) txns → is_ret (try_fold (check_transaction v chain_id) (nonces, m) txns).
Proof.
  intros Hk. revert nonces m. induction txns as [|txn txns IH]; intros nonces m H; [by eexists|].
  apply Forall_cons in H as [[Hs Ha] H]. cbn [try_fold]. unfold check_transaction at 1.
  destruct (nonce_check_total nonces txn Hs) as [[r Hr] Hd]. rewrite Hr in *. destruct r as [n1|e]; [|by eexists].
  change (try_bind (Ret (Ok ?x)) ?k) with (k x). cbv beta. specialize (Hd n1 eq_refl).
  destruct (try_add_transactions_is_ret v [txn] m Hk) as [r Hadd]. cbn [try_fold] in Hadd.
  destruct (try_add_transaction v m txn) as [[m1|e]| |]; try done; [|by eexists].
  change (try_bind (Ret (Ok ?x)) ?k) with (k x). cbv beta.
  assert (∃ n2, (if bool_decide (tx_type (vt_env txn) = TtEip7702)
      then eip_7702_valid_nonce_update chain_id (vt_authorizations_7702 txn) n1 else Ret n1) = Ret n2 ∧ dom n1 ⊆ dom n2)
    as (n2 & -> & Hd2).
  { case_bool_decide; [|by exists n1]. apply auth_updates_total. intros a Hin. apply elem_of_dom, Hd, elem_of_dom. auto. }
  cbn [mbind outcome_bind]. change (try_bind (Ret (Ok ?x)) ?k) with (k x). cbv beta. apply IH.
  eapply Forall_impl; [exact H|]. intros t. apply nonces_known_mono. set_solver.
Qed.

Lemma system_nonces_total txns nonces : Forall (λ txn, is_Some (nonces !! vt_signer txn)) txns →
  is_ret (system_transaction_nonce_check txns nonces) ∧
  ∀ n', system_transaction_nonce_check txns nonces = Ret (Ok n') → dom nonces ⊆ dom n'.
Proof.
  unfold system_transaction_nonce_check. revert nonces. induction txns as [|txn txns IH]; intros nonces H.
  { split; [by eexists|]. by intros n' [= <-]. }
  apply Forall_cons in H as [Hs H]. cbn [try_fold]. destruct (nonce_check_total nonces txn Hs) as [[r Hr] Hd].
  rewrite Hr in *. destruct r as [n1|e]; [|split; [by eexists|done]]. specialize (Hd n1 eq_refl).
  change (try_bind (Ret (Ok ?x)) ?k) with (k x). cbv beta. destruct (IH n1) as [Hret Hd1].
  { eapply Forall_impl; [exact H|]. intros t Ht. by apply elem_of_dom, Hd, elem_of_dom. }
  split; [done|]. intros n' Hn'. apply Hd1 in Hn'. set_solver.
Qed.

(** ** The result *)

(** [check_coherency] never panics on a validated block, whatever state the
    blocks carry and whatever the database answers; and the block it accepts
    is the next one, with fee fields that the check of its child can use. *)
Lemma check_coherency_returns_ok policy lo cbs ebs b root sb chain_config reserve :
  policy_ok policy lo cbs → consecutive (bp_last_commit policy + 1) ebs → next_seq policy ebs + 1 < u64_MAX →
  ri_seq_num root = bp_last_commit policy → chain_config_ok chain_config → same_reserve chain_config reserve →
  backend_ok sb → Forall (validated chain_config) (cbs ++ ebs ++ [b]) → Forall fee_fields_ok (cbs ++ ebs) →
  ∃ r, policy_check_coherency policy b ebs root sb chain_config = Ret r ∧
    (r = Ok tt → consecutive (bp_last_commit policy + 1) (ebs ++ [b]) ∧ fee_fields_ok b).
Proof.
  intros Hok He Hmax Hroot Hcc Hres Hsb Hval Hfee. rewrite (assoc_L (++)) in Hval.
  apply Forall_app in Hval as [Hval [Hvb _]%Forall_cons]. unfold policy_check_coherency.
  destruct (check_block_fields_total policy lo cbs ebs b root sb chain_config Hok Hcc He Hroot ltac:(lia) Hval Hfee) as [[r Hr] Hacc].
  rewrite Hr in *. destruct r as [[]|e]; [|by eexists]. destruct (Hacc eq_refl) as [Hseq Hff].
  change (try_bind (Ret (Ok ?x)) ?k) with (k x). cbv beta. rewrite Hseq.
  set (signers := set_iter (extract_signers (ev_validated_txns b) (ev_system_txns b))).
  assert (∀ m : outcome (result BlockPolicyError unit), is_ret m → ∃ r, m = Ret r ∧
    (r = Ok tt → consecutive (bp_last_commit policy + 1) (ebs ++ [b]) ∧ fee_fields_ok b)) as Hdone.
  { intros m [r ->]. exists r. split; [done|]. intros _. split; [|done]. apply consecutive_app. split; [done|].
    split; [unfold next_seq in Hseq; lia|done]. }
  apply Hdone. destruct (base_nonces_total policy lo cbs ebs sb signers Hok He Hsb) as [[r Hn] Hkeys]. rewrite Hn in *.
  destruct r as [nonces|e]; [|by eexists]. specialize (Hkeys nonces eq_refl).
  cbn [try_map_err map_err mbind outcome_bind]. change (try_bind (Ret (Ok ?x)) ?k) with (k x). cbv beta.
  apply try_bind_ret; [by apply (base_balances_total policy lo cbs ebs sb chain_config reserve); try done; lia|]. intros m _.
  destruct (system_inputs_total policy lo cbs ebs b chain_config Hok Hcc Hseq Hmax Hvb) as [r Hr2]. rewrite Hr2.
  apply try_bind_ret; [by eexists|]. intros _ _.
  assert (∀ a, a ∈ extract_signers (ev_validated_txns b) (ev_system_txns b) → is_Some (nonces !! a)) as Hk.
  { intros a Ha. apply Hkeys. unfold signers. rewrite set_iter_perm. by apply elem_of_elements. }
  destruct (system_nonces_total (ev_system_txns b) nonces) as [Hret Hdom].
  { apply Forall_forall. intros txn Ht. apply Hk. unfold extract_signers.
    apply elem_of_union_r, elem_of_list_to_set, list_elem_of_fmap_2; done. }
  apply try_bind_ret; [done|]. intros n1 Hn1. apply Hdom in Hn1. apply try_bind_ret; [|by eexists].
  apply check_transactions_total; [simpl; destruct Hok; lia|]. apply Forall_forall. intros txn Ht.
  apply (nonces_known_mono nonces); [done|]. split; [|intros a Ha]; apply Hk; unfold extract_signers; apply elem_of_union_l.
  - apply elem_of_union_l, elem_of_list_to_set, list_elem_of_fmap_2; done.
  - apply elem_of_union_r, elem_of_list_to_set, list_elem_of_bind. by exists txn.
Qed.
End policy_total.
