(* ===== verification/PolicyRun.v ===== *)
(** * Runs of the block policy

    The policy over the life of a node: coherent blocks are added after the
    tip of a branch, the node moves back to try another branch, and the first
    uncommitted block is committed. In every state reached from genesis the
    policy returns from its checks and commits, and gas stays covered. *)
From S2P Require Import Prelude Types ChainConfig Interfaces MultiSig Certificates Concrete BlockTree BaseFee EthTypes ToyEth ReserveBalance NonceUsage StaticValidation SystemCalls EthBlockValidator EthBlockPolicy ReserveProps NonceProps EthPolicyProps BaseNonces BaseBalances Solvency PolicyTotal.
#[local] Open Scope N_scope.

Section policy_run.
Context {E : EthProtocol} {EC : EthCodec} {CD : Codec} {CS : CertSignature} {SO : SetOrder N}
        {C CR : Type} {CRV : ChainRevision CR} {CC : ChainConfig C CR}
        {SB : Type} {SBE : EthStateBackend SB} {AW : AlloyWidths eth_alloy} (chain_config : C).
Implicit Types (b : EthValidatedBlock) (ebs hist : list EthValidatedBlock) (policy : EthBlockPolicy) (sb : SB).

(** The policy, all the blocks committed since genesis, and the coherent
    blocks of the current branch. *)
Record policy_state := mkPolicyState {
  pr_policy : EthBlockPolicy;
  pr_committed : list EthValidatedBlock;
  pr_branch : list EthValidatedBlock;
}.

Inductive policy_step : policy_state → policy_state → Prop :=
| step_accept policy hist ebs b root sb :
    validated chain_config b → ev_seq_num b + 1 < u64_MAX → ri_seq_num root = bp_last_commit policy → backend_ok sb →
    policy_check_coherency policy b ebs root sb chain_config = Ret (Ok tt) →
    policy_step (mkPolicyState policy hist ebs) (mkPolicyState policy hist (ebs ++ [b]))
| step_branch policy hist ebs n :
    policy_step (mkPolicyState policy hist ebs) (mkPolicyState policy hist (take n ebs))
| step_commit policy hist b ebs policy' :
    policy_update_committed_block policy b = Ret policy' →
    policy_step (mkPolicyState policy hist (b :: ebs)) (mkPolicyState policy' (hist ++ [b]) ebs).

Definition policy_reachable (delay : N) (s : policy_state) : Prop :=
  rtc policy_step (mkPolicyState (eth_policy_new GENESIS_SEQ_NUM delay) [] []) s.

Record run_ok (s : policy_state) : Prop := {
  ro_cache : ∃ n, policy_ok (pr_policy s) (1 + N.of_nat n) (drop n (pr_committed s)) ∧ (n ≤ length (pr_committed s))%nat;
  ro_consecutive : consecutive 1 (pr_committed s ++ pr_branch s);
  ro_last : bp_last_commit (pr_policy s) = N.of_nat (length (pr_committed s));
  ro_valid : Forall (validated chain_config) (pr_committed s ++ pr_branch s);
  ro_fees : Forall fee_fields_ok (pr_committed s ++ pr_branch s);
  ro_bound : Forall (λ b, ev_seq_num b + 1 < u64_MAX) (pr_committed s ++ pr_branch s);
}.

(** What the lemmas on the policy need of such a state. *)
Lemma run_ok_parts policy hist ebs : run_ok (mkPolicyState policy hist ebs) →
  ∃ n, policy_ok policy (1 + N.of_nat n) (drop n hist) ∧ consecutive (bp_last_commit policy + 1) ebs ∧
    Forall (validated chain_config) (drop n hist ++ ebs) ∧ Forall fee_fields_ok (drop n hist ++ ebs) ∧
    ∀ base, base = next_seq policy ebs - bp_execution_delay policy → after base (drop n hist ++ ebs) = after base (hist ++ ebs).
Proof.
  intros [(n & Hok & Hn) Hc Hl Hv Hf _]. simpl in *. exists n. apply consecutive_app in Hc as Hc'. destruct Hc' as [Hch Hce].
  rewrite Forall_app in Hv, Hf. destruct Hv as [Hv1 Hv2], Hf as [Hf1 Hf2].
  split_and!; [done| | | |].
  - by replace (bp_last_commit policy + 1) with (1 + N.of_nat (length hist)) by lia.
  - apply Forall_app. split; [by apply Forall_drop|done].
  - apply Forall_app. split; [by apply Forall_drop|done].
  - intros base ->. rewrite <- (take_drop n hist) at 2. rewrite <- (assoc_L (++)). unfold after. rewrite (filter_app _ (take n hist)).
    rewrite <- (take_drop n hist) in Hch. apply consecutive_app in Hch as [Hch _].
    fold (after (next_seq policy ebs - bp_execution_delay policy) (take n hist)). rewrite after_from, (from_none 1); [done|done|].
    rewrite length_take. destruct Hok. unfold next_seq. lia.
Qed.

(** The next sequence number is in range. *)
Lemma run_ok_next policy hist ebs : run_ok (mkPolicyState policy hist ebs) → next_seq policy ebs < u64_MAX.
Proof.
  intros [_ Hc Hl _ _ Hbd]. unfold next_seq. simpl in *. destruct ebs as [|x ebs' _] using rev_ind.
  - destruct hist as [|y hist' _] using rev_ind; [simpl in *; rewrite Hl; unfold u64_MAX; simpl; lia|].
    rewrite app_nil_r in *. apply Forall_app in Hbd as [_ [Hy _]%Forall_cons]. apply consecutive_app in Hc as [_ [Hy' _]].
    rewrite Hl, length_app. simpl. lia.
  - rewrite (assoc_L (++)) in *. apply Forall_app in Hbd as [_ [Hy _]%Forall_cons].
    apply consecutive_app in Hc as [_ [Hy' _]]. rewrite length_app in *. simpl. lia.
Qed.

Section steps.
Context (reserve : Balance) (Hcc : chain_config_ok chain_config) (Hres : same_reserve chain_config reserve).

Lemma accept_follows policy hist ebs b root sb : run_ok (mkPolicyState policy hist ebs) → validated chain_config b →
  ev_seq_num b + 1 < u64_MAX → ri_seq_num root = bp_last_commit policy → backend_ok sb →
  policy_check_coherency policy b ebs root sb chain_config = Ret (Ok tt) →
  consecutive (bp_last_commit policy + 1) (ebs ++ [b]) ∧ fee_fields_ok b.
Proof.
  intros Hok Hvb Hmax Hroot Hsb Hchk. pose proof (run_ok_next _ _ _ Hok) as Hnext.
  destruct (run_ok_parts _ _ _ Hok) as (n & Hp & He & Hval & Hfee & _).
  assert (ev_seq_num b = next_seq policy ebs) as Hseq.
  { destruct (check_block_fields_total policy _ _ ebs b root sb chain_config Hp Hcc He Hroot) as [_ Hacc]; try done.
    unfold policy_check_coherency in Hchk. apply try_bind_ok_inv in Hchk as ([] & Hfields & _). by apply Hacc. }
  destruct (check_coherency_returns_ok policy _ _ ebs b root sb chain_config reserve Hp He) as (r & Hr & Hacc); try done; [lia| |].
  - rewrite (assoc_L (++)). apply Forall_app. split; [done|by constructor].
  - rewrite Hchk in Hr. injection Hr as <-. by apply Hacc.
Qed.

Lemma accept_ok policy hist ebs b root sb : run_ok (mkPolicyState policy hist ebs) → validated chain_config b →
  ev_seq_num b + 1 < u64_MAX → ri_seq_num root = bp_last_commit policy → backend_ok sb →
  policy_check_coherency policy b ebs root sb chain_config = Ret (Ok tt) → run_ok (mkPolicyState policy hist (ebs ++ [b])).
Proof.
  intros Hok Hvb Hmax Hroot Hsb Hchk.
  destruct (accept_follows policy hist ebs b root sb Hok Hvb Hmax Hroot Hsb Hchk) as [Hcb Hfb].
  destruct Hok as [Hcache Hc Hl Hv Hf Hbd]. simpl in *. apply consecutive_app in Hcb as [_ [Hb _]].
  split; simpl; try done; rewrite (assoc_L (++)); [|apply Forall_app; split; [done|by constructor]..].
  apply consecutive_app. split; [done|]. split; [rewrite length_app; lia|done].
Qed.

Lemma branch_ok policy hist ebs k : run_ok (mkPolicyState policy hist ebs) → run_ok (mkPolicyState policy hist (take k ebs)).
Proof.
  intros [Hcache Hc Hl Hv Hf Hbd]. simpl in *.
  assert (∀ Q : EthValidatedBlock → Prop, Forall Q (hist ++ ebs) → Forall Q (hist ++ take k ebs)) as Htake.
  { intros Q [H1 H2]%Forall_app. apply Forall_app. split; [done|by apply Forall_take]. }
  split; simpl; auto. rewrite <- (take_drop k ebs), (assoc_L (++)) in Hc. by apply consecutive_app in Hc as [? _].
Qed.

(** The first uncommitted block can be committed. *)
Lemma commit_ok policy hist b ebs : run_ok (mkPolicyState policy hist (b :: ebs)) →
  ∃ policy', policy_update_committed_block policy b = Ret policy' ∧ run_ok (mkPolicyState policy' (hist ++ [b]) ebs).
Proof.
  intros [(n & Hp & Hn) Hc Hl Hv Hf Hbd]. simpl in *. apply consecutive_app in Hc as Hc'. destruct Hc' as [Hch [Hb Hce]].
  rewrite (cons_middle b hist ebs), (assoc_L (++)) in Hc, Hv, Hf, Hbd.
  assert (ev_seq_num b + 1 < u64_MAX) as Hmax by by apply Forall_app in Hbd as [[_ [Hx _]%Forall_cons]%Forall_app _].
  destruct (update_committed_ok policy _ _ b Hp) as (p' & k & Hp' & Hok' & Hk & Hl' & _); [lia|lia|].
  exists p'. split; [done|]. split; simpl; try done; [|rewrite length_app; simpl; lia].
  exists (n + k)%nat. rewrite length_drop in Hk. rewrite length_app. split; [|simpl; lia].
  replace (1 + N.of_nat (n + k)) with (1 + N.of_nat n + N.of_nat k) by lia.
  by rewrite <- drop_drop, (drop_app_le hist) by done.
Qed.

Lemma policy_step_ok s s' : policy_step s s' → run_ok s → run_ok s'.
Proof.
  intros Hstep Hok. destruct Hstep as [policy hist ebs b root sb Hvb Hmax Hroot Hsb Hchk|policy hist ebs k|policy hist b ebs policy' Hup].
  - eapply accept_ok; eauto.
  - by apply branch_ok.
  - destruct (commit_ok _ _ _ _ Hok) as (p & Hp & Hok'). congruence.
Qed.

Lemma policy_reachable_ok delay s : 1 ≤ delay ≤ 1000000 → policy_reachable delay s → run_ok s.
Proof.
  intros Hd Hr. unfold policy_reachable in Hr.
  assert (run_ok (mkPolicyState (eth_policy_new GENESIS_SEQ_NUM delay) [] [])) as H0.
  { split; simpl; try done; try constructor. exists 0%nat. split; [|done]. by apply eth_policy_new_ok. }
  revert H0. induction Hr as [|s1 s2 s3 Hs _ IH]; [done|]. intros H. by eapply IH, policy_step_ok.
Qed.
End steps.

(** ** The results *)


(** C9. Execution is [delay] blocks behind. When a reachable policy accepts a
    block, then for every account that takes part in it, all the gas its
    transactions can cost in the blocks after the executed one, the new block
    included, is at most the account's balance in the executed state. *)
Theorem accepted_gas_covered delay reserve policy hist ebs b root sb status :
  chain_config_ok chain_config → same_reserve chain_config reserve → 1 ≤ delay ≤ 1000000 →
  policy_reachable delay (mkPolicyState policy hist ebs) → validated chain_config b → ev_seq_num b + 1 < u64_MAX →
  ri_seq_num root = bp_last_commit policy → backend_ok sb →
  let base := next_seq policy ebs - bp_execution_delay policy in
  executed sb policy ebs base status →
  policy_check_coherency policy b ebs root sb chain_config = Ret (Ok tt) →
  ∀ a, a ∈ extract_signers (ev_validated_txns b) (ev_system_txns b) →
    blocks_gas a (after base (hist ++ ebs) ++ [b]) ≤ match status a with Some ac => ac_balance ac | None => 0 end.
Proof.
  intros Hcc Hres Hd Hr Hvb Hmax Hroot Hsb base Hex Hchk a Ha.
  pose proof (policy_reachable_ok reserve Hcc Hres delay _ Hd Hr) as Hok.
  destruct (accept_follows reserve Hcc Hres policy hist ebs b root sb Hok Hvb Hmax Hroot Hsb Hchk) as [Hcb _].
  pose proof (run_ok_next _ _ _ Hok) as Hnext.
  destruct (run_ok_parts _ _ _ Hok) as (n & Hp & He & Hval & _ & Hafter). rewrite <- (Hafter base eq_refl).
  eapply (accepted_gas_is_covered policy _ (drop n hist) ebs b root chain_config reserve sb status); try done.
  rewrite (assoc_L (++)). apply Forall_app. split; [done|by constructor].
Qed.
End policy_run.
