(* ===== verification/EthExamples.v ===== *)
(** * A short run of the block policy

    Three blocks on the devnet configuration, made and validated at the
    concrete instance of the Ethereum types, with an execution delay of two:
    the policy accepts two blocks, commits the first and accepts the third. *)
From S2P Require Import Prelude Types ChainConfig Interfaces MultiSig Certificates Concrete BlockTree BaseFee EthTypes ToyEth ReserveBalance NonceUsage StaticValidation SystemCalls EthBlockValidator EthBlockPolicy SystemCallsProps ReserveProps NonceProps EthPolicyProps BaseNonces BaseBalances Solvency PolicyTotal PolicyRun.
#[local] Open Scope N_scope.

(** A database from the number of a block to the state after it. *)
Definition ToyDb : Type := N → Address → option EthAccount.

Module EthExample.
#[export] Existing Instance toy_eth.
#[export] Existing Instance toy_eth_codec.
#[export] Existing Instance toy_widths.
#[export] Existing Instance toy_signing.
#[export] Instance toy_rlp_round_signature : @EthCodec toy_eth := {| rlp_round_signature := λ _, [] |}.
#[export] Instance toy_eth_cert : @CertSignature (@EthParams toy_eth) :=
  @Build_CertSignature (@EthParams toy_eth) (@cert_sign _ toy_cert_signature) (@cert_verify _ toy_cert_signature)
    (@cert_validate _ toy_cert_signature) (@cert_pubkey _ toy_cert_signature).
#[export] Instance toy_set_order : SetOrder N := {| set_iter := elements; set_iter_perm := λ X, reflexivity _ |}.
#[export] Instance toy_backend : EthStateBackend ToyDb := {|
  sb_get_account_statuses := λ (db : ToyDb) _ n _ addresses, Ok (db n <$> addresses);
  sb_get_execution_result := λ _ _ n _, Ok (n : EthHeader);
|}.

Notation config := MONAD_DEVNET_CHAIN_CONFIG.
Definition gwei : N := 1000000000.

(** The block of sequence number and round [n] on a policy and its branch. *)
Definition example_header (policy : EthBlockPolicy) (ebs : list EthValidatedBlock) (n : N) (results : list N)
    (txns : list ToyTx) : ConsensusBlockHeader :=
  let '(fee, trend, moment) := ret_or (0, 0, 0) (policy_compute_base_fee policy ebs config) in
  let body := mkBody (mkEthBlockBody txns [] [] : @ExecutionBody EthParams) in
  let sig : @Signature (@EthParams toy_eth) := @round_signature_new EthParams _ _ n (1 : @CertKeyPair toy_params) in
  @mkHeader EthParams n 1 (@mkQC (@EthParams toy_eth) (mkVote (n - 1) (n - 1) 1) ([] : @SigCol toy_params)) (1 : @NodeId toy_params) n (n * gwei)
    sig results
    (mkProposedEthHeader 1 5 (N.of_nat (length txns)) 0 n 200000000 n 0 (round_signature_get_hash sig) 0 fee 2 0 0 0 (Some 0))
    (body_get_id body) fee trend moment.

Definition example_block (policy : EthBlockPolicy) (ebs : list EthValidatedBlock) (n : N) (results : list N)
    (txns : list ToyTx) : option EthValidatedBlock :=
  let h := example_header policy ebs n results txns in
  ok_of (eth_validate config h (mkBody (mkEthBlockBody txns [] [] : @ExecutionBody EthParams)) None).

Definition epoch_change_txn : ToyTx :=
  rt_inner (sign_with_system_sender (as_legacy_transaction (EpochChange 1) MONAD_DEVNET_CHAIN_ID 0)).
Definition policy0 : EthBlockPolicy := eth_policy_new GENESIS_SEQ_NUM 2.
Definition txns1 : list ToyTx := [epoch_change_txn; toy_transfer 101 9 0 500 21000 (200 * gwei)].
Definition txns2 : list ToyTx :=
  [toy_transfer 101 9 1 5 21000 (200 * gwei); toy_set_code 102 9 0 7 60000 (200 * gwei) [(103, 0)]].
Definition txns3 : list ToyTx := [toy_transfer 103 9 1 5 21000 (200 * gwei); toy_transfer 101 9 2 5 21000 (200 * gwei)].

(** Accounts have 100 MON; the state after block 1 and before. *)
Definition example_db : ToyDb := λ n a,
  Some (mkEthAccount (if bool_decide (n = 0) then 0 else if bool_decide (a = 101 ∨ a = SYSTEM_SENDER_ETH_ADDRESS) then 1 else 0)
          (100 * MON) None false).
Definition root0 : RootInfo := mkRootInfo 0 0 1 0 0.
Definition root1 : RootInfo := mkRootInfo 1 1 1 0 0.

(** The blocks, and the policy after the commit of the first one. *)
Definition no_block : EthValidatedBlock :=
  mkEthValidatedBlock (mkFullBlock (example_header policy0 [] 1 [] []) (mkBody (mkEthBlockBody [] [] [] : @ExecutionBody EthParams)))
    [] [] ∅ ∅.
Definition block1 : EthValidatedBlock := default no_block (example_block policy0 [] 1 [] txns1).
Definition block2 : EthValidatedBlock := default no_block (example_block policy0 [block1] 2 [0] txns2).
Definition policy1 : EthBlockPolicy := ret_or policy0 (policy_update_committed_block policy0 block1).
Definition block3 : EthValidatedBlock := default no_block (example_block policy1 [block2] 3 [1] txns3).

Lemma example_block_valid policy ebs n results txns :
  bool_decide (is_Some (example_block policy ebs n results txns)) = true →
  validated config (default no_block (example_block policy ebs n results txns)).
Proof.
  intros [b Hb]%bool_decide_eq_true. rewrite Hb. apply ok_of_Some in Hb. apply validate_validated in Hb as [Hb _]; [done|].
  unfold header_chain_params. destruct (chain_params_ranges (cc_chain_revision config (bh_block_round (example_header policy ebs n results txns))))
    as (_ & H & _). etransitivity; [exact H|]. by vm_compute.
Qed.

Lemma block1_valid : validated config block1.
Proof. apply example_block_valid. vm_refl. Qed.
Lemma block2_valid : validated config block2.
Proof. apply example_block_valid. vm_refl. Qed.
Lemma block3_valid : validated config block3.
Proof. apply example_block_valid. vm_refl. Qed.

Lemma config_ok : chain_config_ok config.
Proof. split; [done|by vm_compute|]. intros round. apply (chain_params_ranges (cc_chain_revision config round)). Qed.
Lemma config_reserve : same_reserve config 10000000000000000000.
Proof. intros round. apply (chain_params_ranges (cc_chain_revision config round)). Qed.
Lemma example_db_ok : backend_ok example_db.
Proof. intros id n fin addresses l [= <-]. apply length_fmap. Qed.

Lemma commit1 : policy_update_committed_block policy0 block1 = Ret policy1.
Proof. apply returns_ret. vm_refl. Qed.

Lemma example_reachable : policy_reachable config 2 (mkPolicyState policy1 [block1] [block2]).
Proof.
  eapply rtc_l. { apply (step_accept config policy0 [] [] block1 root0 example_db); [apply block1_valid|by vm_compute|vm_refl|apply example_db_ok|vm_refl]. }
  eapply rtc_l. { apply (step_accept config policy0 [] [block1] block2 root0 example_db); [apply block2_valid|by vm_compute|vm_refl|apply example_db_ok|vm_refl]. }
  apply rtc_once. apply (step_commit config policy0 [] block1 [block2] policy1). apply commit1.
Qed.

Lemma example_policy_ok : policy_ok policy1 1 [block1].
Proof.
  destruct (update_committed_ok policy0 1 [] block1 (eth_policy_new_ok 2 ltac:(lia))) as (p & n & Hp & Hok & Hn & _); [vm_refl|by vm_compute|].
  rewrite commit1 in Hp. assert (p = policy1) as -> by congruence. assert (n = 0%nat) as -> by (simpl in Hn; lia). exact Hok.
Qed.

Lemma example_executed : executed example_db policy1 [block2] 1 (example_db 1).
Proof. intros idx addresses _. done. Qed.


Lemma accepted_gas_covered_witness : blocks_gas 101 ([block2] ++ [block3]) ≤ 100 * MON.
Proof.
  assert (101 ∈ extract_signers (ev_validated_txns block3) (ev_system_txns block3)) as Ha
    by (apply (bool_decide_unpack _); by vm_compute).
  exact (accepted_gas_covered config 2 10000000000000000000 policy1 [block1] [block2] block3 root1 example_db (example_db 1)
    config_ok config_reserve ltac:(lia) example_reachable block3_valid ltac:(by vm_compute) ltac:(vm_refl) example_db_ok example_executed
    ltac:(vm_refl) 101 Ha).
Defined.

Lemma committed_cache_complete_witness : ∃ policy n,
  commit_blocks policy0 [block1; block2; block3] = Ret policy ∧ bp_last_commit policy = 3 ∧
  btree_iter (bb_blocks (bp_committed_cache policy)) = entries (drop n [block1; block2; block3]).
Proof.
  destruct (committed_cache_complete 2 [block1; block2; block3]) as (policy & n & H1 & H2 & H3 & _); [lia| |by vm_compute|].
  - split; [vm_refl|]. split; [vm_refl|]. split; [vm_refl|exact I].
  - exists policy, n. exact (conj H1 (conj H2 H3)).
Defined.

(** The nonces and balances of block 3 start from the state after block 1. *)
Definition replayed : list Address := [101; 102; 103].
Definition start_nonces : gmap N Nonce := list_to_map ((λ a, (a, status_nonce (example_db 1 a))) <$> replayed).
Definition end_nonces : gmap N Nonce := default ∅ (ok_of (replay_nonces config start_nonces [block2])).

Lemma blocks_valid : Forall (validated config) ([block1] ++ [block2]).
Proof. constructor; [apply block1_valid|]. constructor; [apply block2_valid|constructor]. Qed.

Lemma base_nonces_replay_witness :
  ∃ res, get_account_base_nonces policy1 3 example_db [block2] replayed = Ret (Ok res) ∧
    ∀ a, a ∈ replayed → res !! a = end_nonces !! a.
Proof.
  apply (base_nonces_replay policy1 1 [block1] [block2] config example_db (example_db 1) replayed start_nonces end_nonces
    example_policy_ok).
  - split; [vm_refl|exact I].
  - exact blocks_valid.
  - exact example_executed.
  - intros a Ha. unfold replayed in Ha. repeat (apply elem_of_cons in Ha as [->|Ha]; [vm_refl|]). by apply elem_of_nil in Ha.
  - vm_refl.
Defined.

Definition start_balances : AccountBalanceStates :=
  list_to_map ((λ a, (a, start_state policy1 10000000000000000000 1 (example_db 1) [block1; block2] a)) <$> replayed).
Definition end_balances : AccountBalanceStates := default ∅ (ok_of (replay_balances policy1 config start_balances [block2])).

Lemma base_balances_replay_witness :
  ∃ res, compute_account_base_balances policy1 3 example_db config (Some [block2]) replayed = Ret (Ok res) ∧
    ∀ a, a ∈ replayed → res !! a ≡ end_balances !! a.
Proof.
  apply (base_balances_replay policy1 1 [block1] [block2] config 10000000000000000000 example_db (example_db 1) replayed
    start_balances end_balances example_policy_ok).
  - split; [vm_refl|exact I].
  - by vm_compute.
  - exact blocks_valid.
  - exact config_reserve.
  - exact example_executed.
  - intros a Ha. unfold replayed in Ha. repeat (apply elem_of_cons in Ha as [->|Ha]; [vm_refl|]). by apply elem_of_nil in Ha.
  - by apply (bool_decide_unpack _); vm_compute.
  - vm_refl.
Defined.

(** The system transaction of block 1. *)
Definition header1 : ConsensusBlockHeader := example_header policy0 [] 1 [] txns1.
Definition recovered1 : list RecoveredTx :=
  [mkRecoveredTx epoch_change_txn SYSTEM_SENDER_ETH_ADDRESS; mkRecoveredTx (toy_transfer 101 9 0 500 21000 (200 * gwei)) 101].

Lemma system_transactions_exact_witness :
  ∃ calls p, generate_system_calls config 1 1 1 1 = Ret calls ∧ recovered1 = p ++ drop 1 recovered1 ∧
    Forall2 (makes_call config) calls p ∧ Forall user_txn (drop 1 recovered1).
Proof.
  destruct (system_transactions_exact config header1 1 recovered1 (as_validated <$> take 1 recovered1) (drop 1 recovered1)) as [H _];
    [vm_refl|]. destruct H as (calls & p & H1 & H2 & _ & H3 & H4); [split; vm_refl|].
  exists calls, p. exact (conj H1 (conj H2 (conj H3 H4))).
Defined.

Definition generated1 : list SystemTransaction := ret_or [] (generate_system_transactions config 1 1 1 1 0).

Lemma generated_transactions_pass_witness : ∃ txns,
  generate_system_transactions config 1 1 1 1 0 = Ret txns ∧
  extract_system_transactions config header1 ((system_transaction_into <$> txns) ++ drop 1 recovered1)
    = Ok (as_validated <$> (system_transaction_into <$> txns), drop 1 recovered1).
Proof.
  exists generated1. split; [vm_refl|].
  apply (generated_transactions_pass config header1 1 0 {[SYSTEM_SENDER_ETH_ADDRESS := 0]} generated1 (drop 1 recovered1)).
  - vm_refl.
  - vm_refl.
  - by vm_compute.
  - vm_refl.
  - constructor; [|constructor]. split; [by vm_compute|vm_refl].
Defined.
End EthExample.
