(* ===== verification/RaptorSets.v ===== *)
(** * Vectors, binary search and ordered sets (monad-raptor/src)

    [Vec] and slices are lists; indexing panics out of range. The numbers of
    buffers and symbols ([u16] and [usize]) are [nat]; a conversion to [u16]
    panics when it does not fit. *)
From S2P Require Import Prelude.
#[local] Open Scope nat_scope.

Definition vec_get {A} (l : list A) (i : nat) : outcome A := expect (l !! i).
Definition vec_set {A} (l : list A) (i : nat) (x : A) : outcome (list A) :=
  if bool_decide (i < length l) then Ret (<[i := x]> l) else Panic.
Definition vec_swap {A} (l : list A) (i j : nat) : outcome (list A) :=
  x ← vec_get l i; y ← vec_get l j; Ret (<[j := x]> (<[i := y]> l)).
Fixpoint for_each {A S} (f : S → A → outcome S) (s : S) (l : list A) : outcome S :=
  match l with [] => Ret s | x :: l => s ← f s x; for_each f s l end.
Definition u16_try_from (n : nat) : outcome nat := if bool_decide (N.of_nat n < 65536)%N then Ret n else Panic.

(** ** binary_search.rs *)

Fixpoint search_loop (fuel : nat) (condition : nat → outcome bool) (lower upper : nat) : outcome (nat * nat) :=
  match fuel with
  | O => OutOfFuel
  | S fuel =>
      if bool_decide (lower < upper) then
        let pivot := (lower + upper) / 2 in
        c ← condition pivot;
        if c : bool then search_loop fuel condition lower pivot else search_loop fuel condition (pivot + 1) upper
      else Ret (lower, upper)
  end.
Definition smallest_integer_satisfying (from to : nat) (condition : nat → outcome bool) : outcome (option nat) :=
  '(lower, upper) ← search_loop (S (to - from)) condition from to;
  Ret (if bool_decide (lower = upper) && bool_decide (upper < to) then Some upper else None).

(** ** ordered_set.rs *)

Definition BINARY_SEARCH_THRESHOLD : nat := 250.

Notation OrderedSet := (list nat).

Fixpoint placement_scan (data : OrderedSet) (value i : nat) : nat :=
  match data with
  | [] => i
  | x :: data => if bool_decide (value ≤ x) then i else placement_scan data value (S i)
  end.
Definition placement_index (data : OrderedSet) (value : nat) : outcome nat :=
  if bool_decide (length data < BINARY_SEARCH_THRESHOLD) then Ret (placement_scan data value 0) else
  r ← smallest_integer_satisfying 0 (length data) (λ pivot, x ← vec_get data pivot; Ret (bool_decide (value ≤ x)));
  Ret (default (length data) r).

Definition set_contains (data : OrderedSet) (value : nat) : outcome bool :=
  index ← placement_index data value;
  Ret (bool_decide (data !! index = Some value)).

(** [push(0)], [copy_within(index..len, index + 1)], and the assignment. *)
Definition insert_at (data : OrderedSet) (index value : nat) : OrderedSet := take index data ++ value :: drop index data.
(** [copy_within(index + 1..len, index)] and [truncate]. *)
Definition remove_at (data : OrderedSet) (index : nat) : OrderedSet := take index data ++ drop (S index) data.

Definition set_insert (data : OrderedSet) (value : nat) : outcome (OrderedSet * bool) :=
  index ← placement_index data value;
  Ret (if bool_decide (data !! index = Some value) then (data, false) else (insert_at data index value, true)).
Definition set_insert_or_remove (data : OrderedSet) (value : nat) : outcome (OrderedSet * bool) :=
  index ← placement_index data value;
  Ret (if bool_decide (data !! index = Some value) then (remove_at data index, false)
       else (insert_at data index value, true)).
Definition set_remove (data : OrderedSet) (value : nat) : outcome (OrderedSet * bool) :=
  index ← placement_index data value;
  Ret (if bool_decide (data !! index = Some value) then (remove_at data index, true) else (data, false)).

(** ** Vectors *)

Lemma vec_get_ret {A} (l : list A) i x : l !! i = Some x → vec_get l i = Ret x.
Proof. unfold vec_get. by intros ->. Qed.
Lemma vec_set_ret {A} (l : list A) i x : i < length l → vec_set l i x = Ret (<[i := x]> l).
Proof. intros H. unfold vec_set. by rewrite bool_decide_eq_true_2. Qed.
Lemma vec_swap_ret {A} (l : list A) i j x y : l !! i = Some x → l !! j = Some y →
  vec_swap l i j = Ret (<[j := x]> (<[i := y]> l)).
Proof. intros Hi Hj. unfold vec_swap. by rewrite (vec_get_ret _ _ _ Hi), (vec_get_ret _ _ _ Hj). Qed.
(** The invariant of a loop, over what is left of the list. *)
Lemma for_each_ok {A S} (I : list A → S → Prop) (f : S → A → outcome S) l s :
  (∀ x l s, I (x :: l) s → ∃ s', f s x = Ret s' ∧ I l s') → I l s → ∃ s', for_each f s l = Ret s' ∧ I [] s'.
Proof.
  intros Hf. revert s. induction l as [|x l IH]; intros s Hi; [by exists s|]. cbn [for_each].
  destruct (Hf _ _ _ Hi) as (s' & -> & Hi'). by apply IH.
Qed.
Lemma for_each_unit {A} (f : unit → A → outcome unit) l : (∀ x, x ∈ l → f tt x = Ret tt) → for_each f tt l = Ret tt.
Proof.
  induction l as [|x l IH]; intros Hf; [done|]. cbn [for_each]. rewrite Hf by left. cbn [mbind outcome_bind].
  apply IH. intros y Hy. apply Hf. by right.
Qed.

(** ** Lists given by a function on indices *)

Lemma fmap_seq_insert {A} (f g : nat → A) n i : i < n → (∀ k, k ≠ i → g k = f k) → <[i := g i]> (f <$> seq 0 n) = g <$> seq 0 n.
Proof.
  intros Hi Hne. apply list_eq. intros k. destruct (decide (k = i)) as [->|Hk].
  - rewrite list_lookup_insert_eq by (by rewrite length_fmap, length_seq). rewrite list_lookup_fmap, lookup_seq_lt by done. done.
  - rewrite list_lookup_insert_ne by done. rewrite !list_lookup_fmap. destruct (seq 0 n !! k) as [v|] eqn:E; [|done].
    apply lookup_seq in E as [-> _]. simpl. by rewrite Hne.
Qed.
Lemma lookup_fmap_seq {A} (f : nat → A) n i x : (f <$> seq 0 n) !! i = Some x ↔ i < n ∧ x = f i.
Proof.
  rewrite list_lookup_fmap. destruct (decide (i < n)).
  - rewrite lookup_seq_lt by done. simpl. naive_solver.
  - rewrite (proj2 (lookup_ge_None _ _)) by (rewrite length_seq; lia). split; [done|lia].
Qed.

Lemma const_fmap_seq {A} (x : A) n k : (λ _, x) <$> seq k n = replicate n x.
Proof. revert k. induction n as [|n IH]; intros k; [done|]. simpl. f_equal. apply IH. Qed.

Lemma mapM_ret {A B} (f : A → outcome B) (g : A → B) l : (∀ x, x ∈ l → f x = Ret (g x)) → mapM f l = Ret (g <$> l).
Proof.
  induction l as [|x l IH]; intros Hf; [done|]. simpl. rewrite Hf by left. cbn [mbind outcome_bind].
  rewrite IH by (intros y Hy; apply Hf; by right). done.
Qed.
Lemma mapM_fmap_ret {A B C} (f : B → outcome C) (h : A → B) (g : A → C) l : (∀ x, x ∈ l → f (h x) = Ret (g x)) → mapM f (h <$> l) = Ret (g <$> l).
Proof.
  induction l as [|x l IH]; intros Hf; [done|]. rewrite !fmap_cons. cbn [mapM]. rewrite Hf by left. cbn [mbind outcome_bind].
  rewrite IH by (intros y Hy; apply Hf; by right). done.
Qed.
Lemma u16_try_from_ret n : (N.of_nat n < 65536)%N → u16_try_from n = Ret n.
Proof. intros H. unfold u16_try_from. by rewrite bool_decide_eq_true_2. Qed.

(** ** Binary search *)

(** The search finds the first index from which a monotone condition holds. *)
Lemma search_loop_spec condition (f : nat → bool) from to fuel lower upper :
  (∀ p, from ≤ p < to → condition p = Ret (f p)) →
  (∀ p q, from ≤ p → p ≤ q → q < to → f p = true → f q = true) →
  from ≤ lower → lower ≤ upper → upper ≤ to → upper - lower < fuel →
  (∀ p, from ≤ p < lower → f p = false) → (∀ p, upper ≤ p < to → f p = true) →
  ∃ k, search_loop fuel condition lower upper = Ret (k, k) ∧ from ≤ k ≤ to ∧
    (∀ p, from ≤ p < k → f p = false) ∧ (∀ p, k ≤ p < to → f p = true).
Proof.
  intros Hc Hmono. revert lower upper.
  induction fuel as [|fuel IH]; intros lower upper Hfl Hlu Hut Hfuel Hlo Hhi; [lia|]. cbn [search_loop].
  case_bool_decide as Hlt.
  2:{ assert (lower = upper) as -> by lia. exists upper. split; [done|]. split; [lia|done]. }
  set (pivot := (lower + upper) / 2).
  assert (lower ≤ pivot < upper) as Hp.
  { unfold pivot. pose proof (Nat.div_mod_eq (lower + upper) 2). pose proof (Nat.mod_upper_bound (lower + upper) 2). lia. }
  rewrite Hc by lia. cbn [mbind outcome_bind]. destruct (f pivot) eqn:Hf.
  - apply IH; [lia..|done|]. intros p Hpp. apply (Hmono pivot p); [lia..|done].
  - apply IH; [lia..| |done]. intros p Hpp. destruct (f p) eqn:Hfp; [|done].
    rewrite (Hmono p pivot) in Hf; [done|lia..|done].
Qed.

Lemma smallest_integer_satisfying_spec from to condition (f : nat → bool) : from ≤ to →
  (∀ p, from ≤ p < to → condition p = Ret (f p)) →
  (∀ p q, from ≤ p → p ≤ q → q < to → f p = true → f q = true) →
  ∃ r, smallest_integer_satisfying from to condition = Ret r ∧
    match r with
    | Some k => from ≤ k < to ∧ f k = true ∧ ∀ p, from ≤ p < k → f p = false
    | None => ∀ p, from ≤ p < to → f p = false
    end.
Proof.
  intros Hft Hc Hmono. unfold smallest_integer_satisfying.
  destruct (search_loop_spec condition f from to (S (to - from)) from to) as (k & -> & Hk & Hlo & Hhi); try done; try lia.
  cbn [mbind outcome_bind]. rewrite (bool_decide_eq_true_2 (k = k)) by done. eexists. split; [done|]. simpl.
  case_bool_decide as Hlt; [|intros p Hp; apply Hlo; lia]. split; [lia|]. split; [apply Hhi; lia|done].
Qed.

(** ** Ordered sets *)

Notation sorted := (StronglySorted lt).

Lemma sorted_nodup (l : list nat) : sorted l → NoDup l.
Proof.
  induction 1 as [|x l _ IH Hx]; constructor; [|done]. intros Hin. rewrite Forall_forall in Hx. specialize (Hx x Hin). lia.
Qed.
Lemma sorted_length_le (l : list nat) n : sorted l → (∀ j, j ∈ l → j < n) → length l ≤ n.
Proof.
  intros Hs Hr. rewrite <- (length_seq n 0). apply submseteq_length, NoDup_submseteq; [by apply sorted_nodup|].
  intros j Hj%Hr. apply elem_of_seq. lia.
Qed.

Lemma sorted_lookup {A} {R : relation A} (l : list A) p q x y : StronglySorted R l → p < q → l !! p = Some x → l !! q = Some y → R x y.
Proof.
  intros Hs. revert p q. induction Hs as [|z l _ IH Hz]; intros p q Hpq Hp Hq; [done|].
  destruct q as [|q]; [lia|]. destruct p as [|p]; [|by apply (IH p q); [lia|..]].
  injection Hp as ->. rewrite Forall_forall in Hz. by apply Hz, (list_elem_of_lookup_2 l q).
Qed.

(** The place of a value: everything before it is smaller, everything from it
    on is not. *)
Definition placed (data : OrderedSet) (value index : nat) : Prop :=
  index ≤ length data ∧ Forall (λ x, x < value) (take index data) ∧ Forall (λ x, value ≤ x) (drop index data).

Lemma placement_scan_shift data value i : placement_scan data value (S i) = S (placement_scan data value i).
Proof. revert i. induction data as [|x data IH]; intros i; [done|]. simpl. case_bool_decide; [done|apply IH]. Qed.

Lemma placement_scan_placed data value : sorted data → placed data value (placement_scan data value 0).
Proof.
  induction 1 as [|x data Hs IH Hx]; [by repeat constructor|]. simpl. case_bool_decide as Hle.
  - split; [simpl; lia|]. split; [done|]. simpl. constructor; [done|]. eapply Forall_impl; [exact Hx|]. simpl. lia.
  - rewrite placement_scan_shift. destruct IH as (H1 & H2 & H3). split; [simpl; lia|]. split; [|done].
    simpl. constructor; [lia|done].
Qed.

Lemma placement_index_spec data value : sorted data → ∃ index, placement_index data value = Ret index ∧ placed data value index.
Proof.
  intros Hs. unfold placement_index. case_bool_decide as Hlen.
  { eexists. split; [done|]. by apply placement_scan_placed. }
  set (f := λ p, bool_decide (value ≤ default 0 (data !! p))).
  assert (∀ p q x y, p < q → data !! p = Some x → data !! q = Some y → x < y) as Hlt.
  { intros p q x y. by apply sorted_lookup. }
  destruct (smallest_integer_satisfying_spec 0 (length data)
    (λ pivot, x ← vec_get data pivot; Ret (bool_decide (value ≤ x))) f) as (r & -> & Hr); [lia| | |].
  { intros p [_ Hp]. unfold f. destruct (lookup_lt_is_Some_2 data p Hp) as [x Hx]. rewrite (vec_get_ret _ _ _ Hx), Hx. done. }
  { intros p q _ Hpq Hq. unfold f. rewrite !bool_decide_eq_true. destruct (lookup_lt_is_Some_2 data q Hq) as [y Hy].
    destruct (lookup_lt_is_Some_2 data p) as [x Hx]; [lia|]. rewrite Hx, Hy. simpl.
    destruct (decide (p = q)) as [->|Hne]; [congruence|]. pose proof (Hlt p q x y ltac:(lia) Hx Hy). lia. }
  cbn [mbind outcome_bind]. eexists. split; [done|]. unfold f in Hr.
  assert (default (length data) r ≤ length data ∧
    (∀ p x, data !! p = Some x → p < default (length data) r → x < value) ∧
    (∀ p x, data !! p = Some x → default (length data) r ≤ p → value ≤ x)) as (H1 & H2 & H3).
  { destruct r as [k|]; simpl.
    - destruct Hr as (Hk & Hval & Hlo). apply bool_decide_eq_true in Hval. split; [lia|]. split.
      + intros p x Hx Hp. specialize (Hlo p ltac:(lia)). rewrite Hx in Hlo. apply bool_decide_eq_false in Hlo. simpl in Hlo. lia.
      + intros p x Hx Hp. destruct (lookup_lt_is_Some_2 data k) as [y Hy]; [lia|]. rewrite Hy in Hval. simpl in Hval.
        destruct (decide (p = k)) as [->|Hne]; [congruence|]. pose proof (Hlt k p y x ltac:(lia) Hy Hx). lia.
    - split; [lia|]. split.
      + intros p x Hx Hp. specialize (Hr p ltac:(lia)). rewrite Hx in Hr. apply bool_decide_eq_false in Hr. simpl in Hr. lia.
      + intros p x Hx Hp. apply lookup_lt_Some in Hx. lia. }
  split; [done|]. split; apply Forall_lookup.
  - intros p x Hx. apply lookup_take_Some in Hx as [Hx Hp]. by apply (H2 p).
  - intros p x Hx. rewrite lookup_drop in Hx. apply (H3 _ _ Hx). lia.
Qed.

Lemma sorted_app (l k : list nat) : sorted (l ++ k) ↔ (∀ x y, x ∈ l → y ∈ k → x < y) ∧ sorted l ∧ sorted k.
Proof. apply StronglySorted_app. Qed.

(** A value splits an ordered set at its place. *)
Lemma placed_split data value index : sorted data → placed data value index →
  ∃ lo hi, (∀ x, x ∈ lo → x < value) ∧ (∀ x, x ∈ hi → value < x) ∧ index = length lo ∧ sorted lo ∧ sorted hi ∧
    ((data !! index = Some value ∧ data = lo ++ value :: hi) ∨ (data !! index ≠ Some value ∧ data = lo ++ hi)).
Proof.
  intros Hs (Hi & Hlo & Hhi). rewrite Forall_forall in Hlo, Hhi.
  pose proof Hs as Hs'. rewrite <- (take_drop index data) in Hs'. apply sorted_app in Hs' as (_ & Hs1 & Hs2).
  assert (length (take index data) = index) as Hlen by (rewrite length_take; lia).
  destruct (decide (data !! index = Some value)) as [Heq|Hne].
  - rewrite (drop_S data value index Heq) in Hs2. apply StronglySorted_inv in Hs2 as [Hs2 Hv]. rewrite Forall_forall in Hv.
    exists (take index data), (drop (S index) data). split_and!; try done. left. split; [done|].
    by rewrite <- (drop_S data value index Heq), take_drop.
  - exists (take index data), (drop index data). split_and!; try done; [|right; by rewrite take_drop].
    intros x Hx. pose proof (Hhi x Hx). enough (x ≠ value) by lia. intros ->. apply Hne.
    destruct (drop index data) as [|y hi] eqn:Hd; [by apply elem_of_nil in Hx|].
    assert (data !! index = Some y) as Hy by (rewrite <- (Nat.add_0_r index), <- lookup_drop, Hd; done).
    apply elem_of_cons in Hx as [->|Hx]; [done|]. apply StronglySorted_inv in Hs2 as [_ Hv]. rewrite Forall_forall in Hv.
    specialize (Hv _ Hx). specialize (Hhi y ltac:(by left)). lia.
Qed.

Lemma insert_at_app lo hi v : insert_at (lo ++ hi) (length lo) v = lo ++ v :: hi.
Proof. unfold insert_at. by rewrite take_app_length, drop_app_length. Qed.
Lemma remove_at_app lo hi v : remove_at (lo ++ v :: hi) (length lo) = lo ++ hi.
Proof. unfold remove_at. rewrite take_app_length. f_equal. rewrite drop_app_ge by lia. by replace (S (length lo) - length lo) with 1 by lia. Qed.

(** What the operations do to the elements. *)
Lemma set_insert_or_remove_spec data value : sorted data →
  ∃ data' b, set_insert_or_remove data value = Ret (data', b) ∧ sorted data' ∧ b = bool_decide (value ∉ data) ∧
    (∀ x, x ∈ data' ↔ if decide (x = value) then x ∉ data else x ∈ data) ∧
    (b = true → data' ≡ₚ value :: data) ∧ (b = false → data ≡ₚ value :: data').
Proof.
  intros Hs. unfold set_insert_or_remove. destruct (placement_index_spec data value Hs) as (index & -> & Hp).
  cbn [mbind outcome_bind]. destruct (placed_split data value index Hs Hp) as (lo & hi & Hlo & Hhi & -> & Hs1 & Hs2 & Hcase).
  assert (value ∉ lo ∧ value ∉ hi) as [Hnlo Hnhi].
  { split; intros Hin; [specialize (Hlo _ Hin)|specialize (Hhi _ Hin)]; lia. }
  destruct Hcase as [[Heq ->]|[Hne ->]].
  - rewrite (bool_decide_eq_true_2 _ Heq), remove_at_app. eexists _, _. split; [done|]. split_and!.
    + apply sorted_app. split_and!; [|done|done]. intros x y Hx Hy. specialize (Hlo x Hx). specialize (Hhi y Hy). lia.
    + rewrite bool_decide_eq_false_2; [done|]. intros Hnin. apply Hnin. set_solver.
    + intros x. destruct (decide (x = value)) as [->|]; set_solver.
    + done.
    + intros _. by rewrite Permutation_middle.
  - rewrite (bool_decide_eq_false_2 _ Hne), insert_at_app. eexists _, _. split; [done|]. split_and!.
    + apply sorted_app. split_and!; [|done|].
      * intros x y Hx [->|Hy]%elem_of_cons; [by apply Hlo|]. specialize (Hlo x Hx). specialize (Hhi y Hy). lia.
      * constructor; [done|]. by apply Forall_forall.
    + rewrite bool_decide_eq_true_2; [done|]. set_solver.
    + intros x. destruct (decide (x = value)) as [->|]; set_solver.
    + intros _. by rewrite Permutation_middle.
    + done.
Qed.

(** Insertion and removal are the two cases of it. *)
Lemma set_insert_spec data value : sorted data → value ∉ data →
  ∃ data', set_insert data value = Ret (data', true) ∧ sorted data' ∧ data' ≡ₚ value :: data.
Proof.
  intros Hs Hnin. destruct (set_insert_or_remove_spec data value Hs) as (data' & b & Hr & Hs' & -> & _ & Hp & _).
  unfold set_insert_or_remove in Hr. unfold set_insert. destruct (placement_index data value) as [index| |]; [|done..].
  cbn [mbind outcome_bind] in *. rewrite (bool_decide_eq_true_2 (value ∉ data)) in Hr, Hp by done. exists data'.
  case_bool_decide; [by injection Hr|]. injection Hr as ->. split; [done|]. split; [done|by apply Hp].
Qed.

Lemma set_remove_spec data value : sorted data → value ∈ data →
  ∃ data', set_remove data value = Ret (data', true) ∧ sorted data' ∧ data ≡ₚ value :: data'.
Proof.
  intros Hs Hin. destruct (set_insert_or_remove_spec data value Hs) as (data' & b & Hr & Hs' & -> & _ & _ & Hp).
  unfold set_insert_or_remove in Hr. unfold set_remove. destruct (placement_index data value) as [index| |]; [|done..].
  cbn [mbind outcome_bind] in *. rewrite (bool_decide_eq_false_2 (value ∉ data)) in Hr, Hp by (intros H; by apply H). exists data'.
  case_bool_decide; [|by injection Hr]. injection Hr as ->. split; [done|]. split; [done|by apply Hp].
Qed.

Lemma set_contains_spec data value : sorted data → set_contains data value = Ret (bool_decide (value ∈ data)).
Proof.
  intros Hs. unfold set_contains. destruct (placement_index_spec data value Hs) as (index & -> & Hp).
  cbn [mbind outcome_bind]. f_equal. apply bool_decide_ext. split; [apply list_elem_of_lookup_2|].
  destruct (placed_split data value index Hs Hp) as (lo & hi & Hlo & Hhi & -> & _ & _ & [[Heq _]|[_ ->]]); [done|].
  intros [Hin|Hin]%elem_of_app; [specialize (Hlo _ Hin)|specialize (Hhi _ Hin)]; lia.
Qed.

(** * Sums over GF(2)

    The exclusive or of what a function gives on a set, for symbols (strings
    of bytes) and for single bits, and the linear algebra that the code rests
    on: fewer rows than columns have a common non-zero solution. *)

(** An exclusive or, on the values that are well formed (symbols of one
    length). *)
Class XorOp (G : Type) := {
  xop : G → G → G;
  xzero : G;
  xwf : G → Prop;
  xop_assoc : ∀ a b c, xop a (xop b c) = xop (xop a b) c;
  xop_comm : ∀ a b, xop a b = xop b a;
  xop_zero : ∀ a, xwf a → xop xzero a = a;
  xop_self : ∀ a, xwf a → xop a a = xzero;
  xop_wf : ∀ a b, xwf a → xwf b → xwf (xop a b);
  xzero_wf : xwf xzero;
}.

Definition symdiff (l k : list nat) : list nat := filter (λ j, j ∉ k) l ++ filter (λ j, j ∉ l) k.

Lemma elem_of_symdiff l k j : j ∈ symdiff l k ↔ (j ∈ l ∧ j ∉ k) ∨ (j ∈ k ∧ j ∉ l).
Proof. unfold symdiff. rewrite elem_of_app, !list_elem_of_filter. tauto. Qed.
Lemma NoDup_symdiff l k : NoDup l → NoDup k → NoDup (symdiff l k).
Proof.
  intros Hl Hk. apply NoDup_app. split; [by apply NoDup_filter|]. split; [|by apply NoDup_filter].
  intros j [? ?]%list_elem_of_filter [? ?]%list_elem_of_filter. done.
Qed.

Lemma filter_split {A} (P : A → Prop) `{∀ x, Decision (P x)} (l : list A) : l ≡ₚ filter P l ++ filter (λ x, ¬ P x) l.
Proof.
  induction l as [|x l IH]; [done|]. rewrite !filter_cons. destruct (decide (P x)), (decide (¬ P x)); try tauto.
  - simpl. by constructor.
  - rewrite <- Permutation_middle. by constructor.
Qed.

Section xsum.
Context {G : Type} `{!XorOp G}.
Implicit Types x : nat → G.

Definition xsum x (l : list nat) : G := foldr (λ j g, xop (x j) g) xzero l.

Lemma xsum_perm x l k : l ≡ₚ k → xsum x l = xsum x k.
Proof.
  induction 1 as [|j l k _ IH|i j l|l k m _ IH1 _ IH2]; simpl; [done|by f_equal| |by rewrite IH1].
  by rewrite !xop_assoc, (xop_comm (x i)).
Qed.

Lemma xsum_wf x l : (∀ j, j ∈ l → xwf (x j)) → xwf (xsum x l).
Proof.
  induction l as [|j l IH]; intros Hx; simpl; [apply xzero_wf|]. apply xop_wf; [apply Hx; left|]. apply IH. intros i Hi. apply Hx. by right.
Qed.

Lemma xsum_app x l k : (∀ j, j ∈ k → xwf (x j)) → xsum x (l ++ k) = xop (xsum x l) (xsum x k).
Proof.
  intros Hk. induction l as [|j l IH]; simpl; [by rewrite xop_zero by by apply xsum_wf|]. by rewrite IH, xop_assoc.
Qed.

Lemma xsum_ext x y l : (∀ j, j ∈ l → x j = y j) → xsum x l = xsum y l.
Proof. induction l as [|j l IH]; intros H; [done|]. simpl. rewrite (H j) by left. f_equal. apply IH. intros i Hi. apply H. by right. Qed.

Lemma xop_cancel a b : xwf a → xwf b → xop a (xop a b) = b.
Proof. intros Ha Hb. by rewrite xop_assoc, xop_self, xop_zero. Qed.

(** What two sets have in common cancels. *)
Lemma xsum_symdiff x l k m : NoDup l → NoDup k → NoDup m → (∀ j, j ∈ m ↔ (j ∈ l ∧ j ∉ k) ∨ (j ∈ k ∧ j ∉ l)) →
  (∀ j, j ∈ l → xwf (x j)) → (∀ j, j ∈ k → xwf (x j)) → xsum x m = xop (xsum x l) (xsum x k).
Proof.
  intros Hl Hk Hm Hin Hxl Hxk.
  assert (m ≡ₚ symdiff l k) as Hms.
  { apply NoDup_Permutation; [done|by apply NoDup_symdiff|]. intros j. by rewrite Hin, elem_of_symdiff. }
  rewrite (xsum_perm x _ _ Hms).
  pose proof (filter_split (λ j, j ∈ k) l) as Hsl. pose proof (filter_split (λ j, j ∈ l) k) as Hsk.
  assert (filter (λ j, j ∈ k) l ≡ₚ filter (λ j, j ∈ l) k) as Hc.
  { apply NoDup_Permutation; [by apply NoDup_filter..|]. intros j. rewrite !list_elem_of_filter. tauto. }
  apply (xsum_perm x) in Hsl as El, Hsk as Ek. rewrite El, Ek. unfold symdiff.
  rewrite !xsum_app by (intros j Hj; apply list_elem_of_filter in Hj; naive_solver).
  rewrite (xsum_perm x _ _ Hc). set (a := xsum x (filter (λ j, j ∈ l) k)). set (b := xsum x (filter (λ j, j ∉ k) l)). set (c := xsum x (filter (λ j, j ∉ l) k)).
  assert (xwf a) by (apply xsum_wf; intros j Hj; apply list_elem_of_filter in Hj; naive_solver).
  assert (xwf b) by (apply xsum_wf; intros j Hj; apply list_elem_of_filter in Hj; naive_solver).
  assert (xwf c) by (apply xsum_wf; intros j Hj; apply list_elem_of_filter in Hj; naive_solver).
  rewrite (xop_comm a b), <- (xop_assoc b), xop_cancel by (done || by apply xop_wf). done.
Qed.
End xsum.

(** ** Bits *)

#[global] Instance bool_xor : XorOp bool.
Proof.
  refine {| xop := xorb; xzero := false; xwf := λ _, True |}; try done.
  - intros a b c. by rewrite xorb_assoc.
  - apply xorb_comm.
  - intros a _. apply xorb_nilpotent.
Defined.

Lemma xsum_false x (l : list nat) : (∀ j, j ∈ l → x j = false) → xsum x l = false.
Proof. induction l as [|j l IH]; intros H; [done|]. simpl. rewrite H by left. apply IH. intros i Hi. apply H. by right. Qed.

(** The sum over a set of another set's indicator is symmetric. *)
Lemma xsum_swap l k : NoDup l → NoDup k → xsum (λ j, bool_decide (j ∈ k)) l = xsum (λ j, bool_decide (j ∈ l)) k.
Proof.
  assert (∀ l k : list nat, xsum (λ j, bool_decide (j ∈ k)) l = Nat.odd (length (filter (λ j, j ∈ k) l))) as Hodd.
  { intros l' k'. induction l' as [|j l' IH]; [done|]. rewrite filter_cons. cbn [xsum foldr]. fold (xsum (λ j, bool_decide (j ∈ k')) l').
    rewrite IH. case_decide as Hj.
    - rewrite bool_decide_eq_true_2 by done. cbn [length]. rewrite Nat.odd_succ, <- Nat.negb_odd. cbn. by destruct (Nat.odd _).
    - rewrite bool_decide_eq_false_2 by done. done. }
  intros Hl Hk. rewrite !Hodd. f_equal. apply Permutation_length. apply NoDup_Permutation; [by apply NoDup_filter..|].
  intros j. rewrite !list_elem_of_filter. tauto.
Qed.

(** Fewer equations than unknowns have a solution other than zero. *)
Lemma kernel_exists (rows : list (list nat)) (vars : list nat) : Forall NoDup rows → NoDup vars → length rows < length vars →
  ∃ x : nat → bool, (∃ v, v ∈ vars ∧ x v = true) ∧ (∀ v, v ∉ vars → x v = false) ∧ Forall (λ r, xsum x r = false) rows.
Proof.
  remember (length rows) as n eqn:Hn. revert rows vars Hn. induction n as [|n IH]; intros rows vars Hn Hr Hv Hlen.
  { destruct rows; [|done]. destruct vars as [|v vars]; [simpl in Hlen; lia|]. exists (λ j, bool_decide (j = v)).
    split; [exists v; split; [left|by rewrite bool_decide_eq_true_2]|]. split; [|constructor].
    intros j Hj. rewrite bool_decide_eq_false_2; [done|]. intros ->. apply Hj. left. }
  destruct rows as [|r rows]; [done|]. injection Hn as Hn. apply Forall_cons in Hr as [Hrnd Hr].
  destruct (decide (Exists (λ v, v ∈ r) vars)) as [(v & Hvv & Hvr)%list.Exists_exists|Hno].
  - set (adjust := λ r', if decide (v ∈ r') then symdiff r' r else r').
    destruct (IH (adjust <$> rows) (filter (λ j, j ≠ v) vars)) as (x & (w & Hw & Hxw) & Hout & Hrows).
    { by rewrite length_fmap. }
    { rewrite Forall_fmap. eapply Forall_impl; [done|]. intros r' Hr'. unfold adjust. simpl. case_decide; [by apply NoDup_symdiff|done]. }
    { by apply NoDup_filter. }
    { apply list_elem_of_split in Hvv as (l1 & l2 & ->). rewrite filter_app, filter_cons, decide_False by tauto.
      apply NoDup_app in Hv as (H1 & H2 & [H3 H4]%NoDup_cons).
      assert (∀ l : list nat, v ∉ l → filter (λ j, j ≠ v) l = l) as Hid.
      { clear. induction l as [|j l IH]; intros H; [done|]. apply not_elem_of_cons in H as [H1 H2].
        rewrite filter_cons_True by done. by rewrite IH. }
      rewrite !Hid; [|done|]. { rewrite length_app in *. simpl in Hlen. lia. } intros Hin. apply (H2 v Hin). left. }
    set (x' := λ j, if decide (j = v) then xsum x (filter (λ j, j ≠ v) r) else x j).
    assert (∀ l, v ∉ l → xsum x' l = xsum x l) as Hsame.
    { intros l Hl. apply xsum_ext. intros j Hj. unfold x'. rewrite decide_False; [done|]. by intros ->. }
    assert (xsum x' r = false) as Hxr.
    { assert (r ≡ₚ v :: filter (λ j, j ≠ v) r) as Hp.
      { apply NoDup_Permutation; [done| |].
        - constructor; [|by apply NoDup_filter]. rewrite list_elem_of_filter. tauto.
        - intros j. rewrite elem_of_cons, list_elem_of_filter. destruct (decide (j = v)) as [->|]; tauto. }
      rewrite (xsum_perm x' _ _ Hp). cbn [xsum foldr]. fold (xsum x' (filter (λ j, j ≠ v) r)). rewrite Hsame by (rewrite list_elem_of_filter; tauto).
      unfold x'. rewrite decide_True by done. apply xorb_nilpotent. }
    exists x'. apply list_elem_of_filter in Hw as [Hwv Hw]. split; [|split].
    + exists w. split; [done|]. unfold x'. by rewrite decide_False.
    + intros j Hj. unfold x'. rewrite decide_False by (by intros ->). apply Hout. rewrite list_elem_of_filter. tauto.
    + constructor; [done|]. rewrite Forall_forall. intros r' Hr'.
      rewrite Forall_fmap, Forall_forall in Hrows. specialize (Hrows r' Hr'). unfold adjust in Hrows. simpl in Hrows.
      case_decide as Hvr'; [|by rewrite Hsame]. rewrite <- Hsame in Hrows by (rewrite elem_of_symdiff; tauto).
      rewrite Forall_forall in Hr. rewrite (xsum_symdiff x' r' r) in Hrows; [|by apply Hr|done|by apply NoDup_symdiff, Hrnd; apply Hr| |done|done].
      * rewrite Hxr in Hrows. cbn in Hrows. by destruct (xsum x' r').
      * intros j. by rewrite elem_of_symdiff.
  - destruct (IH rows vars) as (x & Hw & Hout & Hrows); [done|done|done|lia|]. exists x. split; [done|]. split; [done|]. constructor; [|done].
    apply xsum_false. intros j Hj. apply Hout. intros Hjv. apply Hno. apply list.Exists_exists. by exists j.
Qed.
