(* ===== verification/RaptorHeap.v ===== *)
(** * The heap of buffer weights (monad-raptor/src/r10/nonsystematic/decoder/buffer_weight_map.rs)

    A binary heap of buffers ordered by weight, with the weight of each buffer
    and its position in the heap. [heap_ok] relates it to the finite map from
    buffers to weights that it stands for. *)
From S2P Require Import Prelude RaptorSets.
#[local] Open Scope nat_scope.
#[local] Arguments Nat.div : simpl never.

Record BufferWeightMap := mkBufferWeightMap {
  heap_index_to_buffer_index : list nat;
  buffer_index_to_weight : list (option nat);
  buffer_index_to_heap_index : list nat;
}.

Definition weight_map_new : BufferWeightMap := mkBufferWeightMap [] [] [].

(** [NonZeroU16::new(weight.try_into().unwrap()).unwrap()]. *)
Definition non_zero (weight : nat) : outcome nat :=
  weight ← u16_try_from weight; if bool_decide (weight = 0) then Panic else Ret weight.

Definition weight_map_is_empty (h : BufferWeightMap) : bool := bool_decide (heap_index_to_buffer_index h = []).

Definition weight_of (h : BufferWeightMap) (buffer_index : nat) : outcome nat :=
  o ← vec_get (buffer_index_to_weight h) buffer_index; expect o.

Definition peek_min (h : BufferWeightMap) : outcome (option (nat * nat)) :=
  match heap_index_to_buffer_index h with
  | [] => Ret None
  | buffer_index :: _ => weight ← weight_of h buffer_index; Ret (Some (buffer_index, weight))
  end.

Definition heap_index_to_weight (h : BufferWeightMap) (heap_index : nat) : outcome nat :=
  buffer_index ← vec_get (heap_index_to_buffer_index h) heap_index; weight_of h buffer_index.

(** [check_force]: the weights are those of the buffers of the heap, no child
    is lighter than its parent, and the positions are right. *)
Definition check_child (h : BufferWeightMap) (weight child : nat) : outcome unit :=
  if bool_decide (child < length (heap_index_to_buffer_index h)) then
    child_weight ← heap_index_to_weight h child; rust_assert (bool_decide (weight ≤ child_weight))
  else Ret tt.
Definition heap_check_force (h : BufferWeightMap) : outcome unit :=
  weights ← for_each (λ weights b, w ← vec_get (buffer_index_to_weight h) b; vec_set weights b w)
    (replicate (length (buffer_index_to_weight h)) None) (heap_index_to_buffer_index h);
  _ ← rust_assert (bool_decide (buffer_index_to_weight h = weights));
  _ ← for_each (λ _ i, weight ← heap_index_to_weight h i; _ ← check_child h weight (2 * i + 1); check_child h weight (2 * i + 2))
    tt (seq 0 (length (heap_index_to_buffer_index h)));
  for_each (λ _ '(i, b), position ← vec_get (buffer_index_to_heap_index h) b; rust_assert (bool_decide (position = i)))
    tt (imap pair (heap_index_to_buffer_index h)).
(** As in a build with debug assertions. *)
Definition heap_check (h : BufferWeightMap) : outcome unit := heap_check_force h.

Definition heap_swap (h : BufferWeightMap) (heap_index_a heap_index_b : nat) : outcome BufferWeightMap :=
  buffer_index_a ← vec_get (heap_index_to_buffer_index h) heap_index_a;
  buffer_index_b ← vec_get (heap_index_to_buffer_index h) heap_index_b;
  heap ← vec_swap (heap_index_to_buffer_index h) heap_index_a heap_index_b;
  position ← vec_swap (buffer_index_to_heap_index h) buffer_index_a buffer_index_b;
  Ret {| h with heap_index_to_buffer_index := heap; buffer_index_to_heap_index := position |}.

Fixpoint pull_up_loop (fuel : nat) (h : BufferWeightMap) (heap_index : nat) : outcome BufferWeightMap :=
  match fuel with
  | O => OutOfFuel
  | S fuel =>
      if bool_decide (heap_index = 0) then Ret h else
      let parent_heap_index := (heap_index - 1) / 2 in
      parent_weight ← heap_index_to_weight h parent_heap_index;
      weight ← heap_index_to_weight h heap_index;
      if bool_decide (parent_weight ≤ weight) then Ret h else
      h ← heap_swap h heap_index parent_heap_index;
      pull_up_loop fuel h parent_heap_index
  end.
Definition pull_up (h : BufferWeightMap) (heap_index : nat) : outcome BufferWeightMap :=
  pull_up_loop (S heap_index) h heap_index.

Definition resize {A} (l : list A) (n : nat) (x : A) : list A := l ++ replicate (n - length l) x.

Definition insert_buffer_weight (h : BufferWeightMap) (buffer_index weight : nat) : outcome BufferWeightMap :=
  let heap_index := length (heap_index_to_buffer_index h) in
  index ← u16_try_from buffer_index;
  let heap := heap_index_to_buffer_index h ++ [index] in
  let weights := resize (buffer_index_to_weight h) (buffer_index + 1) None in
  let positions := if bool_decide (length (buffer_index_to_weight h) < buffer_index + 1)
                   then resize (buffer_index_to_heap_index h) (buffer_index + 1) 0 else buffer_index_to_heap_index h in
  old ← vec_get weights buffer_index;
  weights ← vec_set weights buffer_index (Some weight);
  _ ← rust_assert (bool_decide (old = None));
  position ← u16_try_from heap_index;
  positions ← vec_set positions buffer_index position;
  h ← pull_up (mkBufferWeightMap heap weights positions) heap_index;
  _ ← heap_check h;
  Ret h.

(** The child if it is lighter than the lightest so far. *)
Definition lighter_child (h : BufferWeightMap) (child_heap_index heap_index_min : nat) : outcome nat :=
  if bool_decide (child_heap_index < length (heap_index_to_buffer_index h)) then
    child ← heap_index_to_weight h child_heap_index;
    least ← heap_index_to_weight h heap_index_min;
    Ret (if bool_decide (child < least) then child_heap_index else heap_index_min)
  else Ret heap_index_min.

Fixpoint push_down_loop (fuel : nat) (h : BufferWeightMap) (heap_index : nat) : outcome BufferWeightMap :=
  match fuel with
  | O => OutOfFuel
  | S fuel =>
      heap_index_min ← lighter_child h (2 * heap_index + 1) heap_index;
      heap_index_min ← lighter_child h (2 * heap_index + 2) heap_index_min;
      if bool_decide (heap_index = heap_index_min) then Ret h else
      h ← heap_swap h heap_index heap_index_min;
      push_down_loop fuel h heap_index_min
  end.
Definition push_down (h : BufferWeightMap) (heap_index : nat) : outcome BufferWeightMap :=
  push_down_loop (S (length (heap_index_to_buffer_index h))) h heap_index.

(** [pull_up] or [push_down] after a weight has changed. *)
Definition restore_order (h : BufferWeightMap) (heap_index weight prev_weight : nat) : outcome BufferWeightMap :=
  match Nat.compare weight prev_weight with
  | Lt => pull_up h heap_index
  | Gt => push_down h heap_index
  | Eq => Ret h
  end.

Definition remove_heap_index (h : BufferWeightMap) (heap_index buffer_index : nat) : outcome BufferWeightMap :=
  index ← vec_get (heap_index_to_buffer_index h) heap_index;
  _ ← rust_assert (bool_decide (index = buffer_index));
  position ← vec_get (buffer_index_to_heap_index h) buffer_index;
  _ ← rust_assert (bool_decide (position = heap_index));
  let last_heap_index := length (heap_index_to_buffer_index h) - 1 in
  h ← (if bool_decide (heap_index = last_heap_index) then Ret h else heap_swap h heap_index last_heap_index);
  let heap := take last_heap_index (heap_index_to_buffer_index h) in
  prev_weight ← weight_of h buffer_index;
  weights ← vec_set (buffer_index_to_weight h) buffer_index None;
  let h := {| h with heap_index_to_buffer_index := heap; buffer_index_to_weight := weights |} in
  h ← (if bool_decide (heap_index = last_heap_index) then Ret h else
       weight ← heap_index_to_weight h heap_index;
       restore_order h heap_index weight prev_weight);
  _ ← heap_check h;
  Ret h.

Definition remove_min (h : BufferWeightMap) : outcome BufferWeightMap :=
  buffer_index ← vec_get (heap_index_to_buffer_index h) 0;
  remove_heap_index h 0 buffer_index.

Definition remove_buffer_weight (h : BufferWeightMap) (buffer_index : nat) : outcome (BufferWeightMap * nat) :=
  weight ← weight_of h buffer_index;
  heap_index ← vec_get (buffer_index_to_heap_index h) buffer_index;
  index ← u16_try_from buffer_index;
  h ← remove_heap_index h heap_index index;
  Ret (h, weight).

Definition update_buffer_weight (h : BufferWeightMap) (buffer_index weight : nat) : outcome BufferWeightMap :=
  prev_weight ← weight_of h buffer_index;
  if bool_decide (prev_weight = weight) then Ret h else
  weights ← vec_set (buffer_index_to_weight h) buffer_index (Some weight);
  heap_index ← vec_get (buffer_index_to_heap_index h) buffer_index;
  h ← restore_order {| h with buffer_index_to_weight := weights |} heap_index weight prev_weight;
  _ ← heap_check h;
  Ret h.

Fixpoint enumerate_from (h : BufferWeightMap) (heap : list nat) : outcome (list (nat * nat)) :=
  match heap with
  | [] => Ret []
  | buffer_index :: heap =>
      weight ← weight_of h buffer_index;
      rest ← enumerate_from h heap;
      Ret ((buffer_index, weight) :: rest)
  end.
Definition weight_map_enumerate (h : BufferWeightMap) : outcome (list (nat * nat)) :=
  enumerate_from h (heap_index_to_buffer_index h).

(** ** The map that a heap stands for *)

Implicit Types (h : BufferWeightMap) (m : gmap nat nat).

(** The weight at a place of the heap. *)
Definition wt m (heap : list nat) (i : nat) : nat := default 0 (heap !! i ≫= λ b, m !! b).

Record heap_wf h m : Prop := {
  hw_pos : ∀ i b, heap_index_to_buffer_index h !! i = Some b → buffer_index_to_heap_index h !! b = Some i;
  hw_elem : ∀ b, b ∈ heap_index_to_buffer_index h ↔ is_Some (m !! b);
  hw_weight : ∀ b w, buffer_index_to_weight h !! b = Some (Some w) ↔ m !! b = Some w;
  hw_length : length (buffer_index_to_weight h) = length (buffer_index_to_heap_index h);
  hw_u16 : ∀ b w, m !! b = Some w → (N.of_nat b < 65536)%N;
}.

Definition ordered_at m (heap : list nat) (i : nat) : Prop := wt m heap ((i - 1) / 2) ≤ wt m heap i.

Record heap_ok h m : Prop := {
  hk_wf : heap_wf h m;
  hk_ordered : ∀ i, 0 < i < length (heap_index_to_buffer_index h) → ordered_at m (heap_index_to_buffer_index h) i;
}.

Lemma heap_wf_lookup h m i : heap_wf h m → i < length (heap_index_to_buffer_index h) →
  ∃ b w, heap_index_to_buffer_index h !! i = Some b ∧ m !! b = Some w ∧ buffer_index_to_weight h !! b = Some (Some w) ∧
    buffer_index_to_heap_index h !! b = Some i ∧ wt m (heap_index_to_buffer_index h) i = w.
Proof.
  intros [H1 H2 H3 H4 H5] Hi. destruct (lookup_lt_is_Some_2 _ _ Hi) as [b Hb].
  destruct (proj1 (H2 b)) as [w Hw]; [by eapply list_elem_of_lookup_2|]. exists b, w. split_and!; try done.
  - by apply H3.
  - by apply H1.
  - unfold wt. rewrite Hb. simpl. by rewrite Hw.
Qed.

Lemma heap_index_to_weight_ret h m i : heap_wf h m → i < length (heap_index_to_buffer_index h) →
  heap_index_to_weight h i = Ret (wt m (heap_index_to_buffer_index h) i).
Proof.
  intros Hwf Hi. destruct (heap_wf_lookup h m i Hwf Hi) as (b & w & Hb & _ & Hw & _ & ->).
  unfold heap_index_to_weight, weight_of. rewrite (vec_get_ret _ _ _ Hb). cbn [mbind outcome_bind].
  by rewrite (vec_get_ret _ _ _ Hw).
Qed.

Lemma weight_of_ret h m b w : heap_wf h m → m !! b = Some w → weight_of h b = Ret w.
Proof. intros Hwf Hb%(hw_weight h m Hwf). unfold weight_of. by rewrite (vec_get_ret _ _ _ Hb). Qed.

Definition exchanged (i j k : nat) : nat := if decide (k = i) then j else if decide (k = j) then i else k.

Lemma heap_swap_ok h m i j : heap_wf h m → i < length (heap_index_to_buffer_index h) → j < length (heap_index_to_buffer_index h) →
  ∃ h', heap_swap h i j = Ret h' ∧ heap_wf h' m ∧
    length (heap_index_to_buffer_index h') = length (heap_index_to_buffer_index h) ∧
    buffer_index_to_weight h' = buffer_index_to_weight h ∧
    (∀ k, heap_index_to_buffer_index h' !! k = heap_index_to_buffer_index h !! exchanged i j k) ∧
    ∀ k, wt m (heap_index_to_buffer_index h') k = wt m (heap_index_to_buffer_index h) (exchanged i j k).
Proof.
  intros Hwf Hi Hj. destruct (heap_wf_lookup h m i Hwf Hi) as (bi & wi & Hbi & Hmi & _ & Hpi & _).
  destruct (heap_wf_lookup h m j Hwf Hj) as (bj & wj & Hbj & Hmj & _ & Hpj & _).
  unfold heap_swap. rewrite (vec_get_ret _ _ _ Hbi), (vec_get_ret _ _ _ Hbj). cbn [mbind outcome_bind].
  rewrite (vec_swap_ret _ _ _ _ _ Hbi Hbj). cbn [mbind outcome_bind]. rewrite (vec_swap_ret _ _ _ _ _ Hpi Hpj).
  cbn [mbind outcome_bind]. eexists. split; [done|]. simpl.
  assert (∀ k, <[j:=bi]> (<[i:=bj]> (heap_index_to_buffer_index h)) !! k = heap_index_to_buffer_index h !! exchanged i j k) as Hex.
  { intros k. unfold exchanged. destruct (decide (k = j)) as [->|Hkj].
    - rewrite list_lookup_insert_eq by by rewrite length_insert. destruct (decide (j = i)) as [->|]; congruence.
    - rewrite list_lookup_insert_ne by done. destruct (decide (k = i)) as [->|Hki]; [by rewrite list_lookup_insert_eq|].
      by rewrite list_lookup_insert_ne. }
  destruct Hwf as [H1 H2 H3 H4 H5].
  assert (∀ k b, heap_index_to_buffer_index h !! exchanged i j k = Some b →
    <[bj:=i]> (<[bi:=j]> (buffer_index_to_heap_index h)) !! b = Some k) as Hpos.
  { intros k b Hb. apply lookup_lt_Some in Hpi as Hli, Hpj as Hlj. unfold exchanged in Hb.
    destruct (decide (k = i)) as [->|Hki].
    - assert (b = bj) as -> by congruence. by rewrite list_lookup_insert_eq by by rewrite length_insert.
    - destruct (decide (k = j)) as [->|Hkj].
      + assert (b = bi) as -> by congruence. assert (bi ≠ bj) by congruence.
        rewrite list_lookup_insert_ne by done. by apply list_lookup_insert_eq.
      + apply H1 in Hb as Hp. rewrite !list_lookup_insert_ne by congruence. done. }
  split_and!; try done.
  - split; simpl; try done; [intros k b; rewrite Hex; apply Hpos| |by rewrite !length_insert].
    intros b. rewrite <- H2, !list_elem_of_lookup. setoid_rewrite Hex. split.
    + intros [k Hk]. eauto.
    + intros [k Hk]. exists (exchanged i j k). unfold exchanged. repeat case_decide; simplify_eq; done.
  - by rewrite !length_insert.
  - intros k. unfold wt. by rewrite Hex.
Qed.

(** ** Restoring the order *)

Lemma parent_lt i : i ≠ 0 → (i - 1) / 2 < i.
Proof. intros H. apply Nat.Div0.div_lt_upper_bound; lia. Qed.

(** All is in order but at [i], and the children of [i] are not below its
    parent. *)
Record ordered_but m (heap : list nat) (i : nat) : Prop := {
  ob_other : ∀ k, 0 < k < length heap → k ≠ i → ordered_at m heap k;
  ob_grand : ∀ k, 0 < k < length heap → (k - 1) / 2 = i → i ≠ 0 → wt m heap ((i - 1) / 2) ≤ wt m heap k;
}.

Lemma pull_up_ok fuel h m i : heap_wf h m → i < fuel → i < length (heap_index_to_buffer_index h) →
  ordered_but m (heap_index_to_buffer_index h) i →
  ∃ h', pull_up_loop fuel h i = Ret h' ∧ heap_ok h' m.
Proof.
  revert h i. induction fuel as [|fuel IH]; intros h i Hwf Hf Hi [Ho Hg]; [lia|]. cbn [pull_up_loop].
  case_bool_decide as H0.
  { exists h. split; [done|]. split; [done|]. intros k Hk. apply Ho; lia. }
  pose proof (parent_lt i H0) as Hp. set (p := (i - 1) / 2) in *.
  rewrite !(heap_index_to_weight_ret h m) by (done || lia). cbn [mbind outcome_bind]. case_bool_decide as Hle.
  { exists h. split; [done|]. split; [done|]. intros k Hk. destruct (decide (k = i)) as [->|]; [done|by apply Ho]. }
  destruct (heap_swap_ok h m i p Hwf Hi ltac:(lia)) as (h1 & -> & Hwf1 & Hlen & _ & _ & Hwt). cbn [mbind outcome_bind].
  apply IH; [done|lia|lia|]. set (heap := heap_index_to_buffer_index h) in *.
  split; rewrite Hlen; unfold ordered_at; intros k Hk.
  - intros Hkp. rewrite !Hwt. unfold exchanged. destruct (decide (k = i)) as [->|Hki].
    + change ((i - 1) / 2) with p. destruct (decide (p = i)); [lia|]. rewrite decide_True by done. lia.
    + rewrite (decide_False (P := k = p)) by done. destruct (decide ((k - 1) / 2 = i)) as [Hc|Hc].
      * apply Hg; done.
      * destruct (decide ((k - 1) / 2 = p)) as [Hc'|Hc'].
        -- pose proof (Ho k Hk Hki) as Hok. unfold ordered_at in Hok. rewrite Hc' in Hok. lia.
        -- by apply Ho.
  - intros Hkp Hp0. pose proof (Ho p ltac:(lia) ltac:(lia)) as Hop. unfold ordered_at in Hop.
    pose proof (parent_lt p Hp0) as Hpp. rewrite !Hwt. unfold exchanged at 1.
    rewrite (decide_False (P := (p - 1) / 2 = i)) by lia. rewrite (decide_False (P := (p - 1) / 2 = p)) by lia.
    unfold exchanged. destruct (decide (k = i)) as [->|Hki]; [done|].
    rewrite decide_False by (intros ->; pose proof (parent_lt p Hp0); lia).
    etransitivity; [exact Hop|]. pose proof (Ho k Hk Hki) as Hok. unfold ordered_at in Hok. by rewrite Hkp in Hok.
Qed.

(** All is in order but below [i], whose children are not below its parent. *)
Record ordered_above m (heap : list nat) (i : nat) : Prop := {
  oa_other : ∀ k, 0 < k < length heap → (k - 1) / 2 ≠ i → ordered_at m heap k;
  oa_grand : ∀ k, 0 < k < length heap → (k - 1) / 2 = i → i ≠ 0 → wt m heap ((i - 1) / 2) ≤ wt m heap k;
}.

Lemma child_iff k i : 0 < k → (k - 1) / 2 = i ↔ k = 2 * i + 1 ∨ k = 2 * i + 2.
Proof. intros Hk. pose proof (Nat.div_mod_eq (k - 1) 2). pose proof (Nat.mod_upper_bound (k - 1) 2). lia. Qed.

Lemma lighter_child_ret h m c i : heap_wf h m → i < length (heap_index_to_buffer_index h) →
  lighter_child h c i = Ret (if decide (c < length (heap_index_to_buffer_index h) ∧
    wt m (heap_index_to_buffer_index h) c < wt m (heap_index_to_buffer_index h) i) then c else i).
Proof.
  intros Hwf Hi. unfold lighter_child. case_bool_decide as Hc; [|by rewrite decide_False by tauto].
  rewrite !(heap_index_to_weight_ret h m) by done. cbn [mbind outcome_bind]. f_equal. case_bool_decide.
  - by rewrite decide_True.
  - by rewrite decide_False by tauto.
Qed.

Lemma push_down_ok fuel h m i : heap_wf h m → length (heap_index_to_buffer_index h) < fuel + i →
  i < length (heap_index_to_buffer_index h) → ordered_above m (heap_index_to_buffer_index h) i →
  ∃ h', push_down_loop fuel h i = Ret h' ∧ heap_ok h' m.
Proof.
  revert h i. induction fuel as [|fuel IH]; intros h i Hwf Hf Hi [Ho Hg]; [lia|]. cbn [push_down_loop].
  set (heap := heap_index_to_buffer_index h) in *. rewrite (lighter_child_ret h m) by done. cbn [mbind outcome_bind].
  fold heap. set (m1 := if decide _ then 2 * i + 1 else i).
  assert (m1 < length heap) as Hm1 by (unfold m1; case_decide; tauto).
  rewrite (lighter_child_ret h m) by done. cbn [mbind outcome_bind]. fold heap. set (m2 := if decide _ then 2 * i + 2 else m1).
  assert (m2 < length heap ∧ (m2 = i ∨ (m2 - 1) / 2 = i ∧ i < m2 ∧ wt m heap m2 < wt m heap i) ∧
    ∀ k, 0 < k < length heap → (k - 1) / 2 = i → wt m heap m2 ≤ wt m heap k) as (Hm2 & Hcase & Hmin).
  { assert (∀ k, 0 < k < length heap → (k - 1) / 2 = i → k = 2 * i + 1 ∨ k = 2 * i + 2) as Hch.
    { intros k Hk. apply child_iff. lia. }
    split; [unfold m2; case_decide; tauto|]. unfold m2, m1. split.
    - repeat case_decide; try (by left); right; (split; [apply child_iff; lia|]); lia.
    - intros k Hk Hki. destruct (Hch k Hk Hki) as [->| ->]; repeat case_decide; lia. }
  clearbody m2. case_bool_decide as Heq.
  { subst m2. exists h. split; [done|]. split; [done|]. intros k Hk. fold heap in Hk |- *.
    destruct (decide ((k - 1) / 2 = i)) as [Hki|Hki]; [|by apply Ho]. unfold ordered_at. rewrite Hki. by apply Hmin. }
  destruct Hcase as [->|(Hpar & Hlt & Hw)]; [done|].
  destruct (heap_swap_ok h m i m2 Hwf Hi Hm2) as (h1 & -> & Hwf1 & Hlen & _ & _ & Hwt). cbn [mbind outcome_bind].
  apply IH; [done|rewrite Hlen; fold heap; lia|rewrite Hlen; done|]. fold heap in Hlen, Hwt.
  split; rewrite Hlen; unfold ordered_at; intros k Hk Hkm.
  - rewrite !Hwt. unfold exchanged. destruct (decide (k = i)) as [->|Hki].
    + assert (i ≠ 0) by lia. pose proof (parent_lt i ltac:(lia)).
      rewrite (decide_False (P := (i - 1) / 2 = i)) by lia. rewrite (decide_False (P := (i - 1) / 2 = m2)) by done.
      apply Hg; lia.
    + destruct (decide (k = m2)) as [->|Hkm2]; [rewrite decide_True by done; lia|].
      destruct (decide ((k - 1) / 2 = i)) as [Hc|Hc]; [by apply Hmin|].
      rewrite decide_False by done. by apply Ho.
  - intros _. rewrite !Hwt, Hpar. unfold exchanged at 1. rewrite decide_True by done.
    pose proof (parent_lt k ltac:(lia)). unfold exchanged. rewrite (decide_False (P := k = i)) by lia.
    rewrite (decide_False (P := k = m2)) by lia. pose proof (Ho k Hk) as Hok. unfold ordered_at in Hok. rewrite Hkm in Hok.
    apply Hok. lia.
Qed.

(** The heap was in order when the weight at [i] was [w0]. *)
Definition was_ordered m (heap : list nat) (i w0 : nat) : Prop :=
  let old k := if decide (k = i) then w0 else wt m heap k in
  ∀ k, 0 < k < length heap → old ((k - 1) / 2) ≤ old k.

Lemma restore_order_ok h m i w0 : heap_wf h m → i < length (heap_index_to_buffer_index h) →
  was_ordered m (heap_index_to_buffer_index h) i w0 →
  ∃ h', restore_order h i (wt m (heap_index_to_buffer_index h) i) w0 = Ret h' ∧ heap_ok h' m.
Proof.
  intros Hwf Hi Hold. unfold restore_order, pull_up, push_down. set (heap := heap_index_to_buffer_index h) in *.
  unfold was_ordered in Hold.
  assert (∀ k, 0 < k < length heap → k ≠ i → (k - 1) / 2 ≠ i → wt m heap ((k - 1) / 2) ≤ wt m heap k) as Hsame.
  { intros k Hk Hki Hpi. specialize (Hold k Hk). by rewrite !decide_False in Hold. }
  assert (∀ k, 0 < k < length heap → (k - 1) / 2 = i → w0 ≤ wt m heap k) as Hbelow.
  { intros k Hk Hpi. specialize (Hold k Hk). pose proof (parent_lt k ltac:(lia)).
    rewrite decide_True, decide_False in Hold by lia. done. }
  assert (0 < i → wt m heap ((i - 1) / 2) ≤ w0) as Habove.
  { intros H0. specialize (Hold i ltac:(lia)). pose proof (parent_lt i ltac:(lia)).
    rewrite decide_False, decide_True in Hold by lia. done. }
  destruct (Nat.compare_spec (wt m heap i) w0) as [Heq|Hlt|Hgt].
  - exists h. split; [done|]. split; [done|]. intros k Hk. fold heap in Hk |- *. unfold ordered_at.
    destruct (decide (k = i)) as [->|Hki]; [rewrite Heq; apply Habove; lia|].
    destruct (decide ((k - 1) / 2 = i)) as [Hp|Hp]; [rewrite Hp, Heq; by apply Hbelow|by apply Hsame].
  - apply pull_up_ok; [done|lia|done|]. fold heap. split; unfold ordered_at.
    + intros k Hk Hki. destruct (decide ((k - 1) / 2 = i)) as [Hp|Hp]; [|by apply Hsame].
      rewrite Hp. pose proof (Hbelow k Hk Hp). lia.
    + intros k Hk Hp H0. etransitivity; [apply Habove; lia|by apply Hbelow].
  - apply push_down_ok; [done|fold heap; lia|done|]. fold heap. split; unfold ordered_at.
    + intros k Hk Hp. destruct (decide (k = i)) as [->|Hki]; [|by apply Hsame].
      etransitivity; [apply Habove; lia|lia].
    + intros k Hk Hp H0. etransitivity; [apply Habove; lia|by apply Hbelow].
Qed.

Lemma wt_insert m heap b w k : wt (<[b := w]> m) heap k = if decide (heap !! k = Some b) then w else wt m heap k.
Proof.
  unfold wt. case_decide as Hk; [rewrite Hk; simpl; by rewrite lookup_insert_eq|].
  destruct (heap !! k) as [b'|]; [|done]. simpl. by rewrite lookup_insert_ne by congruence.
Qed.

Lemma heap_check_ok h m : heap_ok h m → heap_check h = Ret tt.
Proof.
  intros [Hwf Ho]. pose proof Hwf as [H1 H2 H3 H4 H5]. unfold heap_check, heap_check_force.
  assert (∀ b, b ∈ heap_index_to_buffer_index h → ∃ w, buffer_index_to_weight h !! b = Some (Some w)) as Hin.
  { intros b [w Hw]%H2. exists w. by apply H3. }
  destruct (for_each_ok (λ l ws, ∃ pre, heap_index_to_buffer_index h = pre ++ l ∧ length ws = length (buffer_index_to_weight h) ∧
      ∀ b, b < length ws → ws !! b = if decide (b ∈ pre) then buffer_index_to_weight h !! b else Some None)
    (λ weights b, w ← vec_get (buffer_index_to_weight h) b; vec_set weights b w) (heap_index_to_buffer_index h)
    (replicate (length (buffer_index_to_weight h)) None)) as (ws & -> & pre & Hpre & Hlen & Hws).
  - intros b l ws (pre & Hpre & Hlen & Hws). destruct (Hin b) as [w Hw]; [rewrite Hpre; set_solver|]. rewrite (vec_get_ret _ _ _ Hw).
    cbn [mbind outcome_bind]. apply lookup_lt_Some in Hw as Hb. rewrite vec_set_ret by lia. eexists. split; [done|]. exists (pre ++ [b]).
    split; [by rewrite <- app_assoc|]. rewrite length_insert. split; [done|]. intros k Hk. destruct (decide (k = b)) as [->|Hne].
    + rewrite list_lookup_insert_eq, decide_True by (done || set_solver). done.
    + rewrite list_lookup_insert_ne, Hws by done. destruct (decide (k ∈ pre)), (decide (k ∈ pre ++ [b])); done || set_solver.
  - exists []. split; [done|]. rewrite length_replicate. split; [done|]. intros b Hb. rewrite decide_False by set_solver. by apply lookup_replicate_2.
  - cbn [mbind outcome_bind]. rewrite app_nil_r in Hpre. subst pre. rewrite bool_decide_eq_true_2.
    2: { apply list_eq_same_length with (length ws); [done|done|]. intros b x y Hb Hx. rewrite Hws by done. case_decide as Hd; [congruence|].
         intros [= <-]. destruct x as [w|]; [|done]. apply H3 in Hx. destruct Hd. apply H2. by eexists. }
    cbn [rust_assert mbind outcome_bind].
    assert (∀ i child, i < length (heap_index_to_buffer_index h) → 0 < child → (child - 1) / 2 = i →
      check_child h (wt m (heap_index_to_buffer_index h) i) child = Ret tt) as Hchild.
    { intros i child Hi H0 Hp. unfold check_child. case_bool_decide as Hc; [|done]. rewrite (heap_index_to_weight_ret h m) by done.
      cbn [mbind outcome_bind]. rewrite bool_decide_eq_true_2; [done|]. rewrite <- Hp. by apply Ho. }
    rewrite (for_each_unit _ (seq 0 _)).
    2: { intros i Hi%elem_of_seq. rewrite (heap_index_to_weight_ret h m) by (done || lia). cbn [mbind outcome_bind].
         rewrite !Hchild; [done|lia|lia| |lia|lia|]; symmetry; [apply (Nat.div_unique _ _ _ 0)|apply (Nat.div_unique _ _ _ 1)]; lia. }
    cbn [mbind outcome_bind]. apply for_each_unit. intros [i b] Hib. apply elem_of_lookup_imap in Hib as (k & b' & [= -> ->] & Hb).
    rewrite (vec_get_ret _ _ _ (H1 _ _ Hb)). cbn [mbind outcome_bind]. by rewrite bool_decide_eq_true_2.
Qed.

(** ** What the operations do to the map *)

Lemma weight_map_new_ok : heap_ok weight_map_new ∅.
Proof.
  split; [split; simpl; try done|simpl; intros; lia].
  - intros b. rewrite lookup_empty. split; [by intros ?%elem_of_nil|by intros []].
Qed.

Lemma heap_ok_empty h m : heap_ok h m → weight_map_is_empty h = bool_decide (m = ∅).
Proof.
  intros [[_ H2 _ _ _] _]. apply bool_decide_ext. split.
  - intros Hnil. apply map_eq. intros b. rewrite lookup_empty. apply eq_None_not_Some. rewrite <- H2, Hnil. apply not_elem_of_nil.
  - intros ->. destruct (heap_index_to_buffer_index h) as [|b l]; [done|].
    destruct (proj1 (H2 b)) as [w Hw]; [by left|]. by rewrite lookup_empty in Hw.
Qed.

Lemma root_lightest h m i : heap_ok h m → i < length (heap_index_to_buffer_index h) →
  wt m (heap_index_to_buffer_index h) 0 ≤ wt m (heap_index_to_buffer_index h) i.
Proof.
  intros [_ Ho]. induction (lt_wf i) as [i _ IH]. intros Hi. destruct (decide (i = 0)) as [->|H0]; [done|].
  etransitivity; [apply (IH ((i - 1) / 2)); pose proof (parent_lt i H0); lia|]. apply Ho. lia.
Qed.

Lemma peek_min_ok h m : heap_ok h m → ∃ r, peek_min h = Ret r ∧
  match r with
  | None => m = ∅
  | Some (b, w) => m !! b = Some w ∧ ∀ b' w', m !! b' = Some w' → w ≤ w'
  end.
Proof.
  intros Hok. pose proof (hk_wf h m Hok) as Hwf. unfold peek_min.
  pose proof (heap_ok_empty h m Hok) as He. unfold weight_map_is_empty in He.
  destruct (heap_index_to_buffer_index h) as [|b l] eqn:Hheap.
  { exists None. split; [done|]. symmetry in He. by apply bool_decide_eq_true in He. }
  destruct (heap_wf_lookup h m 0 Hwf) as (b' & w & Hb & Hm & _ & _ & Hwt); [rewrite Hheap; simpl; lia|].
  rewrite Hheap in Hb. injection Hb as <-. rewrite (weight_of_ret h m b w) by done. cbn [mbind outcome_bind].
  eexists. split; [done|]. split; [done|]. intros b' w' Hb'.
  assert (b' ∈ heap_index_to_buffer_index h) as [i Hi]%list_elem_of_lookup by (apply (hw_elem h m Hwf); by eexists).
  pose proof (root_lightest h m i Hok ltac:(by eapply lookup_lt_Some)) as Hle. rewrite Hwt in Hle.
  unfold wt in Hle. rewrite Hi in Hle. simpl in Hle. by rewrite Hb' in Hle.
Qed.

Lemma update_buffer_weight_ok h m b w w0 : heap_ok h m → m !! b = Some w0 →
  ∃ h', update_buffer_weight h b w = Ret h' ∧ heap_ok h' (<[b := w]> m).
Proof.
  intros [Hwf Ho] Hb. unfold update_buffer_weight. rewrite (weight_of_ret h m b w0) by done. cbn [mbind outcome_bind].
  case_bool_decide as Heq.
  { exists h. split; [done|]. rewrite insert_id by congruence. done. }
  pose proof Hwf as [H1 H2 H3 H4 H5].
  assert (b ∈ heap_index_to_buffer_index h) as [i Hi]%list_elem_of_lookup by (apply H2; by eexists).
  pose proof (proj2 (H3 b w0) Hb) as Hwb. apply lookup_lt_Some in Hwb as Hlb. rewrite vec_set_ret by done.
  cbn [mbind outcome_bind]. rewrite (vec_get_ret _ _ _ (H1 _ _ Hi)). cbn [mbind outcome_bind].
  set (h1 := {| h with buffer_index_to_weight := <[b:=Some w]> (buffer_index_to_weight h) |}).
  assert (heap_wf h1 (<[b := w]> m)) as Hwf1.
  { split; simpl; [done| | |by rewrite length_insert|].
    - intros b'. rewrite H2, lookup_insert_is_Some'. split; [by right|]. intros [<-|]; [by eexists|done].
    - intros b' w'. destruct (decide (b' = b)) as [->|Hne].
      + rewrite list_lookup_insert_eq, lookup_insert_eq by done. naive_solver.
      + by rewrite list_lookup_insert_ne, lookup_insert_ne.
    - intros b' w' [[<- _]|[_ Hb']]%lookup_insert_Some; [by eapply H5|by eapply H5]. }
  assert (∀ k, heap_index_to_buffer_index h !! k = Some b ↔ k = i) as Huniq.
  { intros k. split; [|by intros ->]. intros Hk. apply H1 in Hk, Hi. congruence. }
  pose proof (restore_order_ok h1 (<[b:=w]> m) i w0 Hwf1) as Hres.
  assert (wt (<[b:=w]> m) (heap_index_to_buffer_index h1) i = w) as Hwi by (rewrite wt_insert; by rewrite decide_True).
  rewrite Hwi in Hres. destruct Hres as (h' & -> & Hok); [by eapply lookup_lt_Some| |].
  2: { cbn [mbind outcome_bind]. rewrite (heap_check_ok h' (<[b:=w]> m)) by done. by exists h'. }
  intros k Hk. simpl in *.
  assert (∀ x, (if decide (x = i) then w0 else wt (<[b:=w]> m) (heap_index_to_buffer_index h) x) =
    wt m (heap_index_to_buffer_index h) x) as Hold.
  { intros x. rewrite wt_insert. destruct (decide (x = i)) as [->|Hx].
    - unfold wt. rewrite Hi. simpl. by rewrite Hb.
    - rewrite decide_False; [done|]. by rewrite Huniq. }
  rewrite !Hold. by apply Ho.
Qed.

Lemma resize_lookup {A} (l : list A) n x i : i < n → resize l n x !! i = Some (default x (l !! i)).
Proof.
  intros Hi. unfold resize. destruct (decide (i < length l)) as [Hl|Hl].
  - rewrite lookup_app_l by done. by destruct (lookup_lt_is_Some_2 l i Hl) as [y ->].
  - rewrite lookup_app_r, (lookup_ge_None_2 l i) by lia. apply lookup_replicate_2. lia.
Qed.

Lemma resize_lookup_old {A} (l : list A) n x i y : l !! i = Some y → resize l n x !! i = Some y.
Proof. intros Hi. unfold resize. by apply lookup_app_l_Some. Qed.

Lemma insert_buffer_weight_ok h m b w : heap_ok h m → m !! b = None → (N.of_nat b < 65536)%N →
  (N.of_nat (length (heap_index_to_buffer_index h)) < 65536)%N →
  ∃ h', insert_buffer_weight h b w = Ret h' ∧ heap_ok h' (<[b := w]> m).
Proof.
  intros [[H1 H2 H3 H4 H5] Ho] Hb Hu Hlen. unfold insert_buffer_weight. rewrite u16_try_from_ret by done. cbn [mbind outcome_bind].
  assert ((if bool_decide (length (buffer_index_to_weight h) < b + 1)
           then resize (buffer_index_to_heap_index h) (b + 1) 0 else buffer_index_to_heap_index h) =
    resize (buffer_index_to_heap_index h) (b + 1) 0) as ->.
  { case_bool_decide; [done|]. unfold resize. replace (b + 1 - _) with 0 by lia. by rewrite app_nil_r. }
  assert (buffer_index_to_weight h !! b ≫= id = None) as Hnone.
  { destruct (buffer_index_to_weight h !! b) as [[w'|]|] eqn:Hw; [|done..]. apply H3 in Hw. congruence. }
  set (weights := resize (buffer_index_to_weight h) (b + 1) None). set (positions := resize (buffer_index_to_heap_index h) (b + 1) 0).
  assert (weights !! b = Some None) as Hold.
  { unfold weights. rewrite resize_lookup by lia. by destruct (buffer_index_to_weight h !! b) as [[]|]. }
  rewrite (vec_get_ret _ _ _ Hold). cbn [mbind outcome_bind]. apply lookup_lt_Some in Hold as Hlw. rewrite (vec_set_ret weights b (Some w) Hlw).
  cbn [mbind outcome_bind]. rewrite bool_decide_eq_true_2 by done. cbn [rust_assert mbind outcome_bind].
  rewrite u16_try_from_ret by done. cbn [mbind outcome_bind].
  assert (length weights = length positions) as Hwp by (unfold weights, positions, resize; rewrite !length_app, !length_replicate; lia).
  rewrite vec_set_ret by lia. cbn [mbind outcome_bind]. unfold pull_up.
  set (heap := heap_index_to_buffer_index h) in *.
  assert (∀ k x, heap !! k = Some x → x ≠ b) as Hne.
  { intros k x Hk ->. apply list_elem_of_lookup_2, H2 in Hk. rewrite Hb in Hk. by destruct Hk. }
  assert (∀ k, k < length heap → wt (<[b:=w]> m) (heap ++ [b]) k = wt m heap k) as Hwt.
  { intros k Hk. rewrite wt_insert. unfold wt. rewrite lookup_app_l by done. rewrite decide_False; [done|]. intros Hx. by apply (Hne _ _ Hx). }
  destruct (pull_up_ok (S (length heap)) (mkBufferWeightMap (heap ++ [b]) (<[b:=Some w]> weights) (<[b:=length heap]> positions)) (<[b:=w]> m) (length heap))
    as (h' & -> & Hok); [simpl|simpl|simpl|simpl|].
  5: { cbn [mbind outcome_bind]. rewrite (heap_check_ok h' (<[b:=w]> m)) by done. by exists h'. }
  - split; simpl.
    + intros k x Hx. apply lookup_snoc_Some in Hx as [[Hk Hx]|[-> <-]]; [|by apply list_lookup_insert_eq; lia].
      rewrite list_lookup_insert_ne by (symmetry; by eapply Hne). by apply resize_lookup_old, H1.
    + intros x. rewrite elem_of_app, list_elem_of_singleton, H2, lookup_insert_is_Some'. naive_solver.
    + intros x y. destruct (decide (x = b)) as [->|Hx].
      * rewrite list_lookup_insert_eq, lookup_insert_eq by done. naive_solver.
      * rewrite list_lookup_insert_ne, lookup_insert_ne, <- H3 by done. unfold weights. split; [|apply resize_lookup_old].
        unfold resize. rewrite lookup_app_Some. intros [Hy|[_ Hy]]; [done|]. by apply lookup_replicate in Hy as [? _].
    + by rewrite !length_insert.
    + intros x y [[<- _]|[_ Hx]]%lookup_insert_Some; [done|by eapply H5].
  - lia.
  - rewrite length_app. simpl. lia.
  - split; rewrite length_app; cbn [length]; intros k Hk.
    + intros Hkl. pose proof (parent_lt k ltac:(lia)). unfold ordered_at. rewrite !Hwt by lia. apply Ho. lia.
    + intros Hp. pose proof (parent_lt k ltac:(lia)) as Hlt. rewrite Hp in Hlt. unfold heap in *. lia.
Qed.

Lemma heap_truncate_wf h m b last : heap_wf h m → heap_index_to_buffer_index h !! last = Some b →
  S last = length (heap_index_to_buffer_index h) →
  heap_wf {| h with heap_index_to_buffer_index := take last (heap_index_to_buffer_index h);
                    buffer_index_to_weight := <[b := None]> (buffer_index_to_weight h) |} (delete b m) ∧
  ∀ k, k < last → wt (delete b m) (take last (heap_index_to_buffer_index h)) k = wt m (heap_index_to_buffer_index h) k.
Proof.
  intros [H1 H2 H3 H4 H5] Hb Hlast.
  assert (∀ k x, k < last → heap_index_to_buffer_index h !! k = Some x → x ≠ b) as Hne.
  { intros k x Hk Hx ->. apply H1 in Hx, Hb. assert (k = last) by congruence. lia. }
  assert (b < length (buffer_index_to_weight h)) as Hlb.
  { destruct (proj1 (H2 b)) as [w Hw]; [by eapply list_elem_of_lookup_2|]. apply H3 in Hw. by eapply lookup_lt_Some. }
  split; [split; simpl|].
  - intros i x Hx. apply lookup_take_Some in Hx as [Hx _]. by apply H1.
  - intros x. destruct (decide (x = b)) as [->|Hxb].
    + rewrite lookup_delete_eq. split; [|by intros []]. intros [k Hk]%list_elem_of_lookup.
      apply lookup_take_Some in Hk as [Hk Hlt]. exfalso. by eapply Hne.
    + rewrite lookup_delete_ne, <- H2 by done. rewrite !list_elem_of_lookup. split.
      * intros [k Hk]. apply lookup_take_Some in Hk as [Hk _]. eauto.
      * intros [k Hk]. exists k. apply lookup_take_Some. split; [done|]. pose proof (lookup_lt_Some _ _ _ Hk).
        enough (k ≠ last) by lia. intros ->. congruence.
  - intros x y. destruct (decide (x = b)) as [->|Hxb].
    + rewrite list_lookup_insert_eq, lookup_delete_eq by done. done.
    + by rewrite list_lookup_insert_ne, lookup_delete_ne.
  - by rewrite length_insert.
  - intros x y [_ Hx]%lookup_delete_Some. by eapply H5.
  - intros k Hk. unfold wt. rewrite lookup_take_lt by done. destruct (lookup_lt_is_Some_2 (heap_index_to_buffer_index h) k) as [x Hx]; [lia|].
    rewrite Hx. simpl. by rewrite lookup_delete_ne by (symmetry; by eapply Hne).
Qed.

Lemma remove_heap_index_ok h m i b w : heap_ok h m → heap_index_to_buffer_index h !! i = Some b → m !! b = Some w →
  ∃ h', remove_heap_index h i b = Ret h' ∧ heap_ok h' (delete b m).
Proof.
  intros [Hwf Ho] Hi Hb. pose proof Hwf as [H1 H2 H3 H4 H5]. unfold remove_heap_index. rewrite (vec_get_ret _ _ _ Hi). cbn [mbind outcome_bind].
  rewrite (bool_decide_eq_true_2 (b = b)) by done. cbn [rust_assert mbind outcome_bind]. rewrite (vec_get_ret _ _ _ (H1 _ _ Hi)). cbn [mbind outcome_bind].
  rewrite (bool_decide_eq_true_2 (i = i)) by done. cbn [rust_assert mbind outcome_bind]. set (heap := heap_index_to_buffer_index h) in *.
  apply lookup_lt_Some in Hi as Hil. set (last := length heap - 1).
  assert (∃ h1, (if bool_decide (i = last) then Ret h else heap_swap h i last) = Ret h1 ∧ heap_wf h1 m ∧
    length (heap_index_to_buffer_index h1) = length heap ∧ heap_index_to_buffer_index h1 !! last = Some b ∧
    ∀ k, k < last → k ≠ i → wt m (heap_index_to_buffer_index h1) k = wt m heap k) as (h1 & -> & Hwf1 & Hlen1 & Hb1 & Hwt1).
  { case_bool_decide as Heq; [exists h; subst i; done|].
    destruct (heap_swap_ok h m i last Hwf Hil ltac:(fold heap; lia)) as (h1 & Hs & Hwf1 & Hlen1 & _ & Hex & Hwt1).
    exists h1. split_and!; try done.
    - rewrite Hex. unfold exchanged. rewrite decide_False by done. by rewrite decide_True.
    - intros k Hk Hki. rewrite Hwt1. unfold exchanged. rewrite !decide_False by lia. done. }
  cbn [mbind outcome_bind]. rewrite (weight_of_ret h1 m b w) by done. cbn [mbind outcome_bind].
  pose proof (proj2 (hw_weight h1 m Hwf1 b w) Hb) as Hw1. apply lookup_lt_Some in Hw1. rewrite vec_set_ret by done. cbn [mbind outcome_bind].
  destruct (heap_truncate_wf h1 m b last Hwf1 Hb1) as [Hwf2 Hwt2]; [lia|].
  set (h2 := {| h1 with heap_index_to_buffer_index := _; buffer_index_to_weight := _ |}) in *.
  assert (length (heap_index_to_buffer_index h2) = last) as Hlen2 by (simpl; rewrite length_take; lia).
  case_bool_decide as Heq.
  { assert (heap_ok h2 (delete b m)) as Hok2.
    { split; [done|]. rewrite Hlen2. intros k Hk. pose proof (parent_lt k ltac:(lia)).
      unfold ordered_at. simpl. rewrite !Hwt2, !Hwt1 by lia. apply Ho. fold heap. lia. }
    cbn [mbind outcome_bind]. rewrite (heap_check_ok h2 (delete b m)) by done. by exists h2. }
  rewrite (heap_index_to_weight_ret h2 (delete b m)) by (done || lia). cbn [mbind outcome_bind].
  destruct (restore_order_ok h2 (delete b m) i w Hwf2) as (h3 & -> & Hok); [lia| |].
  2: { cbn [mbind outcome_bind]. rewrite (heap_check_ok h3 (delete b m)) by done. by exists h3. }
  intros k Hk. rewrite Hlen2 in Hk. pose proof (parent_lt k ltac:(lia)).
  assert (∀ x, x < last → (if decide (x = i) then w else wt (delete b m) (heap_index_to_buffer_index h2) x) = wt m heap x) as Hold.
  { intros x Hx. case_decide as Hxi.
    - subst x. unfold wt. rewrite Hi. simpl. by rewrite Hb.
    - simpl. by rewrite Hwt2, Hwt1. }
  rewrite !Hold by lia. apply Ho. fold heap. lia.
Qed.

Lemma remove_buffer_weight_ok h m b w : heap_ok h m → m !! b = Some w →
  ∃ h', remove_buffer_weight h b = Ret (h', w) ∧ heap_ok h' (delete b m).
Proof.
  intros Hok Hb. pose proof Hok as [Hwf _]. pose proof Hwf as [H1 H2 H3 H4 H5]. unfold remove_buffer_weight.
  rewrite (weight_of_ret h m b w) by done. cbn [mbind outcome_bind].
  assert (b ∈ heap_index_to_buffer_index h) as [i Hi]%list_elem_of_lookup by (apply H2; by eexists).
  rewrite (vec_get_ret _ _ _ (H1 _ _ Hi)). cbn [mbind outcome_bind]. rewrite u16_try_from_ret by by eapply H5. cbn [mbind outcome_bind].
  destruct (remove_heap_index_ok h m i b w Hok Hi Hb) as (h' & -> & Hok'). by exists h'.
Qed.

Lemma remove_min_ok h m : heap_ok h m → m ≠ ∅ →
  ∃ h' b w, remove_min h = Ret h' ∧ peek_min h = Ret (Some (b, w)) ∧ m !! b = Some w ∧ (∀ b' w', m !! b' = Some w' → w ≤ w') ∧ heap_ok h' (delete b m).
Proof.
  intros Hok Hne. destruct (peek_min_ok h m Hok) as ([[b w]|] & Hp & Hm); [|done]. destruct Hm as [Hb Hmin].
  assert (heap_index_to_buffer_index h !! 0 = Some b) as H0.
  { unfold peek_min in Hp. destruct (heap_index_to_buffer_index h) as [|b' l]; [done|]. by destruct (weight_of h b'); simplify_eq/=. }
  unfold remove_min. rewrite (vec_get_ret _ _ _ H0). cbn [mbind outcome_bind].
  destruct (remove_heap_index_ok h m 0 b w Hok H0 Hb) as (h' & -> & Hok'). by exists h', b, w.
Qed.

Lemma heap_ok_nodup h m : heap_ok h m → NoDup (heap_index_to_buffer_index h).
Proof.
  intros [[H1 _ _ _ _] _]. apply NoDup_alt. intros i j x Hi Hj. apply H1 in Hi, Hj. congruence.
Qed.

Lemma weight_map_enumerate_ok h m : heap_ok h m → ∃ l, weight_map_enumerate h = Ret l ∧ l ≡ₚ map_to_list m.
Proof.
  intros Hok. pose proof (hk_wf h m Hok) as Hwf. pose proof (heap_ok_nodup h m Hok) as Hnd.
  assert (∀ heap, (∀ b, b ∈ heap → is_Some (m !! b)) → ∃ l, enumerate_from h heap = Ret l ∧ l.*1 = heap ∧
    ∀ b w, (b, w) ∈ l → m !! b = Some w) as Hen.
  { induction heap as [|b heap IH]; intros Hin; [exists []; split_and!; [done..|set_solver]|].
    destruct (Hin b) as [w Hw]; [by left|]. destruct IH as (l & Hl & H1 & H2); [intros; apply Hin; by right|].
    cbn [enumerate_from]. rewrite (weight_of_ret h m b w) by done. cbn [mbind outcome_bind]. rewrite Hl. exists ((b, w) :: l).
    split; [done|]. split; [by rewrite fmap_cons, H1|]. intros b' w' [[= -> ->]|Hin']%elem_of_cons; [done|by apply H2]. }
  destruct (Hen (heap_index_to_buffer_index h)) as (l & Hl & H1 & H2); [intros b; by apply (hw_elem h m Hwf)|].
  exists l. split; [done|]. apply NoDup_Permutation.
  - apply (NoDup_fmap_1 fst). by rewrite H1.
  - apply NoDup_map_to_list.
  - intros [b w]. rewrite elem_of_map_to_list. split; [apply H2|]. intros Hb.
    assert (b ∈ l.*1) as ([b' w'] & -> & Hin)%list_elem_of_fmap by (rewrite H1; apply (hw_elem h m Hwf); by eexists).
    apply H2 in Hin as Hb'. simpl in *. congruence.
Qed.

(** The heap is as large as the map. *)
Lemma heap_ok_size h m : heap_ok h m → length (heap_index_to_buffer_index h) = size m.
Proof.
  intros Hok. rewrite <- (size_list_to_set (C := gset nat) (heap_index_to_buffer_index h)) by by eapply heap_ok_nodup.
  rewrite <- (size_dom (D := gset nat)). f_equal. apply set_eq. intros b.
  by rewrite elem_of_list_to_set, elem_of_dom, (hw_elem h m (hk_wf h m Hok)).
Qed.
