(* ===== verification/RaptorRows.v ===== *)
(** * The parameters and rows of the Raptor code

    For every number of source symbols in range the parameters exist and have
    the properties that the code relies on: the moduli are prime, so that the
    elements of a row are distinct, and the generators of rows terminate. *)
From S2P Require Import Prelude RaptorSets RaptorCode.
#[local] Open Scope nat_scope.
#[local] Arguments Nat.div : simpl never.
#[local] Arguments Nat.modulo : simpl never.

(** ** Primes *)

Definition is_prime (p : nat) : Prop := 1 < p ∧ ∀ d, Nat.divide d p → d = 1 ∨ d = p.

Lemma prime_divides_mul p a b : is_prime p → Nat.divide p (a * b) → Nat.divide p a ∨ Nat.divide p b.
Proof.
  intros [H1 Hp] Hd. destruct (Hp (Nat.gcd p a)) as [Hg|Hg]; [apply Nat.gcd_divide_l|..].
  - right. by eapply Nat.gauss.
  - left. rewrite <- Hg. apply Nat.gcd_divide_r.
Qed.

(** Steps of a fixed size visit every residue of a prime once. *)
Lemma walk_inj p a b s t : is_prime p → 0 < a < p → s < p → t < p → (b + s * a) `mod` p = (b + t * a) `mod` p → s = t.
Proof.
  intros Hp Ha.
  assert (∀ s t, s ≤ t → t < p → (b + s * a) `mod` p = (b + t * a) `mod` p → s = t) as Hle.
  { clear s t. intros s t Hst Ht Heq.
    assert (Nat.divide p ((t - s) * a)) as Hd.
    { apply Nat.Lcm0.mod_divide. pose proof (Nat.div_mod_eq (b + s * a) p) as Hs. pose proof (Nat.div_mod_eq (b + t * a) p) as Hd.
      rewrite Heq in Hs. replace ((t - s) * a) with ((((b + t * a) / p) - ((b + s * a) / p)) * p); [apply Nat.Div0.mod_mul|].
      rewrite !Nat.mul_sub_distr_r. lia. }
    destruct (decide (t = s)) as [->|]; [done|].
    apply prime_divides_mul in Hd as [Hd|Hd]; [..|done]; apply Nat.divide_pos_le in Hd; lia. }
  intros Hs Ht Heq. destruct (Nat.le_ge_cases s t) as [H|H]; [by apply Hle|symmetry; by apply Hle].
Qed.

Lemma walk_surj p a b r : is_prime p → 0 < a < p → r < p → ∃ s, s < p ∧ (b + s * a) `mod` p = r.
Proof.
  intros Hp Ha Hr. pose proof Hp as [H1 _]. set (f := λ s, (b + s * a) `mod` p).
  assert (NoDup (f <$> seq 0 p)) as Hnd.
  { apply NoDup_alt. intros i j x Hi Hj. apply list_lookup_fmap_Some in Hi as (s & -> & [Hs Hsl]%lookup_seq).
    apply list_lookup_fmap_Some in Hj as (t & Heq & [Ht Htl]%lookup_seq). simpl in *. subst. by eapply (walk_inj p a b). }
  assert (r ∈ f <$> seq 0 p) as (s & -> & Hs%elem_of_seq)%list_elem_of_fmap; [|exists s; split; [lia|done]].
  assert (seq 0 p ≡ₚ f <$> seq 0 p) as Hperm.
  { symmetry. apply submseteq_length_Permutation; [|by rewrite length_fmap].
    apply NoDup_submseteq; [done|]. intros x (s & -> & _)%list_elem_of_fmap. apply elem_of_seq. unfold f.
    pose proof (Nat.mod_upper_bound (b + s * a) p). lia. }
  rewrite <- Hperm. apply elem_of_seq. lia.
Qed.

(** The table holds primes, in order. *)
Definition no_small_divisor (p : N) : bool :=
  forallb (λ d, (p <=? N.of_nat d)%N || negb (p `mod` N.of_nat d =? 0)%N) (seq 2 90).

Lemma small_primes_check : forallb (λ p, no_small_divisor p && (1 <? p)%N && (p <=? 8419)%N) SMALL_PRIMES = true.
Proof. vm_refl. Qed.

Lemma small_primes_prime p : p ∈ SMALL_PRIMES → is_prime (N.to_nat p) ∧ (p ≤ 8419)%N.
Proof.
  intros Hin. pose proof small_primes_check as Hc. rewrite forallb_forall in Hc. apply list_elem_of_In in Hin.
  specialize (Hc p Hin). apply andb_true_iff in Hc as [[Hc H1]%andb_true_iff H2]. apply N.ltb_lt in H1. apply N.leb_le in H2.
  split; [|done]. split; [lia|]. unfold no_small_divisor in Hc. rewrite forallb_forall in Hc.
  assert (∀ d e, N.to_nat p = d * e → 1 < d → d ≤ e → False) as Hno.
  { intros d e Hp Hd Hde. assert (d ≤ 91) by nia. specialize (Hc d). rewrite in_seq in Hc. specialize (Hc ltac:(lia)).
    apply orb_true_iff in Hc as [Hc|Hc]; [apply N.leb_le in Hc; nia|]. apply negb_true_iff, N.eqb_neq in Hc. apply Hc.
    assert (p = N.of_nat e * N.of_nat d)%N as -> by lia. apply N.Div0.mod_mul. }
  intros d [e He]. destruct (decide (d = 1)) as [|Hd1]; [by left|]. destruct (decide (d = N.to_nat p)) as [|Hdp]; [by right|].
  exfalso. assert (d ≠ 0) by (intros ->; lia). assert (e ≠ 0) by (intros ->; lia). assert (e ≠ 1) by (intros ->; lia).
  destruct (Nat.le_ge_cases d e) as [Hle|Hle]; [apply (Hno d e)|apply (Hno e d)]; lia.
Qed.

Lemma small_primes_sorted : StronglySorted N.le SMALL_PRIMES.
Proof. apply Sorted_StronglySorted; [apply _|]. apply (bool_decide_unpack _). vm_cast_no_check I. Qed.

(** Nothing is missing between them. *)
Fixpoint has_divisor (fuel : nat) (d k : N) : bool :=
  match fuel with O => false | S fuel => if (k `mod` d =? 0)%N then (d <? k)%N else has_divisor fuel (d + 1) k end.
Fixpoint all_composite (n : nat) (k : N) : bool :=
  match n with O => true | S n => if has_divisor 90 2 k then all_composite n (k + 1) else false end.
Fixpoint gaps_composite (next : N) (l : list N) : bool :=
  match l with [] => true | p :: l => if all_composite (N.to_nat (p - next)) next then gaps_composite (p + 1) l else false end.

Lemma has_divisor_composite fuel d k : (1 < d)%N → has_divisor fuel d k = true → ¬ is_prime (N.to_nat k).
Proof.
  revert d. induction fuel as [|fuel IH]; intros d Hd H; [done|]. cbn [has_divisor] in H. destruct (k `mod` d =? 0)%N eqn:E; [|apply (IH (d + 1)%N); [lia|done]].
  apply N.eqb_eq, N.Div0.mod_divides in E as [c Hc]. apply N.ltb_lt in H. intros [_ Hp]. destruct (Hp (N.to_nat d)); [|lia|lia].
  exists (N.to_nat c). lia.
Qed.
Lemma all_composite_spec n k q : all_composite n k = true → (k ≤ q < k + N.of_nat n)%N → ¬ is_prime (N.to_nat q).
Proof.
  revert k. induction n as [|n IH]; intros k H Hq; [lia|]. cbn [all_composite] in H. destruct (has_divisor 90 2 k) eqn:E; [|done].
  destruct (decide (q = k)) as [->|]; [apply (has_divisor_composite 90 2 k); [lia|done]|]. apply (IH (k + 1)%N); [done|lia].
Qed.
Lemma gaps_composite_spec next l q : gaps_composite next l = true → is_prime (N.to_nat q) → (next ≤ q)%N → (∃ p, p ∈ l ∧ (q ≤ p)%N) → q ∈ l.
Proof.
  revert next. induction l as [|p l IH]; intros next H Hq Hn (r & Hr & Hle); [by apply elem_of_nil in Hr|]. cbn [gaps_composite] in H.
  destruct (all_composite (N.to_nat (p - next)) next) eqn:E; [|done]. destruct (N.lt_trichotomy q p) as [Hlt|[->|Hgt]]; [|left|].
  - exfalso. eapply all_composite_spec; [done| |done]. lia.
  - right. apply (IH (p + 1)%N); [done|done|lia|]. apply elem_of_cons in Hr as [->|Hr]; [lia|]. by exists r.
Qed.
Lemma small_primes_complete q : is_prime q → (N.of_nat q ≤ 8419)%N → N.of_nat q ∈ SMALL_PRIMES.
Proof.
  intros Hq Hle. apply (gaps_composite_spec 2); [vm_refl|by rewrite Nat2N.id|destruct Hq; lia|]. exists 8419%N. split; [|done].
  apply list_elem_of_lookup. exists (pred (length SMALL_PRIMES)). vm_refl.
Qed.

(** The least number with a property. *)
Definition least (P : nat → Prop) (n : nat) : Prop := P n ∧ ∀ m, P m → n ≤ m.

(** ** The sequence of the half symbols *)

(** How many of [n] consecutive numbers have a property. *)
Fixpoint count_from (f : N → bool) (n : nat) (i : N) : nat :=
  match n with O => 0 | S n => (if f i then 1 else 0) + count_from f n (i + 1) end.

Lemma count_from_add f a b i : count_from f (a + b) i = count_from f a i + count_from f b (i + N.of_nat a).
Proof.
  revert i. induction a as [|a IH]; intros i; cbn [count_from Nat.add]; [by rewrite N.add_0_r|]. rewrite IH.
  replace (i + N.of_nat (S a))%N with (i + 1 + N.of_nat a)%N by lia. lia.
Qed.

Lemma count_from_ext f g n i k : (∀ j, (j < N.of_nat n)%N → f (i + j)%N = g (k + j)%N) → count_from f n i = count_from g n k.
Proof.
  revert i k. induction n as [|n IH]; intros i k H; [done|]. simpl. f_equal.
  - specialize (H 0%N ltac:(lia)). rewrite !N.add_0_r in H. by rewrite H.
  - apply IH. intros j Hj. rewrite <- !N.add_assoc. apply H. lia.
Qed.

Lemma count_from_rev f n : count_from f n 0 = count_from (λ j, f (N.of_nat n - 1 - j)%N) n 0.
Proof.
  induction n as [|n IH]; [done|]. replace (S n) with (n + 1) at 1 by lia. rewrite count_from_add. cbn [count_from].
  replace (N.of_nat (S n) - 1 - 0)%N with (0 + N.of_nat n)%N by lia. rewrite IH.
  enough (count_from (λ j, f (N.of_nat n - 1 - j)%N) n 0 = count_from (λ j, f (N.of_nat (S n) - 1 - j)%N) n (0 + 1)) by lia.
  apply count_from_ext. intros j Hj. f_equal. lia.
Qed.

Lemma count_ones_double x b : count_ones (2 * x + N.b2n b) = count_ones x + (if b then 1 else 0).
Proof. destruct b, x as [|x]; try done; exact (eq_sym (Nat.add_1_r (pos_ones x))) || exact (eq_sym (Nat.add_0_r (pos_ones x))). Qed.

Lemma count_ones_top n z : (z < 2 ^ N.of_nat n)%N → count_ones (2 ^ N.of_nat n + z) = S (count_ones z).
Proof.
  revert z. induction n as [|n IH]; intros z Hz.
  { assert (z = 0)%N as -> by (simpl in Hz; lia). done. }
  assert (2 ^ N.of_nat (S n) = 2 * 2 ^ N.of_nat n)%N as Hpow by (rewrite Nat2N.inj_succ; apply N.pow_succ_r').
  pose proof (N.div2_odd z) as Hodd. rewrite Hpow in *. rewrite Hodd.
  replace (2 * 2 ^ N.of_nat n + (2 * N.div2 z + N.b2n (N.odd z)))%N
    with (2 * (2 ^ N.of_nat n + N.div2 z) + N.b2n (N.odd z))%N by lia.
  rewrite !count_ones_double, IH; [done|]. destruct (N.odd z); simpl in Hodd; lia.
Qed.

Lemma gray_top n j : (j < 2 ^ N.of_nat n)%N → gray (2 ^ N.of_nat n + j) = (2 ^ N.of_nat n + gray (2 ^ N.of_nat n - 1 - j))%N ∧
  (gray (2 ^ N.of_nat n - 1 - j) < 2 ^ N.of_nat n)%N.
Proof.
  intros Hj. set (t := N.of_nat n) in *.
  assert (∀ x, (x < 2 ^ t → ∀ b, t ≤ b → N.testbit x b = false)%N) as Hhigh.
  { intros x Hx b Hb. destruct (decide (x = 0)%N) as [->|Hx0]; [apply N.bits_0|].
    apply N.bits_above_log2. apply N.log2_lt_pow2 in Hx; lia. }
  assert (∀ x, (x < 2 ^ t)%N → (2 ^ t + x = N.lxor (2 ^ t) x)%N) as Hadd.
  { intros x Hx. symmetry. rewrite N.lxor_comm, N.add_comm. symmetry. apply N.add_nocarry_lxor.
    apply N.bits_inj. intros b. rewrite N.land_spec, N.bits_0. destruct (decide (t ≤ b)%N) as [Hb|Hb].
    - by rewrite (Hhigh x Hx b Hb).
    - rewrite N.pow2_bits_false by lia. apply andb_false_r. }
  set (y := (2 ^ t - 1 - j)%N). assert (y < 2 ^ t)%N as Hy by (unfold y; lia).
  assert (∀ b, (b < t)%N → N.testbit y b = negb (N.testbit j b)) as Hybits.
  { intros b Hb. assert (y = N.lnot j t) as ->; [|by apply N.lnot_spec_low].
    unfold y. destruct (decide (j = 0)%N) as [->|Hj0].
    - rewrite N.sub_0_r. unfold N.lnot. rewrite N.lxor_0_l, N.ones_equiv. lia.
    - rewrite N.lnot_sub_low, N.ones_equiv; [lia|]. apply N.log2_lt_pow2; [lia|done]. }
  assert (∀ x b, N.testbit (gray x) b = xorb (N.testbit x b) (N.testbit x (b + 1))) as Hgray.
  { intros x b. unfold gray. by rewrite N.lxor_spec, N.shiftr_spec'. }
  assert (gray y < 2 ^ t)%N as Hgy.
  { destruct (decide (gray y = 0)%N) as [->|H0]; [pose proof (N.pow_nonzero 2 t ltac:(lia)); lia|].
    apply N.log2_lt_pow2; [lia|]. apply N.nle_gt. intros Hle. apply N.bit_log2 in H0. rewrite Hgray, !Hhigh in H0 by (done || lia). done. }
  split; [|done]. rewrite (Hadd _ Hgy), (Hadd _ Hj). apply N.bits_inj. intros b.
  rewrite N.lxor_spec, !Hgray, !N.lxor_spec.
  destruct (N.lt_trichotomy b t) as [Hb|[->|Hb]].
  - rewrite (N.pow2_bits_false t b), xorb_false_l, xorb_false_l, (Hybits b Hb) by lia.
    destruct (decide (b + 1 < t)%N) as [Hb1|Hb1].
    + rewrite (N.pow2_bits_false t (b + 1)), xorb_false_l, (Hybits (b + 1)%N Hb1) by lia.
      by destruct (N.testbit j b), (N.testbit j (b + 1)).
    + assert (b + 1 = t)%N as -> by lia. rewrite N.pow2_bits_true, (Hhigh j Hj t), (Hhigh y Hy t) by lia.
      by destruct (N.testbit j b).
  - rewrite N.pow2_bits_true, (N.pow2_bits_false t (t + 1)), !Hhigh by (done || lia). done.
  - rewrite !(N.pow2_bits_false t), !Hhigh by (done || lia). done.
Qed.

Fixpoint binom (n k : nat) : nat :=
  match n, k with
  | _, O => 1
  | O, S _ => 0
  | S n, S k => binom n (S k) + binom n k
  end.

(** As many words of a weight as there should be. *)
Lemma gray_count n k : count_from (λ i, bool_decide (count_ones (gray i) = k)) (2 ^ n) 0 = binom n k.
Proof.
  revert k. induction n as [|n IH]; intros k.
  { by destruct k as [|k]. }
  replace (2 ^ S n) with (2 ^ n + 2 ^ n) by (simpl; lia). rewrite count_from_add, IH, N.add_0_l, Nat2N.inj_pow. change (N.of_nat 2) with 2%N.
  assert (∀ j, (j < N.of_nat (2 ^ n))%N → count_ones (gray (2 ^ N.of_nat n + j)) = S (count_ones (gray (2 ^ N.of_nat n - 1 - j)))) as Htop.
  { intros j Hj. rewrite Nat2N.inj_pow in Hj. destruct (gray_top n j Hj) as [-> Hlt]. by apply count_ones_top. }
  destruct k as [|k].
  - assert (count_from (λ i, bool_decide (count_ones (gray i) = 0)) (2 ^ n) (2 ^ N.of_nat n) =
      count_from (λ _, false) (2 ^ n) 0) as ->.
    { apply count_from_ext. intros j Hj. rewrite Htop by done. by rewrite bool_decide_eq_false_2. }
    assert (∀ m i, count_from (λ _, false) m i = 0) as -> by (induction m; simpl; auto). destruct n; done.
  - simpl. f_equal. rewrite <- (IH k), count_from_rev. apply count_from_ext. intros j Hj. rewrite Htop, N.add_0_l, Nat2N.inj_pow by done.
    apply bool_decide_ext. split; [by intros [=]|intros H; by f_equal].
Qed.

Lemma m_next_ok h_prime fuel n i : 0 < count_from (λ i, bool_decide (count_ones (gray i) = h_prime)) n i → n < fuel →
  ∃ m n', m_next fuel h_prime i = Ret (m, i + N.of_nat (n - n'))%N ∧ n' < n ∧
    count_from (λ i, bool_decide (count_ones (gray i) = h_prime)) n i =
      S (count_from (λ i, bool_decide (count_ones (gray i) = h_prime)) n' (i + N.of_nat (n - n'))).
Proof.
  revert n i. induction fuel as [|fuel IH]; intros n i Hc Hf; [lia|]. destruct n as [|n]; [simpl in Hc; lia|].
  simpl in Hc |- *. case_bool_decide as Hg.
  - exists (gray i), n. replace (N.of_nat (S n - n))%N with 1%N by lia. split; [done|]. split; [lia|done].
  - destruct (IH n (i + 1)%N) as (m & n' & Hm & Hn' & Hcount); [lia|lia|]. exists m, n'.
    replace (i + N.of_nat (S n - n'))%N with (i + 1 + N.of_nat (n - n'))%N by lia.
    split; [done|]. split; [lia|]. simpl in *. lia.
Qed.

(** ** Parameters *)

Lemma smallest_prime_ok prime_min : (N.of_nat prime_min ≤ 8419)%N →
  ∃ p, smallest_prime_greater_or_equal prime_min = Ret (Ok p) ∧ (N.of_nat p ≤ 8419)%N ∧ least (λ p, is_prime p ∧ prime_min ≤ p) p.
Proof.
  intros Hmin. set (f := λ i, bool_decide (N.of_nat prime_min ≤ default 0 (SMALL_PRIMES !! i))%N).
  unfold smallest_prime_greater_or_equal.
  destruct (smallest_integer_satisfying_spec 0 (length SMALL_PRIMES)
    (λ pivot, p ← vec_get SMALL_PRIMES pivot; Ret (bool_decide (N.of_nat prime_min ≤ p)%N)) f) as (r & -> & Hr); [lia| | |].
  { intros p [_ Hp]. unfold f. destruct (lookup_lt_is_Some_2 SMALL_PRIMES p Hp) as [x Hx]. by rewrite (vec_get_ret _ _ _ Hx), Hx. }
  { intros p q _ Hpq Hq. unfold f. rewrite !bool_decide_eq_true. destruct (lookup_lt_is_Some_2 SMALL_PRIMES q Hq) as [y Hy].
    destruct (lookup_lt_is_Some_2 SMALL_PRIMES p) as [x Hx]; [lia|]. rewrite Hx, Hy. simpl. intros H.
    destruct (decide (p = q)) as [->|]; [by simplify_eq|].
    pose proof (sorted_lookup _ p q x y small_primes_sorted ltac:(lia) Hx Hy). lia. }
  unfold f in Hr. cbn [mbind outcome_bind]. destruct r as [k|].
  - destruct Hr as (Hk & Hge & Hlt). destruct (lookup_lt_is_Some_2 SMALL_PRIMES k) as [x Hx]; [lia|].
    rewrite (vec_get_ret _ _ _ Hx). rewrite Hx in Hge. apply bool_decide_eq_true in Hge. simpl in Hge. cbn [mbind outcome_bind].
    exists (N.to_nat x). apply list_elem_of_lookup_2 in Hx as Hin. destruct (small_primes_prime x Hin) as [Hp Hle].
    split; [done|]. split; [lia|]. split; [split; [done|lia]|]. intros q [Hqp Hq]. destruct (decide (N.of_nat q ≤ 8419)%N) as [Hq16|]; [|lia].
    destruct (proj1 (list_elem_of_lookup _ _) (small_primes_complete q Hqp Hq16)) as [j Hj]. destruct (decide (j < k)) as [Hjk|Hjk].
    + specialize (Hlt j ltac:(lia)). rewrite Hj in Hlt. apply bool_decide_eq_false in Hlt. simpl in Hlt. lia.
    + destruct (decide (k = j)) as [->|]; [simplify_eq; lia|].
      pose proof (sorted_lookup _ k j x (N.of_nat q) small_primes_sorted ltac:(lia) Hx Hj). lia.
  - exfalso. assert (∃ j, SMALL_PRIMES !! j = Some 8419%N) as [j Hj] by (exists (pred (length SMALL_PRIMES)); vm_refl).
    specialize (Hr j). rewrite Hj in Hr. apply lookup_lt_Some in Hj. specialize (Hr ltac:(lia)). apply bool_decide_eq_false in Hr. done.
Qed.

Lemma determine_x_ok num_source_symbols : (N.of_nat num_source_symbols ≤ 8192)%N →
  ∃ x, determine_x num_source_symbols = Ret (Ok x) ∧ x ≤ 129 ∧ least (λ x, 4 ≤ x ∧ 2 * num_source_symbols ≤ x * (x - 1)) x.
Proof.
  intros HK. set (f := λ x, bool_decide (2 * N.of_nat num_source_symbols ≤ N.of_nat x * (N.of_nat x - 1))%N).
  change (determine_x num_source_symbols) with
    (r ← smallest_integer_satisfying X_MIN (X_MAX + 1) (λ pivot, Ret (f pivot)); Ret (match r with None => Err NoX | Some x => Ok x end)).
  destruct (smallest_integer_satisfying_spec X_MIN (X_MAX + 1) (λ pivot, Ret (f pivot)) f) as (r & -> & Hr);
    [unfold X_MIN, X_MAX; lia|done| |].
  { intros p q _ Hpq _. unfold f. rewrite !bool_decide_eq_true. nia. }
  cbn [mbind outcome_bind]. unfold X_MIN, X_MAX in Hr. destruct r as [x|].
  { destruct Hr as (Hx & Hge & Hlt). unfold f in Hge, Hlt. apply bool_decide_eq_true in Hge. exists x. split; [done|]. split; [lia|]. split; [nia|].
    intros y [Hy4 Hy]. destruct (decide (y < x)) as [Hyx|]; [|lia]. specialize (Hlt y ltac:(lia)). apply bool_decide_eq_false in Hlt. nia. }
  specialize (Hr 129 ltac:(lia)). apply bool_decide_eq_false in Hr. lia.
Qed.

Definition half_capacity (h : nat) : N := N.of_nat (binom h (nat_div_ceil h 2)).

Lemma half_capacity_ok : forallb (λ h, match choose h (nat_div_ceil h 2) with Ret c => bool_decide (c = half_capacity h) | _ => false end &&
  bool_decide (half_capacity h ≤ half_capacity (S h))%N) (seq 5 12) = true ∧ (half_capacity 16 = 12870)%N.
Proof. split; vm_refl. Qed.

Lemma choose_half h : 5 ≤ h < 17 → choose h (nat_div_ceil h 2) = Ret (half_capacity h) ∧ (half_capacity h ≤ half_capacity (S h))%N.
Proof.
  intros Hh. destruct half_capacity_ok as [Hc _]. rewrite forallb_forall in Hc. specialize (Hc h). rewrite in_seq in Hc.
  specialize (Hc ltac:(lia)). apply andb_true_iff in Hc as [H1 H2%bool_decide_eq_true]. split; [|done].
  destruct (choose h (nat_div_ceil h 2)); [|done..]. by apply bool_decide_eq_true in H1 as ->.
Qed.

Lemma determine_num_half_symbols_ok num_source_symbols num_ldpc_symbols :
  (N.of_nat (num_source_symbols + num_ldpc_symbols) ≤ 12870)%N →
  ∃ h, determine_num_half_symbols num_source_symbols num_ldpc_symbols = Ret (Ok h) ∧ h ≤ 16 ∧
    least (λ h, 5 ≤ h ∧ (N.of_nat (num_source_symbols + num_ldpc_symbols) ≤ half_capacity h)%N) h.
Proof.
  intros HK. set (f := λ h, bool_decide (N.of_nat (num_source_symbols + num_ldpc_symbols) ≤ half_capacity h)%N).
  unfold determine_num_half_symbols.
  destruct (smallest_integer_satisfying_spec HALF_MIN (HALF_MAX + 1) (λ pivot, c ← choose pivot (nat_div_ceil pivot 2);
    Ret (bool_decide (N.of_nat (num_source_symbols + num_ldpc_symbols) ≤ c)%N)) f) as (r & -> & Hr);
    unfold HALF_MIN, HALF_MAX in *; [lia| | |].
  { intros p Hp. destruct (choose_half p ltac:(lia)) as [-> _]. done. }
  { intros p q Hp Hpq Hq. unfold f. rewrite !bool_decide_eq_true. induction Hpq as [|q Hpq IH]; [done|]. intros H.
    specialize (IH ltac:(lia) H). pose proof (choose_half q ltac:(lia)) as [_ ?]. lia. }
  cbn [mbind outcome_bind]. destruct r as [h|].
  - exists h. destruct Hr as (Hh & Hcap & Hlt). apply bool_decide_eq_true in Hcap. split; [done|]. split; [lia|]. split; [split; [lia|done]|].
    intros y [Hy5 Hy]. destruct (decide (y < h)) as [Hyh|]; [|lia]. specialize (Hlt y ltac:(lia)). by apply bool_decide_eq_false in Hlt.
  - specialize (Hr 16 ltac:(lia)). apply bool_decide_eq_false in Hr. destruct half_capacity_ok as [_ Hc]. lia.
Qed.

(** What the rest of the code relies on. *)
Record params_ok (p : CodeParameters) : Prop := {
  po_source : 1 ≤ num_source_symbols p ∧ (N.of_nat (num_source_symbols p) ≤ 8192)%N;
  po_ldpc : is_prime (num_ldpc_symbols p) ∧ 5 ≤ num_ldpc_symbols p ≤ 211;
  po_half : 5 ≤ num_half_symbols p ≤ 16;
  po_words : (N.of_nat (num_source_symbols p + num_ldpc_symbols p) ≤ half_capacity (num_half_symbols p))%N;
  po_sum : num_intermediate_symbols p = num_source_symbols p + num_ldpc_symbols p + num_half_symbols p;
  po_prime : is_prime (num_intermediate_symbols_prime p);
  po_prime_le : num_intermediate_symbols p ≤ num_intermediate_symbols_prime p ∧ (N.of_nat (num_intermediate_symbols_prime p) ≤ 8419)%N;
}.

(** What RFC 5053 says of them, for the least numbers of symbols also. *)
Record params_least (p : CodeParameters) : Prop := {
  pl_ldpc : ∃ x, least (λ x, 4 ≤ x ∧ 2 * num_source_symbols p ≤ x * (x - 1)) x ∧
    least (λ s, is_prime s ∧ nat_div_ceil (num_source_symbols p) 100 + x ≤ s) (num_ldpc_symbols p);
  pl_half : least (λ h, 5 ≤ h ∧ num_source_symbols p + num_ldpc_symbols p ≤ binom h (nat_div_ceil h 2)) (num_half_symbols p);
  pl_sum : num_intermediate_symbols p = num_source_symbols p + num_ldpc_symbols p + num_half_symbols p;
  pl_prime : least (λ l, is_prime l ∧ num_intermediate_symbols p ≤ l) (num_intermediate_symbols_prime p);
  pl_index : SYSTEMATIC_INDEX !! (num_source_symbols p - 1) = Some (systematic_index p);
}.

Lemma code_parameters_least k : in_source_range k = true →
  ∃ p, code_parameters_new k = Ret (Ok p) ∧ params_ok p ∧ params_least p ∧ num_source_symbols p = k.
Proof.
  intros Hk. unfold code_parameters_new. rewrite Hk. cbn [negb]. unfold in_source_range, SOURCE_SYMBOLS_MIN, SOURCE_SYMBOLS_MAX in Hk.
  apply andb_true_iff in Hk as [Hk1%bool_decide_eq_true Hk2%bool_decide_eq_true].
  destruct (determine_x_ok k Hk2) as (x & -> & Hx129 & Hx). cbn [try_bind mbind outcome_bind]. pose proof Hx as [[Hx4 _] _].
  assert (1 ≤ nat_div_ceil k 100 ≤ 82) as Hc.
  { unfold nat_div_ceil. pose proof (Nat.div_mod_eq (k + 100 - 1) 100). pose proof (Nat.mod_upper_bound (k + 100 - 1) 100). lia. }
  unfold determine_num_ldpc_symbols.
  destruct (smallest_prime_ok (nat_div_ceil k 100 + x)) as (s & -> & _ & Hs); [lia|]. cbn [try_bind mbind outcome_bind].
  assert (N.of_nat s ≤ 211)%N as Hs211.
  { assert (s ≤ N.to_nat 211); [|lia]. apply Hs. split; [|lia]. apply small_primes_prime, list_elem_of_lookup. exists 46. vm_refl. }
  pose proof Hs as [[Hsp Hsx] _].
  destruct (determine_num_half_symbols_ok k s) as (h & -> & Hh16 & Hh); [lia|]. cbn [try_bind mbind outcome_bind]. pose proof Hh as [[Hh5 Hcap] Hhl].
  destruct (smallest_prime_ok (k + s + h)) as (l & -> & Hlm & Hl); [lia|]. cbn [try_bind mbind outcome_bind]. pose proof Hl as [[Hlp Hll] _].
  assert (length SYSTEMATIC_INDEX = N.to_nat 8192) as Hlen by (rewrite <- (Nat2N.id (length SYSTEMATIC_INDEX)); f_equal; vm_refl).
  unfold determine_systematic_index. destruct (lookup_lt_is_Some_2 SYSTEMATIC_INDEX (k - SOURCE_SYMBOLS_MIN)) as [j Hj].
  { rewrite Hlen. unfold SOURCE_SYMBOLS_MIN. lia. }
  rewrite Hj. clear Hlen. eexists. split; [reflexivity|]. split; [|split; [|reflexivity]]; split;
    cbn [num_source_symbols num_ldpc_symbols num_half_symbols num_intermediate_symbols num_intermediate_symbols_prime systematic_index].
  1-7: clear Hj; done || lia || (split; [done|lia]).
  - exists x. exact (conj Hx Hs).
  - clear Hj. unfold half_capacity in Hcap, Hhl. split; [split; [done|lia]|]. intros m [Hm5 Hm]. apply Hhl. split; [done|lia].
  - reflexivity.
  - exact Hl.
  - exact Hj.
Qed.

Lemma code_parameters_new_ok k : in_source_range k = true → ∃ p, code_parameters_new k = Ret (Ok p) ∧ params_ok p ∧ num_source_symbols p = k.
Proof. intros Hk. destruct (code_parameters_least k Hk) as (p & ? & ? & _ & ?). by exists p. Qed.

(** * The rows of the matrix of the Raptor code

    With parameters that the code computes, the generators of rows terminate
    and every row is a non-empty set of intermediate symbols in order. *)

(** ** Sorting *)

Lemma sorted_of_le l : StronglySorted le l → NoDup l → sorted l.
Proof.
  induction 1 as [|x l _ IH Hx]; intros Hnd; [constructor|]. apply NoDup_cons in Hnd as [Hni Hnd]. constructor; [by apply IH|].
  rewrite Forall_forall in Hx. apply Forall_forall. intros y Hy. specialize (Hx y Hy). assert (x ≠ y) by (by intros ->). lia.
Qed.
Lemma merge_sort_sorted l : NoDup l → sorted (merge_sort le l).
Proof.
  intros Hnd. apply sorted_of_le; [apply (StronglySorted_merge_sort le)|]. by rewrite (merge_sort_Permutation le l).
Qed.
Lemma sorted_filter {A} {R : relation A} (P : A → Prop) `{∀ x, Decision (P x)} l : StronglySorted R l → StronglySorted R (filter P l).
Proof.
  induction 1 as [|x l _ IH Hx]; [constructor|]. rewrite filter_cons. destruct (decide (P x)); [|done]. constructor; [done|].
  rewrite Forall_forall in Hx. apply Forall_forall. intros y [_ Hy]%list_elem_of_filter. by apply Hx.
Qed.
Lemma sorted_seq a n : sorted (seq a n).
Proof.
  revert a. induction n as [|n IH]; intros a; [constructor|]. simpl. constructor; [apply IH|].
  rewrite Forall_forall. intros y Hy%elem_of_seq. lia.
Qed.
Lemma sorted_map {A B} {R : relation A} {Q : relation B} (f : A → B) l :
  (∀ x y, x ∈ l → y ∈ l → R x y → Q (f x) (f y)) → StronglySorted R l → StronglySorted Q (f <$> l).
Proof.
  intros Hf Hs. induction Hs as [|x l _ IH Hx]; [constructor|]. csimpl. constructor; [apply IH; set_solver|].
  rewrite Forall_forall in Hx. apply Forall_forall. intros ? (y & -> & Hy)%list_elem_of_fmap. apply Hf; [set_solver..|by apply Hx].
Qed.
Lemma sorted_app_2 {A} {R : relation A} (l k : list A) : StronglySorted R l → StronglySorted R k →
  (∀ x y, x ∈ l → y ∈ k → R x y) → StronglySorted R (l ++ k).
Proof.
  induction 1 as [|x l _ IH Hx]; intros Hk Hlk; [done|]. simpl. constructor; [apply IH; [done|set_solver]|].
  rewrite Forall_forall in Hx. apply Forall_forall. intros y [Hy|Hy]%elem_of_app; [by apply Hx|apply Hlk; [left|done]].
Qed.
Lemma sorted_bind {A B} {R : relation A} {Q : relation B} (f : A → list B) l : StronglySorted R l → (∀ x, x ∈ l → StronglySorted Q (f x)) →
  (∀ x y a b, R x y → a ∈ f x → b ∈ f y → Q a b) → StronglySorted Q (l ≫= f).
Proof.
  intros Hs Hf Hq. induction Hs as [|x l _ IH Hx]; [constructor|]. csimpl. apply sorted_app_2.
  - apply Hf. left.
  - apply IH. intros y Hy. apply Hf. by right.
  - intros a b Ha (y & Hb & Hy)%list_elem_of_bind. rewrite Forall_forall in Hx. eapply Hq; [by apply Hx|done..].
Qed.

Lemma list_filter_all {A} (P : A → Prop) `{∀ x, Decision (P x)} (l : list A) : (∀ x, x ∈ l → P x) → filter P l = l.
Proof.
  induction l as [|x l IH]; intros Hl; [done|]. rewrite filter_cons_True by (apply Hl; left). f_equal. apply IH. intros y Hy. apply Hl. by right.
Qed.
Lemma list_filter_none {A} (P : A → Prop) `{∀ x, Decision (P x)} (l : list A) : (∀ x, x ∈ l → ¬ P x) → filter P l = [].
Proof.
  induction l as [|x l IH]; intros Hl; [done|]. rewrite filter_cons_False by (apply Hl; left). apply IH. intros y Hy. apply Hl. by right.
Qed.

(** ** Rows of encoded symbols *)

Lemma rand_ok x i m : (m ≠ 0)%N → ∃ v, rand x i m = Ret v ∧ (v < m)%N.
Proof.
  intros Hm. unfold rand.
  assert (∀ y, N.to_nat (N.land y 255) < 256) as Hland.
  { intros y. change 255%N with (N.ones 8). rewrite N.land_ones. pose proof (N.mod_lt y (2 ^ 8) ltac:(done)) as H. change (2 ^ 8)%N with 256%N in *. lia. }
  assert (length V0 = 256) as H0 by vm_refl. assert (length V1 = 256) as H1 by vm_refl.
  destruct (lookup_lt_is_Some_2 V0 (N.to_nat (N.land (x + i) 255))) as [v0 Hv0]; [rewrite H0; apply Hland|].
  destruct (lookup_lt_is_Some_2 V1 (N.to_nat (N.land (N.shiftr x 8 + i) 255))) as [v1 Hv1]; [rewrite H1; apply Hland|].
  rewrite (vec_get_ret _ _ _ Hv0). cbn [mbind outcome_bind]. rewrite (vec_get_ret _ _ _ Hv1). cbn [mbind outcome_bind].
  rewrite bool_decide_eq_false_2 by done. eexists. split; [done|]. by apply N.mod_lt.
Qed.

Lemma deg_ok v : (v < 2 ^ 20)%N → ∃ d, deg v = Ret d ∧ 1 ≤ d ≤ MAX_DEGREE.
Proof.
  intros Hv. unfold deg, MAX_DEGREE. change (2 ^ 20)%N with 1048576%N in Hv.
  repeat match goal with |- context [(v <=? ?k)%N] => destruct (N.leb_spec v k); [eexists; split; [reflexivity|lia]|] end. lia.
Qed.

Lemma trip_ok p esi : params_ok p → (esi < MAX_TRIPLES)%N →
  ∃ d a b, trip p esi = Ret (d, a, b) ∧ 1 ≤ d ≤ MAX_DEGREE ∧ 0 < a < num_intermediate_symbols_prime p ∧ b < num_intermediate_symbols_prime p.
Proof.
  intros Hp Hesi. unfold trip. rewrite bool_decide_eq_true_2 by done. cbn [mbind outcome_bind rust_assert].
  pose proof (po_prime p Hp) as [H1 _].
  set (y := ((_ + esi * _) `mod` 65521)%N). destruct (rand_ok y 0 (2 ^ 20)) as (v & -> & Hv); [done|]. cbn [mbind outcome_bind].
  destruct (deg_ok v Hv) as (d & -> & Hd). cbn [mbind outcome_bind].
  destruct (rand_ok y 1 (N.of_nat (num_intermediate_symbols_prime p) - 1)) as (a & -> & Ha); [lia|]. cbn [mbind outcome_bind].
  destruct (rand_ok y 2 (N.of_nat (num_intermediate_symbols_prime p))) as (b & -> & Hb); [lia|]. cbn [mbind outcome_bind].
  exists d, (N.to_nat (1 + a)), (N.to_nat b). split; [done|]. split; [done|]. lia.
Qed.

Section walk.
Context (p : CodeParameters) (a b : nat).
#[local] Notation P := (num_intermediate_symbols_prime p).
#[local] Notation at_step := (λ s, (b + s * a) `mod` P).
#[local] Notation good := (filter (λ x, x < num_intermediate_symbols p)).

Lemma step_next s : ((b + s * a) `mod` P + a) `mod` P = (b + S s * a) `mod` P.
Proof. rewrite Nat.Div0.add_mod_idemp_l. f_equal. lia. Qed.

Lemma lt_skip_ok fuel s n x rest : good (at_step <$> seq s n) = x :: rest → n < fuel →
  ∃ s' n', lt_skip fuel p a ((b + s * a) `mod` P) = Ret x ∧ x = (b + s' * a) `mod` P ∧ rest = good (at_step <$> seq (S s') n') ∧ n' < n.
Proof.
  revert s n. induction fuel as [|fuel IH]; intros s n Hg Hf; [lia|]. destruct n as [|n]; [done|].
  simpl seq in Hg. rewrite fmap_cons, filter_cons in Hg. cbn [lt_skip]. case_decide as Hs.
  - rewrite (bool_decide_eq_false_2 (num_intermediate_symbols p ≤ _)) by lia. injection Hg as <- <-. exists s, n. split_and!; done || lia.
  - rewrite (bool_decide_eq_true_2 (num_intermediate_symbols p ≤ _)) by lia. rewrite step_next. destruct (IH (S s) n Hg ltac:(lia)) as (s' & n' & -> & -> & -> & ?). exists s', n'. split_and!; done || lia.
Qed.

Lemma lt_walk_ok k s n : k ≤ length (good (at_step <$> seq s n)) → n ≤ P →
  lt_walk k p a ((b + s * a) `mod` P) = Ret (take k (good (at_step <$> seq s n))).
Proof.
  revert s n. induction k as [|k IH]; intros s n Hk Hn; [done|].
  destruct (good (at_step <$> seq s n)) as [|x rest] eqn:Hg; [simpl in Hk; lia|]. simpl in Hk. cbn [lt_walk].
  destruct (lt_skip_ok (S P) s n x rest Hg ltac:(lia)) as (s' & n' & -> & -> & -> & Hn'). cbn [mbind outcome_bind].
  rewrite step_next, (IH (S s') n') by lia. done.
Qed.
End walk.

(** A walk of as many steps as the prime visits everything below it. *)
Lemma walk_perm q a b : is_prime q → 0 < a < q → (λ s, (b + s * a) `mod` q) <$> seq 0 q ≡ₚ seq 0 q.
Proof.
  intros Hq Ha. pose proof Hq as [H1 _].
  assert (NoDup ((λ s, (b + s * a) `mod` q) <$> seq 0 q)) as Hnd.
  { apply NoDup_fmap_2_strong; [|apply NoDup_seq]. intros s t Hs%elem_of_seq Ht%elem_of_seq. by apply walk_inj; [done|lia..]. }
  apply submseteq_length_Permutation; [|by rewrite length_fmap].
  apply NoDup_submseteq; [done|]. intros x (s & -> & _)%list_elem_of_fmap. apply elem_of_seq.
  pose proof (Nat.mod_upper_bound (b + s * a) q). lia.
Qed.

Lemma length_filter_lt l q : l ≤ q → length (filter (λ x, x < l) (seq 0 q)) = l.
Proof.
  intros Hlq. replace q with (l + (q - l)) by lia. rewrite seq_app, filter_app, length_app.
  assert (filter (λ x, x < l) (seq 0 l) = seq 0 l) as ->.
  { apply list_filter_all. intros x Hx%elem_of_seq. lia. }
  assert (filter (λ x, x < l) (seq (0 + l) (q - l)) = []) as ->.
  { apply list_filter_none. intros x Hx%elem_of_seq. lia. }
  rewrite length_seq. simpl. lia.
Qed.

(** A row that the code makes. *)
Record row_ok (p : CodeParameters) (row : OrderedSet) : Prop := {
  row_sorted : sorted row;
  row_nonempty : row ≠ [];
  row_range : ∀ x, x ∈ row → x < num_intermediate_symbols p;
}.

Lemma lt_sequence_op_ok p esi : params_ok p → (esi < MAX_TRIPLES)%N → ∃ row, lt_sequence_op p esi = Ret row ∧ row_ok p row.
Proof.
  intros Hp Hesi. unfold lt_sequence_op.
  rewrite (bool_decide_eq_true_2 (esi < 65536)%N) by (unfold MAX_TRIPLES in Hesi; lia). cbn [mbind outcome_bind rust_assert].
  destruct (trip_ok p esi Hp Hesi) as (d & a & b & -> & Hd & Ha & Hb). cbn [mbind outcome_bind].
  pose proof (po_prime_le p Hp) as [Hle _]. pose proof (po_sum p Hp) as Hsum. pose proof (po_source p Hp) as [HK _].
  set (l := num_intermediate_symbols p) in *. set (q := num_intermediate_symbols_prime p) in *.
  pose proof (walk_perm q a b (po_prime p Hp) Ha) as Hperm.
  assert (length (filter (λ x, x < l) ((λ s, (b + s * a) `mod` q) <$> seq 0 q)) = l) as Hlen.
  { rewrite Hperm. by apply length_filter_lt. }
  pose proof (lt_walk_ok p a b (Nat.min d l) 0 q) as Hwalk. rewrite Nat.mul_0_l, Nat.add_0_r, Nat.mod_small in Hwalk by done.
  rewrite Hwalk by (fold l q; lia). cbn [mbind outcome_bind]. fold l q. eexists. split; [done|].
  set (w := filter _ _) in *.
  assert (NoDup w) as Hw. { apply NoDup_filter. rewrite Hperm. apply NoDup_seq. }
  split.
  - apply merge_sort_sorted. by eapply sublist_NoDup, sublist_take.
  - intros Hnil. apply (f_equal length) in Hnil. rewrite (merge_sort_Permutation le _), length_take in Hnil. simpl in Hnil. lia.
  - intros x Hx. rewrite (merge_sort_Permutation le _) in Hx. apply elem_of_take in Hx as (i & Hx%list_elem_of_lookup_2 & _).
    apply list_elem_of_filter in Hx. tauto.
Qed.

(** ** Constraint rows *)

(** Elements of a row come in the order of columns, and those of a column in
    the order of rows. *)
Definition element_lt (e e' : nat * nat) : Prop := (e.1 = e'.1 → e.2 < e'.2) ∧ (e.2 = e'.2 → e.1 < e'.1).

Definition row_cols (elements : list (nat * nat)) (r : nat) : list nat := snd <$> filter (λ e, e.1 = r) elements.
Definition col_rows (elements : list (nat * nat)) (c : nat) : list nat := fst <$> filter (λ e, e.2 = c) elements.

Lemma row_cols_sorted elements r : StronglySorted element_lt elements → sorted (row_cols elements r).
Proof.
  intros Hs. unfold row_cols. eapply (sorted_map (R := element_lt)); [|by apply sorted_filter].
  intros x y [Hx _]%list_elem_of_filter [Hy _]%list_elem_of_filter [H _]. apply H. congruence.
Qed.
Lemma col_rows_sorted elements c : StronglySorted element_lt elements → sorted (col_rows elements c).
Proof.
  intros Hs. unfold col_rows. eapply (sorted_map (R := element_lt)); [|by apply sorted_filter].
  intros x y [Hx _]%list_elem_of_filter [Hy _]%list_elem_of_filter [_ H]. apply H. congruence.
Qed.
Lemma elem_of_row_cols elements r c : c ∈ row_cols elements r ↔ (r, c) ∈ elements.
Proof.
  unfold row_cols. rewrite list_elem_of_fmap. split.
  - intros ([r' c'] & -> & [Hr H]%list_elem_of_filter). simpl in *. by subst.
  - intros H. exists (r, c). split; [done|]. by apply list_elem_of_filter.
Qed.
Lemma elem_of_col_rows elements r c : r ∈ col_rows elements c ↔ (r, c) ∈ elements.
Proof.
  unfold col_rows. rewrite list_elem_of_fmap. split.
  - intros ([r' c'] & -> & [Hr H]%list_elem_of_filter). simpl in *. by subst.
  - intros H. exists (r, c). split; [done|]. by apply list_elem_of_filter.
Qed.

Lemma row_cols_snoc pre r c i : row_cols (pre ++ [(r, c)]) i = if decide (i = r) then row_cols pre i ++ [c] else row_cols pre i.
Proof.
  unfold row_cols. rewrite filter_app, fmap_app, filter_cons. case_decide as E; simpl in E; case_decide; try congruence.
  - done.
  - simpl. by rewrite app_nil_r.
Qed.
Lemma col_rows_snoc pre r c j : col_rows (pre ++ [(r, c)]) j = if decide (j = c) then col_rows pre j ++ [r] else col_rows pre j.
Proof.
  unfold col_rows. rewrite filter_app, fmap_app, filter_cons. case_decide as E; simpl in E; case_decide; try congruence.
  - done.
  - simpl. by rewrite app_nil_r.
Qed.

(** The rows that the code parameters give, without those of encoded symbols. *)
Definition constraint_rows (p : CodeParameters) (elements : list (nat * nat)) : list (list nat) :=
  row_cols elements <$> seq 0 (num_ldpc_symbols p + num_half_symbols p).

Section constraints.
Context (p : CodeParameters) (Hp : params_ok p).
#[local] Notation K := (num_source_symbols p).
#[local] Notation S' := (num_ldpc_symbols p).
#[local] Notation H' := (num_half_symbols p).

Lemma ldpc_triple_distinct i : let '(b1, b2, b3) := ldpc_triple p i in NoDup [b1; b2; b3] ∧ Forall (λ b, b < S') [b1; b2; b3].
Proof.
  pose proof (po_ldpc p Hp) as [Hs Hs5]. unfold ldpc_triple. set (a := 1 + _ `mod` _).
  assert (0 < a < S') as Ha. { unfold a. pose proof (Nat.mod_upper_bound (i / S') (S' - 1)). lia. }
  set (b := i `mod` S'). assert (b < S') as Hb by (apply Nat.mod_upper_bound; lia).
  assert (b = (b + 0 * a) `mod` S') as E1 by (rewrite Nat.add_0_r; symmetry; by apply Nat.mod_small).
  assert (((b + a) `mod` S') = (b + 1 * a) `mod` S') as E2 by (f_equal; lia).
  assert ((((b + a) `mod` S') + a) `mod` S' = (b + 2 * a) `mod` S') as E3 by (rewrite Nat.Div0.add_mod_idemp_l; f_equal; lia).
  rewrite E3, E2. split; [|repeat constructor; try done; apply Nat.mod_upper_bound; lia].
  rewrite E1 at 1. pose proof (λ s t, walk_inj S' a b s t Hs Ha) as Hinj.
  rewrite !NoDup_cons, !not_elem_of_cons, NoDup_nil. split_and!; try set_solver;
    intros Heq; apply Hinj in Heq; lia.
Qed.

Lemma g_ldpc_sorted : StronglySorted element_lt (g_ldpc p) ∧ ∀ r c, (r, c) ∈ g_ldpc p → r < S' ∧ c < K.
Proof.
  unfold g_ldpc. split.
  - eapply sorted_bind; [apply sorted_seq| |].
    + intros i _. pose proof (ldpc_triple_distinct i) as Hd. destruct (ldpc_triple p i) as [[b1 b2] b3]. destruct Hd as [Hd _].
      eapply (sorted_map (R := lt)); [|by apply merge_sort_sorted]. intros x y _ _ Hxy. split; simpl; lia.
    + intros i j e e' Hij. destruct (ldpc_triple p i) as [[b1 b2] b3], (ldpc_triple p j) as [[c1 c2] c3].
      intros (x & -> & _)%list_elem_of_fmap (y & -> & _)%list_elem_of_fmap. split; simpl; lia.
  - intros r c (i & Hin & Hi%elem_of_seq)%list_elem_of_bind. pose proof (ldpc_triple_distinct i) as Hd.
    destruct (ldpc_triple p i) as [[b1 b2] b3]. destruct Hd as [_ Hd]. apply list_elem_of_fmap in Hin as (x & [= -> ->] & Hx).
    rewrite (merge_sort_Permutation le _) in Hx. rewrite Forall_forall in Hd. split; [by apply Hd|lia].
Qed.

Lemma g_half_loop_ok n i columns : length columns ≤ count_from (λ i, bool_decide (count_ones (gray i) = (H' + 1) / 2)) n i →
  n ≤ 2 ^ H' → sorted columns → ∃ elements, g_half_loop p i columns = Ret elements ∧ StronglySorted element_lt elements ∧
    ∀ r c, (r, c) ∈ elements → r < H' ∧ c ∈ columns.
Proof.
  intros Hc Hn Hs. revert n i Hc Hn. induction Hs as [|j columns Hs IH Hj]; intros n i Hc Hn.
  { exists []. split; [done|]. split; [constructor|set_solver]. }
  cbn [g_half_loop]. destruct (m_next_ok ((H' + 1) / 2) (S (2 ^ H')) n i) as (m & n' & -> & Hn' & Hcount); [simpl in Hc; lia..|].
  cbn [mbind outcome_bind]. destruct (IH n' (i + N.of_nat (n - n'))%N) as (rest & -> & Hrest & Hin); [simpl in Hc; lia..|].
  cbn [mbind outcome_bind]. eexists. split; [done|]. split.
  - apply sorted_app_2; [|done|].
    + eapply (sorted_map (R := lt)); [|apply sorted_filter, sorted_seq]. intros x y _ _ Hxy. split; simpl; lia.
    + intros e [r c] (h & -> & _)%list_elem_of_fmap [_ Hr]%Hin. rewrite Forall_forall in Hj. specialize (Hj c Hr). split; simpl; lia.
  - intros r c [(h & [= -> ->] & [_ Hh%elem_of_seq]%list_elem_of_filter)%list_elem_of_fmap|[? ?]%Hin]%elem_of_app; [split; [lia|left]|].
    split; [done|by right].
Qed.

Lemma g_half_ok : ∃ elements, g_half p = Ret elements ∧ StronglySorted element_lt elements ∧ ∀ r c, (r, c) ∈ elements → r < H' ∧ c < K + S'.
Proof.
  destruct (g_half_loop_ok (2 ^ H') 0 (seq 0 (K + S'))) as (elements & Hg & Hs & Hin); [|done|apply sorted_seq|].
  - rewrite length_seq. rewrite gray_count. pose proof (po_words p Hp) as Hw. unfold half_capacity, nat_div_ceil in Hw.
    replace (H' + 2 - 1) with (H' + 1) in Hw by lia. lia.
  - exists elements. split; [done|]. split; [done|]. intros r c [? ?%elem_of_seq]%Hin. lia.
Qed.

Lemma a_common_ok : ∃ elements, a_common p = Ret elements ∧ StronglySorted element_lt elements ∧
  (∀ r c, (r, c) ∈ elements → r < S' + H' ∧ c < num_intermediate_symbols p) ∧ (∀ r, r < S' + H' → (r, K + r) ∈ elements).
Proof.
  destruct g_half_ok as (half & Hhalf & Hsh & Hinh). destruct g_ldpc_sorted as [Hsl Hinl]. pose proof (po_sum p Hp) as Hsum.
  unfold a_common. rewrite Hhalf. cbn [mbind outcome_bind]. eexists. split; [done|]. split_and!.
  - apply sorted_app_2; [done| |].
    + apply sorted_app_2; [eapply (sorted_map (R := lt)); [|apply sorted_seq]; intros x y _ _ Hxy; split; simpl; lia| |].
      * apply sorted_app_2; [eapply sorted_map; [|done]; intros x y _ _ [? ?]; split; simpl; lia| |].
        -- eapply (sorted_map (R := lt)); [|apply sorted_seq]; intros x y _ _ Hxy; split; simpl; lia.
        -- intros e e' ([r c] & -> & [Hr Hc]%Hinh)%list_elem_of_fmap (i & -> & Hi)%list_elem_of_fmap. split; simpl; lia.
      * intros e e' (i & -> & Hi%elem_of_seq)%list_elem_of_fmap
          [([r c] & -> & [Hr Hc]%Hinh)%list_elem_of_fmap|(j & -> & Hj)%list_elem_of_fmap]%elem_of_app; split; simpl; lia.
    + intros [r c] e' [Hr Hc]%Hinl [(i & -> & Hi%elem_of_seq)%list_elem_of_fmap|
        [([r' c'] & -> & [Hr' Hc']%Hinh)%list_elem_of_fmap|(j & -> & Hj)%list_elem_of_fmap]%elem_of_app]%elem_of_app; split; simpl; lia.
  - intros r c [Hrc%Hinl|[(i & [= -> ->] & Hi%elem_of_seq)%list_elem_of_fmap|
      [([r' c'] & [= -> ->] & Hrc%Hinh)%list_elem_of_fmap|(j & [= -> ->] & Hj%elem_of_seq)%list_elem_of_fmap]%elem_of_app]%elem_of_app]%elem_of_app;
      simpl; lia.
  - intros r Hr. destruct (decide (r < S')) as [Hlt|Hge]; rewrite !elem_of_app, !list_elem_of_fmap.
    + right. left. exists r. split; [done|]. apply elem_of_seq. lia.
    + do 3 right. exists (r - S'). split; [f_equal; lia|]. apply elem_of_seq. lia.
Qed.
End constraints.
