(* ===== verification/RaptorMatrix.v ===== *)
(** * Matrices over GF(2) and Gaussian elimination (monad-raptor/src/matrix)

    Dense matrices (dense_matrix.rs), permutations of rows and columns
    (rc_permutation.rs, rc_swap_matrix.rs), the elimination with each of its
    three strategies (gaussian.rs), and the test for invertibility
    (invert.rs). The closure that is told of the row operations is a function
    on a state that is passed along. [debug_assert!] is an assertion. *)
From S2P Require Import Prelude RaptorSets.
#[local] Open Scope nat_scope.

(** ** dense_matrix.rs *)

Record DenseMatrix := mkDenseMatrix { mat_data : list bool; nrows : nat; ncols : nat }.

Definition mat_from_element (nrows ncols : nat) (elem : bool) : DenseMatrix :=
  mkDenseMatrix (replicate (nrows * ncols) elem) nrows ncols.

Definition mat_from_fn (nrows ncols : nat) (f : nat → nat → outcome bool) : outcome DenseMatrix :=
  data ← mapM (λ i, mapM (λ j, f i j) (seq 0 ncols)) (seq 0 nrows);
  Ret (mkDenseMatrix (mjoin data) nrows ncols).

Definition mat_index (m : DenseMatrix) (i j : nat) : outcome bool := vec_get (mat_data m) (i * ncols m + j).

Definition mat_update (m : DenseMatrix) (i j : nat) (x : bool) : outcome DenseMatrix :=
  data ← vec_set (mat_data m) (i * ncols m + j) x;
  Ret {| m with mat_data := data |}.

(** ** rc_permutation.rs *)

Record RCPermutation := mkRCPermutation { virt_to_phys : list nat; phys_to_virt : list nat }.

Definition perm_new (len : nat) : outcome RCPermutation :=
  len ← u16_try_from len;
  Ret (mkRCPermutation (seq 0 len) (seq 0 len)).

Definition perm_index (p : RCPermutation) (a : nat) : outcome nat := vec_get (virt_to_phys p) a.

Definition perm_swap (p : RCPermutation) (a b : nat) : outcome RCPermutation :=
  v2p ← vec_swap (virt_to_phys p) a b;
  phys_a ← vec_get v2p a;
  phys_b ← vec_get v2p b;
  p2v ← vec_swap (phys_to_virt p) phys_a phys_b;
  Ret (mkRCPermutation v2p p2v).

(** ** rc_swap_matrix.rs *)

Record RCSwapMatrix := mkRCSwapMatrix {
  mat : DenseMatrix;
  row_permutation : RCPermutation;
  column_permutation : RCPermutation;
}.

Definition from_dmatrix (m : DenseMatrix) : outcome RCSwapMatrix :=
  rows ← perm_new (nrows m);
  columns ← perm_new (ncols m);
  Ret (mkRCSwapMatrix m rows columns).

Definition swap_rows (m : RCSwapMatrix) (a b : nat) : outcome RCSwapMatrix :=
  rows ← perm_swap (row_permutation m) a b; Ret {| m with row_permutation := rows |}.
Definition swap_columns (m : RCSwapMatrix) (a b : nat) : outcome RCSwapMatrix :=
  columns ← perm_swap (column_permutation m) a b; Ret {| m with column_permutation := columns |}.

Definition rc_index (m : RCSwapMatrix) (i j : nat) : outcome bool :=
  row ← perm_index (row_permutation m) i;
  column ← perm_index (column_permutation m) j;
  mat_index (mat m) row column.

Definition row_sub_assign (m : RCSwapMatrix) (a b : nat) : outcome RCSwapMatrix :=
  a_phys ← perm_index (row_permutation m) a;
  b_phys ← perm_index (row_permutation m) b;
  d ← for_each (λ d k,
        x ← mat_index d b_phys k;
        y ← mat_index d a_phys k;
        mat_update d a_phys k (xorb y x)) (mat m) (seq 0 (ncols (mat m)));
  Ret {| m with mat := d |}.

Definition to_dmatrix (m : RCSwapMatrix) : outcome DenseMatrix :=
  mat_from_fn (nrows (mat m)) (ncols (mat m)) (rc_index m).

(** ** gaussian.rs *)

Section schedule.
Context {St : Type} (row_operation : St → nat → nat → outcome St)
  (elimination_strategy_fn : RCSwapMatrix → nat → outcome (option (nat * nat))).

(** "Subtract this row from every other row where necessary". *)
Definition eliminate_row (step : nat) (s : RCSwapMatrix * St) (i : nat) : outcome (RCSwapMatrix * St) :=
  let '(a, st) := s in
  if bool_decide (i = step) then Ret (a, st) else
  x ← rc_index a i step;
  if negb x then Ret (a, st) else
  a ← row_sub_assign a i step;
  row ← perm_index (row_permutation a) i;
  by_row ← perm_index (row_permutation a) step;
  st ← row_operation st row by_row;
  Ret (a, st).

(** A failure of the strategy ends the loop. *)
Fixpoint elimination_steps (a : RCSwapMatrix) (st : St) (steps : list nat) : outcome (RCSwapMatrix * St * bool) :=
  match steps with
  | [] => Ret (a, st, true)
  | step :: steps =>
      pivot ← elimination_strategy_fn a step;
      match pivot with
      | None => Ret (a, st, false)
      | Some (row, col) =>
          a ← (if bool_decide (row = step) then Ret a else swap_rows a row step);
          a ← (if bool_decide (col = step) then Ret a else swap_columns a col step);
          '(a, st) ← for_each (eliminate_row step) (a, st) (seq 0 (nrows (mat a)));
          elimination_steps a st steps
      end
  end.

Definition rowwise_elimination_schedule (m : DenseMatrix) (st : St) : outcome (St * bool) :=
  _ ← rust_assert (bool_decide (ncols m ≤ nrows m));
  a ← from_dmatrix m;
  '(a, st, done) ← elimination_steps a st (seq 0 (ncols m));
  if negb done then Ret (st, false) else
  _ ← for_each (λ _ i, for_each (λ _ j, x ← rc_index a i j; rust_assert (bool_decide (x = bool_decide (i = j)))) tt
         (seq 0 (ncols (mat a)))) tt (seq 0 (nrows (mat a)));
  Ret (st, true).
End schedule.

(** "In step 'step', find the first row that has column 'step' set." *)
Fixpoint first_row (a : RCSwapMatrix) (step : nat) (rows : list nat) : outcome (option (nat * nat)) :=
  match rows with
  | [] => Ret None
  | row :: rows => x ← rc_index a row step; if x : bool then Ret (Some (row, step)) else first_row a step rows
  end.
Definition first_row_strategy (a : RCSwapMatrix) (step : nat) : outcome (option (nat * nat)) :=
  first_row a step (seq step (nrows (mat a) - step)).

Definition rowwise_elimination_gaussian {St} (row_operation : St → nat → nat → outcome St) (m : DenseMatrix) (st : St) : outcome (St * bool) :=
  rowwise_elimination_schedule row_operation first_row_strategy m st.

(** The weight of a row over some columns, and its first column. *)
Definition row_scan (a : RCSwapMatrix) (row : nat) (columns : list nat) : outcome (nat * option nat) :=
  for_each (λ s col, x ← rc_index a row col;
              Ret (if x : bool then (S s.1, match s.2 with None => Some col | Some lead => Some lead end) else s)) (0, None) columns.

Definition partial_pivot_row (a : RCSwapMatrix) (step : nat) (best : option (nat * nat)) (row : nat) : outcome (option (nat * nat)) :=
  x ← rc_index a row step;
  if negb x then Ret best else
  '(row_weight, _) ← row_scan a row (seq step (ncols (mat a) - step));
  Ret (match best with
       | Some (_, best_weight) => if bool_decide (row_weight < best_weight) then Some (row, row_weight) else best
       | None => Some (row, row_weight)
       end).
Definition partial_pivot_strategy (a : RCSwapMatrix) (step : nat) : outcome (option (nat * nat)) :=
  best ← for_each (partial_pivot_row a step) None (seq step (nrows (mat a) - step));
  Ret (match best with Some (row, _) => Some (row, step) | None => None end).

Definition rowwise_elimination_gaussian_partial_pivot {St} (row_operation : St → nat → nat → outcome St) (m : DenseMatrix) (st : St) :
    outcome (St * bool) :=
  rowwise_elimination_schedule row_operation partial_pivot_strategy m st.

Definition full_pivot_row (a : RCSwapMatrix) (best : option (nat * nat * nat)) (row : nat) : outcome (option (nat * nat * nat)) :=
  '(weight, lead_column) ← row_scan a row (seq 0 (ncols (mat a)));
  if bool_decide (weight = 0) then Ret best else
  lead_column ← expect lead_column;
  Ret (match best with
       | Some (_, best_weight, _) => if bool_decide (weight < best_weight) then Some (row, weight, lead_column) else best
       | None => Some (row, weight, lead_column)
       end).
Definition full_pivot_strategy (a : RCSwapMatrix) (step : nat) : outcome (option (nat * nat)) :=
  best ← for_each (full_pivot_row a) None (seq step (nrows (mat a) - step));
  Ret (match best with Some (row, _, lead_column) => Some (row, lead_column) | None => None end).

Definition rowwise_elimination_gaussian_full_pivot {St} (row_operation : St → nat → nat → outcome St) (m : DenseMatrix) (st : St) :
    outcome (St * bool) :=
  rowwise_elimination_schedule row_operation full_pivot_strategy m st.

(** ** invert.rs *)

Definition check_invertible (m : DenseMatrix) : outcome bool :=
  '(_, ok) ← rowwise_elimination_gaussian (λ _ _ _, Ret tt) m tt; Ret ok.

(** * Correctness of Gaussian elimination

    The elimination ends, tells the closure of every row operation, and leaves
    a matrix that is reduced as far as its pivots go. *)

(** ** Matrices as functions *)

Definition mat_wf (m : DenseMatrix) : Prop := length (mat_data m) = nrows m * ncols m.
Definition entry (m : DenseMatrix) (i j : nat) : bool := default false (mat_data m !! (i * ncols m + j)).

Lemma index_lt i j r c : i < r → j < c → i * c + j < r * c.
Proof. nia. Qed.
Lemma index_inj i j i' j' c : j < c → j' < c → i * c + j = i' * c + j' → i = i' ∧ j = j'.
Proof. intros Hj Hj' H. assert (i = i') as <- by nia. lia. Qed.

Lemma mat_index_ret m i j : mat_wf m → i < nrows m → j < ncols m → mat_index m i j = Ret (entry m i j).
Proof.
  intros Hwf Hi Hj. unfold mat_index, entry.
  destruct (lookup_lt_is_Some_2 (mat_data m) (i * ncols m + j)) as [x Hx]; [rewrite Hwf; by apply index_lt|].
  by rewrite (vec_get_ret _ _ _ Hx), Hx.
Qed.

Lemma mat_update_ret m i j x : mat_wf m → i < nrows m → j < ncols m →
  ∃ m', mat_update m i j x = Ret m' ∧ mat_wf m' ∧ nrows m' = nrows m ∧ ncols m' = ncols m ∧
    ∀ i' j', j' < ncols m → entry m' i' j' = if decide (i' = i ∧ j' = j) then x else entry m i' j'.
Proof.
  intros Hwf Hi Hj. unfold mat_update. pose proof (index_lt i j _ _ Hi Hj) as Hlt.
  rewrite vec_set_ret by by rewrite Hwf. cbn [mbind outcome_bind]. eexists. split; [done|]. split_and!; [by unfold mat_wf; simpl; rewrite length_insert|done..|].
  intros i' j' Hj'. unfold entry. simpl. case_decide as H.
  - destruct H as [-> ->]. rewrite list_lookup_insert_eq by by rewrite Hwf. done.
  - rewrite list_lookup_insert_ne; [done|]. intros Heq. apply H. apply (index_inj i j i' j' (ncols m)) in Heq as [-> ->]; done.
Qed.

Lemma mat_from_fn_ret r c f (g : nat → nat → bool) : (∀ i j, i < r → j < c → f i j = Ret (g i j)) →
  ∃ m, mat_from_fn r c f = Ret m ∧ mat_wf m ∧ nrows m = r ∧ ncols m = c ∧ ∀ i j, i < r → j < c → entry m i j = g i j.
Proof.
  intros Hf. unfold mat_from_fn. rewrite (mapM_ret _ (λ i, g i <$> seq 0 c)).
  2: { intros i Hi%elem_of_seq. apply mapM_ret. intros j Hj%elem_of_seq. apply Hf; lia. }
  cbn [mbind outcome_bind]. eexists. split; [done|].
  assert (∀ s n, length (mjoin ((λ i, g i <$> seq 0 c) <$> seq s n)) = n * c) as Hlen.
  { intros s n. revert s. induction n as [|n IH]; intros s; [done|]. simpl. rewrite length_app, length_fmap, length_seq, IH. lia. }
  unfold mat_wf, entry. simpl. split; [apply Hlen|]. split; [done|]. split; [done|]. intros i j Hi Hj.
  replace r with (i + S (r - i - 1)) by lia. rewrite seq_app, fmap_app, join_app, lookup_app_r by (rewrite Hlen; lia).
  rewrite Hlen. replace (i * c + j - i * c) with j by lia. simpl.
  rewrite lookup_app_l by (rewrite length_fmap, length_seq; lia). rewrite list_lookup_fmap, lookup_seq_lt by done. done.
Qed.

(** ** Permutations *)

Record perm_ok (p : RCPermutation) (n : nat) : Prop := {
  pm_v2p : length (virt_to_phys p) = n;
  pm_p2v : length (phys_to_virt p) = n;
  pm_inv : ∀ i x, virt_to_phys p !! i = Some x → phys_to_virt p !! x = Some i;
}.

Lemma perm_new_ok n : (N.of_nat n < 65536)%N → ∃ p, perm_new n = Ret p ∧ perm_ok p n.
Proof.
  intros Hn. unfold perm_new. rewrite u16_try_from_ret by done. cbn [mbind outcome_bind]. eexists. split; [done|].
  split; simpl; [by rewrite length_seq..|]. intros i x [-> Hi]%lookup_seq. apply lookup_seq. lia.
Qed.

Lemma perm_index_ok p n i : perm_ok p n → i < n → ∃ x, perm_index p i = Ret x ∧ virt_to_phys p !! i = Some x ∧ x < n.
Proof.
  intros [H1 H2 H3] Hi. destruct (lookup_lt_is_Some_2 (virt_to_phys p) i) as [x Hx]; [by rewrite H1|].
  exists x. unfold perm_index. rewrite (vec_get_ret _ _ _ Hx). split; [done|]. split; [done|]. apply H3, lookup_lt_Some in Hx. lia.
Qed.

Lemma perm_inj p n i j x : perm_ok p n → virt_to_phys p !! i = Some x → virt_to_phys p !! j = Some x → i = j.
Proof. intros [H1 H2 H3] Hi%H3 Hj%H3. congruence. Qed.

Lemma perm_surj p n x : perm_ok p n → x < n → ∃ i, virt_to_phys p !! i = Some x.
Proof.
  intros Hp Hx. apply list_elem_of_lookup.
  assert (seq 0 n ≡ₚ virt_to_phys p) as <-; [|apply elem_of_seq; lia].
  symmetry. apply submseteq_length_Permutation; [|by rewrite length_seq, (pm_v2p p n Hp)].
  apply NoDup_submseteq.
  - apply NoDup_alt. intros i j y. by apply (perm_inj p n).
  - intros y [i Hi]%list_elem_of_lookup. destruct Hp as [H1 H2 H3]. apply H3, lookup_lt_Some in Hi. apply elem_of_seq. lia.
Qed.

Definition swapped (a b i : nat) : nat := if decide (i = a) then b else if decide (i = b) then a else i.

Lemma vec_swap_lookup {A} (l : list A) a b x y i : l !! a = Some x → l !! b = Some y →
  (<[b := x]> (<[a := y]> l)) !! i = l !! swapped a b i.
Proof.
  intros Ha Hb. pose proof (lookup_lt_Some _ _ _ Ha). pose proof (lookup_lt_Some _ _ _ Hb). unfold swapped.
  destruct (decide (i = b)) as [->|Hib].
  - rewrite list_lookup_insert_eq by by rewrite length_insert. case_decide; [by subst|]. done.
  - rewrite list_lookup_insert_ne by done. case_decide as Hia; [subst; by rewrite list_lookup_insert_eq|].
    by rewrite list_lookup_insert_ne.
Qed.

Lemma perm_swap_ok p n a b : perm_ok p n → a < n → b < n →
  ∃ p', perm_swap p a b = Ret p' ∧ perm_ok p' n ∧ ∀ i, virt_to_phys p' !! i = virt_to_phys p !! swapped a b i.
Proof.
  intros Hp Ha Hb. destruct (perm_index_ok p n a Hp Ha) as (x & _ & Hx & Hxn).
  destruct (perm_index_ok p n b Hp Hb) as (y & _ & Hy & Hyn). unfold perm_swap.
  rewrite (vec_swap_ret _ _ _ _ _ Hx Hy). cbn [mbind outcome_bind].
  set (l := <[b := x]> (<[a := y]> (virt_to_phys p))).
  assert (∀ i, l !! i = virt_to_phys p !! swapped a b i) as Hl by (intros i; by apply vec_swap_lookup).
  rewrite (vec_get_ret l a y) by (rewrite Hl; unfold swapped; by rewrite decide_True). cbn [mbind outcome_bind].
  rewrite (vec_get_ret l b x) by (rewrite Hl; unfold swapped; case_decide; [by subst|by rewrite decide_True]). cbn [mbind outcome_bind].
  pose proof (pm_inv p n Hp _ _ Hx) as Hx'. pose proof (pm_inv p n Hp _ _ Hy) as Hy'.
  rewrite (vec_swap_ret _ _ _ _ _ Hy' Hx'). cbn [mbind outcome_bind]. eexists. split; [done|]. split; [|done]. split; simpl.
  - unfold l. by rewrite !length_insert, (pm_v2p p n Hp).
  - by rewrite !length_insert, (pm_p2v p n Hp).
  - intros i z Hz. rewrite Hl in Hz. rewrite (vec_swap_lookup _ _ _ _ _ _ Hy' Hx').
    pose proof (pm_inv p n Hp _ _ Hz) as Hz'. revert Hz Hz'. unfold swapped.
    destruct (decide (i = a)) as [->|Hia]; [|destruct (decide (i = b)) as [->|Hib]]; intros Hz Hz'.
    + assert (z = y) as -> by congruence. by rewrite decide_True by done.
    + assert (z = x) as -> by congruence. destruct (decide (x = y)) as [->|]; [congruence|by rewrite decide_True by done].
    + rewrite decide_False by (intros ->; congruence). rewrite decide_False by (intros ->; congruence). done.
Qed.

(** ** The matrix with its permutations *)

Record rc_ok (a : RCSwapMatrix) (nr nc : nat) : Prop := {
  rc_wf : mat_wf (mat a);
  rc_nrows : nrows (mat a) = nr;
  rc_ncols : ncols (mat a) = nc;
  rc_rows : perm_ok (row_permutation a) nr;
  rc_cols : perm_ok (column_permutation a) nc;
}.

Definition view (a : RCSwapMatrix) (i j : nat) : bool :=
  match virt_to_phys (row_permutation a) !! i, virt_to_phys (column_permutation a) !! j with
  | Some r, Some c => entry (mat a) r c
  | _, _ => false
  end.

Lemma view_entry a i j r c : virt_to_phys (row_permutation a) !! i = Some r → virt_to_phys (column_permutation a) !! j = Some c →
  view a i j = entry (mat a) r c.
Proof. unfold view. by intros -> ->. Qed.

Lemma rc_index_ret a nr nc i j : rc_ok a nr nc → i < nr → j < nc → rc_index a i j = Ret (view a i j).
Proof.
  intros Ha Hi Hj. unfold rc_index.
  destruct (perm_index_ok _ _ i (rc_rows a nr nc Ha) Hi) as (r & -> & Hr & Hrn). cbn [mbind outcome_bind].
  destruct (perm_index_ok _ _ j (rc_cols a nr nc Ha) Hj) as (c & -> & Hc & Hcn). cbn [mbind outcome_bind].
  rewrite (view_entry a i j r c Hr Hc). apply mat_index_ret; [apply (rc_wf a nr nc Ha)|..].
  - by rewrite (rc_nrows a nr nc Ha).
  - by rewrite (rc_ncols a nr nc Ha).
Qed.

Definition row_xor (M : nat → nat → bool) (a b i j : nat) : bool := if decide (i = a) then xorb (M i j) (M b j) else M i j.

Lemma row_xor_loop_ok d nr nc a b : mat_wf d → nrows d = nr → ncols d = nc → a < nr → b < nr → a ≠ b →
  ∃ d', for_each (λ d k, x ← mat_index d b k; y ← mat_index d a k; mat_update d a k (xorb y x)) d (seq 0 nc) = Ret d' ∧
    mat_wf d' ∧ nrows d' = nr ∧ ncols d' = nc ∧ ∀ i j, j < nc → entry d' i j = row_xor (entry d) a b i j.
Proof.
  intros Hwf Hr Hc Ha Hb Hab.
  destruct (for_each_ok (λ l d', mat_wf d' ∧ nrows d' = nr ∧ ncols d' = nc ∧ ∃ k, l = seq k (nc - k) ∧ k ≤ nc ∧
      ∀ i j, j < nc → entry d' i j = if decide (j < k) then row_xor (entry d) a b i j else entry d i j)
    (λ d k, x ← mat_index d b k; y ← mat_index d a k; mat_update d a k (xorb y x)) (seq 0 nc) d) as (d' & -> & H).
  - intros x l d1 (Hwf1 & Hr1 & Hc1 & k & Hl & Hk & He).
    destruct (decide (k = nc)) as [->|]; [by rewrite Nat.sub_diag in Hl|].
    replace (nc - k) with (S (nc - S k)) in Hl by lia. injection Hl as -> ->.
    rewrite mat_index_ret by (done || lia). cbn [mbind outcome_bind]. rewrite mat_index_ret by (done || lia). cbn [mbind outcome_bind].
    destruct (mat_update_ret d1 a k (xorb (entry d1 a k) (entry d1 b k))) as (d2 & -> & Hwf2 & Hr2 & Hc2 & He2); [done|lia..|].
    exists d2. split; [done|]. split; [done|]. split; [lia|]. split; [lia|]. exists (S k). split; [done|]. split; [lia|].
    intros i j Hj. rewrite He2 by lia. rewrite !He by lia. unfold row_xor. rewrite !(decide_False (P := k < k)) by lia.
    destruct (decide (j < k)), (decide (j < S k)); try lia;
      destruct (decide (i = a ∧ j = k)) as [[-> ->]|]; try lia; try done.
    + by rewrite decide_True.
    + rewrite decide_False; [done|]. intros ->. assert (j = k) by lia. naive_solver.
  - split_and!; try done. exists 0. rewrite Nat.sub_0_r. split; [done|]. split; [lia|]. intros i j Hj. by rewrite decide_False by lia.
  - exists d'. split; [done|]. destruct H as (H1 & H2 & H3 & k & Hl & Hk & He). split_and!; try done.
    intros i j Hj. rewrite He by done. rewrite decide_True; [done|]. destruct (nc - k) eqn:E; [lia|done].
Qed.

Lemma row_sub_assign_ok a nr nc i k : rc_ok a nr nc → i < nr → k < nr → i ≠ k →
  ∃ a' r r', row_sub_assign a i k = Ret a' ∧ rc_ok a' nr nc ∧ row_permutation a' = row_permutation a ∧
    virt_to_phys (row_permutation a) !! i = Some r ∧ virt_to_phys (row_permutation a) !! k = Some r' ∧
    (∀ x y, y < nc → entry (mat a') x y = row_xor (entry (mat a)) r r' x y) ∧
    (∀ x y, x < nr → y < nc → view a' x y = row_xor (view a) i k x y).
Proof.
  intros Ha Hi Hk Hik. unfold row_sub_assign.
  destruct (perm_index_ok _ _ i (rc_rows a nr nc Ha) Hi) as (r & -> & Hr & Hrn). cbn [mbind outcome_bind].
  destruct (perm_index_ok _ _ k (rc_rows a nr nc Ha) Hk) as (r' & -> & Hr' & Hrn'). cbn [mbind outcome_bind].
  assert (r ≠ r') as Hne. { intros ->. apply Hik. by eapply perm_inj; [apply (rc_rows a nr nc Ha)|..]. }
  destruct (row_xor_loop_ok (mat a) nr nc r r') as (d & Hd & Hwf & Hrows & Hcols & He); [apply Ha..|done|done|done|].
  rewrite (rc_ncols a nr nc Ha), Hd. cbn [mbind outcome_bind]. eexists _, r, r'. split; [done|]. split; [by split; try apply Ha|].
  split; [done|]. split; [done|]. split; [done|]. split; [done|]. intros x y Hx Hy.
  destruct (perm_index_ok _ _ x (rc_rows a nr nc Ha) Hx) as (px & _ & Hpx & _).
  destruct (perm_index_ok _ _ y (rc_cols a nr nc Ha) Hy) as (py & _ & Hpy & Hpyn).
  erewrite view_entry by (simpl; done). simpl. rewrite He by done. unfold row_xor.
  rewrite (view_entry a x y px py Hpx Hpy), (view_entry a k y r' py Hr' Hpy).
  destruct (decide (x = i)) as [->|Hxi]; [by rewrite decide_True by congruence|].
  rewrite decide_False; [done|]. intros ->. apply Hxi. by eapply perm_inj; [apply (rc_rows a nr nc Ha)|..].
Qed.

Lemma swap_rows_ok a nr nc x y : rc_ok a nr nc → x < nr → y < nr →
  ∃ a', swap_rows a x y = Ret a' ∧ rc_ok a' nr nc ∧ mat a' = mat a ∧ ∀ i j, view a' i j = view a (swapped x y i) j.
Proof.
  intros Ha Hx Hy. unfold swap_rows. destruct (perm_swap_ok _ _ x y (rc_rows a nr nc Ha) Hx Hy) as (p & -> & Hp & Hv).
  cbn [mbind outcome_bind]. eexists. split; [done|]. split; [by split; try apply Ha|]. split; [done|].
  intros i j. unfold view. simpl. by rewrite Hv.
Qed.
Lemma swap_columns_ok a nr nc x y : rc_ok a nr nc → x < nc → y < nc →
  ∃ a', swap_columns a x y = Ret a' ∧ rc_ok a' nr nc ∧ mat a' = mat a ∧ ∀ i j, view a' i j = view a i (swapped x y j).
Proof.
  intros Ha Hx Hy. unfold swap_columns. destruct (perm_swap_ok _ _ x y (rc_cols a nr nc Ha) Hx Hy) as (p & -> & Hp & Hv).
  cbn [mbind outcome_bind]. eexists. split; [done|]. split; [by split; try apply Ha|]. split; [done|].
  intros i j. unfold view. simpl. by rewrite Hv.
Qed.

(** ** The elimination *)

(** The first [s] columns are reduced. *)
Definition reduced (a : RCSwapMatrix) (nr s : nat) : Prop := ∀ i j, i < nr → j < s → view a i j = bool_decide (i = j).

Lemma reduced_row_nonzero a nr s i j : reduced a nr s → s ≤ i < nr → view a i j = true → s ≤ j.
Proof.
  intros Hred Hi Hv. apply Nat.nlt_ge. intros Hj. rewrite (Hred i j) in Hv by lia. apply bool_decide_eq_true in Hv. lia.
Qed.

(** The loop over rows, after it has passed those below [k]. *)
Record eliminating (a : RCSwapMatrix) (nr nc s k : nat) : Prop := {
  el_ok : rc_ok a nr nc;
  el_reduced : reduced a nr s;
  el_pivot : view a s s = true;
  el_column : ∀ i, i < k → i ≠ s → view a i s = false;
}.

Section schedule.
Context {St : Type} (row_operation : St → nat → nat → outcome St) (nr nc : nat)
  (related : St → (nat → nat → bool) → Prop).
Hypothesis operation_ok : ∀ st M M' a b, related st M → a < nr → b < nr → a ≠ b →
  (∃ j, j < nc ∧ M a j = true) → (∃ j, j < nc ∧ M b j = true) →
  (∀ i j, i < nr → j < nc → M' i j = row_xor M a b i j) →
  ∃ st', row_operation st a b = Ret st' ∧ related st' M'.

Lemma eliminate_row_ok a st s k : eliminating a nr nc s k → s < nr → s < nc → k < nr → related st (entry (mat a)) →
  ∃ a' st', eliminate_row row_operation s (a, st) k = Ret (a', st') ∧ eliminating a' nr nc s (S k) ∧ related st' (entry (mat a')).
Proof.
  intros [Ha Hred Hpiv Hcol] Hs Hsc Hk Hrel. cbn [eliminate_row].
  destruct (decide (k = s)) as [->|Hks].
  { rewrite bool_decide_eq_true_2 by done. exists a, st. split; [done|]. split; [|done]. split; try done. intros i Hi Hne. apply Hcol; lia. }
  rewrite (bool_decide_eq_false_2 (k = s)) by done. rewrite (rc_index_ret a nr nc k s) by done. cbn [mbind outcome_bind].
  destruct (view a k s) eqn:Hv; cbn [negb].
  2: { exists a, st. split; [done|]. split; [|done]. split; try done. intros i Hi Hne.
       destruct (decide (i = k)) as [->|]; [done|apply Hcol; lia]. }
  destruct (row_sub_assign_ok a nr nc k s Ha Hk Hs Hks) as (a' & r & r' & -> & Ha' & Hperm & Hr & Hr' & He & Hview).
  cbn [mbind outcome_bind]. rewrite Hperm. unfold perm_index. rewrite (vec_get_ret _ _ _ Hr). cbn [mbind outcome_bind].
  rewrite (vec_get_ret _ _ _ Hr'). cbn [mbind outcome_bind].
  destruct (perm_index_ok _ _ k (rc_rows a nr nc Ha) Hk) as (? & _ & Hr2 & Hrn). simplify_eq.
  destruct (perm_index_ok _ _ s (rc_rows a nr nc Ha) Hs) as (? & _ & Hr2' & Hrn'). simplify_eq.
  destruct (perm_index_ok _ _ s (rc_cols a nr nc Ha) Hsc) as (c & _ & Hc & Hcn).
  destruct (operation_ok st (entry (mat a)) (entry (mat a')) r r') as (st' & -> & Hrel'); try done.
  - intros ->. apply Hks. by eapply perm_inj; [apply (rc_rows a nr nc Ha)|..].
  - exists c. split; [done|]. by rewrite <- (view_entry a k s r c).
  - exists c. split; [done|]. by rewrite <- (view_entry a s s r' c).
  - intros i j _ Hj. by apply He.
  - cbn [mbind outcome_bind]. exists a', st'. split; [done|]. split; [|done]. split; [done|..].
    + intros i j Hi Hj. rewrite Hview by lia. unfold row_xor. case_decide as Hik; [|by apply Hred]. subst i.
      rewrite (Hred k j), (Hred s j), (bool_decide_eq_false_2 (s = j)) by lia. apply xorb_false_r.
    + rewrite Hview by done. unfold row_xor. by rewrite decide_False by done.
    + intros i Hi Hne. rewrite Hview by lia. unfold row_xor. case_decide as Hik; [subst; by rewrite Hv, Hpiv|apply Hcol; lia].
Qed.

Lemma eliminate_rows_ok a st s : eliminating a nr nc s 0 → s < nr → s < nc → related st (entry (mat a)) →
  ∃ a' st', for_each (eliminate_row row_operation s) (a, st) (seq 0 nr) = Ret (a', st') ∧ rc_ok a' nr nc ∧
    reduced a' nr (S s) ∧ related st' (entry (mat a')).
Proof.
  intros Hel Hs Hsc Hrel.
  destruct (for_each_ok (λ l as', ∃ k, l = seq k (nr - k) ∧ k ≤ nr ∧ eliminating as'.1 nr nc s k ∧ related as'.2 (entry (mat as'.1)))
    (eliminate_row row_operation s) (seq 0 nr) (a, st)) as ([a' st'] & -> & k & Hl & Hk & [Ha' Hred' Hp' Hc'] & Hrel').
  - intros x l [a1 st1] (k & Hl & Hk & Hel1 & Hrel1). cbn [fst snd] in *.
    destruct (decide (k = nr)) as [->|]; [by rewrite Nat.sub_diag in Hl|].
    replace (nr - k) with (S (nr - S k)) in Hl by lia. injection Hl as -> ->.
    destruct (eliminate_row_ok a1 st1 s k) as (a' & st' & -> & Hel' & Hrel'); try done; [lia|].
    exists (a', st'). split; [done|]. exists (S k). split; [done|]. split; [lia|done].
  - exists 0. rewrite Nat.sub_0_r. split; [done|]. split; [lia|done].
  - simpl in *. exists a', st'. split; [done|]. split; [done|]. split; [|done].
    assert (k = nr) as -> by (destruct (nr - k) eqn:E; [lia|done]).
    intros i j Hi Hj. destruct (decide (j = s)) as [->|]; [|apply Hred'; lia].
    destruct (decide (i = s)) as [->|]; [by rewrite Hp', bool_decide_eq_true_2|by rewrite Hc', bool_decide_eq_false_2 by done].
Qed.

Context (strategy : RCSwapMatrix → nat → outcome (option (nat * nat))) (stuck : RCSwapMatrix → nat → Prop).
Hypothesis strategy_ok : ∀ a s, rc_ok a nr nc → reduced a nr s → s < nc → ∃ pivot, strategy a s = Ret pivot ∧
  match pivot with
  | Some (row, col) => s ≤ row < nr ∧ s ≤ col < nc ∧ view a row col = true
  | None => stuck a s
  end.

(** Moves the pivot to the diagonal. *)
Lemma swap_pivot_ok a s row col : rc_ok a nr nc → reduced a nr s → s ≤ row < nr → s ≤ col < nc → view a row col = true →
  ∃ a' a'', (if bool_decide (row = s) then Ret a else swap_rows a row s) = Ret a' ∧
    (if bool_decide (col = s) then Ret a' else swap_columns a' col s) = Ret a'' ∧
    mat a'' = mat a ∧ eliminating a'' nr nc s 0.
Proof.
  intros Ha Hred Hrow Hcol Hv.
  assert (∃ a', (if bool_decide (row = s) then Ret a else swap_rows a row s) = Ret a' ∧ rc_ok a' nr nc ∧ mat a' = mat a ∧
    ∀ i j, view a' i j = view a (swapped row s i) j) as (a' & E1 & Ha' & Hm & Hview).
  { destruct (decide (row = s)) as [->|].
    - rewrite bool_decide_eq_true_2 by done. exists a. split_and!; try done. intros i j. unfold swapped. by repeat case_decide; subst.
    - rewrite bool_decide_eq_false_2 by done. apply swap_rows_ok; [done|lia..]. }
  assert (∃ a'', (if bool_decide (col = s) then Ret a' else swap_columns a' col s) = Ret a'' ∧ rc_ok a'' nr nc ∧ mat a'' = mat a' ∧
    ∀ i j, view a'' i j = view a' i (swapped col s j)) as (a'' & E2 & Ha'' & Hm' & Hview').
  { destruct (decide (col = s)) as [->|].
    - rewrite bool_decide_eq_true_2 by done. exists a'. split_and!; try done. intros i j. unfold swapped. by repeat case_decide; subst.
    - rewrite bool_decide_eq_false_2 by done. apply swap_columns_ok; [done|lia..]. }
  exists a', a''. split; [done|]. split; [done|]. split; [congruence|]. split; [done|..].
  - intros i j Hi Hj. rewrite Hview', Hview. unfold swapped at 2. rewrite !decide_False by lia.
    rewrite Hred; [|unfold swapped; repeat case_decide; lia|done]. apply bool_decide_ext. unfold swapped. repeat case_decide; lia.
  - rewrite Hview', Hview. unfold swapped. repeat case_decide; congruence.
  - intros i Hi. lia.
Qed.

Lemma elimination_steps_ok s a st : s ≤ nc → nc ≤ nr → rc_ok a nr nc → reduced a nr s → related st (entry (mat a)) →
  ∃ a' st' ok, elimination_steps row_operation strategy a st (seq s (nc - s)) = Ret (a', st', ok) ∧ rc_ok a' nr nc ∧
    related st' (entry (mat a')) ∧ if ok : bool then reduced a' nr nc else ∃ s', s' < nc ∧ reduced a' nr s' ∧ stuck a' s'.
Proof.
  intros Hs Hnc. remember (nc - s) as n eqn:Hn. revert s a st Hs Hn. induction n as [|n IH]; intros s a st Hs Hn Ha Hred Hrel.
  { exists a, st, true. split; [done|]. assert (s = nc) as -> by lia. done. }
  cbn [seq elimination_steps]. destruct (strategy_ok a s Ha Hred) as (pivot & -> & Hp); [lia|]. cbn [mbind outcome_bind].
  destruct pivot as [[row col]|].
  - destruct Hp as (Hrow & Hcol & Hv). destruct (swap_pivot_ok a s row col) as (a1 & a2 & -> & H2 & Hm & Hel); try done.
    cbn [mbind outcome_bind]. rewrite H2. cbn [mbind outcome_bind]. rewrite (rc_nrows a2 nr nc (el_ok _ _ _ _ _ Hel)).
    destruct (eliminate_rows_ok a2 st s) as (a3 & st3 & -> & Ha3 & Hred3 & Hrel3); [done|lia|lia|by rewrite Hm|].
    cbn [mbind outcome_bind]. apply (IH (S s)); [lia|lia|done..].
  - exists a, st, false. split; [done|]. split; [done|]. split; [done|]. exists s. split; [lia|done].
Qed.

(** The whole schedule: it ends, the closure has followed the matrix, and the
    matrix is reduced up to where the strategy is stuck. *)
Lemma schedule_ok m st : mat_wf m → nrows m = nr → ncols m = nc → nc ≤ nr → (N.of_nat nr < 65536)%N → related st (entry m) →
  ∃ a st' ok, rowwise_elimination_schedule row_operation strategy m st = Ret (st', ok) ∧ rc_ok a nr nc ∧
    related st' (entry (mat a)) ∧ if ok : bool then reduced a nr nc else ∃ s, s < nc ∧ reduced a nr s ∧ stuck a s.
Proof.
  intros Hwf Hr Hc Hle H16 Hrel. unfold rowwise_elimination_schedule. rewrite (bool_decide_eq_true_2 (ncols m ≤ nrows m)) by lia.
  cbn [mbind outcome_bind rust_assert]. unfold from_dmatrix. rewrite Hr, Hc.
  destruct (perm_new_ok nr H16) as (rows & -> & Hrows). cbn [mbind outcome_bind].
  destruct (perm_new_ok nc) as (cols & -> & Hcols); [lia|]. cbn [mbind outcome_bind].
  destruct (elimination_steps_ok 0 (mkRCSwapMatrix m rows cols) st) as (a & st' & ok & Hsteps & Ha & Hrel' & Hres); [lia|done|by split|intros i j; lia|done|].
  rewrite Nat.sub_0_r in Hsteps. rewrite Hsteps. cbn [mbind outcome_bind].
  exists a, st', ok. split; [|done]. destruct ok; [|done]. cbn [negb].
  destruct (for_each_ok (λ l (_ : unit), ∀ i, i ∈ l → i < nr)
    (λ _ i, for_each (λ _ j, x ← rc_index a i j; rust_assert (bool_decide (x = bool_decide (i = j)))) tt (seq 0 (ncols (mat a))))
    (seq 0 (nrows (mat a))) tt) as ([] & -> & _); [| |done].
  - intros i l [] Hin. exists tt. split; [|set_solver].
    destruct (for_each_ok (λ l (_ : unit), ∀ j, j ∈ l → j < nc)
      (λ _ j, x ← rc_index a i j; rust_assert (bool_decide (x = bool_decide (i = j)))) (seq 0 (ncols (mat a))) tt) as ([] & -> & _); [| |done].
    + intros j l' [] Hj. exists tt. split; [|set_solver]. rewrite (rc_index_ret a nr nc) by (done || (apply Hin; left) || (apply Hj; left)).
      cbn [mbind outcome_bind]. rewrite Hres by ((apply Hin; left) || (apply Hj; left)). by rewrite bool_decide_eq_true_2.
    + intros j Hj%elem_of_seq. rewrite (rc_ncols a nr nc Ha) in Hj. lia.
  - intros i Hi%elem_of_seq. rewrite (rc_nrows a nr nc Ha) in Hi. lia.
Qed.
End schedule.

(** ** Strategies *)

Section strategies.
Context (nr nc : nat) (a : RCSwapMatrix) (Ha : rc_ok a nr nc).

(** No row that is left has the column of the step. *)
Definition column_stuck (a : RCSwapMatrix) (s : nat) : Prop := ∀ i, s ≤ i < nr → view a i s = false.
(** All rows that are left are zero. *)
Definition rows_stuck (a : RCSwapMatrix) (s : nat) : Prop := ∀ i j, s ≤ i < nr → j < nc → view a i j = false.

Lemma first_row_ok s rows : s < nc → (∀ i, i ∈ rows → s ≤ i < nr) → ∃ pivot, first_row a s rows = Ret pivot ∧
  match pivot with
  | Some (row, col) => s ≤ row < nr ∧ col = s ∧ view a row col = true
  | None => ∀ i, i ∈ rows → view a i s = false
  end.
Proof.
  intros Hs. induction rows as [|row rows IH]; intros Hin; [by exists None; split; [|set_solver]|]. cbn [first_row].
  pose proof (Hin row ltac:(left)) as Hrow. rewrite (rc_index_ret a nr nc) by (done || lia). cbn [mbind outcome_bind].
  destruct (view a row s) eqn:Hv; [by exists (Some (row, s))|].
  destruct IH as (pivot & -> & Hp); [intros i Hi; apply Hin; by right|]. exists pivot. split; [done|].
  destruct pivot as [[r c]|]; [done|]. intros i [->|Hi]%elem_of_cons; [done|by apply Hp].
Qed.

Lemma first_row_strategy_ok s : s < nc → ∃ pivot, first_row_strategy a s = Ret pivot ∧
  match pivot with
  | Some (row, col) => s ≤ row < nr ∧ s ≤ col < nc ∧ view a row col = true
  | None => column_stuck a s
  end.
Proof.
  intros Hs. unfold first_row_strategy. rewrite (rc_nrows a nr nc Ha).
  destruct (first_row_ok s (seq s (nr - s)) Hs) as (pivot & -> & Hp); [intros i Hi%elem_of_seq; lia|].
  exists pivot. split; [done|]. destruct pivot as [[row col]|]; [naive_solver lia|]. intros i Hi. apply Hp, elem_of_seq. lia.
Qed.

Lemma row_scan_ok row columns : row < nr → (∀ j, j ∈ columns → j < nc) → ∃ weight lead, row_scan a row columns = Ret (weight, lead) ∧
  match lead with
  | Some col => weight ≠ 0 ∧ col < nc ∧ view a row col = true
  | None => weight = 0 ∧ ∀ j, j ∈ columns → view a row j = false
  end.
Proof.
  intros Hrow Hcols. unfold row_scan.
  destruct (for_each_ok (λ l wl, ∃ before, columns = before ++ l ∧
    match wl.2 with
    | Some col => wl.1 ≠ 0 ∧ col < nc ∧ view a row col = true
    | None => wl.1 = 0 ∧ ∀ j, j ∈ before → view a row j = false
    end) (λ s col, x ← rc_index a row col;
              Ret (if x : bool then (S s.1, match s.2 with None => Some col | Some lead => Some lead end) else s)) columns (0, None))
    as ([weight lead] & -> & before & Hb & Hl).
  - intros col l [w lead] (before & -> & Hinv). cbn [fst snd] in *.
    assert (col < nc) as Hcol by (apply Hcols; rewrite elem_of_app; right; left).
    rewrite (rc_index_ret a nr nc) by done. cbn [mbind outcome_bind]. eexists. split; [done|].
    exists (before ++ [col]). split; [by rewrite <- app_assoc|]. destruct (view a row col) eqn:Hv; cbn [fst snd]; destruct lead as [c|]; [by destruct Hinv|by split_and!|done|].
    destruct Hinv as [-> Hinv]. split; [done|]. intros j [Hj|Hj]%elem_of_app; [by apply Hinv|]. by apply list_elem_of_singleton in Hj as ->.
  - exists []. split; [done|]. split; [done|set_solver].
  - exists weight, lead. split; [done|]. rewrite app_nil_r in Hb. by subst.
Qed.

Lemma partial_pivot_strategy_ok s : s < nc → ∃ pivot, partial_pivot_strategy a s = Ret pivot ∧
  match pivot with
  | Some (row, col) => s ≤ row < nr ∧ s ≤ col < nc ∧ view a row col = true
  | None => column_stuck a s
  end.
Proof.
  intros Hs. unfold partial_pivot_strategy. rewrite (rc_nrows a nr nc Ha).
  destruct (for_each_ok (λ l best, ∃ before, seq s (nr - s) = before ++ l ∧
    match best with
    | Some (row, _) => s ≤ row < nr ∧ view a row s = true
    | None => ∀ i, i ∈ before → view a i s = false
    end) (partial_pivot_row a s) (seq s (nr - s)) None) as (best & -> & before & Hb & Hbest).
  - intros row l best (before & Hseq & Hinv).
    assert (s ≤ row < nr) as Hrow. { assert (row ∈ seq s (nr - s)) as ?%elem_of_seq by (rewrite Hseq; set_solver). lia. }
    unfold partial_pivot_row. rewrite (rc_index_ret a nr nc) by (done || lia). cbn [mbind outcome_bind].
    rewrite (cons_middle row before l), app_assoc in Hseq. destruct (view a row s) eqn:Hv; cbn [negb].
    + rewrite (rc_ncols a nr nc Ha). destruct (row_scan_ok row (seq s (nc - s))) as (w & lead & -> & _); [lia|intros j Hj%elem_of_seq; lia|].
      cbn [mbind outcome_bind]. eexists. split; [done|]. exists (before ++ [row]). split; [done|].
      destruct best as [[r w']|]; [case_bool_decide|]; naive_solver.
    + eexists. split; [done|]. exists (before ++ [row]). split; [done|]. destruct best as [[r w']|]; [done|].
      intros i [Hi|Hi%list_elem_of_singleton]%elem_of_app; [by apply Hinv|by subst].
  - exists []. split; [done|set_solver].
  - cbn [mbind outcome_bind]. eexists. split; [done|]. rewrite app_nil_r in Hb. destruct best as [[row w]|]; [naive_solver lia|].
    intros i Hi. apply Hbest. rewrite <- Hb. apply elem_of_seq. lia.
Qed.

Lemma full_pivot_strategy_ok s : reduced a nr s → s < nc → ∃ pivot, full_pivot_strategy a s = Ret pivot ∧
  match pivot with
  | Some (row, col) => s ≤ row < nr ∧ s ≤ col < nc ∧ view a row col = true
  | None => rows_stuck a s
  end.
Proof.
  intros Hred Hs. unfold full_pivot_strategy. rewrite (rc_nrows a nr nc Ha).
  destruct (for_each_ok (λ l best, ∃ before, seq s (nr - s) = before ++ l ∧
    match best with
    | Some (row, _, col) => s ≤ row < nr ∧ col < nc ∧ view a row col = true
    | None => ∀ i j, i ∈ before → j < nc → view a i j = false
    end) (full_pivot_row a) (seq s (nr - s)) None) as (best & -> & before & Hb & Hbest).
  - intros row l best (before & Hseq & Hinv).
    assert (s ≤ row < nr) as Hrow. { assert (row ∈ seq s (nr - s)) as ?%elem_of_seq by (rewrite Hseq; set_solver). lia. }
    unfold full_pivot_row. rewrite (rc_ncols a nr nc Ha).
    destruct (row_scan_ok row (seq 0 nc)) as (w & lead & -> & Hlead); [lia|intros j Hj%elem_of_seq; lia|]. cbn [mbind outcome_bind].
    rewrite (cons_middle row before l), app_assoc in Hseq. destruct lead as [col|].
    + destruct Hlead as (Hw & Hcol & Hv). rewrite (bool_decide_eq_false_2 (w = 0)) by done. cbn [mbind outcome_bind expect].
      eexists. split; [done|]. exists (before ++ [row]). split; [done|].
      destruct best as [[[r w'] c]|]; [case_bool_decide|]; naive_solver.
    + destruct Hlead as [-> Hlead]. rewrite bool_decide_eq_true_2 by done. eexists. split; [done|]. exists (before ++ [row]). split; [done|].
      destruct best as [[[r w'] c]|]; [done|].
      intros i j [Hi|Hi%list_elem_of_singleton]%elem_of_app Hj; [by apply Hinv|]. subst. apply Hlead, elem_of_seq. lia.
  - exists []. split; [done|set_solver].
  - cbn [mbind outcome_bind]. eexists. split; [done|]. rewrite app_nil_r in Hb. destruct best as [[[row w] col]|].
    + destruct Hbest as (Hrow & Hcol & Hv). pose proof (reduced_row_nonzero a nr s row col Hred Hrow Hv). split_and!; done || lia.
    + intros i j Hi Hj. apply Hbest; [|done]. rewrite <- Hb. apply elem_of_seq. lia.
Qed.
End strategies.

(** ** The elimination with the strategy of the decoder *)

Lemma full_pivot_ok {St} (row_operation : St → nat → nat → outcome St) (related : St → (nat → nat → bool) → Prop) nr nc m st :
  (∀ st M M' a b, related st M → a < nr → b < nr → a ≠ b →
    (∃ j, j < nc ∧ M a j = true) → (∃ j, j < nc ∧ M b j = true) →
    (∀ i j, i < nr → j < nc → M' i j = row_xor M a b i j) →
    ∃ st', row_operation st a b = Ret st' ∧ related st' M') →
  mat_wf m → nrows m = nr → ncols m = nc → nc ≤ nr → 0 < nc → (N.of_nat nr < 65536)%N → related st (entry m) →
  ∃ M st' ok, rowwise_elimination_gaussian_full_pivot row_operation m st = Ret (st', ok) ∧ related st' M ∧
    ((∃ i j, i < nr ∧ j < nc ∧ ∀ j', j' < nc → M i j' = bool_decide (j' = j)) ∨ ∃ i, i < nr ∧ ∀ j, j < nc → M i j = false).
Proof.
  intros Hop Hwf Hr Hc Hle H0 H16 Hrel. unfold rowwise_elimination_gaussian_full_pivot.
  destruct (schedule_ok row_operation nr nc related Hop full_pivot_strategy (rows_stuck nr nc)) with (m := m) (st := st)
    as (a & st' & ok & Hs & Ha & Hrel' & Hres); try done.
  { intros a s Ha Hred Hs. by apply full_pivot_strategy_ok. }
  exists (entry (mat a)), st', ok. split; [done|]. split; [done|].
  assert (∀ j, j < nc → ∃ j', j' < nc ∧ virt_to_phys (column_permutation a) !! j' = Some j) as Hcol.
  { intros j Hj. destruct (perm_surj _ _ j (rc_cols a nr nc Ha) Hj) as [j' Hj']. exists j'. split; [|done].
    rewrite <- (pm_v2p _ _ (rc_cols a nr nc Ha)). by apply lookup_lt_Some in Hj'. }
  destruct ok.
  - left. destruct (perm_index_ok _ _ 0 (rc_rows a nr nc Ha)) as (r & _ & Hr0 & Hrn); [lia|].
    destruct (perm_index_ok _ _ 0 (rc_cols a nr nc Ha)) as (c & _ & Hc0 & Hcn); [lia|].
    exists r, c. split; [done|]. split; [done|]. intros j Hj. destruct (Hcol j Hj) as (j' & Hj' & Hvj).
    rewrite <- (view_entry a 0 j' r j) by done. rewrite Hres by lia. apply bool_decide_ext. split; [intros <-; congruence|].
    intros ->. by eapply perm_inj; [apply (rc_cols a nr nc Ha)|..].
  - right. destruct Hres as (s & Hs' & _ & Hstuck). destruct (perm_index_ok _ _ s (rc_rows a nr nc Ha)) as (r & _ & Hr0 & Hrn); [lia|].
    exists r. split; [done|]. intros j Hj. destruct (Hcol j Hj) as (j' & Hj' & Hvj). rewrite <- (view_entry a s j' r j) by done.
    apply Hstuck; lia.
Qed.

(** ** Invertibility *)

Definition row_set (M : nat → nat → bool) (nc i : nat) : list nat := filter (λ j, M i j = true) (seq 0 nc).
Definition in_kernel (M : nat → nat → bool) (nr nc : nat) (x : nat → bool) : Prop := ∀ i, i < nr → xsum x (row_set M nc i) = false.

Lemma row_set_xor M M' a b nr nc i x : (∀ i j, i < nr → j < nc → M' i j = row_xor M a b i j) → i < nr →
  xsum x (row_set M' nc i) = if decide (i = a) then xop (xsum x (row_set M nc a)) (xsum x (row_set M nc b)) else xsum x (row_set M nc i).
Proof.
  intros HM Hi. case_decide as Hia.
  - subst i. apply xsum_symdiff; try done; try apply NoDup_filter, NoDup_seq. intros j. unfold row_set.
    rewrite !list_elem_of_filter, !elem_of_seq. destruct (decide (j < nc)) as [Hj|Hj]; [|naive_solver lia].
    rewrite HM by done. unfold row_xor. rewrite decide_True by done. destruct (M a j), (M b j); simpl; naive_solver.
  - apply xsum_perm, NoDup_Permutation; [apply NoDup_filter, NoDup_seq..|]. intros j. unfold row_set.
    rewrite !list_elem_of_filter, !elem_of_seq. destruct (decide (j < nc)) as [Hj|Hj]; [|naive_solver lia].
    rewrite HM by done. unfold row_xor. by rewrite decide_False by done.
Qed.

Lemma in_kernel_xor M M' a b nr nc x : (∀ i j, i < nr → j < nc → M' i j = row_xor M a b i j) → a < nr → b < nr → a ≠ b →
  in_kernel M' nr nc x ↔ in_kernel M nr nc x.
Proof.
  intros HM Ha Hb Hab. split; intros H i Hi.
  - destruct (decide (i = a)) as [->|Hia].
    + pose proof (H a Ha) as H1. pose proof (H b Hb) as H2. rewrite (row_set_xor M M' a b nr) in H1 by done. rewrite (row_set_xor M M' a b nr) in H2 by done.
      rewrite decide_True in H1 by done. rewrite decide_False in H2 by done. rewrite H2 in H1. cbn in H1. by destruct (xsum x (row_set M nc a)).
    + specialize (H i Hi). rewrite (row_set_xor M M' a b nr) in H by done. by rewrite decide_False in H.
  - rewrite (row_set_xor M M' a b nr) by done. case_decide as Hia; [|by apply H]. by rewrite !H.
Qed.

(** A column without a pivot gives a solution. *)
Lemma stuck_kernel a nr nc s : rc_ok a nr nc → reduced a nr s → s < nc → nc ≤ nr → column_stuck nr a s →
  ∃ x j, in_kernel (entry (mat a)) nr nc x ∧ j < nc ∧ x j = true.
Proof.
  intros Ha Hred Hs Hle Hstuck. destruct (perm_index_ok _ _ s (rc_cols a nr nc Ha) Hs) as (c & _ & Hc & Hcn).
  set (phys := λ j, default 0 (virt_to_phys (column_permutation a) !! j)).
  assert (∀ j, j < nc → virt_to_phys (column_permutation a) !! j = Some (phys j) ∧ phys j < nc) as Hphys.
  { intros j Hj. destruct (perm_index_ok _ _ j (rc_cols a nr nc Ha) Hj) as (y & _ & Hy & Hyn). unfold phys. by rewrite Hy. }
  assert (∀ i j, i < nc → j < nc → phys i = phys j → i = j) as Hinj.
  { intros i j [Hi _]%Hphys [Hj _]%Hphys Heq. rewrite Heq in Hi. by eapply perm_inj; [apply (rc_cols a nr nc Ha)|..]. }
  set (virt := s :: filter (λ j, view a j s = true) (seq 0 s)). set (supp := phys <$> virt).
  assert (∀ j, j ∈ virt → j < nc) as Hvirt.
  { intros j [->|[_ Hj%elem_of_seq]%list_elem_of_filter]%elem_of_cons; lia. }
  assert (NoDup supp) as Hnd.
  { apply NoDup_fmap_2_strong; [intros i j Hi%Hvirt Hj%Hvirt; by apply Hinj|]. unfold virt. constructor; [|apply NoDup_filter, NoDup_seq].
    rewrite list_elem_of_filter, elem_of_seq. lia. }
  exists (λ j, bool_decide (j ∈ supp)), (phys s). split; [|split; [by apply Hphys|apply bool_decide_eq_true; unfold supp, virt; set_solver]].
  intros r Hr. destruct (perm_surj _ _ r (rc_rows a nr nc Ha) Hr) as [i Hi].
  assert (i < nr) as Hin by (rewrite <- (pm_v2p _ _ (rc_rows a nr nc Ha)); by apply lookup_lt_Some in Hi).
  rewrite xsum_swap; [|apply NoDup_filter, NoDup_seq|done].
  assert (∀ l, (∀ j, j ∈ l → j < nc) → xsum (λ j, bool_decide (j ∈ row_set (entry (mat a)) nc r)) (phys <$> l) = xsum (view a i) l) as Hmap.
  { induction l as [|j l IH]; intros Hl; [done|]. assert (j < nc) as Hj by (apply Hl; left). destruct (Hphys j Hj) as [Hpj Hpn].
    cbn [xsum foldr fmap list_fmap]. f_equal; [|apply IH; intros; apply Hl; by right].
    rewrite (view_entry a i j r (phys j) Hi Hpj). unfold row_set. destruct (entry (mat a) r (phys j)) eqn:E.
    - rewrite bool_decide_eq_true_2; [done|]. rewrite list_elem_of_filter, elem_of_seq. split; [done|lia].
    - rewrite bool_decide_eq_false_2; [done|]. rewrite list_elem_of_filter. intros [? _]. congruence. }
  unfold supp. rewrite (Hmap virt Hvirt). unfold virt. cbn [xsum foldr]. fold (xsum (view a i) (filter (λ j, view a j s = true) (seq 0 s))).
  rewrite (xsum_ext (view a i) (λ j, bool_decide (j ∈ [i]))).
  2: { intros j [_ Hj%elem_of_seq]%list_elem_of_filter. rewrite Hred by lia. apply bool_decide_ext. rewrite list_elem_of_singleton. split; intros; by symmetry. }
  rewrite xsum_swap; [|apply NoDup_filter, NoDup_seq|apply NoDup_singleton]. cbn [xsum foldr].
  destruct (decide (i < s)) as [His|His].
  - destruct (view a i s) eqn:Hv.
    + rewrite bool_decide_eq_true_2; [done|]. apply list_elem_of_filter. split; [done|]. apply elem_of_seq. lia.
    + rewrite bool_decide_eq_false_2; [done|]. rewrite list_elem_of_filter. intros [? _]. congruence.
  - rewrite (Hstuck i) by lia. rewrite bool_decide_eq_false_2; [done|]. rewrite list_elem_of_filter, elem_of_seq. lia.
Qed.

Lemma reduced_kernel a nr nc x j : rc_ok a nr nc → reduced a nr nc → nc ≤ nr → in_kernel (entry (mat a)) nr nc x → j < nc → x j = false.
Proof.
  intros Ha Hred Hle Hx Hj. destruct (perm_surj _ _ j (rc_cols a nr nc Ha) Hj) as [k Hk].
  assert (k < nc) as Hkn by (rewrite <- (pm_v2p _ _ (rc_cols a nr nc Ha)); by apply lookup_lt_Some in Hk).
  destruct (perm_index_ok _ _ k (rc_rows a nr nc Ha)) as (r & _ & Hr & Hrn); [lia|]. specialize (Hx r Hrn).
  assert (row_set (entry (mat a)) nc r ≡ₚ [j]) as Hp.
  { apply NoDup_Permutation; [apply NoDup_filter, NoDup_seq|apply NoDup_singleton|]. intros c.
    unfold row_set. rewrite list_elem_of_filter, elem_of_seq, list_elem_of_singleton. split.
    - intros [He Hc]. destruct (perm_surj _ _ c (rc_cols a nr nc Ha)) as [k' Hk']; [lia|].
      assert (k' < nc) by (rewrite <- (pm_v2p _ _ (rc_cols a nr nc Ha)); by apply lookup_lt_Some in Hk').
      rewrite <- (view_entry a k k' r c) in He by done. rewrite Hred in He by lia. apply bool_decide_eq_true in He. congruence.
    - intros ->. split; [|lia]. rewrite <- (view_entry a k k r j) by done. rewrite Hred by lia. by apply bool_decide_eq_true. }
  rewrite (xsum_perm x _ _ Hp) in Hx. cbn in Hx. by destruct (x j).
Qed.

Lemma check_invertible_ok m : mat_wf m → ncols m ≤ nrows m → (N.of_nat (nrows m) < 65536)%N → ∃ b, check_invertible m = Ret b ∧
  (b = true ↔ ∀ x, in_kernel (entry m) (nrows m) (ncols m) x → ∀ j, j < ncols m → x j = false).
Proof.
  intros Hwf Hle H16. unfold check_invertible, rowwise_elimination_gaussian.
  destruct (schedule_ok (λ _ _ _, Ret tt) (nrows m) (ncols m)
      (λ _ M, ∀ x, in_kernel (entry m) (nrows m) (ncols m) x ↔ in_kernel M (nrows m) (ncols m) x))
    with (strategy := first_row_strategy) (stuck := column_stuck (nrows m)) (m := m) (st := tt) as (a & st' & ok & -> & Ha & Hrel & Hres); try done.
  - intros st M M' a b Hrel Ha Hb Hab _ _ HM. exists tt. split; [done|]. intros x. rewrite Hrel. symmetry. by eapply in_kernel_xor.
  - intros a s Ha _ Hs. by eapply first_row_strategy_ok.
  - cbn [mbind outcome_bind]. exists ok. split; [done|]. destruct ok.
    + split; [|done]. intros _ x Hx%Hrel j Hj. by eapply reduced_kernel.
    + split; [done|]. intros Hall. destruct Hres as (s & Hs & Hred & Hstuck).
      destruct (stuck_kernel a (nrows m) (ncols m) s) as (x & j & Hx%Hrel & Hj & Hxj); try done. by rewrite (Hall x Hx j Hj) in Hxj.
Qed.
