(* ===== verification/RaptorDecoder.v ===== *)
(** * The decoder of the Raptor code (monad-raptor/src/r10/nonsystematic/decoder)

    Buffers and intermediate symbols with their states (buffer.rs,
    buffer_state.rs, intermediate_symbol.rs), the decoder (mod.rs, init.rs,
    receive_symbol.rs, decode*.rs), its own consistency check (check.rs), and
    the decoder that owns the bytes of its buffers (managed_decoder.rs).

    The closure [xor_buffers] of the source is a function on a state that is
    passed along. An arithmetic overflow panics, as in a build with overflow
    checks; [debug_assert!] and [check] are assertions, as in a debug build.
    Capacities, which only reserve memory, are left out. *)
From S2P Require Import Prelude RaptorSets RaptorHeap RaptorCode RaptorMatrix.
#[local] Open Scope nat_scope.
#[local] Arguments Nat.div : simpl never.

(** ** r10/matrix.rs *)

Definition a_systematic_intermediate_matrix (p : CodeParameters) : outcome DenseMatrix :=
  elements ← a_systematic_intermediate p;
  for_each (λ a e, mat_update a e.1 e.2 true) (mat_from_element (num_intermediate_symbols p) (num_intermediate_symbols p) false) elements.

(** [+= 1] and [-= 1] on a [u16]. *)
Definition u16_incr (n : nat) : outcome nat := u16_try_from (n + 1).
Definition u16_decr (n : nat) : outcome nat := match n with O => Panic | S n => Ret n end.

(** ** buffer.rs, buffer_state.rs *)

Record Buffer := mkBuffer {
  intermediate_symbol_ids : OrderedSet;
  active_used_weight : nat;
  used : bool;
}.

Definition buffer_new : Buffer := mkBuffer [] 0 false.

Definition append_intermediate_symbol_id (b : Buffer) (intermediate_symbol_id : nat) (increment_active_used_weight : bool) : outcome Buffer :=
  id ← u16_try_from intermediate_symbol_id;
  let b := {| b with intermediate_symbol_ids := intermediate_symbol_ids b ++ [id] |} in
  if increment_active_used_weight then weight ← u16_incr (active_used_weight b); Ret {| b with active_used_weight := weight |} else Ret b.
Definition append_active_intermediate_symbol_id (b : Buffer) (intermediate_symbol_id : nat) : outcome Buffer :=
  append_intermediate_symbol_id b intermediate_symbol_id true.

Definition first_intermediate_symbol_id (b : Buffer) : outcome nat := expect (head (intermediate_symbol_ids b)).

Definition buffer_xor_eq (b other : Buffer) : outcome Buffer :=
  ids ← for_each (λ ids id, '(ids, _) ← set_insert_or_remove ids id; Ret ids) (intermediate_symbol_ids b) (intermediate_symbol_ids other);
  Ret {| b with intermediate_symbol_ids := ids |}.

Inductive BufferState := BActive | BUsable | BUsed | BInactivated | BRedundant.
#[global] Instance BufferState_eq_dec : EqDecision BufferState.
Proof. solve_decision. Defined.

Definition buffer_state_of (b : Buffer) : BufferState :=
  if bool_decide (1 < active_used_weight b) then BActive
  else if bool_decide (active_used_weight b = 1) && negb (used b) then BUsable
  else if bool_decide (active_used_weight b = 1) && used b then BUsed
  else if negb (bool_decide (intermediate_symbol_ids b = [])) then BInactivated
  else BRedundant.

Definition is_paired (b : Buffer) : bool := bool_decide (buffer_state_of b = BUsed) && bool_decide (length (intermediate_symbol_ids b) = 1).
Definition is_reactivatable (b : Buffer) : bool :=
  bool_decide (buffer_state_of b = BInactivated) && bool_decide (length (intermediate_symbol_ids b) = 1).

(** ** intermediate_symbol.rs *)

Inductive IntermediateSymbol :=
| Active (buffer_indices : OrderedSet)
| Inactivated (buffer_indices : OrderedSet)
| Used (buffer_index : nat).

Definition symbol_new : IntermediateSymbol := Active [].

Definition is_active (s : IntermediateSymbol) : bool := match s with Active _ => true | _ => false end.
Definition is_inactivated (s : IntermediateSymbol) : bool := match s with Inactivated _ => true | _ => false end.
Definition is_used (s : IntermediateSymbol) : bool := match s with Used _ => true | _ => false end.
Definition is_used_buffer_index (s : IntermediateSymbol) : option nat := match s with Used buffer_index => Some buffer_index | _ => None end.

Definition active_push (s : IntermediateSymbol) (buffer_index : nat) : outcome IntermediateSymbol :=
  match s with
  | Active buffer_indices => index ← u16_try_from buffer_index; Ret (Active (buffer_indices ++ [index]))
  | _ => Panic
  end.
Definition active_inactivated_push (s : IntermediateSymbol) (buffer_index : nat) : outcome IntermediateSymbol :=
  match s with
  | Active buffer_indices => Ret (Active (buffer_indices ++ [buffer_index]))
  | Inactivated buffer_indices => Ret (Inactivated (buffer_indices ++ [buffer_index]))
  | Used _ => Panic
  end.
Definition active_make_used (s : IntermediateSymbol) (buffer_index : nat) : outcome (IntermediateSymbol * OrderedSet) :=
  match s with Active buffer_indices => Ret (Used buffer_index, buffer_indices) | _ => Panic end.
Definition active_inactivate (s : IntermediateSymbol) : outcome IntermediateSymbol :=
  '(_, buffer_indices) ← active_make_used s (N.to_nat 65535); Ret (Inactivated buffer_indices).
Definition inactivated_values (s : IntermediateSymbol) : outcome OrderedSet :=
  match s with Inactivated buffer_indices => Ret buffer_indices | _ => Panic end.
Definition inactivated_insert (s : IntermediateSymbol) (buffer_index : nat) : outcome IntermediateSymbol :=
  match s with
  | Inactivated buffer_indices =>
      '(buffer_indices, ret) ← set_insert buffer_indices buffer_index; _ ← rust_assert ret; Ret (Inactivated buffer_indices)
  | _ => Panic
  end.
Definition inactivated_remove (s : IntermediateSymbol) (buffer_index : nat) : outcome IntermediateSymbol :=
  match s with
  | Inactivated buffer_indices =>
      '(buffer_indices, ret) ← set_remove buffer_indices buffer_index; _ ← rust_assert ret; Ret (Inactivated buffer_indices)
  | _ => Panic
  end.
Definition inactivated_make_used (s : IntermediateSymbol) (buffer_index : nat) : outcome (IntermediateSymbol * OrderedSet) :=
  match s with Inactivated buffer_indices => Ret (Used buffer_index, buffer_indices) | _ => Panic end.

(** ** mod.rs, buffer_id.rs *)

Record Decoder := mkDecoder {
  params : CodeParameters;
  buffer_state : list Buffer;
  intermediate_symbol_state : list IntermediateSymbol;
  buffers_active_usable : BufferWeightMap;
  buffers_inactivated : BufferWeightMap;
  num_redundant_buffers : nat;
  num_source_symbols_paired : nat;
}.

Definition num_redundant_intermediate_symbols (d : Decoder) : nat := num_ldpc_symbols (params d) + num_half_symbols (params d).
Definition num_temp_buffers_required (d : Decoder) : nat := num_redundant_intermediate_symbols d.
Definition num_encoded_symbols_received (d : Decoder) : nat := length (buffer_state d) - num_redundant_intermediate_symbols d.
Definition num_redundant_encoded_symbols (d : Decoder) : nat := num_redundant_buffers d.

Inductive BufferId := TempBuffer (index : nat) | ReceiveBuffer (index : nat).

Definition buffer_index_to_buffer_id (d : Decoder) (index : nat) : BufferId :=
  if bool_decide (index < num_redundant_intermediate_symbols d) then TempBuffer index
  else ReceiveBuffer (index - num_redundant_intermediate_symbols d).

(** ** check.rs *)

Definition buffer_state_to_mapping (d : Decoder) : outcome DenseMatrix :=
  for_each (λ m i, b ← vec_get (buffer_state d) i; for_each (λ m j, mat_update m i j true) m (intermediate_symbol_ids b))
    (mat_from_element (length (buffer_state d)) (length (intermediate_symbol_state d)) false) (seq 0 (length (buffer_state d))).

Definition symbol_buffers (s : IntermediateSymbol) : OrderedSet :=
  match s with Active buffer_indices | Inactivated buffer_indices => buffer_indices | Used buffer_index => [buffer_index] end.
Definition intermediate_symbol_state_to_mapping (d : Decoder) : outcome DenseMatrix :=
  for_each (λ m j, s ← vec_get (intermediate_symbol_state d) j; for_each (λ m i, mat_update m i j true) m (symbol_buffers s))
    (mat_from_element (length (buffer_state d)) (length (intermediate_symbol_state d)) false) (seq 0 (length (intermediate_symbol_state d))).

Definition check_elements_match (d : Decoder) : outcome unit :=
  left ← buffer_state_to_mapping d;
  right ← intermediate_symbol_state_to_mapping d;
  rust_assert (bool_decide (mat_data left = mat_data right) && bool_decide (nrows left = nrows right) && bool_decide (ncols left = ncols right)).

(** The symbols of a buffer that are not inactivated. *)
Fixpoint active_used_ids (symbols : list IntermediateSymbol) (ids : OrderedSet) : outcome OrderedSet :=
  match ids with
  | [] => Ret []
  | id :: ids =>
      s ← vec_get symbols id;
      rest ← active_used_ids symbols ids;
      Ret (if is_inactivated s then rest else id :: rest)
  end.

Definition check_used_buffer (d : Decoder) (b : Buffer) : outcome unit :=
  if negb (used b) then Ret tt else
  _ ← rust_assert (bool_decide (active_used_weight b = 1));
  ids ← active_used_ids (intermediate_symbol_state d) (intermediate_symbol_ids b);
  _ ← rust_assert (bool_decide (length ids = 1));
  id ← vec_get ids 0;
  s ← vec_get (intermediate_symbol_state d) id;
  rust_assert (is_used s).
Definition check_used (d : Decoder) : outcome unit :=
  _ ← for_each (λ _ b, check_used_buffer d b) tt (buffer_state d);
  for_each (λ _ s, match is_used_buffer_index s with
                   | Some buffer_index => b ← vec_get (buffer_state d) buffer_index; rust_assert (bool_decide (buffer_state_of b = BUsed))
                   | None => Ret tt
                   end) tt (intermediate_symbol_state d).

(** What a heap enumerates, in a [BTreeMap]. *)
Definition weight_map (h : BufferWeightMap) : outcome (gmap nat nat) :=
  l ← weight_map_enumerate h; Ret (foldl (λ m e, <[e.1 := e.2]> m) ∅ l).

Definition check_active_usable (d : Decoder) : outcome unit :=
  self_buffers_active_usable ← weight_map (buffers_active_usable d);
  buffers_active_usable ← for_each (λ m i,
      b ← vec_get (buffer_state d) i;
      ids ← active_used_ids (intermediate_symbol_state d) (intermediate_symbol_ids b);
      _ ← rust_assert (bool_decide (active_used_weight b = length ids));
      if bool_decide (buffer_state_of b = BActive ∨ buffer_state_of b = BUsable)
      then i ← u16_try_from i; Ret (<[i := length ids]> m) else Ret m) ∅ (seq 0 (length (buffer_state d)));
  rust_assert (bool_decide (self_buffers_active_usable = buffers_active_usable)).

Definition check_inactivated (d : Decoder) : outcome unit :=
  self_buffers_inactivated ← weight_map (buffers_inactivated d);
  buffers_inactivated ← for_each (λ m i,
      b ← vec_get (buffer_state d) i;
      if bool_decide (buffer_state_of b = BInactivated)
      then i ← u16_try_from i; w ← u16_try_from (length (intermediate_symbol_ids b)); Ret (<[i := w]> m) else Ret m)
    ∅ (seq 0 (length (buffer_state d)));
  rust_assert (bool_decide (self_buffers_inactivated = buffers_inactivated)).

Definition check_num_redundant_buffers (d : Decoder) : outcome unit :=
  rust_assert (bool_decide (num_redundant_buffers d = length (filter (λ b, buffer_state_of b = BRedundant) (buffer_state d)))).

Definition paired_source (d : Decoder) (b : Buffer) : outcome bool :=
  if is_paired b then id ← first_intermediate_symbol_id b; Ret (bool_decide (id < num_source_symbols (params d))) else Ret false.
Definition check_num_source_symbols_paired (d : Decoder) : outcome unit :=
  n ← for_each (λ n b, p ← paired_source d b; Ret (if p : bool then S n else n)) 0 (buffer_state d);
  rust_assert (bool_decide (num_source_symbols_paired d = n)).

Definition check_force (d : Decoder) : outcome unit :=
  _ ← check_elements_match d;
  _ ← check_used d;
  _ ← check_active_usable d;
  _ ← check_inactivated d;
  _ ← check_num_redundant_buffers d;
  check_num_source_symbols_paired d.
Definition check (d : Decoder) : outcome unit := check_force d.

(** ** init.rs *)

(** What every closure of [with_capacity] does. *)
Definition set_element (s : list Buffer * list IntermediateSymbol) (e : nat * nat) : outcome (list Buffer * list IntermediateSymbol) :=
  let '(buffer_state, symbols) := s in
  let '(buffer_index, intermediate_symbol_id) := e in
  b ← vec_get buffer_state buffer_index;
  b ← append_active_intermediate_symbol_id b intermediate_symbol_id;
  buffer_state ← vec_set buffer_state buffer_index b;
  s ← vec_get symbols intermediate_symbol_id;
  s ← active_push s buffer_index;
  symbols ← vec_set symbols intermediate_symbol_id s;
  Ret (buffer_state, symbols).

Definition with_capacity (num_source_symbols : nat) : outcome (result CodeError Decoder) :=
  if negb (in_source_range num_source_symbols) then Ret (Err SymbolsOutOfRange) else
  params ←? code_parameters_new num_source_symbols;
  elements ← a_common params;
  '(buffer_state, symbols) ←
    for_each set_element (replicate (num_ldpc_symbols params + num_half_symbols params) buffer_new,
                          replicate (num_intermediate_symbols params) symbol_new) elements;
  active_usable ← for_each (λ h i, b ← vec_get buffer_state i; w ← non_zero (active_used_weight b); insert_buffer_weight h i w)
    weight_map_new (seq 0 (length buffer_state));
  let decoder := mkDecoder params buffer_state symbols active_usable weight_map_new 0 0 in
  _ ← check decoder;
  Ret (Ok decoder).

(** ** decode.rs, decode_finished.rs *)

Definition get_two_mut {A} (l : list A) (a b : nat) : outcome (A * A) :=
  if bool_decide (a = b) then Panic else x ← vec_get l a; y ← vec_get l b; Ret (x, y).

Fixpoint find_active (symbols : list IntermediateSymbol) (ids : OrderedSet) : outcome (option nat) :=
  match ids with
  | [] => Ret None
  | id :: ids => s ← vec_get symbols id; if is_active s then Ret (Some id) else find_active symbols ids
  end.
Definition buffer_first_active_intermediate_symbol (d : Decoder) (buffer_index : nat) : outcome nat :=
  b ← vec_get (buffer_state d) buffer_index;
  r ← find_active (intermediate_symbol_state d) (intermediate_symbol_ids b);
  expect r.

Definition decrement_buffer_weight (d : Decoder) (buffer_index : nat) : outcome Decoder :=
  b ← vec_get (buffer_state d) buffer_index;
  w ← u16_decr (active_used_weight b);
  buffers ← vec_set (buffer_state d) buffer_index {| b with active_used_weight := w |};
  let d := {| d with buffer_state := buffers |} in
  if bool_decide (0 < w) then
    w ← non_zero w;
    h ← update_buffer_weight (buffers_active_usable d) buffer_index w;
    Ret {| d with buffers_active_usable := h |}
  else
    '(h, weight) ← remove_buffer_weight (buffers_active_usable d) buffer_index;
    _ ← rust_assert (bool_decide (weight = 1));
    let d := {| d with buffers_active_usable := h |} in
    let weight := length (intermediate_symbol_ids b) in
    if bool_decide (0 < weight) then
      w ← non_zero weight;
      h ← insert_buffer_weight (buffers_inactivated d) buffer_index w;
      Ret {| d with buffers_inactivated := h |}
    else
      n ← u16_incr (num_redundant_buffers d);
      Ret {| d with num_redundant_buffers := n |}.

Definition decoding_done (d : Decoder) : bool := bool_decide (num_source_symbols_paired d = num_source_symbols (params d)).

Definition source_symbol_to_buffer_id (d : Decoder) (source_symbol_id : nat) : outcome (option BufferId) :=
  if bool_decide (source_symbol_id < num_source_symbols (params d)) then
    s ← vec_get (intermediate_symbol_state d) source_symbol_id;
    match is_used_buffer_index s with
    | None => Ret None
    | Some buffer_index =>
        b ← vec_get (buffer_state d) buffer_index;
        if bool_decide (length (intermediate_symbol_ids b) = 1) then
          _ ← rust_assert (is_paired b);
          Ret (Some (buffer_index_to_buffer_id d buffer_index))
        else Ret None
    end
  else Ret None.

(** The loop of [buffer_peel_xor_eq] and of [buffer_inactivated_xor_eq] on one
    symbol of the other buffer. *)
Definition xor_symbol (a : nat) (s : OrderedSet * list IntermediateSymbol) (intermediate_symbol_id : nat) :
    outcome (OrderedSet * list IntermediateSymbol) :=
  let '(ids, symbols) := s in
  symbol ← vec_get symbols intermediate_symbol_id;
  if negb (is_inactivated symbol) then
    '(ids, ret) ← set_remove ids intermediate_symbol_id;
    _ ← rust_assert ret;
    Ret (ids, symbols)
  else
    '(ids, inserted) ← set_insert_or_remove ids intermediate_symbol_id;
    symbol ← (if inserted : bool then inactivated_insert symbol a else inactivated_remove symbol a);
    symbols ← vec_set symbols intermediate_symbol_id symbol;
    Ret (ids, symbols).

Definition buffer_state_xor_eq (d : Decoder) (a b : nat) (a_ok b_ok : Buffer → bool) : outcome Decoder :=
  '(aref, bref) ← get_two_mut (buffer_state d) a b;
  _ ← rust_assert (a_ok aref);
  _ ← rust_assert (b_ok bref);
  '(ids, symbols) ← for_each (xor_symbol a) (intermediate_symbol_ids aref, intermediate_symbol_state d) (intermediate_symbol_ids bref);
  buffers ← vec_set (buffer_state d) a {| aref with intermediate_symbol_ids := ids |};
  Ret {| d with buffer_state := buffers; intermediate_symbol_state := symbols |}.

(** ** decode_peel.rs *)

Definition buffer_peel_xor_eq (d : Decoder) (a b : nat) : outcome Decoder :=
  buffer_state_xor_eq d a b
    (λ b, bool_decide (buffer_state_of b = BActive ∨ buffer_state_of b = BUsable)) (λ b, bool_decide (buffer_state_of b = BUsed)).

Section decode.
Context {X : Type} (xor_buffers : X → BufferId → BufferId → outcome X).

Definition xor_indices (d : Decoder) (x : X) (a b : nat) : outcome X :=
  xor_buffers x (buffer_index_to_buffer_id d a) (buffer_index_to_buffer_id d b).

Definition peel_reducee (reducing_buffer_index : nat) (s : Decoder * X) (reducee_buffer_index : nat) : outcome (Decoder * X) :=
  let '(d, x) := s in
  if bool_decide (reducee_buffer_index = reducing_buffer_index) then Ret (d, x) else
  d ← buffer_peel_xor_eq d reducee_buffer_index reducing_buffer_index;
  d ← decrement_buffer_weight d reducee_buffer_index;
  x ← xor_indices d x reducee_buffer_index reducing_buffer_index;
  Ret (d, x).

Definition peel_one (d : Decoder) (x : X) (reducing_buffer_index weight : nat) : outcome (Decoder * X) :=
  '(h, w) ← remove_buffer_weight (buffers_active_usable d) reducing_buffer_index;
  _ ← rust_assert (bool_decide (w = weight));
  let d := {| d with buffers_active_usable := h |} in
  intermediate_symbol_id ← buffer_first_active_intermediate_symbol d reducing_buffer_index;
  b ← vec_get (buffer_state d) reducing_buffer_index;
  buffers ← vec_set (buffer_state d) reducing_buffer_index {| b with used := true |};
  s ← vec_get (intermediate_symbol_state d) intermediate_symbol_id;
  '(s, reducee_buffer_indices) ← active_make_used s reducing_buffer_index;
  symbols ← vec_set (intermediate_symbol_state d) intermediate_symbol_id s;
  let d := {| d with buffer_state := buffers; intermediate_symbol_state := symbols |} in
  '(d, x) ← for_each (peel_reducee reducing_buffer_index) (d, x) reducee_buffer_indices;
  b ← vec_get (buffer_state d) reducing_buffer_index;
  let d := if bool_decide (length (intermediate_symbol_ids b) = 1) &&
              bool_decide (intermediate_symbol_id < num_source_symbols (params d))
           then {| d with num_source_symbols_paired := num_source_symbols_paired d + 1 |} else d in
  _ ← check d;
  Ret (d, x).

Fixpoint peel_loop (fuel : nat) (d : Decoder) (x : X) (made_progress : bool) : outcome (Decoder * X * bool) :=
  match fuel with
  | O => OutOfFuel
  | S fuel =>
      r ← peek_min (buffers_active_usable d);
      match r with
      | None => Ret (d, x, made_progress)
      | Some (reducing_buffer_index, weight) =>
          if decoding_done d || negb (bool_decide (weight = 1)) then Ret (d, x, made_progress) else
          '(d, x) ← peel_one d x reducing_buffer_index weight;
          peel_loop fuel d x true
      end
  end.
(** Every turn uses an active symbol. *)
Definition try_peel (d : Decoder) (x : X) : outcome (Decoder * X * bool) :=
  peel_loop (S (length (intermediate_symbol_state d))) d x false.

(** ** decode_reactivate.rs *)

Definition reactivate_reducee (reducing_buffer_index intermediate_symbol_id : nat) (s : Decoder * X) (reducee_buffer_index : nat) :
    outcome (Decoder * X) :=
  let '(d, x) := s in
  if bool_decide (reducee_buffer_index = reducing_buffer_index) then Ret (d, x) else
  b ← vec_get (buffer_state d) reducee_buffer_index;
  '(ids, ret) ← set_remove (intermediate_symbol_ids b) intermediate_symbol_id;
  _ ← rust_assert ret;
  let b := {| b with intermediate_symbol_ids := ids |} in
  buffers ← vec_set (buffer_state d) reducee_buffer_index b;
  let d := {| d with buffer_state := buffers |} in
  d ← (if bool_decide (active_used_weight b = 0) then
         let weight := length ids in
         if bool_decide (0 < weight) then
           w ← non_zero weight;
           h ← update_buffer_weight (buffers_inactivated d) reducee_buffer_index w;
           Ret {| d with buffers_inactivated := h |}
         else
           '(h, _) ← remove_buffer_weight (buffers_inactivated d) reducee_buffer_index;
           n ← u16_incr (num_redundant_buffers d);
           Ret {| d with buffers_inactivated := h; num_redundant_buffers := n |}
       else Ret d);
  paired ← paired_source d b;
  let d := if paired : bool then {| d with num_source_symbols_paired := num_source_symbols_paired d + 1 |} else d in
  x ← xor_indices d x reducee_buffer_index reducing_buffer_index;
  Ret (d, x).

Definition reactivate_one (d : Decoder) (x : X) (reducing_buffer_index : nat) : outcome (Decoder * X) :=
  b ← vec_get (buffer_state d) reducing_buffer_index;
  '(h, _) ← remove_buffer_weight (buffers_inactivated d) reducing_buffer_index;
  intermediate_symbol_id ← first_intermediate_symbol_id b;
  buffers ← vec_set (buffer_state d) reducing_buffer_index {| b with active_used_weight := 1; used := true |};
  s ← vec_get (intermediate_symbol_state d) intermediate_symbol_id;
  '(s, reducee_buffer_indices) ← inactivated_make_used s reducing_buffer_index;
  symbols ← vec_set (intermediate_symbol_state d) intermediate_symbol_id s;
  let d := {| d with buffers_inactivated := h; buffer_state := buffers; intermediate_symbol_state := symbols |} in
  '(d, x) ← for_each (reactivate_reducee reducing_buffer_index intermediate_symbol_id) (d, x) reducee_buffer_indices;
  let d := if bool_decide (intermediate_symbol_id < num_source_symbols (params d))
           then {| d with num_source_symbols_paired := num_source_symbols_paired d + 1 |} else d in
  _ ← check d;
  Ret (d, x).

Fixpoint reactivate_loop (fuel : nat) (d : Decoder) (x : X) (made_progress : bool) : outcome (Decoder * X * bool) :=
  match fuel with
  | O => OutOfFuel
  | S fuel =>
      r ← peek_min (buffers_inactivated d);
      match r with
      | None => Ret (d, x, made_progress)
      | Some (reducing_buffer_index, weight) =>
          if decoding_done d || negb (bool_decide (weight = 1)) then Ret (d, x, made_progress) else
          '(d, x) ← reactivate_one d x reducing_buffer_index;
          reactivate_loop fuel d x true
      end
  end.
(** Every turn uses an inactivated symbol. *)
Definition try_reactivate_symbols (d : Decoder) (x : X) : outcome (Decoder * X * bool) :=
  reactivate_loop (S (length (intermediate_symbol_state d))) d x false.

(** ** decode_inactivate.rs *)

Definition try_inactivate_one_symbol (d : Decoder) : outcome (Decoder * bool) :=
  r ← peek_min (buffers_active_usable d);
  match r with
  | Some (buffer_index, weight) =>
      if bool_decide (1 < weight) then
        intermediate_symbol_id ← buffer_first_active_intermediate_symbol d buffer_index;
        s ← vec_get (intermediate_symbol_state d) intermediate_symbol_id;
        s ← active_inactivate s;
        symbols ← vec_set (intermediate_symbol_state d) intermediate_symbol_id s;
        let d := {| d with intermediate_symbol_state := symbols |} in
        values ← inactivated_values s;
        d ← for_each decrement_buffer_weight d values;
        _ ← check d;
        Ret (d, true)
      else Ret (d, false)
  | None => Ret (d, false)
  end.

(** ** decode_inactive_gaussian.rs *)

Definition buffer_inactivated_xor_eq (d : Decoder) (a b : nat) : outcome Decoder :=
  buffer_state_xor_eq d a b
    (λ b, bool_decide (buffer_state_of b = BInactivated)) (λ b, bool_decide (buffer_state_of b = BInactivated)).

Definition gaussian_row_operation (inactivated_buffer_indices : list nat) (s : Decoder * X) (i j : nat) : outcome (Decoder * X) :=
  let '(d, x) := s in
  reducee_buffer_index ← vec_get inactivated_buffer_indices i;
  reducing_buffer_index ← vec_get inactivated_buffer_indices j;
  d ← buffer_inactivated_xor_eq d reducee_buffer_index reducing_buffer_index;
  x ← xor_indices d x reducee_buffer_index reducing_buffer_index;
  Ret (d, x).

Definition gaussian_update_weight (d : Decoder) (buffer_index : nat) : outcome Decoder :=
  b ← vec_get (buffer_state d) buffer_index;
  let weight := length (intermediate_symbol_ids b) in
  if bool_decide (0 < weight) then
    w ← non_zero weight;
    h ← update_buffer_weight (buffers_inactivated d) buffer_index w;
    Ret {| d with buffers_inactivated := h |}
  else
    '(h, _) ← remove_buffer_weight (buffers_inactivated d) buffer_index;
    n ← u16_incr (num_redundant_buffers d);
    Ret {| d with buffers_inactivated := h; num_redundant_buffers := n |}.

Definition try_inactive_gaussian (d : Decoder) (x : X) : outcome (Decoder * X * bool) :=
  if weight_map_is_empty (buffers_inactivated d) then Ret (d, x, false) else
  r ← peek_min (buffers_inactivated d);
  '(_, weight) ← expect r;
  if bool_decide (weight = 1) then Ret (d, x, true) else
  l ← weight_map_enumerate (buffers_inactivated d);
  let inactivated_buffer_indices := l.*1 in
  buffers ← mapM (vec_get (buffer_state d)) inactivated_buffer_indices;
  let inactivated_intermediate_symbol_ids := merge_sort le (remove_dups (mjoin (intermediate_symbol_ids <$> buffers))) in
  if bool_decide (length inactivated_buffer_indices < length inactivated_intermediate_symbol_ids) then Ret (d, x, false) else
  m ← mat_from_fn (length inactivated_buffer_indices) (length inactivated_intermediate_symbol_ids)
        (λ i j,
           buffer_index ← vec_get inactivated_buffer_indices i;
           intermediate_symbol_id ← vec_get inactivated_intermediate_symbol_ids j;
           b ← vec_get (buffer_state d) buffer_index;
           set_contains (intermediate_symbol_ids b) intermediate_symbol_id);
  '(s, _) ← rowwise_elimination_gaussian_full_pivot (gaussian_row_operation inactivated_buffer_indices) m (d, x);
  let '(d, x) := s in
  d ← for_each gaussian_update_weight d inactivated_buffer_indices;
  _ ← check d;
  Ret (d, x, true).

(** ** decode.rs *)

Inductive DecodingState := ReactivateSymbols | Peeling | MaybeInactiveGaussian | InactivateSymbol | Done.

Definition decode_step (try_harder : bool) (operation : DecodingState) (d : Decoder) (x : X) : outcome (Decoder * X * DecodingState) :=
  match operation with
  | ReactivateSymbols => '(d, x, _) ← try_reactivate_symbols d x; Ret (d, x, Peeling)
  | Peeling =>
      '(d, x, made_progress) ← try_peel d x;
      Ret (d, x, if made_progress : bool then ReactivateSymbols else MaybeInactiveGaussian)
  | MaybeInactiveGaussian =>
      if negb try_harder then Ret (d, x, Done) else
      '(d, x, made_progress) ← try_inactive_gaussian d x;
      Ret (d, x, if made_progress : bool then ReactivateSymbols else InactivateSymbol)
  | InactivateSymbol =>
      if negb try_harder then Ret (d, x, Done) else
      '(d, made_progress) ← try_inactivate_one_symbol d;
      Ret (d, x, if made_progress : bool then ReactivateSymbols else Done)
  | Done => Panic
  end.

Fixpoint decode_loop (fuel : nat) (try_harder : bool) (operation : DecodingState) (d : Decoder) (x : X) : outcome (Decoder * X) :=
  match fuel with
  | O => OutOfFuel
  | S fuel =>
      if decoding_done d then Ret (d, x) else
      match operation with
      | Done => Ret (d, x)
      | _ =>
          '(d, x, operation) ← decode_step try_harder operation d x;
          decode_loop fuel try_harder operation d x
      end
  end.

(** The fuel is more than the turns that the loop can take: four between two
    that use up a symbol, inactivate one or make a buffer redundant. *)
Definition decode_fuel (d : Decoder) : nat := 8 * (2 * length (intermediate_symbol_state d) + length (buffer_state d) + 2).

Definition try_decode (d : Decoder) (x : X) (inactivation_symbol_threshold : nat) : outcome (Decoder * X * bool) :=
  _ ← rust_assert (bool_decide (num_source_symbols (params d) ≤ inactivation_symbol_threshold));
  let usable_buffers := length (buffer_state d) - num_redundant_buffers d in
  let try_harder := bool_decide (inactivation_symbol_threshold ≤ usable_buffers) in
  '(d, x) ← decode_loop (decode_fuel d) try_harder ReactivateSymbols d x;
  Ret (d, x, decoding_done d).

(** ** receive_symbol.rs *)

(** The closure that [lt_sequence_op] calls. *)
Definition receive_id (d : Decoder) (s : Buffer * list nat) (intermediate_symbol_id : nat) : outcome (Buffer * list nat) :=
  let '(b, used_buffer_indices) := s in
  symbol ← vec_get (intermediate_symbol_state d) intermediate_symbol_id;
  b ← append_intermediate_symbol_id b intermediate_symbol_id (negb (is_inactivated symbol));
  Ret (b, match is_used_buffer_index symbol with
          | Some used_buffer_index => used_buffer_indices ++ [used_buffer_index]
          | None => used_buffer_indices
          end).

Definition reduce_received (d : Decoder) (buffer_index : nat) (s : Buffer * X) (used_buffer_index : nat) : outcome (Buffer * X) :=
  let '(b, x) := s in
  other ← vec_get (buffer_state d) used_buffer_index;
  b ← buffer_xor_eq b other;
  w ← u16_decr (active_used_weight b);
  x ← xor_indices d x buffer_index used_buffer_index;
  Ret ({| b with active_used_weight := w |}, x).

Definition received_encoded_symbol (d : Decoder) (x : X) (encoding_symbol_id : N) : outcome (Decoder * X) :=
  buffer_index ← u16_try_from (length (buffer_state d));
  row ← lt_sequence_op (params d) encoding_symbol_id;
  '(b, used_buffer_indices) ← for_each (receive_id d) (buffer_new, []) row;
  '(b, x) ← for_each (reduce_received d buffer_index) (b, x) used_buffer_indices;
  symbols ← for_each (λ symbols id, s ← vec_get symbols id; s ← active_inactivated_push s buffer_index; vec_set symbols id s)
              (intermediate_symbol_state d) (intermediate_symbol_ids b);
  let weight := length (intermediate_symbol_ids b) in
  let d := {| d with buffer_state := buffer_state d ++ [b]; intermediate_symbol_state := symbols |} in
  d ← (if bool_decide (0 < active_used_weight b) then
         w ← non_zero (active_used_weight b);
         h ← insert_buffer_weight (buffers_active_usable d) buffer_index w;
         Ret {| d with buffers_active_usable := h |}
       else if bool_decide (0 < weight) then
         w ← non_zero weight;
         h ← insert_buffer_weight (buffers_inactivated d) buffer_index w;
         Ret {| d with buffers_inactivated := h |}
       else
         n ← u16_incr (num_redundant_buffers d);
         Ret {| d with num_redundant_buffers := n |});
  _ ← check d;
  Ret (d, x).
End decode.

(** ** managed_decoder.rs *)

Definition INACTIVATION_SYMBOL_THRESHOLD_MULTIPLIER : nat := 384.
Definition INACTIVATION_SYMBOL_THRESHOLD_SHIFT : nat := 8.

Record BufferSet := mkBufferSet { num_temp_buffers : nat; buffers : list (list N) }.

Definition buffer_set_new (num_temp_buffers symbol_len : nat) : BufferSet :=
  mkBufferSet num_temp_buffers (replicate num_temp_buffers (replicate symbol_len 0%N)).
Definition push_buffer (b : BufferSet) (buf : list N) : BufferSet := {| b with buffers := buffers b ++ [buf] |}.
Definition buffer_index (b : BufferSet) (buffer_id : BufferId) : nat :=
  match buffer_id with TempBuffer index => index | ReceiveBuffer index => num_temp_buffers b + index end.

Definition xor_bytes (dst src : list N) : outcome (list N) :=
  _ ← rust_assert (bool_decide (length dst = length src));
  Ret (zip_with N.lxor dst src).

Definition xor_buffers (s : BufferSet) (a b : BufferId) : outcome BufferSet :=
  let a_index := buffer_index s a in
  let b_index := buffer_index s b in
  '(dst, src) ← get_two_mut (buffers s) a_index b_index;
  dst ← xor_bytes dst src;
  bufs ← vec_set (buffers s) a_index dst;
  Ret {| s with buffers := bufs |}.

Definition buffer_set_buffer (s : BufferSet) (id : BufferId) : outcome (list N) := vec_get (buffers s) (buffer_index s id).

Record ManagedDecoder := mkManagedDecoder {
  md_num_source_symbols : nat;
  md_symbol_len : nat;
  md_decoder : Decoder;
  md_buffer_set : BufferSet;
}.

Definition managed_new (num_source_symbols symbol_len : nat) : outcome (result CodeError ManagedDecoder) :=
  decoder ←? with_capacity num_source_symbols;
  Ret (Ok (mkManagedDecoder num_source_symbols symbol_len decoder (buffer_set_new (num_temp_buffers_required decoder) symbol_len))).

Definition managed_received (m : ManagedDecoder) (data : list N) (encoding_symbol_id : N) : outcome ManagedDecoder :=
  if negb (bool_decide (md_symbol_len m = length data)) then Panic else
  let bufs := push_buffer (md_buffer_set m) data in
  '(d, bufs) ← received_encoded_symbol xor_buffers (md_decoder m) bufs encoding_symbol_id;
  Ret {| m with md_decoder := d; md_buffer_set := bufs |}.

Definition managed_threshold (m : ManagedDecoder) : nat :=
  N.to_nat (N.shiftr (N.of_nat INACTIVATION_SYMBOL_THRESHOLD_MULTIPLIER * N.of_nat (md_num_source_symbols m)) (N.of_nat INACTIVATION_SYMBOL_THRESHOLD_SHIFT)).

Definition managed_try_decode (m : ManagedDecoder) : outcome (ManagedDecoder * bool) :=
  '(d, bufs, done) ← try_decode xor_buffers (md_decoder m) (md_buffer_set m) (managed_threshold m);
  Ret ({| m with md_decoder := d; md_buffer_set := bufs |}, done).

Definition managed_decoding_done (m : ManagedDecoder) : bool := decoding_done (md_decoder m).
Definition managed_num_received (m : ManagedDecoder) : nat := num_encoded_symbols_received (md_decoder m).

Fixpoint reconstruct_from (m : ManagedDecoder) (ids : list nat) : outcome (option (list N)) :=
  match ids with
  | [] => Ret (Some [])
  | i :: ids =>
      r ← source_symbol_to_buffer_id (md_decoder m) i;
      match r with
      | None => Ret None
      | Some buffer_id =>
          data ← buffer_set_buffer (md_buffer_set m) buffer_id;
          rest ← reconstruct_from m ids;
          Ret (match rest with Some rest => Some (data ++ rest) | None => None end)
      end
  end.
Definition reconstruct_source_data (m : ManagedDecoder) : outcome (option (list N)) :=
  reconstruct_from m (seq 0 (md_num_source_symbols m)).
