(* ===== verification/RaptorInv.v ===== *)
(** * The invariant of the decoder

    Buffers and symbols refer to each other, weights count the symbols that
    are not inactivated, the two heaps hold the buffers of their states, and
    the counters of redundant and of paired buffers are right. In the middle
    of an operation some of this is off in known places, which are parameters
    of the invariant. *)
From S2P Require Import Prelude RaptorSets RaptorHeap RaptorCode RaptorRows RaptorMatrix RaptorDecoder.
#[local] Open Scope nat_scope.
#[local] Arguments Nat.div : simpl never.
#[local] Arguments Nat.modulo : simpl never.

(** ** Counting *)

Definition b2n (b : bool) : nat := if b then 1 else 0.

(** The number of buffers with a property, which may depend on the index. *)
Definition bcount (f : nat → Buffer → bool) (l : list Buffer) : nat := length (filter (λ e, f e.1 e.2 = true) (imap pair l)).

Lemma bcount_app f l k : bcount f (l ++ k) = bcount f l + bcount (λ i, f (length l + i)) k.
Proof.
  unfold bcount. rewrite imap_app, filter_app, length_app. f_equal. revert k.
  assert (∀ n (k : list Buffer), length (filter (λ e, f e.1 e.2 = true) (imap (λ i b, (n + i, b)) k)) =
    length (filter (λ e, f (n + e.1) e.2 = true) (imap pair k))) as H; [|intros k; apply (H (length l))].
  intros n k. assert (imap (λ i b, (n + i, b)) k = (λ e, (n + e.1, e.2)) <$> imap pair k) as ->.
  { rewrite fmap_imap. done. }
  induction (imap pair k) as [|[i b] es IH]; [done|]. csimpl. rewrite !filter_cons. simpl.
  destruct (decide (f (n + i) b = true)); simpl; by rewrite IH.
Qed.
Lemma bcount_nil f : bcount f [] = 0.
Proof. done. Qed.
Lemma bcount_singleton f b : bcount f [b] = b2n (f 0 b).
Proof. unfold bcount. simpl. rewrite filter_cons. simpl. destruct (f 0 b); done. Qed.
Lemma bcount_ext f g l : (∀ i b, l !! i = Some b → f i b = g i b) → bcount f l = bcount g l.
Proof.
  revert f g. induction l as [|b l IH] using rev_ind; intros f g H; [done|]. rewrite !bcount_app, !bcount_singleton, !Nat.add_0_r.
  rewrite (H (length l) b) by (apply list_lookup_middle; lia). f_equal. apply IH. intros i b' Hb'. apply H. by apply lookup_app_l_Some.
Qed.

(** One buffer, and what is counted there, may change. *)
Lemma bcount_insert f g l i b b' : l !! i = Some b → (∀ k c, k ≠ i → l !! k = Some c → f k c = g k c) →
  bcount g (<[i := b']> l) + b2n (f i b) = bcount f l + b2n (g i b').
Proof.
  intros Hi Hfg. pose proof (take_drop_middle l i b Hi) as Hl. pose proof (lookup_lt_Some _ _ _ Hi) as Hlt.
  assert (length (take i l) = i) as Hlen by (rewrite length_take; lia).
  rewrite (insert_take_drop l i b' Hlt). rewrite <- Hl at 3. rewrite !bcount_app. cbn [bcount]. rewrite Hlen.
  assert (∀ h (c : Buffer) k, bcount h (c :: k) = b2n (h 0 c) + bcount (λ i, h (S i)) k) as Hcons.
  { intros h c k. change (c :: k) with ([c] ++ k). rewrite bcount_app, bcount_singleton. done. }
  rewrite !Hcons, !Nat.add_0_r.
  rewrite (bcount_ext g f (take i l)), (bcount_ext (λ i0, g (i + S i0)) (λ i0, f (i + S i0)) (drop (S i) l)); [lia|..].
  - intros k c Hk. symmetry. apply Hfg; [lia|]. rewrite lookup_drop in Hk. by replace (i + S k) with (S i + k) by lia.
  - intros k c [Hk Hki]%lookup_take_Some. symmetry. apply Hfg; [lia|done].
Qed.

Lemma bcount_le f l : bcount f l ≤ length l.
Proof. unfold bcount. etrans; [apply length_filter|]. by rewrite length_imap. Qed.
Lemma bcount_lt f l i b : l !! i = Some b → f i b = false → bcount f l < length l.
Proof.
  intros Hi Hf. assert (bcount (λ k c, bool_decide (k = i) || f k c) l ≤ length l) as Hle by apply bcount_le.
  pose proof (bcount_insert f (λ k c, bool_decide (k = i) || f k c) l i b b Hi) as H.
  rewrite list_insert_id in H by done. rewrite Hf, bool_decide_eq_true_2 in H by done. simpl in H.
  specialize (H ltac:(intros k c Hk _; by rewrite bool_decide_eq_false_2)). lia.
Qed.

(** ** What the invariant says of one buffer *)

Definition is_inact (ss : list IntermediateSymbol) (j : nat) : bool :=
  match ss !! j with Some s => is_inactivated s | None => false end.

(** The number of symbols of a buffer that are not inactivated. *)
Definition live (ss : list IntermediateSymbol) (ids : list nat) : nat := length (filter (λ j, is_inact ss j = false) ids).

Definition usable_weight (b : Buffer) : option nat :=
  if used b || bool_decide (active_used_weight b = 0) then None else Some (active_used_weight b).
Definition inactive_weight (b : Buffer) : option nat :=
  if bool_decide (active_used_weight b = 0 ∧ intermediate_symbol_ids b ≠ []) then Some (length (intermediate_symbol_ids b)) else None.
Definition redundant (b : Buffer) : bool := bool_decide (active_used_weight b = 0 ∧ intermediate_symbol_ids b = []).
Definition paired_with (k : nat) (b : Buffer) : bool :=
  used b && match intermediate_symbol_ids b with [j] => bool_decide (j < k) | _ => false end.

Definition rows (d : Decoder) : list (list nat) := intermediate_symbol_ids <$> buffer_state d.

(** [extra]: buffers that have a symbol which does not know of them;
    [over], [under]: buffers whose weight is one more, one less than it
    should be; [uncounted]: paired buffers that are not counted yet. *)
Record core (p : CodeParameters) (bs : list Buffer) (ss : list IntermediateSymbol) (np : nat)
    (extra : nat → nat → Prop) (over under uncounted : list nat) : Prop := {
  c_params : params_ok p;
  c_length : length ss = num_intermediate_symbols p;
  c_buffers : num_ldpc_symbols p + num_half_symbols p ≤ length bs ∧ (N.of_nat (length bs) < 65536)%N;
  c_ids : ∀ i b, bs !! i = Some b → sorted (intermediate_symbol_ids b) ∧ ∀ j, j ∈ intermediate_symbol_ids b → j < length ss;
  c_indices : ∀ j s, ss !! j = Some s → sorted (symbol_buffers s) ∧ ∀ i, i ∈ symbol_buffers s → i < length bs;
  c_match : ∀ i b j s, bs !! i = Some b → ss !! j = Some s → (j ∈ intermediate_symbol_ids b ↔ i ∈ symbol_buffers s ∨ extra i j);
  c_weight : ∀ i b, bs !! i = Some b →
    active_used_weight b + b2n (bool_decide (i ∈ under)) = live ss (intermediate_symbol_ids b) + b2n (bool_decide (i ∈ over));
  c_used : ∀ i b, bs !! i = Some b → used b = true →
    active_used_weight b = 1 ∧ ∃ j, j ∈ intermediate_symbol_ids b ∧ ss !! j = Some (Used i);
  c_used_by : ∀ i j, ss !! j = Some (Used i) → ∃ b, bs !! i = Some b ∧ used b = true ∧ j ∈ intermediate_symbol_ids b;
  c_paired : np = bcount (λ i b, paired_with (num_source_symbols p) b && bool_decide (i ∉ uncounted)) bs;
}.

(** [stale]: inactivated buffers that the heap and the counter do not show as
    they are. *)
Record heaps (bs : list Buffer) (usable inactivated : BufferWeightMap) (nr : nat) (stale : list nat) : Prop := {
  h_usable : ∃ m, heap_ok usable m ∧ ∀ i, m !! i = bs !! i ≫= usable_weight;
  h_inactive : ∃ m, heap_ok inactivated m ∧ ∀ i, if decide (i ∈ stale) then is_Some (m !! i) else m !! i = bs !! i ≫= inactive_weight;
  h_redundant : nr = bcount (λ i b, redundant b && bool_decide (i ∉ stale)) bs;
  h_stale : ∀ i, i ∈ stale → ∃ b, bs !! i = Some b ∧ active_used_weight b = 0 ∧ used b = false;
}.

Definition mid (d : Decoder) (extra : nat → nat → Prop) (over under uncounted stale : list nat) : Prop :=
  core (params d) (buffer_state d) (intermediate_symbol_state d) (num_source_symbols_paired d) extra over under uncounted ∧
  heaps (buffer_state d) (buffers_active_usable d) (buffers_inactivated d) (num_redundant_buffers d) stale.

Definition no_extra (i j : nat) : Prop := False.
Definition dinv (d : Decoder) : Prop := mid d no_extra [] [] [] [].

(** ** Frame *)

Inductive SymbolKind := KActive | KInactivated | KUsed.
#[global] Instance SymbolKind_eq_dec : EqDecision SymbolKind.
Proof. solve_decision. Defined.
Definition kind (s : IntermediateSymbol) : SymbolKind :=
  match s with Active _ => KActive | Inactivated _ => KInactivated | Used _ => KUsed end.

(** What loops do not change. *)
Record same (d d' : Decoder) : Prop := {
  same_params : params d' = params d;
  same_length : length (buffer_state d') = length (buffer_state d);
  same_kinds : kind <$> intermediate_symbol_state d' = kind <$> intermediate_symbol_state d;
  same_redundant : num_redundant_buffers d ≤ num_redundant_buffers d';
}.

#[global] Instance same_preorder : PreOrder same.
Proof.
  split; [done|]. intros d1 d2 d3 [H1 H2 H3 H4] [H1' H2' H3' H4']. split; [congruence..|lia].
Qed.

Lemma kinds_length ss ss' : kind <$> ss' = kind <$> ss → length ss' = length ss.
Proof. intros H%(f_equal length). by rewrite !length_fmap in H. Qed.

Lemma kinds_is_inact ss ss' j : kind <$> ss' = kind <$> ss → is_inact ss' j = is_inact ss j.
Proof.
  intros H. apply (f_equal (.!! j)) in H. rewrite !list_lookup_fmap in H. unfold is_inact.
  destruct (ss' !! j) as [[]|], (ss !! j) as [[]|]; simpl in *; congruence.
Qed.

Lemma kinds_live ss ss' ids : kind <$> ss' = kind <$> ss → live ss' ids = live ss ids.
Proof. intros H. unfold live. f_equal. apply list_filter_iff. intros j. by rewrite (kinds_is_inact ss ss'). Qed.

Lemma live_perm ss l k : l ≡ₚ k → live ss l = live ss k.
Proof. unfold live. by intros ->. Qed.
Lemma live_cons ss j l : live ss (j :: l) = b2n (negb (is_inact ss j)) + live ss l.
Proof. unfold live. rewrite filter_cons. destruct (is_inact ss j); simpl; done. Qed.

(** ** The heaps *)

Section slots.
Context (f : Buffer → option nat) (bs : list Buffer) (m : gmap nat nat).

Lemma slot_insert i b b' w (P : nat → Prop) : bs !! i = Some b → f b' = Some w →
  (∀ k, P k → m !! k = bs !! k ≫= f) → ∀ k, P k → <[i := w]> m !! k = <[i := b']> bs !! k ≫= f.
Proof.
  intros Hi Hf Hm k Hk. pose proof (lookup_lt_Some _ _ _ Hi). destruct (decide (k = i)) as [->|Hne].
  - rewrite lookup_insert_eq, list_lookup_insert_eq by done. done.
  - rewrite lookup_insert_ne, list_lookup_insert_ne by done. by apply Hm.
Qed.
Lemma slot_delete i b b' (P : nat → Prop) : bs !! i = Some b → f b' = None →
  (∀ k, P k → m !! k = bs !! k ≫= f) → ∀ k, P k → delete i m !! k = <[i := b']> bs !! k ≫= f.
Proof.
  intros Hi Hf Hm k Hk. pose proof (lookup_lt_Some _ _ _ Hi). destruct (decide (k = i)) as [->|Hne].
  - rewrite lookup_delete_eq, list_lookup_insert_eq by done. done.
  - rewrite lookup_delete_ne, list_lookup_insert_ne by done. by apply Hm.
Qed.
Lemma slot_same i b b' (P : nat → Prop) : bs !! i = Some b → (P i → f b' = f b) →
  (∀ k, P k → m !! k = bs !! k ≫= f) → ∀ k, P k → m !! k = <[i := b']> bs !! k ≫= f.
Proof.
  intros Hi Hf Hm k Hk. pose proof (lookup_lt_Some _ _ _ Hi). destruct (decide (k = i)) as [->|Hne].
  - rewrite list_lookup_insert_eq by done. simpl. rewrite Hf by done. rewrite Hm by done. by rewrite Hi.
  - rewrite list_lookup_insert_ne by done. by apply Hm.
Qed.
Lemma slot_size n : (∀ i, is_Some (m !! i) → i < n) → size m ≤ n.
Proof.
  intros Hm. rewrite <- size_dom. etrans; [apply (subseteq_size _ (set_seq 0 n))|by rewrite size_set_seq].
  intros i Hi%elem_of_dom. apply elem_of_set_seq. pose proof (Hm i Hi). lia.
Qed.
End slots.

Lemma stale_iff (stale : list nat) (m : gmap nat nat) (bs : list Buffer) :
  (∀ i, if decide (i ∈ stale) then is_Some (m !! i) else m !! i = bs !! i ≫= inactive_weight) ↔
  (∀ i, i ∈ stale → is_Some (m !! i)) ∧ (∀ i, i ∉ stale → m !! i = bs !! i ≫= inactive_weight).
Proof.
  split.
  - intros H. split; intros i Hi; specialize (H i); by case_decide.
  - intros [H1 H2] i. case_decide; auto.
Qed.

Section heaps.
Context (bs : list Buffer) (h1 h2 : BufferWeightMap) (nr : nat) (stale : list nat) (i : nat) (b b' : Buffer).
Context (Hh : heaps bs h1 h2 nr stale) (Hi : bs !! i = Some b).

(** The counter of redundant buffers after a change of one of them. *)
Lemma redundant_step : i ∉ stale →
  bcount (λ i b, redundant b && bool_decide (i ∉ stale)) (<[i := b']> bs) + b2n (redundant b) = nr + b2n (redundant b').
Proof.
  intros Hst. rewrite (h_redundant _ _ _ _ _ Hh).
  pose proof (bcount_insert (λ i b, redundant b && bool_decide (i ∉ stale)) (λ i b, redundant b && bool_decide (i ∉ stale)) bs i b b' Hi) as H.
  cbv beta in H. rewrite (bool_decide_eq_true_2 (i ∉ stale)), !andb_true_r in H by done. by apply H.
Qed.

Lemma heaps_stale_step : (i ∈ stale → active_used_weight b' = 0 ∧ used b' = false) →
  ∀ k, k ∈ stale → ∃ b, <[i := b']> bs !! k = Some b ∧ active_used_weight b = 0 ∧ used b = false.
Proof.
  intros Hb' k Hk. destruct (h_stale _ _ _ _ _ Hh k Hk) as (c & Hc & Hw). pose proof (lookup_lt_Some _ _ _ Hi).
  destruct (decide (k = i)) as [->|]; [rewrite list_lookup_insert_eq by done; eauto|rewrite list_lookup_insert_ne by done; eauto].
Qed.

(** Nothing that the heaps show has changed. *)
Lemma heaps_same : usable_weight b' = usable_weight b → (i ∉ stale → inactive_weight b' = inactive_weight b ∧ redundant b' = redundant b) →
  (i ∈ stale → active_used_weight b' = 0 ∧ used b' = false) → heaps (<[i := b']> bs) h1 h2 nr stale.
Proof.
  intros Hu Hin Hst. destruct (h_usable _ _ _ _ _ Hh) as (m1 & Hm1 & H1). destruct (h_inactive _ _ _ _ _ Hh) as (m2 & Hm2 & [H2 H2']%stale_iff). split.
  - exists m1. split; [done|]. intros k. apply (slot_same _ bs m1 i b b' (λ _, True)); naive_solver.
  - exists m2. split; [done|]. apply stale_iff. split; [done|]. apply (slot_same _ bs m2 i b b' (λ i, i ∉ stale)); naive_solver.
  - destruct (decide (i ∈ stale)) as [Hs|Hs].
    + rewrite (h_redundant _ _ _ _ _ Hh).
      pose proof (bcount_insert (λ i b, redundant b && bool_decide (i ∉ stale)) (λ i b, redundant b && bool_decide (i ∉ stale)) bs i b b' Hi) as H.
      cbv beta in H. rewrite (bool_decide_eq_false_2 (i ∉ stale)), !andb_false_r in H by tauto. specialize (H ltac:(done)). simpl in H. lia.
    + pose proof (redundant_step Hs). destruct (Hin Hs) as [_ Hr]. rewrite Hr in *. lia.
  - by apply heaps_stale_step.
Qed.

Lemma usable_not_inactive c w : usable_weight c = Some w → inactive_weight c = None ∧ redundant c = false ∧ w = active_used_weight c ∧ used c = false ∧ 0 < w.
Proof.
  unfold usable_weight, inactive_weight, redundant. destruct (used c); simpl; [done|]. case_bool_decide; [done|]. intros [= <-].
  rewrite !bool_decide_eq_false_2 by tauto. split_and!; done || lia.
Qed.
Lemma inactive_not_usable c w : inactive_weight c = Some w → usable_weight c = None ∧ redundant c = false ∧ w = length (intermediate_symbol_ids c) ∧ 0 < w.
Proof.
  unfold usable_weight, inactive_weight, redundant. case_bool_decide as H; [|done]. intros [= <-]. destruct H as [H1 H2].
  rewrite (bool_decide_eq_true_2 (_ = 0)), orb_true_r by done. rewrite bool_decide_eq_false_2 by tauto. split_and!; try done.
  destruct (intermediate_symbol_ids c); [done|simpl; lia].
Qed.

Lemma not_stale_of_usable w : usable_weight b = Some w → i ∉ stale.
Proof.
  intros (_ & _ & -> & _ & Hw)%usable_not_inactive Hs. destruct (h_stale _ _ _ _ _ Hh i Hs) as (c & Hc & Hw' & _). simplify_eq. lia.
Qed.

(** A lighter buffer that is still usable. *)
Lemma heaps_update_usable w w' : usable_weight b = Some w → usable_weight b' = Some w' →
  ∃ h1', update_buffer_weight h1 i w' = Ret h1' ∧ heaps (<[i := b']> bs) h1' h2 nr stale.
Proof.
  intros Hw Hw'. pose proof (not_stale_of_usable w Hw) as Hs.
  destruct (h_usable _ _ _ _ _ Hh) as (m1 & Hm1 & H1). destruct (h_inactive _ _ _ _ _ Hh) as (m2 & Hm2 & [H2 H2']%stale_iff).
  destruct (usable_not_inactive _ _ Hw) as (Hin & Hr & _). destruct (usable_not_inactive _ _ Hw') as (Hin' & Hr' & _).
  destruct (update_buffer_weight_ok h1 m1 i w' w Hm1) as (h1' & -> & Hok); [by rewrite H1, Hi|]. exists h1'. split; [done|]. split.
  - exists (<[i := w']> m1). split; [done|]. intros k. by apply (slot_insert _ bs m1 i b b' w' (λ _, True)).
  - exists m2. split; [done|]. apply stale_iff. split; [done|]. apply (slot_same _ bs m2 i b b' (λ i, i ∉ stale)); [done|congruence|done].
  - pose proof (redundant_step Hs) as H. rewrite Hr, Hr' in H. lia.
  - by apply heaps_stale_step.
Qed.

(** A usable buffer that leaves its heap: it is used, inactivated or
    redundant afterwards. *)
Lemma heaps_remove_usable w : usable_weight b = Some w → usable_weight b' = None →
  ∃ h1', remove_buffer_weight h1 i = Ret (h1', w) ∧
    (inactive_weight b' = None → redundant b' = false → heaps (<[i := b']> bs) h1' h2 nr stale) ∧
    (inactive_weight b' = None → redundant b' = true → heaps (<[i := b']> bs) h1' h2 (nr + 1) stale) ∧
    (∀ w', inactive_weight b' = Some w' → (N.of_nat (length bs) < 65536)%N →
      ∃ h2', insert_buffer_weight h2 i w' = Ret h2' ∧ heaps (<[i := b']> bs) h1' h2' nr stale).
Proof.
  intros Hw Hw'. pose proof (not_stale_of_usable w Hw) as Hs.
  destruct (h_usable _ _ _ _ _ Hh) as (m1 & Hm1 & H1). destruct (h_inactive _ _ _ _ _ Hh) as (m2 & Hm2 & [H2 H2']%stale_iff).
  destruct (usable_not_inactive _ _ Hw) as (Hin & Hr & _).
  destruct (remove_buffer_weight_ok h1 m1 i w Hm1) as (h1' & -> & Hok); [by rewrite H1, Hi|]. exists h1'. split; [done|].
  pose proof (redundant_step Hs) as Hred. rewrite Hr in Hred. simpl in Hred.
  assert (∃ m, heap_ok h1' m ∧ ∀ k, m !! k = <[i := b']> bs !! k ≫= usable_weight) as Hu.
  { exists (delete i m1). split; [done|]. intros k. by apply (slot_delete _ bs m1 i b b' (λ _, True)). }
  split_and!.
  - intros Hin' Hr'. split; [done| | |by apply heaps_stale_step].
    + exists m2. split; [done|]. apply stale_iff. split; [done|]. apply (slot_same _ bs m2 i b b' (λ i, i ∉ stale)); [done|congruence|done].
    + rewrite Hr' in Hred. simpl in Hred. lia.
  - intros Hin' Hr'. split; [done| | |by apply heaps_stale_step].
    + exists m2. split; [done|]. apply stale_iff. split; [done|]. apply (slot_same _ bs m2 i b b' (λ i, i ∉ stale)); [done|congruence|done].
    + rewrite Hr' in Hred. simpl in Hred. lia.
  - intros w' Hin' H16. assert (∀ k, is_Some (m2 !! k) → k < length bs) as Hdom.
    { intros k Hk. destruct (decide (k ∈ stale)) as [Hks|Hks].
      - destruct (h_stale _ _ _ _ _ Hh k Hks) as (c & Hc & _). by apply lookup_lt_Some in Hc.
      - rewrite H2' in Hk by done. destruct (bs !! k) eqn:E; [by apply lookup_lt_Some in E|by destruct Hk]. }
    destruct (insert_buffer_weight_ok h2 m2 i w' Hm2) as (h2' & -> & Hok2).
    { rewrite H2' by done. by rewrite Hi. }
    { apply lookup_lt_Some in Hi. lia. }
    { rewrite (heap_ok_size h2 m2 Hm2). pose proof (slot_size m2 _ Hdom). lia. }
    exists h2'. split; [done|]. destruct (inactive_not_usable _ _ Hin') as (_ & Hr' & _). split; [done| | |by apply heaps_stale_step].
    + exists (<[i := w']> m2). split; [done|]. apply stale_iff. split.
      * intros k Hk. rewrite lookup_insert_ne by (by intros ->). by apply H2.
      * by apply (slot_insert _ bs m2 i b b' w' (λ i, i ∉ stale)).
    + rewrite Hr' in Hred. simpl in Hred. lia.
Qed.

(** An inactivated buffer whose entry is brought up to date, which takes it
    from those that are stale. *)
Section inactive.
Context (stale' : list nat).
Hypothesis (Hst : ∀ k, k ∈ stale' ↔ k ∈ stale ∧ k ≠ i) (Hfrom : i ∈ stale ∨ is_Some (inactive_weight b)) (Hto : usable_weight b' = None).

Lemma inactive_unusable : usable_weight b = None.
Proof using Hh Hi Hfrom.
  destruct Hfrom as [Hs|[w Hw]]; [|by apply (inactive_not_usable b w)].
  destruct (h_stale _ _ _ _ _ Hh i Hs) as (c & Hc & Hw & Hu). simplify_eq. unfold usable_weight. rewrite Hw, bool_decide_eq_true_2 by done.
  by rewrite orb_true_r.
Qed.

Lemma inactive_redundant_step :
  bcount (λ i b, redundant b && bool_decide (i ∉ stale')) (<[i := b']> bs) = nr + b2n (redundant b').
Proof using Hh Hi Hst Hfrom.
  rewrite (h_redundant _ _ _ _ _ Hh).
  pose proof (bcount_insert (λ i b, redundant b && bool_decide (i ∉ stale)) (λ i b, redundant b && bool_decide (i ∉ stale')) bs i b b' Hi) as H.
  cbv beta in H. rewrite (bool_decide_eq_true_2 (i ∉ stale')), andb_true_r in H by (rewrite Hst; tauto).
  assert (redundant b && bool_decide (i ∉ stale) = false) as E.
  { destruct Hfrom as [Hs|[w Hw]]; [rewrite (bool_decide_eq_false_2 (i ∉ stale)) by tauto; apply andb_false_r|].
    by destruct (inactive_not_usable b w Hw) as (_ & -> & _). }
  rewrite E in H. simpl in H. rewrite Nat.add_0_r in H. apply H. intros k c Hk _. f_equal. apply bool_decide_ext. rewrite Hst. tauto.
Qed.

Lemma inactive_entry (m2 : gmap nat nat) : (∀ i, i ∈ stale → is_Some (m2 !! i)) → (∀ i, i ∉ stale → m2 !! i = bs !! i ≫= inactive_weight) → is_Some (m2 !! i).
Proof using Hi Hfrom.
  intros H2 H2'. destruct (decide (i ∈ stale)) as [Hs|Hs]; [by apply H2|]. rewrite H2', Hi by done. simpl. tauto.
Qed.

Lemma inactive_stale_step : ∀ k, k ∈ stale' → ∃ b, <[i := b']> bs !! k = Some b ∧ active_used_weight b = 0 ∧ used b = false.
Proof using Hh Hst.
  intros k [Hk Hki]%Hst. destruct (h_stale _ _ _ _ _ Hh k Hk) as (c & Hc & Hw). rewrite list_lookup_insert_ne by done. eauto.
Qed.

Lemma inactive_usable_map : ∃ m, heap_ok h1 m ∧ ∀ k, m !! k = <[i := b']> bs !! k ≫= usable_weight.
Proof using Hh Hi Hfrom Hto.
  destruct (h_usable _ _ _ _ _ Hh) as (m1 & Hm1 & H1). exists m1. split; [done|]. intros k.
  apply (slot_same _ bs m1 i b b' (λ _, True)); [done|by rewrite inactive_unusable, Hto|done|done].
Qed.

Lemma heaps_update_inactive w' : inactive_weight b' = Some w' →
  ∃ h2', update_buffer_weight h2 i w' = Ret h2' ∧ heaps (<[i := b']> bs) h1 h2' nr stale'.
Proof using Hh Hi Hst Hfrom Hto.
  intros Hw'. destruct (h_inactive _ _ _ _ _ Hh) as (m2 & Hm2 & [H2 H2']%stale_iff).
  destruct (inactive_entry m2 H2 H2') as [w Hw]. destruct (update_buffer_weight_ok h2 m2 i w' w Hm2 Hw) as (h2' & -> & Hok).
  exists h2'. split; [done|]. split; [apply inactive_usable_map| | |apply inactive_stale_step].
  - exists (<[i := w']> m2). split; [done|]. pose proof (lookup_lt_Some _ _ _ Hi). apply stale_iff. split.
    + intros k [Hk Hki]%Hst. rewrite lookup_insert_ne by done. by apply H2.
    + intros k Hk. destruct (decide (k = i)) as [->|Hki].
      * by rewrite lookup_insert_eq, list_lookup_insert_eq.
      * rewrite lookup_insert_ne, list_lookup_insert_ne by done. apply H2'. intros Hks. apply Hk, Hst. done.
  - rewrite inactive_redundant_step. destruct (inactive_not_usable _ _ Hw') as (_ & -> & _). simpl. lia.
Qed.

Lemma heaps_remove_inactive : inactive_weight b' = None →
  ∃ h2' w, remove_buffer_weight h2 i = Ret (h2', w) ∧ heaps (<[i := b']> bs) h1 h2' (nr + b2n (redundant b')) stale'.
Proof using Hh Hi Hst Hfrom Hto.
  intros Hw'. destruct (h_inactive _ _ _ _ _ Hh) as (m2 & Hm2 & [H2 H2']%stale_iff).
  destruct (inactive_entry m2 H2 H2') as [w Hw]. destruct (remove_buffer_weight_ok h2 m2 i w Hm2 Hw) as (h2' & -> & Hok).
  exists h2', w. split; [done|]. split; [apply inactive_usable_map| |by rewrite inactive_redundant_step|apply inactive_stale_step].
  exists (delete i m2). split; [done|]. pose proof (lookup_lt_Some _ _ _ Hi). apply stale_iff. split.
  - intros k [Hk Hki]%Hst. rewrite lookup_delete_ne by done. by apply H2.
  - intros k Hk. destruct (decide (k = i)) as [->|Hki].
    + by rewrite lookup_delete_eq, list_lookup_insert_eq.
    + rewrite lookup_delete_ne, list_lookup_insert_ne by done. apply H2'. intros Hks. apply Hk, Hst. done.
Qed.
End inactive.
End heaps.

(** ** Lowering a weight *)

Lemma non_zero_ret w : 0 < w → (N.of_nat w < 65536)%N → non_zero w = Ret w.
Proof.
  intros H0 H16. unfold non_zero. rewrite u16_try_from_ret by done. cbn [mbind outcome_bind]. by rewrite bool_decide_eq_false_2 by lia.
Qed.

(** A set of symbols fits in 16 bits. *)
Lemma core_ids_length p bs ss np extra over under unc i b : core p bs ss np extra over under unc → bs !! i = Some b →
  (N.of_nat (length (intermediate_symbol_ids b)) < 65536)%N.
Proof.
  intros Hc Hi. destruct (c_ids _ _ _ _ _ _ _ _ Hc i b Hi) as [Hs Hr].
  pose proof (sorted_length_le _ _ Hs Hr) as Hle. rewrite (c_length _ _ _ _ _ _ _ _ Hc) in Hle. pose proof (po_prime_le _ (c_params _ _ _ _ _ _ _ _ Hc)). lia.
Qed.
Lemma live_le ss ids : live ss ids ≤ length ids.
Proof. apply length_filter. Qed.

Lemma core_redundant_lt bs h1 h2 nr stale i b : heaps bs h1 h2 nr stale → bs !! i = Some b → redundant b = false → nr < length bs.
Proof.
  intros Hh Hi Hr. rewrite (h_redundant _ _ _ _ _ Hh). eapply bcount_lt; [done|]. cbv beta. by rewrite Hr.
Qed.

Lemma core_set_weight p bs ss np extra over under unc i b w : core p bs ss np extra (i :: over) under unc → i ∉ over →
  bs !! i = Some b → used b = false → active_used_weight b = S w →
  core p (<[i := {| b with active_used_weight := w |}]> bs) ss np extra over under unc.
Proof.
  intros Hc Hov Hi Hu Hw. pose proof (lookup_lt_Some _ _ _ Hi) as Hlt. set (b' := {| b with active_used_weight := w |}).
  assert (∀ k c, <[i := b']> bs !! k = Some c → (k = i ∧ c = b') ∨ (k ≠ i ∧ bs !! k = Some c)) as Hlook.
  { intros k c Hk. destruct (decide (k = i)) as [->|Hne].
    - rewrite list_lookup_insert_eq in Hk by done. left. by simplify_eq.
    - rewrite list_lookup_insert_ne in Hk by done. by right. }
  destruct Hc as [H1 H2 H3 H4 H5 H6 H7 H8 H9 H10]. split; try done; try (rewrite length_insert; done).
  - intros k c [[-> ->]|[_ Hk]]%Hlook; [by apply (H4 i b)|by apply (H4 k c)].
  - intros k c j s [[-> ->]|[_ Hk]]%Hlook Hj; [by apply (H6 i b)|by apply (H6 k c)].
  - intros k c [[-> ->]|[Hne Hk]]%Hlook.
    + pose proof (H7 i b Hi) as E. rewrite (bool_decide_eq_true_2 (i ∈ i :: over)) in E by left.
      rewrite (bool_decide_eq_false_2 (i ∈ over)) by done. cbn [b2n] in *. simpl. lia.
    + rewrite (H7 k c Hk). f_equal. f_equal. apply bool_decide_ext. rewrite elem_of_cons. tauto.
  - intros k c [[-> ->]|[Hne Hk]]%Hlook; [simpl; congruence|by apply H8].
  - intros k j Hj. destruct (H9 k j Hj) as (c & Hk & Hc). destruct (decide (k = i)) as [->|]; [simplify_eq; destruct Hc; congruence|].
    exists c. by rewrite list_lookup_insert_ne.
  - rewrite H10. pose proof (bcount_insert (λ i b, paired_with (num_source_symbols p) b && bool_decide (i ∉ unc))
      (λ i b, paired_with (num_source_symbols p) b && bool_decide (i ∉ unc)) bs i b b' Hi ltac:(done)) as E. cbv beta in E.
    assert (paired_with (num_source_symbols p) b' = paired_with (num_source_symbols p) b) as Ep by done. rewrite Ep in E. lia.
Qed.

(** [decrement_buffer_weight] on a buffer whose weight is one too many. *)
Lemma decrement_ok d extra over under unc stale i b : mid d extra (i :: over) under unc stale → i ∉ over → i ∉ under →
  buffer_state d !! i = Some b → used b = false → i ∉ stale →
  ∃ d', decrement_buffer_weight d i = Ret d' ∧ mid d' extra over under unc stale ∧ same d d' ∧
    intermediate_symbol_state d' = intermediate_symbol_state d ∧
    buffer_state d' = <[i := {| b with active_used_weight := active_used_weight b - 1 |}]> (buffer_state d).
Proof.
  intros [Hc Hh] Hov Hun Hi Hu Hst. pose proof (c_weight _ _ _ _ _ _ _ _ Hc i b Hi) as Hw.
  rewrite (bool_decide_eq_true_2 (i ∈ i :: over)), (bool_decide_eq_false_2 (i ∈ under)) in Hw by (done || left). cbn [b2n] in Hw.
  destruct (active_used_weight b) as [|w] eqn:Ew; [lia|].
  pose proof (core_ids_length _ _ _ _ _ _ _ _ _ _ Hc Hi) as H16. pose proof (live_le (intermediate_symbol_state d) (intermediate_symbol_ids b)) as Hlive.
  unfold decrement_buffer_weight. rewrite (vec_get_ret _ _ _ Hi). cbn [mbind outcome_bind]. rewrite Ew. cbn [u16_decr mbind outcome_bind].
  rewrite vec_set_ret by (by apply lookup_lt_Some in Hi). cbn [mbind outcome_bind buffer_state buffers_active_usable buffers_inactivated num_redundant_buffers].
  set (b' := {| b with active_used_weight := w |}). replace (S w - 1) with w by lia. fold b'.
  pose proof (core_set_weight _ _ _ _ _ _ _ _ _ _ _ Hc Hov Hi Hu Ew) as Hc'. fold b' in Hc'.
  assert (usable_weight b = Some (S w)) as Hub by (unfold usable_weight; by rewrite Hu, Ew).
  case_bool_decide as Hpos.
  - rewrite non_zero_ret by lia. cbn [mbind outcome_bind].
    destruct (heaps_update_usable _ _ _ _ _ _ _ b' Hh Hi (S w) w Hub) as (h & -> & Hh').
    { unfold usable_weight, b'. simpl. by rewrite Hu, bool_decide_eq_false_2 by lia. }
    cbn [mbind outcome_bind]. eexists. split; [done|]. split; [by split|]. split; [|done]. split; simpl; [done|by rewrite length_insert|done..].
  - assert (w = 0) as -> by lia.
    destruct (heaps_remove_usable _ _ _ _ _ _ _ b' Hh Hi 1 Hub) as (h & -> & _ & Hred & Hinact).
    { unfold usable_weight, b'. simpl. by rewrite Hu. }
    cbn [mbind outcome_bind rust_assert buffer_state buffers_active_usable buffers_inactivated num_redundant_buffers].
    rewrite (bool_decide_eq_true_2 (1 = 1)) by done. cbn [mbind outcome_bind rust_assert]. case_bool_decide as Hlen.
    + rewrite non_zero_ret by lia. cbn [mbind outcome_bind].
      destruct (Hinact (length (intermediate_symbol_ids b))) as (h2 & -> & Hh').
      { unfold inactive_weight, b'. simpl. rewrite bool_decide_eq_true_2; [done|]. split; [done|]. by destruct (intermediate_symbol_ids b). }
      { apply (c_buffers _ _ _ _ _ _ _ _ Hc). }
      cbn [mbind outcome_bind]. eexists. split; [done|]. split; [by split|]. split; [|done]. split; simpl; [done|by rewrite length_insert|done..].
    + assert (intermediate_symbol_ids b = []) as Hnil by (destruct (intermediate_symbol_ids b); [done|simpl in Hlen; lia]).
      assert (num_redundant_buffers d < length (buffer_state d)).
      { eapply core_redundant_lt; [done|done|]. unfold redundant. rewrite Ew. by rewrite bool_decide_eq_false_2 by lia. }
      unfold u16_incr. rewrite u16_try_from_ret by (pose proof (c_buffers _ _ _ _ _ _ _ _ Hc); lia). cbn [mbind outcome_bind].
      eexists. split; [done|]. split.
      * split; [done|]. apply Hred.
        -- unfold inactive_weight, b'. simpl. rewrite Hnil. by rewrite bool_decide_eq_false_2 by tauto.
        -- unfold redundant, b'. simpl. rewrite Hnil. by rewrite bool_decide_eq_true_2.
      * split; [|done]. split; simpl; [done|by rewrite length_insert|done|lia].
Qed.

(** * The decoder's own check passes

    [check] holds in every state with the invariant. *)

(** ** States of buffers *)

Section states.
Context (b : Buffer) (Hu : used b = true → active_used_weight b = 1).

#[local] Ltac state_cases :=
  unfold buffer_state_of, usable_weight, inactive_weight, redundant; destruct (used b) eqn:?;
  [rewrite Hu by done|]; destruct (intermediate_symbol_ids b); repeat case_bool_decide; simpl in *; simplify_eq; naive_solver lia.

Lemma state_usable : (if bool_decide (buffer_state_of b = BActive ∨ buffer_state_of b = BUsable) then Some (active_used_weight b) else None) = usable_weight b.
Proof using Hu. state_cases. Qed.
Lemma state_inactive : (if bool_decide (buffer_state_of b = BInactivated) then Some (length (intermediate_symbol_ids b)) else None) = inactive_weight b.
Proof using Hu. state_cases. Qed.
Lemma state_redundant : bool_decide (buffer_state_of b = BRedundant) = redundant b.
Proof using Hu. state_cases. Qed.
Lemma state_used : used b = true → buffer_state_of b = BUsed.
Proof using Hu. intros E. unfold buffer_state_of. by rewrite Hu, E. Qed.
Lemma state_used_inv : buffer_state_of b = BUsed → used b = true.
Proof using Hu. state_cases. Qed.
End states.

Lemma paired_source_ok d b : (used b = true → active_used_weight b = 1) →
  paired_source d b = Ret (paired_with (num_source_symbols (params d)) b).
Proof.
  intros Hu. unfold paired_source, is_paired, paired_with, first_intermediate_symbol_id.
  pose proof (state_used b Hu) as H1. pose proof (state_used_inv b Hu) as H2. destruct (used b).
  - rewrite H1 by done. destruct (intermediate_symbol_ids b) as [|j [|k l]]; done.
  - rewrite bool_decide_eq_false_2; [done|]. intros H%H2. done.
Qed.

(** ** The two mappings *)

Lemma mat_ext m m' : mat_wf m → mat_wf m' → nrows m = nrows m' → ncols m = ncols m' →
  (∀ i j, i < nrows m → j < ncols m → entry m i j = entry m' i j) → mat_data m = mat_data m'.
Proof.
  intros Hw Hw' Hr Hc He. apply list_eq_same_length with (nrows m * ncols m); [unfold mat_wf in Hw'; congruence|done|].
  intros k x y Hk Hx Hy. assert (ncols m ≠ 0) as H0 by lia.
  pose proof (Nat.div_mod_eq k (ncols m)) as Hdiv. pose proof (Nat.mod_upper_bound k (ncols m) H0) as Hmod.
  assert (k / ncols m < nrows m) as Hq by (apply Nat.Div0.div_lt_upper_bound; lia).
  specialize (He _ _ Hq Hmod). unfold entry in He. rewrite <- Hc in He.
  replace (k / ncols m * ncols m + k `mod` ncols m) with k in He by lia. rewrite Hx, Hy in He. done.
Qed.

Lemma mat_from_element_ok r c : mat_wf (mat_from_element r c false) ∧ ∀ i j, entry (mat_from_element r c false) i j = false.
Proof.
  split; [unfold mat_wf; simpl; by rewrite length_replicate|]. intros i j. unfold entry. simpl.
  destruct (replicate (r * c) false !! (i * c + j)) eqn:E; [|done]. by apply lookup_replicate in E as [-> _].
Qed.

Lemma marks_ok {A} (f : A → nat * nat) r c l m : mat_wf m → nrows m = r → ncols m = c → (∀ x, x ∈ l → (f x).1 < r ∧ (f x).2 < c) →
  ∃ m', for_each (λ m x, mat_update m (f x).1 (f x).2 true) m l = Ret m' ∧ mat_wf m' ∧ nrows m' = r ∧ ncols m' = c ∧
    ∀ i j, j < c → entry m' i j = entry m i j || bool_decide ((i, j) ∈ f <$> l).
Proof.
  revert m. induction l as [|x l IH]; intros m Hw Hr Hc Hl.
  { exists m. split_and!; try done. intros i j _. rewrite bool_decide_eq_false_2 by set_solver. by rewrite orb_false_r. }
  cbn [for_each]. destruct (Hl x) as [Hx1 Hx2]; [left|].
  destruct (mat_update_ret m (f x).1 (f x).2 true) as (m1 & -> & Hw1 & Hr1 & Hc1 & He1); [done|lia..|]. cbn [mbind outcome_bind].
  destruct (IH m1) as (m2 & -> & Hw2 & Hr2 & Hc2 & He2); [done|lia..|intros y Hy; apply Hl; by right|].
  exists m2. split_and!; try done. intros i j Hj. rewrite He2 by done. rewrite He1 by lia. rewrite fmap_cons. case_decide as H.
  - destruct H as [-> ->]. rewrite (bool_decide_eq_true_2 (_ ∈ f x :: _)) by (destruct (f x); left). by rewrite orb_true_r.
  - f_equal. apply bool_decide_ext. rewrite elem_of_cons. split; [tauto|]. intros [E|]; [|done]. destruct (f x); naive_solver.
Qed.

(** A matrix that is marked row by row, or column by column. *)
Lemma mapping_ok {A} (l : list A) (g : A → list nat) (f : nat → nat → nat * nat) r c :
  (∀ k y x, l !! k = Some x → y ∈ g x → (f k y).1 < r ∧ (f k y).2 < c) →
  ∃ m, for_each (λ m k, x ← vec_get l k; for_each (λ m y, mat_update m (f k y).1 (f k y).2 true) m (g x)) (mat_from_element r c false)
      (seq 0 (length l)) = Ret m ∧ mat_wf m ∧ nrows m = r ∧ ncols m = c ∧
    ∀ i j, j < c → entry m i j = true ↔ ∃ k x y, l !! k = Some x ∧ y ∈ g x ∧ f k y = (i, j).
Proof.
  intros Hr.
  destruct (for_each_ok (λ rest m, ∃ n, rest = seq n (length l - n) ∧ n ≤ length l ∧ mat_wf m ∧ nrows m = r ∧ ncols m = c ∧
      ∀ i j, j < c → entry m i j = true ↔ ∃ k x y, k < n ∧ l !! k = Some x ∧ y ∈ g x ∧ f k y = (i, j))
    (λ m k, x ← vec_get l k; for_each (λ m y, mat_update m (f k y).1 (f k y).2 true) m (g x))
    (seq 0 (length l)) (mat_from_element r c false)) as (m & -> & n & Hrest & Hn & Hw & Hrr & Hcc & He).
  - intros k rest m (n & Hrest & Hn & Hw & Hrr & Hcc & He). destruct (decide (n = length l)) as [->|]; [by rewrite Nat.sub_diag in Hrest|].
    replace (length l - n) with (S (length l - S n)) in Hrest by lia. injection Hrest as -> ->.
    destruct (lookup_lt_is_Some_2 l n) as [x Hx]; [lia|]. rewrite (vec_get_ret _ _ _ Hx). cbn [mbind outcome_bind].
    destruct (marks_ok (f n) r c (g x) m) as (m' & -> & Hw' & Hr' & Hc' & He'); [done..|intros y Hy; by apply (Hr n y x)|].
    exists m'. split; [done|]. exists (S n). split; [done|]. split; [lia|]. split_and!; try done. intros i j Hj. rewrite He' by done.
    rewrite orb_true_iff, He, bool_decide_eq_true, list_elem_of_fmap by done. split.
    + intros [(k & x' & y & Hk & H)|(y & Hy & Hyg)]; [exists k, x', y; split; [lia|done]|exists n, x, y; split; [lia|by rewrite <- Hy]].
    + intros (k & x' & y & Hk & Hx' & Hy & Hf). destruct (decide (k = n)) as [->|]; [right; simplify_eq; by exists y|].
      left. exists k, x', y. split; [lia|done].
  - exists 0. rewrite Nat.sub_0_r. destruct (mat_from_element_ok r c) as [Hw He]. split_and!; try done; [lia|].
    intros i j _. rewrite He. split; [done|]. intros (k & x & y & Hk & _). lia.
  - exists m. split; [done|]. split_and!; try done. intros i j Hj. rewrite He by done. split.
    + intros (k & x & y & _ & H). by exists k, x, y.
    + intros (k & x & y & Hx & H). exists k, x, y. split; [|done]. apply lookup_lt_Some in Hx.
      destruct (length l - n) eqn:E; [lia|done].
Qed.

Lemma check_elements_match_ok d : dinv d → check_elements_match d = Ret tt.
Proof.
  intros [Hc _]. unfold check_elements_match, buffer_state_to_mapping, intermediate_symbol_state_to_mapping.
  destruct (mapping_ok (buffer_state d) intermediate_symbol_ids (λ i j, (i, j)) (length (buffer_state d)) (length (intermediate_symbol_state d)))
    as (m1 & H1 & Hw1 & Hr1 & Hc1 & He1).
  { intros k y b Hk Hy. simpl. split; [by apply lookup_lt_Some in Hk|by apply (c_ids _ _ _ _ _ _ _ _ Hc k b)]. }
  destruct (mapping_ok (intermediate_symbol_state d) symbol_buffers (λ j i, (i, j)) (length (buffer_state d)) (length (intermediate_symbol_state d)))
    as (m2 & H2 & Hw2 & Hr2 & Hc2 & He2).
  { intros k y s Hk Hy. simpl. split; [by apply (c_indices _ _ _ _ _ _ _ _ Hc k s)|by apply lookup_lt_Some in Hk]. }
  cbn [fst snd] in H1, H2. rewrite H1. cbn [mbind outcome_bind]. rewrite H2. cbn [mbind outcome_bind].
  rewrite (mat_ext m1 m2); [|done|done|congruence|congruence|].
  - rewrite !bool_decide_eq_true_2 by congruence. done.
  - intros i j Hi Hj. rewrite Hr1 in Hi. rewrite Hc1 in Hj. apply eq_bool_prop_intro. rewrite !Is_true_true, He1, He2 by done.
    destruct (lookup_lt_is_Some_2 _ _ Hi) as [b Hb]. destruct (lookup_lt_is_Some_2 _ _ Hj) as [s Hs].
    pose proof (c_match _ _ _ _ _ _ _ _ Hc i b j s Hb Hs) as Hm. unfold no_extra in Hm. split.
    + intros (k & x & y & Hk & Hy & [= -> ->]). simplify_eq. exists j, s, i. split; [done|]. split; [tauto|done].
    + intros (k & x & y & Hk & Hy & [= -> ->]). simplify_eq. exists i, b, j. split; [done|]. split; [tauto|done].
Qed.

(** ** The other parts *)

Lemma active_used_ids_ok ss ids : (∀ j, j ∈ ids → j < length ss) → active_used_ids ss ids = Ret (filter (λ j, is_inact ss j = false) ids).
Proof.
  induction ids as [|j ids IH]; intros Hl; [done|]. cbn [active_used_ids].
  destruct (lookup_lt_is_Some_2 ss j) as [s Hs]; [apply Hl; left|]. rewrite (vec_get_ret _ _ _ Hs). cbn [mbind outcome_bind].
  rewrite IH by (intros k Hk; apply Hl; by right). cbn [mbind outcome_bind]. rewrite filter_cons.
  assert (is_inact ss j = is_inactivated s) as -> by (unfold is_inact; by rewrite Hs). by destruct (is_inactivated s).
Qed.

(** The one symbol that is not inactivated. *)
Lemma live_one ss ids j k : live ss ids = 1 → j ∈ ids → k ∈ ids → is_inact ss j = false → is_inact ss k = false → j = k.
Proof.
  unfold live. intros Hl Hj Hk Hij Hik. destruct (filter (λ j, is_inact ss j = false) ids) as [|x [|y l]] eqn:E; simpl in Hl; try lia.
  assert (j ∈ [x]) as ->%list_elem_of_singleton by (rewrite <- E; by apply list_elem_of_filter).
  assert (k ∈ [x]) as ->%list_elem_of_singleton by (rewrite <- E; by apply list_elem_of_filter). done.
Qed.

Lemma core_live p bs ss np extra i b : core p bs ss np extra [] [] [] → bs !! i = Some b → active_used_weight b = live ss (intermediate_symbol_ids b).
Proof. intros Hc Hi. pose proof (c_weight _ _ _ _ _ _ _ _ Hc i b Hi) as H. simpl in H. lia. Qed.

Lemma check_used_ok d : dinv d → check_used d = Ret tt.
Proof.
  intros [Hc _]. unfold check_used. rewrite (for_each_unit (λ _ b, check_used_buffer d b)); cbn [mbind outcome_bind].
  - apply for_each_unit. intros s [j Hj]%list_elem_of_lookup. destruct s as [| |i]; try done. simpl.
    destruct (c_used_by _ _ _ _ _ _ _ _ Hc i j Hj) as (b & Hi & Hu & _). rewrite (vec_get_ret _ _ _ Hi). cbn [mbind outcome_bind].
    rewrite state_used by (done || (intros _; by apply (c_used _ _ _ _ _ _ _ _ Hc i b))). done.
  - intros b [i Hi]%list_elem_of_lookup. unfold check_used_buffer. destruct (used b) eqn:Hu; [|done]. cbn [negb].
    destruct (c_used _ _ _ _ _ _ _ _ Hc i b Hi Hu) as (Hw & j & Hj & Hjs). rewrite Hw. cbn [mbind outcome_bind rust_assert bool_decide].
    rewrite bool_decide_eq_true_2 by done. cbn [mbind outcome_bind rust_assert].
    rewrite active_used_ids_ok by (intros k; by apply (c_ids _ _ _ _ _ _ _ _ Hc i b)). cbn [mbind outcome_bind].
    pose proof (core_live _ _ _ _ _ i b Hc Hi) as Hl. rewrite Hw in Hl. symmetry in Hl. unfold live in Hl. rewrite bool_decide_eq_true_2 by done.
    cbn [mbind outcome_bind rust_assert]. destruct (filter _ _) as [|x [|y l]] eqn:E; simpl in Hl; try lia. cbn [vec_get lookup list_lookup expect mbind outcome_bind].
    assert (j ∈ [x]) as ->%list_elem_of_singleton.
    { rewrite <- E. apply list_elem_of_filter. split; [|done]. unfold is_inact. by rewrite Hjs. }
    rewrite (vec_get_ret _ _ _ Hjs). done.
Qed.

Lemma weight_map_ok h m : heap_ok h m → weight_map h = Ret m.
Proof.
  intros Hh. unfold weight_map. destruct (weight_map_enumerate_ok h m Hh) as (l & -> & Hl). cbn [mbind outcome_bind]. f_equal.
  assert (∀ (l : list (nat * nat)) (m0 : gmap nat nat), foldl (λ m e, <[e.1 := e.2]> m) m0 l = list_to_map (reverse l) ∪ m0) as Hfold.
  { clear. induction l as [|[k v] l IH]; intros m0; simpl; [exact (eq_sym (left_id_L ∅ (∪) m0))|]. rewrite IH, reverse_cons, list_to_map_app. simpl.
    rewrite <- (assoc_L (∪)). f_equal. rewrite insert_empty, <- insert_union_singleton_l. done. }
  rewrite Hfold, (right_id_L ∅ (∪)).
  rewrite (list_to_map_proper (reverse l) (map_to_list m)); [apply list_to_map_to_list| |by rewrite reverse_Permutation].
  rewrite reverse_Permutation, Hl. apply NoDup_fst_map_to_list.
Qed.

(** A map that is built from the buffers in order. *)
Lemma build_map_ok (bs : list Buffer) (step : gmap nat nat → nat → outcome (gmap nat nat)) (f : Buffer → option nat) :
  (∀ m i b, bs !! i = Some b → step m i = Ret (match f b with Some w => <[i := w]> m | None => m end)) →
  ∃ m, for_each step ∅ (seq 0 (length bs)) = Ret m ∧ ∀ i, m !! i = bs !! i ≫= f.
Proof.
  intros Hstep.
  destruct (for_each_ok (λ rest m, ∃ n, rest = seq n (length bs - n) ∧ n ≤ length bs ∧ ∀ i, m !! i = if decide (i < n) then bs !! i ≫= f else None)
    step (seq 0 (length bs)) ∅) as (m & -> & n & Hrest & Hn & Hm).
  - intros k rest m (n & Hrest & Hn & Hm). destruct (decide (n = length bs)) as [->|]; [by rewrite Nat.sub_diag in Hrest|].
    replace (length bs - n) with (S (length bs - S n)) in Hrest by lia. injection Hrest as -> ->.
    destruct (lookup_lt_is_Some_2 bs n) as [b Hb]; [lia|]. rewrite (Hstep m n b Hb). eexists. split; [done|]. exists (S n). split; [done|].
    split; [lia|]. intros i. destruct (f b) as [w|] eqn:Hf; (destruct (decide (i = n)) as [->|Hne];
      [|rewrite ?lookup_insert_ne by done; rewrite Hm; repeat case_decide; done || lia]).
    + rewrite lookup_insert_eq, decide_True, Hb by lia. done.
    + rewrite Hm, decide_False, decide_True, Hb by lia. done.
  - exists 0. rewrite Nat.sub_0_r. split; [done|]. split; [lia|]. intros i. by rewrite lookup_empty.
  - exists m. split; [done|]. intros i. rewrite Hm. case_decide; [done|]. destruct (length bs - n) eqn:E; [|done].
    rewrite (proj2 (lookup_ge_None bs i)) by lia. done.
Qed.

Lemma core_used_weight p bs ss np extra over under unc i b : core p bs ss np extra over under unc → bs !! i = Some b →
  used b = true → active_used_weight b = 1.
Proof. intros Hc Hi Hu. by apply (c_used _ _ _ _ _ _ _ _ Hc i b). Qed.

Lemma check_active_usable_ok d : dinv d → check_active_usable d = Ret tt.
Proof.
  intros [Hc Hh]. unfold check_active_usable. destruct (h_usable _ _ _ _ _ Hh) as (m & Hm & Hmi). rewrite (weight_map_ok _ _ Hm).
  cbn [mbind outcome_bind].
  match goal with |- context [for_each ?step ∅ _] => destruct (build_map_ok (buffer_state d) step usable_weight) as (m' & -> & Hm') end.
  - intros m' i b Hi. rewrite (vec_get_ret _ _ _ Hi). cbn [mbind outcome_bind].
    rewrite active_used_ids_ok by (intros k; by apply (c_ids _ _ _ _ _ _ _ _ Hc i b)). cbn [mbind outcome_bind].
    pose proof (core_live _ _ _ _ _ i b Hc Hi) as Hl. unfold live in Hl. rewrite <- Hl. rewrite (bool_decide_eq_true_2 (_ = _)) by done.
    cbn [mbind outcome_bind rust_assert]. rewrite <- state_usable by by eapply core_used_weight.
    case_bool_decide; [|done]. rewrite u16_try_from_ret; [done|]. pose proof (lookup_lt_Some _ _ _ Hi). pose proof (c_buffers _ _ _ _ _ _ _ _ Hc). lia.
  - cbn [mbind outcome_bind]. rewrite bool_decide_eq_true_2; [done|]. apply map_eq. intros i. by rewrite Hmi, Hm'.
Qed.

Lemma check_inactivated_ok d : dinv d → check_inactivated d = Ret tt.
Proof.
  intros [Hc Hh]. unfold check_inactivated. destruct (h_inactive _ _ _ _ _ Hh) as (m & Hm & Hmi). rewrite (weight_map_ok _ _ Hm).
  cbn [mbind outcome_bind].
  match goal with |- context [for_each ?step ∅ _] => destruct (build_map_ok (buffer_state d) step inactive_weight) as (m' & -> & Hm') end.
  - intros m' i b Hi. rewrite (vec_get_ret _ _ _ Hi). cbn [mbind outcome_bind]. rewrite <- state_inactive by by eapply core_used_weight.
    case_bool_decide; [|done]. rewrite (u16_try_from_ret i).
    + cbn [mbind outcome_bind]. by rewrite u16_try_from_ret by by eapply core_ids_length.
    + pose proof (lookup_lt_Some _ _ _ Hi). pose proof (c_buffers _ _ _ _ _ _ _ _ Hc). lia.
  - cbn [mbind outcome_bind]. rewrite bool_decide_eq_true_2; [done|]. apply map_eq. intros i. rewrite Hm'. specialize (Hmi i). simpl in Hmi. done.
Qed.

Lemma bcount_filter (f : Buffer → bool) bs : bcount (λ _ b, f b) bs = length (filter (λ b, f b = true) bs).
Proof.
  induction bs as [|b bs IH] using rev_ind; [done|]. rewrite bcount_app, bcount_singleton, filter_app, length_app, IH. f_equal.
  rewrite filter_cons. destruct (f b); done.
Qed.

Lemma check_num_redundant_buffers_ok d : dinv d → check_num_redundant_buffers d = Ret tt.
Proof.
  intros [Hc Hh]. unfold check_num_redundant_buffers. rewrite bool_decide_eq_true_2; [done|]. rewrite (h_redundant _ _ _ _ _ Hh).
  rewrite (bcount_ext _ (λ _ b, bool_decide (buffer_state_of b = BRedundant))).
  - rewrite bcount_filter. f_equal. apply list_filter_iff. intros b. by rewrite bool_decide_eq_true.
  - intros i b Hi. rewrite state_redundant by by eapply core_used_weight. by rewrite andb_true_r.
Qed.

Lemma check_num_source_symbols_paired_ok d : dinv d → check_num_source_symbols_paired d = Ret tt.
Proof.
  intros [Hc Hh]. unfold check_num_source_symbols_paired. set (f := paired_with (num_source_symbols (params d))).
  destruct (for_each_ok (λ l n, ∃ pre, buffer_state d = pre ++ l ∧ n = bcount (λ _ b, f b) pre)
    (λ n b, p ← paired_source d b; Ret (if p : bool then S n else n)) (buffer_state d) 0) as (n & -> & pre & Hpre & ->).
  - intros b l n (pre & Hpre & ->). rewrite paired_source_ok.
    + cbn [mbind outcome_bind]. eexists. split; [done|]. exists (pre ++ [b]). split; [by rewrite <- app_assoc|].
      rewrite bcount_app, bcount_singleton. fold f. destruct (f b); simpl; lia.
    + eapply core_used_weight; [exact Hc|]. rewrite Hpre. by apply list_lookup_middle.
  - by exists [].
  - rewrite app_nil_r in Hpre. subst pre. cbn [mbind outcome_bind]. rewrite bool_decide_eq_true_2; [done|].
    rewrite (c_paired _ _ _ _ _ _ _ _ Hc). apply bcount_ext. intros i b _. cbv beta. rewrite bool_decide_eq_true_2 by set_solver. apply andb_true_r.
Qed.

Lemma check_ok d : dinv d → check d = Ret tt.
Proof.
  intros Hd. unfold check, check_force. rewrite check_elements_match_ok by done. cbn [mbind outcome_bind].
  rewrite check_used_ok by done. cbn [mbind outcome_bind]. rewrite check_active_usable_ok by done. cbn [mbind outcome_bind].
  rewrite check_inactivated_ok by done. cbn [mbind outcome_bind]. rewrite check_num_redundant_buffers_ok by done. cbn [mbind outcome_bind].
  by apply check_num_source_symbols_paired_ok.
Qed.
