(* ===== verification/RaptorPeel.v ===== *)
(** * Reducing one buffer by another, and peeling

    The operations keep the invariant; every turn of [try_peel] uses an active
    symbol. What is known of the state of the caller's buffers is a predicate
    on the rows and that state. *)
From S2P Require Import Prelude RaptorSets RaptorHeap RaptorCode RaptorRows RaptorMatrix RaptorDecoder RaptorInv.
#[local] Open Scope nat_scope.
#[local] Arguments Nat.div : simpl never.

(** ** The exclusive or of two sets of symbols *)

Definition toggled (a : nat) (s s' : IntermediateSymbol) : Prop :=
  ∃ B B', s = Inactivated B ∧ s' = Inactivated B' ∧ sorted B' ∧ ∀ i, i ∈ B' ↔ if decide (i = a) then a ∉ B else i ∈ B.

(** The symbols after those of [bids] have been toggled. *)
Definition symbols_toggled (a : nat) (bids : list nat) (ss ss' : list IntermediateSymbol) : Prop :=
  length ss' = length ss ∧
  ∀ k s, ss !! k = Some s → ∃ s', ss' !! k = Some s' ∧
    if bool_decide (k ∈ bids) && is_inactivated s then toggled a s s' else s' = s.

Lemma xor_symbol_ok a ids ss k s : sorted ids → ss !! k = Some s →
  (if is_inactivated s then sorted (symbol_buffers s) ∧ (k ∈ ids ↔ a ∈ symbol_buffers s) else k ∈ ids) →
  ∃ ids' s', xor_symbol a (ids, ss) k = Ret (ids', <[k := s']> ss) ∧ sorted ids' ∧
    (∀ x, x ∈ ids' ↔ if decide (x = k) then x ∉ ids else x ∈ ids) ∧ if is_inactivated s then toggled a s s' else s' = s.
Proof.
  intros Hs Hk Hcond. cbn [xor_symbol]. rewrite (vec_get_ret _ _ _ Hk). cbn [mbind outcome_bind].
  destruct (is_inactivated s) eqn:Hin; cbn [negb].
  - destruct s as [|B|]; try done. destruct Hcond as [HB Hab]. simpl in HB, Hab.
    destruct (set_insert_or_remove_spec ids k Hs) as (ids' & ins & -> & Hs' & -> & Hmem & _). cbn [mbind outcome_bind].
    case_bool_decide as Hki; cbn [inactivated_insert inactivated_remove].
    + destruct (set_insert_spec B a HB) as (B' & -> & HB' & Hp); [tauto|]. cbn [mbind outcome_bind rust_assert].
      rewrite vec_set_ret by (by apply lookup_lt_Some in Hk). exists ids', (Inactivated B'). split; [done|]. split; [done|]. split; [done|].
      exists B, B'. split_and!; try done. intros i. rewrite Hp, elem_of_cons. case_decide; [subst; tauto|tauto].
    + destruct (set_remove_spec B a HB) as (B' & -> & HB' & Hp); [tauto|]. cbn [mbind outcome_bind rust_assert].
      rewrite vec_set_ret by (by apply lookup_lt_Some in Hk). exists ids', (Inactivated B'). split; [done|]. split; [done|]. split; [done|].
      exists B, B'. split_and!; try done. intros i. pose proof (sorted_nodup B HB) as Hnd. rewrite Hp in Hnd. apply NoDup_cons in Hnd as [Hni _].
      case_decide; rewrite Hp, elem_of_cons; [subst; tauto|tauto].
  - destruct (set_remove_spec ids k Hs Hcond) as (ids' & -> & Hs' & Hp). cbn [mbind outcome_bind rust_assert].
    exists ids', s. rewrite list_insert_id by done. split; [done|]. split; [done|]. split; [|done].
    intros x. pose proof (sorted_nodup ids Hs) as Hnd. rewrite Hp in Hnd. apply NoDup_cons in Hnd as [Hni _].
    case_decide; rewrite Hp, elem_of_cons; [subst; tauto|tauto].
Qed.

Lemma xor_symbols_ok a ids ss bids : sorted ids → NoDup bids →
  (∀ k, k ∈ bids → ∃ s, ss !! k = Some s ∧
     if is_inactivated s then sorted (symbol_buffers s) ∧ (k ∈ ids ↔ a ∈ symbol_buffers s) else k ∈ ids) →
  ∃ ids' ss', for_each (xor_symbol a) (ids, ss) bids = Ret (ids', ss') ∧ sorted ids' ∧
    (∀ k, k ∈ ids' ↔ (k ∈ ids ∧ k ∉ bids) ∨ (k ∈ bids ∧ k ∉ ids)) ∧ symbols_toggled a bids ss ss'.
Proof.
  intros Hs Hnd Hpre.
  destruct (for_each_ok (λ l s, ∃ pre, bids = pre ++ l ∧ sorted s.1 ∧
      (∀ k, k ∈ s.1 ↔ (k ∈ ids ∧ k ∉ pre) ∨ (k ∈ pre ∧ k ∉ ids)) ∧ symbols_toggled a pre ss s.2)
    (xor_symbol a) bids (ids, ss)) as ([ids' ss'] & -> & pre & Hb & Hs' & Hmem & Htog).
  - intros k l [ids1 ss1] (pre & -> & Hs1 & Hm1 & [Hlen1 Ht1]). cbn [fst snd] in *.
    apply NoDup_app in Hnd as (_ & Hdisj & [Hkl _]%NoDup_cons).
    assert (k ∉ pre) as Hkp. { intros H. apply (Hdisj k H). left. }
    destruct (Hpre k) as (s & Hk & Hcond); [apply elem_of_app; right; left|].
    destruct (Ht1 k s Hk) as (s1 & Hk1 & E). rewrite bool_decide_eq_false_2 in E by done. simpl in E. subst s1.
    destruct (xor_symbol_ok a ids1 ss1 k s Hs1 Hk1) as (ids2 & s2 & -> & Hs2 & Hm2 & Ht2).
    { assert (k ∈ ids1 ↔ k ∈ ids) as Hiff by (rewrite Hm1; tauto). destruct (is_inactivated s); [by rewrite Hiff|tauto]. }
    eexists. split; [done|]. exists (pre ++ [k]). cbn [fst snd]. split; [by rewrite <- app_assoc|]. split; [done|]. split.
    + intros x. rewrite Hm2, elem_of_app, list_elem_of_singleton. case_decide as Hxk; [subst; rewrite Hm1; tauto|rewrite Hm1; tauto].
    + split; [by rewrite length_insert|]. intros x sx Hx. destruct (decide (x = k)) as [->|Hne].
      * simplify_eq. exists s2. rewrite list_lookup_insert_eq by (by apply lookup_lt_Some in Hk1). split; [done|].
        rewrite bool_decide_eq_true_2 by (apply elem_of_app; right; left). done.
      * destruct (Ht1 x sx Hx) as (s' & Hx' & E). exists s'. rewrite list_lookup_insert_ne by done. split; [done|].
        rewrite (bool_decide_ext (x ∈ pre ++ [k]) (x ∈ pre)); [done|]. rewrite elem_of_app, list_elem_of_singleton. tauto.
  - exists []. split; [done|]. split; [done|]. split; [cbn [fst snd]; set_solver|]. split; [done|]. intros k s Hk. exists s. split; [done|].
    rewrite bool_decide_eq_false_2 by set_solver. done.
  - rewrite app_nil_r in Hb. subst pre. exists ids', ss'. done.
Qed.

Lemma toggled_kinds a bids ss ss' : symbols_toggled a bids ss ss' → kind <$> ss' = kind <$> ss.
Proof.
  intros [Hlen Ht]. apply list_eq. intros k. rewrite !list_lookup_fmap. destruct (ss !! k) as [s|] eqn:Hk.
  - destruct (Ht k s Hk) as (s' & -> & E). simpl. destruct (bool_decide (k ∈ bids) && is_inactivated s); [|by subst].
    by destruct E as (B & B' & -> & -> & _).
  - apply lookup_ge_None in Hk. rewrite (proj2 (lookup_ge_None ss' k)) by lia. done.
Qed.

Lemma live_xor ss ids bids ids' : NoDup ids → NoDup bids → NoDup ids' →
  (∀ k, k ∈ ids' ↔ (k ∈ ids ∧ k ∉ bids) ∨ (k ∈ bids ∧ k ∉ ids)) → (∀ k, k ∈ bids → is_inact ss k = false → k ∈ ids) →
  live ss ids = live ss ids' + live ss bids.
Proof.
  intros H1 H2 H3 Hm Hin. unfold live. rewrite <- length_app. apply Permutation_length. apply NoDup_Permutation; [by apply NoDup_filter| |].
  - apply NoDup_app. split; [by apply NoDup_filter|]. split; [|by apply NoDup_filter].
    intros k [Ha Hk]%list_elem_of_filter [_ Hb]%list_elem_of_filter. apply Hm in Hk. pose proof (Hin k Hb Ha). tauto.
  - intros k. rewrite elem_of_app, !list_elem_of_filter, Hm. pose proof (Hin k). destruct (decide (k ∈ bids)); tauto.
Qed.

(** The core of the invariant after one buffer was reduced by another. *)
Lemma core_xor p bs ss np extra extra' over over' under unc a ba bids ids' ss' :
  core p bs ss np extra over under unc → bs !! a = Some ba → used ba = false → NoDup bids → (∀ k, k ∈ bids → k < length ss) →
  (∀ k, extra a k → k ∈ bids ∧ is_inact ss k = false) →
  (∀ k s, k ∈ bids → ss !! k = Some s → is_inactivated s = false → a ∉ symbol_buffers s ∧ extra a k) →
  (∀ i k, extra' i k ↔ extra i k ∧ i ≠ a) →
  (∀ k, k ≠ a → k ∈ over' ↔ k ∈ over) → b2n (bool_decide (a ∈ over')) = live ss bids + b2n (bool_decide (a ∈ over)) →
  sorted ids' → (∀ k, k ∈ ids' ↔ (k ∈ intermediate_symbol_ids ba ∧ k ∉ bids) ∨ (k ∈ bids ∧ k ∉ intermediate_symbol_ids ba)) →
  symbols_toggled a bids ss ss' →
  core p (<[a := {| ba with intermediate_symbol_ids := ids' |}]> bs) ss' np extra' over' under unc.
Proof.
  intros Hc Ha Hu Hnd Hlt He1 He2 He' Hov Hova Hs' Hm Htog. pose proof (lookup_lt_Some _ _ _ Ha) as Hal.
  pose proof (toggled_kinds _ _ _ _ Htog) as Hkinds. destruct Htog as [Hlen Ht]. set (ba' := {| ba with intermediate_symbol_ids := ids' |}).
  assert (∀ k c, <[a := ba']> bs !! k = Some c → (k = a ∧ c = ba') ∨ (k ≠ a ∧ bs !! k = Some c)) as Hlook.
  { intros k c Hk. destruct (decide (k = a)) as [->|Hne].
    - rewrite list_lookup_insert_eq in Hk by done. left. by simplify_eq.
    - rewrite list_lookup_insert_ne in Hk by done. by right. }
  assert (∀ k s', ss' !! k = Some s' → ∃ s, ss !! k = Some s ∧ if bool_decide (k ∈ bids) && is_inactivated s then toggled a s s' else s' = s) as Hback.
  { intros k s' Hk. destruct (lookup_lt_is_Some_2 ss k) as [s Hs]; [apply lookup_lt_Some in Hk; lia|]. exists s. split; [done|].
    destruct (Ht k s Hs) as (s2 & Hk2 & E). by simplify_eq. }
  pose proof Hc as [H1 H2 H3 H4 H5 H6 H7 H8 H9 H10]. split; try done.
  - lia.
  - by rewrite length_insert.
  - rewrite Hlen. intros k c [[-> ->]|[_ Hk]]%Hlook; [|by apply (H4 k c)]. split; [done|]. simpl. intros j Hj%Hm.
    destruct Hj as [[Hj _]|[Hj _]]; [by apply (H4 a ba)|by apply Hlt].
  - rewrite length_insert. intros k s' (s & Hk & E)%Hback. destruct (H5 k s Hk) as [Hso Hra].
    destruct (bool_decide (k ∈ bids) && is_inactivated s); [|by subst]. destruct E as (B & B' & -> & -> & HB' & Hin). split; [done|].
    simpl. intros i Hi%Hin. case_decide; [by subst|]. by apply Hra.
  - intros i c k s' [[-> ->]|[Hne Hi]]%Hlook (s & Hk & E)%Hback.
    + pose proof (H6 a ba k s Ha Hk) as Hmatch. simpl. rewrite Hm, He'. destruct (decide (k ∈ bids)) as [Hkb|Hkb].
      * rewrite bool_decide_eq_true_2 in E by done. simpl in E. destruct (is_inactivated s) eqn:Hin.
        -- assert (¬ extra a k) as Hne. { intros [_ Hx]%He1. unfold is_inact in Hx. rewrite Hk in Hx. congruence. }
           destruct E as (B & B' & -> & -> & _ & HB'). simpl in *. rewrite HB', decide_True by done. tauto.
        -- subst s'. destruct (He2 k s Hkb Hk Hin) as [Hna Hex]. tauto.
      * rewrite bool_decide_eq_false_2 in E by done. simpl in E. subst s'. assert (¬ extra a k) by (intros [? _]%He1; done). tauto.
    + rewrite (H6 i c k s Hi Hk), He'. destruct (bool_decide (k ∈ bids) && is_inactivated s); [|subst s'; tauto].
      destruct E as (B & B' & -> & -> & _ & HB'). simpl. rewrite HB', decide_False by done. tauto.
  - intros i c [[-> ->]|[Hne Hi]]%Hlook.
    + rewrite (kinds_live ss ss') by done. pose proof (H7 a ba Ha) as E. simpl. rewrite Hova.
      rewrite (live_xor ss (intermediate_symbol_ids ba) bids ids') in E; [lia|apply sorted_nodup, (H4 a ba Ha)|done|by apply sorted_nodup|done|].
      intros k Hk Hin. destruct (lookup_lt_is_Some_2 ss k) as [s Hs]; [by apply Hlt|]. unfold is_inact in Hin. rewrite Hs in Hin.
      apply (H6 a ba k s Ha Hs). right. by apply (He2 k s).
    + rewrite (kinds_live ss ss'), (H7 i c Hi) by done. f_equal. f_equal. apply bool_decide_ext. symmetry. by apply Hov.
  - intros i c [[-> ->]|[Hne Hi]]%Hlook; [simpl; congruence|]. intros Huc. destruct (H8 i c Hi Huc) as (Hw & j & Hj & Hjs). split; [done|].
    exists j. split; [done|]. destruct (Ht j _ Hjs) as (s' & Hs'j & E). simpl in E. rewrite andb_false_r in E. by subst.
  - intros i j (s & Hj & E)%Hback. destruct (bool_decide (j ∈ bids) && is_inactivated s); [by destruct E as (? & ? & _ & ? & _)|]. subst s.
    destruct (H9 i j Hj) as (c & Hi & Huc & Hjc). destruct (decide (i = a)) as [->|]; [simplify_eq; congruence|].
    exists c. by rewrite list_lookup_insert_ne.
  - rewrite H10. pose proof (bcount_insert (λ i b, paired_with (num_source_symbols p) b && bool_decide (i ∉ unc))
      (λ i b, paired_with (num_source_symbols p) b && bool_decide (i ∉ unc)) bs a ba ba' Ha ltac:(done)) as E. cbv beta in E.
    unfold paired_with in E. simpl in E. rewrite Hu in E. simpl in E. unfold paired_with. lia.
Qed.

Lemma core_ext p bs ss np extra extra' over over' under under' unc unc' :
  (∀ i k, extra i k ↔ extra' i k) → (∀ i, i ∈ over ↔ i ∈ over') → (∀ i, i ∈ under ↔ i ∈ under') → (∀ i, i ∈ unc ↔ i ∈ unc') →
  core p bs ss np extra over under unc → core p bs ss np extra' over' under' unc'.
Proof.
  intros He Ho Hu Hn [H1 H2 H3 H4 H5 H6 H7 H8 H9 H10]. split; try done.
  - intros i b j s Hi Hj. rewrite (H6 i b j s Hi Hj), He. done.
  - intros i b Hi. rewrite <- (bool_decide_ext _ _ (Ho i)), <- (bool_decide_ext _ _ (Hu i)). by apply H7.
  - rewrite H10. apply bcount_ext. intros i b _. f_equal. apply bool_decide_ext. by rewrite Hn.
Qed.

Lemma mid_ext d extra extra' over under unc stale : (∀ i k, extra i k ↔ extra' i k) →
  mid d extra over under unc stale → mid d extra' over under unc stale.
Proof. intros He [Hc Hh]. split; [by eapply core_ext|done]. Qed.

(** ** The state of the caller *)

Definition id_of (t i : nat) : BufferId := if bool_decide (i < t) then TempBuffer i else ReceiveBuffer (i - t).

(** What the decoder relies on: the buffers of the caller follow the rows.
    [t] is the number of temporary buffers. *)
Class RowStore {X} (xor_buffers : X → BufferId → BufferId → outcome X) (t : nat) (P : list (list nat) → X → Prop) : Prop := {
  row_store_xor rows x a b ra rb r' : P rows x → rows !! a = Some ra → rows !! b = Some rb → a ≠ b →
    sorted ra → sorted rb → sorted r' → (∀ k, k ∈ r' ↔ (k ∈ ra ∧ k ∉ rb) ∨ (k ∈ rb ∧ k ∉ ra)) →
    ∃ x', xor_buffers x (id_of t a) (id_of t b) = Ret x' ∧ P (<[a := r']> rows) x';
}.

Definition num_constraints (d : Decoder) : nat := num_ldpc_symbols (params d) + num_half_symbols (params d).

Lemma rows_lookup d i b : buffer_state d !! i = Some b → rows d !! i = Some (intermediate_symbol_ids b).
Proof. intros Hi. unfold rows. by rewrite list_lookup_fmap, Hi. Qed.
Lemma rows_insert (bs : list Buffer) i b : intermediate_symbol_ids <$> <[i := b]> bs = <[i := intermediate_symbol_ids b]> (intermediate_symbol_ids <$> bs).
Proof. apply list_fmap_insert. Qed.
Lemma rows_insert_same (bs : list Buffer) i b b' : bs !! i = Some b → intermediate_symbol_ids b' = intermediate_symbol_ids b →
  intermediate_symbol_ids <$> <[i := b']> bs = intermediate_symbol_ids <$> bs.
Proof. intros Hi He. rewrite rows_insert, He. apply list_insert_id. by rewrite list_lookup_fmap, Hi. Qed.

(** ** How many symbols of a kind there are *)

Definition kind_count (k : SymbolKind) (ss : list IntermediateSymbol) : nat := length (filter (λ s, kind s = k) ss).

Lemma kind_count_kinds k ss : kind_count k ss = length (filter (.= k) (kind <$> ss)).
Proof.
  unfold kind_count. induction ss as [|s ss IH]; [done|]. csimpl. rewrite !filter_cons. case_decide; simpl; by rewrite IH.
Qed.
Lemma kind_count_same k ss ss' : kind <$> ss' = kind <$> ss → kind_count k ss' = kind_count k ss.
Proof. intros H. by rewrite !kind_count_kinds, H. Qed.
Lemma kind_count_insert k ss j s s' : ss !! j = Some s →
  kind_count k (<[j := s']> ss) + b2n (bool_decide (kind s = k)) = kind_count k ss + b2n (bool_decide (kind s' = k)).
Proof.
  intros Hj. unfold kind_count. rewrite (insert_take_drop ss j s') by (by apply lookup_lt_Some in Hj).
  assert (length (filter (λ s, kind s = k) ss) = length (filter (λ s, kind s = k) (take j ss ++ s :: drop (S j) ss))) as ->
    by (by rewrite take_drop_middle).
  rewrite !filter_app, !filter_cons, !length_app.
  destruct (decide (kind s = k)), (decide (kind s' = k)); repeat case_bool_decide; simpl; lia || congruence.
Qed.
Lemma kind_count_le k ss : kind_count k ss ≤ length ss.
Proof. apply length_filter. Qed.

(** What every operation on the decoder keeps. *)
Record evolves (d d' : Decoder) : Prop := {
  ev_params : params d' = params d;
  ev_length : length (buffer_state d') = length (buffer_state d);
  ev_symbols : length (intermediate_symbol_state d') = length (intermediate_symbol_state d);
  ev_redundant : num_redundant_buffers d ≤ num_redundant_buffers d';
}.
#[global] Instance evolves_preorder : PreOrder evolves.
Proof. split; [done|]. intros d1 d2 d3 [H1 H2 H3 H4] [H1' H2' H3' H4']. split; [congruence..|lia]. Qed.
Lemma same_evolves d d' : same d d' → evolves d d'.
Proof. intros [H1 H2 H3 H4]. split; try done. by apply kinds_length. Qed.

(** Mid-way through the reduction of the buffers that contain symbol [j], by
    buffer [r]; [todo] is left. *)
Definition todo_extra (r j : nat) (todo : list nat) (i k : nat) : Prop := k = j ∧ i ∈ todo ∧ i ≠ r.

Record peeling (d : Decoder) (r j : nat) (todo : list nat) : Prop := {
  pl_mid : mid d (todo_extra r j todo) [] [] [r] [];
  pl_reducing : ∃ b, buffer_state d !! r = Some b ∧ used b = true ∧ j ∈ intermediate_symbol_ids b;
  pl_symbol : intermediate_symbol_state d !! j = Some (Used r);
  pl_todo : NoDup todo ∧ ∀ i, i ∈ todo → i < length (buffer_state d);
}.

(** A buffer that has a used symbol of another one is not used. *)
Lemma reducee_unused p bs ss np extra unc a b r j : core p bs ss np extra [] [] unc → bs !! a = Some b → ss !! j = Some (Used r) →
  j ∈ intermediate_symbol_ids b → a ≠ r → used b = false ∧ 0 < active_used_weight b.
Proof.
  intros Hc Ha Hj Hjb Har. assert (is_inact ss j = false) as Hin by (unfold is_inact; by rewrite Hj).
  pose proof (c_weight _ _ _ _ _ _ _ _ Hc a b Ha) as Hw. simpl in Hw. split.
  - destruct (used b) eqn:Hu; [|done]. exfalso. destruct (c_used _ _ _ _ _ _ _ _ Hc a b Ha Hu) as (Hw1 & k & Hk & Hks).
    assert (j = k) as -> by (eapply (live_one ss); [|done..|unfold is_inact; by rewrite Hks]; lia). congruence.
  - enough (live ss (intermediate_symbol_ids b) ≠ 0) by lia. unfold live. intros H0%nil_length_inv.
    assert (j ∈ (@nil nat)) as []%not_elem_of_nil. rewrite <- H0. by apply list_elem_of_filter.
Qed.

Lemma buffer_peel_xor_eq_ok d r j a todo : peeling d r j (a :: todo) → a ≠ r →
  ∃ d' ba ids, buffer_peel_xor_eq d a r = Ret d' ∧ buffer_state d !! a = Some ba ∧ used ba = false ∧ same d d' ∧
    mid d' (todo_extra r j todo) [a] [] [r] [] ∧ buffer_state d' = <[a := {| ba with intermediate_symbol_ids := ids |}]> (buffer_state d) ∧
    (∃ br, buffer_state d !! r = Some br ∧
      ∀ k, k ∈ ids ↔ (k ∈ intermediate_symbol_ids ba ∧ k ∉ intermediate_symbol_ids br) ∨ (k ∈ intermediate_symbol_ids br ∧ k ∉ intermediate_symbol_ids ba)) ∧
    intermediate_symbol_state d' !! j = Some (Used r).
Proof.
  intros [[Hc Hh] (br & Hr & Hur & Hjr) Hj [Hnd Hlt]] Har.
  destruct (lookup_lt_is_Some_2 (buffer_state d) a) as [ba Ha]; [apply Hlt; left|].
  assert (is_inact (intermediate_symbol_state d) j = false) as Hinj by (unfold is_inact; by rewrite Hj).
  assert (j ∈ intermediate_symbol_ids ba) as Hja.
  { apply (c_match _ _ _ _ _ _ _ _ Hc a ba j _ Ha Hj). right. split; [done|]. split; [left|done]. }
  destruct (reducee_unused _ _ _ _ _ _ a ba r j Hc Ha Hj Hja Har) as [Hua Hwa].
  assert (active_used_weight br = 1) as Hwr by by eapply core_used_weight.
  assert (live (intermediate_symbol_state d) (intermediate_symbol_ids br) = 1) as Hlr.
  { pose proof (c_weight _ _ _ _ _ _ _ _ Hc r br Hr) as H. simpl in H. lia. }
  destruct (c_ids _ _ _ _ _ _ _ _ Hc a ba Ha) as [Hsa Hla]. destruct (c_ids _ _ _ _ _ _ _ _ Hc r br Hr) as [Hsr Hlr'].
  assert (∀ k, k ∈ intermediate_symbol_ids br → is_inact (intermediate_symbol_state d) k = false → k = j) as Honly.
  { intros k Hk Hik. by eapply live_one. }
  unfold buffer_peel_xor_eq, buffer_state_xor_eq, get_two_mut. rewrite bool_decide_eq_false_2 by done.
  rewrite (vec_get_ret _ _ _ Ha). cbn [mbind outcome_bind]. rewrite (vec_get_ret _ _ _ Hr). cbn [mbind outcome_bind].
  rewrite (bool_decide_eq_true_2 (buffer_state_of ba = BActive ∨ _)).
  2: { pose proof (state_usable ba ltac:(congruence)) as E. unfold usable_weight in E. rewrite Hua in E. simpl in E.
       rewrite (bool_decide_eq_false_2 (active_used_weight ba = 0)) in E by lia. by case_bool_decide. }
  cbn [mbind outcome_bind rust_assert]. rewrite (bool_decide_eq_true_2 (buffer_state_of br = BUsed)) by (by apply state_used).
  cbn [mbind outcome_bind rust_assert].
  destruct (xor_symbols_ok a (intermediate_symbol_ids ba) (intermediate_symbol_state d) (intermediate_symbol_ids br)) as (ids & ss' & -> & Hs' & Hm & Htog);
    [done|by apply sorted_nodup| |].
  { intros k Hk. destruct (lookup_lt_is_Some_2 _ _ (Hlr' k Hk)) as [s Hs]. exists s. split; [done|]. destruct (is_inactivated s) eqn:Hin.
    - split; [by apply (c_indices _ _ _ _ _ _ _ _ Hc k s)|]. rewrite (c_match _ _ _ _ _ _ _ _ Hc a ba k s Ha Hs). unfold todo_extra.
      split; [|by left]. intros [|(-> & _)]; [done|]. by simplify_eq.
    - assert (k = j) as -> by (apply Honly; [done|]; unfold is_inact; by rewrite Hs). done. }
  cbn [mbind outcome_bind]. rewrite vec_set_ret by (by apply lookup_lt_Some in Ha). cbn [mbind outcome_bind].
  eexists _, ba, ids. split; [done|]. split; [done|]. split; [done|]. split.
  { split; simpl; [done|by rewrite length_insert|by eapply toggled_kinds|done]. }
  split; [|split; [done|]; split; [by exists br|]].
  - split; simpl.
    + eapply (core_xor _ _ _ _ (todo_extra r j (a :: todo)) _ []); [done|done|done|by apply sorted_nodup, Hsr|done|..|done|done|done].
      * intros k (-> & _). done.
      * intros k s Hk Hs Hin. assert (k = j) as -> by (apply Honly; [done|]; unfold is_inact; by rewrite Hs). simplify_eq. simpl.
        split; [by rewrite list_elem_of_singleton|]. split; [done|]. split; [left|done].
      * intros i k. unfold todo_extra. rewrite elem_of_cons. apply NoDup_cons in Hnd as [Hna _]. split; [|naive_solver].
        intros (-> & Hi & Hir). split; [by auto|]. by intros ->.
      * intros k Hk. rewrite list_elem_of_singleton. split; [done|by intros ?%not_elem_of_nil].
      * rewrite Hlr, bool_decide_eq_true_2 by (by apply list_elem_of_singleton). done.
    + eapply heaps_same; [done|done|done| |by intros ?%not_elem_of_nil]. intros _.
      unfold inactive_weight, redundant. simpl. rewrite !bool_decide_eq_false_2 by lia. done.
  - simpl. destruct Htog as [_ Ht]. destruct (Ht j _ Hj) as (s' & -> & E). simpl in E. rewrite andb_false_r in E. by subst.
Qed.

Lemma find_active_ok ss ids j s : (∀ k, k ∈ ids → k < length ss) → j ∈ ids → ss !! j = Some s → is_active s = true →
  ∃ k s', find_active ss ids = Ret (Some k) ∧ k ∈ ids ∧ ss !! k = Some s' ∧ is_active s' = true.
Proof.
  induction ids as [|i ids IH]; intros Hl Hj Hs Ha; [by apply elem_of_nil in Hj|]. cbn [find_active].
  destruct (lookup_lt_is_Some_2 ss i) as [s' Hs']; [apply Hl; left|]. rewrite (vec_get_ret _ _ _ Hs'). cbn [mbind outcome_bind].
  destruct (is_active s') eqn:E; [exists i, s'; split; [done|]; split; [left|done]|].
  destruct IH as (k & s'' & -> & Hk & H); [intros k Hk; apply Hl; by right| |done|done|exists k, s''; split; [done|]; split; [by right|done]].
  apply elem_of_cons in Hj as [->|]; [congruence|done].
Qed.

(** The active symbol of a buffer that is not used. *)
Lemma first_active_ok d i b : dinv d → buffer_state d !! i = Some b → used b = false → 0 < active_used_weight b →
  ∃ j B, buffer_first_active_intermediate_symbol d i = Ret j ∧ j ∈ intermediate_symbol_ids b ∧ intermediate_symbol_state d !! j = Some (Active B).
Proof.
  intros [Hc Hh] Hi Hu Hw. destruct (c_ids _ _ _ _ _ _ _ _ Hc i b Hi) as [_ Hl]. rewrite (core_live _ _ _ _ _ i b Hc Hi) in Hw.
  unfold live in Hw. destruct (filter _ _) as [|j l] eqn:E; [simpl in Hw; lia|].
  assert (j ∈ filter (λ j, is_inact (intermediate_symbol_state d) j = false) (intermediate_symbol_ids b)) as [Hin Hj]%list_elem_of_filter by (rewrite E; left).
  destruct (lookup_lt_is_Some_2 _ _ (Hl j Hj)) as [s Hs]. unfold is_inact in Hin. rewrite Hs in Hin.
  assert (is_active s = true) as Ha.
  { destruct s as [| |i']; [done|done|]. exfalso. destruct (c_used_by _ _ _ _ _ _ _ _ Hc i' j Hs) as (b' & Hi' & Hu' & _).
    apply (c_match _ _ _ _ _ _ _ _ Hc i b j _ Hi Hs) in Hj as [Hj|[]]. simpl in Hj. apply list_elem_of_singleton in Hj as ->. congruence. }
  destruct (find_active_ok _ (intermediate_symbol_ids b) j s Hl Hj Hs Ha) as (k & s' & Hf & Hk & Hs' & Ha'). destruct s' as [B| |]; try done.
  exists k, B. split; [|done]. unfold buffer_first_active_intermediate_symbol. rewrite (vec_get_ret _ _ _ Hi). cbn [mbind outcome_bind].
  rewrite Hf. done.
Qed.

(** The buffer becomes used. *)
Lemma core_make_used p bs ss np r br j B : core p bs ss np no_extra [] [] [] → bs !! r = Some br → used br = false → active_used_weight br = 1 →
  j ∈ intermediate_symbol_ids br → ss !! j = Some (Active B) →
  core p (<[r := {| br with used := true |}]> bs) (<[j := Used r]> ss) np (todo_extra r j B) [] [] [r].
Proof.
  intros Hc Hr Hu Hw Hjr Hj. pose proof (lookup_lt_Some _ _ _ Hr) as Hrl. pose proof (lookup_lt_Some _ _ _ Hj) as Hjl.
  set (br' := {| br with used := true |}).
  assert (∀ k c, <[r := br']> bs !! k = Some c → ∃ c0, bs !! k = Some c0 ∧ intermediate_symbol_ids c = intermediate_symbol_ids c0 ∧
      active_used_weight c = active_used_weight c0 ∧ (k ≠ r → c = c0)) as Hlook.
  { intros k c Hk. destruct (decide (k = r)) as [->|Hne].
    - rewrite list_lookup_insert_eq in Hk by done. simplify_eq. by exists br.
    - rewrite list_lookup_insert_ne in Hk by done. by exists c. }
  assert (∀ k s, <[j := Used r]> ss !! k = Some s → (k = j ∧ s = Used r) ∨ (k ≠ j ∧ ss !! k = Some s)) as Hsl.
  { intros k s Hk. destruct (decide (k = j)) as [->|Hne].
    - rewrite list_lookup_insert_eq in Hk by done. left. by simplify_eq.
    - rewrite list_lookup_insert_ne in Hk by done. by right. }
  assert (∀ ids, live (<[j := Used r]> ss) ids = live ss ids) as Hlive.
  { intros ids. unfold live. f_equal. apply list_filter_iff. intros k. unfold is_inact. destruct (decide (k = j)) as [->|Hne].
    - by rewrite list_lookup_insert_eq, Hj by done.
    - by rewrite list_lookup_insert_ne by done. }
  destruct Hc as [H1 H2 H3 H4 H5 H6 H7 H8 H9 H10]. split; rewrite ?length_insert; try done.
  - intros k c (c0 & Hk & -> & _)%Hlook. by apply (H4 k c0).
  - intros k s [[-> ->]|[_ Hk]]%Hsl; [|by apply (H5 k s)]. simpl. split; [repeat constructor|]. by intros i ->%list_elem_of_singleton.
  - intros i c k s (c0 & Hi & -> & _)%Hlook [[-> ->]|[Hne Hk]]%Hsl.
    + rewrite (H6 i c0 j _ Hi Hj). simpl. rewrite list_elem_of_singleton. unfold no_extra, todo_extra.
      assert (r ∈ B) by (pose proof (H6 r br j _ Hr Hj) as H; simpl in H; unfold no_extra in H; tauto).
      destruct (decide (i = r)) as [->|]; tauto.
    + rewrite (H6 i c0 k s Hi Hk). unfold no_extra, todo_extra. tauto.
  - intros i c (c0 & Hi & -> & -> & _)%Hlook. rewrite Hlive. by apply H7.
  - intros i c Hi Huc. destruct (decide (i = r)) as [->|Hir].
    + rewrite list_lookup_insert_eq in Hi by done. simplify_eq. split; [done|]. exists j. split; [done|]. by apply list_lookup_insert_eq.
    + rewrite list_lookup_insert_ne in Hi by done. destruct (H8 i c Hi Huc) as (Hwc & k & Hk & Hks). split; [done|]. exists k. split; [done|].
      rewrite list_lookup_insert_ne; [done|]. intros ->. congruence.
  - intros i k [[-> [= ->]]|[Hne Hk]]%Hsl.
    + exists br'. split; [by apply list_lookup_insert_eq|done].
    + destruct (H9 i k Hk) as (c & Hi & Huc & Hkc). destruct (decide (i = r)) as [->|]; [simplify_eq; congruence|].
      exists c. by rewrite list_lookup_insert_ne.
  - rewrite H10. pose proof (bcount_insert (λ i b, paired_with (num_source_symbols p) b && bool_decide (i ∉ []))
      (λ i b, paired_with (num_source_symbols p) b && bool_decide (i ∉ [r])) bs r br br' Hr) as E. cbv beta in E.
    rewrite (bool_decide_eq_false_2 (r ∉ [r])), andb_false_r in E by set_solver.
    assert (paired_with (num_source_symbols p) br = false) as Ep by (unfold paired_with; by rewrite Hu). rewrite Ep in E. cbn [andb b2n] in E.
    rewrite !Nat.add_0_r in E. symmetry. apply E. intros k c Hk _. f_equal. apply bool_decide_ext. set_solver.
Qed.

(** The buffer that was not counted yet is counted. *)
Lemma core_count p bs ss np extra over under r br : core p bs ss np extra over under [r] → bs !! r = Some br →
  core p bs ss (np + b2n (paired_with (num_source_symbols p) br)) extra over under [].
Proof.
  intros [H1 H2 H3 H4 H5 H6 H7 H8 H9 H10] Hr. split; try done. rewrite H10.
  pose proof (bcount_insert (λ i b, paired_with (num_source_symbols p) b && bool_decide (i ∉ [r]))
    (λ i b, paired_with (num_source_symbols p) b && bool_decide (i ∉ [])) bs r br br Hr) as E. cbv beta in E.
  rewrite (bool_decide_eq_false_2 (r ∉ [r])), andb_false_r, list_insert_id in E by (done || set_solver).
  rewrite (bool_decide_eq_true_2 (r ∉ [])), andb_true_r in E by set_solver. cbn [b2n] in E.
  rewrite Nat.add_0_r in E. symmetry. apply E. intros k c Hk _. f_equal. apply bool_decide_ext. set_solver.
Qed.

Lemma paired_with_single k b j : used b = true → j ∈ intermediate_symbol_ids b →
  paired_with k b = bool_decide (length (intermediate_symbol_ids b) = 1) && bool_decide (j < k).
Proof.
  intros Hu Hj. unfold paired_with. rewrite Hu. destruct (intermediate_symbol_ids b) as [|x [|y l]]; [by apply elem_of_nil in Hj| |done].
  by apply list_elem_of_singleton in Hj as ->.
Qed.

Section decode.
Context {X : Type} (xor_buffers : X → BufferId → BufferId → outcome X) (t : nat) (P : list (list nat) → X → Prop)
  `{!RowStore xor_buffers t P}.

Lemma xor_indices_ok d x a b ra rb r' : num_constraints d = t → P (rows d) x → rows d !! a = Some ra → rows d !! b = Some rb → a ≠ b →
  sorted ra → sorted rb → sorted r' → (∀ k, k ∈ r' ↔ (k ∈ ra ∧ k ∉ rb) ∨ (k ∈ rb ∧ k ∉ ra)) →
  ∀ d', params d' = params d → ∃ x', xor_indices xor_buffers d' x a b = Ret x' ∧ P (<[a := r']> (rows d)) x'.
Proof.
  intros Ht HP Ha Hb Hab Hsa Hsb Hs' Hm d' Hp.
  destruct (row_store_xor (rows d) x a b ra rb r') as (x' & Hx & HP'); try done. exists x'. split; [|done].
  unfold xor_indices, buffer_index_to_buffer_id, num_redundant_intermediate_symbols. rewrite Hp. unfold num_constraints in Ht. rewrite Ht. done.
Qed.

Lemma peel_reducee_ok d x r j a todo : peeling d r j (a :: todo) → num_constraints d = t → P (rows d) x →
  ∃ d' x', peel_reducee xor_buffers r (d, x) a = Ret (d', x') ∧ peeling d' r j todo ∧ same d d' ∧ P (rows d') x'.
Proof.
  intros Hpl Ht HP. cbn [peel_reducee]. destruct (decide (a = r)) as [->|Har].
  { rewrite bool_decide_eq_true_2 by done. exists d, x. split; [done|]. split; [|done]. destruct Hpl as [Hm Hr Hj [Hnd Hlt]]. split; try done.
    - eapply mid_ext; [|done]. intros i k. unfold todo_extra. rewrite elem_of_cons. naive_solver.
    - apply NoDup_cons in Hnd as [_ Hnd]. split; [done|]. intros i Hi. apply Hlt. by right. }
  rewrite bool_decide_eq_false_2 by done.
  destruct (buffer_peel_xor_eq_ok d r j a todo Hpl Har) as (d1 & ba & ids & -> & Ha & Hua & Hsame1 & Hm1 & Hbs1 & (br & Hr & Hids) & Hj1).
  cbn [mbind outcome_bind]. set (ba1 := {| ba with intermediate_symbol_ids := ids |}) in *.
  pose proof (lookup_lt_Some _ _ _ Ha) as Hal.
  assert (buffer_state d1 !! a = Some ba1) as Ha1 by (rewrite Hbs1; by apply list_lookup_insert_eq).
  destruct (decrement_ok d1 (todo_extra r j todo) [] [] [r] [] a ba1 Hm1) as (d2 & -> & Hm2 & Hsame2 & Hss2 & Hbs2);
    [by intros ?%not_elem_of_nil..|done|done|by intros ?%not_elem_of_nil|]. cbn [mbind outcome_bind].
  destruct Hpl as [[Hc Hh] (br' & Hr' & Hur & Hjr) Hj [Hnd Hlt]].
  assert (br' = br) as -> by congruence.
  assert (same d d2) as Hsame by (by etrans). assert (sorted ids) as Hsids by (apply (c_ids _ _ _ _ _ _ _ _ (proj1 Hm1) a ba1 Ha1)).
  destruct (xor_indices_ok d x a r (intermediate_symbol_ids ba) (intermediate_symbol_ids br) ids) with (d' := d2) as (x' & -> & HP'); try done.
  { by apply rows_lookup. }
  { by apply rows_lookup. }
  { apply (c_ids _ _ _ _ _ _ _ _ Hc a ba Ha). }
  { apply (c_ids _ _ _ _ _ _ _ _ Hc r br Hr). }
  { apply same_params, Hsame. }
  cbn [mbind outcome_bind]. exists d2, x'. split; [done|]. split; [|split; [done|]].
  - split; [done|..].
    + exists br. split; [|done]. rewrite Hbs2, Hbs1, !list_lookup_insert_ne by done. done.
    + by rewrite Hss2.
    + apply NoDup_cons in Hnd as [_ Hnd]. split; [done|]. intros i Hi. rewrite (same_length d d2 Hsame). apply Hlt. by right.
  - enough (rows d2 = <[a := ids]> (rows d)) as -> by done. unfold rows. rewrite Hbs2, (rows_insert_same _ _ ba1) by done.
    rewrite Hbs1, rows_insert. done.
Qed.

Lemma peel_reducees_ok d x r j todo : peeling d r j todo → num_constraints d = t → P (rows d) x →
  ∃ d' x', for_each (peel_reducee xor_buffers r) (d, x) todo = Ret (d', x') ∧ peeling d' r j [] ∧ same d d' ∧ P (rows d') x'.
Proof.
  intros Hpl Ht HP.
  destruct (for_each_ok (λ l s, peeling s.1 r j l ∧ same d s.1 ∧ P (rows s.1) s.2) (peel_reducee xor_buffers r) todo (d, x))
    as ([d' x'] & -> & Hpl' & Hs' & HP'); [|done|by exists d', x'].
  intros a l [d1 x1] (Hpl1 & Hs1 & HP1). cbn [fst snd] in *.
  destruct (peel_reducee_ok d1 x1 r j a l Hpl1) as (d2 & x2 & -> & Hpl2 & Hs2 & HP2); [|done|].
  - unfold num_constraints in *. by rewrite (same_params d d1 Hs1).
  - exists (d2, x2). split; [done|]. split; [done|]. split; [by etrans|done].
Qed.

Lemma peel_one_ok d x r br : dinv d → num_constraints d = t → P (rows d) x → buffer_state d !! r = Some br → usable_weight br = Some 1 →
  ∃ d' x', peel_one xor_buffers d x r 1 = Ret (d', x') ∧ dinv d' ∧ P (rows d') x' ∧ evolves d d' ∧
    kind_count KActive (intermediate_symbol_state d) = S (kind_count KActive (intermediate_symbol_state d')) ∧
    kind_count KInactivated (intermediate_symbol_state d') = kind_count KInactivated (intermediate_symbol_state d).
Proof.
  intros Hd Ht HP Hr Hu1. destruct (usable_not_inactive br 1 Hu1) as (_ & _ & Hw & Hu & _). symmetry in Hw.
  destruct (first_active_ok d r br Hd Hr Hu ltac:(lia)) as (j & B & Hfirst & Hjr & Hj). destruct Hd as [Hc Hh].
  unfold peel_one. destruct (heaps_remove_usable _ _ _ _ _ _ _ {| br with used := true |} Hh Hr 1 Hu1) as (h & -> & Hheap & _); [done|].
  cbn [mbind outcome_bind]. rewrite (bool_decide_eq_true_2 (1 = 1)) by done. cbn [mbind outcome_bind rust_assert].
  change (buffer_first_active_intermediate_symbol _ r) with (buffer_first_active_intermediate_symbol d r). rewrite Hfirst.
  cbn [mbind outcome_bind buffer_state intermediate_symbol_state params]. rewrite (vec_get_ret _ _ _ Hr). cbn [mbind outcome_bind].
  rewrite vec_set_ret by (by apply lookup_lt_Some in Hr). cbn [mbind outcome_bind]. rewrite (vec_get_ret _ _ _ Hj). cbn [mbind outcome_bind active_make_used].
  rewrite vec_set_ret by (by apply lookup_lt_Some in Hj). cbn [mbind outcome_bind].
  match goal with |- context [for_each _ (?d0, x) _] => set (d1 := d0) end.
  assert (peeling d1 r j B) as Hpl.
  { split; [split| | |].
    - by apply core_make_used.
    - apply Hheap; [unfold inactive_weight; simpl; by rewrite Hw|unfold redundant; simpl; by rewrite Hw].
    - exists {| br with used := true |}. split; [|done]. apply list_lookup_insert_eq. by apply lookup_lt_Some in Hr.
    - apply list_lookup_insert_eq. by apply lookup_lt_Some in Hj.
    - destruct (c_indices _ _ _ _ _ _ _ _ Hc j _ Hj) as [HsB HlB]. split; [by apply sorted_nodup|]. simpl. by rewrite length_insert. }
  destruct (peel_reducees_ok d1 x r j B Hpl) as (d2 & x2 & -> & [[Hc2 Hh2] (br2 & Hr2 & Hur2 & Hjr2) Hj2 _] & Hs2 & HP2); [done| |].
  { unfold rows. simpl. by rewrite (rows_insert_same _ _ br). }
  cbn [mbind outcome_bind]. rewrite (vec_get_ret _ _ _ Hr2). cbn [mbind outcome_bind].
  pose proof (core_count _ _ _ _ _ _ _ _ _ Hc2 Hr2) as Hc3. rewrite (paired_with_single _ br2 j Hur2 Hjr2) in Hc3.
  match goal with |- context [check ?d3] => set (d3' := d3) end.
  assert (dinv d3') as Hd3.
  { unfold d3'. split; [|by destruct (_ && _)]. eapply (core_ext _ _ _ _ (todo_extra r j [])); [unfold todo_extra, no_extra; set_solver|done|done|done|].
    destruct (_ && _); simpl in Hc3 |- *; by rewrite ?Nat.add_0_r in Hc3. }
  rewrite check_ok by done. cbn [mbind outcome_bind]. exists d3', x2. split; [done|]. split; [done|].
  assert (intermediate_symbol_state d3' = intermediate_symbol_state d2) as Hss3 by (unfold d3'; by destruct (_ && _)).
  split; [unfold d3'; by destruct (_ && _)|]. split.
  - trans d1; [split; simpl; rewrite ?length_insert; done|]. trans d2; [by apply same_evolves|]. unfold d3'. by destruct (_ && _).
  - rewrite Hss3. pose proof (same_kinds _ _ Hs2) as Hk. rewrite (kind_count_same KActive _ _ Hk), (kind_count_same KInactivated _ _ Hk). simpl.
    pose proof (kind_count_insert KActive _ _ _ (Used r) Hj) as E1. pose proof (kind_count_insert KInactivated _ _ _ (Used r) Hj) as E2.
    simpl in E1, E2. lia.
Qed.

Lemma peel_loop_ok fuel d x b : dinv d → num_constraints d = t → P (rows d) x → kind_count KActive (intermediate_symbol_state d) < fuel →
  ∃ d' x' b', peel_loop xor_buffers fuel d x b = Ret (d', x', b') ∧ dinv d' ∧ P (rows d') x' ∧ evolves d d' ∧
    kind_count KInactivated (intermediate_symbol_state d') = kind_count KInactivated (intermediate_symbol_state d) ∧
    kind_count KActive (intermediate_symbol_state d') + b2n (b' && negb b) ≤ kind_count KActive (intermediate_symbol_state d) ∧
    (b' = false → d' = d ∧ b = false) ∧
    (decoding_done d' = true ∨ ∀ i c, buffer_state d' !! i = Some c → usable_weight c ≠ Some 1).
Proof.
  revert d x b. induction fuel as [|fuel IH]; intros d x b Hd Ht HP Hf; [lia|]. cbn [peel_loop].
  destruct (h_usable _ _ _ _ _ (proj2 Hd)) as (m & Hm & Hmi). destruct (peek_min_ok _ _ Hm) as (r & -> & Hmin). cbn [mbind outcome_bind].
  destruct r as [[r w]|].
  - destruct Hmin as [Hr Hmin]. rewrite Hmi in Hr. destruct (buffer_state d !! r) as [br|] eqn:Hbr; [|done]. simpl in Hr.
    destruct (decoding_done d) eqn:Hdone; cbn [orb].
    { exists d, x, b. split; [done|]. split_and!; try done; [destruct b; simpl; lia|by left]. }
    destruct (decide (w = 1)) as [->|Hw1].
    + rewrite bool_decide_eq_true_2 by done. cbn [negb].
      destruct (peel_one_ok d x r br Hd Ht HP Hbr Hr) as (d1 & x1 & -> & Hd1 & HP1 & Hev1 & Hka & Hki). cbn [mbind outcome_bind].
      destruct (IH d1 x1 true Hd1) as (d2 & x2 & b2 & -> & Hd2 & HP2 & Hev2 & Hki2 & Hka2 & Hb2 & Hend); [|done|lia|].
      { unfold num_constraints in *. by rewrite (ev_params _ _ Hev1). }
      exists d2, x2, b2. split; [done|]. split_and!; try done; [by etrans|congruence|destruct b2, b; simpl in *; lia|].
      intros ->. by destruct (Hb2 eq_refl).
    + rewrite bool_decide_eq_false_2 by done. cbn [negb]. exists d, x, b. split; [done|]. split_and!; try done; [destruct b; simpl; lia|].
      right. intros i c Hi Hc1. specialize (Hmin i 1). rewrite Hmi, Hi in Hmin. specialize (Hmin Hc1).
      destruct (usable_not_inactive _ _ Hr) as (_ & _ & _ & _ & Hpos). lia.
  - exists d, x, b. split; [done|]. split_and!; try done; [destruct b; simpl; lia|].
    right. intros i c Hi Hc1. assert (m !! i = Some 1) as E by (rewrite Hmi, Hi; done). by rewrite Hmin in E.
Qed.
End decode.
