(* ===== verification/RaptorReactivate.v ===== *)
(** * Reactivating and inactivating symbols

    [try_reactivate_symbols] and [try_inactivate_one_symbol] keep the
    invariant; every turn uses an inactivated symbol, or inactivates an active
    one. *)
From S2P Require Import Prelude RaptorSets RaptorHeap RaptorCode RaptorRows RaptorMatrix RaptorDecoder RaptorInv RaptorPeel.
#[local] Open Scope nat_scope.
#[local] Arguments Nat.div : simpl never.

(** ** Removing a used symbol from a buffer *)

Lemma live_remove ss ids ids' j : ids ≡ₚ j :: ids' → is_inact ss j = false → live ss ids = S (live ss ids').
Proof. intros Hp Hj. by rewrite (live_perm ss _ _ Hp), live_cons, Hj. Qed.

Lemma core_remove p bs ss np r j todo under under' a ba ids' :
  core p bs ss np (todo_extra r j (a :: todo)) [] under [r] → bs !! a = Some ba → a ≠ r → a ∉ todo → ss !! j = Some (Used r) →
  sorted ids' → intermediate_symbol_ids ba ≡ₚ j :: ids' → a ∈ under → (∀ i, i ∈ under' ↔ i ∈ under ∧ i ≠ a) →
  core p (<[a := {| ba with intermediate_symbol_ids := ids' |}]> bs) ss
    (np + b2n (paired_with (num_source_symbols p) {| ba with intermediate_symbol_ids := ids' |})) (todo_extra r j todo) [] under' [r].
Proof.
  intros Hc Ha Har Hat Hj Hs' Hp Hau Hun. pose proof (lookup_lt_Some _ _ _ Ha) as Hal. set (ba' := {| ba with intermediate_symbol_ids := ids' |}).
  pose proof (sorted_nodup _ (proj1 (c_ids _ _ _ _ _ _ _ _ Hc a ba Ha))) as Hnd. rewrite Hp in Hnd. apply NoDup_cons in Hnd as [Hjn _].
  assert (∀ k, k ∈ ids' ↔ k ∈ intermediate_symbol_ids ba ∧ k ≠ j) as Hmem.
  { intros k. rewrite Hp, elem_of_cons. split; [|naive_solver]. intros Hk. split; [by right|]. by intros ->. }
  assert (∀ k c, <[a := ba']> bs !! k = Some c → (k = a ∧ c = ba') ∨ (k ≠ a ∧ bs !! k = Some c)) as Hlook.
  { intros k c Hk. destruct (decide (k = a)) as [->|Hne].
    - rewrite list_lookup_insert_eq in Hk by done. left. by simplify_eq.
    - rewrite list_lookup_insert_ne in Hk by done. by right. }
  destruct Hc as [H1 H2 H3 H4 H5 H6 H7 H8 H9 H10]. split; rewrite ?length_insert; try done.
  - intros k c [[-> ->]|[_ Hk]]%Hlook; [|by apply (H4 k c)]. split; [done|]. simpl. intros i [Hi _]%Hmem. by apply (H4 a ba).
  - intros i c k s [[-> ->]|[Hne Hi]]%Hlook Hk.
    + simpl. rewrite Hmem, (H6 a ba k s Ha Hk). unfold todo_extra. destruct (decide (k = j)) as [->|].
      * simplify_eq. simpl. rewrite list_elem_of_singleton. naive_solver.
      * naive_solver.
    + rewrite (H6 i c k s Hi Hk). unfold todo_extra. rewrite elem_of_cons. naive_solver.
  - intros i c [[-> ->]|[Hne Hi]]%Hlook.
    + pose proof (H7 a ba Ha) as E. rewrite (bool_decide_eq_true_2 (a ∈ under)) in E by done.
      rewrite (bool_decide_eq_false_2 (a ∈ under')) by (rewrite Hun; tauto).
      rewrite (live_remove _ _ _ _ Hp) in E by (unfold is_inact; by rewrite Hj). simpl in *. lia.
    + rewrite <- (H7 i c Hi). f_equal. f_equal. apply bool_decide_ext. rewrite Hun. tauto.
  - intros i c [[-> ->]|[Hne Hi]]%Hlook Hu; [|by apply H8]. destruct (H8 a ba Ha Hu) as (Hw & k & Hk & Hks). split; [done|].
    exists k. split; [|done]. simpl. apply Hmem. split; [done|]. intros ->. congruence.
  - intros i k Hk. destruct (H9 i k Hk) as (c & Hi & Hu & Hkc). destruct (decide (i = a)) as [->|].
    + simplify_eq. exists ba'. rewrite list_lookup_insert_eq by done. split; [done|]. split; [done|]. simpl. apply Hmem. split; [done|].
      intros ->. congruence.
    + exists c. by rewrite list_lookup_insert_ne.
  - rewrite H10. pose proof (bcount_insert (λ i b, paired_with (num_source_symbols p) b && bool_decide (i ∉ [r]))
      (λ i b, paired_with (num_source_symbols p) b && bool_decide (i ∉ [r])) bs a ba ba' Ha ltac:(done)) as E. cbv beta in E.
    rewrite (bool_decide_eq_true_2 (a ∉ [r])), !andb_true_r in E by set_solver.
    assert (paired_with (num_source_symbols p) ba = false) as Ep; [|rewrite Ep in E; simpl in E; lia].
    unfold paired_with. destruct (used ba) eqn:Hu; [|done]. destruct (H8 a ba Ha Hu) as (_ & k & Hk & Hks).
    assert (j ∈ intermediate_symbol_ids ba) as Hjb by (rewrite Hp; left).
    destruct (intermediate_symbol_ids ba) as [|y [|z l]]; [done| |done].
    apply list_elem_of_singleton in Hk as ->. apply list_elem_of_singleton in Hjb as ->. congruence.
Qed.

Lemma core_redundant_incr bs h1 h2 nr stale i b : heaps bs h1 h2 nr stale → bs !! i = Some b → redundant b = false → (N.of_nat (length bs) < 65536)%N →
  u16_incr nr = Ret (nr + 1).
Proof.
  intros Hh Hi Hr H16. unfold u16_incr. apply u16_try_from_ret. pose proof (core_redundant_lt _ _ _ _ _ _ _ Hh Hi Hr). lia.
Qed.

(** Mid-way through the reduction of the buffers that contain a reactivated
    symbol. *)
Record reactivating (d : Decoder) (r j : nat) (todo : list nat) : Prop := {
  ra_mid : mid d (todo_extra r j todo) [] (filter (.≠ r) todo) [r] [];
  ra_reducing : ∃ b, buffer_state d !! r = Some b ∧ used b = true ∧ intermediate_symbol_ids b = [j];
  ra_symbol : intermediate_symbol_state d !! j = Some (Used r);
  ra_todo : NoDup todo ∧ ∀ i, i ∈ todo → i < length (buffer_state d);
}.

(** The entry of the buffer in the heap of inactivated ones. *)
Lemma reactivate_heaps_ok d extra over under unc b b' a : mid d extra over under unc [] → buffer_state d !! a = Some b →
  intermediate_symbol_ids b ≠ [] → active_used_weight b' = active_used_weight b → used b' = used b →
  (used b = true → active_used_weight b = 1) →
  (N.of_nat (length (intermediate_symbol_ids b')) < 65536)%N →
  let d0 := {| d with buffer_state := <[a := b']> (buffer_state d) |} in
  ∃ h n, (if bool_decide (active_used_weight b' = 0) then
      let weight := length (intermediate_symbol_ids b') in
      if bool_decide (0 < weight) then
        w ← non_zero weight;
        h ← update_buffer_weight (buffers_inactivated d0) a w;
        Ret {| d0 with buffers_inactivated := h |}
      else
        '(h, _) ← remove_buffer_weight (buffers_inactivated d0) a;
        n ← u16_incr (num_redundant_buffers d0);
        Ret {| d0 with buffers_inactivated := h; num_redundant_buffers := n |}
    else Ret d0) = Ret {| d0 with buffers_inactivated := h; num_redundant_buffers := n |} ∧
    heaps (<[a := b']> (buffer_state d)) (buffers_active_usable d) h n [] ∧ num_redundant_buffers d ≤ n.
Proof.
  intros [Hc Hh] Ha Hne Hw Hu Huw H16. cbv zeta. cbn [buffers_inactivated num_redundant_buffers].
  destruct (decide (active_used_weight b = 0)) as [H0|H0].
  - rewrite Hw, (bool_decide_eq_true_2 (active_used_weight b = 0)) by done.
    assert (is_Some (inactive_weight b)) as Hin by (unfold inactive_weight; rewrite bool_decide_eq_true_2 by done; eauto).
    assert (usable_weight b' = None) as Hub by (unfold usable_weight; by rewrite Hw, H0, orb_true_r).
    case_bool_decide as Hpos.
    + rewrite non_zero_ret by done. cbn [mbind outcome_bind].
      destruct (heaps_update_inactive _ _ _ _ _ _ _ b' Hh Ha []) with (w' := length (intermediate_symbol_ids b')) as (h & -> & Hh');
        [set_solver|by right|done| |].
      { unfold inactive_weight. rewrite bool_decide_eq_true_2; [done|]. rewrite Hw. split; [done|]. intros E. rewrite E in Hpos. simpl in Hpos. lia. }
      cbn [mbind outcome_bind]. exists h, (num_redundant_buffers d). done.
    + assert (intermediate_symbol_ids b' = []) as Hnil by (destruct (intermediate_symbol_ids b'); [done|simpl in Hpos; lia]).
      destruct (heaps_remove_inactive _ _ _ _ _ _ _ b' Hh Ha []) as (h & w & -> & Hh'); [set_solver|by right|done| |].
      { unfold inactive_weight. rewrite bool_decide_eq_false_2; [done|]. rewrite Hnil. tauto. }
      cbn [mbind outcome_bind]. rewrite (core_redundant_incr _ _ _ _ _ _ _ Hh Ha); [|by destruct Hin as [? (_ & ? & _)%inactive_not_usable]|apply (c_buffers _ _ _ _ _ _ _ _ Hc)].
      cbn [mbind outcome_bind]. exists h, (num_redundant_buffers d + 1). split; [done|]. split; [|lia].
      assert (redundant b' = true) as Hr by (unfold redundant; rewrite bool_decide_eq_true_2; [done|]; by rewrite Hw, Hnil). by rewrite Hr in Hh'.
  - rewrite Hw, (bool_decide_eq_false_2 (active_used_weight b = 0)) by done. exists (buffers_inactivated d), (num_redundant_buffers d). split; [done|].
    split; [|done]. eapply heaps_same; [done|done| | |set_solver].
    + unfold usable_weight. by rewrite Hw, Hu.
    + intros _. unfold inactive_weight, redundant. rewrite Hw. rewrite !bool_decide_eq_false_2 by tauto. done.
Qed.

(** The symbol is used by the buffer. *)
Lemma core_reactivate p bs ss np r br j B : core p bs ss np no_extra [] [] [] → bs !! r = Some br → active_used_weight br = 0 →
  intermediate_symbol_ids br = [j] → ss !! j = Some (Inactivated B) →
  core p (<[r := {| br with active_used_weight := 1; used := true |}]> bs) (<[j := Used r]> ss) np (todo_extra r j B) [] (filter (.≠ r) B) [r].
Proof.
  intros Hc Hr Hw Hids Hj. pose proof (lookup_lt_Some _ _ _ Hr) as Hrl. pose proof (lookup_lt_Some _ _ _ Hj) as Hjl.
  set (br' := {| br with active_used_weight := 1; used := true |}). set (ss' := <[j := Used r]> ss).
  assert (used br = false) as Hu. { destruct (used br) eqn:E; [|done]. pose proof (core_used_weight _ _ _ _ _ _ _ _ _ _ Hc Hr E). lia. }
  assert (∀ k c, <[r := br']> bs !! k = Some c → (k = r ∧ c = br') ∨ (k ≠ r ∧ bs !! k = Some c)) as Hlook.
  { intros k c Hk. destruct (decide (k = r)) as [->|Hne].
    - rewrite list_lookup_insert_eq in Hk by done. left. by simplify_eq.
    - rewrite list_lookup_insert_ne in Hk by done. by right. }
  assert (∀ k s, ss' !! k = Some s → (k = j ∧ s = Used r) ∨ (k ≠ j ∧ ss !! k = Some s)) as Hsl.
  { intros k s Hk. unfold ss' in Hk. destruct (decide (k = j)) as [->|Hne].
    - rewrite list_lookup_insert_eq in Hk by done. left. by simplify_eq.
    - rewrite list_lookup_insert_ne in Hk by done. by right. }
  assert (∀ k, is_inact ss' k = if decide (k = j) then false else is_inact ss k) as Hin.
  { intros k. unfold is_inact, ss'. case_decide as E; [subst; by rewrite list_lookup_insert_eq|by rewrite list_lookup_insert_ne]. }
  assert (∀ ids, NoDup ids → live ss' ids = live ss ids + b2n (bool_decide (j ∈ ids))) as Hlive.
  { intros ids Hnd. induction Hnd as [|k ids Hk Hnd IH]; [done|]. rewrite !live_cons, IH, Hin. destruct (decide (k = j)) as [->|E].
    - rewrite (bool_decide_eq_false_2 (j ∈ ids)), (bool_decide_eq_true_2 (j ∈ j :: ids)) by (done || left).
      assert (is_inact ss j = true) as -> by (unfold is_inact; by rewrite Hj). simpl. lia.
    - rewrite (bool_decide_ext (j ∈ k :: ids) (j ∈ ids)) by set_solver. lia. }
  assert (∀ i c, bs !! i = Some c → j ∈ intermediate_symbol_ids c ↔ i ∈ B) as HB.
  { intros i c Hi. rewrite (c_match _ _ _ _ _ _ _ _ Hc i c j _ Hi Hj). unfold no_extra. simpl. tauto. }
  assert (r ∈ B) as HrB by (apply (HB r br Hr); rewrite Hids; left).
  destruct Hc as [H1 H2 H3 H4 H5 H6 H7 H8 H9 H10]. split; rewrite ?length_insert; unfold ss'; rewrite ?length_insert; fold ss'; try done.
  - intros k c [[-> ->]|[_ Hk]]%Hlook; [by apply (H4 r br)|by apply (H4 k c)].
  - intros k s [[-> ->]|[_ Hk]]%Hsl; [|by apply (H5 k s)]. simpl. split; [repeat constructor|]. by intros i ->%list_elem_of_singleton.
  - intros i c k s Hi [[-> ->]|[Hne Hk]]%Hsl.
    + simpl. rewrite list_elem_of_singleton. unfold todo_extra. apply Hlook in Hi as [[-> ->]|[Hir Hi]].
      * simpl. rewrite Hids, list_elem_of_singleton. tauto.
      * rewrite (HB i c Hi). tauto.
    + unfold todo_extra. assert (∃ c0, bs !! i = Some c0 ∧ intermediate_symbol_ids c = intermediate_symbol_ids c0) as (c0 & Hi0 & ->).
      { apply Hlook in Hi as [[-> ->]|[_ Hi]]; [by exists br|by exists c]. }
      rewrite (H6 i c0 k s Hi0 Hk). unfold no_extra. tauto.
  - intros i c [[-> ->]|[Hir Hi]]%Hlook.
    + pose proof (H7 r br Hr) as E. simpl in *. rewrite Hlive, Hids in * by (rewrite Hids; apply NoDup_singleton).
      rewrite (bool_decide_eq_true_2 (j ∈ [j])) by set_solver.
      rewrite (bool_decide_eq_false_2 (r ∈ filter _ _)) by (rewrite list_elem_of_filter; tauto). simpl. lia.
    + pose proof (H7 i c Hi) as E. rewrite Hlive by (apply sorted_nodup, (H4 i c Hi)).
      rewrite (bool_decide_ext (i ∈ filter (.≠ r) B) (j ∈ intermediate_symbol_ids c)) by (rewrite list_elem_of_filter, (HB i c Hi); tauto).
      simpl in E. simpl. lia.
  - intros i c [[-> ->]|[Hir Hi]]%Hlook Huc.
    + split; [done|]. exists j. simpl. rewrite Hids. split; [left|]. by apply list_lookup_insert_eq.
    + destruct (H8 i c Hi Huc) as (Hwc & k & Hk & Hks). split; [done|]. exists k. split; [done|]. unfold ss'.
      rewrite list_lookup_insert_ne; [done|]. intros ->. congruence.
  - intros i k [[-> [= ->]]|[Hne Hk]]%Hsl.
    + exists br'. split; [by apply list_lookup_insert_eq|]. split; [done|]. simpl. rewrite Hids. left.
    + destruct (H9 i k Hk) as (c & Hi & Huc & Hkc). destruct (decide (i = r)) as [->|]; [simplify_eq; congruence|].
      exists c. by rewrite list_lookup_insert_ne.
  - rewrite H10. pose proof (bcount_insert (λ i b, paired_with (num_source_symbols p) b && bool_decide (i ∉ []))
      (λ i b, paired_with (num_source_symbols p) b && bool_decide (i ∉ [r])) bs r br br' Hr) as E. cbv beta in E.
    rewrite (bool_decide_eq_false_2 (r ∉ [r])), andb_false_r in E by set_solver.
    assert (paired_with (num_source_symbols p) br = false) as Ep by (unfold paired_with; by rewrite Hu). rewrite Ep in E. cbn [andb b2n] in E.
    rewrite !Nat.add_0_r in E. symmetry. apply E. intros k c Hk _. f_equal. apply bool_decide_ext. set_solver.
Qed.

Section decode.
Context {X : Type} (xor_buffers : X → BufferId → BufferId → outcome X) (t : nat) (P : list (list nat) → X → Prop)
  `{!RowStore xor_buffers t P}.

Lemma reactivate_reducee_ok d x r j a todo : reactivating d r j (a :: todo) → num_constraints d = t → P (rows d) x →
  ∃ d' x', reactivate_reducee xor_buffers r j (d, x) a = Ret (d', x') ∧ reactivating d' r j todo ∧ same d d' ∧ P (rows d') x'.
Proof.
  intros [Hmid (br & Hr & Hur & Hbr) Hj [Hnd Hlt]] Ht HP. cbn [reactivate_reducee]. apply NoDup_cons in Hnd as [Hat Hnd].
  assert (∀ i, i ∈ todo → i < length (buffer_state d)) as Hlt' by (intros i Hi; apply Hlt; by right).
  destruct (decide (a = r)) as [->|Har].
  { rewrite bool_decide_eq_true_2 by done. exists d, x. split; [done|]. split; [|done]. split; try done; [|by exists br].
    rewrite filter_cons, decide_False in Hmid by tauto. eapply mid_ext; [|done]. intros i k. unfold todo_extra. rewrite elem_of_cons. naive_solver. }
  rewrite bool_decide_eq_false_2 by done. rewrite filter_cons, decide_True in Hmid by done. pose proof Hmid as [Hc Hh].
  destruct (lookup_lt_is_Some_2 (buffer_state d) a) as [ba Ha]; [apply Hlt; left|]. rewrite (vec_get_ret _ _ _ Ha). cbn [mbind outcome_bind].
  assert (j ∈ intermediate_symbol_ids ba) as Hja.
  { apply (c_match _ _ _ _ _ _ _ _ Hc a ba j _ Ha Hj). right. split; [done|]. split; [left|done]. }
  destruct (c_ids _ _ _ _ _ _ _ _ Hc a ba Ha) as [Hsa _].
  destruct (set_remove_spec _ j Hsa Hja) as (ids & -> & Hsids & Hp). cbn [mbind outcome_bind rust_assert].
  rewrite vec_set_ret by (by apply lookup_lt_Some in Ha). cbn [mbind outcome_bind active_used_weight intermediate_symbol_ids].
  set (ba' := {| ba with intermediate_symbol_ids := ids |}).
  pose proof (core_ids_length _ _ _ _ _ _ _ _ _ _ Hc Ha) as H16. pose proof (Permutation_length Hp) as Hlen. simpl in Hlen.
  assert (used ba = true → active_used_weight ba = 1) as Huw by (intros; by eapply core_used_weight).
  destruct (reactivate_heaps_ok d _ _ _ _ ba ba' a Hmid Ha) as (h & n & E & Hh' & Hn); [by intros E; rewrite E in Hja; apply elem_of_nil in Hja|done|done|done|simpl; lia|].
  cbv zeta in E. cbn [active_used_weight intermediate_symbol_ids ba'] in E. fold ba' in E. rewrite E. cbn [mbind outcome_bind]. clear E.
  rewrite paired_source_ok by done. cbn [mbind outcome_bind params].
  destruct (xor_indices_ok xor_buffers t P d x a r (intermediate_symbol_ids ba) (intermediate_symbol_ids br) ids) with
    (d' := if paired_with (num_source_symbols (params d)) ba'
           then {| d with buffer_state := <[a := ba']> (buffer_state d); buffers_inactivated := h; num_redundant_buffers := n;
                          num_source_symbols_paired := num_source_symbols_paired d + 1 |}
           else {| d with buffer_state := <[a := ba']> (buffer_state d); buffers_inactivated := h; num_redundant_buffers := n |})
    as (x' & Hx & HP'); try done.
  { by apply rows_lookup. }
  { by apply rows_lookup. }
  { rewrite Hbr. repeat constructor. }
  { intros k. rewrite Hbr, Hp, !elem_of_cons. pose proof (sorted_nodup _ Hsa) as Hnd'. rewrite Hp in Hnd'. apply NoDup_cons in Hnd' as [Hjn _].
    split; [|set_solver]. intros Hk. left. split; [by right|]. intros [->|?%elem_of_nil]; done. }
  { by destruct (paired_with _ _). }
  cbn [buffer_state num_source_symbols_paired] in *. match goal with |- context [xor_indices _ ?dd _ _ _] => set (d2 := dd) end.
  match type of Hx with xor_indices _ ?dd _ _ _ = _ => change dd with d2 in Hx end. rewrite Hx. cbn [mbind outcome_bind].
  exists d2, x'. split; [done|].
  assert (buffer_state d2 = <[a := ba']> (buffer_state d)) as Hbs2 by (unfold d2; by destruct (paired_with _ _)).
  assert (intermediate_symbol_state d2 = intermediate_symbol_state d) as Hss2 by (unfold d2; by destruct (paired_with _ _)).
  split; [split|split].
  - split.
    + rewrite Hbs2, Hss2. assert (params d2 = params d) as -> by (unfold d2; by destruct (paired_with _ _)).
      assert (num_source_symbols_paired d2 = num_source_symbols_paired d + b2n (paired_with (num_source_symbols (params d)) ba')) as ->
        by (unfold d2; destruct (paired_with _ _); simpl; lia).
      eapply core_remove; try done; [left|]. intros i. rewrite elem_of_cons, list_elem_of_filter. naive_solver.
    + rewrite Hbs2. unfold d2. destruct (paired_with _ _); exact Hh'.
  - exists br. split; [|done]. rewrite Hbs2. by rewrite list_lookup_insert_ne.
  - by rewrite Hss2.
  - split; [done|]. rewrite Hbs2, length_insert. done.
  - unfold d2. destruct (paired_with _ _); split; simpl; rewrite ?length_insert; done.
  - unfold rows. rewrite Hbs2, rows_insert. exact HP'.
Qed.

Lemma reactivate_reducees_ok d x r j todo : reactivating d r j todo → num_constraints d = t → P (rows d) x →
  ∃ d' x', for_each (reactivate_reducee xor_buffers r j) (d, x) todo = Ret (d', x') ∧ reactivating d' r j [] ∧ same d d' ∧ P (rows d') x'.
Proof.
  intros Hpl Ht HP.
  destruct (for_each_ok (λ l s, reactivating s.1 r j l ∧ same d s.1 ∧ P (rows s.1) s.2) (reactivate_reducee xor_buffers r j) todo (d, x))
    as ([d' x'] & -> & Hpl' & Hs' & HP'); [|done|by exists d', x'].
  intros a l [d1 x1] (Hpl1 & Hs1 & HP1). cbn [fst snd] in *.
  destruct (reactivate_reducee_ok d1 x1 r j a l Hpl1) as (d2 & x2 & -> & Hpl2 & Hs2 & HP2); [|done|].
  - unfold num_constraints in *. by rewrite (same_params d d1 Hs1).
  - exists (d2, x2). split; [done|]. split; [done|]. split; [by etrans|done].
Qed.

Lemma reactivate_one_ok d x r br : dinv d → num_constraints d = t → P (rows d) x → buffer_state d !! r = Some br → inactive_weight br = Some 1 →
  ∃ d' x', reactivate_one xor_buffers d x r = Ret (d', x') ∧ dinv d' ∧ P (rows d') x' ∧ evolves d d' ∧
    kind_count KInactivated (intermediate_symbol_state d) = S (kind_count KInactivated (intermediate_symbol_state d')) ∧
    kind_count KActive (intermediate_symbol_state d') = kind_count KActive (intermediate_symbol_state d).
Proof.
  intros [Hc Hh] Ht HP Hr Hi1. destruct (inactive_not_usable br 1 Hi1) as (_ & Hred & Hlen & _).
  assert (active_used_weight br = 0) as Hw by (unfold inactive_weight in Hi1; case_bool_decide; [tauto|done]).
  destruct (intermediate_symbol_ids br) as [|j [|k l]] eqn:Hids; simpl in Hlen; try lia.
  destruct (lookup_lt_is_Some_2 (intermediate_symbol_state d) j) as [s Hj]; [apply (c_ids _ _ _ _ _ _ _ _ Hc r br Hr); rewrite Hids; left|].
  assert (∃ B, s = Inactivated B) as [B ->].
  { pose proof (core_live _ _ _ _ _ r br Hc Hr) as Hl. rewrite Hids, live_cons, Hw in Hl. unfold is_inact in Hl. rewrite Hj in Hl.
    destruct s as [|B|]; simpl in Hl; [lia|by exists B|lia]. }
  unfold reactivate_one. rewrite (vec_get_ret _ _ _ Hr). cbn [mbind outcome_bind].
  destruct (heaps_remove_inactive _ _ _ _ _ _ _ {| br with active_used_weight := 1; used := true |} Hh Hr []) as (h & w & -> & Hheap);
    [set_solver|by right; eexists|done|done|].
  cbn [mbind outcome_bind]. assert (first_intermediate_symbol_id br = Ret j) as Hfirst by (unfold first_intermediate_symbol_id; by rewrite Hids).
  rewrite Hfirst. cbn [mbind outcome_bind].
  rewrite vec_set_ret by (by apply lookup_lt_Some in Hr). cbn [mbind outcome_bind]. rewrite (vec_get_ret _ _ _ Hj). cbn [mbind outcome_bind inactivated_make_used].
  rewrite vec_set_ret by (by apply lookup_lt_Some in Hj). cbn [mbind outcome_bind].
  match goal with |- context [for_each _ (?d0, x) _] => set (d1 := d0) end.
  assert (reactivating d1 r j B) as Hpl.
  { split; [split| | |].
    - by apply core_reactivate.
    - simpl in Hheap. by rewrite Nat.add_0_r in Hheap.
    - exists {| br with active_used_weight := 1; used := true |}. split; [|done]. apply list_lookup_insert_eq. by apply lookup_lt_Some in Hr.
    - apply list_lookup_insert_eq. by apply lookup_lt_Some in Hj.
    - destruct (c_indices _ _ _ _ _ _ _ _ Hc j _ Hj) as [HsB HlB]. split; [by apply sorted_nodup|]. simpl. by rewrite length_insert. }
  destruct (reactivate_reducees_ok d1 x r j B Hpl) as (d2 & x2 & -> & [[Hc2 Hh2] (br2 & Hr2 & Hur2 & Hids2) Hj2 _] & Hs2 & HP2); [done| |].
  { unfold rows. simpl. by rewrite (rows_insert_same _ _ br). }
  cbn [mbind outcome_bind].
  pose proof (core_count _ _ _ _ _ _ _ _ _ Hc2 Hr2) as Hc3. rewrite (paired_with_single _ br2 j Hur2), Hids2 in Hc3 by (rewrite Hids2; left).
  rewrite (bool_decide_eq_true_2 (length [j] = 1)) in Hc3 by done. cbn [andb] in Hc3.
  match goal with |- context [check ?d3] => set (d3' := d3) end.
  assert (dinv d3') as Hd3.
  { unfold d3'. split; [|by case_bool_decide]. eapply (core_ext _ _ _ _ (todo_extra r j [])); [unfold todo_extra, no_extra; set_solver|done|done|done|].
    case_bool_decide; simpl in Hc3 |- *; by rewrite ?Nat.add_0_r in Hc3. }
  rewrite check_ok by done. cbn [mbind outcome_bind]. exists d3', x2. split; [done|]. split; [done|].
  assert (intermediate_symbol_state d3' = intermediate_symbol_state d2) as Hss3 by (unfold d3'; by case_bool_decide).
  split; [unfold d3'; by case_bool_decide|]. split.
  - trans d1; [split; simpl; rewrite ?length_insert; done|]. trans d2; [by apply same_evolves|]. unfold d3'. by case_bool_decide.
  - rewrite Hss3. pose proof (same_kinds _ _ Hs2) as Hk. rewrite (kind_count_same KActive _ _ Hk), (kind_count_same KInactivated _ _ Hk). simpl.
    pose proof (kind_count_insert KActive _ _ _ (Used r) Hj) as E1. pose proof (kind_count_insert KInactivated _ _ _ (Used r) Hj) as E2.
    simpl in E1, E2. lia.
Qed.

Lemma reactivate_loop_ok fuel d x b : dinv d → num_constraints d = t → P (rows d) x → kind_count KInactivated (intermediate_symbol_state d) < fuel →
  ∃ d' x' b', reactivate_loop xor_buffers fuel d x b = Ret (d', x', b') ∧ dinv d' ∧ P (rows d') x' ∧ evolves d d' ∧
    kind_count KActive (intermediate_symbol_state d') = kind_count KActive (intermediate_symbol_state d) ∧
    kind_count KInactivated (intermediate_symbol_state d') ≤ kind_count KInactivated (intermediate_symbol_state d) ∧
    (d' = d ∨ kind_count KInactivated (intermediate_symbol_state d') < kind_count KInactivated (intermediate_symbol_state d)) ∧
    (decoding_done d' = true ∨ ∀ i c, buffer_state d' !! i = Some c → inactive_weight c ≠ Some 1).
Proof.
  revert d x b. induction fuel as [|fuel IH]; intros d x b Hd Ht HP Hf; [lia|]. cbn [reactivate_loop].
  destruct (h_inactive _ _ _ _ _ (proj2 Hd)) as (m & Hm & [_ Hmi']%stale_iff).
  assert (∀ i, m !! i = buffer_state d !! i ≫= inactive_weight) as Hmi by (intros i; apply Hmi'; set_solver).
  destruct (peek_min_ok _ _ Hm) as (r & -> & Hmin). cbn [mbind outcome_bind].
  destruct r as [[r w]|].
  - destruct Hmin as [Hr Hmin]. rewrite Hmi in Hr. destruct (buffer_state d !! r) as [br|] eqn:Hbr; [|done]. simpl in Hr.
    destruct (decoding_done d) eqn:Hdone; cbn [orb].
    { exists d, x, b. split; [done|]. split_and!; try done; by left. }
    destruct (decide (w = 1)) as [->|Hw1].
    + rewrite bool_decide_eq_true_2 by done. cbn [negb].
      destruct (reactivate_one_ok d x r br Hd Ht HP Hbr Hr) as (d1 & x1 & -> & Hd1 & HP1 & Hev1 & Hki & Hka). cbn [mbind outcome_bind].
      destruct (IH d1 x1 true Hd1) as (d2 & x2 & b2 & -> & Hd2 & HP2 & Hev2 & Hka2 & Hki2 & _ & Hend); [|done|lia|].
      { unfold num_constraints in *. by rewrite (ev_params _ _ Hev1). }
      exists d2, x2, b2. split; [done|]. split_and!; try done; [by etrans|congruence|lia|right; lia].
    + rewrite bool_decide_eq_false_2 by done. cbn [negb]. exists d, x, b. split; [done|]. split_and!; try done; [by left|].
      right. intros i c Hi Hc1. specialize (Hmin i 1). rewrite Hmi, Hi in Hmin. specialize (Hmin Hc1).
      destruct (inactive_not_usable _ _ Hr) as (_ & _ & _ & Hpos). lia.
  - exists d, x, b. split; [done|]. split_and!; try done; [by left|].
    right. intros i c Hi Hc1. assert (m !! i = Some 1) as E by (rewrite Hmi, Hi; done). by rewrite Hmin in E.
Qed.
End decode.

(** ** Inactivating a symbol *)

(** A buffer with an active symbol is not used. *)
Lemma active_unused p bs ss np extra i b j B : core p bs ss np extra [] [] [] → bs !! i = Some b → ss !! j = Some (Active B) →
  j ∈ intermediate_symbol_ids b → used b = false.
Proof.
  intros Hc Hi Hj Hjb. destruct (used b) eqn:Hu; [|done]. exfalso. destruct (c_used _ _ _ _ _ _ _ _ Hc i b Hi Hu) as (Hw & k & Hk & Hks).
  assert (j = k) as -> by (eapply (live_one ss); [|done..|unfold is_inact; by rewrite Hj|unfold is_inact; by rewrite Hks];
    rewrite <- (core_live _ _ _ _ _ i b Hc Hi); done). congruence.
Qed.

Lemma core_inactivate p bs ss np j B : core p bs ss np no_extra [] [] [] → ss !! j = Some (Active B) →
  core p bs (<[j := Inactivated B]> ss) np no_extra B [] [].
Proof.
  intros Hc Hj. pose proof (lookup_lt_Some _ _ _ Hj) as Hjl. set (ss' := <[j := Inactivated B]> ss).
  assert (∀ k s, ss' !! k = Some s → (k = j ∧ s = Inactivated B) ∨ (k ≠ j ∧ ss !! k = Some s)) as Hsl.
  { intros k s Hk. unfold ss' in Hk. destruct (decide (k = j)) as [->|Hne].
    - rewrite list_lookup_insert_eq in Hk by done. left. by simplify_eq.
    - rewrite list_lookup_insert_ne in Hk by done. by right. }
  assert (∀ k, is_inact ss' k = if decide (k = j) then true else is_inact ss k) as Hin.
  { intros k. unfold is_inact, ss'. case_decide as E; [subst; by rewrite list_lookup_insert_eq|by rewrite list_lookup_insert_ne]. }
  assert (∀ ids, NoDup ids → live ss ids = live ss' ids + b2n (bool_decide (j ∈ ids))) as Hlive.
  { intros ids Hnd. induction Hnd as [|k ids Hk Hnd IH]; [done|]. rewrite !live_cons, IH, Hin. destruct (decide (k = j)) as [->|E].
    - rewrite (bool_decide_eq_false_2 (j ∈ ids)), (bool_decide_eq_true_2 (j ∈ j :: ids)) by (done || left).
      assert (is_inact ss j = false) as -> by (unfold is_inact; by rewrite Hj). simpl. lia.
    - rewrite (bool_decide_ext (j ∈ k :: ids) (j ∈ ids)) by set_solver. lia. }
  destruct Hc as [H1 H2 H3 H4 H5 H6 H7 H8 H9 H10]. split; unfold ss'; rewrite ?length_insert; fold ss'; try done.
  - intros k s [[-> ->]|[_ Hk]]%Hsl; [by apply (H5 j (Active B))|by apply (H5 k s)].
  - intros i c k s Hi [[-> ->]|[_ Hk]]%Hsl; [by apply (H6 i c j (Active B))|by apply (H6 i c k s)].
  - intros i c Hi. pose proof (H7 i c Hi) as E. rewrite Hlive in E by (apply sorted_nodup, (H4 i c Hi)).
    rewrite (bool_decide_ext (i ∈ B) (j ∈ intermediate_symbol_ids c)); [simpl in *; lia|].
    rewrite (H6 i c j _ Hi Hj). unfold no_extra. simpl. tauto.
  - intros i c Hi Hu. destruct (H8 i c Hi Hu) as (Hw & k & Hk & Hks). split; [done|]. exists k. split; [done|]. unfold ss'.
    rewrite list_lookup_insert_ne; [done|]. intros ->. congruence.
  - intros i k [[_ ?]|[_ Hk]]%Hsl; [done|by apply H9].
Qed.

Lemma decrement_all_ok d todo : mid d no_extra todo [] [] [] → NoDup todo → (∀ i, i ∈ todo → ∃ b, buffer_state d !! i = Some b ∧ used b = false) →
  ∃ d', for_each decrement_buffer_weight d todo = Ret d' ∧ dinv d' ∧ same d d' ∧ rows d' = rows d.
Proof.
  intros Hm Hnd Hun.
  destruct (for_each_ok (λ l d', mid d' no_extra l [] [] [] ∧ NoDup l ∧ (∀ i, i ∈ l → ∃ b, buffer_state d' !! i = Some b ∧ used b = false) ∧
      same d d' ∧ rows d' = rows d) decrement_buffer_weight todo d) as (d' & -> & Hm' & _ & _ & Hs' & Hr'); [|done|by exists d'].
  intros i l d1 (Hm1 & [Hil Hnd1]%NoDup_cons & Hun1 & Hs1 & Hr1). destruct (Hun1 i ltac:(left)) as (b & Hi & Hu).
  destruct (decrement_ok d1 no_extra l [] [] [] i b Hm1) as (d2 & -> & Hm2 & Hs2 & Hss2 & Hbs2); [done|set_solver|done|done|set_solver|].
  exists d2. split; [done|]. split; [done|]. split; [done|]. split; [|split; [by etrans|]].
  - intros k Hk. destruct (Hun1 k) as (c & Hc & Huc); [by right|]. exists c. split; [|done]. rewrite Hbs2, list_lookup_insert_ne; [done|]. by intros ->.
  - rewrite <- Hr1. unfold rows. rewrite Hbs2. by eapply rows_insert_same.
Qed.

Lemma try_inactivate_one_symbol_ok d : dinv d → ∃ d' b, try_inactivate_one_symbol d = Ret (d', b) ∧ dinv d' ∧ rows d' = rows d ∧ evolves d d' ∧
  if b : bool then kind_count KActive (intermediate_symbol_state d) = S (kind_count KActive (intermediate_symbol_state d')) ∧
    kind_count KInactivated (intermediate_symbol_state d') = S (kind_count KInactivated (intermediate_symbol_state d))
  else d' = d ∧ ((∃ i c, buffer_state d !! i = Some c ∧ usable_weight c = Some 1) ∨ ∀ i c, buffer_state d !! i = Some c → usable_weight c = None).
Proof.
  intros Hd. pose proof Hd as [Hc Hh]. unfold try_inactivate_one_symbol.
  destruct (h_usable _ _ _ _ _ Hh) as (m & Hm & Hmi). destruct (peek_min_ok _ _ Hm) as (r & -> & Hmin). cbn [mbind outcome_bind].
  destruct r as [[r w]|].
  2: { exists d, false. split_and!; try done. right. intros i c Hi. specialize (Hmi i). rewrite Hi, Hmin, lookup_empty in Hmi. simpl in Hmi. done. }
  destruct Hmin as [Hr _]. rewrite Hmi in Hr. destruct (buffer_state d !! r) as [br|] eqn:Hbr; [|done]. simpl in Hr.
  destruct (usable_not_inactive _ _ Hr) as (_ & _ & Hw & Hu & Hpos). case_bool_decide as H1.
  2: { exists d, false. split_and!; try done. left. exists r, br. split; [done|]. rewrite Hr. f_equal. lia. }
  destruct (first_active_ok d r br Hd Hbr Hu ltac:(lia)) as (j & B & -> & Hjr & Hj). cbn [mbind outcome_bind].
  rewrite (vec_get_ret _ _ _ Hj). cbn [mbind outcome_bind active_inactivate active_make_used inactivated_values].
  rewrite vec_set_ret by (by apply lookup_lt_Some in Hj). cbn [mbind outcome_bind].
  match goal with |- context [for_each _ ?d0 _] => set (d1 := d0) end.
  destruct (decrement_all_ok d1 B) as (d2 & -> & Hd2 & Hs2 & Hr2).
  { split; [by apply core_inactivate|done]. }
  { apply sorted_nodup, (c_indices _ _ _ _ _ _ _ _ Hc j _ Hj). }
  { intros i Hi. destruct (c_indices _ _ _ _ _ _ _ _ Hc j _ Hj) as [_ Hl]. destruct (lookup_lt_is_Some_2 _ _ (Hl i Hi)) as [c Hcc].
    exists c. split; [done|]. eapply active_unused; [exact Hc|done|done|]. apply (c_match _ _ _ _ _ _ _ _ Hc i c j _ Hcc Hj). by left. }
  cbn [mbind outcome_bind]. rewrite check_ok by done. cbn [mbind outcome_bind]. exists d2, true. split; [done|]. split; [done|]. split; [done|].
  split; [trans d1; [split; simpl; rewrite ?length_insert; done|by apply same_evolves]|].
  pose proof (same_kinds _ _ Hs2) as Hk. rewrite (kind_count_same KActive _ _ Hk), (kind_count_same KInactivated _ _ Hk). simpl.
  pose proof (kind_count_insert KActive _ _ _ (Inactivated B) Hj) as E1. pose proof (kind_count_insert KInactivated _ _ _ (Inactivated B) Hj) as E2.
  simpl in E1, E2. lia.
Qed.

(** * Gaussian elimination on the inactivated buffers

    [try_inactive_gaussian] keeps the invariant, and when it says that it made
    progress, a symbol can be reactivated or another buffer is redundant. *)

(** ** Bringing the heap up to date *)

Lemma gaussian_update_weight_ok d i stale : mid d no_extra [] [] [] (i :: stale) → i ∉ stale →
  ∃ d' b, gaussian_update_weight d i = Ret d' ∧ buffer_state d !! i = Some b ∧ mid d' no_extra [] [] [] stale ∧ same d d' ∧
    buffer_state d' = buffer_state d ∧ (intermediate_symbol_ids b = [] → num_redundant_buffers d < num_redundant_buffers d').
Proof.
  intros [Hc Hh] Hni. destruct (h_stale _ _ _ _ _ Hh i) as (b & Hi & Hw & Hu); [left|].
  assert (∀ k, k ∈ stale ↔ k ∈ i :: stale ∧ k ≠ i) as Hst by set_solver.
  assert (usable_weight b = None) as Hub by (unfold usable_weight; by rewrite Hw, orb_true_r).
  unfold gaussian_update_weight. rewrite (vec_get_ret _ _ _ Hi). cbn [mbind outcome_bind]. case_bool_decide as Hpos.
  - rewrite non_zero_ret by (done || by eapply core_ids_length). cbn [mbind outcome_bind].
    destruct (heaps_update_inactive _ _ _ _ _ _ _ b Hh Hi stale Hst) with (w' := length (intermediate_symbol_ids b)) as (h & -> & Hh');
      [left; left|done| |].
    { unfold inactive_weight. rewrite bool_decide_eq_true_2; [done|]. split; [done|]. intros E. rewrite E in Hpos. simpl in Hpos. lia. }
    rewrite list_insert_id in Hh' by done. cbn [mbind outcome_bind]. eexists _, b. split; [done|]. split_and!; try done.
    intros E. rewrite E in Hpos. simpl in Hpos. lia.
  - assert (intermediate_symbol_ids b = []) as Hnil by (destruct (intermediate_symbol_ids b); [done|simpl in Hpos; lia]).
    destruct (heaps_remove_inactive _ _ _ _ _ _ _ b Hh Hi stale Hst) as (h & w & -> & Hh'); [left; left|done| |].
    { unfold inactive_weight. rewrite bool_decide_eq_false_2; [done|]. tauto. }
    rewrite list_insert_id in Hh' by done. assert (redundant b = true) as Hr by (unfold redundant; by rewrite bool_decide_eq_true_2).
    rewrite Hr in Hh'. simpl in Hh'. cbn [mbind outcome_bind]. unfold u16_incr.
    rewrite u16_try_from_ret.
    2: { pose proof (bcount_le (λ i b, redundant b && bool_decide (i ∉ stale)) (buffer_state d)) as H1.
         rewrite <- (h_redundant _ _ _ _ _ Hh') in H1. pose proof (c_buffers _ _ _ _ _ _ _ _ Hc). lia. }
    cbn [mbind outcome_bind]. eexists _, b. split; [done|]. split_and!; try done; [|simpl; intros _; lia].
    split; simpl; [done..|lia].
Qed.

Lemma gaussian_update_weights_ok d stale : mid d no_extra [] [] [] stale → NoDup stale →
  ∃ d', for_each gaussian_update_weight d stale = Ret d' ∧ dinv d' ∧ same d d' ∧ buffer_state d' = buffer_state d ∧
    ((∃ i b, i ∈ stale ∧ buffer_state d !! i = Some b ∧ intermediate_symbol_ids b = []) → num_redundant_buffers d < num_redundant_buffers d').
Proof.
  intros Hm Hnd.
  destruct (for_each_ok (λ l d', mid d' no_extra [] [] [] l ∧ NoDup l ∧ same d d' ∧ buffer_state d' = buffer_state d ∧
      ∀ i b, i ∈ stale → i ∉ l → buffer_state d !! i = Some b → intermediate_symbol_ids b = [] → num_redundant_buffers d < num_redundant_buffers d')
    gaussian_update_weight stale d) as (d' & -> & Hm' & _ & Hs' & Hbs' & Hz); [| |].
  - intros i l d1 (Hm1 & [Hil Hnd1]%NoDup_cons & Hs1 & Hbs1 & Hz1).
    destruct (gaussian_update_weight_ok d1 i l Hm1 Hil) as (d2 & b & -> & Hb & Hm2 & Hs2 & Hbs2 & Hz2).
    exists d2. split; [done|]. split; [done|]. split; [done|]. split; [by etrans|]. split; [congruence|].
    pose proof (same_redundant _ _ Hs1). pose proof (same_redundant _ _ Hs2).
    intros k c Hk Hkl Hc Hnil. destruct (decide (k = i)) as [->|Hne].
    + rewrite <- Hbs1, Hb in Hc. injection Hc as ->. specialize (Hz2 Hnil). lia.
    + specialize (Hz1 k c Hk ltac:(set_solver) Hc Hnil). lia.
  - split; [done|]. split; [done|]. split; [done|]. split; [done|]. done.
  - exists d'. split; [done|]. split; [done|]. split; [done|]. split; [done|]. intros (i & b & Hi & Hb & Hnil). eapply Hz; [done|set_solver|done..].
Qed.

(** All inactivated buffers as stale ones. *)
Lemma all_stale d indices : dinv d → (∀ i, i ∈ indices ↔ ∃ b, buffer_state d !! i = Some b ∧ is_Some (inactive_weight b)) →
  mid d no_extra [] [] [] indices.
Proof.
  intros [Hc Hh] Hin. split; [done|]. destruct (h_inactive _ _ _ _ _ Hh) as (m & Hm & [_ Hmi]%stale_iff).
  assert (∀ i, m !! i = buffer_state d !! i ≫= inactive_weight) as Hmi' by (intros i; apply Hmi; set_solver). split.
  - apply (h_usable _ _ _ _ _ Hh).
  - exists m. split; [done|]. apply stale_iff. split; [|intros; apply Hmi'].
    intros i (b & Hi & Hw)%Hin. by rewrite Hmi', Hi.
  - rewrite (h_redundant _ _ _ _ _ Hh). apply bcount_ext. intros i b Hi. destruct (redundant b) eqn:Hr; [|done]. simpl.
    symmetry. apply bool_decide_eq_true. intros (b' & Hi' & [w Hw])%Hin. simplify_eq. destruct (inactive_not_usable _ _ Hw) as (_ & ? & _). congruence.
  - intros i (b & Hi & [w Hw])%Hin. exists b. split; [done|].
    assert (active_used_weight b = 0) as Hw0 by (unfold inactive_weight in Hw; case_bool_decide; [tauto|done]). split; [done|].
    destruct (used b) eqn:Hu; [|done]. pose proof (core_used_weight _ _ _ _ _ _ _ _ _ _ Hc Hi Hu). lia.
Qed.

(** ** One row operation *)

Section decode.
Context {X : Type} (xor_buffers : X → BufferId → BufferId → outcome X) (t : nat) (P : list (list nat) → X → Prop)
  `{!RowStore xor_buffers t P}.
Context (d0 : Decoder) (indices cols : list nat) (Hindices : NoDup indices).

(** How the decoder stands to the matrix. *)
Record eliminating_rows (s : Decoder * X) (M : nat → nat → bool) : Prop := {
  er_mid : mid s.1 no_extra [] [] [] indices;
  er_same : same d0 s.1;
  er_store : P (rows s.1) s.2;
  er_matrix : ∀ i j idx col b, indices !! i = Some idx → cols !! j = Some col → buffer_state s.1 !! idx = Some b →
    M i j = bool_decide (col ∈ intermediate_symbol_ids b);
  er_cols : ∀ idx b k, idx ∈ indices → buffer_state s.1 !! idx = Some b → k ∈ intermediate_symbol_ids b → k ∈ cols;
}.

Lemma inactivated_state b : active_used_weight b = 0 → intermediate_symbol_ids b ≠ [] → buffer_state_of b = BInactivated.
Proof. intros Hw Hne. unfold buffer_state_of. rewrite Hw. simpl. by rewrite bool_decide_eq_false_2. Qed.

Lemma gaussian_row_operation_ok d x M M' a b : num_constraints d0 = t → eliminating_rows (d, x) M → a < length indices → b < length indices → a ≠ b →
  (∃ j, j < length cols ∧ M a j = true) → (∃ j, j < length cols ∧ M b j = true) →
  (∀ i j, i < length indices → j < length cols → M' i j = row_xor M a b i j) →
  ∃ s', gaussian_row_operation xor_buffers indices (d, x) a b = Ret s' ∧ eliminating_rows s' M'.
Proof.
  intros Ht [[Hc Hh] Hs HP HM Hcols] Ha Hb Hab (ja & Hja & HMa) (jb & Hjb & HMb) HM'. cbn [fst snd] in *.
  destruct (lookup_lt_is_Some_2 _ _ Ha) as [ia Hia]. destruct (lookup_lt_is_Some_2 _ _ Hb) as [ib Hib].
  assert (ia ≠ ib) as Hne by (intros ->; apply Hab; by eapply NoDup_lookup).
  pose proof (list_elem_of_lookup_2 _ _ _ Hia) as Hiain. pose proof (list_elem_of_lookup_2 _ _ _ Hib) as Hibin.
  destruct (h_stale _ _ _ _ _ Hh ia Hiain) as (ba & Hba & Hwa & Hua). destruct (h_stale _ _ _ _ _ Hh ib Hibin) as (bb & Hbb & Hwb & Hub).
  destruct (lookup_lt_is_Some_2 _ _ Hja) as [ca Hca]. destruct (lookup_lt_is_Some_2 _ _ Hjb) as [cb Hcb].
  rewrite (HM a ja ia ca ba Hia Hca Hba), bool_decide_eq_true in HMa. rewrite (HM b jb ib cb bb Hib Hcb Hbb), bool_decide_eq_true in HMb.
  unfold gaussian_row_operation. rewrite (vec_get_ret _ _ _ Hia). cbn [mbind outcome_bind]. rewrite (vec_get_ret _ _ _ Hib). cbn [mbind outcome_bind].
  unfold buffer_inactivated_xor_eq, buffer_state_xor_eq, get_two_mut. rewrite (bool_decide_eq_false_2 (ia = ib)) by done.
  rewrite (vec_get_ret _ _ _ Hba). cbn [mbind outcome_bind]. rewrite (vec_get_ret _ _ _ Hbb). cbn [mbind outcome_bind].
  rewrite (bool_decide_eq_true_2 (buffer_state_of ba = BInactivated)) by (apply inactivated_state; [done|]; intros E; rewrite E in HMa; by apply elem_of_nil in HMa).
  cbn [mbind outcome_bind rust_assert].
  rewrite (bool_decide_eq_true_2 (buffer_state_of bb = BInactivated)) by (apply inactivated_state; [done|]; intros E; rewrite E in HMb; by apply elem_of_nil in HMb).
  cbn [mbind outcome_bind rust_assert].
  destruct (c_ids _ _ _ _ _ _ _ _ Hc ia ba Hba) as [Hsa Hla]. destruct (c_ids _ _ _ _ _ _ _ _ Hc ib bb Hbb) as [Hsb Hlb].
  assert (live (intermediate_symbol_state d) (intermediate_symbol_ids bb) = 0) as Hlive by (rewrite <- (core_live _ _ _ _ _ ib bb Hc Hbb); done).
  assert (∀ k s, k ∈ intermediate_symbol_ids bb → intermediate_symbol_state d !! k = Some s → is_inactivated s = true) as Hinact.
  { intros k s Hk Hks. destruct (is_inactivated s) eqn:E; [done|]. unfold live in Hlive. apply nil_length_inv in Hlive.
    assert (k ∈ (@nil nat)) as []%not_elem_of_nil. rewrite <- Hlive. apply list_elem_of_filter. split; [|done]. unfold is_inact. by rewrite Hks. }
  destruct (xor_symbols_ok ia (intermediate_symbol_ids ba) (intermediate_symbol_state d) (intermediate_symbol_ids bb)) as (ids & ss' & -> & Hs' & Hm & Htog);
    [done|by apply sorted_nodup| |].
  { intros k Hk. destruct (lookup_lt_is_Some_2 _ _ (Hlb k Hk)) as [s Hks]. exists s. split; [done|]. rewrite (Hinact k s Hk Hks).
    split; [by apply (c_indices _ _ _ _ _ _ _ _ Hc k s)|]. rewrite (c_match _ _ _ _ _ _ _ _ Hc ia ba k s Hba Hks). unfold no_extra. tauto. }
  cbn [mbind outcome_bind]. rewrite vec_set_ret by (by apply lookup_lt_Some in Hba). cbn [mbind outcome_bind].
  set (ba' := {| ba with intermediate_symbol_ids := ids |}).
  destruct (xor_indices_ok xor_buffers t P d x ia ib (intermediate_symbol_ids ba) (intermediate_symbol_ids bb) ids) with
    (d' := {| d with buffer_state := <[ia := ba']> (buffer_state d); intermediate_symbol_state := ss' |}) as (x' & -> & HP'); try done.
  { unfold num_constraints in *. by rewrite (same_params _ _ Hs). }
  { by apply rows_lookup. }
  { by apply rows_lookup. }
  cbn [mbind outcome_bind]. eexists. split; [done|]. pose proof (lookup_lt_Some _ _ _ Hba) as Hial. split; cbn [fst snd].
  - split; simpl.
    + eapply (core_xor _ _ _ _ no_extra _ []); [done|done|done|by apply sorted_nodup, Hsb|done|..|done|done|done].
      * intros k [].
      * intros k s Hk Hks Hin. rewrite (Hinact k s Hk Hks) in Hin. done.
      * intros i k. unfold no_extra. tauto.
      * done.
      * by rewrite Hlive.
    + eapply heaps_same; [done|done|done|done|by intros _].
  - trans d; [done|]. split; simpl; [done|by rewrite length_insert|by eapply toggled_kinds|done].
  - unfold rows. simpl. rewrite rows_insert. exact HP'.
  - intros i j idx col c Hi Hj Hidx. pose proof (lookup_lt_Some _ _ _ Hi) as Hil. pose proof (lookup_lt_Some _ _ _ Hj) as Hjl.
    rewrite (HM' i j Hil Hjl). unfold row_xor. simpl in Hidx. destruct (decide (i = a)) as [->|Hia'].
    + assert (idx = ia) as -> by congruence. rewrite list_lookup_insert_eq in Hidx by done. injection Hidx as <-. simpl.
      rewrite (HM a j _ col ba Hia Hj Hba), (HM b j _ col bb Hib Hj Hbb). destruct (decide (col ∈ intermediate_symbol_ids ba)), (decide (col ∈ intermediate_symbol_ids bb));
        rewrite ?(bool_decide_eq_true_2 (col ∈ intermediate_symbol_ids ba)), ?(bool_decide_eq_true_2 (col ∈ intermediate_symbol_ids bb)),
          ?(bool_decide_eq_false_2 (col ∈ intermediate_symbol_ids ba)), ?(bool_decide_eq_false_2 (col ∈ intermediate_symbol_ids bb)) by done; simpl; symmetry;
        [apply bool_decide_eq_false|apply bool_decide_eq_true|apply bool_decide_eq_true|apply bool_decide_eq_false]; rewrite Hm; tauto.
    + rewrite list_lookup_insert_ne in Hidx by (intros <-; apply Hia'; by eapply NoDup_lookup). by eapply HM.
  - intros idx c k Hidx Hc' Hk. simpl in Hc'. destruct (decide (idx = ia)) as [->|Hdiff].
    + rewrite list_lookup_insert_eq in Hc' by done. simplify_eq. simpl in Hk. apply Hm in Hk as [[Hk _]|[Hk _]]; [by eapply (Hcols ia)|by eapply (Hcols ib)].
    + rewrite list_lookup_insert_ne in Hc' by done. by eapply Hcols.
Qed.
End decode.

(** ** The whole attempt *)

(** There are fewer inactivated buffers than symbols in them. *)
Definition too_few_rows (d : Decoder) : Prop := ∃ indices cols,
  NoDup indices ∧ NoDup cols ∧ (∀ i, i ∈ indices ↔ ∃ b, buffer_state d !! i = Some b ∧ is_Some (inactive_weight b)) ∧
  (∀ k, k ∈ cols ↔ ∃ i b, i ∈ indices ∧ buffer_state d !! i = Some b ∧ k ∈ intermediate_symbol_ids b) ∧
  (indices = [] ∨ length indices < length cols).

Lemma gaussian_setup d : dinv d → ∃ l buffers, weight_map_enumerate (buffers_inactivated d) = Ret l ∧
  mapM (vec_get (buffer_state d)) l.*1 = Ret buffers ∧ NoDup l.*1 ∧
  (∀ i, i ∈ l.*1 ↔ ∃ b, buffer_state d !! i = Some b ∧ is_Some (inactive_weight b)) ∧
  let cols := merge_sort le (remove_dups (mjoin (intermediate_symbol_ids <$> buffers))) in
  NoDup cols ∧ ∀ k, k ∈ cols ↔ ∃ i b, i ∈ l.*1 ∧ buffer_state d !! i = Some b ∧ k ∈ intermediate_symbol_ids b.
Proof.
  intros [Hc Hh]. destruct (h_inactive _ _ _ _ _ Hh) as (m & Hm & [_ Hmi']%stale_iff).
  assert (∀ i, m !! i = buffer_state d !! i ≫= inactive_weight) as Hmi by (intros i; apply Hmi'; set_solver).
  destruct (weight_map_enumerate_ok _ _ Hm) as (l & -> & Hl).
  assert (∀ i, i ∈ l.*1 ↔ ∃ b, buffer_state d !! i = Some b ∧ is_Some (inactive_weight b)) as Hin.
  { intros i. rewrite Hl, list_elem_of_fmap. split.
    - intros ([k w] & -> & Hk%elem_of_map_to_list). simpl. rewrite Hmi in Hk. destruct (buffer_state d !! k) as [b|]; [|done]. exists b. split; [done|]. by exists w.
    - intros (b & Hi & [w Hw]). exists (i, w). split; [done|]. apply elem_of_map_to_list. by rewrite Hmi, Hi. }
  exists l, ((λ i, default buffer_new (buffer_state d !! i)) <$> l.*1). split; [done|]. split.
  { apply mapM_ret. intros i (b & Hi & _)%Hin. by rewrite (vec_get_ret _ _ _ Hi), Hi. }
  split; [rewrite Hl; apply NoDup_fst_map_to_list|]. split; [done|]. split.
  - rewrite (merge_sort_Permutation le _). apply NoDup_remove_dups.
  - intros k. rewrite (merge_sort_Permutation le _), elem_of_remove_dups, list_elem_of_join. split.
    + intros (ids & Hk & (b & -> & (i & -> & Hi)%list_elem_of_fmap)%list_elem_of_fmap). pose proof Hi as (b & Hb & _)%Hin. rewrite Hb in Hk. by exists i, b.
    + intros (i & b & Hi & Hb & Hk). exists (intermediate_symbol_ids b). split; [done|]. rewrite !list_elem_of_fmap. exists b. split; [done|].
      rewrite list_elem_of_fmap. exists i. by rewrite Hb.
Qed.

Section gaussian.
Context {X : Type} (xor_buffers : X → BufferId → BufferId → outcome X) (t : nat) (P : list (list nat) → X → Prop)
  `{!RowStore xor_buffers t P}.

Lemma try_inactive_gaussian_ok d x : dinv d → num_constraints d = t → P (rows d) x →
  (∀ i c, buffer_state d !! i = Some c → inactive_weight c ≠ Some 1) →
  ∃ d' x' b, try_inactive_gaussian xor_buffers d x = Ret (d', x', b) ∧ dinv d' ∧ P (rows d') x' ∧ same d d' ∧
    if b : bool then num_redundant_buffers d < num_redundant_buffers d' ∨ ∃ i c, buffer_state d' !! i = Some c ∧ inactive_weight c = Some 1
    else d' = d ∧ too_few_rows d.
Proof.
  intros Hd Ht HP Hno1. pose proof Hd as [Hc Hh]. unfold try_inactive_gaussian.
  destruct (gaussian_setup d Hd) as (l & bufs & Hl & Hbufs & Hnd & Hin & Hndc & Hcols). cbv zeta in Hcols.
  set (cols := merge_sort le (remove_dups (mjoin (intermediate_symbol_ids <$> bufs)))) in *.
  destruct (h_inactive _ _ _ _ _ Hh) as (m & Hm & [_ Hmi']%stale_iff).
  assert (∀ i, m !! i = buffer_state d !! i ≫= inactive_weight) as Hmi by (intros i; apply Hmi'; set_solver).
  rewrite (heap_ok_empty _ _ Hm). case_bool_decide as Hempty.
  { exists d, x, false. split_and!; try done. exists l.*1, cols. split_and!; try done. left. apply elem_of_nil_inv. intros i (b & Hi & [w Hw])%Hin.
    specialize (Hmi i). rewrite Hempty, Hi, lookup_empty in Hmi. simpl in Hmi. congruence. }
  destruct (peek_min_ok _ _ Hm) as (r & -> & Hmin). cbn [mbind outcome_bind]. destruct r as [[r w]|]; [|done]. cbn [expect mbind outcome_bind].
  destruct Hmin as [Hr _]. rewrite Hmi in Hr. destruct (buffer_state d !! r) as [br|] eqn:Hbr; [|done]. simpl in Hr.
  rewrite (bool_decide_eq_false_2 (w = 1)) by (intros ->; by apply (Hno1 r br Hbr)). rewrite Hl. cbn [mbind outcome_bind]. rewrite Hbufs. cbn [mbind outcome_bind].
  fold cols. case_bool_decide as Hfew.
  { exists d, x, false. split_and!; try done. exists l.*1, cols. split_and!; try done. by right. }
  assert (∀ i idx, l.*1 !! i = Some idx → ∃ b, buffer_state d !! idx = Some b) as Hbuf.
  { intros i idx Hi. apply list_elem_of_lookup_2, Hin in Hi as (b & ? & _). by exists b. }
  set (M := λ i j, match l.*1 !! i, cols !! j with
    | Some idx, Some col => match buffer_state d !! idx with Some b => bool_decide (col ∈ intermediate_symbol_ids b) | None => false end
    | _, _ => false
    end).
  match goal with |- context [mat_from_fn ?r ?c ?f] => destruct (mat_from_fn_ret r c f M) as (mat & -> & Hwf & Hnr & Hnc & Hentry) end.
  { intros i j Hi Hj. destruct (lookup_lt_is_Some_2 _ _ Hi) as [idx Hidx]. destruct (lookup_lt_is_Some_2 _ _ Hj) as [col Hcol].
    destruct (Hbuf i idx Hidx) as [b Hb]. unfold M. rewrite (vec_get_ret _ _ _ Hidx). cbn [mbind outcome_bind].
    rewrite (vec_get_ret _ _ _ Hcol). cbn [mbind outcome_bind]. rewrite (vec_get_ret _ _ _ Hb). cbn [mbind outcome_bind]. rewrite Hidx, Hcol, Hb.
    apply set_contains_spec. apply (c_ids _ _ _ _ _ _ _ _ Hc idx b Hb). }
  cbn [mbind outcome_bind].
  destruct (full_pivot_ok (gaussian_row_operation xor_buffers l.*1) (eliminating_rows P d l.*1 cols) (length l.*1) (length cols) mat (d, x))
    as (M' & [d1 x1] & ok & -> & [Hmid1 Hs1 HP1 HM1 Hcols1] & Hres); try done.
  - intros [d1 x1] M1 M2 a b Hel Ha Hb Hab HMa HMb HM2. by eapply gaussian_row_operation_ok.
  - lia.
  - apply inactive_not_usable in Hr as Hr'. destruct Hr' as (_ & _ & Hlen & Hpos).
    destruct (intermediate_symbol_ids br) as [|k ids] eqn:Hids; [simpl in Hlen; lia|].
    assert (k ∈ cols) as Hk; [|by destruct cols; [apply elem_of_nil in Hk|simpl; lia]].
    apply Hcols. exists r, br. split; [apply Hin; exists br; by split|]. split; [done|]. rewrite Hids. left.
  - assert (length l.*1 ≤ length (buffer_state d)) as Hle.
    { rewrite <- (length_seq (length (buffer_state d)) 0). apply submseteq_length, NoDup_submseteq; [done|].
      intros i (b & Hi & _)%Hin. apply lookup_lt_Some in Hi. apply elem_of_seq. lia. }
    pose proof (c_buffers _ _ _ _ _ _ _ _ Hc). lia.
  - split; cbn [fst snd]; try done.
    + by apply all_stale.
    + intros i j idx col b Hi Hj Hb. pose proof (lookup_lt_Some _ _ _ Hi). pose proof (lookup_lt_Some _ _ _ Hj).
      rewrite Hentry by done. unfold M. by rewrite Hi, Hj, Hb.
    + intros idx b k Hidx Hb Hk. apply Hcols. by exists idx, b.
  - cbn [mbind outcome_bind fst snd] in *. destruct (gaussian_update_weights_ok d1 l.*1 Hmid1 Hnd) as (d2 & -> & Hd2 & Hs2 & Hbs2 & Hz).
    cbn [mbind outcome_bind]. rewrite check_ok by done. cbn [mbind outcome_bind]. exists d2, x1, true. split; [done|]. split; [done|].
    split; [unfold rows; by rewrite Hbs2|]. split; [by etrans|]. pose proof (same_redundant _ _ Hs1) as Hred1.
    assert (∀ i idx, l.*1 !! i = Some idx → ∃ b, buffer_state d1 !! idx = Some b ∧ active_used_weight b = 0) as Hbuf1.
    { intros i idx Hi%list_elem_of_lookup_2. destruct (h_stale _ _ _ _ _ (proj2 Hmid1) idx Hi) as (b & ? & ? & _). by exists b. }
    destruct Hres as [(i & j & Hi & Hj & Hrow)|(i & Hi & Hrow)].
    + right. destruct (lookup_lt_is_Some_2 _ _ Hi) as [idx Hidx]. destruct (lookup_lt_is_Some_2 _ _ Hj) as [col Hcol].
      destruct (Hbuf1 i idx Hidx) as (b & Hb & Hw). exists idx, b. rewrite Hbs2. split; [done|].
      assert (intermediate_symbol_ids b ≡ₚ [col]) as Hp.
      { apply NoDup_Permutation; [apply sorted_nodup, (c_ids _ _ _ _ _ _ _ _ (proj1 Hmid1) idx b Hb)|apply NoDup_singleton|].
        intros k. rewrite list_elem_of_singleton. split.
        - intros Hk. pose proof (Hcols1 idx b k (list_elem_of_lookup_2 _ _ _ Hidx) Hb Hk) as [j' Hj']%list_elem_of_lookup.
          pose proof (Hrow j' (lookup_lt_Some _ _ _ Hj')) as E. rewrite (HM1 i j' idx k b Hidx Hj' Hb), bool_decide_eq_true_2 in E by done.
          symmetry in E. apply bool_decide_eq_true in E. congruence.
        - intros ->. pose proof (Hrow j Hj) as E. rewrite (HM1 i j idx col b Hidx Hcol Hb), (bool_decide_eq_true_2 (j = j)) in E by done.
          by apply bool_decide_eq_true in E. }
      unfold inactive_weight. rewrite (Permutation_length Hp), bool_decide_eq_true_2; [done|]. split; [done|]. intros E. rewrite E in Hp.
      by apply Permutation_nil_cons in Hp.
    + left. enough (num_redundant_buffers d1 < num_redundant_buffers d2) by lia. apply Hz.
      destruct (lookup_lt_is_Some_2 _ _ Hi) as [idx Hidx]. destruct (Hbuf1 i idx Hidx) as (b & Hb & Hw). exists idx, b.
      split; [by apply list_elem_of_lookup_2 in Hidx|]. split; [done|]. apply elem_of_nil_inv. intros k Hk.
      pose proof (Hcols1 idx b k (list_elem_of_lookup_2 _ _ _ Hidx) Hb Hk) as [j' Hj']%list_elem_of_lookup.
      pose proof (Hrow j' (lookup_lt_Some _ _ _ Hj')) as E. rewrite (HM1 i j' idx k b Hidx Hj' Hb) in E. by apply bool_decide_eq_false in E.
Qed.
End gaussian.
