(* ===== verification/RaptorDecode.v ===== *)
(** * [try_decode]

    The loop of [try_decode] ends and keeps the invariant. When it gives up
    although it tried everything, the rows do not determine the symbols. *)
From S2P Require Import Prelude RaptorSets RaptorHeap RaptorCode RaptorRows RaptorMatrix RaptorDecoder RaptorInv RaptorPeel RaptorReactivate.
#[local] Open Scope nat_scope.
#[local] Arguments Nat.div : simpl never.
#[local] Arguments Nat.mul : simpl never.

(** What the loop uses up. *)
Definition potential (d : Decoder) : nat :=
  2 * kind_count KActive (intermediate_symbol_state d) + kind_count KInactivated (intermediate_symbol_state d) +
  (length (buffer_state d) - num_redundant_buffers d).

Definition reactivatable (d : Decoder) : Prop := ∃ i c, buffer_state d !! i = Some c ∧ inactive_weight c = Some 1.

(** Nothing is left to do. *)
Definition stuck (d : Decoder) : Prop := too_few_rows d ∧ ∀ i c, buffer_state d !! i = Some c → usable_weight c = None.

Lemma dinv_redundant_le d : dinv d → num_redundant_buffers d ≤ length (buffer_state d).
Proof. intros [_ Hh]. rewrite (h_redundant _ _ _ _ _ Hh). apply bcount_le. Qed.

Section decode.
Context {X : Type} (xor_buffers : X → BufferId → BufferId → outcome X) (t : nat) (P : list (list nat) → X → Prop)
  `{!RowStore xor_buffers t P}.
Context (try_harder : bool).

Lemma decode_loop_done fuel op d x : decoding_done d = true → decode_loop xor_buffers (S fuel) try_harder op d x = Ret (d, x).
Proof. intros Hd. cbn [decode_loop]. by rewrite Hd. Qed.
Lemma decode_loop_stop fuel d x : decode_loop xor_buffers (S fuel) try_harder Done d x = Ret (d, x).
Proof. cbn [decode_loop]. by destruct (decoding_done d). Qed.
Lemma decode_loop_step fuel op d x d' x' op' : decoding_done d = false → op ≠ Done →
  decode_step xor_buffers try_harder op d x = Ret (d', x', op') →
  decode_loop xor_buffers (S fuel) try_harder op d x = decode_loop xor_buffers fuel try_harder op' d' x'.
Proof. intros Hd Hop Hs. cbn [decode_loop]. rewrite Hd. destruct op; try done; by rewrite Hs. Qed.

Definition decoded (d d' : Decoder) (x' : X) : Prop :=
  dinv d' ∧ P (rows d') x' ∧ evolves d d' ∧ (decoding_done d' = true ∨ try_harder = false ∨ stuck d').

Lemma decode_loop_ok n d x fuel : dinv d → num_constraints d = t → P (rows d) x →
  (2 * potential d + 1 ≤ n ∨ (reactivatable d ∧ 2 * potential d ≤ n)) → 4 * n + 5 ≤ fuel →
  ∃ d' x', decode_loop xor_buffers fuel try_harder ReactivateSymbols d x = Ret (d', x') ∧ decoded d d' x'.
Proof.
  revert d x fuel. induction n as [n IH] using lt_wf_ind. intros d x fuel Hd Ht HP Hpot Hfuel.
  destruct fuel as [|fuel]; [lia|]. destruct (decoding_done d) eqn:Hdone.
  { exists d, x. split; [by apply decode_loop_done|]. split; [done|]. split; [done|]. split; [done|by left]. }
  (* Reactivate *)
  destruct (reactivate_loop_ok xor_buffers t P (S (length (intermediate_symbol_state d))) d x false Hd Ht HP) as
    (d1 & x1 & b1 & Hr1 & Hd1 & HP1 & Hev1 & Hka1 & Hki1 & Hprog1 & Hend1).
  { pose proof (kind_count_le KInactivated (intermediate_symbol_state d)). lia. }
  rewrite (decode_loop_step _ ReactivateSymbols _ _ d1 x1 Peeling Hdone ltac:(done)).
  2: { cbn [decode_step]. unfold try_reactivate_symbols. by rewrite Hr1. }
  assert (num_constraints d1 = t) as Ht1 by (unfold num_constraints in *; by rewrite (ev_params _ _ Hev1)).
  destruct fuel as [|fuel]; [lia|]. destruct (decoding_done d1) eqn:Hdone1.
  { exists d1, x1. split; [by apply decode_loop_done|]. split; [done|]. split; [done|]. split; [done|by left]. }
  destruct Hend1 as [Hend1|Hend1]; [congruence|].
  (* Peel *)
  destruct (peel_loop_ok xor_buffers t P (S (length (intermediate_symbol_state d1))) d1 x1 false Hd1 Ht1 HP1) as
    (d2 & x2 & b2 & Hr2 & Hd2 & HP2 & Hev2 & Hki2 & Hka2 & Hsame2 & Hend2).
  { pose proof (kind_count_le KActive (intermediate_symbol_state d1)). lia. }
  rewrite (decode_loop_step _ Peeling _ _ d2 x2 (if b2 then ReactivateSymbols else MaybeInactiveGaussian) Hdone1 ltac:(done)).
  2: { cbn [decode_step]. unfold try_peel. by rewrite Hr2. }
  pose proof (dinv_redundant_le d Hd) as Hr0. pose proof (dinv_redundant_le d1 Hd1) as Hrl1. pose proof (dinv_redundant_le d2 Hd2) as Hrl2.
  destruct Hev1 as [Hp1 Hl1 Hs1 Hred1]. destruct Hev2 as [Hp2 Hl2 Hs2 Hred2].
  assert (evolves d d1) as Hev1 by done. assert (evolves d d2) as Hev2 by (split; [congruence..|lia]).
  destruct b2.
  { simpl in Hka2. destruct (IH (n - 1)) with (d := d2) (x := x2) (fuel := fuel) as (d' & x' & -> & Hd' & HP' & Hev' & Hres); try done.
    - destruct Hpot as [Hpot|[_ Hpot]]; unfold potential in *; lia.
    - unfold num_constraints in *. congruence.
    - left. destruct Hpot as [Hpot|[_ Hpot]]; unfold potential in *; lia.
    - destruct Hpot as [Hpot|[_ Hpot]]; unfold potential in *; lia.
    - exists d', x'. split; [done|]. split; [done|]. split; [done|]. split; [by etrans|done]. }
  destruct (Hsame2 eq_refl) as [-> _]. assert (P (rows d1) x2) as HP2' by done.
  destruct fuel as [|fuel]; [lia|]. destruct Hend2 as [Hend2|Hend2]; [congruence|].
  (* Gaussian elimination *)
  assert (try_harder = true ∨ try_harder = false) as [Hth|Hth] by (destruct try_harder; auto).
  2: { rewrite (decode_loop_step _ MaybeInactiveGaussian _ _ d1 x2 Done Hdone1 ltac:(done)) by (cbn [decode_step]; by rewrite Hth).
       destruct fuel as [|fuel]; [lia|]. exists d1, x2. split; [by apply decode_loop_stop|]. split; [done|]. split; [done|]. split; [done|by right; left]. }
  destruct (try_inactive_gaussian_ok xor_buffers t P d1 x2 Hd1 Ht1 HP2' Hend1) as (d3 & x3 & b3 & Hr3 & Hd3 & HP3 & Hs3 & Hres3).
  rewrite (decode_loop_step _ MaybeInactiveGaussian _ _ d3 x3 (if b3 then ReactivateSymbols else InactivateSymbol) Hdone1 ltac:(done)).
  2: { cbn [decode_step]. rewrite Hth. cbn [negb]. by rewrite Hr3. }
  pose proof (same_kinds _ _ Hs3) as Hk3. pose proof (kind_count_same KActive _ _ Hk3) as Hka3. pose proof (kind_count_same KInactivated _ _ Hk3) as Hki3.
  pose proof (same_evolves _ _ Hs3) as Hev3. pose proof (dinv_redundant_le d3 Hd3) as Hrl3. pose proof Hev3 as [Hp3 Hl3 Hs3' Hred3].
  destruct b3.
  { destruct (IH (n - 1)) with (d := d3) (x := x3) (fuel := fuel) as (d' & x' & -> & Hd' & HP' & Hev' & Hres); try done.
    - destruct Hpot as [Hpot|[(i & c & Hi & Hw) Hpot]]; [lia|]. destruct Hprog1 as [->|Hprog1]; [by apply Hend1 in Hi|]. unfold potential in *; lia.
    - unfold num_constraints in *. congruence.
    - destruct Hres3 as [Hres3|Hres3].
      + left. destruct Hpot as [Hpot|[_ Hpot]]; unfold potential in *; lia.
      + destruct Hpot as [Hpot|[(i & c & Hi & Hw) Hpot]]; [right; split; [done|]; unfold potential in *; lia|].
        destruct Hprog1 as [->|Hprog1]; [by apply Hend1 in Hi|]. left. unfold potential in *; lia.
    - destruct Hpot as [Hpot|[(i & c & Hi & Hw) Hpot]]; [lia|]. destruct Hprog1 as [->|Hprog1]; [by apply Hend1 in Hi|]. unfold potential in *; lia.
    - exists d', x'. split; [done|]. split; [done|]. split; [done|]. split; [by trans d3; [trans d1|]|done]. }
  destruct Hres3 as [-> Hfew].
  destruct fuel as [|fuel]; [lia|].
  (* Inactivate *)
  destruct (try_inactivate_one_symbol_ok d1 Hd1) as (d4 & b4 & Hr4 & Hd4 & Hrows4 & Hev4 & Hres4).
  rewrite (decode_loop_step _ InactivateSymbol _ _ d4 x3 (if b4 then ReactivateSymbols else Done) Hdone1 ltac:(done)).
  2: { cbn [decode_step]. rewrite Hth. cbn [negb]. by rewrite Hr4. }
  pose proof (dinv_redundant_le d4 Hd4) as Hrl4. pose proof Hev4 as [Hp4 Hl4 Hs4 Hred4].
  assert (P (rows d4) x3) as HP4 by by rewrite Hrows4.
  destruct b4.
  { destruct (IH (n - 1)) with (d := d4) (x := x3) (fuel := fuel) as (d' & x' & -> & Hd' & HP' & Hev' & Hres); try done.
    - destruct Hpot as [Hpot|[_ Hpot]]; unfold potential in *; lia.
    - unfold num_constraints in *. congruence.
    - left. destruct Hpot as [Hpot|[_ Hpot]]; unfold potential in *; lia.
    - destruct Hpot as [Hpot|[_ Hpot]]; unfold potential in *; lia.
    - exists d', x'. split; [done|]. split; [done|]. split; [done|]. split; [by trans d4; [trans d1|]|done]. }
  destruct Hres4 as [-> Hnone]. destruct fuel as [|fuel]; [lia|]. exists d1, x3. split; [by apply decode_loop_stop|].
  split; [done|]. split; [done|]. split; [done|]. right. right. split; [done|]. destruct Hnone as [(i & c & Hi & Hw)|Hnone]; [|done]. by apply Hend2 in Hi.
Qed.
End decode.

Section try_decode.
Context {X : Type} (xor_buffers : X → BufferId → BufferId → outcome X) (t : nat) (P : list (list nat) → X → Prop)
  `{!RowStore xor_buffers t P}.

Lemma try_decode_ok d x threshold : dinv d → num_constraints d = t → P (rows d) x → num_source_symbols (params d) ≤ threshold →
  ∃ d' x', try_decode xor_buffers d x threshold = Ret (d', x', decoding_done d') ∧ dinv d' ∧ P (rows d') x' ∧ evolves d d' ∧
    (decoding_done d' = true ∨ length (buffer_state d) - num_redundant_buffers d < threshold ∨ stuck d').
Proof.
  intros Hd Ht HP Hth. unfold try_decode. rewrite (bool_decide_eq_true_2 (num_source_symbols (params d) ≤ threshold)) by done.
  cbn [mbind outcome_bind rust_assert].
  destruct (decode_loop_ok xor_buffers t P (bool_decide (threshold ≤ length (buffer_state d) - num_redundant_buffers d))
    (2 * potential d + 1) d x (decode_fuel d)) as (d' & x' & -> & Hd' & HP' & Hev & Hres); [done|done|done|by left| |].
  - unfold decode_fuel, potential. pose proof (kind_count_le KActive (intermediate_symbol_state d)).
    assert (kind_count KActive (intermediate_symbol_state d) + kind_count KInactivated (intermediate_symbol_state d) ≤ length (intermediate_symbol_state d)).
    { unfold kind_count. clear. induction (intermediate_symbol_state d) as [|s ss IH]; [done|]. rewrite !filter_cons.
      destruct (decide (kind s = KActive)), (decide (kind s = KInactivated)); simpl; congruence || lia. }
    lia.
  - cbn [mbind outcome_bind]. exists d', x'. split; [done|]. split; [done|]. split; [done|]. split; [done|].
    destruct Hres as [Hres|[Hres|Hres]]; [by left|apply bool_decide_eq_false in Hres; right; left; lia|by right; right].
Qed.
End try_decode.

(** ** What is decoded *)

(** The symbols that are paired, as a set. *)
Lemma paired_symbols d : dinv d → ∃ syms, NoDup syms ∧ length syms = num_source_symbols_paired d ∧
  ∀ j, j ∈ syms ↔ j < num_source_symbols (params d) ∧ ∃ i b, buffer_state d !! i = Some b ∧ used b = true ∧ intermediate_symbol_ids b = [j].
Proof.
  intros [Hc _]. set (k := num_source_symbols (params d)).
  set (es := filter (λ e, paired_with k e.2 = true) (imap pair (buffer_state d))).
  assert (∀ i b, (i, b) ∈ es ↔ buffer_state d !! i = Some b ∧ paired_with k b = true) as Hes.
  { intros i b. unfold es. rewrite list_elem_of_filter. simpl. rewrite list_elem_of_lookup. split.
    - intros [Hp [n Hn]]. rewrite list_lookup_imap in Hn. destruct (buffer_state d !! n) eqn:E; [|done]. by simplify_eq/=.
    - intros [Hi Hp]. split; [done|]. exists i. by rewrite list_lookup_imap, Hi. }
  assert (NoDup es) as Hnd.
  { apply NoDup_filter. apply NoDup_alt. intros a b [i c] Ha Hb. rewrite list_lookup_imap in Ha, Hb.
    destruct (buffer_state d !! a); [|done]. destruct (buffer_state d !! b); [|done]. by simplify_eq/=. }
  assert (∀ b, paired_with k b = true ↔ used b = true ∧ ∃ j, intermediate_symbol_ids b = [j] ∧ j < k) as Hpw.
  { intros b. unfold paired_with. destruct (used b); simpl; [|naive_solver].
    destruct (intermediate_symbol_ids b) as [|j [|j' l]]; [naive_solver| |naive_solver]. rewrite bool_decide_eq_true. naive_solver. }
  exists ((λ e, default 0 (head (intermediate_symbol_ids e.2))) <$> es). split_and!.
  - apply NoDup_fmap_2_strong; [|done]. intros [i b] [i' b'] [Hi Hp]%Hes [Hi' Hp']%Hes. simpl.
    apply Hpw in Hp as (Hu & j & Hj & _). apply Hpw in Hp' as (Hu' & j' & Hj' & _). rewrite Hj, Hj'. simpl. intros ->.
    destruct (c_used _ _ _ _ _ _ _ _ Hc i b Hi Hu) as (_ & y & Hy & Hys). rewrite Hj in Hy. apply list_elem_of_singleton in Hy as ->.
    destruct (c_used _ _ _ _ _ _ _ _ Hc i' b' Hi' Hu') as (_ & z & Hz & Hzs). rewrite Hj' in Hz. apply list_elem_of_singleton in Hz as ->.
    assert (i = i') as -> by congruence. by simplify_eq.
  - rewrite length_fmap, (c_paired _ _ _ _ _ _ _ _ Hc). unfold bcount, es. f_equal. apply list_filter_iff. intros [i b]. simpl. by rewrite andb_true_r.
  - intros j. rewrite list_elem_of_fmap. split.
    + intros ([i b] & -> & [Hi Hp]%Hes). apply Hpw in Hp as (Hu & j & Hj & Hjk). simpl. rewrite Hj. simpl. split; [done|]. by exists i, b.
    + intros (Hj & i & b & Hi & Hu & Hids). exists (i, b). simpl. rewrite Hids. split; [done|]. apply Hes. split; [done|]. apply Hpw. split; [done|]. by exists j.
Qed.

Lemma done_iff d : dinv d → decoding_done d = true ↔
  ∀ j, j < num_source_symbols (params d) → ∃ i b, buffer_state d !! i = Some b ∧ used b = true ∧ intermediate_symbol_ids b = [j].
Proof.
  intros Hd. destruct (paired_symbols d Hd) as (syms & Hnd & Hlen & Hin). unfold decoding_done. rewrite bool_decide_eq_true, <- Hlen.
  set (k := num_source_symbols (params d)) in *.
  assert (syms ⊆+ seq 0 k) as Hsub. { apply NoDup_submseteq; [done|]. intros j [Hj _]%Hin. apply elem_of_seq. lia. }
  split.
  - intros Heq j Hj. assert (syms ≡ₚ seq 0 k) as Hp by (apply submseteq_length_Permutation; [done|rewrite length_seq; lia]).
    apply Hin. rewrite Hp. apply elem_of_seq. lia.
  - intros Hall. apply submseteq_length in Hsub. rewrite length_seq in Hsub. apply Nat.le_antisymm; [done|].
    rewrite <- (length_seq k 0) at 1. apply submseteq_length, NoDup_submseteq; [apply NoDup_seq|]. intros j Hj%elem_of_seq. apply Hin.
    split; [lia|]. apply Hall. lia.
Qed.

(** A buffer that is used by a symbol of its own. *)
Lemma paired_symbol d i b j : dinv d → buffer_state d !! i = Some b → used b = true → intermediate_symbol_ids b = [j] →
  intermediate_symbol_state d !! j = Some (Used i).
Proof.
  intros [Hc _] Hi Hu Hids. destruct (c_used _ _ _ _ _ _ _ _ Hc i b Hi Hu) as (_ & k & Hk & Hks). rewrite Hids in Hk.
  by apply list_elem_of_singleton in Hk as ->.
Qed.

(** ** Completeness *)

(** A vector that every row sends to zero. *)
Definition in_null (rs : list (list nat)) (x : nat → bool) : Prop := ∀ i row, rs !! i = Some row → xsum x row = false.

Lemma rows_lookup_inv d i row : rows d !! i = Some row → ∃ b, buffer_state d !! i = Some b ∧ row = intermediate_symbol_ids b.
Proof.
  unfold rows. rewrite list_lookup_fmap. destruct (buffer_state d !! i) as [b|]; [|done]. intros [= <-]. by exists b.
Qed.

(** Without weight, all symbols of a buffer are inactivated. *)
Lemma weightless_inact d i b j : dinv d → buffer_state d !! i = Some b → active_used_weight b = 0 → j ∈ intermediate_symbol_ids b →
  is_inact (intermediate_symbol_state d) j = true.
Proof.
  intros [Hc _] Hi Hw Hj. rewrite (core_live _ _ _ _ _ i b Hc Hi) in Hw. unfold live in Hw. apply nil_length_inv in Hw.
  destruct (is_inact _ j) eqn:E; [done|]. assert (j ∈ (@nil nat)) as []%not_elem_of_nil. rewrite <- Hw. by apply list_elem_of_filter.
Qed.

Section stuck.
Context (d : Decoder) (Hd : dinv d) (Hno : ∀ i c, buffer_state d !! i = Some c → usable_weight c = None).
#[local] Notation ss := (intermediate_symbol_state d).

Lemma stuck_weight i b : buffer_state d !! i = Some b → used b = false → active_used_weight b = 0.
Proof using Hno.
  intros Hi Hu. pose proof (Hno i b Hi) as H. unfold usable_weight in H. rewrite Hu in H. simpl in H. by case_bool_decide.
Qed.

(** An active symbol is in no buffer. *)
Lemma active_null j B : ss !! j = Some (Active B) → in_null (rows d) (λ k, bool_decide (k = j)).
Proof using Hd Hno.
  intros Hj i row (b & Hi & ->)%rows_lookup_inv. apply xsum_false. intros k Hk. apply bool_decide_eq_false. intros ->.
  pose proof (active_unused _ _ _ _ _ i b j B (proj1 Hd) Hi Hj Hk) as Hu.
  pose proof (weightless_inact d i b j Hd Hi (stuck_weight i b Hi Hu) Hk) as H. unfold is_inact in H. by rewrite Hj in H.
Qed.

Context (Hnoact : ∀ j B, ss !! j ≠ Some (Active B)).

Lemma not_inact_used j : j < length ss → is_inact ss j = false → ∃ i, ss !! j = Some (Used i).
Proof using Hnoact.
  intros Hj Hi. destruct (lookup_lt_is_Some_2 _ _ Hj) as [s Hs]. unfold is_inact in Hi. rewrite Hs in *.
  destruct s as [B| |i]; [by apply Hnoact in Hs|done|by exists i].
Qed.

(** When all symbols are used, the source is decoded. *)
Lemma all_used_done : (∀ j, is_inact ss j = false) → decoding_done d = true.
Proof using Hd Hnoact.
  intros Hall. pose proof Hd as [Hc _]. apply (done_iff d Hd). intros j Hj.
  destruct (not_inact_used j) as [i Hs]; [|done|].
  { rewrite (c_length _ _ _ _ _ _ _ _ Hc), (po_sum _ (c_params _ _ _ _ _ _ _ _ Hc)). lia. }
  destruct (c_used_by _ _ _ _ _ _ _ _ Hc i j Hs) as (b & Hi & Hu & Hjb). exists i, b. split; [done|]. split; [done|].
  pose proof (core_used_weight _ _ _ _ _ _ _ _ _ _ Hc Hi Hu) as Hw. rewrite (core_live _ _ _ _ _ i b Hc Hi) in Hw.
  unfold live in Hw. rewrite list_filter_all in Hw by (intros; apply Hall).
  destruct (intermediate_symbol_ids b) as [|y [|z l]]; simpl in Hw; try lia. by apply list_elem_of_singleton in Hjb as ->.
Qed.

(** The inactivated symbols of a buffer. *)
Definition inact_ids (i : nat) : list nat :=
  match buffer_state d !! i with Some b => filter (λ j, is_inact ss j = true) (intermediate_symbol_ids b) | None => [] end.

(** A solution for the inactivated symbols, extended to the used ones. *)
Definition extend_solution (y : nat → bool) (k : nat) : bool :=
  match ss !! k with Some (Used i) => xsum y (inact_ids i) | _ => y k end.

Lemma extend_solution_inact y k : is_inact ss k = true → extend_solution y k = y k.
Proof using. unfold extend_solution, is_inact. by destruct (ss !! k) as [[]|]. Qed.

Lemma used_row_ids i b : buffer_state d !! i = Some b → used b = true →
  ∃ k, ss !! k = Some (Used i) ∧ intermediate_symbol_ids b ≡ₚ k :: inact_ids i.
Proof using Hd.
  intros Hi Hu. pose proof Hd as [Hc _]. destruct (c_used _ _ _ _ _ _ _ _ Hc i b Hi Hu) as (Hw & k & Hk & Hks). exists k. split; [done|].
  assert (NoDup (intermediate_symbol_ids b)) as Hnd by apply sorted_nodup, (c_ids _ _ _ _ _ _ _ _ Hc i b Hi).
  assert (is_inact ss k = false) as Hki by (unfold is_inact; by rewrite Hks).
  unfold inact_ids. rewrite Hi. apply NoDup_Permutation; [done| |].
  - constructor; [|by apply NoDup_filter]. rewrite list_elem_of_filter. naive_solver congruence.
  - intros z. rewrite elem_of_cons, list_elem_of_filter. split; [|naive_solver]. intros Hz. destruct (is_inact ss z) eqn:E; [by right|].
    left. eapply (live_one ss); [|done..]. by rewrite <- (core_live _ _ _ _ _ i b Hc Hi).
Qed.

Lemma extend_solution_null y : (∀ i b, buffer_state d !! i = Some b → is_Some (inactive_weight b) → xsum y (intermediate_symbol_ids b) = false) →
  in_null (rows d) (extend_solution y).
Proof using Hd Hno.
  intros Hker i row (b & Hi & ->)%rows_lookup_inv. destruct (used b) eqn:Hu.
  - destruct (used_row_ids i b Hi Hu) as (k & Hks & Hp). rewrite (xsum_perm _ _ _ Hp). cbn [xsum foldr]. fold (xsum (extend_solution y) (inact_ids i)).
    unfold extend_solution at 1. rewrite Hks. rewrite (xsum_ext (extend_solution y) y (inact_ids i)); [apply xorb_nilpotent|].
    intros z Hz. apply extend_solution_inact. unfold inact_ids in Hz. rewrite Hi in Hz. apply list_elem_of_filter in Hz. tauto.
  - pose proof (stuck_weight i b Hi Hu) as Hw. rewrite (xsum_ext _ y).
    2: { intros z Hz. apply extend_solution_inact. by apply (weightless_inact d i b). }
    destruct (decide (intermediate_symbol_ids b = [])) as [->|Hne]; [done|]. apply (Hker i b Hi). unfold inactive_weight.
    rewrite bool_decide_eq_true_2 by done. eauto.
Qed.

Lemma too_few_null : too_few_rows d → decoding_done d = false → ∃ x j, j < length ss ∧ x j = true ∧ in_null (rows d) x.
Proof using Hd Hno Hnoact.
  intros (indices & cols & Hndi & Hndc & Hindices & Hcols & Hfew) Hdone. pose proof Hd as [Hc _].
  set (inact := filter (λ j, is_inact ss j = true) (seq 0 (length ss))).
  assert (NoDup inact) as Hndin by (apply NoDup_filter, NoDup_seq).
  assert (∀ j, j ∈ inact ↔ is_inact ss j = true) as Hin.
  { intros j. unfold inact. rewrite list_elem_of_filter, elem_of_seq. split; [tauto|]. intros H. split; [done|]. unfold is_inact in H.
    destruct (ss !! j) eqn:E; [|done]. apply lookup_lt_Some in E. lia. }
  destruct (decide (inact = [])) as [Hnil|Hnn].
  { exfalso. enough (decoding_done d = true) by congruence. apply all_used_done. intros k. destruct (is_inact ss k) eqn:E; [|done].
    apply Hin in E. rewrite Hnil in E. by apply elem_of_nil in E. }
  assert (length indices < length inact) as Hlt.
  { destruct Hfew as [->|Hfew]; [destruct inact; [done|simpl; lia]|]. enough (length cols ≤ length inact) by lia.
    apply submseteq_length, NoDup_submseteq; [done|]. intros k (i & b & Hi & Hb & Hk)%Hcols. apply Hin.
    apply Hindices in Hi as (b' & Hb' & [w Hw]). assert (b' = b) as -> by congruence. apply (weightless_inact d i b); [done|done| |done].
    unfold inactive_weight in Hw. case_bool_decide; [tauto|done]. }
  set (irows := (λ i, match buffer_state d !! i with Some b => intermediate_symbol_ids b | None => [] end) <$> indices).
  destruct (kernel_exists irows inact) as (y & (v & Hv & Hyv) & Hout & Hker).
  { unfold irows. rewrite Forall_fmap, Forall_forall. intros i (b & Hi & _)%Hindices. simpl. rewrite Hi. apply sorted_nodup, (c_ids _ _ _ _ _ _ _ _ Hc i b Hi). }
  { done. }
  { unfold irows. by rewrite length_fmap. }
  apply Hin in Hv as Hvi. exists (extend_solution y), v. split; [|split].
  - unfold is_inact in Hvi. destruct (ss !! v) eqn:E; [by apply lookup_lt_Some in E|done].
  - by rewrite extend_solution_inact.
  - apply extend_solution_null. intros i b Hi Hw. rewrite Forall_forall in Hker. apply Hker. unfold irows. apply list_elem_of_fmap.
    exists i. rewrite Hi. split; [done|]. apply Hindices. by exists b.
Qed.
End stuck.

(** When nothing is left to do and the source is not decoded, the rows do not
    determine the symbols. *)
Lemma stuck_null d : dinv d → stuck d → decoding_done d = false →
  ∃ x j, j < length (intermediate_symbol_state d) ∧ x j = true ∧ in_null (rows d) x.
Proof.
  intros Hd [Hfew Hno] Hdone.
  destruct (decide (Exists (λ s, is_active s = true) (intermediate_symbol_state d))) as [(s & [j Hj]%list_elem_of_lookup & Ha)%list.Exists_exists|Hnoact].
  - destruct s as [B| |]; try done. exists (λ k, bool_decide (k = j)), j. split; [by apply lookup_lt_Some in Hj|].
    split; [by apply bool_decide_eq_true|by eapply active_null].
  - apply too_few_null; try done. intros j B Hj. apply Hnoact, list.Exists_exists. exists (Active B). split; [by eapply list_elem_of_lookup_2|done].
Qed.
