(* ===== verification/RaptorReceive.v ===== *)
(** * A new decoder, and an encoded symbol that is received

    Both establish the invariant, with the rows of the matrix of the code. *)
From S2P Require Import Prelude RaptorSets RaptorHeap RaptorCode RaptorRows RaptorMatrix RaptorDecoder RaptorInv RaptorPeel.
#[local] Open Scope nat_scope.
#[local] Arguments Nat.div : simpl never.

(** ** The heaps with one more buffer *)

Lemma lookup_push {A B} (f : A → option B) (l : list A) (b : A) i :
  (l ++ [b]) !! i ≫= f = if decide (i = length l) then f b else l !! i ≫= f.
Proof.
  case_decide as H.
  - subst. rewrite list_lookup_middle by done. done.
  - destruct (decide (i < length l)); [by rewrite lookup_app_l|]. rewrite !(proj2 (lookup_ge_None _ _)); [done|lia|rewrite length_app; simpl; lia].
Qed.

Lemma heaps_inactive_map bs0 h1' h2' nr' : heaps bs0 h1' h2' nr' [] → ∃ m : gmap nat nat, heap_ok h2' m ∧ ∀ i, m !! i = bs0 !! i ≫= inactive_weight.
Proof.
  intros H. destruct (h_inactive _ _ _ _ _ H) as (m & Hm & [_ Hi]%stale_iff). exists m. split; [done|]. intros i. apply Hi. set_solver.
Qed.
Lemma heaps_of_maps bs0 h1' h2' nr' : (∃ m : gmap nat nat, heap_ok h1' m ∧ ∀ i, m !! i = bs0 !! i ≫= usable_weight) →
  (∃ m : gmap nat nat, heap_ok h2' m ∧ ∀ i, m !! i = bs0 !! i ≫= inactive_weight) →
  nr' = bcount (λ i b, redundant b && bool_decide (i ∉ [])) bs0 → heaps bs0 h1' h2' nr' [].
Proof.
  intros H1 (m & Hm & Hi) Hr. split; [done| |done|set_solver]. exists m. split; [done|]. apply stale_iff. split; [set_solver|done].
Qed.

Section push.
Context (bs : list Buffer) (h1 h2 : BufferWeightMap) (nr : nat) (b : Buffer).
Context (Hh : heaps bs h1 h2 nr []) (H16 : (N.of_nat (length bs) < 65536)%N).

Lemma push_redundant : bcount (λ i b, redundant b && bool_decide (i ∉ [])) (bs ++ [b]) = nr + b2n (redundant b).
Proof.
  rewrite bcount_app, bcount_singleton, (h_redundant _ _ _ _ _ Hh). by rewrite andb_true_r.
Qed.

(** The map of a heap, when the new buffer is not in it. *)
Lemma push_map_other h f : (∃ m : gmap nat nat, heap_ok h m ∧ ∀ i, m !! i = bs !! i ≫= f) → f b = None →
  ∃ m : gmap nat nat, heap_ok h m ∧ ∀ i, m !! i = (bs ++ [b]) !! i ≫= f.
Proof.
  clear H16 Hh. intros (m & Hm & Hi) Hf. exists m. split; [done|]. intros i. rewrite lookup_push, Hi. case_decide; [|done]. subst.
  rewrite (proj2 (lookup_ge_None bs _)) by lia. by rewrite Hf.
Qed.

(** The map of a heap after the new buffer was inserted. *)
Lemma push_map_insert h f w : (∃ m : gmap nat nat, heap_ok h m ∧ ∀ i, m !! i = bs !! i ≫= f) → f b = Some w →
  ∃ h', insert_buffer_weight h (length bs) w = Ret h' ∧ ∃ m : gmap nat nat, heap_ok h' m ∧ ∀ i, m !! i = (bs ++ [b]) !! i ≫= f.
Proof.
  intros (m & Hm & Hi) Hf. assert (m !! length bs = None) as Hnone by (rewrite Hi, (proj2 (lookup_ge_None bs _)) by lia; done).
  destruct (insert_buffer_weight_ok h m (length bs) w Hm Hnone H16) as (h' & -> & Hok).
  { rewrite (heap_ok_size h m Hm). assert (size m ≤ length bs); [|lia]. apply slot_size. intros i Hs. rewrite Hi in Hs.
    destruct (bs !! i) eqn:E; [by apply lookup_lt_Some in E|by destruct Hs]. }
  exists h'. split; [done|]. exists (<[length bs := w]> m). split; [done|]. intros i. rewrite lookup_push. case_decide as E.
  - subst. by rewrite lookup_insert_eq.
  - rewrite lookup_insert_ne by done. apply Hi.
Qed.

Lemma push_usable w : usable_weight b = Some w → ∃ h, insert_buffer_weight h1 (length bs) w = Ret h ∧ heaps (bs ++ [b]) h h2 nr [].
Proof.
  intros Hw. destruct (usable_not_inactive _ _ Hw) as (Hin & Hr & _).
  destruct (push_map_insert h1 usable_weight w (h_usable _ _ _ _ _ Hh) Hw) as (h & -> & Hu). exists h. split; [done|].
  apply heaps_of_maps; [done|by apply push_map_other; [eapply heaps_inactive_map|]|]. rewrite push_redundant, Hr. simpl. lia.
Qed.
Lemma push_inactive w : inactive_weight b = Some w → ∃ h, insert_buffer_weight h2 (length bs) w = Ret h ∧ heaps (bs ++ [b]) h1 h nr [].
Proof.
  intros Hw. destruct (inactive_not_usable _ _ Hw) as (Hu & Hr & _).
  destruct (push_map_insert h2 inactive_weight w (heaps_inactive_map _ _ _ _ Hh) Hw) as (h & -> & Hi). exists h. split; [done|].
  apply heaps_of_maps; [by apply push_map_other; [apply (h_usable _ _ _ _ _ Hh)|]|done|]. rewrite push_redundant, Hr. simpl. lia.
Qed.
Lemma push_none : usable_weight b = None → inactive_weight b = None → redundant b = true → heaps (bs ++ [b]) h1 h2 (nr + 1) [].
Proof.
  intros Hu Hi Hr. apply heaps_of_maps.
  - by apply push_map_other; [apply (h_usable _ _ _ _ _ Hh)|].
  - by apply push_map_other; [eapply heaps_inactive_map|].
  - by rewrite push_redundant, Hr.
Qed.
End push.

(** ** The symbols of the new buffer *)

Lemma append_id_ok b id inc : (N.of_nat id < 65536)%N → (N.of_nat (active_used_weight b + 1) < 65536)%N →
  append_intermediate_symbol_id b id inc =
    Ret (mkBuffer (intermediate_symbol_ids b ++ [id]) (active_used_weight b + b2n inc) (used b)).
Proof.
  intros Hid Hw. unfold append_intermediate_symbol_id. rewrite u16_try_from_ret by done. cbn [mbind outcome_bind]. destruct inc.
  - unfold u16_incr. cbn [active_used_weight]. rewrite u16_try_from_ret by done. done.
  - simpl. by rewrite Nat.add_0_r.
Qed.

Lemma live_app ss l k : live ss (l ++ k) = live ss l + live ss k.
Proof. unfold live. by rewrite filter_app, length_app. Qed.

Definition used_index (ss : list IntermediateSymbol) (j : nat) : option nat := s ← ss !! j; is_used_buffer_index s.

Lemma receive_ids_ok d row : (∀ j, j ∈ row → j < length (intermediate_symbol_state d)) → (N.of_nat (length row) < 65536)%N →
  (N.of_nat (length (intermediate_symbol_state d)) ≤ 65536)%N →
  for_each (receive_id d) (buffer_new, []) row =
    Ret (mkBuffer row (live (intermediate_symbol_state d) row) false, omap (used_index (intermediate_symbol_state d)) row).
Proof.
  intros Hl H16 Hss.
  destruct (for_each_ok (λ l s, ∃ pre, row = pre ++ l ∧ s = (mkBuffer pre (live (intermediate_symbol_state d) pre) false, omap (used_index (intermediate_symbol_state d)) pre))
    (receive_id d) row (buffer_new, [])) as (s & -> & pre & Hpre & ->).
  - intros j l s (pre & Hpre & ->). cbn [receive_id]. destruct (lookup_lt_is_Some_2 (intermediate_symbol_state d) j) as [sj Hj].
    { apply Hl. rewrite Hpre. set_solver. }
    rewrite (vec_get_ret _ _ _ Hj). cbn [mbind outcome_bind].
    assert (length pre < length row) by (rewrite Hpre, length_app; simpl; lia).
    pose proof (live_le (intermediate_symbol_state d) pre).
    rewrite append_id_ok; [|apply lookup_lt_Some in Hj; lia|simpl; lia]. cbn [mbind outcome_bind intermediate_symbol_ids active_used_weight used].
    eexists. split; [done|]. exists (pre ++ [j]). split; [by rewrite <- app_assoc|]. f_equal.
    + f_equal. rewrite live_app, live_cons. unfold is_inact. rewrite Hj. unfold live. simpl. lia.
    + rewrite omap_app. assert (used_index (intermediate_symbol_state d) j = is_used_buffer_index sj) as E by (unfold used_index; by rewrite Hj).
      simpl. rewrite E. destruct (is_used_buffer_index sj); [done|]. by rewrite app_nil_r.
  - by exists [].
  - rewrite app_nil_r in Hpre. by subst.
Qed.

Lemma xor_ids_ok ids bids : sorted ids → NoDup bids → ∃ ids',
  for_each (λ ids id, '(ids, _) ← set_insert_or_remove ids id; Ret ids) ids bids = Ret ids' ∧ sorted ids' ∧
  ∀ k, k ∈ ids' ↔ (k ∈ ids ∧ k ∉ bids) ∨ (k ∈ bids ∧ k ∉ ids).
Proof.
  intros Hs Hnd.
  destruct (for_each_ok (λ l ids', ∃ pre, bids = pre ++ l ∧ sorted ids' ∧ ∀ k, k ∈ ids' ↔ (k ∈ ids ∧ k ∉ pre) ∨ (k ∈ pre ∧ k ∉ ids))
    (λ ids id, '(ids, _) ← set_insert_or_remove ids id; Ret ids) bids ids) as (ids' & -> & pre & Hpre & Hs' & Hm).
  - intros j l ids1 (pre & -> & Hs1 & Hm1). destruct (set_insert_or_remove_spec ids1 j Hs1) as (ids2 & b & -> & Hs2 & _ & Hm2 & _).
    cbn [mbind outcome_bind]. exists ids2. split; [done|]. exists (pre ++ [j]). split; [by rewrite <- app_assoc|]. split; [done|].
    apply NoDup_app in Hnd as (_ & Hdisj & _). assert (j ∉ pre) as Hj by (intros H; apply (Hdisj j H); left).
    intros k. rewrite Hm2, elem_of_app, list_elem_of_singleton. case_decide; [subst|]; rewrite Hm1; tauto.
  - exists []. split; [done|]. split; [done|]. set_solver.
  - rewrite app_nil_r in Hpre. subst. by exists ids'.
Qed.

(** A used buffer has one used symbol. *)
Lemma used_symbol_unique p bs ss np extra i j k : core p bs ss np extra [] [] [] → ss !! j = Some (Used i) → ss !! k = Some (Used i) → j = k.
Proof.
  intros Hc Hj Hk. destruct (c_used_by _ _ _ _ _ _ _ _ Hc i j Hj) as (b & Hi & Hu & Hjb).
  destruct (c_used_by _ _ _ _ _ _ _ _ Hc i k Hk) as (b' & Hi' & _ & Hkb). assert (b' = b) as -> by congruence.
  eapply (live_one ss); [|done|done|unfold is_inact; by rewrite Hj|unfold is_inact; by rewrite Hk].
  rewrite <- (core_live _ _ _ _ _ i b Hc Hi). by eapply core_used_weight.
Qed.

(** ** Reducing the new buffer *)

(** The local buffer while it is reduced by the buffers of [todo]. *)
Record reducing (d : Decoder) (b : Buffer) (todo : list nat) : Prop := {
  rd_sorted : sorted (intermediate_symbol_ids b);
  rd_range : ∀ j, j ∈ intermediate_symbol_ids b → j < length (intermediate_symbol_state d);
  rd_weight : active_used_weight b = live (intermediate_symbol_state d) (intermediate_symbol_ids b);
  rd_unused : used b = false;
  rd_nodup : NoDup todo;
  rd_used : ∀ u, u ∈ todo → ∃ j, intermediate_symbol_state d !! j = Some (Used u);
  rd_todo : ∀ j u, intermediate_symbol_state d !! j = Some (Used u) → j ∈ intermediate_symbol_ids b ↔ u ∈ todo;
}.

Lemma reducing_start d row : dinv d → row_ok (params d) row →
  reducing d (mkBuffer row (live (intermediate_symbol_state d) row) false) (omap (used_index (intermediate_symbol_state d)) row).
Proof.
  intros [Hc _] [Hs Hne Hr]. assert (∀ j u, used_index (intermediate_symbol_state d) j = Some u ↔ intermediate_symbol_state d !! j = Some (Used u)) as Hui.
  { intros j u. unfold used_index. destruct (intermediate_symbol_state d !! j) as [[]|]; simpl; naive_solver. }
  split; simpl; try done.
  - intros j Hj%Hr. by rewrite (c_length _ _ _ _ _ _ _ _ Hc).
  - clear Hne Hr. induction Hs as [|j row Hs IH Hj]; [constructor|]. simpl. destruct (used_index _ j) as [u|] eqn:E; [|done]. constructor; [|done].
    intros (k & Hk & Hku)%list_elem_of_omap. apply Hui in E, Hku. rewrite Forall_forall in Hj. specialize (Hj k Hk).
    pose proof (used_symbol_unique _ _ _ _ _ _ _ _ Hc E Hku). lia.
  - intros u (j & _ & Hu)%list_elem_of_omap. exists j. by apply Hui.
  - intros j u Hj. rewrite list_elem_of_omap. split.
    + intros Hin. exists j. split; [done|]. by apply Hui.
    + intros (k & Hk & Hku%Hui). by rewrite (used_symbol_unique _ _ _ _ _ _ _ _ Hc Hj Hku).
Qed.

(** Pushing the new buffer on the lists of its symbols. *)
Definition pushed (n : nat) (ids : list nat) (ss ss' : list IntermediateSymbol) : Prop :=
  length ss' = length ss ∧ ∀ k s, ss !! k = Some s → ∃ s', ss' !! k = Some s' ∧
    if bool_decide (k ∈ ids) then kind s' = kind s ∧ kind s ≠ KUsed ∧ symbol_buffers s' = symbol_buffers s ++ [n] else s' = s.

Lemma push_symbols_ok n ids ss : NoDup ids → (∀ k, k ∈ ids → ∃ s, ss !! k = Some s ∧ is_used s = false) →
  ∃ ss', for_each (λ symbols id, s ← vec_get symbols id; s ← active_inactivated_push s n; vec_set symbols id s) ss ids = Ret ss' ∧ pushed n ids ss ss'.
Proof.
  intros Hnd Hex.
  destruct (for_each_ok (λ l ss', ∃ pre, ids = pre ++ l ∧ pushed n pre ss ss')
    (λ symbols id, s ← vec_get symbols id; s ← active_inactivated_push s n; vec_set symbols id s) ids ss) as (ss' & -> & pre & Hpre & Hp).
  - intros k l ss1 (pre & -> & [Hlen Hp]). destruct (Hex k) as (s & Hk & Hu); [set_solver|]. apply NoDup_app in Hnd as (_ & Hdisj & _).
    assert (k ∉ pre) as Hkp by (intros H; apply (Hdisj k H); left). destruct (Hp k s Hk) as (s1 & Hk1 & E). rewrite bool_decide_eq_false_2 in E by done. subst s1.
    rewrite (vec_get_ret _ _ _ Hk1). cbn [mbind outcome_bind].
    assert (∃ s', active_inactivated_push s n = Ret s' ∧ kind s' = kind s ∧ kind s ≠ KUsed ∧ symbol_buffers s' = symbol_buffers s ++ [n]) as (s' & -> & Hs').
    { destruct s; try done; eexists; split; done. }
    cbn [mbind outcome_bind]. rewrite vec_set_ret by (by apply lookup_lt_Some in Hk1). eexists. split; [done|]. exists (pre ++ [k]).
    split; [by rewrite <- app_assoc|]. split; [by rewrite length_insert|]. intros j sj Hj. destruct (decide (j = k)) as [->|Hne].
    + exists s'. rewrite list_lookup_insert_eq by (by apply lookup_lt_Some in Hk1). split; [done|]. rewrite bool_decide_eq_true_2 by set_solver.
      assert (sj = s) as -> by congruence. done.
    + destruct (Hp j sj Hj) as (sj' & Hj' & E). exists sj'. rewrite list_lookup_insert_ne by done. split; [done|].
      by rewrite (bool_decide_ext (j ∈ pre ++ [k]) (j ∈ pre)) by set_solver.
  - exists []. split; [done|]. split; [done|]. intros k s Hk. exists s. split; [done|]. by rewrite bool_decide_eq_false_2 by set_solver.
  - rewrite app_nil_r in Hpre. subst. by exists ss'.
Qed.

Lemma pushed_kinds n ids ss ss' : pushed n ids ss ss' → kind <$> ss' = kind <$> ss.
Proof.
  intros [Hlen Hp]. apply list_eq. intros k. rewrite !list_lookup_fmap. destruct (ss !! k) as [s|] eqn:Hk.
  - destruct (Hp k s Hk) as (s' & -> & E). simpl. case_bool_decide; [destruct E; congruence|by subst].
  - apply lookup_ge_None in Hk. rewrite (proj2 (lookup_ge_None ss' k)) by lia. done.
Qed.

Lemma core_push p bs ss ss' np b : core p bs ss np no_extra [] [] [] → (N.of_nat (S (length bs)) < 65536)%N →
  sorted (intermediate_symbol_ids b) → (∀ j, j ∈ intermediate_symbol_ids b → j < length ss) →
  active_used_weight b = live ss (intermediate_symbol_ids b) → used b = false → pushed (length bs) (intermediate_symbol_ids b) ss ss' →
  core p (bs ++ [b]) ss' np no_extra [] [] [].
Proof.
  intros Hc H16 Hsb Hrb Hwb Hub Hpu. pose proof (pushed_kinds _ _ _ _ Hpu) as Hkinds. destruct Hpu as [Hlen Hp].
  assert (∀ k c, (bs ++ [b]) !! k = Some c → (k = length bs ∧ c = b) ∨ (k < length bs ∧ bs !! k = Some c)) as Hlook.
  { intros k c [Hk|[-> ->]]%lookup_snoc_Some; [right; by destruct Hk|by left]. }
  assert (∀ k s', ss' !! k = Some s' → ∃ s, ss !! k = Some s ∧
    if bool_decide (k ∈ intermediate_symbol_ids b) then kind s' = kind s ∧ kind s ≠ KUsed ∧ symbol_buffers s' = symbol_buffers s ++ [length bs] else s' = s) as Hback.
  { intros k s' Hk. destruct (lookup_lt_is_Some_2 ss k) as [s Hs]; [apply lookup_lt_Some in Hk; lia|]. exists s. split; [done|].
    destruct (Hp k s Hs) as (s2 & Hk2 & E). by simplify_eq. }
  destruct Hc as [H1 H2 H3 H4 H5 H6 H7 H8 H9 H10]. split; rewrite ?length_app; simpl; try done.
  - congruence.
  - lia.
  - rewrite Hlen. intros k c [[-> ->]|[_ Hk]]%Hlook; [done|by apply (H4 k c)].
  - intros k s' (s & Hk & E)%Hback. destruct (H5 k s Hk) as [Hso Hra]. case_bool_decide.
    + destruct E as (_ & _ & ->). split; [apply sorted_app_2; [done|repeat constructor|]|]; [|intros i [Hi%Hra|Hi%list_elem_of_singleton]%elem_of_app; lia].
      intros i y Hi%Hra Hy%list_elem_of_singleton. lia.
    + subst s'. split; [done|]. intros i Hi%Hra. lia.
  - intros i c k s' Hi (s & Hk & E)%Hback. destruct (H5 k s Hk) as [_ Hra]. unfold no_extra in *. apply Hlook in Hi as [[-> ->]|[Hlt Hi]].
    + case_bool_decide as Hkb.
      * destruct E as (_ & _ & ->). rewrite elem_of_app, list_elem_of_singleton. tauto.
      * subst s'. split; [done|]. intros [Hl%Hra|[]]. lia.
    + rewrite (H6 i c k s Hi Hk). case_bool_decide as Hkb; [|by subst]. destruct E as (_ & _ & ->). rewrite elem_of_app, list_elem_of_singleton.
      split; [tauto|]. intros [[|]|]; [tauto|lia|tauto].
  - intros i c Hi. rewrite (kinds_live ss ss') by done. apply Hlook in Hi as [[-> ->]|[_ Hi]]; [lia|]. apply (H7 i c Hi).
  - intros i c [[-> ->]|[_ Hi]]%Hlook Hu; [congruence|]. destruct (H8 i c Hi Hu) as (Hw & k & Hk & Hks). split; [done|]. exists k. split; [done|].
    destruct (Hp k _ Hks) as (s' & Hk' & E). case_bool_decide; [by destruct E as (_ & ? & _)|by subst].
  - intros i k (s & Hk & E)%Hback. case_bool_decide; [destruct E as (? & ? & _); simpl in *; congruence|]. subst s.
    destruct (H9 i k Hk) as (c & Hi & Hc). exists c. split; [by apply lookup_app_l_Some|done].
  - rewrite H10, bcount_app, bcount_singleton. unfold paired_with at 3. rewrite Hub. simpl. lia.
Qed.

Section receive.
Context {X : Type} (xor_buffers : X → BufferId → BufferId → outcome X) (t : nat) (P : list (list nat) → X → Prop)
  `{!RowStore xor_buffers t P}.

Lemma reduce_received_ok d x b u todo : dinv d → num_constraints d = t → reducing d b (u :: todo) → P (rows d ++ [intermediate_symbol_ids b]) x →
  ∃ b' x', reduce_received xor_buffers d (length (buffer_state d)) (b, x) u = Ret (b', x') ∧ reducing d b' todo ∧ P (rows d ++ [intermediate_symbol_ids b']) x'.
Proof.
  intros [Hc Hh] Ht [Hs Hr Hw Hu Hnd Hus Htd] HP. cbn [reduce_received]. destruct (Hus u ltac:(left)) as [j Hj].
  destruct (c_used_by _ _ _ _ _ _ _ _ Hc u j Hj) as (o & Ho & Huo & Hjo). rewrite (vec_get_ret _ _ _ Ho). cbn [mbind outcome_bind].
  destruct (c_ids _ _ _ _ _ _ _ _ Hc u o Ho) as [Hso Hro]. unfold buffer_xor_eq.
  destruct (xor_ids_ok (intermediate_symbol_ids b) (intermediate_symbol_ids o) Hs (sorted_nodup _ Hso)) as (ids & -> & Hs' & Hm).
  cbn [mbind outcome_bind active_used_weight]. apply NoDup_cons in Hnd as [Hut Hnd].
  assert (is_inact (intermediate_symbol_state d) j = false) as Hij by (unfold is_inact; by rewrite Hj).
  assert (live (intermediate_symbol_state d) (intermediate_symbol_ids o) = 1) as Hlo.
  { rewrite <- (core_live _ _ _ _ _ u o Hc Ho). by eapply core_used_weight. }
  assert (∀ k, k ∈ intermediate_symbol_ids o → is_inact (intermediate_symbol_state d) k = false → k = j) as Honly by (intros; by eapply live_one).
  assert (j ∈ intermediate_symbol_ids b) as Hjb by (apply (Htd j u Hj); left).
  pose proof (live_xor (intermediate_symbol_state d) (intermediate_symbol_ids b) (intermediate_symbol_ids o) ids) as Hlive.
  specialize (Hlive (sorted_nodup _ Hs) (sorted_nodup _ Hso) (sorted_nodup _ Hs') Hm ltac:(intros k Hk Hik; by rewrite (Honly k Hk Hik))).
  rewrite Hw, Hlive, Hlo, Nat.add_1_r. cbn [u16_decr mbind outcome_bind].
  pose proof (lookup_lt_Some _ _ _ Ho) as Hul.
  destruct (row_store_xor (rows d ++ [intermediate_symbol_ids b]) x (length (buffer_state d)) u (intermediate_symbol_ids b) (intermediate_symbol_ids o) ids)
    as (x' & Hx & HP'); try done.
  { apply list_lookup_middle. unfold rows. by rewrite length_fmap. }
  { apply lookup_app_l_Some. by apply rows_lookup. }
  { lia. }
  unfold xor_indices, buffer_index_to_buffer_id, num_redundant_intermediate_symbols. unfold num_constraints in Ht. rewrite Ht.
  unfold id_of in Hx. rewrite Hx. cbn [mbind outcome_bind]. eexists _, x'. split; [done|]. split.
  - split; simpl; try done.
    + intros k [[Hk _]|[Hk _]]%Hm; [by apply Hr|by apply Hro].
    + intros v Hv. apply Hus. by right.
    + intros k v Hk. rewrite Hm, (Htd k v Hk), elem_of_cons. assert (is_inact (intermediate_symbol_state d) k = false) as Hik by (unfold is_inact; by rewrite Hk).
      destruct (decide (k = j)) as [->|Hne].
      * assert (v = u) as -> by congruence. tauto.
      * assert (k ∉ intermediate_symbol_ids o) by (intros Hko; by apply Hne, Honly).
        assert (v ≠ u) by (intros ->; apply Hne; by eapply used_symbol_unique). tauto.
  - simpl. replace (rows d ++ [ids]) with (<[length (buffer_state d) := ids]> (rows d ++ [intermediate_symbol_ids b])); [done|].
    replace (length (buffer_state d)) with (length (rows d) + 0) by (unfold rows; rewrite length_fmap; lia). by rewrite insert_app_r.
Qed.

Lemma received_encoded_symbol_ok d x esi row : dinv d → num_constraints d = t → (N.of_nat (S (length (buffer_state d))) < 65536)%N →
  lt_sequence_op (params d) esi = Ret row → row_ok (params d) row → P (rows d ++ [row]) x →
  ∃ d' x', received_encoded_symbol xor_buffers d x esi = Ret (d', x') ∧ dinv d' ∧ P (rows d') x' ∧ params d' = params d ∧
    length (buffer_state d') = S (length (buffer_state d)).
Proof.
  intros Hd Ht H16 Hrow Hok HP. pose proof Hd as [Hc Hh]. unfold received_encoded_symbol.
  rewrite u16_try_from_ret by lia. cbn [mbind outcome_bind]. rewrite Hrow. cbn [mbind outcome_bind].
  assert (N.of_nat (length (intermediate_symbol_state d)) ≤ 65536)%N as Hss.
  { rewrite (c_length _ _ _ _ _ _ _ _ Hc). pose proof (po_prime_le _ (c_params _ _ _ _ _ _ _ _ Hc)). lia. }
  assert (length row ≤ length (intermediate_symbol_state d)) as Hlen.
  { rewrite (c_length _ _ _ _ _ _ _ _ Hc). apply sorted_length_le; [apply Hok|]. apply (row_range _ _ Hok). }
  rewrite (receive_ids_ok d row); [|intros j Hj; rewrite (c_length _ _ _ _ _ _ _ _ Hc); by apply Hok| |done].
  2: { rewrite (c_length _ _ _ _ _ _ _ _ Hc) in Hlen. pose proof (po_prime_le _ (c_params _ _ _ _ _ _ _ _ Hc)). lia. }
  cbn [mbind outcome_bind].
  destruct (for_each_ok (λ todo s, reducing d s.1 todo ∧ P (rows d ++ [intermediate_symbol_ids s.1]) s.2)
    (reduce_received xor_buffers d (length (buffer_state d))) (omap (used_index (intermediate_symbol_state d)) row)
    (mkBuffer row (live (intermediate_symbol_state d) row) false, x)) as ([b x1] & -> & [Hs Hr Hw Hu _ _ Htd] & HP1).
  { intros u todo [b x1] [Hrd HP1]. cbn [fst snd] in *. destruct (reduce_received_ok d x1 b u todo Hd Ht Hrd HP1) as (b' & x' & -> & ? & ?). by exists (b', x'). }
  { split; [by apply reducing_start|done]. }
  cbn [fst snd mbind outcome_bind] in *.
  destruct (push_symbols_ok (length (buffer_state d)) (intermediate_symbol_ids b) (intermediate_symbol_state d)) as (ss' & -> & Hpu).
  { by apply sorted_nodup. }
  { intros k Hk. destruct (lookup_lt_is_Some_2 _ _ (Hr k Hk)) as [s Hks]. exists s. split; [done|]. destruct s as [| |u]; try done.
    apply (Htd k u Hks) in Hk. by apply elem_of_nil in Hk. }
  cbn [mbind outcome_bind].
  pose proof (core_push _ _ _ _ _ b Hc H16 Hs Hr Hw Hu Hpu) as Hc'.
  assert (N.of_nat (length (intermediate_symbol_ids b)) < 65536)%N as Hlb.
  { eapply (core_ids_length _ _ _ _ _ _ _ _ (length (buffer_state d)) b Hc'). by apply list_lookup_middle. }
  pose proof (live_le (intermediate_symbol_state d) (intermediate_symbol_ids b)) as Hll. rewrite <- Hw in Hll.
  assert (P (intermediate_symbol_ids <$> (buffer_state d ++ [b])) x1) as HP2 by (rewrite fmap_app; done).
  cbn [buffers_active_usable buffers_inactivated num_redundant_buffers]. case_bool_decide as Hpos.
  - rewrite non_zero_ret by lia. cbn [mbind outcome_bind].
    destruct (push_usable _ _ _ _ b Hh ltac:(lia) (active_used_weight b)) as (h & -> & Hh').
    { unfold usable_weight. by rewrite Hu, bool_decide_eq_false_2 by lia. }
    cbn [mbind outcome_bind]. rewrite check_ok by (by split). cbn [mbind outcome_bind]. eexists _, x1. split; [done|]. split; [by split|].
    split; [done|]. split; [done|]. simpl. rewrite length_app. simpl. lia.
  - case_bool_decide as Hne.
    + rewrite non_zero_ret by lia. cbn [mbind outcome_bind].
      destruct (push_inactive _ _ _ _ b Hh ltac:(lia) (length (intermediate_symbol_ids b))) as (h & -> & Hh').
      { unfold inactive_weight. rewrite bool_decide_eq_true_2; [done|]. split; [lia|]. intros E. rewrite E in Hne. simpl in Hne. lia. }
      cbn [mbind outcome_bind]. rewrite check_ok by (by split). cbn [mbind outcome_bind]. eexists _, x1. split; [done|]. split; [by split|].
      split; [done|]. split; [done|]. simpl. rewrite length_app. simpl. lia.
    + assert (intermediate_symbol_ids b = []) as Hnil by (destruct (intermediate_symbol_ids b); [done|simpl in Hne; lia]).
      assert (active_used_weight b = 0) as Hw0 by lia.
      unfold u16_incr. rewrite u16_try_from_ret.
      2: { pose proof (bcount_le (λ i b, redundant b && bool_decide (i ∉ [])) (buffer_state d)) as H. rewrite <- (h_redundant _ _ _ _ _ Hh) in H. lia. }
      cbn [mbind outcome_bind]. pose proof (push_none _ _ _ _ b Hh) as Hh'.
      rewrite check_ok; cbn [mbind outcome_bind].
      2: { split; [done|]. apply Hh'; [unfold usable_weight; by rewrite Hw0, orb_true_r|unfold inactive_weight; rewrite Hnil; by rewrite bool_decide_eq_false_2 by tauto|].
           unfold redundant. by rewrite Hw0, Hnil. }
      eexists _, x1. split; [done|]. split; [|split; [done|]; split; [done|]; simpl; rewrite length_app; simpl; lia].
      split; [done|]. apply Hh'; [unfold usable_weight; by rewrite Hw0, orb_true_r|unfold inactive_weight; rewrite Hnil; by rewrite bool_decide_eq_false_2 by tauto|].
      unfold redundant. by rewrite Hw0, Hnil.
Qed.
End receive.

(** * A new decoder

    It has a buffer for each constraint row of the code, every symbol active. *)

Definition initial_buffer (elements : list (nat * nat)) (r : nat) : Buffer :=
  mkBuffer (row_cols elements r) (length (row_cols elements r)) false.
Definition initial_symbol (elements : list (nat * nat)) (c : nat) : IntermediateSymbol := Active (col_rows elements c).

(** Setting the elements of the matrix one after the other. *)
Lemma set_elements_ok elements m n : StronglySorted element_lt elements → (∀ r c, (r, c) ∈ elements → r < m ∧ c < n) →
  (N.of_nat m < 65536)%N → (N.of_nat n < 65535)%N →
  for_each set_element (replicate m buffer_new, replicate n symbol_new) elements =
    Ret (initial_buffer elements <$> seq 0 m, initial_symbol elements <$> seq 0 n).
Proof.
  intros Hs Hr Hm Hn.
  destruct (for_each_ok (λ l s, ∃ pre, elements = pre ++ l ∧ s = (initial_buffer pre <$> seq 0 m, initial_symbol pre <$> seq 0 n))
    set_element elements (replicate m buffer_new, replicate n symbol_new)) as (s & -> & pre & Hpre & ->).
  - intros [r c] l s (pre & Hpre & ->). cbn [set_element]. destruct (Hr r c) as [Hrm Hcn]; [rewrite Hpre; set_solver|].
    assert (length (row_cols pre r) ≤ n) as Hlen.
    { rewrite Hpre in Hs. apply StronglySorted_app_1_l in Hs. apply sorted_length_le; [by apply row_cols_sorted|].
      intros j Hj%elem_of_row_cols. apply (Hr r j). rewrite Hpre. set_solver. }
    rewrite (vec_get_ret _ r (initial_buffer pre r)) by (by apply lookup_fmap_seq). cbn [mbind outcome_bind].
    unfold append_active_intermediate_symbol_id. rewrite append_id_ok by (simpl; lia). cbn [mbind outcome_bind].
    rewrite vec_set_ret by (by rewrite length_fmap, length_seq). cbn [mbind outcome_bind].
    rewrite (vec_get_ret _ c (initial_symbol pre c)) by (by apply lookup_fmap_seq). cbn [mbind outcome_bind active_push initial_symbol].
    rewrite u16_try_from_ret by lia. cbn [mbind outcome_bind]. rewrite vec_set_ret by (by rewrite length_fmap, length_seq). cbn [mbind outcome_bind].
    eexists. split; [done|]. exists (pre ++ [(r, c)]). split; [by rewrite <- app_assoc|]. f_equal.
    + rewrite <- (fmap_seq_insert (initial_buffer pre) (initial_buffer (pre ++ [(r, c)])) m r Hrm).
      * assert (initial_buffer (pre ++ [(r, c)]) r = mkBuffer (row_cols pre r ++ [c]) (length (row_cols pre r) + 1) false) as ->; [|done].
        unfold initial_buffer. by rewrite row_cols_snoc, decide_True, length_app.
      * intros k Hk. unfold initial_buffer. by rewrite row_cols_snoc, decide_False.
    + rewrite <- (fmap_seq_insert (initial_symbol pre) (initial_symbol (pre ++ [(r, c)])) n c Hcn).
      * assert (initial_symbol (pre ++ [(r, c)]) c = Active (col_rows pre c ++ [r])) as ->; [|done].
        unfold initial_symbol. by rewrite col_rows_snoc, decide_True.
      * intros k Hk. unfold initial_symbol. by rewrite col_rows_snoc, decide_False.
  - exists []. split; [done|]. f_equal.
    + change (initial_buffer []) with (λ _ : nat, buffer_new). by rewrite const_fmap_seq.
    + change (initial_symbol []) with (λ _ : nat, symbol_new). by rewrite const_fmap_seq.
  - rewrite app_nil_r in Hpre. by subst.
Qed.

Lemma initial_live elements n ids : live (initial_symbol elements <$> seq 0 n) ids = length ids.
Proof.
  unfold live. f_equal. apply list_filter_all. intros j _. unfold is_inact. destruct (_ !! j) as [s|] eqn:E; [|done].
  apply lookup_fmap_seq in E as [_ ->]. done.
Qed.

Lemma bcount_zero f l : (∀ i b, l !! i = Some b → f i b = false) → bcount f l = 0.
Proof.
  intros H. rewrite (bcount_ext f (λ _ _, false)) by done. clear H. induction l as [|b l IH] using rev_ind; [done|].
  by rewrite bcount_app, bcount_singleton, IH.
Qed.

(** All the buffers go in the heap of the usable ones. *)
Lemma initial_heap_ok bs : (N.of_nat (length bs) < 65536)%N → (∀ b, b ∈ bs → used b = false ∧ active_used_weight b ≠ 0 ∧ (N.of_nat (active_used_weight b) < 65536)%N) →
  ∃ h, for_each (λ h i, b ← vec_get bs i; w ← non_zero (active_used_weight b); insert_buffer_weight h i w) weight_map_new (seq 0 (length bs)) = Ret h ∧
    heaps bs h weight_map_new 0 [].
Proof.
  intros H16 Hb.
  destruct (for_each_ok (λ l h, ∃ n, l = seq n (length bs - n) ∧ n ≤ length bs ∧ heaps (take n bs) h weight_map_new 0 [])
    (λ h i, b ← vec_get bs i; w ← non_zero (active_used_weight b); insert_buffer_weight h i w) (seq 0 (length bs)) weight_map_new)
    as (h & -> & n & Hn & Hle & Hh).
  - intros i l h (n & Hl & Hle & Hh). destruct (decide (n = length bs)) as [->|Hne]; [by rewrite Nat.sub_diag in Hl|].
    replace (length bs - n) with (S (length bs - S n)) in Hl by lia. injection Hl as -> ->.
    destruct (lookup_lt_is_Some_2 bs n) as [b Hbn]; [lia|]. destruct (Hb b) as (Hu & Hw & Hw16); [by eapply list_elem_of_lookup_2|].
    rewrite (vec_get_ret _ _ _ Hbn). cbn [mbind outcome_bind]. rewrite non_zero_ret by lia. cbn [mbind outcome_bind].
    destruct (push_usable _ _ _ _ b Hh) with (w := active_used_weight b) as (h' & Hins & Hh').
    { rewrite length_take. lia. }
    { unfold usable_weight. by rewrite Hu, bool_decide_eq_false_2. }
    rewrite length_take, Nat.min_l in Hins by lia. rewrite Hins. exists h'. split; [done|]. exists (S n). split; [done|]. split; [lia|].
    by rewrite (take_S_r _ _ b).
  - exists 0. split; [by rewrite Nat.sub_0_r|]. split; [lia|]. split; [|exists ∅; split; [apply weight_map_new_ok|]|done|set_solver].
    + exists ∅. split; [apply weight_map_new_ok|]. done.
    + intros i. rewrite decide_False by set_solver. done.
  - assert (n = length bs) as -> by (destruct (length bs - n) eqn:E; [lia|done]). rewrite take_ge in Hh by lia. by exists h.
Qed.

Lemma core_initial p elements : params_ok p → StronglySorted element_lt elements →
  (∀ r c, (r, c) ∈ elements → r < num_ldpc_symbols p + num_half_symbols p ∧ c < num_intermediate_symbols p) →
  core p (initial_buffer elements <$> seq 0 (num_ldpc_symbols p + num_half_symbols p)) (initial_symbol elements <$> seq 0 (num_intermediate_symbols p))
    0 no_extra [] [] [].
Proof.
  intros Hp Hs Hr. pose proof (po_ldpc p Hp) as [_ ?]. pose proof (po_half p Hp). split; rewrite ?length_fmap, ?length_seq; try done.
  - lia.
  - intros i b [Hi ->]%lookup_fmap_seq. split; [by apply row_cols_sorted|]. intros j Hj%elem_of_row_cols. by apply (Hr i j).
  - intros j s [Hj ->]%lookup_fmap_seq. split; [by apply col_rows_sorted|]. intros i Hi%elem_of_col_rows. by apply (Hr i j).
  - intros i b j s [Hi ->]%lookup_fmap_seq [Hj ->]%lookup_fmap_seq. simpl. rewrite elem_of_row_cols, elem_of_col_rows. unfold no_extra. tauto.
  - intros i b [Hi ->]%lookup_fmap_seq. by rewrite initial_live.
  - by intros i b [Hi ->]%lookup_fmap_seq.
  - by intros i j [Hi ?]%lookup_fmap_seq.
  - symmetry. apply bcount_zero. by intros i b [Hi ->]%lookup_fmap_seq.
Qed.

Lemma with_capacity_ok k : in_source_range k = true → ∃ p elements d, code_parameters_new k = Ret (Ok p) ∧ a_common p = Ret elements ∧
  with_capacity k = Ret (Ok d) ∧ dinv d ∧ params d = p ∧ params_ok p ∧ num_source_symbols p = k ∧ rows d = constraint_rows p elements.
Proof.
  intros Hk. destruct (code_parameters_new_ok k Hk) as (p & Hnew & Hp & Hkp). destruct (a_common_ok p Hp) as (elements & Ha & Hs & Hr & Hdiag).
  pose proof (po_ldpc p Hp) as [_ ?]. pose proof (po_half p Hp). pose proof (po_prime_le p Hp).
  destruct (initial_heap_ok (initial_buffer elements <$> seq 0 (num_ldpc_symbols p + num_half_symbols p))) as (h & Hh & Hheaps).
  { rewrite length_fmap, length_seq. lia. }
  { intros b (r & -> & Hin%elem_of_seq)%list_elem_of_fmap. split; [done|]. simpl. split; cycle 1.
    { assert (length (row_cols elements r) ≤ num_intermediate_symbols p); [|lia]. apply sorted_length_le; [by apply row_cols_sorted|].
      intros j Hj%elem_of_row_cols. by apply (Hr r j). }
    intros E%length_zero_iff_nil.
    assert (num_source_symbols p + r ∈ row_cols elements r) as Hin' by (apply elem_of_row_cols, Hdiag; lia). rewrite E in Hin'. by apply elem_of_nil in Hin'. }
  exists p, elements. eexists. split; [done|]. split; [done|]. unfold with_capacity. rewrite Hk. cbn [negb]. rewrite Hnew. cbn [try_bind mbind outcome_bind].
  rewrite Ha. cbn [mbind outcome_bind]. rewrite (set_elements_ok elements) by (done || lia). cbn [mbind outcome_bind]. rewrite Hh. cbn [mbind outcome_bind].
  assert (dinv (mkDecoder p (initial_buffer elements <$> seq 0 (num_ldpc_symbols p + num_half_symbols p))
    (initial_symbol elements <$> seq 0 (num_intermediate_symbols p)) h weight_map_new 0 0)) as Hd by (split; [by apply core_initial|done]).
  rewrite (check_ok _ Hd). cbn [mbind outcome_bind]. split; [done|]. do 4 (split; [done|]). unfold rows, constraint_rows. simpl.
  by rewrite <- list_fmap_compose.
Qed.
