(* ===== verification/RaptorEncoder.v ===== *)
(** * The encoder of the Raptor code (monad-raptor/src/r10/nonsystematic/encoder.rs, xor_eq.rs)

    Bytes are numbers. The parallel iteration over rows, which the source uses
    for many symbols, gives what the sequential one does. *)
From S2P Require Import Prelude RaptorSets RaptorCode RaptorRows.
#[local] Open Scope nat_scope.
#[local] Arguments Nat.div : simpl never.
#[local] Arguments Nat.modulo : simpl never.

(** ** xor_eq.rs *)

Definition MAX_SOURCES : nat := 6.

(** [xor_eq1] to [xor_eq6]: all sources have the length of the destination,
    and every byte takes the exclusive or of theirs. *)
Definition xor_eq (dst : list N) (src : list (list N)) : outcome (list N) :=
  match src with
  | [] => Panic
  | a :: rest =>
      if bool_decide (length src ≤ MAX_SOURCES) then
        _ ← rust_assert (forallb (λ s, bool_decide (length dst = length s)) src);
        Ret (zip_with N.lxor dst (foldl (zip_with N.lxor) a rest))
      else Panic
  end.

(** [slice::chunks]. *)
Fixpoint chunks_fuel {A} (fuel : nat) (n : nat) (l : list A) : list (list A) :=
  match fuel, l with
  | S fuel, _ :: _ => take n l :: chunks_fuel fuel n (drop n l)
  | _, _ => []
  end.
Definition chunks {A} (n : nat) (l : list A) : list (list A) := chunks_fuel (length l) n l.

Definition xor_chunks (dst : list N) (sources : list (list N)) : outcome (list N) :=
  for_each xor_eq dst (chunks MAX_SOURCES sources).

(** ** encoder.rs *)

Record Encoder := mkEncoder {
  e_src : list N;
  e_symbol_len : nat;
  e_params : CodeParameters;
  e_num_full_source_symbols : nat;
  e_derived_symbols : list (list N);
}.

Definition slice {A} (l : list A) (from to : nat) : outcome (list A) :=
  if bool_decide (from ≤ to ∧ to ≤ length l) then Ret (take (to - from) (drop from l)) else Panic.

(** [as u16]. *)
Definition as_u16 (j : nat) : nat := N.to_nat (N.of_nat j `mod` 65536).

(** [v[i].push(j)]. *)
Definition row_push (rows : list (list nat)) (i j : nat) : outcome (list (list nat)) :=
  row ← vec_get rows i; vec_set rows i (row ++ [as_u16 j]).

(** The padded last symbol, and symbols of zeros up to the least number. *)
Definition shadow_symbols (src : list N) (symbol_len : nat) : list (list N) :=
  let num_full_source_symbols := length src / symbol_len in
  let last_source_symbol_len := length src `mod` symbol_len in
  let shadowed := if bool_decide (last_source_symbol_len = 0) then []
                  else [drop (num_full_source_symbols * symbol_len) src ++ replicate (symbol_len - last_source_symbol_len) 0%N] in
  shadowed ++ replicate (SOURCE_SYMBOLS_MIN - (num_full_source_symbols + length shadowed)) (replicate symbol_len 0%N).

(** The symbol of an index, from the source or from symbols kept apart. *)
Definition symbol_at (src : list N) (symbol_len num_full_source_symbols : nat) (derived : list (list N)) (index : nat) : outcome (list N) :=
  if bool_decide (index < num_full_source_symbols) then slice src (index * symbol_len) ((index + 1) * symbol_len)
  else vec_get derived (index - num_full_source_symbols).

Definition make_redundant_symbol (src : list N) (symbol_len num_full_source_symbols : nat) (shadowed : list (list N)) (source_set : list nat) :
    outcome (list N) :=
  sources ← mapM (symbol_at src symbol_len num_full_source_symbols shadowed) source_set;
  xor_chunks (replicate symbol_len 0%N) sources.

(** The rows for source symbols, and those of half symbols for LDPC symbols. *)
Definition redundant_rows (params : CodeParameters) : outcome (list (list nat) * list (list nat)) :=
  g_ldpc_half ← for_each (λ rows e, row_push rows e.1 e.2)
    (replicate (num_ldpc_symbols params + num_half_symbols params) []) (g_ldpc params);
  half ← g_half params;
  for_each (λ rows e,
      if bool_decide (e.2 < num_source_symbols params)
      then left ← row_push rows.1 (num_ldpc_symbols params + e.1) e.2; Ret (left, rows.2)
      else right ← row_push rows.2 e.1 (e.2 - num_source_symbols params); Ret (rows.1, right))
    (g_ldpc_half, replicate (num_half_symbols params) []) half.

(** The multiplication by [g_half_right]. *)
Definition add_ldpc_symbols (ldpc_symbols : list (list N)) (g_half_right : list (list nat)) (half_symbols : list (list N)) (i : nat) :
    outcome (list (list N)) :=
  row ← vec_get g_half_right i;
  sources ← mapM (vec_get ldpc_symbols) row;
  symbol ← vec_get half_symbols i;
  symbol ← xor_chunks symbol sources;
  vec_set half_symbols i symbol.

Definition encoder_new (src : list N) (symbol_len : nat) : outcome (result CodeError Encoder) :=
  if bool_decide (symbol_len = 0) then Ret (Err SymbolLenZero) else
  let num_full_source_symbols := length src / symbol_len in
  let shadowed_source_symbols := shadow_symbols src symbol_len in
  let num_source_symbols := num_full_source_symbols + length shadowed_source_symbols in
  if negb (in_source_range num_source_symbols) then Ret (Err SymbolsOutOfRange) else
  params ←? code_parameters_new num_source_symbols;
  '(g_ldpc_half, g_half_right) ← redundant_rows params;
  ldpc_half_symbols ← mapM (make_redundant_symbol src symbol_len num_full_source_symbols shadowed_source_symbols) g_ldpc_half;
  let ldpc_symbols := take (num_ldpc_symbols params) ldpc_half_symbols in
  let half_symbols := drop (num_ldpc_symbols params) ldpc_half_symbols in
  half_symbols ← for_each (add_ldpc_symbols ldpc_symbols g_half_right) half_symbols (seq 0 (num_half_symbols params));
  Ret (Ok (mkEncoder src symbol_len params num_full_source_symbols (shadowed_source_symbols ++ ldpc_symbols ++ half_symbols))).

Definition encoder_num_source_symbols (e : Encoder) : nat := num_source_symbols (e_params e).

Definition encoder_buffer (e : Encoder) (index : nat) : outcome (list N) :=
  symbol_at (e_src e) (e_symbol_len e) (e_num_full_source_symbols e) (e_derived_symbols e) index.

(** [dst] is filled with zeros on entry. *)
Definition encode_symbol (e : Encoder) (dst : list N) (encoding_symbol_id : N) : outcome (list N) :=
  _ ← rust_assert (bool_decide (length dst = e_symbol_len e));
  indices ← lt_sequence_op (e_params e) encoding_symbol_id;
  sources ← mapM (encoder_buffer e) indices;
  xor_chunks dst sources.

(** * What the encoder makes

    The intermediate symbols it keeps begin with the padded source and satisfy
    the constraints of the code; an encoded symbol is the sum of those that its
    identifier selects. *)

(** ** Symbols of [n] bytes *)

Lemma zip_lxor_assoc (a b c : list N) : zip_with N.lxor a (zip_with N.lxor b c) = zip_with N.lxor (zip_with N.lxor a b) c.
Proof. revert b c. induction a as [|x a IH]; intros [|y b] [|z c]; simpl; try done. by rewrite N.lxor_assoc, IH. Qed.
Lemma zip_lxor_comm (a b : list N) : zip_with N.lxor a b = zip_with N.lxor b a.
Proof. revert b. induction a as [|x a IH]; intros [|y b]; simpl; try done. by rewrite N.lxor_comm, IH. Qed.

Lemma zip_lxor_zero n (a : list N) : length a = n → zip_with N.lxor (replicate n 0%N) a = a.
Proof. intros <-. induction a as [|x a IH]; simpl; [done|]. by rewrite IH. Qed.
Lemma zip_lxor_self n (a : list N) : length a = n → zip_with N.lxor a a = replicate n 0%N.
Proof. intros <-. induction a as [|x a IH]; simpl; [done|]. by rewrite N.lxor_nilpotent, IH. Qed.

Definition symbol_xor (n : nat) : XorOp (list N).
Proof.
  refine {| xop := zip_with N.lxor; xzero := replicate n 0%N; xwf := λ s, length s = n |}.
  - apply zip_lxor_assoc.
  - apply zip_lxor_comm.
  - apply zip_lxor_zero.
  - apply zip_lxor_self.
  - intros a b Ha Hb. rewrite length_zip_with. lia.
  - apply length_replicate.
Defined.

(** ** Exclusive or in chunks *)

Lemma chunks_fuel_ok {A} fuel n (l : list A) : 0 < n → length l ≤ fuel →
  concat (chunks_fuel fuel n l) = l ∧ Forall (λ c, 0 < length c ≤ n) (chunks_fuel fuel n l).
Proof.
  intros Hn. revert l. induction fuel as [|fuel IH]; intros [|x l] Hf; simpl in Hf; try done; [lia|]. cbn [chunks_fuel concat].
  destruct (IH (drop n (x :: l))) as [Hc Hl]; [rewrite length_drop; simpl; lia|]. rewrite Hc, take_drop. split; [done|].
  constructor; [rewrite length_take; simpl; lia|done].
Qed.

Section xor.
Context (n : nat).
#[local] Existing Instance symbol_xor.

(** The sum of a list of symbols. *)
Definition xlist (l : list (list N)) : list N := foldr (@xop _ (symbol_xor n)) (@xzero _ (symbol_xor n)) l.

Lemma xlist_app l k : Forall (λ s, length s = n) k → xlist (l ++ k) = zip_with N.lxor (xlist l) (xlist k).
Proof.
  intros Hk. induction l as [|s l IH]; simpl; [|by rewrite IH, zip_lxor_assoc].
  symmetry. apply zip_lxor_zero. simpl. induction Hk as [|s k Hs _ IH]; simpl; [by rewrite length_replicate|].
  rewrite length_zip_with. lia.
Qed.
Lemma xlist_length l : Forall (λ s, length s = n) l → length (xlist l) = n.
Proof. induction 1 as [|s l Hs _ IH]; simpl; [by rewrite length_replicate|]. rewrite length_zip_with. lia. Qed.
Lemma xlist_fmap (x : nat → list N) l : xlist (x <$> l) = @xsum _ (symbol_xor n) x l.
Proof. induction l as [|j l IH]; [done|]. simpl. by f_equal. Qed.

Lemma xor_eq_ok dst src : length dst = n → 0 < length src ≤ MAX_SOURCES → Forall (λ s, length s = n) src →
  xor_eq dst src = Ret (zip_with N.lxor dst (xlist src)).
Proof.
  intros Hd Hl Hs. unfold xor_eq. destruct src as [|a src]; [simpl in Hl; lia|]. rewrite bool_decide_eq_true_2 by lia.
  assert (forallb (λ s, bool_decide (length dst = length s)) (a :: src) = true) as ->.
  { apply forallb_forall. intros s Hin%list_elem_of_In. rewrite Forall_forall in Hs. apply bool_decide_eq_true_2. by rewrite (Hs s Hin). }
  cbn [rust_assert mbind outcome_bind]. do 2 f_equal. apply Forall_cons in Hs as [Ha Hs]. clear Hl. revert a Ha.
  induction Hs as [|s src Hs _ IH]; intros a Ha; simpl.
  - rewrite zip_lxor_comm. symmetry. by apply zip_lxor_zero.
  - rewrite IH by (rewrite length_zip_with; lia). simpl. by rewrite zip_lxor_assoc.
Qed.

Lemma xor_chunks_ok dst sources : length dst = n → Forall (λ s, length s = n) sources →
  xor_chunks dst sources = Ret (zip_with N.lxor dst (xlist sources)).
Proof.
  intros Hd Hs. unfold xor_chunks, chunks. destruct (chunks_fuel_ok (length sources) MAX_SOURCES sources) as [Hc Hl]; [unfold MAX_SOURCES; lia|done|].
  revert Hs Hc Hl. generalize (chunks_fuel (length sources) MAX_SOURCES sources). intros cs Hs <- Hl. revert dst Hd. induction Hl as [|c l Hl _ IH]; intros dst Hd; simpl in *.
  - f_equal. rewrite zip_lxor_comm. symmetry. by apply zip_lxor_zero.
  - apply Forall_app in Hs as [Hs1 Hs2]. rewrite (xor_eq_ok dst c) by done. cbn [mbind outcome_bind].
    rewrite IH; [|done|rewrite length_zip_with, xlist_length by done; lia]. by rewrite xlist_app, zip_lxor_assoc.
Qed.
End xor.

(** ** The source symbols *)

(** The source cut in symbols of [len] bytes, the last one padded. *)
Definition source_symbol (src : list N) (len j : nat) : list N := take len (drop (j * len) src ++ replicate len 0%N).

Lemma source_symbol_length src len j : length (source_symbol src len j) = len.
Proof. unfold source_symbol. rewrite length_take, length_app, length_replicate. lia. Qed.

Definition source_count (src : list N) (len : nat) : nat := length src / len + length (shadow_symbols src len).

Lemma symbol_at_source src len rest j : 0 < len → j < source_count src len →
  symbol_at src len (length src / len) (shadow_symbols src len ++ rest) j = Ret (source_symbol src len j).
Proof.
  intros Hlen Hj. pose proof (Nat.div_mod (length src) len ltac:(lia)) as Hdm. pose proof (Nat.mod_upper_bound (length src) len ltac:(lia)) as Hub.
  unfold symbol_at, source_symbol. case_bool_decide as Hfull.
  - unfold slice. assert ((j + 1) * len ≤ length src) by nia. rewrite bool_decide_eq_true_2 by nia.
    rewrite take_app_le by (rewrite length_drop; nia). do 2 f_equal. nia.
  - unfold source_count in Hj. unfold vec_get. rewrite lookup_app_l by lia. unfold shadow_symbols. unfold shadow_symbols in Hj.
    rewrite length_app, length_replicate in Hj. case_bool_decide as Hmod; simpl in *.
    + rewrite lookup_replicate_2 by lia. f_equal. rewrite (drop_ge src) by nia. simpl. by rewrite take_ge by (rewrite length_replicate; lia).
    + destruct (decide (j = length src / len)) as [->|Hne].
      * rewrite Nat.sub_diag. simpl. f_equal. rewrite take_app, length_drop, take_ge by (rewrite length_drop; nia).
        f_equal. rewrite take_replicate. f_equal. nia.
      * unfold SOURCE_SYMBOLS_MIN in Hj. lia.
Qed.

Lemma source_count_le src len : 0 < len → length src ≤ source_count src len * len.
Proof.
  intros Hlen. pose proof (Nat.div_mod (length src) len ltac:(lia)) as Hdm. pose proof (Nat.mod_upper_bound (length src) len ltac:(lia)) as Hub.
  unfold source_count, shadow_symbols. rewrite length_app. case_bool_decide; simpl; nia.
Qed.

(** Together they are the source, followed by zeros. *)
Lemma concat_source_symbols src len k : concat (source_symbol src len <$> seq 0 k) = take (k * len) (src ++ replicate (k * len) 0%N).
Proof.
  induction k as [|k IH]; [done|]. rewrite seq_S, fmap_app, concat_app, IH. cbn [fmap list_fmap concat plus]. rewrite app_nil_r.
  apply list_eq. intros i. unfold source_symbol. destruct (decide (i < k * len)) as [Hi|Hi].
  - rewrite lookup_app_l by (rewrite length_take, length_app, length_replicate; lia). rewrite !lookup_take_lt by nia.
    destruct (decide (i < length src)); [by rewrite !lookup_app_l|]. rewrite !lookup_app_r by lia. by rewrite !lookup_replicate_2 by nia.
  - rewrite lookup_app_r by (rewrite length_take, length_app, length_replicate; lia). rewrite length_take, length_app, length_replicate, Nat.min_l by lia.
    destruct (decide (i < S k * len)).
    + rewrite !lookup_take_lt by nia. destruct (decide (i < length src)).
      * rewrite !lookup_app_l by (rewrite ?length_drop; lia). rewrite lookup_drop. f_equal. lia.
      * rewrite !lookup_app_r by (rewrite ?length_drop; lia). rewrite length_drop. by rewrite !lookup_replicate_2 by nia.
    + by rewrite !lookup_take_ge by nia.
Qed.

(** ** The rows of the generator *)

Lemma row_cols_app l k r : row_cols (l ++ k) r = row_cols l r ++ row_cols k r.
Proof. unfold row_cols. by rewrite filter_app, fmap_app. Qed.
Lemma row_cols_none l r : (∀ c, (r, c) ∉ l) → row_cols l r = [].
Proof.
  intros H. unfold row_cols. rewrite list_filter_none; [done|]. intros [r' c] Hin E. simpl in E. subst. by apply (H c).
Qed.
Lemma row_cols_shift a l r : row_cols ((λ e, (a + e.1, e.2)) <$> l) (a + r) = row_cols l r.
Proof.
  induction l as [|[r' c] l IH]; [done|]. unfold row_cols in *. cbn [fmap list_fmap fst snd]. rewrite !filter_cons. cbn [fst].
  destruct (decide (a + r' = a + r)), (decide (r' = r)); try lia; [|done]. cbn [fmap list_fmap snd]. f_equal. apply IH.
Qed.
Lemma row_cols_diagonal a b n i : i < n → row_cols ((λ i, (a + i, b + i)) <$> seq 0 n) (a + i) = [b + i].
Proof.
  induction n as [|n IH]; intros Hi; [lia|]. rewrite seq_S, fmap_app, row_cols_app. cbn [fmap list_fmap plus]. unfold row_cols at 2. rewrite filter_cons.
  cbn [fst]. destruct (decide (i = n)) as [->|Hne].
  - rewrite decide_True by done. rewrite row_cols_none; [done|]. intros c (k & [= ? ?] & ?%elem_of_seq)%list_elem_of_fmap. lia.
  - rewrite decide_False by lia. rewrite IH by lia. done.
Qed.
Lemma row_cols_filter P `{∀ j : nat, Decision (P j)} l r : row_cols (filter (λ e, P e.2) l) r = filter P (row_cols l r).
Proof.
  induction l as [|[r' c] l IH]; [done|]. unfold row_cols in *. rewrite !(filter_cons _ (r', c)). cbn [fst snd].
  destruct (decide (P c)) as [HP|HP]; rewrite ?filter_cons; cbn [fst snd]; destruct (decide (r' = r)); cbn [fmap list_fmap snd]; rewrite ?filter_cons; cbn [snd].
  - rewrite decide_True by done. by f_equal.
  - done.
  - by rewrite decide_False.
  - done.
Qed.
Lemma row_cols_map (f : nat → nat) l r : row_cols ((λ e, (e.1, f e.2)) <$> l) r = f <$> row_cols l r.
Proof.
  induction l as [|[r' c] l IH]; [done|]. unfold row_cols in *. cbn [fmap list_fmap fst snd]. rewrite !filter_cons. cbn [fst].
  destruct (decide (r' = r)); [|done]. cbn [fmap list_fmap snd]. by f_equal.
Qed.

Section rows.
Context (p : CodeParameters) (Hp : params_ok p).
#[local] Notation K := (num_source_symbols p).
#[local] Notation S' := (num_ldpc_symbols p).
#[local] Notation H' := (num_half_symbols p).

(** The constraint rows are those of the generator, with the identity. *)
Lemma a_common_rows elements half : a_common p = Ret elements → g_half p = Ret half →
  (∀ r, r < S' → row_cols elements r = row_cols (g_ldpc p) r ++ [K + r]) ∧
  (∀ i, i < H' → row_cols elements (S' + i) = row_cols half i ++ [K + S' + i]).
Proof.
  unfold a_common. intros Ha Hh. rewrite Hh in Ha. injection Ha as <-. destruct (g_ldpc_sorted p Hp) as [_ Hin]. split; intros r Hr; rewrite !row_cols_app.
  - pose proof (row_cols_diagonal 0 K S' r Hr) as E. cbn [plus] in E. rewrite E. rewrite (row_cols_none (_ <$> half)), (row_cols_none (_ <$> seq 0 H')), !app_nil_r; [done|..].
    + intros c (k & [= ? ?] & ?%elem_of_seq)%list_elem_of_fmap. lia.
    + intros c (e & [= ? ?] & _)%list_elem_of_fmap. lia.
  - rewrite row_cols_shift, row_cols_diagonal by done. rewrite (row_cols_none (g_ldpc p)), (row_cols_none (_ <$> seq 0 S')); [done|..].
    + intros c (k & [= ? ?] & ?%elem_of_seq)%list_elem_of_fmap. lia.
    + intros c [? ?]%Hin. lia.
Qed.

Lemma row_push_ok pre n r c : r < n → (N.of_nat c < 65536)%N →
  row_push (row_cols pre <$> seq 0 n) r c = Ret (row_cols (pre ++ [(r, c)]) <$> seq 0 n).
Proof.
  intros Hr Hc. unfold row_push. rewrite (vec_get_ret _ r (row_cols pre r)) by (by apply lookup_fmap_seq). cbn [mbind outcome_bind].
  rewrite vec_set_ret by (by rewrite length_fmap, length_seq). f_equal. rewrite <- (fmap_seq_insert (row_cols pre) (row_cols (pre ++ [(r, c)])) n r Hr).
  - rewrite row_cols_snoc, decide_True by done. do 3 f_equal. unfold as_u16. rewrite N.mod_small by done. lia.
  - intros k Hk. by rewrite row_cols_snoc, decide_False.
Qed.

Lemma push_rows_ok elements pre n : (∀ r c, (r, c) ∈ elements → r < n ∧ (N.of_nat c < 65536)%N) →
  for_each (λ rows e, row_push rows e.1 e.2) (row_cols pre <$> seq 0 n) elements = Ret (row_cols (pre ++ elements) <$> seq 0 n).
Proof.
  revert pre. induction elements as [|[r c] elements IH]; intros pre Hr; cbn [for_each].
  - by rewrite app_nil_r.
  - destruct (Hr r c) as [Hn Hc]; [left|]. cbn [fst snd]. rewrite row_push_ok by done. cbn [mbind outcome_bind].
    rewrite IH by (intros r' c' H; apply Hr; by right). by rewrite <- app_assoc.
Qed.

Definition left_rows (half : list (nat * nat)) : list (nat * nat) := g_ldpc p ++ ((λ e, (S' + e.1, e.2)) <$> filter (λ e, e.2 < K) half).
Definition right_rows (half : list (nat * nat)) : list (nat * nat) := (λ e, (e.1, e.2 - K)) <$> filter (λ e, ¬ e.2 < K) half.

Lemma redundant_rows_ok half : g_half p = Ret half →
  redundant_rows p = Ret (row_cols (left_rows half) <$> seq 0 (S' + H'), row_cols (right_rows half) <$> seq 0 H').
Proof.
  intros Hh. unfold redundant_rows. destruct (g_ldpc_sorted p Hp) as [_ Hin]. pose proof (po_source p Hp). pose proof (po_ldpc p Hp).
  destruct (g_half_ok p Hp) as (half' & Hh' & _ & Hinh). assert (half' = half) as -> by congruence.
  replace (replicate (S' + H') []) with (row_cols [] <$> seq 0 (S' + H')) by apply (const_fmap_seq []).
  rewrite push_rows_ok by (intros r c [? ?]%Hin; lia). cbn [mbind outcome_bind app]. rewrite Hh. cbn [mbind outcome_bind].
  replace (replicate H' []) with (row_cols [] <$> seq 0 H') by apply (const_fmap_seq []).
  match goal with |- for_each ?f ?s0 half = _ => destruct (for_each_ok (λ l s, ∃ pre, half = pre ++ l ∧
    s = (row_cols (left_rows pre) <$> seq 0 (S' + H'), row_cols (right_rows pre) <$> seq 0 H')) f half s0) as (s' & -> & pre & Hpre & ->) end.
  - intros [r c] l s (pre & Hpre & ->). cbn [fst snd]. destruct (Hinh r c) as [Hr Hc]; [rewrite Hpre; set_solver|]. case_bool_decide as HK.
    + rewrite row_push_ok by lia. cbn [mbind outcome_bind]. eexists. split; [done|]. exists (pre ++ [(r, c)]). split; [by rewrite <- app_assoc|].
      unfold left_rows, right_rows. rewrite !filter_app, !filter_cons. cbn [snd]. rewrite (decide_True (P := c < K)) by done. rewrite decide_False by tauto.
      rewrite filter_nil, !fmap_app, app_assoc. simpl. by rewrite app_nil_r.
    + rewrite row_push_ok by lia. cbn [mbind outcome_bind]. eexists. split; [done|]. exists (pre ++ [(r, c)]). split; [by rewrite <- app_assoc|].
      unfold left_rows, right_rows. rewrite !filter_app, !filter_cons. cbn [snd]. rewrite (decide_False (P := c < K)) by done. rewrite decide_True by tauto.
      rewrite filter_nil, !fmap_app. simpl. by rewrite app_nil_r.
  - exists []. split; [done|]. unfold left_rows, right_rows. simpl. by rewrite app_nil_r.
  - rewrite app_nil_r in Hpre. by subst.
Qed.

Lemma left_rows_ldpc half r : r < S' → row_cols (left_rows half) r = row_cols (g_ldpc p) r.
Proof.
  intros Hr. unfold left_rows. rewrite row_cols_app, (row_cols_none (_ <$> _)), app_nil_r; [done|].
  intros c (e & [= ? ?] & _)%list_elem_of_fmap. lia.
Qed.
Lemma left_rows_half half i : row_cols (left_rows half) (S' + i) = filter (λ j, j < K) (row_cols half i).
Proof.
  unfold left_rows. rewrite row_cols_app, (row_cols_none (g_ldpc p)); [|intros c [? ?]%(proj2 (g_ldpc_sorted p Hp)); lia].
  rewrite row_cols_shift. cbn [app]. exact (row_cols_filter (λ j, j < K) half i).
Qed.
Lemma right_rows_half half i : row_cols (right_rows half) i = (λ j, j - K) <$> filter (λ j, ¬ j < K) (row_cols half i).
Proof. unfold right_rows. rewrite (row_cols_map (λ j, j - K)). f_equal. exact (row_cols_filter (λ j, ¬ j < K) half i). Qed.
End rows.

(** ** The intermediate symbols *)

Section encoder.
Context (p : CodeParameters) (half : list (nat * nat)) (src : list N) (len : nat).
#[local] Notation K := (num_source_symbols p).
#[local] Notation S' := (num_ldpc_symbols p).
#[local] Notation H' := (num_half_symbols p).
#[local] Notation xsum := (@RaptorSets.xsum (list N) (symbol_xor len)).

(** The part of a redundant symbol that comes from the source. *)
Definition source_part (r : nat) : list N := xsum (source_symbol src len) (row_cols (left_rows p half) r).
Definition half_part (i : nat) : list N := zip_with N.lxor (source_part (S' + i)) (xsum source_part (row_cols (right_rows p half) i)).

Definition intermediate (j : nat) : list N :=
  if decide (j < K) then source_symbol src len j else
  if decide (j < K + S') then source_part (j - K) else half_part (j - K - S').

Lemma source_part_length r : length (source_part r) = len.
Proof. apply (xsum_wf (XorOp0 := symbol_xor len)). intros j _. apply source_symbol_length. Qed.
Lemma half_part_length i : length (half_part i) = len.
Proof.
  unfold half_part. rewrite length_zip_with, source_part_length. assert (length (xsum source_part (row_cols (right_rows p half) i)) = len); [|lia].
  apply (xsum_wf (XorOp0 := symbol_xor len)). intros j _. apply source_part_length.
Qed.
Lemma intermediate_length j : length (intermediate j) = len.
Proof. unfold intermediate. repeat case_decide; [apply source_symbol_length|apply source_part_length|apply half_part_length]. Qed.

Context (Hp : params_ok p) (Hhalf : g_half p = Ret half).

Lemma half_range i j : j ∈ row_cols half i → j < K + S'.
Proof.
  intros Hj%elem_of_row_cols. destruct (g_half_ok p Hp) as (half' & Hh' & _ & Hin). assert (half' = half) as -> by congruence. by apply (Hin i).
Qed.

Lemma intermediate_ldpc_row r : r < S' → xsum intermediate (row_cols (g_ldpc p) r) = source_part r.
Proof.
  intros Hr. unfold source_part. rewrite left_rows_ldpc by done. apply xsum_ext. intros j Hj%elem_of_row_cols.
  apply (proj2 (g_ldpc_sorted p Hp)) in Hj as [_ Hj]. unfold intermediate. by rewrite decide_True.
Qed.
Lemma intermediate_half_row i : xsum intermediate (row_cols half i) = half_part i.
Proof.
  rewrite (xsum_perm (XorOp0 := symbol_xor len) intermediate _ _ (filter_split (λ j, j < K) (row_cols half i))), (xsum_app (XorOp0 := symbol_xor len)) by (intros j _; apply intermediate_length).
  unfold half_part, source_part. rewrite left_rows_half by done. fold source_part. cbn [xop symbol_xor]. f_equal.
  - apply xsum_ext. intros j [Hj _]%list_elem_of_filter. unfold intermediate. by rewrite decide_True.
  - rewrite right_rows_half, <- !(xlist_fmap len), <- list_fmap_compose. f_equal. apply list_fmap_ext. intros n j Hn.
    apply list_elem_of_lookup_2, list_elem_of_filter in Hn as [HjK Hj%half_range]. unfold intermediate, compose.
    rewrite decide_False by done. by rewrite decide_True.
Qed.

Lemma add_ldpc_symbols_ok : for_each (add_ldpc_symbols (source_part <$> seq 0 S') (row_cols (right_rows p half) <$> seq 0 H'))
    ((λ i, source_part (S' + i)) <$> seq 0 H') (seq 0 H') = Ret (half_part <$> seq 0 H').
Proof.
  destruct (for_each_ok (λ l s, ∃ m, l = seq m (H' - m) ∧ m ≤ H' ∧ s = (λ i, if decide (i < m) then half_part i else source_part (S' + i)) <$> seq 0 H')
    (add_ldpc_symbols (source_part <$> seq 0 S') (row_cols (right_rows p half) <$> seq 0 H')) (seq 0 H') ((λ i, source_part (S' + i)) <$> seq 0 H'))
    as (s & -> & m & Hm & Hle & ->).
  - intros i l s (m & Hl & Hle & ->). destruct (decide (m = H')) as [->|Hne]; [by rewrite Nat.sub_diag in Hl|].
    replace (H' - m) with (S (H' - S m)) in Hl by lia. injection Hl as -> ->. unfold add_ldpc_symbols.
    rewrite (vec_get_ret _ m (row_cols (right_rows p half) m)) by (apply lookup_fmap_seq; split; [lia|done]). cbn [mbind outcome_bind].
    rewrite (mapM_ret _ source_part).
    2: { intros j Hj. apply vec_get_ret, lookup_fmap_seq. split; [|done]. rewrite right_rows_half in Hj.
         apply list_elem_of_fmap in Hj as (c & -> & [_ Hc%half_range]%list_elem_of_filter). pose proof (po_ldpc p Hp) as [_ ?]. lia. }
    cbn [mbind outcome_bind]. rewrite (vec_get_ret _ m (source_part (S' + m))).
    2: { apply lookup_fmap_seq. split; [lia|]. by rewrite decide_False by lia. }
    cbn [mbind outcome_bind]. rewrite (xor_chunks_ok len) by (apply source_part_length || (apply Forall_fmap, Forall_true; intros j; apply source_part_length)).
    cbn [mbind outcome_bind]. rewrite vec_set_ret by (rewrite length_fmap, length_seq; lia). eexists. split; [done|]. exists (S m).
    split; [done|]. split; [lia|]. rewrite xlist_fmap. fold (half_part m).
    rewrite <- (fmap_seq_insert (λ i, if decide (i < m) then half_part i else source_part (S' + i))
      (λ i, if decide (i < S m) then half_part i else source_part (S' + i)) H' m) by (lia || (intros k Hk'; destruct (decide (k < m)), (decide (k < S m)); done || lia)).
    by rewrite decide_True by lia.
  - exists 0. split; [by rewrite Nat.sub_0_r|]. split; [lia|]. done.
  - assert (m = H') as -> by (destruct (H' - m) eqn:E; [lia|done]). f_equal. apply list_fmap_ext. intros i x Hx. apply lookup_seq in Hx as [-> Hx].
    by rewrite decide_True by lia.
Qed.

Context (Hlen : 0 < len) (Hk : num_source_symbols p = source_count src len).

Lemma make_redundant_symbol_ok r : r < S' + H' →
  make_redundant_symbol src len (length src / len) (shadow_symbols src len) (row_cols (left_rows p half) r) = Ret (source_part r).
Proof.
  intros Hr. unfold make_redundant_symbol. rewrite (mapM_ret _ (source_symbol src len)).
  - cbn [mbind outcome_bind]. rewrite (xor_chunks_ok len).
    + f_equal. rewrite xlist_fmap. apply zip_lxor_zero, source_part_length.
    + apply length_replicate.
    + apply Forall_fmap, Forall_true. intros j. apply source_symbol_length.
  - intros j Hj. rewrite <- (app_nil_r (shadow_symbols src len)). apply symbol_at_source; [done|]. rewrite <- Hk.
    destruct (decide (r < S')) as [Hs|Hs].
    + rewrite left_rows_ldpc in Hj by done. apply elem_of_row_cols in Hj. by apply (proj2 (g_ldpc_sorted p Hp)) in Hj as [_ ?].
    + replace r with (S' + (r - S')) in Hj by lia. rewrite left_rows_half in Hj by done. by apply list_elem_of_filter in Hj as [? _].
Qed.
End encoder.

(** An encoder whose intermediate symbols are those that [x] gives. *)
Record encodes (src : list N) (len : nat) (e : Encoder) (elements : list (nat * nat)) (x : nat → list N) : Prop := {
  en_params : params_ok (e_params e);
  en_count : num_source_symbols (e_params e) = source_count src len;
  en_len : e_symbol_len e = len;
  en_wf : ∀ j, length (x j) = len;
  en_source : ∀ j, j < num_source_symbols (e_params e) → x j = source_symbol src len j;
  en_buffer : ∀ j, j < num_intermediate_symbols (e_params e) → encoder_buffer e j = Ret (x j);
  en_constraints : ∀ row, row ∈ constraint_rows (e_params e) elements → @xsum _ (symbol_xor len) x row = replicate len 0%N;
}.

Lemma derived_symbol_at src len l m j s : 0 < len → source_count src len ≤ j →
  (if decide (j - source_count src len < length l) then l !! (j - source_count src len) else m !! (j - source_count src len - length l)) = Some s →
  symbol_at src len (length src / len) (shadow_symbols src len ++ l ++ m) j = Ret s.
Proof.
  intros Hlen Hj Hl. unfold source_count in *. unfold symbol_at. rewrite bool_decide_eq_false_2 by lia. apply vec_get_ret. rewrite lookup_app_r by lia.
  case_decide as Hd.
  - rewrite lookup_app_l by lia. rewrite <- Hl. f_equal. lia.
  - rewrite lookup_app_r by lia. rewrite <- Hl. f_equal. lia.
Qed.

Lemma intermediate_constraints p half src len elements row : params_ok p → g_half p = Ret half → a_common p = Ret elements →
  row ∈ constraint_rows p elements → @xsum _ (symbol_xor len) (intermediate p half src len) row = replicate len 0%N.
Proof.
  intros Hp Hh Ha (r & -> & Hr%elem_of_seq)%list_elem_of_fmap. destruct (a_common_rows p Hp elements half Ha Hh) as [Hldpc Hhalf].
  pose proof (λ j, intermediate_length p half src len j) as Hwf. destruct (decide (r < num_ldpc_symbols p)) as [Hs|Hs].
  - rewrite Hldpc, (xsum_app (XorOp0 := symbol_xor len)) by (done || (intros j _; apply Hwf)).
    rewrite (intermediate_ldpc_row p half src len Hp r Hs). cbn [xsum foldr xop symbol_xor xzero].
    unfold intermediate. rewrite decide_False, decide_True by lia. replace (num_source_symbols p + r - num_source_symbols p) with r by lia.
    rewrite (zip_lxor_comm (source_part _ _ _ _ _) (replicate _ _)). rewrite zip_lxor_zero by apply source_part_length.
    apply zip_lxor_self, source_part_length.
  - replace r with (num_ldpc_symbols p + (r - num_ldpc_symbols p)) by lia. set (i := r - num_ldpc_symbols p).
    rewrite Hhalf, (xsum_app (XorOp0 := symbol_xor len)) by ((subst i; lia) || (intros j _; apply Hwf)).
    rewrite (intermediate_half_row p half src len Hp Hh i). cbn [xsum foldr xop symbol_xor xzero].
    unfold intermediate. rewrite !decide_False by lia.
    replace (num_source_symbols p + num_ldpc_symbols p + i - num_source_symbols p - num_ldpc_symbols p) with i by lia.
    rewrite (zip_lxor_comm (half_part _ _ _ _ _) (replicate _ _)). rewrite zip_lxor_zero by apply half_part_length.
    apply zip_lxor_self, half_part_length.
Qed.

Lemma encoder_new_ok src len : 0 < len → in_source_range (source_count src len) = true →
  ∃ e elements x, encoder_new src len = Ret (Ok e) ∧ code_parameters_new (source_count src len) = Ret (Ok (e_params e)) ∧
    a_common (e_params e) = Ret elements ∧ encodes src len e elements x.
Proof.
  intros Hlen Hk. destruct (code_parameters_new_ok _ Hk) as (p & Hnew & Hp & Hkp). destruct (a_common_ok p Hp) as (elements & Ha & _).
  destruct (g_half_ok p Hp) as (half & Hh & _). unfold encoder_new. rewrite bool_decide_eq_false_2 by lia. cbv zeta.
  fold (source_count src len). rewrite Hk. cbn [negb]. rewrite Hnew. cbn [try_bind mbind outcome_bind].
  rewrite (redundant_rows_ok p Hp half Hh). cbn [mbind outcome_bind].
  assert (mapM (make_redundant_symbol src len (length src / len) (shadow_symbols src len))
    (row_cols (left_rows p half) <$> seq 0 (num_ldpc_symbols p + num_half_symbols p)) =
    Ret (source_part p half src len <$> seq 0 (num_ldpc_symbols p + num_half_symbols p))) as ->.
  { apply mapM_fmap_ret. intros r Hr%elem_of_seq. apply make_redundant_symbol_ok; [done..|lia]. }
  cbn [mbind outcome_bind]. rewrite seq_app, fmap_app. rewrite take_app_length', drop_app_length' by (by rewrite length_fmap, length_seq).
  replace (source_part p half src len <$> seq (0 + num_ldpc_symbols p) (num_half_symbols p)) with
    ((λ i, source_part p half src len (num_ldpc_symbols p + i)) <$> seq 0 (num_half_symbols p)).
  2: { rewrite (Nat.add_comm 0). rewrite <- fmap_add_seq, <- list_fmap_compose. done. }
  rewrite (add_ldpc_symbols_ok p half src len Hp Hh). cbn [mbind outcome_bind].
  eexists _, elements, (intermediate p half src len). split; [done|]. split; [done|]. split; [done|]. split; simpl; try done.
  - apply intermediate_length.
  - intros j Hj. unfold intermediate. by rewrite decide_True.
  - intros j Hj. unfold encoder_buffer. simpl. rewrite (po_sum p Hp) in Hj. unfold intermediate. case_decide; [apply symbol_at_source; [done|lia]|].
    apply derived_symbol_at; [done|lia|]. rewrite length_fmap, length_seq, <- Hkp. repeat case_decide; try lia; apply lookup_fmap_seq; (split; [lia|done]).
  - intros row. by apply intermediate_constraints.
Qed.

Lemma encode_symbol_ok src len e elements x dst esi : encodes src len e elements x → (esi < MAX_TRIPLES)%N → length dst = len →
  ∃ row, lt_sequence_op (e_params e) esi = Ret row ∧ row_ok (e_params e) row ∧
    encode_symbol e dst esi = Ret (zip_with N.lxor dst (@xsum _ (symbol_xor len) x row)).
Proof.
  intros He Hesi Hd. destruct (lt_sequence_op_ok _ _ (en_params _ _ _ _ _ He) Hesi) as (row & Hrow & Hok). exists row. split; [done|]. split; [done|].
  unfold encode_symbol. rewrite (en_len _ _ _ _ _ He), bool_decide_eq_true_2 by done. cbn [rust_assert mbind outcome_bind]. rewrite Hrow. cbn [mbind outcome_bind].
  rewrite (mapM_ret _ x) by (intros j Hj; apply (en_buffer _ _ _ _ _ He), (row_range _ _ Hok), Hj). cbn [mbind outcome_bind].
  rewrite (xor_chunks_ok len); [by rewrite xlist_fmap|done|]. apply Forall_fmap, Forall_true. intros j. apply (en_wf _ _ _ _ _ He).
Qed.
