(* ===== verification/RaptorManaged.v ===== *)
(** * The managed decoder decodes what the encoder encodes

    The buffers hold the sums of the intermediate symbols that the rows of the
    decoder name, whatever was received and tried; so a decoder that is done
    has the source. Conversely a decoder that may use all its means is done as
    soon as what it received determines the intermediate symbols. *)
From S2P Require Import Prelude RaptorSets RaptorCode RaptorRows RaptorMatrix RaptorDecoder RaptorEncoder RaptorInv RaptorPeel RaptorReactivate RaptorDecode RaptorReceive.
#[local] Open Scope nat_scope.
#[local] Arguments Nat.div : simpl never.

(** ** The buffer set *)

(** The buffers are the sums of the rows, and the rows have the solutions of
    the rows [origin] of the code. *)
Record follows (len : nat) (x : nat → list N) (t : nat) (origin rs : list (list nat)) (s : BufferSet) : Prop := {
  fo_temp : num_temp_buffers s = t;
  fo_buffers : buffers s = @xsum _ (symbol_xor len) x <$> rs;
  fo_null : ∀ v, in_null origin v ↔ in_null rs v;
}.

Lemma buffer_index_id_of s i : buffer_index s (id_of (num_temp_buffers s) i) = i.
Proof. unfold id_of. case_bool_decide; simpl; lia. Qed.

Lemma in_null_xor rs a b ra rb r' v : rs !! a = Some ra → rs !! b = Some rb → a ≠ b → sorted ra → sorted rb → sorted r' →
  (∀ k, k ∈ r' ↔ (k ∈ ra ∧ k ∉ rb) ∨ (k ∈ rb ∧ k ∉ ra)) → in_null rs v ↔ in_null (<[a := r']> rs) v.
Proof.
  intros Ha Hb Hne Hsa Hsb Hs' Hr. assert (xsum v r' = xorb (xsum v ra) (xsum v rb)) as E.
  { apply (xsum_symdiff (XorOp0 := bool_xor) v ra rb r'); [by apply sorted_nodup..|done|done|done]. }
  split; intros Hn i row Hi.
  - destruct (decide (i = a)) as [->|Hia].
    + rewrite list_lookup_insert_eq in Hi by (by apply lookup_lt_Some in Ha). injection Hi as <-. by rewrite E, (Hn a ra Ha), (Hn b rb Hb).
    + rewrite list_lookup_insert_ne in Hi by done. by apply (Hn i).
  - destruct (decide (i = a)) as [->|Hia].
    + assert (row = ra) as -> by congruence. pose proof (Hn a r') as H1. rewrite list_lookup_insert_eq in H1 by (by apply lookup_lt_Some in Ha).
      specialize (H1 eq_refl). pose proof (Hn b rb) as H2. rewrite list_lookup_insert_ne in H2 by done. rewrite (H2 Hb), xorb_false_r in E. congruence.
    + apply (Hn i). by rewrite list_lookup_insert_ne.
Qed.

Section buffers.
Context (len : nat) (x : nat → list N) (Hx : ∀ j, length (x j) = len) (t : nat) (origin : list (list nat)).

#[global] Instance buffer_set_store : RowStore xor_buffers t (follows len x t origin).
Proof.
  split. intros rs s a b ra rb r' [Ht Hbufs Hnull] Ha Hb Hne Hsa Hsb Hs' Hr.
  assert (∀ row, length (@xsum _ (symbol_xor len) x row) = len) as Hlen by (intros row; apply (xsum_wf (XorOp0 := symbol_xor len)); intros j _; apply Hx).
  assert (∀ i row, rs !! i = Some row → buffers s !! i = Some (@xsum _ (symbol_xor len) x row)) as Hlook by (intros i row Hi; by rewrite Hbufs, list_lookup_fmap, Hi).
  unfold xor_buffers. rewrite <- Ht, !buffer_index_id_of. unfold get_two_mut. rewrite bool_decide_eq_false_2 by done.
  rewrite (vec_get_ret _ _ _ (Hlook a ra Ha)), (vec_get_ret _ _ _ (Hlook b rb Hb)). cbn [mbind outcome_bind]. unfold xor_bytes.
  rewrite !Hlen, bool_decide_eq_true_2 by done. cbn [rust_assert mbind outcome_bind].
  rewrite vec_set_ret by (by apply (lookup_lt_Some _ _ _ (Hlook a ra Ha))). cbn [mbind outcome_bind]. eexists. split; [done|]. split; simpl; [done| |].
  - rewrite list_fmap_insert, Hbufs. f_equal. symmetry.
    apply (xsum_symdiff (XorOp0 := symbol_xor len) x ra rb r'); [by apply sorted_nodup..|done| |]; intros j _; apply Hx.
  - intros v. rewrite Hnull. by eapply in_null_xor.
Qed.

Lemma follows_push rs s row : follows len x t origin rs s →
  follows len x t (origin ++ [row]) (rs ++ [row]) (push_buffer s (@xsum _ (symbol_xor len) x row)).
Proof.
  intros [Ht Hb Hn]. split; simpl; [done|by rewrite Hb, fmap_app|]. intros v. specialize (Hn v).
  assert (∀ rs, in_null (rs ++ [row]) v ↔ in_null rs v ∧ xsum v row = false) as Hsnoc.
  { intros rs'. split.
    - intros H. split; [intros i r Hi; apply (H i); by apply lookup_app_l_Some|]. apply (H (length rs')). by apply list_lookup_middle.
    - intros [H1 H2] i r [[_ Hi]|[_ <-]]%lookup_snoc_Some; [by apply (H1 i)|done]. }
  rewrite !Hsnoc. tauto.
Qed.
End buffers.

(** ** Reading the source symbols *)

Lemma source_symbol_to_buffer_id_ok d j : dinv d → j < num_source_symbols (params d) →
  ∃ r, source_symbol_to_buffer_id d j = Ret r ∧
    match r with
    | Some id => ∃ i b, id = id_of (num_constraints d) i ∧ buffer_state d !! i = Some b ∧ used b = true ∧ intermediate_symbol_ids b = [j]
    | None => ¬ ∃ i b, buffer_state d !! i = Some b ∧ used b = true ∧ intermediate_symbol_ids b = [j]
    end.
Proof.
  intros [Hc _] Hj. unfold source_symbol_to_buffer_id. rewrite bool_decide_eq_true_2 by done.
  destruct (lookup_lt_is_Some_2 (intermediate_symbol_state d) j) as [s Hs].
  { rewrite (c_length _ _ _ _ _ _ _ _ Hc), (po_sum _ (c_params _ _ _ _ _ _ _ _ Hc)). lia. }
  rewrite (vec_get_ret _ _ _ Hs). cbn [mbind outcome_bind].
  assert (∀ i b, buffer_state d !! i = Some b → used b = true → intermediate_symbol_ids b = [j] → s = Used i) as Hpaired.
  { intros i b Hi Hu E. destruct (c_used _ _ _ _ _ _ _ _ Hc i b Hi Hu) as (_ & k & Hk & Hks). rewrite E in Hk. apply list_elem_of_singleton in Hk. congruence. }
  destruct s as [B|B|u]; cbn [is_used_buffer_index].
  1,2: exists None; split; [done|]; intros (i & b & Hi & Hu & E); by specialize (Hpaired i b Hi Hu E).
  destruct (c_used_by _ _ _ _ _ _ _ _ Hc u j Hs) as (b & Hb & Hu & Hjb). rewrite (vec_get_ret _ _ _ Hb). cbn [mbind outcome_bind].
  case_bool_decide as Hlen.
  - destruct (intermediate_symbol_ids b) as [|k [|]] eqn:E; try done. apply list_elem_of_singleton in Hjb. subst k.
    unfold is_paired. rewrite state_used by (done || by intros _; eapply core_used_weight). rewrite E. cbn [rust_assert mbind outcome_bind]. eexists. split; [done|]. exists u, b. done.
  - exists None. split; [done|]. intros (i & b' & Hi & Hu' & E). specialize (Hpaired i b' Hi Hu' E). injection Hpaired as ->.
    assert (b' = b) as -> by congruence. by rewrite E in Hlen.
Qed.

Lemma reconstruct_from_ok len x t origin m js : dinv (md_decoder m) → num_constraints (md_decoder m) = t → (∀ j, length (x j) = len) →
  follows len x t origin (rows (md_decoder m)) (md_buffer_set m) → (∀ j, j ∈ js → j < num_source_symbols (params (md_decoder m))) →
  ∃ r, reconstruct_from m js = Ret r ∧
    match r with
    | Some data => data = concat (x <$> js) ∧
        ∀ j, j ∈ js → ∃ i b, buffer_state (md_decoder m) !! i = Some b ∧ used b = true ∧ intermediate_symbol_ids b = [j]
    | None => ∃ j, j ∈ js ∧ ¬ ∃ i b, buffer_state (md_decoder m) !! i = Some b ∧ used b = true ∧ intermediate_symbol_ids b = [j]
    end.
Proof.
  intros Hd Ht Hx Hf. induction js as [|j js IH]; intros Hjs; cbn [reconstruct_from].
  { exists (Some []). split; [done|]. split; [done|]. by intros j Hj%elem_of_nil. }
  destruct (source_symbol_to_buffer_id_ok (md_decoder m) j Hd) as (r & -> & Hr); [apply Hjs; left|]. cbn [mbind outcome_bind].
  destruct r as [id|]; cycle 1. { exists None. split; [done|]. exists j. split; [left|done]. }
  destruct Hr as (i & b & -> & Hi & Hu & E). destruct IH as (r & Hrec & Hr); [intros k Hk; apply Hjs; by right|].
  unfold buffer_set_buffer. rewrite Ht, <- (fo_temp _ _ _ _ _ _ Hf), buffer_index_id_of. rewrite (vec_get_ret _ i (x j)).
  2: { rewrite (fo_buffers _ _ _ _ _ _ Hf), list_lookup_fmap, (rows_lookup _ _ _ Hi), E. cbn [fmap option_fmap option_map xsum foldr xop xzero symbol_xor].
       by rewrite zip_lxor_comm, zip_lxor_zero. }
  cbn [mbind outcome_bind]. rewrite Hrec. cbn [mbind outcome_bind]. eexists. split; [done|]. destruct r as [rest|].
  - destruct Hr as [-> Hall]. split; [done|]. intros k [->|Hk]%elem_of_cons; [by exists i, b|by apply Hall].
  - destruct Hr as (k & Hk & Hno). exists k. split; [by right|done].
Qed.

(** ** Receiving and decoding *)

(** What a user of the decoder does: pass it an encoded symbol, or let it try. *)
Inductive DecoderOp := ReceiveSymbol (encoding_symbol_id : N) | TryDecode.

Definition decoder_step (e : Encoder) (m : ManagedDecoder) (op : DecoderOp) : outcome ManagedDecoder :=
  match op with
  | ReceiveSymbol esi => data ← encode_symbol e (replicate (e_symbol_len e) 0%N) esi; managed_received m data esi
  | TryDecode => '(m, _) ← managed_try_decode m; Ret m
  end.

Definition received_id (op : DecoderOp) : option N := match op with ReceiveSymbol esi => Some esi | TryDecode => None end.
Definition received_ids (ops : list DecoderOp) : list N := omap received_id ops.

(** The row of an encoded symbol. *)
Definition lt_row (p : CodeParameters) (esi : N) : list nat := match lt_sequence_op p esi with Ret row => row | _ => [] end.

(** The rows that a decoder knows of: those of the constraints, and those of
    the symbols it received. *)
Definition known_rows (p : CodeParameters) (ids : list N) : list (list nat) :=
  match a_common p with Ret elements => constraint_rows p elements | _ => [] end ++ (lt_row p <$> ids).

Record managed_ok (len : nat) (x : nat → list N) (p : CodeParameters) (ids : list N) (m : ManagedDecoder) : Prop := {
  mo_inv : dinv (md_decoder m);
  mo_params : params (md_decoder m) = p;
  mo_count : md_num_source_symbols m = num_source_symbols p;
  mo_len : md_symbol_len m = len;
  mo_length : length (buffer_state (md_decoder m)) = num_ldpc_symbols p + num_half_symbols p + length ids;
  mo_follows : follows len x (num_ldpc_symbols p + num_half_symbols p) (known_rows p ids) (rows (md_decoder m)) (md_buffer_set m);
}.

Section session.
Context (src : list N) (len : nat) (e : Encoder) (elements : list (nat * nat)) (x : nat → list N).
Context (Hrange : in_source_range (source_count src len) = true).
Context (Hnew : code_parameters_new (source_count src len) = Ret (Ok (e_params e))) (Hcommon : a_common (e_params e) = Ret elements).
Context (He : encodes src len e elements x).
#[local] Notation p := (e_params e).

Lemma managed_new_ok : ∃ m, managed_new (source_count src len) len = Ret (Ok m) ∧ managed_ok len x p [] m.
Proof using Hrange Hnew Hcommon He.
  destruct (with_capacity_ok _ Hrange) as (p' & elements' & d & Hp & Ha & Hw & Hd & Hpd & _ & Hk & Hrows).
  rewrite Hnew in Hp. injection Hp as <-. rewrite Hcommon in Ha. injection Ha as <-. unfold managed_new. rewrite Hw. cbn [try_bind mbind outcome_bind].
  eexists. split; [done|]. assert (length (rows d) = num_ldpc_symbols p + num_half_symbols p) as Hl.
  { rewrite Hrows. unfold constraint_rows. by rewrite length_fmap, length_seq. }
  split; simpl; try done.
  - unfold rows in Hl. rewrite length_fmap in Hl. lia.
  - unfold num_temp_buffers_required, num_redundant_intermediate_symbols. rewrite Hpd.
    assert (known_rows p [] = rows d) as -> by (unfold known_rows; rewrite Hcommon, Hrows; apply app_nil_r).
    split; simpl; [done| |done]. apply replicate_as_elem_of. split; [by rewrite length_fmap|]. rewrite Hrows.
    intros s (row & -> & Hrow)%list_elem_of_fmap. by apply (en_constraints _ _ _ _ _ He).
Qed.

Lemma receive_symbol_ok m ids esi : managed_ok len x p ids m → (esi < MAX_TRIPLES)%N →
  (N.of_nat (num_ldpc_symbols p + num_half_symbols p + S (length ids)) < 65536)%N →
  ∃ m', decoder_step e m (ReceiveSymbol esi) = Ret m' ∧ managed_ok len x p (ids ++ [esi]) m'.
Proof using He.
  intros [Hd Hp Hk Hl Hlb Hf] Hesi H16. pose proof (λ j, en_wf _ _ _ _ _ He j) as Hx.
  destruct (encode_symbol_ok src len e elements x (replicate len 0%N) esi He Hesi (length_replicate _ _)) as (row & Hrow & Hok & Henc).
  unfold decoder_step. rewrite (en_len _ _ _ _ _ He), Henc. cbn [mbind outcome_bind].
  rewrite zip_lxor_zero by (apply (xsum_wf (XorOp0 := symbol_xor len)); intros j _; apply Hx). unfold managed_received.
  rewrite Hl, bool_decide_eq_true_2 by (symmetry; apply (xsum_wf (XorOp0 := symbol_xor len)); intros j _; apply Hx). cbn [negb].
  pose proof (follows_push len x _ _ _ _ row Hf) as Hf'.
  destruct (received_encoded_symbol_ok xor_buffers (num_ldpc_symbols p + num_half_symbols p)
    (follows len x (num_ldpc_symbols p + num_half_symbols p) (known_rows p ids ++ [row])) (RowStore0 := buffer_set_store len x Hx _ _)
    (md_decoder m) (push_buffer (md_buffer_set m) (@xsum _ (symbol_xor len) x row)) esi row) as (d' & s' & -> & Hd' & Hf2 & Hp' & Hlb').
  { done. } { unfold num_constraints. by rewrite Hp. } { lia. } { by rewrite Hp. } { by rewrite Hp. } { done. }
  cbn [mbind outcome_bind]. eexists. split; [done|]. split; simpl; try done.
  - congruence.
  - rewrite length_app. simpl. lia.
  - replace (known_rows p (ids ++ [esi])) with (known_rows p ids ++ [row]); [done|]. unfold known_rows. rewrite fmap_app, app_assoc. do 2 f_equal.
    simpl. unfold lt_row. by rewrite Hrow.
Qed.

Lemma threshold_le m ids : managed_ok len x p ids m → num_source_symbols (params (md_decoder m)) ≤ managed_threshold m.
Proof.
  intros [_ -> Hk _ _ _]. unfold managed_threshold, INACTIVATION_SYMBOL_THRESHOLD_MULTIPLIER, INACTIVATION_SYMBOL_THRESHOLD_SHIFT.
  rewrite Hk, N.shiftr_div_pow2. change (2 ^ N.of_nat 8)%N with 256%N. change (N.of_nat 384) with 384%N.
  assert (N.of_nat (num_source_symbols p) ≤ 384 * N.of_nat (num_source_symbols p) / 256)%N; [|lia]. apply N.div_le_lower_bound; lia.
Qed.

Lemma managed_try_decode_ok m ids : managed_ok len x p ids m →
  ∃ m', managed_try_decode m = Ret (m', managed_decoding_done m') ∧ managed_ok len x p ids m' ∧
    (managed_decoding_done m' = true ∨ length (buffer_state (md_decoder m)) - num_redundant_buffers (md_decoder m) < managed_threshold m ∨
     stuck (md_decoder m')).
Proof using He.
  intros Hm. pose proof (threshold_le m ids Hm) as Hth. destruct Hm as [Hd Hp Hk Hl Hlb Hf]. pose proof (λ j, en_wf _ _ _ _ _ He j) as Hx.
  unfold managed_try_decode.
  destruct (try_decode_ok xor_buffers (num_ldpc_symbols p + num_half_symbols p)
    (follows len x (num_ldpc_symbols p + num_half_symbols p) (known_rows p ids)) (RowStore0 := buffer_set_store len x Hx _ _)
    (md_decoder m) (md_buffer_set m) (managed_threshold m)) as (d' & s' & -> & Hd' & Hf' & Hev & Hres).
  { done. } { unfold num_constraints. by rewrite Hp. } { done. } { done. }
  cbn [mbind outcome_bind]. exists {| m with md_decoder := d'; md_buffer_set := s' |}. split; [done|]. split; [|done]. split; simpl; try done.
  - rewrite (ev_params _ _ Hev). done.
  - rewrite (ev_length _ _ Hev). done.
Qed.

Definition op_ok (op : DecoderOp) : Prop := match op with ReceiveSymbol esi => (esi < MAX_TRIPLES)%N | TryDecode => True end.

Lemma session_ok m ids ops : managed_ok len x p ids m → Forall op_ok ops →
  (N.of_nat (num_ldpc_symbols p + num_half_symbols p + length (ids ++ received_ids ops)) < 65536)%N →
  ∃ m', for_each (decoder_step e) m ops = Ret m' ∧ managed_ok len x p (ids ++ received_ids ops) m'.
Proof using He.
  intros Hm Hops. revert m ids Hm. induction Hops as [|op ops Hop _ IH]; intros m ids Hm H16; cbn [for_each].
  { exists m. split; [done|]. by rewrite app_nil_r. }
  destruct op as [esi|].
  - change (received_ids (ReceiveSymbol esi :: ops)) with ([esi] ++ received_ids ops) in *. rewrite app_assoc in *.
    destruct (receive_symbol_ok m ids esi Hm Hop) as (m1 & -> & Hm1); [rewrite !length_app in H16; simpl in H16; lia|]. by apply IH.
  - cbn [decoder_step]. destruct (managed_try_decode_ok m ids Hm) as (m1 & -> & Hm1 & _). cbn [mbind outcome_bind]. by apply IH.
Qed.

Lemma reconstruct_ok m ids : managed_ok len x p ids m →
  reconstruct_source_data m =
    Ret (if managed_decoding_done m then Some (take (source_count src len * len) (src ++ replicate (source_count src len * len) 0%N)) else None).
Proof using He.
  intros [Hd Hp Hk Hl Hlb Hf]. unfold reconstruct_source_data.
  destruct (reconstruct_from_ok len x (num_ldpc_symbols p + num_half_symbols p) (known_rows p ids) m (seq 0 (md_num_source_symbols m))) as (r & -> & Hr); try done.
  { unfold num_constraints. by rewrite Hp. } { apply (en_wf _ _ _ _ _ He). } { intros j Hj%elem_of_seq. rewrite Hp. lia. }
  pose proof (done_iff _ Hd) as Hdone. fold (managed_decoding_done m) in Hdone. rewrite Hp, <- Hk in Hdone. f_equal. destruct r as [data|].
  - destruct Hr as [-> Hall]. rewrite (proj2 Hdone) by (intros j Hj; apply Hall, elem_of_seq; lia). f_equal.
    rewrite <- concat_source_symbols, <- (en_count _ _ _ _ _ He), <- Hk. f_equal. apply list_fmap_ext. intros i j Hi%lookup_seq.
    apply (en_source _ _ _ _ _ He). lia.
  - destruct (managed_decoding_done m); [|done]. destruct Hr as (j & Hj%elem_of_seq & Hno). exfalso. apply Hno, Hdone; [done|lia].
Qed.

Lemma try_decode_complete m ids : managed_ok len x p ids m → (∀ v, in_null (known_rows p ids) v → ∀ j, j < num_intermediate_symbols p → v j = false) →
  managed_threshold m ≤ length (buffer_state (md_decoder m)) - num_redundant_buffers (md_decoder m) →
  ∃ m', managed_try_decode m = Ret (m', true) ∧ managed_ok len x p ids m'.
Proof using He.
  intros Hm Hnull Hth. destruct (managed_try_decode_ok m ids Hm) as (m' & -> & Hm' & Hres). exists m'. split; [|done]. do 2 f_equal.
  destruct (managed_decoding_done m') eqn:Hdone; [done|]. destruct Hres as [|[|Hst]]; [done|lia|]. destruct Hm' as [Hd' Hp' _ _ _ Hf'].
  destruct (stuck_null _ Hd' Hst Hdone) as (v & j & Hj & Hv & Hn). rewrite (c_length _ _ _ _ _ _ _ _ (proj1 Hd')), Hp' in Hj.
  rewrite (Hnull v) in Hv; [done|by apply (fo_null _ _ _ _ _ _ Hf')|done].
Qed.
End session.
