(* ===== verification/RaptorTheorems.v ===== *)
(** * What the Raptor code promises

    The theorems of the other files put together, for the interface that the
    code has to its users, and executions on small data. *)
From S2P Require Import Prelude RaptorSets RaptorHeap RaptorCode RaptorRows RaptorMatrix RaptorDecoder RaptorInv RaptorPeel RaptorReactivate RaptorDecode RaptorReceive RaptorEncoder RaptorManaged.
#[local] Open Scope nat_scope.
#[local] Arguments Nat.div : simpl never.

(** ** The heap as a map *)

(** What a user of the heap can ask, and may ask when it stands for a map. *)
Inductive WeightOp := InsertWeight (buffer_index weight : nat) | UpdateWeight (buffer_index weight : nat) | RemoveWeight (buffer_index : nat) | RemoveMin | PeekMin.

Definition weight_step (h : BufferWeightMap) (op : WeightOp) : outcome (BufferWeightMap * option (nat * nat)) :=
  match op with
  | InsertWeight b w => h ← insert_buffer_weight h b w; Ret (h, None)
  | UpdateWeight b w => h ← update_buffer_weight h b w; Ret (h, None)
  | RemoveWeight b => '(h, w) ← remove_buffer_weight h b; Ret (h, Some (b, w))
  | RemoveMin => r ← peek_min h; h ← remove_min h; Ret (h, r)
  | PeekMin => r ← peek_min h; Ret (h, r)
  end.

Definition weight_op_allowed (m : gmap nat nat) (op : WeightOp) : Prop :=
  match op with
  | InsertWeight b _ => m !! b = None ∧ (N.of_nat b < 65536)%N
  | UpdateWeight b _ | RemoveWeight b => is_Some (m !! b)
  | RemoveMin => m ≠ ∅
  | PeekMin => True
  end.

Definition lightest (m : gmap nat nat) (b w : nat) : Prop := m !! b = Some w ∧ ∀ b' w', m !! b' = Some w' → w ≤ w'.

(** The same operations on the map. *)
Inductive weight_spec (m : gmap nat nat) : WeightOp → option (nat * nat) → gmap nat nat → Prop :=
| WsInsert b w : weight_spec m (InsertWeight b w) None (<[b := w]> m)
| WsUpdate b w : weight_spec m (UpdateWeight b w) None (<[b := w]> m)
| WsRemove b w : m !! b = Some w → weight_spec m (RemoveWeight b) (Some (b, w)) (delete b m)
| WsRemoveMin b w : lightest m b w → weight_spec m RemoveMin (Some (b, w)) (delete b m)
| WsPeekMin b w : lightest m b w → weight_spec m PeekMin (Some (b, w)) m
| WsPeekEmpty : m = ∅ → weight_spec m PeekMin None m.

Lemma heap_ok_room h m b : heap_ok h m → m !! b = None → (N.of_nat b < 65536)%N → (N.of_nat (length (heap_index_to_buffer_index h)) < 65536)%N.
Proof.
  intros Hok Hb H16. rewrite (heap_ok_size h m Hok). assert (size (<[b := 0]> m) ≤ N.to_nat 65536) as Hs.
  { apply slot_size. intros k [w Hw]. apply lookup_insert_Some in Hw as [[<- _]|[_ Hw]]; [lia|]. pose proof (hw_u16 h m (hk_wf h m Hok) k w Hw). lia. }
  rewrite map_size_insert_None in Hs by done. lia.
Qed.

(** ** Rows that determine the symbols *)

Definition rows_matrix (rs : list (list nat)) (n : nat) : DenseMatrix :=
  mkDenseMatrix (mjoin ((λ row, (λ j, bool_decide (j ∈ row)) <$> seq 0 n) <$> rs)) (length rs) n.

Lemma rows_matrix_lookup rs n i j row : rs !! i = Some row → j < n → mat_data (rows_matrix rs n) !! (i * n + j) = Some (bool_decide (j ∈ row)).
Proof.
  unfold rows_matrix. cbn [mat_data]. revert i. induction rs as [|r rs IH]; intros i Hi Hj; [done|]. cbn [fmap list_fmap mjoin list_join].
  destruct i as [|i].
  - injection Hi as ->. rewrite lookup_app_l by (rewrite length_fmap, length_seq; lia). apply lookup_fmap_seq. split; [lia|]. do 2 f_equal.
  - rewrite Nat.mul_succ_l. rewrite lookup_app_r by (rewrite length_fmap, length_seq; lia). rewrite length_fmap, length_seq.
    replace (i * n + n + j - n) with (i * n + j) by lia. by apply IH.
Qed.
Lemma rows_matrix_wf rs n : mat_wf (rows_matrix rs n).
Proof.
  unfold mat_wf, rows_matrix. cbn [mat_data nrows ncols]. induction rs as [|r rs IH]; [done|]. cbn [fmap list_fmap mjoin list_join length].
  rewrite length_app, length_fmap, length_seq, Nat.mul_succ_l, Nat.add_comm. f_equal. exact IH.
Qed.

(** The kernel of the matrix holds what solves the rows. *)
Lemma rows_matrix_kernel rs n v : (∀ i row, rs !! i = Some row → sorted row ∧ ∀ j, j ∈ row → j < n) → in_null rs v →
  in_kernel (entry (rows_matrix rs n)) (length rs) n v.
Proof.
  intros Hrs Hn i Hi. destruct (lookup_lt_is_Some_2 rs i Hi) as [row Hrow]. destruct (Hrs i row Hrow) as [Hs Hr]. rewrite <- (Hn i row Hrow).
  apply xsum_perm, NoDup_Permutation; [apply NoDup_filter, NoDup_seq|by apply sorted_nodup|]. intros j. unfold row_set. rewrite list_elem_of_filter, elem_of_seq.
  unfold entry. split.
  - intros [He Hj]. change (ncols (rows_matrix rs n)) with n in He. rewrite (rows_matrix_lookup rs n i j row) in He by (done || lia). by apply bool_decide_eq_true in He.
  - intros Hj. pose proof (Hr j Hj). split; [|lia]. change (ncols (rows_matrix rs n)) with n. rewrite (rows_matrix_lookup rs n i j row) by (done || lia).
    by apply bool_decide_eq_true.
Qed.

Lemma known_rows_ok p ids i row : params_ok p → Forall (λ esi, (esi < MAX_TRIPLES)%N) ids → known_rows p ids !! i = Some row →
  sorted row ∧ ∀ j, j ∈ row → j < num_intermediate_symbols p.
Proof.
  intros Hp Hids Hi%list_elem_of_lookup_2. destruct (a_common_ok p Hp) as (elements & Ha & Hs & Hr & _). unfold known_rows in Hi. rewrite Ha in Hi.
  apply elem_of_app in Hi as [(r & -> & _)%list_elem_of_fmap|(esi & -> & Hin)%list_elem_of_fmap].
  - split; [by apply row_cols_sorted|]. intros j Hj%elem_of_row_cols. by apply (Hr r j).
  - rewrite Forall_forall in Hids. destruct (lt_sequence_op_ok p esi Hp (Hids esi Hin)) as (row & Hrow & [Hs' _ Hr']). unfold lt_row. by rewrite Hrow.
Qed.

(** Gaussian elimination finds the rows that a decoder knows invertible. *)
Definition determined (p : CodeParameters) (ids : list N) : Prop :=
  num_intermediate_symbols p ≤ num_ldpc_symbols p + num_half_symbols p + length ids ∧
  check_invertible (rows_matrix (known_rows p ids) (num_intermediate_symbols p)) = Ret true.

Lemma determined_null p ids v : params_ok p → Forall (λ esi, (esi < MAX_TRIPLES)%N) ids →
  (N.of_nat (num_ldpc_symbols p + num_half_symbols p + length ids) < 65536)%N → determined p ids → in_null (known_rows p ids) v →
  ∀ j, j < num_intermediate_symbols p → v j = false.
Proof.
  intros Hp Hids H16 [Hle Hinv] Hn. assert (length (known_rows p ids) = num_ldpc_symbols p + num_half_symbols p + length ids) as Hlen.
  { destruct (a_common_ok p Hp) as (elements & Ha & _). unfold known_rows, constraint_rows. rewrite Ha, length_app, !length_fmap, length_seq. done. }
  destruct (check_invertible_ok (rows_matrix (known_rows p ids) (num_intermediate_symbols p))) as (b & Hb & Hk).
  - apply rows_matrix_wf.
  - cbn [rows_matrix ncols nrows]. lia.
  - cbn [rows_matrix nrows]. lia.
  - rewrite Hinv in Hb. injection Hb as <-. apply Hk; [done|]. apply rows_matrix_kernel; [|done]. intros i row. by apply known_rows_ok.
Qed.

(** More rows determine more. *)
Lemma known_rows_mono p ids ids' v : ids' ⊆ ids → in_null (known_rows p ids) v → in_null (known_rows p ids') v.
Proof.
  intros Hsub Hn i row Hi%list_elem_of_lookup_2. assert (row ∈ known_rows p ids) as [j Hj]%list_elem_of_lookup; [|by apply (Hn j)].
  unfold known_rows in *. apply elem_of_app in Hi as [Hi|(esi & -> & Hin)%list_elem_of_fmap]; apply elem_of_app; [by left|right].
  apply list_elem_of_fmap. exists esi. split; [done|by apply Hsub].
Qed.

(** The matrix of the systematic code has the rows of the first symbols. *)
Lemma g_lt_ok p n : params_ok p → (N.of_nat n ≤ MAX_TRIPLES)%N →
  ∃ lt, g_lt p n = Ret lt ∧ ∀ r c, (r, c) ∈ lt ↔ r < n ∧ c ∈ lt_row p (N.of_nat r).
Proof.
  intros Hp Hn. unfold g_lt. rewrite (mapM_ret _ (λ i, map (pair i) (lt_row p (N.of_nat i)))).
  - cbn [mbind outcome_bind]. eexists. split; [done|]. intros r c. rewrite list_elem_of_In, in_concat. split.
    + intros (l & (i & -> & Hi%elem_of_seq)%list_elem_of_In%list_elem_of_fmap & Hrc). apply in_map_iff in Hrc as (el & [= -> ->] & Hel%list_elem_of_In).
      split; [lia|done].
    + intros [Hr Hc]. exists (map (pair r) (lt_row p (N.of_nat r))). split; [|apply in_map; by apply list_elem_of_In].
      apply list_elem_of_In, list_elem_of_fmap. exists r. split; [done|]. apply elem_of_seq. lia.
  - intros i Hi%elem_of_seq. destruct (lt_sequence_op_ok p (N.of_nat i) Hp) as (row & Hrow & _); [unfold MAX_TRIPLES in *; lia|].
    unfold lt_row. rewrite Hrow. done.
Qed.

Lemma systematic_matrix_ok p : params_ok p → ∃ a, a_systematic_intermediate_matrix p = Ret a ∧ mat_wf a ∧
  nrows a = num_intermediate_symbols p ∧ ncols a = num_intermediate_symbols p ∧
  ∀ i j row, known_rows p (N.of_nat <$> seq 0 (num_source_symbols p)) !! i = Some row → j < num_intermediate_symbols p → entry a i j = bool_decide (j ∈ row).
Proof.
  intros Hp. destruct (a_common_ok p Hp) as (elements & Ha & _ & Hr & _). pose proof (po_source p Hp) as [_ HK]. pose proof (po_sum p Hp) as Hsum.
  destruct (g_lt_ok p (num_source_symbols p) Hp) as (lt & Hlt & Hin); [unfold MAX_TRIPLES; lia|].
  unfold a_systematic_intermediate_matrix, a_systematic_intermediate, a_with_g_lt. rewrite Ha. cbn [mbind outcome_bind]. rewrite Hlt. cbn [mbind outcome_bind].
  set (t := num_ldpc_symbols p + num_half_symbols p) in *. set (n := num_intermediate_symbols p) in *. destruct (mat_from_element_ok n n) as [Hw He].
  destruct (marks_ok id n n (elements ++ ((λ e, (t + e.1, e.2)) <$> lt)) (mat_from_element n n false)) as (a & Hfor & Hwa & Hra & Hca & Hea); try done.
  { intros [r c] [Hrc|([r' c'] & [= -> ->] & [Hr' Hc']%Hin)%list_elem_of_fmap]%elem_of_app; simpl.
    - specialize (Hr r c Hrc). lia.
    - split; [lia|]. destruct (lt_sequence_op_ok p (N.of_nat r') Hp) as (row & Hrow & [_ _ Hrange]); [unfold MAX_TRIPLES; lia|].
      unfold lt_row in Hc'. rewrite Hrow in Hc'. by apply Hrange. }
  exists a. split; [done|]. do 3 (split; [done|]). intros i j row Hi Hj. rewrite Hea, He, list_fmap_id by done. cbn [orb]. apply bool_decide_ext.
  unfold known_rows in Hi. rewrite Ha in Hi. rewrite elem_of_app. apply lookup_app_Some in Hi as [Hi|[Hge Hi]].
  - unfold constraint_rows in Hi. apply lookup_fmap_seq in Hi as [Hi ->]. rewrite elem_of_row_cols. split; [|by left].
    intros [|([r c] & [= -> ->] & _)%list_elem_of_fmap]; [done|]. unfold t in Hi. lia.
  - unfold constraint_rows in Hge, Hi. rewrite length_fmap, length_seq in Hge, Hi. fold t in Hge, Hi. rewrite <- list_fmap_compose in Hi.
    apply lookup_fmap_seq in Hi as [Hi ->]. unfold compose. split.
    + intros [Hij%Hr|([r c] & [= -> ->] & [_ Hc]%Hin)%list_elem_of_fmap]; [lia|]. by replace (t + r - t) with r by lia.
    + intros Hj'. right. apply list_elem_of_fmap. exists (i - t, j). split; [simpl; f_equal; lia|]. by apply Hin.
Qed.

(** If it is invertible, as the tests of the repository check for every number
    of source symbols, then as many symbols as there are source symbols can be
    enough. *)
Lemma systematic_determined p a : params_ok p → a_systematic_intermediate_matrix p = Ret a → check_invertible a = Ret true →
  determined p (N.of_nat <$> seq 0 (num_source_symbols p)).
Proof.
  intros Hp Ha Hinv. destruct (systematic_matrix_ok p Hp) as (a' & Ha' & Hw & Hnr & Hnc & He). assert (a' = a) as -> by congruence.
  pose proof (po_sum p Hp) as Hsum. pose proof (po_prime_le p Hp) as Hle. unfold determined. rewrite length_fmap, length_seq. split; [lia|].
  assert (length (known_rows p (N.of_nat <$> seq 0 (num_source_symbols p))) = num_intermediate_symbols p) as Hlen.
  { destruct (a_common_ok p Hp) as (elements & Hc & _). unfold known_rows, constraint_rows. rewrite Hc, length_app, !length_fmap, !length_seq. lia. }
  destruct (check_invertible_ok a) as (b & Hb & Hk); [done|lia|lia|]. rewrite Hinv in Hb. injection Hb as <-. destruct Hk as [Hk _]. specialize (Hk eq_refl).
  set (rs := known_rows p (N.of_nat <$> seq 0 (num_source_symbols p))) in *.
  destruct (check_invertible_ok (rows_matrix rs (num_intermediate_symbols p))) as (b & -> & Hk').
  { apply rows_matrix_wf. } { cbn [rows_matrix ncols nrows]. lia. } { cbn [rows_matrix nrows]. lia. }
  f_equal. apply Hk'. cbn [rows_matrix ncols nrows]. intros x Hx j Hj. apply Hk; [|lia]. rewrite Hnr, Hnc. intros i Hi.
  destruct (lookup_lt_is_Some_2 rs i) as [row Hrow]; [lia|]. rewrite <- (Hx i) by lia. apply xsum_perm.
  unfold row_set. apply NoDup_Permutation; [apply NoDup_filter, NoDup_seq..|]. intros k. rewrite !list_elem_of_filter, !elem_of_seq.
  assert (k < num_intermediate_symbols p → entry a i k = entry (rows_matrix rs (num_intermediate_symbols p)) i k) as E.
  { intros Hk2. rewrite (He i k row Hrow) by done. unfold entry. change (ncols (rows_matrix rs (num_intermediate_symbols p))) with (num_intermediate_symbols p).
    by rewrite (rows_matrix_lookup rs _ i k row). }
  split; intros [H1 H2]; (split; [|done]); [rewrite <- E|rewrite E]; done || lia.
Qed.

(** ** Sessions *)

(** The source followed by zeros, up to a whole number of symbols. *)
Definition padded (src : list N) (len : nat) : list N := src ++ replicate (source_count src len * len - length src) 0%N.

Lemma padded_take src len : 0 < len → take (source_count src len * len) (src ++ replicate (source_count src len * len) 0%N) = padded src len.
Proof.
  intros Hlen. unfold padded. pose proof (source_count_le src len Hlen). rewrite take_app, take_ge by lia. by rewrite take_replicate, Nat.min_l by lia.
Qed.

Lemma received_ids_valid ops : Forall op_ok ops → Forall (λ esi, (esi < MAX_TRIPLES)%N) (received_ids ops).
Proof.
  induction 1 as [|[esi|] ops Hop _ IH]; [constructor| |done]. change (received_ids (ReceiveSymbol esi :: ops)) with (esi :: received_ids ops). by constructor.
Qed.

Lemma params_room p (ids : list N) : params_ok p → (N.of_nat (length ids) ≤ 65308)%N → (N.of_nat (num_ldpc_symbols p + num_half_symbols p + length ids) < 65536)%N.
Proof. intros Hp Hids. pose proof (po_ldpc p Hp) as [_ ?]. pose proof (po_half p Hp). lia. Qed.

(** ** Theorems *)

(** C21. The heap of buffer weights refines a finite map: whenever it stands for
    a map and an operation is allowed on the map, the heap does the operation
    without panicking, its own check included, returns what the map would and
    stands for the changed map; the least weight is found at once. *)
Theorem weight_map_simulates h m op : heap_ok h m → weight_op_allowed m op →
  ∃ h' r m', weight_step h op = Ret (h', r) ∧ weight_spec m op r m' ∧ heap_ok h' m'.
Proof.
  intros Hok Ha. destruct op as [b w|b w|b| |]; cbn [weight_step weight_op_allowed] in *.
  - destruct Ha as [Hb H16]. destruct (insert_buffer_weight_ok h m b w Hok Hb H16 (heap_ok_room h m b Hok Hb H16)) as (h' & -> & Hok').
    exists h', None, (<[b := w]> m). split; [done|]. split; [constructor|done].
  - destruct Ha as [w0 Hb]. destruct (update_buffer_weight_ok h m b w w0 Hok Hb) as (h' & -> & Hok').
    exists h', None, (<[b := w]> m). split; [done|]. split; [constructor|done].
  - destruct Ha as [w Hb]. destruct (remove_buffer_weight_ok h m b w Hok Hb) as (h' & -> & Hok').
    exists h', (Some (b, w)), (delete b m). split; [done|]. split; [by constructor|done].
  - destruct (remove_min_ok h m Hok Ha) as (h' & b & w & -> & -> & Hb & Hmin & Hok').
    exists h', (Some (b, w)), (delete b m). split; [done|]. split; [by constructor|done].
  - destruct (peek_min_ok h m Hok) as (r & -> & Hr). exists h, r, m. split; [done|]. split; [|done].
    destruct r as [[b w]|]; [by constructor|by apply WsPeekEmpty].
Qed.


(** C23. Elimination decides invertibility: on a matrix with at least as many rows
    as columns [check_invertible] returns, and says yes exactly when no
    non-zero combination of the columns vanishes. *)
Theorem check_invertible_exact m : mat_wf m → ncols m ≤ nrows m → (N.of_nat (nrows m) < 65536)%N →
  ∃ b, check_invertible m = Ret b ∧
    (b = true ↔ ∀ x, in_kernel (entry m) (nrows m) (ncols m) x → ∀ j, j < ncols m → x j = false).
Proof. apply check_invertible_ok. Qed.

(** C20. The encoder: it refuses an empty symbol length and more source symbols
    than the code admits; otherwise it has intermediate symbols that begin
    with the padded source and satisfy every constraint row of the code, and
    what it adds to a buffer for an identifier is the sum of the symbols of
    the identifier's row. *)
Theorem encoder_exact src len :
  if bool_decide (len = 0) then encoder_new src len = Ret (Err SymbolLenZero)
  else if in_source_range (source_count src len) then
    ∃ e x, encoder_new src len = Ret (Ok e) ∧
      (∀ j, j < source_count src len → x j = source_symbol src len j) ∧
      (∀ row, row ∈ known_rows (e_params e) [] → @xsum _ (symbol_xor len) x row = replicate len 0%N) ∧
      ∀ dst esi, length dst = len → (esi < MAX_TRIPLES)%N →
        encode_symbol e dst esi = Ret (zip_with N.lxor dst (@xsum _ (symbol_xor len) x (lt_row (e_params e) esi)))
  else encoder_new src len = Ret (Err SymbolsOutOfRange).
Proof.
  case_bool_decide as Hz; [unfold encoder_new; by rewrite bool_decide_eq_true_2|]. destruct (in_source_range (source_count src len)) eqn:Hk.
  - destruct (encoder_new_ok src len) as (e & elements & x & He & _ & Ha & Hen); [lia|done|]. exists e, x. split; [done|].
    pose proof (en_count _ _ _ _ _ Hen) as Hc. split; [intros j Hj; apply (en_source _ _ _ _ _ Hen); lia|]. split.
    + intros row. unfold known_rows. rewrite Ha, app_nil_r. apply (en_constraints _ _ _ _ _ Hen).
    + intros dst esi Hd Hesi. destruct (encode_symbol_ok src len e elements x dst esi Hen Hesi Hd) as (row & Hrow & _ & ->). unfold lt_row. by rewrite Hrow.
  - unfold encoder_new. rewrite bool_decide_eq_false_2 by done. cbv zeta. fold (source_count src len). by rewrite Hk.
Qed.

(** C7. The code is sound: whatever symbols of an encoder a decoder receives, in
    any order, with repetitions and with attempts at decoding in between,
    neither panics (the decoder's own checks included) and every attempt ends;
    the decoder gives the padded source exactly when it says that it is done. *)
Theorem raptor_decodes_source src len ops : 0 < len → in_source_range (source_count src len) = true →
  Forall op_ok ops → (N.of_nat (length (received_ids ops)) ≤ 65308)%N →
  ∃ e m0 m, encoder_new src len = Ret (Ok e) ∧ managed_new (source_count src len) len = Ret (Ok m0) ∧
    for_each (decoder_step e) m0 ops = Ret m ∧
    reconstruct_source_data m = Ret (if managed_decoding_done m then Some (padded src len) else None).
Proof.
  intros Hlen Hk Hops Hn. destruct (encoder_new_ok src len Hlen Hk) as (e & elements & x & He & Hnew & Ha & Hen).
  destruct (managed_new_ok src len e elements x Hk Hnew Ha Hen) as (m0 & Hm0 & Hok0).
  destruct (session_ok src len e elements x Hen m0 [] ops Hok0 Hops) as (m & Hm & Hok).
  { apply params_room; [apply (en_params _ _ _ _ _ Hen)|done]. }
  exists e, m0, m. do 3 (split; [done|]). rewrite (reconstruct_ok src len e elements x Hen m _ Hok). by rewrite padded_take.
Qed.

(** C8. The code is complete: when some of the symbols that a decoder received
    determine all intermediate symbols (elimination finds the matrix of their
    rows and of the constraints invertible), and enough buffers are in use for
    the decoder to inactivate symbols, the next attempt succeeds and gives the
    padded source. *)
Theorem raptor_decoding_completes src len ops ids e m0 m : 0 < len → in_source_range (source_count src len) = true →
  Forall op_ok ops → (N.of_nat (length (received_ids ops)) ≤ 65308)%N →
  encoder_new src len = Ret (Ok e) → managed_new (source_count src len) len = Ret (Ok m0) → for_each (decoder_step e) m0 ops = Ret m →
  ids ⊆ received_ids ops → determined (e_params e) ids → (N.of_nat (length ids) ≤ 65308)%N →
  managed_threshold m ≤ length (buffer_state (md_decoder m)) - num_redundant_buffers (md_decoder m) →
  ∃ m', managed_try_decode m = Ret (m', true) ∧ reconstruct_source_data m' = Ret (Some (padded src len)).
Proof.
  intros Hlen Hk Hops Hn He Hm0 Hm Hsub Hdet Hn' Hth. destruct (encoder_new_ok src len Hlen Hk) as (e' & elements & x & He' & Hnew & Ha & Hen).
  rewrite He in He'. injection He' as <-. destruct (managed_new_ok src len e elements x Hk Hnew Ha Hen) as (m0' & Hm0' & Hok0).
  rewrite Hm0 in Hm0'. injection Hm0' as <-. pose proof (en_params _ _ _ _ _ Hen) as Hp. pose proof (params_room _ _ Hp Hn) as Hroom.
  destruct (session_ok src len e elements x Hen m0 [] ops Hok0 Hops) as (m1 & Hm1 & Hok); [done|]. rewrite Hm in Hm1. injection Hm1 as <-.
  destruct (try_decode_complete src len e elements x Hen m _ Hok) as (m' & Hdec & Hok'); [|done|].
  { intros v Hv. apply (determined_null _ ids v Hp); [|by apply params_room|done|by eapply known_rows_mono].
    pose proof (received_ids_valid ops Hops) as Hval. rewrite Forall_forall in Hval |- *. intros esi Hin. by apply Hval, Hsub. }
  exists m'. split; [done|]. rewrite (reconstruct_ok src len e elements x Hen m' _ Hok').
  destruct (managed_try_decode_ok src len e elements x Hen m _ Hok) as (m2 & Hdec2 & _). rewrite Hdec in Hdec2. injection Hdec2 as <- <-. by rewrite padded_take.
Qed.

(** ** Executions *)

Module RaptorExample.
Definition source : list N := [1; 2; 3; 4; 5]%N.
Definition no_params : CodeParameters := mkCodeParameters 0 0 0 0 0 0.
Definition no_decoder : ManagedDecoder := mkManagedDecoder 0 0 (mkDecoder no_params [] [] weight_map_new weight_map_new 0 0) (mkBufferSet 0 []).

Definition encoder : Encoder := match encoder_new source 2 with Ret (Ok e) => e | _ => mkEncoder [] 0 no_params 0 [] end.
Definition new_decoder : ManagedDecoder := match managed_new 3 2 with Ret (Ok m) => m | _ => no_decoder end.
Definition decoder (ops : list DecoderOp) : ManagedDecoder := match for_each (decoder_step encoder) new_decoder ops with Ret m => m | _ => no_decoder end.

Definition ops : list DecoderOp := [ReceiveSymbol 2; TryDecode; ReceiveSymbol 0; ReceiveSymbol 0; ReceiveSymbol 1]%N.

Lemma encoder_ret : encoder_new source 2 = Ret (Ok encoder).
Proof. vm_refl. Qed.
Lemma new_decoder_ret : managed_new 3 2 = Ret (Ok new_decoder).
Proof. vm_refl. Qed.
Lemma decoder_ret : for_each (decoder_step encoder) new_decoder ops = Ret (decoder ops).
Proof. vm_refl. Qed.
Lemma ops_ok : Forall op_ok ops.
Proof. repeat constructor. Qed.

(** A run that decodes: the source comes out, padded. *)
Example raptor_example_run : reconstruct_source_data (decoder (ops ++ [TryDecode])) = Ret (Some [1; 2; 3; 4; 5; 0]%N).
Proof. vm_refl. Qed.
Example raptor_example_open : reconstruct_source_data (decoder ops) = Ret None.
Proof. vm_refl. Qed.

Lemma weight_map_simulates_witness : ∃ h' r m', weight_step weight_map_new (InsertWeight 3 7) = Ret (h', r) ∧
  weight_spec ∅ (InsertWeight 3 7) r m' ∧ heap_ok h' m'.
Proof. apply (weight_map_simulates weight_map_new ∅ (InsertWeight 3 7)); [apply weight_map_new_ok|split; [apply lookup_empty|lia]]. Defined.

Lemma check_invertible_exact_witness : ∃ b, check_invertible (mkDenseMatrix [true; true; false; true] 2 2) = Ret b ∧
  (b = true ↔ ∀ x, in_kernel (entry (mkDenseMatrix [true; true; false; true] 2 2)) 2 2 x → ∀ j, j < 2 → x j = false).
Proof. apply (check_invertible_exact (mkDenseMatrix [true; true; false; true] 2 2)); simpl; [reflexivity|lia|lia]. Defined.

Lemma raptor_decodes_source_witness : ∃ e m0 m, encoder_new source 2 = Ret (Ok e) ∧ managed_new (source_count source 2) 2 = Ret (Ok m0) ∧
  for_each (decoder_step e) m0 (ops ++ [TryDecode]) = Ret m ∧
  reconstruct_source_data m = Ret (if managed_decoding_done m then Some (padded source 2) else None).
Proof.
  apply (raptor_decodes_source source 2 (ops ++ [TryDecode])); [lia|vm_refl| |vm_compute; done].
  apply Forall_app. split; [apply ops_ok|repeat constructor].
Defined.

Lemma raptor_decoding_completes_witness : ∃ m', managed_try_decode (decoder ops) = Ret (m', true) ∧ reconstruct_source_data m' = Ret (Some (padded source 2)).
Proof.
  apply (raptor_decoding_completes source 2 ops [0; 1; 2]%N encoder new_decoder (decoder ops)).
  - lia.
  - vm_refl.
  - apply ops_ok.
  - vm_compute. done.
  - apply encoder_ret.
  - apply new_decoder_ret.
  - apply decoder_ret.
  - apply (bool_decide_unpack _). vm_compute. exact I.
  - split; [vm_compute; lia|vm_refl].
  - vm_compute. done.
  - vm_compute. lia.
Defined.
End RaptorExample.
