(* ===== verification/Merkle.v ===== *)
(** * Merkle trees (monad-merkle/src/lib.rs)

    The tree over the chunks of a broadcast message: a complete binary tree in
    an array, the root first, the children of node [i] at [2i+1] and [2i+2].
    The hash function is a parameter; its 32-byte output is cut to 20 bytes.
    Assertions that only debug builds check are left out. *)
From S2P Require Import Prelude.

(** [HasherType] of monad-crypto: the hash of the concatenated updates. *)
Class Hasher := {
  hash_of : list Byte.byte → list Byte.byte;
  hash_of_length : ∀ m, length (hash_of m) = 32%nat;
}.

Definition u16_MAX : N := 65535.
Definition MerkleHash : Type := list Byte.byte.
#[global] Instance MerkleHash_eq_dec : EqDecision MerkleHash := list_eq_dec.
Definition MerkleHash_default : MerkleHash := replicate 20 Byte.x00.
Definition hash_to_merkle (hash : list Byte.byte) : MerkleHash := take 20 hash.

Definition parent_idx (idx : N) : option N := p ← checked_sub idx 1; Some (p / 2).
Definition sibling_idx (idx : N) : option N := p ← parent_idx idx; Some (2 * p + (1 + idx `mod` 2)).

Definition MAX_DEPTH : N := 15.

Record MerkleProof := mkMerkleProof { tree_leaf_idx : N; siblings : list MerkleHash }.
Record MerkleTree := mkMerkleTree { tree_leaf_start_idx : N; mt_tree : list MerkleHash }.

Definition checked_pow (max a b : N) : option N := if decide (a ^ b ≤ max) then Some (a ^ b) else None.

Definition new_from_leaf_idx (siblings : list MerkleHash) (leaf_idx : N) : option MerkleProof :=
  if bool_decide (MAX_DEPTH ≤ N.of_nat (length siblings)) then None else
  num_leaves ← checked_pow u16_MAX 2 (N.of_nat (length siblings));
  twice ← checked_mul u16_MAX 2 num_leaves;
  tree_len ← checked_sub twice 1;
  let tree_leaf_start_idx := tree_len - num_leaves in
  if bool_decide (num_leaves ≤ leaf_idx) then None
  else Some (mkMerkleProof (tree_leaf_start_idx + leaf_idx) siblings).

Section merkle.
Context `{HS : Hasher}.

Definition combine (a b : MerkleHash) : MerkleHash := hash_to_merkle (hash_of (a ++ b)).

(** The loop of [compute_root], over the siblings from the leaf up. *)
Fixpoint root_loop (siblings : list MerkleHash) (merkle_hash : MerkleHash) (current_idx : option N) : option MerkleHash :=
  match siblings with
  | [] => Some merkle_hash
  | sibling :: siblings =>
      idx ← current_idx;
      let merkle_hash :=
        if bool_decide (idx `mod` 2 = 1) then combine merkle_hash sibling else combine sibling merkle_hash in
      root_loop siblings merkle_hash (parent_idx idx)
  end.

Definition compute_root (p : MerkleProof) (leaf : list Byte.byte) : option MerkleHash :=
  root_loop (reverse (siblings p)) (hash_to_merkle leaf) (Some (tree_leaf_idx p)).

(** [for (leaf, raw_leaf) in tree[..].iter_mut().zip(leaves)]. *)
Fixpoint fill_leaves (tree : list MerkleHash) (leaves : list (list Byte.byte)) : list MerkleHash :=
  match tree, leaves with
  | _ :: tree, raw_leaf :: leaves => hash_to_merkle raw_leaf :: fill_leaves tree leaves
  | _, _ => tree
  end.

(** [for idx in (0..n).rev()]: the inner nodes, from the last one. *)
Fixpoint hash_loop (n : nat) (tree : list MerkleHash) : outcome (list MerkleHash) :=
  match n with
  | O => Ret tree
  | S idx =>
      left ← expect (tree !! (2 * idx + 1)%nat);
      right ← expect (tree !! (2 * idx + 2)%nat);
      hash_loop idx (<[idx := combine left right]> tree)
  end.

Definition new_with_depth (leaves : list (list Byte.byte)) (depth : N) : outcome MerkleTree :=
  d ← expect (checked_sub depth 1);
  let num_leaves := 2 ^ d in
  let tree_len := 2 * num_leaves - 1 in
  let start := tree_len - num_leaves in
  _ ← rust_assert (bool_decide (start ≤ u16_MAX));
  tree ← hash_loop (N.to_nat start)
           (replicate (N.to_nat start) MerkleHash_default ++
            fill_leaves (replicate (N.to_nat num_leaves) MerkleHash_default) leaves);
  Ret (mkMerkleTree start tree).

(** [leaves.len().next_power_of_two().ilog2() + 1]. *)
Definition tree_depth (num_leaves : N) : N := N.log2_up num_leaves + 1.
Definition merkle_tree_new (leaves : list (list Byte.byte)) : outcome MerkleTree :=
  new_with_depth leaves (tree_depth (N.of_nat (length leaves))).

Definition merkle_root (t : MerkleTree) : outcome MerkleHash := expect (mt_tree t !! 0%nat).

(** The [while let] of [proof]; the index at least halves, so that as many
    steps as it has binary digits are enough. *)
Fixpoint sibling_loop (fuel : nat) (tree : list MerkleHash) (current_idx : N) (acc : list MerkleHash)
    : outcome (list MerkleHash) :=
  match fuel with
  | O => OutOfFuel
  | S fuel =>
      match sibling_idx current_idx with
      | None => Ret acc
      | Some sibling =>
          parent ← expect (parent_idx current_idx);
          h ← expect (tree !! N.to_nat sibling);
          sibling_loop fuel tree parent (acc ++ [h])
      end
  end.

Definition merkle_proof (t : MerkleTree) (leaf_idx : N) : outcome MerkleProof :=
  let idx := (tree_leaf_start_idx t + leaf_idx) `mod` (u16_MAX + 1) in
  siblings ← sibling_loop (S (N.to_nat (N.size idx))) (mt_tree t) idx [];
  Ret (mkMerkleProof idx (reverse siblings)).
End merkle.

(** ** Levels of the tree *)

(** Node [i] has depth [k] below the root. *)
Definition on_level (k : nat) (i : N) : Prop := 2 ^ N.of_nat k ≤ i + 1 < 2 * 2 ^ N.of_nat k.

Lemma pow2_S k : 2 ^ N.of_nat (S k) = 2 * 2 ^ N.of_nat k.
Proof. rewrite Nat2N.inj_succ. apply N.pow_succ_r'. Qed.
Lemma pow2_pos k : 0 < 2 ^ N.of_nat k.
Proof. by apply N.neq_0_lt_0, N.pow_nonzero. Qed.

Lemma parent_of_level k i : on_level (S k) i → ∃ p, parent_idx i = Some p ∧ on_level k p ∧
  ((i `mod` 2 = 1 ∧ i = 2 * p + 1 ∧ sibling_idx i = Some (2 * p + 2)) ∨
   (i `mod` 2 = 0 ∧ i = 2 * p + 2 ∧ sibling_idx i = Some (2 * p + 1))).
Proof.
  unfold on_level. rewrite pow2_S. intros Hi. pose proof (pow2_pos k).
  unfold sibling_idx, parent_idx, checked_sub. rewrite decide_True by lia. simpl.
  exists ((i - 1) / 2). split; [done|].
  assert (i = 2 * ((i - 1) / 2) + 1 ∧ i `mod` 2 = 1 ∨ i = 2 * ((i - 1) / 2) + 2 ∧ i `mod` 2 = 0) as [[H1 H2]|[H1 H2]]
    by divlia.
  - split; [lia|]. left. split_and!; [done|done|]. rewrite H2; f_equal; lia.
  - split; [lia|]. right. split_and!; [done|done|]. rewrite H2; f_equal; lia.
Qed.

Lemma root_level i : on_level 0 i → i = 0.
Proof. unfold on_level. simpl. lia. Qed.

(** ** Well-formed trees *)

Section merkle_facts.
Context `{HS : Hasher}.

Definition node (t : MerkleTree) (i : N) : option MerkleHash := mt_tree t !! N.to_nat i.

(** Leaf [i] of the tree; unused leaves are zero. *)
Definition leaf_hash (leaves : list (list Byte.byte)) (i : N) : MerkleHash :=
  from_option hash_to_merkle MerkleHash_default (leaves !! N.to_nat i).

Record tree_of (leaves : list (list Byte.byte)) (k : nat) (t : MerkleTree) : Prop := {
  to_start : tree_leaf_start_idx t = 2 ^ N.of_nat k - 1;
  to_inner : ∀ i, i < 2 ^ N.of_nat k - 1 →
    ∃ l r, node t (2 * i + 1) = Some l ∧ node t (2 * i + 2) = Some r ∧ node t i = Some (combine l r);
  to_leaf : ∀ i, i < 2 ^ N.of_nat k → node t (2 ^ N.of_nat k - 1 + i) = Some (leaf_hash leaves i);
}.

Lemma hash_loop_spec n tree : (2 * n + 1 ≤ length tree)%nat →
  ∃ tree', hash_loop n tree = Ret tree' ∧ (∀ j, (n ≤ j)%nat → tree' !! j = tree !! j) ∧
    ∀ j, (j < n)%nat → ∃ l r, tree' !! (2 * j + 1)%nat = Some l ∧ tree' !! (2 * j + 2)%nat = Some r ∧
      tree' !! j = Some (combine l r).
Proof.
  revert tree. induction n as [|n IH]; intros tree Hlen.
  { exists tree. split_and!; [done|done|]. lia. }
  destruct (lookup_lt_is_Some_2 tree (2 * n + 1)) as [l Hl]; [lia|].
  destruct (lookup_lt_is_Some_2 tree (2 * n + 2)) as [r Hr]; [lia|].
  destruct (IH (<[n := combine l r]> tree)) as (tree' & Hrun & Hsame & Hin); [rewrite length_insert; lia|].
  exists tree'. split.
  { cbn [hash_loop]. rewrite Hl, Hr. exact Hrun. }
  split.
  - intros j Hj. rewrite Hsame by lia. by rewrite list_lookup_insert_ne by lia.
  - intros j Hj. destruct (decide (j = n)) as [->|Hne]; [|apply Hin; lia].
    exists l, r. rewrite !Hsame by lia. rewrite !(list_lookup_insert_ne _ n) by lia.
    rewrite list_lookup_insert_eq by lia. done.
Qed.

Lemma fill_leaves_lookup n leaves (j : nat) : (j < n)%nat →
  fill_leaves (replicate n MerkleHash_default) leaves !! j = Some (leaf_hash leaves (N.of_nat j)).
Proof.
  unfold leaf_hash. rewrite Nat2N.id. revert n j. induction leaves as [|l leaves IH]; intros n j Hj.
  { replace (fill_leaves _ _) with (replicate n MerkleHash_default) by (by destruct n). by apply lookup_replicate_2. }
  destruct n as [|n]; [lia|]. destruct j as [|j]; [done|]. simpl. apply IH. lia.
Qed.

Lemma fill_leaves_length tree leaves : length (fill_leaves tree leaves) = length tree.
Proof. revert leaves. induction tree as [|x tree IH]; intros [|l leaves]; simpl; auto. Qed.

Lemma new_with_depth_spec leaves k : N.of_nat k ≤ 16 →
  ∃ t, new_with_depth leaves (N.of_nat (S k)) = Ret t ∧ tree_of leaves k t.
Proof.
  intros Hk. unfold new_with_depth, checked_sub. rewrite decide_True by lia. cbn [expect mbind outcome_bind].
  replace (N.of_nat (S k) - 1) with (N.of_nat k) by lia. pose proof (pow2_pos k) as Hpos.
  assert (2 ^ N.of_nat k ≤ 2 ^ 16) as Hle by (by apply N.pow_le_mono_r).
  set (num := 2 ^ N.of_nat k) in *. replace (2 * num - 1 - num) with (num - 1) by lia.
  rewrite (bool_decide_eq_true_2 (num - 1 ≤ u16_MAX)) by (unfold u16_MAX; simpl in Hle; lia).
  cbn [rust_assert mbind outcome_bind].
  destruct (hash_loop_spec (N.to_nat (num - 1))
    (replicate (N.to_nat (num - 1)) MerkleHash_default ++
     fill_leaves (replicate (N.to_nat num) MerkleHash_default) leaves)) as (tree & Hrun & Hsame & Hin).
  { rewrite length_app, fill_leaves_length, !length_replicate. lia. }
  rewrite Hrun. eexists. split; [done|]. split.
  - done.
  - intros i Hi. destruct (Hin (N.to_nat i)) as (l & r & H1 & H2 & H3); [lia|].
    exists l, r. unfold node. simpl mt_tree.
    replace (N.to_nat (2 * i + 1)) with (2 * N.to_nat i + 1)%nat by lia.
    replace (N.to_nat (2 * i + 2)) with (2 * N.to_nat i + 2)%nat by lia. done.
  - intros i Hi. fold num in Hi |- *. unfold node. simpl mt_tree. rewrite Hsame by lia.
    rewrite lookup_app_r by (rewrite length_replicate; lia). rewrite length_replicate.
    rewrite fill_leaves_lookup by lia. do 2 f_equal. lia.
Qed.

Context (leaves : list (list Byte.byte)) (k : nat) (t : MerkleTree) (Ht : tree_of leaves k t).

(** The children of the parent of a node. *)
Lemma siblings_of_level j i : on_level (S j) i → (S j ≤ k)%nat →
  ∃ p l r, parent_idx i = Some p ∧ on_level j p ∧ node t p = Some (combine l r) ∧
    ((bool_decide (i `mod` 2 = 1) = true ∧ node t i = Some l ∧
      ∃ s, sibling_idx i = Some s ∧ node t s = Some r) ∨
     (bool_decide (i `mod` 2 = 1) = false ∧ node t i = Some r ∧
      ∃ s, sibling_idx i = Some s ∧ node t s = Some l)) ∧
    node t (2 * p + 1) = Some l ∧ node t (2 * p + 2) = Some r.
Proof using Ht.
  intros Hi Hj. destruct (parent_of_level j i Hi) as (p & Hp & Hlp & Hcase).
  destruct (to_inner _ _ _ Ht p) as (l & r & Hl & Hr & Hn).
  { assert (2 ^ N.of_nat (S j) ≤ 2 ^ N.of_nat k) as Hle by (apply N.pow_le_mono_r; lia).
    rewrite pow2_S in Hle. unfold on_level in Hlp. lia. }
  exists p, l, r. split_and!; [done|done|done| |done|done].
  destruct Hcase as [(Hm & -> & Hs)|(Hm & -> & Hs)]; [left|right]; rewrite Hm; split_and!; eauto.
Qed.

(** The collected siblings lead from a node to the root. *)
Lemma sibling_loop_spec j i acc : on_level j i → (j ≤ k)%nat →
  ∃ sibs, (∀ fuel, (j < fuel)%nat → sibling_loop fuel (mt_tree t) i acc = Ret (acc ++ sibs)) ∧ length sibs = j ∧
    ∀ h, node t i = Some h → root_loop sibs h (Some i) = node t 0.
Proof using Ht.
  revert i acc. induction j as [|j IH]; intros i acc Hi Hj.
  { exists []. apply root_level in Hi as ->. rewrite app_nil_r. split_and!; [|done|by intros h ->].
    intros [|fuel] Hf; [lia|done]. }
  destruct (siblings_of_level j i Hi Hj) as (p & l & r & Hp & Hlp & Hn & Hcase & _).
  assert (∃ s h', sibling_idx i = Some s ∧ node t s = Some h') as (s & h' & Hs & Hh') by naive_solver.
  destruct (IH p (acc ++ [h']) Hlp) as (sibs & Hrun & Hlen & Hroot); [lia|].
  exists (h' :: sibs). split_and!; [|simpl; lia|].
  - intros [|fuel] Hf; [lia|]. cbn [sibling_loop]. unfold node in Hh'. rewrite Hs, Hp. cbn [expect mbind outcome_bind].
    rewrite Hh'. cbn [expect mbind outcome_bind]. rewrite Hrun by lia. by rewrite <- (assoc_L (++)).
  - intros h Hh. cbn [root_loop mbind option_bind]. rewrite Hp. rewrite <- (Hroot _ Hn).
    destruct Hcase as [(Hm & Hl & s' & Hs' & Hr)|(Hm & Hr & s' & Hs' & Hl)]; rewrite Hm; by simplify_eq.
Qed.

(** The reverse: siblings that lead to the root, from a value other than the
    node's, contain a collision, which this search finds. *)
Fixpoint find_collision (sibs : list MerkleHash) (h : MerkleHash) (i : N) : option (list Byte.byte * list Byte.byte) :=
  match sibs with
  | [] => None
  | s :: sibs =>
      p ← parent_idx i;
      l ← node t (2 * p + 1);
      r ← node t (2 * p + 2);
      let input := if bool_decide (i `mod` 2 = 1) then h ++ s else s ++ h in
      if bool_decide (hash_to_merkle (hash_of input) = combine l r)
      then if bool_decide (input = l ++ r) then None else Some (input, l ++ r)
      else find_collision sibs (hash_to_merkle (hash_of input)) p
  end.

Lemma node_length i h : node t i = Some h → i < 2 ^ N.of_nat k - 1 ∨ i - (2 ^ N.of_nat k - 1) < 2 ^ N.of_nat k →
  (∀ l, l ∈ leaves → length l = 32%nat) → length h = 20%nat.
Proof using Ht.
  intros Hi Hr Hl. destruct (decide (i < 2 ^ N.of_nat k - 1)) as [Hlt|Hge].
  - destruct (to_inner _ _ _ Ht i Hlt) as (l & r & _ & _ & Hn). simplify_eq.
    unfold combine, hash_to_merkle. rewrite length_take, hash_of_length. lia.
  - destruct Hr as [?|Hr]; [done|]. pose proof (to_leaf _ _ _ Ht _ Hr) as Hn.
    replace (2 ^ N.of_nat k - 1 + (i - (2 ^ N.of_nat k - 1))) with i in Hn by lia. simplify_eq.
    unfold leaf_hash. destruct (leaves !! _) as [l|] eqn:Hlk; [|done]. simpl.
    apply list_elem_of_lookup_2, Hl in Hlk. unfold hash_to_merkle. rewrite length_take, Hlk. lia.
Qed.

Lemma level_in_tree j i : on_level j i → (j ≤ k)%nat →
  i < 2 ^ N.of_nat k - 1 ∨ i - (2 ^ N.of_nat k - 1) < 2 ^ N.of_nat k.
Proof.
  intros Hi Hj. assert (2 ^ N.of_nat j ≤ 2 ^ N.of_nat k) by (apply N.pow_le_mono_r; lia). unfold on_level in Hi. lia.
Qed.

Lemma find_collision_spec sibs h i : on_level (length sibs) i → (length sibs ≤ k)%nat →
  Forall (λ s, length s = 20%nat) sibs → length h = 20%nat → (∀ l, l ∈ leaves → length l = 32%nat) →
  root_loop sibs h (Some i) = node t 0 →
  node t i = Some h ∨
  ∃ a b, find_collision sibs h i = Some (a, b) ∧ a ≠ b ∧ hash_to_merkle (hash_of a) = hash_to_merkle (hash_of b).
Proof using Ht.
  intros Hi Hk Hs Hh Hlv. revert h i Hi Hk Hh. induction Hs as [|s sibs Hs _ IH]; intros h i Hi Hk Hh Hroot.
  { left. apply root_level in Hi as ->. by rewrite <- Hroot. }
  cbn [length] in Hi, Hk.
  destruct (siblings_of_level _ i Hi Hk) as (p & l & r & Hp & Hlp & Hn & Hcase & Hl & Hr).
  assert (length l = 20%nat ∧ length r = 20%nat) as [Hll Hlr].
  { assert (on_level (S (length sibs)) (2 * p + 1) ∧ on_level (S (length sibs)) (2 * p + 2)) as [H1 H2].
    { unfold on_level in *. rewrite pow2_S. lia. }
    split; [eapply (node_length (2 * p + 1)) | eapply (node_length (2 * p + 2))]; eauto using level_in_tree. }
  cbn [root_loop mbind option_bind] in Hroot. rewrite Hp in Hroot.
  cbn [find_collision]. rewrite Hp. cbn [mbind option_bind]. rewrite Hl, Hr. cbn [mbind option_bind].
  set (input := if bool_decide (i `mod` 2 = 1) then h ++ s else s ++ h) in *.
  assert (root_loop sibs (hash_to_merkle (hash_of input)) (Some p) = node t 0) as Hup.
  { rewrite <- Hroot. unfold input, combine. by destruct (bool_decide _). }
  destruct (bool_decide (hash_to_merkle (hash_of input) = combine l r)) eqn:Heq;
    [apply bool_decide_eq_true in Heq; destruct (bool_decide (input = l ++ r)) eqn:Hin|apply bool_decide_eq_false in Heq].
  - left. apply bool_decide_eq_true in Hin. destruct Hcase as [(Hm & Hx & _)|(Hm & Hx & _)]; unfold input in Hin; rewrite Hm in Hin;
      (apply app_inj_1 in Hin as [? ?]; [subst; exact Hx|by rewrite ?Hh, ?Hs, ?Hll]).
  - right. apply bool_decide_eq_false in Hin. by exists input, (l ++ r).
  - destruct (IH (hash_to_merkle (hash_of input)) p Hlp) as [Hp'|?]; [lia| |done| |by right].
    + unfold hash_to_merkle. rewrite length_take, hash_of_length. lia.
    + simplify_eq.
Qed.
End merkle_facts.

Section merkle_properties.
Context `{HS : Hasher}.

Lemma new_from_leaf_idx_spec sibs i : new_from_leaf_idx sibs i =
  if bool_decide ((length sibs < 15)%nat ∧ i < 2 ^ N.of_nat (length sibs))
  then Some (mkMerkleProof (2 ^ N.of_nat (length sibs) - 1 + i) sibs) else None.
Proof.
  unfold new_from_leaf_idx, MAX_DEPTH, checked_pow, checked_mul, checked_sub.
  destruct (decide (length sibs < 15)%nat) as [Hlt|Hge].
  2:{ rewrite (bool_decide_eq_true_2 (15 ≤ _)), bool_decide_eq_false_2; [done|lia..]. }
  rewrite (bool_decide_eq_false_2 (15 ≤ _)) by lia. set (k := length sibs) in *.
  assert (2 ^ N.of_nat k ≤ 2 ^ 14) as Hle by (apply N.pow_le_mono_r; lia). pose proof (pow2_pos k).
  simpl (2 ^ 14) in Hle. unfold u16_MAX. rewrite !decide_True by lia. cbn [mbind option_bind].
  rewrite !decide_True by lia. cbn [mbind option_bind]. rewrite decide_True by lia. cbn [mbind option_bind].
  destruct (decide (i < 2 ^ N.of_nat k)).
  - rewrite bool_decide_eq_false_2, bool_decide_eq_true_2 by (split; lia) || lia. do 2 f_equal. lia.
  - rewrite bool_decide_eq_true_2, bool_decide_eq_false_2 by lia. done.
Qed.

Lemma depth_as_level depth : 0 < depth ≤ MAX_DEPTH → ∃ k : nat, depth = N.of_nat (S k) ∧ (k < 15)%nat.
Proof. unfold MAX_DEPTH. intros H. exists (N.to_nat (depth - 1)). lia. Qed.

Lemma leaf_level k i : i < 2 ^ N.of_nat k → on_level k (2 ^ N.of_nat k - 1 + i).
Proof. unfold on_level. lia. Qed.

Lemma size_of_level k i : on_level k i → (k < S (N.to_nat (N.size i)))%nat.
Proof.
  intros Hi. destruct k as [|k]; [lia|]. assert (N.of_nat k < N.size i); [|lia].
  assert (2 ^ N.of_nat k ≤ i) as Hge by (unfold on_level in Hi; rewrite pow2_S in Hi; pose proof (pow2_pos k); lia).
  apply (N.pow_lt_mono_r_iff 2); [lia|]. pose proof (N.size_gt i). lia.
Qed.

(** All nodes of a tree over hashes are cut hashes. *)
#[local] Notation is_hash := (λ h, length h = 20%nat).

Lemma combine_length a b : length (combine a b) = 20%nat.
Proof. unfold combine, hash_to_merkle. by rewrite length_take, hash_of_length. Qed.

Lemma hash_loop_nodes n tree tree' : hash_loop n tree = Ret tree' → Forall is_hash tree → Forall is_hash tree'.
Proof.
  revert tree. induction n as [|n IH]; intros tree Hrun Hf; cbn [hash_loop] in Hrun; [by injection Hrun as <-|]. monad_inv Hrun.
  apply (IH _ Hrun), Forall_insert; [done|apply combine_length].
Qed.

Lemma fill_leaves_nodes tree leaves : Forall is_hash tree → Forall (λ l, length l = 32%nat) leaves → Forall is_hash (fill_leaves tree leaves).
Proof.
  intros Ht. revert leaves. induction Ht as [|h tree Hh Ht IH]; intros leaves Hl; [by destruct leaves|].
  destruct Hl as [|leaf leaves Hleaf Hl]; simpl; constructor; auto. unfold hash_to_merkle. rewrite length_take. lia.
Qed.

Lemma new_with_depth_nodes leaves depth t : new_with_depth leaves depth = Ret t → Forall (λ l, length l = 32%nat) leaves → Forall is_hash (mt_tree t).
Proof.
  intros Hnew Hl. unfold new_with_depth in Hnew. monad_inv Hnew. simplify_eq. simpl. eapply hash_loop_nodes; [done|]. apply Forall_app.
  split; [by apply Forall_replicate|]. apply fill_leaves_nodes; [by apply Forall_replicate|done].
Qed.

Lemma sibling_loop_nodes fuel tree i acc sibs : sibling_loop fuel tree i acc = Ret sibs → Forall is_hash tree → Forall is_hash acc → Forall is_hash sibs.
Proof.
  intros Hrun Ht. revert i acc Hrun. induction fuel as [|fuel IH]; intros i acc Hrun Hacc; cbn [sibling_loop] in Hrun; [done|].
  destruct (sibling_idx i) as [s|]; [|by injection Hrun as <-]. monad_inv Hrun. eapply IH; [done|]. apply Forall_app. split; [done|].
  constructor; [|done]. by eapply (Forall_lookup_1 _ _ _ _ Ht).
Qed.

(** Every tree of an admissible depth is built, and the proof it gives for any
    of its leaves leads from that leaf to the root; the receiver, who knows
    only the siblings and the leaf's index, rebuilds the same proof. *)
Lemma merkle_proofs_ok leaves k : (k < 15)%nat → Forall (λ l, length l = 32%nat) leaves →
  ∃ t root, new_with_depth leaves (N.of_nat (S k)) = Ret t ∧ merkle_root t = Ret root ∧ length root = 20%nat ∧
    ∀ i leaf, leaves !! N.to_nat i = Some leaf → i < 2 ^ N.of_nat k →
      ∃ p, merkle_proof t i = Ret p ∧ length (siblings p) = k ∧ Forall is_hash (siblings p) ∧
        compute_root p leaf = Some root ∧ new_from_leaf_idx (siblings p) i = Some p.
Proof.
  intros Hk Hlv. destruct (new_with_depth_spec leaves k) as (t & Hnew & Ht); [lia|].
  pose proof (new_with_depth_nodes _ _ _ Hnew Hlv) as Hnodes. assert (is_Some (node t 0)) as [root Hroot].
  { pose proof (pow2_pos k). destruct (decide (0 < 2 ^ N.of_nat k - 1)) as [Hin|Hin].
    - apply (to_inner _ _ _ Ht) in Hin as (l & r & _ & _ & Hn). eauto.
    - pose proof (to_leaf _ _ _ Ht 0) as Hl. replace (2 ^ N.of_nat k - 1 + 0) with 0 in Hl by lia.
      rewrite Hl by lia. eauto. }
  exists t, root. split; [done|]. split; [unfold merkle_root; change (mt_tree t !! 0%nat) with (node t 0); by rewrite Hroot|].
  split; [exact (Forall_lookup_1 _ _ _ _ Hnodes Hroot)|].
  intros i leaf Hleaf Hi. unfold merkle_proof. rewrite (to_start _ _ _ Ht).
  assert (2 ^ N.of_nat k ≤ 2 ^ 14) as Hle by (apply N.pow_le_mono_r; lia). simpl (2 ^ 14) in Hle.
  rewrite N.mod_small by (unfold u16_MAX; lia). apply leaf_level in Hi as Hlv'.
  destruct (sibling_loop_spec leaves k t Ht k _ [] Hlv') as (sibs & Hrun & Hlen & Hpath); [done|].
  specialize (Hrun _ (size_of_level _ _ Hlv')). cbn [app] in Hrun. rewrite Hrun. cbn [mbind outcome_bind app]. eexists. split; [done|].
  cbn [siblings]. split; [by rewrite length_reverse|]. split; [apply Forall_reverse; by eapply sibling_loop_nodes|]. split.
  - unfold compute_root. cbn [siblings tree_leaf_idx]. rewrite reverse_involutive, <- Hroot. apply Hpath.
    rewrite (to_leaf _ _ _ Ht) by done. unfold leaf_hash. by rewrite Hleaf.
  - rewrite new_from_leaf_idx_spec, length_reverse, Hlen. by rewrite bool_decide_eq_true_2 by (split; lia).
Qed.

(** C31. A proof binds its leaf: if the leaf and siblings that a sender provides for
    index [i] lead to the root of a tree, then the leaf is leaf [i] of the tree
    (up to the cut to 20 bytes) or an unused one, or else [find_collision]
    yields two different inputs with the same cut hash. *)
Theorem merkle_proof_binding leaves depth t root sibs i p leaf :
  0 < depth ≤ MAX_DEPTH → Forall (λ l, length l = 32%nat) leaves → length leaf = 32%nat →
  Forall (λ s, length s = 20%nat) sibs → N.of_nat (length sibs) + 1 = depth →
  new_with_depth leaves depth = Ret t → merkle_root t = Ret root →
  new_from_leaf_idx sibs i = Some p → compute_root p leaf = Some root →
  (∃ l, leaves !! N.to_nat i = Some l ∧ hash_to_merkle leaf = hash_to_merkle l) ∨
  (leaves !! N.to_nat i = None ∧ hash_to_merkle leaf = MerkleHash_default) ∨
  ∃ a b, find_collision t (reverse sibs) (hash_to_merkle leaf) (tree_leaf_idx p) = Some (a, b) ∧ a ≠ b ∧
    hash_to_merkle (hash_of a) = hash_to_merkle (hash_of b).
Proof.
  intros (k & -> & Hk)%depth_as_level Hlv Hlf Hs Hlen Hnew Hroot Hp Hc.
  destruct (new_with_depth_spec leaves k) as (t' & Hnew' & Ht); [lia|].
  rewrite Hnew in Hnew'. injection Hnew' as <-.
  assert (length sibs = k) as <- by lia. rewrite new_from_leaf_idx_spec in Hp. case_bool_decide as Hi; [|done].
  destruct Hi as [_ Hi]. simplify_eq. unfold compute_root in Hc. cbn [siblings tree_leaf_idx] in *.
  apply leaf_level in Hi as Hlevel. rewrite <- (length_reverse sibs) in Hlevel at 1.
  destruct (find_collision_spec leaves _ t Ht (reverse sibs) (hash_to_merkle leaf) _ Hlevel) as [Hnode|Hcol].
  - by rewrite length_reverse.
  - by apply Forall_reverse.
  - unfold hash_to_merkle. rewrite length_take, Hlf. lia.
  - by apply Forall_forall.
  - etrans; [exact Hc|]. unfold merkle_root in Hroot. by apply expect_ret_inv in Hroot.
  - rewrite (to_leaf _ _ _ Ht) in Hnode by done. unfold leaf_hash in Hnode.
    destruct (leaves !! N.to_nat i) as [l|]; [left|right; left]; naive_solver.
  - by right; right.
Qed.
End merkle_properties.

Section merkle_witnesses.

(** A polynomial hash on 160 bits. *)
Fixpoint toy_digest (n : nat) (x : N) : list Byte.byte :=
  match n with
  | O => []
  | S n => default Byte.x00 (Byte.of_N (x `mod` 256)) :: toy_digest n (x / 256)
  end.
Definition toy_hash (m : list Byte.byte) : list Byte.byte :=
  toy_digest 32 (foldl (λ acc b, (acc * 259 + Byte.to_N b + 1) `mod` 2 ^ 160) 7 m).
Lemma toy_hash_length m : length (toy_hash m) = 32%nat.
Proof. unfold toy_hash. by generalize (foldl (λ acc b, (acc * 259 + Byte.to_N b + 1) `mod` 2 ^ 160) 7 m). Qed.
#[local] Instance toy_hasher : Hasher := {| hash_of := toy_hash; hash_of_length := toy_hash_length |}.

Definition toy_leaves : list (list Byte.byte) := [toy_hash [Byte.x01]; toy_hash [Byte.x02]; toy_hash [Byte.x03]].
Definition toy_merkle : MerkleTree := ret_or (mkMerkleTree 0 []) (new_with_depth toy_leaves 3).

(** The proof of leaf 2, checked against the tree. *)
Lemma merkle_proof_binding_witness : ∃ root p,
  merkle_proof toy_merkle 2 = Ret p ∧ compute_root p (toy_hash [Byte.x03]) = Some root ∧
  ((∃ l, toy_leaves !! 2%nat = Some l ∧ hash_to_merkle (toy_hash [Byte.x03]) = hash_to_merkle l) ∨
   (toy_leaves !! 2%nat = None ∧ hash_to_merkle (toy_hash [Byte.x03]) = MerkleHash_default) ∨
   ∃ a b, find_collision toy_merkle (reverse (siblings p)) (hash_to_merkle (toy_hash [Byte.x03])) (tree_leaf_idx p)
            = Some (a, b) ∧ a ≠ b ∧ hash_to_merkle (hash_of a) = hash_to_merkle (hash_of b)).
Proof.
  set (p := ret_or (mkMerkleProof 0 []) (merkle_proof toy_merkle 2)).
  exists (ret_or [] (merkle_root toy_merkle)), p. split; [vm_compute; reflexivity|]. split; [vm_compute; reflexivity|].
  apply (merkle_proof_binding toy_leaves 3 toy_merkle (ret_or [] (merkle_root toy_merkle)) (siblings p) 2 p (toy_hash [Byte.x03])).
  - split; reflexivity || discriminate.
  - repeat constructor.
  - reflexivity.
  - vm_compute. repeat constructor.
  - vm_compute. reflexivity.
  - vm_compute. reflexivity.
  - vm_compute. reflexivity.
  - vm_compute. reflexivity.
  - vm_compute. reflexivity.
Defined.
End merkle_witnesses.
