(* ===== verification/ReplayFilter.v ===== *)
(** * The replay filter (monad-wireauth/src/session/replay_filter.rs)

    A session accepts every message counter at most once. The filter keeps
    the next expected counter and a bitmap of 128 words for the counters of
    the window below it. *)
From S2P Require Import Prelude.

Definition REPLAY_WINDOW_SIZE : nat := 128.
Definition REPLAY_WINDOW_BITS : N := 8192.

Record ReplayFilter := mkReplayFilter { rf_next : N; rf_bitmap : list N }.

(** The two replay errors of [SessionError]. *)
Inductive SessionError :=
| NonceOutsideWindow (counter next : N)
| NonceDuplicate (counter : N).

Definition replay_filter_new : ReplayFilter := mkReplayFilter 0 (replicate REPLAY_WINDOW_SIZE 0).

Definition bit_idx (counter : N) : N := counter `mod` REPLAY_WINDOW_BITS.
Definition word_of (counter : N) : nat := N.to_nat (bit_idx counter / 64).
Definition bit_of (counter : N) : N := bit_idx counter `mod` 64.

(** Indexing the array panics out of range. *)
Definition rf_is_set (f : ReplayFilter) (counter : N) : outcome bool :=
  word ← expect (rf_bitmap f !! word_of counter);
  Ret (bool_decide (N.land (N.shiftr word (bit_of counter)) 1 = 1)).

Definition rf_set (f : ReplayFilter) (counter : N) : outcome ReplayFilter :=
  word ← expect (rf_bitmap f !! word_of counter);
  Ret {| f with rf_bitmap := <[word_of counter := N.lor word (N.shiftl 1 (bit_of counter))]> (rf_bitmap f) |}.

(** [!x] of a 64-bit word. *)
Definition not64 (x : N) : N := N.lxor x u64_MAX.
Definition rf_clear (f : ReplayFilter) (counter : N) : outcome ReplayFilter :=
  word ← expect (rf_bitmap f !! word_of counter);
  Ret {| f with rf_bitmap := <[word_of counter := N.land word (not64 (N.shiftl 1 (bit_of counter)))]> (rf_bitmap f) |}.

Definition rf_check (f : ReplayFilter) (counter : N) : outcome (result SessionError unit) :=
  if bool_decide (rf_next f ≤ counter) then Ret (Ok tt) else
  if bool_decide (saturating_add u64_MAX counter REPLAY_WINDOW_BITS ≤ rf_next f)
  then Ret (Err (NonceOutsideWindow counter (rf_next f))) else
  duplicate ← rf_is_set f counter;
  Ret (if duplicate : bool then Err (NonceDuplicate counter) else Ok tt).

(** [(self.next..counter).for_each(clear)], over [n] counters from [i]. *)
Fixpoint clear_range (f : ReplayFilter) (i : N) (n : nat) : outcome ReplayFilter :=
  match n with
  | O => Ret f
  | S n => f ← rf_clear f i; clear_range f (i + 1) n
  end.

Definition rf_update (f : ReplayFilter) (counter : N) : outcome ReplayFilter :=
  f ← (if bool_decide (rf_next f ≤ counter) then
         let gap := saturating_sub counter (rf_next f) in
         f' ← (if bool_decide (REPLAY_WINDOW_BITS ≤ gap)
               then Ret {| f with rf_bitmap := replicate REPLAY_WINDOW_SIZE 0 |}
               else clear_range f (rf_next f) (N.to_nat gap));
         Ret {| f' with rf_next := saturating_add u64_MAX counter 1 |}
       else Ret f);
  rf_set f counter.

(** [TransportState::decrypt]: the counter is recorded only if the message
    authenticates. Gives the filter and whether the message is accepted. *)
Definition rf_receive (f : ReplayFilter) (counter : N) (mac_ok : bool) : outcome (ReplayFilter * bool) :=
  verdict ← rf_check f counter;
  match verdict with
  | Err _ => Ret (f, false)
  | Ok _ => if mac_ok then f ← rf_update f counter; Ret (f, true) else Ret (f, false)
  end.

(** The counters accepted from a sequence of packets, the last one first. *)
Fixpoint rf_run (f : ReplayFilter) (accepted : list N) (packets : list (N * bool)) : outcome (ReplayFilter * list N) :=
  match packets with
  | [] => Ret (f, accepted)
  | (counter, mac_ok) :: packets =>
      '(f, ok) ← rf_receive f counter mac_ok;
      rf_run f (if ok : bool then counter :: accepted else accepted) packets
  end.

(** ** The bitmap as a set of positions *)

Definition bit_at (f : ReplayFilter) (p : N) : bool := N.testbit (rf_bitmap f !!! N.to_nat (p / 64)) (p `mod` 64).
Definition rf_wf (f : ReplayFilter) : Prop := length (rf_bitmap f) = REPLAY_WINDOW_SIZE.

Lemma bit_idx_lt c : bit_idx c < REPLAY_WINDOW_BITS.
Proof. unfold bit_idx. by apply N.mod_lt. Qed.

Lemma word_of_lookup f c : rf_wf f → rf_bitmap f !! word_of c = Some (rf_bitmap f !!! word_of c).
Proof.
  intros Hf. apply list_lookup_lookup_total_lt. rewrite Hf. pose proof (bit_idx_lt c).
  unfold word_of, REPLAY_WINDOW_SIZE, REPLAY_WINDOW_BITS in *.
  assert (bit_idx c / 64 < 128) by (apply N.Div0.div_lt_upper_bound; lia). lia.
Qed.

Lemma rf_is_set_spec f c : rf_wf f → rf_is_set f c = Ret (bit_at f (bit_idx c)).
Proof.
  intros Hf. unfold rf_is_set. rewrite word_of_lookup by done. cbn [expect mbind outcome_bind]. f_equal.
  unfold bit_at, word_of, bit_of. rewrite N.testbit_odd. set (x := N.shiftr _ _).
  assert (N.land x 1 = N.b2n (N.odd x)) as Hx.
  { change 1 with (N.ones 1). rewrite N.land_ones, <- N.bit0_odd, N.bit0_mod. done. }
  rewrite Hx. by destruct (N.odd x).
Qed.

(** A position is a word and a bit in it. *)
Lemma same_position c p : p / 64 = bit_idx c / 64 ∧ p `mod` 64 = bit_idx c `mod` 64 ↔ p = bit_idx c.
Proof. split; [intros []|by intros ->]. pose proof (N.div_mod p 64). pose proof (N.div_mod (bit_idx c) 64). lia. Qed.

(** Replacing the word of [c] by one that differs in the bit of [c] only. *)
Lemma bit_at_insert f c w' b p : rf_wf f →
  (∀ j, j < 64 → N.testbit w' j = if bool_decide (j = bit_of c) then b else N.testbit (rf_bitmap f !!! word_of c) j) →
  bit_at {| f with rf_bitmap := <[word_of c := w']> (rf_bitmap f) |} p =
    if bool_decide (p = bit_idx c) then b else bit_at f p.
Proof.
  intros Hf Hw. unfold bit_at. simpl. destruct (decide (p / 64 = bit_idx c / 64)) as [Heq|Hne].
  - rewrite Heq. change (N.to_nat (bit_idx c / 64)) with (word_of c). rewrite list_lookup_total_insert_eq.
    2:{ apply lookup_lt_is_Some. rewrite (word_of_lookup f c) by done. eauto. }
    rewrite Hw by (by apply N.mod_lt). unfold bit_of, word_of. pose proof (same_position c p).
    destruct (decide (p = bit_idx c)) as [->|Hp]; [by rewrite !bool_decide_eq_true_2|].
    by rewrite !bool_decide_eq_false_2 by tauto.
  - rewrite list_lookup_total_insert_ne by (unfold word_of; lia).
    rewrite bool_decide_eq_false_2; [done|]. by intros ->.
Qed.

Lemma rf_set_spec f c : rf_wf f → ∃ f', rf_set f c = Ret f' ∧ rf_wf f' ∧ rf_next f' = rf_next f ∧
  ∀ p, bit_at f' p = if bool_decide (p = bit_idx c) then true else bit_at f p.
Proof.
  intros Hf. unfold rf_set. rewrite word_of_lookup by done. eexists. split; [done|].
  split; [unfold rf_wf; simpl; by rewrite length_insert|]. split; [done|]. intros p. apply bit_at_insert; [done|].
  intros j Hj. rewrite N.lor_spec. rewrite N.shiftl_1_l, N.pow2_bits_eqb.
  case_bool_decide as H; [rewrite H, N.eqb_refl; apply orb_true_r|].
  rewrite (proj2 (N.eqb_neq _ _)) by congruence. apply orb_false_r.
Qed.

Lemma rf_clear_spec f c : rf_wf f → ∃ f', rf_clear f c = Ret f' ∧ rf_wf f' ∧ rf_next f' = rf_next f ∧
  ∀ p, bit_at f' p = if bool_decide (p = bit_idx c) then false else bit_at f p.
Proof.
  intros Hf. unfold rf_clear. rewrite word_of_lookup by done. eexists. split; [done|].
  split; [unfold rf_wf; simpl; by rewrite length_insert|]. split; [done|]. intros p. apply bit_at_insert; [done|].
  intros j Hj. unfold not64. rewrite N.land_spec, N.lxor_spec. rewrite N.shiftl_1_l, N.pow2_bits_eqb.
  change u64_MAX with (N.ones 64). rewrite N.ones_spec_low by done.
  case_bool_decide as H; [rewrite H, N.eqb_refl; apply andb_false_r|].
  rewrite (proj2 (N.eqb_neq _ _)) by congruence. apply andb_true_r.
Qed.

Lemma clear_range_spec n f i : rf_wf f → ∃ f', clear_range f i n = Ret f' ∧ rf_wf f' ∧ rf_next f' = rf_next f ∧
  ∀ p, bit_at f' p = true ↔ bit_at f p = true ∧ ∀ j, i ≤ j < i + N.of_nat n → bit_idx j ≠ p.
Proof.
  revert f i. induction n as [|n IH]; intros f i Hf.
  { exists f. split_and!; [done|done|done|]. intros p. split; [|tauto]. intros ?. split; [done|]. lia. }
  destruct (rf_clear_spec f i Hf) as (f1 & H1 & Hf1 & Hn1 & Hb1).
  destruct (IH f1 (i + 1) Hf1) as (f2 & H2 & Hf2 & Hn2 & Hb2). exists f2. cbn [clear_range]. rewrite H1. simpl.
  split_and!; [done|done|congruence|]. intros p. rewrite Hb2, Hb1. split.
  - case_bool_decide as Hp; [by intros [? _]|]. intros [? Hj]. split; [done|]. intros j ?.
    destruct (decide (j = i)) as [->|]; [congruence|]. apply Hj. lia.
  - intros [? Hj]. rewrite bool_decide_eq_false_2; [split; [done|]; intros; apply Hj; lia|].
    intros ->. apply (Hj i); [lia|done].
Qed.

(** ** The filter against the set of accepted counters *)

Record rf_inv (f : ReplayFilter) (accepted : list N) : Prop := {
  ri_wf : rf_wf f;
  ri_next : rf_next f < u64_MAX;
  ri_below : ∀ c, c ∈ accepted → c < rf_next f;
  ri_last : rf_next f = 0 ∨ rf_next f - 1 ∈ accepted;
  ri_bits : ∀ c, c < rf_next f → rf_next f < c + REPLAY_WINDOW_BITS → bit_at f (bit_idx c) = true ↔ c ∈ accepted;
}.

(** Different counters of one window have different positions. *)
Lemma bit_idx_window a b : bit_idx a = bit_idx b → a < b + REPLAY_WINDOW_BITS → b < a + REPLAY_WINDOW_BITS → a = b.
Proof. unfold bit_idx, REPLAY_WINDOW_BITS. intros. divlia. Qed.

Lemma bit_at_zero f c : rf_bitmap f = replicate REPLAY_WINDOW_SIZE 0 → bit_at f (bit_idx c) = false.
Proof.
  intros Hf. unfold bit_at. rewrite Hf. rewrite lookup_total_replicate_2; [done|].
  pose proof (bit_idx_lt c). unfold REPLAY_WINDOW_SIZE, REPLAY_WINDOW_BITS in *.
  assert (bit_idx c / 64 < 128) by (apply N.Div0.div_lt_upper_bound; lia). lia.
Qed.

Lemma rf_inv_new : rf_inv replay_filter_new [].
Proof. split; simpl; [done|done|by intros c ?%elem_of_nil|by left|lia]. Qed.

(** The counters [check] lets through. *)
Definition fresh (accepted : list N) (c : N) : Prop :=
  c ∉ accepted ∧ ∀ a, a ∈ accepted → a + 1 < c + REPLAY_WINDOW_BITS.

Lemma rf_check_spec f accepted c : rf_inv f accepted → c ≤ u64_MAX → ∃ v, rf_check f c = Ret v ∧
  (v = Ok tt ↔ fresh accepted c) ∧
  (v = Err (NonceDuplicate c) ↔ c ∈ accepted ∧ rf_next f < c + REPLAY_WINDOW_BITS) ∧
  (v = Err (NonceOutsideWindow c (rf_next f)) ↔ c + REPLAY_WINDOW_BITS ≤ rf_next f).
Proof.
  intros [Hwf Hnext Hbelow Hlast Hbits] Hc. unfold rf_check, fresh.
  destruct (decide (rf_next f ≤ c)) as [Hge|Hlt].
  { rewrite bool_decide_eq_true_2 by done. exists (Ok tt). split; [done|].
    assert (c ∉ accepted) by (intros ?%Hbelow; lia). unfold REPLAY_WINDOW_BITS.
    split_and!; split; try done; try tauto; [|lia]. intros _. split; [done|]. intros a ?%Hbelow. lia. }
  rewrite (bool_decide_eq_false_2 (rf_next f ≤ c)) by done.
  destruct (decide (c + REPLAY_WINDOW_BITS ≤ rf_next f)) as [Hout|Hin].
  { rewrite bool_decide_eq_true_2 by (unfold saturating_add; lia). eexists. split; [done|].
    destruct Hlast as [?|Hlast]; [lia|].
    split_and!; split; try done; [|intros [? ?]; lia]. intros [_ Hw]. apply Hw in Hlast. lia. }
  rewrite (bool_decide_eq_false_2 (saturating_add _ _ _ ≤ _)).
  2:{ unfold saturating_add. unfold u64_MAX in *. lia. }
  rewrite rf_is_set_spec by done. cbn [mbind outcome_bind]. specialize (Hbits c ltac:(lia) ltac:(lia)).
  eexists. split; [done|]. destruct (bit_at f (bit_idx c)).
  - assert (c ∈ accepted) by (by apply Hbits). split_and!; split; try done; try tauto; intros; try lia.
    split; [done|lia].
  - assert (c ∉ accepted) by (by intros ?%Hbits). split_and!; split; try done; try tauto; intros; try lia.
    split; [done|]. intros a ?%Hbelow. lia.
Qed.

Lemma rf_update_spec f accepted c : rf_inv f accepted → c + 1 < u64_MAX → fresh accepted c →
  ∃ f', rf_update f c = Ret f' ∧ rf_inv f' (c :: accepted).
Proof.
  intros [Hwf Hnext Hbelow Hlast Hbits] Hc [Hnew Hwin]. unfold rf_update, saturating_add, saturating_sub.
  destruct (decide (rf_next f ≤ c)) as [Hge|Hlt].
  - rewrite (bool_decide_eq_true_2 (rf_next f ≤ c)) by done.
    enough (∃ f', (if bool_decide (REPLAY_WINDOW_BITS ≤ c - rf_next f)
                   then Ret {| f with rf_bitmap := replicate REPLAY_WINDOW_SIZE 0 |}
                   else clear_range f (rf_next f) (N.to_nat (c - rf_next f))) = Ret f' ∧ rf_wf f' ∧
              ∀ d, d < c → c + 1 < d + REPLAY_WINDOW_BITS → bit_at f' (bit_idx d) = true ↔ d ∈ accepted)
      as (f1 & H1 & Hwf1 & Hb1).
    { destruct (rf_set_spec {| f1 with rf_next := N.min (c + 1) u64_MAX |} c Hwf1) as (f2 & H2 & Hwf2 & Hn2 & Hb2).
      exists f2. rewrite H1. cbn [mbind outcome_bind]. split; [exact H2|].
      replace (N.min (c + 1) u64_MAX) with (c + 1) in * by lia. simpl in Hn2. split; rewrite ?Hn2; [done|lia| | |].
      - intros d [->|?%Hbelow]%elem_of_cons; lia.
      - right. replace (c + 1 - 1) with c by lia. left.
      - intros d Hd Hdw. rewrite Hb2, elem_of_cons. decide_case (bit_idx d = bit_idx c) Hp.
        + apply bit_idx_window in Hp as ->; [naive_solver|lia..].
        + assert (d ≠ c) by congruence. change (bit_at _ (bit_idx d)) with (bit_at f1 (bit_idx d)).
          rewrite Hb1 by lia. naive_solver. }
    case_bool_decide as Hgap.
    + eexists. split; [done|]. split; [done|]. intros d Hd Hdw. rewrite bit_at_zero by done.
      split; [done|]. intros ?%Hbelow. lia.
    + destruct (clear_range_spec (N.to_nat (c - rf_next f)) f (rf_next f) Hwf) as (f1 & H1 & Hwf1 & _ & Hb1).
      exists f1. split; [done|]. split; [done|]. intros d Hd Hdw. rewrite Hb1.
      destruct (decide (d < rf_next f)) as [Hold|Hyoung].
      * rewrite Hbits by lia. split; [tauto|]. intros ?. split; [done|]. intros j Hj Heq.
        apply bit_idx_window in Heq; lia.
      * split; [intros [_ Hj]|by intros ?%Hbelow]. destruct (Hj d); [lia|done].
  - rewrite (bool_decide_eq_false_2 (rf_next f ≤ c)) by done. cbn [mbind outcome_bind].
    destruct (rf_set_spec f c Hwf) as (f2 & H2 & Hwf2 & Hn2 & Hb2). exists f2. split; [done|].
    split; rewrite ?Hn2; [done|done| | |].
    + intros d [->|?%Hbelow]%elem_of_cons; lia.
    + destruct Hlast as [?|?]; [by left|right; by right].
    + assert (rf_next f < c + REPLAY_WINDOW_BITS) as Hcw.
      { destruct Hlast as [?|Hl%Hwin]; [lia|]. lia. }
      intros d Hd Hdw. rewrite Hb2, elem_of_cons. decide_case (bit_idx d = bit_idx c) Hp.
      * apply bit_idx_window in Hp as ->; [naive_solver|lia..].
      * rewrite Hbits by lia. assert (d ≠ c) by congruence. naive_solver.
Qed.

Lemma rf_run_inv packets f accepted : rf_inv f accepted → NoDup accepted → Forall (λ p, p.1 + 1 < u64_MAX) packets →
  ∃ f' accepted', rf_run f accepted packets = Ret (f', accepted') ∧ rf_inv f' accepted' ∧ NoDup accepted'.
Proof.
  intros Hinv Hnd Hp. revert f accepted Hinv Hnd.
  induction Hp as [|[c mac] packets Hc _ IH]; intros f accepted Hinv Hnd; [by exists f, accepted|].
  cbn [rf_run rf_receive]. simpl in Hc. unfold rf_receive.
  destruct (rf_check_spec f accepted c Hinv) as (v & Hv & Hok & _); [lia|]. rewrite Hv. cbn [mbind outcome_bind].
  destruct v as [[]|e]; [|by apply IH]. destruct mac; [|by apply IH].
  assert (fresh accepted c) as Hfresh by (by apply Hok).
  destruct (rf_update_spec f accepted c Hinv Hc Hfresh) as (f' & Hf' & Hinv'). rewrite Hf'. cbn [mbind outcome_bind].
  apply IH; [done|]. constructor; [apply Hfresh|done].
Qed.

(** ** Properties *)


(** C34. The greatest counter is the exception: recording it leaves the expected
    counter at the same value, so that it is accepted again. *)
Theorem replay_of_greatest_counter f : rf_wf f → rf_next f ≤ u64_MAX →
  ∃ f', rf_receive f u64_MAX true = Ret (f', true) ∧ rf_check f' u64_MAX = Ret (Ok tt).
Proof.
  intros Hwf Hn. unfold rf_receive, rf_check at 1, rf_update, saturating_add, saturating_sub.
  rewrite (bool_decide_eq_true_2 (rf_next f ≤ u64_MAX)) by done. cbn [mbind outcome_bind].
  enough (∃ f1, (if bool_decide (REPLAY_WINDOW_BITS ≤ u64_MAX - rf_next f)
                 then Ret {| f with rf_bitmap := replicate REPLAY_WINDOW_SIZE 0 |}
                 else clear_range f (rf_next f) (N.to_nat (u64_MAX - rf_next f))) = Ret f1 ∧ rf_wf f1) as (f1 & H1 & Hwf1).
  { rewrite H1. cbn [mbind outcome_bind].
    destruct (rf_set_spec {| f1 with rf_next := N.min (u64_MAX + 1) u64_MAX |} u64_MAX Hwf1) as (f2 & H2 & _ & Hn2 & _).
    rewrite H2. exists f2. split; [done|]. unfold rf_check. rewrite Hn2. by rewrite bool_decide_eq_true_2 by (simpl; lia). }
  case_bool_decide; [by eexists|].
  destruct (clear_range_spec (N.to_nat (u64_MAX - rf_next f)) f (rf_next f) Hwf) as (f1 & ? & ? & _). eauto.
Qed.


Lemma replay_of_greatest_counter_witness :
  ∃ f', rf_receive replay_filter_new u64_MAX true = Ret (f', true) ∧ rf_check f' u64_MAX = Ret (Ok tt).
Proof. apply replay_of_greatest_counter; [reflexivity|discriminate]. Defined.
