(* ===== verification/HandshakeFilter.v ===== *)
(** * The handshake filter (monad-wireauth/src/filter.rs)

    Decides for each handshake of a remote address whether it is processed,
    answered with a cookie or dropped: by the number of sessions, by budgets
    per reset interval, and by the time of the address's last handshake, kept
    in a bounded cache. Durations are in nanoseconds. *)
From S2P Require Import Prelude.

Inductive FilterAction := FaPass | FaSendCookie | FaDrop.
#[global] Instance FilterAction_eq_dec : EqDecision FilterAction.
Proof. solve_decision. Defined.

(** The operations of the crate [lru] that are used: [get_mut] (which marks the
    entry as recently used) and [put]. *)
Class IpCache := {
  IpAddr : Type;
  IpHistory : Type;
  ip_history_new : N → IpHistory;
  ip_get : IpHistory → IpAddr → option N * IpHistory;
  ip_set : IpHistory → IpAddr → N → IpHistory;
  ip_put : IpHistory → IpAddr → N → IpHistory;
}.

Section filter.
Context `{IC : IpCache}.

Record Filter := mkFilter {
  cookie_unverified_counter : N;
  cookie_verified_counter : N;
  last_reset : N;
  handshake_cookie_unverified_rate_limit : N;
  handshake_cookie_verified_rate_limit : N;
  handshake_rate_reset_interval : N;
  ip_request_history : IpHistory;
  ip_rate_limit_window : N;
  max_sessions_per_ip : N;
  low_watermark_sessions : N;
  high_watermark_sessions : N;
}.

Definition filter_new (unverified_limit verified_limit reset_interval window capacity max_per_ip low high : N)
    : outcome Filter :=
  _ ← rust_assert (bool_decide (capacity ≠ 0));
  Ret (mkFilter 0 0 0 unverified_limit verified_limit reset_interval (ip_history_new capacity) window max_per_ip low high).

Definition filter_tick (f : Filter) (duration_since_start : N) : Filter :=
  if bool_decide (handshake_rate_reset_interval f ≤ saturating_sub duration_since_start (last_reset f))
  then {| f with cookie_unverified_counter := 0; cookie_verified_counter := 0; last_reset := duration_since_start |}
  else f.

Definition next_reset_time (f : Filter) : N := last_reset f + handshake_rate_reset_interval f.

Definition check_high_watermark (f : Filter) (total_sessions : N) : option FilterAction :=
  if bool_decide (high_watermark_sessions f ≤ total_sessions) then Some FaDrop else None.

Definition check_cookie_rate_limit (f : Filter) (cookie_valid : bool) : Filter * option FilterAction :=
  if cookie_valid then
    if bool_decide (handshake_cookie_verified_rate_limit f ≤ cookie_verified_counter f) then (f, Some FaDrop)
    else ({| f with cookie_verified_counter := cookie_verified_counter f + 1 |}, None)
  else
    if bool_decide (handshake_cookie_unverified_rate_limit f ≤ cookie_unverified_counter f) then
      if bool_decide (cookie_verified_counter f < handshake_cookie_verified_rate_limit f)
      then (f, Some FaSendCookie) else (f, Some FaDrop)
    else ({| f with cookie_unverified_counter := cookie_unverified_counter f + 1 |}, None).

Definition check_low_watermark (f : Filter) (total_sessions : N) : option FilterAction :=
  if bool_decide (total_sessions < low_watermark_sessions f) then Some FaPass else None.

Definition check_cookie_validity (cookie_valid : bool) : option FilterAction :=
  if cookie_valid then None else Some FaSendCookie.

Definition check_ip_rate_limit (f : Filter) (ip : IpAddr) (duration_since_start : N) : Filter * option FilterAction :=
  let window_start := saturating_sub duration_since_start (ip_rate_limit_window f) in
  let '(entry, history) := ip_get (ip_request_history f) ip in
  let f := {| f with ip_request_history := history |} in
  match entry with
  | Some last_time =>
      if bool_decide (window_start ≤ last_time) then (f, Some FaDrop)
      else ({| f with ip_request_history := ip_set history ip duration_since_start |}, None)
  | None => ({| f with ip_request_history := ip_put history ip duration_since_start |}, None)
  end.

Definition check_max_sessions_per_ip (f : Filter) (ip_session_count : N) : option FilterAction :=
  if bool_decide (max_sessions_per_ip f ≤ ip_session_count) then Some FaDrop else None.

(** [Option::or_else] over the checks. The state of the sessions enters by
    [total_sessions] and by the number of sessions of the address. *)
Definition filter_apply (f : Filter) (total_sessions ip_session_count : N) (ip : IpAddr) (duration_since_start : N)
    (cookie_valid : bool) : Filter * FilterAction :=
  match check_high_watermark f total_sessions with
  | Some a => (f, a)
  | None =>
      let '(f, a) := check_cookie_rate_limit f cookie_valid in
      match a with
      | Some a => (f, a)
      | None =>
          match check_low_watermark f total_sessions with
          | Some a => (f, a)
          | None =>
              match check_cookie_validity cookie_valid with
              | Some a => (f, a)
              | None =>
                  let '(f, a) := check_ip_rate_limit f ip duration_since_start in
                  match a with
                  | Some a => (f, a)
                  | None => (f, default FaPass (check_max_sessions_per_ip f ip_session_count))
                  end
              end
          end
      end
  end.
End filter.

(** ** Budgets *)

Section filter_run.
Context `{IC : IpCache}.

Record handshake := mkHandshake {
  hs_total_sessions : N; hs_ip_sessions : N; hs_ip : IpAddr; hs_time : N; hs_cookie : bool;
}.

(** The handshakes of one reset interval, each with the decision. *)
Fixpoint filter_run (f : Filter) (hs : list handshake) : Filter * list (handshake * FilterAction) :=
  match hs with
  | [] => (f, [])
  | h :: hs =>
      let '(f, a) := filter_apply f (hs_total_sessions h) (hs_ip_sessions h) (hs_ip h) (hs_time h) (hs_cookie h) in
      let '(f, l) := filter_run f hs in
      (f, (h, a) :: l)
  end.

Definition passed (cookie : bool) (x : handshake * FilterAction) : Prop := hs_cookie x.1 = cookie ∧ x.2 = FaPass.
#[global] Instance passed_dec cookie x : Decision (passed cookie x).
Proof. unfold passed. apply _. Defined.
Definition num_passed (cookie : bool) (l : list (handshake * FilterAction)) : N :=
  N.of_nat (length (filter (passed cookie) l)).

(** What is left of the budgets. *)
Definition budget (cookie : bool) (f : Filter) : N :=
  if cookie then handshake_cookie_verified_rate_limit f - cookie_verified_counter f
  else handshake_cookie_unverified_rate_limit f - cookie_unverified_counter f.

Definition same_config (f f' : Filter) : Prop :=
  low_watermark_sessions f' = low_watermark_sessions f ∧ high_watermark_sessions f' = high_watermark_sessions f.

Lemma ip_rate_limit_keeps f ip t f' a : check_ip_rate_limit f ip t = (f', a) →
  same_config f f' ∧ (∀ b, budget b f' = budget b f) ∧ (a = None ∨ a = Some FaDrop).
Proof.
  unfold check_ip_rate_limit. destruct (ip_get _ _) as [entry h].
  destruct entry as [last|]; [case_bool_decide|]; intros [= <- <-]; (split; [done|split; [by intros []|auto]]).
Qed.

Lemma cookie_limit_keeps f cookie f' a : check_cookie_rate_limit f cookie = (f', a) →
  same_config f f' ∧ a ≠ Some FaPass ∧ (∀ b, budget b f' ≤ budget b f) ∧
  (a = None → budget cookie f' + 1 ≤ budget cookie f).
Proof.
  unfold check_cookie_rate_limit, same_config.
  destruct cookie; repeat case_bool_decide; intros [= <- <-]; split_and!; try done;
    try (intros []; unfold budget; simpl; lia); unfold budget; simpl; lia.
Qed.

Lemma filter_apply_spec f total ips ip t cookie f' a : filter_apply f total ips ip t cookie = (f', a) →
  same_config f f' ∧ (∀ b, budget b f' ≤ budget b f) ∧
  (a = FaPass → budget cookie f' + 1 ≤ budget cookie f ∧ total < high_watermark_sessions f ∧
     (cookie = true ∨ total < low_watermark_sessions f)).
Proof.
  unfold filter_apply, check_high_watermark, check_low_watermark, check_cookie_validity.
  case_bool_decide as Hhigh; [by intros [= <- <-]|].
  destruct (check_cookie_rate_limit f cookie) as [f1 a1] eqn:H1.
  apply cookie_limit_keeps in H1 as ([Hl Hh] & Hnp & Hb & Hdec).
  destruct a1 as [a1|]; [intros [= <- <-]; split_and!; [done|done|congruence]|].
  specialize (Hdec eq_refl). rewrite Hl. case_bool_decide as Hlow.
  { intros [= <- <-]. split; [by split|]. split; [done|]. intros _. split_and!; [lia|lia|by right]. }
  destruct cookie; [|by intros [= <- <-]].
  destruct (check_ip_rate_limit f1 ip t) as [f2 a2] eqn:H2.
  apply ip_rate_limit_keeps in H2 as ([Hl2 Hh2] & Hb2 & Ha2).
  assert (same_config f f2 ∧ (∀ b, budget b f2 ≤ budget b f) ∧ budget true f2 + 1 ≤ budget true f) as (? & ? & ?).
  { unfold same_config. rewrite Hl2, Hh2, Hl, Hh.
    split; [by split|]. split; [intros b|]; rewrite Hb2; [apply Hb|lia]. }
  destruct a2 as [a2|].
  - intros [= <- <-]. destruct Ha2 as [?|[= ->]]; [done|]. split; [done|]. by split.
  - intros [= <- <-]. split_and!; [done|done|]. intros _. split_and!; [lia|lia|by left].
Qed.

(** C36. Between two resets, the handshakes that pass stay within the budgets, with
    and without a valid cookie; none passes at the high watermark of sessions,
    and from the low watermark on only those with a valid cookie do. *)
Theorem handshakes_within_budget f hs f' l : filter_run f hs = (f', l) →
  (∀ cookie, num_passed cookie l + budget cookie f' ≤ budget cookie f) ∧
  Forall (λ x, x.2 = FaPass → hs_total_sessions x.1 < high_watermark_sessions f ∧
    (hs_cookie x.1 = true ∨ hs_total_sessions x.1 < low_watermark_sessions f)) l.
Proof.
  revert f l. induction hs as [|h hs IH]; intros f l; cbn [filter_run].
  { intros [= <- <-]. split; [|done]. intros c. unfold num_passed. simpl. lia. }
  destruct (filter_apply f _ _ _ _ _) as [f1 a] eqn:H1. destruct (filter_run f1 hs) as [f2 l2] eqn:H2. intros [= <- <-].
  apply filter_apply_spec in H1 as ([Hl Hh] & Hb & Hpass). apply IH in H2 as [Hnum Hall]. rewrite Hl, Hh in Hall.
  split.
  - intros c. specialize (Hnum c). specialize (Hb c). unfold num_passed in *. rewrite filter_cons.
    destruct (decide (passed c (h, a))) as [[Hc Ha]|_]; [|lia]. simpl in *. subst. cbn [length].
    destruct (Hpass eq_refl) as [? _]. lia.
  - constructor; [|done]. simpl. intros Ha. apply Hpass in Ha. tauto.
Qed.
End filter_run.

Section filter_witness.

(** The history as a list, the newest entry first. *)
#[local] Instance toy_ip_cache : IpCache := {|
  IpAddr := N;
  IpHistory := N * list (N * N);
  ip_history_new := λ cap, (cap, []);
  ip_get := λ h ip, (snd <$> List.find (λ e, N.eqb e.1 ip) h.2, h);
  ip_set := λ h ip t, (h.1, (ip, t) :: filter (λ e, e.1 ≠ ip) h.2);
  ip_put := λ h ip t, (h.1, take (N.to_nat h.1) ((ip, t) :: h.2));
|}.

Definition toy_filter : Filter := ret_or (mkFilter 0 0 0 0 0 0 (0, []) 0 0 0 0) (filter_new 1 1 10 5 8 2 2 4).
Definition toy_handshakes : list handshake :=
  [mkHandshake 0 0 (7 : IpAddr) 1 false; mkHandshake 1 0 (7 : IpAddr) 1 false; mkHandshake 3 0 (8 : IpAddr) 2 true;
   mkHandshake 3 0 (8 : IpAddr) 3 true; mkHandshake 4 0 (9 : IpAddr) 4 true].

Lemma handshakes_within_budget_witness :
  (filter_run toy_filter toy_handshakes).2.*2 = [FaPass; FaSendCookie; FaPass; FaDrop; FaDrop] ∧
  num_passed true (filter_run toy_filter toy_handshakes).2 + budget true (filter_run toy_filter toy_handshakes).1 ≤ 1.
Proof.
  split; [reflexivity|].
  apply (proj1 (handshakes_within_budget toy_filter toy_handshakes _ _ (surjective_pairing _)) true).
Defined.
End filter_witness.
