(* ===== verification/DynamicCap.v ===== *)
(** * Double-precision numbers

    Rust's [f64] as the binary64 numbers of the Standard Library's [SpecFloat]:
    arithmetic rounded to nearest even, comparisons that are false on NaN, the
    saturating casts to and from integers, [clamp] and [ceil]. *)
From Stdlib Require Import Floats.SpecFloat.
From S2P Require Import Prelude.

Definition f64 : Type := spec_float.
Definition f64_prec : Z := 53.
Definition f64_emax : Z := 1024.
Definition f64_add : f64 → f64 → f64 := SFadd f64_prec f64_emax.
Definition f64_sub : f64 → f64 → f64 := SFsub f64_prec f64_emax.
Definition f64_mul : f64 → f64 → f64 := SFmul f64_prec f64_emax.
Definition f64_div : f64 → f64 → f64 := SFdiv f64_prec f64_emax.
Definition f64_lt (x y : f64) : bool := SFltb x y.
Definition f64_le (x y : f64) : bool := SFleb x y.
Definition f64_zero : f64 := S754_zero false.
(** [n as f64]. *)
Definition f64_of_N (n : N) : f64 := binary_normalize f64_prec f64_emax (Z.of_N n) 0 false.
Definition f64_one : f64 := f64_of_N 1.
(** The literal for [a / b]: a literal is the double nearest to its value. *)
Definition f64_literal (a b : N) : f64 := f64_div (f64_of_N a) (f64_of_N b).
Definition is_finite (x : f64) : bool :=
  match x with S754_zero _ | S754_finite _ _ _ => true | _ => false end.
Definition is_nan (x : f64) : bool := match x with S754_nan => true | _ => false end.

(** [f64::clamp], for bounds in order. *)
Definition f64_clamp (x lo hi : f64) : f64 :=
  let x := if f64_lt x lo then lo else x in
  if f64_lt hi x then hi else x.

(** [f64::max] and [f64::min], which drop a NaN argument. *)
Definition f64_max (x y : f64) : f64 := if is_nan x then y else if is_nan y then x else if f64_lt x y then y else x.
Definition f64_min (x y : f64) : f64 := if is_nan x then y else if is_nan y then x else if f64_lt y x then y else x.

(** [f64::ceil]: a number with a negative exponent is rounded up to an integer. *)
Definition f64_ceil (x : f64) : f64 :=
  match x with
  | S754_finite s m (Z.neg d) =>
      let z := Z.opp (cond_Zopp (negb s) (Z.pos m) / 2 ^ Z.pos d) in
      binary_normalize f64_prec f64_emax z 0 s
  | _ => x
  end.

(** [x as u64] and [x as usize]: truncated towards zero and saturated; NaN gives 0. *)
Definition f64_as_u64 (x : f64) : N :=
  match x with
  | S754_infinity false => u64_MAX
  | S754_finite false m e => N.min (Z.to_N (Z.shiftl (Z.pos m) e)) u64_MAX
  | _ => 0
  end.

(** ** Comparisons *)

Lemma SFcompare_swap x y : SFcompare y x = CompOpp <$> SFcompare x y.
Proof.
  assert (∀ m n, Pos.compare_cont Eq n m = CompOpp (Pos.compare_cont Eq m n)) as Hp.
  { intros m n. apply (Pos.compare_antisym m n). }
  destruct x as [sx|sx| |sx m e], y as [sy|sy| |sy n f]; try done; try by destruct sx.
  all: try by destruct sy.
  all: try by destruct sx, sy.
  simpl. rewrite (Z.compare_antisym e f), (Hp m n). destruct sx, sy; try done; by destruct (e ?= f)%Z, (Pos.compare_cont Eq m n).
Qed.

Lemma f64_le_not_lt x y : is_nan x = false → is_nan y = false → f64_lt y x = false → f64_le x y = true.
Proof.
  intros Hx Hy. unfold f64_lt, f64_le, SFltb, SFleb. rewrite (SFcompare_swap x y).
  destruct (SFcompare x y) as [[]|] eqn:Hc; simpl; try done. exfalso.
  destruct x, y; try done; by destruct s, s0.
Qed.

Lemma f64_clamp_range x lo hi : is_nan x = false → is_nan lo = false → is_nan hi = false → f64_le lo hi = true →
  f64_le lo (f64_clamp x lo hi) = true ∧ f64_le (f64_clamp x lo hi) hi = true.
Proof.
  intros Hx Hlo Hhi Hle. unfold f64_clamp.
  assert (∀ y, is_nan y = false → f64_lt y y = false) as Hirr.
  { intros y Hy. unfold f64_lt, SFltb. destruct y as [|[]| |[] m e]; try done; simpl;
      by rewrite Z.compare_refl, (Pos.compare_refl m : Pos.compare_cont Eq m m = Eq). }
  assert (f64_lt hi lo = false) as Hhl.
  { unfold f64_le, f64_lt, SFleb, SFltb in *. rewrite (SFcompare_swap lo hi).
    by destruct (SFcompare lo hi) as [[]|]. }
  destruct (f64_lt x lo) eqn:Hxl; [rewrite Hhl|destruct (f64_lt hi x) eqn:Hhx];
    split; try done; apply f64_le_not_lt; auto.
Qed.

(** ** Sums of finite numbers are numbers *)

Lemma shr_nonneg mrs e n : (0 ≤ shr_m mrs)%Z → (0 ≤ shr_m (shr mrs e n).1)%Z.
Proof.
  intros H. destruct n as [|p|p]; [done| |done]. unfold shr. simpl fst. revert mrs H.
  induction p as [p IH|p IH|]; intros mrs H; simpl; [apply IH, IH| apply IH, IH|].
  1: destruct mrs as [[|[]|] r s]; simpl in *; lia.
  1: done.
  destruct mrs as [[|[]|] r s]; simpl in *; lia.
Qed.

Lemma shr_fexp_nonneg m e l : (0 ≤ m)%Z → (0 ≤ shr_m (shr_fexp f64_prec f64_emax m e l).1)%Z.
Proof. intros H. unfold shr_fexp. apply shr_nonneg. by destruct l as [|[]]. Qed.

Lemma binary_round_aux_not_nan s m e l : (0 ≤ m)%Z → is_nan (binary_round_aux f64_prec f64_emax s m e l) = false.
Proof.
  intros H. unfold binary_round_aux. pose proof (shr_fexp_nonneg m e l H) as H1.
  destruct (shr_fexp _ _ m e l) as [mrs e1]. simpl in H1.
  assert (0 ≤ round_nearest_even (shr_m mrs) (loc_of_shr_record mrs))%Z as H2.
  { unfold round_nearest_even. destruct (loc_of_shr_record mrs) as [|[]]; try destruct (Z.even _); lia. }
  pose proof (shr_fexp_nonneg _ e1 loc_Exact H2) as H3. destruct (shr_fexp _ _ _ e1 loc_Exact) as [mrs2 e2].
  simpl in H3. destruct (shr_m mrs2); [done| |lia]. by destruct (e2 <=? _)%Z.
Qed.

Lemma binary_normalize_not_nan m e s : is_nan (binary_normalize f64_prec f64_emax m e s) = false.
Proof.
  destruct m as [|m|m]; [done|..]; simpl; unfold binary_round; destruct (shl_align _ _ _);
    by apply binary_round_aux_not_nan.
Qed.

Lemma f64_add_not_nan x y : is_finite x = true → is_finite y = true → is_nan (f64_add x y) = false.
Proof.
  intros Hx Hy. destruct x as [[]| | |sx m e], y as [[]| | |sy n f]; try done. apply binary_normalize_not_nan.
Qed.

(** * Dynamic caps

    monad-dynamic-cap: the limit on the items of one identity in a shared pool.
    Without pressure the limit is the configured one; under pressure, which is
    entered and left at two different occupancies, an identity has a small
    bootstrap allowance and a bonus in proportion to the share of the service
    it recently received, an average that decays with every service. *)

Section dynamic_cap.
(** [f64::powf], whose precision the standard library leaves open. *)
Context (powf : f64 → f64 → f64).

Record DynamicCapConfig := mkDynamicCapConfig {
  enter_pressure : f64;
  exit_pressure : f64;
  bootstrap_limit : N;
  ema_alpha : f64;
}.

Definition DEFAULT_ENTER_PRESSURE : f64 := f64_literal 80 100.
Definition DEFAULT_EXIT_PRESSURE : f64 := f64_literal 60 100.
Definition DEFAULT_EMA_ALPHA : f64 := f64_literal 10 100.

Definition decay_base (cfg : DynamicCapConfig) : f64 := f64_sub f64_one (ema_alpha cfg).

Definition in_unit (x : f64) : bool := f64_le f64_zero x && f64_le x f64_one.

Definition cap_config_validate (cfg : DynamicCapConfig) : outcome unit :=
  _ ← rust_assert (is_finite (enter_pressure cfg) && in_unit (enter_pressure cfg));
  _ ← rust_assert (is_finite (exit_pressure cfg) && in_unit (exit_pressure cfg));
  _ ← rust_assert (f64_le (exit_pressure cfg) (enter_pressure cfg));
  rust_assert (is_finite (ema_alpha cfg) && f64_lt f64_zero (ema_alpha cfg) && f64_le (ema_alpha cfg) f64_one).

(** The default configuration with a bootstrap limit. *)
Definition default_with_bootstrap (limit : N) : DynamicCapConfig :=
  mkDynamicCapConfig DEFAULT_ENTER_PRESSURE DEFAULT_EXIT_PRESSURE limit DEFAULT_EMA_ALPHA.

Record DynamicCapIdentity := mkDynamicCapIdentity { share_ema : f64; service_seq : N }.

Definition identity_new (current_service_seq : N) : DynamicCapIdentity := mkDynamicCapIdentity f64_zero current_service_seq.

Definition decayed_share (s : DynamicCapIdentity) (current_service_seq : N) (cfg : DynamicCapConfig)
    : DynamicCapIdentity * f64 :=
  let delta := saturating_sub current_service_seq (service_seq s) in
  let s := if bool_decide (0 < delta)
           then mkDynamicCapIdentity (f64_mul (share_ema s) (powf (decay_base cfg) (f64_of_N delta))) current_service_seq
           else s in
  let share := if is_finite (share_ema s) then f64_clamp (share_ema s) f64_zero f64_one else f64_zero in
  ({| s with share_ema := share |}, share).

Definition observe_service (s : DynamicCapIdentity) (current_service_seq : N) (cfg : DynamicCapConfig) : DynamicCapIdentity :=
  let '(s, _) := decayed_share s current_service_seq cfg in
  mkDynamicCapIdentity (f64_clamp (f64_add (share_ema s) (ema_alpha cfg)) f64_zero f64_one) current_service_seq.

Definition update_pressure_mode (currently_enforced : bool) (total_items max_size incoming_items : N) (cfg : DynamicCapConfig) : bool :=
  let occupancy :=
    if bool_decide (max_size = 0) then f64_one
    else f64_div (f64_of_N (saturating_add u64_MAX total_items incoming_items)) (f64_of_N max_size) in
  if currently_enforced then f64_lt (exit_pressure cfg) occupancy else f64_le (enter_pressure cfg) occupancy.

Definition effective_limit (pool_limit pool_max_size : N) (pressure_enforced : bool) (share : f64) (cfg : DynamicCapConfig) : N :=
  if negb pressure_enforced then pool_limit else
  if bool_decide (pool_limit = 0) then 0 else
  let bonus := f64_as_u64 (f64_ceil (f64_mul share (f64_of_N pool_max_size))) in
  let dynamic_limit := saturating_add u64_MAX (bootstrap_limit cfg) bonus in
  N.min (N.max dynamic_limit 1) pool_limit.

(** ** Laws *)

Lemma effective_limit_bounds pool_limit pool_max_size pressure share cfg :
  effective_limit pool_limit pool_max_size pressure share cfg ≤ pool_limit ∧
  N.min (N.max 1 (N.min (bootstrap_limit cfg) u64_MAX)) pool_limit ≤ effective_limit pool_limit pool_max_size pressure share cfg.
Proof.
  unfold effective_limit, saturating_add. destruct (negb _); [lia|]. destruct (bool_decide _) eqn:H0; [|lia].
  apply bool_decide_eq_true in H0. lia.
Qed.

(** ** The share is a proportion *)

Lemma unit_zero : in_unit f64_zero = true.
Proof. done. Qed.

Lemma clamp_unit x : is_nan x = false → in_unit (f64_clamp x f64_zero f64_one) = true.
Proof.
  intros Hx. unfold in_unit. destruct (f64_clamp_range x f64_zero f64_one) as [-> ->]; done.
Qed.

Lemma decayed_share_unit s n cfg : in_unit (share_ema (decayed_share s n cfg).1) = true.
Proof.
  unfold decayed_share. simpl. destruct (is_finite _) eqn:Hf; [|done]. apply clamp_unit. by destruct (share_ema _).
Qed.

Lemma unit_finite x : in_unit x = true → is_finite x = true.
Proof. by destruct x as [|[]| |]. Qed.

Lemma observe_service_unit s n cfg : is_finite (ema_alpha cfg) = true → in_unit (share_ema (observe_service s n cfg)) = true.
Proof.
  intros Hc. unfold observe_service. pose proof (decayed_share_unit s n cfg) as Hu. destruct (decayed_share _ _ _) as [t x].
  simpl in *. apply clamp_unit, f64_add_not_nan; [by apply unit_finite|done].
Qed.
End dynamic_cap.
