(* ===== verification/LeanUdp.v ===== *)
(** * Fragmentation and reassembly (monad-leanudp/src)

    Messages larger than a datagram are cut into at most 512 numbered
    fragments, the last one marked; the receiver collects the fragments of a
    message in a pool with bounded numbers of messages and bytes. The pool
    limits the messages of each sender by a policy (the trait
    [IdentityLimitPolicy]) and evicts outdated or random messages when it is
    full. Times are in nanoseconds. *)
From S2P Require Import Prelude.

Definition u16_max : N := 65535.

(** ** lib.rs: packet headers *)

Inductive FragmentType := FtStart | FtMiddle | FtEnd | FtComplete.

Definition END_FLAG : N := 1.
Definition KNOWN_FLAGS_MASK : N := END_FLAG.
Definition LEANUDP_PROTOCOL_VERSION : N := 1.
Definition LEANUDP_HEADER_SIZE : N := 6.

Record PacketHeader := mkPacketHeader { ph_version : N; ph_msg_id : N; ph_seq_num : N; ph_flags : N }.

Definition fragment_type_flags (t : FragmentType) : N :=
  match t with FtStart | FtMiddle => 0 | FtComplete | FtEnd => END_FLAG end.

Definition packet_header_new (msg_id seq_num : N) (t : FragmentType) : PacketHeader :=
  mkPacketHeader LEANUDP_PROTOCOL_VERSION msg_id seq_num (fragment_type_flags t).

Definition fragment_type (h : PacketHeader) : FragmentType :=
  let is_end := bool_decide (N.land (ph_flags h) END_FLAG ≠ 0) in
  if bool_decide (ph_seq_num h = 0) then if is_end then FtComplete else FtStart
  else if is_end then FtEnd else FtMiddle.

(** [!mask] of an 8-bit flag. *)
Definition has_known_flags (h : PacketHeader) : bool :=
  bool_decide (N.land (ph_flags h) (N.lxor KNOWN_FLAGS_MASK 255) = 0).

(** The bytes of the packed struct: [U16<LE>] has its low byte first. *)
Definition byte_of (n : N) : Byte.byte := default Byte.x00 (Byte.of_N (n `mod` 256)).
Definition u16_le (n : N) : list Byte.byte := [byte_of n; byte_of (n / 256)].
Definition packet_header_bytes (h : PacketHeader) : list Byte.byte :=
  byte_of (ph_version h) :: u16_le (ph_msg_id h) ++ u16_le (ph_seq_num h) ++ [byte_of (ph_flags h)].
Definition read_header (b : list Byte.byte) : option PacketHeader :=
  match b with
  | [v; i0; i1; s0; s1; f] =>
      Some (mkPacketHeader (Byte.to_N v) (Byte.to_N i0 + 256 * Byte.to_N i1) (Byte.to_N s0 + 256 * Byte.to_N s1) (Byte.to_N f))
  | _ => None
  end.

(** ** encoder.rs *)

Definition MAX_FRAGMENTS : N := 512.

Record Encoder := mkEncoder { en_max_fragment_payload : N; en_next_msg_id : N }.
Inductive EncodeError := PayloadTooLarge (payload_len fragment_count : N).

Definition encoder_new (max_fragment_payload : N) : Encoder :=
  mkEncoder (saturating_sub max_fragment_payload LEANUDP_HEADER_SIZE) 0.

Record FragmentIter := mkFragmentIter {
  fi_payload : list Byte.byte; fi_max_payload : N; fi_msg_id : N; fi_current : N; fi_count : N;
}.

Definition div_ceil (a b : N) : outcome N := if bool_decide (b = 0) then Panic else Ret ((a + b - 1) / b).

Definition encoder_fragment (e : Encoder) (payload : list Byte.byte) : outcome (Encoder * result EncodeError FragmentIter) :=
  let payload_len := N.of_nat (length payload) in
  count ← div_ceil (N.max payload_len 1) (en_max_fragment_payload e);
  if bool_decide (MAX_FRAGMENTS < count) then Ret (e, Err (PayloadTooLarge payload_len count)) else
  let msg_id := en_next_msg_id e in
  Ret ({| e with en_next_msg_id := (msg_id + 1) `mod` (u16_max + 1) |},
       Ok (mkFragmentIter payload (en_max_fragment_payload e) msg_id 0 count)).

(** [FragmentIter::next], whose slice panics out of range. *)
Definition fragment_next (it : FragmentIter) : outcome (FragmentIter * option (PacketHeader * list Byte.byte)) :=
  if bool_decide (fi_count it ≤ fi_current it) then Ret (it, None) else
  let i := fi_current it in
  let len := N.of_nat (length (fi_payload it)) in
  let start := N.min (i * fi_max_payload it) u64_MAX in
  let end_ := N.min (saturating_add u64_MAX start (fi_max_payload it)) len in
  _ ← rust_assert (bool_decide (start ≤ end_));
  let data := take (N.to_nat (end_ - start)) (drop (N.to_nat start) (fi_payload it)) in
  let seq_num := i `mod` (u16_max + 1) in
  let is_start := bool_decide (i = 0) in
  let is_end := bool_decide (i = fi_count it - 1) in
  let t := match is_start, is_end with
           | true, true => FtComplete | true, false => FtStart | false, true => FtEnd | false, false => FtMiddle
           end in
  Ret ({| it with fi_current := i + 1 |}, Some (packet_header_new (fi_msg_id it) seq_num t, data)).

(** All that the iterator yields; it yields [fi_count] fragments. *)
Fixpoint fragments_loop (fuel : nat) (it : FragmentIter) : outcome (list (PacketHeader * list Byte.byte)) :=
  match fuel with
  | O => OutOfFuel
  | S fuel =>
      '(it, item) ← fragment_next it;
      match item with
      | None => Ret []
      | Some f => fs ← fragments_loop fuel it; Ret (f :: fs)
      end
  end.
Definition fragments_of (it : FragmentIter) : outcome (list (PacketHeader * list Byte.byte)) :=
  fragments_loop (S (N.to_nat (fi_count it - fi_current it))) it.

Definition max_payload_size (e : Encoder) : N := N.min (en_max_fragment_payload e * MAX_FRAGMENTS) u64_MAX.

(** ** decoder.rs, pool.rs: data *)

Inductive DecodeError :=
| InvalidHeaderSize (actual required : N)
| InvalidHeader
| UnsupportedVersion (version expected : N)
| IdentityLimitExceeded (max : N)
| DuplicateFragment (msg_id seq_num : N)
| TooManyFragments (count max : N)
| ConflictingEndMarker (expected actual : N)
| MessageSizeExceeded (size max : N)
| PoolFull.

Inductive DecodeOutcome := Pending | Complete (message : list Byte.byte).
Inductive EvictionKind := EvictTimeout | EvictRandom.
Inductive MessageStatus := MsMissing | MsActive | MsStale.
Inductive FragmentPolicy := FpRegular | FpPrioritized.

Record MessageState := mkMessageState {
  ms_fragments : gmap N (list Byte.byte);
  ms_total_size : N;
  ms_total_frags : option N;
  ms_eviction_deadline : N;
}.

Definition message_state_new (deadline : N) : MessageState := mkMessageState ∅ 0 None deadline.
Definition extract (s : MessageState) : list Byte.byte := concat (btree_iter (ms_fragments s)).*2.

Record PoolConfig := mkPoolConfig { pc_max_messages : N; pc_max_message_size : N; pc_message_timeout : N }.

(** What [decode] does to the state of its message: the fragment is refused,
    with or without dropping the message, or added. *)
Inductive fragment_verdict :=
| FvReject (e : DecodeError) (remove : bool)
| FvAdded (s : MessageState) (is_complete : bool).

Definition add_fragment (cfg : PoolConfig) (s : MessageState) (msg_id seq_num : N) (t : FragmentType)
    (data : list Byte.byte) : fragment_verdict :=
  if negb (bool_decide (seq_num < MAX_FRAGMENTS)) then FvReject (TooManyFragments (MAX_FRAGMENTS + 1) MAX_FRAGMENTS) true else
  if bool_decide (is_Some (ms_fragments s !! seq_num)) then FvReject (DuplicateFragment msg_id seq_num) false else
  let is_end := match t with FtEnd | FtComplete => true | _ => false end in
  let new_total := (seq_num + 1) `mod` (u16_max + 1) in
  let end_conflict := if is_end then ms_total_frags s else None in
  match end_conflict with
  | Some expected => FvReject (ConflictingEndMarker expected new_total) true
  | None =>
      let total_frags := if is_end then Some new_total else ms_total_frags s in
      let beyond := match total_frags with Some total => bool_decide (total ≤ seq_num) | None => false end in
      if beyond then FvReject (ConflictingEndMarker (default 0 total_frags) new_total) true else
      let total_size := checked_add u64_MAX (ms_total_size s) (N.of_nat (length data)) in
      let fits := match total_size with Some size => bool_decide (size ≤ pc_max_message_size cfg) | None => false end in
      if negb fits then FvReject (MessageSizeExceeded (default u64_MAX total_size) (pc_max_message_size cfg)) true else
      let fragments := <[seq_num := data]> (ms_fragments s) in
      FvAdded (mkMessageState fragments (default 0 total_size) total_frags (ms_eviction_deadline s))
        (bool_decide (total_frags = Some (N.of_nat (size fragments) `mod` (u16_max + 1))))
  end.

(** ** pool.rs: the pool *)

(** [IndexMap]: entries in insertion order; [swap_remove] fills the gap with
    the last entry. *)
Section index_map.
Context {K V : Type} `{EqDecision K}.
Definition im_get (m : list (K * V)) (k : K) : option V := snd <$> List.find (λ e, bool_decide (e.1 = k)) m.
Fixpoint im_insert (m : list (K * V)) (k : K) (v : V) : list (K * V) :=
  match m with
  | [] => [(k, v)]
  | (k', v') :: m => if bool_decide (k' = k) then (k', v) :: m else (k', v') :: im_insert m k v
  end.
Fixpoint im_replace (m : list (K * V)) (k : K) (e : K * V) : list (K * V) :=
  match m with
  | [] => []
  | e' :: m => if bool_decide (e'.1 = k) then e :: m else e' :: im_replace m k e
  end.
Definition im_swap_remove (m : list (K * V)) (k : K) : option (list (K * V) * V) :=
  v ← im_get m k;
  last_entry ← last m;
  let init := take (length m - 1) m in
  Some (if bool_decide (last_entry.1 = k) then init else im_replace init k last_entry, v).
End index_map.

(** The identity of a sender, the policy that limits its messages and the
    random number generator. *)
Class LeanUdpEnv := {
  Identity : Type;
  Identity_eq_dec :: EqDecision Identity;
  Identity_countable :: Countable Identity;
  Identity_order :: KeyOrder Identity;
  LimitPolicy : Type;
  policy_limit : LimitPolicy → Identity → N → N → N * LimitPolicy;
  policy_record_service : LimitPolicy → Identity → LimitPolicy;
  policy_identity_removed : LimitPolicy → Identity → LimitPolicy;
  Rng : Type;
  gen_range : Rng → N → N * Rng;
}.

(** [gen_range(0..n)] is below [n]. *)
Definition rng_laws (E : LeanUdpEnv) : Prop := ∀ r n, 0 < n → (gen_range r n).1 < n.

Section pool.
Context `{E : LeanUdpEnv}.

Definition Key : Type := Identity * N.
#[global] Instance Key_eq_dec : EqDecision Key := prod_eq_dec.
#[global] Instance Key_countable : Countable Key := prod_countable.

Record FragmentInput := mkFragmentInput {
  in_identity : Identity; in_msg_id : N; in_seq_num : N; in_type : FragmentType; in_payload : list Byte.byte;
}.

Record MessagePool := mkMessagePool {
  mp_messages : list (Key * MessageState);
  mp_eviction_index : gset (N * Key);
  mp_by_identity : gmap Identity (gset (N * N));
  mp_cfg : PoolConfig;
  mp_rng : Rng;
  mp_message_counts : gmap Identity N;
  mp_limit_policy : LimitPolicy;
}.

Definition pool_new (cfg : PoolConfig) (rng : Rng) (policy : LimitPolicy) : MessagePool :=
  mkMessagePool [] ∅ ∅ cfg rng ∅ policy.

(** [BTreeSet::first]: by deadline, then identity, then message id. *)
Definition deadline_le (a b : N * Key) : Prop :=
  a.1 < b.1 ∨ (a.1 = b.1 ∧ ((key_le a.2.1 b.2.1 ∧ a.2.1 ≠ b.2.1) ∨ (a.2.1 = b.2.1 ∧ a.2.2 ≤ b.2.2))).
#[global] Instance deadline_le_dec : RelDecision deadline_le.
Proof. intros a b. unfold deadline_le. apply _. Defined.
Definition first_deadline (s : gset (N * Key)) : option (N * Key) := head (merge_sort deadline_le (elements s)).
Definition pair_le (a b : N * N) : Prop := a.1 < b.1 ∨ (a.1 = b.1 ∧ a.2 ≤ b.2).
#[global] Instance pair_le_dec : RelDecision pair_le.
Proof. intros a b. unfold pair_le. apply _. Defined.
Definition first_pair (s : gset (N * N)) : option (N * N) := head (merge_sort pair_le (elements s)).

Definition pool_size (p : MessagePool) : N := N.of_nat (length (mp_messages p)).
Definition has_message (p : MessagePool) (key : Key) : bool := bool_decide (is_Some (im_get (mp_messages p) key)).

Definition identity_count (p : MessagePool) (i : Identity) : N := default 0 (mp_message_counts p !! i).

Definition limit_for_new_message (p : MessagePool) (i : Identity) : N * MessagePool :=
  let '(limit, policy) := policy_limit (mp_limit_policy p) i (pool_size p) (pc_max_messages (mp_cfg p)) in
  (limit, {| p with mp_limit_policy := policy |}).

Definition increment_identity_count (p : MessagePool) (i : Identity) : MessagePool :=
  {| p with mp_message_counts := <[i := (identity_count p i + 1) `mod` (u64_MAX + 1)]> (mp_message_counts p) |}.

Definition decrement_identity_count (p : MessagePool) (i : Identity) : outcome MessagePool :=
  count ← expect (mp_message_counts p !! i);
  let count := (count + u64_MAX) `mod` (u64_MAX + 1) in
  if bool_decide (count = 0) then
    Ret {| p with mp_message_counts := delete i (mp_message_counts p);
                  mp_limit_policy := policy_identity_removed (mp_limit_policy p) i |}
  else Ret {| p with mp_message_counts := <[i := count]> (mp_message_counts p) |}.

Definition remove_message (p : MessagePool) (key : Key) : outcome (MessagePool * option MessageState) :=
  match im_swap_remove (mp_messages p) key with
  | None => Ret (p, None)
  | Some (messages, state) =>
      let deadline := ms_eviction_deadline state in
      let by_identity :=
        match mp_by_identity p !! key.1 with
        | None => mp_by_identity p
        | Some index =>
            let index := index ∖ {[(deadline, key.2)]} in
            if bool_decide (index = ∅) then delete key.1 (mp_by_identity p) else <[key.1 := index]> (mp_by_identity p)
        end in
      let p := {| p with mp_messages := messages; mp_eviction_index := mp_eviction_index p ∖ {[(deadline, key)]};
                         mp_by_identity := by_identity |} in
      p ← decrement_identity_count p key.1;
      Ret (p, Some state)
  end.

Definition message_status (p : MessagePool) (key : Key) (now : N) : outcome (MessagePool * MessageStatus) :=
  match im_get (mp_messages p) key with
  | None => Ret (p, MsMissing)
  | Some s =>
      if bool_decide (now < ms_eviction_deadline s) then Ret (p, MsActive) else
      '(p, _) ← remove_message p key;
      Ret (p, MsStale)
  end.

Definition ensure_identity_capacity (p : MessagePool) (i : Identity) : MessagePool * result DecodeError unit :=
  let '(limit, p) := limit_for_new_message p i in
  (p, if bool_decide (identity_count p i < limit) then Ok tt else Err (IdentityLimitExceeded limit)).

Definition is_at_identity_limit (p : MessagePool) (i : Identity) : MessagePool * bool :=
  let '(limit, p) := limit_for_new_message p i in (p, bool_decide (limit ≤ identity_count p i)).

Definition evict_candidate_if_stale (p : MessagePool) (candidate : option (N * Key)) (now : N) : outcome (MessagePool * bool) :=
  match candidate with
  | None => Ret (p, false)
  | Some (deadline, key) =>
      if bool_decide (now < deadline) then Ret (p, false) else
      '(p, _) ← remove_message p key;
      Ret (p, true)
  end.

Definition evict_stale_for_identity (p : MessagePool) (i : Identity) (now : N) : outcome (MessagePool * bool) :=
  let candidate := index ← mp_by_identity p !! i; '(deadline, msg_id) ← first_pair index; Some (deadline, (i, msg_id)) in
  evict_candidate_if_stale p candidate now.

Definition evict_one_stale_for_identity_if_limited (p : MessagePool) (i : Identity) (now : N) : outcome (MessagePool * bool) :=
  let '(p, limited) := is_at_identity_limit p i in
  if negb limited then Ret (p, false) else evict_stale_for_identity p i now.

Definition record_identity_service (p : MessagePool) (i : Identity) : MessagePool :=
  {| p with mp_limit_policy := policy_record_service (mp_limit_policy p) i |}.

Definition evict_before_admission (p : MessagePool) (now : N) : outcome (MessagePool * option EvictionKind) :=
  if bool_decide (mp_messages p = []) then Ret (p, None) else
  '(p, stale) ← evict_candidate_if_stale p (first_deadline (mp_eviction_index p)) now;
  if stale : bool then Ret (p, Some EvictTimeout) else
  let '(random_index, rng) := gen_range (mp_rng p) (pool_size p) in
  let p := {| p with mp_rng := rng |} in
  match mp_messages p !! N.to_nat random_index with
  | None => Ret (p, None)
  | Some (key, _) =>
      '(p, _) ← remove_message p key;
      Ret (p, Some EvictRandom)
  end.

Definition admission_blocked (p : MessagePool) : bool := bool_decide (pc_max_messages (mp_cfg p) ≤ pool_size p).

Definition insert_message (p : MessagePool) (key : Key) (now : N) : MessagePool :=
  let deadline := now + pc_message_timeout (mp_cfg p) in
  {| p with mp_messages := im_insert (mp_messages p) key (message_state_new deadline);
            mp_eviction_index := {[(deadline, key)]} ∪ mp_eviction_index p;
            mp_by_identity := <[key.1 := {[(deadline, key.2)]} ∪ default ∅ (mp_by_identity p !! key.1)]> (mp_by_identity p) |}.

Definition decode (p : MessagePool) (input : FragmentInput) : outcome (MessagePool * result DecodeError DecodeOutcome) :=
  let key := (in_identity input, in_msg_id input) in
  match im_get (mp_messages p) key with
  | None => Ret (p, Err PoolFull)
  | Some state =>
      match add_fragment (mp_cfg p) state (in_msg_id input) (in_seq_num input) (in_type input) (in_payload input) with
      | FvReject e remove =>
          if remove then '(p, _) ← remove_message p key; Ret (p, Err e) else Ret (p, Err e)
      | FvAdded state is_complete =>
          let p := {| p with mp_messages := im_insert (mp_messages p) key state |} in
          if negb is_complete then Ret (p, Ok Pending) else
          let p := record_identity_service p key.1 in
          '(p, state) ← remove_message p key;
          state ← expect state;
          Ret (p, Ok (Complete (extract state)))
      end
  end.

Definition decode_with_admission (p : MessagePool) (now : N) (key : Key) (input : FragmentInput)
    : outcome (MessagePool * result DecodeError DecodeOutcome * option EvictionKind) :=
  if has_message p key then '(p, r) ← decode p input; Ret (p, r, None) else
  '(p, evicted) ← (if admission_blocked p then evict_before_admission p now else Ret (p, None));
  if admission_blocked p then Ret (p, Err PoolFull, evicted) else
  let p := increment_identity_count (insert_message p key now) (in_identity input) in
  '(p, r) ← decode p input;
  Ret (p, r, evicted).

(** ** decoder.rs: the decoder *)

Inductive PoolSelection := PsPriority | PsRegular.
Definition pool_selection (policy : FragmentPolicy) : PoolSelection :=
  match policy with FpPrioritized => PsPriority | FpRegular => PsRegular end.

Record Decoder := mkDecoder { priority_pool : MessagePool; regular_pool : MessagePool }.

Definition get_pool (d : Decoder) (s : PoolSelection) : MessagePool :=
  match s with PsPriority => priority_pool d | PsRegular => regular_pool d end.
Definition set_pool (d : Decoder) (s : PoolSelection) (p : MessagePool) : Decoder :=
  match s with PsPriority => {| d with priority_pool := p |} | PsRegular => {| d with regular_pool := p |} end.

Record Config := mkConfig {
  cf_max_message_size : N; cf_max_priority_messages : N; cf_max_regular_messages : N;
  cf_max_messages_per_identity : N; cf_message_timeout : N; cf_max_fragment_payload : N;
}.

Definition config_validate (c : Config) : outcome unit :=
  _ ← rust_assert (bool_decide (0 < cf_max_message_size c));
  _ ← rust_assert (bool_decide (0 < cf_max_messages_per_identity c));
  _ ← rust_assert (bool_decide (cf_message_timeout c ≠ 0));
  rust_assert (bool_decide (LEANUDP_HEADER_SIZE < cf_max_fragment_payload c)).

Definition pool_config (c : Config) (max_messages : N) : PoolConfig :=
  mkPoolConfig max_messages (cf_max_message_size c) (cf_message_timeout c).

(** The random number generators and the limit policies of the two pools are
    given; [IdentityUsage::for_priority_pool] makes the policies. *)
Definition with_clock_and_crypto_rng (c : Config) (rng1 rng2 : Rng) (policy1 policy2 : LimitPolicy) : Decoder :=
  mkDecoder (pool_new (pool_config c (cf_max_priority_messages c)) rng1 policy1)
            (pool_new (pool_config c (cf_max_regular_messages c)) rng2 policy2).

(** [score] is the policy for the identity of the sender. *)
Definition select_pool (d : Decoder) (score : FragmentPolicy) (key : Key) (now : N) : outcome (Decoder * PoolSelection) :=
  '(p, status) ← message_status (priority_pool d) key now;
  let d := {| d with priority_pool := p |} in
  match status with
  | MsActive => Ret (d, PsPriority)
  | MsStale => Ret (d, pool_selection score)
  | MsMissing =>
      '(p, status) ← message_status (regular_pool d) key now;
      let d := {| d with regular_pool := p |} in
      Ret (d, match status with MsActive => PsRegular | _ => pool_selection score end)
  end.

Definition decode_in_pool (d : Decoder) (now : N) (s : PoolSelection) (key : Key) (input : FragmentInput)
    : outcome (Decoder * result DecodeError DecodeOutcome) :=
  let p := get_pool d s in
  '(p, capacity) ←
    (if has_message p key then Ret (p, Ok tt) else
     '(p, _) ← evict_one_stale_for_identity_if_limited p (in_identity input) now;
     Ret (ensure_identity_capacity p (in_identity input)));
  match capacity with
  | Err e => Ret (set_pool d s p, Err e)
  | Ok _ =>
      '(p, r, _) ← decode_with_admission p now key input;
      Ret (set_pool d s p, r)
  end.

(** [TryFrom<Bytes> for Packet]. *)
Definition packet_try_from (packet : list Byte.byte) : result DecodeError (PacketHeader * list Byte.byte) :=
  if bool_decide (N.of_nat (length packet) < LEANUDP_HEADER_SIZE)
  then Err (InvalidHeaderSize (N.of_nat (length packet)) LEANUDP_HEADER_SIZE) else
  header ← ok_or (read_header (take (N.to_nat LEANUDP_HEADER_SIZE) packet)) InvalidHeader;
  Ok (header, drop (N.to_nat LEANUDP_HEADER_SIZE) packet).

Definition decoder_decode (d : Decoder) (identity : Identity) (score : FragmentPolicy) (now : N) (packet : list Byte.byte)
    : outcome (Decoder * result DecodeError DecodeOutcome) :=
  match packet_try_from packet with
  | Err e => Ret (d, Err e)
  | Ok (header, payload) =>
      if bool_decide (ph_version header ≠ LEANUDP_PROTOCOL_VERSION)
      then Ret (d, Err (UnsupportedVersion (ph_version header) LEANUDP_PROTOCOL_VERSION)) else
      if negb (has_known_flags header) then Ret (d, Err InvalidHeader) else
      let key := (identity, ph_msg_id header) in
      '(d, s) ← select_pool d score key now;
      decode_in_pool d now s key (mkFragmentInput identity (ph_msg_id header) (ph_seq_num header) (fragment_type header) payload)
  end.
End pool.
