(* ===== verification/LeanUdpPool.v ===== *)
(** * The reassembly pool keeps its books

    The indexes and counters of the pool of LeanUdp.v agree with its messages,
    and its messages stay within the configured numbers and sizes; no lookup
    that the code expects to succeed fails. *)
From S2P Require Import Prelude LeanUdp.

(** ** Index maps *)

Section index_map.
Context {K V : Type} `{EqDecision K}.
Implicit Types (m : list (K * V)) (k : K) (v : V).

Lemma im_get_None m k : im_get m k = None ↔ k ∉ m.*1.
Proof.
  unfold im_get. induction m as [|[k' v'] m IH]; simpl; [split; [by intros _ ?%elem_of_nil|done]|].
  rewrite elem_of_cons. destruct (bool_decide (k' = k)) eqn:Hk.
  - apply bool_decide_eq_true in Hk as ->. simpl. split; [done|]. tauto.
  - apply bool_decide_eq_false in Hk. rewrite IH. naive_solver.
Qed.

Lemma im_get_Some m k v : NoDup m.*1 → im_get m k = Some v ↔ (k, v) ∈ m.
Proof.
  unfold im_get. induction m as [|[k' v'] m IH]; simpl; intros Hnd; [split; [done|by intros ?%elem_of_nil]|].
  apply NoDup_cons in Hnd as [Hk' Hnd]. rewrite elem_of_cons. destruct (bool_decide (k' = k)) eqn:Hk.
  - apply bool_decide_eq_true in Hk as ->. simpl. split; [intros [= ->]; by left|].
    intros [[= ->]|Hin]; [done|]. destruct Hk'. apply list_elem_of_fmap. by exists (k, v).
  - apply bool_decide_eq_false in Hk. rewrite IH by done. naive_solver.
Qed.

Lemma im_get_insert m k v : im_get (im_insert m k v) k = Some v.
Proof.
  unfold im_get. induction m as [|[k' v'] m IH]; simpl; [by rewrite bool_decide_eq_true_2|].
  destruct (bool_decide (k' = k)) eqn:Hk; simpl; by rewrite Hk.
Qed.

Lemma im_insert_new m k v : k ∉ m.*1 → im_insert m k v = m ++ [(k, v)].
Proof.
  induction m as [|[k' v'] m IH]; simpl; intros Hk; [done|]. rewrite not_elem_of_cons in Hk.
  rewrite bool_decide_eq_false_2 by naive_solver. by rewrite IH by tauto.
Qed.

Lemma im_insert_old m k v v0 : NoDup m.*1 → im_get m k = Some v0 →
  ∃ rest, m ≡ₚ (k, v0) :: rest ∧ im_insert m k v ≡ₚ (k, v) :: rest.
Proof.
  unfold im_get. induction m as [|[k' v'] m IH]; simpl; intros Hnd; [done|].
  apply NoDup_cons in Hnd as [Hk' Hnd]. destruct (bool_decide (k' = k)) eqn:Hk.
  - apply bool_decide_eq_true in Hk as ->. intros [= ->]. by exists m.
  - intros H. destruct (IH Hnd H) as (rest & H1 & H2). exists ((k', v') :: rest).
    split; [rewrite H1|rewrite H2]; apply Permutation_swap.
Qed.

Lemma im_replace_perm m k v e : NoDup m.*1 → (k, v) ∈ m → ∃ rest, m ≡ₚ (k, v) :: rest ∧ im_replace m k e ≡ₚ e :: rest.
Proof.
  induction m as [|[k' v'] m IH]; simpl; intros Hnd Hin; [by apply elem_of_nil in Hin|].
  apply NoDup_cons in Hnd as [Hk' Hnd]. destruct (bool_decide (k' = k)) eqn:Hk.
  - apply bool_decide_eq_true in Hk as ->. apply elem_of_cons in Hin as [[= ->]|Hin]; [by exists m|].
    destruct Hk'. apply list_elem_of_fmap. by exists (k, v).
  - apply bool_decide_eq_false in Hk. apply elem_of_cons in Hin as [[= -> ->]|Hin]; [done|].
    destruct (IH Hnd Hin) as (rest & H1 & H2). exists ((k', v') :: rest).
    split; [rewrite H1|rewrite H2]; apply Permutation_swap.
Qed.

Lemma im_swap_remove_spec m k : NoDup m.*1 →
  match im_swap_remove m k with
  | Some (m', v) => im_get m k = Some v ∧ m ≡ₚ (k, v) :: m'
  | None => im_get m k = None
  end.
Proof.
  intros Hnd. unfold im_swap_remove. destruct (im_get m k) as [v|] eqn:Hv; [|done]. cbn [mbind option_bind].
  apply im_get_Some in Hv as Hin; [|done].
  destruct (last m) as [[kl vl]|] eqn:Hl; [|apply last_None in Hl as ->; by apply elem_of_nil in Hin].
  cbn [mbind option_bind]. apply last_Some in Hl as [init ->]. rewrite length_app. simpl length.
  replace (length init + 1 - 1)%nat with (length init) by lia. rewrite take_app_length.
  split; [done|]. rewrite fmap_app in Hnd. apply NoDup_app in Hnd as (Hnd & Hdis & _). simpl in *.
  case_bool_decide as Hk.
  - subst kl. apply elem_of_app in Hin as [Hin|Hin].
    + destruct (Hdis k); [|left]. apply list_elem_of_fmap. by exists (k, v).
    + apply list_elem_of_singleton in Hin. injection Hin as ->. by rewrite Permutation_app_comm.
  - apply elem_of_app in Hin as [Hin|Hin]; [|apply list_elem_of_singleton in Hin; congruence].
    destruct (im_replace_perm init k v (kl, vl) Hnd Hin) as (rest & H1 & H2). rewrite H2, H1.
    rewrite Permutation_app_comm. simpl. apply Permutation_swap.
Qed.
End index_map.

(** ** The invariant *)

Definition fragment_bytes (m : gmap N (list Byte.byte)) : N :=
  sumN ((λ p : N * list Byte.byte, N.of_nat (length p.2)) <$> map_to_list m).

Record state_ok (cfg : PoolConfig) (s : MessageState) : Prop := {
  so_bytes : ms_total_size s = fragment_bytes (ms_fragments s);
  so_size : ms_total_size s ≤ pc_max_message_size cfg;
  so_keys : ∀ i, is_Some (ms_fragments s !! i) → i < MAX_FRAGMENTS;
}.

Lemma fragment_bytes_insert m i d : m !! i = None →
  fragment_bytes (<[i := d]> m) = N.of_nat (length d) + fragment_bytes m.
Proof. intros H. unfold fragment_bytes. by rewrite map_to_list_insert. Qed.

Lemma add_fragment_ok cfg s msg_id seq_num t data : state_ok cfg s →
  match add_fragment cfg s msg_id seq_num t data with
  | FvReject e _ => e ≠ PoolFull
  | FvAdded s' _ => state_ok cfg s' ∧ ms_eviction_deadline s' = ms_eviction_deadline s
  end.
Proof.
  intros [Hb Hsz Hk]. unfold add_fragment. destruct (bool_decide (seq_num < MAX_FRAGMENTS)) eqn:Hseq; [|done].
  apply bool_decide_eq_true in Hseq. cbn [negb].
  destruct (ms_fragments s !! seq_num) as [x|] eqn:Hf; [by rewrite bool_decide_eq_true_2|].
  rewrite bool_decide_eq_false_2 by (by intros []). cbn zeta.
  destruct (if match t with FtEnd | FtComplete => true | _ => false end then ms_total_frags s else None); [done|].
  destruct (match _ with Some total => _ | None => _ end); [done|].
  unfold checked_add. destruct (decide _); [|done].
  destruct (bool_decide (_ ≤ pc_max_message_size cfg)) eqn:Hle; [|done].
  apply bool_decide_eq_true in Hle. cbn [negb default]. split; [|done]. split; simpl; [|done|].
  - rewrite fragment_bytes_insert by done. simpl in *. lia.
  - intros i. destruct (decide (i = seq_num)) as [->|]; [done|]. rewrite lookup_insert_ne by done. apply Hk.
Qed.

(** What the pool needs of the limit policy: the limits stay below a cap that
    nothing changes. *)
Record policy_laws (E : LeanUdpEnv) (cap : LimitPolicy → N) : Prop := {
  pl_limit : ∀ pol i n m, (policy_limit pol i n m).1 ≤ cap pol;
  pl_limit_cap : ∀ pol i n m, cap (policy_limit pol i n m).2 = cap pol;
  pl_service_cap : ∀ pol i, cap (policy_record_service pol i) = cap pol;
  pl_removed_cap : ∀ pol i, cap (policy_identity_removed pol i) = cap pol;
}.

Section pool_wf.
Context `{E : LeanUdpEnv} (cap : LimitPolicy → N).
Hypothesis policy_ok : policy_laws E cap.
Implicit Types (p : MessagePool) (key : Key).

Definition count_of (i : Identity) (l : list (Key * MessageState)) : N :=
  N.of_nat (length (filter (λ e : Key * MessageState, e.1.1 = i) l)).

Record pool_wf p : Prop := {
  pw_nodup : NoDup (mp_messages p).*1;
  pw_index : ∀ d k, (d, k) ∈ mp_eviction_index p ↔ ∃ s, (k, s) ∈ mp_messages p ∧ ms_eviction_deadline s = d;
  pw_by_identity : ∀ i d m, (d, m) ∈ default ∅ (mp_by_identity p !! i) ↔
    ∃ s, ((i, m), s) ∈ mp_messages p ∧ ms_eviction_deadline s = d;
  pw_counts : ∀ i, mp_message_counts p !! i =
    if decide (count_of i (mp_messages p) = 0) then None else Some (count_of i (mp_messages p));
  pw_identity : ∀ i, count_of i (mp_messages p) ≤ cap (mp_limit_policy p);
  pw_size : pool_size p ≤ pc_max_messages (mp_cfg p) ≤ u64_MAX;
  pw_states : Forall (λ e, state_ok (mp_cfg p) e.2) (mp_messages p);
}.

Lemma count_of_perm i l l' : l ≡ₚ l' → count_of i l = count_of i l'.
Proof. intros H. unfold count_of. by rewrite H. Qed.

Lemma count_of_cons i e l : count_of i (e :: l) = (if decide (e.1.1 = i) then 1 else 0) + count_of i l.
Proof.
  unfold count_of. destruct (decide (e.1.1 = i)); [rewrite filter_cons_True by done|by rewrite filter_cons_False].
  cbn [length]. by rewrite Nat2N.inj_succ, <- N.add_1_l.
Qed.

Lemma count_of_le i l : count_of i l ≤ N.of_nat (length l).
Proof. unfold count_of. pose proof (length_filter (λ e : Key * MessageState, e.1.1 = i) l). lia. Qed.

Lemma pool_new_wf cfg rng policy : pc_max_messages cfg ≤ u64_MAX → pool_wf (pool_new cfg rng policy).
Proof.
  intros H. split; simpl.
  - apply NoDup_nil_2.
  - set_solver.
  - set_solver.
  - done.
  - intros i. apply N.le_0_l.
  - unfold pool_size. simpl. lia.
  - done.
Qed.

(** The policy and the random numbers do not matter to the invariant. *)
Lemma pool_wf_policy p policy rng :
  cap policy = cap (mp_limit_policy p) → pool_wf p → pool_wf {| p with mp_limit_policy := policy; mp_rng := rng |}.
Proof. intros Hc []. split; [done..| |done|done]. simpl. by rewrite Hc. Qed.

(** What an operation that may drop messages leaves. *)
Record shrunk p p' : Prop := {
  sh_wf : pool_wf p';
  sh_cfg : mp_cfg p' = mp_cfg p;
  sh_cap : cap (mp_limit_policy p') = cap (mp_limit_policy p);
  sh_count : ∀ i, count_of i (mp_messages p') ≤ count_of i (mp_messages p);
  sh_length : pool_size p' ≤ pool_size p;
  sh_sub : ∀ k s, (k, s) ∈ mp_messages p' → (k, s) ∈ mp_messages p;
}.

Lemma pool_wf_removed p p' key s :
  pool_wf p → mp_messages p ≡ₚ (key, s) :: mp_messages p' → mp_cfg p' = mp_cfg p →
  cap (mp_limit_policy p') = cap (mp_limit_policy p) →
  mp_eviction_index p' = mp_eviction_index p ∖ {[(ms_eviction_deadline s, key)]} →
  (∀ i, default ∅ (mp_by_identity p' !! i) =
    if decide (i = key.1) then default ∅ (mp_by_identity p !! i) ∖ {[(ms_eviction_deadline s, key.2)]}
    else default ∅ (mp_by_identity p !! i)) →
  (∀ i, mp_message_counts p' !! i =
    if decide (count_of i (mp_messages p') = 0) then None else Some (count_of i (mp_messages p'))) →
  shrunk p p'.
Proof.
  intros [Hnd Hidx Hby Hcnt Hid Hsize Hst] Hperm Hcfg Hcap Hidx' Hby' Hcnt'.
  assert (∀ i, count_of i (mp_messages p') ≤ count_of i (mp_messages p)) as Hle.
  { intros i. rewrite (count_of_perm _ _ _ Hperm), count_of_cons. lia. }
  assert (NoDup (key :: (mp_messages p').*1)) as Hnd'.
  { change (NoDup ((key, s) :: mp_messages p').*1). by rewrite <- Hperm. }
  apply NoDup_cons in Hnd' as [Hkey Hnd'].
  assert (∀ k t, (k, t) ∈ mp_messages p' → k ≠ key) as Hne.
  { intros k t Hin ->. apply Hkey. by apply (list_elem_of_fmap_2 fst) in Hin. }
  split; [split|done|done|done| |].
  - done.
  - intros d k. rewrite Hidx', elem_of_difference, Hidx, elem_of_singleton. setoid_rewrite Hperm.
    setoid_rewrite elem_of_cons. split.
    + intros [(t & [[= -> ->]|Hin] & Hd) Hn]; [by subst|by exists t].
    + intros (t & Hin & Hd). split; [exists t; auto|]. intros [= _ ->]. by apply (Hne key t).
  - intros i d m. rewrite Hby'. destruct (decide (i = key.1)) as [->|Hi].
    + rewrite elem_of_difference, Hby, elem_of_singleton. setoid_rewrite Hperm. setoid_rewrite elem_of_cons. split.
      * intros [(t & [[= Hk ->]|Hin] & Hd) Hn]; [subst; by rewrite <- Hk in Hn|by exists t].
      * intros (t & Hin & Hd). split; [exists t; auto|]. intros [= _ ->]. apply (Hne _ _ Hin). by destruct key.
    + rewrite Hby. setoid_rewrite Hperm. setoid_rewrite elem_of_cons. split.
      * intros (t & [[= Hk _]|Hin] & Hd); [by subst key|by exists t].
      * intros (t & Hin & Hd). exists t; auto.
  - done.
  - intros i. rewrite Hcap. specialize (Hid i). specialize (Hle i). lia.
  - rewrite Hcfg. unfold pool_size in *. rewrite Hperm in Hsize. simpl in Hsize. lia.
  - rewrite Hcfg. rewrite Hperm in Hst. by apply Forall_cons in Hst as [_ Hst].
  - unfold pool_size. rewrite Hperm. simpl. lia.
  - intros k t Hin. rewrite Hperm. by right.
Qed.

Lemma by_identity_removed (m : gmap Identity (gset (N * N))) k e i :
  default ∅ (match m !! k with
             | None => m
             | Some index =>
                 let index := index ∖ {[e]} in
                 if bool_decide (index = ∅) then delete k m else <[k := index]> m
             end !! i) =
  if decide (i = k) then default ∅ (m !! i) ∖ {[e]} else default ∅ (m !! i).
Proof.
  destruct (m !! k) as [index|] eqn:Hk; cbn zeta.
  - decide_case (index ∖ {[e]} = ∅) H.
    + destruct (decide (i = k)) as [->|?]; [|by rewrite lookup_delete_ne].
      rewrite lookup_delete_eq, Hk. simpl. by rewrite H.
    + destruct (decide (i = k)) as [->|?]; [|by rewrite lookup_insert_ne].
      by rewrite lookup_insert_eq, Hk.
  - destruct (decide (i = k)) as [->|?]; [|done]. rewrite Hk. simpl. set_solver.
Qed.

Lemma remove_message_spec p key : pool_wf p →
  ∃ p', remove_message p key = Ret (p', im_get (mp_messages p) key) ∧ shrunk p p' ∧
    match im_get (mp_messages p) key with
    | Some s => mp_messages p ≡ₚ (key, s) :: mp_messages p'
    | None => p' = p
    end.
Proof.
  intros Hwf. pose proof Hwf as [Hnd Hidx Hby Hcnt Hid Hsize Hst]. unfold remove_message.
  pose proof (im_swap_remove_spec (mp_messages p) key Hnd) as Hrm.
  destruct (im_swap_remove _ _) as [[msgs s]|]; [|rewrite Hrm; by exists p].
  destruct Hrm as [Hget Hperm]. rewrite Hget.
  assert (count_of key.1 (mp_messages p) = 1 + count_of key.1 msgs) as Hck.
  { rewrite (count_of_perm _ _ _ Hperm), count_of_cons. by rewrite decide_True. }
  assert (∀ i, i ≠ key.1 → count_of i (mp_messages p) = count_of i msgs) as Hci.
  { intros i Hi. rewrite (count_of_perm _ _ _ Hperm), count_of_cons. by rewrite decide_False. }
  pose proof (count_of_le key.1 (mp_messages p)) as Hcle. unfold pool_size in Hsize.
  unfold decrement_identity_count. simpl mp_message_counts. rewrite Hcnt, decide_False by lia.
  cbn [expect mbind outcome_bind].
  replace ((count_of key.1 (mp_messages p) + u64_MAX) `mod` (u64_MAX + 1)) with (count_of key.1 msgs).
  2: { rewrite Hck. replace (1 + count_of key.1 msgs + u64_MAX) with (count_of key.1 msgs + 1 * (u64_MAX + 1)) by lia.
       rewrite N.Div0.mod_add. symmetry. apply N.mod_small. lia. }
  decide_case (count_of key.1 msgs = 0) H0; cbn [mbind outcome_bind].
  all: eexists; split; [reflexivity|]; split; [|exact Hperm].
  all: apply (pool_wf_removed p _ key s); [done|exact Hperm|done| |done|intros i; apply by_identity_removed|].
  1, 3: simpl; by rewrite ?(pl_removed_cap _ _ policy_ok).
  all: intros i; simpl; destruct (decide (i = key.1)) as [->|Hi].
  - by rewrite lookup_delete_eq, decide_True.
  - by rewrite lookup_delete_ne, Hcnt, Hci by done.
  - by rewrite lookup_insert_eq, decide_False.
  - by rewrite lookup_insert_ne, Hcnt, Hci by done.
Qed.

Lemma remove_message_gone p key p' o : pool_wf p → remove_message p key = Ret (p', o) → im_get (mp_messages p') key = None.
Proof.
  intros Hwf Hr. destruct (remove_message_spec p key Hwf) as (q & Hq & _ & Hm). rewrite Hr in Hq.
  injection Hq as <- ->. destruct (im_get (mp_messages p) key) as [s|] eqn:Hs; [|by subst].
  apply im_get_None. pose proof (pw_nodup _ Hwf) as Hnd. rewrite Hm in Hnd. by apply NoDup_cons in Hnd as [Hk _].
Qed.

(** ** The operations *)

Lemma shrunk_refl p : pool_wf p → shrunk p p.
Proof. by split; intros. Qed.
Lemma shrunk_trans p q r : shrunk p q → shrunk q r → shrunk p r.
Proof.
  intros [?? C1 D1 L1 S1] [?? C2 D2 L2 S2]. split; [done|congruence|congruence| |lia|auto].
  intros i. specialize (D1 i). specialize (D2 i). lia.
Qed.
Lemma shrunk_policy p policy rng : cap policy = cap (mp_limit_policy p) →
  pool_wf p → shrunk p {| p with mp_limit_policy := policy; mp_rng := rng |}.
Proof. intros Hc H. split; [by apply pool_wf_policy|done..]. Qed.

Lemma message_status_spec p key now : pool_wf p →
  ∃ p' st, message_status p key now = Ret (p', st) ∧ shrunk p p'.
Proof.
  intros Hwf. unfold message_status. destruct (im_get _ _) as [s|]; [|by eauto using shrunk_refl].
  destruct (bool_decide _); [by eauto using shrunk_refl|].
  destruct (remove_message_spec p key Hwf) as (p' & -> & Hsh & _). by eauto.
Qed.

Lemma remove_message_smaller p key s : pool_wf p → (key, s) ∈ mp_messages p →
  ∃ p' o, remove_message p key = Ret (p', o) ∧ shrunk p p' ∧ pool_size p' < pool_size p.
Proof.
  intros Hwf Hin. destruct (remove_message_spec p key Hwf) as (p' & -> & Hsh & Hp).
  apply im_get_Some in Hin; [|apply Hwf]. rewrite Hin in Hp. eexists _, _. split; [done|]. split; [done|].
  unfold pool_size. rewrite Hp. simpl. lia.
Qed.

Lemma evict_candidate_spec p c now : pool_wf p →
  ∃ p' b, evict_candidate_if_stale p c now = Ret (p', b) ∧ shrunk p p' ∧
    (b = true → (∀ d key, c = Some (d, key) → key ∈ (mp_messages p).*1) → pool_size p' < pool_size p) ∧
    (b = false → p' = p).
Proof.
  intros Hwf. unfold evict_candidate_if_stale.
  destruct c as [[d key]|]; [|exists p, false; split_and!; by try apply shrunk_refl].
  destruct (bool_decide _); [exists p, false; split_and!; by try apply shrunk_refl|].
  destruct (remove_message_spec p key Hwf) as (p' & Hrm & Hsh & Hp). rewrite Hrm. exists p', true.
  split; [done|]. split; [done|]. split; [intros _ Hc|done].
  specialize (Hc d key eq_refl) as ((k & s) & -> & Hin)%list_elem_of_fmap.
  destruct (remove_message_smaller p k s Hwf Hin) as (q & o & Hq & _ & Hlt). simpl in Hrm. congruence.
Qed.

Lemma first_deadline_elem (s : gset (N * Key)) x : first_deadline s = Some x → x ∈ s.
Proof.
  unfold first_deadline. intros H. apply head_Some in H as [l H]. apply elem_of_elements.
  rewrite <- (merge_sort_Permutation deadline_le (elements s)), H. left.
Qed.

Lemma limit_for_new_message_shrunk p i : pool_wf p → shrunk p (limit_for_new_message p i).2.
Proof.
  intros Hwf. unfold limit_for_new_message.
  pose proof (pl_limit_cap _ _ policy_ok (mp_limit_policy p) i (pool_size p) (pc_max_messages (mp_cfg p))) as Hc.
  destruct (policy_limit _ _ _ _). by apply (shrunk_policy p _ (mp_rng p)).
Qed.

Lemma evict_limited_spec p i now : pool_wf p →
  ∃ p' b, evict_one_stale_for_identity_if_limited p i now = Ret (p', b) ∧ shrunk p p'.
Proof.
  intros Hwf. unfold evict_one_stale_for_identity_if_limited, is_at_identity_limit.
  pose proof (limit_for_new_message_shrunk p i Hwf) as Hsh. destruct (limit_for_new_message p i) as [limit q].
  simpl in Hsh. destruct (negb _); [by eauto|]. unfold evict_stale_for_identity.
  edestruct (evict_candidate_spec q) as (p' & b & -> & Hsh' & _); [apply Hsh|]. by eauto using shrunk_trans.
Qed.

Lemma ensure_capacity_shrunk p i : pool_wf p → shrunk p (ensure_identity_capacity p i).1.
Proof.
  intros Hwf. unfold ensure_identity_capacity. pose proof (limit_for_new_message_shrunk p i Hwf) as Hsh.
  by destruct (limit_for_new_message p i).
Qed.

Lemma evict_before_admission_spec p now : rng_laws E → pool_wf p → mp_messages p ≠ [] →
  ∃ p' k, evict_before_admission p now = Ret (p', k) ∧ shrunk p p' ∧ pool_size p' < pool_size p.
Proof.
  intros Hrng Hwf Hne. unfold evict_before_admission. rewrite bool_decide_eq_false_2 by done.
  edestruct (evict_candidate_spec p) as (q & b & -> & Hsh & Hsm & Hq); [done|]. cbn [mbind outcome_bind].
  destruct b.
  { eexists _, _. split; [done|]. split; [done|]. apply Hsm; [done|]. intros d key Hf.
    apply first_deadline_elem in Hf. apply pw_index in Hf as (s & Hin & _); [|done].
    apply list_elem_of_fmap. by exists (key, s). }
  rewrite (Hq eq_refl) in *. clear q Hq Hsm. pose proof (Hrng (mp_rng p) (pool_size p)) as Hlt.
  destruct (gen_range _ _) as [n rng]. simpl in Hlt.
  set (q := {| p with mp_rng := rng |}).
  assert (shrunk p q) as Hsh' by (by apply (shrunk_policy p (mp_limit_policy p) rng)).
  destruct (lookup_lt_is_Some_2 (mp_messages q) (N.to_nat n)) as [[key s] Hn].
  { unfold pool_size in Hlt. subst q. simpl. destruct (mp_messages p); [done|]. simpl in *. lia. }
  rewrite Hn. destruct (remove_message_smaller q key s) as (p' & o & -> & Hsh'' & Hp').
  { apply Hsh'. }
  { by eapply list_elem_of_lookup_2. }
  eexists _, _. split; [done|]. split; [by eapply shrunk_trans|done].
Qed.

(** ** Changes of a message *)

Lemma pool_wf_updated p key s s' :
  pool_wf p → im_get (mp_messages p) key = Some s → state_ok (mp_cfg p) s' →
  ms_eviction_deadline s' = ms_eviction_deadline s →
  pool_wf {| p with mp_messages := im_insert (mp_messages p) key s' |}.
Proof.
  intros [Hnd Hidx Hby Hcnt Hid Hsize Hst] Hget Hok Hd.
  destruct (im_insert_old _ _ s' s Hnd Hget) as (rest & Hp & Hp').
  assert (∀ k d, (∃ t, (k, t) ∈ mp_messages p ∧ ms_eviction_deadline t = d) ↔
     (∃ t, (k, t) ∈ im_insert (mp_messages p) key s' ∧ ms_eviction_deadline t = d)) as Hequiv.
  { intros k d. setoid_rewrite Hp'. setoid_rewrite Hp. setoid_rewrite elem_of_cons. split.
    - intros (t & [[= -> ->]|Hin] & Ht); [exists s'; split; [by left|congruence]|exists t; auto].
    - intros (t & [[= -> ->]|Hin] & Ht); [exists s; split; [by left|congruence]|exists t; auto]. }
  split; simpl.
  - rewrite Hp'. simpl. by rewrite Hp in Hnd.
  - intros d k. by rewrite Hidx, Hequiv.
  - intros i d m. by rewrite Hby, Hequiv.
  - intros i. by rewrite Hcnt, (count_of_perm _ _ _ Hp'), (count_of_perm _ _ _ Hp), !count_of_cons.
  - intros i. rewrite (count_of_perm _ _ _ Hp'), count_of_cons. specialize (Hid i).
    by rewrite (count_of_perm _ _ _ Hp), count_of_cons in Hid.
  - unfold pool_size in *. simpl. rewrite Hp'. by rewrite Hp in Hsize.
  - rewrite Hp'. rewrite Hp in Hst. apply Forall_cons in Hst as [_ Hst]. by apply Forall_cons.
Qed.

Lemma pool_wf_inserted p key now :
  pool_wf p → im_get (mp_messages p) key = None → pool_size p < pc_max_messages (mp_cfg p) →
  count_of key.1 (mp_messages p) < cap (mp_limit_policy p) →
  pool_wf (increment_identity_count (insert_message p key now) key.1).
Proof.
  intros [Hnd Hidx Hby Hcnt Hid Hsize Hst] Hget Hroom Hcap. apply im_get_None in Hget as Hk.
  set (s := message_state_new (now + pc_message_timeout (mp_cfg p))).
  assert (im_insert (mp_messages p) key s ≡ₚ (key, s) :: mp_messages p) as Hp.
  { rewrite im_insert_new by done. by rewrite Permutation_app_comm. }
  assert (ms_eviction_deadline s = now + pc_message_timeout (mp_cfg p)) as Hs by done.
  unfold increment_identity_count, insert_message, identity_count. fold s. split; simpl.
  - rewrite Hp. simpl. by apply NoDup_cons.
  - intros d k. rewrite elem_of_union, elem_of_singleton, Hidx. setoid_rewrite Hp. setoid_rewrite elem_of_cons. split.
    + intros [[= -> ->]|(t & Hin & Ht)]; [exists s; auto|exists t; auto].
    + intros (t & [[= -> ->]|Hin] & Ht); [left; congruence|right; by exists t].
  - intros i d m. setoid_rewrite Hp. setoid_rewrite elem_of_cons. destruct (decide (i = key.1)) as [->|Hi].
    + rewrite lookup_insert_eq. simpl. rewrite elem_of_union, elem_of_singleton, Hby. split.
      * intros [[= -> ->]|(t & Hin & Ht)]; [exists s; split; [left; by destruct key|done]|exists t; auto].
      * intros (t & [[= Hkm ->]|Hin] & Ht); [left|right; by exists t]. subst. by rewrite <- Hkm.
    + rewrite lookup_insert_ne by done. rewrite Hby. split.
      * intros (t & Hin & Ht). exists t; auto.
      * intros (t & [[= <- _]|Hin] & Ht); [done|by exists t].
  - intros i. rewrite (count_of_perm _ _ _ Hp), count_of_cons. simpl fst.
    destruct (decide (i = key.1)) as [->|Hi].
    + rewrite lookup_insert_eq, (decide_True (P := key.1 = key.1)) by done. pose proof (count_of_le key.1 (mp_messages p)) as Hle.
      unfold pool_size in *. rewrite decide_False by lia. f_equal.
      rewrite Hcnt. destruct (decide _) as [H0|H0]; simpl.
      * rewrite N.mod_small by (unfold u64_MAX; lia). lia.
      * rewrite N.mod_small by lia. lia.
    + rewrite lookup_insert_ne, Hcnt by done. by rewrite (decide_False (P := key.1 = i)) by done.
  - intros i. rewrite (count_of_perm _ _ _ Hp), count_of_cons. simpl fst. specialize (Hid i).
    destruct (decide (key.1 = i)) as [<-|]; lia.
  - unfold pool_size in *. simpl. rewrite Hp. simpl. lia.
  - rewrite Hp. apply Forall_cons. split; [|done]. split; simpl; [done|lia|].
    intros i [x Hx]. by rewrite lookup_empty in Hx.
Qed.

(** ** Decoding a fragment *)

Lemma decode_spec p input : pool_wf p →
  ∃ p' r, decode p input = Ret (p', r) ∧ pool_wf p' ∧ mp_cfg p' = mp_cfg p ∧
    cap (mp_limit_policy p') = cap (mp_limit_policy p) ∧
    (has_message p (in_identity input, in_msg_id input) → r ≠ Err PoolFull).
Proof.
  intros Hwf. unfold decode. set (key := (in_identity input, in_msg_id input)). unfold has_message.
  destruct (im_get (mp_messages p) key) as [s|] eqn:Hget; [|exists p; eexists; by split_and!].
  assert (state_ok (mp_cfg p) s) as Hs.
  { pose proof (pw_states _ Hwf) as Hst. rewrite Forall_forall in Hst.
    apply im_get_Some in Hget; [by apply (Hst (key, s))|apply Hwf]. }
  pose proof (add_fragment_ok (mp_cfg p) s (in_msg_id input) (in_seq_num input) (in_type input) (in_payload input) Hs) as Hadd.
  destruct (add_fragment _ _ _ _ _ _) as [e [] | s' b].
  - destruct (remove_message_spec p key Hwf) as (p' & -> & [] & _). eexists _, _. split; [done|]. split_and!; naive_solver.
  - eexists _, _. split; [done|]. split_and!; naive_solver.
  - destruct Hadd as [Hs' Hd]. pose proof (pool_wf_updated p key s s' Hwf Hget Hs' Hd) as Hwf'.
    destruct b; [|by eexists _, _]. cbn [negb].
    set (q := record_identity_service _ _).
    assert (cap (mp_limit_policy q) = cap (mp_limit_policy p)) as Hcq by (simpl; apply policy_ok).
    assert (pool_wf q) as Hq.
    { by apply (pool_wf_policy _ (mp_limit_policy q) (mp_rng p)) in Hwf'. }
    destruct (remove_message_spec q key Hq) as (p' & -> & [? ? Hc' _ _ _] & Hm).
    destruct (im_get (mp_messages q) key) as [t|] eqn:Ht.
    { eexists _, _. split; [done|]. split; [done|]. split; [done|]. split; [congruence|done]. }
    exfalso. simpl in Ht. by rewrite im_get_insert in Ht.
Qed.

Lemma has_message_false p key : has_message p key = false → im_get (mp_messages p) key = None.
Proof. unfold has_message. destruct (im_get _ _); [by rewrite bool_decide_eq_true_2|done]. Qed.

Lemma identity_count_spec p i : pool_wf p → identity_count p i = count_of i (mp_messages p).
Proof. intros Hwf. unfold identity_count. rewrite (pw_counts _ Hwf). by destruct (decide _) as [->|]. Qed.

(** A pool with room for one message admits one after at most one eviction. *)
Lemma admit_spec p now : rng_laws E → pool_wf p → 0 < pc_max_messages (mp_cfg p) →
  ∃ p' e, (if admission_blocked p then evict_before_admission p now else Ret (p, None)) = Ret (p', e) ∧
    shrunk p p' ∧ admission_blocked p' = false.
Proof.
  intros Hrng Hwf H0. destruct (admission_blocked p) eqn:Hb; [|by exists p, None; eauto using shrunk_refl].
  apply bool_decide_eq_true in Hb. destruct (evict_before_admission_spec p now Hrng Hwf) as (p' & e & -> & Hsh & Hlt).
  { intros Hn. unfold pool_size in Hb. rewrite Hn in Hb. simpl in Hb. lia. }
  exists p', e. split; [done|]. split; [done|]. apply bool_decide_eq_false. rewrite (sh_cfg _ _ Hsh).
  pose proof (pw_size _ Hwf). lia.
Qed.

Lemma decode_with_admission_spec p now input : rng_laws E → pool_wf p → 0 < pc_max_messages (mp_cfg p) →
  let key := (in_identity input, in_msg_id input) in
  (has_message p key = false → count_of key.1 (mp_messages p) < cap (mp_limit_policy p)) →
  ∃ p' r e, decode_with_admission p now key input = Ret (p', r, e) ∧ pool_wf p' ∧ mp_cfg p' = mp_cfg p ∧
    cap (mp_limit_policy p') = cap (mp_limit_policy p) ∧ r ≠ Err PoolFull.
Proof.
  intros Hrng Hwf H0 key Hroom. unfold decode_with_admission. destruct (has_message p key) eqn:Hh.
  { destruct (decode_spec p input Hwf) as (p' & r & -> & ? & ? & ? & Hr). eexists _, _, _.
    split; [done|]. split_and!; [done..|]. apply Hr. fold key. by rewrite Hh. }
  specialize (Hroom eq_refl). destruct (admit_spec p now Hrng Hwf H0) as (q & e & -> & Hsh & Hb).
  cbn [mbind outcome_bind]. rewrite Hb. apply bool_decide_eq_false in Hb. apply has_message_false in Hh.
  assert (im_get (mp_messages q) key = None) as Hq.
  { apply im_get_None. apply im_get_None in Hh. intros ([k s] & Hk & Hin)%list_elem_of_fmap. apply Hh.
    apply list_elem_of_fmap. exists (k, s). split; [done|]. by apply (sh_sub _ _ Hsh). }
  set (q' := increment_identity_count (insert_message q key now) (in_identity input)).
  assert (pool_wf q') as Hq'.
  { apply (pool_wf_inserted q key now); [apply Hsh|done|lia|]. rewrite (sh_cap _ _ Hsh).
    pose proof (sh_count _ _ Hsh key.1). lia. }
  destruct (decode_spec q' input Hq') as (p' & r & -> & ? & Hc & Hp & Hr). eexists _, _, _.
  split; [done|]. split; [done|]. split; [rewrite Hc; apply Hsh|]. split; [rewrite Hp; apply Hsh|].
  apply Hr. fold key. unfold has_message. subst q'. simpl.
  apply bool_decide_pack. by rewrite im_get_insert.
Qed.

(** ** The decoder *)

Definition decoder_pools (P : MessagePool → Prop) (d : Decoder) : Prop := P (priority_pool d) ∧ P (regular_pool d).

Record stays p p' : Prop := {
  st_wf : pool_wf p';
  st_cfg : mp_cfg p' = mp_cfg p;
  st_cap : cap (mp_limit_policy p') = cap (mp_limit_policy p);
}.
Lemma shrunk_stays p p' : shrunk p p' → stays p p'.
Proof. by intros []. Qed.
Lemma stays_refl p : pool_wf p → stays p p.
Proof. by split. Qed.
Lemma stays_trans p q r : stays p q → stays q r → stays p r.
Proof. intros [] []. split; congruence. Qed.

Definition decoder_stays (d d' : Decoder) : Prop :=
  stays (priority_pool d) (priority_pool d') ∧ stays (regular_pool d) (regular_pool d').

Lemma decoder_stays_trans d1 d2 d3 : decoder_stays d1 d2 → decoder_stays d2 d3 → decoder_stays d1 d3.
Proof. intros [] []. split; by eapply stays_trans. Qed.

Lemma select_pool_spec d score key now : decoder_pools pool_wf d →
  ∃ d' s, select_pool d score key now = Ret (d', s) ∧ decoder_stays d d'.
Proof.
  intros [H1 H2]. unfold select_pool.
  destruct (message_status_spec (priority_pool d) key now H1) as (p1 & st1 & -> & Hs1%shrunk_stays).
  cbn [mbind outcome_bind]. destruct st1; [|by eexists _, _; split; [done|]; split; [|apply stays_refl]..].
  simpl. destruct (message_status_spec (regular_pool d) key now H2) as (p2 & st2 & -> & Hs2%shrunk_stays).
  by eexists _, _.
Qed.

Lemma capacity_spec p now key : pool_wf p →
  ∃ q c, (if has_message p key then Ret (p, Ok tt) else
      '(p, _) ← evict_one_stale_for_identity_if_limited p key.1 now;
      Ret (ensure_identity_capacity p key.1)) = Ret (q, c) ∧ stays p q ∧ c ≠ Err PoolFull ∧
    (c = Ok tt → has_message q key = false → count_of key.1 (mp_messages q) < cap (mp_limit_policy q)).
Proof.
  intros Hwf. destruct (has_message p key) eqn:Hh.
  { exists p, (Ok tt). split; [done|]. split; [by apply stays_refl|]. split; [done|]. congruence. }
  destruct (evict_limited_spec p key.1 now Hwf) as (p1 & b & -> & Hp1). cbn [mbind outcome_bind].
  pose proof (ensure_capacity_shrunk p1 key.1 (sh_wf _ _ Hp1)) as Hp2.
  unfold ensure_identity_capacity, limit_for_new_message in *.
  pose proof (pl_limit _ _ policy_ok (mp_limit_policy p1) key.1 (pool_size p1) (pc_max_messages (mp_cfg p1))) as Hl.
  pose proof (pl_limit_cap _ _ policy_ok (mp_limit_policy p1) key.1 (pool_size p1) (pc_max_messages (mp_cfg p1))) as Hlc.
  destruct (policy_limit _ _ _ _) as [limit pol]. simpl in *. eexists _, _. split; [done|].
  split; [apply shrunk_stays; by eapply shrunk_trans|]. split; [by destruct (bool_decide _)|].
  intros Hcap _. destruct (bool_decide _) eqn:Hlt; [|done]. apply bool_decide_eq_true in Hlt.
  rewrite identity_count_spec in Hlt by apply Hp2. simpl in *. lia.
Qed.

Definition decoder_ok (d : Decoder) : Prop :=
  decoder_pools (λ p, pool_wf p ∧ 0 < pc_max_messages (mp_cfg p)) d.

Lemma decoder_ok_stays d d' : decoder_ok d → decoder_stays d d' → decoder_ok d'.
Proof. intros [[] []] [[? C1 ?] [? C2 ?]]. unfold decoder_ok, decoder_pools. by rewrite C1, C2. Qed.

Lemma decode_in_pool_spec d now s input : rng_laws E → decoder_ok d →
  ∃ d' r, decode_in_pool d now s (in_identity input, in_msg_id input) input = Ret (d', r) ∧
    decoder_stays d d' ∧ r ≠ Err PoolFull.
Proof.
  intros Hrng Hd. unfold decode_in_pool.
  assert (pool_wf (get_pool d s) ∧ 0 < pc_max_messages (mp_cfg (get_pool d s))) as [Hwf H0].
  { destruct Hd, s; done. }
  assert (∀ p', stays (get_pool d s) p' → decoder_stays d (set_pool d s p')) as Hset.
  { destruct Hd as [[] []], s; intros p' Hp'; split; simpl; auto using stays_refl. }
  destruct (capacity_spec (get_pool d s) now (in_identity input, in_msg_id input) Hwf) as (q & c & Heq & Hq & Hc & Hroom).
  simpl fst in Heq. rewrite Heq. cbn [mbind outcome_bind].
  destruct c as [[]|e]; [|by eexists _, _; split; [done|]; split; [apply Hset|congruence]].
  destruct (decode_with_admission_spec q now input Hrng) as (p' & r & e & -> & ? & ? & ? & ?); [apply Hq| |auto|].
  { by rewrite (st_cfg _ _ Hq). }
  eexists _, _. split; [done|]. split; [|done]. apply Hset. by apply (stays_trans _ q).
Qed.

Lemma decoder_decode_spec d identity score now packet : rng_laws E → decoder_ok d →
  ∃ d' r, decoder_decode d identity score now packet = Ret (d', r) ∧ decoder_stays d d' ∧ r ≠ Err PoolFull.
Proof.
  intros Hrng Hd.
  assert (decoder_stays d d) as Hrefl by (destruct Hd as [[] []]; split; by apply stays_refl).
  unfold decoder_decode, packet_try_from.
  destruct (bool_decide _); [by eexists _, _|]. destruct (read_header _) as [h|]; [|by eexists _, _].
  cbn [ok_or mbind result_bind]. destruct (bool_decide _); [by eexists _, _|].
  destruct (negb _); [by eexists _, _|].
  destruct (select_pool_spec d score (identity, ph_msg_id h) now) as (d1 & s & -> & Hd1).
  { by destruct Hd as [[] []]. }
  cbn [mbind outcome_bind].
  destruct (decode_in_pool_spec d1 now s (mkFragmentInput identity (ph_msg_id h) (ph_seq_num h) (fragment_type h)
    (drop (N.to_nat LEANUDP_HEADER_SIZE) packet)) Hrng) as (d2 & r & Heq & Hd2 & Hr); [by eapply decoder_ok_stays|].
  cbn [in_identity in_msg_id] in Heq. rewrite Heq. eexists _, _. split; [done|]. split; [by eapply decoder_stays_trans|done].
Qed.

(** ** Sequences of packets *)

Record Arrival := mkArrival { ar_identity : Identity; ar_score : FragmentPolicy; ar_now : N; ar_packet : list Byte.byte }.

Fixpoint decode_all (d : Decoder) (l : list Arrival) : outcome (Decoder * list (result DecodeError DecodeOutcome)) :=
  match l with
  | [] => Ret (d, [])
  | a :: l =>
      '(d, r) ← decoder_decode d (ar_identity a) (ar_score a) (ar_now a) (ar_packet a);
      '(d, rs) ← decode_all d l;
      Ret (d, r :: rs)
  end.

Lemma decode_all_spec d l : rng_laws E → decoder_ok d →
  ∃ d' rs, decode_all d l = Ret (d', rs) ∧ decoder_stays d d' ∧ Err PoolFull ∉ rs ∧ length rs = length l.
Proof.
  intros Hrng. revert d. induction l as [|a l IH]; intros d Hd.
  { exists d, []. split; [done|]. split; [|split; [set_solver|done]].
    destruct Hd as [[] []]. split; by apply stays_refl. }
  simpl. destruct (decoder_decode_spec d (ar_identity a) (ar_score a) (ar_now a) (ar_packet a) Hrng Hd)
    as (d1 & r & -> & Hd1 & Hr). cbn [mbind outcome_bind].
  destruct (IH d1) as (d2 & rs & -> & Hd2 & Hrs & Hl); [by eapply decoder_ok_stays|]. cbn [mbind outcome_bind].
  eexists _, _. split; [done|]. split; [by eapply decoder_stays_trans|]. split; [|simpl; lia].
  apply not_elem_of_cons. auto.
Qed.

Definition pool_bytes (p : MessagePool) : N := sumN ((λ e, fragment_bytes (ms_fragments e.2)) <$> mp_messages p).

Lemma pool_bytes_le p : pool_wf p → pool_bytes p ≤ pc_max_messages (mp_cfg p) * pc_max_message_size (mp_cfg p).
Proof.
  intros Hwf. trans (pool_size p * pc_max_message_size (mp_cfg p)).
  2: { apply N.mul_le_mono_r. by destruct (pw_size _ Hwf). }
  pose proof (pw_states _ Hwf) as Hst. unfold pool_bytes, pool_size.
  induction Hst as [|[k s] l [Hb Hs _] _ IH]; [done|]. simpl in Hb, Hs.
  cbn [length]. rewrite Nat2N.inj_succ, N.mul_succ_l, fmap_cons, sumN_cons.
  cbn [snd]. lia.
Qed.

(** The number of messages of identity [i] in progress. *)
Definition in_progress (p : MessagePool) (i : Identity) : N := count_of i (mp_messages p).
End pool_wf.
