(* ===== verification/LeanUdpPolicy.v ===== *)
(** * Lean UDP with its limit policy

    pool.rs: the limit policy of the reassembly pools over the dynamic caps of
    DynamicCap.v, and what follows for the decoder: whatever packets arrive, it
    answers each of them, keeps every pool within its number of messages and
    bytes, and every sender within its number of messages. *)
From S2P Require Import Prelude Interfaces DynamicCap LeanUdp LeanUdpPool.

Definition PRIORITY_DYNAMIC_CAP_BOOTSTRAP_LIMIT : N := 10.
Definition REGULAR_DYNAMIC_CAP_BOOTSTRAP_LIMIT : N := 10.

Section policy.
Context {I : Type} `{!EqDecision I, !Countable I, !KeyOrder I}.
Context (powf : f64 → f64 → f64).
Context {R : Type} (range : R → N → N * R).

Record DynamicCapIdentityLimitPolicy := mkDynamicCapIdentityLimitPolicy {
  max_messages_per_identity : N;
  dynamic_cap_enforced : bool;
  dynamic_cap_cfg : DynamicCapConfig;
  dynamic_cap : gmap I DynamicCapIdentity;
  service_sequence : N;
}.

Definition policy_new (max_messages_per_identity bootstrap_limit : N) : outcome DynamicCapIdentityLimitPolicy :=
  let cfg := default_with_bootstrap bootstrap_limit in
  _ ← cap_config_validate cfg;
  Ret (mkDynamicCapIdentityLimitPolicy max_messages_per_identity false cfg ∅ 0).

Definition dynamic_limit_for_new_message (p : DynamicCapIdentityLimitPolicy) (i : I) (pool_size pool_max_size : N)
    : N * DynamicCapIdentityLimitPolicy :=
  let enforced := update_pressure_mode (dynamic_cap_enforced p) pool_size pool_max_size 1 (dynamic_cap_cfg p) in
  let '(states, share) :=
    match dynamic_cap p !! i with
    | None => (dynamic_cap p, f64_zero)
    | Some state =>
        let '(state, share) := decayed_share powf state (service_sequence p) (dynamic_cap_cfg p) in
        (<[i := state]> (dynamic_cap p), share)
    end in
  let p := {| p with dynamic_cap_enforced := enforced; dynamic_cap := states |} in
  (effective_limit (max_messages_per_identity p) pool_max_size enforced share (dynamic_cap_cfg p), p).

Definition dynamic_record_service (p : DynamicCapIdentityLimitPolicy) (i : I) : DynamicCapIdentityLimitPolicy :=
  let seq := saturating_add u64_MAX (service_sequence p) 1 in
  let state := default (identity_new seq) (dynamic_cap p !! i) in
  {| p with service_sequence := seq;
            dynamic_cap := <[i := observe_service powf state seq (dynamic_cap_cfg p)]> (dynamic_cap p) |}.

Definition dynamic_on_identity_removed (p : DynamicCapIdentityLimitPolicy) (i : I) : DynamicCapIdentityLimitPolicy :=
  {| p with dynamic_cap := delete i (dynamic_cap p) |}.

#[export] Instance dynamic_env : LeanUdpEnv := {
  Identity := I;
  LimitPolicy := DynamicCapIdentityLimitPolicy;
  policy_limit := dynamic_limit_for_new_message;
  policy_record_service := dynamic_record_service;
  policy_identity_removed := dynamic_on_identity_removed;
  Rng := R;
  gen_range := range;
}.

Definition build_with_clock (c : Config) (rng1 rng2 : R) : outcome (Encoder * Decoder) :=
  _ ← config_validate c;
  policy1 ← policy_new (cf_max_messages_per_identity c) PRIORITY_DYNAMIC_CAP_BOOTSTRAP_LIMIT;
  policy2 ← policy_new (cf_max_messages_per_identity c) REGULAR_DYNAMIC_CAP_BOOTSTRAP_LIMIT;
  Ret (encoder_new (cf_max_fragment_payload c), with_clock_and_crypto_rng c rng1 rng2 policy1 policy2).

(** ** The policy keeps its cap *)

Lemma dynamic_policy_laws : policy_laws dynamic_env max_messages_per_identity.
Proof.
  split; simpl; intros pol i; [intros n m|intros n m|done|done].
  all: unfold dynamic_limit_for_new_message; destruct (dynamic_cap pol !! i); simpl; try done; apply effective_limit_bounds.
Qed.

Lemma policy_new_cap n b pol : policy_new n b = Ret pol → max_messages_per_identity pol = n.
Proof. unfold policy_new. intros H. monad_inv H. by injection H as <-. Qed.

Definition pool_within (c : Config) (max_messages : N) (p : MessagePool) : Prop :=
  pool_size p ≤ max_messages ∧
  pool_bytes p ≤ max_messages * cf_max_message_size c ∧
  ∀ i, in_progress p i ≤ cf_max_messages_per_identity c.

Lemma pool_wf_within c m p :
  pool_wf max_messages_per_identity p → mp_cfg p = pool_config c m →
  max_messages_per_identity (mp_limit_policy p) = cf_max_messages_per_identity c → pool_within c m p.
Proof.
  intros Hwf Hcfg Hcap. pose proof (pw_size _ _ Hwf) as [Hs _]. pose proof (pool_bytes_le _ _ Hwf) as Hb.
  rewrite Hcfg in Hs, Hb. split; [done|]. split; [done|]. intros i. rewrite <- Hcap. apply (pw_identity _ _ Hwf).
Qed.

End policy.

(** ** A small configuration *)

Definition toy_config : Config := mkConfig 100 2 2 2 50 14.
Definition toy_powf (x _ : f64) : f64 := x.
Definition toy_range (r : unit) (_ : N) : N * unit := (0, r).
Definition toy_env : LeanUdpEnv := dynamic_env (I := N) toy_powf toy_range.
Definition toy_build : outcome (Encoder * Decoder (E := toy_env)) := build_with_clock (I := N) toy_powf toy_range toy_config tt tt.
Definition toy_packet : list Byte.byte := packet_header_bytes (packet_header_new 7 3 FtMiddle) ++ [Byte.x2a].
Definition toy_arrival : N → FragmentPolicy → N → list Byte.byte → Arrival (E := toy_env) := mkArrival (E := toy_env).
Definition toy_arrivals : list (Arrival (E := toy_env)) := [toy_arrival 1 FpRegular 0 toy_packet; toy_arrival 2 FpPrioritized 10 toy_packet].

Lemma toy_rng_laws : rng_laws toy_env.
Proof. by intros r n. Qed.

