(* ===== verification/LeanUdpRoundtrip.v ===== *)
(** * Fragments come back together

    The fragments that the encoder of LeanUdp.v makes of a message, in any
    order, are put together again by the decoder. *)
From S2P Require Import Prelude DynamicCap LeanUdp LeanUdpPool LeanUdpPolicy.

(** ** What the encoder makes *)

Section encoder.
Context (m : N) (payload : list Byte.byte) (msg_id n : N).
Hypothesis m_pos : 0 < m.
Hypothesis payload_len : N.of_nat (length payload) ≤ u64_MAX.
Hypothesis n_eq : n = (N.max (N.of_nat (length payload)) 1 + m - 1) / m.
Hypothesis n_max : n ≤ MAX_FRAGMENTS.

Definition chunk (i : N) : list Byte.byte := take (N.to_nat m) (drop (N.to_nat (i * m)) payload).
Definition type_of (i : N) : FragmentType :=
  match bool_decide (i = 0), bool_decide (i = n - 1) with
  | true, true => FtComplete | true, false => FtStart | false, true => FtEnd | false, false => FtMiddle
  end.
Definition frag (i : N) : PacketHeader * list Byte.byte := (packet_header_new msg_id i (type_of i), chunk i).

Lemma n_pos : 0 < n.
Proof. subst n. apply N.div_str_pos. lia. Qed.

Lemma index_in_payload i : i < n → i * m ≤ N.of_nat (length payload) ∧ (0 < i → i * m < N.of_nat (length payload)).
Proof.
  intros Hi. assert (i * m < N.max (N.of_nat (length payload)) 1) as H.
  { assert ((i + 1) * m ≤ n * m) by (apply N.mul_le_mono_r; lia).
    assert (n * m ≤ N.max (N.of_nat (length payload)) 1 + m - 1).
    { rewrite n_eq, N.mul_comm. apply N.Div0.mul_div_le. }
    lia. }
  destruct (decide (i = 0)) as [->|]; [lia|]. assert (m ≤ i * m) by nia. lia.
Qed.

Lemma payload_covered : N.of_nat (length payload) ≤ n * m.
Proof.
  assert (N.max (N.of_nat (length payload)) 1 + m - 1 < m * N.succ n).
  { rewrite n_eq. apply N.mul_succ_div_gt. lia. }
  lia.
Qed.

Lemma fragment_next_spec i : i < n →
  fragment_next (mkFragmentIter payload m msg_id i n) =
    Ret (mkFragmentIter payload m msg_id (i + 1) n, Some (frag i)).
Proof.
  intros Hi. destruct (index_in_payload i Hi) as [Hle _]. unfold fragment_next. cbn [fi_count fi_current fi_payload fi_max_payload fi_msg_id].
  rewrite bool_decide_eq_false_2 by lia. unfold saturating_add.
  replace (N.min (i * m) u64_MAX) with (i * m) by lia.
  rewrite (bool_decide_eq_true_2 (i * m ≤ _)) by lia. cbn [rust_assert mbind outcome_bind].
  rewrite N.mod_small by (unfold MAX_FRAGMENTS, u16_max in *; lia).
  unfold frag, type_of. do 4 f_equal. unfold chunk.
  destruct (decide (i * m + m ≤ N.of_nat (length payload))) as [Hin|Hout].
  - f_equal. lia.
  - rewrite !take_ge; [done|rewrite length_drop; lia..].
Qed.

Lemma fragments_loop_spec k i : N.of_nat (i + k) = n →
  fragments_loop (S k) (mkFragmentIter payload m msg_id (N.of_nat i) n) = Ret (frag <$> (N.of_nat <$> seq i k)).
Proof.
  revert i. induction k as [|k IH]; intros i Hk.
  - simpl. unfold fragment_next. simpl. by rewrite bool_decide_eq_true_2 by lia.
  - remember (S k) as k'. simpl. rewrite fragment_next_spec by lia. cbn [mbind outcome_bind]. subst k'.
    replace (N.of_nat i + 1) with (N.of_nat (S i)) by lia.
    by rewrite IH by lia.
Qed.

Definition indices : list N := N.of_nat <$> seq 0 (N.to_nat n).

Lemma fragments_of_spec : fragments_of (mkFragmentIter payload m msg_id 0 n) = Ret (frag <$> indices).
Proof.
  unfold fragments_of. cbn [fi_count fi_current]. rewrite N.sub_0_r. apply (fragments_loop_spec (N.to_nat n) 0). lia.
Qed.

Lemma elem_of_indices i : i ∈ indices ↔ i < n.
Proof.
  unfold indices. rewrite list_elem_of_fmap. setoid_rewrite elem_of_seq. split.
  - intros (k & -> & Hk). lia.
  - intros Hi. exists (N.to_nat i). lia.
Qed.

Lemma indices_nodup : NoDup indices.
Proof. unfold indices. apply NoDup_fmap_2; [intros ??; lia|apply NoDup_seq]. Qed.

Lemma indices_sorted : StronglySorted N.le indices.
Proof.
  unfold indices. generalize 0%nat. induction (N.to_nat n) as [|k IH]; intros i; simpl; constructor; [apply IH|].
  apply Forall_fmap, Forall_seq. simpl. lia.
Qed.

Lemma chunks_concat k i : N.of_nat (length payload) ≤ N.of_nat (i + k) * m →
  concat (chunk <$> (N.of_nat <$> seq i k)) = drop (N.to_nat (N.of_nat i * m)) payload.
Proof.
  revert i. induction k as [|k IH]; intros i Hk; simpl.
  - symmetry. apply drop_ge. rewrite Nat.add_0_r in Hk. lia.
  - rewrite IH by (by rewrite Nat.add_succ_comm). unfold chunk.
    replace (N.to_nat (N.of_nat (S i) * m)) with (N.to_nat (N.of_nat i * m) + N.to_nat m)%nat by lia.
    rewrite <- drop_drop. apply take_drop.
Qed.

Lemma chunks_payload : concat (chunk <$> indices) = payload.
Proof.
  unfold indices. rewrite chunks_concat; [done|]. pose proof payload_covered. lia.
Qed.

(** The header survives the wire. *)
Lemma packet_roundtrip i : i < n → msg_id ≤ u16_max →
  packet_try_from (packet_header_bytes (frag i).1 ++ (frag i).2) = Ok (frag i).
Proof.
  intros Hi Hm. unfold packet_try_from. rewrite bool_decide_eq_false_2 by (rewrite length_app; simpl; unfold LEANUDP_HEADER_SIZE; lia).
  change (N.to_nat LEANUDP_HEADER_SIZE) with (length (packet_header_bytes (frag i).1)).
  rewrite take_app_length, drop_app_length.
  assert (∀ x, x < 256 → Byte.to_N (byte_of x) = x) as Hb.
  { intros x Hx. unfold byte_of. rewrite N.mod_small by done. destruct (Byte.of_N x) eqn:Hx'.
    - by apply Byte.to_of_N in Hx'.
    - apply Byte.of_N_None_iff in Hx'. lia. }
  assert (∀ x, x ≤ u16_max → Byte.to_N (byte_of x) + 256 * Byte.to_N (byte_of (x / 256)) = x) as Hw.
  { intros x Hx. unfold u16_max in Hx. rewrite (Hb (x / 256)) by (apply N.Div0.div_lt_upper_bound; lia).
    replace (byte_of x) with (byte_of (x `mod` 256)) by (unfold byte_of; by rewrite N.Div0.mod_mod).
    rewrite Hb by (apply N.mod_lt; lia). pose proof (N.div_mod x 256). lia. }
  simpl. rewrite !Hw; [|unfold MAX_FRAGMENTS, u16_max in *; lia|done].
  rewrite (Hb (fragment_type_flags _)) by (destruct (type_of i); simpl; unfold END_FLAG; lia). done.
Qed.

Lemma fragment_type_of i : i < n → fragment_type (frag i).1 = type_of i.
Proof.
  intros Hi. unfold fragment_type, frag, type_of. simpl.
  destruct (bool_decide (i = 0)), (bool_decide (i = n - 1)); done.
Qed.

(** ** What the decoder holds after some of the fragments *)

Context (deadline : N).

Definition frag_map (A : list N) : gmap N (list Byte.byte) := list_to_map ((λ i, (i, chunk i)) <$> A).
Definition state_of (A : list N) : MessageState :=
  mkMessageState (frag_map A) (sumN ((λ i, N.of_nat (length (chunk i))) <$> A))
    (if bool_decide (n - 1 ∈ A) then Some n else None) deadline.

Lemma frag_map_cons a A : frag_map (a :: A) = <[a := chunk a]> (frag_map A).
Proof. done. Qed.

Lemma frag_map_lookup A i : frag_map A !! i = if bool_decide (i ∈ A) then Some (chunk i) else None.
Proof.
  induction A as [|a A IH]; [done|]. rewrite frag_map_cons. destruct (decide (i = a)) as [->|Hi].
  - rewrite lookup_insert_eq, bool_decide_eq_true_2 by left. done.
  - rewrite lookup_insert_ne, IH by done.
    rewrite (bool_decide_ext (i ∈ a :: A) (i ∈ A)); [done|]. rewrite elem_of_cons. naive_solver.
Qed.

Lemma frag_map_size A : NoDup A → size (frag_map A) = length A.
Proof.
  induction 1 as [|a A Ha _ IH]; [apply map_size_empty|]. rewrite frag_map_cons, map_size_insert_None; [by rewrite IH|].
  rewrite frag_map_lookup. by rewrite bool_decide_eq_false_2.
Qed.

Lemma chunks_size A B : A ++ B ≡ₚ indices →
  sumN ((λ i, N.of_nat (length (chunk i))) <$> A) ≤ N.of_nat (length payload).
Proof.
  intros Hp.
  assert (∀ l : list (list Byte.byte), sumN ((λ c, N.of_nat (length c)) <$> l) = N.of_nat (length (concat l))) as Hsum.
  { induction l as [|c l IH]; [done|]. rewrite fmap_cons, sumN_cons, IH. simpl. rewrite length_app. lia. }
  trans (sumN ((λ i, N.of_nat (length (chunk i))) <$> (A ++ B))).
  - rewrite fmap_app, sumN_app. lia.
  - rewrite Hp. rewrite <- chunks_payload, <- Hsum, <- list_fmap_compose. done.
Qed.

Lemma total_size_step A i :
  ms_total_size (state_of (i :: A)) = N.of_nat (length (chunk i)) + ms_total_size (state_of A).
Proof. apply sumN_cons. Qed.

(** The fragments received, the next one and those still missing. *)
Record progress (A : list N) (i : N) (B : list N) : Prop := {
  pg_index : i < n;
  pg_new : i ∉ A;
  pg_nodup : NoDup (i :: A);
  pg_size : ms_total_size (state_of (i :: A)) ≤ N.of_nat (length payload);
  pg_count : (length (i :: A) + length B = N.to_nat n)%nat;
  pg_last : B = [] → n - 1 ∈ i :: A;
}.

Lemma progress_intro A i B : A ++ i :: B ≡ₚ indices → progress A i B.
Proof.
  intros Hp. assert (NoDup (A ++ i :: B)) as Hnd by (rewrite Hp; apply indices_nodup).
  assert (i ∉ A) as HiA by (apply NoDup_app in Hnd as (_ & Hd & _); intros H; apply (Hd i H); left).
  split.
  - apply elem_of_indices. rewrite <- Hp. set_solver.
  - done.
  - apply NoDup_cons. apply NoDup_app in Hnd. naive_solver.
  - apply (chunks_size _ B). rewrite <- Hp. simpl. by rewrite Permutation_middle.
  - assert (length (A ++ i :: B) = N.to_nat n) as H by (rewrite Hp; unfold indices; by rewrite length_fmap, length_seq).
    rewrite length_app in H. simpl in *. lia.
  - intros ->. assert (n - 1 ∈ A ++ [i]) as H by (rewrite Hp; apply elem_of_indices; pose proof n_pos; lia).
    set_solver.
Qed.

Lemma total_frags_step A i :
  (if bool_decide (i = n - 1) then Some (i + 1) else ms_total_frags (state_of A)) = ms_total_frags (state_of (i :: A)).
Proof.
  pose proof n_pos. simpl. decide_case (i = n - 1) He.
  - rewrite bool_decide_eq_true_2 by (rewrite <- He; left). f_equal. lia.
  - rewrite (bool_decide_ext (n - 1 ∈ i :: A) (n - 1 ∈ A)); [done|]. rewrite elem_of_cons. naive_solver.
Qed.

Lemma add_fragment_spec cfg A i B :
  progress A i B → N.of_nat (length payload) ≤ pc_max_message_size cfg →
  add_fragment cfg (state_of A) msg_id i (type_of i) (chunk i) = FvAdded (state_of (i :: A)) (bool_decide (B = [])).
Proof.
  intros [Hi HiA Hnd Hsum Hlen Hlast] Hsz. unfold add_fragment. unfold MAX_FRAGMENTS, u16_max in *.
  rewrite (bool_decide_eq_true_2 (i < _)) by lia. cbn [negb].
  assert (ms_fragments (state_of A) !! i = None) as Hf by (simpl; rewrite frag_map_lookup; by rewrite bool_decide_eq_false_2).
  rewrite Hf, bool_decide_eq_false_2 by (by intros []). rewrite (N.mod_small (i + 1)) by lia. cbn zeta.
  replace (match type_of i with FtEnd | FtComplete => true | _ => false end) with (bool_decide (i = n - 1))
    by (unfold type_of; by destruct (bool_decide (i = 0)), (bool_decide (i = n - 1))).
  replace (if bool_decide (i = n - 1) then ms_total_frags (state_of A) else None) with (@None N).
  2: { decide_case (i = n - 1) He; [|done]. simpl. by rewrite bool_decide_eq_false_2 by (by rewrite <- He). }
  rewrite total_frags_step.
  replace (match ms_total_frags (state_of (i :: A)) with Some total => bool_decide (total ≤ i) | None => false end) with false.
  2: { simpl. destruct (bool_decide _); [|done]. rewrite bool_decide_eq_false_2; [done|lia]. }
  replace (checked_add _ _ _) with (Some (ms_total_size (state_of (i :: A)))).
  2: { rewrite total_size_step in *. unfold checked_add. rewrite decide_True by lia. f_equal. apply N.add_comm. }
  rewrite bool_decide_eq_true_2 by lia. cbn [negb default]. f_equal.
  change (<[i := chunk i]> (ms_fragments (state_of A))) with (frag_map (i :: A)).
  rewrite frag_map_size by done. rewrite N.mod_small by lia. apply bool_decide_ext. simpl. split.
  - destruct (bool_decide (n - 1 ∈ i :: A)); [|done]. intros [= Hn]. simpl in Hlen. destruct B; [done|]. simpl in Hlen. lia.
  - intros HB. rewrite bool_decide_eq_true_2 by auto. subst B. simpl in Hlen. f_equal. lia.
Qed.

Lemma extract_all A : A ≡ₚ indices → extract (state_of A) = payload.
Proof.
  intros Hp. unfold extract. simpl. rewrite <- chunks_payload at 1. f_equal.
  assert (NoDup A) as Hnd by (rewrite Hp; apply indices_nodup).
  assert (btree_iter (frag_map A) = (λ i, (i, chunk i)) <$> indices) as ->; [|by rewrite <- list_fmap_compose].
  assert (NoDup ((λ i, (i, chunk i)) <$> A).*1) as Hnd' by (by rewrite <- list_fmap_compose, list_fmap_id).
  apply btree_iter_unique.
  - by apply (StronglySorted_fmap _ N.le), indices_sorted.
  - unfold frag_map. rewrite map_to_list_to_map by done. by rewrite Hp.
Qed.

(** ** Decoding the fragments *)

Context {E : LeanUdpEnv} (cap : LimitPolicy → N) (identity : Identity).
Hypothesis policy_ok : policy_laws E cap.

Definition key : Key := (identity, msg_id).
Definition fragment_input (i : N) : FragmentInput := mkFragmentInput identity msg_id i (type_of i) (chunk i).
Definition verdict (B : list N) : result DecodeError DecodeOutcome :=
  if bool_decide (B = []) then Ok (Complete payload) else Ok Pending.

Lemma decode_step p A i B :
  pool_wf cap p → im_get (mp_messages p) key = Some (state_of A) → A ++ i :: B ≡ₚ indices →
  N.of_nat (length payload) ≤ pc_max_message_size (mp_cfg p) →
  ∃ p', decode p (fragment_input i) = Ret (p', verdict B) ∧ pool_wf cap p' ∧ mp_cfg p' = mp_cfg p ∧
    im_get (mp_messages p') key = if bool_decide (B = []) then None else Some (state_of (i :: A)).
Proof.
  intros Hwf Hget Hp Hsz. pose proof (progress_intro A i B Hp) as Hpg.
  pose proof (decode_spec cap policy_ok p (fragment_input i) Hwf) as (p' & r & Hd & Hwf' & Hcfg & _).
  exists p'. revert Hd. unfold decode. cbn [fragment_input in_identity in_msg_id in_seq_num in_type in_payload]. fold key.
  rewrite Hget, (add_fragment_spec _ A i B) by done. unfold verdict. decide_case (B = []) HB; cbn [negb].
  2: { intros [= <- <-]. simpl. rewrite im_get_insert. auto. }
  set (q := record_identity_service _ _). intros Hr.
  assert (pool_wf cap q) as Hq.
  { apply (pool_wf_policy cap _ (mp_limit_policy q) (mp_rng p)); [simpl; apply policy_ok|].
    eapply pool_wf_updated; [done|exact Hget| |done].
    pose proof (add_fragment_ok (mp_cfg p) (state_of A) msg_id i (type_of i) (chunk i)) as Hok.
    rewrite (add_fragment_spec _ A i B) in Hok by done. apply Hok.
    pose proof (pw_states _ _ Hwf) as Hst. rewrite Forall_forall in Hst. apply im_get_Some in Hget; [|apply Hwf].
    by apply (Hst (key, state_of A)). }
  destruct (remove_message_spec cap policy_ok q key Hq) as (p1 & Hrm & _ & _).
  pose proof (remove_message_gone cap policy_ok q key _ _ Hq Hrm) as Hgone.
  rewrite Hrm in Hr. subst q. simpl in Hr. rewrite im_get_insert in Hr. injection Hr as <- <-.
  split; [|done]. rewrite Hrm. cbn [mbind outcome_bind]. simpl. rewrite im_get_insert. cbn [expect mbind outcome_bind].
  do 4 f_equal. apply extract_all. rewrite <- Hp, HB. by rewrite Permutation_app_comm.
Qed.

Definition other (s : PoolSelection) : PoolSelection := match s with PsPriority => PsRegular | PsRegular => PsPriority end.
Definition packet (i : N) : list Byte.byte := packet_header_bytes (frag i).1 ++ (frag i).2.

(** The decoder holds the fragments [A] of the message in pool [s], or has no
    such message. *)
Record holding (d : Decoder) (s : PoolSelection) (o : option (list N)) : Prop := {
  hd_wf : pool_wf cap (get_pool d s);
  hd_wf_other : pool_wf cap (get_pool d (other s));
  hd_size : N.of_nat (length payload) ≤ pc_max_message_size (mp_cfg (get_pool d s));
  hd_here : im_get (mp_messages (get_pool d s)) key = state_of <$> o;
  hd_other : im_get (mp_messages (get_pool d (other s))) key = None;
}.

Lemma holding_set_pool d s o p o' :
  holding d s o → pool_wf cap p → mp_cfg p = mp_cfg (get_pool d s) → im_get (mp_messages p) key = state_of <$> o' →
  holding (set_pool d s p) s o'.
Proof.
  intros [] ? Hc ?. assert (get_pool (set_pool d s p) s = p) as Hp by by destruct s.
  assert (get_pool (set_pool d s p) (other s) = get_pool d (other s)) as Ho by by destruct s.
  split; rewrite ?Hp, ?Ho, ?Hc; done.
Qed.

Lemma decoder_decode_packet d i score now : i < n → msg_id ≤ u16_max →
  decoder_decode d identity score now (packet i) =
    '(d, s) ← select_pool d score key now; decode_in_pool d now s key (fragment_input i).
Proof.
  intros Hi Hm. pose proof (fragment_type_of i Hi) as Ht. unfold decoder_decode, packet.
  rewrite packet_roundtrip by done. unfold frag in *. cbn [fst] in Ht.
  rewrite bool_decide_eq_false_2 by (intros H; by apply H). rewrite Ht.
  replace (has_known_flags _) with true by (unfold has_known_flags; simpl; by destruct (type_of i)). done.
Qed.

Lemma select_pool_holding d s A score now : holding d s (Some A) → now < deadline → select_pool d score key now = Ret (d, s).
Proof.
  intros [_ _ _ Hh Ho] Hnow. unfold select_pool, message_status. destruct d as [p1 p2]. destruct s; simpl in *.
  - rewrite Hh. simpl. rewrite bool_decide_eq_true_2 by done. done.
  - rewrite Ho. simpl. rewrite Hh. simpl. rewrite bool_decide_eq_true_2 by done. done.
Qed.

Lemma decoder_step d s A i B score now :
  holding d s (Some A) → now < deadline → A ++ i :: B ≡ₚ indices → msg_id ≤ u16_max →
  ∃ d', decoder_decode d identity score now (packet i) = Ret (d', verdict B) ∧
    holding d' s (if bool_decide (B = []) then None else Some (i :: A)).
Proof.
  intros Hd Hnow Hp Hm. rewrite decoder_decode_packet by (try done; apply (pg_index _ _ _ (progress_intro A i B Hp))).
  rewrite (select_pool_holding d s A) by done. cbn [mbind outcome_bind].
  destruct (decode_step (get_pool d s) A i B) as (p' & Hdec & Hwf' & Hcfg & Hget); [apply Hd|apply Hd|done|apply Hd|].
  unfold decode_in_pool, decode_with_admission, has_message. rewrite (hd_here _ _ _ Hd). simpl.
  rewrite (hd_here _ _ _ Hd). simpl. rewrite Hdec. cbn [mbind outcome_bind].
  eexists. split; [done|]. eapply holding_set_pool; [done..|]. rewrite Hget. by destruct (bool_decide _).
Qed.

(** A decoder without the message and with room for it. *)
Record room (d : Decoder) (s : PoolSelection) : Prop := {
  rm_limit : (is_at_identity_limit (get_pool d s) identity).2 = false;
  rm_capacity : (ensure_identity_capacity (is_at_identity_limit (get_pool d s) identity).1 identity).2 = Ok tt;
  rm_admission : admission_blocked (get_pool d s) = false;
}.

Lemma room_admits d s now : room d s → holding d s None →
  ∃ p, (if has_message (get_pool d s) key then Ret (get_pool d s, Ok tt) else
      '(p, _) ← evict_one_stale_for_identity_if_limited (get_pool d s) key.1 now;
      Ret (ensure_identity_capacity p key.1)) = Ret (p, Ok tt) ∧
    stays cap (get_pool d s) p ∧ mp_messages p = mp_messages (get_pool d s) ∧
    count_of key.1 (mp_messages p) < cap (mp_limit_policy p).
Proof.
  intros [Hlim Hcap _] Hd. destruct (capacity_spec cap policy_ok (get_pool d s) now key (hd_wf _ _ _ Hd)) as (p & c & Heq & Hst & _ & Hcount).
  exists p. revert Heq. unfold has_message at 1 2. rewrite (hd_here _ _ _ Hd). simpl.
  unfold evict_one_stale_for_identity_if_limited, is_at_identity_limit in *.
  assert (∀ p, mp_messages (limit_for_new_message p identity).2 = mp_messages p) as Hm.
  { intros p0. unfold limit_for_new_message. by destruct (policy_limit _ _ _ _). }
  pose proof (Hm (get_pool d s)) as Hm1. destruct (limit_for_new_message (get_pool d s) identity) as [l q]. simpl in *.
  rewrite Hlim. cbn [negb mbind outcome_bind]. unfold ensure_identity_capacity in *.
  pose proof (Hm q) as Hm2. destruct (limit_for_new_message q identity) as [l' q']. simpl in *. rewrite Hcap.
  intros [= <- <-]. assert (mp_messages q' = mp_messages (get_pool d s)) as Hmsg by congruence. split_and!; try done.
  apply Hcount; [done|]. unfold has_message. rewrite Hmsg, (hd_here _ _ _ Hd). by rewrite bool_decide_eq_false_2 by (by intros []).
Qed.

Lemma select_pool_missing d s score now : holding d s None → pool_selection score = s → select_pool d score key now = Ret (d, s).
Proof.
  intros [_ _ _ Hh Ho] Hs. unfold select_pool, message_status. destruct d as [p1 p2]. destruct s; simpl in *.
  - rewrite Hh. simpl. rewrite Ho. simpl. by rewrite Hs.
  - rewrite Ho. simpl. rewrite Hh. simpl. by rewrite Hs.
Qed.

Lemma decoder_first d s i B score now :
  holding d s None → room d s → pool_selection score = s → deadline = now + pc_message_timeout (mp_cfg (get_pool d s)) →
  i :: B ≡ₚ indices → msg_id ≤ u16_max →
  ∃ d', decoder_decode d identity score now (packet i) = Ret (d', verdict B) ∧
    holding d' s (if bool_decide (B = []) then None else Some [i]).
Proof.
  intros Hd Hroom Hs Hdl Hp Hm.
  rewrite decoder_decode_packet by (try done; apply (pg_index _ _ _ (progress_intro [] i B Hp))).
  rewrite (select_pool_missing d s) by done. cbn [mbind outcome_bind].
  destruct (room_admits d s now Hroom Hd) as (p & Hcomp & Hst & Hmsg & Hcount).
  unfold decode_in_pool. change (in_identity (fragment_input i)) with key.1. rewrite Hcomp. cbn [mbind outcome_bind].
  assert (im_get (mp_messages p) key = None) as Hnone by (rewrite Hmsg; apply (hd_here _ _ _ Hd)).
  assert (admission_blocked p = false) as Hnb.
  { unfold admission_blocked, pool_size. rewrite Hmsg, (st_cfg _ _ _ Hst). apply Hroom. }
  unfold decode_with_admission, has_message. rewrite Hnone, bool_decide_eq_false_2 by (by intros []). rewrite Hnb.
  cbn [mbind outcome_bind]. rewrite Hnb. apply bool_decide_eq_false in Hnb. change (in_identity (fragment_input i)) with key.1.
  set (q := increment_identity_count (insert_message p key now) key.1).
  assert (pool_wf cap q) as Hq by (apply pool_wf_inserted; [apply Hst|done|lia|done]).
  destruct (decode_step q [] i B) as (p' & Hdec & Hwf' & Hcfg & Hget); [done| |done| |].
  { subst q. simpl. rewrite im_get_insert. f_equal. unfold message_state_new, state_of. f_equal. by rewrite (st_cfg _ _ _ Hst). }
  { subst q. simpl. rewrite (st_cfg _ _ _ Hst). apply Hd. }
  rewrite Hdec. cbn [mbind outcome_bind]. eexists. split; [done|].
  eapply holding_set_pool; [done|done|rewrite Hcfg; apply (st_cfg _ _ _ Hst)|]. rewrite Hget. by destruct (bool_decide _).
Qed.

(** The answers to [k + 1] fragments. *)
Definition answers (k : nat) : list (result DecodeError DecodeOutcome) := replicate k (Ok Pending) ++ [Ok (Complete payload)].

Lemma decode_rest d s A B l :
  holding d s (Some A) → A ++ B ≡ₚ indices → B ≠ [] → msg_id ≤ u16_max →
  ar_packet <$> l = packet <$> B → Forall (λ a, ar_identity a = identity ∧ ar_now a < deadline) l →
  ∃ d', decode_all d l = Ret (d', answers (length B - 1)) ∧ holding d' s None.
Proof.
  intros Hd Hp HB Hm. revert d A l Hd Hp HB. induction B as [|i B IH]; intros d A l Hd Hp HB Hl Hall; [done|].
  destruct l as [|a l]; [done|]. injection Hl as Ha Hl. apply Forall_cons in Hall as [[Hid Hnow] Hall].
  destruct (decoder_step d s A i B (ar_score a) (ar_now a) Hd Hnow Hp Hm) as (d1 & Hdec & Hd1).
  cbn [decode_all]. rewrite Hid, Ha, Hdec. cbn [mbind outcome_bind]. unfold verdict. destruct (decide (B = [])) as [->|HB'].
  - destruct l; [|done]. simpl in Hd1. simpl. by eexists.
  - rewrite bool_decide_eq_false_2 in Hd1 by done. rewrite bool_decide_eq_false_2 by done.
    destruct (IH d1 (i :: A) l Hd1) as (d2 & -> & Hd2); [|done..|].
    { rewrite <- Hp. simpl. by rewrite Permutation_middle. }
    cbn [mbind outcome_bind]. eexists. split; [|done]. destruct B as [|j B]; [done|]. simpl. by rewrite Nat.sub_0_r.
Qed.

Lemma decode_message d s a l :
  holding d s None → room d s → pool_selection (ar_score a) = s →
  deadline = ar_now a + pc_message_timeout (mp_cfg (get_pool d s)) → msg_id ≤ u16_max →
  ar_packet <$> (a :: l) ≡ₚ packet <$> indices →
  ar_identity a = identity → Forall (λ a, ar_identity a = identity ∧ ar_now a < deadline) l →
  ∃ d', decode_all d (a :: l) = Ret (d', answers (length l)) ∧ holding d' s None.
Proof.
  intros Hd Hroom Hs Hdl Hm Hp Hid Hall. apply Permutation_map_inv in Hp as (js & Hjs & Hp). symmetry in Hp.
  destruct js as [|i B]; [done|]. injection Hjs as Ha Hl.
  destruct (decoder_first d s i B (ar_score a) (ar_now a) Hd Hroom Hs Hdl Hp Hm) as (d1 & Hdec & Hd1).
  cbn [decode_all]. rewrite Hid, Ha, Hdec. cbn [mbind outcome_bind]. unfold verdict. destruct (decide (B = [])) as [->|HB'].
  - destruct l; [|done]. simpl in Hd1. simpl. by eexists.
  - rewrite bool_decide_eq_false_2 in Hd1 by done. rewrite bool_decide_eq_false_2 by done.
    destruct (decode_rest d1 s [i] B l Hd1) as (d2 & -> & Hd2); [done..|]. cbn [mbind outcome_bind].
    eexists. split; [|done]. apply (f_equal length) in Hl. rewrite !length_fmap in Hl. rewrite Hl.
    destruct B as [|j B]; [done|]. simpl. by rewrite Nat.sub_0_r.
Qed.
End encoder.

(** ** The round trip *)

Lemma encoder_fragment_inv e payload e' it : encoder_fragment e payload = Ret (e', Ok it) →
  ∃ n, 0 < en_max_fragment_payload e ∧
    n = (N.max (N.of_nat (length payload)) 1 + en_max_fragment_payload e - 1) / en_max_fragment_payload e ∧
    n ≤ MAX_FRAGMENTS ∧ it = mkFragmentIter payload (en_max_fragment_payload e) (en_next_msg_id e) 0 n.
Proof.
  unfold encoder_fragment, div_ceil. decide_case (en_max_fragment_payload e = 0) Hm; [done|]. cbn [mbind outcome_bind].
  case_bool_decide as Hn; [done|]. intros [= _ <-]. eexists. split; [lia|]. split; [done|]. split; [lia|done].
Qed.

Section roundtrip.
Context {E : LeanUdpEnv} (cap : LimitPolicy → N).

(** C16. The packets of a message, in whatever order they arrive before the message
    expires, give the message back with the last of them, and only with it, at
    any decoder that has room for it; the message then leaves the decoder. *)
Theorem fragments_reassemble (d : Decoder) (e e' : Encoder) it payload frags identity s a l :
  policy_laws E cap →
  pool_wf cap (priority_pool d) → pool_wf cap (regular_pool d) →
  en_next_msg_id e ≤ u16_max → N.of_nat (length payload) ≤ u64_MAX →
  encoder_fragment e payload = Ret (e', Ok it) → fragments_of it = Ret frags →
  (* the packets, in any order, from one sender before the message expires *)
  ar_packet <$> (a :: l) ≡ₚ (λ f, packet_header_bytes f.1 ++ f.2) <$> frags →
  ar_identity a = identity →
  Forall (λ b, ar_identity b = identity ∧ ar_now b < ar_now a + pc_message_timeout (mp_cfg (get_pool d s))) l →
  (* the pool that the sender's score selects has room for the message *)
  pool_selection (ar_score a) = s →
  has_message (priority_pool d) (identity, en_next_msg_id e) = false →
  has_message (regular_pool d) (identity, en_next_msg_id e) = false →
  room identity d s →
  N.of_nat (length payload) ≤ pc_max_message_size (mp_cfg (get_pool d s)) →
  ∃ d', decode_all d (a :: l) = Ret (d', replicate (length l) (Ok Pending) ++ [Ok (Complete payload)]) ∧
    has_message (priority_pool d') (identity, en_next_msg_id e) = false ∧
    has_message (regular_pool d') (identity, en_next_msg_id e) = false.
Proof.
  intros Hpol Hw1 Hw2 Hm Hlen Henc Hfr Hp Hid Hall Hs Hh1 Hh2 Hroom Hsz.
  apply encoder_fragment_inv in Henc as (n & Hmp & Hneq & Hn & ->).
  rewrite (fragments_of_spec _ _ _ n) in Hfr by done. injection Hfr as <-.
  apply has_message_false in Hh1, Hh2.
  destruct (decode_message (en_max_fragment_payload e) payload (en_next_msg_id e) n Hmp Hlen Hneq Hn
    (ar_now a + pc_message_timeout (mp_cfg (get_pool d s))) cap identity Hpol d s a l) as (d' & Hdec & Hd'); try done.
  { destruct s; by split. }
  { rewrite Hp, <- list_fmap_compose. done. }
  exists d'. split; [exact Hdec|]. destruct Hd' as [_ _ _ Hh Ho]. unfold has_message, key in *.
  destruct s; simpl in *; by rewrite Hh, Ho.
Qed.
End roundtrip.

(** A message of 20 bytes in three packets, the last of which arrives first. *)
Definition toy_policy : LimitPolicy (LeanUdpEnv := toy_env) :=
  mkDynamicCapIdentityLimitPolicy (I := N) 2 false (default_with_bootstrap 10) ∅ 0.
Definition toy_cap : LimitPolicy (LeanUdpEnv := toy_env) → N := max_messages_per_identity (I := N).
Definition toy_decoder : Decoder (E := toy_env) := with_clock_and_crypto_rng (E := toy_env) toy_config tt tt toy_policy toy_policy.
Definition toy_payload : list Byte.byte := replicate 8 Byte.x01 ++ replicate 8 Byte.x02 ++ replicate 4 Byte.x03.
Definition toy_iter : FragmentIter := mkFragmentIter toy_payload 8 0 0 3.
Definition toy_frags : list (PacketHeader * list Byte.byte) :=
  match fragments_of toy_iter with Ret fs => fs | _ => [] end.
Definition toy_wire (k : nat) : list Byte.byte :=
  match toy_frags !! k with Some f => packet_header_bytes f.1 ++ f.2 | None => [] end.

Lemma fragments_reassemble_witness :
  ∃ d', decode_all toy_decoder [toy_arrival 5 FpRegular 100 (toy_wire 2); toy_arrival 5 FpPrioritized 110 (toy_wire 0);
                                toy_arrival 5 FpRegular 149 (toy_wire 1)] =
    Ret (d', [Ok Pending; Ok Pending; Ok (Complete toy_payload)]).
Proof.
  assert (policy_laws toy_env toy_cap) as Hpol by apply dynamic_policy_laws.
  assert (∀ p, p = priority_pool toy_decoder ∨ p = regular_pool toy_decoder → pool_wf toy_cap p) as Hwf.
  { intros p [-> | ->]; (apply pool_new_wf; [exact Hpol|]); unfold u64_MAX; simpl; lia. }
  destruct (fragments_reassemble (E := toy_env) toy_cap toy_decoder (encoder_new 14) (mkEncoder 8 1)
    toy_iter toy_payload toy_frags (5 : N) PsRegular (toy_arrival 5 FpRegular 100 (toy_wire 2))
    [toy_arrival 5 FpPrioritized 110 (toy_wire 0); toy_arrival 5 FpRegular 149 (toy_wire 1)])
    as (d' & Hd & _).
  - exact Hpol.
  - apply Hwf. by left.
  - apply Hwf. by right.
  - by vm_compute.
  - by vm_compute.
  - vm_compute. reflexivity.
  - vm_compute. reflexivity.
  - apply (Permutation_cons_append [toy_wire 0; toy_wire 1] (toy_wire 2)).
  - reflexivity.
  - repeat constructor.
  - reflexivity.
  - vm_compute. reflexivity.
  - vm_compute. reflexivity.
  - split; vm_compute; reflexivity.
  - by vm_compute.
  - exists d'. exact Hd.
Defined.

(** ** The end marker *)

(** C40. A fragment beyond the end marker is refused when the marker came first. A
    marker that comes after a fragment beyond it is accepted, and a marker
    numbered 1 even completes the message: its two fragments are joined as if
    they were adjacent. *)
Theorem end_marker_checked_one_way cfg msg_id i j c data deadline :
  i < j → j < MAX_FRAGMENTS → N.of_nat (length data) + N.of_nat (length c) ≤ pc_max_message_size cfg →
  pc_max_message_size cfg ≤ u64_MAX →
  (∃ s, add_fragment cfg (mkMessageState {[j := c]} (N.of_nat (length c)) None deadline) msg_id i FtEnd data =
     FvAdded s (bool_decide (i = 1)) ∧ extract s = data ++ c) ∧
  add_fragment cfg (mkMessageState {[i := data]} (N.of_nat (length data)) (Some (i + 1)) deadline) msg_id j FtMiddle c =
    FvReject (ConflictingEndMarker (i + 1) (j + 1)) true.
Proof.
  intros Hij Hj Hsz Hcfg. unfold MAX_FRAGMENTS in Hj. unfold add_fragment, MAX_FRAGMENTS, u16_max.
  rewrite !(N.mod_small (_ + 1)) by lia. cbn [negb ms_fragments ms_total_frags ms_total_size ms_eviction_deadline].
  rewrite !lookup_singleton_ne by lia. rewrite !(bool_decide_eq_false_2 (is_Some None)) by (by intros []).
  rewrite (bool_decide_eq_true_2 (i < 512)), (bool_decide_eq_true_2 (j < 512)) by lia. cbn [negb]. split.
  - rewrite (bool_decide_eq_false_2 (i + 1 ≤ i)) by lia. unfold checked_add. rewrite decide_True by lia.
    rewrite (bool_decide_eq_true_2 (_ ≤ pc_max_message_size cfg)) by lia. cbn [negb default]. eexists. split.
    + f_equal. apply bool_decide_ext. rewrite map_size_insert_None by (by rewrite lookup_singleton_ne by lia).
      rewrite map_size_singleton. rewrite N.mod_small by lia. split; [intros [= ?]; lia|intros ->; done].
    + unfold extract. simpl. rewrite (btree_iter_unique _ [(i, data); (j, c)]); [by simpl; rewrite app_nil_r|..].
      * repeat constructor. unfold pair_key_le. simpl. lia.
      * rewrite map_to_list_insert by (by rewrite lookup_singleton_ne by lia). by rewrite map_to_list_singleton.
  - rewrite bool_decide_eq_true_2 by lia. done.
Qed.

Lemma end_marker_checked_one_way_witness :
  ∃ s, add_fragment (mkPoolConfig 2 100 50) (mkMessageState {[5 := [Byte.x05]]} 1 None 50) 0 1 FtEnd [Byte.x01] = FvAdded s true ∧
    extract s = [Byte.x01; Byte.x05].
Proof.
  destruct (end_marker_checked_one_way (mkPoolConfig 2 100 50) 0 1 5 [Byte.x05] [Byte.x01] 50) as [H _];
    [done|done|done|done|exact H].
Defined.
