(* ===== verification/Raptorcast.v ===== *)
(** * Broadcast in chunks: building packets (monad-raptorcast/src/packet, util.rs)

    A message is Raptor encoded into symbols; every symbol travels in a packet
    of its own, with a header that the author signs together with the root of
    a Merkle tree over a batch of packets. This file models the groups of
    recipients, the assignment of symbols to recipients and the packets. A
    byte ([u8]) of a packet is a number; hash functions and signatures are
    parameters and work on bytes. *)
From S2P Require Import Prelude Types Interfaces ValidatorSet DynamicCap RaptorSets RaptorCode RaptorEncoder Merkle.

(** ** Bytes *)

Definition u8_byte (n : N) : Byte.byte := default Byte.x00 (Byte.of_N n).

(** [to_le_bytes] of an integer of [n] bytes, and [from_le_bytes]. *)
Fixpoint le_bytes (n : nat) (x : N) : list N :=
  match n with O => [] | S n => x `mod` 256 :: le_bytes n (x / 256) end.
Definition le_value (l : list N) : N := foldr (λ b acc, b + 256 * acc) 0 l.

(** [buf[from..to].copy_from_slice(data)]. *)
Definition write_at (buf : list N) (from to : nat) (data : list N) : outcome (list N) :=
  if bool_decide ((from ≤ to ∧ to ≤ length buf ∧ length data = to - from)%nat)
  then Ret (take from buf ++ data ++ drop to buf) else Panic.

Definition div_ceil (a b : N) : N := (a + b - 1) / b.
Definition wrapping_sub64 (a b : N) : N := (a + (u64_MAX + 1) - b) `mod` (u64_MAX + 1).
Definition isize_MAX : N := 9223372036854775807.

(** What the chunks need of keys and signatures besides signing: the bytes of
    a key, and the bytes of a signature. *)
Class ChunkCodec `{P : Params} := {
  pubkey_bytes : NodeId → list N;
  signature_serialize : AuthorSignature → list N;
  signature_deserialize : list N → option AuthorSignature;
}.

(** [SliceRandom::shuffle] of the crate rand, with a generator from a seed. *)
Class Shuffler := {
  shuffle_with : ∀ {A}, list N → list A → list A;
  shuffle_perm : ∀ {A} seed (l : list A), shuffle_with seed l ≡ₚ l;
}.

(** [f64::from(U256)] of the crate ruint. *)
Class StakeFloat := { stake_to_f64 : Stake → f64 }.

Section raptorcast.
Context `{P : Params} {AS : AuthorSigning} {CC : ChunkCodec} {HS : Hasher}.

Definition SIGNATURE_SIZE : nat := 65.

(** ** util.rs: hashes *)

Definition compute_full_hash (b : list N) : list Byte.byte := hash_of (u8_byte <$> b).
Definition compute_hash (id : NodeId) : list N := Byte.to_N <$> take 20 (compute_full_hash (pubkey_bytes id)).
Definition compute_app_message_hash (app_msg : list N) : list N := Byte.to_N <$> take 20 (compute_full_hash app_msg).

(** ** util.rs: redundancy, a fixed-point number with 11 fractional bits *)

Definition Redundancy : Type := N.
Definition FRAC_BITS : N := 11.
Definition MAX_MULTIPLIER : N := u64_MAX / 65535.

Definition redundancy_from_u8 (num : N) : Redundancy := N.shiftl num FRAC_BITS.

Definition scale (r : Redundancy) (base : N) : option N :=
  if bool_decide (MAX_MULTIPLIER < base) then None else
  scaled ← checked_mul u64_MAX r base;
  Some (div_ceil scaled (N.shiftl 1 FRAC_BITS)).

(** ** util.rs and udp.rs: groups of recipients *)

Inductive BroadcastMode := ModePrimary | ModeSecondary | ModeUnspecified.

Inductive GroupId := GroupPrimary (e : Epoch) | GroupSecondary (r : Round).
Definition group_id_u64 (g : GroupId) : N := match g with GroupPrimary e => e | GroupSecondary r => r end.

Record PrimaryBroadcastGroup := mkPrimaryBroadcastGroup {
  pg_epoch : Epoch;
  pg_author : NodeId;
  pg_group : ValidatorSet;
}.

(** [SecondaryGroup]: its full nodes, a sorted set. *)
Record SecondaryBroadcastGroup := mkSecondaryBroadcastGroup {
  sg_round : Round;
  sg_publisher : NodeId;
  sg_full_nodes : gset NodeId;
}.

Definition sorted_nodes (s : gset NodeId) : list NodeId := merge_sort key_le (elements s).

Inductive BuildTarget :=
| BtBroadcast (g : PrimaryBroadcastGroup)
| BtRaptorcast (g : PrimaryBroadcastGroup)
| BtPointToPoint (group_id : GroupId) (recipient : NodeId)
| BtFullNodeRaptorCast (g : SecondaryBroadcastGroup).

Definition point_to_point (epoch : Epoch) (recipient : NodeId) : BuildTarget := BtPointToPoint (GroupPrimary epoch) recipient.

Definition target_group_id (t : BuildTarget) : GroupId :=
  match t with
  | BtBroadcast g | BtRaptorcast g => GroupPrimary (pg_epoch g)
  | BtFullNodeRaptorCast g => GroupSecondary (sg_round g)
  | BtPointToPoint group_id _ => group_id
  end.

Definition target_iter (t : BuildTarget) : list NodeId :=
  match t with
  | BtBroadcast g | BtRaptorcast g => btree_keys (validators (pg_group g))
  | BtPointToPoint _ recipient => [recipient]
  | BtFullNodeRaptorCast g => sorted_nodes (sg_full_nodes g)
  end.

Definition broadcast_mode_from_build_target (t : BuildTarget) : BroadcastMode :=
  match t with
  | BtRaptorcast _ => ModePrimary
  | BtFullNodeRaptorCast _ => ModeSecondary
  | BtBroadcast _ | BtPointToPoint _ _ => ModeUnspecified
  end.

(** ** packet/mod.rs and packet/chunk.rs *)

Inductive BuildError :=
| MerkleTreeTooShallow | MerkleTreeTooDeep | ChunkIdOverflow | EncoderCreationFailed | ChunkLengthTooSmall
| TooManyChunks | AppMessageTooLarge | ZeroTotalStake | RedundancyTooHigh.

(** A [Recipient] caches the hash of its node; here it is the node. *)
Record Chunk := mkChunk { chunk_id : N; chunk_recipient : NodeId; chunk_payload : list N }.

Record UdpMessage := mkUdpMessage { um_recipient : NodeId; um_payload : list N; um_stride : nat }.

Definition chunk_message (c : Chunk) : UdpMessage := mkUdpMessage (chunk_recipient c) (chunk_payload c) (length (chunk_payload c)).

(** ** packet/assigner.rs *)

Record ChunkTarget := mkChunkTarget { node_index : nat; rebroadcast_targets : option (list nat) }.
Definition target_of_index (i : nat) : ChunkTarget := mkChunkTarget i None.

Record ChunkAssignment := mkChunkAssignment { node_len : nat; targets : list ChunkTarget }.

Class OrderedNodes (Nodes : Type) := {
  on_get : Nodes → nat → option NodeId;
  on_shuffle : Nodes → list N → Nodes;
  on_len : Nodes → nat;
}.

Definition num_chunks (a : ChunkAssignment) : nat := length (targets a).
Definition push_range (a : ChunkAssignment) (target : ChunkTarget) (count : nat) : ChunkAssignment :=
  {| a with targets := targets a ++ replicate count target |}.
Definition push_target (a : ChunkAssignment) (target : ChunkTarget) : ChunkAssignment :=
  {| a with targets := targets a ++ [target] |}.

Definition unicast (n : N) : ChunkAssignment := push_range (mkChunkAssignment 1 []) (target_of_index 0) (N.to_nat n).

(** The loop of [materialize]: every chunk gets its part of a zeroed buffer. *)
Definition materialize_chunk {Nodes} `{OrderedNodes Nodes} (segment_len : nat) (nodes : Nodes) (i : nat) (t : ChunkTarget) : option Chunk :=
  node_id ← on_get nodes (node_index t);
  Some (mkChunk (N.of_nat i) node_id (replicate segment_len 0)).

Definition materialize {Nodes} `{OrderedNodes Nodes} (a : ChunkAssignment) (segment_len : nat) (nodes : Nodes)
    : outcome (result BuildError (list Chunk)) :=
  _ ← rust_assert (bool_decide (node_len a = on_len nodes));
  if bool_decide (targets a = []) then Ret (Ok []) else
  if bool_decide (MAX_TRIPLES < N.of_nat (num_chunks a)) then Ret (Err TooManyChunks) else
  Ret (Ok (omap id (imap (materialize_chunk segment_len nodes) (targets a)))).

#[global] Instance single_node : OrderedNodes NodeId := {
  on_get self i := match i with O => Some self | _ => None end;
  on_shuffle self _ := self;
  on_len _ := 1%nat;
}.

Context {SH : Shuffler} {SF : StakeFloat}.

Record EvenPartition := mkEvenPartition { ep_nodes : list NodeId }.
Definition even_from_group (g : SecondaryBroadcastGroup) : EvenPartition := mkEvenPartition (sorted_nodes (sg_full_nodes g)).

#[global] Instance even_nodes : OrderedNodes EvenPartition := {
  on_get p i := ep_nodes p !! i;
  on_shuffle p seed := mkEvenPartition (shuffle_with seed (ep_nodes p));
  on_len p := length (ep_nodes p);
}.

Definition even_assign (p : EvenPartition) (num_base_symbols : N) (redundancy : Redundancy) : result BuildError ChunkAssignment :=
  num_symbols ← ok_or (scale redundancy num_base_symbols) TooManyChunks;
  let num_nodes := length (ep_nodes p) in
  let assignment := mkChunkAssignment num_nodes [] in
  if bool_decide (num_nodes = 0%nat) then Ok assignment else
  Ok (foldl (λ a chunk_id, push_target a (target_of_index (chunk_id mod num_nodes))) assignment (seq 0 (N.to_nat num_symbols))).

Record StakePartition := mkStakePartition { sp_validators : list (NodeId * f64) }.

#[global] Instance stake_nodes : OrderedNodes StakePartition := {
  on_get p i := fst <$> sp_validators p !! i;
  on_shuffle p seed := mkStakePartition (shuffle_with seed (sp_validators p));
  on_len p := length (sp_validators p);
}.

Definition stake_from_group (g : PrimaryBroadcastGroup) : outcome StakePartition :=
  let others := filter (λ e, e.1 ≠ pg_author g) (btree_iter (validators (pg_group g))) in
  total ← stake_sum others.*2;
  if bool_decide (total = Stake_ZERO) then Ret (mkStakePartition []) else
  Ret (mkStakePartition ((λ e, (e.1, f64_div (stake_to_f64 e.2) (stake_to_f64 total))) <$> others)).

Definition stake_partition_num_chunks_hint (num_base_symbols : N) (redundancy : Redundancy) (group_size : N) : option N :=
  num_validators ← checked_sub group_size 1;
  num_scaled_symbols ← scale redundancy num_base_symbols;
  checked_add u64_MAX num_scaled_symbols num_validators.

Definition num_chunks_hint (p : StakePartition) (num_base_symbols : N) (redundancy : Redundancy) : option N :=
  stake_partition_num_chunks_hint num_base_symbols redundancy (N.of_nat (length (sp_validators p)) + 1).

(** The symbols that each validator has to get. *)
Definition obligations (p : StakePartition) (num_scaled_symbols : N) : list (nat * nat) :=
  imap (λ i e, (i, N.to_nat (f64_as_u64 (f64_ceil (f64_mul e.2 (f64_of_N num_scaled_symbols)))))) (sp_validators p).

(** One pass of [remaining.retain_mut]. *)
Fixpoint retain_pass (remaining : list (nat * nat)) (a : ChunkAssignment) : list (nat * nat) * ChunkAssignment :=
  match remaining with
  | [] => ([], a)
  | (node_idx, rem) :: remaining =>
      match rem with
      | O => retain_pass remaining a
      | S rem =>
          let '(kept, a) := retain_pass remaining (push_target a (target_of_index node_idx)) in
          (if bool_decide (0 < rem)%nat then (node_idx, rem) :: kept else kept, a)
      end
  end.

Fixpoint round_robin_loop (fuel : nat) (remaining : list (nat * nat)) (a : ChunkAssignment) : outcome ChunkAssignment :=
  match fuel with
  | O => OutOfFuel
  | S fuel =>
      match remaining with
      | [] => Ret a
      | [(node_idx, rem)] => Ret (push_range a (target_of_index node_idx) rem)
      | _ => let '(remaining, a) := retain_pass remaining a in round_robin_loop fuel remaining a
      end
  end.

(** Every pass serves or drops every validator that is left. *)
Definition round_robin_fuel (remaining : list (nat * nat)) : nat := S (length remaining + sum_list remaining.*2).

Definition assign_round_robin (p : StakePartition) (num_base_symbols : N) (redundancy : Redundancy)
    : outcome (result BuildError ChunkAssignment) :=
  match num_chunks_hint p num_base_symbols redundancy, scale redundancy num_base_symbols with
  | Some capacity, Some num_scaled_symbols =>
      let remaining := obligations p num_scaled_symbols in
      a ← round_robin_loop (round_robin_fuel remaining) remaining (mkChunkAssignment (length (sp_validators p)) []);
      _ ← rust_assert (bool_decide (num_scaled_symbols ≤ N.of_nat (num_chunks a)));
      _ ← rust_assert (bool_decide (N.of_nat (num_chunks a) ≤ capacity));
      Ret (Ok a)
  | _, _ => Ret (Err TooManyChunks)
  end.

Definition stake_assign (p : StakePartition) (num_base_symbols : N) (redundancy : Redundancy)
    : outcome (result BuildError ChunkAssignment) :=
  if bool_decide (sp_validators p = []) then Ret (Ok (mkChunkAssignment 0 [])) else assign_round_robin p num_base_symbols redundancy.

(** ** packet/regular.rs *)

Definition MAX_REDUNDANCY : Redundancy := redundancy_from_u8 3.
Definition MIN_MERKLE_TREE_DEPTH : N := 1.
Definition MAX_MERKLE_TREE_DEPTH : N := 9.
Definition MIN_CHUNK_LENGTH : N := 960.
Definition MAX_NUM_PACKETS : N := 65535.

Definition HEADER_LEN : nat := SIGNATURE_SIZE + 2 + 1 + 8 + 8 + 20 + 4.
Definition CHUNK_HEADER_LEN : nat := 20 + 1 + 1 + 2.
Definition MERKLE_HASH_LEN : nat := 20.

Record PacketLayout := mkPacketLayout { chunk_header_start : nat; segment_len : nat }.

Definition calc_merkle_proof_len (merkle_tree_depth : N) : N :=
  (wrapping_sub64 merkle_tree_depth 1 * N.of_nat MERKLE_HASH_LEN) `mod` (u64_MAX + 1).
Definition calc_segment_len (chunk_len merkle_tree_depth : N) : N :=
  (N.of_nat HEADER_LEN + calc_merkle_proof_len merkle_tree_depth + N.of_nat CHUNK_HEADER_LEN + chunk_len) `mod` (u64_MAX + 1).
Definition MIN_SEGMENT_LENGTH : N := calc_segment_len MIN_CHUNK_LENGTH MAX_MERKLE_TREE_DEPTH.
(** The Ethernet MTU of 1500 without the headers of IPv4 and UDP. *)
Definition MAX_SEGMENT_LENGTH : N := 1500 - 20 - 8.
Definition DEFAULT_SEGMENT_SIZE : nat := 1472.

Definition layout_new (segment_len : nat) (merkle_tree_depth : N) : PacketLayout :=
  mkPacketLayout (HEADER_LEN + N.to_nat (calc_merkle_proof_len merkle_tree_depth)) segment_len.

Definition symbol_start (l : PacketLayout) : nat := chunk_header_start l + CHUNK_HEADER_LEN.
Definition symbol_len (l : PacketLayout) : N := wrapping_sub64 (N.of_nat (segment_len l)) (N.of_nat (symbol_start l)).
Definition num_base_symbols (l : PacketLayout) (app_message_len : N) : outcome N :=
  if bool_decide (symbol_len l = 0) then Panic else Ret (div_ceil app_message_len (symbol_len l)).
(** The cast to [u8] and the addition wrap. *)
Definition layout_tree_depth (l : PacketLayout) : N :=
  ((N.of_nat ((chunk_header_start l - HEADER_LEN) / MERKLE_HASH_LEN)) `mod` 256 + 1) `mod` 256.
Definition merkle_batch_len (l : PacketLayout) : outcome N :=
  expect (checked_pow u64_MAX 2 ((layout_tree_depth l + 255) `mod` 256)).

Definition symbol (l : PacketLayout) (c : Chunk) : outcome (list N) := slice (chunk_payload c) (symbol_start l) (segment_len l).
Definition write_symbol (l : PacketLayout) (c : Chunk) (data : list N) : outcome Chunk :=
  payload ← write_at (chunk_payload c) (symbol_start l) (segment_len l) data;
  Ret {| c with chunk_payload := payload |}.

Definition layout_write_header (l : PacketLayout) (c : Chunk) (signature header : list N) : outcome Chunk :=
  payload ← write_at (chunk_payload c) 0 SIGNATURE_SIZE signature;
  payload ← write_at payload SIGNATURE_SIZE HEADER_LEN header;
  Ret {| c with chunk_payload := payload |}.

Definition write_chunk_header (l : PacketLayout) (c : Chunk) (merkle_leaf_index : N) : outcome (result BuildError Chunk) :=
  if bool_decide (u16_MAX < chunk_id c) then Ret (Err ChunkIdOverflow) else
  let from := chunk_header_start l in
  buffer ← slice (chunk_payload c) from (from + CHUNK_HEADER_LEN);
  buffer ← write_at buffer 0 20 (compute_hash (chunk_recipient c));
  buffer ← write_at buffer 20 21 [merkle_leaf_index];
  buffer ← write_at buffer 22 24 (le_bytes 2 (chunk_id c));
  payload ← write_at (chunk_payload c) from (from + CHUNK_HEADER_LEN) buffer;
  Ret (Ok {| c with chunk_payload := payload |}).

Definition write_merkle_proof (l : PacketLayout) (c : Chunk) (proof : list MerkleHash) : outcome Chunk :=
  buffer ← slice (chunk_payload c) HEADER_LEN (chunk_header_start l);
  buffer ← for_each (λ buffer e, write_at buffer (e.1 * MERKLE_HASH_LEN) ((e.1 + 1) * MERKLE_HASH_LEN) (Byte.to_N <$> e.2))
    buffer (imap pair proof);
  payload ← write_at (chunk_payload c) HEADER_LEN (chunk_header_start l) buffer;
  Ret {| c with chunk_payload := payload |}.

Definition chunk_hash (l : PacketLayout) (c : Chunk) : outcome (list Byte.byte) :=
  hashed ← slice (chunk_payload c) (chunk_header_start l) (segment_len l);
  Ret (compute_full_hash hashed).

(** *** Symbols *)

(** [symbol_chunks] has for every symbol one more than the index of a chunk
    that has it, or 0. *)
Definition encode_symbols_step (e : Encoder) (l : PacketLayout) (s : list Chunk * list nat) (i : nat) : outcome (list Chunk * list nat) :=
  let '(chunks, symbol_chunks) := s in
  c ← expect (chunks !! i);
  j ← expect (symbol_chunks !! N.to_nat (chunk_id c));
  match j with
  | O =>
      symbol_buffer ← symbol l c;
      symbol_buffer ← encode_symbol e symbol_buffer (chunk_id c);
      c ← write_symbol l c symbol_buffer;
      Ret (<[i := c]> chunks, <[N.to_nat (chunk_id c) := S i]> symbol_chunks)
  | S j =>
      _ ← rust_assert (bool_decide (i ≠ j));
      src_chunk ← expect (chunks !! j);
      src_buffer ← symbol l src_chunk;
      c ← write_symbol l c src_buffer;
      Ret (<[i := c]> chunks, symbol_chunks)
  end.

(** A symbol that no vector can hold cannot be allocated. *)
Definition encode_symbols (app_message : list N) (chunks : list Chunk) (l : PacketLayout) : outcome (result BuildError (list Chunk)) :=
  if bool_decide (isize_MAX < symbol_len l) then Panic else
  r ← encoder_new app_message (N.to_nat (symbol_len l));
  match r with
  | Err _ => Ret (Err EncoderCreationFailed)
  | Ok encoder =>
      '(chunks, _) ← for_each (encode_symbols_step encoder l) (chunks, replicate (length chunks) 0%nat) (seq 0 (length chunks));
      Ret (Ok chunks)
  end.

(** *** Merkle batches *)

Fixpoint build_leaves (l : PacketLayout) (leaf_index : nat) (chunks : list Chunk)
    : outcome (result BuildError (list Chunk * list (list Byte.byte))) :=
  match chunks with
  | [] => Ret (Ok ([], []))
  | c :: chunks =>
      c ←? write_chunk_header l c (N.of_nat leaf_index `mod` 256);
      hash ← chunk_hash l c;
      '(chunks, hashes) ←? build_leaves l (S leaf_index) chunks;
      Ret (Ok (c :: chunks, hash :: hashes))
  end.

Definition build_merkle_tree (l : PacketLayout) (chunks : list Chunk) : outcome (result BuildError (list Chunk * MerkleTree)) :=
  '(chunks, hashes) ←? build_leaves l 0 chunks;
  tree ← new_with_depth hashes (layout_tree_depth l);
  Ret (Ok (chunks, tree)).

Definition sign_batch (key : AuthorKeyPair) (header : list N) (merkle_root : MerkleHash) : outcome (list N) :=
  let buffer := (u8_byte <$> header) ++ merkle_root in
  let signature := signature_serialize (author_sign SdRaptorcastChunk buffer key) in
  _ ← rust_assert (bool_decide (length signature = SIGNATURE_SIZE));
  Ret signature.

Definition finish_chunk (l : PacketLayout) (signature header : list N) (tree : MerkleTree) (leaf_index : nat) (c : Chunk) : outcome Chunk :=
  c ← layout_write_header l c signature header;
  proof ← merkle_proof tree (N.of_nat leaf_index `mod` (u16_MAX + 1));
  write_merkle_proof l c (siblings proof).

Definition batch_write_header (l : PacketLayout) (key : AuthorKeyPair) (header : list N) (chunks : list Chunk)
    : outcome (result BuildError (list Chunk)) :=
  '(chunks, tree) ←? build_merkle_tree l chunks;
  root ← merkle_root tree;
  signature ← sign_batch key header root;
  chunks ← mapM (λ e, finish_chunk l signature header tree e.1 e.2) (imap pair chunks);
  Ret (Ok chunks).

(** [owned_merkle_batches] and the loop over it; the messages of a batch reach
    the collector before the next batch is built. *)
Fixpoint assemble_batches (l : PacketLayout) (key : AuthorKeyPair) (header : list N) (batches : list (list Chunk)) (collector : list UdpMessage)
    : outcome (list UdpMessage * result BuildError unit) :=
  match batches with
  | [] => Ret (collector, Ok tt)
  | batch :: batches =>
      r ← batch_write_header l key header batch;
      match r with
      | Err e => Ret (collector, Err e)
      | Ok batch => assemble_batches l key header batches (collector ++ (chunk_message <$> batch))
      end
  end.

Definition assemble (chunks : list Chunk) (key : AuthorKeyPair) (l : PacketLayout) (app_message header : list N) (collector : list UdpMessage)
    : outcome (list UdpMessage * result BuildError unit) :=
  r ← encode_symbols app_message chunks l;
  match r with
  | Err e => Ret (collector, Err e)
  | Ok chunks =>
      batch_len ← merkle_batch_len l;
      assemble_batches l key header (RaptorEncoder.chunks (N.to_nat batch_len) chunks) collector
  end.

(** *** Building *)

Definition VERSION : N := 0.

Definition broadcast_bits (mode : BroadcastMode) : N :=
  match mode with ModePrimary => N.shiftl 2 6 | ModeSecondary => N.shiftl 1 6 | ModeUnspecified => N.shiftl 0 6 end.

Definition build_header (mode : BroadcastMode) (merkle_tree_depth : N) (group_id : GroupId) (unix_ts_ms : N)
    (app_message_hash : list N) (app_message_len : N) : result BuildError (list N) :=
  if bool_decide (N.land merkle_tree_depth 240 ≠ 0) then Err MerkleTreeTooDeep else
  if bool_decide (4294967295 < app_message_len) then Err AppMessageTooLarge else
  Ok (le_bytes 2 VERSION ++ [N.lor (broadcast_bits mode) (N.land merkle_tree_depth 15)] ++
      le_bytes 8 (group_id_u64 group_id) ++ le_bytes 8 unix_ts_ms ++ app_message_hash ++ le_bytes 4 app_message_len).

Definition derive_seed (app_message_hash : list N) : list N := app_message_hash ++ replicate 12 0.

Definition checked_symbols (num_base_symbols : N) (redundancy : Redundancy) : result BuildError N :=
  num_symbols ← ok_or (scale redundancy num_base_symbols) TooManyChunks;
  if bool_decide (MAX_TRIPLES < num_symbols) then Err TooManyChunks else Ok num_symbols.

(** [seed] is drawn from the thread's generator. *)
Definition generate_chunks (t : BuildTarget) (self_node_id : NodeId) (app_message_hash : list N) (num_base_symbols : N)
    (redundancy : Redundancy) (l : PacketLayout) (seed : list N) : outcome (result BuildError (list Chunk)) :=
  chunks ←? match t with
    | BtPointToPoint _ recipient =>
        if bool_decide (recipient = self_node_id) then Ret (Ok []) else
        num_symbols ←? Ret (checked_symbols num_base_symbols redundancy);
        materialize (unicast num_symbols) (segment_len l) recipient
    | BtBroadcast g =>
        num_symbols ←? Ret (checked_symbols num_base_symbols redundancy);
        try_fold (λ chunks recipient,
            more ←? materialize (unicast num_symbols) (segment_len l) recipient;
            Ret (Ok (chunks ++ more)))
          [] (filter (λ n, n ≠ self_node_id) (btree_keys (validators (pg_group g))))
    | BtRaptorcast g =>
        partition ← stake_from_group g;
        let partition := on_shuffle partition (derive_seed app_message_hash) in
        assignment ←? stake_assign partition num_base_symbols redundancy;
        materialize assignment (segment_len l) partition
    | BtFullNodeRaptorCast g =>
        let partition := on_shuffle (even_from_group g) seed in
        assignment ←? Ret (even_assign partition num_base_symbols redundancy);
        materialize assignment (segment_len l) partition
    end;
  Ret (if bool_decide (MAX_NUM_PACKETS < N.of_nat (length chunks)) then Err TooManyChunks else Ok chunks).

Definition build_into (key : AuthorKeyPair) (l : PacketLayout) (redundancy : Redundancy) (unix_ts_ms : N) (app_message : list N)
    (t : BuildTarget) (seed : list N) (collector : list UdpMessage) : outcome (list UdpMessage * result BuildError unit) :=
  let app_message_hash := compute_app_message_hash app_message in
  let app_message_len := N.of_nat (length app_message) in
  num_base ← num_base_symbols l app_message_len;
  r ← generate_chunks t (author_pubkey key) app_message_hash num_base redundancy l seed;
  match r with
  | Err e => Ret (collector, Err e)
  | Ok [] => Ret (collector, Ok tt)
  | Ok chunks =>
      match build_header (broadcast_mode_from_build_target t) (layout_tree_depth l) (target_group_id t) unix_ts_ms
              app_message_hash app_message_len with
      | Err e => Ret (collector, Err e)
      | Ok header => assemble chunks key l app_message header collector
      end
  end.

(** ** packet/builder.rs *)

Definition MAX_MESSAGE_SIZE : N := 3 * 1024 * 1024.
Definition DEFAULT_MERKLE_TREE_DEPTH : N := 6.

Inductive TimestampMode := TsFixed (ts : N) | TsRealTime.

Record MessageBuilder := mkMessageBuilder {
  mb_key : AuthorKeyPair;
  mb_redundancy : option Redundancy;
  mb_unix_ts_ms : TimestampMode;
  mb_segment_size : nat;
  mb_merkle_tree_depth : N;
}.

Definition message_builder_new (key : AuthorKeyPair) : MessageBuilder :=
  mkMessageBuilder key None TsRealTime DEFAULT_SEGMENT_SIZE DEFAULT_MERKLE_TREE_DEPTH.

Definition unwrap_redundancy (b : MessageBuilder) : outcome (result BuildError Redundancy) :=
  redundancy ← expect (mb_redundancy b);
  Ret (if bool_decide (MAX_REDUNDANCY < redundancy) then Err RedundancyTooHigh else Ok redundancy).

Definition unwrap_merkle_tree_depth (b : MessageBuilder) : result BuildError N :=
  let depth := mb_merkle_tree_depth b in
  if bool_decide (depth < MIN_MERKLE_TREE_DEPTH) then Err MerkleTreeTooShallow
  else if bool_decide (MAX_MERKLE_TREE_DEPTH < depth) then Err MerkleTreeTooDeep else Ok depth.

(** [now] is the time of the system. *)
Definition unwrap_unix_ts_ms (b : MessageBuilder) (now : N) : N := match mb_unix_ts_ms b with TsFixed ts => ts | TsRealTime => now end.

Definition builder_build_into (b : MessageBuilder) (app_message : list N) (t : BuildTarget) (now : N) (seed : list N)
    (collector : list UdpMessage) : outcome (list UdpMessage * result BuildError unit) :=
  match unwrap_merkle_tree_depth b with
  | Err e => Ret (collector, Err e)
  | Ok depth =>
      r ← unwrap_redundancy b;
      match r with
      | Err e => Ret (collector, Err e)
      | Ok redundancy =>
          if bool_decide (MAX_MESSAGE_SIZE < N.of_nat (length app_message)) then Ret (collector, Err AppMessageTooLarge) else
          build_into (mb_key b) (layout_new (mb_segment_size b) depth) redundancy (unwrap_unix_ts_ms b now) app_message t seed collector
      end
  end.

Definition build_vec (b : MessageBuilder) (app_message : list N) (t : BuildTarget) (now : N) (seed : list N)
    : outcome (result BuildError (list UdpMessage)) :=
  '(packets, r) ← builder_build_into b app_message t now seed [];
  Ret (match r with Ok _ => Ok packets | Err e => Err e end).

(** [build_messages] of packet/mod.rs: errors are logged and send nothing. *)
Definition build_messages {SocketAddr} (key : AuthorKeyPair) (segment_size : nat) (app_message : list N) (redundancy : Redundancy)
    (unix_ts_ms : N) (t : BuildTarget) (known_addresses : gmap NodeId SocketAddr) (seed : list N) : outcome (list (SocketAddr * list N)) :=
  let builder := mkMessageBuilder key (Some redundancy) (TsFixed unix_ts_ms) segment_size DEFAULT_MERKLE_TREE_DEPTH in
  r ← build_vec builder app_message t 0 seed;
  let packets := match r with Ok packets => packets | Err _ => [] end in
  Ret (omap (λ msg, dest ← known_addresses !! um_recipient msg; Some (dest, um_payload msg)) packets).
End raptorcast.

(** ** Bytes and slices *)

Lemma le_bytes_length n x : length (le_bytes n x) = n.
Proof. revert x. induction n as [|n IH]; intros x; simpl; [done|by rewrite IH]. Qed.

Lemma le_value_bytes n x : x < 256 ^ N.of_nat n → le_value (le_bytes n x) = x.
Proof.
  revert x. induction n as [|n IH]; intros x Hx; [simpl in *; lia|]. rewrite Nat2N.inj_succ, N.pow_succ_r' in Hx. cbn [le_bytes le_value foldr].
  change (foldr _ 0 (le_bytes n (x / 256))) with (le_value (le_bytes n (x / 256))). rewrite IH by (apply N.Div0.div_lt_upper_bound; lia).
  pose proof (N.Div0.div_mod x 256). lia.
Qed.

Lemma u8_byte_to_N b : u8_byte (Byte.to_N b) = b.
Proof. unfold u8_byte. by rewrite Byte.of_to_N. Qed.
Lemma u8_bytes_to_N (l : list Byte.byte) : u8_byte <$> (Byte.to_N <$> l) = l.
Proof. rewrite <- list_fmap_compose. rewrite <- (list_fmap_id l) at 2. apply list_fmap_ext. intros i b _. apply u8_byte_to_N. Qed.

Lemma write_at_app a b c d from to : length a = from → (from + length b = to)%nat → length d = length b →
  write_at (a ++ b ++ c) from to d = Ret (a ++ d ++ c).
Proof.
  intros Ha Hb Hd. unfold write_at. rewrite !length_app, bool_decide_eq_true_2 by lia. rewrite take_app_length' by done. do 3 f_equal.
  rewrite app_assoc. apply drop_app_length'. rewrite length_app. lia.
Qed.

Lemma slice_app {A} (a b c : list A) from to : length a = from → (from + length b = to)%nat → slice (a ++ b ++ c) from to = Ret b.
Proof.
  intros Ha Hb. unfold slice. rewrite !length_app, bool_decide_eq_true_2 by lia. rewrite drop_app_length' by done. f_equal. apply take_app_length'. lia.
Qed.
Lemma slice_app_r {A} (a b : list A) from to : length a = from → (from + length b = to)%nat → slice (a ++ b) from to = Ret b.
Proof. intros. rewrite <- (app_nil_r b) at 1. by apply slice_app. Qed.
Lemma write_at_app_r a b d from to : length a = from → (from + length b = to)%nat → length d = length b → write_at (a ++ b) from to d = Ret (a ++ d).
Proof. intros. pose proof (write_at_app a b [] d from to) as E. rewrite !app_nil_r in E. by apply E. Qed.
Lemma write_at_head b c d to : length b = to → length d = to → write_at (b ++ c) 0 to d = Ret (d ++ c).
Proof. intros Hb Hd. apply (write_at_app [] b c d 0 to); [done|done|by rewrite Hb, Hd]. Qed.

(** ** The layout of a packet *)

(** A segment that has room for the headers with a tree of [2 ^ k] leaves, and
    for a symbol of [n] bytes. *)
Definition layout_for (k n : nat) : PacketLayout := layout_new (HEADER_LEN + k * MERKLE_HASH_LEN + CHUNK_HEADER_LEN + n) (N.of_nat (S k)).

Lemma calc_merkle_proof_len_ok k : (k ≤ 8)%nat → calc_merkle_proof_len (N.of_nat (S k)) = N.of_nat (k * MERKLE_HASH_LEN).
Proof.
  intros Hk. unfold calc_merkle_proof_len, wrapping_sub64, MERKLE_HASH_LEN, u64_MAX.
  replace (N.of_nat (S k) + (18446744073709551615 + 1) - 1) with (N.of_nat k + 1 * (18446744073709551615 + 1)) by lia.
  rewrite N.Div0.mod_add, (N.mod_small (N.of_nat k)) by lia. rewrite N.mod_small by lia. lia.
Qed.

Section layout.
Context (k n : nat) (Hk : (k ≤ 8)%nat).
#[local] Notation l := (layout_for k n).

Lemma layout_header_start : chunk_header_start l = (HEADER_LEN + k * MERKLE_HASH_LEN)%nat.
Proof using Hk. unfold layout_for, layout_new. cbn [chunk_header_start]. rewrite calc_merkle_proof_len_ok by done. lia. Qed.
Lemma layout_symbol_start : symbol_start l = (HEADER_LEN + k * MERKLE_HASH_LEN + CHUNK_HEADER_LEN)%nat.
Proof using Hk. unfold symbol_start. by rewrite layout_header_start. Qed.
Lemma layout_segment_len : segment_len l = (symbol_start l + n)%nat.
Proof using Hk. rewrite layout_symbol_start. done. Qed.
Lemma layout_symbol_len : N.of_nat n ≤ isize_MAX → symbol_len l = N.of_nat n.
Proof using Hk.
  intros Hmax. unfold symbol_len. rewrite layout_segment_len. unfold wrapping_sub64, isize_MAX, u64_MAX in *.
  replace (N.of_nat (symbol_start l + n) + (18446744073709551615 + 1) - N.of_nat (symbol_start l)) with (N.of_nat n + 1 * (18446744073709551615 + 1)) by lia.
  rewrite N.Div0.mod_add. apply N.mod_small. lia.
Qed.
Lemma layout_depth : layout_tree_depth l = N.of_nat (S k).
Proof using Hk.
  unfold layout_tree_depth. rewrite layout_header_start. replace (HEADER_LEN + k * MERKLE_HASH_LEN - HEADER_LEN)%nat with (k * MERKLE_HASH_LEN)%nat by lia.
  rewrite Nat.div_mul by done. rewrite (N.mod_small (N.of_nat k)) by lia. rewrite N.mod_small by lia. lia.
Qed.
Lemma layout_batch_len : merkle_batch_len l = Ret (2 ^ N.of_nat k).
Proof using Hk.
  unfold merkle_batch_len. rewrite layout_depth. replace (N.of_nat (S k) + 255) with (N.of_nat k + 1 * 256) by lia.
  rewrite N.Div0.mod_add, N.mod_small by lia. unfold checked_pow. assert (2 ^ N.of_nat k ≤ 2 ^ 8) by (apply N.pow_le_mono_r; lia).
  rewrite decide_True; [done|]. change (2 ^ 8) with 256 in *. unfold u64_MAX. lia.
Qed.
End layout.

(** ** The symbols of the chunks *)

Section symbols.
Context `{P : Params} (k n : nat) (Hk : (k ≤ 8)%nat) (e : Encoder) (sym : N → list N).
Context (Hlen : ∀ id, length (sym id) = n) (Hsym : ∀ id, id < MAX_TRIPLES → encode_symbol e (replicate n 0) id = Ret (sym id)).
#[local] Notation l := (layout_for k n).

(** The chunk with its symbol, before the headers are written. *)
Definition with_symbol (c : Chunk) : Chunk := {| c with chunk_payload := replicate (symbol_start (layout_for k n)) 0 ++ sym (chunk_id c) |}.
Definition is_zeroed (c : Chunk) : Prop := chunk_payload c = replicate (segment_len (layout_for k n)) 0.

Lemma zeroed_parts c : is_zeroed c → chunk_payload c = replicate (symbol_start l) 0 ++ replicate n 0.
Proof using Hk. unfold is_zeroed. intros ->. rewrite layout_segment_len by done. apply replicate_add. Qed.

Lemma write_symbol_zeroed c data : is_zeroed c → length data = n →
  write_symbol l c data = Ret {| c with chunk_payload := replicate (symbol_start l) 0 ++ data |}.
Proof using Hk.
  intros Hc Hd. unfold write_symbol. rewrite (zeroed_parts c Hc), layout_segment_len by done.
  rewrite write_at_app_r; [done|by rewrite length_replicate|by rewrite length_replicate|by rewrite length_replicate].
Qed.

Lemma symbol_with_symbol c : symbol l (with_symbol c) = Ret (sym (chunk_id c)).
Proof using Hk Hlen.
  unfold symbol, with_symbol. cbn [chunk_payload]. rewrite layout_segment_len by done. apply slice_app_r; [by rewrite length_replicate|by rewrite Hlen].
Qed.

Context (cs : list Chunk) (Hzero : Forall is_zeroed cs).
Context (Hids : Forall (λ c, chunk_id c < MAX_TRIPLES ∧ (N.to_nat (chunk_id c) < length cs)%nat) cs).

(** The first [i] chunks are done, and the index points to some of them. *)
Definition encoded_upto (rest : list nat) (s : list Chunk * list nat) : Prop :=
  ∃ i, rest = seq i (length rest) ∧ (i + length rest = length cs)%nat ∧ s.1 = (with_symbol <$> take i cs) ++ drop i cs ∧
    length s.2 = length cs ∧ ∀ id j, s.2 !! id = Some (S j) → (j < i)%nat ∧ ∃ c, cs !! j = Some c ∧ N.to_nat (chunk_id c) = id.

Lemma encode_symbols_step_ok i rest s : encoded_upto (i :: rest) s → ∃ s', encode_symbols_step e l s i = Ret s' ∧ encoded_upto rest s'.
Proof using Hk Hlen Hsym Hzero Hids.
  intros (i' & Hrest & Hi & Hs1 & Hs2 & Hidx). cbn [length seq] in Hrest, Hi. injection Hrest as -> Hrest. destruct s as [chunks symbol_chunks]. cbn [fst snd] in *. subst chunks.
  assert (length (with_symbol <$> take i' cs) = i') as Ht by (rewrite length_fmap, length_take; lia).
  destruct (lookup_lt_is_Some_2 cs i') as [c Hc]; [lia|]. rewrite Forall_forall in Hzero, Hids.
  pose proof (Hzero c (list_elem_of_lookup_2 _ _ _ Hc)) as Hz. destruct (Hids c (list_elem_of_lookup_2 _ _ _ Hc)) as [Hmax Hid].
  assert (∀ c', <[i' := c']> ((with_symbol <$> take i' cs) ++ drop i' cs) = (with_symbol <$> take i' cs) ++ c' :: drop (S i') cs) as Hins.
  { intros c'. rewrite (drop_S _ _ _ Hc). rewrite <- Ht at 1. by rewrite <- (Nat.add_0_r (length _)), insert_app_r. }
  assert (encoded_upto rest ((with_symbol <$> take i' cs) ++ with_symbol c :: drop (S i') cs, <[N.to_nat (chunk_id c) := S i']> symbol_chunks) ∧
    ∀ j, symbol_chunks !! N.to_nat (chunk_id c) = Some (S j) → encoded_upto rest ((with_symbol <$> take i' cs) ++ with_symbol c :: drop (S i') cs, symbol_chunks)) as [Hnew Hold].
  { assert ((with_symbol <$> take i' cs) ++ with_symbol c :: drop (S i') cs = (with_symbol <$> take (S i') cs) ++ drop (S i') cs) as Heq.
    { rewrite (take_S_r _ _ _ Hc), fmap_app, <- app_assoc. done. }
    split; [|intros j Hj]; exists (S i'); (split; [done|]); (split; [lia|]); cbn [fst snd]; (split; [done|]); rewrite ?length_insert; (split; [done|]).
    - intros id j Hj. destruct (decide (id = N.to_nat (chunk_id c))) as [->|Hne].
      + rewrite list_lookup_insert_eq in Hj by lia. injection Hj as <-. split; [lia|by exists c].
      + rewrite list_lookup_insert_ne in Hj by done. destruct (Hidx id j Hj) as [? ?]. split; [lia|done].
    - intros id j' Hj'. destruct (Hidx id j' Hj') as [? ?]. split; [lia|done]. }
  unfold encode_symbols_step. rewrite lookup_app_r by lia. rewrite Ht, Nat.sub_diag, (drop_S _ _ _ Hc). cbn [lookup list_lookup expect mbind outcome_bind].
  destruct (lookup_lt_is_Some_2 symbol_chunks (N.to_nat (chunk_id c))) as [j Hj]; [lia|]. rewrite Hj. cbn [expect mbind outcome_bind].
  rewrite <- (drop_S _ _ _ Hc). destruct j as [|j].
  - unfold symbol. rewrite (zeroed_parts c Hz), layout_segment_len by done. rewrite slice_app_r by (by rewrite length_replicate). cbn [mbind outcome_bind].
    rewrite Hsym by done. cbn [mbind outcome_bind]. rewrite write_symbol_zeroed by done. cbn [mbind outcome_bind]. rewrite Hins. eexists. split; [done|exact Hnew].
  - destruct (Hidx _ _ Hj) as (Hji & c' & Hc' & Hid'). rewrite bool_decide_eq_true_2 by lia. cbn [rust_assert mbind outcome_bind].
    rewrite lookup_app_l by lia. rewrite list_lookup_fmap, lookup_take_lt, Hc' by done. cbn [fmap option_fmap option_map expect mbind outcome_bind].
    rewrite symbol_with_symbol. cbn [mbind outcome_bind]. rewrite write_symbol_zeroed by done. cbn [mbind outcome_bind]. rewrite Hins.
    assert (chunk_id c' = chunk_id c) as -> by lia. eexists. split; [done|]. exact (Hold j Hj).
Qed.

Lemma encode_symbols_loop_ok : ∃ idx, for_each (encode_symbols_step e l) (cs, replicate (length cs) 0%nat) (seq 0 (length cs)) = Ret (with_symbol <$> cs, idx).
Proof using Hk Hlen Hsym Hzero Hids.
  destruct (for_each_ok encoded_upto (encode_symbols_step e l) (seq 0 (length cs)) (cs, replicate (length cs) 0%nat)) as ([chunks idx] & -> & Hfin).
  { intros i rest s. apply encode_symbols_step_ok. }
  { exists 0%nat. rewrite length_seq. cbn [fst snd]. split; [done|]. split; [done|]. split; [done|]. rewrite length_replicate. split; [done|].
    intros id j [? ?]%lookup_replicate. done. }
  destruct Hfin as (i & _ & Hi & Hc & _). cbn [length fst] in *. rewrite take_ge, drop_ge, app_nil_r in Hc by lia. exists idx. by rewrite Hc.
Qed.
End symbols.

(** ** The headers of a batch *)

(** What is assumed of signatures: they have the length of their field, are
    read back from their bytes, and name their author. *)
Record chunk_signing_ok `{P : Params} (AS : AuthorSigning) (CC : ChunkCodec) : Prop := {
  serialize_length : ∀ d m key, length (signature_serialize (author_sign d m key)) = SIGNATURE_SIZE;
  deserialize_serialize : ∀ d m key, signature_deserialize (signature_serialize (author_sign d m key)) = Some (author_sign d m key);
  recover_sign : ∀ d m key, author_recover (author_sign d m key) d m = Some (author_pubkey key);
}.

Section headers.
Context `{P : Params} {AS : AuthorSigning} {CC : ChunkCodec} {HS : Hasher}.

Definition chunk_header_bytes (recipient : NodeId) (leaf_index id : N) : list N := compute_hash recipient ++ [leaf_index; 0] ++ le_bytes 2 id.
Definition proof_bytes (sibs : list MerkleHash) : list N := concat ((λ h : MerkleHash, Byte.to_N <$> h) <$> sibs).

Lemma compute_hash_length id : length (compute_hash id) = 20%nat.
Proof. unfold compute_hash, compute_full_hash. by rewrite length_fmap, length_take, hash_of_length. Qed.
Lemma compute_app_message_hash_length m : length (compute_app_message_hash m) = 20%nat.
Proof. unfold compute_app_message_hash, compute_full_hash. by rewrite length_fmap, length_take, hash_of_length. Qed.
Lemma chunk_header_bytes_length r i id : length (chunk_header_bytes r i id) = CHUNK_HEADER_LEN.
Proof. unfold chunk_header_bytes. rewrite !length_app, compute_hash_length, le_bytes_length. done. Qed.
Lemma proof_bytes_length sibs : Forall (λ h : MerkleHash, length h = 20%nat) sibs → length (proof_bytes sibs) = (length sibs * MERKLE_HASH_LEN)%nat.
Proof.
  unfold proof_bytes. induction 1 as [|h sibs Hh _ IH]; [done|]. cbn [fmap list_fmap concat length]. rewrite length_app, length_fmap, Hh, IH. done.
Qed.

(** Writing hashes one after the other. *)
Lemma write_hashes_ok (a : list N) rest off proof : Forall (λ h : MerkleHash, length h = 20%nat) proof → (length a = off * MERKLE_HASH_LEN)%nat →
  for_each (λ buffer e, write_at buffer (e.1 * MERKLE_HASH_LEN) ((e.1 + 1) * MERKLE_HASH_LEN) (Byte.to_N <$> e.2))
    (a ++ replicate (length proof * MERKLE_HASH_LEN) 0 ++ rest) (imap (λ i h, ((off + i)%nat, h)) proof) = Ret (a ++ proof_bytes proof ++ rest).
Proof.
  intros Hp. revert a off. induction Hp as [|h proof Hh _ IH]; intros a off Ha; [done|]. cbn [imap for_each length fst snd].
  rewrite Nat.add_0_r. cbn [Nat.mul]. rewrite replicate_add, <- app_assoc.
  rewrite write_at_app; [|done|rewrite length_replicate; lia|rewrite length_fmap, length_replicate; done]. cbn [mbind outcome_bind].
  rewrite app_assoc. rewrite (imap_ext _ (λ i h, ((S off + i)%nat, h)) proof) by (intros i x _; unfold compose; f_equal; lia).
  rewrite IH by (rewrite length_app, length_fmap, Hh; unfold MERKLE_HASH_LEN in *; lia). unfold proof_bytes. cbn [fmap list_fmap concat]. by rewrite <- !app_assoc.
Qed.

Section batch.
Context (k n : nat) (Hk : (k ≤ 8)%nat).
#[local] Notation l := (layout_for k n).
#[local] Notation hs := (HEADER_LEN + k * MERKLE_HASH_LEN)%nat.

Lemma write_chunk_header_ok c i s : chunk_payload c = replicate (symbol_start l) 0 ++ s → chunk_id c ≤ u16_MAX →
  write_chunk_header l c i = Ret (Ok {| c with chunk_payload := replicate hs 0 ++ chunk_header_bytes (chunk_recipient c) i (chunk_id c) ++ s |}).
Proof using Hk.
  intros Hp Hid. unfold write_chunk_header. rewrite bool_decide_eq_false_2 by lia. rewrite layout_header_start by done.
  rewrite Hp, layout_symbol_start by done. rewrite replicate_add, <- app_assoc.
  rewrite slice_app by (by rewrite length_replicate). cbn [mbind outcome_bind]. 
  change (replicate CHUNK_HEADER_LEN 0) with (replicate 20 0 ++ replicate 1 0 ++ replicate 1 0 ++ replicate 2 0).
  rewrite (write_at_head (replicate 20 0)) by (rewrite ?compute_hash_length; done). cbn [mbind outcome_bind].
  rewrite (write_at_app (compute_hash _) (replicate 1 0)) by (by rewrite ?compute_hash_length). cbn [mbind outcome_bind].
  rewrite (app_assoc (compute_hash _) [i]), (app_assoc (_ ++ [i]) (replicate 1 0)).
  rewrite (write_at_app_r _ (replicate 2 0)) by (rewrite ?le_bytes_length, ?length_app, ?compute_hash_length; done). cbn [mbind outcome_bind].
  rewrite write_at_app; [|by rewrite length_replicate|done|].
  2: { rewrite !length_app, compute_hash_length, le_bytes_length. done. }
  cbn [mbind outcome_bind]. unfold chunk_header_bytes. by rewrite <- !app_assoc.
Qed.

Lemma chunk_hash_ok c a b : chunk_payload c = a ++ b → length a = hs → (hs + length b = segment_len l)%nat → chunk_hash l c = Ret (compute_full_hash b).
Proof using Hk. intros Hp Ha Hb. unfold chunk_hash. rewrite Hp, layout_header_start by done. by rewrite slice_app_r. Qed.

Lemma finish_chunk_ok c signature header tree i p rest : chunk_payload c = replicate hs 0 ++ rest → length signature = SIGNATURE_SIZE →
  length header = (HEADER_LEN - SIGNATURE_SIZE)%nat → merkle_proof tree (N.of_nat i) = Ret p → (N.of_nat i ≤ u16_MAX) →
  length (siblings p) = k → Forall (λ h : MerkleHash, length h = 20%nat) (siblings p) →
  finish_chunk l signature header tree i c = Ret {| c with chunk_payload := signature ++ header ++ proof_bytes (siblings p) ++ rest |}.
Proof using Hk.
  intros Hp Hsig Hhd Hproof Hi Hlen Hall. unfold finish_chunk, layout_write_header. rewrite Hp.
  rewrite (replicate_add HEADER_LEN). change (replicate HEADER_LEN 0) with (replicate SIGNATURE_SIZE 0 ++ replicate (HEADER_LEN - SIGNATURE_SIZE) 0).
  rewrite <- !app_assoc.
  rewrite (write_at_head (replicate SIGNATURE_SIZE 0)) by (by rewrite ?length_replicate). cbn [mbind outcome_bind].
  rewrite (write_at_app signature) by (rewrite ?length_replicate; done). cbn [mbind outcome_bind].
  rewrite N.mod_small by (unfold u16_MAX in *; lia). rewrite Hproof. cbn [mbind outcome_bind]. unfold write_merkle_proof. cbn [chunk_payload].
  rewrite layout_header_start by done. rewrite (app_assoc signature).
  assert (length (signature ++ header) = HEADER_LEN) as Hl by (rewrite length_app, Hsig, Hhd; done).
  rewrite slice_app by (by rewrite ?length_replicate). cbn [mbind outcome_bind].
  pose proof (write_hashes_ok [] [] 0 (siblings p) Hall eq_refl) as Hw. rewrite !app_nil_r in Hw. cbn [app] in Hw. rewrite Hlen in Hw.
  change (imap pair (siblings p)) with (imap (λ i h, ((0 + i)%nat, h)) (siblings p)). rewrite Hw. cbn [mbind outcome_bind].
  rewrite write_at_app; [|done|by rewrite length_replicate|by rewrite length_replicate, proof_bytes_length, Hlen]. cbn [mbind outcome_bind]. by rewrite <- !app_assoc.
Qed.

Context (key : AuthorKeyPair) (header : list N) (sym : N → list N) (Hlen : ∀ id, length (sym id) = n).

(** What the Merkle tree covers, and a packet of a chunk: its parts in their
    order, where the proof leads to the root that is signed. *)
Definition leaf_bytes (c : Chunk) (i : N) : list N := chunk_header_bytes (chunk_recipient c) i (chunk_id c) ++ sym (chunk_id c).
Definition is_packet (c : Chunk) (payload : list N) : Prop :=
  ∃ i sibs p root, i < 2 ^ N.of_nat k ∧ length sibs = k ∧ Forall (λ h : MerkleHash, length h = 20%nat) sibs ∧ length root = 20%nat ∧
    new_from_leaf_idx sibs i = Some p ∧ compute_root p (compute_full_hash (leaf_bytes c i)) = Some root ∧
    payload = signature_serialize (author_sign SdRaptorcastChunk ((u8_byte <$> header) ++ root) key) ++ header ++ proof_bytes sibs ++ leaf_bytes c i.

Definition with_leaf (i : nat) (c : Chunk) : Chunk := {| c with chunk_payload := replicate (HEADER_LEN + k * MERKLE_HASH_LEN) 0 ++ leaf_bytes c (N.of_nat i) |}.

Lemma build_leaves_ok off cs : Forall (λ c, chunk_id c ≤ u16_MAX) cs → (off + length cs ≤ 256)%nat →
  build_leaves l off (with_symbol k n sym <$> cs) =
    Ret (Ok (imap (λ i, with_leaf (off + i)) cs, imap (λ i c, compute_full_hash (leaf_bytes c (N.of_nat (off + i)))) cs)).
Proof using Hk Hlen.
  intros Hids. revert off. induction Hids as [|c cs Hc _ IH]; intros off Hoff; [done|]. cbn [length] in Hoff. cbn [fmap list_fmap build_leaves imap].
  rewrite N.mod_small by lia. rewrite (write_chunk_header_ok (with_symbol k n sym c) _ (sym (chunk_id c))) by done. cbn [try_bind mbind outcome_bind].
  rewrite (chunk_hash_ok _ (replicate hs 0) (leaf_bytes c (N.of_nat off))); [|done|by rewrite length_replicate|].
  2: { unfold leaf_bytes. rewrite length_app, chunk_header_bytes_length, Hlen, layout_segment_len, layout_symbol_start by done. lia. }
  cbn [mbind outcome_bind]. rewrite IH by lia. cbn [try_bind mbind outcome_bind]. rewrite Nat.add_0_r. do 2 f_equal.
  unfold compose. rewrite (imap_ext (λ x, with_leaf (off + S x)) (λ x, with_leaf (S off + x)) cs) by (intros; f_equal; lia).
  rewrite (imap_ext (λ x c, compute_full_hash (leaf_bytes c (N.of_nat (off + S x)))) (λ x c, compute_full_hash (leaf_bytes c (N.of_nat (S off + x)))) cs)
    by (intros; do 2 f_equal; lia). done.
Qed.

Context (HC : chunk_signing_ok AS CC) (Hhd : length header = (HEADER_LEN - SIGNATURE_SIZE)%nat).

(** The proof that the tree gives for the chunk at index [i] of the batch. *)
Definition proof_in (tree : MerkleTree) (root : MerkleHash) (i : nat) (c : Chunk) (p : MerkleProof) : Prop :=
  merkle_proof tree (N.of_nat i) = Ret p ∧ length (siblings p) = k ∧ Forall (λ h : MerkleHash, length h = 20%nat) (siblings p) ∧
  compute_root p (compute_full_hash (leaf_bytes c (N.of_nat i))) = Some root ∧ new_from_leaf_idx (siblings p) (N.of_nat i) = Some p.

Lemma finish_batch_ok tree root cs : (∀ i c, cs !! i = Some c → ∃ p, proof_in tree root i c p) → N.of_nat (length cs) ≤ 2 ^ N.of_nat k → length root = 20%nat →
  ∃ cs', mapM (λ e, finish_chunk l (signature_serialize (author_sign SdRaptorcastChunk ((u8_byte <$> header) ++ root) key)) header tree e.1 e.2)
      (imap pair (imap (λ i, with_leaf i) cs)) = Ret cs' ∧
    Forall2 (λ c c', chunk_recipient c' = chunk_recipient c ∧ is_packet c (chunk_payload c')) cs cs'.
Proof using Hk HC Hhd.
  intros Hp Hcs Hrl. assert (2 ^ N.of_nat k ≤ 2 ^ 8) as H8 by (apply N.pow_le_mono_r; lia). change (2 ^ 8) with 256 in H8. set (signature := signature_serialize _).
  set (final := λ e : nat * Chunk, mkChunk (chunk_id e.2) (chunk_recipient e.2) (signature ++ header ++
    proof_bytes (match merkle_proof tree (N.of_nat e.1) with Ret p => siblings p | _ => [] end) ++ drop hs (chunk_payload e.2))).
  assert (∀ i c, final (i, with_leaf i c) = mkChunk (chunk_id c) (chunk_recipient c) (signature ++ header ++
    proof_bytes (match merkle_proof tree (N.of_nat i) with Ret p => siblings p | _ => [] end) ++ leaf_bytes c (N.of_nat i))) as Hfinal.
  { intros i c. unfold final. cbn [fst snd with_leaf chunk_id chunk_recipient chunk_payload]. by rewrite drop_app_length' by (by rewrite length_replicate). }
  rewrite (mapM_ret _ final).
  - eexists. split; [done|]. apply Forall2_same_length_lookup. split; [by rewrite length_fmap, !length_imap|].
    intros i c c' Hc Hc'. rewrite list_lookup_fmap, !list_lookup_imap, Hc in Hc'. cbn [fmap option_fmap option_map] in Hc'. rewrite Hfinal in Hc'. injection Hc' as <-. split; [done|].
    destruct (Hp i c Hc) as (p & -> & Hl1 & Hl2 & Hcomp & Hidx). pose proof (lookup_lt_Some _ _ _ Hc).
    exists (N.of_nat i), (siblings p), p, root. split_and!; try done. lia.
  - intros [i c'] (j & Hj)%list_elem_of_lookup. rewrite !list_lookup_imap in Hj. destruct (cs !! j) as [c|] eqn:Hc; [|done]. cbn [fmap option_fmap option_map] in Hj.
    injection Hj as <- <-. destruct (Hp j c Hc) as (p & Hm & Hl1 & Hl2 & _). pose proof (lookup_lt_Some _ _ _ Hc). cbn [fst snd]. rewrite Hfinal, Hm.
    rewrite (finish_chunk_ok (with_leaf j c) signature header tree j p (leaf_bytes c (N.of_nat j))); try done; [apply (serialize_length _ _ HC)|unfold u16_MAX; lia].
Qed.

Lemma batch_write_header_ok cs : Forall (λ c, chunk_id c ≤ u16_MAX) cs → N.of_nat (length cs) ≤ 2 ^ N.of_nat k →
  ∃ cs', batch_write_header l key header (with_symbol k n sym <$> cs) = Ret (Ok cs') ∧
    Forall2 (λ c c', chunk_recipient c' = chunk_recipient c ∧ is_packet c (chunk_payload c')) cs cs'.
Proof using Hk Hlen HC Hhd.
  intros Hids Hcs. assert (2 ^ N.of_nat k ≤ 2 ^ 8) as H8 by (apply N.pow_le_mono_r; lia). change (2 ^ 8) with 256 in H8.
  unfold batch_write_header, build_merkle_tree. rewrite (build_leaves_ok 0) by (done || lia). cbn [try_bind mbind outcome_bind Nat.add].
  set (leaves := imap (λ i c, compute_full_hash (leaf_bytes c (N.of_nat i))) cs).
  destruct (merkle_proofs_ok leaves k) as (tree & root & Hnew & Hroot & Hrl & Hproof); [lia| |].
  { apply Forall_forall. intros h (i & Hi)%list_elem_of_lookup. unfold leaves in Hi. rewrite list_lookup_imap in Hi.
    destruct (cs !! i); [|done]. injection Hi as <-. apply hash_of_length. }
  rewrite layout_depth by done. rewrite Hnew. cbn [try_bind mbind outcome_bind]. rewrite Hroot. cbn [mbind outcome_bind].
  unfold sign_batch. rewrite (serialize_length _ _ HC), bool_decide_eq_true_2 by done. cbn [rust_assert mbind outcome_bind].
  destruct (finish_batch_ok tree root cs) as (cs' & -> & Hall); [|done|done|by exists cs'].
  intros i c Hi. pose proof (lookup_lt_Some _ _ _ Hi). apply Hproof; [|lia]. rewrite Nat2N.id. unfold leaves. by rewrite list_lookup_imap, Hi.
Qed.

(** The message of a chunk. *)
Definition is_message (c : Chunk) (m : UdpMessage) : Prop :=
  um_recipient m = chunk_recipient c ∧ is_packet c (um_payload m) ∧ um_stride m = length (um_payload m).

Lemma assemble_batches_ok batches collector : Forall (λ b, Forall (λ c, chunk_id c ≤ u16_MAX) b ∧ N.of_nat (length b) ≤ 2 ^ N.of_nat k) batches →
  ∃ msgs, assemble_batches l key header ((λ b : list Chunk, with_symbol k n sym <$> b) <$> batches) collector = Ret (collector ++ msgs, Ok tt) ∧ Forall2 is_message (concat batches) msgs.
Proof using Hk Hlen HC Hhd.
  intros Hb. revert collector. induction Hb as [|b batches [Hid Hlb] _ IH]; intros collector; cbn [fmap list_fmap assemble_batches concat].
  { exists []. rewrite app_nil_r. done. }
  destruct (batch_write_header_ok b Hid Hlb) as (cs' & Hrun & Hall). rewrite Hrun. cbn [mbind outcome_bind].
  destruct (IH (collector ++ (chunk_message <$> cs'))) as (msgs & Hms & Hall'). rewrite Hms. rewrite <- app_assoc. eexists. split; [done|].
  apply Forall2_app; [|done]. apply Forall2_fmap_r. eapply Forall2_impl; [done|]. intros c c' [Hr Hp]. by split_and!.
Qed.
End batch.
End headers.

(** [slice::chunks] and maps. *)
Lemma chunks_fmap {A B} (f : A → B) n (l : list A) : chunks n (f <$> l) = (λ c : list A, f <$> c) <$> chunks n l.
Proof.
  unfold chunks. rewrite length_fmap. generalize (length l) as fuel. intros fuel. revert l. induction fuel as [|fuel IH]; intros [|x l]; try done.
  cbn [chunks_fuel fmap list_fmap]. rewrite <- !fmap_cons, <- fmap_take, <- fmap_drop, IH. done.
Qed.

(** The symbols that an encoder gives. *)
Definition symbol_of (e : Encoder) (id : N) : list N :=
  if bool_decide (id < MAX_TRIPLES)
  then match encode_symbol e (replicate (e_symbol_len e) 0) id with Ret s => s | _ => replicate (e_symbol_len e) 0 end
  else replicate (e_symbol_len e) 0.

Lemma symbol_of_ok src len e elements x : encodes src len e elements x →
  (∀ id, length (symbol_of e id) = len) ∧ ∀ id, id < MAX_TRIPLES → encode_symbol e (replicate len 0) id = Ret (symbol_of e id).
Proof.
  intros He. unfold symbol_of. rewrite (en_len _ _ _ _ _ He).
  assert (∀ id, id < MAX_TRIPLES → ∃ s, encode_symbol e (replicate len 0) id = Ret s ∧ length s = len) as Hs.
  { intros id Hid. destruct (encode_symbol_ok src len e elements x (replicate len 0) id He Hid (length_replicate _ _)) as (row & _ & _ & ->).
    eexists. split; [done|]. rewrite length_zip_with, length_replicate. rewrite (xsum_wf (XorOp0 := symbol_xor len)); [apply Nat.min_id|].
    intros j _. apply (en_wf _ _ _ _ _ He). }
  split; intros id.
  - case_bool_decide as Hid; [|apply length_replicate]. by destruct (Hs id Hid) as (s & -> & ?).
  - intros Hid. rewrite bool_decide_eq_true_2 by done. by destruct (Hs id Hid) as (s & -> & _).
Qed.

Section assemble.
Context `{P : Params} {AS : AuthorSigning} {CC : ChunkCodec} {HS : Hasher} (HC : chunk_signing_ok AS CC).
Context (k n : nat) (Hk : (k ≤ 8)%nat) (app_message header : list N) (key : AuthorKeyPair).

Lemma assemble_ok e elements x cs collector : encoder_new app_message n = Ret (Ok e) → encodes app_message n e elements x → N.of_nat n ≤ isize_MAX →
  length header = (HEADER_LEN - SIGNATURE_SIZE)%nat → Forall (is_zeroed k n) cs →
  Forall (λ c, chunk_id c < MAX_TRIPLES ∧ (N.to_nat (chunk_id c) < length cs)%nat) cs →
  ∃ msgs, assemble cs key (layout_for k n) app_message header collector = Ret (collector ++ msgs, Ok tt) ∧
    Forall2 (is_message k key header (symbol_of e)) cs msgs.
Proof using HC Hk.
  intros Hnew He Hmax Hhd Hzero Hids. destruct (symbol_of_ok _ _ _ _ _ He) as [Hlen Hsym]. unfold assemble, encode_symbols.
  rewrite layout_symbol_len by done. rewrite bool_decide_eq_false_2 by lia. rewrite Nat2N.id, Hnew. cbn [mbind outcome_bind].
  destruct (encode_symbols_loop_ok k n Hk e (symbol_of e) Hlen Hsym cs Hzero Hids) as (idx & ->). cbn [mbind outcome_bind].
  rewrite layout_batch_len by done. cbn [mbind outcome_bind]. rewrite chunks_fmap.
  assert (0 < 2 ^ N.of_nat k) by (by apply pow2_pos).
  destruct (chunks_fuel_ok (length cs) (N.to_nat (2 ^ N.of_nat k)) cs) as [Hcat Hparts]; [lia|done|].
  destruct (assemble_batches_ok k n Hk key header (symbol_of e) Hlen HC Hhd (chunks (N.to_nat (2 ^ N.of_nat k)) cs) collector) as (msgs & Hrun & Hall).
  - apply Forall_forall. intros b Hb. split.
    + rewrite Forall_forall in Hids |- *. intros c Hc. assert (c ∈ cs) as Hin; [|apply Hids in Hin; unfold MAX_TRIPLES, u16_MAX in *; lia].
      rewrite <- Hcat. apply list_elem_of_In, in_concat. exists b. rewrite <- !list_elem_of_In. done.
    + rewrite Forall_forall in Hparts. specialize (Hparts b Hb). lia.
  - rewrite Hrun. exists msgs. split; [done|]. unfold chunks in Hall. by rewrite Hcat in Hall.
Qed.
End assemble.
