(* ===== verification/RaptorcastParse.v ===== *)
(** * Broadcast in chunks: receiving packets (monad-raptorcast/src/parser)

    A received packet is cut into its headers, the Merkle proof and the
    symbol; the fields are checked, the Merkle root is recomputed and the
    signature over header and root is verified, which names the author. What
    was verified recently is cached. A header is the slice of bytes that holds
    it, from which its fields are read. *)
From S2P Require Import Prelude Types Interfaces ValidatorSet DynamicCap RaptorSets RaptorCode RaptorEncoder Merkle Raptorcast.

(** The operations of the crate [lru] that are used. [lru_peek] looks at an
    entry without marking it as used; [lru_set] writes through the reference
    that [get_mut] gives. *)
Class LruOps (K V : Type) := {
  lru_t : Type;
  lru_make : nat → lru_t;
  lru_peek : lru_t → K → option V;
  lru_touch : lru_t → K → lru_t;
  lru_set : lru_t → K → V → lru_t;
  lru_insert : lru_t → K → V → lru_t;
}.
Arguments lru_t _ _ {_}.

(** A cache starts empty, marking an entry changes none, writing changes that
    entry, and inserting one may drop others. *)
Record lru_ok {K V} (L : LruOps K V) : Prop := {
  lru_make_empty : ∀ n k, lru_peek (lru_make n) k = None;
  lru_touch_peek : ∀ c k k', lru_peek (lru_touch c k) k' = lru_peek c k';
  lru_set_peek : ∀ c k v, is_Some (lru_peek c k) → lru_peek (lru_set c k v) k = Some v;
  lru_set_other : ∀ c k v k', k' ≠ k → lru_peek (lru_set c k v) k' = lru_peek c k';
  lru_insert_peek : ∀ c k v, lru_peek (lru_insert c k v) k = Some v;
  lru_insert_other : ∀ c k v k', k' ≠ k → lru_peek (lru_insert c k v) k' = lru_peek c k' ∨ lru_peek (lru_insert c k v) k' = None;
}.

(** The rate limiter of the crate governor: [check] reads the clock and may
    refuse. *)
Class RateLimiterOps := {
  RateLimiter : Type;
  rate_limiter_new : N → RateLimiter;
  rate_check : RateLimiter → bool * RateLimiter;
}.

(** ** packet_parser.rs: layout *)

Definition MERKLE_HASH_SIZE : nat := 20.

Inductive MalformedPacket :=
| TooShort | TooLong | InvalidTreeDepth (d : N) | InvalidBroadcastBits (b : N) | UnknownVersion (v : N).

(** udp.rs *)
Inductive InvalidChunk :=
| IcMalformed (e : MalformedPacket)
| InvalidAppMessageLen (len : N)
| InvalidChunkLen
| InvalidChunkId
| InvalidTimestamp (packet_ts_ms current_ts_ms : N)
| InvalidMerkleProof
| InvalidSignature
| Loopback
| RateLimited.

Definition COMMON_HEADER_SIZE : nat := SIGNATURE_SIZE + 2.
Definition HEADER_V0_SIZE : nat := 1 + 8 + 8 + MERKLE_HASH_SIZE + 4.
Definition RAPTORCAST_HEADER_V0_SIZE : nat := COMMON_HEADER_SIZE + HEADER_V0_SIZE.
Definition CHUNK_HEADER_V0_SIZE : nat := MERKLE_HASH_SIZE + 1 + 1 + 2.

(** A field of a packed struct. *)
Definition field (bytes : list N) (offset len : nat) : list N := take len (drop offset bytes).

(** [RaptorcastHeader]. *)
Definition header_version (h : list N) : N := le_value (field h SIGNATURE_SIZE 2).

(** [RaptorcastHeaderV0]. *)
Definition broadcast_tree_depth (h : list N) : N := le_value (field h 0 1).
Definition header_group_id (h : list N) : N := le_value (field h 1 8).
Definition header_unix_ts_ms (h : list N) : N := le_value (field h 9 8).
Definition header_app_message_hash (h : list N) : list N := field h 17 20.
Definition header_app_message_len (h : list N) : N := le_value (field h 37 4).

Definition header_broadcast (h : list N) : bool := bool_decide (N.land (broadcast_tree_depth h) (N.shiftl 1 7) ≠ 0).
Definition header_secondary_broadcast (h : list N) : bool := bool_decide (N.land (broadcast_tree_depth h) (N.shiftl 1 6) ≠ 0).
Definition header_tree_depth (h : list N) : N := N.land (broadcast_tree_depth h) 15.
(** The subtraction does not wrap for the depths that pass the parser. *)
Definition merkle_proof_size (h : list N) : nat := N.to_nat (N.of_nat MERKLE_HASH_SIZE * (header_tree_depth h - 1)).

Definition header_broadcast_mode (h : list N) : result MalformedPacket BroadcastMode :=
  match header_broadcast h, header_secondary_broadcast h with
  | true, false => Ok ModePrimary
  | false, true => Ok ModeSecondary
  | false, false => Ok ModeUnspecified
  | true, true => Err (InvalidBroadcastBits 3)
  end.

Definition packet_group_id (h : list N) : result MalformedPacket GroupId :=
  mode ← header_broadcast_mode h;
  Ok match mode with
     | ModePrimary | ModeUnspecified => GroupPrimary (header_group_id h)
     | ModeSecondary => GroupSecondary (header_group_id h)
     end.

(** [RaptorcastChunkHeaderV0]. *)
Definition ch_recipient_hash (h : list N) : list N := field h 0 20.
Definition ch_merkle_leaf_idx (h : list N) : N := le_value (field h 20 1).
Definition ch_chunk_id (h : list N) : N := le_value (field h 22 2).

(** [SignedOverData]: the signature, the rest of the headers, the root. *)
Definition SignedOverData : Type := list N.
Definition signed_over_data_new (common_header versioned_header : list N) (merkle_root : MerkleHash) : SignedOverData :=
  common_header ++ versioned_header ++ (Byte.to_N <$> merkle_root).
Definition signed_message (d : SignedOverData) : list N := drop SIGNATURE_SIZE d.
Definition sod_signature (d : SignedOverData) : list N := take SIGNATURE_SIZE d.

(** ** packet_parser.rs: parsing *)

Record RaptorcastPacketV0 := mkRaptorcastPacketV0 {
  p0_header : list N;
  p0_merkle_proof : list MerkleHash;
  p0_chunk_header : list N;
  p0_chunk_header_and_payload : list N;
  p0_payload_offset : nat;
}.

(** Bytes as an array of hashes. *)
Definition merkle_hashes (b : list N) : list MerkleHash := (λ h : list N, u8_byte <$> h) <$> chunks MERKLE_HASH_SIZE b.

Definition packet_v0_parse (rest : list N) : result MalformedPacket RaptorcastPacketV0 :=
  if bool_decide (length rest < HEADER_V0_SIZE)%nat then Err TooShort else
  let header := take HEADER_V0_SIZE rest in
  let rest := drop HEADER_V0_SIZE rest in
  let tree_depth := header_tree_depth header in
  if negb (bool_decide (MIN_MERKLE_TREE_DEPTH ≤ tree_depth ≤ MAX_MERKLE_TREE_DEPTH)) then Err (InvalidTreeDepth tree_depth) else
  let merkle_proof_len := merkle_proof_size header in
  if bool_decide (length rest < merkle_proof_len)%nat then Err TooShort else
  let merkle_proof := merkle_hashes (take merkle_proof_len rest) in
  let chunk_header_and_payload := drop merkle_proof_len rest in
  if bool_decide (length chunk_header_and_payload < CHUNK_HEADER_V0_SIZE)%nat then Err TooShort else
  let chunk_header := take CHUNK_HEADER_V0_SIZE chunk_header_and_payload in
  let payload := drop CHUNK_HEADER_V0_SIZE chunk_header_and_payload in
  if bool_decide (payload = []) then Err TooShort else
  let payload_offset := (RAPTORCAST_HEADER_V0_SIZE + merkle_proof_len + CHUNK_HEADER_V0_SIZE)%nat in
  Ok (mkRaptorcastPacketV0 header merkle_proof chunk_header chunk_header_and_payload payload_offset).

Definition split_chunk (p : RaptorcastPacketV0) (message : list N) : result MalformedPacket (list N) :=
  if bool_decide (length message < p0_payload_offset p)%nat then Err TooShort else Ok (drop (p0_payload_offset p) message).

Definition packet_payload (p : RaptorcastPacketV0) : list N := drop CHUNK_HEADER_V0_SIZE (p0_chunk_header_and_payload p).

(** The version is [V0], the only one. *)
Record RaptorcastPacket := mkRaptorcastPacket { common_header : list N; versioned : RaptorcastPacketV0 }.

Definition packet_parse (data : list N) : result MalformedPacket RaptorcastPacket :=
  if bool_decide (length data < COMMON_HEADER_SIZE)%nat then Err TooShort else
  let header := take COMMON_HEADER_SIZE data in
  let rest := drop COMMON_HEADER_SIZE data in
  match header_version header with
  | 0 => v0 ← packet_v0_parse rest; Ok (mkRaptorcastPacket header v0)
  | v => Err (UnknownVersion v)
  end.

(** ** packet_parser.rs: validation *)

Definition MAX_VALIDATOR_SET_SIZE : N := 200.

Record ChunkMeta := mkChunkMeta {
  cm_app_message_len : N;
  cm_chunk_id : N;
  cm_num_source_symbols : N;
  cm_encoded_symbol_capacity : N;
  cm_timestamp : N;
  cm_broadcast_mode : BroadcastMode;
  cm_group_id : GroupId;
  cm_app_message_hash : list N;
  cm_recipient_hash : list N;
  cm_signed_over_data : SignedOverData;
}.

Definition get_epoch (m : ChunkMeta) : option Epoch :=
  match cm_group_id m with GroupPrimary epoch => Some epoch | GroupSecondary _ => None end.

(** [elapsed] is the time since the epoch, unless the clock is before it. *)
Definition ensure_valid_timestamp (packet_ts_ms max_age_ms : N) (elapsed : option N) : result InvalidChunk unit :=
  match elapsed with
  | None => Ok tt
  | Some current_ts_ms =>
      let delta_abs := if bool_decide (packet_ts_ms ≤ current_ts_ms) then current_ts_ms - packet_ts_ms else packet_ts_ms - current_ts_ms in
      if bool_decide (max_age_ms < delta_abs) then Err (InvalidTimestamp packet_ts_ms current_ts_ms) else Ok tt
  end.

Section parser.
Context `{P : Params} {AS : AuthorSigning} {CC : ChunkCodec} {HS : Hasher}.

Definition compute_merkle_root (p : RaptorcastPacketV0) : result InvalidChunk MerkleHash :=
  proof ← ok_or (new_from_leaf_idx (p0_merkle_proof p) (ch_merkle_leaf_idx (p0_chunk_header p))) InvalidMerkleProof;
  let leaf_hash := compute_full_hash (p0_chunk_header_and_payload p) in
  ok_or (compute_root proof leaf_hash) InvalidMerkleProof.

Definition ensure {E} (cond : bool) (e : E) : result E unit := if cond then Ok tt else Err e.

Definition chunk_id_cap (mode : BroadcastMode) (cap : N) : N :=
  match mode with ModePrimary => saturating_add u64_MAX cap MAX_VALIDATOR_SET_SIZE | _ => cap end.

(** The symbol has a positive length once its length is checked. *)
Definition validate_chunk_meta (p : RaptorcastPacket) (max_age_ms : N) (elapsed : option N) : result InvalidChunk ChunkMeta :=
  let v := versioned p in
  let h := p0_header v in
  let app_message_len := header_app_message_len h in
  _ ← ensure (bool_decide (0 < app_message_len ≤ MAX_MESSAGE_SIZE)) (InvalidAppMessageLen app_message_len);
  let timestamp := header_unix_ts_ms h in
  _ ← ensure_valid_timestamp timestamp max_age_ms elapsed;
  merkle_root ← compute_merkle_root v;
  let chunk_len := N.of_nat (length (packet_payload v)) in
  _ ← ensure (bool_decide (MIN_CHUNK_LENGTH ≤ chunk_len ∨ chunk_len = app_message_len)) InvalidChunkLen;
  let num_source_symbols := div_ceil app_message_len chunk_len in
  _ ← ensure (bool_decide (N.of_nat SOURCE_SYMBOLS_MIN ≤ num_source_symbols ≤ SOURCE_SYMBOLS_MAX)) (InvalidAppMessageLen app_message_len);
  cap ← ok_or (scale MAX_REDUNDANCY num_source_symbols) InvalidChunkLen;
  mode ← map_err IcMalformed (header_broadcast_mode h);
  let cap := chunk_id_cap mode cap in
  let chunk_id := ch_chunk_id (p0_chunk_header v) in
  _ ← ensure (bool_decide (chunk_id < cap)) InvalidChunkId;
  group_id ← map_err IcMalformed (packet_group_id h);
  Ok (mkChunkMeta app_message_len chunk_id num_source_symbols cap timestamp mode group_id (header_app_message_hash h)
       (ch_recipient_hash (p0_chunk_header v)) (signed_over_data_new (common_header p) h merkle_root)).

(** ** signature_verifier.rs *)

Context {L : LruOps SignedOverData NodeId} {RL : RateLimiterOps}.

Inductive SignatureVerifierError := SveRateLimited | SveInvalidSignature.
Definition invalid_chunk_of (e : SignatureVerifierError) : InvalidChunk :=
  match e with SveRateLimited => RateLimited | SveInvalidSignature => InvalidSignature end.

Record SignatureVerifier := mkSignatureVerifier {
  signature_cache : option (lru_t SignedOverData NodeId);
  rate_limiter : option RateLimiter;
}.

Definition signature_verifier_new : SignatureVerifier := mkSignatureVerifier None None.
Definition with_cache (s : SignatureVerifier) (size : nat) : outcome SignatureVerifier :=
  _ ← rust_assert (bool_decide (size ≠ 0%nat));
  Ret {| s with signature_cache := Some (lru_make size) |}.
Definition with_rate_limit (s : SignatureVerifier) (rate_per_second : N) : outcome SignatureVerifier :=
  _ ← rust_assert (bool_decide (rate_per_second ≠ 0));
  Ret {| s with rate_limiter := Some (rate_limiter_new rate_per_second) |}.

Definition load_cached (s : SignatureVerifier) (key : SignedOverData) : option NodeId * SignatureVerifier :=
  match signature_cache s with
  | None => (None, s)
  | Some cache => (lru_peek cache key, {| s with signature_cache := Some (lru_touch cache key) |})
  end.

Definition check_rate_limit (s : SignatureVerifier) : bool * SignatureVerifier :=
  match rate_limiter s with
  | None => (true, s)
  | Some rl => let '(ok, rl) := rate_check rl in (ok, {| s with rate_limiter := Some rl |})
  end.

Definition verify_unchecked (signature : AuthorSignature) (data : list N) : result SignatureVerifierError NodeId :=
  ok_or (author_recover signature SdRaptorcastChunk (u8_byte <$> data)) SveInvalidSignature.

Definition sv_verify (s : SignatureVerifier) (signature : AuthorSignature) (data : list N)
    : result SignatureVerifierError NodeId * SignatureVerifier :=
  let '(ok, s) := check_rate_limit s in
  (if ok then verify_unchecked signature data else Err SveRateLimited, s).

Definition verify_force (s : SignatureVerifier) (signature : AuthorSignature) (data : list N)
    : result SignatureVerifierError NodeId * SignatureVerifier :=
  let '(_, s) := check_rate_limit s in (verify_unchecked signature data, s).

Definition save_cache (s : SignatureVerifier) (key : SignedOverData) (author : NodeId) : SignatureVerifier :=
  {| s with signature_cache := (λ cache, lru_insert cache key author) <$> signature_cache s |}.

(** ** packet_parser.rs: the signature *)

Definition verify_signature (s : SignatureVerifier) (m : ChunkMeta) (bypass_rate_limiter : Epoch → bool)
    : result InvalidChunk NodeId * SignatureVerifier :=
  let key := cm_signed_over_data m in
  let '(cached, s) := load_cached s key in
  match cached with
  | Some author => (Ok author, s)
  | None =>
      match signature_deserialize (sod_signature key) with
      | None => (Err InvalidSignature, s)
      | Some signature =>
          let bypass := match get_epoch m with Some epoch => bypass_rate_limiter epoch | None => false end in
          let '(r, s) := if bypass then verify_force s signature (signed_message key) else sv_verify s signature (signed_message key) in
          match r with
          | Err e => (Err (invalid_chunk_of e), s)
          | Ok author => (Ok author, save_cache s key author)
          end
      end
  end.

(** [ValidatedChunk] of udp.rs. *)
Record ValidatedChunk := mkValidatedChunk {
  vc_chunk : list N;
  vc_message : list N;
  vc_author : NodeId;
  vc_group_id : GroupId;
  vc_unix_ts_ms : N;
  vc_app_message_hash : list N;
  vc_app_message_len : N;
  vc_broadcast_mode : BroadcastMode;
  vc_recipient_hash : list N;
  vc_chunk_id : N;
  vc_num_source_symbols : N;
  vc_encoded_symbol_capacity : N;
}.

Definition validate_chunk (p : RaptorcastPacket) (message : list N) (s : SignatureVerifier) (bypass_rate_limiter : Epoch → bool)
    (max_age_ms : N) (self_id : NodeId) (elapsed : option N) : result InvalidChunk ValidatedChunk * SignatureVerifier :=
  match validate_chunk_meta p max_age_ms elapsed with
  | Err e => (Err e, s)
  | Ok m =>
      let '(r, s) := verify_signature s m bypass_rate_limiter in
      (author ← r;
       chunk ← map_err IcMalformed (split_chunk (versioned p) message);
       _ ← ensure (bool_decide (author ≠ self_id)) Loopback;
       Ok (mkValidatedChunk chunk message author (cm_group_id m) (cm_timestamp m) (cm_app_message_hash m)
            (cm_app_message_len m `mod` 4294967296) (cm_broadcast_mode m) (cm_recipient_hash m) (cm_chunk_id m `mod` 65536)
            (cm_num_source_symbols m) (cm_encoded_symbol_capacity m)), s)
  end.

Definition check_message_hash (c : ValidatedChunk) (app_message : list N) : option bool :=
  Some (bool_decide (vc_app_message_hash c = compute_app_message_hash app_message)).
End parser.
